(* ===== verification/_CoqProject ===== *)
-Q . S2P
Prelude.v
Types.v
SortedMap.v
PriceLevel.v
TradeBuffer.v
TradeIterator.v
BookSpec.v
OrderBook.v
MatchingEngine.v
RiskEngine.v
Bytes.v
Numerals.v
Fix.v
Clock.v
Json.v
Binary64.v
Protocol.v
Messages.v
PerformanceMetrics.v
Journal.v
Replay.v
ExchangeServer.v
ServerDemo.v
ServerFrames.v
ServerRecovery.v
ServerTorn.v
ServerSafety.v
ServerMessages.v
ServerOrders.v
ServerSettle.v
FeedReader.v
ServerFeed.v
ServerPositions.v
ServerStream.v
LockFreeRing.v
FixState.v
FixGateway.v
FixInvariant.v
FixDemo.v
FixSessions.v
FixOrders.v
Sockets.v
TcpServer.v
ServerThreads.v
MarketDataListener.v
ExchangeClient.v
FixClient.v
Connection.v
ClientDialogue.v
FixDialogue.v
Sha1.v
WebSocket.v
WebSocketThreads.v
FixThreads.v
Multicast.v
MulticastInvariant.v
MulticastDelivery.v
Telemetry.v
MemoryPool.v
Tools.v
