(* ===== verification/Prelude.v ===== *)
(** * ExchangeLab: a verification library for the exchange core

    ExchangeLab is a limit-order exchange in C++.  Clients send binary messages
    over TCP; the server checks them against risk limits, journals what it
    accepts, matches it on the order book of its symbol, and sends responses,
    executions and market data.  After a restart the journal is replayed.  FIX
    clients reach it through a gateway that translates their messages; market
    data leaves it through a multicast publisher with a thread of its own; a
    websocket gateway passes it on to browsers as JSON, with the telemetry of
    the server.  This library models these paths and proves them correct; paths
    below are under the repository's root.

    ** The program and its model

    Each file opens with what it holds.  In the order of _CoqProject:

    The engine:
    - [Prelude]: machine integers ([u32], [i64], ...: elements of [Z] with the
      reductions written out), exceptions ([res]), state with exceptions ([M]:
      the state survives a throw), loops over lists, sums over finite maps.
    - [Types] (types.hpp, order.hpp, trade.hpp).
    - [SortedMap]: std::map with either comparator, as a sorted list.
    - [PriceLevel] (price_level.hpp): the FIFO of one price.  A list iterator is
      the identity of its node; the total is a wrapping 32-bit integer.
    - [TradeBuffer] (trade_buffer.hpp): the small-buffer vector; the class
      [TradeSink] is what the engine needs of it, with a list as the reference;
      [TradeIterator]: its iterators.
    - [BookSpec]: the abstract book, two queues in priority order, and
      [BookSpec.process], price-time priority without levels.  It models no
      code: it is what the engine is proved to implement.
    - [OrderBook] (order_book.hpp): levels, id index, every operation, the
      representation invariant [OrderBook.inv] and the abstraction
      [OrderBook.abs].
    - [MatchingEngine] (matching_engine.hpp).
    - [RiskEngine] (risk_engine.hpp, risk_engine.cpp): limits, kill switches,
      working orders, exposures, with saturating arithmetic.

    Texts and numbers:
    - [Bytes]; [Numerals]: decimal text, std::to_string and std::from_chars.
    - [Fix] (fix.cpp): FIX messages, encoder, parser, extraction from a stream;
      [Clock]: the text of a timestamp, with the calendar.
    - [Json]: the pieces of the JSON texts the program writes, and a reader of
      JSON (RFC 8259) to state what they say.
    - [Binary64]: double, over the Standard Library's specification of IEEE
      arithmetic, with the accuracy the telemetry needs.
    - [Protocol] (protocol.hpp): the wire format, every codec; [Messages]: what
      a reader of the exchange needs of a message.

    The server:
    - [PerformanceMetrics] (performance_metrics.cpp): counters and histogram.
    - [Journal] (journal.cpp), [Replay] (replay.cpp).
    - [ExchangeServer] (exchange_server.cpp): the state, handlers and messages
      of the server, recovery, start, and the events of its life.
    - [ServerDemo]: a concrete server for the witnesses.
    - [ServerFrames]: the classes [Publishes] and [Settles]; what every step of
      a handler leaves alone is proved once for all relations of these classes.
    - [ServerSettle]: what a handler computes under the engine lock, as a
      function of the book, the owners, the trades and the risk engine.
    - [ServerRecovery], [ServerTorn], [ServerSafety], [ServerMessages],
      [ServerOrders], [ServerFeed], [ServerStream], [ServerPositions]: the
      theorems about the server; [FeedReader] is the reader of the level-3 feed that the theorem
      about the feed is stated with.
    - [Telemetry] (performance_metrics.cpp, exchange_server.cpp): the JSON text
      with counters and rates, its publisher, and the thread that sends it.
    - [LockFreeRing] (lock_free_ring.hpp): the single-producer single-consumer
      ring, one step per atomic access, with the stores a relaxed or acquire
      load may return; the abstract queue [BoundedQueue].
    - [Multicast] (multicast_publisher.cpp): the threads that send, the
      publisher thread and stop, one step for each atomic access, in a memory
      with release, acquire and relaxed orders;
      [MulticastInvariant]: what every interleaving of them maintains;
      [MulticastDelivery]: the theorems about the publisher.

    The FIX gateway:
    - [FixState], [FixGateway] (fix_gateway.cpp): the structures of a session;
      the translation of orders ([FixBridge]), every handler, and one turn of
      handle_client ([poll_turn]).  A handler runs in a state that also records
      what was sent, in order.
    - [FixInvariant]: what every handler of a session maintains; [FixDemo]: a
      concrete session for the witnesses; [FixSessions], [FixOrders]: the
      theorems about sessions and their orders.
    - [FixThreads] (fix_gateway.cpp): start, run and stop, the connection to the
      core, and the threads of the clients.

    Sockets and the programs around the exchange:
    - [Sockets]: the system calls, as the parameter [System] with laws; accounts
      of the open descriptors ([owned]).
    - [TcpServer] (tcp_server.cpp).
    - [ServerThreads] (exchange_server.cpp): start, run and stop, the threads of
      the clients and the telemetry thread, over [TcpServer] and the exchange.
    - [Sha1] (websocket_gateway.cpp): SHA-1 and base64 of the accept key, with
      FIPS 180-4 as the reference ([Fips]).
    - [WebSocket] (websocket_gateway.cpp): handshake, frames, market data as
      JSON, and what the threads of the gateway do with a connection or a
      datagram; [WebSocketThreads]: its sockets, start, run and stop.
    - [ExchangeClient] (tools/exchange_client.cpp), [FixClient]
      (tools/exchange_fix_client.cpp): the demonstration clients.
    - [Connection]: a TCP connection to a process that is modelled too;
      [ClientDialogue]: the client and the server; [FixDialogue]: the FIX client,
      a session of the FIX gateway and the server.
    - [MarketDataListener] (tools/exchange_market_data_listener.cpp).
    - [MemoryPool] (memory_pool.hpp): the counters of the memory resource.
    - [Tools] (src/main.cpp, tools/exchange_replay.cpp,
      tools/exchange_risk_demo.cpp and the programs of the two gateways): every
      main, with what it prints.

    ** What is shown

    - Matching: the engine implements the abstract book on every order with a
      fresh id, as long as no 32-bit total of a level has wrapped where it is
      read, by a fill-or-kill order, a cancellation or a replacement
      ([process_order_refines], [cancel_replace_refines]); it respects
      price-time priority, conserves quantity, fills or kills
      ([fill_or_kill]), rests only what may rest; when a submission throws, on
      a taken id of either side included, and what it then leaves
      ([process_order_errors]).
    - Risk: the checks accept exactly what their limits say ([checks_exact]);
      the counters are the sums over the working orders; no limit is ever
      passed ([position_within_limit]).
    - Wire format: every decoder accepts exactly the encodings of valid
      messages and inverts the encoder.
    - Journal and replay: replay is total, applies the messages in order, and
      builds only sound books from any bytes.
    - Server: recovery rebuilds exactly the books, unless a write to the journal
      has failed ([recovery_exact]); a failed write leaves the books before the
      command or after it, or a file that cannot be read, by how many of its
      bytes are written ([torn_write_recovery], and the defect
      [torn_length_poisons_journal]); no undefined behaviour in any reachable
      state ([server_safe]); consecutive sequence numbers; one answer per
      request, and no other effect of a rejected one; only an owner changes an
      order; the kill switch stops all but cancellations; the working orders of
      the risk engine are the resting orders of the connected clients, so that
      no client passes a limit ([server_within_limits]); who has the books
      at one moment and from then on reads only the level-3 feed keeps them
      ([feed_rebuilds_books]); every message is well formed
      ([messages_well_formed]); how TCP cuts streams of framed requests makes no
      difference ([cuts_invisible]).  These are theorems about sequences of
      events; what the threads do, in any interleaving, is what such a sequence
      does ([threads_refine_events]), and once stop is called they end and leave
      no descriptor open ([exchange_stops]).
    - Telemetry: each text is JSON, exact in its counters and within a rounding
      error in its quotients, and fits the buffer of its reader
      ([telemetry_exact]).
    - Ring: under every interleaving and every load the memory model allows it
      is a bounded queue, without data races ([ring_refines]).
    - Multicast publisher: each shard has one thread and delivers whole
      datagrams, in order, once, and the statistics are exact while nothing is
      on its way ([publisher_exact]); when the publisher thread has ended, what
      the caller of stop knew to be queued has been sent ([stop_drains]).  The
      memory orders of the code allow more than its comments do, as concrete
      interleavings show: a send in progress is lost ([stop_loses]), a wake-up
      is missed ([wakeup_missed]), stop never returns ([stop_hangs]).  Shards
      run out ([shards_exhausted]).
    - FIX codec: the parser accepts exactly the format ([parse_exact]) and
      inverts the encoder; messages survive any fragmentation of the stream.
    - FIX gateway: a session ends on any input ([session_total], which takes the
      conversion of an average price to an integer to be defined; where long
      double is double it need not be, [average_leaves_int64]); what it sends
      is well formed, numbered and valid for its reader
      ([client_messages_well_formed], [core_requests_valid]); a request is
      forwarded or refused, once ([request_forwarded_or_refused]), an answer of
      the core settles the oldest request that waits for it, once
      ([responses_reported]); the quantities of an order
      add up ([order_accounting]) unless a trade overtakes the answer to a
      replacement ([replace_race]); the gateway closes what it opened, and
      stops unless a client thread is held up in a send ([fix_gateway_stops],
      and [stop_held_up] if one is).
    - Websocket gateway: the accept key is the standard's ([accept_key_exact]);
      the handshake answers exactly the requests of at most 16 KiB with a header
      spelled Sec-WebSocket-Key, however they are cut ([handshake_exact]); the JSON parses to what the datagram says
      ([json_exact]); a client that keeps up reads exactly the texts of the
      events since it connected ([feed_delivered]); the gateway closes what it
      opened, and stops unless a client that has not finished its handshake or
      does not read holds a thread or the mutex up ([gateway_stops], with the
      exceptions [stop_leaks], [stop_waits] and [stop_blocked]).
    - Programs: the demonstration clients run to their end against the models
      of what they talk to ([demo_completes], [fix_demo_completes]); a TCP
      server loses no descriptor ([descriptors_accounted]); the replay tool
      prints exactly the books of the server whose journal it reads
      ([replay_tool_reports_server]); the servers and gateways the mains start
      are those of the theorems above ([main_journaled], [fix_main_reachable],
      [websocket_main_reachable]).
    - Small parts: the loops over a trade buffer visit its trades
      ([range_for_visits]) and its iterators are positions; a timestamp is the
      date and time of its millisecond ([utc_timestamp_exact]), which discharges
      what the FIX gateway assumes of it; the counters of the memory pool account
      for the memory it holds ([pool_accounted]).

    ** Modelling choices

    An exception is a value; the state changed before it is kept.  Undefined
    behaviour of C++ (a stale iterator, an access outside a buffer) is the
    exception [Undefined], and [OutOfFuel] marks an exhausted loop bound; the
    safety theorems show that neither occurs.  Bounds: [match_fuel] is one more
    than the resting orders of the opposite side, since each iteration but the
    last removes one; [replay_fuel] is one more than the bytes of the file,
    since each record consumes its length; the receive loop has the length of
    its buffer, since each message consumes a header.  The loops of the TCP
    server repeat interrupted calls: [attempts] bounds these, and suffices when
    the system interrupts no more calls than that ([Patient]).  An
    unordered_map is a [gmap]; where the code iterates over one the result is
    shown not to depend on the order (recovery), or the order is a parameter
    (the deleted orders of a level-3 update).  The disk ([io]), the clock
    ([elapsed]) and that order are arbitrary functions in every server theorem.

    The operating system is a parameter: a type of states with the calls as
    functions on it ([System]), whose laws are what POSIX says of them.  What a
    call answers, and how much of a stream it takes or delivers, is up to it.

    A FIX session has the bytes its two sockets deliver as input, turn by turn;
    whether a socket takes a message, what connecting gives and the clocks are
    parameters (class [World]) that may depend on the whole state.  long double
    is a parameter with the operations the code uses (class [LongDouble]); its
    only law is that a printed number holds no separator.  The loops over the
    receive buffers have fuel one above the bytes they hold, since each message
    shortens the buffer.

    One message is one step of the server.  On a journaled server
    journal_processing_mutex_ makes it so for messages; connections and the
    kill switch are separate events between messages.  The threads of the server
    interleave at the granularity of messages ([ServerThreads]).  A turn of a FIX session,
    and a section of the websocket gateway under its mutex, is one step; the
    tests of the running flags, the joins and the calls that block are steps of
    their own.

    The memory of the multicast publisher is made of histories: a flag, an
    active_sender or a position is the list of the values it was given, and a
    load may return any that is not older than what its thread has read or
    written there, or learned from a release it has acquired.  What a store
    releases is kept for the positions of the queues, the only thing that the
    threads conclude from what they acquire.  The write and read positions are
    those that [ring_refines] is about; its slots are a list here.  Counters
    that are only added to, a loop that only the owner of a shard can disturb
    (update_max_depth) and the registration of a thread are one step each, and
    the statistics are a function of the values that their loads returned.
    Fewer than 2^64 registrations are attempted in a generation ([trace]).

    ** Not modelled

    The interleaving of handlers within a message on a server without a journal;
    a destructor that runs while run has not returned; what the programs write
    to std::cerr and the console output of the server; the pool of the standard
    library under memory_pool.hpp; benchmarks, tests, the dashboard and the
    containers. *)
From stdpp Require Export base gmap strings list list_numbers numbers fin_maps sorting.
From Stdlib Require Export Lia ZArith.

#[global] Open Scope Z_scope.

(** ** Machine integers

    The fixed-width C++ integers of the program are elements of [Z] kept in
    range; every conversion or wrapping operation of the source is written
    with the explicit reduction below.  [std::size_t] is 64 bits wide. *)

Definition u8 (z : Z) : Z := z `mod` 2 ^ 8.
Definition u16 (z : Z) : Z := z `mod` 2 ^ 16.
Definition u32 (z : Z) : Z := z `mod` 2 ^ 32.
Definition u64 (z : Z) : Z := z `mod` 2 ^ 64.
Definition i64 (z : Z) : Z := (z + 2 ^ 63) `mod` 2 ^ 64 - 2 ^ 63.

Definition in_u8 (z : Z) : Prop := 0 ≤ z < 2 ^ 8.
Definition in_u16 (z : Z) : Prop := 0 ≤ z < 2 ^ 16.
Definition in_u32 (z : Z) : Prop := 0 ≤ z < 2 ^ 32.
Definition in_u64 (z : Z) : Prop := 0 ≤ z < 2 ^ 64.
Definition in_i64 (z : Z) : Prop := - 2 ^ 63 ≤ z < 2 ^ 63.

Create HintDb machine.

(** [word] solves goals on the ranges and reductions above: it unfolds them,
    evaluates the powers and calls [lia] (with [Z.div]/[Z.modulo] support). *)
Ltac word :=
  unfold in_u8, in_u16, in_u32, in_u64, in_i64, u8, u16, u32, u64, i64 in *;
  change (2 ^ 8) with 256 in *; change (2 ^ 16) with 65536 in *;
  change (2 ^ 32) with 4294967296 in *;
  change (2 ^ 63) with 9223372036854775808 in *;
  change (2 ^ 64) with 18446744073709551616 in *;
  Z.to_euclidean_division_equations; lia.

Lemma in_u32_u64 (z : Z) : in_u32 z → in_u64 z.
Proof. word. Qed.
Lemma u32_in (z : Z) : in_u32 (u32 z).
Proof. word. Qed.
Lemma u64_in (z : Z) : in_u64 (u64 z).
Proof. word. Qed.
Lemma i64_in (z : Z) : in_i64 (i64 z).
Proof. word. Qed.
Lemma u8_id (z : Z) : in_u8 z → u8 z = z.
Proof. word. Qed.
Lemma u16_id (z : Z) : in_u16 z → u16 z = z.
Proof. word. Qed.
Lemma u32_id (z : Z) : in_u32 z → u32 z = z.
Proof. word. Qed.
Lemma u64_id (z : Z) : in_u64 z → u64 z = z.
Proof. word. Qed.
Lemma i64_u64 (z : Z) : in_i64 z → i64 (u64 z) = z.
Proof. word. Qed.
Lemma u32_add_l (a b : Z) : u32 (u32 a + b) = u32 (a + b).
Proof. unfold u32. by rewrite Zplus_mod_idemp_l. Qed.
Lemma u32_sub_l (a b : Z) : u32 (u32 a - b) = u32 (a - b).
Proof. unfold u32. by rewrite Zminus_mod_idemp_l. Qed.
Lemma u32_le (z : Z) : 0 ≤ z → u32 z ≤ z.
Proof. intros. unfold u32. apply Z.mod_le; lia. Qed.

#[export] Hint Resolve u32_in u64_in i64_in u8_id u16_id u32_id u64_id : machine.

(** ** Exceptions and state

    A C++ function that may throw is a value of [res]; one that also mutates
    an object is a function [S → res A * S].  The state is returned on both
    exits: an exception does not undo the mutations made before the throw. *)

Inductive exn : Type :=
  | InvalidArgument (what : string)
  | OutOfRange (what : string)
  | LogicError (what : string)
  | RuntimeError (what : string)
  | LengthError (what : string)
  | Undefined (what : string)   (* a step whose behaviour C++ leaves undefined *)
  | OutOfFuel.                  (* the bound of a loop of the model is reached *)

Inductive res (A : Type) : Type :=
  | Ok (a : A)
  | Throw (e : exn).
Arguments Ok {A} a.
Arguments Throw {A} e.

#[export] Instance exn_eq_dec : EqDecision exn.
Proof. solve_decision. Defined.

Definition res_bind {A B : Type} (r : res A) (k : A → res B) : res B :=
  match r with Ok a => k a | Throw e => Throw e end.

Definition is_ok {A : Type} (r : res A) : bool :=
  match r with Ok _ => true | Throw _ => false end.

Definition M (S A : Type) : Type := S → res A * S.

Definition ret {S A : Type} (a : A) : M S A := λ s, (Ok a, s).
Definition throw {S A : Type} (e : exn) : M S A := λ s, (Throw e, s).
Definition bind {S A B : Type} (m : M S A) (k : A → M S B) : M S B :=
  λ s, match m s with
       | (Ok a, s') => k a s'
       | (Throw e, s') => (Throw e, s')
       end.
Definition get {S : Type} : M S S := λ s, (Ok s, s).
Definition put {S : Type} (s : S) : M S unit := λ _, (Ok tt, s).
Definition modify {S : Type} (f : S → S) : M S unit := λ s, (Ok tt, f s).
Definition lift {S A : Type} (r : res A) : M S A := λ s, (r, s).

Declare Scope exchange_scope.
Delimit Scope exchange_scope with exchange.
Notation "'let*' x := r 'in' k" := (res_bind r (λ x, k))
  (at level 10, x pattern at level 0, r at level 100, k at level 200) : exchange_scope.
Notation "x <- m ;; k" := (bind m (λ x, k))
  (at level 100, m at next level, right associativity) : exchange_scope.
Notation "m ;;; k" := (bind m (λ _, k))
  (at level 100, right associativity) : exchange_scope.
#[global] Open Scope exchange_scope.

(* the range-for loop, without and with an accumulator *)
Fixpoint for_each {S A : Type} (l : list A) (f : A → M S unit) : M S unit :=
  match l with
  | [] => ret tt
  | x :: l' => f x ;;; for_each l' f
  end.

Fixpoint fold_each {S A B : Type} (l : list A) (f : B → A → M S B) (acc : B) : M S B :=
  match l with
  | [] => ret acc
  | x :: l' => acc' <- f acc x ;; fold_each l' f acc'
  end.

Lemma bind_Ok {S A B : Type} (m : M S A) (k : A → M S B) s b s' :
  bind m k s = (Ok b, s') → ∃ a s1, m s = (Ok a, s1) ∧ k a s1 = (Ok b, s').
Proof. unfold bind. destruct (m s) as [[a|e] s1]; [|done]. intros H. by exists a, s1. Qed.

Lemma for_each_app {S A : Type} (l1 l2 : list A) (f : A → M S unit) s :
  for_each (l1 ++ l2) f s = (for_each l1 f ;;; for_each l2 f) s.
Proof.
  revert s. induction l1 as [|x l1 IH]; intros s; [done|]. simpl. unfold bind.
  destruct (f x s) as [[[]|e] s']; [|done]. rewrite IH. done.
Qed.

(** *** Operations that keep a relation between the states before and after,
    whether they return or throw *)

Definition preserves {S A : Type} (R : S → S → Prop) (m : M S A) : Prop := ∀ s, R s (m s).2.

Create HintDb preserves discriminated.
#[global] Hint Constants Opaque : preserves.
#[global] Hint Variables Opaque : preserves.

Section preserves.
Context {S : Type} (R : S → S → Prop) `{!PreOrder R}.

Lemma preserves_bind {A B} (m : M S A) (k : A → M S B) :
  preserves R m → (∀ a, preserves R (k a)) → preserves R (bind m k).
Proof.
  intros Hm Hk s. specialize (Hm s). unfold bind.
  destruct (m s) as [[a|e] s']; [|done]. by etrans; [exact Hm|apply Hk].
Qed.

Lemma preserves_ret {A} (a : A) : preserves R (ret a).
Proof. by intros s. Qed.

Lemma preserves_throw {A} e : preserves R (throw e : M S A).
Proof. by intros s. Qed.

Lemma preserves_lift {A} (r : res A) : preserves R (lift r).
Proof. by intros s. Qed.

Lemma preserves_for_each {A} (l : list A) f :
  (∀ x, preserves R (f x)) → preserves R (for_each l f).
Proof. intros Hf. induction l; [apply preserves_ret|by apply preserves_bind]. Qed.

Lemma preserves_fold_each {A B} (l : list A) (f : B → A → M S B) acc :
  (∀ acc x, preserves R (f acc x)) → preserves R (fold_each l f acc).
Proof.
  intros Hf. revert acc. induction l; intros acc; [apply preserves_ret|by apply preserves_bind].
Qed.
End preserves.

#[export] Hint Resolve preserves_ret preserves_throw preserves_lift : preserves.
#[export] Hint Extern 0 (PreOrder _) => apply _ : preserves.

(** Case analysis on the scrutinee of every [match]/[if] of the goal or the
    context, remembering the equation. *)
Ltac split_match :=
  match goal with
  | |- context [match ?x with _ => _ end] => destruct x eqn:?
  | H : context [match ?x with _ => _ end] |- _ => destruct x eqn:?
  end.

(** Booleans of [Z] comparisons to propositions. *)
Ltac zify_bool :=
  repeat match goal with
  | H : (_ <? _) = true |- _ => apply Z.ltb_lt in H
  | H : (_ <? _) = false |- _ => apply Z.ltb_ge in H
  | H : (_ >? _) = _ |- _ => rewrite Z.gtb_ltb in H
  | H : (_ >=? _) = _ |- _ => rewrite Z.geb_leb in H
  | H : (_ <=? _) = true |- _ => apply Z.leb_le in H
  | H : (_ <=? _) = false |- _ => apply Z.leb_gt in H
  | H : (_ =? _) = true |- _ => apply Z.eqb_eq in H
  | H : (_ =? _) = false |- _ => apply Z.eqb_neq in H
  | H : negb _ = true |- _ => apply negb_true_iff in H
  | H : negb _ = false |- _ => apply negb_false_iff in H
  | H : _ && _ = true |- _ => apply andb_true_iff in H as [? ?]
  | H : _ || _ = false |- _ => apply orb_false_iff in H as [? ?]
  end.

(** ** Lists *)

Definition sum_Z (l : list Z) : Z := foldr Z.add 0 l.

Lemma sum_Z_app (l1 l2 : list Z) : sum_Z (l1 ++ l2) = sum_Z l1 + sum_Z l2.
Proof. induction l1; simpl; lia. Qed.

Lemma sum_Z_nonneg (l : list Z) : Forall (λ z, 0 ≤ z) l → 0 ≤ sum_Z l.
Proof. induction 1; simpl; lia. Qed.

Lemma sum_Z_elem_le (l : list Z) (z : Z) :
  Forall (λ z, 0 ≤ z) l → z ∈ l → z ≤ sum_Z l.
Proof.
  induction 1 as [|x l Hx Hl IH]; intros Hz; [by apply elem_of_nil in Hz|].
  pose proof (sum_Z_nonneg l Hl).
  apply elem_of_cons in Hz as [->|Hz]; simpl; [lia|]. specialize (IH Hz). lia.
Qed.

Lemma StronglySorted_mid {A} (R : A → A → Prop) (l1 l2 : list A) (x : A) :
  StronglySorted R (l1 ++ x :: l2) →
  (∀ y, y ∈ l1 → R y x) ∧ (∀ y, y ∈ l2 → R x y) ∧ StronglySorted R (l1 ++ l2).
Proof.
  rewrite !StronglySorted_app, StronglySorted_cons.
  intros (H1 & H2 & H3 & H4). rewrite Forall_forall in H3. set_solver.
Qed.

Lemma filter_all {A} (P : A → Prop) `{∀ x, Decision (P x)} (l : list A) :
  Forall P l → filter P l = l.
Proof. induction 1; [done|]. rewrite filter_cons_True by done. by f_equal. Qed.

(** ** Sums over finite maps *)

Definition msum `{Countable K} {A} (f : K → A → Z) (m : gmap K A) : Z :=
  map_fold (λ k x acc, f k x + acc) 0 m.

Section msum.
Context `{Countable K} {A : Type} (f : K → A → Z).
Implicit Types (m : gmap K A).

Lemma msum_empty : msum f ∅ = 0.
Proof. apply map_fold_empty. Qed.

Lemma msum_insert m k x : m !! k = None → msum f (<[k := x]> m) = f k x + msum f m.
Proof.
  intros Hk. unfold msum. rewrite map_fold_insert_L; [done|intros; lia|done].
Qed.

Lemma msum_delete m k x : m !! k = Some x → msum f (delete k m) = msum f m - f k x.
Proof.
  intros Hk. rewrite <- (insert_delete_id m k x Hk) at 2.
  rewrite msum_insert by apply lookup_delete_eq. lia.
Qed.

Lemma msum_update m k x y :
  m !! k = Some x → msum f (<[k := y]> m) = msum f m - f k x + f k y.
Proof.
  intros Hk. rewrite <- insert_delete_eq, msum_insert by apply lookup_delete_eq.
  rewrite (msum_delete _ _ _ Hk). lia.
Qed.

Lemma msum_nonneg m : map_Forall (λ k x, 0 ≤ f k x) m → 0 ≤ msum f m.
Proof.
  induction m as [|k x m Hk IH] using map_ind; intros Hm; [by rewrite msum_empty|].
  rewrite msum_insert by done. apply map_Forall_insert in Hm as [? Hm]; [|done].
  specialize (IH Hm). lia.
Qed.

Lemma msum_elem_le m k x :
  map_Forall (λ k x, 0 ≤ f k x) m → m !! k = Some x → f k x ≤ msum f m.
Proof.
  intros Hm Hk. pose proof (msum_delete _ _ _ Hk).
  assert (0 ≤ msum f (delete k m)) by (apply msum_nonneg; by apply map_Forall_delete). lia.
Qed.

Lemma msum_le (g : K → A → Z) m :
  map_Forall (λ k x, f k x ≤ g k x) m → msum f m ≤ msum g m.
Proof.
  unfold msum. induction m as [|k x m Hk IH] using map_ind; intros Hm; [by rewrite !map_fold_empty|].
  rewrite !map_fold_insert_L by (done || intros; lia).
  apply map_Forall_insert in Hm as [? Hm]; [|done]. specialize (IH Hm). lia.
Qed.

Lemma msum_bound m (B : Z) :
  map_Forall (λ k x, f k x ≤ B) m → msum f m ≤ Z.of_nat (size m) * B.
Proof.
  induction m as [|k x m Hk IH] using map_ind; intros Hm.
  { rewrite msum_empty, map_size_empty. lia. }
  rewrite msum_insert, map_size_insert_None by done.
  apply map_Forall_insert in Hm as [? Hm]; [|done]. specialize (IH Hm). lia.
Qed.
End msum.

(** The sum of a map whose entries that count are listed. *)
Lemma msum_list `{Countable K} {A} (f : K → A → Z) (m : gmap K A) (l : list (K * A)) :
  NoDup l.*1 → Forall (λ x, m !! x.1 = Some x.2) l →
  (∀ k x, m !! k = Some x → k ∉ l.*1 → f k x = 0) →
  msum f m = sum_Z ((λ x, f x.1 x.2) <$> l).
Proof.
  revert m. induction l as [|[k x] l IH]; intros m Hd Hl Hz.
  - clear Hd Hl. induction m as [|k x m Hk IH] using map_ind; [done|]. rewrite msum_insert by done.
    rewrite (Hz k x), IH; [done| |by rewrite lookup_insert_eq|by intros ?%elem_of_nil].
    intros k' x' Hk' _. apply Hz; [|by intros ?%elem_of_nil]. rewrite lookup_insert_ne; [done|congruence].
  - cbn in Hd. apply NoDup_cons in Hd as [Hk Hd]. apply Forall_cons in Hl as [Hx Hl]. simpl in Hx.
    pose proof (msum_delete f m k x Hx) as He. rewrite fmap_cons. cbn [sum_Z foldr fst snd].
    rewrite (IH (delete k m)) in He; [unfold sum_Z in *; lia|done| |].
    + rewrite Forall_forall in Hl |- *. intros [k' x'] Hin. rewrite lookup_delete_ne; [by apply Hl|].
      intros ->. apply Hk. by apply (list_elem_of_fmap_2 fst _ (k', x')).
    + intros k' x' [Hne Hk']%lookup_delete_Some Hn. apply Hz; [done|].
      rewrite fmap_cons, not_elem_of_cons. split; [by intros ->|done].
Qed.
