(* ===== verification/Types.v ===== *)
(** * Shared value types (include/exchange/types.hpp, order.hpp, trade.hpp)

    [OrderId], [Timestamp] are 64-bit unsigned, [Price] 64-bit signed,
    [Quantity] 32-bit unsigned; the records are the structs of the source. *)
From S2P Require Import Prelude.

Abbreviation OrderId := Z (only parsing).
Abbreviation Price := Z (only parsing).
Abbreviation Quantity := Z (only parsing).
Abbreviation Timestamp := Z (only parsing).

Inductive Side : Type := Buy | Sell.
Inductive OrderType : Type := Limit | Market.
Inductive TimeInForce : Type := GoodTillCancel | ImmediateOrCancel | FillOrKill.

#[export] Instance Side_eq_dec : EqDecision Side.
Proof. solve_decision. Defined.
#[export] Instance OrderType_eq_dec : EqDecision OrderType.
Proof. solve_decision. Defined.
#[export] Instance TimeInForce_eq_dec : EqDecision TimeInForce.
Proof. solve_decision. Defined.

Module Order.
Record t : Type := mk {
  id : OrderId;
  side : Side;
  type : OrderType;
  time_in_force : TimeInForce;
  price : Price;
  initial_quantity : Quantity;
  remaining_quantity : Quantity;
  timestamp : Timestamp
}.

Definition is_filled (o : t) : bool := remaining_quantity o =? 0.

(* field assignments of the source *)
Definition set_remaining_quantity (q : Quantity) (o : t) : t :=
  mk (id o) (side o) (type o) (time_in_force o) (price o)
     (initial_quantity o) q (timestamp o).
Definition set_time_in_force (tif : TimeInForce) (o : t) : t :=
  mk (id o) (side o) (type o) tif (price o)
     (initial_quantity o) (remaining_quantity o) (timestamp o).

#[export] Instance eq_dec : EqDecision t.
Proof. solve_decision. Defined.
End Order.
Abbreviation Order := Order.t.
Export (hints) Order.

Module Trade.
Record t : Type := mk {
  buy_order_id : OrderId;
  sell_order_id : OrderId;
  price : Price;
  quantity : Quantity;
  timestamp : Timestamp
}.

#[export] Instance eq_dec : EqDecision t.
Proof. solve_decision. Defined.
End Trade.
Abbreviation Trade := Trade.t.
Export (hints) Trade.

(** The opposite side: the one an order of side [s] trades against. *)
Definition opposite (s : Side) : Side :=
  match s with Buy => Sell | Sell => Buy end.

(** The trade an incoming order makes with a resting one: the fields the
    two matching loops of the engine fill in. *)
Definition trade_between (incoming resting : Order) (q : Quantity) : Trade :=
  match Order.side incoming with
  | Buy => Trade.mk (Order.id incoming) (Order.id resting) (Order.price resting)
             q (Order.timestamp incoming)
  | Sell => Trade.mk (Order.id resting) (Order.id incoming) (Order.price resting)
             q (Order.timestamp incoming)
  end.

(** A well-typed order: every field is in the range of its C++ type. *)
Definition order_typed (o : Order) : Prop :=
  in_u64 (Order.id o) ∧ in_i64 (Order.price o) ∧
  in_u32 (Order.initial_quantity o) ∧ in_u32 (Order.remaining_quantity o) ∧
  in_u64 (Order.timestamp o).
