(* ===== verification/SortedMap.v ===== *)
(** * Ordered containers: std::map as a sorted association list

    The order book keeps its levels in [std::pmr::map]s, one with
    [std::greater] and one with [std::less].  A map is modelled by the list of
    its entries in iteration order, and its operations search by the
    comparator, as the red-black tree does. *)
From S2P Require Import Prelude Types.

(** What the book needs of a comparator: a decidable strict total order. *)
Class Comparator (before : Z → Z → bool) : Prop := {
  before_irrefl : ∀ a, before a a = false;
  before_trans : ∀ a b c, before a b = true → before b c = true → before a c = true;
  before_total : ∀ a b, before a b = false → before b a = false → a = b
}.

(** [std::less<Price>] and [std::greater<Price>]. *)
#[export] Instance less_comparator : Comparator Z.ltb.
Proof. split; intros; zify_bool; lia. Qed.
#[export] Instance greater_comparator : Comparator Z.gtb.
Proof. split; intros; rewrite ?Z.gtb_ltb in *; zify_bool; lia. Qed.

Section smap.
Context {V : Type} (before : Z → Z → bool).
Implicit Types (m : list (Z * V)) (k : Z) (v : V).

Fixpoint smap_find k m : option V :=
  match m with
  | [] => None
  | (k', v) :: m' =>
      if before k' k then smap_find k m'
      else if before k k' then None else Some v
  end.

(* try_emplace: inserts only when the key is absent *)
Fixpoint smap_try_emplace k v m : list (Z * V) :=
  match m with
  | [] => [(k, v)]
  | (k', v') :: m' =>
      if before k' k then (k', v') :: smap_try_emplace k v m'
      else if before k k' then (k, v) :: m else m
  end.

(* assignment through an iterator to the entry of key [k] *)
Fixpoint smap_update k v m : list (Z * V) :=
  match m with
  | [] => []
  | (k', v') :: m' =>
      if before k' k then (k', v') :: smap_update k v m'
      else if before k k' then m else (k', v) :: m'
  end.

Fixpoint smap_erase k m : list (Z * V) :=
  match m with
  | [] => []
  | (k', v') :: m' =>
      if before k' k then (k', v') :: smap_erase k m'
      else if before k k' then m else m'
  end.

Definition smap_sorted m : Prop :=
  StronglySorted (λ a b, before a.1 b.1 = true) m.
End smap.

Section smap_lemmas.
Context {V : Type} (before : Z → Z → bool) `{!Comparator before}.
Implicit Types (m : list (Z * V)) (k : Z) (v : V).

Lemma before_asym a b : before a b = true → before b a = false.
Proof.
  intros H. destruct (before b a) eqn:E; [|done].
  pose proof (before_trans _ _ _ H E). by rewrite before_irrefl in *.
Qed.

Lemma smap_find_Some k m v :
  smap_find before k m = Some v →
  ∃ m1 m2, m = m1 ++ (k, v) :: m2 ∧ Forall (λ e, before e.1 k = true) m1.
Proof.
  induction m as [|[k' v'] m IH]; simpl; [done|].
  destruct (before k' k) eqn:E1.
  - intros (m1 & m2 & -> & Hm1)%IH. exists ((k', v') :: m1), m2. auto.
  - destruct (before k k') eqn:E2; [done|]. intros [= ->].
    rewrite (before_total _ _ E1 E2). by exists [], m.
Qed.

Lemma smap_find_app m1 m2 k :
  Forall (λ e, before e.1 k = true) m1 →
  smap_find before k (m1 ++ m2) = smap_find before k m2.
Proof.
  induction 1 as [|[k' v'] m1 H _ IH]; simpl in *; [done|]. by rewrite H.
Qed.
Lemma smap_find_mid m1 m2 k v :
  Forall (λ e, before e.1 k = true) m1 →
  smap_find before k (m1 ++ (k, v) :: m2) = Some v.
Proof. intros. rewrite smap_find_app by done. simpl. by rewrite before_irrefl. Qed.
Lemma smap_update_mid m1 m2 k v v' :
  Forall (λ e, before e.1 k = true) m1 →
  smap_update before k v' (m1 ++ (k, v) :: m2) = m1 ++ (k, v') :: m2.
Proof.
  induction 1 as [|[k' w] m1 H _ IH]; simpl in *.
  - by rewrite before_irrefl.
  - by rewrite H, IH.
Qed.
Lemma smap_erase_mid m1 m2 k v :
  Forall (λ e, before e.1 k = true) m1 →
  smap_erase before k (m1 ++ (k, v) :: m2) = m1 ++ m2.
Proof.
  induction 1 as [|[k' w] m1 H _ IH]; simpl in *.
  - by rewrite before_irrefl.
  - by rewrite H, IH.
Qed.
Lemma smap_emplace_mid m1 m2 k v v' :
  Forall (λ e, before e.1 k = true) m1 →
  smap_try_emplace before k v' (m1 ++ (k, v) :: m2) = m1 ++ (k, v) :: m2.
Proof.
  induction 1 as [|[k' w] m1 H _ IH]; simpl in *.
  - by rewrite before_irrefl.
  - by rewrite H, IH.
Qed.

(** Every key splits a sorted map into the entries before it and those
    after it; the key is in the map or it is not. *)
Lemma smap_find_None k m :
  smap_sorted before m → smap_find before k m = None →
  ∃ m1 m2, m = m1 ++ m2 ∧ Forall (λ e, before e.1 k = true) m1 ∧
    Forall (λ e, before k e.1 = true) m2 ∧
    ∀ v, smap_try_emplace before k v m = m1 ++ (k, v) :: m2.
Proof.
  induction m as [|[k' v'] m IH]; simpl.
  { intros _ _. exists [], []. repeat split; constructor. }
  intros Hs. apply StronglySorted_inv in Hs as [Hs Hk]. simpl in Hk.
  destruct (before k' k) eqn:E1.
  - intros (m1 & m2 & -> & Hm1 & Hm2 & He)%IH; [|done].
    exists ((k', v') :: m1), m2. repeat split; auto.
    intros v. by rewrite He.
  - destruct (before k k') eqn:E2; [|done]. intros _.
    exists [], ((k', v') :: m). repeat split; auto.
    constructor; [done|]. eapply Forall_impl; [exact Hk|].
    intros e He. by eapply before_trans.
Qed.

Lemma smap_sorted_app m1 m2 k v :
  smap_sorted before (m1 ++ (k, v) :: m2) ↔
  smap_sorted before (m1 ++ m2) ∧
  Forall (λ e, before e.1 k = true) m1 ∧ Forall (λ e, before k e.1 = true) m2.
Proof.
  unfold smap_sorted. rewrite !StronglySorted_app, StronglySorted_cons, !Forall_forall.
  simpl. set_solver.
Qed.

Lemma smap_find_elem k v m :
  smap_sorted before m → (k, v) ∈ m → smap_find before k m = Some v.
Proof.
  intros Hs (m1 & m2 & ->)%list_elem_of_split.
  apply smap_sorted_app in Hs as (_ & Hm1 & _). by apply smap_find_mid.
Qed.
End smap_lemmas.

(** The comparator of a side's map: best bids are the highest, best asks the
    lowest. *)
Definition before_of (s : Side) : Z → Z → bool :=
  match s with Buy => Z.gtb | Sell => Z.ltb end.

#[export] Instance before_of_comparator (s : Side) : Comparator (before_of s).
Proof. destruct s; apply _. Qed.
