(* ===== verification/PriceLevel.v ===== *)
(** * Price levels (include/exchange/price_level.hpp)

    A level is a FIFO [std::pmr::list<Order>] with its price and its total
    quantity, a [std::uint32_t] that wraps.  The nodes of the list carry their
    address, so that the iterators the order book keeps are node addresses:
    dereferencing or erasing an iterator that is not in the list any more is a
    step with undefined behaviour, which the invariants of the book exclude. *)
From S2P Require Import Prelude Types.

Abbreviation Node := nat (only parsing).

Module PriceLevel.

Record t : Type := mk {
  price_ : Price;
  total_quantity_ : Quantity;
  orders_ : list (Node * Order)
}.

Inductive iterator : Type := It (node : Node) | End.

Definition new_level (price : Price) : t := mk price 0 [].

Definition price (l : t) : Price := price_ l.
Definition total_quantity (l : t) : Quantity := total_quantity_ l.
Definition empty (l : t) : bool :=
  match orders_ l with [] => true | _ => false end.
Definition size (l : t) : nat := length (orders_ l).
Definition order_count (l : t) : nat := length (orders_ l).

Definition front (l : t) : res Order :=
  match orders_ l with
  | [] => Throw (OutOfRange "Price level is empty")
  | (_, o) :: _ => Ok o
  end.

(* [node] is the address the level's memory resource hands out for the node
   that push_back allocates *)
Definition add_order (l : t) (order : Order) (node : Node)
    : res (t * iterator) :=
  if Order.remaining_quantity order =? 0
  then Throw (InvalidArgument "Order quantity must be positive")
  else if negb (Order.price order =? price_ l)
  then Throw (InvalidArgument "Order price does not match price level")
  else
    Ok (mk (price_ l)
          (u32 (total_quantity_ l + Order.remaining_quantity order))
          (orders_ l ++ [(node, order)]),
        It node).

Fixpoint node_find (node : Node) (ns : list (Node * Order)) : option Order :=
  match ns with
  | [] => None
  | (n, o) :: ns' => if (n =? node)%nat then Some o else node_find node ns'
  end.

Fixpoint node_remove (node : Node) (ns : list (Node * Order)) : list (Node * Order) :=
  match ns with
  | [] => []
  | (n, o) :: ns' => if (n =? node)%nat then ns' else (n, o) :: node_remove node ns'
  end.

Definition erase (l : t) (order_iterator : iterator) : res t :=
  match order_iterator with
  | End => Throw (InvalidArgument "Cannot erase end iterator")
  | It node =>
      match node_find node (orders_ l) with
      | None => Throw (Undefined "iterator does not point into the level")
      | Some o =>
          if total_quantity_ l <? Order.remaining_quantity o
          then Throw (LogicError "Price level quantity is inconsistent")
          else Ok (mk (price_ l)
                     (u32 (total_quantity_ l - Order.remaining_quantity o))
                     (node_remove node (orders_ l)))
      end
  end.

Definition fill_front (l : t) (quantity : Quantity) : res t :=
  match orders_ l with
  | [] => Throw (OutOfRange "Cannot fill an empty price level")
  | (n, order) :: rest =>
      if quantity =? 0
      then Throw (InvalidArgument "Fill quantity must be positive")
      else if Order.remaining_quantity order <? quantity
      then Throw (InvalidArgument "Fill quantity exceeds remaining order quantity")
      else
        let order' := Order.set_remaining_quantity
                        (u32 (Order.remaining_quantity order - quantity)) order in
        let total' := u32 (total_quantity_ l - quantity) in
        if Order.is_filled order'
        then Ok (mk (price_ l) total' rest)
        else Ok (mk (price_ l) total' ((n, order') :: rest))
  end.

(** ** The level invariant *)

(** The quantity really resting at a list of nodes, as an unbounded integer. *)
Definition resting_nodes (ns : list (Node * Order)) : Z :=
  sum_Z ((λ no, Order.remaining_quantity no.2) <$> ns).
Definition resting (l : t) : Z := resting_nodes (orders_ l).

(** An order that may rest on side [s] of the book at price [p]. *)
Definition restable (s : Side) (p : Price) (o : Order) : Prop :=
  Order.side o = s ∧ Order.type o = Limit ∧ Order.price o = p ∧
  0 < Order.remaining_quantity o < 2 ^ 32.

(** The stored total is the resting quantity reduced to 32 bits, and every
    node holds an order that may rest here. *)
Record wf (s : Side) (p : Price) (l : t) : Prop := {
  wf_price : price_ l = p;
  wf_total : total_quantity_ l = u32 (resting l);
  wf_orders : Forall (λ no, restable s p no.2) (orders_ l)
}.

(** ** Lemmas on nodes *)

Lemma node_find_Some node ns o :
  node_find node ns = Some o →
  ∃ n1 n2, ns = n1 ++ (node, o) :: n2 ∧ node_remove node ns = n1 ++ n2 ∧
    node ∉ n1.*1.
Proof.
  induction ns as [|[n o'] ns IH]; simpl; [done|].
  destruct (n =? node)%nat eqn:E.
  - apply Nat.eqb_eq in E as ->. intros [= ->]. exists [], ns. set_solver.
  - apply Nat.eqb_neq in E. intros (n1 & n2 & -> & Hr & Hn)%IH.
    exists ((n, o') :: n1), n2. simpl. rewrite Hr. set_solver.
Qed.

Lemma node_find_elem node ns o : node_find node ns = Some o → (node, o) ∈ ns.
Proof. intros (n1 & n2 & -> & _)%node_find_Some. set_solver. Qed.

Lemma elem_node_find node ns o :
  NoDup ns.*1 → (node, o) ∈ ns → node_find node ns = Some o.
Proof.
  induction ns as [|[n o'] ns IH]; simpl; [set_solver|].
  intros [Hn Hnd]%NoDup_cons Hin. destruct (n =? node)%nat eqn:E.
  - apply Nat.eqb_eq in E as ->. apply elem_of_cons in Hin as [[= ->]|Hin]; [done|].
    exfalso. apply Hn. by apply (list_elem_of_fmap_2 fst) in Hin.
  - apply Nat.eqb_neq in E. apply IH; [done|].
    apply elem_of_cons in Hin as [[= -> ->]|]; done.
Qed.

Lemma resting_nodes_cons no ns :
  resting_nodes (no :: ns) = Order.remaining_quantity no.2 + resting_nodes ns.
Proof. done. Qed.
Lemma resting_nodes_app n1 n2 :
  resting_nodes (n1 ++ n2) = resting_nodes n1 + resting_nodes n2.
Proof. unfold resting_nodes. by rewrite fmap_app, sum_Z_app. Qed.

Lemma resting_nodes_nonneg s p ns :
  Forall (λ no, restable s p no.2) ns → 0 ≤ resting_nodes ns.
Proof.
  induction 1 as [|no ns (_ & _ & _ & ?) _ IH]; [done|].
  rewrite resting_nodes_cons. lia.
Qed.

Lemma resting_nonneg s p l : wf s p l → 0 ≤ resting l.
Proof. intros [_ _ H]. by eapply resting_nodes_nonneg. Qed.

Lemma resting_elem_le s p l n o :
  wf s p l → (n, o) ∈ orders_ l → Order.remaining_quantity o ≤ resting l.
Proof.
  intros [_ _ H] (n1 & n2 & Heq)%list_elem_of_split. unfold resting. rewrite Heq in *.
  apply Forall_app in H as [?%resting_nodes_nonneg [_ ?%resting_nodes_nonneg]%Forall_cons].
  rewrite resting_nodes_app, resting_nodes_cons. simpl. lia.
Qed.

(** The stored total is exact as long as the quantity fits in 32 bits. *)
Lemma total_exact s p l :
  wf s p l → resting l < 2 ^ 32 → total_quantity_ l = resting l.
Proof.
  intros Hwf Hb. rewrite (wf_total _ _ _ Hwf). apply u32_id.
  pose proof (resting_nonneg _ _ _ Hwf). split; lia.
Qed.

(** ** The operations on a well-formed level *)

Lemma new_level_wf s p : wf s p (new_level p).
Proof. split; [done|done|constructor]. Qed.

Lemma add_order_wf s p l o n :
  wf s p l → restable s p o →
  ∃ l', add_order l o n = Ok (l', It n) ∧ wf s p l' ∧
    orders_ l' = orders_ l ++ [(n, o)].
Proof.
  intros [Hp Ht Ho] Hr. pose proof Hr as (_ & _ & Hpo & Hq). unfold add_order.
  destruct (Z.eqb_spec (Order.remaining_quantity o) 0); [lia|].
  rewrite Hp, Hpo, Z.eqb_refl. simpl.
  eexists. split; [done|]. split; [split|done]; simpl; [done| |by apply Forall_app; auto].
  unfold resting. simpl. rewrite resting_nodes_app, resting_nodes_cons, Ht, u32_add_l.
  by rewrite Z.add_0_r.
Qed.

Lemma erase_wf s p l n o :
  wf s p l → node_find n (orders_ l) = Some o →
  Order.remaining_quantity o ≤ total_quantity_ l →
  ∃ l', erase l (It n) = Ok l' ∧ wf s p l' ∧
    orders_ l' = node_remove n (orders_ l).
Proof.
  intros [Hp Ht Ho] Hf Hle. unfold erase. rewrite Hf.
  destruct (Z.ltb_spec (total_quantity_ l) (Order.remaining_quantity o)); [lia|].
  apply node_find_Some in Hf as (n1 & n2 & Heq & Hr & _). rewrite Hr, Ht.
  unfold resting in *. rewrite Heq in *.
  eexists. split; [done|]. split; [split|done]; simpl; [done| |].
  - rewrite u32_sub_l. unfold resting. simpl. f_equal.
    rewrite !resting_nodes_app, resting_nodes_cons. simpl. lia.
  - apply Forall_app in Ho as [? [_ ?]%Forall_cons]. by apply Forall_app.
Qed.

Lemma fill_front_wf s p l n o rest q :
  wf s p l → orders_ l = (n, o) :: rest →
  0 < q ≤ Order.remaining_quantity o →
  ∃ l', fill_front l q = Ok l' ∧ wf s p l' ∧
    orders_ l' = if q =? Order.remaining_quantity o then rest
      else (n, Order.set_remaining_quantity (Order.remaining_quantity o - q) o) :: rest.
Proof.
  intros [Hp Ht Ho] Heq Hq. unfold fill_front, resting in *. rewrite Heq in *.
  apply Forall_cons in Ho as [(Hs & Hty & Hpo & Hrem) Ho]. simpl in *.
  destruct (Z.eqb_spec q 0); [lia|].
  destruct (Z.ltb_spec (Order.remaining_quantity o) q); [lia|].
  rewrite u32_id by (unfold in_u32; lia). unfold Order.is_filled. simpl.
  rewrite Ht, u32_sub_l, resting_nodes_cons. simpl.
  destruct (Z.eqb_spec (Order.remaining_quantity o - q) 0),
           (Z.eqb_spec q (Order.remaining_quantity o)); try lia;
    (eexists; split; [done|]; split; [split|done]); simpl; try done;
    unfold resting; simpl; try (rewrite resting_nodes_cons; simpl);
    try (f_equal; lia).
  constructor; [|done]. repeat split; simpl; auto; lia.
Qed.

(** The exceptions of the level, each with its exact condition. *)
Lemma erase_inconsistent l n o :
  node_find n (orders_ l) = Some o →
  total_quantity_ l < Order.remaining_quantity o →
  erase l (It n) = Throw (LogicError "Price level quantity is inconsistent").
Proof. intros Hf Hlt. unfold erase. rewrite Hf. by apply Z.ltb_lt in Hlt as ->. Qed.

End PriceLevel.
