(* ===== verification/TradeBuffer.v ===== *)
(** * The trade buffer (include/exchange/trade_buffer.hpp)

    A small-buffer-optimised vector: the first [InlineCapacity] trades live in
    an array inside the object, later ones in a heap vector that is kept for
    reuse.  The matching engine only needs the interface [TradeSink]; the
    buffer implements it, and so does a plain list. *)
From S2P Require Import Prelude Types.

(** What the engine relies on: a container it can clear and append to, with
    a view of its contents.  [sink_ok] is the representation invariant. *)
Class TradeSink (B : Type) : Type := {
  sink_clear : B → B;
  sink_push : B → Trade → B;
  sink_view : B → list Trade;
  sink_ok : B → Prop
}.

Class TradeSinkLaws (B : Type) `{!TradeSink B} : Prop := {
  sink_clear_ok : ∀ b, sink_ok b → sink_ok (sink_clear b);
  sink_clear_view : ∀ b, sink_ok b → sink_view (sink_clear b) = [];
  sink_push_ok : ∀ b t, sink_ok b → sink_ok (sink_push b t);
  sink_push_view : ∀ b t, sink_ok b → sink_view (sink_push b t) = sink_view b ++ [t]
}.

(** The reference implementation: a list. *)
#[export] Instance list_sink : TradeSink (list Trade) := {|
  sink_clear _ := [];
  sink_push b t := b ++ [t];
  sink_view b := b;
  sink_ok _ := True
|}.
#[export] Instance list_sink_laws : TradeSinkLaws (list Trade).
Proof. by split. Qed.

Module TradeBuffer.
Record t : Type := mk {
  inline_ : list Trade;       (* std::array<Trade, InlineCapacity> *)
  inline_size_ : nat;
  overflow_ : list Trade;
  using_overflow_ : bool
}.

Definition default_trade : Trade := Trade.mk 0 0 0 0 0.

Section buffer.
Context (InlineCapacity : nat).

Definition new : t := mk (replicate InlineCapacity default_trade) 0 [] false.

Definition size (b : t) : nat :=
  if using_overflow_ b then length (overflow_ b) else inline_size_ b.

Definition empty (b : t) : bool := (size b =? 0)%nat.

Definition inline_capacity (b : t) : nat := InlineCapacity.

Definition clear (b : t) : t :=
  mk (inline_ b) 0 (if using_overflow_ b then [] else overflow_ b) (using_overflow_ b).

(* the loop that moves the inline trades; the reservations only change the
   vector's capacity, which the model does not represent *)
Definition move_inline_to_overflow (b : t) (requested_capacity : nat) : t :=
  if using_overflow_ b then b
  else mk (inline_ b) 0 (overflow_ b ++ take (inline_size_ b) (inline_ b)) true.

Definition reserve (b : t) (capacity : nat) : t :=
  if (capacity <=? InlineCapacity)%nat then b
  else move_inline_to_overflow b capacity.

Definition emplace_back (b : t) (trade : Trade) : t :=
  if negb (using_overflow_ b) && (inline_size_ b <? InlineCapacity)%nat
  then mk (<[inline_size_ b := trade]> (inline_ b)) (S (inline_size_ b))
          (overflow_ b) (using_overflow_ b)
  else
    let b' := if negb (using_overflow_ b)
              then move_inline_to_overflow b (InlineCapacity * 2) else b in
    mk (inline_ b') (inline_size_ b') (overflow_ b' ++ [trade]) (using_overflow_ b').

Definition push_back (b : t) (trade : Trade) : t := emplace_back b trade.

(* operator[]: None is an access outside the storage *)
Definition index (b : t) (i : nat) : option Trade :=
  if using_overflow_ b then overflow_ b !! i else inline_ b !! i.

Definition at_ (b : t) (i : nat) : res Trade :=
  if (size b <=? i)%nat
  then Throw (OutOfRange "TradeBuffer index is out of range")
  else match index b i with
       | Some trade => Ok trade
       | None => Throw (Undefined "access outside the storage")
       end.

(* iteration from begin() to end(), as the range-for of to_vector *)
Fixpoint iterate (b : t) (i : nat) (n : nat) : res (list Trade) :=
  match n with
  | O => Ok []
  | S n' =>
      match index b i with
      | None => Throw (Undefined "access outside the storage")
      | Some trade => let* rest := iterate b (S i) n' in Ok (trade :: rest)
      end
  end.

Definition to_vector (b : t) : res (list Trade) := iterate b 0 (size b).

(** ** Contents and representation invariant *)

Definition view (b : t) : list Trade :=
  if using_overflow_ b then overflow_ b else take (inline_size_ b) (inline_ b).

Record ok (b : t) : Prop := {
  ok_inline : length (inline_ b) = InlineCapacity;
  ok_size : (inline_size_ b ≤ InlineCapacity)%nat;
  ok_overflow : using_overflow_ b = false → overflow_ b = []
}.

Lemma new_ok : ok new.
Proof. split; simpl; [apply length_replicate|lia|done]. Qed.

Lemma size_view b : ok b → size b = length (view b).
Proof.
  intros [H1 H2 _]. unfold size, view.
  destruct (using_overflow_ b); [done|]. rewrite length_take. lia.
Qed.

Lemma clear_ok b : ok b → ok (clear b).
Proof.
  intros [H1 H2 H3]. split; simpl; [done|lia|]. intros E. rewrite E. auto.
Qed.

Lemma clear_view b : ok b → view (clear b) = [].
Proof. intros _. unfold view, clear. simpl. by destruct (using_overflow_ b). Qed.

Lemma move_ok b n : ok b → ok (move_inline_to_overflow b n).
Proof.
  intros Hok. unfold move_inline_to_overflow.
  destruct (using_overflow_ b) eqn:E; [done|].
  destruct Hok. split; simpl; [done|lia|done].
Qed.

Lemma move_view b n : ok b → view (move_inline_to_overflow b n) = view b.
Proof.
  intros [_ _ H]. unfold move_inline_to_overflow, view.
  destruct (using_overflow_ b) eqn:E; simpl; rewrite ?E; [done|]. by rewrite H.
Qed.

Lemma emplace_back_ok b trade : ok b → ok (emplace_back b trade).
Proof.
  intros Hok. pose proof (move_ok b (InlineCapacity * 2) Hok) as [M1 M2 _].
  destruct Hok as [H1 H2 H3]. unfold emplace_back.
  destruct (using_overflow_ b) eqn:E; simpl; [by split; simpl; [..|rewrite E]|].
  destruct (Nat.ltb_spec (inline_size_ b) InlineCapacity).
  - split; simpl; [by rewrite length_insert|lia|auto].
  - split; simpl; [done|done|]. unfold move_inline_to_overflow. by rewrite E.
Qed.

Lemma emplace_back_view b trade : ok b → view (emplace_back b trade) = view b ++ [trade].
Proof.
  intros [H1 H2 H3]. unfold emplace_back, view, move_inline_to_overflow.
  destruct (using_overflow_ b) eqn:E; simpl; rewrite ?E; [done|].
  destruct (Nat.ltb_spec (inline_size_ b) InlineCapacity); simpl.
  - rewrite (take_S_r _ _ trade) by (apply list_lookup_insert_eq; lia).
    by rewrite take_insert_ge by lia.
  - by rewrite (H3 eq_refl).
Qed.

Lemma index_view b i : ok b → (i < size b)%nat → index b i = view b !! i.
Proof.
  intros [H1 H2 _] Hi. unfold index, view, size in *.
  destruct (using_overflow_ b); [done|]. by rewrite lookup_take_lt by lia.
Qed.

Lemma iterate_view b n i :
  ok b → (i + n ≤ size b)%nat → iterate b i n = Ok (take n (drop i (view b))).
Proof.
  intros Hok. revert i. induction n as [|n IH]; intros i Hn; [done|]. simpl.
  rewrite index_view by (done || lia).
  destruct (lookup_lt_is_Some_2 (view b) i) as [x Hx].
  { rewrite <- size_view by done. lia. }
  rewrite Hx, IH by lia. simpl. by rewrite (drop_S _ _ _ Hx).
Qed.

Lemma to_vector_view b : ok b → to_vector b = Ok (view b).
Proof.
  intros Hok. unfold to_vector. rewrite iterate_view by (done || lia).
  by rewrite drop_0, size_view, firstn_all.
Qed.
End buffer.
End TradeBuffer.

(** [DefaultTradeBuffer = TradeBuffer<8>] implements the interface. *)
Definition default_capacity : nat := 8.

#[export] Instance buffer_sink : TradeSink TradeBuffer.t := {|
  sink_clear := TradeBuffer.clear;
  sink_push := TradeBuffer.push_back default_capacity;
  sink_view := TradeBuffer.view;
  sink_ok := TradeBuffer.ok default_capacity
|}.
#[export] Instance buffer_sink_laws : TradeSinkLaws TradeBuffer.t.
Proof.
  split; simpl; intros.
  - by apply TradeBuffer.clear_ok.
  - by eapply TradeBuffer.clear_view.
  - by apply TradeBuffer.emplace_back_ok.
  - by apply TradeBuffer.emplace_back_view.
Qed.

(** A sequence of buffer operations and the same sequence on a plain list. *)
Inductive buffer_op : Type :=
  | OpClear
  | OpPush (trade : Trade)
  | OpReserve (capacity : nat).

Definition buffer_step (cap : nat) (b : TradeBuffer.t) (op : buffer_op) : TradeBuffer.t :=
  match op with
  | OpClear => TradeBuffer.clear b
  | OpPush trade => TradeBuffer.push_back cap b trade
  | OpReserve n => TradeBuffer.reserve cap b n
  end.

Definition list_step (l : list Trade) (op : buffer_op) : list Trade :=
  match op with
  | OpClear => []
  | OpPush trade => l ++ [trade]
  | OpReserve _ => l
  end.

Definition run_buffer (cap : nat) (ops : list buffer_op) : TradeBuffer.t :=
  foldl (buffer_step cap) (TradeBuffer.new cap) ops.

Definition run_list (ops : list buffer_op) : list Trade := foldl list_step [] ops.

Lemma buffer_step_simulates (cap : nat) (b : TradeBuffer.t) (op : buffer_op) :
  TradeBuffer.ok cap b →
  TradeBuffer.ok cap (buffer_step cap b op) ∧
  TradeBuffer.view (buffer_step cap b op) = list_step (TradeBuffer.view b) op.
Proof.
  intros Hok. destruct op as [|trade|n]; simpl.
  - split; [by apply TradeBuffer.clear_ok|by eapply TradeBuffer.clear_view].
  - split; [by apply TradeBuffer.emplace_back_ok|by apply TradeBuffer.emplace_back_view].
  - unfold TradeBuffer.reserve. destruct (n <=? cap)%nat; [done|].
    split; [by apply TradeBuffer.move_ok|by eapply TradeBuffer.move_view].
Qed.

Lemma run_buffer_simulates (cap : nat) (ops : list buffer_op) :
  TradeBuffer.ok cap (run_buffer cap ops) ∧
  TradeBuffer.view (run_buffer cap ops) = run_list ops.
Proof.
  unfold run_buffer, run_list. change [] with (TradeBuffer.view (TradeBuffer.new cap)) at 1.
  generalize (TradeBuffer.new_ok cap). generalize (TradeBuffer.new cap) as b.
  induction ops as [|op ops IH]; intros b Hok; [done|]. simpl.
  destruct (buffer_step_simulates cap b op Hok) as [Hok' <-]. by apply IH.
Qed.

(* The trade buffer is a list: after any sequence of [clear], [push_back]
    and [reserve], whatever the inline capacity and wherever the storage has
    moved, its size, its contents and every checked access are those of the
    list the same sequence builds. *)
Lemma to_vector_equiv (cap : nat) (ops : list buffer_op) :
  let b := run_buffer cap ops in
  TradeBuffer.to_vector b = Ok (run_list ops) ∧
  TradeBuffer.size b = length (run_list ops) ∧
  ∀ i, TradeBuffer.at_ b i =
    match run_list ops !! i with
    | Some trade => Ok trade
    | None => Throw (OutOfRange "TradeBuffer index is out of range")
    end.
Proof.
  intros b. destruct (run_buffer_simulates cap ops) as [Hok Hv]. fold b in Hok, Hv.
  pose proof (TradeBuffer.size_view _ _ Hok) as Hs. rewrite Hv in Hs.
  split; [|split; [done|]].
  - by rewrite (TradeBuffer.to_vector_view cap), Hv.
  - intros i. unfold TradeBuffer.at_. destruct (Nat.leb_spec (TradeBuffer.size b) i).
    + by rewrite lookup_ge_None_2 by lia.
    + rewrite (TradeBuffer.index_view cap), Hv by done.
      destruct (lookup_lt_is_Some_2 (run_list ops) i) as [x ->]; [lia|done].
Qed.
