(* ===== verification/TradeIterator.v ===== *)
(** * Iterators of the trade buffer (include/exchange/trade_buffer.hpp)

    TradeBuffer::const_iterator: a pointer to the buffer and an index.  A buffer
    is at an address, and [memory] says which; the index is a std::size_t, a
    difference a std::ptrdiff_t, whose overflow is undefined. *)
From S2P Require Import Prelude Types TradeBuffer.
Open Scope Z_scope.

Module TradeIterator.

Record const_iterator : Type := mk {
  buffer_ : option nat;      (* an address, or nullptr *)
  index_ : Z
}.

#[export] Instance const_iterator_eq_dec : EqDecision const_iterator.
Proof. solve_decision. Defined.

Definition default : const_iterator := mk None 0.

(* TradeBuffer::begin and end *)
Definition begin_ (address : nat) : const_iterator := mk (Some address) 0.
Definition end_ (address : nat) (b : TradeBuffer.t) : const_iterator :=
  mk (Some address) (Z.of_nat (TradeBuffer.size b)).

(* std::ptrdiff_t arithmetic *)
Definition difference (value : Z) : res Z :=
  if bool_decide (in_i64 value) then Ok value else Throw (Undefined "signed overflow").

(* operator*, and what operator-> points to *)
Definition deref (memory : nat → option TradeBuffer.t) (it : const_iterator) : res Trade :=
  match buffer_ it with
  | None => Throw (Undefined "null pointer")
  | Some address =>
      match memory address with
      | None => Throw (Undefined "no buffer at the address")
      | Some b =>
          match TradeBuffer.index b (Z.to_nat (index_ it)) with
          | Some trade => Ok trade
          | None => Throw (Undefined "access outside the storage")
          end
      end
  end.

Definition increment (it : const_iterator) : const_iterator := mk (buffer_ it) (u64 (index_ it + 1)).
Definition decrement (it : const_iterator) : const_iterator := mk (buffer_ it) (u64 (index_ it - 1)).

(* it++ and it--: the value, and the iterator afterwards *)
Definition post_increment (it : const_iterator) : const_iterator * const_iterator := (it, increment it).
Definition post_decrement (it : const_iterator) : const_iterator * const_iterator := (it, decrement it).

Definition add_assign (it : const_iterator) (offset : Z) : res const_iterator :=
  let* sum := difference (i64 (index_ it) + offset) in Ok (mk (buffer_ it) (u64 sum)).
Definition sub_assign (it : const_iterator) (offset : Z) : res const_iterator :=
  let* negated := difference (- offset) in add_assign it negated.

Definition add (it : const_iterator) (offset : Z) : res const_iterator := add_assign it offset.
Definition sub (it : const_iterator) (offset : Z) : res const_iterator := sub_assign it offset.
Definition distance (it other : const_iterator) : res Z := difference (i64 (index_ it) - i64 (index_ other)).

Definition eq (it other : const_iterator) : bool :=
  bool_decide (buffer_ it = buffer_ other) && (index_ it =? index_ other).
Definition ne (it other : const_iterator) : bool := negb (eq it other).
Definition lt (it other : const_iterator) : bool := index_ it <? index_ other.
Definition le (it other : const_iterator) : bool := index_ it <=? index_ other.
Definition gt (it other : const_iterator) : bool := index_ it >? index_ other.
Definition ge (it other : const_iterator) : bool := index_ it >=? index_ other.

(* for (const Trade& trade : buffer): what it visits from [it] to [stop] *)
Fixpoint range_for (memory : nat → option TradeBuffer.t) (fuel : nat) (it stop : const_iterator)
    : res (list Trade) :=
  match fuel with
  | O => Throw OutOfFuel
  | S fuel =>
      if ne it stop then
        let* trade := deref memory it in
        let* trades := range_for memory fuel (increment it) stop in
        Ok (trade :: trades)
      else Ok []
  end.

(** ** What the loops over a buffer visit *)

Section buffer.
Context (memory : nat → option TradeBuffer.t) (address capacity : nat) (b : TradeBuffer.t)
  (Hb : memory address = Some b) (Hok : TradeBuffer.ok capacity b)
  (Hsize : Z.of_nat (TradeBuffer.size b) < 2 ^ 63).

Lemma eq_spec it other : eq it other = true ↔ it = other.
Proof.
  unfold eq. destruct it as [a i], other as [a' i']. cbn.
  rewrite andb_true_iff, bool_decide_eq_true, Z.eqb_eq. naive_solver.
Qed.

Lemma deref_view i :
  deref memory (mk (Some address) (Z.of_nat i)) =
    match TradeBuffer.index b i with Some trade => Ok trade | None => Throw (Undefined "access outside the storage") end.
Proof. unfold deref. cbn. by rewrite Hb, Nat2Z.id. Qed.

Lemma range_for_from fuel i :
  (i ≤ TradeBuffer.size b)%nat → (TradeBuffer.size b - i < fuel)%nat →
  range_for memory fuel (mk (Some address) (Z.of_nat i)) (end_ address b) = Ok (drop i (TradeBuffer.view b)).
Proof.
  revert i. induction fuel as [|fuel IH]; intros i Hi Hf; [lia|]. cbn [range_for].
  pose proof (TradeBuffer.size_view _ _ Hok) as Hv.
  destruct (decide (i = TradeBuffer.size b)) as [->|Hne].
  - unfold ne. rewrite (proj2 (eq_spec _ _)) by done. by rewrite drop_ge by lia.
  - assert (ne (mk (Some address) (Z.of_nat i)) (end_ address b) = true) as ->.
    { unfold ne. destruct (eq _ _) eqn:E; [|done]. apply eq_spec in E. injection E as E. lia. }
    rewrite deref_view, (TradeBuffer.index_view capacity) by (done || lia).
    destruct (lookup_lt_is_Some_2 (TradeBuffer.view b) i ltac:(lia)) as [trade Ht].
    rewrite Ht. cbn [res_bind].
    assert (increment (mk (Some address) (Z.of_nat i)) = mk (Some address) (Z.of_nat (S i))) as ->.
    { unfold increment. cbn [buffer_ index_]. f_equal. rewrite u64_id; [lia|]. unfold in_u64. lia. }
    rewrite IH by lia. cbn [res_bind]. by rewrite (drop_S _ _ _ Ht).
Qed.

(** The loop over a buffer visits its trades, in order, and nothing else. *)
Theorem range_for_visits :
  range_for memory (S (TradeBuffer.size b)) (begin_ address) (end_ address b) = Ok (TradeBuffer.view b).
Proof. exact (range_for_from (S (TradeBuffer.size b)) 0 ltac:(lia) ltac:(lia)). Qed.

(** ... which is what [TradeBuffer.to_vector] says of its loop. *)
Corollary to_vector_loop :
  range_for memory (S (TradeBuffer.size b)) (begin_ address) (end_ address b) = TradeBuffer.to_vector b.
Proof. by rewrite range_for_visits, (TradeBuffer.to_vector_view capacity). Qed.
End buffer.

(** ** Random access

    Within a buffer, and one past its end, iterators are the positions: the
    operators of a random access iterator are the arithmetic and the order of
    the indices. *)
Section positions.
Context (address : nat).

Definition at_ (i : Z) : const_iterator := mk (Some address) i.

Definition position (i : Z) : Prop := 0 ≤ i < 2 ^ 63.

Lemma difference_ok v : in_i64 v → difference v = Ok v.
Proof. intros H. unfold difference. by rewrite bool_decide_true. Qed.

Lemma position_i64 i : position i → i64 i = i.
Proof.
  intros H. pose proof (i64_u64 i ltac:(unfold in_i64, position in *; lia)) as Hi.
  by rewrite u64_id in Hi by (unfold in_u64, position in *; lia).
Qed.

Lemma add_positions i j : position i → position j → add (at_ i) (j - i) = Ok (at_ j).
Proof.
  intros Hi Hj. unfold add, add_assign, at_. cbn [buffer_ index_]. rewrite position_i64 by done.
  replace (i + (j - i)) with j by lia. rewrite difference_ok by (unfold in_i64, position in *; lia).
  cbn [res_bind]. by rewrite u64_id by (unfold in_u64, position in *; lia).
Qed.

Lemma sub_positions i j : position i → position j → sub (at_ i) (i - j) = Ok (at_ j).
Proof.
  intros Hi Hj. unfold sub, sub_assign. rewrite difference_ok by (unfold in_i64, position in *; lia).
  cbn [res_bind]. replace (- (i - j)) with (j - i) by lia. by apply add_positions.
Qed.

Lemma distance_positions i j : position i → position j → distance (at_ j) (at_ i) = Ok (j - i).
Proof.
  intros Hi Hj. unfold distance, at_. cbn [index_]. rewrite !position_i64 by done.
  by apply difference_ok; unfold in_i64, position in *; lia.
Qed.

Lemma step_positions i : position i → position (i + 1) →
  increment (at_ i) = at_ (i + 1) ∧ decrement (at_ (i + 1)) = at_ i.
Proof.
  intros Hi Hj. unfold increment, decrement, at_. cbn [buffer_ index_].
  replace (i + 1 - 1) with i by lia.
  by rewrite !u64_id by (unfold in_u64, position in *; lia).
Qed.

(** The six comparisons agree with the distance. *)
Lemma compare_positions i j : position i → position j →
  ∃ d, distance (at_ j) (at_ i) = Ok d ∧
    (eq (at_ i) (at_ j) = true ↔ d = 0) ∧ (ne (at_ i) (at_ j) = true ↔ d ≠ 0) ∧
    (lt (at_ i) (at_ j) = true ↔ 0 < d) ∧ (le (at_ i) (at_ j) = true ↔ 0 ≤ d) ∧
    (gt (at_ i) (at_ j) = true ↔ d < 0) ∧ (ge (at_ i) (at_ j) = true ↔ d ≤ 0).
Proof.
  intros Hi Hj. exists (j - i). split; [by apply distance_positions|].
  unfold ne, lt, le, gt, ge, eq, at_. cbn [buffer_ index_]. rewrite bool_decide_true by done. cbn [andb].
  rewrite Z.gtb_ltb, Z.geb_leb. repeat split; lia.
Qed.
End positions.

(** Past the largest distance the arithmetic is undefined. *)
Lemma add_overflows address : add (at_ address (2 ^ 63 - 1)) 1 = Throw (Undefined "signed overflow").
Proof. by vm_compute. Qed.

(** A buffer that has moved to its overflow, read through iterators. *)
Definition trade (i : nat) : Trade := Trade.mk 1 2 100 (Z.of_nat i) 0.
Definition moved : TradeBuffer.t := run_buffer 2 (OpPush ∘ trade <$> seq 0 5).

Lemma range_for_visits_witness :
  TradeBuffer.using_overflow_ moved = true ∧
  range_for (λ a, if (a =? 7)%nat then Some moved else None) 6 (begin_ 7) (end_ 7 moved) = Ok (trade <$> seq 0 5).
Proof.
  split; [by vm_compute|].
  pose proof (range_for_visits (λ a, if (a =? 7)%nat then Some moved else None) 7 2 moved eq_refl
    (proj1 (run_buffer_simulates 2 (OpPush ∘ trade <$> seq 0 5))) ltac:(vm_compute; reflexivity)) as H.
  exact H.
Defined.
End TradeIterator.
