(* ===== verification/BookSpec.v ===== *)
(** * The abstract book: what price-time priority means

    The specification of the order book and of the matching engine, free of
    levels, nodes and indices: each side is the list of its resting orders in
    priority order.  OrderBook.v and MatchingEngine.v prove that the detailed
    definitions implement it; the properties of matching are proved here,
    once, for both sides. *)
From S2P Require Import Prelude Types SortedMap.

Module BookSpec.

(** The two sides, best order first. *)
Record t : Type := mk { bids : list Order; asks : list Order }.

Definition side_orders (s : Side) (b : t) : list Order :=
  match s with Buy => bids b | Sell => asks b end.

Definition with_side (s : Side) (l : list Order) (b : t) : t :=
  match s with Buy => mk l (asks b) | Sell => mk (bids b) l end.

Definition all_orders (b : t) : list Order := bids b ++ asks b.

(** ** Operations *)

(** A new order queues behind every order of the same or a better price. *)
Fixpoint enqueue (s : Side) (o : Order) (l : list Order) : list Order :=
  match l with
  | [] => [o]
  | x :: l' =>
      if before_of s (Order.price o) (Order.price x) then o :: l
      else x :: enqueue s o l'
  end.

Definition remove (order_id : OrderId) (l : list Order) : list Order :=
  filter (λ o, Order.id o ≠ order_id) l.

(** Is a resting order at price [p] acceptable to the incoming order? *)
Definition marketable (incoming : Order) (p : Price) : bool :=
  match Order.type incoming with
  | Market => true
  | Limit => match Order.side incoming with
             | Buy => Order.price incoming >=? p
             | Sell => Order.price incoming <=? p
             end
  end.

(** Trade [q] against the queue [l], best order first: the trades, the
    quantity left, and what remains of the queue. *)
Fixpoint sweep (incoming : Order) (q : Quantity) (l : list Order)
    : list Trade * Quantity * list Order :=
  match l with
  | [] => ([], q, [])
  | o :: l' =>
      if (0 <? q) && marketable incoming (Order.price o) then
        if q <? Order.remaining_quantity o then
          ([trade_between incoming o q], 0,
           Order.set_remaining_quantity (Order.remaining_quantity o - q) o :: l')
        else
          let '(ts, q', l'') := sweep incoming (q - Order.remaining_quantity o) l' in
          (trade_between incoming o (Order.remaining_quantity o) :: ts, q', l'')
      else ([], q, l)
  end.

Definition rests (o : Order) : bool :=
  match Order.type o, Order.time_in_force o with
  | Limit, GoodTillCancel => true
  | _, _ => false
  end.

(** The quantity an order could trade at once. *)
Fixpoint available (incoming : Order) (l : list Order) : Z :=
  match l with
  | [] => 0
  | o :: l' =>
      if marketable incoming (Order.price o)
      then Order.remaining_quantity o + available incoming l' else 0
  end.

Definition execute (incoming : Order) (b : t) : list Trade * t :=
  let s := Order.side incoming in
  let '(ts, q, l) := sweep incoming (Order.remaining_quantity incoming)
                       (side_orders (opposite s) b) in
  let b' := with_side (opposite s) l b in
  if (0 <? q) && rests incoming
  then (ts, with_side s (enqueue s (Order.set_remaining_quantity q incoming)
                           (side_orders s b')) b')
  else (ts, b').

(** A market order with the default time in force is an IOC. *)
Definition normalise (o : Order) : Order :=
  match Order.type o, Order.time_in_force o with
  | Market, GoodTillCancel => Order.set_time_in_force ImmediateOrCancel o
  | _, _ => o
  end.

Definition process (incoming : Order) (b : t) : list Trade * t :=
  let o := normalise incoming in
  if bool_decide (Order.time_in_force o = FillOrKill) &&
     (available o (side_orders (opposite (Order.side o)) b) <? Order.remaining_quantity o)
  then ([], b)
  else execute o b.

(** ** Well-formed and uncrossed books *)

Definition resting_on (s : Side) (o : Order) : Prop :=
  Order.side o = s ∧ Order.type o = Limit ∧ 0 < Order.remaining_quantity o < 2 ^ 32.

(** Sorted by price, best first; equal prices in any (arrival) order. *)
Definition prioritised (s : Side) (l : list Order) : Prop :=
  StronglySorted (λ a b, before_of s (Order.price b) (Order.price a) = false) l.

Record wf (b : t) : Prop := {
  wf_bids : Forall (resting_on Buy) (bids b);
  wf_asks : Forall (resting_on Sell) (asks b);
  wf_bid_priority : prioritised Buy (bids b);
  wf_ask_priority : prioritised Sell (asks b)
}.

(** No bid could trade with an ask. *)
Definition uncrossed (b : t) : Prop :=
  ∀ bid ask, bid ∈ bids b → ask ∈ asks b → Order.price bid < Order.price ask.

Definition traded (ts : list Trade) : Z := sum_Z (Trade.quantity <$> ts).
Definition depth (l : list Order) : Z := sum_Z (Order.remaining_quantity <$> l).

(** ** Lemmas *)

Lemma wf_side s b : wf b → Forall (resting_on s) (side_orders s b) ∧ prioritised s (side_orders s b).
Proof. by intros []; destruct s. Qed.

Lemma wf_with_side s l b :
  wf b → Forall (resting_on s) l → prioritised s l → wf (with_side s l b).
Proof. intros []; destruct s; split; done. Qed.

Lemma side_with_side s l b : side_orders s (with_side s l b) = l.
Proof. by destruct s. Qed.
Lemma opposite_with_side s l b :
  side_orders (opposite s) (with_side s l b) = side_orders (opposite s) b.
Proof. by destruct s. Qed.
Lemma side_with_opposite s l b :
  side_orders s (with_side (opposite s) l b) = side_orders s b.
Proof. by destruct s. Qed.
Lemma opposite_opposite s : opposite (opposite s) = s.
Proof. by destruct s. Qed.

Lemma enqueue_split s o l1 l2 :
  Forall (λ x, before_of s (Order.price o) (Order.price x) = false) l1 →
  Forall (λ x, before_of s (Order.price o) (Order.price x) = true) l2 →
  enqueue s o (l1 ++ l2) = l1 ++ o :: l2.
Proof.
  intros H1 H2. induction H1 as [|x l1 H _ IH]; simpl.
  - destruct H2 as [|x l2 H H2]; simpl; [done|]. by rewrite H.
  - by rewrite H, IH.
Qed.

(** Every sorted queue splits at the place of a new order: behind its price. *)
Lemma enqueue_spec s o l :
  prioritised s l →
  ∃ l1 l2, l = l1 ++ l2 ∧ enqueue s o l = l1 ++ o :: l2 ∧
    Forall (λ x, before_of s (Order.price o) (Order.price x) = false) l1 ∧
    Forall (λ x, before_of s (Order.price o) (Order.price x) = true) l2.
Proof.
  induction l as [|x l IH]; simpl; intros Hs.
  { exists [], []. repeat split; constructor. }
  apply StronglySorted_inv in Hs as [Hs Hx].
  destruct (before_of s (Order.price o) (Order.price x)) eqn:E.
  - exists [], (x :: l). repeat split; [constructor|]. constructor; [done|].
    eapply Forall_impl; [exact Hx|]. intros y Hy. simpl in Hy.
    destruct (before_of s (Order.price o) (Order.price y)) eqn:E'; [done|].
    destruct s; simpl in *; rewrite ?Z.gtb_ltb in *; zify_bool; lia.
  - destruct (IH Hs) as (l1 & l2 & -> & -> & H1 & H2).
    exists (x :: l1), l2. repeat split; auto.
Qed.

Lemma elem_of_enqueue s o l x : x ∈ enqueue s o l ↔ x = o ∨ x ∈ l.
Proof.
  induction l as [|y l IH]; simpl; [set_solver|].
  destruct (before_of s _ _); set_solver.
Qed.

Lemma prioritised_enqueue s o l : prioritised s l → prioritised s (enqueue s o l).
Proof.
  intros Hs. destruct (enqueue_spec s o l Hs) as (l1 & l2 & -> & -> & H1 & H2).
  unfold prioritised in *. rewrite StronglySorted_app, StronglySorted_cons in *.
  rewrite !Forall_forall in *. destruct Hs as (Ha & Hb & Hc).
  split; [|split; [done|split; [|done]]].
  - intros a b Ha1 [->|Hb2]%elem_of_cons; [by apply H1|by apply Ha].
  - intros y Hy. specialize (H2 y Hy).
    destruct s; simpl in *; rewrite ?Z.gtb_ltb in *; zify_bool; apply Z.ltb_ge; lia.
Qed.

(** ** Matching: what a sweep does to a queue *)

Definition full_trade (incoming o : Order) : Trade :=
  trade_between incoming o (Order.remaining_quantity o).

Definition reduce (q : Quantity) (o : Order) : Order :=
  Order.set_remaining_quantity (Order.remaining_quantity o - q) o.

(** Price-time priority, as a relation: a sweep fills a prefix of the queue
    completely, in order, and then either stops or fills part of the next
    order.  It stops only when nothing is left to trade, the queue is empty,
    or the best order left is not marketable. *)
Inductive swept (incoming : Order) (q : Quantity) (l : list Order)
    : list Trade → Quantity → list Order → Prop :=
  | swept_stop filled rest :
      l = filled ++ rest →
      Forall (λ o, marketable incoming (Order.price o) = true) filled →
      depth filled ≤ q →
      (depth filled = q ∨
       match rest with
       | [] => True
       | o :: _ => marketable incoming (Order.price o) = false
       end) →
      swept incoming q l (full_trade incoming <$> filled) (q - depth filled) rest
  | swept_partial filled o rest :
      l = filled ++ o :: rest →
      Forall (λ o, marketable incoming (Order.price o) = true) filled →
      marketable incoming (Order.price o) = true →
      depth filled < q < depth filled + Order.remaining_quantity o →
      swept incoming q l
        ((full_trade incoming <$> filled) ++ [trade_between incoming o (q - depth filled)])
        0 (reduce (q - depth filled) o :: rest).

Lemma depth_cons o l : depth (o :: l) = Order.remaining_quantity o + depth l.
Proof. done. Qed.
Lemma depth_app l1 l2 : depth (l1 ++ l2) = depth l1 + depth l2.
Proof. unfold depth. by rewrite fmap_app, sum_Z_app. Qed.
Lemma depth_nonneg s l : Forall (resting_on s) l → 0 ≤ depth l.
Proof. induction 1 as [|o l (_ & _ & ?) _ IH]; [done|]. rewrite depth_cons. lia. Qed.
Lemma traded_app t1 t2 : traded (t1 ++ t2) = traded t1 + traded t2.
Proof. unfold traded. by rewrite fmap_app, sum_Z_app. Qed.
Lemma trade_between_quantity i o q : Trade.quantity (trade_between i o q) = q.
Proof. unfold trade_between. by destruct (Order.side i). Qed.
Lemma trade_between_price i o q : Trade.price (trade_between i o q) = Order.price o.
Proof. unfold trade_between. by destruct (Order.side i). Qed.
Lemma traded_full i l : traded (full_trade i <$> l) = depth l.
Proof.
  unfold traded, depth. rewrite <- list_fmap_compose. f_equal. apply list_fmap_ext.
  intros _ o _. apply trade_between_quantity.
Qed.

Lemma enqueue_perm s o l : enqueue s o l ≡ₚ o :: l.
Proof.
  induction l as [|x l IH]; simpl; [done|]. destruct (before_of _ _ _); [done|].
  rewrite IH. apply perm_swap.
Qed.

Lemma depth_enqueue s o l : depth (enqueue s o l) = Order.remaining_quantity o + depth l.
Proof.
  induction l as [|x l IH]; simpl; [done|]. destruct (before_of _ _ _); [done|].
  rewrite !depth_cons, IH. lia.
Qed.

Lemma sweep_swept s incoming q l :
  Forall (resting_on s) l → 0 ≤ q →
  let '(ts, q', l') := sweep incoming q l in swept incoming q l ts q' l'.
Proof.
  intros Hl. revert q. induction Hl as [|o l (_ & _ & Ho) Hl IH]; intros q Hq; simpl.
  { pose proof (swept_stop incoming q [] [] []) as Hs. unfold depth in Hs. simpl in Hs.
    rewrite Z.sub_0_r in Hs. apply Hs; auto. }
  destruct ((0 <? q) && marketable incoming (Order.price o)) eqn:E.
  - zify_bool. destruct (Z.ltb_spec q (Order.remaining_quantity o)).
    + pose proof (swept_partial incoming q (o :: l) [] o l) as Hs.
      unfold depth, reduce in Hs. simpl in Hs. rewrite Z.sub_0_r in Hs.
      apply Hs; auto; lia.
    + specialize (IH (q - Order.remaining_quantity o)).
      destruct (sweep incoming (q - Order.remaining_quantity o) l) as [[ts q'] l'].
      destruct IH as [filled rest -> Hm Hd Hstop|filled x rest -> Hm Hmx Hd]; [lia| |].
      * pose proof (swept_stop incoming q (o :: filled ++ rest) (o :: filled) rest) as Hs.
        rewrite depth_cons, fmap_cons in Hs. rewrite <- Z.sub_add_distr.
        apply Hs; auto; [lia|]. destruct Hstop; [left; lia|by right].
      * pose proof (swept_partial incoming q (o :: filled ++ x :: rest) (o :: filled) x rest) as Hs.
        rewrite depth_cons, fmap_cons in Hs. rewrite <- Z.sub_add_distr.
        apply Hs; auto. lia.
  - pose proof (swept_stop incoming q (o :: l) [] (o :: l)) as Hs. unfold depth in Hs.
    simpl in Hs. rewrite Z.sub_0_r in Hs. apply Hs; auto.
    apply andb_false_iff in E as [E|E]; zify_bool; [left; lia|by right].
Qed.

(** Nothing is lost: the quantity asked is traded or left, and the queue
    loses exactly what is traded. *)
Lemma swept_conservation incoming q l ts q' l' :
  swept incoming q l ts q' l' →
  traded ts + q' = q ∧ depth l = depth l' + traded ts.
Proof.
  intros [filled rest -> _ _ _|filled o rest -> _ _ _].
  - rewrite traded_full, depth_app. lia.
  - rewrite traded_app, traded_full, depth_app, !depth_cons. unfold traded. simpl.
    rewrite trade_between_quantity. simpl. lia.
Qed.

(** The trades determine what is left to trade. *)
Lemma swept_left incoming q l ts q1 q2 l1 l2 :
  swept incoming q l ts q1 l1 → swept incoming q l ts q2 l2 → q1 = q2.
Proof. intros [? _]%swept_conservation [? _]%swept_conservation. lia. Qed.

Lemma swept_bounds s incoming q l ts q' l' :
  Forall (resting_on s) l → swept incoming q l ts q' l' → 0 ≤ q' ≤ q.
Proof.
  intros Hl [filled rest -> _ Hd _|filled o rest -> _ _ Hd];
    apply Forall_app in Hl as [?%depth_nonneg _]; lia.
Qed.

Lemma swept_traded_nonneg s incoming q l ts q' l' :
  Forall (resting_on s) l → swept incoming q l ts q' l' → 0 ≤ traded ts.
Proof.
  intros Hl Hsw. pose proof (swept_bounds _ _ _ _ _ _ _ Hl Hsw).
  pose proof (swept_conservation _ _ _ _ _ _ Hsw). lia.
Qed.

(** Every trade is at the price of a resting order the incoming one accepts. *)
Lemma swept_prices incoming q l ts q' l' t :
  swept incoming q l ts q' l' → t ∈ ts →
  ∃ o, o ∈ l ∧ Trade.price t = Order.price o ∧ marketable incoming (Order.price o) = true.
Proof.
  intros [filled rest -> Hm _ _|filled o rest -> Hm Hmo _] Hin.
  - apply list_elem_of_fmap in Hin as (o & -> & Ho). exists o.
    rewrite Forall_forall in Hm. unfold full_trade. rewrite trade_between_price. set_solver.
  - apply elem_of_app in Hin as [(x & -> & Hx)%list_elem_of_fmap | ->%list_elem_of_singleton].
    + exists x. rewrite Forall_forall in Hm. unfold full_trade. rewrite trade_between_price. set_solver.
    + exists o. rewrite trade_between_price. set_solver.
Qed.

(** What is left is a sub-book of what was there: same ids, same prices, same
    order. *)
Lemma swept_wf s incoming q l ts q' l' :
  Forall (resting_on s) l → prioritised s l → swept incoming q l ts q' l' →
  Forall (resting_on s) l' ∧ prioritised s l' ∧
  ∀ x, x ∈ l' → ∃ y, y ∈ l ∧ Order.price y = Order.price x ∧ Order.id y = Order.id x.
Proof.
  intros Hl Hs [filled rest -> _ _ _|filled o rest -> _ _ Hd];
    apply Forall_app in Hl as [_ Hr]; unfold prioritised in *;
    apply StronglySorted_app in Hs as (_ & _ & Hs).
  - repeat split; [done|done|]. intros x ?. exists x. set_solver.
  - apply Forall_cons in Hr as [(Ha & Hb & Hc) Hr]. apply StronglySorted_cons in Hs as [Ho Hs].
    split; [|split].
    + constructor; [|done]. repeat split; simpl; auto; lia.
    + by apply StronglySorted_cons.
    + intros x [->|Hx]%elem_of_cons; [exists o|exists x]; set_solver.
Qed.

(** An order left in the queue was there before, perhaps with more to trade. *)
Lemma swept_origin incoming q l ts q' l' x :
  swept incoming q l ts q' l' → x ∈ l' →
  ∃ y, y ∈ l ∧ x = Order.set_remaining_quantity (Order.remaining_quantity x) y.
Proof.
  assert (∀ y : Order, y = Order.set_remaining_quantity (Order.remaining_quantity y) y) as Heta
    by by intros [].
  intros [filled rest -> _ _ _|filled o rest -> _ _ _] Hx.
  - exists x. set_solver.
  - apply elem_of_cons in Hx as [->|Hx]; [exists o|exists x]; set_solver.
Qed.

(** A sweep does not look at the remaining quantity the incoming order
    carries: the loop of the engine decreases it as it goes. *)
Lemma sweep_remaining incoming r q l :
  sweep (Order.set_remaining_quantity r incoming) q l = sweep incoming q l.
Proof.
  revert q. induction l as [|o l IH]; intros q; [done|]. cbn [sweep].
  rewrite IH. done.
Qed.

(** If something is left to trade, nothing on the other side is marketable. *)
Lemma swept_exhausts s incoming q l ts q' l' :
  s = opposite (Order.side incoming) →
  prioritised s l → swept incoming q l ts q' l' → 0 < q' →
  Forall (λ o, marketable incoming (Order.price o) = false) l'.
Proof.
  intros -> Hs [filled rest -> _ Hd Hstop|filled o rest -> _ _ Hd] Hq; [|lia].
  destruct Hstop as [?|Hstop]; [lia|]. destruct rest as [|o rest]; [constructor|].
  constructor; [done|]. unfold prioritised in Hs.
  apply StronglySorted_app in Hs as (_ & _ & [Ho _]%StronglySorted_cons).
  eapply Forall_impl; [exact Ho|]. intros y Hy. simpl in Hy. revert Hy Hstop.
  unfold marketable. destruct (Order.type incoming); [|done].
  destruct (Order.side incoming); simpl; rewrite ?Z.gtb_ltb, ?Z.geb_leb;
    intros; zify_bool; apply Z.leb_gt; lia.
Qed.

(** ** Processing an order *)

Definition valid_incoming (o : Order) : Prop := 0 < Order.remaining_quantity o < 2 ^ 32.

(** The complete effect of [execute], by cases on the sweep: the trades, the
    opposite queue, and the remainder that rests or is discarded. *)
Lemma execute_cases incoming b :
  let s := Order.side incoming in
  wf b → valid_incoming incoming →
  ∃ ts q l,
    swept incoming (Order.remaining_quantity incoming) (side_orders (opposite s) b) ts q l ∧
    0 ≤ q ≤ Order.remaining_quantity incoming ∧
    Forall (resting_on (opposite s)) l ∧ prioritised (opposite s) l ∧
    execute incoming b =
      (ts, if (0 <? q) && rests incoming
           then with_side s (enqueue s (Order.set_remaining_quantity q incoming) (side_orders s b))
                  (with_side (opposite s) l b)
           else with_side (opposite s) l b).
Proof.
  intros s Hwf Hv. destruct (wf_side (opposite s) b Hwf) as [Hr Hp]. unfold execute. fold s.
  pose proof (sweep_swept (opposite s) incoming (Order.remaining_quantity incoming) _ Hr) as Hsw.
  destruct (sweep incoming _ _) as [[ts q] l]. red in Hv. specialize (Hsw ltac:(lia)).
  exists ts, q, l. pose proof (swept_bounds _ _ _ _ _ _ _ Hr Hsw).
  destruct (swept_wf _ _ _ _ _ _ _ Hr Hp Hsw) as (? & ? & _).
  repeat split; auto; try lia. rewrite side_with_opposite. by destruct (_ && _).
Qed.

Lemma rests_limit o : rests o = true ↔
  Order.type o = Limit ∧ Order.time_in_force o = GoodTillCancel.
Proof. unfold rests. destruct (Order.type o), (Order.time_in_force o); naive_solver. Qed.

Lemma execute_wf incoming b :
  wf b → valid_incoming incoming → wf (execute incoming b).2.
Proof.
  intros Hwf Hv. destruct (execute_cases incoming b Hwf Hv)
    as (ts & q & l & _ & Hq & Hl & Hp & ->). simpl.
  assert (wf (with_side (opposite (Order.side incoming)) l b)) as Hwf'
    by by apply wf_with_side.
  destruct ((0 <? q) && rests incoming) eqn:E; [|done].
  zify_bool. destruct (wf_side (Order.side incoming) b Hwf) as [Hr Hpr].
  match goal with H : rests _ = true |- _ => apply rests_limit in H as [Hty _] end.
  apply wf_with_side; [done| |by apply prioritised_enqueue].
  apply Forall_forall. intros x [->|Hx]%elem_of_enqueue.
  - red in Hv. repeat split; simpl; auto; lia.
  - rewrite Forall_forall in Hr. by apply Hr.
Qed.

Lemma uncrossed_marketable incoming b :
  Order.type incoming = Limit →
  Forall (λ o, marketable incoming (Order.price o) = false)
    (side_orders (opposite (Order.side incoming)) b) →
  uncrossed b → uncrossed (with_side (Order.side incoming)
    (enqueue (Order.side incoming) incoming (side_orders (Order.side incoming) b)) b).
Proof.
  unfold uncrossed, marketable. intros -> Hm Hu bid ask. rewrite Forall_forall in Hm.
  destruct (Order.side incoming) eqn:E; simpl in *; intros Hb Ha.
  - apply elem_of_enqueue in Hb as [->|Hb]; [|by apply Hu].
    specialize (Hm ask Ha). rewrite Z.geb_leb in Hm. zify_bool. lia.
  - apply elem_of_enqueue in Ha as [->|Ha]; [|by apply Hu].
    specialize (Hm bid Hb). zify_bool. lia.
Qed.

Lemma swept_uncrossed incoming b ts q l :
  let s := opposite (Order.side incoming) in
  wf b → uncrossed b →
  swept incoming (Order.remaining_quantity incoming) (side_orders s b) ts q l →
  uncrossed (with_side s l b).
Proof.
  intros s Hwf Hu Hsw bid ask Hb Ha.
  pose proof (λ x, swept_origin _ _ _ _ _ _ x Hsw) as Hor. subst s. clear Hsw.
  destruct (Order.side incoming); simpl in *.
  - destruct (Hor _ Ha) as (y & Hy & ->). simpl. by apply Hu.
  - destruct (Hor _ Hb) as (y & Hy & ->). simpl. by apply Hu.
Qed.

Lemma execute_uncrossed incoming b :
  wf b → valid_incoming incoming → uncrossed b → uncrossed (execute incoming b).2.
Proof.
  intros Hwf Hv Hu. destruct (execute_cases incoming b Hwf Hv)
    as (ts & q & l & Hsw & Hq & Hl & Hp & ->). simpl. set (s := Order.side incoming) in *.
  pose proof (swept_uncrossed _ _ _ _ _ Hwf Hu Hsw) as Hu'. fold s in Hu'.
  destruct ((0 <? q) && rests incoming) eqn:E; [|done]. zify_bool.
  match goal with H : rests _ = true |- _ => apply rests_limit in H as [Hty _] end.
  pose proof (uncrossed_marketable (Order.set_remaining_quantity q incoming)
                (with_side (opposite s) l b)) as Hun.
  simpl in Hun. fold s in Hun. rewrite side_with_side, side_with_opposite in Hun.
  apply Hun; [done| |done].
  exact (swept_exhausts (opposite s) incoming _ _ _ _ _ eq_refl
           (proj2 (wf_side _ _ Hwf)) Hsw ltac:(lia)).
Qed.

(** Only good-till-cancel orders rest. *)
Definition gtc (b : t) : Prop :=
  Forall (λ o, Order.time_in_force o = GoodTillCancel) (all_orders b).

Lemma gtc_with_side s l b :
  gtc b → Forall (λ o, Order.time_in_force o = GoodTillCancel) l → gtc (with_side s l b).
Proof. unfold gtc, all_orders. rewrite !Forall_app. by intros [? ?]; destruct s. Qed.

Lemma gtc_side s b :
  gtc b → Forall (λ o, Order.time_in_force o = GoodTillCancel) (side_orders s b).
Proof. unfold gtc, all_orders. rewrite Forall_app. by intros [? ?]; destruct s. Qed.

Lemma swept_gtc incoming q s b ts q' l :
  gtc b → swept incoming q (side_orders s b) ts q' l → gtc (with_side s l b).
Proof.
  intros Hg Hsw. apply gtc_with_side; [done|]. apply Forall_forall. intros x Hx.
  destruct (swept_origin _ _ _ _ _ _ _ Hsw Hx) as (y & Hy & ->). simpl.
  apply (gtc_side s) in Hg. rewrite Forall_forall in Hg. by apply Hg.
Qed.

Lemma execute_gtc incoming b :
  wf b → valid_incoming incoming → gtc b → gtc (execute incoming b).2.
Proof.
  intros Hwf Hv Hg. destruct (execute_cases incoming b Hwf Hv)
    as (ts & q & l & Hsw & _ & _ & _ & ->). simpl.
  pose proof (swept_gtc _ _ _ _ _ _ _ Hg Hsw) as Hg'.
  destruct ((0 <? q) && rests incoming) eqn:E; [|done]. zify_bool.
  match goal with H : rests _ = true |- _ => apply rests_limit in H as [_ Htif] end.
  apply gtc_with_side; [done|]. apply (gtc_side (Order.side incoming)) in Hg.
  rewrite Forall_forall in Hg |- *. intros x [->|Hx]%elem_of_enqueue; [done|auto].
Qed.

(** Removing orders keeps every invariant of a book. *)
Lemma StronglySorted_filter {A} (R : A → A → Prop) (P : A → Prop)
    `{∀ x, Decision (P x)} (l : list A) :
  StronglySorted R l → StronglySorted R (filter P l).
Proof.
  induction 1 as [|x l Hl IH Hx]; [constructor|]. rewrite filter_cons.
  destruct (decide (P x)); [|done]. constructor; [done|].
  rewrite Forall_forall in Hx |- *. intros y [_ Hy]%list_elem_of_filter. by apply Hx.
Qed.

Lemma remove_book s order_id b :
  wf b → uncrossed b → gtc b →
  let b' := with_side s (remove order_id (side_orders s b)) b in
  wf b' ∧ uncrossed b' ∧ gtc b'.
Proof.
  intros Hwf Hu Hg b'.
  assert (∀ x, x ∈ remove order_id (side_orders s b) → x ∈ side_orders s b) as Hsub
    by by intros x [_ ?]%list_elem_of_filter.
  destruct (wf_side s b Hwf) as [Hr Hp]. pose proof (gtc_side s _ Hg) as Hgs.
  rewrite Forall_forall in Hr, Hgs. split_and!.
  - apply wf_with_side; [done| |by apply StronglySorted_filter].
    apply Forall_forall. auto.
  - intros bid ask Hb Ha. subst b'. destruct s; simpl in *; apply Hu; auto.
  - apply gtc_with_side; [done|]. apply Forall_forall. auto.
Qed.

Lemma normalise_fields o :
  Order.id (normalise o) = Order.id o ∧ Order.side (normalise o) = Order.side o ∧
  Order.price (normalise o) = Order.price o ∧
  Order.remaining_quantity (normalise o) = Order.remaining_quantity o ∧
  Order.type (normalise o) = Order.type o.
Proof. unfold normalise. by destruct (Order.type o) eqn:E, (Order.time_in_force o); simpl; rewrite ?E. Qed.

Lemma normalise_fok o :
  Order.time_in_force (normalise o) = FillOrKill ↔ Order.time_in_force o = FillOrKill.
Proof.
  unfold normalise. destruct (Order.type o), (Order.time_in_force o) eqn:E; simpl; by rewrite ?E.
Qed.

Lemma normalise_valid o : valid_incoming o → valid_incoming (normalise o).
Proof. unfold valid_incoming. by destruct (normalise_fields o) as (_ & _ & _ & -> & _). Qed.

(** An order whose time in force, after normalisation, is not GTC does not rest. *)
Lemma normalise_rests o :
  rests (normalise o) = true ↔
  Order.type o = Limit ∧ Order.time_in_force o = GoodTillCancel.
Proof.
  unfold normalise. destruct (Order.type o) eqn:E, (Order.time_in_force o) eqn:E';
    rewrite rests_limit; simpl; intuition congruence.
Qed.

Lemma process_wf incoming b :
  wf b → valid_incoming incoming → wf (process incoming b).2.
Proof.
  intros Hwf Hv. unfold process. destruct (bool_decide _ && _); [done|].
  apply execute_wf; [done|]. by apply normalise_valid.
Qed.

Lemma process_uncrossed incoming b :
  wf b → valid_incoming incoming → uncrossed b → uncrossed (process incoming b).2.
Proof.
  intros Hwf Hv Hu. unfold process. destruct (bool_decide _ && _); [done|].
  apply execute_uncrossed; [done| |done]. by apply normalise_valid.
Qed.

(** With enough marketable depth the sweep leaves nothing. *)
Lemma swept_available s incoming q l ts q' l' :
  Forall (resting_on s) l → q ≤ available incoming l →
  swept incoming q l ts q' l' → q' = 0.
Proof.
  intros Hl Hq [filled rest -> Hm Hd Hstop|filled o rest -> _ _ _]; [|done].
  assert (available incoming (filled ++ rest) = depth filled + available incoming rest) as Ha.
  { clear -Hm. induction Hm as [|o l H _ IH]; simpl; [done|]. rewrite H, IH.
    rewrite depth_cons. lia. }
  destruct Hstop as [|Hstop]; [lia|].
  assert (available incoming rest = 0) by (destruct rest; simpl; [done|by rewrite Hstop]).
  lia.
Qed.

(** FOK: all of it at once, or nothing and an unchanged book. *)
Lemma process_fok incoming b :
  wf b → valid_incoming incoming → Order.time_in_force incoming = FillOrKill →
  (process incoming b = ([], b) ∨
   traded (process incoming b).1 = Order.remaining_quantity incoming) ∧
  ((process incoming b).1 = [] ↔
   available incoming (side_orders (opposite (Order.side incoming)) b)
     < Order.remaining_quantity incoming).
Proof.
  intros Hwf Hv Htif. unfold process, normalise.
  replace (match Order.type incoming, Order.time_in_force incoming with
           | Market, GoodTillCancel => Order.set_time_in_force ImmediateOrCancel incoming
           | _, _ => incoming end) with incoming
    by (rewrite Htif; by destruct (Order.type incoming)).
  rewrite bool_decide_eq_true_2 by done. simpl.
  destruct (Z.ltb_spec (available incoming (side_orders (opposite (Order.side incoming)) b))
              (Order.remaining_quantity incoming)); [naive_solver|].
  destruct (execute_cases incoming b Hwf Hv) as (ts & q & l & Hsw & Hq & _ & _ & ->). simpl.
  pose proof (swept_available _ _ _ _ _ _ _ (proj1 (wf_side _ _ Hwf)) ltac:(eassumption) Hsw).
  pose proof (swept_conservation _ _ _ _ _ _ Hsw) as [Hc _]. subst q. red in Hv.
  split; [right; lia|]. split; [|lia]. intros ->. unfold traded in Hc. simpl in Hc. lia.
Qed.

End BookSpec.
