(* ===== verification/OrderBook.v ===== *)
(** * The order book (include/exchange/order_book.hpp)

    Two ordered maps of price levels and an index from order ids to list
    iterators.  The two branches of each method (bids and asks) are the same
    code on the two maps, so the definitions take the side as the source
    computes it and select the map with [levels].  The pool allocator is the
    counter [next_node]: it hands out an address no node has had. *)
From S2P Require Import Prelude Types SortedMap PriceLevel BookSpec.

Module OrderBook.

Module OrderLocation.
Record t : Type := mk {
  side : Side;
  price : Price;
  order_iterator : Node
}.
End OrderLocation.

Abbreviation Levels := (list (Price * PriceLevel.t)).

Record t : Type := mk {
  bids : Levels;
  asks : Levels;
  order_locations : gmap OrderId OrderLocation.t;
  next_node : Node
}.

Definition new : t := mk [] [] ∅ 0%nat.

(* the map of a side, and assignment to it *)
Definition levels (s : Side) (b : t) : Levels :=
  match s with Buy => bids b | Sell => asks b end.
Definition set_levels (s : Side) (ls : Levels) (b : t) : t :=
  match s with
  | Buy => mk ls (asks b) (order_locations b) (next_node b)
  | Sell => mk (bids b) ls (order_locations b) (next_node b)
  end.
Definition set_locations (m : gmap OrderId OrderLocation.t) (b : t) : t :=
  mk (bids b) (asks b) m (next_node b).
Definition allocate (b : t) : t :=
  mk (bids b) (asks b) (order_locations b) (S (next_node b)).

(* unordered_map::emplace: no effect on a present key *)
Definition emplace (order_id : OrderId) (l : OrderLocation.t)
    (m : gmap OrderId OrderLocation.t) : gmap OrderId OrderLocation.t :=
  match m !! order_id with Some _ => m | None => <[order_id := l]> m end.

(* the nodes of a map of levels, in iteration order *)
Definition flat (ls : Levels) : list (Node * Order) :=
  concat ((λ e, PriceLevel.orders_ e.2) <$> ls).
Definition nodes (b : t) : list (Node * Order) := flat (bids b) ++ flat (asks b).

(* *iterator: undefined when the node is gone *)
Definition deref (b : t) (it : Node) : res Order :=
  match PriceLevel.node_find it (nodes b) with
  | Some o => Ok o
  | None => Throw (Undefined "dangling order iterator")
  end.

Definition contains (b : t) (order_id : OrderId) : bool :=
  bool_decide (is_Some (order_locations b !! order_id)).

Definition find_order (b : t) (order_id : OrderId) : res (option Order) :=
  match order_locations b !! order_id with
  | None => Ok None
  | Some location =>
      let* o := deref b (OrderLocation.order_iterator location) in Ok (Some o)
  end.

Definition order_count (b : t) : nat := size (order_locations b).

Definition add_order (order : Order) : M t unit :=
  b <- get ;;
  if contains b (Order.id order)
  then throw (InvalidArgument "Duplicate order ID")
  else if bool_decide (Order.type order ≠ Limit)
  then throw (InvalidArgument "Only limit orders may rest on the order book")
  else if Order.remaining_quantity order =? 0
  then throw (InvalidArgument "Order quantity must be positive")
  else
    let order_id := Order.id order in
    let side := Order.side order in
    let price := Order.price order in
    modify (λ b, set_levels side
      (smap_try_emplace (before_of side) price (PriceLevel.new_level price)
         (levels side b)) b) ;;;
    b <- get ;;
    match smap_find (before_of side) price (levels side b) with
    | None => throw (Undefined "dangling level iterator")
    | Some level =>
        added <- lift (PriceLevel.add_order level order (next_node b)) ;;
        match added with
        | (level', PriceLevel.It node) =>
            modify (λ b, allocate (set_levels side
              (smap_update (before_of side) price level' (levels side b)) b)) ;;;
            modify (λ b, set_locations
              (emplace order_id (OrderLocation.mk side price node)
                 (order_locations b)) b)
        | (_, PriceLevel.End) => throw (Undefined "dangling order iterator")
        end
    end.

Definition inconsistent (s : Side) : exn :=
  match s with
  | Buy => LogicError "Bid order index is inconsistent"
  | Sell => LogicError "Ask order index is inconsistent"
  end.

Definition extract_order (order_id : OrderId) : M t (option Order) :=
  b <- get ;;
  match order_locations b !! order_id with
  | None => ret None
  | Some location =>
      let node := OrderLocation.order_iterator location in
      let side := OrderLocation.side location in
      let price := OrderLocation.price location in
      extracted_order <- lift (deref b node) ;;
      match smap_find (before_of side) price (levels side b) with
      | None => throw (inconsistent side)
      | Some level =>
          level' <- lift (PriceLevel.erase level (PriceLevel.It node)) ;;
          modify (λ b, set_levels side
            (if PriceLevel.empty level'
             then smap_erase (before_of side) price (levels side b)
             else smap_update (before_of side) price level' (levels side b)) b) ;;;
          modify (λ b, set_locations (delete order_id (order_locations b)) b) ;;;
          ret (Some extracted_order)
      end
  end.

Definition cancel_order (order_id : OrderId) : M t bool :=
  o <- extract_order order_id ;;
  ret (match o with Some _ => true | None => false end).

Definition swap (b other : t) : t * t := (other, b).

Definition empty (b : t) : bool :=
  match bids b, asks b with [], [] => true | _, _ => false end.

Definition has_levels (s : Side) (b : t) : bool :=
  match levels s b with [] => false | _ => true end.
Definition has_bids (b : t) : bool := has_levels Buy b.
Definition has_asks (b : t) : bool := has_levels Sell b.

Definition no_levels (s : Side) : exn :=
  match s with
  | Buy => OutOfRange "Order book has no bids"
  | Sell => OutOfRange "Order book has no asks"
  end.

(* begin() of a map: its price, its level *)
Definition best (s : Side) (b : t) : res (Price * PriceLevel.t) :=
  match levels s b with
  | [] => Throw (no_levels s)
  | e :: _ => Ok e
  end.
Definition best_bid (b : t) : res Price := let* e := best Buy b in Ok e.1.
Definition best_ask (b : t) : res Price := let* e := best Sell b in Ok e.1.
Definition best_bid_level (b : t) : res PriceLevel.t := let* e := best Buy b in Ok e.2.
Definition best_ask_level (b : t) : res PriceLevel.t := let* e := best Sell b in Ok e.2.

(* assignment through the reference best_bid_level()/best_ask_level() returns *)
Definition set_best_level (s : Side) (level : PriceLevel.t) (b : t) : t :=
  match levels s b with
  | [] => b
  | (p, _) :: ls => set_levels s ((p, level) :: ls) b
  end.

(* the loop of executable_quantity over the opposite map *)
Fixpoint executable_loop (incoming : Order) (available : Z) (ls : Levels) : Z :=
  match ls with
  | [] => available
  | (price, level) :: ls' =>
      if bool_decide (Order.type incoming = Limit) &&
         match Order.side incoming with
         | Buy => price >? Order.price incoming
         | Sell => price <? Order.price incoming
         end
      then available
      else
        let available' := u64 (available + PriceLevel.total_quantity level) in
        if available' >=? Order.remaining_quantity incoming then available'
        else executable_loop incoming available' ls'
  end.

Definition executable_quantity (b : t) (incoming : Order) : Z :=
  match Order.side incoming with
  | Buy => executable_loop incoming 0 (asks b)
  | Sell => executable_loop incoming 0 (bids b)
  end.

Definition remove_best_if_empty (s : Side) (b : t) : t :=
  match levels s b with
  | (p, level) :: _ =>
      if PriceLevel.empty level
      then set_levels s (smap_erase (before_of s) p (levels s b)) b else b
  | [] => b
  end.
Definition remove_best_bid_if_empty (b : t) : t := remove_best_if_empty Buy b.
Definition remove_best_ask_if_empty (b : t) : t := remove_best_if_empty Sell b.

Definition remove_from_index (order_id : OrderId) (b : t) : t :=
  set_locations (delete order_id (order_locations b)) b.

(** ** The representation invariant *)

Record side_inv (s : Side) (ls : Levels) : Prop := {
  side_sorted : smap_sorted (before_of s) ls;
  side_levels : Forall (λ e, PriceLevel.wf s e.1 e.2 ∧ PriceLevel.orders_ e.2 ≠ []) ls
}.

(** The index and the nodes describe the same orders: every location is the
    place of a live node, every live node has its location. *)
Definition index_ok (m : gmap OrderId OrderLocation.t) (ns : list (Node * Order)) : Prop :=
  ∀ order_id loc, m !! order_id = Some loc ↔
    ∃ o, (OrderLocation.order_iterator loc, o) ∈ ns ∧ Order.id o = order_id ∧
      Order.side o = OrderLocation.side loc ∧ Order.price o = OrderLocation.price loc.

Record inv (b : t) : Prop := {
  inv_bids : side_inv Buy (bids b);
  inv_asks : side_inv Sell (asks b);
  inv_nodes : NoDup (nodes b).*1;
  inv_fresh : Forall (λ no, (no.1 < next_node b)%nat) (nodes b);
  inv_index : index_ok (order_locations b) (nodes b)
}.

(** The abstract book a book stands for. *)
Definition abs_side (s : Side) (b : t) : list Order := (flat (levels s b)).*2.
Definition abs (b : t) : BookSpec.t := BookSpec.mk (abs_side Buy b) (abs_side Sell b).

(** No level holds more than a [Quantity] can count. *)
Definition exact (b : t) : Prop :=
  ∀ s p level, (p, level) ∈ levels s b → PriceLevel.resting level < 2 ^ 32.

(** ** Lemmas on levels and nodes *)

Lemma flat_app l1 l2 : flat (l1 ++ l2) = flat l1 ++ flat l2.
Proof. unfold flat. by rewrite fmap_app, concat_app. Qed.
Lemma flat_cons p level ls : flat ((p, level) :: ls) = PriceLevel.orders_ level ++ flat ls.
Proof. done. Qed.

Lemma elem_of_flat no ls :
  no ∈ flat ls ↔ ∃ p level, (p, level) ∈ ls ∧ no ∈ PriceLevel.orders_ level.
Proof.
  induction ls as [|[p level] ls IH]; simpl; [unfold flat; simpl; set_solver|].
  rewrite flat_cons, elem_of_app, IH. split.
  - intros [H|(p' & l' & H1 & H2)]; [exists p, level|exists p', l']; set_solver.
  - intros (p' & l' & [[= -> ->]|H1]%elem_of_cons & H2); [by left|right; eauto].
Qed.

Lemma levels_set_levels s ls b : levels s (set_levels s ls b) = ls.
Proof. by destruct s. Qed.
Lemma levels_set_opposite s ls b : levels (opposite s) (set_levels s ls b) = levels (opposite s) b.
Proof. by destruct s. Qed.
Lemma locations_set_levels s ls b : order_locations (set_levels s ls b) = order_locations b.
Proof. by destruct s. Qed.
Lemma next_set_levels s ls b : next_node (set_levels s ls b) = next_node b.
Proof. by destruct s. Qed.
Lemma set_levels_twice s ls ls' b : set_levels s ls (set_levels s ls' b) = set_levels s ls b.
Proof. by destruct s. Qed.

(** The nodes of both sides, seen from one side. *)
Lemma nodes_perm s b : nodes b ≡ₚ flat (levels s b) ++ flat (levels (opposite s) b).
Proof. destruct s; [done|]. apply Permutation_app_comm. Qed.

Lemma inv_side s b : inv b → side_inv s (levels s b).
Proof. intros []. by destruct s. Qed.

Lemma side_level s ls p level :
  side_inv s ls → (p, level) ∈ ls →
  PriceLevel.wf s p level ∧ PriceLevel.orders_ level ≠ [] ∧
  smap_find (before_of s) p ls = Some level.
Proof.
  intros [Hs Hl] Hin. rewrite Forall_forall in Hl. destruct (Hl _ Hin).
  split; [done|]. split; [done|]. by apply smap_find_elem; [apply _|..].
Qed.

(** A node of a side holds an order of that side, in the level of its price. *)
Lemma side_node s ls n o :
  side_inv s ls → (n, o) ∈ flat ls →
  ∃ level, smap_find (before_of s) (Order.price o) ls = Some level ∧
    (Order.price o, level) ∈ ls ∧
    PriceLevel.wf s (Order.price o) level ∧ (n, o) ∈ PriceLevel.orders_ level ∧
    PriceLevel.restable s (Order.price o) o.
Proof.
  intros Hi (p & level & Hin & Hno)%elem_of_flat.
  destruct (side_level _ _ _ _ Hi Hin) as (Hwf & _ & Hf).
  pose proof (PriceLevel.wf_orders _ _ _ Hwf) as Ho. rewrite Forall_forall in Ho.
  pose proof (Ho _ Hno) as Hr. simpl in Hr.
  assert (Order.price o = p) as <- by apply Hr. exists level. by split_and!.
Qed.

Lemma elem_of_nodes s b n o :
  inv b → (n, o) ∈ nodes b → Order.side o = s → (n, o) ∈ flat (levels s b).
Proof.
  intros Hi Hin Hs. rewrite (nodes_perm s b) in Hin.
  apply elem_of_app in Hin as [|Hin]; [done|].
  destruct (side_node _ _ _ _ (inv_side (opposite s) b Hi) Hin) as (_ & _ & _ & _ & _ & Hr).
  destruct Hr as [Hr _]. rewrite Hs in Hr. by destruct s.
Qed.

(** The abstraction of a well-formed book is a well-formed abstract book. *)
Lemma side_abs_wf s ls :
  side_inv s ls →
  Forall (BookSpec.resting_on s) (flat ls).*2 ∧ BookSpec.prioritised s (flat ls).*2.
Proof.
  intros Hi. split.
  { apply Forall_fmap, Forall_forall. intros [n o] Hin.
    destruct (side_node _ _ _ _ Hi Hin) as (_ & _ & _ & _ & _ & H1 & H2 & H3 & H4).
    unfold compose, BookSpec.resting_on. simpl. tauto. }
  destruct Hi as [Hs Hl]. induction ls as [|[p level] ls IH]; [constructor|].
  apply StronglySorted_cons in Hs as [Hp Hs]. apply Forall_cons in Hl as [[Hwf _] Hl].
  specialize (IH Hs Hl). rewrite flat_cons, fmap_app.
  pose proof (PriceLevel.wf_orders _ _ _ Hwf) as Ho. simpl in Ho.
  apply StronglySorted_app. split; [|split; [|done]].
  - intros x y Hx Hy. apply list_elem_of_fmap in Hx as ([n1 o1] & -> & Hx).
    apply list_elem_of_fmap in Hy as ([n2 o2] & -> & Hy). simpl.
    destruct (side_node s ls n2 o2 (Build_side_inv _ _ Hs Hl) Hy) as (l2 & _ & Hin & _).
    rewrite Forall_forall in Hp. rewrite Forall_forall in Ho. specialize (Hp _ Hin). simpl in Hp.
    destruct (Ho _ Hx) as (_ & _ & Hp1 & _). simpl in Hp1. rewrite Hp1. by apply before_asym; [apply _|].
  - induction Ho as [|[n o] os (_ & _ & Hpo & _) Ho IHo]; [constructor|]. simpl in *.
    constructor; [done|]. apply Forall_fmap. eapply Forall_impl; [exact Ho|].
    intros [n' o'] (_ & _ & Hpo' & _). simpl in *. rewrite Hpo, Hpo'. apply before_irrefl.
Qed.

Lemma abs_wf b : inv b → BookSpec.wf (abs b).
Proof.
  intros [Hb Ha _ _ _]. destruct (side_abs_wf _ _ Hb), (side_abs_wf _ _ Ha). by split.
Qed.

Lemma abs_side_orders s b : BookSpec.side_orders s (abs b) = abs_side s b.
Proof. by destruct s. Qed.

Lemma new_inv : inv new.
Proof.
  split; simpl; try (by constructor); [by split; constructor|by split; constructor|].
  intros id loc. rewrite lookup_empty. split; [done|]. intros (o & Hin & _).
  by apply elem_of_nil in Hin.
Qed.

(** ** The index *)

Lemma index_perm m ns ns' : ns ≡ₚ ns' → index_ok m ns → index_ok m ns'.
Proof. intros Hp H id loc. rewrite (H id loc). by setoid_rewrite Hp. Qed.

Lemma index_node m ns n o :
  index_ok m ns → (n, o) ∈ ns →
  m !! Order.id o = Some (OrderLocation.mk (Order.side o) (Order.price o) n).
Proof. intros H Hin. apply H. by exists o. Qed.

(** Order ids identify nodes. *)
Lemma index_unique m ns n1 o1 n2 o2 :
  index_ok m ns → (n1, o1) ∈ ns → (n2, o2) ∈ ns → Order.id o1 = Order.id o2 → n1 = n2.
Proof.
  intros H H1 H2 Heq. pose proof (index_node _ _ _ _ H H1) as E1.
  pose proof (index_node _ _ _ _ H H2) as E2. rewrite Heq in E1. by simplify_eq.
Qed.

Lemma index_add m ns n o :
  index_ok m ns → m !! Order.id o = None →
  index_ok (<[Order.id o := OrderLocation.mk (Order.side o) (Order.price o) n]> m)
    ((n, o) :: ns).
Proof.
  intros H Hnone id loc. destruct (decide (Order.id o = id)) as [<-|Hne].
  - rewrite lookup_insert_eq. split.
    + intros [= <-]. exists o. simpl. set_solver.
    + intros (o' & [[= E1 E2]|Hin]%elem_of_cons & Hid & Hs & Hp).
      * subst o'. destruct loc. simpl in *. by subst.
      * pose proof (index_node _ _ _ _ H Hin). congruence.
  - rewrite lookup_insert_ne, (H id loc) by done. split.
    + intros (o' & Hin & ?). exists o'. set_solver.
    + intros (o' & [[= E1 E2]|Hin]%elem_of_cons & Hid & ?); [congruence|by exists o'].
Qed.

Lemma index_remove m ns n o :
  index_ok m ((n, o) :: ns) → n ∉ ns.*1 → index_ok (delete (Order.id o) m) ns.
Proof.
  intros H Hn id loc. destruct (decide (Order.id o = id)) as [<-|Hne].
  - rewrite lookup_delete_eq. split; [done|]. intros (o' & Hin & Hid & _).
    destruct Hn. apply list_elem_of_fmap. exists (OrderLocation.order_iterator loc, o').
    split; [|done]. simpl. apply (index_unique m ((n, o) :: ns) n o _ o'); [done|by left|by right|done].
  - rewrite lookup_delete_ne, (H id loc) by done. split.
    + intros (o' & [[= E1 E2]|Hin]%elem_of_cons & Hid & ?); [congruence|by exists o'].
    + intros (o' & Hin & ?). exists o'. set_solver.
Qed.

Lemma index_replace m ns n o o' :
  Order.id o = Order.id o' → Order.side o = Order.side o' → Order.price o = Order.price o' →
  index_ok m ((n, o) :: ns) → index_ok m ((n, o') :: ns).
Proof.
  intros Hi Hs Hp H id loc. rewrite (H id loc). split.
  - intros (x & [[= E1 E2]|Hin]%elem_of_cons & Hx).
    + exists o'. subst x. rewrite <- E1, <- Hi, <- Hs, <- Hp. split; [by left|done].
    + exists x. split; [by right|done].
  - intros (x & [[= E1 E2]|Hin]%elem_of_cons & Hx).
    + exists o. subst x. rewrite <- E1, Hi, Hs, Hp. split; [by left|done].
    + exists x. split; [by right|done].
Qed.

Lemma deref_node b n o : inv b → (n, o) ∈ nodes b → deref b n = Ok o.
Proof.
  intros Hi Hin. unfold deref.
  by rewrite (PriceLevel.elem_node_find _ _ _ (inv_nodes _ Hi) Hin).
Qed.

Lemma location_node b order_id loc :
  inv b → order_locations b !! order_id = Some loc →
  ∃ o, (OrderLocation.order_iterator loc, o) ∈ nodes b ∧ Order.id o = order_id ∧
    Order.side o = OrderLocation.side loc ∧ Order.price o = OrderLocation.price loc ∧
    deref b (OrderLocation.order_iterator loc) = Ok o.
Proof.
  intros Hi Hloc. apply (inv_index _ Hi) in Hloc as (o & Hin & H1 & H2 & H3).
  exists o. repeat split; auto. by apply deref_node.
Qed.

(** Lookups by id see exactly the resting orders. *)
Lemma find_order_spec b order_id :
  inv b →
  match order_locations b !! order_id with
  | None => find_order b order_id = Ok None ∧
      Forall (λ no, Order.id no.2 ≠ order_id) (nodes b)
  | Some loc => ∃ o, find_order b order_id = Ok (Some o) ∧ Order.id o = order_id ∧
      (OrderLocation.order_iterator loc, o) ∈ nodes b ∧
      Order.side o = OrderLocation.side loc ∧ Order.price o = OrderLocation.price loc
  end.
Proof.
  intros Hi. unfold find_order. destruct (order_locations b !! order_id) as [loc|] eqn:E.
  - destruct (location_node _ _ _ Hi E) as (o & H1 & H2 & H3 & H4 & ->). by exists o.
  - split; [done|]. apply Forall_forall. intros [n o] Hin <-. simpl in *.
    pose proof (index_node _ _ _ _ (inv_index _ Hi) Hin). congruence.
Qed.

(** ** One level singled out of a side *)

Definition good_level (s : Side) (e : Price * PriceLevel.t) : Prop :=
  PriceLevel.wf s e.1 e.2 ∧ PriceLevel.orders_ e.2 ≠ [].

Record around (s : Side) (p : Price) (l1 l2 : Levels) : Prop := {
  around_sorted : smap_sorted (before_of s) (l1 ++ l2);
  around_before : Forall (λ e, before_of s e.1 p = true) l1;
  around_after : Forall (λ e, before_of s p e.1 = true) l2;
  around_left : Forall (good_level s) l1;
  around_right : Forall (good_level s) l2
}.

Lemma around_intro s p level l1 l2 :
  side_inv s (l1 ++ (p, level) :: l2) →
  around s p l1 l2 ∧ PriceLevel.wf s p level ∧ PriceLevel.orders_ level ≠ [].
Proof.
  intros [Hs Hl]. apply smap_sorted_app in Hs as (H1 & H2 & H3); [|apply _].
  apply Forall_app in Hl as [Hl1 [[Hw Hn] Hl2]%Forall_cons]. by split; [split|].
Qed.

Lemma around_level s p level l1 l2 :
  around s p l1 l2 → PriceLevel.wf s p level → PriceLevel.orders_ level ≠ [] →
  side_inv s (l1 ++ (p, level) :: l2).
Proof.
  intros [] Hw Hn. split.
  - by apply smap_sorted_app; [apply _|].
  - by apply Forall_app; split; [|constructor].
Qed.

Lemma around_drop s p l1 l2 : around s p l1 l2 → side_inv s (l1 ++ l2).
Proof. intros []. split; [done|]. by apply Forall_app. Qed.

Lemma find_around s p ls level :
  side_inv s ls → smap_find (before_of s) p ls = Some level →
  ∃ l1 l2, ls = l1 ++ (p, level) :: l2 ∧ around s p l1 l2 ∧
    PriceLevel.wf s p level ∧ PriceLevel.orders_ level ≠ [].
Proof.
  intros Hi (l1 & l2 & -> & _)%smap_find_Some; [|apply _].
  exists l1, l2. split; [done|]. by apply around_intro.
Qed.

Lemma emplace_around s p ls :
  side_inv s ls →
  ∃ l1 level l2, smap_try_emplace (before_of s) p (PriceLevel.new_level p) ls
      = l1 ++ (p, level) :: l2 ∧
    around s p l1 l2 ∧ PriceLevel.wf s p level ∧
    flat ls = flat l1 ++ PriceLevel.orders_ level ++ flat l2.
Proof.
  intros Hi. destruct (smap_find (before_of s) p ls) as [level|] eqn:E.
  - destruct (find_around _ _ _ _ Hi E) as (l1 & l2 & -> & Ha & Hw & Hn).
    exists l1, level, l2. rewrite smap_emplace_mid by (apply _ || apply Ha).
    by rewrite flat_app, flat_cons.
  - destruct Hi as [Hs Hl].
    apply smap_find_None in E as (l1 & l2 & -> & H1 & H2 & He); [|apply _|done].
    apply Forall_app in Hl as [Hl1 Hl2].
    exists l1, (PriceLevel.new_level p), l2. rewrite He, flat_app.
    split; [done|]. split; [by split|]. split; [apply PriceLevel.new_level_wf|done].
Qed.

(** Prices on either side of the singled-out level. *)
Lemma around_prices s p l1 l2 o :
  around s p l1 l2 → Order.price o = p →
  Forall (λ x, before_of s (Order.price o) (Order.price x) = false) (flat l1).*2 ∧
  Forall (λ x, before_of s (Order.price o) (Order.price x) = true) (flat l2).*2.
Proof.
  intros [_ H1 H2 H3 H4] ->. rewrite !Forall_fmap, !Forall_forall.
  rewrite Forall_forall in H1, H2, H3, H4. split; intros [n x] (q & level & Hin & Hno)%elem_of_flat;
    simpl; [destruct (H3 _ Hin) as [Hw _]|destruct (H4 _ Hin) as [Hw _]];
    pose proof (PriceLevel.wf_orders _ _ _ Hw) as Ho; rewrite Forall_forall in Ho;
    destruct (Ho _ Hno) as (_ & _ & Hp & _); simpl in Hp; rewrite Hp.
  - apply before_asym; [apply _|]. by apply (H1 _ Hin).
  - by apply (H2 _ Hin).
Qed.

(** ** Changing one level preserves the invariant *)

(** The common core of add, extract and fill: the nodes of one side become
    those of [ls'], and the index is updated to match. *)
Lemma inv_update s ls' m n b :
  inv b → side_inv s ls' →
  NoDup (flat ls' ++ flat (levels (opposite s) b)).*1 →
  Forall (λ no, (no.1 < n)%nat) (flat ls' ++ flat (levels (opposite s) b)) →
  index_ok m (flat ls' ++ flat (levels (opposite s) b)) →
  inv (mk (bids (set_levels s ls' b)) (asks (set_levels s ls' b)) m n).
Proof.
  intros Hi Hs Hn Hf Hx. pose proof (inv_bids _ Hi). pose proof (inv_asks _ Hi).
  set (b' := mk _ _ _ _).
  assert (nodes b' ≡ₚ flat ls' ++ flat (levels (opposite s) b)) as Hp.
  { rewrite (nodes_perm s). by destruct s. }
  split.
  - by destruct s.
  - by destruct s.
  - by rewrite Hp.
  - by rewrite Hp.
  - by eapply index_perm.
Qed.

Lemma abs_update s ls' m n b :
  abs (mk (bids (set_levels s ls' b)) (asks (set_levels s ls' b)) m n) =
  BookSpec.with_side s (flat ls').*2 (abs b).
Proof. by destruct s. Qed.

Lemma nodup_side s b :
  inv b → NoDup (flat (levels s b) ++ flat (levels (opposite s) b)).*1.
Proof. intros Hi. pose proof (inv_nodes _ Hi) as H. by rewrite (nodes_perm s b) in H. Qed.
Lemma fresh_side s b :
  inv b → Forall (λ no, (no.1 < next_node b)%nat)
            (flat (levels s b) ++ flat (levels (opposite s) b)).
Proof. intros Hi. pose proof (inv_fresh _ Hi) as H. by rewrite (nodes_perm s b) in H. Qed.
Lemma index_side s b :
  inv b → index_ok (order_locations b) (flat (levels s b) ++ flat (levels (opposite s) b)).
Proof. intros Hi. eapply index_perm; [|apply Hi]. apply nodes_perm. Qed.

(** ** The operations refine the abstract book *)

Definition free_id (b : t) (order_id : OrderId) : Prop :=
  order_locations b !! order_id = None.

Lemma flat_mid l1 p level l2 :
  flat (l1 ++ (p, level) :: l2) = flat l1 ++ PriceLevel.orders_ level ++ flat l2.
Proof. by rewrite flat_app, flat_cons. Qed.

Lemma perm_snoc_mid {A} (xs ys zs ws : list A) (a : A) :
  (xs ++ (ys ++ [a]) ++ zs) ++ ws ≡ₚ a :: (xs ++ ys ++ zs) ++ ws.
Proof. solve_Permutation. Qed.
Lemma perm_mid {A} (xs y1 y2 zs ws : list A) (a : A) :
  (xs ++ (y1 ++ a :: y2) ++ zs) ++ ws ≡ₚ a :: (xs ++ (y1 ++ y2) ++ zs) ++ ws.
Proof. solve_Permutation. Qed.

Lemma add_order_refines b o :
  inv b → free_id b (Order.id o) → Order.type o = Limit →
  0 < Order.remaining_quantity o < 2 ^ 32 →
  let s := Order.side o in
  ∃ b', add_order o b = (Ok tt, b') ∧ inv b' ∧
    abs b' = BookSpec.with_side s (BookSpec.enqueue s o (abs_side s b)) (abs b) ∧
    order_locations b' =
      <[Order.id o := OrderLocation.mk s (Order.price o) (next_node b)]> (order_locations b).
Proof.
  intros Hi Hid Hty Hq s. unfold free_id in Hid.
  destruct (emplace_around s (Order.price o) _ (inv_side s b Hi))
    as (l1 & level & l2 & He & Ha & Hw & Hflat).
  assert (PriceLevel.restable s (Order.price o) o) as Hr by (repeat split; auto; lia).
  destruct (PriceLevel.add_order_wf s _ level o (next_node b) Hw Hr)
    as (level' & Hadd & Hw' & Hos).
  unfold add_order, bind, get. rewrite Hty. unfold contains.
  rewrite bool_decide_eq_false_2 by (rewrite Hid; by intros [? ?]).
  rewrite bool_decide_eq_false_2 by naive_solver.
  destruct (Z.eqb_spec (Order.remaining_quantity o) 0); [lia|].
  unfold modify. fold s. rewrite levels_set_levels, He, next_set_levels.
  rewrite smap_find_mid by (apply _ || apply Ha). unfold lift. rewrite Hadd.
  rewrite levels_set_levels, smap_update_mid by (apply _ || apply Ha).
  rewrite set_levels_twice.
  eexists. split; [reflexivity|]. unfold allocate, set_locations. simpl.
  rewrite locations_set_levels, next_set_levels. unfold emplace. rewrite Hid.
  assert (PriceLevel.orders_ level' ≠ []) as Hne by (rewrite Hos; by destruct (PriceLevel.orders_ level)).
  assert (flat (l1 ++ (Order.price o, level') :: l2) ++ flat (levels (opposite s) b) ≡ₚ
          (next_node b, o) :: flat (levels s b) ++ flat (levels (opposite s) b)) as Hperm.
  { rewrite flat_mid, Hos, Hflat. apply perm_snoc_mid. }
  pose proof (fresh_side s b Hi) as Hfresh.
  split; [|split; [|done]].
  - apply inv_update; [done|by apply around_level| | |].
    + rewrite Hperm. simpl. apply NoDup_cons. split; [|by apply nodup_side].
      intros (no & Hno & Hin)%list_elem_of_fmap. rewrite Forall_forall in Hfresh.
      specialize (Hfresh _ Hin). simpl in *. lia.
    + rewrite Hperm. constructor; [simpl; lia|]. eapply Forall_impl; [exact Hfresh|].
      simpl. lia.
    + eapply index_perm; [symmetry; exact Hperm|]. apply index_add; [by apply index_side|done].
  - rewrite abs_update. f_equal. unfold abs_side. rewrite flat_mid, Hos, Hflat.
    rewrite !fmap_app. simpl. destruct (around_prices _ _ _ _ o Ha eq_refl) as [H1 H2].
    rewrite (app_assoc (flat l1).*2 (PriceLevel.orders_ level).*2 (flat l2).*2).
    rewrite BookSpec.enqueue_split; [by rewrite <- !app_assoc| |done].
    apply Forall_app. split; [done|]. apply Forall_fmap.
    eapply Forall_impl; [exact (PriceLevel.wf_orders _ _ _ Hw)|].
    intros no (_ & _ & Hp & _). simpl. rewrite Hp. apply before_irrefl.
Qed.

(** The exceptions of [add_order], in the order the guards are written; the
    book is unchanged. *)
Lemma add_order_throws b o :
  (is_Some (order_locations b !! Order.id o) →
   add_order o b = (Throw (InvalidArgument "Duplicate order ID"), b)) ∧
  (free_id b (Order.id o) → Order.type o = Market →
   add_order o b = (Throw (InvalidArgument "Only limit orders may rest on the order book"), b)) ∧
  (free_id b (Order.id o) → Order.type o = Limit → Order.remaining_quantity o = 0 →
   add_order o b = (Throw (InvalidArgument "Order quantity must be positive"), b)).
Proof.
  unfold add_order, bind, get, contains, free_id. split; [|split].
  - intros H. by rewrite bool_decide_eq_true_2.
  - intros -> Hty. rewrite bool_decide_eq_false_2 by (by intros [? ?]).
    by rewrite bool_decide_eq_true_2 by (by rewrite Hty).
  - intros -> -> ->. rewrite bool_decide_eq_false_2 by (by intros [? ?]).
    by rewrite bool_decide_eq_false_2 by naive_solver.
Qed.

(** Removing an order by its id from the nodes it is in. *)
Lemma remove_nodes (xs n1 n2 ys : list (Node * Order)) no :
  Forall (λ x, Order.id x.2 ≠ Order.id no.2) (xs ++ (n1 ++ n2) ++ ys) →
  BookSpec.remove (Order.id no.2) (xs ++ (n1 ++ no :: n2) ++ ys).*2 =
    (xs ++ (n1 ++ n2) ++ ys).*2.
Proof.
  rewrite !Forall_app. intros (H1 & (H2 & H3) & H4). unfold BookSpec.remove.
  rewrite !fmap_app, fmap_cons, !filter_app, filter_cons_False by (intros []; done).
  by rewrite !filter_all by by apply Forall_fmap.
Qed.

(** The level an indexed order rests at, and the order in it. *)
Lemma locate b order_id loc :
  inv b → order_locations b !! order_id = Some loc →
  let s := OrderLocation.side loc in
  let n := OrderLocation.order_iterator loc in
  ∃ o level l1 l2, Order.id o = order_id ∧ Order.side o = s ∧
    Order.price o = OrderLocation.price loc ∧
    deref b n = Ok o ∧
    smap_find (before_of s) (OrderLocation.price loc) (levels s b) = Some level ∧
    levels s b = l1 ++ (OrderLocation.price loc, level) :: l2 ∧
    around s (OrderLocation.price loc) l1 l2 ∧
    PriceLevel.wf s (OrderLocation.price loc) level ∧
    PriceLevel.node_find n (PriceLevel.orders_ level) = Some o.
Proof.
  intros Hi Hloc s n.
  destruct (location_node _ _ _ Hi Hloc) as (o & Hin & Hid & Hs & Hp & Hd).
  pose proof (elem_of_nodes s _ _ _ Hi Hin Hs) as Hflat.
  destruct (side_node _ _ _ _ (inv_side s b Hi) Hflat) as (level & Hf & _ & _ & Hno & _).
  rewrite Hp in Hf.
  destruct (find_around _ _ _ _ (inv_side s b Hi) Hf) as (l1 & l2 & Heq & Ha & Hw & _).
  exists o, level, l1, l2. split_and!; try done.
  apply PriceLevel.elem_node_find; [|done].
  pose proof (nodup_side s b Hi) as Hnd. rewrite Heq, flat_mid in Hnd.
  rewrite !fmap_app, !NoDup_app in Hnd. tauto.
Qed.

Lemma level_after_erase s p l1 l2 level' :
  around s p l1 l2 → PriceLevel.wf s p level' →
  let ls := if PriceLevel.empty level' then l1 ++ l2 else l1 ++ (p, level') :: l2 in
  side_inv s ls ∧ flat ls = flat l1 ++ PriceLevel.orders_ level' ++ flat l2.
Proof.
  intros Ha Hw. unfold PriceLevel.empty.
  destruct (PriceLevel.orders_ level') as [|no os] eqn:E.
  - split; [by eapply around_drop|]. by rewrite flat_app.
  - split; [apply around_level; [done|done|by rewrite E]|]. by rewrite flat_mid, E.
Qed.

(** Extraction of a resting order: it leaves its queue, and nothing else
    changes.  The level's total must still cover the order; it does as long
    as it has not wrapped. *)
Lemma extract_order_refines b order_id loc level :
  inv b → order_locations b !! order_id = Some loc →
  let s := OrderLocation.side loc in
  smap_find (before_of s) (OrderLocation.price loc) (levels s b) = Some level →
  ∃ o, find_order b order_id = Ok (Some o) ∧ Order.id o = order_id ∧ Order.side o = s ∧
    (Order.remaining_quantity o ≤ PriceLevel.total_quantity_ level →
     ∃ b', extract_order order_id b = (Ok (Some o), b') ∧ inv b' ∧
       abs b' = BookSpec.with_side s (BookSpec.remove order_id (abs_side s b)) (abs b) ∧
       order_locations b' = delete order_id (order_locations b)) ∧
    (PriceLevel.total_quantity_ level < Order.remaining_quantity o →
     extract_order order_id b =
       (Throw (LogicError "Price level quantity is inconsistent"), b)).
Proof.
  intros Hi Hloc s Hlevel.
  destruct (locate _ _ _ Hi Hloc) as (o & level' & l1 & l2 & Hid & Hs & Hp & Hd & Hf & Heq & Ha & Hw & Hn).
  fold s in Hs, Hf, Heq, Ha, Hw. rewrite Hlevel in Hf. injection Hf as <-.
  exists o. split_and!; [|done|done| |].
  { unfold find_order. by rewrite Hloc, Hd. }
  - intros Hle. destruct (PriceLevel.erase_wf s _ _ _ _ Hw Hn Hle) as (level' & He & Hw' & Hos).
    unfold extract_order, bind, get, lift, modify, ret. rewrite Hloc, Hd. fold s. rewrite Hlevel, He.
    rewrite Heq. rewrite smap_erase_mid, smap_update_mid by (apply _ || apply Ha).
    eexists. split; [reflexivity|]. unfold set_locations. rewrite locations_set_levels, next_set_levels.
    destruct (level_after_erase _ _ _ _ _ Ha Hw') as [Hside Hflat].
    set (ls := if PriceLevel.empty level' then _ else _) in *.
    apply PriceLevel.node_find_Some in Hn as (n1 & n2 & Hn1 & Hn2 & _). rewrite Hn2 in Hos.
    assert (flat (levels s b) ++ flat (levels (opposite s) b) ≡ₚ
            (OrderLocation.order_iterator loc, o) :: flat ls ++ flat (levels (opposite s) b)) as Hperm.
    { rewrite Hflat, Heq, flat_mid, Hn1, Hos. apply perm_mid. }
    pose proof (nodup_side s b Hi) as Hnd. rewrite Hperm in Hnd. simpl in Hnd.
    apply NoDup_cons in Hnd as [Hnot Hnd].
    pose proof (index_perm _ _ _ Hperm (index_side s b Hi)) as Hx.
    split; [|split; [|done]].
    + apply inv_update; [done|done|done| |].
      * pose proof (fresh_side s b Hi) as Hfr. rewrite Hperm in Hfr.
        by apply Forall_cons in Hfr as [_ ?].
      * rewrite <- Hid. by eapply index_remove.
    + rewrite abs_update. f_equal. unfold abs_side. rewrite Heq, flat_mid, Hn1, Hflat, Hos, <- Hid.
      symmetry. apply (remove_nodes _ _ _ _ (OrderLocation.order_iterator loc, o)).
      rewrite <- Hos, <- Hflat. apply Forall_forall. intros [n x] Hin Hxid. simpl in Hxid.
      apply Hnot, list_elem_of_fmap. exists (n, x). split; [|by apply elem_of_app; left].
      eapply (index_unique _ _ _ o n x Hx); [by left| |done].
      right. apply elem_of_app. by left.
  - intros Hlt. unfold extract_order, bind, get, lift. rewrite Hloc, Hd. fold s.
    by rewrite Hlevel, (PriceLevel.erase_inconsistent _ _ _ Hn Hlt).
Qed.

Lemma extract_order_absent b order_id :
  free_id b order_id → extract_order order_id b = (Ok None, b).
Proof. intros H. unfold extract_order, bind, get. by rewrite H. Qed.

(** On a book whose levels fit in a [Quantity], extraction always succeeds. *)
Lemma extract_order_exact b order_id loc :
  inv b → exact b → order_locations b !! order_id = Some loc →
  let s := OrderLocation.side loc in
  ∃ o b', extract_order order_id b = (Ok (Some o), b') ∧
    find_order b order_id = Ok (Some o) ∧ Order.id o = order_id ∧ Order.side o = s ∧
    inv b' ∧ abs b' = BookSpec.with_side s (BookSpec.remove order_id (abs_side s b)) (abs b) ∧
    order_locations b' = delete order_id (order_locations b).
Proof.
  intros Hi He Hloc s.
  destruct (locate _ _ _ Hi Hloc) as (o & level & l1 & l2 & Hid & Hs & Hp & Hd & Hf & Heq & Ha & Hw & Hn).
  destruct (extract_order_refines _ _ _ _ Hi Hloc Hf) as (o' & Hfo & Hid' & Hs' & Hok & _).
  assert (o' = o) as ->.
  { unfold find_order in Hfo. rewrite Hloc, Hd in Hfo. by injection Hfo. }
  destruct Hok as (b' & Hx & Hi' & Habs & Hm); [|by exists o, b'].
  rewrite (PriceLevel.total_exact _ _ _ Hw).
  - eapply PriceLevel.resting_elem_le; [done|]. by apply PriceLevel.node_find_elem.
  - eapply (He (OrderLocation.side loc) (OrderLocation.price loc)). rewrite Heq. set_solver.
Qed.

(** Extraction in every case: a resting order leaves the book; otherwise, or
    when its level's total is too small, the book is unchanged. *)
Lemma extract_order_cases b order_id :
  inv b →
  (extract_order order_id b = (Ok None, b) ∧ free_id b order_id) ∨
  (extract_order order_id b = (Throw (LogicError "Price level quantity is inconsistent"), b) ∧
   ¬ exact b) ∨
  (∃ o b', extract_order order_id b = (Ok (Some o), b') ∧
    find_order b order_id = Ok (Some o) ∧ Order.id o = order_id ∧ inv b' ∧
    o ∈ abs_side (Order.side o) b ∧
    abs b' = BookSpec.with_side (Order.side o)
      (BookSpec.remove order_id (abs_side (Order.side o) b)) (abs b) ∧
    order_locations b' = delete order_id (order_locations b)).
Proof.
  intros Hi. destruct (order_locations b !! order_id) as [loc|] eqn:Hloc.
  - right. destruct (locate _ _ _ Hi Hloc)
      as (o & level & l1 & l2 & Hid & Hs & Hp & Hd & Hf & Heq & Ha & Hw & Hn).
    destruct (extract_order_refines _ _ _ _ Hi Hloc Hf) as (o' & Hfo & Hid' & Hs' & Hok & Hbad).
    assert (o' = o) as ->.
    { unfold find_order in Hfo. rewrite Hloc, Hd in Hfo. by injection Hfo. }
    pose proof (PriceLevel.node_find_elem _ _ _ Hn) as Hno.
    destruct (Z.le_gt_cases (Order.remaining_quantity o) (PriceLevel.total_quantity_ level)) as [Hle|Hgt].
    + right. destruct (Hok Hle) as (b' & Hx & Hi' & Habs & Hm). rewrite <- Hs in *.
      exists o, b'. split_and!; try done. unfold abs_side. rewrite Heq, flat_mid.
      rewrite !fmap_app, !elem_of_app. right. left. by apply (list_elem_of_fmap_2 snd _ _ Hno).
    + left. split; [by apply Hbad|]. intros He.
      rewrite (PriceLevel.total_exact _ _ _ Hw) in Hgt.
      * pose proof (PriceLevel.resting_elem_le _ _ _ _ _ Hw Hno). lia.
      * eapply (He (OrderLocation.side loc) (OrderLocation.price loc)). rewrite Heq. set_solver.
  - left. split; [by apply extract_order_absent|done].
Qed.

(** ** Filling the best level *)

Lemma best_level s b p level ls :
  inv b → levels s b = (p, level) :: ls →
  around s p [] ls ∧ PriceLevel.wf s p level ∧
  ∃ n o rest, PriceLevel.orders_ level = (n, o) :: rest ∧ PriceLevel.restable s p o.
Proof.
  intros Hi Heq. pose proof (inv_side s b Hi) as Hs. rewrite Heq in Hs.
  destruct (around_intro s p level [] ls Hs) as (Ha & Hw & Hne).
  split; [done|]. split; [done|]. pose proof (PriceLevel.wf_orders _ _ _ Hw) as Ho.
  destruct (PriceLevel.orders_ level) as [|[n o] rest]; [done|].
  exists n, o, rest. split; [done|]. by apply Forall_cons in Ho as [? _].
Qed.

(** A partial fill replaces the first order by its remainder. *)
Lemma fill_partial s b p level level' ls n o o' rest :
  inv b → levels s b = (p, level) :: ls → PriceLevel.orders_ level = (n, o) :: rest →
  Order.id o = Order.id o' → Order.side o = Order.side o' → Order.price o = Order.price o' →
  PriceLevel.wf s p level' → PriceLevel.orders_ level' = (n, o') :: rest →
  let b' := set_best_level s level' b in
  inv b' ∧ remove_best_if_empty s b' = b' ∧
  abs b' = BookSpec.with_side s (o' :: (rest ++ flat ls).*2) (abs b).
Proof.
  intros Hi Heq Hos Hid Hsd Hp Hw' Hos' b'.
  destruct (best_level _ _ _ _ _ Hi Heq) as (Ha & Hw & _).
  assert (b' = mk (bids (set_levels s ((p, level') :: ls) b)) (asks (set_levels s ((p, level') :: ls) b))
                  (order_locations b) (next_node b)) as Hb'.
  { subst b'. unfold set_best_level. rewrite Heq. by destruct s. }
  assert (levels s b' = (p, level') :: ls) as Hl' by (rewrite Hb'; by destruct s).
  pose proof (nodup_side s b Hi) as Hnd. pose proof (fresh_side s b Hi) as Hfr.
  pose proof (index_side s b Hi) as Hx. rewrite Heq, flat_cons, Hos in Hnd, Hfr, Hx.
  split; [|split].
  - rewrite Hb'. apply inv_update; [done| | | |]; rewrite ?flat_cons, ?Hos'.
    + apply (around_level s p level' [] ls Ha Hw'). by rewrite Hos'.
    + done.
    + apply Forall_cons in Hfr as [? ?]. by constructor.
    + by eapply index_replace.
  - unfold remove_best_if_empty, PriceLevel.empty. by rewrite Hl', Hos'.
  - rewrite Hb', abs_update. by rewrite flat_cons, Hos'.
Qed.

(** A complete fill removes the first order, its index entry, and its level
    when it was the last one there. *)
Lemma fill_full s b p level level' ls n o rest :
  inv b → levels s b = (p, level) :: ls → PriceLevel.orders_ level = (n, o) :: rest →
  PriceLevel.wf s p level' → PriceLevel.orders_ level' = rest →
  let b' := remove_best_if_empty s (remove_from_index (Order.id o) (set_best_level s level' b)) in
  inv b' ∧ flat (levels s b') = rest ++ flat ls ∧
  abs b' = BookSpec.with_side s (rest ++ flat ls).*2 (abs b).
Proof.
  intros Hi Heq Hos Hw' Hos' b'.
  destruct (best_level _ _ _ _ _ Hi Heq) as (Ha & Hw & _).
  destruct (level_after_erase s p [] ls level' Ha Hw') as [Hside Hflat].
  set (ls' := if PriceLevel.empty level' then _ else _) in *.
  assert (b' = mk (bids (set_levels s ls' b)) (asks (set_levels s ls' b))
                  (delete (Order.id o) (order_locations b)) (next_node b)) as Hb'.
  { subst b' ls'. unfold remove_best_if_empty, remove_from_index, set_best_level. rewrite Heq.
    destruct s; simpl; destruct (PriceLevel.empty level'); try done;
      by rewrite ?Z.gtb_ltb, Z.ltb_irrefl. }
  pose proof (nodup_side s b Hi) as Hnd. pose proof (fresh_side s b Hi) as Hfr.
  pose proof (index_side s b Hi) as Hx. rewrite Heq, flat_cons, Hos in Hnd, Hfr, Hx.
  rewrite Hos' in Hflat. simpl in Hflat, Hnd, Hfr, Hx.
  apply NoDup_cons in Hnd as [Hnot Hnd]. apply Forall_cons in Hfr as [_ Hfr].
  split; [|split].
  - rewrite Hb'. apply inv_update; rewrite ?Hflat; auto. by eapply index_remove.
  - rewrite Hb', <- Hflat. by destruct s.
  - by rewrite Hb', abs_update, Hflat.
Qed.

(** ** The quantity check of fill-or-kill orders *)

Lemma available_level incoming p ns l :
  BookSpec.marketable incoming p = true →
  Forall (λ no : Node * Order, Order.price no.2 = p) ns →
  BookSpec.available incoming (ns.*2 ++ l) =
    PriceLevel.resting_nodes ns + BookSpec.available incoming l.
Proof.
  intros E. induction 1 as [|[n o] ns Hp _ IH]; [done|].
  rewrite fmap_cons, <- app_comm_cons, PriceLevel.resting_nodes_cons. cbn in Hp |- *.
  rewrite Hp, E, <- Z.add_assoc. f_equal. exact IH.
Qed.

Lemma marketable_break incoming p :
  BookSpec.marketable incoming p =
  negb (bool_decide (Order.type incoming = Limit) &&
        match Order.side incoming with
        | Buy => p >? Order.price incoming
        | Sell => p <? Order.price incoming
        end).
Proof.
  unfold BookSpec.marketable. destruct (Order.type incoming); [|done].
  rewrite bool_decide_eq_true_2 by done. simpl.
  destruct (Order.side incoming); rewrite ?Z.gtb_ltb, ?Z.geb_leb; lia.
Qed.

(** The loop over the levels compares like the exact depth of the book as
    long as no level has wrapped; with wrapped totals it can only report
    less than there is. *)
Lemma executable_loop_spec incoming s ls acc :
  side_inv s ls → 0 ≤ acc → acc < Order.remaining_quantity incoming < 2 ^ 32 →
  let r := executable_loop incoming acc ls in
  (Order.remaining_quantity incoming ≤ r →
   Order.remaining_quantity incoming ≤ acc + BookSpec.available incoming (flat ls).*2) ∧
  (Forall (λ e, PriceLevel.resting e.2 < 2 ^ 32) ls →
   r < Order.remaining_quantity incoming →
   acc + BookSpec.available incoming (flat ls).*2 < Order.remaining_quantity incoming).
Proof.
  intros [Hs Hl]. clear Hs. revert acc.
  induction Hl as [|[p level] ls [Hw Hne] Hl IH]; intros acc Hacc Hq; cbn zeta in *.
  { simpl. lia. }
  simpl executable_loop. rewrite flat_cons, fmap_app.
  assert (Forall (λ no : Node * Order, Order.price no.2 = p) (PriceLevel.orders_ level)) as Hps.
  { eapply Forall_impl; [exact (PriceLevel.wf_orders _ _ _ Hw)|]. intros no (_ & _ & H & _). done. }
  pose proof (marketable_break incoming p) as Hb.
  destruct (bool_decide _ && _) eqn:E; simpl in Hb.
  - split; [lia|]. intros _ _.
    cbn [snd] in Hne. destruct (PriceLevel.orders_ level) as [|[n o] os]; [done|].
    apply Forall_cons in Hps as [Hp _]. simpl in *. rewrite Hp, Hb. lia.
  - rewrite (available_level _ p) by done. fold (PriceLevel.resting level).
    pose proof (PriceLevel.resting_nonneg _ _ _ Hw) as Hnn.
    pose proof (PriceLevel.wf_total _ _ _ Hw) as Ht. simpl in Ht, Hnn.
    pose proof (u32_in (PriceLevel.resting level)) as Hin.
    pose proof (u32_le (PriceLevel.resting level) Hnn) as Hle.
    unfold PriceLevel.total_quantity. rewrite Ht.
    rewrite u64_id by (unfold in_u64, in_u32 in *; lia). rewrite Z.geb_leb.
    assert (0 ≤ BookSpec.available incoming (flat ls).*2) as Hav.
    { clear -Hl. assert (Forall (λ o, 0 ≤ Order.remaining_quantity o) (flat ls).*2) as H.
      { apply Forall_fmap, Forall_forall. intros [n o] (p & level & Hin & Hno)%elem_of_flat.
        rewrite Forall_forall in Hl. destruct (Hl _ Hin) as [Hw _].
        pose proof (PriceLevel.wf_orders _ _ _ Hw) as Ho. rewrite Forall_forall in Ho.
        destruct (Ho _ Hno) as (_ & _ & _ & ?). simpl in *. lia. }
      induction H; simpl; [lia|]. destruct (BookSpec.marketable _ _); lia. }
    destruct (Z.leb_spec (Order.remaining_quantity incoming) (acc + u32 (PriceLevel.resting level))).
    + split; lia.
    + unfold in_u32 in Hin. destruct (IH (acc + u32 (PriceLevel.resting level))) as [IH1 IH2]; [lia|lia|].
      split; [intros Hr; specialize (IH1 Hr); lia|].
      intros Hex Hr. apply Forall_cons in Hex as [Hx Hex]. simpl in Hx.
      specialize (IH2 Hex Hr). rewrite u32_id in IH2 by (unfold in_u32; lia). lia.
Qed.

Lemma available_bound incoming s b :
  inv b → exact b → 0 < Order.remaining_quantity incoming < 2 ^ 32 →
  s = opposite (Order.side incoming) →
  (executable_quantity b incoming <? Order.remaining_quantity incoming) =
  (BookSpec.available incoming (abs_side s b) <? Order.remaining_quantity incoming).
Proof.
  intros Hi He Hq ->.
  replace (executable_quantity b incoming)
    with (executable_loop incoming 0 (levels (opposite (Order.side incoming)) b))
    by (unfold executable_quantity; by destruct (Order.side incoming)).
  set (s := opposite (Order.side incoming)).
  destruct (executable_loop_spec incoming s (levels s b) 0 (inv_side s b Hi)) as [H1 H2]; [lia|lia|].
  specialize (H2 ltac:(apply Forall_forall; intros [p l] Hin; exact (He s p l Hin))).
  unfold abs_side. apply eq_iff_eq_true. rewrite !Z.ltb_lt. lia.
Qed.

Lemma executable_sound incoming b :
  inv b → 0 < Order.remaining_quantity incoming < 2 ^ 32 →
  Order.remaining_quantity incoming ≤ executable_quantity b incoming →
  Order.remaining_quantity incoming ≤
    BookSpec.available incoming (abs_side (opposite (Order.side incoming)) b).
Proof.
  intros Hi Hq.
  replace (executable_quantity b incoming)
    with (executable_loop incoming 0 (levels (opposite (Order.side incoming)) b))
    by (unfold executable_quantity; by destruct (Order.side incoming)).
  set (s := opposite (Order.side incoming)).
  destruct (executable_loop_spec incoming s (levels s b) 0 (inv_side s b Hi)) as [H1 _]; [lia|lia|].
  done.
Qed.

(** An id is free exactly when no order of the abstract book has it. *)
Lemma free_id_abs b order_id :
  inv b →
  (free_id b order_id ↔ Forall (λ o, Order.id o ≠ order_id) (BookSpec.all_orders (abs b))).
Proof.
  intros Hi. pose proof (find_order_spec b order_id Hi) as H.
  replace (BookSpec.all_orders (abs b)) with (nodes b).*2
    by (unfold nodes; by rewrite fmap_app).
  unfold free_id. destruct (order_locations b !! order_id) as [loc|].
  - split; [done|]. destruct H as (o & _ & Hid & Hin & _).
    rewrite Forall_fmap, Forall_forall. intros Hall. by specialize (Hall _ Hin).
  - split; [|done]. intros _. destruct H as [_ H]. by apply Forall_fmap.
Qed.

(** The depth of a side bounds every level, so a book whose sides hold less
    than 2^32 is exact. *)
Lemma depth_exact b :
  inv b → (∀ s, BookSpec.depth (abs_side s b) < 2 ^ 32) → exact b.
Proof.
  intros Hi Hd s p level (l1 & l2 & Heq)%list_elem_of_split.
  specialize (Hd s). unfold abs_side in Hd. rewrite Heq, flat_mid in Hd.
  rewrite !fmap_app, !BookSpec.depth_app in Hd.
  destruct (side_abs_wf _ _ (inv_side s b Hi)) as [Ha _].
  rewrite Heq, flat_mid, !fmap_app, !Forall_app in Ha. destruct Ha as (H1 & _ & H2).
  apply BookSpec.depth_nonneg in H1, H2.
  replace (PriceLevel.resting level) with (BookSpec.depth (PriceLevel.orders_ level).*2); [lia|].
  unfold BookSpec.depth, PriceLevel.resting, PriceLevel.resting_nodes.
  by rewrite <- list_fmap_compose.
Qed.

(** No two orders of a side have the same id. *)
Lemma nodup_ids (ns : list (Node * Order)) :
  NoDup ns.*1 →
  (∀ n1 o1 n2 o2, (n1, o1) ∈ ns → (n2, o2) ∈ ns → Order.id o1 = Order.id o2 → n1 = n2) →
  NoDup (Order.id <$> ns.*2).
Proof.
  induction ns as [|[n o] ns IH]; intros Hnd Hu; [constructor|].
  simpl in *. apply NoDup_cons in Hnd as [Hn Hnd]. constructor.
  - intros (o' & Hid & ([n' x] & -> & Hin)%list_elem_of_fmap)%list_elem_of_fmap.
    simpl in Hid. apply Hn. rewrite (Hu n o n' x); [|by left|by right|done].
    by apply (list_elem_of_fmap_2 fst _ _ Hin).
  - apply IH; [done|]. intros n1 o1 n2 o2 H1 H2. apply Hu; by right.
Qed.

Lemma side_unique s b : inv b → NoDup (Order.id <$> abs_side s b).
Proof.
  intros Hi. pose proof (nodup_side s b Hi) as Hnd. pose proof (index_side s b Hi) as Hx.
  rewrite fmap_app in Hnd. apply NoDup_app in Hnd as [Hnd _].
  apply nodup_ids; [done|]. intros n1 o1 n2 o2 H1 H2.
  apply (index_unique _ _ n1 o1 n2 o2 Hx); apply elem_of_app; by left.
Qed.

Lemma ids_unique s b : inv b → NoDup (Order.id <$> abs_side s b ++ abs_side (opposite s) b).
Proof.
  intros Hi. unfold abs_side. rewrite <- fmap_app. apply nodup_ids; [by apply nodup_side|].
  intros n1 o1 n2 o2. apply (index_unique _ _ n1 o1 n2 o2 (index_side s b Hi)).
Qed.

End OrderBook.
