(* ===== verification/MatchingEngine.v ===== *)
(** * The matching engine (include/exchange/matching_engine.hpp)

    The engine keeps no state of its own: its operations mutate the book and
    the trade buffer they are given.  They are written against the [TradeSink]
    interface, so that they run on the program's small-buffer vector and on a
    plain list alike.  [match_buy] and [match_sell] are the same loop with the
    two sides exchanged. *)
From S2P Require Import Prelude Types PriceLevel TradeBuffer BookSpec OrderBook.

Module MatchingEngine.
Section engine.
Context {B : Type} `{!TradeSink B}.

Abbreviation State := (OrderBook.t * B)%type.

(* an operation of the book, and one of the trade buffer *)
Definition on_book {A} (m : M OrderBook.t A) : M State A :=
  λ st, let '(r, b) := m st.1 in (r, (b, st.2)).
Definition on_trades (f : B → B) : M State unit :=
  λ st, (Ok tt, (st.1, f st.2)).

Definition validate_incoming (incoming : Order) : res unit :=
  if Order.remaining_quantity incoming =? 0
  then Throw (InvalidArgument "Incoming order quantity must be positive")
  else Ok tt.

Definition buy_can_match (incoming : Order) (book : OrderBook.t) : res bool :=
  if negb (OrderBook.has_asks book) then Ok false
  else match Order.type incoming with
       | Market => Ok true
       | Limit => let* ask := OrderBook.best_ask book in
                  Ok (Order.price incoming >=? ask)
       end.

Definition sell_can_match (incoming : Order) (book : OrderBook.t) : res bool :=
  if negb (OrderBook.has_bids book) then Ok false
  else match Order.type incoming with
       | Market => Ok true
       | Limit => let* bid := OrderBook.best_bid book in
                  Ok (Order.price incoming <=? bid)
       end.

Definition can_match (s : Side) : Order → OrderBook.t → res bool :=
  match s with Buy => buy_can_match | Sell => sell_can_match end.

Definition may_rest (incoming : Order) : bool :=
  bool_decide (Order.type incoming = Limit) &&
  bool_decide (Order.time_in_force incoming = GoodTillCancel).

(* the Trade each loop pushes *)
Definition make_trade (s : Side) (incoming : Order) (resting_order_id : OrderId)
    (price : Price) (trade_quantity : Quantity) : Trade :=
  match s with
  | Buy => Trade.mk (Order.id incoming) resting_order_id price trade_quantity
             (Order.timestamp incoming)
  | Sell => Trade.mk resting_order_id (Order.id incoming) price trade_quantity
              (Order.timestamp incoming)
  end.

(* one iteration of the while loop; the result is the incoming order left *)
Definition match_step (s : Side) (incoming : Order) : M State Order :=
  st <- get ;;
  best <- lift (OrderBook.best (opposite s) st.1) ;;
  let level := best.2 in
  resting <- lift (PriceLevel.front level) ;;
  let resting_order_id := Order.id resting in
  let resting_quantity := Order.remaining_quantity resting in
  let trade_quantity := Z.min (Order.remaining_quantity incoming) resting_quantity in
  on_trades (λ trades, sink_push trades
    (make_trade s incoming resting_order_id (PriceLevel.price level) trade_quantity)) ;;;
  let incoming' := Order.set_remaining_quantity
    (u32 (Order.remaining_quantity incoming - trade_quantity)) incoming in
  level' <- lift (PriceLevel.fill_front level trade_quantity) ;;
  on_book (modify (OrderBook.set_best_level (opposite s) level')) ;;;
  on_book (modify (λ book,
    if trade_quantity =? resting_quantity
    then OrderBook.remove_from_index resting_order_id book else book)) ;;;
  on_book (modify (OrderBook.remove_best_if_empty (opposite s))) ;;;
  ret incoming'.

(* the while loop: [fuel] bounds its iterations *)
Fixpoint match_loop (s : Side) (fuel : nat) (incoming : Order) : M State Order :=
  st <- get ;;
  continue <- lift (if 0 <? Order.remaining_quantity incoming
                    then can_match s incoming st.1 else Ok false) ;;
  if continue : bool then
    match fuel with
    | O => throw OutOfFuel
    | S fuel' => incoming' <- match_step s incoming ;; match_loop s fuel' incoming'
    end
  else ret incoming.

(* every iteration fills the incoming order or removes a resting one *)
Definition match_fuel (s : Side) (book : OrderBook.t) : nat :=
  S (length (OrderBook.flat (OrderBook.levels (opposite s) book))).

Definition match_side (s : Side) (incoming : Order) : M State unit :=
  st <- get ;;
  incoming <- match_loop s (match_fuel s st.1) incoming ;;
  if (0 <? Order.remaining_quantity incoming) && may_rest incoming
  then on_book (OrderBook.add_order incoming)
  else ret tt.
Definition match_buy : Order → M State unit := match_side Buy.
Definition match_sell : Order → M State unit := match_side Sell.

Definition process_order_into (incoming : Order) : M State unit :=
  let incoming :=
    if bool_decide (Order.type incoming = Market) &&
       bool_decide (Order.time_in_force incoming = GoodTillCancel)
    then Order.set_time_in_force ImmediateOrCancel incoming else incoming in
  lift (validate_incoming incoming) ;;;
  on_trades sink_clear ;;;
  st <- get ;;
  if bool_decide (Order.time_in_force incoming = FillOrKill) &&
     (OrderBook.executable_quantity st.1 incoming <? Order.remaining_quantity incoming)
  then ret tt
  else match Order.side incoming with
       | Buy => match_buy incoming
       | Sell => match_sell incoming
       end.

Definition cancel_order (order_id : OrderId) : M State bool :=
  on_book (OrderBook.cancel_order order_id).

Definition replacement_of (existing : Order) (new_price : Price)
    (new_quantity : Quantity) (new_timestamp : Timestamp) : Order :=
  Order.mk (Order.id existing) (Order.side existing) (Order.type existing)
    (Order.time_in_force existing) new_price new_quantity new_quantity new_timestamp.

Definition replace_order_into (order_id : OrderId) (new_price : Price)
    (new_quantity : Quantity) (new_timestamp : Timestamp) : M State bool :=
  if new_quantity =? 0
  then throw (InvalidArgument "Replacement quantity must be positive")
  else
    on_trades sink_clear ;;;
    existing <- on_book (OrderBook.extract_order order_id) ;;
    match existing with
    | None => ret false
    | Some existing =>
        process_order_into
          (replacement_of existing new_price new_quantity new_timestamp) ;;;
        ret true
    end.

End engine.

(* the two entry points that return a std::vector of trades *)
Definition process_order (book : OrderBook.t) (incoming : Order)
    : res (list Trade) * OrderBook.t :=
  let '(r, (book', trades)) :=
    process_order_into incoming (book, TradeBuffer.new default_capacity) in
  (let* _ := r in TradeBuffer.to_vector trades, book').

Module ReplaceResult.
Record t : Type := mk { replaced : bool; trades : list Trade }.
End ReplaceResult.

Definition replace_order (book : OrderBook.t) (order_id : OrderId) (new_price : Price)
    (new_quantity : Quantity) (new_timestamp : Timestamp)
    : res ReplaceResult.t * OrderBook.t :=
  let '(r, (book', trades)) :=
    replace_order_into order_id new_price new_quantity new_timestamp
      (book, TradeBuffer.new default_capacity) in
  (let* replaced := r in
   let* ts := TradeBuffer.to_vector trades in Ok (ReplaceResult.mk replaced ts), book').

(** ** The engine implements the abstract book *)

Section proofs.
Context {B : Type} `{!TradeSink B} `{!TradeSinkLaws B}.
Implicit Types (book : OrderBook.t) (trades : B).

Lemma can_match_spec s incoming book :
  OrderBook.inv book → Order.side incoming = s →
  can_match s incoming book =
    Ok (match OrderBook.abs_side (opposite s) book with
        | [] => false
        | o :: _ => BookSpec.marketable incoming (Order.price o)
        end).
Proof.
  intros Hi Hs. unfold OrderBook.abs_side.
  destruct (OrderBook.levels (opposite s) book) as [|[p level] ls] eqn:E.
  { destruct s; simpl in *; unfold buy_can_match, sell_can_match, OrderBook.has_asks,
      OrderBook.has_bids, OrderBook.has_levels; simpl; by rewrite E. }
  destruct (OrderBook.best_level _ _ _ _ _ Hi E) as (_ & _ & n & o & rest & Hos & Hr).
  rewrite OrderBook.flat_cons, Hos. simpl.
  destruct Hr as (_ & _ & -> & _). unfold BookSpec.marketable. rewrite Hs.
  destruct s; simpl in *; unfold buy_can_match, sell_can_match, OrderBook.has_asks,
    OrderBook.has_bids, OrderBook.has_levels, OrderBook.best_ask, OrderBook.best_bid,
    OrderBook.best; simpl; rewrite E; simpl; by destruct (Order.type incoming).
Qed.

(** One iteration, when the loop goes on: it trades with the best order. *)
Lemma match_step_spec s incoming book trades o q rest :
  OrderBook.inv book → sink_ok trades →
  OrderBook.abs_side (opposite s) book = o :: rest →
  0 < Order.remaining_quantity incoming < 2 ^ 32 →
  Order.side incoming = s →
  q = Z.min (Order.remaining_quantity incoming) (Order.remaining_quantity o) →
  ∃ book' trades',
    match_step s incoming (book, trades) =
      (Ok (Order.set_remaining_quantity (Order.remaining_quantity incoming - q) incoming),
       (book', trades')) ∧
    OrderBook.inv book' ∧ sink_ok trades' ∧
    sink_view trades' = sink_view trades ++ [trade_between incoming o q] ∧
    OrderBook.abs book' = BookSpec.with_side (opposite s)
      (if q =? Order.remaining_quantity o then rest
       else BookSpec.reduce q o :: rest) (OrderBook.abs book) ∧
    (q = Order.remaining_quantity o →
     S (length (OrderBook.flat (OrderBook.levels (opposite s) book'))) =
     length (OrderBook.flat (OrderBook.levels (opposite s) book))).
Proof.
  intros Hi Hok Habs Hq Hs Heq. unfold OrderBook.abs_side in Habs.
  destruct (OrderBook.levels (opposite s) book) as [|[p level] ls] eqn:E; [done|].
  destruct (OrderBook.best_level _ _ _ _ _ Hi E) as (Ha & Hw & n & o' & os & Hos & Hr).
  rewrite OrderBook.flat_cons, Hos in Habs. simpl in Habs. injection Habs as -> <-.
  pose proof Hr as (Hrs & Hrt & Hrp & Hrq).
  destruct (PriceLevel.fill_front_wf _ _ _ _ _ _ q Hw Hos) as (level' & Hf & Hw' & Hos'); [lia|].
  unfold match_step, bind, get, lift, on_trades, on_book, modify, ret. simpl fst. simpl snd.
  unfold OrderBook.best. rewrite E. simpl snd. unfold PriceLevel.front. rewrite Hos, <- Heq, Hf.
  rewrite u32_id by (unfold in_u32; lia).
  assert (make_trade s incoming (Order.id o) (PriceLevel.price level) q =
          trade_between incoming o q) as ->.
  { unfold make_trade, trade_between, PriceLevel.price.
    rewrite Hs, (PriceLevel.wf_price _ _ _ Hw), Hrp. by destruct s. }
  eexists _, _. split; [reflexivity|]. simpl fst. simpl snd.
  assert (sink_ok (sink_push trades (trade_between incoming o q))) by by apply sink_push_ok.
  assert (sink_view (sink_push trades (trade_between incoming o q)) =
          sink_view trades ++ [trade_between incoming o q]) by by apply sink_push_view.
  destruct (Z.eqb_spec q (Order.remaining_quantity o)) as [Hfull|Hpart].
  - destruct (OrderBook.fill_full _ _ _ _ _ _ _ _ _ Hi E Hos Hw' Hos') as (Hi' & Hflat & Habs').
    split_and!; [done|done|done|by rewrite Habs', ?fmap_app|].
    intros _. by rewrite Hflat, OrderBook.flat_cons, Hos.
  - destruct (OrderBook.fill_partial _ _ _ _ _ _ _ _ (BookSpec.reduce q o) _ Hi E Hos eq_refl eq_refl eq_refl Hw' Hos')
      as (Hi' & -> & Habs').
    split_and!; [done|done|done|by rewrite Habs', ?fmap_app|done].
Qed.

Lemma set_remaining_same (o : Order) :
  Order.set_remaining_quantity (Order.remaining_quantity o) o = o.
Proof. by destruct o. Qed.

Lemma with_side_same s b : BookSpec.with_side s (BookSpec.side_orders s b) b = b.
Proof. by destruct s, b. Qed.

Lemma match_loop_stop s fuel incoming (st : OrderBook.t * B) :
  (if 0 <? Order.remaining_quantity incoming
   then can_match s incoming st.1 else Ok false) = Ok false →
  match_loop s fuel incoming st = (Ok incoming, st).
Proof. intros H. destruct fuel; simpl; unfold bind, get, lift; by rewrite H. Qed.

Lemma match_loop_go s fuel incoming (st : OrderBook.t * B) :
  0 < Order.remaining_quantity incoming → can_match s incoming st.1 = Ok true →
  match_loop s (S fuel) incoming st =
    bind (match_step s incoming) (match_loop s fuel) st.
Proof.
  intros H Hc. simpl. unfold bind at 1 2, get, lift.
  apply Z.ltb_lt in H. by rewrite H, Hc.
Qed.

(** The loop is the sweep of the opposite queue; the fuel of [match_fuel] is
    enough, because every iteration that is not the last removes a node. *)
Lemma match_loop_refines s fuel incoming book trades :
  OrderBook.inv book → sink_ok trades →
  0 ≤ Order.remaining_quantity incoming < 2 ^ 32 → Order.side incoming = s →
  (length (OrderBook.flat (OrderBook.levels (opposite s) book)) < fuel)%nat →
  let '(ts, q, l) := BookSpec.sweep incoming (Order.remaining_quantity incoming)
                       (OrderBook.abs_side (opposite s) book) in
  ∃ book' trades',
    match_loop s fuel incoming (book, trades) =
      (Ok (Order.set_remaining_quantity q incoming), (book', trades')) ∧
    OrderBook.inv book' ∧ sink_ok trades' ∧
    sink_view trades' = sink_view trades ++ ts ∧
    OrderBook.abs book' = BookSpec.with_side (opposite s) l (OrderBook.abs book).
Proof.
  revert incoming book trades. induction fuel as [|fuel IH];
    intros incoming book trades Hi Hok Hq Hs Hfuel; [lia|].
  pose proof (can_match_spec s incoming book Hi Hs) as Hc.
  assert (∀ r, r = Ok false →
    (if 0 <? Order.remaining_quantity incoming then can_match s incoming book else Ok false) = r →
    ∃ book' trades',
      match_loop s (S fuel) incoming (book, trades) =
        (Ok (Order.set_remaining_quantity (Order.remaining_quantity incoming) incoming),
         (book', trades')) ∧
      OrderBook.inv book' ∧ sink_ok trades' ∧
      sink_view trades' = sink_view trades ++ [] ∧
      OrderBook.abs book' = BookSpec.with_side (opposite s)
        (OrderBook.abs_side (opposite s) book) (OrderBook.abs book)) as Hstop.
  { intros ? -> Hst. exists book, trades.
    rewrite match_loop_stop, set_remaining_same, app_nil_r by done.
    rewrite <- OrderBook.abs_side_orders, with_side_same. done. }
  destruct (OrderBook.abs_side (opposite s) book) as [|o rest] eqn:E; cbn [BookSpec.sweep].
  { eapply Hstop; [reflexivity|]. rewrite Hc. by destruct (0 <? _). }
  destruct (Z.ltb_spec 0 (Order.remaining_quantity incoming)) as [Hpos|]; [|by eapply Hstop].
  destruct (BookSpec.marketable incoming (Order.price o)) eqn:Hm; cbn [andb]; [|by eapply Hstop].
  clear Hstop. set (q := Z.min (Order.remaining_quantity incoming) (Order.remaining_quantity o)).
  destruct (match_step_spec s incoming book trades o q rest Hi Hok E) as
    (book1 & trades1 & Hstep & Hi1 & Hok1 & Hv1 & Habs1 & Hlen1); [lia|done|done|].
  rewrite match_loop_go by done. unfold bind. rewrite Hstep.
  destruct (Z.ltb_spec (Order.remaining_quantity incoming) (Order.remaining_quantity o)).
  - assert (q = Order.remaining_quantity incoming) as Hqe by lia.
    rewrite Hqe, Z.sub_diag. exists book1, trades1.
    rewrite match_loop_stop by done. split_and!; try done; [by rewrite Hv1, Hqe|].
    rewrite Habs1, Hqe. by rewrite (proj2 (Z.eqb_neq _ _)) by lia.
  - assert (0 < Order.remaining_quantity o) as Ho.
    { destruct (BookSpec.wf_side (opposite s) _ (OrderBook.abs_wf _ Hi)) as [Hr _].
      rewrite OrderBook.abs_side_orders, E in Hr. apply Forall_cons in Hr as [(_ & _ & ?) _]. lia. }
    assert (q = Order.remaining_quantity o) as Hqe by lia.
    rewrite Hqe, Z.eqb_refl in *. specialize (Hlen1 eq_refl).
    specialize (IH (Order.set_remaining_quantity
                      (Order.remaining_quantity incoming - Order.remaining_quantity o) incoming)
                  book1 trades1 Hi1 Hok1).
    rewrite BookSpec.sweep_remaining in IH. simpl in IH.
    rewrite <- OrderBook.abs_side_orders, Habs1, BookSpec.side_with_side in IH.
    specialize (IH ltac:(lia) Hs ltac:(lia)).
    destruct (BookSpec.sweep incoming _ rest) as [[ts q'] l].
    destruct IH as (book' & trades' & -> & Hi' & Hok' & Hv' & Habs').
    exists book', trades'. split_and!; try done.
    + rewrite Hv', Hv1. by rewrite <- app_assoc.
    + rewrite Habs'. by destruct s.
Qed.

(** The whole of [match_buy]/[match_sell]: the sweep, then the remainder of
    an order that may rest is added to the book the sweep has left. *)
Lemma match_side_spec s incoming book trades :
  OrderBook.inv book → sink_ok trades → BookSpec.valid_incoming incoming →
  Order.side incoming = s →
  ∃ ts q l book1 trades1,
    BookSpec.sweep incoming (Order.remaining_quantity incoming)
      (OrderBook.abs_side (opposite s) book) = (ts, q, l) ∧
    OrderBook.inv book1 ∧ sink_ok trades1 ∧ sink_view trades1 = sink_view trades ++ ts ∧
    OrderBook.abs book1 = BookSpec.with_side (opposite s) l (OrderBook.abs book) ∧
    match_side s incoming (book, trades) =
      if (0 <? q) && BookSpec.rests incoming
      then let '(r, book2) :=
             OrderBook.add_order (Order.set_remaining_quantity q incoming) book1 in
           (r, (book2, trades1))
      else (Ok tt, (book1, trades1)).
Proof.
  intros Hi Hok Hv Hs. red in Hv.
  pose proof (match_loop_refines s (match_fuel s book) incoming book trades Hi Hok
                ltac:(lia) Hs ltac:(unfold match_fuel; lia)) as H.
  destruct (BookSpec.sweep incoming (Order.remaining_quantity incoming)
              (OrderBook.abs_side (opposite s) book)) as [[ts q] l].
  destruct H as (book1 & trades1 & Hloop & Hi1 & Hok1 & Hv1 & Habs1).
  exists ts, q, l, book1, trades1. split_and!; try done.
  unfold match_side, bind, get. simpl fst. rewrite Hloop.
  replace (may_rest (Order.set_remaining_quantity q incoming)) with (BookSpec.rests incoming)
    by (unfold may_rest, BookSpec.rests; simpl;
        by destruct (Order.type incoming), (Order.time_in_force incoming)).
  simpl. destruct ((0 <? q) && BookSpec.rests incoming); [|done].
  unfold on_book. simpl. by destruct (OrderBook.add_order _ book1).
Qed.

Lemma process_order_unfold incoming (book : OrderBook.t) (trades : B) :
  let o := BookSpec.normalise incoming in
  process_order_into incoming (book, trades) =
    if Order.remaining_quantity incoming =? 0
    then (Throw (InvalidArgument "Incoming order quantity must be positive"), (book, trades))
    else if bool_decide (Order.time_in_force o = FillOrKill) &&
            (OrderBook.executable_quantity book o <? Order.remaining_quantity o)
    then (Ok tt, (book, sink_clear trades))
    else match_side (Order.side o) o (book, sink_clear trades).
Proof.
  intros o. unfold process_order_into.
  replace (if bool_decide (Order.type incoming = Market) &&
              bool_decide (Order.time_in_force incoming = GoodTillCancel)
           then Order.set_time_in_force ImmediateOrCancel incoming else incoming) with o
    by (subst o; unfold BookSpec.normalise;
        by destruct (Order.type incoming), (Order.time_in_force incoming)).
  unfold bind, lift, validate_incoming, on_trades, get, ret.
  replace (Order.remaining_quantity incoming) with (Order.remaining_quantity o)
    by (apply BookSpec.normalise_fields).
  destruct (Order.remaining_quantity o =? 0); [done|]. simpl.
  destruct (_ && _); [done|]. by destruct (Order.side o).
Qed.

(** Everything an order can do to a book: a fill-or-kill order that cannot
    trade at once leaves it alone; any other order executes, unless its
    remainder finds its id already on the book, in which case it throws after
    the trades. *)
Inductive outcome (o : Order) (book : OrderBook.t)
    : res unit → OrderBook.t → list Trade → Prop :=
  | outcome_killed :
      Order.time_in_force o = FillOrKill →
      OrderBook.executable_quantity book o < Order.remaining_quantity o →
      outcome o book (Ok tt) book []
  | outcome_executed book' ts :
      (Order.time_in_force o = FillOrKill →
       Order.remaining_quantity o ≤ OrderBook.executable_quantity book o) →
      BookSpec.execute o (OrderBook.abs book) = (ts, OrderBook.abs book') →
      outcome o book (Ok tt) book' ts
  | outcome_duplicate book' ts q l :
      BookSpec.rests o = true → 0 < q →
      BookSpec.swept o (Order.remaining_quantity o)
        (OrderBook.abs_side (opposite (Order.side o)) book) ts q l →
      OrderBook.abs book' =
        BookSpec.with_side (opposite (Order.side o)) l (OrderBook.abs book) →
      ¬ OrderBook.free_id book' (Order.id o) →
      outcome o book (Throw (InvalidArgument "Duplicate order ID")) book' ts.

Lemma match_side_outcome o book trades :
  OrderBook.inv book → sink_ok trades → sink_view trades = [] →
  BookSpec.valid_incoming o →
  (Order.time_in_force o = FillOrKill →
   Order.remaining_quantity o ≤ OrderBook.executable_quantity book o) →
  ∃ r book' trades',
    match_side (Order.side o) o (book, trades) = (r, (book', trades')) ∧
    OrderBook.inv book' ∧ sink_ok trades' ∧ outcome o book r book' (sink_view trades').
Proof.
  intros Hi Hok Hnil Hv Hfok. pose proof Hv as Hq. red in Hq.
  destruct (match_side_spec _ o book trades Hi Hok Hv eq_refl)
    as (ts & q & l & book1 & trades1 & Hsw & Hi1 & Hok1 & Hv1 & Habs1 & Heq).
  rewrite Heq. rewrite Hnil in Hv1. simpl in Hv1.
  pose proof (BookSpec.wf_side (opposite (Order.side o)) _ (OrderBook.abs_wf _ Hi)) as [Hr _].
  rewrite OrderBook.abs_side_orders in Hr.
  pose proof (BookSpec.sweep_swept _ o (Order.remaining_quantity o) _ Hr) as Hswept.
  rewrite Hsw in Hswept. specialize (Hswept ltac:(lia)).
  pose proof (BookSpec.swept_bounds _ _ _ _ _ _ _ Hr Hswept) as Hqb.
  destruct ((0 <? q) && BookSpec.rests o) eqn:E.
  - pose proof E as E'. apply andb_true_iff in E' as [Hpos Hrests]. apply Z.ltb_lt in Hpos.
    pose proof Hrests as Hl. apply BookSpec.rests_limit in Hl as [Hl _].
    destruct (OrderBook.order_locations book1 !! Order.id o) as [loc|] eqn:Hloc.
    + destruct (OrderBook.add_order_throws book1 (Order.set_remaining_quantity q o)) as [Hdup _].
      rewrite Hdup by (simpl; by rewrite Hloc).
      eexists _, book1, trades1. split; [done|]. split; [done|]. split; [done|]. rewrite Hv1.
      eapply outcome_duplicate; try done. unfold OrderBook.free_id. by rewrite Hloc.
    + destruct (OrderBook.add_order_refines book1 (Order.set_remaining_quantity q o))
        as (book2 & -> & Hi2 & Habs2 & _); [done|done|done|simpl; lia|].
      eexists _, book2, trades1. split; [done|]. split; [done|]. split; [done|]. rewrite Hv1.
      apply outcome_executed; [done|]. rewrite Habs2. unfold BookSpec.execute.
      rewrite OrderBook.abs_side_orders, Hsw, E. simpl.
      by rewrite <- OrderBook.abs_side_orders, Habs1.
  - eexists _, book1, trades1. split; [done|]. split; [done|]. split; [done|]. rewrite Hv1.
    apply outcome_executed; [done|]. unfold BookSpec.execute.
    by rewrite OrderBook.abs_side_orders, Hsw, E, Habs1.
Qed.

Lemma process_order_outcome incoming book trades :
  let o := BookSpec.normalise incoming in
  OrderBook.inv book → sink_ok trades → BookSpec.valid_incoming incoming →
  ∃ r book' trades',
    process_order_into incoming (book, trades) = (r, (book', trades')) ∧
    OrderBook.inv book' ∧ sink_ok trades' ∧ outcome o book r book' (sink_view trades').
Proof.
  intros o Hi Hok Hv. rewrite process_order_unfold. fold o.
  pose proof (BookSpec.normalise_valid _ Hv) as Ho. fold o in Ho.
  destruct (Z.eqb_spec (Order.remaining_quantity incoming) 0) as [|_]; [red in Hv; lia|].
  pose proof (sink_clear_ok _ Hok) as Hok'. pose proof (sink_clear_view _ Hok) as Hv'.
  destruct (bool_decide (Order.time_in_force o = FillOrKill) &&
            (OrderBook.executable_quantity book o <? Order.remaining_quantity o)) eqn:E.
  - apply andb_true_iff in E as [Hf Hlt]. apply bool_decide_eq_true in Hf. apply Z.ltb_lt in Hlt.
    eexists _, _, _. split; [done|]. split; [done|]. split; [done|]. rewrite Hv'.
    by constructor.
  - apply match_side_outcome; [done|done|done|done|]. intros Hf.
    rewrite bool_decide_eq_true_2 in E by done. by apply Z.ltb_ge in E.
Qed.

(** A sweep frees ids and takes none. *)
Lemma swept_free_id o book book' ts q l :
  OrderBook.inv book → OrderBook.inv book' →
  BookSpec.swept o (Order.remaining_quantity o)
    (OrderBook.abs_side (opposite (Order.side o)) book) ts q l →
  OrderBook.abs book' = BookSpec.with_side (opposite (Order.side o)) l (OrderBook.abs book) →
  ∀ order_id, OrderBook.free_id book order_id → OrderBook.free_id book' order_id.
Proof.
  intros Hi Hi' Hsw Habs order_id. rewrite !OrderBook.free_id_abs, Habs by done.
  rewrite !Forall_forall. intros Hall x Hx.
  assert (x ∈ l ∨ x ∈ BookSpec.all_orders (OrderBook.abs book)) as [Hxl|].
  { revert Hx. unfold BookSpec.all_orders. destruct (Order.side o); simpl; set_solver. }
  - destruct (BookSpec.swept_origin _ _ _ _ _ _ _ Hsw Hxl) as (y & Hy & ->). refine (Hall y _).
    rewrite <- OrderBook.abs_side_orders in Hy. unfold BookSpec.all_orders.
    apply elem_of_app. revert Hy. destruct (Order.side o); simpl; auto.
  - by apply Hall.
Qed.

(** What the outcome says of the abstract books. *)
Lemma outcome_abs o book r book' ts :
  outcome o book r book' ts → OrderBook.inv book → OrderBook.inv book' →
  OrderBook.free_id book (Order.id o) →
  (Order.time_in_force o = FillOrKill → OrderBook.exact book) →
  BookSpec.valid_incoming o →
  r = Ok tt ∧
  (ts, OrderBook.abs book') =
    (if bool_decide (Order.time_in_force o = FillOrKill) &&
        (BookSpec.available o (BookSpec.side_orders (opposite (Order.side o)) (OrderBook.abs book))
         <? Order.remaining_quantity o)
     then ([], OrderBook.abs book) else BookSpec.execute o (OrderBook.abs book)).
Proof.
  intros Hout Hi Hi' Hfree Hex Hv. rewrite OrderBook.abs_side_orders.
  pose proof (λ H, OrderBook.available_bound o _ book Hi (Hex H) Hv eq_refl) as Hav.
  destruct Hout as [Hf Hlt|book' ts Hfok Hexec|book' ts q l Hr Hq Hsw Habs Hnf].
  - rewrite bool_decide_eq_true_2, <- Hav by done. by apply Z.ltb_lt in Hlt as ->.
  - split; [done|]. rewrite <- Hexec.
    destruct (bool_decide_reflect (Order.time_in_force o = FillOrKill)) as [Hf|]; [|done].
    rewrite <- Hav by done. specialize (Hfok Hf). apply Z.ltb_ge in Hfok. by rewrite Hfok.
  - exfalso. apply Hnf. exact (swept_free_id _ _ _ _ _ _ Hi Hi' Hsw Habs _ Hfree).
Qed.

Lemma process_order_spec incoming book trades :
  OrderBook.inv book → sink_ok trades → BookSpec.valid_incoming incoming →
  OrderBook.free_id book (Order.id incoming) →
  (Order.time_in_force incoming = FillOrKill → OrderBook.exact book) →
  ∃ book' trades',
    process_order_into incoming (book, trades) = (Ok tt, (book', trades')) ∧
    OrderBook.inv book' ∧ sink_ok trades' ∧
    BookSpec.process incoming (OrderBook.abs book) = (sink_view trades', OrderBook.abs book').
Proof.
  intros Hi Hok Hv Hfree Hex.
  destruct (process_order_outcome incoming book trades Hi Hok Hv)
    as (r & book' & trades' & -> & Hi' & Hok' & Hout).
  pose proof (BookSpec.normalise_fields incoming) as (Hid & _ & _ & _ & _).
  destruct (outcome_abs _ _ _ _ _ Hout Hi Hi') as [-> Habs];
    [by rewrite Hid| |by apply BookSpec.normalise_valid|by exists book', trades'].
  by rewrite BookSpec.normalise_fok.
Qed.

(** C1. Matching implements its specification.  On a well-formed book, a valid
    order with a fresh id is processed without an exception; the trades it
    makes and the book it leaves are those of [BookSpec.process], the
    level-free description of price-time priority, and the result is again
    well formed.  (For a fill-or-kill order no level of the book may have
    wrapped its 32-bit total.) *)
Theorem process_order_refines incoming book trades :
  OrderBook.inv book → sink_ok trades → BookSpec.valid_incoming incoming →
  OrderBook.free_id book (Order.id incoming) →
  (Order.time_in_force incoming = FillOrKill → OrderBook.exact book) →
  ∃ book' trades',
    process_order_into incoming (book, trades) = (Ok tt, (book', trades')) ∧
    OrderBook.inv book' ∧ sink_ok trades' ∧
    BookSpec.process incoming (OrderBook.abs book) = (sink_view trades', OrderBook.abs book').
Proof. apply process_order_spec. Qed.

(** C2. Price-time priority.  Whatever the outcome, an order that is not
    killed trades with a prefix of the opposite queue, best price first and
    oldest first within a price: every order of the prefix is filled, at its
    own price, except that the last may be filled in part; the sweep ends
    only when the order is filled, the queue is empty, or the best price left
    is not acceptable. *)
Theorem price_time_priority incoming book trades :
  let o := BookSpec.normalise incoming in
  let s := opposite (Order.side incoming) in
  OrderBook.inv book → sink_ok trades → BookSpec.valid_incoming incoming →
  let '(r, (book', trades')) := process_order_into incoming (book, trades) in
  (Order.time_in_force incoming = FillOrKill ∧ sink_view trades' = [] ∧ book' = book) ∨
  ∃ q, BookSpec.swept o (Order.remaining_quantity incoming) (OrderBook.abs_side s book)
         (sink_view trades') q (OrderBook.abs_side s book').
Proof.
  intros o s Hi Hok Hv.
  destruct (process_order_outcome incoming book trades Hi Hok Hv)
    as (r & book' & trades' & -> & Hi' & Hok' & Hout). fold o in Hout.
  pose proof (BookSpec.normalise_fields incoming) as (_ & Hside & _ & Hrem & _).
  fold o in Hside, Hrem. revert Hout. generalize (sink_view trades') as ts0. intros ts0 Hout.
  destruct Hout as [Hf Hlt|book' ts Hfok Hexec|book' ts q l Hr Hq Hsw Habs Hnf].
  - left. split; [|done]. exact (proj1 (BookSpec.normalise_fok _) Hf).
  - right. destruct (BookSpec.execute_cases o (OrderBook.abs book)) as (ts' & q & l & Hsw & _ & _ & _ & He).
    { by apply OrderBook.abs_wf. } { by apply BookSpec.normalise_valid. }
    rewrite He in Hexec. injection Hexec as <- Hb. exists q.
    rewrite <- !OrderBook.abs_side_orders, <- Hb. rewrite Hside, Hrem in *. fold s in Hsw |- *.
    assert (∀ b1 b2 : BookSpec.t, BookSpec.side_orders s b1 = l → BookSpec.side_orders s b2 = l →
      ∀ c : bool, BookSpec.side_orders s (if c then b1 else b2) = l) as Hif by by intros ???? [].
    rewrite Hif; [done|..]; subst s; by destruct (Order.side incoming).
  - right. exists q. rewrite <- Hrem. unfold s. rewrite <- Hside.
    rewrite <- (OrderBook.abs_side_orders _ book'), Habs, BookSpec.side_with_side. done.
Qed.

(** C31. Fill-or-kill is all or nothing, on every well-formed book: the order
    trades its whole quantity, or it trades nothing and the book is untouched;
    and it never rests. *)
Theorem fill_or_kill incoming book trades :
  OrderBook.inv book → sink_ok trades → BookSpec.valid_incoming incoming →
  Order.time_in_force incoming = FillOrKill →
  let '(r, (book', trades')) := process_order_into incoming (book, trades) in
  r = Ok tt ∧
  (sink_view trades' = [] ∧ book' = book ∨
   BookSpec.traded (sink_view trades') = Order.remaining_quantity incoming ∧
   OrderBook.abs_side (Order.side incoming) book' = OrderBook.abs_side (Order.side incoming) book).
Proof.
  intros Hi Hok Hv Hf.
  destruct (process_order_outcome incoming book trades Hi Hok Hv)
    as (r & book' & trades' & -> & Hi' & Hok' & Hout).
  replace (BookSpec.normalise incoming) with incoming in Hout
    by (unfold BookSpec.normalise; rewrite Hf; by destruct (Order.type incoming)).
  revert Hout. generalize (sink_view trades') as ts0. intros ts0 Hout.
  destruct Hout as [_ Hlt|book' ts Hfok Hexec|book' ts q l Hr Hq Hsw Habs Hnf].
  - split; [done|]. by left.
  - split; [done|]. right. specialize (Hfok Hf).
    pose proof (OrderBook.abs_wf _ Hi) as Hwf.
    destruct (BookSpec.execute_cases incoming _ Hwf Hv) as (ts' & q & l & Hsw & _ & _ & _ & He).
    apply (OrderBook.executable_sound _ _ Hi Hv) in Hfok.
    rewrite OrderBook.abs_side_orders in Hsw.
    pose proof (proj1 (BookSpec.wf_side (opposite (Order.side incoming)) _ Hwf)) as Hr.
    rewrite OrderBook.abs_side_orders in Hr.
    pose proof (BookSpec.swept_available _ _ _ _ _ _ _ Hr Hfok Hsw) as ->.
    rewrite He in Hexec. simpl in Hexec. injection Hexec as <- Hb.
    pose proof (BookSpec.swept_conservation _ _ _ _ _ _ Hsw) as [Hc _]. split; [lia|].
    rewrite <- !OrderBook.abs_side_orders, <- Hb. by destruct (Order.side incoming).
  - apply BookSpec.rests_limit in Hr as [_ Hr]. congruence.
Qed.

(** The outcome, queue by queue: the opposite queue is swept, and the order's
    own side changes only when its remainder comes to rest. *)
Lemma outcome_queues o book r book' ts :
  let s := Order.side o in
  outcome o book r book' ts → OrderBook.inv book → BookSpec.valid_incoming o →
  (ts = [] ∧ book' = book ∧ r = Ok tt ∧ Order.time_in_force o = FillOrKill) ∨
  ∃ q, 0 ≤ q ∧
    BookSpec.swept o (Order.remaining_quantity o) (OrderBook.abs_side (opposite s) book)
      ts q (OrderBook.abs_side (opposite s) book') ∧
    OrderBook.abs_side s book' =
      if is_ok r && (0 <? q) && BookSpec.rests o
      then BookSpec.enqueue s (Order.set_remaining_quantity q o) (OrderBook.abs_side s book)
      else OrderBook.abs_side s book.
Proof.
  intros s Hout Hi Hv. destruct Hout as [Hf Hlt|book' ts Hfok Hexec|book' ts q l Hr Hq Hsw Habs Hnf].
  - by left.
  - right. destruct (BookSpec.execute_cases o _ (OrderBook.abs_wf _ Hi) Hv)
      as (ts' & q & l & Hsw & Hq & _ & _ & He).
    rewrite He in Hexec. injection Hexec as <- Hb. exists q.
    rewrite <- !OrderBook.abs_side_orders, <- Hb. fold s in Hsw |- *. simpl.
    destruct ((0 <? q) && BookSpec.rests o);
      rewrite ?BookSpec.opposite_with_side, ?BookSpec.side_with_side, ?BookSpec.side_with_opposite;
      split_and!; (lia || done).
  - right. exists q. rewrite <- !OrderBook.abs_side_orders, Habs. fold s in Hsw |- *.
    rewrite BookSpec.side_with_side, BookSpec.side_with_opposite, OrderBook.abs_side_orders.
    split_and!; (lia || done).
Qed.

(** C6. No quantity appears or disappears.  What an order asks for is traded,
    left resting, or (for an order that may not rest, or whose id is taken)
    discarded; the opposite side loses exactly what is traded. *)
Theorem process_conserves incoming book trades :
  let s := Order.side incoming in
  let depth s b := BookSpec.depth (OrderBook.abs_side s b) in
  OrderBook.inv book → sink_ok trades → BookSpec.valid_incoming incoming →
  let '(r, (book', trades')) := process_order_into incoming (book, trades) in
  let traded := BookSpec.traded (sink_view trades') in
  0 ≤ traded ≤ Order.remaining_quantity incoming ∧
  depth (opposite s) book' = depth (opposite s) book - traded ∧
  depth s book' = depth s book +
    if is_ok r && BookSpec.rests (BookSpec.normalise incoming)
    then Order.remaining_quantity incoming - traded else 0.
Proof.
  intros s depth Hi Hok Hv.
  destruct (process_order_outcome incoming book trades Hi Hok Hv)
    as (r & book' & trades' & -> & Hi' & Hok' & Hout). unfold depth, s.
  pose proof (BookSpec.normalise_fields incoming) as (_ & <- & _ & <- & _).
  apply BookSpec.normalise_valid in Hv. set (o := BookSpec.normalise incoming) in *.
  destruct (outcome_queues _ _ _ _ _ Hout Hi Hv) as [(-> & -> & -> & Hf)|(q & Hq & Hsw & Hown)].
  - replace (BookSpec.rests o) with false
      by (unfold BookSpec.rests; rewrite Hf; by destruct (Order.type o)).
    red in Hv. unfold BookSpec.traded. simpl. lia.
  - destruct (BookSpec.swept_conservation _ _ _ _ _ _ Hsw) as [H1 H2]. rewrite Hown.
    pose proof (proj1 (BookSpec.wf_side (opposite (Order.side o)) _ (OrderBook.abs_wf _ Hi))) as Hr.
    rewrite OrderBook.abs_side_orders in Hr. red in Hv.
    pose proof (BookSpec.swept_bounds _ _ _ _ _ _ _ Hr Hsw).
    split; [|split; [lia|]].
    + pose proof (BookSpec.swept_traded_nonneg _ _ _ _ _ _ _ Hr Hsw). lia.
    + destruct (is_ok r), (Z.ltb_spec 0 q), (BookSpec.rests o); simpl;
        rewrite ?BookSpec.depth_enqueue; simpl; lia.
Qed.

(** Only the remainder of a good-till-cancel limit order comes to rest:
    immediate-or-cancel, fill-or-kill and market orders leave the queue of
    their own side exactly as it was. *)
Lemma never_rests incoming book trades :
  OrderBook.inv book → sink_ok trades → BookSpec.valid_incoming incoming →
  Order.type incoming = Market ∨ Order.time_in_force incoming ≠ GoodTillCancel →
  let '(r, (book', trades')) := process_order_into incoming (book, trades) in
  r = Ok tt ∧
  OrderBook.abs_side (Order.side incoming) book' = OrderBook.abs_side (Order.side incoming) book.
Proof.
  intros Hi Hok Hv Hno.
  destruct (process_order_outcome incoming book trades Hi Hok Hv)
    as (r & book' & trades' & -> & Hi' & Hok' & Hout).
  pose proof (BookSpec.normalise_fields incoming) as (_ & <- & _ & _ & _).
  apply BookSpec.normalise_valid in Hv.
  assert (BookSpec.rests (BookSpec.normalise incoming) = false) as Hr.
  { apply not_true_is_false. rewrite BookSpec.normalise_rests. naive_solver congruence. }
  split.
  - revert Hout. generalize (sink_view trades'). intros ? []; [done|done|congruence].
  - destruct (outcome_queues _ _ _ _ _ Hout Hi Hv) as [(_ & -> & _)|(q & _ & _ & ->)]; [done|].
    by rewrite Hr, andb_false_r.
Qed.

(** An outcome is an exception exactly when the remainder may rest and its id is
    taken. *)
Lemma outcome_taken o book r book' ts q :
  let s := Order.side o in
  let remainder := (0 <? q) && BookSpec.rests o in
  let taken := Order.id o ∈ Order.id <$> OrderBook.abs_side s book ++ OrderBook.abs_side (opposite s) book' in
  outcome o book r book' ts → OrderBook.inv book → OrderBook.inv book' → BookSpec.valid_incoming o →
  BookSpec.swept o (Order.remaining_quantity o) (OrderBook.abs_side (opposite s) book) ts q
    (OrderBook.abs_side (opposite s) book') →
  (remainder = true ∧ taken → r = Throw (InvalidArgument "Duplicate order ID")) ∧
  (¬ (remainder = true ∧ taken) → r = Ok tt).
Proof.
  intros s remainder taken Hout Hi Hi' Hv Hsw.
  destruct (outcome_queues _ _ _ _ _ Hout Hi Hv) as [(-> & -> & -> & Hf)|(q' & _ & Hsw' & Hown)].
  { split; [|done]. intros [Hr _]. apply andb_true_iff in Hr as [_ [_ Hg]%BookSpec.rests_limit]. congruence. }
  fold s in Hsw', Hown.
  assert (q' = q) as -> by (eapply BookSpec.swept_left; eauto).
  destruct Hout as [Hf Hlt|book' ts Hfok Hexec|book' ts q2 l Hr Hq2 Hsw2 Habs Hnf].
  - split; [|done]. intros [Hr _]. apply andb_true_iff in Hr as [_ [_ Hg]%BookSpec.rests_limit]. congruence.
  - split; [|done]. intros [Hr Ht]. exfalso. cbn [is_ok andb] in Hown. fold remainder in Hown. rewrite Hr in Hown.
    pose proof (OrderBook.ids_unique s book' Hi') as Hu. rewrite Hown in Hu.
    rewrite (BookSpec.enqueue_perm s (Order.set_remaining_quantity q o)) in Hu. cbn in Hu.
    apply NoDup_cons in Hu as [Hu _]. by apply Hu.
  - assert (q2 = q) as -> by (eapply BookSpec.swept_left; eauto).
    split; [done|]. intros Hn. destruct Hn. split.
    { unfold remainder. apply Z.ltb_lt in Hq2 as ->. by rewrite Hr. }
    rewrite OrderBook.free_id_abs in Hnf by done. apply not_Forall_Exists in Hnf; [|solve_decision].
    apply Exists_exists in Hnf as (x & Hx & Hxid). apply dec_stable in Hxid. unfold taken.
    rewrite <- Hxid. apply list_elem_of_fmap_2. rewrite elem_of_app.
    assert (OrderBook.abs_side s book = OrderBook.abs_side s book') as ->.
    { by rewrite <- !OrderBook.abs_side_orders, Habs, BookSpec.side_with_opposite. }
    revert Hx. unfold BookSpec.all_orders, s. rewrite elem_of_app. destruct (Order.side o); cbn; tauto.
Qed.

(** C11. When a submission throws.  A zero quantity is refused before anything is
    touched.  Any other order is killed (fill-or-kill only, without a trace) or
    sweeps the opposite side, and then throws exactly when a remainder that may
    rest finds its id taken: by an order of its own side, or by one of the
    opposite side that the sweep has left.  Then the trades stand, the
    remainder is lost, and no order is added; otherwise the remainder rests if
    it may, and nothing is thrown. *)
Theorem process_order_errors incoming book trades :
  let o := BookSpec.normalise incoming in
  let s := Order.side incoming in
  OrderBook.inv book → sink_ok trades → 0 ≤ Order.remaining_quantity incoming < 2 ^ 32 →
  (Order.remaining_quantity incoming = 0 →
   process_order_into incoming (book, trades) =
     (Throw (InvalidArgument "Incoming order quantity must be positive"), (book, trades))) ∧
  (0 < Order.remaining_quantity incoming →
   let '(r, (book', trades')) := process_order_into incoming (book, trades) in
   OrderBook.inv book' ∧
   (Order.time_in_force incoming = FillOrKill ∧ r = Ok tt ∧ sink_view trades' = [] ∧ book' = book ∨
    ∃ q, BookSpec.swept o (Order.remaining_quantity incoming)
           (OrderBook.abs_side (opposite s) book) (sink_view trades') q
           (OrderBook.abs_side (opposite s) book') ∧
      let remainder := (0 <? q) && BookSpec.rests o in
      let taken := Order.id incoming ∈ Order.id <$>
                     OrderBook.abs_side s book ++ OrderBook.abs_side (opposite s) book' in
      (remainder = true ∧ taken →
         r = Throw (InvalidArgument "Duplicate order ID") ∧
         OrderBook.abs_side s book' = OrderBook.abs_side s book) ∧
      (¬ (remainder = true ∧ taken) →
         r = Ok tt ∧
         OrderBook.abs_side s book' =
           if remainder then BookSpec.enqueue s (Order.set_remaining_quantity q o) (OrderBook.abs_side s book)
           else OrderBook.abs_side s book))).
Proof.
  intros o s Hi Hok Hq. split.
  { intros H0. rewrite process_order_unfold. by apply Z.eqb_eq in H0 as ->. }
  intros Hpos. assert (BookSpec.valid_incoming incoming) as Hv by (red; lia).
  destruct (process_order_outcome incoming book trades Hi Hok Hv)
    as (r & book' & trades' & -> & Hi' & Hok' & Hout). fold o in Hout.
  pose proof (BookSpec.normalise_fields incoming) as (Hid & Hs & _ & Hrem & _).
  fold o in Hid, Hs, Hrem. fold s in Hs. apply BookSpec.normalise_valid in Hv. fold o in Hv.
  split; [done|]. generalize dependent (sink_view trades'). intros ts Hout.
  destruct (outcome_queues _ _ _ _ _ Hout Hi Hv) as [(-> & -> & -> & Hf)|(q & Hq0 & Hsw & Hown)].
  { left. split; [|done]. exact (proj1 (BookSpec.normalise_fok _) Hf). }
  right. exists q. rewrite Hs, Hrem in *. split; [done|]. cbn zeta. rewrite <- Hid.
  destruct (outcome_taken o book r book' ts q Hout Hi Hi' Hv) as [H1 H2]; [by rewrite Hs, Hrem|].
  rewrite Hs in *. split.
  - intros Hd. rewrite (H1 Hd) in *. split; [done|]. by rewrite Hown.
  - intros Hd. rewrite (H2 Hd) in *. split; [done|]. by rewrite Hown.
Qed.

(* what cancelling does on a book whose levels have not wrapped *)
Lemma cancel_order_spec order_id book trades :
  OrderBook.inv book → OrderBook.exact book →
  ∃ found book',
    cancel_order order_id (book, trades) = (Ok found, (book', trades)) ∧
    OrderBook.inv book' ∧ OrderBook.free_id book' order_id ∧
    if found : bool
    then ∃ o, OrderBook.find_order book order_id = Ok (Some o) ∧ Order.id o = order_id ∧
      OrderBook.abs book' = BookSpec.with_side (Order.side o)
        (BookSpec.remove order_id (OrderBook.abs_side (Order.side o) book)) (OrderBook.abs book)
    else book' = book.
Proof.
  intros Hi He. unfold cancel_order, on_book, OrderBook.cancel_order, bind, ret. simpl.
  destruct (OrderBook.extract_order_cases book order_id Hi)
    as [[-> Hf]|[[_ Hne]|(o & book' & -> & Hfo & Hid & Hi' & Hin & Habs & Hm)]].
  - by exists false, book.
  - done.
  - exists true, book'. split_and!; try done.
    + unfold OrderBook.free_id. by rewrite Hm, lookup_delete_eq.
    + by exists o.
Qed.

(* what replacing does on a book without the order, and on one with it *)
Lemma replace_order_spec order_id price quantity timestamp book trades :
  OrderBook.inv book → OrderBook.exact book → sink_ok trades →
  BookSpec.gtc (OrderBook.abs book) → in_u32 quantity →
  (quantity = 0 →
   replace_order_into order_id price quantity timestamp (book, trades) =
     (Throw (InvalidArgument "Replacement quantity must be positive"), (book, trades))) ∧
  (quantity ≠ 0 → OrderBook.free_id book order_id →
   replace_order_into order_id price quantity timestamp (book, trades) =
     (Ok false, (book, sink_clear trades))) ∧
  (quantity ≠ 0 → ∀ o, OrderBook.find_order book order_id = Ok (Some o) →
   let s := Order.side o in
   let o' := replacement_of o price quantity timestamp in
   ∃ book' trades',
     replace_order_into order_id price quantity timestamp (book, trades) =
       (Ok true, (book', trades')) ∧
     OrderBook.inv book' ∧ sink_ok trades' ∧
     BookSpec.process o'
       (BookSpec.with_side s (BookSpec.remove order_id (OrderBook.abs_side s book))
          (OrderBook.abs book)) = (sink_view trades', OrderBook.abs book')).
Proof.
  intros Hi He Hok Hg Hq. unfold replace_order_into. split; [by intros ->|].
  pose proof (sink_clear_ok _ Hok) as Hok'.
  destruct (OrderBook.extract_order_cases book order_id Hi)
    as [[Hx Hf]|[[_ Hne]|(x & book1 & Hx & Hfo & Hid & Hi' & Hin & Habs & Hm)]]; [|done|].
  - split.
    + intros ?%Z.eqb_neq _. rewrite H. unfold bind, on_trades, on_book, ret. simpl. by rewrite Hx.
    + intros _ o Hfo. unfold OrderBook.find_order in Hfo. by rewrite Hf in Hfo.
  - split; [intros _ Hf; unfold OrderBook.find_order in Hfo; by rewrite Hf in Hfo|].
    intros Hnz o Ho. rewrite Hfo in Ho. injection Ho as <-.
    apply Z.eqb_neq in Hnz as Hnz'. rewrite Hnz'. unfold bind, on_trades, on_book, ret. simpl. rewrite Hx.
    assert (Order.time_in_force x = GoodTillCancel) as Htif.
    { apply (BookSpec.gtc_side (Order.side x)) in Hg. rewrite OrderBook.abs_side_orders in Hg.
      rewrite Forall_forall in Hg. by apply Hg. }
    destruct (process_order_spec (replacement_of x price quantity timestamp)
                book1 (sink_clear trades)) as (book2 & trades2 & -> & Hi2 & Hok2 & Hp); [done|done| | | |].
    + red. simpl. word.
    + unfold OrderBook.free_id. simpl. by rewrite Hid, Hm, lookup_delete_eq.
    + simpl. congruence.
    + exists book2, trades2. by rewrite <- Habs.
Qed.

(** C10. Cancelling and replacing by id, on a book where only good-till-cancel
    orders rest and no level has wrapped its 32-bit total.  Of cancelling, [true]
    means the order with that id has left its queue and nothing else has
    changed; [false] means no order had it, and the book is untouched.  Replacing is
    cancelling and submitting: the order keeps its id and side, and its new
    price, quantity and timestamp are processed as a new order's, so it trades
    where it can and queues behind every order of its price.  An absent id
    changes nothing; a zero quantity is refused at once. *)
Theorem cancel_replace_refines order_id book trades :
  OrderBook.inv book → OrderBook.exact book → sink_ok trades → BookSpec.gtc (OrderBook.abs book) →
  (∃ found book',
    cancel_order order_id (book, trades) = (Ok found, (book', trades)) ∧
    OrderBook.inv book' ∧ OrderBook.free_id book' order_id ∧
    if found : bool
    then ∃ o, OrderBook.find_order book order_id = Ok (Some o) ∧ Order.id o = order_id ∧
      OrderBook.abs book' = BookSpec.with_side (Order.side o)
        (BookSpec.remove order_id (OrderBook.abs_side (Order.side o) book)) (OrderBook.abs book)
    else book' = book) ∧
  ∀ price quantity timestamp, in_u32 quantity →
  (quantity = 0 →
   replace_order_into order_id price quantity timestamp (book, trades) =
     (Throw (InvalidArgument "Replacement quantity must be positive"), (book, trades))) ∧
  (quantity ≠ 0 → OrderBook.free_id book order_id →
   replace_order_into order_id price quantity timestamp (book, trades) =
     (Ok false, (book, sink_clear trades))) ∧
  (quantity ≠ 0 → ∀ o, OrderBook.find_order book order_id = Ok (Some o) →
   let s := Order.side o in
   let o' := replacement_of o price quantity timestamp in
   ∃ book' trades',
     replace_order_into order_id price quantity timestamp (book, trades) =
       (Ok true, (book', trades')) ∧
     OrderBook.inv book' ∧ sink_ok trades' ∧
     BookSpec.process o'
       (BookSpec.with_side s (BookSpec.remove order_id (OrderBook.abs_side s book))
          (OrderBook.abs book)) = (sink_view trades', OrderBook.abs book')).
Proof.
  intros Hi He Hok Hg. split; [by apply cancel_order_spec|].
  intros price quantity timestamp Hq. by apply replace_order_spec.
Qed.

End proofs.

(** ** Independence of the trade container

    Running the engine on two containers that implement [TradeSink] gives the
    same result, the same book, and containers with the same contents. *)

Section simulation.
Context {B1 B2 : Type} `{!TradeSink B1} `{!TradeSink B2}.
(* a relation of containers that clearing and appending preserve *)
Context (R : B1 → B2 → Prop)
  (Hclear : ∀ b1 b2, R b1 b2 → R (sink_clear b1) (sink_clear b2))
  (Hpush : ∀ b1 b2 t, R b1 b2 → R (sink_push b1 t) (sink_push b2 t)).

Definition sim (st1 : OrderBook.t * B1) (st2 : OrderBook.t * B2) : Prop :=
  st1.1 = st2.1 ∧ R st1.2 st2.2.

Definition msim {A} (m1 : M (OrderBook.t * B1) A) (m2 : M (OrderBook.t * B2) A) : Prop :=
  ∀ st1 st2, sim st1 st2 → (m1 st1).1 = (m2 st2).1 ∧ sim (m1 st1).2 (m2 st2).2.

Lemma msim_bind {A C} (m1 : M _ A) (m2 : M _ A) (k1 k2 : A → M _ C) :
  msim m1 m2 → (∀ a, msim (k1 a) (k2 a)) → msim (bind m1 k1) (bind m2 k2).
Proof.
  intros Hm Hk st1 st2 Hs. destruct (Hm _ _ Hs) as [Hr Hs']. unfold bind.
  destruct (m1 st1) as [[a|e] st1'], (m2 st2) as [r st2']; simpl in *; subst r; [|done].
  by apply Hk.
Qed.

(* reading the state: the continuations may use its book *)
Lemma msim_get {C} (k1 : _ → M (OrderBook.t * B1) C) (k2 : _ → M (OrderBook.t * B2) C) :
  (∀ st1 st2, sim st1 st2 → msim (k1 st1) (k2 st2)) →
  msim (st <- get ;; k1 st) (st <- get ;; k2 st).
Proof. intros Hk st1 st2 Hs. by apply Hk. Qed.

Lemma msim_pure {A} (r : res A) : msim (lift r) (lift r).
Proof. by intros st1 st2 Hs. Qed.

Lemma msim_on_book {A} (m : M OrderBook.t A) : msim (on_book m) (on_book m).
Proof.
  intros [b1 t1] [b2 t2] [Hb Hr]. simpl in *. subst b2. unfold on_book. simpl.
  destruct (m b1). by split.
Qed.

Lemma msim_clear : msim (on_trades sink_clear) (on_trades sink_clear).
Proof. intros st1 st2 [Hb Hr]. split; [done|]. split; simpl; auto. Qed.

Lemma msim_push t : msim (on_trades (λ b, sink_push b t)) (on_trades (λ b, sink_push b t)).
Proof. intros st1 st2 [Hb Hr]. split; [done|]. split; simpl; auto. Qed.

Create HintDb msim.
#[local] Hint Resolve msim_bind msim_pure msim_on_book msim_clear msim_push : msim.
#[local] Hint Extern 1 (msim (ret _) (ret _)) => apply (msim_pure (Ok _)) : msim.
#[local] Hint Extern 1 (msim (throw _) (throw _)) => apply (msim_pure (Throw _)) : msim.

Lemma msim_step s incoming : msim (match_step s incoming) (match_step s incoming).
Proof.
  apply msim_get. intros st1 st2 [-> _].
  repeat (apply msim_bind; [eauto with msim|intros ?]). eauto with msim.
Qed.

Lemma msim_loop s fuel incoming : msim (match_loop s fuel incoming) (match_loop s fuel incoming).
Proof.
  revert incoming. induction fuel as [|fuel IH]; intros incoming; apply msim_get;
    intros st1 st2 [-> _]; (apply msim_bind; [eauto with msim|intros []]);
    try by eauto with msim.
  apply msim_bind; [apply msim_step|auto].
Qed.

Lemma msim_side s incoming : msim (match_side s incoming) (match_side s incoming).
Proof.
  apply msim_get. intros st1 st2 [-> _]. apply msim_bind; [apply msim_loop|intros o].
  destruct (_ && _); eauto with msim.
Qed.

Lemma msim_process incoming : msim (process_order_into incoming) (process_order_into incoming).
Proof.
  unfold process_order_into. repeat (apply msim_bind; [eauto with msim|intros _]).
  apply msim_get. intros st1 st2 [-> _]. destruct (_ && _); [eauto with msim|].
  destruct (Order.side _); apply msim_side.
Qed.

Lemma msim_replace order_id p q ts :
  msim (replace_order_into order_id p q ts) (replace_order_into order_id p q ts).
Proof.
  unfold replace_order_into. destruct (q =? 0); [eauto with msim|].
  apply msim_bind; [eauto with msim|intros _]. apply msim_bind; [eauto with msim|intros [x|]];
    [|eauto with msim].
  apply msim_bind; [apply msim_process|eauto with msim].
Qed.

End simulation.

(** Two containers with the same contents; and any two containers, when only
    the result and the book matter. *)
Definition same_contents (trades : TradeBuffer.t) (ts : list Trade) : Prop :=
  TradeBuffer.ok default_capacity trades ∧ TradeBuffer.view trades = ts.

Lemma same_clear b1 b2 : same_contents b1 b2 → same_contents (sink_clear b1) (sink_clear b2).
Proof.
  intros [Hok Hv]. split; [by apply TradeBuffer.clear_ok|by apply (TradeBuffer.clear_view default_capacity)].
Qed.

Lemma same_push b1 b2 t : same_contents b1 b2 → same_contents (sink_push b1 t) (sink_push b2 t).
Proof.
  intros [Hok <-].
  split; [by apply TradeBuffer.emplace_back_ok|by apply TradeBuffer.emplace_back_view].
Qed.

Lemma sim_start book :
  sim same_contents (book, TradeBuffer.new default_capacity) (book, [] : list Trade).
Proof. split; [done|]. split; [apply TradeBuffer.new_ok|done]. Qed.

Section any_container.
Context {B1 B2 : Type} `{!TradeSink B1} `{!TradeSink B2} (trades1 : B1) (trades2 : B2).

(** The result and the book do not depend on the container at all. *)
Lemma process_any incoming book :
  (process_order_into incoming (book, trades1)).1 = (process_order_into incoming (book, trades2)).1 ∧
  (process_order_into incoming (book, trades1)).2.1 = (process_order_into incoming (book, trades2)).2.1.
Proof.
  destruct (msim_process (λ (_ : B1) (_ : B2), True) ltac:(done) ltac:(done) incoming
              (book, trades1) (book, trades2)) as [Hr [Hb _]]; [done|]. done.
Qed.

Lemma replace_any order_id p q ts book :
  (replace_order_into order_id p q ts (book, trades1)).1 =
    (replace_order_into order_id p q ts (book, trades2)).1 ∧
  (replace_order_into order_id p q ts (book, trades1)).2.1 =
    (replace_order_into order_id p q ts (book, trades2)).2.1.
Proof.
  destruct (msim_replace (λ (_ : B1) (_ : B2), True) ltac:(done) ltac:(done) order_id p q ts
              (book, trades1) (book, trades2)) as [Hr [Hb _]]; [done|]. done.
Qed.
End any_container.

(** The small-buffer vector is invisible: [process_order] and
    [replace_order] give exactly the results, the books and the trades of the
    engine run on an unbounded list, however many trades overflow the eight
    inline slots. *)
Theorem buffered_trades_equiv book incoming order_id p q ts :
  process_order book incoming =
    (let '(r, (book', trades)) := process_order_into incoming (book, [] : list Trade) in
     (let* _ := r in Ok trades, book')) ∧
  replace_order book order_id p q ts =
    (let '(r, (book', trades)) :=
       replace_order_into order_id p q ts (book, [] : list Trade) in
     (let* replaced := r in Ok (ReplaceResult.mk replaced trades), book')).
Proof.
  unfold process_order, replace_order. split.
  - destruct (msim_process same_contents same_clear same_push incoming _ _ (sim_start book))
      as [Hr [Hb [Hok Hv]]].
    destruct (process_order_into _ _) as [r1 [b1 t1]], (process_order_into _ _) as [r2 [b2 t2]].
    simpl in *. subst r2 b2 t2. by rewrite (TradeBuffer.to_vector_view default_capacity).
  - destruct (msim_replace same_contents same_clear same_push order_id p q ts _ _ (sim_start book))
      as [Hr [Hb [Hok Hv]]].
    destruct (replace_order_into _ _ _ _ _) as [r1 [b1 t1]],
      (replace_order_into _ _ _ _ _) as [r2 [b2 t2]].
    simpl in *. subst r2 b2 t2. by rewrite (TradeBuffer.to_vector_view default_capacity).
Qed.

(** ** Every sequence of calls *)

Inductive engine_op : Type :=
  | Submit (incoming : Order)
  | Cancel (order_id : OrderId)
  | Replace (order_id : OrderId) (new_price : Price) (new_quantity : Quantity)
      (new_timestamp : Timestamp).

Definition engine_call (op : engine_op) : M (OrderBook.t * TradeBuffer.t) unit :=
  match op with
  | Submit incoming => process_order_into incoming
  | Cancel order_id => cancel_order order_id ;;; ret tt
  | Replace order_id p q ts => replace_order_into order_id p q ts ;;; ret tt
  end.

Definition op_typed (op : engine_op) : Prop :=
  match op with
  | Submit incoming => order_typed incoming
  | Cancel _ => True
  | Replace _ p q ts => in_i64 p ∧ in_u32 q ∧ in_u64 ts
  end.

Definition book_typed (book : OrderBook.t) : Prop :=
  Forall order_typed (BookSpec.all_orders (OrderBook.abs book)).

Lemma book_typed_sides s book :
  book_typed book ↔
  Forall order_typed (OrderBook.abs_side s book) ∧
  Forall order_typed (OrderBook.abs_side (opposite s) book).
Proof.
  unfold book_typed, BookSpec.all_orders. rewrite Forall_app. destruct s; simpl; tauto.
Qed.

(** A sweep, and the remainder of a well-typed order, are well typed. *)
Lemma swept_typed incoming s q l ts q' l' :
  Forall (BookSpec.resting_on s) l → Forall order_typed l →
  BookSpec.prioritised s l → BookSpec.swept incoming q l ts q' l' → Forall order_typed l'.
Proof.
  intros Hr Ht Hp Hsw. destruct (BookSpec.swept_wf _ _ _ _ _ _ _ Hr Hp Hsw) as (Hr' & _ & _).
  rewrite Forall_forall in *. intros x Hx.
  destruct (BookSpec.swept_origin _ _ _ _ _ _ _ Hsw Hx) as (y & Hy & ->).
  destruct (Ht _ Hy) as (? & ? & ? & ? & ?). destruct (Hr' _ Hx) as (_ & _ & ?).
  split_and!; simpl; try done. unfold in_u32. lia.
Qed.

Lemma remainder_typed o q : order_typed o → 0 ≤ q ≤ Order.remaining_quantity o →
  order_typed (Order.set_remaining_quantity q o).
Proof. intros (? & ? & ? & [? ?] & ?) ?. split_and!; try done. unfold in_u32. simpl. lia. Qed.

Lemma process_typed o r book book' ts :
  outcome o book r book' ts → OrderBook.inv book → BookSpec.valid_incoming o →
  order_typed o → book_typed book → book_typed book'.
Proof.
  intros Hout Hi Hv Ho Hb. set (s := Order.side o).
  destruct (outcome_queues _ _ _ _ _ Hout Hi Hv) as [(_ & -> & _)|(q & Hq & Hsw & Hown)]; [done|].
  fold s in Hsw, Hown. destruct (proj1 (book_typed_sides s book) Hb) as [Hb1 Hb2].
  destruct (BookSpec.wf_side (opposite s) _ (OrderBook.abs_wf _ Hi)) as [Hr Hp].
  rewrite OrderBook.abs_side_orders in Hr, Hp.
  apply (book_typed_sides s). split; [|by eapply swept_typed]. rewrite Hown.
  destruct (_ && _); [|done]. rewrite BookSpec.enqueue_perm. constructor; [|done].
  pose proof (BookSpec.swept_bounds _ _ _ _ _ _ _ Hr Hsw). by apply remainder_typed.
Qed.

(** The states a program that calls the engine can reach; a caller that
    catches an exception goes on with the state the exception left. *)
Inductive reachable : OrderBook.t * TradeBuffer.t → Prop :=
  | reachable_new : reachable (OrderBook.new, TradeBuffer.new default_capacity)
  | reachable_call op st r st' :
      reachable st → op_typed op → engine_call op st = (r, st') → reachable st'.

Record sound (st : OrderBook.t * TradeBuffer.t) : Prop := {
  sound_inv : OrderBook.inv st.1;
  sound_trades : sink_ok st.2;
  sound_uncrossed : BookSpec.uncrossed (OrderBook.abs st.1);
  sound_gtc : BookSpec.gtc (OrderBook.abs st.1);
  sound_typed : book_typed st.1
}.

(** An exit of the code: a value or one of its own exceptions, not undefined
    behaviour nor an exhausted loop bound. *)
Definition proper_exit {A} (r : res A) : Prop :=
  match r with
  | Throw OutOfFuel | Throw (Undefined _) => False
  | _ => True
  end.

Lemma process_sound incoming st :
  sound st → order_typed incoming →
  let '(r, st') := process_order_into incoming st in proper_exit r ∧ sound st'.
Proof.
  destruct st as [book trades]. intros [Hi Hok Hu Hg Hty] Hot. cbn [fst snd] in *.
  pose proof Hot as (_ & _ & _ & Hq & _).
  destruct (Z.eq_dec (Order.remaining_quantity incoming) 0) as [H0|H0].
  { rewrite process_order_unfold. by apply Z.eqb_eq in H0 as ->. }
  assert (BookSpec.valid_incoming incoming) as Hv by (unfold in_u32 in Hq; red; lia).
  destruct (process_order_outcome (B := TradeBuffer.t) incoming book trades Hi Hok Hv)
    as (r & book' & trades' & -> & Hi' & Hok' & Hout).
  apply BookSpec.normalise_valid in Hv. pose proof (OrderBook.abs_wf _ Hi) as Hwf.
  assert (order_typed (BookSpec.normalise incoming)) as Ho.
  { pose proof Hot as (? & ? & ? & ? & ?). unfold BookSpec.normalise.
    destruct (Order.type incoming), (Order.time_in_force incoming); done. }
  set (o := BookSpec.normalise incoming) in *.
  pose proof (process_typed _ _ _ _ _ Hout Hi Hv Ho Hty) as Hty'.
  enough (proper_exit r ∧ BookSpec.uncrossed (OrderBook.abs book') ∧
          BookSpec.gtc (OrderBook.abs book')) by (split; [|split]; tauto).
  revert Hout. generalize (sink_view trades').
  intros ts [Hf Hlt|book2 ts' Hfok Hexec|book2 ts' q l Hr Hpos Hsw Habs Hnf].
  - done.
  - pose proof (BookSpec.execute_uncrossed _ _ Hwf Hv Hu) as H1.
    pose proof (BookSpec.execute_gtc _ _ Hwf Hv Hg) as H2. by rewrite Hexec in H1, H2.
  - rewrite Habs. rewrite <- OrderBook.abs_side_orders in Hsw. split_and!; [done| |].
    + by eapply BookSpec.swept_uncrossed.
    + by eapply BookSpec.swept_gtc.
Qed.

Lemma start_sound : sound (OrderBook.new, TradeBuffer.new default_capacity).
Proof.
  split; simpl; [apply OrderBook.new_inv|apply TradeBuffer.new_ok| |by constructor|by constructor].
  intros ? ? Hb. by apply elem_of_nil in Hb.
Qed.

Lemma found_typed order_id (book : OrderBook.t) x :
  OrderBook.inv book → book_typed book →
  (OrderBook.extract_order order_id book).1 = Ok (Some x) → order_typed x.
Proof.
  intros Hi Hty Hx.
  destruct (OrderBook.extract_order_cases book order_id Hi)
    as [[E _]|[[E _]|(y & b & E & _ & _ & _ & Hin & _)]]; rewrite E in Hx; [done|done|].
  injection Hx as <-. destruct (proj1 (book_typed_sides (Order.side y) book) Hty) as [Hty' _].
  rewrite Forall_forall in Hty'. by apply Hty'.
Qed.

Lemma extract_sound order_id st :
  sound st →
  let '(r, book) := OrderBook.extract_order order_id st.1 in
  proper_exit r ∧ sound (book, st.2).
Proof.
  intros [Hi Hok Hu Hg Hty].
  destruct (OrderBook.extract_order_cases st.1 order_id Hi)
    as [[-> Hf]|[[-> Hne]|(x & book1 & -> & Hfo & Hid & Hi' & Hin & Habs & Hm)]];
    [by split|by split|].
  split; [done|].
  destruct (BookSpec.remove_book (Order.side x) order_id _ (OrderBook.abs_wf _ Hi) Hu Hg)
    as (Hwf' & Hu' & Hg').
  rewrite OrderBook.abs_side_orders, <- Habs in Hu', Hg'. split; [done..|].
  unfold book_typed, BookSpec.all_orders in *. cbn [fst] in *. rewrite Habs.
  apply Forall_app in Hty as [Hb Ha]. apply Forall_app.
  assert (∀ l, Forall order_typed l → Forall order_typed (BookSpec.remove order_id l)).
  { intros l. unfold BookSpec.remove. rewrite !Forall_forall. intros Hl y [_ Hy]%list_elem_of_filter.
    by apply Hl. }
  destruct (Order.side x); simpl; auto.
Qed.

Lemma engine_call_sound op st :
  sound st → op_typed op →
  let '(r, st') := engine_call op st in proper_exit r ∧ sound st'.
Proof.
  intros Hs Ht. pose proof Hs as [Hi Hok Hu Hg Hty].
  destruct op as [incoming|order_id|order_id p q ts]; simpl in Ht |- *.
  - by apply process_sound.
  - pose proof (extract_sound order_id st Hs) as Hx.
    unfold cancel_order, on_book, OrderBook.cancel_order, bind, ret.
    destruct (OrderBook.extract_order order_id st.1) as [[x|e] book']; [by destruct Hx|done].
  - unfold replace_order_into. destruct (q =? 0); [done|].
    assert (sound (st.1, sink_clear st.2)) as Hs'.
    { split; try done. cbn [snd]. by apply sink_clear_ok. }
    pose proof (extract_sound order_id _ Hs') as Hx.
    unfold on_trades, on_book, bind, ret in *. simpl in *.
    destruct (OrderBook.extract_order order_id st.1) as [[[x|]|e] book1] eqn:Hex;
      [|by destruct Hx|done].
    destruct Hx as [_ Hx]. assert (order_typed x) as Hot by
      (apply (found_typed order_id st.1 _ Hi Hty); by rewrite Hex).
    pose proof (process_sound (replacement_of x p q ts) _ Hx
      ltac:(destruct Hot, Ht as (? & ? & ?); split_and!; done)) as Hp.
    destruct (process_order_into _ _) as [[[]|e] st2]; [by destruct Hp|done].
Qed.

(** The invariant of the book.  After any sequence of submissions,
    cancellations and replacements, exceptions included, the levels, the
    nodes and the id index of the book agree; its two sides do not cross; only
    good-till-cancel orders rest; and no call has run into undefined behaviour
    or gone round its loop more often than there are orders. *)
Theorem reachable_sound st op :
  reachable st → op_typed op →
  sound st ∧ proper_exit (engine_call op st).1.
Proof.
  intros Hr Ht.
  assert (sound st) as Hs.
  { clear op Ht. induction Hr as [|op st r st' _ IH Ht Hc].
    - apply start_sound.
    - pose proof (engine_call_sound op st IH Ht) as H. rewrite Hc in H. by apply H. }
  split; [done|]. pose proof (engine_call_sound op st Hs Ht) as H.
  destruct (engine_call op st). by destruct H.
Qed.

(** ** A concrete book

    Two bids and three asks, built by the engine itself; the instances below
    apply the theorems to it. *)

Definition run_ops (ops : list engine_op) (st : OrderBook.t * TradeBuffer.t)
    : OrderBook.t * TradeBuffer.t :=
  foldl (λ st op, (engine_call op st).2) st ops.

Lemma run_ops_sound ops st : Forall op_typed ops → sound st → sound (run_ops ops st).
Proof.
  intros Ho. revert st. induction Ho as [|op ops Ht _ IH]; intros st Hs; [done|].
  simpl. apply IH. pose proof (engine_call_sound op st Hs Ht) as H.
  destruct (engine_call op st). by destruct H.
Qed.

Definition limit_order (id : OrderId) (s : Side) (price : Price) (q : Quantity) : Order :=
  Order.mk id s Limit GoodTillCancel price q q id.

Definition demo_ops : list engine_op :=
  [Submit (limit_order 1 Buy 100 10); Submit (limit_order 2 Buy 99 5);
   Submit (limit_order 3 Sell 101 7); Submit (limit_order 4 Sell 101 4);
   Submit (limit_order 5 Sell 102 20)].

Definition demo : OrderBook.t * TradeBuffer.t :=
  run_ops demo_ops (OrderBook.new, TradeBuffer.new default_capacity).

Lemma demo_sound : sound demo.
Proof. apply run_ops_sound; [|apply start_sound]. repeat constructor; done. Qed.

Lemma demo_exact : OrderBook.exact demo.1.
Proof. apply OrderBook.depth_exact; [apply demo_sound|]. by intros []; vm_compute. Qed.

(* a buy of 9 at 101 sweeps order 3 and part of order 4 *)
Definition demo_buy : Order := Order.mk 6 Buy Limit GoodTillCancel 101 9 9 60.

Lemma process_order_refines_witness :
  ∃ book' trades',
    process_order_into demo_buy (demo.1, demo.2) = (Ok tt, (book', trades')) ∧
    OrderBook.inv book' ∧ sink_ok trades' ∧
    BookSpec.process demo_buy (OrderBook.abs demo.1) = (sink_view trades', OrderBook.abs book').
Proof.
  apply (process_order_refines demo_buy demo.1 demo.2);
    [apply demo_sound|apply demo_sound|done|by vm_compute|done].
Defined.

Lemma price_time_priority_witness :
  (process_order_into demo_buy (demo.1, demo.2)).1 = Ok tt ∧
  let '(r, (book', trades')) := process_order_into demo_buy (demo.1, demo.2) in
  (Order.time_in_force demo_buy = FillOrKill ∧ sink_view trades' = [] ∧ book' = demo.1) ∨
  ∃ q, BookSpec.swept (BookSpec.normalise demo_buy) 9 (OrderBook.abs_side Sell demo.1)
         (sink_view trades') q (OrderBook.abs_side Sell book').
Proof.
  split; [by vm_compute|].
  apply (price_time_priority demo_buy demo.1 demo.2); [apply demo_sound|apply demo_sound|done].
Defined.

(* 31 are on offer: a fill-or-kill order for 31 trades them all, one for 32 none *)
Definition demo_fok (q : Quantity) : Order := Order.mk 7 Buy Limit FillOrKill 105 q q 70.

Lemma fill_or_kill_witness :
  sink_view (process_order_into (demo_fok 32) (demo.1, demo.2)).2.2 = [] ∧
  let '(r, (book', trades')) := process_order_into (demo_fok 31) (demo.1, demo.2) in
  r = Ok tt ∧
  (sink_view trades' = [] ∧ book' = demo.1 ∨
   BookSpec.traded (sink_view trades') = 31 ∧
   OrderBook.abs_side Buy book' = OrderBook.abs_side Buy demo.1).
Proof.
  split; [by vm_compute|].
  apply (fill_or_kill (demo_fok 31) demo.1 demo.2); [apply demo_sound|apply demo_sound|done|done].
Defined.

Lemma process_conserves_witness :
  let '(r, (book', trades')) := process_order_into demo_buy (demo.1, demo.2) in
  let traded := BookSpec.traded (sink_view trades') in
  0 ≤ traded ≤ 9 ∧
  BookSpec.depth (OrderBook.abs_side Sell book') =
    BookSpec.depth (OrderBook.abs_side Sell demo.1) - traded ∧
  BookSpec.depth (OrderBook.abs_side Buy book') =
    BookSpec.depth (OrderBook.abs_side Buy demo.1) +
    if is_ok r && BookSpec.rests (BookSpec.normalise demo_buy) then 9 - traded else 0.
Proof.
  apply (process_conserves demo_buy demo.1 demo.2); [apply demo_sound|apply demo_sound|done].
Defined.

Definition demo_market : Order := Order.mk 8 Sell Market GoodTillCancel 0 40 40 80.

Lemma never_rests_witness :
  let '(r, (book', trades')) := process_order_into demo_market (demo.1, demo.2) in
  r = Ok tt ∧ OrderBook.abs_side Sell book' = OrderBook.abs_side Sell demo.1.
Proof.
  apply (never_rests demo_market demo.1 demo.2);
    [apply demo_sound|apply demo_sound|done|by left].
Defined.

(* id 1 rests on the buy side already; the buy trades 31 of 40 first *)
Definition demo_duplicate : Order := Order.mk 1 Buy Limit GoodTillCancel 105 40 40 90.

Lemma process_order_errors_witness :
  (process_order_into demo_duplicate (demo.1, demo.2)).1 =
    Throw (InvalidArgument "Duplicate order ID") ∧
  ∃ q, BookSpec.swept (BookSpec.normalise demo_duplicate) 40 (OrderBook.abs_side Sell demo.1)
         (sink_view (process_order_into demo_duplicate (demo.1, demo.2)).2.2) q
         (OrderBook.abs_side Sell (process_order_into demo_duplicate (demo.1, demo.2)).2.1).
Proof.
  split; [by vm_compute|].
  assert (OrderBook.inv demo.1) as Hi by apply demo_sound. assert (sink_ok demo.2) as Hok by apply demo_sound.
  assert (0 ≤ Order.remaining_quantity demo_duplicate < 2 ^ 32) as Hq by done.
  assert (0 < Order.remaining_quantity demo_duplicate) as Hpos by done.
  pose proof (proj2 (process_order_errors demo_duplicate demo.1 demo.2 Hi Hok Hq) Hpos) as H.
  destruct (process_order_into demo_duplicate (demo.1, demo.2)) as [r [book' trades']].
  destruct H as [_ [[Hf _]|(q & Hsw & _)]]; [discriminate Hf|]. exists q. exact Hsw.
Defined.

Lemma cancel_replace_refines_witness :
  (cancel_order 2 (demo.1, demo.2)).1 = Ok true ∧
  (∃ found book',
    cancel_order 2 (demo.1, demo.2) = (Ok found, (book', demo.2)) ∧
    OrderBook.inv book' ∧ OrderBook.free_id book' 2 ∧
    if found : bool
    then ∃ o, OrderBook.find_order demo.1 2 = Ok (Some o) ∧ Order.id o = 2 ∧
      OrderBook.abs book' = BookSpec.with_side (Order.side o)
        (BookSpec.remove 2 (OrderBook.abs_side (Order.side o) demo.1)) (OrderBook.abs demo.1)
    else book' = demo.1) ∧
  ∃ book' trades',
    replace_order_into 2 101 9 90 (demo.1, demo.2) = (Ok true, (book', trades')) ∧
    OrderBook.inv book' ∧ sink_ok trades' ∧
    BookSpec.process (replacement_of (limit_order 2 Buy 99 5) 101 9 90)
      (BookSpec.with_side Buy (BookSpec.remove 2 (OrderBook.abs_side Buy demo.1))
         (OrderBook.abs demo.1)) = (sink_view trades', OrderBook.abs book').
Proof.
  split; [by vm_compute|].
  destruct (cancel_replace_refines 2 demo.1 demo.2) as [Hcancel Hreplace];
    [apply demo_sound|apply demo_exact|apply demo_sound|apply demo_sound|].
  split; [exact Hcancel|]. apply (Hreplace 101 9 90); [done|done|by vm_compute].
Defined.

Lemma reachable_sound_witness :
  let st := (engine_call (Submit demo_buy) (OrderBook.new, TradeBuffer.new default_capacity)).2 in
  sound st ∧ proper_exit (engine_call (Cancel 6) st).1.
Proof.
  apply reachable_sound; [|done].
  eapply (reachable_call (Submit demo_buy)); [apply reachable_new|done|].
  apply surjective_pairing.
Defined.

End MatchingEngine.
