(* ===== verification/RiskEngine.v ===== *)
(** * The pre-trade risk engine (include/exchange/risk_engine.hpp, src/risk_engine.cpp)

    Limits and kill switches, the working orders of every client, and the
    exposures the checks read.  Quantities are 64-bit unsigned with the
    saturating arithmetic of the source; positions are 64-bit signed. *)
From S2P Require Import Prelude Types.

Module RiskEngine.

Abbreviation RiskClientId := Z (only parsing).
Definition invalid_risk_client_id : RiskClientId := 0.

Inductive RiskRejectReason : Type :=
  | None_
  | GlobalKillSwitch
  | ClientKillSwitch
  | MaxOrderQuantity
  | MaxOrderNotional
  | MaxOpenOrders
  | MaxOpenQuantity
  | MaxPosition
  | UnknownWorkingOrder.

Definition to_string (reason : RiskRejectReason) : string :=
  match reason with
  | None_ => "none"
  | GlobalKillSwitch => "global kill switch"
  | ClientKillSwitch => "client kill switch"
  | MaxOrderQuantity => "max order quantity"
  | MaxOrderNotional => "max order notional"
  | MaxOpenOrders => "max open orders"
  | MaxOpenQuantity => "max open quantity"
  | MaxPosition => "max position"
  | UnknownWorkingOrder => "unknown working order"
  end.

Module RiskLimits.
Record t : Type := mk {
  max_order_quantity : Quantity;
  max_order_notional : Z;
  max_open_orders : Z;
  max_open_quantity : Z;
  max_position_per_symbol : Z
}.
Definition default : t := mk 100000 10000000000 10000 1000000 1000000.
End RiskLimits.

Module RiskOrderRequest.
Record t : Type := mk {
  client_id : RiskClientId;
  symbol : string;
  order_id : OrderId;
  side : Side;
  order_type : OrderType;
  time_in_force : TimeInForce;
  price : Price;
  quantity : Quantity;
  reference_price : option Price
}.
End RiskOrderRequest.

Module RiskDecision.
Record t : Type := mk { accepted : bool; reason : RiskRejectReason }.
End RiskDecision.

Module ClientRiskSnapshot.
Record t : Type := mk {
  global_kill_switch : bool;
  client_kill_switch : bool;
  position : Z;
  open_buy_quantity : Z;
  open_sell_quantity : Z;
  open_orders : Z;
  gross_open_quantity : Z
}.
End ClientRiskSnapshot.

Module SymbolState.
Record t : Type := mk {
  position : Z;             (* std::int64_t *)
  open_buy_quantity : Z;    (* std::uint64_t *)
  open_sell_quantity : Z
}.
Definition new : t := mk 0 0 0.
Definition open_quantity (s : Side) (st : t) : Z :=
  match s with Buy => open_buy_quantity st | Sell => open_sell_quantity st end.
Definition set_open_quantity (s : Side) (q : Z) (st : t) : t :=
  match s with
  | Buy => mk (position st) q (open_sell_quantity st)
  | Sell => mk (position st) (open_buy_quantity st) q
  end.
Definition set_position (p : Z) (st : t) : t :=
  mk p (open_buy_quantity st) (open_sell_quantity st).
End SymbolState.

Module ClientState.
Record t : Type := mk {
  kill_switch : bool;
  open_orders : Z;          (* std::size_t *)
  gross_open_quantity : Z;  (* std::uint64_t *)
  symbols : gmap string SymbolState.t
}.
Definition new : t := mk false 0 0 ∅.
Definition set_kill_switch (b : bool) (c : t) : t :=
  mk b (open_orders c) (gross_open_quantity c) (symbols c).
Definition set_open_orders (n : Z) (c : t) : t :=
  mk (kill_switch c) n (gross_open_quantity c) (symbols c).
Definition set_gross (q : Z) (c : t) : t :=
  mk (kill_switch c) (open_orders c) q (symbols c).
Definition set_symbol (symbol : string) (st : SymbolState.t) (c : t) : t :=
  mk (kill_switch c) (open_orders c) (gross_open_quantity c)
     (<[symbol := st]> (symbols c)).
End ClientState.

Module WorkingOrderKey.
Record t : Type := mk {
  client_id : RiskClientId;
  symbol : string;
  order_id : OrderId
}.
#[export] Instance eq_dec : EqDecision t.
Proof. solve_decision. Defined.
#[export] Instance countable : Countable t.
Proof.
  refine (inj_countable' (λ k, (client_id k, symbol k, order_id k))
            (λ '(c, s, i), mk c s i) _). by intros [].
Defined.
End WorkingOrderKey.
Export (hints) WorkingOrderKey.

Module WorkingOrder.
Record t : Type := mk {
  side : Side;
  price : Price;
  remaining_quantity : Quantity
}.
Definition set_remaining_quantity (q : Quantity) (w : t) : t :=
  mk (side w) (price w) q.
End WorkingOrder.

Record t : Type := mk {
  limits_ : RiskLimits.t;
  global_kill_switch_ : bool;
  clients_ : gmap RiskClientId ClientState.t;
  working_orders_ : gmap WorkingOrderKey.t WorkingOrder.t
}.

Definition new (limits : RiskLimits.t) : t := mk limits false ∅ ∅.
Definition limits (r : t) : RiskLimits.t := limits_ r.

Definition set_client (client_id : RiskClientId) (c : ClientState.t) (r : t) : t :=
  mk (limits_ r) (global_kill_switch_ r) (<[client_id := c]> (clients_ r)) (working_orders_ r).
Definition set_working (m : gmap WorkingOrderKey.t WorkingOrder.t) (r : t) : t :=
  mk (limits_ r) (global_kill_switch_ r) (clients_ r) m.

(* WorkingOrderKeyHash: the working orders are a hash map; [hash_client],
   [hash_symbol] and [hash_order] are std::hash *)
Definition working_order_key_hash (hash_client : RiskClientId → Z) (hash_symbol : string → Z)
    (hash_order : OrderId → Z) (key : WorkingOrderKey.t) : Z :=
  let combine seed hash :=
    Z.lxor seed (u64 (hash + 0x9e3779b9 + u64 (Z.shiftl seed 6) + Z.shiftr seed 2)) in
  let seed := hash_client (WorkingOrderKey.client_id key) in
  let seed := combine seed (hash_symbol (WorkingOrderKey.symbol key)) in
  combine seed (hash_order (WorkingOrderKey.order_id key)).

(** ** Arithmetic *)

Definition uint64_max : Z := 2 ^ 64 - 1.
Definition int64_max : Z := 2 ^ 63 - 1.
Definition int64_min : Z := - 2 ^ 63.

Definition saturating_add (left right : Z) : Z :=
  if right >? uint64_max - left then uint64_max else left + right.

(* a - b, or 0 when b is larger: the guarded subtractions of the source *)
Definition saturating_sub (a b : Z) : Z := if a >=? b then a - b else 0.

Definition absolute_position (value : Z) : Z :=
  if 0 <=? value then value
  else if value =? int64_min then Z.shiftl 1 63 else - value.

Definition absolute_price (value : Price) : Z :=
  if 0 <=? value then value
  else if value =? int64_min then Z.shiftl 1 63 else - value.

(** ** Lookups *)

Definition find_client (r : t) (client_id : RiskClientId) : option ClientState.t :=
  clients_ r !! client_id.

(* try_emplace(client_id).first->second: the state the reference denotes; the
   callers below store it back *)
Definition client_for (r : t) (client_id : RiskClientId) : ClientState.t :=
  default ClientState.new (clients_ r !! client_id).

Definition find_symbol_state (client : ClientState.t) (symbol : string)
    : option SymbolState.t :=
  ClientState.symbols client !! symbol.

(* symbols.try_emplace(symbol).first->second *)
Definition symbol_for (client : ClientState.t) (symbol : string) : SymbolState.t :=
  default SymbolState.new (ClientState.symbols client !! symbol).

(** ** Checks *)

Definition accept : RiskDecision.t := RiskDecision.mk true None_.
Definition reject (reason : RiskRejectReason) : RiskDecision.t :=
  RiskDecision.mk false reason.

Definition check_common_order_limits (r : t) (client : option ClientState.t)
    (price : Price) (quantity : Quantity) (reference_price : option Price)
    : RiskDecision.t :=
  if quantity >? RiskLimits.max_order_quantity (limits_ r)
  then reject MaxOrderQuantity
  else
    let notional_price := default price reference_price in
    let price_magnitude := absolute_price notional_price in
    if negb (price_magnitude =? 0) &&
       (quantity >? RiskLimits.max_order_notional (limits_ r) / price_magnitude)
    then reject MaxOrderNotional
    else accept.

Definition position_limit_exceeded (r : t) (symbol_state : option SymbolState.t)
    (side : Side) (additional_quantity : Quantity)
    (open_buy_quantity open_sell_quantity : Z) : bool :=
  let position := match symbol_state with
                  | None => 0
                  | Some st => SymbolState.position st
                  end in
  match side with
  | Buy =>
      let buy_exposure := saturating_add open_buy_quantity additional_quantity in
      let projected_long :=
        if 0 <=? position then saturating_add position buy_exposure
        else
          let short_position := absolute_position position in
          if buy_exposure >? short_position then buy_exposure - short_position else 0 in
      projected_long >? RiskLimits.max_position_per_symbol (limits_ r)
  | Sell =>
      let sell_exposure := saturating_add open_sell_quantity additional_quantity in
      let projected_short :=
        if position <=? 0 then saturating_add (absolute_position position) sell_exposure
        else
          if sell_exposure >? position then sell_exposure - position else 0 in
      projected_short >? RiskLimits.max_position_per_symbol (limits_ r)
  end.

Definition may_rest (order_type : OrderType) (time_in_force : TimeInForce) : bool :=
  bool_decide (order_type = Limit) && bool_decide (time_in_force = GoodTillCancel).

Definition kill_switched (client : option ClientState.t) : bool :=
  match client with Some c => ClientState.kill_switch c | None => false end.

Definition check_new_order (r : t) (request : RiskOrderRequest.t) : RiskDecision.t :=
  if global_kill_switch_ r then reject GlobalKillSwitch
  else
    let client := find_client r (RiskOrderRequest.client_id request) in
    if kill_switched client then reject ClientKillSwitch
    else
      let common := check_common_order_limits r client (RiskOrderRequest.price request)
        (RiskOrderRequest.quantity request) (RiskOrderRequest.reference_price request) in
      if negb (RiskDecision.accepted common) then common
      else
        let symbol_state := match client with
          | Some c => find_symbol_state c (RiskOrderRequest.symbol request)
          | None => None
          end in
        let current_open_buy := match symbol_state with
          | None => 0 | Some st => SymbolState.open_buy_quantity st end in
        let current_open_sell := match symbol_state with
          | None => 0 | Some st => SymbolState.open_sell_quantity st end in
        if position_limit_exceeded r symbol_state (RiskOrderRequest.side request)
             (RiskOrderRequest.quantity request) current_open_buy current_open_sell
        then reject MaxPosition
        else if may_rest (RiskOrderRequest.order_type request)
                  (RiskOrderRequest.time_in_force request)
        then
          let open_orders := match client with
            | None => 0 | Some c => ClientState.open_orders c end in
          if open_orders >=? RiskLimits.max_open_orders (limits_ r)
          then reject MaxOpenOrders
          else
            let gross_open_quantity := match client with
              | None => 0 | Some c => ClientState.gross_open_quantity c end in
            if saturating_add gross_open_quantity (RiskOrderRequest.quantity request)
                 >? RiskLimits.max_open_quantity (limits_ r)
            then reject MaxOpenQuantity
            else accept
        else accept.

Definition check_replace (r : t) (client_id : RiskClientId) (symbol : string)
    (order_id : OrderId) (new_price : Price) (new_quantity : Quantity)
    : RiskDecision.t :=
  if global_kill_switch_ r then reject GlobalKillSwitch
  else
    let client := find_client r client_id in
    if kill_switched client then reject ClientKillSwitch
    else
      match working_orders_ r !! WorkingOrderKey.mk client_id symbol order_id with
      | None => reject UnknownWorkingOrder
      | Some existing =>
          let common := check_common_order_limits r client new_price new_quantity None in
          if negb (RiskDecision.accepted common) then common
          else
            match client with
            | None => reject UnknownWorkingOrder
            | Some client =>
                if ClientState.open_orders client >? RiskLimits.max_open_orders (limits_ r)
                then reject MaxOpenOrders
                else
                  let remaining := WorkingOrder.remaining_quantity existing in
                  let projected_gross :=
                    saturating_add
                      (saturating_sub (ClientState.gross_open_quantity client) remaining)
                      new_quantity in
                  if projected_gross >? RiskLimits.max_open_quantity (limits_ r)
                  then reject MaxOpenQuantity
                  else
                    match find_symbol_state client symbol with
                    | None => reject UnknownWorkingOrder
                    | Some symbol_state =>
                        let adjusted_open_buy :=
                          match WorkingOrder.side existing with
                          | Buy => saturating_sub (SymbolState.open_buy_quantity symbol_state) remaining
                          | Sell => SymbolState.open_buy_quantity symbol_state
                          end in
                        let adjusted_open_sell :=
                          match WorkingOrder.side existing with
                          | Buy => SymbolState.open_sell_quantity symbol_state
                          | Sell => saturating_sub (SymbolState.open_sell_quantity symbol_state) remaining
                          end in
                        if position_limit_exceeded r (Some symbol_state)
                             (WorkingOrder.side existing) new_quantity
                             adjusted_open_buy adjusted_open_sell
                        then reject MaxPosition
                        else accept
                    end
            end
      end.

(** ** Events *)

Definition erase_working_order (key : WorkingOrderKey.t) (r : t) : t :=
  match working_orders_ r !! key with
  | None => r
  | Some order =>
      let r' :=
        match clients_ r !! WorkingOrderKey.client_id key with
        | None => r
        | Some client =>
            let client := ClientState.set_open_orders
              (if ClientState.open_orders client >? 0
               then ClientState.open_orders client - 1
               else ClientState.open_orders client) client in
            let client := ClientState.set_gross
              (saturating_sub (ClientState.gross_open_quantity client)
                 (WorkingOrder.remaining_quantity order)) client in
            let client :=
              match ClientState.symbols client !! WorkingOrderKey.symbol key with
              | None => client
              | Some state =>
                  ClientState.set_symbol (WorkingOrderKey.symbol key)
                    (SymbolState.set_open_quantity (WorkingOrder.side order)
                       (saturating_sub
                          (SymbolState.open_quantity (WorkingOrder.side order) state)
                          (WorkingOrder.remaining_quantity order)) state) client
              end in
            set_client (WorkingOrderKey.client_id key) client r
        end in
      set_working (delete key (working_orders_ r')) r'
  end.

Definition on_order_resting (client_id : RiskClientId) (symbol : string)
    (order_id : OrderId) (side : Side) (price : Price) (remaining_quantity : Quantity)
    (r : t) : t :=
  if (client_id =? invalid_risk_client_id) || (remaining_quantity =? 0) then r
  else
    let key := WorkingOrderKey.mk client_id symbol order_id in
    let r := erase_working_order key r in
    let client := client_for r client_id in
    let symbol_state := symbol_for client symbol in
    let client := ClientState.set_open_orders
      (u64 (ClientState.open_orders client + 1)) client in
    let client := ClientState.set_gross
      (saturating_add (ClientState.gross_open_quantity client) remaining_quantity) client in
    let symbol_state := SymbolState.set_open_quantity side
      (saturating_add (SymbolState.open_quantity side symbol_state) remaining_quantity)
      symbol_state in
    let r := set_client client_id (ClientState.set_symbol symbol symbol_state client) r in
    (* emplace: the key has just been erased *)
    set_working
      (match working_orders_ r !! key with
       | Some _ => working_orders_ r
       | None => <[key := WorkingOrder.mk side price remaining_quantity]> (working_orders_ r)
       end) r.

Definition on_order_cancelled (client_id : RiskClientId) (symbol : string)
    (order_id : OrderId) (r : t) : t :=
  if client_id =? invalid_risk_client_id then r
  else erase_working_order (WorkingOrderKey.mk client_id symbol order_id) r.

Definition apply_position_delta (side : Side) (quantity : Quantity) (state : SymbolState.t)
    : SymbolState.t :=
  let position := SymbolState.position state in
  SymbolState.set_position
    match side with
    | Buy => if position >? int64_max - quantity then int64_max else position + quantity
    | Sell => if position <? int64_min + quantity then int64_min else position - quantity
    end state.

Definition reduce_working_order (client_id : RiskClientId) (symbol : string)
    (order_id : OrderId) (executed_quantity : Quantity) (r : t) : t :=
  let key := WorkingOrderKey.mk client_id symbol order_id in
  match working_orders_ r !! key with
  | None => r
  | Some order =>
      let reduction := Z.min (WorkingOrder.remaining_quantity order) executed_quantity in
      let client := client_for r client_id in
      let state := symbol_for client symbol in
      let client := ClientState.set_gross
        (saturating_sub (ClientState.gross_open_quantity client) reduction) client in
      let state := SymbolState.set_open_quantity (WorkingOrder.side order)
        (saturating_sub (SymbolState.open_quantity (WorkingOrder.side order) state) reduction)
        state in
      let client := ClientState.set_symbol symbol state client in
      let order := WorkingOrder.set_remaining_quantity
        (u32 (WorkingOrder.remaining_quantity order - reduction)) order in
      if WorkingOrder.remaining_quantity order =? 0
      then
        let client := ClientState.set_open_orders
          (if ClientState.open_orders client >? 0
           then ClientState.open_orders client - 1
           else ClientState.open_orders client) client in
        let r := set_client client_id client r in
        set_working (delete key (working_orders_ r)) r
      else
        let r := set_client client_id client r in
        set_working (<[key := order]> (working_orders_ r)) r
  end.

(* the half of on_trade that concerns one of the two parties *)
Definition on_fill (symbol : string) (client_id : RiskClientId) (order_id : OrderId)
    (side : Side) (quantity : Quantity) (r : t) : t :=
  if client_id =? invalid_risk_client_id then r
  else
    let client := client_for r client_id in
    let state := apply_position_delta side quantity (symbol_for client symbol) in
    let r := set_client client_id (ClientState.set_symbol symbol state client) r in
    reduce_working_order client_id symbol order_id quantity r.

Definition on_trade (symbol : string) (buyer_client_id seller_client_id : RiskClientId)
    (buy_order_id sell_order_id : OrderId) (quantity : Quantity) (r : t) : t :=
  if quantity =? 0 then r
  else
    on_fill symbol seller_client_id sell_order_id Sell quantity
      (on_fill symbol buyer_client_id buy_order_id Buy quantity r).

Definition set_global_kill_switch (enabled : bool) (r : t) : t :=
  mk (limits_ r) enabled (clients_ r) (working_orders_ r).
Definition global_kill_switch (r : t) : bool := global_kill_switch_ r.

Definition set_client_kill_switch (client_id : RiskClientId) (enabled : bool) (r : t) : t :=
  if client_id =? invalid_risk_client_id then r
  else set_client client_id
         (ClientState.set_kill_switch enabled (client_for r client_id)) r.

Definition snapshot (r : t) (client_id : RiskClientId) (symbol : string)
    : ClientRiskSnapshot.t :=
  match find_client r client_id with
  | None => ClientRiskSnapshot.mk (global_kill_switch_ r) false 0 0 0 0 0
  | Some client =>
      match find_symbol_state client symbol with
      | None =>
          ClientRiskSnapshot.mk (global_kill_switch_ r) (ClientState.kill_switch client)
            0 0 0 (ClientState.open_orders client) (ClientState.gross_open_quantity client)
      | Some st =>
          ClientRiskSnapshot.mk (global_kill_switch_ r) (ClientState.kill_switch client)
            (SymbolState.position st) (SymbolState.open_buy_quantity st)
            (SymbolState.open_sell_quantity st)
            (ClientState.open_orders client) (ClientState.gross_open_quantity client)
      end
  end.

(** ** The exposures the working orders account for *)

Definition counted (c : RiskClientId) (k : WorkingOrderKey.t) (w : WorkingOrder.t) : Z :=
  if decide (WorkingOrderKey.client_id k = c) then 1 else 0.
Definition grossed (c : RiskClientId) (k : WorkingOrderKey.t) (w : WorkingOrder.t) : Z :=
  if decide (WorkingOrderKey.client_id k = c) then WorkingOrder.remaining_quantity w else 0.
Definition opened (c : RiskClientId) (symbol : string) (s : Side)
    (k : WorkingOrderKey.t) (w : WorkingOrder.t) : Z :=
  if decide (WorkingOrderKey.client_id k = c ∧ WorkingOrderKey.symbol k = symbol ∧
             WorkingOrder.side w = s)
  then WorkingOrder.remaining_quantity w else 0.

(* the stored counters, zero for clients and symbols never seen *)
Definition open_orders (r : t) (c : RiskClientId) : Z := ClientState.open_orders (client_for r c).
Definition gross (r : t) (c : RiskClientId) : Z := ClientState.gross_open_quantity (client_for r c).
Definition open_quantity (r : t) (c : RiskClientId) (symbol : string) (s : Side) : Z :=
  SymbolState.open_quantity s (symbol_for (client_for r c) symbol).
Definition position (r : t) (c : RiskClientId) (symbol : string) : Z :=
  SymbolState.position (symbol_for (client_for r c) symbol).

(* an open quantity that leaves room for one more order *)
Definition room : Z := 2 ^ 64 - 2 ^ 32.

(** Every stored counter is the exact sum over the working orders. *)
Record inv (r : t) : Prop := {
  inv_typed : map_Forall (λ k w, WorkingOrderKey.client_id k ≠ invalid_risk_client_id ∧
      0 < WorkingOrder.remaining_quantity w < 2 ^ 32) (working_orders_ r);
  inv_room : ∀ c, msum (grossed c) (working_orders_ r) ≤ room;
  inv_orders : ∀ c, open_orders r c = msum (counted c) (working_orders_ r);
  inv_gross : ∀ c, gross r c = msum (grossed c) (working_orders_ r);
  inv_open : ∀ c symbol s,
    open_quantity r c symbol s = msum (opened c symbol s) (working_orders_ r);
  inv_position : ∀ c symbol, in_i64 (position r c symbol)
}.

(** ** Lemmas *)

Lemma client_for_set c cl r c' :
  client_for (set_client c cl r) c' = if decide (c = c') then cl else client_for r c'.
Proof.
  unfold client_for, set_client. simpl. destruct (decide (c = c')) as [->|].
  - by rewrite lookup_insert_eq.
  - by rewrite lookup_insert_ne.
Qed.

Lemma symbol_for_set symbol st cl symbol' :
  symbol_for (ClientState.set_symbol symbol st cl) symbol' =
  if decide (symbol = symbol') then st else symbol_for cl symbol'.
Proof.
  unfold symbol_for, ClientState.set_symbol. simpl. destruct (decide (symbol = symbol')) as [->|].
  - by rewrite lookup_insert_eq.
  - by rewrite lookup_insert_ne.
Qed.

Lemma open_set s q st s' :
  SymbolState.open_quantity s' (SymbolState.set_open_quantity s q st) =
  if decide (s = s') then q else SymbolState.open_quantity s' st.
Proof. by destruct s, s'. Qed.

Lemma position_set_open s q st :
  SymbolState.position (SymbolState.set_open_quantity s q st) = SymbolState.position st.
Proof. by destruct s. Qed.

Section sums.
Context (r : t) (Hinv : inv r).

Lemma sums_nonneg c symbol s :
  map_Forall (λ k w, 0 ≤ counted c k w) (working_orders_ r) ∧
  map_Forall (λ k w, 0 ≤ grossed c k w) (working_orders_ r) ∧
  map_Forall (λ k w, 0 ≤ opened c symbol s k w) (working_orders_ r).
Proof.
  split_and!; intros k w Hk; destruct (inv_typed _ Hinv _ _ Hk);
    unfold counted, grossed, opened; destruct (decide _); lia.
Qed.

(** No counter is near the bounds of its type. *)
Lemma sums_bounded c symbol s :
  0 ≤ open_orders r c ≤ gross r c ∧ gross r c ≤ room ∧
  0 ≤ open_quantity r c symbol s ≤ gross r c.
Proof.
  destruct (sums_nonneg c symbol s) as (H1 & H2 & H3). pose proof (inv_room _ Hinv c).
  rewrite (inv_orders _ Hinv), (inv_gross _ Hinv), (inv_open _ Hinv).
  apply msum_nonneg in H1 as H1', H2 as H2', H3 as H3'.
  assert (msum (counted c) (working_orders_ r) ≤ msum (grossed c) (working_orders_ r)).
  { apply msum_le. intros k w Hk. destruct (inv_typed _ Hinv _ _ Hk).
    unfold counted, grossed. destruct (decide _); lia. }
  assert (msum (opened c symbol s) (working_orders_ r) ≤ msum (grossed c) (working_orders_ r)).
  { apply msum_le. intros k w Hk. destruct (inv_typed _ Hinv _ _ Hk).
    unfold grossed, opened. repeat destruct (decide _); try lia; naive_solver. }
  lia.
Qed.

Lemma gross_size c : gross r c ≤ Z.of_nat (size (working_orders_ r)) * (2 ^ 32 - 1).
Proof.
  rewrite (inv_gross _ Hinv). apply msum_bound. intros k w Hk. destruct (inv_typed _ Hinv _ _ Hk).
  unfold grossed. destruct (decide _); lia.
Qed.

(** A working order is part of its client's counters. *)
Lemma working_order_counted k w :
  working_orders_ r !! k = Some w →
  let c := WorkingOrderKey.client_id k in
  0 < WorkingOrder.remaining_quantity w < 2 ^ 32 ∧ c ≠ invalid_risk_client_id ∧
  1 ≤ open_orders r c ∧ WorkingOrder.remaining_quantity w ≤ gross r c ∧
  WorkingOrder.remaining_quantity w ≤
    open_quantity r c (WorkingOrderKey.symbol k) (WorkingOrder.side w).
Proof.
  intros Hk c. destruct (inv_typed _ Hinv _ _ Hk).
  destruct (sums_nonneg c (WorkingOrderKey.symbol k) (WorkingOrder.side w)) as (H1 & H2 & H3).
  apply (msum_elem_le _ _ _ _ H1) in Hk as E1. apply (msum_elem_le _ _ _ _ H2) in Hk as E2.
  apply (msum_elem_le _ _ _ _ H3) in Hk as E3.
  rewrite (inv_orders _ Hinv), (inv_gross _ Hinv), (inv_open _ Hinv).
  unfold counted in E1 at 1. unfold grossed in E2 at 1. unfold opened in E3 at 1.
  rewrite decide_True in E1 by done. rewrite decide_True in E2 by done.
  rewrite decide_True in E3 by done. done.
Qed.

End sums.

(** ** The shape every event has

    One client changes: its counters by [dn] and [dg], one of its symbols by
    [dq] on side [s] and to a new position; the working orders change so that
    their sums change by the same amounts. *)

Definition moved (r : t) (m : gmap WorkingOrderKey.t WorkingOrder.t)
    (c : RiskClientId) (symbol : string) (s : Side) (dn dg dq : Z) : Prop :=
  (∀ c', msum (counted c') m =
    msum (counted c') (working_orders_ r) + if decide (c = c') then dn else 0) ∧
  (∀ c', msum (grossed c') m =
    msum (grossed c') (working_orders_ r) + if decide (c = c') then dg else 0) ∧
  (∀ c' symbol' s', msum (opened c' symbol' s') m =
    msum (opened c' symbol' s') (working_orders_ r) +
    if decide (c = c' ∧ symbol = symbol' ∧ s = s') then dq else 0).

Definition client_delta (r : t) (c : RiskClientId) (symbol : string) (s : Side)
    (dn dg dq p : Z) (cl : ClientState.t) : Prop :=
  ClientState.open_orders cl = open_orders r c + dn ∧
  ClientState.gross_open_quantity cl = gross r c + dg ∧
  (∀ symbol' s', SymbolState.open_quantity s' (symbol_for cl symbol') =
     open_quantity r c symbol' s' + if decide (symbol = symbol' ∧ s = s') then dq else 0) ∧
  (∀ symbol', SymbolState.position (symbol_for cl symbol') =
     if decide (symbol = symbol') then p else position r c symbol').

Lemma update_inv r m c symbol s dn dg dq p cl :
  inv r → moved r m c symbol s dn dg dq → client_delta r c symbol s dn dg dq p cl →
  in_i64 p →
  map_Forall (λ k w, WorkingOrderKey.client_id k ≠ invalid_risk_client_id ∧
      0 < WorkingOrder.remaining_quantity w < 2 ^ 32) m →
  gross r c + dg ≤ room →
  inv (set_working m (set_client c cl r)).
Proof.
  intros Hi (M1 & M2 & M3) (C1 & C2 & C3 & C4) Hp Ht Hroom.
  assert (∀ c', msum (grossed c') m ≤ room) as Hr.
  { intros c'. rewrite M2. destruct (decide (c = c')) as [<-|];
      [by rewrite <- (inv_gross _ Hi)|rewrite Z.add_0_r; apply (inv_room _ Hi)]. }
  clear Hroom. unfold open_orders, gross, open_quantity, position in *.
  split; [done|done| | | |]; intros c'; cbn [working_orders_ set_working];
    [rewrite M1, <- (inv_orders _ Hi)|rewrite M2, <- (inv_gross _ Hi)
    |intros symbol' s'; rewrite M3, <- (inv_open _ Hi)|intros symbol'];
    unfold open_orders, gross, open_quantity, position;
    change (client_for (set_working m (set_client c cl r)) c')
      with (client_for (set_client c cl r) c');
    rewrite client_for_set; destruct (decide (c = c')) as [<-|Hne].
  - lia.
  - lia.
  - lia.
  - lia.
  - rewrite C3. f_equal. repeat destruct (decide _); naive_solver.
  - rewrite decide_False by naive_solver. lia.
  - rewrite C4. destruct (decide _); [done|]. apply (inv_position _ Hi).
  - apply (inv_position _ Hi).
Qed.

(** What the event does to every counter and position. *)
Lemma update_views r m c symbol s dn dg dq p cl :
  client_delta r c symbol s dn dg dq p cl →
  let r' := set_working m (set_client c cl r) in
  (∀ c', open_orders r' c' = open_orders r c' + if decide (c = c') then dn else 0) ∧
  (∀ c', gross r' c' = gross r c' + if decide (c = c') then dg else 0) ∧
  (∀ c' symbol' s', open_quantity r' c' symbol' s' = open_quantity r c' symbol' s' +
     if decide (c = c' ∧ symbol = symbol' ∧ s = s') then dq else 0) ∧
  (∀ c' symbol', position r' c' symbol' =
     if decide (c = c' ∧ symbol = symbol') then p else position r c' symbol').
Proof.
  intros (C1 & C2 & C3 & C4) r'. unfold open_orders, gross, open_quantity, position in *.
  assert (∀ c', client_for r' c' = if decide (c = c') then cl else client_for r c') as Hc
    by (intros c'; apply client_for_set).
  split_and!; intros c'; rewrite Hc; destruct (decide (c = c')) as [<-|Hne].
  - done.
  - lia.
  - done.
  - lia.
  - intros symbol' s'. rewrite C3. repeat destruct (decide _); try lia; naive_solver.
  - intros. rewrite decide_False by naive_solver. lia.
  - intros symbol'. rewrite C4. repeat destruct (decide _); try done; naive_solver.
  - intros. by rewrite decide_False by naive_solver.
Qed.

(** The three changes of the working orders. *)
Lemma moved_insert r k w :
  working_orders_ r !! k = None →
  moved r (<[k := w]> (working_orders_ r)) (WorkingOrderKey.client_id k)
    (WorkingOrderKey.symbol k) (WorkingOrder.side w)
    1 (WorkingOrder.remaining_quantity w) (WorkingOrder.remaining_quantity w).
Proof.
  intros Hk. unfold moved. split_and!; intros; rewrite msum_insert by done;
    unfold counted, grossed, opened; lia.
Qed.

Lemma moved_delete r k w :
  working_orders_ r !! k = Some w →
  moved r (delete k (working_orders_ r)) (WorkingOrderKey.client_id k)
    (WorkingOrderKey.symbol k) (WorkingOrder.side w)
    (-1) (- WorkingOrder.remaining_quantity w) (- WorkingOrder.remaining_quantity w).
Proof.
  intros Hk. unfold moved. split_and!; intros; rewrite (msum_delete _ _ _ _ Hk);
    unfold counted, grossed, opened; destruct (decide _); lia.
Qed.

Lemma moved_reduce r k w q :
  working_orders_ r !! k = Some w →
  moved r (<[k := WorkingOrder.set_remaining_quantity (WorkingOrder.remaining_quantity w - q) w]>
             (working_orders_ r))
    (WorkingOrderKey.client_id k) (WorkingOrderKey.symbol k) (WorkingOrder.side w)
    0 (- q) (- q).
Proof.
  intros Hk. unfold moved. split_and!; intros; rewrite (msum_update _ _ _ _ _ Hk);
    unfold counted, grossed, opened; simpl; destruct (decide _); lia.
Qed.

Lemma saturating_add_exact a b : a + b < 2 ^ 64 → saturating_add a b = a + b.
Proof.
  intros. unfold saturating_add, uint64_max. rewrite Z.gtb_ltb.
  destruct (Z.ltb_spec (2 ^ 64 - 1 - a) b); lia.
Qed.

Lemma saturating_sub_exact a b : b ≤ a → saturating_sub a b = a - b.
Proof.
  intros. unfold saturating_sub. rewrite Z.geb_leb. by apply Z.leb_le in H as ->.
Qed.

(** ** The events *)

(** One event on a well-formed engine: the update above, with its deltas. *)
Definition event (r r' : t) (c : RiskClientId) (symbol : string) (s : Side)
    (dn dg dq p : Z) : Prop :=
  ∃ m cl, r' = set_working m (set_client c cl r) ∧
    moved r m c symbol s dn dg dq ∧ client_delta r c symbol s dn dg dq p cl.

Lemma set_symbol_delta r c symbol s dn dg dq p kill n g st :
  n = open_orders r c + dn → g = gross r c + dg →
  SymbolState.open_quantity s st = open_quantity r c symbol s + dq →
  SymbolState.open_quantity (opposite s) st = open_quantity r c symbol (opposite s) →
  SymbolState.position st = p →
  client_delta r c symbol s dn dg dq p
    (ClientState.mk kill n g (<[symbol := st]> (ClientState.symbols (client_for r c)))).
Proof.
  intros -> -> Hq Hq' Hp. unfold client_delta, open_quantity, position in *. simpl.
  split; [done|]. split; [done|]. split.
  - intros symbol' s'. unfold symbol_for at 1. simpl. destruct (decide (symbol = symbol')) as [<-|Hne].
    + rewrite lookup_insert_eq. simpl. destruct (decide (s = s')) as [<-|].
      * by rewrite decide_True by done.
      * rewrite decide_False by naive_solver. assert (s' = opposite s) as -> by (destruct s, s'; done).
        lia.
    + rewrite lookup_insert_ne, decide_False by naive_solver. unfold symbol_for. lia.
  - intros symbol'. unfold symbol_for at 1. simpl. destruct (decide (symbol = symbol')) as [<-|Hne].
    + by rewrite lookup_insert_eq.
    + by rewrite lookup_insert_ne.
Qed.

Lemma open_opposite s q st :
  SymbolState.open_quantity (opposite s) (SymbolState.set_open_quantity s q st) =
  SymbolState.open_quantity (opposite s) st.
Proof. by destruct s. Qed.
Lemma open_same s q st :
  SymbolState.open_quantity s (SymbolState.set_open_quantity s q st) = q.
Proof. by destruct s. Qed.

Lemma erase_event r k w :
  inv r → working_orders_ r !! k = Some w →
  let c := WorkingOrderKey.client_id k in
  let q := WorkingOrder.remaining_quantity w in
  let symbol := WorkingOrderKey.symbol k in
  event r (erase_working_order k r) c symbol (WorkingOrder.side w) (-1) (-q) (-q)
    (position r c symbol) ∧
  working_orders_ (erase_working_order k r) = delete k (working_orders_ r).
Proof.
  intros Hi Hk c q symbol.
  destruct (working_order_counted r Hi _ _ Hk) as (Hq & Hc & Hn & Hg & Ho).
  fold c q symbol in Hq, Hc, Hn, Hg, Ho.
  unfold erase_working_order. rewrite Hk. fold c symbol q.
  unfold event, open_orders, gross, open_quantity, position in *.
  assert (client_for r c = default ClientState.new (clients_ r !! c)) as Hcl by done.
  destruct (clients_ r !! c) as [cl|] eqn:Ecl; simpl in Hcl.
  2: { rewrite Hcl in Hn. simpl in Hn. lia. }
  rewrite Hcl in *. unfold symbol_for in Ho. simpl.
  destruct (ClientState.symbols cl !! symbol) as [st|] eqn:Est.
  2: { simpl in Ho. destruct (WorkingOrder.side w); simpl in Ho; lia. }
  simpl in Ho. split; [|done].
  eexists _, _. split; [reflexivity|]. split; [by apply moved_delete|].
  unfold ClientState.set_symbol. simpl. rewrite <- Hcl.
  apply set_symbol_delta; unfold open_orders, gross, open_quantity, position, symbol_for;
    rewrite Hcl, ?Est; simpl.
  - rewrite Z.gtb_ltb. destruct (Z.ltb_spec 0 (ClientState.open_orders cl)); lia.
  - rewrite saturating_sub_exact; lia.
  - rewrite open_same, saturating_sub_exact; lia.
  - apply open_opposite.
  - apply position_set_open.
Qed.

Lemma event_inv r r' c symbol s dn dg dq p :
  event r r' c symbol s dn dg dq p → inv r → in_i64 p →
  map_Forall (λ k w, WorkingOrderKey.client_id k ≠ invalid_risk_client_id ∧
      0 < WorkingOrder.remaining_quantity w < 2 ^ 32) (working_orders_ r') →
  gross r c + dg ≤ room → inv r'.
Proof. intros (m & cl & -> & Hm & Hc) Hi Hp Ht Hs. by eapply update_inv. Qed.

Lemma event_counters r r' c symbol s dn dg dq p :
  event r r' c symbol s dn dg dq p →
  ∀ c', open_orders r' c' = open_orders r c' + (if decide (c = c') then dn else 0) ∧
        gross r' c' = gross r c' + (if decide (c = c') then dg else 0).
Proof.
  intros (m & cl & -> & _ & Hc) c'.
  destruct (update_views r m c symbol s dn dg dq p cl Hc) as (H1 & H2 & _). by rewrite H1, H2.
Qed.

Lemma erase_inv r k : inv r → inv (erase_working_order k r).
Proof.
  intros Hi. destruct (working_orders_ r !! k) as [w|] eqn:Hk.
  - destruct (erase_event r k w Hi Hk) as [He Hw].
    destruct (working_order_counted r Hi _ _ Hk) as (Hq & _).
    eapply event_inv; [exact He|done|apply (inv_position _ Hi)| |].
    + rewrite Hw. apply map_Forall_delete, (inv_typed _ Hi).
    + destruct (sums_bounded r Hi (WorkingOrderKey.client_id k) "" Buy) as (_ & H & _). lia.
  - unfold erase_working_order. by rewrite Hk.
Qed.

Lemma erase_absent r k :
  inv r → working_orders_ (erase_working_order k r) = delete k (working_orders_ r).
Proof.
  intros Hi. destruct (working_orders_ r !! k) as [w|] eqn:Hk.
  - by destruct (erase_event r k w Hi Hk).
  - unfold erase_working_order. rewrite Hk. by rewrite delete_id.
Qed.

(** A new working order, its key not in use. *)
Lemma resting_event r c symbol order_id s price q :
  let k := WorkingOrderKey.mk c symbol order_id in
  inv r → working_orders_ r !! k = None →
  c ≠ invalid_risk_client_id → 0 < q < 2 ^ 32 →
  let r' := on_order_resting c symbol order_id s price q r in
  event r r' c symbol s 1 q q (position r c symbol) ∧
  working_orders_ r' = <[k := WorkingOrder.mk s price q]> (working_orders_ r).
Proof.
  intros k Hi Hk Hc Hq r'. subst r'. unfold on_order_resting.
  destruct (Z.eqb_spec c invalid_risk_client_id); [done|].
  destruct (Z.eqb_spec q 0); [lia|]. simpl. fold k.
  assert (erase_working_order k r = r) as -> by (unfold erase_working_order; by rewrite Hk).
  rewrite Hk. split; [|done]. eexists _, _. split; [reflexivity|].
  destruct (sums_bounded r Hi c symbol s) as (B1 & B2 & B3). unfold room in B2.
  split; [apply (moved_insert r k (WorkingOrder.mk s price q) Hk)|].
  unfold ClientState.set_symbol, ClientState.set_gross, ClientState.set_open_orders. simpl.
  unfold open_orders, gross, open_quantity in B1, B2, B3.
  apply set_symbol_delta; unfold open_orders, gross, open_quantity, position.
  - rewrite u64_id; [done|]. unfold in_u64. lia.
  - apply saturating_add_exact. lia.
  - rewrite open_same. apply saturating_add_exact. lia.
  - apply open_opposite.
  - apply position_set_open.
Qed.

Lemma resting_inv r c symbol order_id s price q :
  inv r → gross r c + q ≤ room → in_u32 q →
  inv (on_order_resting c symbol order_id s price q r).
Proof.
  intros Hi Hs Hq. set (k := WorkingOrderKey.mk c symbol order_id).
  destruct (Z.eq_dec c invalid_risk_client_id) as [->|Hc].
  { done. }
  destruct (Z.eq_dec q 0) as [->|Hq0].
  { unfold on_order_resting. by rewrite orb_true_r. }
  pose proof (erase_inv r k Hi) as Hi1. pose proof (erase_absent r k Hi) as Hw1.
  assert (on_order_resting c symbol order_id s price q r =
          on_order_resting c symbol order_id s price q (erase_working_order k r)) as ->.
  { unfold on_order_resting. fold k. destruct (_ || _) eqn:E.
    - apply orb_true_iff in E as [E|E]; apply Z.eqb_eq in E; done.
    - assert (erase_working_order k (erase_working_order k r) = erase_working_order k r) as ->; [|done].
      unfold erase_working_order at 1. by rewrite Hw1, lookup_delete_eq. }
  assert (gross (erase_working_order k r) c ≤ gross r c) as Hg.
  { destruct (working_orders_ r !! k) as [w|] eqn:Hk; [|unfold erase_working_order; by rewrite Hk].
    destruct (erase_event r k w Hi Hk) as [He _].
    destruct (event_counters _ _ _ _ _ _ _ _ _ He c) as [_ ->].
    destruct (inv_typed _ Hi _ _ Hk). destruct (decide _); lia. }
  destruct (resting_event (erase_working_order k r) c symbol order_id s price q) as [He Hw];
    [done|by rewrite Hw1, lookup_delete_eq|done|unfold in_u32 in Hq; lia|].
  eapply event_inv; [exact He|done|apply (inv_position _ Hi1)| |lia].
  rewrite Hw. apply map_Forall_insert_2; [|apply (inv_typed _ Hi1)]. simpl. unfold in_u32 in Hq. split; [done|lia].
Qed.

(* the position after [q] on side [s], at the bounds of std::int64_t *)
Definition moved_position (s : Side) (q p : Z) : Z :=
  match s with
  | Buy => Z.min (p + q) int64_max
  | Sell => Z.max (p - q) int64_min
  end.

Lemma apply_position_spec s q st :
  SymbolState.position (apply_position_delta s q st) = moved_position s q (SymbolState.position st) ∧
  ∀ s', SymbolState.open_quantity s' (apply_position_delta s q st) = SymbolState.open_quantity s' st.
Proof.
  unfold apply_position_delta, moved_position. split; [|by intros []]. simpl.
  destruct s; rewrite ?Z.gtb_ltb;
    match goal with |- context [?a <? ?b] => destruct (Z.ltb_spec a b) end; lia.
Qed.

Lemma moved_position_in s q p : in_i64 p → in_u32 q → in_i64 (moved_position s q p).
Proof. unfold in_i64, in_u32, moved_position, int64_max, int64_min. destruct s; lia. Qed.

Lemma moved_none r c symbol s : moved r (working_orders_ r) c symbol s 0 0 0.
Proof. unfold moved. split_and!; intros; destruct (decide _); lia. Qed.

(** A fill of [q] on side [s]: the position moves, and the working order, if
    there is one, shrinks by what it can. *)
Lemma fill_event r symbol c order_id s q :
  let k := WorkingOrderKey.mk c symbol order_id in
  let r' := on_fill symbol c order_id s q r in
  let p := moved_position s q (position r c symbol) in
  inv r → c ≠ invalid_risk_client_id → 0 < q < 2 ^ 32 →
  match working_orders_ r !! k with
  | None => event r r' c symbol s 0 0 0 p ∧ working_orders_ r' = working_orders_ r
  | Some w =>
      let red := Z.min (WorkingOrder.remaining_quantity w) q in
      let left := WorkingOrder.remaining_quantity w - red in
      event r r' c symbol (WorkingOrder.side w) (if left =? 0 then -1 else 0) (- red) (- red) p ∧
      working_orders_ r' =
        if left =? 0 then delete k (working_orders_ r)
        else <[k := WorkingOrder.set_remaining_quantity left w]> (working_orders_ r)
  end.
Proof.
  intros k r' p Hi Hc Hq. subst r'. unfold on_fill.
  destruct (Z.eqb_spec c invalid_risk_client_id); [done|].
  destruct (apply_position_spec s q (symbol_for (client_for r c) symbol)) as [Hp Ho].
  set (st := apply_position_delta s q (symbol_for (client_for r c) symbol)) in *.
  unfold reduce_working_order. fold k.
  change (working_orders_ (set_client c (ClientState.set_symbol symbol st (client_for r c)) r))
    with (working_orders_ r).
  destruct (working_orders_ r !! k) as [w|] eqn:Hk.
  - destruct (working_order_counted r Hi _ _ Hk) as (Hw & _ & Hn & Hg & Hop).
    change (WorkingOrderKey.client_id k) with c in *.
    change (WorkingOrderKey.symbol k) with symbol in *.
    set (red := Z.min (WorkingOrder.remaining_quantity w) q).
    rewrite client_for_set, decide_True, symbol_for_set, decide_True by done. simpl.
    rewrite u32_id by (unfold in_u32; lia).
    unfold open_orders, gross, open_quantity in Hn, Hg, Hop.
    assert (∀ n, client_delta r c symbol (WorkingOrder.side w)
      (n - ClientState.open_orders (client_for r c)) (- red) (- red) p
      (ClientState.mk (ClientState.kill_switch (client_for r c)) n
         (saturating_sub (ClientState.gross_open_quantity (client_for r c)) red)
         (<[symbol:=SymbolState.set_open_quantity (WorkingOrder.side w)
                      (saturating_sub (SymbolState.open_quantity (WorkingOrder.side w) st) red) st]>
            (ClientState.symbols (client_for r c))))) as Hcd.
    { intros n'. apply set_symbol_delta; unfold open_orders, gross, open_quantity.
      - lia.
      - rewrite saturating_sub_exact; lia.
      - rewrite open_same, Ho, saturating_sub_exact; lia.
      - by rewrite open_opposite, Ho.
      - by rewrite position_set_open. }
    assert (∀ m cl1 cl2 cl3, cl2 = cl3 →
      set_working m (set_client c cl2 (set_client c cl1 r)) = set_working m (set_client c cl3 r)) as Hss.
    { intros m cl1 cl2 ? <-. unfold set_working, set_client. simpl. by rewrite insert_insert_eq. }
    destruct (Z.eqb_spec (WorkingOrder.remaining_quantity w - red) 0) as [H0|H0].
    + split; [|done]. eexists _, _. split; [apply Hss; reflexivity|].
      replace red with (WorkingOrder.remaining_quantity w) in Hcd |- * by lia.
      split; [apply (moved_delete _ _ _ Hk)|].
      specialize (Hcd (ClientState.open_orders (client_for r c) - 1)).
      replace (ClientState.open_orders (client_for r c) - 1 - ClientState.open_orders (client_for r c))
        with (-1) in Hcd by lia.
      unfold ClientState.set_symbol, ClientState.set_gross, ClientState.set_open_orders. simpl.
      rewrite insert_insert_eq, Z.gtb_ltb. destruct (Z.ltb_spec 0 (ClientState.open_orders (client_for r c))); [done|lia].
    + split; [|done]. eexists _, _. split; [apply Hss; reflexivity|].
      split; [apply (moved_reduce _ _ _ red Hk)|].
      specialize (Hcd (ClientState.open_orders (client_for r c))). rewrite Z.sub_diag in Hcd.
      unfold ClientState.set_symbol, ClientState.set_gross. simpl. by rewrite insert_insert_eq.
  - split; [|done]. eexists (working_orders_ r), _. split; [reflexivity|].
    split; [apply moved_none|]. unfold ClientState.set_symbol.
    apply set_symbol_delta; unfold open_orders, gross, open_quantity; rewrite ?Ho; (lia || done).
Qed.

Lemma fill_inv r symbol c order_id s q :
  inv r → in_u32 q → q ≠ 0 → inv (on_fill symbol c order_id s q r).
Proof.
  intros Hi Hq Hq0. destruct (Z.eq_dec c invalid_risk_client_id) as [->|Hc]; [done|].
  assert (0 < q < 2 ^ 32) as Hqr by (unfold in_u32 in Hq; lia).
  pose proof (fill_event r symbol c order_id s q Hi Hc Hqr) as H.
  set (k := WorkingOrderKey.mk c symbol order_id) in *.
  assert (in_i64 (moved_position s q (position r c symbol))) as Hp
    by (apply moved_position_in; [apply (inv_position _ Hi)|done]).
  pose proof (inv_typed _ Hi) as Ht. destruct (sums_bounded r Hi c "" Buy) as (_ & Hroom & _).
  destruct (working_orders_ r !! k) as [w|] eqn:Hk; destruct H as [He Hw];
    (eapply event_inv; [exact He|done|done| |]); [rewrite Hw| |by rewrite Hw|lia].
  - destruct (Ht _ _ Hk) as [H1 H2]. destruct (Z.eqb_spec (WorkingOrder.remaining_quantity w -
      Z.min (WorkingOrder.remaining_quantity w) q) 0); [by apply map_Forall_delete|].
    apply map_Forall_insert_2; [|done]. simpl. split; [done|lia].
  - destruct (Ht _ _ Hk). lia.
Qed.

Lemma trade_inv r symbol buyer seller buy_id sell_id q :
  inv r → in_u32 q → inv (on_trade symbol buyer seller buy_id sell_id q r).
Proof.
  intros Hi Hq. unfold on_trade. destruct (Z.eqb_spec q 0); [done|].
  apply fill_inv; [|done|done]. by apply fill_inv.
Qed.

Lemma kill_inv r c enabled : inv r → inv (set_client_kill_switch c enabled r).
Proof.
  intros Hi. unfold set_client_kill_switch. destruct (c =? _); [done|].
  assert (∀ c', client_for (set_client c (ClientState.set_kill_switch enabled (client_for r c)) r) c' =
    if decide (c = c') then ClientState.set_kill_switch enabled (client_for r c) else client_for r c')
    as Hc by apply client_for_set.
  destruct Hi as [H1 H2 H3 H4 H5 H6]. unfold open_orders, gross, open_quantity, position in *.
  split; [done|done| | | |]; intros c';
    unfold open_orders, gross, open_quantity, position; rewrite ?Hc;
    destruct (decide (c = c')) as [<-|];
    first [apply H3|apply H4|apply H5|apply H6].
Qed.

Lemma engine_new_inv limits : inv (new limits).
Proof.
  split; try done; intros; unfold open_orders, gross, open_quantity, position, client_for, symbol_for;
    simpl; rewrite ?lookup_empty; simpl; rewrite ?lookup_empty; simpl; rewrite ?msum_empty; try done.
  by destruct s.
Qed.

(** ** What the checks decide *)

Definition signed (s : Side) (p : Z) : Z := match s with Buy => p | Sell => - p end.

(** What a client would hold on one side of a symbol if every working order of
    that side traded. *)
Definition exposure (r : t) (c : RiskClientId) (symbol : string) (s : Side) : Z :=
  signed s (position r c symbol) + open_quantity r c symbol s.

Record limits_typed (l : RiskLimits.t) : Prop := {
  order_quantity_typed : in_u32 (RiskLimits.max_order_quantity l);
  order_notional_typed : in_u64 (RiskLimits.max_order_notional l);
  open_orders_typed : in_u64 (RiskLimits.max_open_orders l);
  (* the sums saturate beyond this *)
  open_quantity_typed : 0 ≤ RiskLimits.max_open_quantity l ≤ room;
  (* a position limit beyond what a position can be is no limit *)
  position_typed : 0 ≤ RiskLimits.max_position_per_symbol l ≤ int64_max
}.

Definition request_typed (q : RiskOrderRequest.t) : Prop :=
  in_u32 (RiskOrderRequest.quantity q) ∧
  in_i64 (default (RiskOrderRequest.price q) (RiskOrderRequest.reference_price q)).

Lemma absolute_price_abs p : in_i64 p → absolute_price p = Z.abs p.
Proof.
  unfold in_i64, absolute_price, int64_min. intros H. destruct (Z.leb_spec 0 p); [lia|].
  destruct (Z.eqb_spec p (- 2 ^ 63)) as [->|]; [done|lia].
Qed.

Lemma absolute_position_abs p : in_i64 p → absolute_position p = Z.abs p.
Proof. apply absolute_price_abs. Qed.

(** The notional check divides instead of multiplying, so that nothing can
    overflow; it is the exact bound on price times quantity. *)
Lemma check_common_spec r client price quantity reference :
  in_u32 quantity → in_i64 (default price reference) → limits_typed (limits_ r) →
  RiskDecision.accepted (check_common_order_limits r client price quantity reference) = true ↔
  quantity ≤ RiskLimits.max_order_quantity (limits_ r) ∧
  Z.abs (default price reference) * quantity ≤ RiskLimits.max_order_notional (limits_ r).
Proof.
  intros Hq Hp Hl. unfold check_common_order_limits. rewrite absolute_price_abs by done.
  unfold in_u32 in Hq. pose proof (order_notional_typed _ Hl) as Hn. unfold in_u64 in Hn.
  rewrite !Z.gtb_ltb.
  destruct (Z.ltb_spec (RiskLimits.max_order_quantity (limits_ r)) quantity); simpl.
  { split; [done|lia]. }
  set (m := Z.abs (default price reference)). destruct (Z.eqb_spec m 0) as [->|Hm]; simpl.
  { split; [lia|done]. }
  assert (0 < m) by lia.
  destruct (Z.ltb_spec (RiskLimits.max_order_notional (limits_ r) / m) quantity) as [Hlt|Hle]; simpl.
  - split; [done|]. intros [_ Hle].
    assert (quantity ≤ RiskLimits.max_order_notional (limits_ r) / m); [|lia].
    by apply Z.div_le_lower_bound.
  - split; [|done]. intros _. split; [done|].
    pose proof (Z.mul_div_le (RiskLimits.max_order_notional (limits_ r)) m ltac:(lia)). nia.
Qed.

Lemma position_limit_spec r symbol_state side q ob os :
  limits_typed (limits_ r) → in_u32 q → 0 ≤ ob → 0 ≤ os → ob + q < 2 ^ 64 → os + q < 2 ^ 64 →
  let p := match symbol_state with None => 0 | Some st => SymbolState.position st end in
  in_i64 p →
  position_limit_exceeded r symbol_state side q ob os = false ↔
  signed side p + (match side with Buy => ob | Sell => os end) + q
    ≤ RiskLimits.max_position_per_symbol (limits_ r).
Proof.
  intros Hl Hq Hb Hs Hbq Hsq p Hp. unfold position_limit_exceeded. fold p.
  pose proof (position_typed _ Hl) as Hm. unfold int64_max, in_u32, in_i64 in *.
  rewrite (saturating_add_exact ob q), (saturating_add_exact os q) by done.
  rewrite absolute_position_abs by done.
  unfold signed. destruct side; rewrite Z.gtb_ltb, Z.ltb_ge.
  - destruct (Z.leb_spec 0 p).
    + unfold saturating_add, uint64_max. rewrite Z.gtb_ltb.
      destruct (Z.ltb_spec (2 ^ 64 - 1 - p) (ob + q)); lia.
    + rewrite Z.gtb_ltb. destruct (Z.ltb_spec (Z.abs p) (ob + q)); lia.
  - destruct (Z.leb_spec p 0).
    + unfold saturating_add, uint64_max. rewrite Z.gtb_ltb.
      destruct (Z.ltb_spec (2 ^ 64 - 1 - Z.abs p) (os + q)); lia.
    + rewrite Z.gtb_ltb. destruct (Z.ltb_spec p (os + q)); lia.
Qed.

(* the checks read optional records; the counters read the same with zeros *)
Lemma client_views r c symbol :
  kill_switched (find_client r c) = ClientState.kill_switch (client_for r c) ∧
  match find_client r c with None => 0 | Some cl => ClientState.open_orders cl end = open_orders r c ∧
  match find_client r c with None => 0 | Some cl => ClientState.gross_open_quantity cl end = gross r c ∧
  let st := match find_client r c with Some cl => find_symbol_state cl symbol | None => None end in
  match st with None => 0 | Some st => SymbolState.position st end = position r c symbol ∧
  match st with None => 0 | Some st => SymbolState.open_buy_quantity st end
    = open_quantity r c symbol Buy ∧
  match st with None => 0 | Some st => SymbolState.open_sell_quantity st end
    = open_quantity r c symbol Sell.
Proof.
  unfold kill_switched, open_orders, gross, position, open_quantity, client_for, find_client,
    find_symbol_state, symbol_for.
  destruct (clients_ r !! c) as [cl|]; simpl; [|done].
  by destruct (ClientState.symbols cl !! symbol).
Qed.

(** Everything a new order has to satisfy. *)
Definition within_limits (r : t) (q : RiskOrderRequest.t) : Prop :=
  let c := RiskOrderRequest.client_id q in
  let l := limits_ r in
  global_kill_switch_ r = false ∧ ClientState.kill_switch (client_for r c) = false ∧
  RiskOrderRequest.quantity q ≤ RiskLimits.max_order_quantity l ∧
  Z.abs (default (RiskOrderRequest.price q) (RiskOrderRequest.reference_price q)) *
    RiskOrderRequest.quantity q ≤ RiskLimits.max_order_notional l ∧
  exposure r c (RiskOrderRequest.symbol q) (RiskOrderRequest.side q) +
    RiskOrderRequest.quantity q ≤ RiskLimits.max_position_per_symbol l ∧
  (may_rest (RiskOrderRequest.order_type q) (RiskOrderRequest.time_in_force q) = true →
   open_orders r c < RiskLimits.max_open_orders l ∧
   gross r c + RiskOrderRequest.quantity q ≤ RiskLimits.max_open_quantity l).

Lemma check_new_order_accepted r q :
  inv r → limits_typed (limits_ r) → request_typed q →
  RiskDecision.accepted (check_new_order r q) = true ↔ within_limits r q.
Proof.
  intros Hi Hl [Hq Hp]. unfold check_new_order, within_limits.
  set (c := RiskOrderRequest.client_id q). set (symbol := RiskOrderRequest.symbol q).
  destruct (client_views r c symbol) as (-> & Ho & Hg & Hps & Hb & Hs).
  destruct (global_kill_switch_ r); [simpl; naive_solver|].
  destruct (ClientState.kill_switch (client_for r c)); [simpl; naive_solver|].
  pose proof (check_common_spec r (find_client r c) (RiskOrderRequest.price q)
    (RiskOrderRequest.quantity q) (RiskOrderRequest.reference_price q) Hq Hp Hl) as Hc.
  destruct (RiskDecision.accepted (check_common_order_limits _ _ _ _ _)) eqn:Ec; simpl;
    [|rewrite Ec; naive_solver].
  destruct (sums_bounded r Hi c symbol Buy) as (B1 & B2 & B3).
  destruct (sums_bounded r Hi c symbol Sell) as (_ & _ & B4). unfold room in B2.
  pose proof (inv_position _ Hi c symbol) as Hpos. pose proof Hq as Hq'. unfold in_u32 in Hq'.
  rewrite Hb, Hs, Ho, Hg.
  pose proof (position_limit_spec r
    (match find_client r c with Some cl => find_symbol_state cl symbol | None => None end)
    (RiskOrderRequest.side q) (RiskOrderRequest.quantity q)
    (open_quantity r c symbol Buy) (open_quantity r c symbol Sell) Hl ltac:(done)
    ltac:(lia) ltac:(lia) ltac:(lia) ltac:(lia)) as Hlim.
  cbn zeta in Hlim, Hps. rewrite Hps in Hlim. specialize (Hlim Hpos).
  replace (match RiskOrderRequest.side q with
           | Buy => open_quantity r c symbol Buy | Sell => open_quantity r c symbol Sell end)
    with (open_quantity r c symbol (RiskOrderRequest.side q)) in Hlim
    by (by destruct (RiskOrderRequest.side q)).
  unfold exposure. rewrite <- Hlim. rewrite saturating_add_exact by lia.
  destruct (position_limit_exceeded _ _ _ _ _ _); [simpl; naive_solver|].
  destruct (may_rest _ _); [|simpl; naive_solver].
  rewrite Z.geb_leb, Z.gtb_ltb.
  destruct (Z.leb_spec (RiskLimits.max_open_orders (limits_ r)) (open_orders r c)); simpl;
    [split; [done|intros (_ & _ & _ & _ & _ & H'); specialize (H' eq_refl); lia]|].
  destruct (Z.ltb_spec (RiskLimits.max_open_quantity (limits_ r))
              (gross r c + RiskOrderRequest.quantity q)); simpl.
  - split; [done|]. intros (_ & _ & _ & _ & _ & H'). specialize (H' eq_refl). lia.
  - split; [|done]. intros _. split_and!; [done|done|tauto|tauto|done|]. intros _. lia.
Qed.

(** Everything a replacement has to satisfy: the limits, with the order it
    replaces taken out of the counters. *)
Definition replace_within_limits (r : t) (c : RiskClientId) (symbol : string)
    (w : WorkingOrder.t) (price : Price) (q : Quantity) : Prop :=
  let l := limits_ r in
  global_kill_switch_ r = false ∧ ClientState.kill_switch (client_for r c) = false ∧
  q ≤ RiskLimits.max_order_quantity l ∧
  Z.abs price * q ≤ RiskLimits.max_order_notional l ∧
  open_orders r c ≤ RiskLimits.max_open_orders l ∧
  gross r c - WorkingOrder.remaining_quantity w + q ≤ RiskLimits.max_open_quantity l ∧
  exposure r c symbol (WorkingOrder.side w) - WorkingOrder.remaining_quantity w + q
    ≤ RiskLimits.max_position_per_symbol l.

Lemma exceeded_decision (b : bool) (P : Prop) :
  (b = false ↔ P) →
  RiskDecision.accepted (if b then reject MaxPosition else accept) = true ↔ P.
Proof. destruct b; simpl; naive_solver. Qed.

Lemma check_replace_accepted r c symbol order_id price q :
  inv r → limits_typed (limits_ r) → in_u32 q → in_i64 price →
  RiskDecision.accepted (check_replace r c symbol order_id price q) = true ↔
  ∃ w, working_orders_ r !! WorkingOrderKey.mk c symbol order_id = Some w ∧
    replace_within_limits r c symbol w price q.
Proof.
  intros Hi Hl Hq Hp. unfold check_replace, replace_within_limits.
  destruct (client_views r c symbol) as (-> & Ho & Hg & Hps & Hb & Hs).
  destruct (global_kill_switch_ r); [simpl; naive_solver|].
  destruct (ClientState.kill_switch (client_for r c)) eqn:Ek; [simpl; naive_solver|].
  destruct (working_orders_ r !! WorkingOrderKey.mk c symbol order_id) as [w|] eqn:Hw;
    [|simpl; naive_solver].
  transitivity (q ≤ RiskLimits.max_order_quantity (limits_ r) ∧
    Z.abs price * q ≤ RiskLimits.max_order_notional (limits_ r) ∧
    open_orders r c ≤ RiskLimits.max_open_orders (limits_ r) ∧
    gross r c - WorkingOrder.remaining_quantity w + q ≤ RiskLimits.max_open_quantity (limits_ r) ∧
    exposure r c symbol (WorkingOrder.side w) - WorkingOrder.remaining_quantity w + q
      ≤ RiskLimits.max_position_per_symbol (limits_ r)); [|naive_solver].
  pose proof (check_common_spec r (find_client r c) price q None Hq Hp Hl) as Hc. simpl in Hc.
  destruct (RiskDecision.accepted (check_common_order_limits _ _ _ _ _)) eqn:Ec; cbn [negb];
    [|rewrite Ec; naive_solver].
  destruct (working_order_counted r Hi _ _ Hw) as (W1 & W2 & W3 & W4 & W5). simpl in W2, W3, W4, W5.
  destruct (sums_bounded r Hi c symbol Buy) as (B1 & B2 & B3).
  destruct (sums_bounded r Hi c symbol Sell) as (_ & _ & B4). unfold room in B2.
  pose proof (inv_position _ Hi c symbol) as Hpos. pose proof Hq as Hq'. unfold in_u32 in Hq'.
  destruct (find_client r c) as [cl|] eqn:Ecl; [|simpl in *; lia].
  rewrite Ho, Hg. rewrite !Z.gtb_ltb.
  destruct (Z.ltb_spec (RiskLimits.max_open_orders (limits_ r)) (open_orders r c)); simpl;
    [split; [done|lia]|].
  rewrite saturating_sub_exact, saturating_add_exact by lia.
  destruct (Z.ltb_spec (RiskLimits.max_open_quantity (limits_ r))
    (gross r c - WorkingOrder.remaining_quantity w + q)); simpl; [split; [done|lia]|].
  cbn beta zeta iota in Hps, Hb, Hs.
  unfold exposure. destruct (find_symbol_state cl symbol) as [st|] eqn:Est.
  2: { destruct (WorkingOrder.side w); lia. }
  rewrite Hb, Hs.
  pose proof (λ ob os, position_limit_spec r (Some st) (WorkingOrder.side w) q ob os Hl Hq) as Hlim.
  rewrite <- Hps in Hpos |- *.
  destruct (WorkingOrder.side w) eqn:Ews; rewrite saturating_sub_exact by lia.
  - specialize (Hlim (open_quantity r c symbol Buy - WorkingOrder.remaining_quantity w)
      (open_quantity r c symbol Sell) ltac:(lia) ltac:(lia) ltac:(lia) ltac:(lia) Hpos). simpl in *.
    apply exceeded_decision. rewrite Hlim. lia.
  - specialize (Hlim (open_quantity r c symbol Buy)
      (open_quantity r c symbol Sell - WorkingOrder.remaining_quantity w)
      ltac:(lia) ltac:(lia) ltac:(lia) ltac:(lia) Hpos). simpl in *.
    apply exceeded_decision. rewrite Hlim. lia.
Qed.

(** C12. The pre-trade checks are exact.  A new order is accepted if and only if
    no kill switch is on, its quantity and its notional are within their
    limits, the position it could lead to with every working order of its side
    is, and (when it may rest) the client has room for one more open order of
    that quantity.  Only a working order of the client can be replaced, and its
    replacement is accepted if and only if the limits hold with the order it
    replaces taken out of the client's exposures.  Neither saturation nor
    integer division changes a decision. *)
Theorem checks_exact r :
  inv r → limits_typed (limits_ r) →
  (∀ q, request_typed q → RiskDecision.accepted (check_new_order r q) = true ↔ within_limits r q) ∧
  (∀ c symbol order_id price q, in_u32 q → in_i64 price →
   RiskDecision.accepted (check_replace r c symbol order_id price q) = true ↔
   ∃ w, working_orders_ r !! WorkingOrderKey.mk c symbol order_id = Some w ∧
     replace_within_limits r c symbol w price q).
Proof.
  intros Hi Hl. split.
  - intros q Hq. by apply check_new_order_accepted.
  - intros c symbol order_id price q Hq Hp. by apply check_replace_accepted.
Qed.

(** ** The counters over a whole session *)

Inductive risk_op : Type :=
  | Resting (c : RiskClientId) (symbol : string) (order_id : OrderId) (s : Side)
      (price : Price) (remaining : Quantity)
  | Cancelled (c : RiskClientId) (symbol : string) (order_id : OrderId)
  | Traded (symbol : string) (buyer seller : RiskClientId) (buy_id sell_id : OrderId)
      (quantity : Quantity)
  | SetGlobalKillSwitch (enabled : bool)
  | SetClientKillSwitch (c : RiskClientId) (enabled : bool).

Definition risk_step (op : risk_op) : t → t :=
  match op with
  | Resting c symbol order_id s price q => on_order_resting c symbol order_id s price q
  | Cancelled c symbol order_id => on_order_cancelled c symbol order_id
  | Traded symbol b s bi si q => on_trade symbol b s bi si q
  | SetGlobalKillSwitch e => set_global_kill_switch e
  | SetClientKillSwitch c e => set_client_kill_switch c e
  end.

Definition risk_op_typed (op : risk_op) : Prop :=
  match op with
  | Resting _ _ _ _ _ q => in_u32 q
  | Traded _ _ _ _ _ q => in_u32 q
  | _ => True
  end.

(** The engines a program can build; the only bound is that fewer than 2^32
    orders work at once. *)
Inductive reachable (l : RiskLimits.t) : t → Prop :=
  | reachable_new : reachable l (new l)
  | reachable_step r op :
      reachable l r → risk_op_typed op →
      Z.of_nat (size (working_orders_ r)) + 1 < 2 ^ 32 →
      reachable l (risk_step op r).

Lemma cancelled_inv r c symbol order_id : inv r → inv (on_order_cancelled c symbol order_id r).
Proof. intros Hi. unfold on_order_cancelled. destruct (_ =? _); [done|by apply erase_inv]. Qed.

Lemma global_kill_inv r e : inv r → inv (set_global_kill_switch e r).
Proof. by intros [H1 H2 H3 H4 H5 H6]. Qed.

Lemma reachable_inv l r : reachable l r → inv r.
Proof.
  induction 1 as [|r op _ IH Ht Hs]; [apply engine_new_inv|].
  destruct op; simpl in *; auto using cancelled_inv, trade_inv, global_kill_inv, kill_inv.
  pose proof (gross_size r IH c). unfold in_u32 in Ht. apply resting_inv; [done|unfold room; nia|done].
Qed.

(** The counters never drift.  After any sequence of order, trade, cancel
    and kill-switch events, the open orders, the gross open quantity and the
    per-symbol open buy and sell quantities a snapshot reports are exactly the
    sums over the client's working orders. *)
Theorem snapshot_exact l r c symbol :
  reachable l r →
  snapshot r c symbol =
    ClientRiskSnapshot.mk (global_kill_switch_ r) (ClientState.kill_switch (client_for r c))
      (position r c symbol)
      (msum (opened c symbol Buy) (working_orders_ r))
      (msum (opened c symbol Sell) (working_orders_ r))
      (msum (counted c) (working_orders_ r))
      (msum (grossed c) (working_orders_ r)).
Proof.
  intros Hi%reachable_inv.
  rewrite <- !(inv_open _ Hi), <- (inv_orders _ Hi), <- (inv_gross _ Hi).
  unfold snapshot, open_orders, gross, open_quantity, position, client_for, find_client,
    find_symbol_state, symbol_for.
  destruct (clients_ r !! c) as [cl|]; simpl; [|done].
  by destruct (ClientState.symbols cl !! symbol).
Qed.

(** ** Positions never pass their limit

    The life of an order as the server drives the engine: the check, then the
    trades it makes at once against working orders of the other side, then
    the remainder that rests. *)

(* one trade of the incoming order: the counterparty, its order, the quantity *)
Definition counter_fill : Type := RiskClientId * OrderId * Quantity.

Definition aggress (symbol : string) (c : RiskClientId) (order_id : OrderId) (s : Side)
    (f : counter_fill) (r : t) : t :=
  let '(d, resting_id, q) := f in
  match s with
  | Buy => on_trade symbol c d order_id resting_id q r
  | Sell => on_trade symbol d c resting_id order_id q r
  end.

(* the trade takes no more than a working order of the other side has, unless
   it is with an order that belongs to nobody, as a recovered order does *)
Definition fillable (symbol : string) (s : Side) (f : counter_fill) (r : t) : Prop :=
  let '(d, resting_id, q) := f in
  0 < q < 2 ^ 32 ∧
  (d = invalid_risk_client_id ∨
   ∃ w, working_orders_ r !! WorkingOrderKey.mk d symbol resting_id = Some w ∧
     WorkingOrder.side w = opposite s ∧ q ≤ WorkingOrder.remaining_quantity w).

Inductive fills (symbol : string) (c : RiskClientId) (order_id : OrderId) (s : Side)
    : t → Quantity → t → Prop :=
  | fills_done r : fills symbol c order_id s r 0 r
  | fills_next r f total r' :
      fillable symbol s f r →
      fills symbol c order_id s (aggress symbol c order_id s f r) total r' →
      fills symbol c order_id s r (f.2 + total) r'.

Inductive checked (l : RiskLimits.t) : t → Prop :=
  | checked_new : checked l (new l)
  | checked_order r req total rest r' :
      let c := RiskOrderRequest.client_id req in
      let symbol := RiskOrderRequest.symbol req in
      let order_id := RiskOrderRequest.order_id req in
      let s := RiskOrderRequest.side req in
      checked l r → request_typed req →
      RiskDecision.accepted (check_new_order r req) = true →
      working_orders_ r !! WorkingOrderKey.mk c symbol order_id = None →
      fills symbol c order_id s r total r' →
      0 ≤ rest → total + rest ≤ RiskOrderRequest.quantity req →
      (0 < rest → may_rest (RiskOrderRequest.order_type req) (RiskOrderRequest.time_in_force req) = true) →
      checked l (on_order_resting c symbol order_id s (RiskOrderRequest.price req) rest r')
  | checked_replace r c symbol order_id w price q total rest r' :
      let s := WorkingOrder.side w in
      checked l r → in_u32 q → in_i64 price → c ≠ invalid_risk_client_id →
      RiskDecision.accepted (check_replace r c symbol order_id price q) = true →
      working_orders_ r !! WorkingOrderKey.mk c symbol order_id = Some w →
      fills symbol c order_id s (on_order_cancelled c symbol order_id r) total r' →
      0 ≤ rest → total + rest ≤ q →
      checked l (on_order_resting c symbol order_id s price rest r')
  | checked_cancel r c symbol order_id :
      checked l r → checked l (on_order_cancelled c symbol order_id r)
  | checked_global r e : checked l r → checked l (set_global_kill_switch e r)
  | checked_client r c e : checked l r → checked l (set_client_kill_switch c e r).

Definition same (c c' : RiskClientId) (symbol symbol' : string) (s s' : Side) : bool :=
  bool_decide (c = c' ∧ symbol = symbol' ∧ s = s').

Lemma event_views r r' c symbol s dn dg dq p :
  event r r' c symbol s dn dg dq p →
  (∀ c' symbol' s', open_quantity r' c' symbol' s' = open_quantity r c' symbol' s' +
     if decide (c = c' ∧ symbol = symbol' ∧ s = s') then dq else 0) ∧
  (∀ c' symbol', position r' c' symbol' =
     if decide (c = c' ∧ symbol = symbol') then p else position r c' symbol').
Proof.
  intros (m & cl & -> & Hm & Hc).
  destruct (update_views r m c symbol s dn dg dq p cl Hc) as (_ & _ & H1 & H2). by split.
Qed.

(** An event that leaves the position alone moves one exposure by [dq]. *)
Lemma event_exposure r r' c symbol s dn dg dq :
  event r r' c symbol s dn dg dq (position r c symbol) →
  ∀ c' symbol' s', exposure r' c' symbol' s' = exposure r c' symbol' s' +
    if same c c' symbol symbol' s s' then dq else 0.
Proof.
  intros He c' symbol' s'. destruct (event_views _ _ _ _ _ _ _ _ _ He) as [Ho Hp].
  unfold exposure, same. rewrite Ho, Hp.
  destruct (decide (c = c' ∧ symbol = symbol')) as [[<- <-]|];
    repeat case_bool_decide; repeat destruct (decide _); try lia; naive_solver.
Qed.

Lemma side_cases s s' : s' = s ∨ s' = opposite s.
Proof. destruct s, s'; simpl; auto. Qed.

Lemma signed_moved s q p :
  0 ≤ q → signed s p + q ≤ int64_max →
  signed s (moved_position s q p) = signed s p + q.
Proof. unfold signed, moved_position, int64_max, int64_min. destruct s; lia. Qed.

(** One side of a trade. *)
Lemma fill_exposure r symbol c order_id s q :
  let k := WorkingOrderKey.mk c symbol order_id in
  let r' := on_fill symbol c order_id s q r in
  inv r → c ≠ invalid_risk_client_id → 0 < q < 2 ^ 32 →
  signed s (position r c symbol) + q ≤ int64_max →
  match working_orders_ r !! k with
  | Some w => WorkingOrder.side w = s ∧ q ≤ WorkingOrder.remaining_quantity w
  | None => True
  end →
  (∀ c' symbol' s', exposure r' c' symbol' s' ≤ exposure r c' symbol' s' +
    if same c c' symbol symbol' s s' && bool_decide (working_orders_ r !! k = None)
    then q else 0) ∧
  ∀ k', k' ≠ k → working_orders_ r' !! k' = working_orders_ r !! k'.
Proof.
  intros k r' Hi Hc Hq Hov Hw. pose proof (fill_event r symbol c order_id s q Hi Hc Hq) as He.
  cbn zeta in He. fold k r' in He. pose proof (signed_moved s q _ ltac:(lia) Hov) as Hsg.
  destruct (working_orders_ r !! k) as [w|] eqn:Hk.
  - destruct Hw as [<- Hle]. rewrite Z.min_r in He by done. destruct He as [He Hwo]. split.
    + intros c' symbol' s'. destruct (event_views _ _ _ _ _ _ _ _ _ He) as [Ho Hp].
      unfold exposure, same. rewrite Ho, Hp, (bool_decide_eq_false_2 (Some w = None)), andb_false_r by done.
      destruct (decide (c = c' ∧ symbol = symbol')) as [[<- <-]|Hne];
        [|rewrite decide_False by tauto; lia].
      destruct (side_cases (WorkingOrder.side w) s') as [->| ->].
      * rewrite decide_True by done. lia.
      * rewrite decide_False by (intros (_ & _ & H); by destruct (WorkingOrder.side w)).
        destruct (WorkingOrder.side w); simpl in *; lia.
    + intros k' Hne. rewrite Hwo. destruct (_ =? 0); [by rewrite lookup_delete_ne|by rewrite lookup_insert_ne].
  - destruct He as [He Hwo]. split; [|intros k' _; by rewrite Hwo].
    intros c' symbol' s'. destruct (event_views _ _ _ _ _ _ _ _ _ He) as [Ho Hp].
    unfold exposure, same. rewrite Ho, Hp, (bool_decide_eq_true_2 (None = None)), andb_true_r by done.
    destruct (decide (c = c' ∧ symbol = symbol')) as [[<- <-]|Hne];
      [|rewrite decide_False by tauto; destruct (bool_decide _); lia].
    destruct (side_cases s s') as [->| ->].
    + rewrite bool_decide_eq_true_2 by done. destruct (decide _); lia.
    + rewrite bool_decide_eq_false_2 by (intros (_ & _ & H); by destruct s).
      destruct (decide _), s; simpl in *; lia.
Qed.

(** The two halves of a trade, each with room for the quantity. *)
Lemma aggressor_fill M r symbol c order_id s q :
  inv r → M ≤ int64_max → 0 < q < 2 ^ 32 →
  working_orders_ r !! WorkingOrderKey.mk c symbol order_id = None →
  exposure r c symbol s + q ≤ M →
  let r' := on_fill symbol c order_id s q r in
  inv r' ∧ working_orders_ r' = working_orders_ r ∧
  ∀ c' symbol' s', exposure r' c' symbol' s' ≤ exposure r c' symbol' s' +
    if same c c' symbol symbol' s s' then q else 0.
Proof.
  intros Hi HM Hq Hk Hroom r'. destruct (Z.eq_dec c invalid_risk_client_id) as [->|Hc].
  { split; [done|]. split; [done|]. intros. change r' with r. destruct (same _ _ _ _ _ _); lia. }
  destruct (sums_bounded r Hi c symbol s) as (_ & _ & Hb). unfold exposure in Hroom.
  destruct (fill_exposure r symbol c order_id s q Hi Hc Hq) as [He _]; [lia|by rewrite Hk|].
  pose proof (fill_event r symbol c order_id s q Hi Hc Hq) as Hev. cbn zeta in Hev.
  rewrite Hk in He, Hev.
  split; [apply fill_inv; [done|unfold in_u32; lia|lia]|]. split; [by destruct Hev|].
  intros c' symbol' s'. specialize (He c' symbol' s').
  rewrite (bool_decide_eq_true_2 (None = None)), andb_true_r in He by done. done.
Qed.

Lemma passive_fill M r symbol d order_id s q w :
  inv r → M ≤ int64_max → 0 < q < 2 ^ 32 →
  d = invalid_risk_client_id ∨
  (working_orders_ r !! WorkingOrderKey.mk d symbol order_id = Some w ∧
   WorkingOrder.side w = s ∧ q ≤ WorkingOrder.remaining_quantity w) →
  exposure r d symbol s ≤ M →
  let r' := on_fill symbol d order_id s q r in
  inv r' ∧ (∀ k', working_orders_ r !! k' = None → working_orders_ r' !! k' = None) ∧
  ∀ c' symbol' s', exposure r' c' symbol' s' ≤ exposure r c' symbol' s'.
Proof.
  intros Hi HM Hq [->|(Hk & Hs & Hle)] Hroom r'; [done|].
  destruct (working_order_counted r Hi _ _ Hk) as (_ & Hd & _ & _ & Hop). simpl in Hd, Hop.
  rewrite Hs in Hop. unfold exposure in Hroom.
  destruct (fill_exposure r symbol d order_id s q Hi Hd Hq) as [He Hw]; [lia|by rewrite Hk|].
  rewrite Hk in He. split; [apply fill_inv; [done|unfold in_u32; lia|lia]|].
  split; [intros k' Hk'; rewrite Hw; [done|congruence]|].
  intros c' symbol' s'. specialize (He c' symbol' s').
  rewrite (bool_decide_eq_false_2 (Some w = None)), andb_false_r in He by done.
  rewrite Z.add_0_r in He. done.
Qed.

Lemma aggress_exposure M r symbol c order_id s f :
  inv r → M ≤ int64_max →
  working_orders_ r !! WorkingOrderKey.mk c symbol order_id = None →
  fillable symbol s f r →
  exposure r c symbol s + f.2 ≤ M →
  (∀ c' symbol' s', exposure r c' symbol' s' ≤ M) →
  let r' := aggress symbol c order_id s f r in
  inv r' ∧ working_orders_ r' !! WorkingOrderKey.mk c symbol order_id = None ∧
  ∀ c' symbol' s', exposure r' c' symbol' s' ≤ exposure r c' symbol' s' +
    if same c c' symbol symbol' s s' then f.2 else 0.
Proof.
  destruct f as [[d rid] q]. intros Hi HM Hk (Hq & Hpassive) Hroom Hall.
  assert (∃ w, d = invalid_risk_client_id ∨
    (working_orders_ r !! WorkingOrderKey.mk d symbol rid = Some w ∧
     WorkingOrder.side w = opposite s ∧ q ≤ WorkingOrder.remaining_quantity w)) as [w Hw].
  { destruct Hpassive as [->|[w ?]]; [exists (WorkingOrder.mk s 0 0); by left|exists w; by right]. }
  unfold aggress, on_trade. simpl in Hroom |- *. destruct (Z.eqb_spec q 0); [lia|]. destruct s; simpl in Hw.
  - destruct (aggressor_fill M r symbol c order_id Buy q Hi HM Hq Hk Hroom) as (Hi1 & Hw1 & He1).
    set (r1 := on_fill symbol c order_id Buy q r) in *. rewrite <- Hw1 in Hw.
    destruct (passive_fill M r1 symbol d rid Sell q w Hi1 HM Hq Hw) as (Hi2 & Hw2 & He2).
    + specialize (He1 d symbol Sell). specialize (Hall d symbol Sell). unfold same in He1.
      rewrite bool_decide_eq_false_2 in He1 by naive_solver. lia.
    + split_and!; [done|apply Hw2; by rewrite Hw1|]. intros c' symbol' s'.
      specialize (He1 c' symbol' s'). specialize (He2 c' symbol' s'). lia.
  - destruct (passive_fill M r symbol d rid Buy q w Hi HM Hq Hw) as (Hi1 & Hw1 & He1); [apply Hall|].
    set (r1 := on_fill symbol d rid Buy q r) in *.
    destruct (aggressor_fill M r1 symbol c order_id Sell q Hi1 HM Hq) as (Hi2 & Hw2 & He2);
      [by apply Hw1|specialize (He1 c symbol Sell); lia|].
    split_and!; [done|rewrite Hw2; by apply Hw1|]. intros c' symbol' s'.
    specialize (He1 c' symbol' s'). specialize (He2 c' symbol' s'). lia.
Qed.

(** A fill takes from the counters of a client, never adds to them. *)
Definition smaller (r r' : t) : Prop :=
  ∀ c, open_orders r' c ≤ open_orders r c ∧ gross r' c ≤ gross r c.

#[export] Instance smaller_preorder : PreOrder smaller.
Proof. split; [by intros r c|]. intros r1 r2 r3 H1 H2 c. specialize (H1 c). specialize (H2 c). lia. Qed.

Lemma fill_smaller r symbol c order_id s q :
  inv r → 0 < q < 2 ^ 32 → smaller r (on_fill symbol c order_id s q r).
Proof.
  intros Hi Hq. destruct (Z.eq_dec c invalid_risk_client_id) as [->|Hc]; [done|].
  pose proof (fill_event r symbol c order_id s q Hi Hc Hq) as H. cbn zeta in H. intros c'.
  destruct (working_orders_ r !! _) as [w|] eqn:Hk; destruct H as [He _];
    destruct (event_counters _ _ _ _ _ _ _ _ _ He c') as [-> ->].
  - destruct (inv_typed _ Hi _ _ Hk). destruct (decide _), (_ =? 0); lia.
  - destruct (decide _); lia.
Qed.

Lemma aggress_smaller r symbol c order_id s f :
  inv r → fillable symbol s f r → smaller r (aggress symbol c order_id s f r).
Proof.
  destruct f as [[d rid] q]. intros Hi [Hq _]. unfold aggress, on_trade.
  assert (in_u32 q) by (unfold in_u32; lia).
  destruct s, (Z.eqb_spec q 0); try lia;
    (etrans; [by apply fill_smaller|]; apply fill_smaller; [by apply fill_inv|done]).
Qed.

(** The invariant behind the theorem: no exposure passes the limit, and the
    incoming order keeps [pending] in reserve. *)
Definition bounded (M : Z) (r : t) (c : RiskClientId) (symbol : string) (s : Side)
    (pending : Z) : Prop :=
  ∀ c' symbol' s', exposure r c' symbol' s' +
    (if same c c' symbol symbol' s s' then pending else 0) ≤ M.

Lemma same_refl c symbol s : same c c symbol symbol s s = true.
Proof. unfold same. by rewrite bool_decide_eq_true_2. Qed.

Lemma bounded_weaken M r c symbol s p p' : bounded M r c symbol s p → p' ≤ p → bounded M r c symbol s p'.
Proof. intros Hb Hp c' symbol' s'. specialize (Hb c' symbol' s'). destruct (same _ _ _ _ _ _); lia. Qed.

Lemma fills_nonneg symbol c order_id s r total r' :
  fills symbol c order_id s r total r' → 0 ≤ total.
Proof. induction 1 as [|r [[? ?] q] total r' [? _] _ IH]; simpl; lia. Qed.

Lemma fills_bounded M symbol c order_id s r total r' pending :
  fills symbol c order_id s r total r' →
  M ≤ int64_max → inv r →
  working_orders_ r !! WorkingOrderKey.mk c symbol order_id = None →
  total ≤ pending → bounded M r c symbol s pending →
  inv r' ∧ working_orders_ r' !! WorkingOrderKey.mk c symbol order_id = None ∧ smaller r r' ∧
  bounded M r' c symbol s (pending - total).
Proof.
  intros Hf HM. revert pending. induction Hf as [r|r f total r' Hfa Hf IH]; intros pending Hi Hk Hp Hb.
  { by rewrite Z.sub_0_r. }
  assert (0 < f.2) as Hpos by (destruct f as [[??]?]; destruct Hfa; simpl; lia).
  assert (0 ≤ total) as Htot.
  { by eapply fills_nonneg. }
  pose proof (aggress_smaller r symbol c order_id s f Hi Hfa) as Hsm.
  destruct (aggress_exposure M r symbol c order_id s f Hi HM Hk Hfa) as (Hi1 & Hk1 & He).
  - specialize (Hb c symbol s). rewrite same_refl in Hb. lia.
  - intros c' symbol' s'. specialize (Hb c' symbol' s'). destruct (same _ _ _ _ _ _); lia.
  - rewrite Z.sub_add_distr.
    destruct (IH (pending - f.2) Hi1 Hk1) as (H1 & H2 & H3 & H4);
      [lia| |split_and!; [done|done|by etrans|done]].
    intros c' symbol' s'. specialize (Hb c' symbol' s'). specialize (He c' symbol' s').
    destruct (same _ _ _ _ _ _); lia.
Qed.

Lemma resting_bounded M r c symbol order_id s price q :
  inv r → working_orders_ r !! WorkingOrderKey.mk c symbol order_id = None →
  0 ≤ q < 2 ^ 32 → bounded M r c symbol s q →
  let r' := on_order_resting c symbol order_id s price q r in
  bounded M r' c symbol s 0 ∧
  ∀ c', open_orders r' c' ≤ open_orders r c' + (if decide (c = c' ∧ 0 < q) then 1 else 0) ∧
        gross r' c' ≤ gross r c' + (if decide (c = c') then q else 0).
Proof.
  intros Hi Hk Hq Hb r'.
  destruct (decide (c = invalid_risk_client_id ∨ q = 0)) as [Hno|Hyes].
  { assert (r' = r) as Hr.
    { subst r'. unfold on_order_resting. destruct Hno as [-> | ->]; [done|by rewrite orb_true_r]. }
    rewrite Hr. split; [apply (bounded_weaken _ _ _ _ _ q); [done|lia]|].
    intros c'. repeat destruct (decide _); lia. }
  destruct (resting_event r c symbol order_id s price q Hi Hk) as [He _]; [tauto|lia|]. split.
  - intros c' symbol' s'. unfold r'. rewrite (event_exposure _ _ _ _ _ _ _ _ He).
    specialize (Hb c' symbol' s'). destruct (same _ _ _ _ _ _); lia.
  - intros c'. destruct (event_counters _ _ _ _ _ _ _ _ _ He c') as [H1 H2]. unfold r'. rewrite H1, H2.
    repeat destruct (decide _); naive_solver lia.
Qed.

Lemma erase_exposure r k :
  inv r → ∀ c' symbol' s', exposure (erase_working_order k r) c' symbol' s' ≤
    exposure r c' symbol' s' - match working_orders_ r !! k with
      | Some w => if same (WorkingOrderKey.client_id k) c' (WorkingOrderKey.symbol k) symbol'
                     (WorkingOrder.side w) s' then WorkingOrder.remaining_quantity w else 0
      | None => 0 end.
Proof.
  intros Hi c' symbol' s'. destruct (working_orders_ r !! k) as [w|] eqn:Hk.
  - destruct (erase_event r k w Hi Hk) as [He _].
    rewrite (event_exposure _ _ _ _ _ _ _ _ He). destruct (same _ _ _ _ _ _); lia.
  - unfold erase_working_order. rewrite Hk. lia.
Qed.

Lemma limits_resting c symbol order_id s price q r :
  limits_ (on_order_resting c symbol order_id s price q r) = limits_ r.
Proof.
  unfold on_order_resting, erase_working_order. destruct (_ || _); [done|]. simpl.
  by repeat case_match.
Qed.
Lemma limits_cancelled c symbol order_id r :
  limits_ (on_order_cancelled c symbol order_id r) = limits_ r.
Proof. unfold on_order_cancelled, erase_working_order. by repeat case_match. Qed.
Lemma limits_fill symbol c order_id s q r : limits_ (on_fill symbol c order_id s q r) = limits_ r.
Proof. unfold on_fill, reduce_working_order. by repeat case_match. Qed.
Lemma limits_fills symbol c order_id s r total r' :
  fills symbol c order_id s r total r' → limits_ r' = limits_ r.
Proof.
  induction 1 as [|r [[d rid] q] total r' _ _ IH]; [done|]. rewrite IH.
  unfold aggress, on_trade. destruct s, (q =? 0); by rewrite ?limits_fill.
Qed.

Lemma erase_counters r k w :
  inv r → working_orders_ r !! k = Some w →
  ∀ c, open_orders (erase_working_order k r) c =
         open_orders r c - (if decide (WorkingOrderKey.client_id k = c) then 1 else 0) ∧
       gross (erase_working_order k r) c =
         gross r c - (if decide (WorkingOrderKey.client_id k = c) then WorkingOrder.remaining_quantity w else 0).
Proof.
  intros Hi Hk c. destruct (erase_event r k w Hi Hk) as [He _].
  destruct (event_counters _ _ _ _ _ _ _ _ _ He c) as [-> ->]. destruct (decide _); lia.
Qed.

(** A checked order keeps every exposure within the limit. *)
Lemma order_bounded M r c symbol order_id s price q total rest r' :
  M ≤ int64_max → inv r → in_u32 q →
  working_orders_ r !! WorkingOrderKey.mk c symbol order_id = None →
  bounded M r c symbol s q →
  fills symbol c order_id s r total r' → 0 ≤ rest → total + rest ≤ q → gross r c + rest ≤ room →
  let r2 := on_order_resting c symbol order_id s price rest r' in
  inv r2 ∧ bounded M r2 c symbol s 0 ∧
  ∀ c', open_orders r2 c' ≤ open_orders r c' + (if decide (c = c' ∧ 0 < rest) then 1 else 0) ∧
        gross r2 c' ≤ gross r c' + (if decide (c = c') then rest else 0).
Proof.
  intros HM Hi Hq Hk Hb Hf Hr Hle Hroom r2. pose proof (fills_nonneg _ _ _ _ _ _ _ Hf) as Ht.
  unfold in_u32 in Hq.
  destruct (fills_bounded M symbol c order_id s r total r' q Hf HM Hi Hk) as (Hi' & Hk' & Hsm & Hb');
    [lia|done|].
  destruct (resting_bounded M r' c symbol order_id s price rest Hi' Hk') as [H1 H2];
    [lia|eapply bounded_weaken; [exact Hb'|lia]|].
  split; [|split; [done|]].
  - destruct (Hsm c). apply resting_inv; [done|lia|unfold in_u32; lia].
  - intros c'. specialize (H2 c'). specialize (Hsm c'). fold r2 in H2. lia.
Qed.

(** What the checks are for. *)
Definition all_within (l : RiskLimits.t) (r : t) : Prop :=
  (∀ c symbol s, exposure r c symbol s ≤ RiskLimits.max_position_per_symbol l) ∧
  (∀ c, open_orders r c ≤ RiskLimits.max_open_orders l ∧ gross r c ≤ RiskLimits.max_open_quantity l).

Lemma bounded_all M r c symbol s : bounded M r c symbol s 0 → ∀ c' symbol' s', exposure r c' symbol' s' ≤ M.
Proof. intros Hb c' symbol' s'. specialize (Hb c' symbol' s'). destruct (same _ _ _ _ _ _); lia. Qed.

Lemma new_order_within l r req total rest r' :
  let c := RiskOrderRequest.client_id req in
  let symbol := RiskOrderRequest.symbol req in
  let order_id := RiskOrderRequest.order_id req in
  let s := RiskOrderRequest.side req in
  limits_typed l → limits_ r = l → inv r → all_within l r → request_typed req →
  RiskDecision.accepted (check_new_order r req) = true →
  working_orders_ r !! WorkingOrderKey.mk c symbol order_id = None →
  fills symbol c order_id s r total r' →
  0 ≤ rest → total + rest ≤ RiskOrderRequest.quantity req →
  (0 < rest → may_rest (RiskOrderRequest.order_type req) (RiskOrderRequest.time_in_force req) = true) →
  let r2 := on_order_resting c symbol order_id s (RiskOrderRequest.price req) rest r' in
  inv r2 ∧ all_within l r2.
Proof.
  intros c symbol order_id s Hl Hlr Hi [He Hn] Ht Hacc Hk Hf Hr0 Hle Hmay r2.
  apply check_new_order_accepted in Hacc; [|done|by rewrite Hlr|done].
  destruct Hacc as (_ & _ & _ & _ & Hacc & Hopen). rewrite Hlr in Hacc, Hopen. fold c symbol s in Hacc, Hopen.
  pose proof (position_typed _ Hl) as [_ HM]. pose proof (open_quantity_typed _ Hl).
  destruct (order_bounded (RiskLimits.max_position_per_symbol l) r c symbol order_id s
    (RiskOrderRequest.price req) (RiskOrderRequest.quantity req) total rest r')
    as (Hi' & Hb' & Hc'); try done; [apply Ht| | |].
  - intros c' symbol' s'. specialize (He c' symbol' s'). unfold same.
    case_bool_decide; [|lia]. destruct_and!. by subst.
  - pose proof (fills_nonneg _ _ _ _ _ _ _ Hf). destruct (Hn c).
    destruct (decide (0 < rest)) as [Hpos|]; [destruct (Hopen (Hmay Hpos)); lia|lia].
  - split; [done|]. split; [by eapply bounded_all|]. intros c'. destruct (Hc' c') as [H1 H2].
    destruct (Hn c'). pose proof (fills_nonneg _ _ _ _ _ _ _ Hf). fold r2 in H1, H2.
    destruct (decide (0 < rest)) as [Hpos|].
    + specialize (Hopen (Hmay Hpos)). repeat destruct (decide _); destruct_and?; subst; lia.
    + repeat destruct (decide _); destruct_and?; lia.
Qed.

Lemma replace_within l r c symbol order_id w price q total rest r' :
  let s := WorkingOrder.side w in
  limits_typed l → limits_ r = l → inv r → all_within l r → in_u32 q → in_i64 price →
  c ≠ invalid_risk_client_id →
  RiskDecision.accepted (check_replace r c symbol order_id price q) = true →
  working_orders_ r !! WorkingOrderKey.mk c symbol order_id = Some w →
  fills symbol c order_id s (on_order_cancelled c symbol order_id r) total r' →
  0 ≤ rest → total + rest ≤ q →
  let r2 := on_order_resting c symbol order_id s price rest r' in
  inv r2 ∧ all_within l r2.
Proof.
  intros s Hl Hlr Hi [He Hn] Hq Hp Hc Hacc Hk Hf Hr0 Hle r2.
  apply check_replace_accepted in Hacc as (w' & Hw' & Hacc); [|done|by rewrite Hlr|done|done].
  rewrite Hk in Hw'. injection Hw' as <-.
  destruct Hacc as (_ & _ & _ & _ & Ho & Hg & Hacc). rewrite Hlr in Ho, Hg, Hacc. fold s in Hacc.
  set (k := WorkingOrderKey.mk c symbol order_id) in *.
  assert (on_order_cancelled c symbol order_id r = erase_working_order k r) as Hcan.
  { unfold on_order_cancelled. by destruct (Z.eqb_spec c invalid_risk_client_id). }
  rewrite Hcan in Hf. pose proof (erase_counters r k w Hi Hk) as Hcount.
  pose proof (position_typed _ Hl) as [_ HM]. pose proof (open_quantity_typed _ Hl).
  pose proof (fills_nonneg _ _ _ _ _ _ _ Hf).
  destruct (order_bounded (RiskLimits.max_position_per_symbol l) (erase_working_order k r)
    c symbol order_id s price q total rest r') as (Hi' & Hb' & Hc'); try done.
  - by apply erase_inv.
  - rewrite erase_absent by done. apply lookup_delete_eq.
  - intros c' symbol' s'. specialize (He c' symbol' s').
    pose proof (erase_exposure r k Hi c' symbol' s') as Hx.
    rewrite Hk in Hx. simpl in Hx. fold s in Hx. unfold same in *.
    case_bool_decide; [|lia]. destruct_and!. subst. lia.
  - destruct (Hcount c) as [_ ->]. simpl. rewrite decide_True by done. lia.
  - split; [done|]. split; [by eapply bounded_all|]. intros c'. destruct (Hc' c') as [H1 H2].
    destruct (Hcount c') as [E1 E2]. rewrite E1 in H1. rewrite E2 in H2. fold r2 in H1, H2. destruct (Hn c').
    destruct (inv_typed _ Hi _ _ Hk). simpl in H1, H2.
    destruct (decide (c = c')) as [<-|]; [|rewrite decide_False in H1 by tauto; lia].
    destruct (decide _) in H1; lia.
Qed.

Lemma cancel_within l r c symbol order_id :
  inv r → all_within l r →
  inv (on_order_cancelled c symbol order_id r) ∧ all_within l (on_order_cancelled c symbol order_id r).
Proof.
  intros Hi [He Hn]. split; [by apply cancelled_inv|]. unfold on_order_cancelled. destruct (_ =? _); [done|].
  set (k := WorkingOrderKey.mk c symbol order_id).
  destruct (working_orders_ r !! k) as [w|] eqn:Hw; [|unfold erase_working_order; by rewrite Hw].
  destruct (inv_typed _ Hi _ _ Hw). split.
  - intros c' symbol' s'. pose proof (erase_exposure r k Hi c' symbol' s') as Hx. rewrite Hw in Hx.
    specialize (He c' symbol' s'). destruct (same _ _ _ _ _ _); lia.
  - intros c'. destruct (erase_counters r k w Hi Hw c') as [-> ->]. destruct (Hn c'). destruct (decide _); lia.
Qed.

Lemma checked_bounded l r :
  limits_typed l → checked l r → limits_ r = l ∧ inv r ∧ all_within l r.
Proof.
  intros Hl. pose proof (position_typed _ Hl) as [HM0 _].
  induction 1 as [|r req total rest r' c symbol order_id s _ (Hlr & Hi & He) Ht Hacc Hk Hf Hr0 Hle Hmay
    |r c symbol order_id w price q total rest r' s _ (Hlr & Hi & He) Hq Hp Hc Hacc Hk Hf Hr0 Hle
    |r c symbol order_id _ (Hlr & Hi & He)|r e _ (Hlr & Hi & He)|r c e _ (Hlr & Hi & He)].
  - split; [done|]. split; [apply engine_new_inv|]. destruct Hl as [_ _ [??] [??] _]. split; intros c; [intros symbol []|];
      unfold exposure, position, open_quantity, open_orders, gross, client_for, symbol_for; simpl;
      rewrite lookup_empty; simpl; rewrite ?lookup_empty; done.
  - split; [by rewrite limits_resting, (limits_fills _ _ _ _ _ _ _ Hf)|]. by eapply new_order_within.
  - split; [by rewrite limits_resting, (limits_fills _ _ _ _ _ _ _ Hf), limits_cancelled|].
    by eapply replace_within.
  - split; [by rewrite limits_cancelled|]. by apply cancel_within.
  - split; [done|]. split; [by apply global_kill_inv|done].
  - split; [unfold set_client_kill_switch; by destruct (_ =? _)|]. split; [by apply kill_inv|].
    unfold set_client_kill_switch. destruct (_ =? _); [done|]. destruct He as [He Hn]. split; intros c'.
    + intros symbol' s'. specialize (He c' symbol' s'). revert He. unfold exposure, position, open_quantity.
      rewrite client_for_set. by destruct (decide (c = c')) as [<-|].
    + specialize (Hn c'). revert Hn. unfold open_orders, gross.
      rewrite client_for_set. by destruct (decide (c = c')) as [<-|].
Qed.

Lemma within_position l r c symbol :
  inv r → all_within l r → Z.abs (position r c symbol) ≤ RiskLimits.max_position_per_symbol l.
Proof.
  intros Hi [He _]. pose proof (He c symbol Buy) as Hb. pose proof (He c symbol Sell) as Hs.
  destruct (sums_bounded r Hi c symbol Buy) as (_ & _ & B1).
  destruct (sums_bounded r Hi c symbol Sell) as (_ & _ & B2).
  unfold exposure, signed in *. lia.
Qed.

(** No limit is ever passed.  When every order is checked before it
    trades, and every replacement before it replaces, then whatever the
    trades, cancellations and kill switches in between, the position of every
    client in every symbol stays between minus and plus the limit, and so does
    the position its working orders could still lead to; and no client has
    more open orders, or a larger open quantity, than its limits allow. *)
Theorem position_within_limit l r c symbol :
  limits_typed l → checked l r →
  Z.abs (position r c symbol) ≤ RiskLimits.max_position_per_symbol l ∧
  (∀ s, exposure r c symbol s ≤ RiskLimits.max_position_per_symbol l) ∧
  open_orders r c ≤ RiskLimits.max_open_orders l ∧ gross r c ≤ RiskLimits.max_open_quantity l.
Proof.
  intros Hl Hr. destruct (checked_bounded l r Hl Hr) as (_ & Hi & He).
  split; [by apply within_position|]. destruct He as [He Hn]. split; [apply He|apply Hn].
Qed.

(** ** Concrete engines *)

Definition demo_request (side : Side) (price quantity : Z) : RiskOrderRequest.t :=
  RiskOrderRequest.mk 7 "ACME" 1 side Limit GoodTillCancel price quantity None.

Lemma default_typed : limits_typed RiskLimits.default.
Proof. split; vm_compute; intuition discriminate. Qed.

(* client 7 has an order of 600000 working; one more of 500000 is too many *)
Definition demo_engine : t :=
  on_order_resting 7 "ACME" 1 Buy 100 600000 (new RiskLimits.default).

Lemma demo_reachable : reachable RiskLimits.default demo_engine.
Proof.
  apply (reachable_step RiskLimits.default (new RiskLimits.default) (Resting 7 "ACME" 1 Buy 100 600000)); [apply reachable_new|done|].
  by vm_compute.
Qed.

Lemma checks_exact_witness :
  RiskDecision.reason (check_new_order demo_engine (demo_request Buy 100 500000)) = MaxOrderQuantity ∧
  RiskDecision.accepted (check_replace demo_engine 7 "ACME" 1 101 90000) = true ∧
  (RiskDecision.accepted (check_new_order demo_engine (demo_request Buy 100 5000)) = true ↔
   within_limits demo_engine (demo_request Buy 100 5000)) ∧
  (RiskDecision.accepted (check_replace demo_engine 7 "ACME" 1 101 90000) = true ↔
   ∃ w, working_orders_ demo_engine !! WorkingOrderKey.mk 7 "ACME" 1 = Some w ∧
     replace_within_limits demo_engine 7 "ACME" w 101 90000).
Proof.
  split; [by vm_compute|]. split; [by vm_compute|].
  destruct (checks_exact demo_engine) as [Hnew Hreplace];
    [eapply reachable_inv, demo_reachable|apply default_typed|].
  split; [by apply Hnew|by apply Hreplace].
Defined.

Lemma snapshot_exact_witness :
  ClientRiskSnapshot.open_buy_quantity (snapshot demo_engine 7 "ACME") = 600000 ∧
  snapshot demo_engine 7 "ACME" =
    ClientRiskSnapshot.mk (global_kill_switch_ demo_engine)
      (ClientState.kill_switch (client_for demo_engine 7))
      (position demo_engine 7 "ACME")
      (msum (opened 7 "ACME" Buy) (working_orders_ demo_engine))
      (msum (opened 7 "ACME" Sell) (working_orders_ demo_engine))
      (msum (counted 7) (working_orders_ demo_engine))
      (msum (grossed 7) (working_orders_ demo_engine)).
Proof.
  split; [by vm_compute|].
  apply (snapshot_exact RiskLimits.default), demo_reachable.
Defined.

(* client 7 rests a buy; client 8 sells into it *)
Definition demo_checked : t :=
  on_order_resting 8 "ACME" 2 Sell 100 0
    (aggress "ACME" 8 2 Sell (7, 1, 40)
       (on_order_resting 7 "ACME" 1 Buy 100 90 (new RiskLimits.default))).

Definition demo_sell : RiskOrderRequest.t :=
  RiskOrderRequest.mk 8 "ACME" 2 Sell Limit GoodTillCancel 100 40 None.

Lemma demo_checked_ok : checked RiskLimits.default demo_checked.
Proof.
  apply (checked_order RiskLimits.default (on_order_resting 7 "ACME" 1 Buy 100 90 (new RiskLimits.default))
    demo_sell 40 0 (aggress "ACME" 8 2 Sell (7, 1, 40)
       (on_order_resting 7 "ACME" 1 Buy 100 90 (new RiskLimits.default)))); [|done|by vm_compute|by vm_compute| |done|done|done].
  - apply (checked_order RiskLimits.default (new RiskLimits.default) (demo_request Buy 100 90) 0 90
             (new RiskLimits.default));
      [apply checked_new|done|by vm_compute|by vm_compute|constructor|done|done|done].
  - change 40 with ((7, 1, 40).2 + 0) at 1. eapply fills_next; [|constructor].
    split; [done|]. right. exists (WorkingOrder.mk Buy 100 90). split; [by vm_compute|done].
Qed.

Lemma position_within_limit_witness :
  position demo_checked 7 "ACME" = 40 ∧ position demo_checked 8 "ACME" = -40 ∧
  Z.abs (position demo_checked 7 "ACME") ≤ 1000000 ∧
  (∀ s, exposure demo_checked 7 "ACME" s ≤ 1000000) ∧
  open_orders demo_checked 7 ≤ 10000 ∧ gross demo_checked 7 ≤ 1000000.
Proof.
  split; [by vm_compute|]. split; [by vm_compute|].
  apply (position_within_limit RiskLimits.default); [apply default_typed|apply demo_checked_ok].
Defined.

End RiskEngine.
