(* ===== verification/Bytes.v ===== *)
(** * Little-endian integers in byte buffers (protocol::detail of include/exchange/protocol.hpp)

    [std::byte] is [Byte.byte].  A buffer being written is the array with the
    write offset; a buffer being read is a list of bytes with the read offset.
    The integer templates are instantiated at the five types the program
    uses. *)
From Stdlib Require Export Strings.Byte.
From S2P Require Import Prelude.

#[export] Instance byte_eq_dec : EqDecision byte := Byte.byte_eq_dec.

Definition Z_of_byte (b : byte) : Z := Z.of_N (Byte.to_N b).
(* static_cast<std::byte> of an unsigned value *)
Definition byte_of_Z (z : Z) : byte :=
  match Byte.of_N (Z.to_N (z `mod` 256)) with Some b => b | None => x00 end.

Inductive int_type : Type := U8 | U16 | U32 | U64 | I64.

Definition sizeof (ty : int_type) : nat :=
  match ty with U8 => 1 | U16 => 2 | U32 => 4 | U64 | I64 => 8 end.

(* static_cast to the type, and to its unsigned counterpart *)
Definition wrap (ty : int_type) (z : Z) : Z :=
  match ty with
  | U8 => u8 z | U16 => u16 z | U32 => u32 z | U64 => u64 z | I64 => i64 z
  end.
Definition wrap_unsigned (ty : int_type) (z : Z) : Z :=
  match ty with
  | U8 => u8 z | U16 => u16 z | U32 => u32 z | U64 | I64 => u64 z
  end.

Definition in_range (ty : int_type) (z : Z) : Prop :=
  match ty with
  | U8 => in_u8 z | U16 => in_u16 z | U32 => in_u32 z | U64 => in_u64 z | I64 => in_i64 z
  end.

(** ** Writing *)

Abbreviation Output := (list byte * nat)%type.

Definition write_byte (b : byte) (st : Output) : Output :=
  let '(output, offset) := st in (<[offset := b]> output, S offset).

Definition write_integer (ty : int_type) (value : Z) (st : Output) : Output :=
  let unsigned_value := wrap_unsigned ty value in
  foldl (λ st index,
      write_byte (byte_of_Z (Z.land (Z.shiftr unsigned_value (Z.of_nat index * 8)) 255)) st)
    st (seq 0 (sizeof ty)).

(** ** Reading *)

Definition reader (A : Type) : Type := list byte → nat → option (A * nat).

Definition reader_ret {A} (a : A) : reader A := λ _ offset, Some (a, offset).
Definition reader_bind {A B} (r : reader A) (k : A → reader B) : reader B :=
  λ input offset,
    match r input offset with
    | Some (a, offset') => k a input offset'
    | None => None
    end.
Definition reader_guard (b : bool) : reader unit :=
  λ _ offset, if b then Some (tt, offset) else None.

Notation "x <~ r ;; k" := (reader_bind r (λ x, k))
  (at level 100, r at next level, right associativity) : exchange_scope.

Definition run_reader {A} (r : reader A) (input : list byte) : option A :=
  fst <$> r input 0%nat.

Definition read_integer (ty : int_type) : reader Z :=
  λ input offset,
    if (length input <? offset + sizeof ty)%nat then None
    else
      let value := foldl (λ value index,
          let byte_value := Z_of_byte (nth (offset + index) input x00) in
          Z.lor value (wrap_unsigned ty (Z.shiftl byte_value (Z.of_nat index * 8))))
        0 (seq 0 (sizeof ty)) in
      Some (wrap ty value, (offset + sizeof ty)%nat).

(** ** Lemmas *)

Lemma Z_of_byte_range b : 0 ≤ Z_of_byte b < 256.
Proof. unfold Z_of_byte. pose proof (Byte.to_N_bounded b). lia. Qed.

Lemma byte_of_Z_of_byte b : byte_of_Z (Z_of_byte b) = b.
Proof. by destruct b. Qed.

Lemma Z_of_byte_of_Z z : Z_of_byte (byte_of_Z z) = z `mod` 256.
Proof.
  unfold byte_of_Z, Z_of_byte. pose proof (Z.mod_pos_bound z 256).
  destruct (Byte.of_N _) as [b|] eqn:E.
  - apply Byte.to_of_N in E. rewrite E. lia.
  - apply Byte.of_N_None_iff in E. lia.
Qed.

(** The value of bytes, least significant first, and the bytes of a value. *)
Fixpoint le_value (bs : list byte) : Z :=
  match bs with [] => 0 | b :: bs' => Z_of_byte b + 256 * le_value bs' end.

Fixpoint le_bytes (n : nat) (z : Z) : list byte :=
  match n with O => [] | S n' => byte_of_Z z :: le_bytes n' (z / 256) end.

Lemma length_le_bytes n z : length (le_bytes n z) = n.
Proof. revert z. induction n; intros; simpl; auto. Qed.

Lemma le_value_range bs : 0 ≤ le_value bs < 256 ^ Z.of_nat (length bs).
Proof.
  induction bs as [|b bs IH]; [simpl; lia|]. cbn [le_value length].
  rewrite Nat2Z.inj_succ, Z.pow_succ_r by lia. pose proof (Z_of_byte_range b). nia.
Qed.

Lemma le_bytes_value bs : le_bytes (length bs) (le_value bs) = bs.
Proof.
  induction bs as [|b bs IH]; [done|]. cbn [le_value length le_bytes].
  pose proof (Z_of_byte_range b). f_equal.
  - transitivity (byte_of_Z (Z_of_byte b)); [|apply byte_of_Z_of_byte].
    unfold byte_of_Z. do 2 f_equal.
    rewrite (Z.mul_comm 256), Z_mod_plus_full by lia. done.
  - rewrite (Z.mul_comm 256), Z.div_add by lia. rewrite (Z.div_small (Z_of_byte b)) by done. done.
Qed.

Lemma le_value_bytes n z : le_value (le_bytes n z) = z `mod` 256 ^ Z.of_nat n.
Proof.
  revert z. induction n as [|n IH]; intros z; [simpl; by rewrite Z.mod_1_r|].
  cbn [le_bytes le_value]. rewrite IH, Z_of_byte_of_Z, Nat2Z.inj_succ, Z.pow_succ_r by lia.
  rewrite Z.rem_mul_r by lia. done.
Qed.

Lemma le_bytes_mod n z : le_bytes n (z `mod` 256 ^ Z.of_nat n) = le_bytes n z.
Proof.
  rewrite <- le_value_bytes. rewrite <- (length_le_bytes n z) at 1. apply le_bytes_value.
Qed.

Lemma byte_of_Z_land z : byte_of_Z (Z.land z 255) = byte_of_Z z.
Proof.
  unfold byte_of_Z. change 255 with (Z.ones 8). rewrite Z.land_ones by lia.
  change (2 ^ 8) with 256. by rewrite Z.mod_mod by lia.
Qed.

Lemma le_bytes_shifts n z :
  le_bytes n z =
  (λ index, byte_of_Z (Z.land (Z.shiftr z (Z.of_nat index * 8)) 255)) <$> seq 0 n.
Proof.
  assert (∀ n z k, le_bytes n (Z.shiftr z (Z.of_nat k * 8)) =
    (λ index, byte_of_Z (Z.land (Z.shiftr z (Z.of_nat index * 8)) 255)) <$> seq k n) as H.
  { clear. induction n as [|n IH]; intros z k; [done|]. simpl. rewrite byte_of_Z_land. f_equal.
    rewrite <- IH. f_equal. change 256 with (2 ^ 8). rewrite <- Z.shiftr_div_pow2 by lia.
    rewrite Z.shiftr_shiftr by lia. f_equal. lia. }
  rewrite <- H. by rewrite Z.shiftr_0_r.
Qed.

Lemma write_bytes_spec {A} (f : A → byte) (l : list A) pre k :
  foldl (λ st a, write_byte (f a) st) (pre ++ replicate (length l + k) x00, length pre) l =
  (pre ++ (f <$> l) ++ replicate k x00, length (pre ++ (f <$> l))).
Proof.
  revert pre. induction l as [|a l IH]; intros pre; simpl; [by rewrite app_nil_r|].
  rewrite insert_app_r_alt, Nat.sub_diag by done. simpl.
  specialize (IH (pre ++ [f a])). rewrite <- !app_assoc, length_app, Nat.add_1_r in IH. simpl in IH.
  exact IH.
Qed.

Lemma wrap_unsigned_bytes ty v :
  le_bytes (sizeof ty) (wrap_unsigned ty v) = le_bytes (sizeof ty) v.
Proof.
  rewrite <- (le_bytes_mod (sizeof ty) v). f_equal. by destruct ty.
Qed.

(** Writing an integer appends its bytes; [k] bytes of the array are left. *)
Lemma write_integer_spec ty v pre k :
  write_integer ty v (pre ++ replicate (sizeof ty + k) x00, length pre) =
  (pre ++ le_bytes (sizeof ty) v ++ replicate k x00, length (pre ++ le_bytes (sizeof ty) v)).
Proof.
  unfold write_integer. rewrite <- wrap_unsigned_bytes, le_bytes_shifts.
  rewrite <- (length_seq (sizeof ty) 0) at 1.
  apply (write_bytes_spec (λ index, byte_of_Z
    (Z.land (Z.shiftr (wrap_unsigned ty v) (Z.of_nat index * 8)) 255))).
Qed.

Lemma lor_disjoint a b k : 0 ≤ k → 0 ≤ a < 2 ^ k → Z.lor a (Z.shiftl b k) = a + b * 2 ^ k.
Proof.
  intros Hk Ha. rewrite <- Z.add_lor_land. rewrite Z.shiftl_mul_pow2 by done.
  replace (Z.land a (b * 2 ^ k)) with 0; [lia|].
  symmetry. apply Z.bits_inj'. intros n Hn. rewrite Z.land_spec, Z.bits_0.
  destruct (Z.lt_ge_cases n k).
  - by rewrite Z.mul_pow2_bits_low, andb_false_r by lia.
  - rewrite <- (Z.mod_small a (2 ^ k)) by done. by rewrite Z.mod_pow2_bits_high by lia.
Qed.

Lemma le_value_app bs1 bs2 :
  le_value (bs1 ++ bs2) = le_value bs1 + le_value bs2 * 256 ^ Z.of_nat (length bs1).
Proof.
  induction bs1 as [|b bs1 IH]; cbn [le_value app length]; [lia|].
  rewrite IH, Nat2Z.inj_succ, Z.pow_succ_r by lia. lia.
Qed.

Lemma byte_shift_small ty b index :
  (index < sizeof ty)%nat →
  wrap_unsigned ty (Z.shiftl (Z_of_byte b) (Z.of_nat index * 8)) =
  Z.shiftl (Z_of_byte b) (Z.of_nat index * 8).
Proof.
  intros Hi. rewrite Z.shiftl_mul_pow2 by lia. pose proof (Z_of_byte_range b) as Hb.
  assert (0 ≤ Z_of_byte b * 2 ^ (Z.of_nat index * 8) < 2 ^ (Z.of_nat (sizeof ty) * 8)) as Hr.
  { replace (Z.of_nat (sizeof ty) * 8)
      with (Z.of_nat index * 8 + 8 + (Z.of_nat (sizeof ty) - Z.of_nat index - 1) * 8) by lia.
    rewrite !Z.pow_add_r by lia.
    assert (0 < 2 ^ (Z.of_nat index * 8)) by lia.
    assert (1 ≤ 2 ^ ((Z.of_nat (sizeof ty) - Z.of_nat index - 1) * 8)) by lia. nia. }
  destruct ty; cbn [sizeof wrap_unsigned] in *; [apply u8_id|apply u16_id|apply u32_id|apply u64_id|apply u64_id];
    done.
Qed.

Lemma pow256 n : 256 ^ Z.of_nat n = 2 ^ (Z.of_nat n * 8).
Proof. change 256 with (2 ^ 8). rewrite <- Z.pow_mul_r by lia. f_equal. lia. Qed.

(** Reading ors shifted bytes together; it computes the little-endian value. *)
Lemma read_fold ty (f : nat → byte) n :
  (n ≤ sizeof ty)%nat →
  foldl (λ value index,
      Z.lor value (wrap_unsigned ty (Z.shiftl (Z_of_byte (f index)) (Z.of_nat index * 8))))
    0 (seq 0 n) = le_value (f <$> seq 0 n).
Proof.
  induction n as [|n IH]; intros Hn; [done|].
  rewrite seq_S, foldl_app, fmap_app, IH by lia. simpl. rewrite byte_shift_small by lia.
  rewrite le_value_app, length_fmap, length_seq. simpl.
  pose proof (le_value_range (f <$> seq 0 n)) as Hr. rewrite length_fmap, length_seq in Hr.
  rewrite pow256 in Hr |- *. rewrite lor_disjoint by (done || lia). lia.
Qed.

Lemma slice_nth (input : list byte) offset n :
  (offset + n ≤ length input)%nat →
  (λ index, nth (offset + index) input x00) <$> seq 0 n = take n (drop offset input).
Proof.
  intros Hn. apply list_eq. intros i. rewrite list_lookup_fmap.
  destruct (decide (i < n)%nat) as [Hi|Hi].
  - rewrite lookup_seq_lt, lookup_take_lt, lookup_drop by done. simpl.
    destruct (lookup_lt_is_Some_2 input (offset + i)) as [b Hb]; [lia|].
    rewrite Hb. f_equal. by apply nth_lookup_Some.
  - rewrite lookup_seq_ge by lia. rewrite lookup_take_ge by lia. done.
Qed.

Lemma wrap_range ty z : in_range ty (wrap ty z).
Proof. destruct ty; simpl; word. Qed.

Lemma wrap_bytes ty z : le_bytes (sizeof ty) (wrap ty z) = le_bytes (sizeof ty) z.
Proof.
  rewrite <- (le_bytes_mod (sizeof ty) z), <- (le_bytes_mod (sizeof ty) (wrap ty z)). f_equal.
  destruct ty; cbn [wrap sizeof]; change (256 ^ Z.of_nat 8) with (2 ^ 64);
    change (256 ^ Z.of_nat 4) with (2 ^ 32); change (256 ^ Z.of_nat 2) with (2 ^ 16);
    change (256 ^ Z.of_nat 1) with (2 ^ 8); word.
Qed.

Lemma wrap_value ty z : in_range ty z → wrap ty (z `mod` 256 ^ Z.of_nat (sizeof ty)) = z.
Proof.
  destruct ty; cbn [wrap sizeof in_range]; change (256 ^ Z.of_nat 8) with (2 ^ 64);
    change (256 ^ Z.of_nat 4) with (2 ^ 32); change (256 ^ Z.of_nat 2) with (2 ^ 16);
    change (256 ^ Z.of_nat 1) with (2 ^ 8); word.
Qed.

Lemma read_integer_eq ty input offset :
  read_integer ty input offset =
    if (length input <? offset + sizeof ty)%nat then None
    else Some (wrap ty (le_value (take (sizeof ty) (drop offset input))), (offset + sizeof ty)%nat).
Proof.
  unfold read_integer. destruct (Nat.ltb_spec (length input) (offset + sizeof ty)); [done|].
  by rewrite (read_fold ty (λ index, nth (offset + index) input x00)), slice_nth by lia.
Qed.

(** A successful read, in both directions: it consumes exactly the bytes of
    the value it returns. *)
Lemma read_integer_Some ty input offset v offset' :
  read_integer ty input offset = Some (v, offset') ↔
  (offset' = offset + sizeof ty)%nat ∧ in_range ty v ∧
  drop offset input = le_bytes (sizeof ty) v ++ drop offset' input.
Proof.
  rewrite read_integer_eq. destruct (Nat.ltb_spec (length input) (offset + sizeof ty)) as [Hlt|Hle].
  - split; [done|]. intros (-> & _ & Hd). apply (f_equal length) in Hd.
    rewrite length_app, length_le_bytes, !length_drop in Hd. destruct ty; simpl in *; lia.
  - split.
    + intros [= <- <-]. split; [done|]. split; [apply wrap_range|].
      rewrite wrap_bytes. rewrite <- drop_drop.
      set (bs := drop offset input). assert (length (take (sizeof ty) bs) = sizeof ty) as Hlen.
      { rewrite length_take. unfold bs. rewrite length_drop. lia. }
      rewrite <- Hlen at 1. rewrite le_bytes_value. by rewrite take_drop.
    + intros (-> & Hr & Hd). rewrite Hd, take_app_length' by (by rewrite length_le_bytes).
      by rewrite le_value_bytes, wrap_value.
Qed.

(** ** Stepping through a writer and a reader *)

Lemma write_integer_next ty v pre n :
  (sizeof ty ≤ n)%nat →
  write_integer ty v (pre ++ replicate n x00, length pre) =
  ((pre ++ le_bytes (sizeof ty) v) ++ replicate (n - sizeof ty) x00,
   length (pre ++ le_bytes (sizeof ty) v)).
Proof.
  intros Hn. replace n with (sizeof ty + (n - sizeof ty))%nat at 1 by lia.
  by rewrite write_integer_spec, app_assoc.
Qed.

Lemma write_bytes_next bs pre n :
  (length bs ≤ n)%nat →
  foldl (λ st b, write_byte b st) (pre ++ replicate n x00, length pre) bs =
  ((pre ++ bs) ++ replicate (n - length bs) x00, length (pre ++ bs)).
Proof.
  intros Hn. replace n with (length bs + (n - length bs))%nat at 1 by lia.
  pose proof (write_bytes_spec id bs pre (n - length bs)) as H. rewrite list_fmap_id in H.
  by rewrite <- app_assoc.
Qed.

Lemma reader_bind_Some {A B} (r : reader A) (k : A → reader B) input offset x :
  (reader_bind r k) input offset = Some x ↔
  ∃ a offset', r input offset = Some (a, offset') ∧ k a input offset' = Some x.
Proof.
  unfold reader_bind. destruct (r input offset) as [[a o]|]; [|naive_solver].
  split; [eauto|]. by intros (? & ? & [= <- <-] & ?).
Qed.

Lemma reader_guard_Some b (input : list byte) offset x :
  reader_guard b input offset = Some x ↔ b = true ∧ x = (tt, offset).
Proof. unfold reader_guard. destruct b; naive_solver. Qed.

Lemma run_reader_Some {A} (r : reader A) input a :
  run_reader r input = Some a ↔ ∃ offset, r input 0%nat = Some (a, offset).
Proof.
  unfold run_reader. destruct (r input 0%nat) as [[a' o]|]; simpl; [|naive_solver].
  split; [intros [= <-]; eauto|]. by intros (? & [= <- <-]).
Qed.

Lemma read_integer_next ty {B} (k : Z → reader B) v rest input offset :
  drop offset input = le_bytes (sizeof ty) v ++ rest → in_range ty v →
  reader_bind (read_integer ty) k input offset = k v input (offset + sizeof ty)%nat ∧
  drop (offset + sizeof ty) input = rest.
Proof.
  intros Hd Hr. assert (drop (offset + sizeof ty) input = rest) as Hrest.
  { rewrite <- drop_drop, Hd. by rewrite drop_app_length' by (by rewrite length_le_bytes). }
  split; [|done]. unfold reader_bind.
  assert (read_integer ty input offset = Some (v, (offset + sizeof ty)%nat)) as ->; [|done].
  apply read_integer_Some. by rewrite Hrest.
Qed.

#[global] Arguments le_bytes : simpl never.
