(* ===== verification/Numerals.v ===== *)
(** * Decimal numerals (std::to_string and std::from_chars on integers)

    The two functions of the C++ standard library the FIX code uses, and their
    round trip.  Texts are lists of bytes. *)
From S2P Require Import Prelude Bytes.

(** ** Texts *)

Definition bytes_of (s : string) : list byte := String.list_byte_of_string s.

Definition is_digit (c : byte) : bool := (48 <=? Z_of_byte c) && (Z_of_byte c <=? 57).

Definition digit (n : Z) : byte := byte_of_Z (48 + n).

(* the number a sequence of digits denotes *)
Definition decimal_value (ds : list byte) : Z :=
  foldl (λ acc c, acc * 10 + (Z_of_byte c - 48)) 0 ds.

(** ** std::to_string *)

Fixpoint to_digits (fuel : nat) (n : Z) (acc : list byte) : list byte :=
  match fuel with
  | O => acc
  | S fuel' =>
      let acc' := digit (n `mod` 10) :: acc in
      if n `div` 10 =? 0 then acc' else to_digits fuel' (n `div` 10) acc'
  end.

(* a number has at most as many decimal digits as binary ones *)
Definition natural_text (n : Z) : list byte := to_digits (S (Z.to_nat (Z.log2 n))) n [].

Definition to_string (n : Z) : list byte :=
  if n <? 0 then x2d :: natural_text (- n) else natural_text n.

(** ** std::from_chars in base ten

    For an integer type with values from [low] to [high]: the value and the
    number of characters read, None when there is no numeral or its value does
    not fit.  A minus sign is recognised for signed types, a plus sign or a
    space never is. *)

Fixpoint leading_digits (text : list byte) : list byte :=
  match text with
  | [] => []
  | c :: text' => if is_digit c then c :: leading_digits text' else []
  end.

Definition from_chars (low high : Z) (text : list byte) : option (Z * nat) :=
  let negative := (low <? 0) && bool_decide (head text = Some x2d) in
  let ds := leading_digits (if negative then tail text else text) in
  match ds with
  | [] => None
  | _ =>
      let value := if negative then - decimal_value ds else decimal_value ds in
      if (low <=? value) && (value <=? high)
      then Some (value, ((if negative then 1 else 0) + length ds)%nat)
      else None
  end.

(* the idiom of every caller: the numeral must be the whole text *)
Definition parse_whole (low high : Z) (text : list byte) : option Z :=
  match from_chars low high text with
  | Some (value, consumed) => if (consumed =? length text)%nat then Some value else None
  | None => None
  end.

(** ** Digits *)

Lemma is_digit_digit n : 0 ≤ n < 10 → is_digit (digit n) = true.
Proof.
  intros H. unfold is_digit, digit. rewrite Z_of_byte_of_Z, Z.mod_small by lia.
  rewrite andb_true_iff, !Z.leb_le. lia.
Qed.

Lemma digit_value n : 0 ≤ n < 10 → Z_of_byte (digit n) - 48 = n.
Proof. intros H. unfold digit. rewrite Z_of_byte_of_Z, Z.mod_small by lia. lia. Qed.

Lemma decimal_value_snoc ds c : decimal_value (ds ++ [c]) = decimal_value ds * 10 + (Z_of_byte c - 48).
Proof. unfold decimal_value. by rewrite foldl_app. Qed.

Lemma decimal_value_nonneg ds : Forall is_digit ds → 0 ≤ decimal_value ds.
Proof.
  induction ds as [|c ds IH] using rev_ind; [done|].
  intros [Hds [Hc _]%Forall_cons]%Forall_app.
  rewrite decimal_value_snoc. specialize (IH Hds).
  unfold is_digit in Hc. apply Is_true_true, andb_true_iff in Hc as [?%Z.leb_le ?]. lia.
Qed.

Lemma to_digits_spec fuel n acc :
  0 ≤ n < 10 ^ Z.of_nat fuel → (0 < fuel)%nat →
  ∃ ds, to_digits fuel n acc = ds ++ acc ∧ ds ≠ [] ∧ Forall is_digit ds ∧ decimal_value ds = n.
Proof.
  revert n acc. induction fuel as [|fuel IH]; intros n acc Hn Hf; [lia|]. cbn [to_digits].
  pose proof (Z.mod_pos_bound n 10) as Hm. pose proof (Z.div_mod n 10) as Hd.
  destruct (Z.eqb_spec (n `div` 10) 0) as [H0|H0].
  - exists [digit (n `mod` 10)]. split_and!; [done|done| |].
    + apply Forall_singleton, Is_true_true, is_digit_digit. lia.
    + unfold decimal_value. cbn [foldl]. rewrite digit_value by lia. lia.
  - rewrite Nat2Z.inj_succ, Z.pow_succ_r in Hn by lia.
    destruct (IH (n `div` 10) (digit (n `mod` 10) :: acc)) as (ds & -> & Hne & Hds & Hv).
    { split; [apply Z.div_pos; lia|apply Z.div_lt_upper_bound; lia]. }
    { destruct fuel; [|lia]. simpl in Hn. lia. }
    exists (ds ++ [digit (n `mod` 10)]). split_and!.
    + by rewrite <- (assoc_L (++)).
    + by destruct ds.
    + apply Forall_app. split; [done|]. apply Forall_singleton, Is_true_true, is_digit_digit. lia.
    + rewrite decimal_value_snoc, Hv, digit_value by lia. lia.
Qed.

Lemma natural_text_spec n : 0 ≤ n →
  natural_text n ≠ [] ∧ Forall is_digit (natural_text n) ∧ decimal_value (natural_text n) = n.
Proof.
  intros Hn. unfold natural_text.
  destruct (to_digits_spec (S (Z.to_nat (Z.log2 n))) n []) as (ds & -> & H); [|lia|].
  - split; [done|]. pose proof (Z.log2_nonneg n). rewrite Nat2Z.inj_succ, Z2Nat.id by done.
    assert (n < 2 ^ Z.succ (Z.log2 n)).
    { destruct (decide (n = 0)) as [->|]; [done|]. apply Z.log2_spec. lia. }
    pose proof (Z.pow_le_mono_l 2 10 (Z.succ (Z.log2 n))). lia.
  - by rewrite (right_id_L [] (++)).
Qed.

(** ** Reading *)

Lemma leading_digits_all ds : Forall is_digit ds → leading_digits ds = ds.
Proof. induction 1 as [|c ds Hc _ IH]; [done|]. cbn. by rewrite (Is_true_true_1 _ Hc), IH. Qed.

Lemma leading_digits_whole text :
  length (leading_digits text) = length text → Forall is_digit text.
Proof.
  induction text as [|c text IH]; intros H; [done|]. cbn in H.
  destruct (is_digit c) eqn:Hc; [|done]. injection H as H. constructor; [by apply Is_true_true|by apply IH].
Qed.

(** A text of digits only. *)
Definition numeral (text : list byte) (value : Z) : Prop :=
  text ≠ [] ∧ Forall is_digit text ∧ decimal_value text = value.

Lemma numeral_nonneg text value : numeral text value → 0 ≤ value.
Proof. intros (_ & H & <-). by apply decimal_value_nonneg. Qed.

Lemma numeral_natural n : 0 ≤ n → numeral (natural_text n) n.
Proof. apply natural_text_spec. Qed.

Lemma numeral_not_minus text value : numeral text value → head text ≠ Some x2d.
Proof.
  intros (Hne & H & _). destruct H as [|c text Hc _]; [done|]. intros [= ->]. by vm_compute in Hc.
Qed.

(** What the callers accept for an unsigned type: the numerals that fit. *)
Lemma parse_whole_unsigned high text value :
  parse_whole 0 high text = Some value ↔ numeral text value ∧ value ≤ high.
Proof.
  unfold parse_whole, from_chars. cbn [Z.ltb Z.compare andb]. split.
  - destruct (leading_digits text) as [|c ds] eqn:Hds; [done|]. rewrite <- Hds.
    destruct (_ && _) eqn:Hr; [|done]. destruct (Nat.eqb_spec (0 + length (leading_digits text)) (length text)) as [Hl|]; [|done].
    intros [= <-]. apply leading_digits_whole in Hl. zify_bool.
    rewrite leading_digits_all in * by done. split; [|done]. split_and!; [by rewrite Hds|done|done].
  - intros [Hn Hle]. pose proof (numeral_nonneg _ _ Hn). destruct Hn as (Hne & H' & <-).
    rewrite leading_digits_all by done. destruct text as [|c ds]; [done|].
    rewrite (proj2 (Z.leb_le 0 _)), (proj2 (Z.leb_le _ high)) by lia. cbn [andb].
    by rewrite Nat.eqb_refl.
Qed.

(** A signed type reads the same numerals for positive values. *)
Lemma parse_whole_positive low high text value : low < 0 → 0 < value →
  parse_whole low high text = Some value ↔ numeral text value ∧ value ≤ high.
Proof.
  intros Hlow Hpos. rewrite <- parse_whole_unsigned. unfold parse_whole, from_chars.
  rewrite (proj2 (Z.ltb_lt low 0)) by done. cbn [Z.ltb Z.compare andb].
  case_bool_decide as Hm.
  - split.
    + destruct (leading_digits (tail text)) as [|c ds] eqn:Hds; [done|].
      rewrite <- Hds. destruct (_ && _); [|done]. case_match; [|done]. intros [= Hv].
      assert (0 ≤ decimal_value (leading_digits (tail text))); [|lia].
      apply decimal_value_nonneg. clear. induction (tail text) as [|c ds IH]; cbn; [done|].
      destruct (is_digit c) eqn:Hc; [|done]. constructor; [by apply Is_true_true|done].
    + intros Hu. exfalso. eapply numeral_not_minus, Hm. apply (parse_whole_unsigned high). exact Hu.
  - destruct (leading_digits text) as [|c ds] eqn:Hds; [done|]. rewrite <- Hds.
    assert (Forall is_digit (leading_digits text)) as Hd.
    { clear. induction text as [|c ds IH]; cbn; [done|].
      destruct (is_digit c) eqn:Hc; [|done]. constructor; [by apply Is_true_true|done]. }
    apply decimal_value_nonneg in Hd.
    by rewrite (proj2 (Z.leb_le low _)), (proj2 (Z.leb_le 0 _)) by lia.
Qed.

Lemma parse_whole_to_string low high n :
  low ≤ n ≤ high → 0 ≤ n → parse_whole low high (to_string n) = Some n.
Proof.
  intros Hr Hn. unfold to_string. rewrite (proj2 (Z.ltb_ge n 0)) by done.
  pose proof (numeral_natural n Hn) as Hnum.
  unfold parse_whole, from_chars. rewrite (bool_decide_eq_false_2 _ (numeral_not_minus _ _ Hnum)).
  rewrite andb_false_r. destruct Hnum as (Hne & Hd & Hv).
  rewrite leading_digits_all, Hv by done. destruct (natural_text n) eqn:Ht; [done|].
  rewrite (proj2 (Z.leb_le low n)), (proj2 (Z.leb_le n high)) by lia. cbn [andb].
  by rewrite Nat.eqb_refl.
Qed.

(** Numerals contain no separator. *)
Lemma numeral_no text value c : numeral text value → is_digit c = false → c ∉ text.
Proof.
  intros (_ & H & _) Hc Hin. rewrite Forall_forall in H. specialize (H _ Hin). by rewrite Hc in H.
Qed.

Lemma to_string_numeral n : 0 ≤ n → numeral (to_string n) n.
Proof. intros H. unfold to_string. rewrite (proj2 (Z.ltb_ge n 0)) by done. by apply numeral_natural. Qed.

(** A numeral has no leading zero, unless it is the zero. *)
Lemma to_digits_head fuel n acc :
  0 < n < 10 ^ Z.of_nat fuel → head (to_digits fuel n acc) ≠ Some x30.
Proof.
  revert n acc. induction fuel as [|fuel IH]; intros n acc Hn; [simpl in Hn; lia|]. cbn [to_digits].
  destruct (Z.eqb_spec (n `div` 10) 0) as [H0|H0].
  - assert (n < 10) by (apply Z.div_small_iff in H0; lia). rewrite Z.mod_small by lia.
    intros [= Hd]. pose proof (digit_value n) as Hv. rewrite Hd in Hv. change (Z_of_byte x30) with 48 in Hv. lia.
  - apply IH. pose proof (Z.div_pos n 10). rewrite Nat2Z.inj_succ, Z.pow_succ_r in Hn by lia.
    split; [lia|]. apply Z.div_lt_upper_bound; lia.
Qed.

Lemma natural_text_head n : 0 < n → head (natural_text n) ≠ Some x30.
Proof.
  intros Hn. apply to_digits_head. split; [done|].
  pose proof (Z.log2_nonneg n). rewrite Nat2Z.inj_succ, Z2Nat.id by done.
  pose proof (Z.log2_spec n Hn). pose proof (Z.pow_le_mono_l 2 10 (Z.succ (Z.log2 n))). lia.
Qed.

Lemma leading_digits_app ds rest :
  Forall is_digit ds → from_option is_digit false (head rest) = false →
  leading_digits (ds ++ rest) = ds.
Proof.
  intros Hds Hrest. induction Hds as [|c ds Hc _ IH]; cbn.
  - destruct rest as [|c rest]; [done|]. cbn in *. by rewrite Hrest.
  - by rewrite (Is_true_true_1 _ Hc), IH.
Qed.

(** ** Lengths *)

Lemma to_digits_length fuel n k acc : 0 ≤ n < 10 ^ Z.of_nat (S k) →
  (length (to_digits fuel n acc) ≤ length acc + S k)%nat.
Proof.
  revert n k acc. induction fuel as [|fuel IH]; intros n k acc Hn; [simpl; lia|]. cbn [to_digits].
  destruct (Z.eqb_spec (n `div` 10) 0) as [_|H0]; [simpl; lia|].
  rewrite Nat2Z.inj_succ, Z.pow_succ_r in Hn by lia.
  assert (n `div` 10 < 10 ^ Z.of_nat k) by (apply Z.div_lt_upper_bound; lia).
  pose proof (Z.div_pos n 10 ltac:(lia) ltac:(lia)).
  destruct k as [|k]; [exfalso; simpl in *; lia|].
  etrans; [apply (IH (n `div` 10) k); lia|]. simpl. lia.
Qed.

Lemma natural_text_length n k : 0 ≤ n < 10 ^ Z.of_nat (S k) → (length (natural_text n) ≤ S k)%nat.
Proof. intros Hn. unfold natural_text. by apply (to_digits_length _ _ _ []). Qed.

Lemma to_string_length n k : 0 ≤ n < 10 ^ Z.of_nat (S k) → (length (to_string n) ≤ S k)%nat.
Proof.
  intros Hn. unfold to_string. destruct (Z.ltb_spec n 0); [lia|]. by apply natural_text_length.
Qed.

Lemma u64_text_length n : in_u64 n → (length (to_string n) ≤ 20)%nat.
Proof. intros Hn. apply to_string_length. unfold in_u64 in Hn. simpl. lia. Qed.
