(* ===== verification/Fix.v ===== *)
(** * The FIX 4.4 codec (include/exchange/fix.hpp, src/fix.cpp)

    Messages as lists of tagged fields, the encoder, the parser with its checks
    of BodyLength and CheckSum, and the extraction of complete messages from
    the bytes received so far.  A std::string is a list of bytes; the members
    of std::string and std::string_view that throw for a position outside the
    text are values of [res], and the theorems show that they never do. *)
From S2P Require Import Prelude Bytes Numerals.

(** ** Members of std::string *)

Module Text.
Fixpoint index_of (c : byte) (text : list byte) : option nat :=
  match text with
  | [] => None
  | x :: text' => if decide (x = c) then Some O else S <$> index_of c text'
  end.

(* find(char, position) *)
Definition find (c : byte) (position : nat) (text : list byte) : option nat :=
  (λ i, (position + i)%nat) <$> index_of c (drop position text).

Definition starts_with (prefix text : list byte) : bool :=
  bool_decide (take (length prefix) text = prefix).

(* find(string) *)
Fixpoint find_text (pattern text : list byte) : option nat :=
  if starts_with pattern text then Some O
  else match text with
       | [] => None
       | _ :: text' => S <$> find_text pattern text'
       end.

(* substr(position, count) and substr(position) *)
Definition substr (position count : nat) (text : list byte) : res (list byte) :=
  if (length text <? position)%nat then Throw (OutOfRange "basic_string::substr")
  else Ok (take count (drop position text)).

Definition substr_from (position : nat) (text : list byte) : res (list byte) :=
  substr position (length text) text.

(* compare(position, count, other) == 0 *)
Definition same_at (position count : nat) (other text : list byte) : res bool :=
  let* part := substr position count text in Ok (bool_decide (part = other)).

(* operator[]: at the end it is the terminating null character *)
Definition char_at (position : nat) (text : list byte) : res byte :=
  match text !! position with
  | Some c => Ok c
  | None => if (position =? length text)%nat then Ok x00
            else Throw (Undefined "character outside the string")
  end.
End Text.

Module Fix.
Definition soh : byte := x01.
Definition begin_string : list byte := bytes_of "FIX.4.4".
Definition equals_sign : byte := x3d.

(* the prefix literal 8=FIX.4.4\x01 *)
Definition prefix : list byte := bytes_of "8=FIX.4.4" ++ [soh].

Module Field.
Record t : Type := mk { tag : Z; value : list byte }.
End Field.

Module Message.
Record t : Type := mk { fields_ : list Field.t }.
End Message.

Module ParseResult.
Record t : Type := mk { message : option Message.t; error : string }.
End ParseResult.

Module ExtractStatus.
Inductive t : Type := NeedMoreData | MessageReady | InvalidData.
End ExtractStatus.

Module ExtractResult.
Record t : Type := mk { status : ExtractStatus.t; wire_message : list byte; error : string }.
End ExtractResult.

(** ** Numbers *)

Definition parse_size (text : list byte) : option Z := parse_whole 0 (2 ^ 64 - 1) text.

Definition parse_tag (text : list byte) : option Z :=
  match parse_whole (- 2 ^ 31) (2 ^ 31 - 1) text with
  | Some value => if value <=? 0 then None else Some value
  | None => None
  end.

Definition parse_u64 (text : list byte) : option Z :=
  if bool_decide (text = []) then None else parse_whole 0 (2 ^ 64 - 1) text.

Definition parse_i64 (text : list byte) : option Z :=
  if bool_decide (text = []) then None else parse_whole (- 2 ^ 63) (2 ^ 63 - 1) text.

(** ** Checksum: the sum is an unsigned int *)

Definition checksum_before (wire : list byte) (checksum_offset : nat) : Z :=
  foldl (λ sum c, u32 (sum + Z_of_byte c)) 0 (take checksum_offset wire) `mod` 256.

Definition three_digit_checksum (value : Z) : list byte :=
  [digit ((value `div` 100) `mod` 10); digit ((value `div` 10) `mod` 10); digit (value `mod` 10)].

Definition starts_with_fix44 (wire : list byte) : bool := Text.starts_with prefix wire.

(** ** Messages *)

Definition add (tag : Z) (value : list byte) (m : Message.t) : Message.t :=
  Message.mk (Message.fields_ m ++ [Field.mk tag value]).

Fixpoint set_fields (tag : Z) (value : list byte) (fs : list Field.t) : option (list Field.t) :=
  match fs with
  | [] => None
  | f :: fs' =>
      if Field.tag f =? tag then Some (Field.mk (Field.tag f) value :: fs')
      else cons f <$> set_fields tag value fs'
  end.

Definition set (tag : Z) (value : list byte) (m : Message.t) : Message.t :=
  match set_fields tag value (Message.fields_ m) with
  | Some fs => Message.mk fs
  | None => add tag value m
  end.

Fixpoint get_field (tag : Z) (fs : list Field.t) : option (list byte) :=
  match fs with
  | [] => None
  | f :: fs' => if Field.tag f =? tag then Some (Field.value f) else get_field tag fs'
  end.

Definition get (tag : Z) (m : Message.t) : option (list byte) := get_field tag (Message.fields_ m).

Definition contains (tag : Z) (m : Message.t) : bool := bool_decide (is_Some (get tag m)).

Definition fields (m : Message.t) : list Field.t := Message.fields_ m.

(** ** Encoding *)

(* the tags the codec generates itself *)
Definition is_generated (tag : Z) : bool := (tag =? 8) || (tag =? 9) || (tag =? 10).

Definition encode_body (fs : list Field.t) : list byte :=
  foldl (λ body field,
      if is_generated (Field.tag field) then body
      else body ++ to_string (Field.tag field) ++ [equals_sign] ++ Field.value field ++ [soh])
    [] fs.

Definition encode (m : Message.t) : list byte :=
  let body := encode_body (fields m) in
  let wire := bytes_of "8=FIX.4.4" ++ [soh] ++ bytes_of "9=" ++
              to_string (Z.of_nat (length body)) ++ [soh] ++ body in
  let checksum := checksum_before wire (length wire) in
  wire ++ bytes_of "10=" ++ three_digit_checksum checksum ++ [soh].

(** ** Parsing *)

Definition failure (error : string) : res ParseResult.t := Ok (ParseResult.mk None error).

(* the loop over the fields: the error of an early return, or the message *)
Fixpoint parse_fields (fuel : nat) (wire : list byte) (checksum_offset cursor : nat)
    (parsed : Message.t) : res (string + Message.t) :=
  match fuel with
  | O => Throw OutOfFuel
  | S fuel' =>
      if (cursor <? checksum_offset)%nat then
        match Text.find soh cursor wire with
        | None => Ok (inl "truncated FIX field"%string)
        | Some field_end =>
            if (checksum_offset <=? field_end)%nat then Ok (inl "truncated FIX field"%string)
            else
              let* field := Text.substr cursor (field_end - cursor) wire in
              match Text.find equals_sign 0 field with
              | None => Ok (inl "invalid FIX field"%string)
              | Some equals =>
                  if (equals =? 0)%nat then Ok (inl "invalid FIX field"%string)
                  else
                    let* tag_text := Text.substr 0 equals field in
                    match parse_tag tag_text with
                    | None => Ok (inl "invalid FIX tag"%string)
                    | Some tag =>
                        let* value := Text.substr_from (equals + 1) field in
                        parse_fields fuel' wire checksum_offset (field_end + 1) (add tag value parsed)
                    end
              end
        end
      else Ok (inr parsed)
  end.

(* from the body on: the fields and the required MsgType *)
Definition parse_body (wire : list byte) (body_start checksum_offset : nat) : res ParseResult.t :=
  let* outcome := parse_fields (S (length wire)) wire checksum_offset body_start (Message.mk []) in
  match outcome with
  | inl error => failure error
  | inr parsed =>
      match get 35 parsed with
      | None | Some [] => failure "MsgType (35) is required"
      | Some _ => Ok (ParseResult.mk (Some parsed) "")
      end
  end.

(* the checks of the trailer *)
Definition parse_trailer (wire : list byte) (body_start checksum_offset : nat) : res ParseResult.t :=
  let misplaced := "BodyLength does not end at CheckSum"%string in
  if negb (checksum_offset + 7 =? length wire)%nat then failure misplaced
  else
    let* trailer := Text.substr_from checksum_offset wire in
    if negb (Text.starts_with (bytes_of "10=") trailer) then failure misplaced
    else if negb (bool_decide (last wire = Some soh)) then failure misplaced
    else
      let* checksum_text := Text.substr (checksum_offset + 3) 3 wire in
      match parse_size checksum_text with
      | None => failure "invalid CheckSum field"
      | Some checksum_value =>
          if checksum_value >? 255 then failure "invalid CheckSum field"
          else
            let* terminator := Text.char_at (checksum_offset + 6) wire in
            if negb (bool_decide (terminator = soh)) then failure "invalid CheckSum field"
            else if negb (checksum_before wire checksum_offset =? checksum_value)
            then failure "CheckSum mismatch"
            else parse_body wire body_start checksum_offset
      end.

Definition parse (wire : list byte) : res ParseResult.t :=
  if negb (starts_with_fix44 wire) then failure "BeginString must be FIX.4.4"
  else
    match Text.find soh 0 wire with
    | None => failure "truncated BeginString"
    | Some begin_end =>
        let body_length_start := (begin_end + 1)%nat in
        let* rest := Text.substr_from body_length_start wire in
        if negb (Text.starts_with (bytes_of "9=") rest)
        then failure "BodyLength must be the second field"
        else
          match Text.find soh body_length_start wire with
          | None => failure "truncated BodyLength"
          | Some body_length_end =>
              let* body_length_text :=
                Text.substr (body_length_start + 2) (body_length_end - (body_length_start + 2)) wire in
              match parse_size body_length_text with
              | None => failure "invalid BodyLength"
              | Some body_length =>
                  let body_start := (body_length_end + 1)%nat in
                  if body_length >? Z.of_nat (length wire - body_start)
                  then failure "BodyLength exceeds message size"
                  else parse_trailer wire body_start (body_start + Z.to_nat body_length)
              end
          end
    end.

(** ** Extraction from the receive buffer, which is the state *)

Definition need_more_data : ExtractResult.t := ExtractResult.mk ExtractStatus.NeedMoreData [] "".
Definition invalid_data (error : string) : ExtractResult.t :=
  ExtractResult.mk ExtractStatus.InvalidData [] error.

(* once the buffer begins with the prefix *)
Definition extract_framed : M (list byte) ExtractResult.t :=
  receive_buffer <- Prelude.get ;;
  match Text.find soh 0 receive_buffer with
  | None => ret need_more_data
  | Some begin_end =>
      let body_length_start := (begin_end + 1)%nat in
      if (length receive_buffer <? body_length_start + 2)%nat then ret need_more_data
      else
        second <- lift (Text.same_at body_length_start 2 (bytes_of "9=") receive_buffer) ;;
        if negb second then ret (invalid_data "BodyLength must be the second field")
        else
          match Text.find soh body_length_start receive_buffer with
          | None => ret need_more_data
          | Some body_length_end =>
              body_length_text <- lift (Text.substr (body_length_start + 2)
                (body_length_end - (body_length_start + 2)) receive_buffer) ;;
              match parse_size body_length_text with
              | None => ret (invalid_data "invalid BodyLength")
              | Some body_length =>
                  let body_start := (body_length_end + 1)%nat in
                  if body_length >? u64 (2 ^ 64 - 1 - Z.of_nat body_start - 7)
                  then ret (invalid_data "BodyLength overflow")
                  else
                    let total_size := u64 (Z.of_nat body_start + body_length + 7) in
                    if Z.of_nat (length receive_buffer) <? total_size then ret need_more_data
                    else
                      let checksum_offset := (body_start + Z.to_nat body_length)%nat in
                      trailer <- lift (Text.same_at checksum_offset 3 (bytes_of "10=") receive_buffer) ;;
                      if negb trailer then ret (invalid_data "BodyLength does not point to CheckSum")
                      else
                        wire <- lift (Text.substr 0 (Z.to_nat total_size) receive_buffer) ;;
                        put (drop (Z.to_nat total_size) receive_buffer) ;;;
                        ret (ExtractResult.mk ExtractStatus.MessageReady wire "")
              end
          end
  end.

Definition extract_one : M (list byte) ExtractResult.t :=
  receive_buffer <- Prelude.get ;;
  if (length receive_buffer =? 0)%nat then ret need_more_data
  else if negb (Text.starts_with prefix receive_buffer) then
    match Text.find_text prefix receive_buffer with
    | None =>
        if (length prefix <? length receive_buffer)%nat
        then ret (invalid_data "stream does not begin with FIX.4.4")
        else ret need_more_data
    | Some next => put (drop next receive_buffer) ;;; extract_framed
    end
  else extract_framed.

(* printable: SOH becomes '|' *)
Definition printable (wire : list byte) : list byte :=
  (λ c, if decide (c = soh) then x7c else c) <$> wire.

(** ** Lemmas on texts *)

Lemma index_of_None c text : Text.index_of c text = None ↔ c ∉ text.
Proof.
  induction text as [|x text IH]; cbn; [split; [intros _; apply not_elem_of_nil|done]|].
  rewrite not_elem_of_cons. destruct (decide (x = c)) as [->|Hne]; [naive_solver|].
  rewrite fmap_None, IH. naive_solver.
Qed.

Lemma index_of_app c l1 l2 : c ∉ l1 → Text.index_of c (l1 ++ c :: l2) = Some (length l1).
Proof.
  induction l1 as [|x l1 IH]; cbn; [by rewrite decide_True|].
  rewrite not_elem_of_cons. intros [? ?]. by rewrite decide_False, IH by done.
Qed.

Lemma index_of_Some c text i : Text.index_of c text = Some i →
  ∃ l1 l2, text = l1 ++ c :: l2 ∧ length l1 = i ∧ c ∉ l1.
Proof.
  revert i. induction text as [|x text IH]; intros i; cbn; [done|].
  destruct (decide (x = c)) as [->|Hne].
  - intros [= <-]. exists [], text. split_and!; [done..|apply not_elem_of_nil].
  - intros (j & Hj & ->)%fmap_Some. destruct (IH j Hj) as (l1 & l2 & -> & <- & Hc).
    exists (x :: l1), l2. split_and!; [done..|]. by apply not_elem_of_cons.
Qed.

Lemma find_app c l0 l1 l2 : c ∉ l1 →
  Text.find c (length l0) (l0 ++ l1 ++ c :: l2) = Some (length l0 + length l1)%nat.
Proof. intros H. unfold Text.find. by rewrite drop_app_length, index_of_app. Qed.

Lemma find_None c l0 l1 : c ∉ l1 → Text.find c (length l0) (l0 ++ l1) = None.
Proof. intros H. unfold Text.find. rewrite drop_app_length. by apply fmap_None, index_of_None. Qed.

Lemma find_Some c pos text i : Text.find c pos text = Some i →
  ∃ l1 l2, drop pos text = l1 ++ c :: l2 ∧ i = (pos + length l1)%nat ∧ c ∉ l1.
Proof.
  intros (j & (l1 & l2 & Hd & <- & Hc)%index_of_Some & ->)%fmap_Some. by exists l1, l2.
Qed.

Lemma starts_with_app p text : Text.starts_with p (p ++ text) = true.
Proof. unfold Text.starts_with. by rewrite take_app_length, bool_decide_eq_true_2. Qed.

Lemma starts_with_true p text :
  Text.starts_with p text = true → text = p ++ drop (length p) text.
Proof.
  unfold Text.starts_with. intros H%bool_decide_eq_true_1. rewrite <- H at 1. by rewrite take_drop.
Qed.

Lemma substr_ok pos n text : (pos ≤ length text)%nat →
  Text.substr pos n text = Ok (take n (drop pos text)).
Proof. intros H. unfold Text.substr. by rewrite (proj2 (Nat.ltb_ge _ _)). Qed.

Lemma substr_from_ok pos text : (pos ≤ length text)%nat →
  Text.substr_from pos text = Ok (drop pos text).
Proof.
  intros H. unfold Text.substr_from. rewrite substr_ok by done. by rewrite take_ge by (rewrite length_drop; lia).
Qed.

Lemma substr_app l0 l1 l2 : Text.substr (length l0) (length l1) (l0 ++ l1 ++ l2) = Ok l1.
Proof.
  rewrite substr_ok by (rewrite length_app; lia). by rewrite drop_app_length, take_app_length.
Qed.

Lemma substr_front l1 l2 : Text.substr 0 (length l1) (l1 ++ l2) = Ok l1.
Proof. apply (substr_app []). Qed.

Lemma find_front c l1 l2 : c ∉ l1 → Text.find c 0 (l1 ++ c :: l2) = Some (length l1).
Proof. apply (find_app c []). Qed.

Lemma substr_from_app l0 l1 : Text.substr_from (length l0) (l0 ++ l1) = Ok l1.
Proof. rewrite substr_from_ok by (rewrite length_app; lia). by rewrite drop_app_length. Qed.

Lemma substr_after c l0 l1 : Text.substr_from (length l0 + 1) (l0 ++ c :: l1) = Ok l1.
Proof.
  replace (length l0 + 1)%nat with (length (l0 ++ [c])) by (rewrite length_app; done).
  replace (l0 ++ c :: l1) with ((l0 ++ [c]) ++ l1) by (by rewrite <- (assoc_L (++))).
  apply substr_from_app.
Qed.

(** ** The wire format

    What the parser accepts, without positions: [Frame wire body] says that the
    prefix, the length and the checksum around [body] are right, [Body bs fs]
    that the bytes spell the fields. *)

Definition checksum (text : list byte) : Z := sum_Z (Z_of_byte <$> text) `mod` 256.

Inductive Frame : list byte → list byte → list byte → Prop :=
  | frame length_text body checksum_text :
      numeral length_text (Z.of_nat (length body)) →
      Z.of_nat (length body) < 2 ^ 64 →
      length checksum_text = 3%nat →
      numeral checksum_text
        (checksum (prefix ++ bytes_of "9=" ++ length_text ++ [soh] ++ body)) →
      Frame (prefix ++ bytes_of "9=" ++ length_text ++ [soh] ++ body ++
             bytes_of "10=" ++ checksum_text ++ [soh])
            (prefix ++ bytes_of "9=" ++ length_text ++ [soh]) body.

Inductive Body : list byte → list Field.t → Prop :=
  | body_nil : Body [] []
  | body_cons tag_text f text fs :
      numeral tag_text (Field.tag f) → 0 < Field.tag f < 2 ^ 31 → soh ∉ Field.value f →
      Body text fs →
      Body (tag_text ++ [equals_sign] ++ Field.value f ++ [soh] ++ text) (f :: fs).

Definition typed (m : Message.t) : Prop := ∃ c text, get 35 m = Some (c :: text).

Lemma checksum_fold l acc : 0 ≤ acc →
  foldl (λ sum c, u32 (sum + Z_of_byte c)) acc l `mod` 256 = (acc + sum_Z (Z_of_byte <$> l)) `mod` 256.
Proof.
  revert acc. induction l as [|c l IH]; intros acc Ha; cbn [foldl fmap list_fmap sum_Z foldr].
  - f_equal. lia.
  - rewrite IH by (unfold u32; apply Z.mod_pos_bound; lia). unfold sum_Z.
    rewrite <- Zplus_mod_idemp_l. unfold u32.
    rewrite (Z.mod_mod_divide _ (2 ^ 32) 256) by (by exists (2 ^ 24)).
    rewrite Zplus_mod_idemp_l. f_equal. lia.
Qed.

Lemma checksum_before_app l1 l2 : checksum_before (l1 ++ l2) (length l1) = checksum l1.
Proof.
  unfold checksum_before, checksum. rewrite take_app_length. by rewrite checksum_fold.
Qed.

Lemma checksum_range l : 0 ≤ checksum l < 256.
Proof. apply Z.mod_pos_bound. lia. Qed.

Lemma three_digits n : 0 ≤ n < 1000 →
  numeral (three_digit_checksum n) n ∧ length (three_digit_checksum n) = 3%nat.
Proof.
  intros Hn. split; [|done]. unfold three_digit_checksum. split_and!; [done| |].
  - repeat (constructor; [apply Is_true_true, is_digit_digit, Z.mod_pos_bound; lia|]). constructor.
  - unfold decimal_value. cbn [foldl]. rewrite !digit_value by (apply Z.mod_pos_bound; lia).
    Z.to_euclidean_division_equations. lia.
Qed.

Lemma parse_tag_Some text tag :
  parse_tag text = Some tag ↔ numeral text tag ∧ 0 < tag < 2 ^ 31.
Proof.
  unfold parse_tag. split.
  - destruct (parse_whole _ _ _) as [v|] eqn:Hv; [|done]. destruct (Z.leb_spec v 0); [done|].
    intros [= <-]. apply parse_whole_positive in Hv as [? ?]; [|lia..]. split; [done|]. lia.
  - intros [Hn Hr]. rewrite (proj2 (parse_whole_positive (- 2 ^ 31) (2 ^ 31 - 1) text tag ltac:(lia) ltac:(lia))) by (split; [done|lia]).
    by rewrite (proj2 (Z.leb_gt tag 0)) by lia.
Qed.

Lemma parse_size_Some text n :
  parse_size text = Some n ↔ numeral text n ∧ n < 2 ^ 64.
Proof. unfold parse_size. rewrite parse_whole_unsigned. by rewrite Z.lt_le_pred. Qed.

(** ** The parser accepts exactly the wire format *)

Lemma app_split {A} (l1 l2 r1 r2 : list A) (x : A) :
  l1 ++ l2 = r1 ++ x :: r2 → (length r1 < length l1)%nat → ∃ k, l1 = r1 ++ x :: k ∧ r2 = k ++ l2.
Proof.
  intros [(k & -> & Hk)|(k & -> & _)]%app_eq_inv Hlt; [|rewrite length_app in Hlt; lia].
  destruct k as [|y k]; [rewrite (right_id_L [] (++)) in Hlt; lia|].
  injection Hk as -> ->. by exists k.
Qed.

Lemma parse_fields_sound fuel pre body post parsed :
  (length body < fuel)%nat →
  ∃ out, parse_fields fuel (pre ++ body ++ post) (length pre + length body) (length pre) parsed = Ok out ∧
    match out with
    | inl e => e ≠ ""%string
    | inr m => ∃ fs, Body body fs ∧ m = Message.mk (Message.fields_ parsed ++ fs)
    end.
Proof.
  revert pre body parsed. induction fuel as [|fuel IH]; intros pre body parsed Hf; [lia|].
  cbn [parse_fields]. destruct (Nat.ltb_spec (length pre) (length pre + length body)) as [Hlt|Hge].
  2:{ destruct body; [|simpl in Hge; lia]. eexists. split; [done|]. exists [].
      split; [constructor|]. rewrite (right_id_L [] (++)). by destruct parsed. }
  destruct (Text.find soh (length pre) _) as [field_end|] eqn:Hfind; [|by eexists].
  apply find_Some in Hfind as (l1 & l2 & Hd & -> & Hl1). rewrite drop_app_length in Hd.
  destruct (Nat.leb_spec (length pre + length body) (length pre + length l1)); [by eexists|].
  destruct (app_split _ _ _ _ _ Hd) as (body' & -> & ->); [lia|].
  replace (length pre + length l1 - length pre)%nat with (length l1) by lia.
  rewrite <- (assoc_L (++)), substr_app. cbn [res_bind].
  destruct (Text.find equals_sign 0 l1) as [equals|] eqn:Heq; [|by eexists].
  apply find_Some in Heq as (tag_text & value & Hl & -> & Htag). rewrite drop_0 in Hl. subst l1.
  cbn [Nat.add]. destruct (Nat.eqb_spec (length tag_text) 0) as [|_]; [by eexists|].
  rewrite substr_front. cbn [res_bind].
  destruct (parse_tag tag_text) as [tag|] eqn:Htag'; [|by eexists].
  apply parse_tag_Some in Htag' as [Hnum Hrange].
  rewrite substr_after. cbn [res_bind]. set (field := tag_text ++ equals_sign :: value) in *.
  destruct (IH (pre ++ field ++ [soh]) body' (add tag value parsed)) as (out & Hout & Hspec).
  { rewrite length_app in Hf. simpl in Hf. lia. }
  exists out. split.
  - rewrite <- Hout. f_equal; [by rewrite <- !(assoc_L (++))|rewrite !length_app; simpl; lia..].
  - destruct out as [e|m]; [done|]. destruct Hspec as (fs & Hb & ->).
    exists (Field.mk tag value :: fs). split.
    + replace (field ++ soh :: body') with (tag_text ++ [equals_sign] ++ value ++ [soh] ++ body')
        by (unfold field; by rewrite <- !(assoc_L (++))).
      apply (body_cons tag_text (Field.mk tag value)); [done|done| |done].
      intros Hin. apply Hl1. unfold field. set_solver.
    + unfold add. cbn. by rewrite <- (assoc_L (++)).
Qed.

Lemma parse_fields_complete fuel pre body post parsed fs :
  (length body < fuel)%nat → Body body fs →
  parse_fields fuel (pre ++ body ++ post) (length pre + length body) (length pre) parsed =
    Ok (inr (Message.mk (Message.fields_ parsed ++ fs))).
Proof.
  intros Hf Hb. revert pre fuel parsed Hf.
  induction Hb as [|tag_text f body fs Hnum Hrange Hv Hb IH]; intros pre [|fuel] parsed Hf; try lia;
    cbn [parse_fields].
  { rewrite (proj2 (Nat.ltb_ge _ _)) by (simpl; lia). rewrite (right_id_L [] (++)). by destruct parsed. }
  set (field := tag_text ++ equals_sign :: Field.value f).
  replace (tag_text ++ [equals_sign] ++ Field.value f ++ [soh] ++ body) with (field ++ soh :: body) in *
    by (unfold field; by rewrite <- !(assoc_L (++))).
  assert (soh ∉ field) as Hsoh.
  { unfold field. rewrite not_elem_of_app, not_elem_of_cons. split_and!; [by eapply numeral_no|done|done]. }
  rewrite length_app in *. simpl in Hf. rewrite (proj2 (Nat.ltb_lt _ _)) by (simpl; lia).
  rewrite <- (assoc_L (++)). simpl ((soh :: body) ++ post). rewrite find_app by done.
  rewrite (proj2 (Nat.leb_gt _ _)) by (simpl; lia).
  replace (length pre + length field - length pre)%nat with (length field) by lia.
  rewrite substr_app. cbn [res_bind].
  unfold field at 1. rewrite (find_front equals_sign tag_text (Field.value f)) by by eapply numeral_no.
  destruct (Nat.eqb_spec (length tag_text) 0) as [H0|_].
  { by destruct Hnum as [Hne _], tag_text. }
  unfold field at 1. rewrite substr_front. cbn [res_bind].
  rewrite (proj2 (parse_tag_Some _ _) (conj Hnum Hrange)).
  unfold field at 1. rewrite substr_after. cbn [res_bind].
  replace (Message.fields_ parsed ++ f :: fs)
    with (Message.fields_ (add (Field.tag f) (Field.value f) parsed) ++ fs)
    by (cbn; rewrite <- (assoc_L (++)); by destruct f).
  rewrite <- (IH (pre ++ field ++ [soh]) fuel (add (Field.tag f) (Field.value f) parsed)) by lia.
  - f_equal; [by rewrite <- !(assoc_L (++))|rewrite !length_app; simpl; lia..].
Qed.

Definition result_ok (r : ParseResult.t) : Prop :=
  match ParseResult.message r with
  | Some _ => ParseResult.error r = ""%string
  | None => ParseResult.error r ≠ ""%string
  end.

Lemma failure_ok e (P : Message.t → Prop) : e ≠ ""%string →
  ∃ r, failure e = Ok r ∧ result_ok r ∧ ∀ m, ParseResult.message r = Some m → P m.
Proof. intros He. by eexists. Qed.

Lemma parse_body_sound lead body post :
  ∃ r, parse_body (lead ++ body ++ post) (length lead) (length lead + length body) = Ok r ∧
    result_ok r ∧
    ∀ m, ParseResult.message r = Some m → Body body (fields m) ∧ typed m.
Proof.
  destruct (parse_fields_sound (S (length (lead ++ body ++ post))) lead body post (Message.mk []))
    as (out & Hout & Hspec); [rewrite !length_app; lia|].
  unfold parse_body. rewrite Hout. cbn [res_bind].
  destruct out as [e|m]; [by apply failure_ok|]. destruct Hspec as (fs & Hb & ->).
  destruct (get 35 _) as [[|c text]|] eqn:Hget; [by apply failure_ok| |by apply failure_ok].
  eexists. split; [done|]. split; [done|]. intros m [= <-]. split; [done|]. by exists c, text.
Qed.

Lemma parse_body_complete lead body post m :
  Body body (fields m) → typed m →
  parse_body (lead ++ body ++ post) (length lead) (length lead + length body) =
    Ok (ParseResult.mk (Some m) "").
Proof.
  intros Hb (c & text & Hget). unfold parse_body.
  rewrite (parse_fields_complete (S (length (lead ++ body ++ post))) lead body post (Message.mk []) _ ltac:(rewrite !length_app; lia) Hb).
  cbn [res_bind Message.fields_ app]. destruct m as [fs]. cbn [fields Message.fields_] in *.
  by rewrite Hget.
Qed.

Lemma char_at_app l1 c l2 : Text.char_at (length l1) (l1 ++ c :: l2) = Ok c.
Proof. unfold Text.char_at. by rewrite list_lookup_middle. Qed.

(** The trailer, when the text splits as its positions say. *)
Lemma parse_trailer_split lead body checksum_text :
  length checksum_text = 3%nat →
  let wire := lead ++ body ++ bytes_of "10=" ++ checksum_text ++ [soh] in
  parse_trailer wire (length lead) (length lead + length body) =
    match parse_size checksum_text with
    | None => failure "invalid CheckSum field"
    | Some value =>
        if value >? 255 then failure "invalid CheckSum field"
        else if negb (checksum (lead ++ body) =? value) then failure "CheckSum mismatch"
        else parse_body wire (length lead) (length lead + length body)
    end.
Proof.
  intros Hct wire. unfold parse_trailer.
  assert (length lead + length body = length (lead ++ body))%nat as Hoff by (by rewrite length_app).
  assert (wire = (lead ++ body) ++ bytes_of "10=" ++ checksum_text ++ [soh]) as Hw
    by (unfold wire; by rewrite (assoc_L (++))).
  assert (length wire = length (lead ++ body) + 7)%nat as Hlen.
  { rewrite Hw, !length_app, Hct. simpl. lia. }
  rewrite Hoff. rewrite (proj2 (Nat.eqb_eq _ _)) by lia. cbn [negb].
  rewrite Hw at 1. rewrite substr_from_app. cbn [res_bind]. rewrite starts_with_app. cbn [negb].
  assert (last wire = Some soh) as -> by (unfold wire; by rewrite !(assoc_L (++)), last_snoc).
  rewrite bool_decide_eq_true_2 by done. cbn [negb].
  assert (Text.substr (length (lead ++ body) + 3) 3 wire = Ok checksum_text) as ->.
  { rewrite Hw. rewrite <- Hct at 2.
    replace (length (lead ++ body) + 3)%nat with (length ((lead ++ body) ++ bytes_of "10="))
      by (rewrite length_app; done).
    rewrite (assoc_L (++)). apply substr_app. }
  cbn [res_bind]. destruct (parse_size checksum_text) as [value|]; [|done].
  destruct (value >? 255); [done|].
  assert (Text.char_at (length (lead ++ body) + 6) wire = Ok soh) as ->.
  { rewrite Hw.
    replace (length (lead ++ body) + 6)%nat with (length ((lead ++ body) ++ bytes_of "10=" ++ checksum_text))
      by (rewrite !length_app, Hct; simpl; lia).
    rewrite !(assoc_L (++)). apply char_at_app. }
  cbn [res_bind]. rewrite bool_decide_eq_true_2 by done. cbn [negb].
  rewrite Hw at 1. by rewrite checksum_before_app.
Qed.

Lemma failure_shape e : e ≠ ""%string → ∃ e', e' ≠ ""%string ∧ failure e = failure e'.
Proof. intros He. by exists e. Qed.

Lemma parse_trailer_shape lead body rest :
  (∃ checksum_text, rest = bytes_of "10=" ++ checksum_text ++ [soh] ∧ length checksum_text = 3%nat) ∨
  (∃ e, e ≠ ""%string ∧
     parse_trailer (lead ++ body ++ rest) (length lead) (length lead + length body) = failure e).
Proof.
  unfold parse_trailer.
  destruct (Nat.eqb_spec (length lead + length body + 7) (length (lead ++ body ++ rest))) as [Hlen|];
    cbn [negb]; [|right; by apply failure_shape].
  rewrite !length_app in Hlen.
  rewrite (assoc_L (++)), <- length_app, substr_from_app. cbn [res_bind].
  destruct (Text.starts_with _ rest) eqn:Hs; cbn [negb]; [|right; by apply failure_shape].
  apply starts_with_true in Hs. destruct (drop _ rest) as [|a [|b [|c [|d [|]]]]] eqn:Hd;
    rewrite Hs in Hlen; simpl in Hlen; try lia.
  destruct (bool_decide (last _ = Some soh)) eqn:Hlast; cbn [negb]; [|right; by apply failure_shape].
  apply bool_decide_eq_true_1 in Hlast. rewrite Hs in Hlast. left. exists [a; b; c].
  change (bytes_of "10=" ++ [a; b; c; d]) with (bytes_of "10=" ++ [a; b; c] ++ [d]) in Hs, Hlast.
  rewrite !(assoc_L (++)), last_snoc in Hlast. injection Hlast as ->. by split.
Qed.

Lemma parse_trailer_sound lead body rest :
  ∃ r, parse_trailer (lead ++ body ++ rest) (length lead) (length lead + length body) = Ok r ∧
    result_ok r ∧
    ∀ m, ParseResult.message r = Some m →
      (∃ checksum_text, rest = bytes_of "10=" ++ checksum_text ++ [soh] ∧
         length checksum_text = 3%nat ∧ numeral checksum_text (checksum (lead ++ body))) ∧
      Body body (fields m) ∧ typed m.
Proof.
  destruct (parse_trailer_shape lead body rest) as [(ct & -> & Hct)|(e & He & ->)]; [|by apply failure_ok].
  rewrite parse_trailer_split by done.
  destruct (parse_size ct) as [value|] eqn:Hv; [|by apply failure_ok].
  destruct (value >? 255); [by apply failure_ok|].
  destruct (Z.eqb_spec (checksum (lead ++ body)) value) as [<-|]; [|by apply failure_ok]. cbn [negb].
  destruct (parse_body_sound lead body (bytes_of "10=" ++ ct ++ [soh])) as (r & Hr & Hok & Hm).
  exists r. split; [done|]. split; [done|]. intros m Hr'. split; [|by apply Hm].
  exists ct. split_and!; [done..|]. by apply parse_size_Some in Hv as [Hv _].
Qed.

(** The lead, when the text splits as the prefix and the rest. *)
Lemma find_soh_prefix w : Text.find soh 0 (prefix ++ w) = Some 9%nat.
Proof. done. Qed.

Lemma parse_lead w :
  parse (prefix ++ bytes_of "9=" ++ w) =
    match Text.index_of soh w with
    | None => failure "truncated BodyLength"
    | Some i =>
        match parse_size (take i w) with
        | None => failure "invalid BodyLength"
        | Some body_length =>
            let wire := prefix ++ bytes_of "9=" ++ w in
            if body_length >? Z.of_nat (length wire - (12 + i + 1))
            then failure "BodyLength exceeds message size"
            else parse_trailer wire (12 + i + 1) (12 + i + 1 + Z.to_nat body_length)
        end
    end.
Proof.
  unfold parse, starts_with_fix44. rewrite starts_with_app. cbn [negb]. rewrite find_soh_prefix.
  rewrite (substr_from_app prefix _ : Text.substr_from (9 + 1) _ = _). cbn [res_bind].
  rewrite starts_with_app. cbn [negb].
  assert (Text.find soh (9 + 1) (prefix ++ bytes_of "9=" ++ w) = Nat.add 12 <$> Text.index_of soh w) as ->.
  { unfold Text.find. change (drop (9 + 1) _) with (bytes_of "9=" ++ w). cbn.
    by destruct (Text.index_of soh w). }
  destruct (Text.index_of soh w) as [i|]; [|done]. cbn [fmap option_fmap option_map].
  replace (12 + i - (9 + 1 + 2))%nat with i by lia.
  rewrite (substr_ok 12) by (rewrite !length_app; simpl; lia). cbn [res_bind].
  by change (drop 12 _) with w.
Qed.

Lemma parse_sound wire :
  ∃ r, parse wire = Ok r ∧ result_ok r ∧
    ∀ m, ParseResult.message r = Some m →
      ∃ lead body, Frame wire lead body ∧ Body body (fields m) ∧ typed m.
Proof.
  destruct (Text.starts_with prefix wire) eqn:Hp.
  2:{ unfold parse, starts_with_fix44. rewrite Hp. by apply failure_ok. }
  apply starts_with_true in Hp. set (w1 := drop _ wire) in Hp.
  destruct (Text.starts_with (bytes_of "9=") w1) eqn:H9.
  2:{ rewrite Hp. unfold parse, starts_with_fix44. rewrite starts_with_app, find_soh_prefix. cbn [negb].
      rewrite (substr_from_app prefix _ : Text.substr_from (9 + 1) _ = _). cbn [res_bind].
      rewrite H9. by apply failure_ok. }
  apply starts_with_true in H9. rewrite H9 in Hp. rewrite Hp. generalize (drop (length (bytes_of "9=")) w1).
  clear. intros w.
  rewrite parse_lead. destruct (Text.index_of soh w) as [i|] eqn:Hi; [|by apply failure_ok].
  apply index_of_Some in Hi as (lt & w3 & -> & <- & Hlt). rewrite take_app_length.
  destruct (parse_size lt) as [n|] eqn:Hn; [|by apply failure_ok].
  apply parse_size_Some in Hn as [Hnum Hn64]. pose proof (numeral_nonneg _ _ Hnum) as Hn0.
  cbn zeta. destruct (Z.gtb_spec n (Z.of_nat (length (prefix ++ bytes_of "9=" ++ lt ++ soh :: w3) -
    (12 + length lt + 1)))) as [|Hle]; [by apply failure_ok|].
  set (lead := prefix ++ bytes_of "9=" ++ lt ++ [soh]).
  assert (prefix ++ bytes_of "9=" ++ lt ++ soh :: w3 = lead ++ w3) as Hw
    by (unfold lead; by rewrite <- !(assoc_L (++))).
  assert (12 + length lt + 1 = length lead)%nat as Hlead
    by (unfold lead; rewrite !length_app; simpl; lia).
  rewrite Hw, Hlead in *. rewrite length_app in Hle.
  set (body := take (Z.to_nat n) w3).
  assert (length body = Z.to_nat n) as Hbody by (unfold body; rewrite length_take; lia).
  rewrite <- (take_drop (Z.to_nat n) w3). fold body. rewrite <- Hbody.
  destruct (parse_trailer_sound lead body (drop (length body) w3)) as (r & Hr & Hok & Hm).
  exists r. split; [done|]. split; [done|]. intros m Hm'.
  destruct (Hm m Hm') as ((ct & Hct & Hct3 & Hctn) & Hb & Ht).
  exists lead, body. split; [|done]. rewrite Hct. unfold lead. rewrite <- !(assoc_L (++)).
  apply frame; [|lia|done|].
  - by rewrite Hbody, Z2Nat.id.
  - unfold lead in Hctn. by rewrite <- !(assoc_L (++)) in Hctn.
Qed.

Lemma parse_complete wire lead body m :
  Frame wire lead body → Body body (fields m) → typed m →
  parse wire = Ok (ParseResult.mk (Some m) "").
Proof.
  intros [lt b ct Hlt Hb64 Hct Hctn] Hb Ht.
  rewrite parse_lead.
  assert (soh ∉ lt) as Hsoh by by eapply numeral_no.
  rewrite (index_of_app soh lt (b ++ bytes_of "10=" ++ ct ++ [soh]) Hsoh : Text.index_of soh (lt ++ [soh] ++ _) = _).
  rewrite take_app_length.
  rewrite (proj2 (parse_size_Some _ _) (conj Hlt Hb64)). cbn zeta.
  set (l := prefix ++ bytes_of "9=" ++ lt ++ [soh]).
  assert (prefix ++ bytes_of "9=" ++ lt ++ [soh] ++ b ++ bytes_of "10=" ++ ct ++ [soh] =
          l ++ b ++ bytes_of "10=" ++ ct ++ [soh]) as Hw by (unfold l; by rewrite <- !(assoc_L (++))).
  assert (12 + length lt + 1 = length l)%nat as Hl
    by (unfold l; rewrite !length_app; simpl; lia).
  change (lt ++ soh :: ?x) with (lt ++ [soh] ++ x). rewrite Hw, Hl, Nat2Z.id.
  destruct (Z.gtb_spec (Z.of_nat (length b)) (Z.of_nat (length (l ++ b ++ bytes_of "10=" ++ ct ++ [soh]) - length l))) as [Hgt|_].
  { rewrite !length_app in Hgt. lia. }
  rewrite parse_trailer_split by done.
  replace (checksum (l ++ b)) with (checksum (prefix ++ bytes_of "9=" ++ lt ++ [soh] ++ b))
    by (unfold l; by rewrite <- !(assoc_L (++))).
  pose proof (checksum_range (prefix ++ bytes_of "9=" ++ lt ++ [soh] ++ b)).
  rewrite (proj2 (parse_size_Some ct _)) by (split; [exact Hctn|lia]).
  rewrite Z.gtb_ltb, (proj2 (Z.ltb_ge _ _)), Z.eqb_refl by lia. cbn [negb].
  by apply parse_body_complete.
Qed.

(** ** Encoding *)

Record valid_field (f : Field.t) : Prop := {
  valid_tag : 0 < Field.tag f < 2 ^ 31;
  valid_not_generated : is_generated (Field.tag f) = false;
  valid_value : soh ∉ Field.value f
}.

(** A message the codec can carry. *)
Record valid (m : Message.t) : Prop := {
  valid_fields : Forall valid_field (fields m);
  valid_typed : typed m;
  valid_size : Z.of_nat (length (encode m)) < 2 ^ 64
}.

Lemma encode_body_app fs acc :
  foldl (λ body field,
      if is_generated (Field.tag field) then body
      else body ++ to_string (Field.tag field) ++ [equals_sign] ++ Field.value field ++ [soh])
    acc fs = acc ++ encode_body fs.
Proof.
  revert acc. induction fs as [|f fs IH]; intros acc; cbn; [by rewrite (right_id_L [] (++))|].
  unfold encode_body. cbn [foldl]. rewrite !IH.
  destruct (is_generated _); [done|]. by rewrite <- !(assoc_L (++)).
Qed.

Lemma encode_body_valid fs : Forall valid_field fs → Body (encode_body fs) fs.
Proof.
  induction 1 as [|f fs [Ht Hg Hv] _ IH]; [constructor|].
  unfold encode_body. cbn [foldl]. rewrite Hg, encode_body_app, <- !(assoc_L (++)).
  apply body_cons; [apply to_string_numeral; lia|done..].
Qed.

Lemma checksum_digits l :
  numeral (three_digit_checksum (checksum l)) (checksum l) ∧
  length (three_digit_checksum (checksum l)) = 3%nat.
Proof. apply three_digits. pose proof (checksum_range l). lia. Qed.

Lemma encode_unfold m :
  let body := encode_body (fields m) in
  let lead := prefix ++ bytes_of "9=" ++ to_string (Z.of_nat (length body)) ++ [soh] in
  encode m = lead ++ body ++ bytes_of "10=" ++ three_digit_checksum (checksum (lead ++ body)) ++ [soh].
Proof.
  intros body lead. unfold encode. fold body.
  assert (bytes_of "8=FIX.4.4" ++ [soh] ++ bytes_of "9=" ++ to_string (Z.of_nat (length body)) ++
          [soh] ++ body = lead ++ body) as -> by (unfold lead, prefix; by rewrite <- !(assoc_L (++))).
  cbn zeta. rewrite <- (right_id_L [] (++) (lead ++ body)) at 2.
  rewrite checksum_before_app. by rewrite <- (assoc_L (++)).
Qed.

Lemma encode_frame m : Z.of_nat (length (encode m)) < 2 ^ 64 →
  ∃ lead, Frame (encode m) lead (encode_body (fields m)).
Proof.
  intros Hsize. pose proof (encode_unfold m) as He. cbn zeta in He. rewrite He in *.
  rewrite !length_app in Hsize. eexists. rewrite <- !(assoc_L (++)).
  apply frame; [apply to_string_numeral; lia|lia|apply checksum_digits|apply checksum_digits].
Qed.

(** ** Extraction *)

(** What extraction looks at: the prefix, the length, and where the trailer
    begins. *)
Inductive Envelope : list byte → Prop :=
  | envelope length_text body trailer :
      numeral length_text (Z.of_nat (length body)) → length trailer = 4%nat →
      Z.of_nat (length (prefix ++ bytes_of "9=" ++ length_text ++ [soh] ++ body ++
                        bytes_of "10=" ++ trailer)) < 2 ^ 64 →
      Envelope (prefix ++ bytes_of "9=" ++ length_text ++ [soh] ++ body ++ bytes_of "10=" ++ trailer).

(** The beginning of an envelope, not all of it. *)
Definition Partial (p : list byte) : Prop :=
  p = [] ∨ ∃ w q, Envelope w ∧ w = p ++ q ∧ q ≠ [].

Lemma frame_envelope wire lead body :
  Frame wire lead body → Z.of_nat (length wire) < 2 ^ 64 → Envelope wire.
Proof. intros [lt b ct Hlt Hb Hct _] Hl. apply envelope; [done|rewrite length_app, Hct; done|done]. Qed.

Lemma encode_envelope m : Z.of_nat (length (encode m)) < 2 ^ 64 → Envelope (encode m).
Proof. intros H. destruct (encode_frame m H) as [lead Hf]. by eapply frame_envelope. Qed.

Lemma envelope_nonempty w : Envelope w → w ≠ [].
Proof. by intros [? ? ? _ _ _]. Qed.

(** What follows the prefix and the second tag decides. *)
Lemma extract_lead w :
  extract_one (prefix ++ bytes_of "9=" ++ w) =
    match Text.index_of soh w with
    | None => (Ok need_more_data, prefix ++ bytes_of "9=" ++ w)
    | Some i =>
        let buffer := prefix ++ bytes_of "9=" ++ w in
        match parse_size (take i w) with
        | None => (Ok (invalid_data "invalid BodyLength"), buffer)
        | Some body_length =>
            let body_start := (12 + i + 1)%nat in
            if body_length >? u64 (2 ^ 64 - 1 - Z.of_nat body_start - 7)
            then (Ok (invalid_data "BodyLength overflow"), buffer)
            else
              let total_size := u64 (Z.of_nat body_start + body_length + 7) in
              if Z.of_nat (length buffer) <? total_size then (Ok need_more_data, buffer)
              else
                match Text.same_at (body_start + Z.to_nat body_length) 3 (bytes_of "10=") buffer with
                | Throw e => (Throw e, buffer)
                | Ok false => (Ok (invalid_data "BodyLength does not point to CheckSum"), buffer)
                | Ok true =>
                    (Ok (ExtractResult.mk ExtractStatus.MessageReady (take (Z.to_nat total_size) buffer) ""),
                     drop (Z.to_nat total_size) buffer)
                end
        end
    end.
Proof.
  unfold extract_one, bind at 1, Prelude.get. cbn [length Nat.eqb prefix app bytes_of].
  change (length (prefix ++ bytes_of "9=" ++ w) =? 0)%nat with false.
  rewrite starts_with_app. cbn [negb].
  unfold extract_framed, bind at 1, Prelude.get. rewrite find_soh_prefix.
  destruct (Nat.ltb_spec (length (prefix ++ bytes_of "9=" ++ w)) (9 + 1 + 2)) as [Hl|_];
    [rewrite !length_app in Hl; simpl in Hl; lia|].
  unfold Text.same_at at 1. rewrite (substr_ok 10 2) by (rewrite !length_app; simpl; lia).
  change (take 2 (drop 10 (prefix ++ bytes_of "9=" ++ w))) with (bytes_of "9=").
  unfold bind at 1, lift at 1. cbn [res_bind]. rewrite bool_decide_eq_true_2 by done. cbn [negb].
  assert (Text.find soh (9 + 1) (prefix ++ bytes_of "9=" ++ w) = Nat.add 12 <$> Text.index_of soh w) as ->.
  { unfold Text.find. change (drop (9 + 1) _) with (bytes_of "9=" ++ w). cbn.
    by destruct (Text.index_of soh w). }
  destruct (Text.index_of soh w) as [i|] eqn:Hi; [|done]. cbn [fmap option_fmap option_map].
  replace (12 + i - (9 + 1 + 2))%nat with i by lia.
  rewrite (substr_ok 12) by (rewrite !length_app; simpl; lia).
  change (drop 12 (prefix ++ bytes_of "9=" ++ w)) with w. unfold bind at 1, lift at 1.
  destruct (parse_size (take i w)) as [n|]; [|done]. cbn zeta.
  destruct (n >? _); [done|]. destruct (_ <? _); [done|].
  unfold bind at 1, lift at 1. destruct (Text.same_at _ _ _ _) as [[]|e]; cbn [negb]; [|done..].
  unfold bind at 1, lift at 1. by rewrite substr_ok by lia.
Qed.

Lemma extract_numbers (lt body : list byte) (total : nat) :
  numeral lt (Z.of_nat (length body)) → total = (12 + length lt + 1 + length body + 7)%nat →
  Z.of_nat total < 2 ^ 64 →
  parse_size lt = Some (Z.of_nat (length body)) ∧
  (Z.of_nat (length body) >? u64 (2 ^ 64 - 1 - Z.of_nat (12 + length lt + 1) - 7)) = false ∧
  u64 (Z.of_nat (12 + length lt + 1) + Z.of_nat (length body) + 7) = Z.of_nat total.
Proof.
  intros Hnum Htotal Hlt. split_and!.
  - apply parse_size_Some. split; [done|lia].
  - rewrite u64_id by (unfold in_u64; lia). rewrite Z.gtb_ltb. apply Z.ltb_ge. lia.
  - rewrite u64_id by (unfold in_u64; lia). lia.
Qed.

Lemma extract_ready w rest :
  Envelope w →
  extract_one (w ++ rest) = (Ok (ExtractResult.mk ExtractStatus.MessageReady w ""), rest).
Proof.
  intros [lt body trailer Hnum Htrailer Hsize].
  set (v := prefix ++ bytes_of "9=" ++ lt ++ [soh] ++ body ++ bytes_of "10=" ++ trailer) in *.
  assert (length v = 12 + length lt + 1 + length body + 7)%nat as Hlen
    by (unfold v; rewrite !length_app, Htrailer; simpl; lia).
  destruct (extract_numbers lt body (length v) Hnum Hlen Hsize) as (Hparse & Hover & Htotal).
  assert (v ++ rest = prefix ++ bytes_of "9=" ++ (lt ++ soh :: body ++ bytes_of "10=" ++ trailer ++ rest)) as Hw
    by (unfold v; rewrite <- !(assoc_L (++)); done).
  rewrite Hw, extract_lead, index_of_app by by eapply numeral_no.
  rewrite take_app_length, Hparse, <- Hw. cbn zeta. rewrite Hover, Htotal.
  destruct (Z.ltb_spec (Z.of_nat (length (v ++ rest))) (Z.of_nat (length v))) as [Hl|_];
    [rewrite length_app in Hl; lia|].
  assert (Text.same_at (12 + length lt + 1 + Z.to_nat (Z.of_nat (length body))) 3 (bytes_of "10=") (v ++ rest) = Ok true) as ->.
  { unfold Text.same_at. rewrite Nat2Z.id.
    replace (12 + length lt + 1 + length body)%nat
      with (length (prefix ++ bytes_of "9=" ++ lt ++ [soh] ++ body)) by (rewrite !length_app; simpl; lia).
    replace (v ++ rest) with ((prefix ++ bytes_of "9=" ++ lt ++ [soh] ++ body) ++ bytes_of "10=" ++ trailer ++ rest)
      by (unfold v; by rewrite <- !(assoc_L (++))).
    by rewrite (substr_app _ (bytes_of "10=")). }
  by rewrite Nat2Z.id, take_app_length, drop_app_length.
Qed.

Lemma app_split_ge {A} (l1 l2 r1 r2 : list A) :
  l1 ++ l2 = r1 ++ r2 → (length r1 ≤ length l1)%nat → ∃ k, l1 = r1 ++ k ∧ r2 = k ++ l2.
Proof.
  intros [H|(k & -> & ->)]%app_eq_inv Hl; [done|]. rewrite length_app in Hl.
  destruct k; [|simpl in Hl; lia]. exists []. by rewrite !(right_id_L [] (++)).
Qed.

Lemma extract_short k :
  (k < 12)%nat →
  let p := take k (prefix ++ bytes_of "9=") in extract_one p = (Ok need_more_data, p).
Proof. intros Hk. do 12 (destruct k as [|k]; [vm_compute; reflexivity|]). lia. Qed.

Lemma extract_partial p : Partial p → extract_one p = (Ok need_more_data, p).
Proof.
  intros [->|(w & q & Hw & Heq & Hq)]; [done|].
  destruct Hw as [lt body trailer Hnum Htrailer Hsize].
  set (v := prefix ++ bytes_of "9=" ++ lt ++ [soh] ++ body ++ bytes_of "10=" ++ trailer) in *.
  assert (length v = 12 + length lt + 1 + length body + 7)%nat as Hlen
    by (unfold v; rewrite !length_app, Htrailer; simpl; lia).
  assert (length p < length v)%nat as Hlt.
  { rewrite Heq, length_app. destruct q; [done|]. simpl. lia. }
  destruct (decide (length p < 12)%nat) as [Hshort|Hlong].
  { assert (p = take (length p) (prefix ++ bytes_of "9=")) as ->; [|by apply extract_short].
    apply (f_equal (take (length p))) in Heq. rewrite take_app_length in Heq.
    rewrite <- Heq at 1. unfold v. rewrite (assoc_L (++)). apply take_app_le. simpl. lia. }
  assert (v = (prefix ++ bytes_of "9=") ++ lt ++ [soh] ++ body ++ bytes_of "10=" ++ trailer) as Hw
    by (unfold v; by rewrite (assoc_L (++))).
  rewrite Heq in Hw. destruct (app_split_ge _ _ _ _ Hw) as (p' & -> & Hp'); [simpl; lia|].
  rewrite <- (assoc_L (++)), extract_lead. destruct (Text.index_of soh p') as [i|] eqn:Hi; [|done].
  apply index_of_Some in Hi as (l1 & l2 & -> & <- & Hl1). rewrite take_app_length.
  assert (l1 = lt) as ->.
  { pose proof (index_of_app soh l1 (l2 ++ q) Hl1) as H1.
    replace (l1 ++ soh :: l2 ++ q) with ((l1 ++ soh :: l2) ++ q) in H1 by (by rewrite <- (assoc_L (++))).
    rewrite <- Hp' in H1. simpl in H1. rewrite index_of_app in H1 by by eapply numeral_no.
    injection H1 as H1. rewrite <- (assoc_L (++)) in Hp'. by apply app_inj_1 in Hp' as [-> _]. }
  destruct (extract_numbers lt body (length v) Hnum Hlen Hsize) as (Hparse & Hover & Htotal).
  rewrite Hparse. cbn zeta. rewrite Hover, Htotal, (proj2 (Z.ltb_lt _ _)); [done|].
  rewrite <- (assoc_L (++)) in Hlt. lia.
Qed.

(** Bytes before the first prefix are dropped. *)
Lemma extract_resync garbage w rest :
  Envelope w → garbage ≠ [] →
  Text.find_text prefix (garbage ++ w ++ rest) = Some (length garbage) →
  extract_one (garbage ++ w ++ rest) = extract_one (w ++ rest).
Proof.
  intros Hw Hg Hfind.
  assert (Text.starts_with prefix (garbage ++ w ++ rest) = false) as Hs.
  { destruct (Text.starts_with _ _) eqn:Hs; [|done]. exfalso.
    assert (Text.find_text prefix (garbage ++ w ++ rest) = Some O) as H0
      by (destruct (garbage ++ w ++ rest); cbn [Text.find_text]; by rewrite Hs).
    rewrite Hfind in H0. by destruct garbage. }
  assert (Text.starts_with prefix (w ++ rest) = true) as Hs'
    by (destruct Hw; rewrite <- (assoc_L (++)); apply starts_with_app).
  unfold extract_one, bind at 1, Prelude.get.
  destruct (Nat.eqb_spec (length (garbage ++ w ++ rest)) 0) as [H0|_];
    [apply length_zero_iff_nil in H0; by destruct garbage|].
  rewrite Hs, Hfind. cbn [negb]. unfold bind at 1, put. rewrite drop_app_length.
  unfold bind at 1. destruct (Nat.eqb_spec (length (w ++ rest)) 0) as [H0|_].
  { apply length_zero_iff_nil, app_nil in H0 as [-> _]. by apply envelope_nonempty in Hw. }
  by rewrite Hs'.
Qed.

(** ** Streams *)

(* what a reader of the socket does after each chunk: extract until the buffer
   holds no whole message *)
Fixpoint extract_all (fuel : nat) : M (list byte) (ExtractStatus.t * list (list byte)) :=
  match fuel with
  | O => throw OutOfFuel
  | S fuel' =>
      extracted <- extract_one ;;
      match ExtractResult.status extracted with
      | ExtractStatus.MessageReady =>
          rest <- extract_all fuel' ;;
          ret (rest.1, ExtractResult.wire_message extracted :: rest.2)
      | status => ret (status, [])
      end
  end.

(* each chunk is appended to what the previous ones have left *)
Fixpoint receive_chunks (chunks : list (list byte)) (buffer : list byte) :
    res (ExtractStatus.t * list (list byte) * list byte) :=
  match chunks with
  | [] => Ok (ExtractStatus.NeedMoreData, [], buffer)
  | chunk :: chunks' =>
      let buffer := buffer ++ chunk in
      match extract_all (S (length buffer)) buffer with
      | (Throw e, _) => Throw e
      | (Ok (ExtractStatus.NeedMoreData, wires), buffer') =>
          let* rest := receive_chunks chunks' buffer' in
          Ok (rest.1.1, wires ++ rest.1.2, rest.2)
      | (Ok (status, wires), buffer') => Ok (status, wires, buffer')
      end
  end.

Lemma extract_all_spec fuel ws p :
  (length ws < fuel)%nat → Forall Envelope ws → Partial p →
  extract_all fuel (concat ws ++ p) = (Ok (ExtractStatus.NeedMoreData, ws), p).
Proof.
  intros Hf Hws Hp. revert fuel Hf. induction Hws as [|w ws Hw Hws IH]; intros [|fuel] Hf; simpl in Hf; try lia;
    cbn [extract_all concat].
  - unfold bind. cbn [app]. by rewrite extract_partial.
  - unfold bind at 1. rewrite <- (assoc_L (++)), extract_ready by done. cbn [ExtractResult.status].
    unfold bind. by rewrite IH by lia.
Qed.

(** A stream cut anywhere is whole messages and the beginning of one. *)
Lemma stream_cut ws p s1 s2 :
  Forall Envelope ws → Partial p → s1 ++ s2 = concat ws ++ p →
  ∃ ws1 p1 ws2, s1 = concat ws1 ++ p1 ∧ Partial p1 ∧ ws = ws1 ++ ws2 ∧ p1 ++ s2 = concat ws2 ++ p.
Proof.
  intros Hws Hp. revert s1. induction Hws as [|w ws Hw Hws IH]; intros s1 Heq.
  - exists [], s1, []. split_and!; [done| |done|done]. cbn in Heq.
    destruct Hp as [->|(w & q & Hw & -> & Hq)].
    + left. by apply app_nil in Heq as [-> _].
    + right. exists (s1 ++ s2 ++ q), (s2 ++ q). split_and!; [|done|].
      * rewrite (assoc_L (++)), Heq. done.
      * intros H. by apply app_nil in H as [_ ->].
  - cbn [concat] in Heq. rewrite <- (assoc_L (++)) in Heq.
    apply app_eq_inv in Heq as [(k & -> & Hk)|(k & Hk & Hs2)].
    + destruct (IH k) as (ws1 & p1 & ws2 & -> & Hp1 & -> & Heq); [done|].
      exists (w :: ws1), p1, ws2. cbn. by rewrite <- (assoc_L (++)).
    + destruct (decide (k = [])) as [->|Hne].
      * rewrite (right_id_L [] (++)) in Hk. subst s1. destruct (IH []) as (ws1 & p1 & ws2 & H1 & Hp1 & -> & Heq).
        { cbn in Hs2 |- *. done. }
        exists (w :: ws1), p1, ws2. cbn. rewrite <- (assoc_L (++)), <- H1. by rewrite (right_id_L [] (++)).
      * exists [], s1, (w :: ws). split_and!; [done| |done|].
        { right. by exists w, k. }
        cbn. by rewrite Hk, <- !(assoc_L (++)), Hs2.
Qed.

Lemma concat_envelopes_length ws p : Forall Envelope ws → (length ws ≤ length (concat ws ++ p))%nat.
Proof.
  intros H. rewrite length_app. induction H as [|w ws Hw _ IH]; cbn; [lia|].
  rewrite length_app. destruct w; [by apply envelope_nonempty in Hw|]. simpl. lia.
Qed.

Lemma receive_chunks_spec chunks buffer ws p :
  Forall Envelope ws → Partial p → Partial buffer →
  buffer ++ concat chunks = concat ws ++ p →
  receive_chunks chunks buffer = Ok (ExtractStatus.NeedMoreData, ws, p).
Proof.
  intros Hws Hp. revert buffer ws Hws. induction chunks as [|chunk chunks IH]; intros buffer ws Hws Hb Heq.
  - cbn in Heq |- *. rewrite (right_id_L [] (++)) in Heq.
    pose proof (extract_all_spec (S (length ws)) ws p ltac:(lia) Hws Hp) as H.
    rewrite <- Heq in H. cbn [extract_all] in H. unfold bind in H. rewrite extract_partial in H by done.
    by injection H as <- <-.
  - cbn [concat] in Heq. rewrite (assoc_L (++)) in Heq.
    destruct (stream_cut ws p _ _ Hws Hp Heq) as (ws1 & p1 & ws2 & Hcut & Hp1 & -> & Hrest).
    apply Forall_app in Hws as [Hws1 Hws2]. cbn [receive_chunks]. rewrite Hcut.
    pose proof (concat_envelopes_length ws1 p1 Hws1).
    rewrite extract_all_spec by (done || lia). by rewrite (IH p1 ws2).
Qed.

(** ** Any bytes *)

Lemma find_text_Some pattern text i :
  Text.find_text pattern text = Some i →
  Text.starts_with pattern (drop i text) = true ∧ (i ≤ length text)%nat.
Proof.
  revert i. induction text as [|c text IH]; intros i; cbn [Text.find_text];
    destruct (Text.starts_with _ _) eqn:Hs.
  - intros [= <-]. by split.
  - done.
  - intros [= <-]. split; [done|lia].
  - intros (j & Hj & ->)%fmap_Some. destruct (IH j Hj). split; [done|simpl; lia].
Qed.

(** What an extraction may do to the buffer: take a message that is not empty,
    or take nothing; bytes in front of the prefix may go. *)
Definition extracts (b : list byte) (r : ExtractResult.t) (b' : list byte) : Prop :=
  match ExtractResult.status r with
  | ExtractStatus.MessageReady =>
      ExtractResult.wire_message r ≠ [] ∧
      ∃ dropped, b = dropped ++ ExtractResult.wire_message r ++ b'
  | _ => ∃ dropped, b = dropped ++ b'
  end.

Lemma extracts_nothing b r : ExtractResult.status r ≠ ExtractStatus.MessageReady → extracts b r b.
Proof. unfold extracts. by destruct (ExtractResult.status r); [exists []| |exists []]. Qed.

Lemma extract_prefixed_total w :
  Z.of_nat (length (prefix ++ w)) < 2 ^ 63 →
  ∃ r b', extract_one (prefix ++ w) = (Ok r, b') ∧ extracts (prefix ++ w) r b'.
Proof.
  intros Hsize. destruct (decide (length w < 2)%nat) as [Hshort|Hlong].
  { exists need_more_data, (prefix ++ w). split; [|by apply extracts_nothing].
    destruct w as [|a [|b w]]; [vm_compute; reflexivity| |simpl in Hshort; lia].
    unfold extract_one, bind at 1, Prelude.get. by rewrite starts_with_app. }
  destruct (Text.starts_with (bytes_of "9=") w) eqn:H9.
  2:{ exists (invalid_data "BodyLength must be the second field"), (prefix ++ w).
      split; [|by apply extracts_nothing].
      unfold extract_one, bind at 1, Prelude.get. rewrite starts_with_app.
      change (length (prefix ++ w) =? 0)%nat with false. cbn [negb].
      unfold extract_framed, bind at 1, Prelude.get. rewrite find_soh_prefix.
      destruct (Nat.ltb_spec (length (prefix ++ w)) (9 + 1 + 2)) as [Hl|_];
        [rewrite length_app in Hl; simpl in Hl; lia|].
      unfold Text.same_at. rewrite (substr_ok 10 2) by (rewrite length_app; simpl; lia).
      cbn [res_bind]. change (take 2 (drop 10 (prefix ++ w))) with (take (length (bytes_of "9=")) w).
      unfold Text.starts_with in H9. rewrite H9. done. }
  apply starts_with_true in H9. revert H9 Hsize. generalize (drop (length (bytes_of "9=")) w).
  intros v -> Hsize. rewrite extract_lead.
  destruct (Text.index_of soh v) as [i|] eqn:Hi; [|eexists _, _; split; [done|by apply extracts_nothing]].
  apply index_of_Some in Hi as (lt & v' & -> & <- & _).
  destruct (parse_size _) as [n|] eqn:Hn; [|eexists _, _; split; [done|by apply extracts_nothing]].
  apply parse_size_Some in Hn as [Hn ?]. pose proof (numeral_nonneg _ _ Hn). cbn zeta.
  set (b := prefix ++ bytes_of "9=" ++ lt ++ soh :: v') in *.
  assert (12 + length lt + 1 ≤ length b)%nat as Hb by (unfold b; rewrite !length_app; simpl; lia).
  set (body_start := (12 + length lt + 1)%nat) in *.
  destruct (Z.gtb_spec n (u64 (2 ^ 64 - 1 - Z.of_nat body_start - 7))) as [|Hover];
    [eexists _, _; split; [done|by apply extracts_nothing]|].
  rewrite u64_id in Hover by (unfold in_u64; lia).
  rewrite u64_id by (unfold in_u64; lia).
  destruct (Z.ltb_spec (Z.of_nat (length b)) (Z.of_nat body_start + n + 7));
    [eexists _, _; split; [done|by apply extracts_nothing]|].
  unfold Text.same_at. rewrite substr_ok by lia. cbn [res_bind].
  destruct (bool_decide _); [|eexists _, _; split; [done|by apply extracts_nothing]].
  eexists _, _. split; [done|]. unfold extracts. cbn [ExtractResult.status ExtractResult.wire_message].
  split; [|exists []; by rewrite (left_id_L [] (++)), take_drop].
  intros Hnil. apply (f_equal length) in Hnil. rewrite length_take in Hnil. simpl in Hnil. lia.
Qed.

Lemma extract_total b :
  Z.of_nat (length b) < 2 ^ 63 → ∃ r b', extract_one b = (Ok r, b') ∧ extracts b r b'.
Proof.
  intros Hsize. destruct (Text.starts_with prefix b) eqn:Hs.
  { apply starts_with_true in Hs. rewrite Hs in *. by apply extract_prefixed_total. }
  destruct (decide (b = [])) as [->|Hne]; [by exists need_more_data, []; split; [|exists []]|].
  assert (∀ w, extract_framed (prefix ++ w) = extract_one (prefix ++ w)) as Hframed.
  { intros w. unfold extract_one, bind at 1, Prelude.get. by rewrite starts_with_app. }
  unfold extract_one, bind at 1, Prelude.get.
  destruct (Nat.eqb_spec (length b) 0) as [H0%length_zero_iff_nil|_]; [done|]. rewrite Hs. cbn [negb].
  destruct (Text.find_text prefix b) as [next|] eqn:Hfind.
  2:{ destruct (_ <? _)%nat; eexists _, _; (split; [done|by apply extracts_nothing]). }
  apply find_text_Some in Hfind as [Hp%starts_with_true Hnext].
  unfold bind, put. rewrite Hp, Hframed.
  destruct (extract_prefixed_total (drop (length prefix) (drop next b))) as (r & b' & Hr & Hx).
  { rewrite <- Hp, length_drop. lia. }
  exists r, b'. split; [done|]. rewrite <- Hp in Hx. unfold extracts in *.
  rewrite <- (take_drop next b).
  destruct (ExtractResult.status r); [destruct Hx as (d & Hd)|destruct Hx as (Hw & d & Hd)|destruct Hx as (d & Hd)];
    rewrite Hd; [|split; [done|]|]; exists (take next b ++ d); by rewrite <- (assoc_L (++)).
Qed.

(** The loop ends on any bytes: each message it takes shortens the buffer. *)
Lemma extract_all_total fuel b :
  Z.of_nat (length b) < 2 ^ 63 → (length b < fuel)%nat →
  ∃ status wires b', extract_all fuel b = (Ok (status, wires), b') ∧ (length b' ≤ length b)%nat ∧
    status ≠ ExtractStatus.MessageReady.
Proof.
  revert b. induction fuel as [|fuel IH]; intros b Hsize Hf; [lia|]. cbn [extract_all].
  destruct (extract_total b Hsize) as (r & b' & Hr & Hx). unfold bind at 1. rewrite Hr.
  unfold extracts in Hx. destruct (ExtractResult.status r).
  - destruct Hx as [d ->]. eexists _, _, b'. rewrite length_app. split_and!; [done|lia|done].
  - destruct Hx as (Hw & d & ->). rewrite !length_app in *.
    destruct (ExtractResult.wire_message r) as [|c w] eqn:Hc; [done|]. simpl in *.
    destruct (IH b') as (status & wires & b2 & Hrun & Hle & Hst); [lia|lia|].
    unfold bind. rewrite Hrun. eexists _, _, b2. split_and!; [done|lia|done].
  - destruct Hx as [d ->]. eexists _, _, b'. rewrite length_app. split_and!; [done|lia|done].
Qed.

(** ** Correctness *)

(** C18. The parser returns on any bytes, without leaving the text and with an
    error whenever it returns no message; and it accepts exactly the wire
    format: the right prefix, a BodyLength that is the length of the body, a
    three-digit CheckSum of all that precedes it, and a body that spells the
    fields of the message, which has a MsgType. *)
Theorem parse_exact (wire : list byte) :
  (∃ r, parse wire = Ok r ∧ result_ok r) ∧
  ∀ m, (∃ e, parse wire = Ok (ParseResult.mk (Some m) e)) ↔
       ∃ lead body, Frame wire lead body ∧ Body body (fields m) ∧ typed m.
Proof.
  destruct (parse_sound wire) as (r & Hr & Hok & Hm). split; [by exists r|]. intros m. split.
  - intros [e He]. rewrite Hr in He. injection He as ->. by apply Hm.
  - intros (lead & body & Hf & Hb & Ht). exists ""%string. by eapply parse_complete.
Qed.

(** Parsing inverts encoding for every message with tags of its own and
    values without separators. *)
Theorem parse_encode (m : Message.t) :
  valid m → parse (encode m) = Ok (ParseResult.mk (Some m) "").
Proof.
  intros [Hfs Ht Hsize]. destruct (encode_frame m Hsize) as [lead Hf].
  by eapply parse_complete, Ht; [|apply encode_body_valid].
Qed.

(** However TCP cuts a stream of encoded messages into chunks, the reader
    extracts each message once, whole and in order, and keeps the beginning of
    the next one in the buffer; and on any bytes extraction returns, with
    a message that is a part of the buffer or with the buffer's end. *)
Theorem extract_stream (ms : list Message.t) (p : list byte) (chunks : list (list byte)) :
  Forall (λ m, Z.of_nat (length (encode m)) < 2 ^ 64) ms → Partial p →
  concat chunks = concat (encode <$> ms) ++ p →
  receive_chunks chunks [] = Ok (ExtractStatus.NeedMoreData, encode <$> ms, p) ∧
  ∀ b, Z.of_nat (length b) < 2 ^ 63 → ∃ r b', extract_one b = (Ok r, b') ∧ extracts b r b'.
Proof.
  intros Hms Hp Heq. split; [|apply extract_total].
  apply receive_chunks_spec; [|done|by left|done].
  apply Forall_fmap. eapply Forall_impl; [exact Hms|]. intros m Hm. exact (encode_envelope m Hm).
Qed.

(** ** A logon *)

Definition logon : Message.t :=
  add 108 (bytes_of "30") (add 98 (bytes_of "0") (add 56 (bytes_of "EXCHANGELAB")
    (add 49 (bytes_of "CLIENT") (add 34 (bytes_of "1") (add 35 (bytes_of "A") (Message.mk [])))))).

Example logon_printed :
  printable (encode logon) =
    bytes_of "8=FIX.4.4|9=47|35=A|34=1|49=CLIENT|56=EXCHANGELAB|98=0|108=30|10=254|".
Proof. vm_compute. reflexivity. Qed.

Example logon_damaged :
  parse (bytes_of "8=FIX.4.4" ++ [soh] ++ bytes_of "9=5" ++ [soh] ++ bytes_of "35=A" ++ [soh] ++
         bytes_of "10=000" ++ [soh]) = failure "CheckSum mismatch".
Proof. vm_compute. reflexivity. Qed.

Lemma logon_valid : valid logon.
Proof.
  split; [|by exists x41, []|vm_compute; reflexivity].
  repeat (apply Forall_cons; split;
    [split; [cbn; lia|reflexivity|refine (bool_decide_eq_true_1 _ _); vm_compute; reflexivity]|]).
  constructor.
Qed.

Lemma parse_encode_witness : parse (encode logon) = Ok (ParseResult.mk (Some logon) "").
Proof. exact (parse_encode logon logon_valid). Defined.

Lemma extract_stream_witness :
  receive_chunks [take 30 (encode logon); drop 30 (encode logon) ++ take 5 (encode logon)] [] =
    Ok (ExtractStatus.NeedMoreData, [encode logon], take 5 (encode logon)).
Proof.
  refine (proj1 (extract_stream [logon] (take 5 (encode logon)) _ _ _ _)).
  - constructor; [apply logon_valid|constructor].
  - right. exists (encode logon), (drop 5 (encode logon)).
    split; [apply encode_envelope, logon_valid|]. split; [by rewrite take_drop|].
    intros H. vm_compute in H. discriminate H.
  - vm_compute. reflexivity.
Defined.
End Fix.
