(* ===== verification/Clock.v ===== *)
(** * Timestamps (src/fix.cpp, src/fix_gateway.cpp)

    The text of a FIX timestamp, and the number the gateway puts in its requests,
    as functions of the system clock, whose reading is a signed 64-bit count of
    nanoseconds.  gmtime_r and put_time are the standard library's: the date of a
    time is found by counting years and months, and proved to be the date of the
    Gregorian calendar. *)
From Stdlib Require Import Strings.String.
From S2P Require Import Prelude Bytes Numerals Fix.
Open Scope Z_scope.

Module Clock.

(** ** gmtime_r, from 1970 on *)

Definition leap (y : Z) : bool := (y mod 4 =? 0) && (negb (y mod 100 =? 0) || (y mod 400 =? 0)).
Definition year_days (y : Z) : Z := if leap y then 366 else 365.
Definition month_lengths (y : Z) : list Z :=
  [31; if leap y then 29 else 28; 31; 30; 31; 30; 31; 31; 30; 31; 30; 31].

Module tm.
Record t : Type := mk { year : Z; mon : Z; mday : Z; hour : Z; min : Z; sec : Z }.
End tm.

(* the year and the day in it; [day] counts from the start of the year [y] *)
Fixpoint year_of (fuel : nat) (y day : Z) : Z * Z :=
  match fuel with
  | O => (y, day)
  | S fuel => if day <? year_days y then (y, day) else year_of fuel (y + 1) (day - year_days y)
  end.

(* the month and the day in it, from 0 *)
Fixpoint month_of (lengths : list Z) (m day : Z) : Z * Z :=
  match lengths with
  | [] => (m, day)
  | n :: lengths => if day <? n then (m, day) else month_of lengths (m + 1) (day - n)
  end.

(* a year has at least 365 days *)
Definition year_fuel (day : Z) : nat := S (Z.to_nat (day / 365)).

Definition gmtime (time : Z) : tm.t :=
  let day := time / 86400 in
  let seconds := time mod 86400 in
  let '(y, day_of_year) := year_of (year_fuel day) 1970 day in
  let '(m, day_of_month) := month_of (month_lengths y) 1 day_of_year in
  tm.mk y m (day_of_month + 1) (seconds / 3600) (seconds / 60 mod 60) (seconds mod 60).

(** ** The texts *)

(* std::setfill('0') and std::setw *)
Definition padded (width : nat) (text : list byte) : list byte :=
  replicate (width - length text) x30 ++ text.

Definition two (n : Z) : list byte := padded 2 (to_string n).

(* std::put_time(&utc, "%Y%m%d-%H:%M:%S") *)
Definition put_time (utc : tm.t) : list byte :=
  to_string (tm.year utc) ++ two (tm.mon utc) ++ two (tm.mday utc) ++ bytes_of "-" ++
  two (tm.hour utc) ++ bytes_of ":" ++ two (tm.min utc) ++ bytes_of ":" ++ two (tm.sec utc).

(* [now]: nanoseconds since the epoch; duration_cast and % round towards 0 *)
Definition utc_timestamp (now : Z) : list byte :=
  let milliseconds_part := Z.rem (Z.quot now 1000000) 1000 in
  let time := Z.quot now 1000000000 in
  put_time (gmtime time) ++ bytes_of "." ++ padded 3 (to_string milliseconds_part).

Definition now_nanoseconds (now : Z) : Z := u64 now.

(** ** The calendar *)

(* leap years up to [y] *)
Definition leaps (y : Z) : Z := y / 4 - y / 100 + y / 400.

(** Days from 1970-01-01 to the first day of a year, and to a date. *)
Definition days_before_year (y : Z) : Z := 365 * (y - 1970) + leaps (y - 1) - leaps 1969.
Definition day_number (y m d : Z) : Z :=
  days_before_year y + sum_Z (take (Z.to_nat (m - 1)) (month_lengths y)) + (d - 1).

Definition valid_date (y m d : Z) : Prop :=
  1 ≤ m ≤ 12 ∧ 1 ≤ d ∧ ∃ n, month_lengths y !! Z.to_nat (m - 1) = Some n ∧ d ≤ n.

Lemma leaps_step y : leaps y - leaps (y - 1) = if leap y then 1 else 0.
Proof.
  unfold leaps, leap.
  destruct (Z.eqb_spec (y mod 4) 0), (Z.eqb_spec (y mod 100) 0), (Z.eqb_spec (y mod 400) 0); cbn [andb orb negb];
    Z.to_euclidean_division_equations; lia.
Qed.

Lemma days_before_step y : days_before_year (y + 1) = days_before_year y + year_days y.
Proof.
  pose proof (leaps_step y) as H. unfold days_before_year, year_days. replace (y + 1 - 1) with y by lia.
  destruct (leap y); lia.
Qed.

Lemma year_of_spec fuel y day : 0 ≤ day < 365 * Z.of_nat fuel →
  let '(y', rest) := year_of fuel y day in
  y ≤ y' ≤ y + Z.of_nat fuel ∧ 0 ≤ rest < year_days y' ∧ days_before_year y' + rest = days_before_year y + day.
Proof.
  revert y day. induction fuel as [|fuel IH]; intros y day Hd; [lia|]. cbn [year_of].
  destruct (Z.ltb_spec day (year_days y)); [lia|].
  assert (365 ≤ year_days y) by (unfold year_days; destruct (leap y); lia).
  specialize (IH (y + 1) (day - year_days y) ltac:(lia)).
  destruct (year_of fuel (y + 1) (day - year_days y)) as [y' rest].
  rewrite days_before_step in IH. lia.
Qed.

Lemma month_of_spec lengths m day : 0 ≤ day < sum_Z lengths →
  let '(m', rest) := month_of lengths m day in
  ∃ k n, m' = m + Z.of_nat k ∧ lengths !! k = Some n ∧ 0 ≤ rest < n ∧ sum_Z (take k lengths) + rest = day.
Proof.
  revert m day. induction lengths as [|n lengths IH]; intros m day Hd; [cbn in Hd; lia|]. cbn [month_of].
  destruct (Z.ltb_spec day n).
  - exists 0%nat, n. cbn. split_and!; [lia|done|lia|lia|lia].
  - specialize (IH (m + 1) (day - n)). cbn [sum_Z foldr] in Hd. specialize (IH ltac:(unfold sum_Z; lia)).
    destruct (month_of lengths (m + 1) (day - n)) as [m' rest]. destruct IH as (k & n' & -> & Hk & Hr & Hs).
    exists (S k), n'. split_and!; [lia|done|lia|lia|]. cbn [take sum_Z foldr]. unfold sum_Z in Hs. lia.
Qed.

Lemma month_lengths_sum y : sum_Z (month_lengths y) = year_days y.
Proof. unfold month_lengths, year_days. by destruct (leap y). Qed.

(** gmtime finds the date of the calendar and the time of the day. *)
Lemma gmtime_exact time : 0 ≤ time →
  let utc := gmtime time in
  1970 ≤ tm.year utc ≤ 1970 + time / 86400 / 365 + 1 ∧ valid_date (tm.year utc) (tm.mon utc) (tm.mday utc) ∧
  0 ≤ tm.hour utc < 24 ∧ 0 ≤ tm.min utc < 60 ∧ 0 ≤ tm.sec utc < 60 ∧
  time = day_number (tm.year utc) (tm.mon utc) (tm.mday utc) * 86400 +
         tm.hour utc * 3600 + tm.min utc * 60 + tm.sec utc.
Proof.
  intros Ht. unfold gmtime. set (day := time / 86400).
  assert (0 ≤ day) as Hday by (apply Z.div_pos; lia).
  pose proof (year_of_spec (year_fuel day) 1970 day) as Hy.
  assert (0 ≤ day < 365 * Z.of_nat (year_fuel day)) as Hf.
  { unfold year_fuel. rewrite Nat2Z.inj_succ, Z2Nat.id by (apply Z.div_pos; lia).
    Z.to_euclidean_division_equations; lia. }
  specialize (Hy Hf). destruct (year_of _ _ _) as [y rest]. destruct Hy as (Hy & Hr & Hn).
  pose proof (month_of_spec (month_lengths y) 1 rest ltac:(rewrite month_lengths_sum; lia)) as Hm.
  destruct (month_of _ _ _) as [m dom]. destruct Hm as (k & n & -> & Hk & Hd & Hs).
  pose proof (lookup_lt_Some _ _ _ Hk) as Hk12. cbn [month_lengths length] in Hk12.
  cbn [tm.year tm.mon tm.mday tm.hour tm.min tm.sec].
  assert (Z.to_nat (1 + Z.of_nat k - 1) = k) as Hk' by lia.
  split_and!; try lia.
  - unfold year_fuel in Hy. rewrite Nat2Z.inj_succ, Z2Nat.id in Hy by (apply Z.div_pos; lia). lia.
  - unfold valid_date. rewrite Hk'. split_and!; [lia|lia|lia|]. exists n. split; [done|lia].
  - Z.to_euclidean_division_equations; lia.
  - Z.to_euclidean_division_equations; lia.
  - Z.to_euclidean_division_equations; lia.
  - Z.to_euclidean_division_equations; lia.
  - Z.to_euclidean_division_equations; lia.
  - Z.to_euclidean_division_equations; lia.
  - unfold day_number. rewrite Hk'.
    change (days_before_year 1970) with 0 in Hn.
    replace (days_before_year y + sum_Z (take k (month_lengths y)) + (dom + 1 - 1)) with day by lia.
    subst day. clear. Z.to_euclidean_division_equations; lia.
Qed.

(** ** The text of a timestamp *)

(** A number in exactly [width] digits. *)
Definition digits (width : nat) (text : list byte) (value : Z) : Prop :=
  numeral text value ∧ length text = width.

Lemma numeral_padded width text value : numeral text value → numeral (padded width text) value.
Proof.
  intros (Hne & Hd & Hv). unfold padded. induction (width - length text)%nat as [|n IH]; [done|].
  destruct IH as (Hne' & Hd' & Hv'). cbn [replicate app]. split_and!; [done|by constructor|].
  rewrite <- Hv'. unfold decimal_value. by cbn [foldl].
Qed.

Lemma digits_padded width k n :
  width = S k → 0 ≤ n < 10 ^ Z.of_nat width → digits width (padded width (to_string n)) n.
Proof.
  intros -> Hn. split; [apply numeral_padded, to_string_numeral; lia|].
  unfold padded. rewrite length_app, length_replicate. pose proof (to_string_length n k Hn). lia.
Qed.

Lemma decimal_value_bound ds : Forall is_digit ds → decimal_value ds < 10 ^ Z.of_nat (length ds).
Proof.
  induction ds as [|c ds IH] using rev_ind; [done|]. intros [Hds [Hc _]%Forall_cons]%Forall_app.
  rewrite decimal_value_snoc, length_app. cbn [length]. specialize (IH Hds).
  rewrite Nat.add_1_r, Nat2Z.inj_succ, Z.pow_succ_r by lia.
  apply Is_true_true in Hc. unfold is_digit in Hc. apply andb_true_iff in Hc as [_ Hc%Z.leb_le]. lia.
Qed.

Lemma digits_year y : 1000 ≤ y < 10000 → digits 4 (to_string y) y.
Proof.
  intros Hy. pose proof (to_string_numeral y ltac:(lia)) as Hn. split; [done|].
  pose proof (to_string_length y 3 ltac:(simpl; lia)) as Hle.
  destruct Hn as (_ & Hd & Hv). pose proof (decimal_value_bound _ Hd) as Hb. rewrite Hv in Hb.
  destruct (length (to_string y)) as [|[|[|[|[|n]]]]] eqn:E; simpl in Hb; lia.
Qed.

(** A timestamp names its millisecond.  Until the clock overflows, in 2262, the
    text has the format YYYYMMDD-HH:MM:SS.sss, its date is a date of the
    Gregorian calendar, and with the time of the day it is the reading of the
    clock in whole milliseconds. *)
Theorem utc_timestamp_exact now : 0 ≤ now < 2 ^ 63 →
  ∃ y m d h mi s ms tY tm td th tmi ts tms,
    utc_timestamp now = tY ++ tm ++ td ++ bytes_of "-" ++ th ++ bytes_of ":" ++ tmi ++ bytes_of ":" ++ ts ++
                        bytes_of "." ++ tms ∧
    digits 4 tY y ∧ digits 2 tm m ∧ digits 2 td d ∧ digits 2 th h ∧ digits 2 tmi mi ∧ digits 2 ts s ∧ digits 3 tms ms ∧
    valid_date y m d ∧ 0 ≤ h < 24 ∧ 0 ≤ mi < 60 ∧ 0 ≤ s < 60 ∧ 0 ≤ ms < 1000 ∧
    now / 1000000 = (day_number y m d * 86400 + h * 3600 + mi * 60 + s) * 1000 + ms.
Proof.
  intros Hnow. unfold utc_timestamp.
  rewrite !Z.quot_div_nonneg, Z.rem_mod_nonneg by (try apply Z.div_pos; lia).
  set (time := now / 1000000000). set (ms := now / 1000000 mod 1000).
  assert (0 ≤ time < 9223372037) as Htime by (subst time; Z.to_euclidean_division_equations; lia).
  assert (0 ≤ ms < 1000) as Hms by (apply Z.mod_pos_bound; lia).
  assert (now / 1000000 = time * 1000 + ms) as Hnow' by (subst time ms; Z.to_euclidean_division_equations; lia).
  destruct (gmtime_exact time ltac:(lia)) as (Hy & Hv & Hh & Hmi & Hs & Ht).
  destruct (gmtime time) as [y m d h mi s]. cbn [tm.year tm.mon tm.mday tm.hour tm.min tm.sec] in *.
  assert (1970 ≤ y < 10000) as Hy' by (clear - Hy Htime; Z.to_euclidean_division_equations; lia).
  pose proof Hv as (Hm & Hd & n & Hn & Hdn).
  assert (n ≤ 31) as Hn31.
  { apply list_elem_of_lookup_2 in Hn. unfold month_lengths in Hn.
    rewrite !elem_of_cons, elem_of_nil in Hn. destruct (leap y); intuition lia. }
  exists y, m, d, h, mi, s, ms, (to_string y), (two m), (two d), (two h), (two mi), (two s), (padded 3 (to_string ms)).
  split.
  { unfold put_time. cbn [tm.year tm.mon tm.mday tm.hour tm.min tm.sec]. rewrite <- !(assoc_L (++)). reflexivity. }
  split_and!; try assumption; try lia.
  - apply digits_year. lia.
  - apply (digits_padded 2 1); [done|simpl; lia].
  - apply (digits_padded 2 1); [done|simpl; lia].
  - apply (digits_padded 2 1); [done|simpl; lia].
  - apply (digits_padded 2 1); [done|simpl; lia].
  - apply (digits_padded 2 1); [done|simpl; lia].
  - apply (digits_padded 3 2); [done|simpl; lia].
Qed.

(** What the gateway relies on ([WorldLaws.timestamp_printable]). *)
Lemma utc_timestamp_printable now : 0 ≤ now < 2 ^ 63 → Fix.soh ∉ utc_timestamp now.
Proof.
  intros H. destruct (utc_timestamp_exact now H) as
    (y & m & d & h & mi & s & ms & tY & tm & td & th & tmi & ts & tms & -> & HY & Hm & Hd & Hh & Hmi & Hs & Hms & _).
  assert (∀ w text value, digits w text value → Fix.soh ∉ text) as Hno.
  { intros w text value [Hn _]. by apply (numeral_no _ _ _ Hn). }
  rewrite !not_elem_of_app. split_and!; try (by eapply Hno); refine (bool_decide_eq_true_1 _ _); by vm_compute.
Qed.

(** ... and its clock is an unsigned 64-bit number ([WorldLaws.now_in_range]). *)
Lemma now_nanoseconds_in_range now : in_u64 (now_nanoseconds now).
Proof. apply u64_in. Qed.

(* the last millisecond of a leap day *)
Lemma utc_timestamp_example :
  utc_timestamp 1709251199999000000 = bytes_of "20240229-23:59:59.999" ∧ utc_timestamp 0 = bytes_of "19700101-00:00:00.000".
Proof. by vm_compute. Qed.
End Clock.
