(* ===== verification/Json.v ===== *)
(** * JSON texts (RFC 8259), as far as the program writes them

    The websocket gateway and the telemetry of the server write JSON with
    stream insertions.  Here are the pieces of such texts, and a reader for
    them, against which the texts are proved: strings without escapes, numbers,
    numbers with a fraction, booleans, and objects with at least one member. *)
From S2P Require Import Prelude Bytes Numerals Fix.

(** ** Writing *)

Definition quote : byte := x22.
Definition quoted (text : string) : list byte := [quote] ++ bytes_of text ++ [quote].
Definition json_text (text : list byte) : list byte := [quote] ++ text ++ [quote].
Definition json_bool (b : bool) : list byte := if b then bytes_of "true" else bytes_of "false".

Definition member (m : string * list byte) : list byte := quoted m.1 ++ bytes_of ":" ++ m.2.

(* members with commas between them *)
Fixpoint members (ms : list (string * list byte)) : list byte :=
  match ms with
  | [] => []
  | [m] => member m
  | m :: ms' => member m ++ bytes_of "," ++ members ms'
  end.

Definition object (ms : list (string * list byte)) : list byte :=
  bytes_of "{" ++ members ms ++ bytes_of "}".

(* exactly so many digits, with zeros in front *)
Fixpoint fixed_digits (places : nat) (n : Z) : list byte :=
  match places with
  | O => []
  | S places' => fixed_digits places' (n `div` 10) ++ [digit (n `mod` 10)]
  end.

(* n / 10 ^ places *)
Definition decimal_text (n : Z) (places : nat) : list byte :=
  (if n <? 0 then [x2d] else []) ++
  natural_text (Z.abs n `div` 10 ^ Z.of_nat places) ++ [x2e] ++
  fixed_digits places (Z.abs n `mod` 10 ^ Z.of_nat places).

(** ** Values *)

Inductive Json : Type :=
  | JText (text : list byte)
  | JNumber (n : Z)
  | JDecimal (n : Z) (places : nat)      (* n / 10 ^ places *)
  | JBool (b : bool)
  | JObject (ms : list (string * Json)).

Section json_induction.
Context (P : Json → Prop) (Htext : ∀ text, P (JText text)) (Hnumber : ∀ n, P (JNumber n))
  (Hdecimal : ∀ n places, P (JDecimal n places)) (Hbool : ∀ b, P (JBool b))
  (Hobject : ∀ ms, Forall (λ m, P m.2) ms → P (JObject ms)).

(** The induction hypothesis holds for every member of an object. *)
Fixpoint json_induction (j : Json) : P j :=
  match j with
  | JText text => Htext text
  | JNumber n => Hnumber n
  | JDecimal n places => Hdecimal n places
  | JBool b => Hbool b
  | JObject ms => Hobject ms
      ((fix all (ms : list (string * Json)) : Forall (λ m, P m.2) ms :=
          match ms with
          | [] => Forall_nil_2 _
          | m :: ms' => Forall_cons_2 _ _ _ (json_induction m.2) (all ms')
          end) ms)
  end.
End json_induction.

Fixpoint write_json (j : Json) : list byte :=
  match j with
  | JText text => json_text text
  | JNumber n => to_string n
  | JDecimal n places => decimal_text n places
  | JBool b => json_bool b
  | JObject ms => object ((λ m, (m.1, write_json m.2)) <$> ms)
  end.

(** ** Reading *)

(* a character that stands for itself in a string *)
Definition plain (c : byte) : bool :=
  (32 <=? Z_of_byte c) && negb (bool_decide (c = quote)) && negb (bool_decide (c = x5c)).

(* after the opening quote *)
Fixpoint read_text (bytes : list byte) : option (list byte * list byte) :=
  match bytes with
  | [] => None
  | c :: bytes' =>
      if bool_decide (c = quote) then Some ([], bytes')
      else if plain c then '(text, rest) ← read_text bytes'; Some (c :: text, rest)
      else None
  end.

(* digits without a leading zero *)
Definition read_digits (bytes : list byte) : option (Z * list byte) :=
  let ds := leading_digits bytes in
  guard (ds ≠ [] ∧ (head ds = Some x30 → length ds = 1%nat));;
  Some (decimal_value ds, drop (length ds) bytes).

(* the whole part, and the digits after a point *)
Definition read_unsigned (bytes : list byte) : option (Z * option nat * list byte) :=
  '(n, rest) ← read_digits bytes;
  match rest with
  | c :: rest' =>
      if bool_decide (c = x2e)
      then
        let ds := leading_digits rest' in
        guard (ds ≠ []);;
        Some (n * 10 ^ Z.of_nat (length ds) + decimal_value ds, Some (length ds), drop (length ds) rest')
      else Some (n, None, rest)
  | [] => Some (n, None, [])
  end.

Definition number (n : Z) (places : option nat) : Json :=
  match places with None => JNumber n | Some places => JDecimal n places end.

Definition read_number (bytes : list byte) : option (Json * list byte) :=
  if bool_decide (head bytes = Some x2d)
  then '(n, places, rest) ← read_unsigned (tail bytes); Some (number (- n) places, rest)
  else '(n, places, rest) ← read_unsigned bytes; Some (number n places, rest).

Definition expect (c : byte) (bytes : list byte) : option (list byte) :=
  match bytes with
  | c' :: bytes' => guard (c' = c);; Some bytes'
  | [] => None
  end.

(* the name of a member, up to its value *)
Definition read_name (bytes : list byte) : option (list byte * list byte) :=
  bytes ← expect quote bytes; '(name, bytes) ← read_text bytes;
  bytes ← expect x3a bytes; Some (name, bytes).

(* what is read has names of bytes *)
Definition named (m : list byte * Json) : string * Json := (String.string_of_list_byte m.1, m.2).

Fixpoint read_json (fuel : nat) (bytes : list byte) : option (Json * list byte) :=
  match fuel with
  | O => None
  | S fuel' =>
      match bytes with
      | [] => None
      | c :: bytes' =>
          if bool_decide (c = quote) then '(text, rest) ← read_text bytes'; Some (JText text, rest)
          else if Text.starts_with (bytes_of "true") bytes then Some (JBool true, drop 4 bytes)
          else if Text.starts_with (bytes_of "false") bytes then Some (JBool false, drop 5 bytes)
          else if bool_decide (c = x7b)
          then '(ms, rest) ← read_members fuel' bytes'; Some (JObject ms, rest)
          else read_number bytes
      end
  end
with read_members (fuel : nat) (bytes : list byte) : option (list (string * Json) * list byte) :=
  match fuel with
  | O => None
  | S fuel' =>
      '(name, bytes) ← read_name bytes;
      '(value, bytes) ← read_json fuel' bytes;
      match bytes with
      | c :: bytes' =>
          if bool_decide (c = x2c)
          then '(ms, rest) ← read_members fuel' bytes'; Some (named (name, value) :: ms, rest)
          else guard (c = x7d);; Some ([named (name, value)], bytes')
      | [] => None
      end
  end.

(* a text that is one object *)
Definition read_object (bytes : list byte) : option (list (string * Json)) :=
  match read_json (length bytes) bytes with
  | Some (JObject ms, []) => Some ms
  | _ => None
  end.

(** ** Reading what was written *)

Fixpoint plain_json (j : Json) : Prop :=
  match j with
  | JText text => Forall plain text
  | JDecimal n places => (0 < places)%nat
  | JNumber _ | JBool _ => True
  | JObject ms =>
      ms ≠ [] ∧ foldr (λ m rest, (Forall plain (bytes_of m.1) ∧ plain_json m.2) ∧ rest) True ms
  end.

Definition plain_field (f : string * Json) : Prop := Forall plain (bytes_of f.1) ∧ plain_json f.2.

Lemma plain_object ms : plain_json (JObject ms) ↔ ms ≠ [] ∧ Forall plain_field ms.
Proof. cbn [plain_json]. by rewrite Forall_fold_right. Qed.

(* what may follow a value *)
Definition ends_value (rest : list byte) : Prop :=
  rest = [] ∨ head rest = Some x2c ∨ head rest = Some x7d.

Lemma ends_value_digit rest : ends_value rest → from_option is_digit false (head rest) = false.
Proof. intros [->|[Hr|Hr]]; [done| |]; by rewrite Hr. Qed.

Lemma read_text_plain text rest :
  Forall plain text → read_text (text ++ [quote] ++ rest) = Some (text, rest).
Proof.
  induction 1 as [|c text Hc _ IH]; [done|]. cbn [app read_text].
  assert (c ≠ quote) by (intros ->; by vm_compute in Hc).
  rewrite bool_decide_false by done. rewrite (Is_true_true_1 _ Hc). cbn [app] in IH. by rewrite IH.
Qed.

Lemma read_digits_natural n rest : 0 ≤ n → from_option is_digit false (head rest) = false →
  read_digits (natural_text n ++ rest) = Some (n, rest).
Proof.
  intros Hn Hrest. destruct (natural_text_spec n Hn) as (Hne & Hds & Hv). unfold read_digits.
  rewrite leading_digits_app by done. rewrite option_guard_True.
  - by rewrite drop_app_length, Hv.
  - split; [done|]. intros Hzero. destruct (decide (n = 0)) as [->|]; [done|].
    exfalso. apply (natural_text_head n); [lia|done].
Qed.

Lemma natural_text_cons n : 0 ≤ n → ∃ c ds, natural_text n = c :: ds ∧ is_digit c.
Proof.
  intros Hn. destruct (natural_text_spec n Hn) as (Hne & Hds & _).
  destruct (natural_text n) as [|c ds]; [done|]. exists c, ds. by apply Forall_cons in Hds as [? _].
Qed.

Lemma decimal_value_app ds1 ds2 :
  decimal_value (ds1 ++ ds2) = decimal_value ds1 * 10 ^ Z.of_nat (length ds2) + decimal_value ds2.
Proof.
  induction ds2 as [|c ds2 IH] using rev_ind; [rewrite app_nil_r; cbn; lia|].
  rewrite (assoc_L (++)), !decimal_value_snoc, IH, length_app, Nat2Z.inj_add.
  cbn [length]. rewrite Z.pow_add_r by lia. lia.
Qed.

Lemma length_fixed_digits places n : length (fixed_digits places n) = places.
Proof. revert n. induction places as [|k IH]; intros n; [done|]. cbn. rewrite length_app, IH. simpl. lia. Qed.

Lemma fixed_digits_spec places n : 0 ≤ n < 10 ^ Z.of_nat places →
  Forall is_digit (fixed_digits places n) ∧ decimal_value (fixed_digits places n) = n.
Proof.
  revert n. induction places as [|k IH]; intros n Hn.
  { cbn in Hn. split; [constructor|]. cbn. lia. }
  rewrite Nat2Z.inj_succ, Z.pow_succ_r in Hn by lia. cbn [fixed_digits].
  pose proof (Z.mod_pos_bound n 10 ltac:(lia)). pose proof (Z.div_mod n 10 ltac:(lia)).
  destruct (IH (n `div` 10)) as [Hd Hv].
  { split; [apply Z.div_pos; lia|apply Z.div_lt_upper_bound; lia]. }
  split.
  - apply Forall_app. split; [done|]. apply Forall_singleton, Is_true_true, is_digit_digit. lia.
  - rewrite decimal_value_snoc, Hv, digit_value by lia. lia.
Qed.

Lemma read_unsigned_whole n rest : 0 ≤ n → ends_value rest →
  read_unsigned (natural_text n ++ rest) = Some (n, None, rest).
Proof.
  intros Hn Hrest. unfold read_unsigned.
  rewrite read_digits_natural by (done || by apply ends_value_digit). cbn [mbind option_bind].
  destruct Hrest as [->|[Hr|Hr]]; [done| |]; (destruct rest; [done|]); by injection Hr as ->.
Qed.

Lemma read_unsigned_decimal n places rest : 0 ≤ n → (0 < places)%nat → ends_value rest →
  read_unsigned (natural_text (n `div` 10 ^ Z.of_nat places) ++ [x2e] ++
    fixed_digits places (n `mod` 10 ^ Z.of_nat places) ++ rest) = Some (n, Some places, rest).
Proof.
  intros Hn Hp Hrest. set (k := 10 ^ Z.of_nat places). assert (0 < k) by (apply Z.pow_pos_nonneg; lia).
  destruct (fixed_digits_spec places (n `mod` k)) as [Hd Hv]; [by apply Z.mod_pos_bound|].
  pose proof (length_fixed_digits places (n `mod` k)) as Hl. unfold read_unsigned.
  rewrite read_digits_natural by (done || by apply Z.div_pos). cbn [mbind option_bind app].
  rewrite bool_decide_true by done.
  rewrite leading_digits_app by (done || by apply ends_value_digit).
  rewrite Hl, option_guard_True by (intros E; rewrite E in Hl; simpl in Hl; lia).
  rewrite drop_app_length' by done. cbn [mbind option_bind]. rewrite Hv. fold k.
  pose proof (Z.div_mod n k ltac:(lia)). repeat f_equal. lia.
Qed.

Lemma read_number_plus text n places rest : (∃ c ds, text = c :: ds ∧ is_digit c) →
  read_unsigned text = Some (n, places, rest) →
  read_number text = Some (number n places, rest).
Proof.
  intros (c & ds & -> & Hc) Hr. unfold read_number.
  rewrite bool_decide_false by (intros [= ->]; by vm_compute in Hc). by rewrite Hr.
Qed.

Lemma read_number_minus text n places rest :
  read_unsigned text = Some (n, places, rest) →
  read_number (x2d :: text) = Some (number (- n) places, rest).
Proof. intros Hr. unfold read_number. rewrite bool_decide_true by done. cbn [tail]. by rewrite Hr. Qed.

Lemma number_written n rest : ends_value rest →
  read_number (to_string n ++ rest) = Some (JNumber n, rest).
Proof.
  intros Hrest. unfold to_string. destruct (Z.ltb_spec n 0).
  - cbn [app]. erewrite read_number_minus by (apply read_unsigned_whole; [lia|done]).
    cbn [number]. by rewrite Z.opp_involutive.
  - apply (read_number_plus _ n None); [|by apply read_unsigned_whole].
    destruct (natural_text_cons n) as (c & ds & -> & Hc); [done|]. by exists c, (ds ++ rest).
Qed.

Lemma decimal_written n places rest : (0 < places)%nat → ends_value rest →
  read_number (decimal_text n places ++ rest) = Some (JDecimal n places, rest).
Proof.
  intros Hp Hrest. unfold decimal_text. rewrite <- !(assoc_L (++)).
  pose proof (read_unsigned_decimal (Z.abs n) places rest ltac:(lia) Hp Hrest) as Hr.
  destruct (Z.ltb_spec n 0).
  - cbn [app]. cbn [app] in Hr. rewrite (read_number_minus _ _ _ _ Hr). cbn [number].
    by rewrite Z.abs_neq, Z.opp_involutive by lia.
  - rewrite (app_nil_l (_ ++ _)). erewrite read_number_plus; [|shelve|exact Hr].
    cbn [number]. by rewrite Z.abs_eq by lia.
    Unshelve.
    destruct (natural_text_cons (Z.abs n `div` 10 ^ Z.of_nat places)) as (c & ds & -> & Hc);
      [apply Z.div_pos; [lia|apply Z.pow_pos_nonneg; lia]|].
    by exists c, (ds ++ [x2e] ++ fixed_digits places (Z.abs n `mod` 10 ^ Z.of_nat places) ++ rest).
Qed.

(* a text that starts like a number is read as one *)
Lemma read_json_number fuel c bytes : is_digit c ∨ c = x2d →
  read_json (S fuel) (c :: bytes) = read_number (c :: bytes).
Proof.
  intros Hc. cbn [read_json].
  assert (c ≠ quote ∧ c ≠ x74 ∧ c ≠ x66 ∧ c ≠ x7b) as (? & ? & ? & ?)
    by (split_and!; intros ->; destruct Hc as [Hc|Hc]; by vm_compute in Hc).
  assert (∀ text c', c ≠ c' → Text.starts_with (c' :: text) (c :: bytes) = false) as Hs.
  { intros text c' Hne. unfold Text.starts_with. cbn [length take]. apply bool_decide_false. congruence. }
  rewrite bool_decide_false by done.
  change (bytes_of "true") with (x74 :: bytes_of "rue"). change (bytes_of "false") with (x66 :: bytes_of "alse").
  rewrite !Hs by done. by rewrite bool_decide_false by done.
Qed.

Lemma to_string_head n rest : ∃ c bytes, to_string n ++ rest = c :: bytes ∧ (is_digit c ∨ c = x2d).
Proof.
  unfold to_string. destruct (Z.ltb_spec n 0); [by exists x2d, (natural_text (- n) ++ rest); auto|].
  destruct (natural_text_cons n) as (c & ds & -> & Hc); [done|]. exists c, (ds ++ rest). auto.
Qed.

Lemma decimal_text_head n places rest :
  ∃ c bytes, decimal_text n places ++ rest = c :: bytes ∧ (is_digit c ∨ c = x2d).
Proof.
  unfold decimal_text. rewrite <- !(assoc_L (++)).
  destruct (n <? 0); [by eexists x2d, _; split; [reflexivity|right]|].
  destruct (natural_text_cons (Z.abs n `div` 10 ^ Z.of_nat places)) as (c & ds & -> & Hc);
    [apply Z.div_pos; [lia|apply Z.pow_pos_nonneg; lia]|]. eexists c, _. split; [reflexivity|auto].
Qed.

Lemma named_bytes_of name j : named (bytes_of name, j) = (name, j).
Proof. unfold named, bytes_of. cbn [fst snd]. by rewrite String.string_of_list_byte_of_string. Qed.

Lemma read_name_written name rest : Forall plain (bytes_of name) →
  read_name (quoted name ++ bytes_of ":" ++ rest) = Some (bytes_of name, rest).
Proof.
  intros Hname. unfold read_name, quoted. rewrite <- !(assoc_L (++)). cbn [app expect].
  rewrite option_guard_True by done. cbn [mbind option_bind].
  pose proof (read_text_plain (bytes_of name) (bytes_of ":" ++ rest) Hname) as Hr.
  cbn [app] in Hr. rewrite Hr. cbn [mbind option_bind].
  change (bytes_of ":") with [x3a]. cbn [app expect]. by rewrite option_guard_True by done.
Qed.

(** What [write_json] writes, [read_json] reads; the length of the text is enough fuel. *)
Definition readable (j : Json) : Prop :=
  plain_json j → ∀ fuel rest, ends_value rest → (length (write_json j) ≤ fuel)%nat →
    read_json fuel (write_json j ++ rest) = Some (j, rest).

Lemma read_members_written ms : Forall (λ m, readable m.2) ms → Forall plain_field ms → ms ≠ [] →
  ∀ fuel rest, (length (members ((λ m, (m.1, write_json m.2)) <$> ms)) ≤ fuel)%nat →
    read_members fuel (members ((λ m, (m.1, write_json m.2)) <$> ms) ++ bytes_of "}" ++ rest) =
      Some (ms, rest).
Proof.
  intros Hread. induction Hread as [|[name j] ms Hj _ IH];
    intros Hfields Hne fuel rest Hfuel; [done|].
  apply Forall_cons_1 in Hfields as [[Hname Hplain] Hms].
  cbn [fst snd] in *. destruct ms as [|m ms].
  - cbn [fmap list_fmap members fst snd] in *. unfold member in *. cbn [fst snd] in *.
    rewrite !length_app in Hfuel. destruct fuel as [|fuel]; [simpl in Hfuel; lia|]. cbn [read_members].
    rewrite <- !(assoc_L (++)). rewrite read_name_written by done. cbn [mbind option_bind].
    rewrite (Hj Hplain) by (try (right; right; reflexivity); simpl in Hfuel; lia).
    cbn [mbind option_bind]. change (bytes_of "}") with [x7d]. cbn [app].
    rewrite bool_decide_false by done. rewrite option_guard_True by done. cbn [mbind option_bind].
    by rewrite named_bytes_of.
  - specialize (IH Hms ltac:(done)).
    change ((λ m0, (m0.1, write_json m0.2)) <$> (name, j) :: m :: ms)
      with ((name, write_json j) :: ((λ m0, (m0.1, write_json m0.2)) <$> m :: ms)) in *.
    remember ((λ m0, (m0.1, write_json m0.2)) <$> m :: ms) as rests eqn:Erests.
    assert (members ((name, write_json j) :: rests) = member (name, write_json j) ++ bytes_of "," ++ members rests)
      as E by (by rewrite Erests). rewrite E in *. unfold member in *. cbn [fst snd] in *.
    rewrite !length_app in Hfuel. destruct fuel as [|fuel]; [simpl in Hfuel; lia|]. cbn [read_members].
    rewrite <- !(assoc_L (++)). rewrite read_name_written by done. cbn [mbind option_bind].
    rewrite (Hj Hplain) by (try (right; left; reflexivity); simpl in Hfuel; lia).
    cbn [mbind option_bind]. change (bytes_of ",") with [x2c]. cbn [app].
    rewrite bool_decide_true by done. rewrite IH by (simpl in Hfuel; lia). cbn [mbind option_bind].
    by rewrite named_bytes_of.
Qed.

Lemma read_json_written j : readable j.
Proof.
  induction j as [text|n|n places|b|ms IH] using json_induction; intros Hplain fuel rest Hrest Hfuel.
  - cbn [write_json] in *. unfold json_text in *. destruct fuel as [|fuel]; [simpl in Hfuel; lia|].
    rewrite <- !(assoc_L (++)). cbn [app read_json]. rewrite bool_decide_true by done.
    pose proof (read_text_plain text rest Hplain) as Hr. cbn [app] in Hr. by rewrite Hr.
  - cbn [write_json] in *. destruct (to_string_head n rest) as (c & bytes & E & Hc).
    destruct (to_string_head n []) as (c' & bytes' & E' & _). rewrite app_nil_r in E'.
    destruct fuel as [|fuel]; [rewrite E' in Hfuel; simpl in Hfuel; lia|].
    rewrite E, read_json_number by done. rewrite <- E. by apply number_written.
  - cbn [write_json] in *. destruct (decimal_text_head n places rest) as (c & bytes & E & Hc).
    destruct (decimal_text_head n places []) as (c' & bytes' & E' & _). rewrite app_nil_r in E'.
    destruct fuel as [|fuel]; [rewrite E' in Hfuel; simpl in Hfuel; lia|].
    rewrite E, read_json_number by done. rewrite <- E. by apply decimal_written.
  - destruct fuel as [|fuel]; [by destruct b; simpl in Hfuel; lia|]. by destruct b.
  - apply plain_object in Hplain as [Hne Hms]. cbn [write_json] in *. unfold object in *.
    rewrite !length_app in Hfuel. destruct fuel as [|fuel]; [simpl in Hfuel; lia|].
    rewrite <- !(assoc_L (++)). change (bytes_of "{") with [x7b] at 1. cbn [app read_json].
    rewrite bool_decide_false by done.
    assert (∀ text c l, c ≠ x7b → Text.starts_with (c :: text) (x7b :: l) = false) as Hs.
    { intros text c l Hc. unfold Text.starts_with. cbn [length take]. apply bool_decide_false. congruence. }
    change (bytes_of "true") with (x74 :: bytes_of "rue"). change (bytes_of "false") with (x66 :: bytes_of "alse").
    rewrite !Hs by done. rewrite bool_decide_true by done.
    rewrite (read_members_written ms IH Hms Hne) by (simpl in Hfuel; lia). done.
Qed.

Lemma read_object_written ms : ms ≠ [] → Forall plain_field ms →
  read_object (write_json (JObject ms)) = Some ms.
Proof.
  intros Hne Hms. unfold read_object.
  pose proof (read_json_written (JObject ms) (proj2 (plain_object ms) (conj Hne Hms))
    (length (write_json (JObject ms))) []) as Hr.
  rewrite app_nil_r in Hr. rewrite Hr; [done|by left|done].
Qed.

(** ** Lengths *)

Lemma length_bytes_of s : length (bytes_of s) = String.length s.
Proof.
  unfold bytes_of, String.list_byte_of_string. rewrite length_map.
  induction s as [|c s IH]; [done|]. cbn. by rewrite IH.
Qed.

Lemma length_members ms :
  (length (members ms) ≤ foldr (λ m n, String.length m.1 + 4 + length m.2 + n)%nat 0%nat ms)%nat.
Proof.
  assert (∀ m, length (member m) = (String.length m.1 + 3 + length m.2)%nat) as Hm.
  { intros m. unfold member, quoted. rewrite !length_app, length_bytes_of. simpl. lia. }
  induction ms as [|m [|m' ms] IH]; [done|cbn [members foldr]; rewrite Hm; lia|].
  change (members (m :: m' :: ms)) with (member m ++ bytes_of "," ++ members (m' :: ms)).
  cbn [foldr] in *. rewrite !length_app, Hm. simpl (length (bytes_of ",")). lia.
Qed.

Lemma length_object ms :
  (length (object ms) ≤ 2 + foldr (λ m n, String.length m.1 + 4 + length m.2 + n)%nat 0%nat ms)%nat.
Proof.
  unfold object. rewrite !length_app. pose proof (length_members ms). simpl (length (bytes_of _)). lia.
Qed.

Lemma decimal_text_length n places k : 0 ≤ n < 10 ^ Z.of_nat (S k + places) →
  (length (decimal_text n places) ≤ S k + 1 + places)%nat.
Proof.
  intros Hn. unfold decimal_text. destruct (Z.ltb_spec n 0); [lia|]. rewrite Z.abs_eq by done.
  rewrite !length_app, length_fixed_digits.
  assert (length (natural_text (n `div` 10 ^ Z.of_nat places)) ≤ S k)%nat; [|simpl; lia].
  apply natural_text_length. rewrite Nat2Z.inj_add, Z.pow_add_r in Hn by lia.
  split; [apply Z.div_pos; lia|apply Z.div_lt_upper_bound; lia].
Qed.
