(* ===== verification/Binary64.v ===== *)
(** * double (IEEE 754 binary64)

    The telemetry computes its rates and its mean with [double].  The operations
    are those of the Standard Library's specification of IEEE arithmetic, with
    53 bits of precision and exponents up to 1024; here is what is needed of
    their accuracy: an operation on positive numbers of moderate size returns a
    number within one part in 2^52 of the exact result, and printing it with two
    decimals is within half a hundredth of it. *)
From Stdlib Require Import SpecFloat QArith Qpower Lqa.
From S2P Require Import Prelude Bytes Numerals Json.
#[local] Open Scope Z_scope.

(** ** The operations *)

Definition double : Type := spec_float.
Definition zero : double := S754_zero false.

(* static_cast<double> on an integer *)
Definition of_integer (n : Z) : double := binary_normalize 53 1024 n 0 false.
Definition divide (x y : double) : double := SFdiv 53 1024 x y.
Definition less_equal (x y : double) : bool := SFleb x y.

(* the nearest integer to a / b, the even one of two *)
Definition round_half_even (a b : Z) : Z :=
  let q := a `div` b in
  match Z.compare (2 * (a `mod` b)) b with
  | Lt => q
  | Gt => q + 1
  | Eq => if Z.even q then q else q + 1
  end.

(* the nearest number of hundredths *)
Definition hundredths (m e : Z) : Z :=
  if 0 <=? e then 100 * m * 2 ^ e else round_half_even (100 * m) (2 ^ (- e)).

Definition two_decimals (n : Z) : list byte :=
  natural_text (n `div` 100) ++ [x2e] ++ fixed_digits 2 (n `mod` 100).

(* << std::fixed << std::setprecision(2) *)
Definition fixed2 (x : double) : list byte :=
  let sign (s : bool) := if s then [x2d] else [] in
  match x with
  | S754_zero s => sign s ++ two_decimals 0
  | S754_infinity s => sign s ++ bytes_of "inf"
  | S754_nan => bytes_of "nan"
  | S754_finite s m e => sign s ++ two_decimals (hundredths (Zpos m) e)
  end.

(** ** Shifting *)

Lemma digits2_log2 p : Zpos (digits2_pos p) = Z.log2 (Zpos p) + 1.
Proof.
  assert (digits2_pos p = Pos.size p) as -> by (induction p; cbn; congruence).
  destruct p; cbn; lia.
Qed.

Lemma Zdigits2_log2 m : 0 < m → Zdigits2 m = Z.log2 m + 1.
Proof. intros. destruct m; [lia| |lia]. apply digits2_log2. Qed.

Lemma iter_pos_nat {A} (f : A → A) n x : SpecFloat.iter_pos f n x = Nat.iter (Pos.to_nat n) f x.
Proof.
  revert x. induction n as [n IH|n IH|]; intros x; cbn [SpecFloat.iter_pos].
  - rewrite !IH, Pos2Nat.inj_xI. cbn [Nat.iter]. rewrite <- Nat.iter_add, <- Nat.iter_succ_r.
    f_equal. lia.
  - rewrite !IH, Pos2Nat.inj_xO, <- Nat.iter_add. f_equal. lia.
  - done.
Qed.

Lemma shr_1_m r : 0 ≤ shr_m r → shr_m (shr_1 r) = shr_m r `div` 2.
Proof.
  destruct r as [[|p|p] r s]; cbn [shr_m shr_1]; intros H; [done| |lia].
  destruct p as [p|p|]; cbn [shr_m]; [| |done].
  - rewrite Pos2Z.inj_xI. apply Z.div_unique with 1; lia.
  - rewrite Pos2Z.inj_xO. apply Z.div_unique with 0; lia.
Qed.

Lemma shr_iter n r : 0 ≤ shr_m r →
  shr_m (Nat.iter n shr_1 r) = shr_m r `div` 2 ^ Z.of_nat n.
Proof.
  intros H. induction n as [|n IH]; [by rewrite Z.div_1_r|].
  change (Nat.iter (S n) shr_1 r) with (shr_1 (Nat.iter n shr_1 r)). rewrite shr_1_m, IH.
  - rewrite Z.div_div, Nat2Z.inj_succ, Z.pow_succ_r by lia. f_equal. lia.
  - rewrite IH. apply Z.div_pos; [done|lia].
Qed.

Lemma shr_spec r e n : 0 ≤ shr_m r → 0 ≤ n →
  shr_m (shr r e n).1 = shr_m r `div` 2 ^ n ∧ (shr r e n).2 = e + n.
Proof.
  intros Hr Hn. destruct n as [|n|n]; cbn [shr fst snd]; [|split; [|done]|lia].
  - by rewrite Z.div_1_r, Z.add_0_r.
  - rewrite iter_pos_nat, shr_iter, positive_nat_Z by done. done.
Qed.

Lemma shr_record_of_loc_m m l : shr_m (shr_record_of_loc m l) = m.
Proof. by destruct l as [|[]]. Qed.

(* a number of 53 bits or more is cut to 53 bits *)
Lemma shr_fexp_spec m e l : 2 ^ 52 ≤ m → -1074 ≤ e + (Z.log2 m - 52) →
  let n := Z.log2 m - 52 in
  shr_m (shr_fexp 53 1024 m e l).1 = m `div` 2 ^ n ∧ (shr_fexp 53 1024 m e l).2 = e + n ∧
  2 ^ 52 ≤ m `div` 2 ^ n < 2 ^ 53.
Proof.
  intros Hm He n. assert (0 ≤ n) as Hn.
  { apply Z.log2_le_mono in Hm. rewrite Z.log2_pow2 in Hm by lia. lia. }
  unfold shr_fexp. replace (fexp 53 1024 (Zdigits2 m + e) - e) with n.
  - destruct (shr_spec (shr_record_of_loc m l) e n) as [-> ->];
      [rewrite shr_record_of_loc_m; lia|done|].
    rewrite shr_record_of_loc_m. split_and!; [done|done| |].
    + pose proof (Z.log2_spec m ltac:(lia)) as [H _].
      apply Z.div_le_lower_bound; [lia|]. rewrite <- Z.pow_add_r by lia.
      by replace (n + 52) with (Z.log2 m) by lia.
    + pose proof (Z.log2_spec m ltac:(lia)) as [_ H].
      apply Z.div_lt_upper_bound; [lia|]. rewrite <- Z.pow_add_r by lia.
      by replace (n + 53) with (Z.succ (Z.log2 m)) by lia.
  - unfold fexp, emin. rewrite Zdigits2_log2 by lia. lia.
Qed.

(** ** Rounding *)

Lemma round_nearest_even_near m l :
  round_nearest_even m l = m ∨ round_nearest_even m l = m + 1.
Proof. destruct l as [|[]]; cbn; auto. destruct (Z.even m); auto. Qed.

Lemma shr_fexp_none m e l : Z.log2 m = 52 → 0 < m → -1074 ≤ e →
  shr_fexp 53 1024 m e l = (shr_record_of_loc m l, e).
Proof.
  intros Hm Hpos He. unfold shr_fexp.
  replace (fexp 53 1024 (Zdigits2 m + e) - e) with 0; [done|].
  unfold fexp, emin. rewrite Zdigits2_log2 by lia. lia.
Qed.

(** A positive number with 53 bits or more is rounded to one with 53: its
    first 53 bits, or the next number. *)
Lemma round_aux q e l (n := Z.log2 q - 52) :
  2 ^ 52 ≤ q → -1074 ≤ e + n ≤ 960 →
  ∃ m' e' v, binary_round_aux 53 1024 false q e l = S754_finite false m' e' ∧
    2 ^ 52 ≤ Zpos m' < 2 ^ 53 ∧ e + n ≤ e' ≤ e + n + 1 ∧
    Zpos m' * 2 ^ (e' - (e + n)) = v ∧ q `div` 2 ^ n ≤ v ≤ q `div` 2 ^ n + 1 ∧
    (n = 0 → l = loc_Exact → v = q).
Proof.
  intros Hq He. destruct (shr_fexp_spec q e l Hq ltac:(subst n; lia)) as (Hm & He' & Hb). fold n in Hm, He', Hb.
  unfold binary_round_aux. destruct (shr_fexp 53 1024 q e l) as [mrs' e1] eqn:Emrs. cbn [fst snd] in *. subst e1.
  set (m1 := round_nearest_even (shr_m mrs') (loc_of_shr_record mrs')).
  assert (m1 = q `div` 2 ^ n ∨ m1 = q `div` 2 ^ n + 1) as Hm1
    by (subst m1; rewrite <- Hm; apply round_nearest_even_near).
  assert (n = 0 → l = loc_Exact → m1 = q) as Hexact.
  { intros Hn ->. rewrite shr_fexp_none in Emrs by lia. injection Emrs as <- _. by subst m1. }
  destruct (decide (m1 = 2 ^ 53)) as [Htop|Htop].
  - rewrite Htop. destruct (shr_fexp_spec (2 ^ 53) (e + n) loc_Exact) as (Hm2 & He2 & _);
      [lia|rewrite Z.log2_pow2 by lia; lia|]. rewrite Z.log2_pow2 in Hm2, He2 by lia.
    destruct (shr_fexp 53 1024 (2 ^ 53) (e + n) loc_Exact) as [mrs'' e2]. cbn [fst snd] in *. subst e2.
    rewrite Hm2. change (2 ^ 53 `div` 2 ^ (53 - 52)) with (2 ^ 52).
    destruct (2 ^ 52) as [|m'|] eqn:Em; [lia| |lia]. rewrite (proj2 (Z.leb_le _ _)) by lia.
    exists m', (e + n + (53 - 52)), (2 ^ 53). rewrite <- Em. split_and!; [done|lia|lia|lia|lia| |lia|lia|intros; rewrite <- Htop; by apply Hexact].
    by replace (e + n + (53 - 52) - (e + n)) with 1 by lia.
  - assert (2 ^ 52 ≤ m1 < 2 ^ 53) as Hr by lia.
    assert (Z.log2 m1 = 52) as Hlog by (apply Z.log2_unique; [lia|exact Hr]).
    rewrite shr_fexp_none by lia. cbn [shr_m shr_record_of_loc].
    destruct m1 as [|m'|] eqn:Em; [lia| |lia]. rewrite (proj2 (Z.leb_le _ _)) by lia.
    exists m', (e + n), (Zpos m'). split_and!; [done|lia|lia|lia|lia| |lia|lia|done].
    rewrite Z.sub_diag. lia.
Qed.

(** ** Accuracy *)

(* y is x up to the relative error d *)
Definition near (d x y : Q) : Prop := (x * (1 - d) <= y ∧ y <= x * (1 + d))%Q.

Lemma Qmult_le_mono x y z : (0 <= x → y <= z → x * y <= x * z)%Q.
Proof. intros Hx H. rewrite !(Qmult_comm x). by apply Qmult_le_compat_r. Qed.

Lemma near_trans d1 d2 d x y z :
  (0 <= x → d2 <= 1 → 0 <= d2 → (1 + d1) * (1 + d2) <= 1 + d → 1 - d <= (1 - d1) * (1 - d2) →
   near d1 x y → near d2 y z → near d x z)%Q.
Proof.
  unfold near. intros Hx H2 H2' Hu Hl [Hy1 Hy2] [Hz1 Hz2]. split.
  - apply Qle_trans with (x * (1 - d1) * (1 - d2))%Q; [nra|].
    apply Qle_trans with (y * (1 - d2))%Q; [nra|done].
  - apply Qle_trans with (y * (1 + d2))%Q; [done|].
    apply Qle_trans with (x * (1 + d1) * (1 + d2))%Q; nra.
Qed.

Lemma near_div d1 d2 d a b x y :
  (0 <= a → 0 < b → d2 < 1 → 0 <= 1 + d → d <= 1 → 1 + d1 <= (1 + d) * (1 - d2) →
   (1 - d) * (1 + d2) <= 1 - d1 → near d1 a x → near d2 b y → near d (a / b) (x / y))%Q.
Proof.
  unfold near. intros Ha Hb H2 Hd Hd' Hu Hl [Hx1 Hx2] [Hy1 Hy2].
  assert (0 < y)%Q as Hy by nra.
  assert (a == a / b * b)%Q as Hq by (field; lra).
  assert (0 <= a / b)%Q as Hq0 by (apply Qle_shift_div_l; lra).
  generalize dependent (a / b)%Q. intros q Hq Hq0. split.
  - apply Qle_shift_div_l; [done|]. assert (0 <= q * b)%Q by (apply Qmult_le_0_compat; lra).
    apply Qle_trans with (q * (1 - d) * (b * (1 + d2)))%Q;
      [apply Qmult_le_mono; [apply Qmult_le_0_compat; lra|done]|].
    apply Qle_trans with (q * b * ((1 - d) * (1 + d2)))%Q; [lra|].
    apply Qle_trans with (q * b * (1 - d1))%Q; [by apply Qmult_le_mono|]. rewrite <- Hq. done.
  - apply Qle_shift_div_r; [done|]. apply Qle_trans with (q * b * (1 + d1))%Q; [rewrite <- Hq; done|].
    assert (0 <= q * b)%Q by (apply Qmult_le_0_compat; lra).
    apply Qle_trans with (q * b * ((1 + d) * (1 - d2)))%Q; [by apply Qmult_le_mono|].
    apply Qle_trans with (q * (1 + d) * (b * (1 - d2)))%Q; [lra|]. apply Qmult_le_mono; [apply Qmult_le_0_compat; lra|done].
Qed.

Definition pow2 (e : Z) : Q := Qpower 2 e.
Definition value (m e : Z) : Q := (inject_Z m * pow2 e)%Q.

Lemma pow2_pos e : (0 < pow2 e)%Q.
Proof. apply Qpower_0_lt. reflexivity. Qed.

Lemma pow2_add e f : (pow2 (e + f) == pow2 e * pow2 f)%Q.
Proof. apply Qpower_plus. discriminate. Qed.

Lemma pow2_Z e : 0 ≤ e → (pow2 e == inject_Z (2 ^ e))%Q.
Proof. intros H. symmetry. by apply Zpower_Qpower. Qed.

(* one part in 2 ^ 52 *)
Definition ulp : Q := 1 # 4503599627370496.

(** [approximates d low high x v]: the double x is positive, its exponent is in
    the given bounds, and it is v up to the relative error d. *)
Definition approximates (d : Q) (low high : Z) (x : double) (v : Q) : Prop :=
  ∃ m e, x = S754_finite false m e ∧ 2 ^ 52 ≤ Zpos m < 2 ^ 53 ∧ low ≤ e ≤ high ∧
    near d v (value (Zpos m) e).

Lemma round_near q e l x (n := Z.log2 q - 52) :
  2 ^ 52 ≤ q → -1074 ≤ e + n ≤ 960 →
  (value q e <= x)%Q → (x < value (q + 1) e)%Q →
  approximates ulp (e + n) (e + n + 1) (binary_round_aux 53 1024 false q e l) x.
Proof.
  intros Hq He Hlow Hhigh. destruct (round_aux q e l Hq He) as (m & e' & v & -> & Hm & He' & Hv & Hb & _).
  fold n in He', Hv, Hb. exists m, e'. split_and!; [done|lia|lia|lia|lia|].
  assert (0 ≤ n) as Hn.
  { apply Z.log2_le_mono in Hq. rewrite Z.log2_pow2 in Hq by lia. lia. }
  set (v0 := q `div` 2 ^ n) in *.
  assert (2 ^ 52 ≤ v0) as Hv0.
  { pose proof (Z.log2_spec q ltac:(lia)) as [H _].
    apply Z.div_le_lower_bound; [lia|]. rewrite <- Z.pow_add_r by lia.
    by replace (n + 52) with (Z.log2 q) by lia. }
  assert (v0 * 2 ^ n ≤ q ∧ q + 1 ≤ (v0 + 1) * 2 ^ n) as [Hq1 Hq2].
  { pose proof (Z.div_mod q (2 ^ n)). pose proof (Z.mod_pos_bound q (2 ^ n)). subst v0. nia. }
  assert (value (Zpos m) e' == inject_Z v * pow2 (e + n))%Q as Hval.
  { unfold value. rewrite <- Hv, inject_Z_mult. pose proof (pow2_Z (e' - (e + n)) ltac:(lia)) as <-.
    replace e' with ((e' - (e + n)) + (e + n)) at 1 by lia. rewrite pow2_add. ring. }
  set (u := pow2 (e + n)) in *. assert (0 < u)%Q as Hu by apply pow2_pos.
  assert (inject_Z v0 * u <= x)%Q as Hx1.
  { apply Qle_trans with (value q e); [|done]. subst u. rewrite (Z.add_comm e n), pow2_add. pose proof (pow2_Z n Hn) as ->.
    unfold value. rewrite Qmult_assoc, <- inject_Z_mult.
    apply Qmult_le_compat_r; [by rewrite <- Zle_Qle|]. apply Qlt_le_weak, pow2_pos. }
  assert (x < inject_Z (v0 + 1) * u)%Q as Hx2.
  { apply Qlt_le_trans with (value (q + 1) e); [done|]. subst u. rewrite (Z.add_comm e n), pow2_add. pose proof (pow2_Z n Hn) as ->.
    unfold value. rewrite Qmult_assoc, <- inject_Z_mult.
    apply Qmult_le_compat_r; [by rewrite <- Zle_Qle|]. apply Qlt_le_weak, pow2_pos. }
  assert (inject_Z v0 * u <= inject_Z v * u)%Q as Hv1.
  { apply Qmult_le_compat_r; [rewrite <- Zle_Qle; lia|lra]. }
  assert (inject_Z v * u <= inject_Z (v0 + 1) * u)%Q as Hv2.
  { apply Qmult_le_compat_r; [rewrite <- Zle_Qle; lia|lra]. }
  rewrite inject_Z_plus in Hx2, Hv2. change (inject_Z 1) with 1%Q in Hx2, Hv2.
  assert (inject_Z (2 ^ 52) * u <= inject_Z v0 * u)%Q as Hbig.
  { apply Qmult_le_compat_r; [by rewrite <- Zle_Qle|lra]. }
  change (inject_Z (2 ^ 52)) with (4503599627370496 # 1)%Q in Hbig.
  unfold near. rewrite Hval. unfold ulp. split; lra.
Qed.

Lemma shift_left p k : Zpos (Pos.iter xO p k) = Zpos p * 2 ^ Zpos k.
Proof.
  induction k as [|k IH] using Pos.peano_ind; [cbn; lia|].
  rewrite Pos.iter_succ, Pos2Z.inj_xO, IH, Pos2Z.inj_succ, Z.pow_succ_r by lia. lia.
Qed.

Lemma approximates_integer z : 0 < z < 2 ^ 64 →
  approximates ulp (-52) 12 (of_integer z) (inject_Z z).
Proof.
  intros Hz. destruct z as [|p|]; [lia| |lia]. unfold of_integer, binary_normalize, binary_round.
  pose proof (digits2_log2 p) as Hd. pose proof (Z.log2_nonneg (Zpos p)).
  assert (Z.log2 (Zpos p) < 64) by (apply Z.log2_lt_pow2; lia).
  assert (fexp 53 1024 (Zpos (digits2_pos p) + 0) = Z.log2 (Zpos p) - 52) as ->
    by (unfold fexp, emin; rewrite Hd; lia).
  unfold shl_align. rewrite Z.sub_0_r.
  assert (∀ q e : Z, 2 ^ 52 ≤ q → e + (Z.log2 q - 52) = Z.log2 (Zpos p) - 52 →
    (value q e == inject_Z (Zpos p))%Q →
    approximates ulp (-52) 12 (binary_round_aux 53 1024 false q e loc_Exact) (inject_Z (Zpos p))) as Happ.
  { intros q e Hq He Hval. destruct (round_near q e loc_Exact (inject_Z (Zpos p))) as (m & e' & Hr & Hm & He' & Hnear);
      [done|lia|by rewrite Hval; apply Qle_refl| |].
    - rewrite <- Hval. unfold value. rewrite inject_Z_plus. pose proof (pow2_pos e). change (inject_Z 1) with 1%Q. lra.
    - exists m, e'. split_and!; [done|lia|lia|lia|lia|done]. }
  destruct (Z.log2 (Zpos p) - 52) as [|k|k] eqn:Ek.
  - apply Happ; [|lia|unfold value, pow2; cbn; ring].
    pose proof (Z.log2_spec (Zpos p) ltac:(lia)) as [Hs _]. by replace (Z.log2 (Zpos p)) with 52 in Hs by lia.
  - apply Happ; [|lia|unfold value, pow2; cbn; ring].
    pose proof (Z.log2_spec (Zpos p) ltac:(lia)) as [Hs _].
    pose proof (Z.pow_le_mono_r 2 52 (Z.log2 (Zpos p))). lia.
  - rewrite shift_left. apply Happ.
    + pose proof (Z.log2_spec (Zpos p) ltac:(lia)) as [Hs _].
      assert (2 ^ 52 = 2 ^ Z.log2 (Zpos p) * 2 ^ Zpos k) as -> by (rewrite <- Z.pow_add_r by lia; f_equal; lia). nia.
    + rewrite Z.log2_mul_pow2 by lia. lia.
    + unfold value. rewrite inject_Z_mult. pose proof (pow2_Z (Zpos k) ltac:(lia)) as <-. rewrite <- Qmult_assoc, <- pow2_add.
      change (Z.neg k) with (- Z.pos k). rewrite Z.add_opp_diag_r. unfold pow2. cbn. ring.
Qed.

Lemma value_pos m e : (0 < value (Zpos m) e)%Q.
Proof. apply Qmult_lt_0_compat; [by rewrite <- (Zlt_Qlt 0)|apply pow2_pos]. Qed.

(* the quotient with 53 more bits, and what is cut off *)
Lemma div_core mx ex my ey :
  2 ^ 52 ≤ Zpos mx < 2 ^ 53 → 2 ^ 52 ≤ Zpos my < 2 ^ 53 → -1000 ≤ ex - ey ≤ 900 →
  ∃ l, SFdiv_core_binary 53 1024 (Zpos mx) ex (Zpos my) ey =
    ((Zpos mx * 2 ^ 53) `div` Zpos my, ex - ey - 53, l).
Proof.
  intros Hx Hy He. unfold SFdiv_core_binary.
  assert (∀ p, 2 ^ 52 ≤ Zpos p < 2 ^ 53 → Zdigits2 (Zpos p) = 53) as Hd.
  { intros p Hp. rewrite Zdigits2_log2 by lia.
    assert (Z.log2 (Zpos p) = 52) as -> by (apply Z.log2_unique; [lia|exact Hp]). lia. }
  rewrite !Hd by done.
  assert (Z.min (fexp 53 1024 (53 + ex - (53 + ey))) (ex - ey) = ex - ey - 53) as ->
    by (unfold fexp, emin; lia).
  replace (ex - ey - (ex - ey - 53)) with 53 by lia. rewrite Z.shiftl_mul_pow2 by lia.
  unfold Z.div. destruct (Z.div_eucl (Zpos mx * 2 ^ 53) (Zpos my)) as [q r]. by eexists.
Qed.

Lemma approximates_divide d0 dx dy d lx hx ly hy x y a b :
  (0 <= a)%Q → (0 < b)%Q → -900 ≤ lx - hy → hx - ly ≤ 900 →
  (dy < 1 ∧ 0 <= 1 + d0 ∧ d0 <= 1 ∧ 1 + dx <= (1 + d0) * (1 - dy) ∧ (1 - d0) * (1 + dy) <= 1 - dx)%Q →
  ((1 + d0) * (1 + ulp) <= 1 + d ∧ 1 - d <= (1 - d0) * (1 - ulp))%Q →
  approximates dx lx hx x a → approximates dy ly hy y b →
  approximates d (lx - hy - 53) (hx - ly - 51) (divide x y) (a / b).
Proof.
  intros Ha Hb Hlow Hhigh (H1 & H2 & H3 & H4 & H5) [H6 H7]
    (mx & ex & -> & Hmx & Hex & Hx) (my & ey & -> & Hmy & Hey & Hy).
  unfold divide, SFdiv. destruct (div_core mx ex my ey Hmx Hmy ltac:(lia)) as [l ->]. cbn [xorb].
  set (q := (Zpos mx * 2 ^ 53) `div` Zpos my).
  pose proof (Z.div_mod (Zpos mx * 2 ^ 53) (Zpos my) ltac:(lia)) as Hdm. fold q in Hdm.
  pose proof (Z.mod_pos_bound (Zpos mx * 2 ^ 53) (Zpos my) ltac:(lia)) as Hmod.
  assert (2 ^ 52 ≤ q) as Hq1 by (apply Z.div_le_lower_bound; lia).
  assert (q < 2 ^ 54) as Hq2 by (apply Z.div_lt_upper_bound; lia).
  assert (52 ≤ Z.log2 q ∧ Z.log2 q < 54) as [Hl1 Hl2].
  { split; [|apply Z.log2_lt_pow2; lia]. apply Z.log2_le_mono in Hq1. by rewrite Z.log2_pow2 in Hq1. }
  assert (value (Zpos mx) ex / value (Zpos my) ey ==
    inject_Z (Zpos mx * 2 ^ 53) * pow2 (ex - ey - 53) / inject_Z (Zpos my))%Q as Hval.
  { unfold value. pose proof (pow2_pos ey). pose proof (pow2_pos (ex - ey - 53)).
    rewrite inject_Z_mult. pose proof (pow2_Z 53 ltac:(lia)) as <-.
    replace ex with ((ex - ey - 53) + 53 + ey) at 1 by lia. rewrite !pow2_add.
    assert (0 < inject_Z (Zpos my))%Q by (by rewrite <- (Zlt_Qlt 0)). field. split; lra. }
  pose proof (pow2_pos (ex - ey - 53)) as Hu.
  assert (0 < inject_Z (Zpos my))%Q as Hpy by (by rewrite <- (Zlt_Qlt 0)).
  destruct (round_near q (ex - ey - 53) l (value (Zpos mx) ex / value (Zpos my) ey)%Q)
    as (m & e & Hr & Hm & He & Hnear); [done|lia| | |].
  - rewrite Hval. apply Qle_shift_div_l; [done|]. unfold value.
    rewrite <- Qmult_assoc, (Qmult_comm (pow2 _)), Qmult_assoc, <- inject_Z_mult.
    apply Qmult_le_compat_r; [rewrite <- Zle_Qle; lia|lra].
  - rewrite Hval. apply Qlt_shift_div_r; [done|]. unfold value.
    rewrite <- (Qmult_assoc (inject_Z (q + 1))), (Qmult_comm (pow2 _)), Qmult_assoc, <- inject_Z_mult.
    apply Qmult_lt_compat_r; [done|]. rewrite <- Zlt_Qlt. lia.
  - exists m, e. split_and!; [done|lia|lia|lia|lia|].
    eapply (near_trans d0 ulp); [|done|done|done|done| |exact Hnear].
    + apply Qle_shift_div_l; lra.
    + by apply (near_div dx dy).
Qed.

(** ** Printing *)

Lemma round_half_even_spec a b : 0 ≤ a → 0 < b →
  0 ≤ round_half_even a b ∧ 2 * a ≤ 2 * (round_half_even a b * b) + b ∧ 2 * (round_half_even a b * b) ≤ 2 * a + b.
Proof.
  intros Ha Hb. unfold round_half_even. pose proof (Z.div_pos a b Ha Hb).
  pose proof (Z.div_mod a b ltac:(lia)). pose proof (Z.mod_pos_bound a b Hb).
  destruct (Z.compare_spec (2 * (a `mod` b)) b); [destruct (Z.even (a `div` b))| |]; nia.
Qed.

Lemma hundredths_spec m e :
  0 ≤ hundredths (Zpos m) e ∧
  (inject_Z (hundredths (Zpos m) e) - (1 # 2) <= 100 * value (Zpos m) e)%Q ∧
  (100 * value (Zpos m) e <= inject_Z (hundredths (Zpos m) e) + (1 # 2))%Q.
Proof.
  unfold hundredths, value. destruct (Z.leb_spec 0 e) as [He|He].
  - split; [lia|]. rewrite !inject_Z_mult. pose proof (pow2_Z e He) as <-.
    change (inject_Z 100) with (100 # 1)%Q. split; lra.
  - destruct (round_half_even_spec (100 * Zpos m) (2 ^ (- e))) as (H0 & H1 & H2); [lia|lia|].
    set (n := round_half_even _ _) in *. split; [done|].
    assert (0 < pow2 (- e))%Q as Hu by apply pow2_pos.
    assert (inject_Z (Zpos m) == inject_Z (Zpos m) * pow2 e * pow2 (- e))%Q as Hm.
    { rewrite <- Qmult_assoc, <- pow2_add, Z.add_opp_diag_r. unfold pow2. cbn. ring. }
    rewrite Zle_Qle in H1, H2.
    rewrite !inject_Z_plus, !inject_Z_mult in H1, H2.
    pose proof (pow2_Z (- e) ltac:(lia)) as Hp. rewrite <- Hp in H1, H2.
    change (inject_Z 2) with 2%Q in *. change (inject_Z 100) with 100%Q in *.
    rewrite Hm in H1, H2. set (v := (inject_Z (Zpos m) * pow2 e)%Q) in *.
    set (u := pow2 (- e)) in *. clearbody u v n.
    split; apply (Qmult_le_r _ _ u Hu); lra.
Qed.

Lemma two_decimals_text n : 0 ≤ n → two_decimals n = decimal_text n 2.
Proof.
  intros Hn. unfold two_decimals, decimal_text. destruct (Z.ltb_spec n 0); [lia|].
  by rewrite Z.abs_eq by done.
Qed.

(* n hundredths are v up to half a hundredth and the relative error d *)
Definition hundredths_of (d v : Q) (n : Z) : Prop :=
  0 ≤ n ∧ (100 * v * (1 - d) - (1 # 2) <= inject_Z n)%Q ∧ (inject_Z n <= 100 * v * (1 + d) + (1 # 2))%Q.

Lemma fixed2_approximates d low high x v : approximates d low high x v →
  ∃ n, fixed2 x = decimal_text n 2 ∧ hundredths_of d v n.
Proof.
  intros (m & e & -> & _ & _ & Hnear). exists (hundredths (Zpos m) e).
  destruct (hundredths_spec m e) as (H0 & H1 & H2). unfold fixed2. split.
  - by rewrite <- two_decimals_text by done.
  - destruct Hnear as [H3 H4]. split; [done|]. split; lra.
Qed.

Lemma fixed2_zero d : fixed2 zero = decimal_text 0 2 ∧ hundredths_of d 0 0.
Proof. split; [done|]. split; [done|]. change (inject_Z 0) with 0%Q. split; lra. Qed.

Example third : fixed2 (divide (of_integer 1) (of_integer 3)) = bytes_of "0.33".
Proof. by vm_compute. Qed.

(* an eighth is exact and lies between two hundredths *)
Example eighth : fixed2 (divide (of_integer 1) (of_integer 8)) = bytes_of "0.12".
Proof. by vm_compute. Qed.

(* a number that is no double *)
Example big : fixed2 (of_integer (2 ^ 63 + 1)) = bytes_of "9223372036854775808.00".
Proof. by vm_compute. Qed.

(* an order of the FIX gateway that has traded one unit at the highest price:
   where long double is double its average price is 2^63, which no int64_t is *)
Example average_leaves_int64 :
  divide (of_integer (2 ^ 63 - 1)) (of_integer 1) = of_integer (2 ^ 63).
Proof. by vm_compute. Qed.
