(* ===== verification/Protocol.v ===== *)
(** * The binary wire protocol (include/exchange/protocol.hpp)

    Fixed-size messages of little-endian integers and eight-character symbols.
    The enumerations of the protocol have a fixed underlying type and can hold
    any of its values, so they are integers with named constants.  Every
    decoder is proved exact: it accepts precisely the bytes its encoder can
    produce from a valid message. *)
From Stdlib Require Import Strings.String.
From S2P Require Import Prelude Bytes.
Open Scope Z_scope.

Module Protocol.

Definition protocol_magic : Z := 0x45584C42.
Definition protocol_version : Z := 3.

Module MessageType.
Definition NewOrder : Z := 1.
Definition CancelOrder : Z := 2.
Definition ReplaceOrder : Z := 3.
Definition OrderAccepted : Z := 100.
Definition OrderRejected : Z := 101.
Definition OrderCancelled : Z := 102.
Definition OrderReplaced : Z := 103.
Definition TradeExecution : Z := 104.
Definition BookUpdate : Z := 105.
Definition Level3AddOrder : Z := 200.
Definition Level3OrderExecuted : Z := 201.
Definition Level3OrderDeleted : Z := 202.
End MessageType.

Definition Side_Buy : Z := 1.
Definition Side_Sell : Z := 2.
Definition OrderType_Limit : Z := 1.
Definition OrderType_Market : Z := 2.
Definition TimeInForce_GoodTillCancel : Z := 0.
Definition TimeInForce_ImmediateOrCancel : Z := 1.
Definition TimeInForce_FillOrKill : Z := 2.

(** ** Symbols *)

Definition symbol_size : nat := 8.
(* std::array<char, 8>; a char is its byte *)
Abbreviation Symbol := (list byte).

Definition default_symbol : Symbol := [x54; x45; x53; x54; x00; x00; x00; x00].

(* 'A'..'Z', '0'..'9', '.', '-' *)
Definition is_valid_symbol_character (character : byte) : bool :=
  let c := Z_of_byte character in
  ((65 <=? c) && (c <=? 90)) || ((48 <=? c) && (c <=? 57)) || (c =? 46) || (c =? 45).

Fixpoint is_valid_symbol_loop (symbol : list byte) (saw_character saw_terminator : bool) : bool :=
  match symbol with
  | [] => saw_character
  | character :: symbol' =>
      if bool_decide (character = x00)
      then is_valid_symbol_loop symbol' saw_character true
      else if saw_terminator then false
      else if negb (is_valid_symbol_character character) then false
      else is_valid_symbol_loop symbol' true saw_terminator
  end.

Definition is_valid_symbol (symbol : Symbol) : bool :=
  is_valid_symbol_loop symbol false false.

Definition empty_symbol : Symbol := replicate symbol_size x00.

(* the loop of make_symbol: None is the early return of an empty symbol *)
Fixpoint make_symbol_loop (text : list byte) (index : nat) (symbol : Symbol) : Symbol :=
  match text with
  | [] => symbol
  | character :: text' =>
      if negb (is_valid_symbol_character character) then empty_symbol
      else make_symbol_loop text' (S index) (<[index := character]> symbol)
  end.

Definition make_symbol (text : string) : Symbol :=
  let text := list_byte_of_string text in
  if (length text =? 0)%nat || (symbol_size <? length text)%nat then empty_symbol
  else make_symbol_loop text 0 empty_symbol.

(* the while loop that counts the characters before the first terminator *)
Fixpoint symbol_length (symbol : list byte) : nat :=
  match symbol with
  | [] => 0
  | character :: symbol' =>
      if bool_decide (character = x00) then 0 else S (symbol_length symbol')
  end.

Definition symbol_to_string (symbol : Symbol) : string :=
  if negb (is_valid_symbol symbol) then EmptyString
  else string_of_list_byte (take (symbol_length symbol) symbol).

Definition write_symbol (symbol : Symbol) (st : Output) : Output :=
  foldl (λ st character, write_byte character st) st symbol.

Definition read_symbol : reader Symbol :=
  λ input offset,
    if (length input <? offset + symbol_size)%nat then None
    else
      let symbol := (λ index, nth (offset + index) input x00) <$> seq 0 symbol_size in
      if negb (is_valid_symbol symbol) then None
      else Some (symbol, (offset + symbol_size)%nat).

(** ** Messages *)

Module MessageHeader.
Record t : Type := mk {
  magic : Z; version : Z; type : Z; body_size : Z; sequence_number : Z
}.
End MessageHeader.

Module NewOrderRequest.
Record t : Type := mk {
  order_id : Z; timestamp : Z; price : Z; quantity : Z;
  side : Z; order_type : Z; time_in_force : Z; symbol : Symbol
}.
End NewOrderRequest.

Module CancelOrderRequest.
Record t : Type := mk { order_id : Z; timestamp : Z; symbol : Symbol }.
End CancelOrderRequest.

Module ReplaceOrderRequest.
Record t : Type := mk {
  order_id : Z; timestamp : Z; new_price : Z; new_quantity : Z; symbol : Symbol
}.
End ReplaceOrderRequest.

Module OrderResponse.
Record t : Type := mk { order_id : Z; sequence_number : Z; success : Z }.
End OrderResponse.

Module TradeExecution.
Record t : Type := mk {
  buy_order_id : Z; sell_order_id : Z; price : Z; quantity : Z;
  sequence_number : Z; symbol : Symbol
}.
End TradeExecution.

Module BookUpdate.
Record t : Type := mk {
  has_bid : Z; best_bid : Z; bid_quantity : Z;
  has_ask : Z; best_ask : Z; ask_quantity : Z;
  sequence_number : Z; symbol : Symbol
}.
End BookUpdate.

Module Level3AddOrder.
Record t : Type := mk {
  order_id : Z; timestamp : Z; price : Z; quantity : Z; side : Z;
  sequence_number : Z; symbol : Symbol
}.
End Level3AddOrder.

Module Level3OrderExecuted.
Record t : Type := mk {
  buy_order_id : Z; sell_order_id : Z; price : Z; quantity : Z;
  sequence_number : Z; symbol : Symbol
}.
End Level3OrderExecuted.

Module Level3OrderDeleted.
Record t : Type := mk { order_id : Z; sequence_number : Z; symbol : Symbol }.
End Level3OrderDeleted.

Definition header_size : nat := 20.
Definition new_order_body_size : nat := 43.
Definition cancel_order_body_size : nat := 24.
Definition replace_order_body_size : nat := 40.
Definition order_response_body_size : nat := 17.
Definition trade_execution_body_size : nat := 48.
Definition book_update_body_size : nat := 50.
Definition level3_add_order_body_size : nat := 49.
Definition level3_order_executed_body_size : nat := 48.
Definition level3_order_deleted_body_size : nat := 24.

(* a zero-initialised array, and the first write offset *)
Definition fresh (size : nat) : Output := (replicate size x00, 0%nat).

(** ** Encoders and decoders

    A decoder tests the size, reads every field, and then tests the values. *)

Definition encode_header (header : MessageHeader.t) : list byte :=
  let st := fresh header_size in
  let st := write_integer U32 (MessageHeader.magic header) st in
  let st := write_integer U16 (MessageHeader.version header) st in
  let st := write_integer U16 (MessageHeader.type header) st in
  let st := write_integer U32 (MessageHeader.body_size header) st in
  let st := write_integer U64 (MessageHeader.sequence_number header) st in
  st.1.

Definition decode_header (input : list byte) : option MessageHeader.t :=
  if negb (length input =? header_size)%nat then None
  else run_reader (
    magic <~ read_integer U32 ;;
    version <~ read_integer U16 ;;
    type <~ read_integer U16 ;;
    body_size <~ read_integer U32 ;;
    sequence_number <~ read_integer U64 ;;
    _ <~ reader_guard ((magic =? protocol_magic) && (version =? protocol_version)) ;;
    reader_ret (MessageHeader.mk magic version type body_size sequence_number)) input.

Definition encode_new_order (request : NewOrderRequest.t) : list byte :=
  let st := fresh new_order_body_size in
  let st := write_integer U64 (NewOrderRequest.order_id request) st in
  let st := write_integer U64 (NewOrderRequest.timestamp request) st in
  let st := write_integer I64 (NewOrderRequest.price request) st in
  let st := write_integer U64 (NewOrderRequest.quantity request) st in
  let st := write_integer U8 (NewOrderRequest.side request) st in
  let st := write_integer U8 (NewOrderRequest.order_type request) st in
  let st := write_integer U8 (NewOrderRequest.time_in_force request) st in
  let st := write_symbol (NewOrderRequest.symbol request) st in
  st.1.

Definition decode_new_order (input : list byte) : option NewOrderRequest.t :=
  if negb (length input =? new_order_body_size)%nat then None
  else run_reader (
    order_id <~ read_integer U64 ;;
    timestamp <~ read_integer U64 ;;
    price <~ read_integer I64 ;;
    quantity <~ read_integer U64 ;;
    side <~ read_integer U8 ;;
    order_type <~ read_integer U8 ;;
    time_in_force <~ read_integer U8 ;;
    symbol <~ read_symbol ;;
    _ <~ reader_guard ((side =? Side_Buy) || (side =? Side_Sell)) ;;
    _ <~ reader_guard ((order_type =? OrderType_Limit) || (order_type =? OrderType_Market)) ;;
    _ <~ reader_guard ((time_in_force =? TimeInForce_GoodTillCancel) ||
                       (time_in_force =? TimeInForce_ImmediateOrCancel) ||
                       (time_in_force =? TimeInForce_FillOrKill)) ;;
    _ <~ reader_guard (negb (quantity =? 0)) ;;
    reader_ret (NewOrderRequest.mk order_id timestamp price quantity side order_type
                  time_in_force symbol)) input.

Definition encode_cancel_order (request : CancelOrderRequest.t) : list byte :=
  let st := fresh cancel_order_body_size in
  let st := write_integer U64 (CancelOrderRequest.order_id request) st in
  let st := write_integer U64 (CancelOrderRequest.timestamp request) st in
  let st := write_symbol (CancelOrderRequest.symbol request) st in
  st.1.

Definition decode_cancel_order (input : list byte) : option CancelOrderRequest.t :=
  if negb (length input =? cancel_order_body_size)%nat then None
  else run_reader (
    order_id <~ read_integer U64 ;;
    timestamp <~ read_integer U64 ;;
    symbol <~ read_symbol ;;
    reader_ret (CancelOrderRequest.mk order_id timestamp symbol)) input.

Definition encode_replace_order (request : ReplaceOrderRequest.t) : list byte :=
  let st := fresh replace_order_body_size in
  let st := write_integer U64 (ReplaceOrderRequest.order_id request) st in
  let st := write_integer U64 (ReplaceOrderRequest.timestamp request) st in
  let st := write_integer I64 (ReplaceOrderRequest.new_price request) st in
  let st := write_integer U64 (ReplaceOrderRequest.new_quantity request) st in
  let st := write_symbol (ReplaceOrderRequest.symbol request) st in
  st.1.

Definition decode_replace_order (input : list byte) : option ReplaceOrderRequest.t :=
  if negb (length input =? replace_order_body_size)%nat then None
  else run_reader (
    order_id <~ read_integer U64 ;;
    timestamp <~ read_integer U64 ;;
    new_price <~ read_integer I64 ;;
    new_quantity <~ read_integer U64 ;;
    symbol <~ read_symbol ;;
    _ <~ reader_guard (negb (new_quantity =? 0)) ;;
    reader_ret (ReplaceOrderRequest.mk order_id timestamp new_price new_quantity symbol)) input.

Definition encode_order_response (response : OrderResponse.t) : list byte :=
  let st := fresh order_response_body_size in
  let st := write_integer U64 (OrderResponse.order_id response) st in
  let st := write_integer U64 (OrderResponse.sequence_number response) st in
  let st := write_integer U8 (OrderResponse.success response) st in
  st.1.

Definition decode_order_response (input : list byte) : option OrderResponse.t :=
  if negb (length input =? order_response_body_size)%nat then None
  else run_reader (
    order_id <~ read_integer U64 ;;
    sequence_number <~ read_integer U64 ;;
    success <~ read_integer U8 ;;
    _ <~ reader_guard ((success =? 0) || (success =? 1)) ;;
    reader_ret (OrderResponse.mk order_id sequence_number success)) input.

Definition encode_trade_execution (execution : TradeExecution.t) : list byte :=
  let st := fresh trade_execution_body_size in
  let st := write_integer U64 (TradeExecution.buy_order_id execution) st in
  let st := write_integer U64 (TradeExecution.sell_order_id execution) st in
  let st := write_integer I64 (TradeExecution.price execution) st in
  let st := write_integer U64 (TradeExecution.quantity execution) st in
  let st := write_integer U64 (TradeExecution.sequence_number execution) st in
  let st := write_symbol (TradeExecution.symbol execution) st in
  st.1.

Definition decode_trade_execution (input : list byte) : option TradeExecution.t :=
  if negb (length input =? trade_execution_body_size)%nat then None
  else run_reader (
    buy_order_id <~ read_integer U64 ;;
    sell_order_id <~ read_integer U64 ;;
    price <~ read_integer I64 ;;
    quantity <~ read_integer U64 ;;
    sequence_number <~ read_integer U64 ;;
    symbol <~ read_symbol ;;
    _ <~ reader_guard (negb (quantity =? 0)) ;;
    reader_ret (TradeExecution.mk buy_order_id sell_order_id price quantity
                  sequence_number symbol)) input.

Definition encode_book_update (update : BookUpdate.t) : list byte :=
  let st := fresh book_update_body_size in
  let st := write_integer U8 (BookUpdate.has_bid update) st in
  let st := write_integer I64 (BookUpdate.best_bid update) st in
  let st := write_integer U64 (BookUpdate.bid_quantity update) st in
  let st := write_integer U8 (BookUpdate.has_ask update) st in
  let st := write_integer I64 (BookUpdate.best_ask update) st in
  let st := write_integer U64 (BookUpdate.ask_quantity update) st in
  let st := write_integer U64 (BookUpdate.sequence_number update) st in
  let st := write_symbol (BookUpdate.symbol update) st in
  st.1.

Definition decode_book_update (input : list byte) : option BookUpdate.t :=
  if negb (length input =? book_update_body_size)%nat then None
  else run_reader (
    has_bid <~ read_integer U8 ;;
    best_bid <~ read_integer I64 ;;
    bid_quantity <~ read_integer U64 ;;
    has_ask <~ read_integer U8 ;;
    best_ask <~ read_integer I64 ;;
    ask_quantity <~ read_integer U64 ;;
    sequence_number <~ read_integer U64 ;;
    symbol <~ read_symbol ;;
    _ <~ reader_guard (((has_bid =? 0) || (has_bid =? 1)) &&
                       ((has_ask =? 0) || (has_ask =? 1))) ;;
    _ <~ reader_guard (negb ((has_bid =? 0) && (negb (best_bid =? 0) || negb (bid_quantity =? 0)))) ;;
    _ <~ reader_guard (negb ((has_ask =? 0) && (negb (best_ask =? 0) || negb (ask_quantity =? 0)))) ;;
    reader_ret (BookUpdate.mk has_bid best_bid bid_quantity has_ask best_ask ask_quantity
                  sequence_number symbol)) input.

Definition encode_level3_add_order (event : Level3AddOrder.t) : list byte :=
  let st := fresh level3_add_order_body_size in
  let st := write_integer U64 (Level3AddOrder.order_id event) st in
  let st := write_integer U64 (Level3AddOrder.timestamp event) st in
  let st := write_integer I64 (Level3AddOrder.price event) st in
  let st := write_integer U64 (Level3AddOrder.quantity event) st in
  let st := write_integer U8 (Level3AddOrder.side event) st in
  let st := write_integer U64 (Level3AddOrder.sequence_number event) st in
  let st := write_symbol (Level3AddOrder.symbol event) st in
  st.1.

Definition decode_level3_add_order (input : list byte) : option Level3AddOrder.t :=
  if negb (length input =? level3_add_order_body_size)%nat then None
  else run_reader (
    order_id <~ read_integer U64 ;;
    timestamp <~ read_integer U64 ;;
    price <~ read_integer I64 ;;
    quantity <~ read_integer U64 ;;
    side <~ read_integer U8 ;;
    sequence_number <~ read_integer U64 ;;
    symbol <~ read_symbol ;;
    _ <~ reader_guard (negb (quantity =? 0)) ;;
    _ <~ reader_guard ((side =? Side_Buy) || (side =? Side_Sell)) ;;
    reader_ret (Level3AddOrder.mk order_id timestamp price quantity side
                  sequence_number symbol)) input.

Definition encode_level3_order_executed (event : Level3OrderExecuted.t) : list byte :=
  let st := fresh level3_order_executed_body_size in
  let st := write_integer U64 (Level3OrderExecuted.buy_order_id event) st in
  let st := write_integer U64 (Level3OrderExecuted.sell_order_id event) st in
  let st := write_integer I64 (Level3OrderExecuted.price event) st in
  let st := write_integer U64 (Level3OrderExecuted.quantity event) st in
  let st := write_integer U64 (Level3OrderExecuted.sequence_number event) st in
  let st := write_symbol (Level3OrderExecuted.symbol event) st in
  st.1.

Definition decode_level3_order_executed (input : list byte) : option Level3OrderExecuted.t :=
  if negb (length input =? level3_order_executed_body_size)%nat then None
  else run_reader (
    buy_order_id <~ read_integer U64 ;;
    sell_order_id <~ read_integer U64 ;;
    price <~ read_integer I64 ;;
    quantity <~ read_integer U64 ;;
    sequence_number <~ read_integer U64 ;;
    symbol <~ read_symbol ;;
    _ <~ reader_guard (negb (quantity =? 0)) ;;
    reader_ret (Level3OrderExecuted.mk buy_order_id sell_order_id price quantity
                  sequence_number symbol)) input.

Definition encode_level3_order_deleted (event : Level3OrderDeleted.t) : list byte :=
  let st := fresh level3_order_deleted_body_size in
  let st := write_integer U64 (Level3OrderDeleted.order_id event) st in
  let st := write_integer U64 (Level3OrderDeleted.sequence_number event) st in
  let st := write_symbol (Level3OrderDeleted.symbol event) st in
  st.1.

Definition decode_level3_order_deleted (input : list byte) : option Level3OrderDeleted.t :=
  if negb (length input =? level3_order_deleted_body_size)%nat then None
  else run_reader (
    order_id <~ read_integer U64 ;;
    sequence_number <~ read_integer U64 ;;
    symbol <~ read_symbol ;;
    reader_ret (Level3OrderDeleted.mk order_id sequence_number symbol)) input.

(** ** Lemmas on the fields *)

Definition valid_symbol (symbol : Symbol) : Prop :=
  length symbol = symbol_size ∧ is_valid_symbol symbol = true.

Lemma read_symbol_Some input offset symbol offset' :
  read_symbol input offset = Some (symbol, offset') ↔
  (offset' = offset + symbol_size)%nat ∧ valid_symbol symbol ∧
  drop offset input = symbol ++ drop offset' input.
Proof.
  unfold read_symbol, valid_symbol.
  destruct (Nat.ltb_spec (length input) (offset + symbol_size)) as [Hlt|Hle].
  - split; [done|]. intros (-> & [Hl _] & Hd). apply (f_equal length) in Hd.
    rewrite length_app, !length_drop in Hd. unfold symbol_size in *. lia.
  - rewrite slice_nth by done. set (bs := take symbol_size (drop offset input)).
    assert (drop offset input = bs ++ drop (offset + symbol_size) input) as Hbs.
    { unfold bs. by rewrite <- drop_drop, take_drop. }
    assert (length bs = symbol_size) as Hlen.
    { unfold bs. rewrite length_take, length_drop. lia. }
    split.
    + destruct (is_valid_symbol bs) eqn:E; simpl; [|done]. by intros [= <- <-].
    + intros (-> & [Hl Hv] & Hd). rewrite Hbs in Hd.
      apply app_inj_1 in Hd as [-> _]; [|by rewrite Hlen]. by rewrite Hv.
Qed.

Lemma read_symbol_next {B} (k : Symbol → reader B) symbol rest input offset :
  drop offset input = symbol ++ rest → valid_symbol symbol →
  reader_bind read_symbol k input offset = k symbol input (offset + symbol_size)%nat ∧
  drop (offset + symbol_size) input = rest.
Proof.
  intros Hd Hv. assert (drop (offset + symbol_size) input = rest) as Hrest.
  { rewrite <- drop_drop, Hd. by rewrite drop_app_length' by (symmetry; apply Hv). }
  split; [|done]. unfold reader_bind.
  assert (read_symbol input offset = Some (symbol, (offset + symbol_size)%nat)) as ->; [|done].
  apply read_symbol_Some. by rewrite Hrest.
Qed.

Lemma write_symbol_next symbol pre n :
  length symbol = symbol_size → (symbol_size ≤ n)%nat →
  write_symbol symbol (pre ++ replicate n x00, length pre) =
  ((pre ++ symbol) ++ replicate (n - symbol_size) x00, length (pre ++ symbol)).
Proof. intros Hl Hn. unfold write_symbol. rewrite write_bytes_next by lia. by rewrite Hl. Qed.

Lemma fresh_start n : fresh n = ([] ++ replicate n x00, length (@nil byte)).
Proof. done. Qed.

(** [layout] computes an encoder: the concatenation of its fields. *)
Ltac layout :=
  intros; rewrite fresh_start; cbn zeta;
  repeat first
    [ rewrite write_integer_next by (by apply Nat.leb_le)
    | rewrite write_symbol_next by (done || by apply Nat.leb_le) ];
  rewrite <- ?app_assoc; cbn [fst app replicate Nat.sub sizeof header_size new_order_body_size
    cancel_order_body_size replace_order_body_size order_response_body_size
    trade_execution_body_size book_update_body_size level3_add_order_body_size
    level3_order_executed_body_size level3_order_deleted_body_size symbol_size];
  rewrite ?app_nil_r; reflexivity.

Lemma encode_header_layout h :
  encode_header h = le_bytes 4 (MessageHeader.magic h) ++ le_bytes 2 (MessageHeader.version h) ++
    le_bytes 2 (MessageHeader.type h) ++ le_bytes 4 (MessageHeader.body_size h) ++
    le_bytes 8 (MessageHeader.sequence_number h).
Proof. unfold encode_header. layout. Qed.

Lemma encode_new_order_layout m :
  length (NewOrderRequest.symbol m) = symbol_size →
  encode_new_order m = le_bytes 8 (NewOrderRequest.order_id m) ++
    le_bytes 8 (NewOrderRequest.timestamp m) ++ le_bytes 8 (NewOrderRequest.price m) ++
    le_bytes 8 (NewOrderRequest.quantity m) ++ le_bytes 1 (NewOrderRequest.side m) ++
    le_bytes 1 (NewOrderRequest.order_type m) ++ le_bytes 1 (NewOrderRequest.time_in_force m) ++
    NewOrderRequest.symbol m.
Proof. unfold encode_new_order. layout. Qed.

Lemma encode_cancel_order_layout m :
  length (CancelOrderRequest.symbol m) = symbol_size →
  encode_cancel_order m = le_bytes 8 (CancelOrderRequest.order_id m) ++
    le_bytes 8 (CancelOrderRequest.timestamp m) ++
    CancelOrderRequest.symbol m.
Proof. unfold encode_cancel_order. layout. Qed.

Lemma encode_replace_order_layout m :
  length (ReplaceOrderRequest.symbol m) = symbol_size →
  encode_replace_order m = le_bytes 8 (ReplaceOrderRequest.order_id m) ++
    le_bytes 8 (ReplaceOrderRequest.timestamp m) ++
    le_bytes 8 (ReplaceOrderRequest.new_price m) ++
    le_bytes 8 (ReplaceOrderRequest.new_quantity m) ++
    ReplaceOrderRequest.symbol m.
Proof. unfold encode_replace_order. layout. Qed.

Lemma encode_trade_execution_layout m :
  length (TradeExecution.symbol m) = symbol_size →
  encode_trade_execution m = le_bytes 8 (TradeExecution.buy_order_id m) ++
    le_bytes 8 (TradeExecution.sell_order_id m) ++
    le_bytes 8 (TradeExecution.price m) ++
    le_bytes 8 (TradeExecution.quantity m) ++
    le_bytes 8 (TradeExecution.sequence_number m) ++
    TradeExecution.symbol m.
Proof. unfold encode_trade_execution. layout. Qed.

Lemma encode_book_update_layout m :
  length (BookUpdate.symbol m) = symbol_size →
  encode_book_update m = le_bytes 1 (BookUpdate.has_bid m) ++
    le_bytes 8 (BookUpdate.best_bid m) ++
    le_bytes 8 (BookUpdate.bid_quantity m) ++
    le_bytes 1 (BookUpdate.has_ask m) ++
    le_bytes 8 (BookUpdate.best_ask m) ++
    le_bytes 8 (BookUpdate.ask_quantity m) ++
    le_bytes 8 (BookUpdate.sequence_number m) ++
    BookUpdate.symbol m.
Proof. unfold encode_book_update. layout. Qed.

Lemma encode_level3_add_order_layout m :
  length (Level3AddOrder.symbol m) = symbol_size →
  encode_level3_add_order m = le_bytes 8 (Level3AddOrder.order_id m) ++
    le_bytes 8 (Level3AddOrder.timestamp m) ++
    le_bytes 8 (Level3AddOrder.price m) ++
    le_bytes 8 (Level3AddOrder.quantity m) ++
    le_bytes 1 (Level3AddOrder.side m) ++
    le_bytes 8 (Level3AddOrder.sequence_number m) ++
    Level3AddOrder.symbol m.
Proof. unfold encode_level3_add_order. layout. Qed.

Lemma encode_level3_order_executed_layout m :
  length (Level3OrderExecuted.symbol m) = symbol_size →
  encode_level3_order_executed m = le_bytes 8 (Level3OrderExecuted.buy_order_id m) ++
    le_bytes 8 (Level3OrderExecuted.sell_order_id m) ++
    le_bytes 8 (Level3OrderExecuted.price m) ++
    le_bytes 8 (Level3OrderExecuted.quantity m) ++
    le_bytes 8 (Level3OrderExecuted.sequence_number m) ++
    Level3OrderExecuted.symbol m.
Proof. unfold encode_level3_order_executed. layout. Qed.

Lemma encode_level3_order_deleted_layout m :
  length (Level3OrderDeleted.symbol m) = symbol_size →
  encode_level3_order_deleted m = le_bytes 8 (Level3OrderDeleted.order_id m) ++
    le_bytes 8 (Level3OrderDeleted.sequence_number m) ++
    Level3OrderDeleted.symbol m.
Proof. unfold encode_level3_order_deleted. layout. Qed.

Lemma encode_order_response_layout m :
  encode_order_response m = le_bytes 8 (OrderResponse.order_id m) ++
    le_bytes 8 (OrderResponse.sequence_number m) ++
    le_bytes 1 (OrderResponse.success m).
Proof. unfold encode_order_response. layout. Qed.

(** ** Valid messages: the values an encoder may be given *)

Definition header_valid (m : MessageHeader.t) : Prop :=
  MessageHeader.magic m = protocol_magic ∧ MessageHeader.version m = protocol_version ∧
  in_u16 (MessageHeader.type m) ∧ in_u32 (MessageHeader.body_size m) ∧
  in_u64 (MessageHeader.sequence_number m).

Definition new_order_valid (m : NewOrderRequest.t) : Prop :=
  in_u64 (NewOrderRequest.order_id m) ∧
  in_u64 (NewOrderRequest.timestamp m) ∧
  in_i64 (NewOrderRequest.price m) ∧
  in_u64 (NewOrderRequest.quantity m) ∧
  (NewOrderRequest.side m = Side_Buy ∨ NewOrderRequest.side m = Side_Sell) ∧
  (NewOrderRequest.order_type m = OrderType_Limit ∨ NewOrderRequest.order_type m = OrderType_Market) ∧
  (NewOrderRequest.time_in_force m = TimeInForce_GoodTillCancel ∨
   NewOrderRequest.time_in_force m = TimeInForce_ImmediateOrCancel ∨
   NewOrderRequest.time_in_force m = TimeInForce_FillOrKill) ∧
  NewOrderRequest.quantity m ≠ 0 ∧
  valid_symbol (NewOrderRequest.symbol m).

Definition cancel_order_valid (m : CancelOrderRequest.t) : Prop :=
  in_u64 (CancelOrderRequest.order_id m) ∧
  in_u64 (CancelOrderRequest.timestamp m) ∧
  valid_symbol (CancelOrderRequest.symbol m).

Definition replace_order_valid (m : ReplaceOrderRequest.t) : Prop :=
  in_u64 (ReplaceOrderRequest.order_id m) ∧
  in_u64 (ReplaceOrderRequest.timestamp m) ∧
  in_i64 (ReplaceOrderRequest.new_price m) ∧
  in_u64 (ReplaceOrderRequest.new_quantity m) ∧
  ReplaceOrderRequest.new_quantity m ≠ 0 ∧
  valid_symbol (ReplaceOrderRequest.symbol m).

Definition trade_execution_valid (m : TradeExecution.t) : Prop :=
  in_u64 (TradeExecution.buy_order_id m) ∧
  in_u64 (TradeExecution.sell_order_id m) ∧
  in_i64 (TradeExecution.price m) ∧
  in_u64 (TradeExecution.quantity m) ∧
  in_u64 (TradeExecution.sequence_number m) ∧
  TradeExecution.quantity m ≠ 0 ∧
  valid_symbol (TradeExecution.symbol m).

Definition book_update_valid (m : BookUpdate.t) : Prop :=
  in_i64 (BookUpdate.best_bid m) ∧
  in_u64 (BookUpdate.bid_quantity m) ∧
  in_i64 (BookUpdate.best_ask m) ∧
  in_u64 (BookUpdate.ask_quantity m) ∧
  in_u64 (BookUpdate.sequence_number m) ∧
  (BookUpdate.has_bid m = 1 ∨
   BookUpdate.has_bid m = 0 ∧ BookUpdate.best_bid m = 0 ∧ BookUpdate.bid_quantity m = 0) ∧
  (BookUpdate.has_ask m = 1 ∨
   BookUpdate.has_ask m = 0 ∧ BookUpdate.best_ask m = 0 ∧ BookUpdate.ask_quantity m = 0) ∧
  valid_symbol (BookUpdate.symbol m).

Definition level3_add_order_valid (m : Level3AddOrder.t) : Prop :=
  in_u64 (Level3AddOrder.order_id m) ∧
  in_u64 (Level3AddOrder.timestamp m) ∧
  in_i64 (Level3AddOrder.price m) ∧
  in_u64 (Level3AddOrder.quantity m) ∧
  in_u64 (Level3AddOrder.sequence_number m) ∧
  (Level3AddOrder.side m = Side_Buy ∨ Level3AddOrder.side m = Side_Sell) ∧
  Level3AddOrder.quantity m ≠ 0 ∧
  valid_symbol (Level3AddOrder.symbol m).

Definition level3_order_executed_valid (m : Level3OrderExecuted.t) : Prop :=
  in_u64 (Level3OrderExecuted.buy_order_id m) ∧
  in_u64 (Level3OrderExecuted.sell_order_id m) ∧
  in_i64 (Level3OrderExecuted.price m) ∧
  in_u64 (Level3OrderExecuted.quantity m) ∧
  in_u64 (Level3OrderExecuted.sequence_number m) ∧
  Level3OrderExecuted.quantity m ≠ 0 ∧
  valid_symbol (Level3OrderExecuted.symbol m).

Definition level3_order_deleted_valid (m : Level3OrderDeleted.t) : Prop :=
  in_u64 (Level3OrderDeleted.order_id m) ∧
  in_u64 (Level3OrderDeleted.sequence_number m) ∧
  valid_symbol (Level3OrderDeleted.symbol m).

Definition order_response_valid (m : OrderResponse.t) : Prop :=
  in_u64 (OrderResponse.order_id m) ∧
  in_u64 (OrderResponse.sequence_number m) ∧
  (OrderResponse.success m = 0 ∨ OrderResponse.success m = 1).

(** ** Exactness *)

Lemma reader_guard_next {B} (b : bool) (k : unit → reader B) input offset :
  b = true → reader_bind (reader_guard b) k input offset = k tt input offset.
Proof. by intros ->. Qed.

(* facts about constants and guards *)
Ltac solve_field :=
  unfold protocol_magic, protocol_version, Side_Buy, Side_Sell, OrderType_Limit, OrderType_Market,
    TimeInForce_GoodTillCancel, TimeInForce_ImmediateOrCancel, TimeInForce_FillOrKill in *;
  cbn [in_range] in *; unfold in_u8, in_u16, in_u32 in *; first [done | lia].

(* a successful run of a decoder: one fact per field, one per guard *)
Ltac invert_reads :=
  repeat match goal with
  | H : run_reader _ _ = Some _ |- _ => apply run_reader_Some in H as [? H]
  | H : reader_bind (read_integer _) _ _ _ = Some _ |- _ =>
      let Hr := fresh "Hread" in
      apply reader_bind_Some in H as (? & ? & Hr & H);
      apply read_integer_Some in Hr as (-> & ? & ?)
  | H : reader_bind read_symbol _ _ _ = Some _ |- _ =>
      let Hr := fresh "Hread" in
      apply reader_bind_Some in H as (? & ? & Hr & H);
      apply read_symbol_Some in Hr as (-> & ? & ?)
  | H : reader_bind (reader_guard _) _ _ _ = Some _ |- _ =>
      let Hr := fresh "Hguard" in
      apply reader_bind_Some in H as (? & ? & Hr & H);
      apply reader_guard_Some in Hr as [? [= -> ->]]
  | H : reader_ret _ _ _ = Some _ |- _ => injection H as <- <-
  end.

(* the fields read, put back together, are the input *)
Ltac rebuild input :=
  rewrite <- (drop_0 input);
  repeat match goal with H : drop ?o input = _ |- _ => rewrite H; clear H end.

Ltac decode_forward lem :=
  match goal with |- (if negb (length ?input =? ?n)%nat then _ else _) = _ → _ =>
    destruct (Nat.eqb_spec (length input) n) as [Hlen|]; [|done];
    cbn [negb]; intros H; invert_reads;
    split;
    [ repeat match goal with |- _ ∧ _ => split end; cbn; solve_field
    | rewrite lem by (match goal with H : valid_symbol _ |- _ => apply H end); cbn;
      rebuild input;
      rewrite (drop_ge input) by (rewrite Hlen; by apply Nat.leb_le);
      by rewrite ?app_nil_r ]
  end.

(* one step of a decoder on the bytes of an encoder *)
Ltac read_next :=
  match goal with
  | Hd : drop ?o ?inp = le_bytes _ ?v ++ ?rest |- reader_bind (read_integer ?ty) ?k ?inp ?o = _ =>
      let E := fresh in let Hd' := fresh in
      destruct (read_integer_next ty k v rest inp o Hd ltac:(solve_field)) as [E Hd'];
      rewrite E; clear E Hd
  | Hd : drop ?o ?inp = ?sym ++ ?rest |- reader_bind read_symbol ?k ?inp ?o = _ =>
      let E := fresh in let Hd' := fresh in
      destruct (read_symbol_next k sym rest inp o Hd ltac:(solve_field)) as [E Hd'];
      rewrite E; clear E Hd
  | |- reader_bind (reader_guard _) _ _ _ = _ => rewrite reader_guard_next by solve_field
  end.

Ltac decode_backward lem :=
  match goal with |- _ ∧ ?input = _ _ → (if negb (length ?input =? ?n)%nat then _ else _) = Some ?m =>
    intros [Hv E]; destruct m; cbn in Hv; destruct_and? Hv;
    rewrite lem in E by (cbn; match goal with H : valid_symbol _ |- _ => apply H end);
    cbn in E;
    assert (length input = n) as Hlen by
      (rewrite E, !length_app, !length_le_bytes;
       repeat match goal with H : valid_symbol _ |- _ => destruct H as [-> _] end; reflexivity);
    rewrite Hlen, Nat.eqb_refl; cbn [negb];
    assert (drop 0 input = input ++ []) as Hd by (by rewrite app_nil_r);
    rewrite E in Hd at 2; rewrite <- ?app_assoc in Hd;
    apply run_reader_Some; eexists; repeat read_next; reflexivity
  end.

Ltac decoder_exact lem := split; [decode_forward lem|decode_backward lem].

Lemma decode_new_order_spec input m :
  decode_new_order input = Some m ↔ new_order_valid m ∧ input = encode_new_order m.
Proof. unfold decode_new_order, new_order_valid. decoder_exact encode_new_order_layout. Qed.

Lemma decode_header_spec input m :
  decode_header input = Some m ↔ header_valid m ∧ input = encode_header m.
Proof. unfold decode_header, header_valid. decoder_exact encode_header_layout. Qed.

Lemma decode_cancel_order_spec input m :
  decode_cancel_order input = Some m ↔ cancel_order_valid m ∧ input = encode_cancel_order m.
Proof. unfold decode_cancel_order, cancel_order_valid. decoder_exact encode_cancel_order_layout. Qed.

Lemma decode_replace_order_spec input m :
  decode_replace_order input = Some m ↔ replace_order_valid m ∧ input = encode_replace_order m.
Proof. unfold decode_replace_order, replace_order_valid. decoder_exact encode_replace_order_layout. Qed.

Lemma decode_order_response_spec input m :
  decode_order_response input = Some m ↔ order_response_valid m ∧ input = encode_order_response m.
Proof. unfold decode_order_response, order_response_valid. decoder_exact encode_order_response_layout. Qed.

Lemma decode_trade_execution_spec input m :
  decode_trade_execution input = Some m ↔ trade_execution_valid m ∧ input = encode_trade_execution m.
Proof. unfold decode_trade_execution, trade_execution_valid. decoder_exact encode_trade_execution_layout. Qed.

Lemma decode_book_update_spec input m :
  decode_book_update input = Some m ↔ book_update_valid m ∧ input = encode_book_update m.
Proof. unfold decode_book_update, book_update_valid. decoder_exact encode_book_update_layout. Qed.

Lemma decode_level3_add_order_spec input m :
  decode_level3_add_order input = Some m ↔ level3_add_order_valid m ∧ input = encode_level3_add_order m.
Proof. unfold decode_level3_add_order, level3_add_order_valid. decoder_exact encode_level3_add_order_layout. Qed.

Lemma decode_level3_order_executed_spec input m :
  decode_level3_order_executed input = Some m ↔ level3_order_executed_valid m ∧ input = encode_level3_order_executed m.
Proof. unfold decode_level3_order_executed, level3_order_executed_valid. decoder_exact encode_level3_order_executed_layout. Qed.

Lemma decode_level3_order_deleted_spec input m :
  decode_level3_order_deleted input = Some m ↔ level3_order_deleted_valid m ∧ input = encode_level3_order_deleted m.
Proof. unfold decode_level3_order_deleted, level3_order_deleted_valid. decoder_exact encode_level3_order_deleted_layout. Qed.

(* new orders, cancellations and replacements *)
Lemma decode_requests_exact input :
  (∀ m, decode_new_order input = Some m ↔
     new_order_valid m ∧ input = encode_new_order m) ∧
  (∀ m, decode_cancel_order input = Some m ↔
     cancel_order_valid m ∧ input = encode_cancel_order m) ∧
  (∀ m, decode_replace_order input = Some m ↔
     replace_order_valid m ∧ input = encode_replace_order m).
Proof.
  split_and!; intros m; [apply decode_new_order_spec|apply decode_cancel_order_spec
    |apply decode_replace_order_spec].
Qed.

(* responses and market data; in a book update a missing side is all zeros *)
Lemma decode_events_exact input :
  (∀ m, decode_order_response input = Some m ↔
     order_response_valid m ∧ input = encode_order_response m) ∧
  (∀ m, decode_trade_execution input = Some m ↔
     trade_execution_valid m ∧ input = encode_trade_execution m) ∧
  (∀ m, decode_book_update input = Some m ↔
     book_update_valid m ∧ input = encode_book_update m).
Proof.
  split_and!; intros m;
    [apply decode_order_response_spec|apply decode_trade_execution_spec|apply decode_book_update_spec].
Qed.

(* the order-by-order feed *)
Lemma decode_level3_exact input :
  (∀ m, decode_level3_add_order input = Some m ↔
     level3_add_order_valid m ∧ input = encode_level3_add_order m) ∧
  (∀ m, decode_level3_order_executed input = Some m ↔
     level3_order_executed_valid m ∧ input = encode_level3_order_executed m) ∧
  (∀ m, decode_level3_order_deleted input = Some m ↔
     level3_order_deleted_valid m ∧ input = encode_level3_order_deleted m).
Proof.
  split_and!; intros m; [apply decode_level3_add_order_spec|apply decode_level3_order_executed_spec
    |apply decode_level3_order_deleted_spec].
Qed.

(** C13. Every message on the wire: headers (with the magic number and the
    version), new orders, cancellations, replacements, responses, executions,
    book updates and the events of the order-by-order feed.  Each decoder
    accepts a byte string if and only if it is the encoding of a valid message,
    and returns that message.  So decoding inverts encoding, no two messages of
    a kind share an encoding, and every other byte string is refused. *)
Theorem decode_messages_exact input :
  (∀ m, decode_header input = Some m ↔ header_valid m ∧ input = encode_header m) ∧
  ((∀ m, decode_new_order input = Some m ↔
      new_order_valid m ∧ input = encode_new_order m) ∧
   (∀ m, decode_cancel_order input = Some m ↔
      cancel_order_valid m ∧ input = encode_cancel_order m) ∧
   (∀ m, decode_replace_order input = Some m ↔
      replace_order_valid m ∧ input = encode_replace_order m)) ∧
  ((∀ m, decode_order_response input = Some m ↔
      order_response_valid m ∧ input = encode_order_response m) ∧
   (∀ m, decode_trade_execution input = Some m ↔
      trade_execution_valid m ∧ input = encode_trade_execution m) ∧
   (∀ m, decode_book_update input = Some m ↔
      book_update_valid m ∧ input = encode_book_update m)) ∧
  (∀ m, decode_level3_add_order input = Some m ↔
     level3_add_order_valid m ∧ input = encode_level3_add_order m) ∧
  (∀ m, decode_level3_order_executed input = Some m ↔
     level3_order_executed_valid m ∧ input = encode_level3_order_executed m) ∧
  (∀ m, decode_level3_order_deleted input = Some m ↔
     level3_order_deleted_valid m ∧ input = encode_level3_order_deleted m).
Proof.
  split; [intros m; apply decode_header_spec|].
  split; [apply decode_requests_exact|]. split; [apply decode_events_exact|apply decode_level3_exact].
Qed.

(** ** Symbols and strings *)

Definition valid_characters (text : list byte) : Prop :=
  Forall (λ c, is_valid_symbol_character c = true) text.

Lemma valid_character_nonzero c : is_valid_symbol_character c = true → c ≠ x00.
Proof. by intros H ->. Qed.

Lemma valid_loop_terminated symbol saw :
  is_valid_symbol_loop symbol saw true = true ↔
  saw = true ∧ symbol = replicate (length symbol) x00.
Proof.
  induction symbol as [|c symbol IH]; simpl; [naive_solver|].
  case_bool_decide as Hc; [subst c; rewrite IH; split; intros [? Heq]; split; congruence|].
  split; [done|]. intros [_ Heq]. by injection Heq.
Qed.

Lemma valid_loop_spec symbol saw :
  is_valid_symbol_loop symbol saw false = true ↔
  ∃ cs n, symbol = cs ++ replicate n x00 ∧ valid_characters cs ∧ (saw = true ∨ cs ≠ []).
Proof.
  revert saw. induction symbol as [|c symbol IH]; intros saw; simpl.
  - split.
    + intros ->. exists [], 0%nat. split_and!; [done|constructor|by left].
    + intros ([|c cs] & n & Heq & _ & [?|?]); by destruct n.
  - case_bool_decide as Hc.
    + subst c. rewrite valid_loop_terminated. split.
      * intros [-> Hs]. exists [], (S (length symbol)). simpl. rewrite <- Hs.
        split_and!; [done|constructor|by left].
      * intros ([|c cs] & n & Heq & Hv & Hor); simpl in Heq.
        { destruct n as [|n]; [done|]. injection Heq as ->. rewrite length_replicate. naive_solver. }
        injection Heq as <- _. by apply Forall_cons in Hv as [?%valid_character_nonzero _].
    + destruct (is_valid_symbol_character c) eqn:Ec; simpl.
      * rewrite IH. split.
        -- intros (cs & n & -> & Hv & _). exists (c :: cs), n.
           split_and!; [done|by constructor|by right].
        -- intros ([|c' cs] & n & Heq & Hv & _); simpl in Heq.
           { destruct n; [done|]. by injection Heq as ? _. }
           injection Heq as <- ->. apply Forall_cons in Hv as [_ Hv]. exists cs, n. auto.
      * split; [done|]. intros ([|c' cs] & n & Heq & Hv & _); simpl in Heq.
        { destruct n; [done|]. by injection Heq as ? _. }
        injection Heq as <- _. apply Forall_cons in Hv as [Hv _]. congruence.
Qed.

(** A valid symbol is one to eight valid characters padded with zeros. *)
Lemma valid_symbol_spec symbol :
  valid_symbol symbol ↔
  ∃ cs, (1 ≤ length cs ≤ symbol_size)%nat ∧ valid_characters cs ∧
    symbol = cs ++ replicate (symbol_size - length cs) x00.
Proof.
  unfold valid_symbol, is_valid_symbol. rewrite valid_loop_spec. split.
  - intros [Hl (cs & n & -> & Hv & Hor)]. rewrite length_app, length_replicate in Hl.
    exists cs. split_and!; [|lia|done|by replace (symbol_size - length cs)%nat with n by lia].
    destruct cs; [naive_solver|simpl; lia].
  - intros (cs & Hl & Hv & ->). rewrite length_app, length_replicate. split; [lia|].
    exists cs, (symbol_size - length cs)%nat. split_and!; [done|done|]. right. by destruct cs; simpl in *; [lia|].
Qed.

Lemma symbol_length_spec cs n : valid_characters cs → symbol_length (cs ++ replicate n x00) = length cs.
Proof.
  induction 1 as [|c cs Hc _ IH]; simpl; [by destruct n|].
  rewrite bool_decide_eq_false_2 by by apply valid_character_nonzero. by rewrite IH.
Qed.

Lemma make_symbol_loop_spec text pre n :
  (length text ≤ n)%nat →
  make_symbol_loop text (length pre) (pre ++ replicate n x00) =
    if decide (valid_characters text)
    then pre ++ text ++ replicate (n - length text) x00 else empty_symbol.
Proof.
  revert pre n. induction text as [|c text IH]; intros pre n Hn;
    cbn [make_symbol_loop length] in *.
  { rewrite decide_True by constructor. by rewrite Nat.sub_0_r. }
  destruct (is_valid_symbol_character c) eqn:Ec; cbn [negb].
  - destruct n as [|n]; [lia|]. cbn [replicate Nat.sub].
    rewrite insert_app_r_alt, Nat.sub_diag by done. simpl.
    specialize (IH (pre ++ [c]) n ltac:(lia)).
    rewrite length_app, Nat.add_1_r, <- app_assoc in IH. simpl in IH. rewrite IH.
    destruct (decide (valid_characters text)) as [Hv|Hv].
    + rewrite decide_True by (by constructor). by rewrite <- app_assoc.
    + rewrite decide_False; [done|]. by intros [_ ?]%Forall_cons.
  - rewrite decide_False; [done|]. intros [? _]%Forall_cons. congruence.
Qed.

Lemma make_symbol_spec text :
  let bs := list_byte_of_string text in
  make_symbol text =
    if decide ((1 ≤ length bs ≤ symbol_size)%nat ∧ valid_characters bs)
    then bs ++ replicate (symbol_size - length bs) x00 else empty_symbol.
Proof.
  intros bs. unfold make_symbol. fold bs.
  destruct (Nat.eqb_spec (length bs) 0); simpl; [by rewrite decide_False by lia|].
  destruct (Nat.ltb_spec symbol_size (length bs)); simpl; [by rewrite decide_False by lia|].
  pose proof (make_symbol_loop_spec bs [] symbol_size) as Hm. cbn [length app] in Hm.
  unfold empty_symbol at 1. rewrite Hm by lia.
  destruct (decide (valid_characters bs)); [rewrite decide_True by (split; [lia|done])|rewrite decide_False by tauto]; done.
Qed.

Lemma valid_symbol_text symbol : valid_symbol symbol → symbol_to_string symbol ≠ EmptyString.
Proof.
  intros Hvs. unfold symbol_to_string. rewrite (proj2 Hvs). simpl.
  apply valid_symbol_spec in Hvs as (cs & Hl & Hv & ->).
  rewrite symbol_length_spec, take_app_length by done.
  destruct cs; [simpl in Hl; lia|done].
Qed.

Lemma length_encode_header h : length (encode_header h) = header_size.
Proof. by rewrite encode_header_layout, !length_app, !length_le_bytes. Qed.

(* Symbols and their text are the same thing: a text of one to eight valid
    characters makes a valid symbol that prints back as the text; every valid
    symbol is made from its own text; and any other text makes a symbol that
    is not valid. *)
Lemma symbol_text_roundtrip :
  (∀ text, let bs := list_byte_of_string text in
     (1 ≤ length bs ≤ symbol_size)%nat → valid_characters bs →
     valid_symbol (make_symbol text) ∧ symbol_to_string (make_symbol text) = text) ∧
  (∀ symbol, valid_symbol symbol → make_symbol (symbol_to_string symbol) = symbol) ∧
  (∀ text, let bs := list_byte_of_string text in
     ¬ ((1 ≤ length bs ≤ symbol_size)%nat ∧ valid_characters bs) →
     is_valid_symbol (make_symbol text) = false).
Proof.
  split_and!.
  - intros text bs Hl Hv. rewrite make_symbol_spec. fold bs. rewrite decide_True by done.
    assert (valid_symbol (bs ++ replicate (symbol_size - length bs) x00)) as Hvs
      by (apply valid_symbol_spec; by exists bs).
    split; [done|]. unfold symbol_to_string. destruct Hvs as [_ ->]. simpl.
    rewrite symbol_length_spec, take_app_length by done. apply string_of_list_byte_of_string.
  - intros symbol Hvs. unfold symbol_to_string. rewrite (proj2 Hvs). simpl.
    apply valid_symbol_spec in Hvs as (cs & Hl & Hv & ->).
    rewrite symbol_length_spec, take_app_length by done. rewrite make_symbol_spec.
    rewrite list_byte_of_string_of_list_byte. by rewrite decide_True.
  - intros text bs Hno. rewrite make_symbol_spec. fold bs. by rewrite decide_False.
Qed.

Example symbol_text_examples :
  make_symbol "TEST" = default_symbol ∧
  symbol_to_string (make_symbol "TEST") = "TEST"%string ∧
  make_symbol (symbol_to_string default_symbol) = default_symbol ∧
  is_valid_symbol (make_symbol "lower") = false.
Proof.
  destruct symbol_text_roundtrip as (H1 & H2 & H3).
  split; [done|]. split; [|split].
  - apply (H1 "TEST"%string); [by vm_compute; lia|by repeat constructor].
  - apply H2. by vm_compute.
  - apply H3. intros [_ H]. by apply Forall_cons in H as [H _].
Qed.

End Protocol.
