(* ===== verification/Messages.v ===== *)
(** * Well-formed messages

    What the readers of the exchange need of a message: a valid header, the size
    it announces, and a body that the decoder for its type accepts.  The server
    sends nothing else (ServerFeed.v); the client, the listener and the
    websocket gateway read any such message. *)
From S2P Require Import Prelude Bytes Protocol.

Module Messages.

Definition decodes (type : Z) (body : list byte) : bool :=
  if (type =? Protocol.MessageType.OrderAccepted) || (type =? Protocol.MessageType.OrderRejected)
    || (type =? Protocol.MessageType.OrderCancelled) || (type =? Protocol.MessageType.OrderReplaced)
  then bool_decide (is_Some (Protocol.decode_order_response body))
  else if type =? Protocol.MessageType.TradeExecution
  then bool_decide (is_Some (Protocol.decode_trade_execution body))
  else if type =? Protocol.MessageType.BookUpdate
  then bool_decide (is_Some (Protocol.decode_book_update body))
  else if type =? Protocol.MessageType.Level3AddOrder
  then bool_decide (is_Some (Protocol.decode_level3_add_order body))
  else if type =? Protocol.MessageType.Level3OrderExecuted
  then bool_decide (is_Some (Protocol.decode_level3_order_executed body))
  else if type =? Protocol.MessageType.Level3OrderDeleted
  then bool_decide (is_Some (Protocol.decode_level3_order_deleted body))
  else false.

Definition well_formed (message : list byte) : Prop :=
  ∃ header body, message = Protocol.encode_header header ++ body ∧ Protocol.header_valid header ∧
    Protocol.MessageHeader.body_size header = Z.of_nat (length body) ∧
    decodes (Protocol.MessageHeader.type header) body = true.

Lemma decodes_length type body : decodes type body = true → (length body < 100)%nat.
Proof.
  assert (∀ A (x : option A) n, is_Some (if negb (length body =? n)%nat then None else x) → length body = n)
    as Hl.
  { intros A x n [y Hy]. by destruct (Nat.eqb_spec (length body) n). }
  unfold decodes. intros H.
  repeat match type of H with (if ?b then _ else _) = _ => destruct b end; try done;
    apply bool_decide_eq_true in H;
    (apply Hl in H; rewrite H; vm_compute; lia).
Qed.

(** A reader that takes the header off finds it and the body. *)
Lemma read_header header body rest :
  Protocol.header_valid header →
  Protocol.decode_header (take Protocol.header_size (Protocol.encode_header header ++ body ++ rest)) =
    Some header.
Proof.
  intros Hv. rewrite take_app_length' by (by rewrite Protocol.length_encode_header).
  by apply Protocol.decode_header_spec.
Qed.

End Messages.
