(* ===== verification/PerformanceMetrics.v ===== *)
(** * Performance counters (include/exchange/performance_metrics.hpp, src/performance_metrics.cpp)

    Relaxed atomic counters and a power-of-two latency histogram.  The
    counters wrap at 64 bits, as [fetch_add] does.  The publisher of the
    telemetry is in Telemetry.v. *)
From S2P Require Import Prelude Binary64.

Module PerformanceMetrics.

Definition latency_bucket_count : nat := 64.

Record t : Type := mk {
  new_order_requests_ : Z;
  accepted_orders_ : Z;
  rejected_orders_ : Z;
  risk_rejections_ : Z;
  cancel_requests_ : Z;
  successful_cancels_ : Z;
  replace_requests_ : Z;
  successful_replaces_ : Z;
  trades_ : Z;
  traded_quantity_ : Z;
  latency_histogram_ : list Z;
  latency_samples_ : Z;
  latency_sum_ns_ : Z;
  latency_max_ns_ : Z
}.

Definition new : t :=
  mk 0 0 0 0 0 0 0 0 0 0 (replicate latency_bucket_count 0) 0 0 0.

(* fetch_add on a std::atomic<std::uint64_t> *)
Definition fetch_add (counter n : Z) : Z := u64 (counter + n).

Definition record_new_order (accepted risk_rejected : bool) (m : t) : t :=
  mk (fetch_add (new_order_requests_ m) 1)
     (if accepted then fetch_add (accepted_orders_ m) 1 else accepted_orders_ m)
     (if accepted then rejected_orders_ m else fetch_add (rejected_orders_ m) 1)
     (if negb accepted && risk_rejected
      then fetch_add (risk_rejections_ m) 1 else risk_rejections_ m)
     (cancel_requests_ m) (successful_cancels_ m) (replace_requests_ m)
     (successful_replaces_ m) (trades_ m) (traded_quantity_ m)
     (latency_histogram_ m) (latency_samples_ m) (latency_sum_ns_ m) (latency_max_ns_ m).

Definition record_cancel (successful : bool) (m : t) : t :=
  mk (new_order_requests_ m) (accepted_orders_ m) (rejected_orders_ m) (risk_rejections_ m)
     (fetch_add (cancel_requests_ m) 1)
     (if successful then fetch_add (successful_cancels_ m) 1 else successful_cancels_ m)
     (replace_requests_ m) (successful_replaces_ m) (trades_ m) (traded_quantity_ m)
     (latency_histogram_ m) (latency_samples_ m) (latency_sum_ns_ m) (latency_max_ns_ m).

Definition record_replace (successful risk_rejected : bool) (m : t) : t :=
  mk (new_order_requests_ m) (accepted_orders_ m) (rejected_orders_ m)
     (if negb successful && risk_rejected
      then fetch_add (risk_rejections_ m) 1 else risk_rejections_ m)
     (cancel_requests_ m) (successful_cancels_ m)
     (fetch_add (replace_requests_ m) 1)
     (if successful then fetch_add (successful_replaces_ m) 1 else successful_replaces_ m)
     (trades_ m) (traded_quantity_ m)
     (latency_histogram_ m) (latency_samples_ m) (latency_sum_ns_ m) (latency_max_ns_ m).

Definition record_trades (trade_count quantity : Z) (m : t) : t :=
  mk (new_order_requests_ m) (accepted_orders_ m) (rejected_orders_ m) (risk_rejections_ m)
     (cancel_requests_ m) (successful_cancels_ m) (replace_requests_ m) (successful_replaces_ m)
     (fetch_add (trades_ m) trade_count) (fetch_add (traded_quantity_ m) quantity)
     (latency_histogram_ m) (latency_samples_ m) (latency_sum_ns_ m) (latency_max_ns_ m).

(* std::bit_width *)
Definition bit_width (x : Z) : Z := if x =? 0 then 0 else Z.log2 x + 1.

Definition latency_bucket (nanoseconds : Z) : nat :=
  if nanoseconds =? 0 then 0
  else
    let width := bit_width nanoseconds in
    let bucket := Z.to_nat (width - 1) in
    Nat.min bucket (latency_bucket_count - 1).

Definition bucket_upper_bound (bucket : nat) : Z :=
  if (63 <=? bucket)%nat then 2 ^ 64 - 1
  else Z.shiftl 1 (Z.of_nat bucket + 1) - 1.

(* the compare-exchange loop leaves the larger of the two *)
Definition record_matching_latency (nanoseconds : Z) (m : t) : t :=
  let bucket := latency_bucket nanoseconds in
  mk (new_order_requests_ m) (accepted_orders_ m) (rejected_orders_ m) (risk_rejections_ m)
     (cancel_requests_ m) (successful_cancels_ m) (replace_requests_ m) (successful_replaces_ m)
     (trades_ m) (traded_quantity_ m)
     (alter (λ n, fetch_add n 1) bucket (latency_histogram_ m))
     (fetch_add (latency_samples_ m) 1)
     (fetch_add (latency_sum_ns_ m) nanoseconds)
     (if latency_max_ns_ m <? nanoseconds then nanoseconds else latency_max_ns_ m).

(* the loop over the buckets *)
Fixpoint percentile_loop (histogram : list Z) (bucket : nat) (cumulative target observed_max : Z) : Z :=
  match histogram with
  | [] => observed_max
  | n :: histogram' =>
      let cumulative' := u64 (cumulative + n) in
      if cumulative' >=? target
      then Z.min (bucket_upper_bound bucket) observed_max
      else percentile_loop histogram' (S bucket) cumulative' target observed_max
  end.

Definition percentile (histogram : list Z) (total numerator denominator observed_max : Z) : Z :=
  if (total =? 0) || (denominator =? 0) then 0
  else
    let target := Z.max 1
      (u64 (u64 (u64 (total * numerator) + denominator) - 1) / denominator) in
    percentile_loop histogram 0 0 target observed_max.

Module MatchingLatencySnapshot.
Record t : Type := mk {
  samples : Z; mean_ns : double; p50_ns : Z; p95_ns : Z; p99_ns : Z; max_ns : Z
}.
End MatchingLatencySnapshot.

Module PerformanceCounterSnapshot.
Record t : Type := mk {
  new_order_requests : Z;
  accepted_orders : Z;
  rejected_orders : Z;
  risk_rejections : Z;
  cancel_requests : Z;
  successful_cancels : Z;
  replace_requests : Z;
  successful_replaces : Z;
  trades : Z;
  traded_quantity : Z;
  matching_latency : MatchingLatencySnapshot.t
}.
End PerformanceCounterSnapshot.

Definition latency_snapshot (m : t) : MatchingLatencySnapshot.t :=
  let samples := latency_samples_ m in
  let sum := latency_sum_ns_ m in
  let maximum := latency_max_ns_ m in
  let p numerator := percentile (latency_histogram_ m) samples numerator 100 maximum in
  MatchingLatencySnapshot.mk samples
    (if samples =? 0 then zero else divide (of_integer sum) (of_integer samples))
    (p 50) (p 95) (p 99) maximum.

Definition snapshot (m : t) : PerformanceCounterSnapshot.t :=
  PerformanceCounterSnapshot.mk (new_order_requests_ m) (accepted_orders_ m) (rejected_orders_ m)
    (risk_rejections_ m) (cancel_requests_ m) (successful_cancels_ m) (replace_requests_ m)
    (successful_replaces_ m) (trades_ m) (traded_quantity_ m) (latency_snapshot m).

(** ** Percentiles *)

(** How many of the latencies seen satisfy [P]. *)
Definition count (P : Z → bool) (ns : list Z) : Z := Z.of_nat (length (filter (λ n, P n = true) ns)).

Definition recorded (ns : list Z) (m : t) : t := foldl (λ m n, record_matching_latency n m) m ns.

(** The histogram after [ns]: bucket [b] counts the latencies of the bucket. *)
Record describes (ns : list Z) (m : t) : Prop := {
  desc_histogram : latency_histogram_ m =
    (λ b : nat, count (λ n : Z, (latency_bucket n =? b)%nat) ns) <$> seq 0 latency_bucket_count;
  desc_samples : latency_samples_ m = Z.of_nat (length ns);
  desc_max : latency_max_ns_ m = foldr Z.max 0 ns
}.

Lemma count_cons (P : Z → bool) n ns : count P (n :: ns) = (if P n then 1 else 0) + count P ns.
Proof.
  unfold count. rewrite filter_cons. destruct (P n) eqn:E.
  - rewrite decide_True by done. simpl. lia.
  - rewrite decide_False by congruence. lia.
Qed.

Lemma count_le P ns : 0 ≤ count P ns ≤ Z.of_nat (length ns).
Proof.
  induction ns as [|n ns IH]; [done|]. rewrite count_cons. simpl length. destruct (P n); lia.
Qed.

Lemma count_mono (P Q : Z → bool) ns :
  (∀ n, n ∈ ns → P n = true → Q n = true) → count P ns ≤ count Q ns.
Proof.
  induction ns as [|n ns IH]; intros H; [done|]. rewrite !count_cons.
  assert (∀ m, m ∈ ns → P m = true → Q m = true) as Hns by (intros m Hm; apply H; by right).
  specialize (IH Hns). specialize (H n ltac:(by left)). destruct (P n); [rewrite H by done; lia|].
  destruct (Q n); lia.
Qed.

Lemma count_none (P : Z → bool) ns : (∀ n, P n = false) → count P ns = 0.
Proof. intros H. induction ns as [|n ns IH]; [done|]. by rewrite count_cons, H, IH. Qed.

Lemma count_split (P Q R : Z → bool) ns :
  (∀ n, (if R n then 1 else 0) = (if P n then 1 else 0) + (if Q n then 1 else 0)) →
  count R ns = count P ns + count Q ns.
Proof.
  intros H. induction ns as [|n ns IH]; [done|]. rewrite !count_cons, H. lia.
Qed.

Lemma bucket_bound n b :
  in_u64 n → (b < latency_bucket_count)%nat →
  (latency_bucket n ≤ b)%nat ↔ n ≤ bucket_upper_bound b.
Proof.
  unfold in_u64, latency_bucket, bucket_upper_bound, latency_bucket_count, bit_width. intros Hn Hb.
  destruct (Nat.leb_spec 63 b) as [H63|H63].
  { split; [lia|]. intros _. destruct (n =? 0); lia. }
  rewrite Z.shiftl_1_l. destruct (Z.eqb_spec n 0) as [->|Hn0].
  { assert (0 < 2 ^ (Z.of_nat b + 1)) by lia. split; lia. }
  rewrite Z.add_simpl_r.
  assert (Z.log2 n ≤ Z.of_nat b ↔ n < 2 ^ (Z.of_nat b + 1)) as Hlog.
  { rewrite Z.log2_lt_pow2 by lia. lia. }
  pose proof (Z.log2_nonneg n). lia.
Qed.

Lemma bucket_in_range n : (latency_bucket n < latency_bucket_count)%nat.
Proof. unfold latency_bucket, latency_bucket_count. destruct (n =? 0); lia. Qed.

Lemma bucket_upper_bound_double b :
  bucket_upper_bound (S b) ≤ 2 * bucket_upper_bound b + 1.
Proof.
  unfold bucket_upper_bound. destruct (Nat.leb_spec 63 b), (Nat.leb_spec 63 (S b)); try lia.
  - assert (b = 62)%nat as -> by lia. done.
  - rewrite !Z.shiftl_1_l. replace (Z.of_nat (S b) + 1) with (Z.of_nat b + 1 + 1) by lia.
    rewrite (Z.pow_add_r 2 (Z.of_nat b + 1) 1) by lia. lia.
Qed.

Lemma record_describes ns m n :
  describes ns m → Z.of_nat (length ns) + 1 < 2 ^ 64 → in_u64 n →
  describes (n :: ns) (record_matching_latency n m).
Proof.
  intros [Hh Hs Hm] Hl Hn. split;
    cbn [record_matching_latency latency_histogram_ latency_samples_ latency_max_ns_ length foldr].
  - rewrite Hh. apply list_eq. intros i. rewrite list_lookup_fmap.
    destruct (decide (latency_bucket n = i)) as [<-|Hne].
    + rewrite list_lookup_alter_eq, list_lookup_fmap.
      rewrite lookup_seq_lt by apply bucket_in_range. cbn [fmap option_fmap option_map Nat.add]. f_equal.
      rewrite count_cons, Nat.eqb_refl. unfold fetch_add.
      pose proof (count_le (λ x, (latency_bucket x =? latency_bucket n)%nat) ns).
      rewrite u64_id by (unfold in_u64; lia). lia.
    + rewrite list_lookup_alter_ne, list_lookup_fmap by done.
      destruct (decide (i < latency_bucket_count)%nat).
      * rewrite !lookup_seq_lt by done. simpl. f_equal. rewrite count_cons.
        by apply Nat.eqb_neq in Hne as ->.
      * by rewrite !lookup_seq_ge by lia.
  - rewrite Hs. unfold fetch_add. rewrite u64_id by (unfold in_u64; lia). lia.
  - rewrite Hm. destruct (Z.ltb_spec (foldr Z.max 0 ns) n); lia.
Qed.

Lemma percentile_loop_spec ns target maximum len k :
  (k + len = latency_bucket_count)%nat → Z.of_nat (length ns) < 2 ^ 64 →
  count (λ n, (latency_bucket n <? k)%nat) ns < target ≤ Z.of_nat (length ns) →
  ∃ b, (k ≤ b < latency_bucket_count)%nat ∧
    percentile_loop ((λ b : nat, count (λ n : Z, (latency_bucket n =? b)%nat) ns) <$> seq k len)
      k (count (λ n, (latency_bucket n <? k)%nat) ns) target maximum
      = Z.min (bucket_upper_bound b) maximum ∧
    target ≤ count (λ n, (latency_bucket n <=? b)%nat) ns ∧
    count (λ n, (latency_bucket n <? b)%nat) ns < target.
Proof.
  revert k. induction len as [|len IH]; intros k Hk Hl Ht.
  { exfalso. assert (Z.of_nat (length ns) ≤ count (λ n, (latency_bucket n <? k)%nat) ns); [|lia].
    clear -Hk. induction ns as [|n ns IH]; [done|]. rewrite count_cons. simpl length.
    pose proof (bucket_in_range n). rewrite (proj2 (Nat.ltb_lt _ _)) by lia. lia. }
  simpl. set (le k := λ n, (latency_bucket n <=? k)%nat).
  assert (count (le k) ns = count (λ n, (latency_bucket n <? k)%nat) ns +
    count (λ n, (latency_bucket n =? k)%nat) ns) as Hsplit.
  { apply count_split. intros n. unfold le.
    destruct (Nat.leb_spec (latency_bucket n) k), (Nat.ltb_spec (latency_bucket n) k),
      (Nat.eqb_spec (latency_bucket n) k); lia. }
  assert (count (λ n, (latency_bucket n <? S k)%nat) ns = count (le k) ns) as Hnext.
  { apply (Z.le_antisymm); apply count_mono; unfold le; intros n _ H;
      [apply Nat.leb_le; apply Nat.ltb_lt in H|apply Nat.ltb_lt; apply Nat.leb_le in H]; lia. }
  pose proof (count_le (le k) ns) as Hle. rewrite <- Hsplit, u64_id by (unfold in_u64; lia).
  rewrite Z.geb_leb. destruct (Z.leb_spec target (count (le k) ns)).
  - exists k. split_and!; (done || lia).
  - destruct (IH (S k)) as (b & Hb & Heq & H1 & H2); [lia|done|lia|].
    rewrite Hnext in Heq. exists b. split_and!; (done || lia).
Qed.

Lemma max_elem ns n : n ∈ ns → n ≤ foldr Z.max 0 ns.
Proof.
  induction ns as [|x ns IH]; intros Hin; [by apply elem_of_nil in Hin|].
  apply elem_of_cons in Hin as [->|Hin]; simpl; [lia|]. specialize (IH Hin). lia.
Qed.

Lemma foldr_max_perm (l1 l2 : list Z) : l1 ≡ₚ l2 → foldr Z.max 0 l1 = foldr Z.max 0 l2.
Proof. induction 1; simpl; lia. Qed.

Lemma recorded_describes ns1 ns2 m :
  describes ns1 m → Forall in_u64 ns2 →
  Z.of_nat (length ns1 + length ns2) < 2 ^ 64 → describes (rev ns2 ++ ns1) (recorded ns2 m).
Proof.
  intros Hd Hn. revert ns1 m Hd. induction Hn as [|n ns2 Hn _ IH]; intros ns1 m Hd Hl; [done|].
  simpl in Hl |- *. rewrite <- app_assoc. apply IH; [|simpl; lia].
  apply record_describes; [done|lia|done].
Qed.

Lemma new_describes : describes [] new.
Proof. done. Qed.

(** Latency percentiles are right to a factor of two.  After any latencies
    have been recorded, the value [percentile] reports for a rank is an upper
    bound of at least that many of them, no larger than their maximum, and
    fewer than that many are below half of it. *)
Theorem percentile_sound ns numerator :
  Forall in_u64 ns → 0 < Z.of_nat (length ns) < 2 ^ 57 → 0 < numerator ≤ 100 →
  let m := recorded ns new in
  let target := (Z.of_nat (length ns) * numerator + 99) / 100 in
  let p := percentile (latency_histogram_ m) (latency_samples_ m) numerator 100 (latency_max_ns_ m) in
  p ≤ foldr Z.max 0 ns ∧
  target ≤ count (λ n, n <=? p) ns ∧
  count (λ n, 2 * n + 1 <? p) ns < target.
Proof.
  intros Hns Hl Hnum m target p.
  pose proof (recorded_describes [] ns new new_describes Hns ltac:(simpl; lia)) as Hd.
  rewrite app_nil_r in Hd. fold m in Hd. destruct Hd as [Hh Hs Hm].
  assert (∀ P, count P (rev ns) = count P ns) as Hrev.
  { intros P. unfold count. f_equal. apply Permutation_length. by rewrite <- Permutation_rev. }
  assert (foldr Z.max 0 (rev ns) = foldr Z.max 0 ns) as Hmax.
  { apply foldr_max_perm. by rewrite <- Permutation_rev. }
  rewrite length_rev in Hs. rewrite Hmax in Hm.
  assert (1 ≤ target ≤ Z.of_nat (length ns)) as Ht by (unfold target; Z.to_euclidean_division_equations; nia).
  assert (p = percentile_loop (latency_histogram_ m) 0 0 target (latency_max_ns_ m)) as Hp.
  { unfold p, percentile. rewrite Hs. destruct (Z.eqb_spec (Z.of_nat (length ns)) 0); [lia|]. simpl.
    f_equal. set (len := Z.of_nat (length ns)) in *.
    assert (0 ≤ len * numerator < 2 ^ 57 * 100) by nia.
    rewrite (u64_id (len * numerator)) by (unfold in_u64; lia).
    rewrite (u64_id (len * numerator + 100)) by (unfold in_u64; lia).
    rewrite u64_id by (unfold in_u64; lia).
    replace (len * numerator + 100 - 1) with (len * numerator + 99) by lia. fold target. lia. }
  destruct (percentile_loop_spec (rev ns) target (foldr Z.max 0 ns) latency_bucket_count 0)
    as (b & Hb & Heq & H1 & H2); [done|rewrite length_rev; lia| |].
  { rewrite length_rev, count_none by done. lia. }
  assert (p = Z.min (bucket_upper_bound b) (foldr Z.max 0 ns)) as Hpb.
  { rewrite Hp, Hm, Hh, <- Heq. by rewrite (count_none (λ n, (latency_bucket n <? 0)%nat)). }
  rewrite Hrev in H1, H2. rewrite Forall_forall in Hns. split_and!.
  - lia.
  - etransitivity; [exact H1|]. apply count_mono. intros n Hin Hle.
    apply Nat.leb_le in Hle. apply bucket_bound in Hle; [|auto|lia].
    pose proof (max_elem _ _ Hin). apply Z.leb_le. lia.
  - eapply Z.le_lt_trans; [|exact H2]. apply count_mono. intros n Hin Hlt.
    apply Z.ltb_lt in Hlt. pose proof (Hns n Hin) as Hn. apply Nat.ltb_lt.
    destruct b as [|b].
    { assert (bucket_upper_bound 0 = 1) as E by done. rewrite E in Hpb. unfold in_u64 in Hn. lia. }
    assert (latency_bucket n ≤ b)%nat; [|lia]. apply bucket_bound; [done|lia|].
    pose proof (bucket_upper_bound_double b). lia.
Qed.

Lemma percentile_sound_witness :
  let ns := [100; 200; 300; 5000] in
  let m := recorded ns new in
  let p := percentile (latency_histogram_ m) (latency_samples_ m) 50 100 (latency_max_ns_ m) in
  p = 255 ∧ p ≤ foldr Z.max 0 ns ∧
  (Z.of_nat (length ns) * 50 + 99) / 100 ≤ count (λ n, n <=? p) ns ∧
  count (λ n, 2 * n + 1 <? p) ns < (Z.of_nat (length ns) * 50 + 99) / 100.
Proof.
  split; [by vm_compute|].
  apply (percentile_sound [100; 200; 300; 5000] 50); [by repeat constructor|done|done].
Defined.

End PerformanceMetrics.
