(* ===== verification/Journal.v ===== *)
(** * The journal (include/exchange/journal.hpp, src/journal.cpp)

    An append-only file of records, each a 32-bit little-endian length and a
    message.  The file is the list of its bytes.  The file system is a
    parameter: for the bytes a write would add, [io] says whether it completes
    ([None]) or fails after some of them ([Some n]). *)
From S2P Require Import Prelude Bytes.

Module Journal.

Definition record_length_size : nat := 4.

Definition encode_record_length (length : Z) : list byte :=
  (λ index, byte_of_Z (Z.land (Z.shiftr length (Z.of_nat index * 8)) 255))
    <$> seq 0 record_length_size.

Section journal.
Context (io : list byte → list byte → option nat).

(* ExchangeJournal::append: the two writes and the flush *)
Definition append (message : list byte) : M (list byte) unit :=
  if Z.of_nat (length message) >? 2 ^ 32 - 1
  then throw (LengthError "Journal message is too large")
  else
    let record := encode_record_length (u32 (Z.of_nat (length message))) ++ message in
    file <- get ;;
    match io file record with
    | None => put (file ++ record)
    | Some n =>
        put (file ++ take n record) ;;;
        throw (RuntimeError "Failed to write and flush journal record")
    end.

End journal.

(** ** Lemmas *)

(** The bytes a message takes in the file. *)
Definition record_of (message : list byte) : list byte :=
  le_bytes 4 (Z.of_nat (length message)) ++ message.

Lemma encode_record_length_bytes n : encode_record_length n = le_bytes 4 n.
Proof. symmetry. apply le_bytes_shifts. Qed.

Lemma length_record_of message : length (record_of message) = (4 + length message)%nat.
Proof. unfold record_of. by rewrite length_app, length_le_bytes. Qed.

(** A write that completes adds one record; one that fails leaves a prefix of
    it behind, and always throws. *)
Lemma append_spec io message file :
  Z.of_nat (length message) < 2 ^ 32 →
  append io message file =
    match io file (record_of message) with
    | None => (Ok tt, file ++ record_of message)
    | Some n => (Throw (RuntimeError "Failed to write and flush journal record"),
                 file ++ take n (record_of message))
    end.
Proof.
  intros Hl. unfold append. rewrite Z.gtb_ltb.
  destruct (Z.ltb_spec (2 ^ 32 - 1) (Z.of_nat (length message))); [lia|].
  rewrite u32_id, encode_record_length_bytes by (unfold in_u32; lia).
  unfold bind, get, put, throw. fold (record_of message).
  by destruct (io file (record_of message)).
Qed.

End Journal.
