(* ===== verification/Replay.v ===== *)
(** * Journal replay (include/exchange/replay.hpp, src/replay.cpp)

    The replayer reads the records of a journal one after another and applies
    each command to the book of its symbol.  An exception of the engine is
    caught and counted; what it had already done to the book stays. *)
From Stdlib Require Import Strings.String.
From S2P Require Import Prelude Types TradeBuffer BookSpec OrderBook MatchingEngine Bytes Protocol Journal.
Open Scope Z_scope.

Module Replay.

Definition record_length_size : nat := 4.
Definition maximum_record_size : Z := 1024 * 1024.
Definition default_symbol_text : string := "TEST".

Definition decode_record_length (bytes : list byte) : Z :=
  foldl (λ value index,
      Z.lor value (u32 (Z.shiftl (Z_of_byte (nth index bytes x00)) (Z.of_nat index * 8))))
    0 (seq 0 (length bytes)).

Definition convert_side (side : Z) : Side :=
  if side =? Protocol.Side_Buy then Buy else Sell.

Definition convert_order_type (type : Z) : OrderType :=
  if type =? Protocol.OrderType_Limit then Limit else Market.

Definition convert_time_in_force (time_in_force : Z) : TimeInForce :=
  if time_in_force =? Protocol.TimeInForce_GoodTillCancel then GoodTillCancel
  else if time_in_force =? Protocol.TimeInForce_ImmediateOrCancel then ImmediateOrCancel
  else if time_in_force =? Protocol.TimeInForce_FillOrKill then FillOrKill
  else GoodTillCancel.

Module ReplaySummary.
Record t : Type := mk {
  journal_records : Z;
  new_orders : Z;
  trades : Z;
  rejected_messages : Z;
  unsupported_messages : Z;
  symbols : Z
}.
Definition zero : t := mk 0 0 0 0 0 0.
End ReplaySummary.

Record t : Type := mk {
  trade_buffer_ : TradeBuffer.t;
  books_ : gmap string OrderBook.t;
  summary_ : ReplaySummary.t
}.

(* the counters of the summary, std::uint64_t *)
Definition count_record (s : ReplaySummary.t) : ReplaySummary.t :=
  ReplaySummary.mk (u64 (ReplaySummary.journal_records s + 1)) (ReplaySummary.new_orders s)
    (ReplaySummary.trades s) (ReplaySummary.rejected_messages s)
    (ReplaySummary.unsupported_messages s) (ReplaySummary.symbols s).
Definition count_rejected (s : ReplaySummary.t) : ReplaySummary.t :=
  ReplaySummary.mk (ReplaySummary.journal_records s) (ReplaySummary.new_orders s)
    (ReplaySummary.trades s) (u64 (ReplaySummary.rejected_messages s + 1))
    (ReplaySummary.unsupported_messages s) (ReplaySummary.symbols s).
Definition count_unsupported (s : ReplaySummary.t) : ReplaySummary.t :=
  ReplaySummary.mk (ReplaySummary.journal_records s) (ReplaySummary.new_orders s)
    (ReplaySummary.trades s) (ReplaySummary.rejected_messages s)
    (u64 (ReplaySummary.unsupported_messages s + 1)) (ReplaySummary.symbols s).
Definition count_new_order (trades : nat) (s : ReplaySummary.t) : ReplaySummary.t :=
  ReplaySummary.mk (ReplaySummary.journal_records s) (u64 (ReplaySummary.new_orders s + 1))
    (u64 (ReplaySummary.trades s + Z.of_nat trades)) (ReplaySummary.rejected_messages s)
    (ReplaySummary.unsupported_messages s) (ReplaySummary.symbols s).
Definition count_trades (trades : nat) (s : ReplaySummary.t) : ReplaySummary.t :=
  ReplaySummary.mk (ReplaySummary.journal_records s) (ReplaySummary.new_orders s)
    (u64 (ReplaySummary.trades s + Z.of_nat trades)) (ReplaySummary.rejected_messages s)
    (ReplaySummary.unsupported_messages s) (ReplaySummary.symbols s).
Definition set_symbols (n : Z) (s : ReplaySummary.t) : ReplaySummary.t :=
  ReplaySummary.mk (ReplaySummary.journal_records s) (ReplaySummary.new_orders s)
    (ReplaySummary.trades s) (ReplaySummary.rejected_messages s)
    (ReplaySummary.unsupported_messages s) n.

Definition on_summary (f : ReplaySummary.t → ReplaySummary.t) : M t unit :=
  modify (λ r, mk (trade_buffer_ r) (books_ r) (f (summary_ r))).

Definition rejected : M t unit := on_summary count_rejected.

(* reset, also run by the constructor *)
Definition reset (r : t) : t :=
  mk (TradeBuffer.clear (trade_buffer_ r)) ∅ ReplaySummary.zero.
Definition new : t := reset (mk (TradeBuffer.new default_capacity) ∅ ReplaySummary.zero).

Definition book_for (symbol : string) (r : t) : t :=
  mk (trade_buffer_ r)
     (match books_ r !! symbol with
      | Some _ => books_ r
      | None => <[symbol := OrderBook.new]> (books_ r)
      end) (summary_ r).

(* run an engine operation on a book and the trade buffer; both stay changed
   when it throws *)
Definition on_book {A} (symbol : string) (m : M (OrderBook.t * TradeBuffer.t) A) : M t A :=
  λ r, match books_ r !! symbol with
       | None => (Throw (Undefined "no book for the symbol"), r)
       | Some book =>
           let '(x, (book', trades')) := m (book, trade_buffer_ r) in
           (x, mk trades' (<[symbol := book']> (books_ r)) (summary_ r))
       end.

(* the Order the replayer builds from a request *)
Definition order_of (request : Protocol.NewOrderRequest.t) : Order :=
  let quantity := u32 (Protocol.NewOrderRequest.quantity request) in
  Order.mk (Protocol.NewOrderRequest.order_id request)
    (convert_side (Protocol.NewOrderRequest.side request))
    (convert_order_type (Protocol.NewOrderRequest.order_type request))
    (convert_time_in_force (Protocol.NewOrderRequest.time_in_force request))
    (Protocol.NewOrderRequest.price request) quantity quantity
    (Protocol.NewOrderRequest.timestamp request).

Definition quantity_max : Z := 2 ^ 32 - 1.

Definition replay_new_order (body : list byte) : M t unit :=
  match Protocol.decode_new_order body with
  | None => rejected
  | Some request =>
      if Protocol.NewOrderRequest.quantity request >? quantity_max then rejected
      else
        let symbol := Protocol.symbol_to_string (Protocol.NewOrderRequest.symbol request) in
        if String.eqb symbol "" then rejected
        else
          modify (book_for symbol) ;;;
          on_book symbol (MatchingEngine.process_order_into (order_of request)) ;;;
          r <- get ;;
          on_summary (count_new_order (TradeBuffer.size (trade_buffer_ r)))
  end.

Definition replay_cancel_order (body : list byte) : M t unit :=
  match Protocol.decode_cancel_order body with
  | None => rejected
  | Some request =>
      let symbol := Protocol.symbol_to_string (Protocol.CancelOrderRequest.symbol request) in
      r <- get ;;
      if String.eqb symbol "" || negb (bool_decide (is_Some (books_ r !! symbol)))
      then rejected
      else
        cancelled <- on_book symbol
          (MatchingEngine.cancel_order (Protocol.CancelOrderRequest.order_id request)) ;;
        if cancelled : bool then ret tt else rejected
  end.

(* engine_.replace_order, which uses a trade buffer of its own *)
Definition replace_on_book (symbol : string) (order_id : OrderId) (new_price : Price)
    (new_quantity : Quantity) (new_timestamp : Timestamp)
    : M t MatchingEngine.ReplaceResult.t :=
  on_book symbol (λ st,
    let '(x, book') := MatchingEngine.replace_order st.1 order_id new_price new_quantity
                         new_timestamp in
    (x, (book', st.2))).

Definition replay_replace_order (body : list byte) : M t unit :=
  match Protocol.decode_replace_order body with
  | None => rejected
  | Some request =>
      if Protocol.ReplaceOrderRequest.new_quantity request >? quantity_max then rejected
      else
        let symbol := Protocol.symbol_to_string (Protocol.ReplaceOrderRequest.symbol request) in
        r <- get ;;
        if String.eqb symbol "" || negb (bool_decide (is_Some (books_ r !! symbol)))
        then rejected
        else
          result <- replace_on_book symbol (Protocol.ReplaceOrderRequest.order_id request)
            (Protocol.ReplaceOrderRequest.new_price request)
            (u32 (Protocol.ReplaceOrderRequest.new_quantity request))
            (Protocol.ReplaceOrderRequest.timestamp request) ;;
          if negb (MatchingEngine.ReplaceResult.replaced result) then rejected
          else on_summary (count_trades (length (MatchingEngine.ReplaceResult.trades result)))
  end.

(* the switch on the message type *)
Definition replay_command (type : Z) (body : list byte) : M t unit :=
  if type =? Protocol.MessageType.NewOrder then replay_new_order body
  else if type =? Protocol.MessageType.CancelOrder then replay_cancel_order body
  else if type =? Protocol.MessageType.ReplaceOrder then replay_replace_order body
  else on_summary count_unsupported.

(* the try block around it: catch (...) counts a rejection *)
Definition dispatch (type : Z) (body : list byte) : M t unit :=
  λ r,
    match replay_command type body r with
    | (Ok _, r') => (Ok tt, r')
    | (Throw _, r') => rejected r'
    end.

(* one complete record, after its length has been read *)
Definition replay_record (record : list byte) : M t unit :=
  on_summary count_record ;;;
  match Protocol.decode_header (take Protocol.header_size record) with
  | None => rejected
  | Some header =>
      let body_size := Protocol.MessageHeader.body_size header in
      if negb (Z.of_nat (length record) =? Z.of_nat Protocol.header_size + body_size) then rejected
      else
        let body := take (Z.to_nat body_size) (drop Protocol.header_size record) in
        dispatch (Protocol.MessageHeader.type header) body
  end.

(* the while (true) loop; the result is the value replay returns *)
Fixpoint replay_loop (fuel : nat) (input : list byte) : M t bool :=
  match fuel with
  | O => throw OutOfFuel
  | S fuel' =>
      (* input.read of the length; eof() when fewer bytes are left *)
      if (length input <? record_length_size)%nat then ret true
      else
        let record_size := decode_record_length (take record_length_size input) in
        let input := drop record_length_size input in
        if (record_size <? Z.of_nat Protocol.header_size) || (record_size >? maximum_record_size)
        then rejected ;;; ret false
        else if (length input <? Z.to_nat record_size)%nat
        then rejected ;;; ret false
        else
          replay_record (take (Z.to_nat record_size) input) ;;;
          replay_loop fuel' (drop (Z.to_nat record_size) input)
  end.

(* every iteration that does not return consumes a length and a record *)
Definition replay_fuel (input : list byte) : nat := S (length input).

(* replay: [None] is a file that cannot be opened *)
Definition replay (file : option (list byte)) : M t bool :=
  modify reset ;;;
  match file with
  | None => ret false
  | Some input =>
      completed <- replay_loop (replay_fuel input) input ;;
      if completed : bool then
        r <- get ;;
        on_summary (set_symbols (u64 (Z.of_nat (size (books_ r))))) ;;;
        ret true
      else ret false
  end.

Definition order_book (r : t) (symbol : string) : OrderBook.t :=
  default OrderBook.new (books_ r !! symbol).
Definition default_order_book (r : t) : OrderBook.t := order_book r default_symbol_text.
Definition has_symbol (r : t) (symbol : string) : bool :=
  bool_decide (is_Some (books_ r !! symbol)).

Definition release_order_book : M t OrderBook.t :=
  r <- get ;;
  match books_ r !! default_symbol_text with
  | None => ret OrderBook.new
  | Some recovered =>
      let books := delete default_symbol_text (books_ r) in
      put (mk (trade_buffer_ r) books (set_symbols (u64 (Z.of_nat (size books))) (summary_ r))) ;;;
      ret recovered
  end.

Definition release_order_books : M t (gmap string OrderBook.t) :=
  r <- get ;;
  put (mk (TradeBuffer.clear (trade_buffer_ r)) ∅ (set_symbols 0 (summary_ r))) ;;;
  ret (books_ r).

(** ** Records never stop the replay *)

Lemma dispatch_ok type body r : ∃ r', dispatch type body r = (Ok tt, r').
Proof.
  unfold dispatch. destruct (replay_command type body r) as [[a|e] r']; [by eexists|].
  unfold rejected, on_summary, modify. by eexists.
Qed.

Lemma replay_record_ok record r : ∃ r', replay_record record r = (Ok tt, r').
Proof.
  unfold replay_record, bind, on_summary at 1, modify.
  destruct (Protocol.decode_header _) as [h|]; [|by eexists].
  destruct (negb _); [by eexists|apply dispatch_ok].
Qed.

Lemma replay_loop_ok fuel input r :
  (length input < fuel)%nat → ∃ b r', replay_loop fuel input r = (Ok b, r').
Proof.
  revert input r. induction fuel as [|fuel IH]; intros input r Hf; [lia|]. simpl.
  destruct (Nat.ltb_spec (length input) record_length_size) as [|Hlen]; [by eexists _, _|].
  set (n := decode_record_length _).
  destruct ((n <? Z.of_nat Protocol.header_size) || (n >? maximum_record_size)) eqn:E;
    [by eexists _, _|].
  destruct (Nat.ltb_spec (length (drop record_length_size input)) (Z.to_nat n));
    [by eexists _, _|].
  unfold bind. destruct (replay_record_ok (take (Z.to_nat n) (drop record_length_size input)) r)
    as [r' ->]. apply IH. rewrite !length_drop. unfold record_length_size in *. lia.
Qed.

Lemma replay_total file r : ∃ b r', replay file r = (Ok b, r').
Proof.
  unfold replay, bind, modify. destruct file as [input|]; [|by eexists _, _].
  destruct (replay_loop_ok (replay_fuel input) input (reset r)) as (b & r' & ->);
    [unfold replay_fuel; lia|].
  destruct b; by eexists _, _.
Qed.

(** ** What the bytes of a journal mean *)

Definition message_sized (message : list byte) : Prop :=
  Z.of_nat Protocol.header_size ≤ Z.of_nat (length message) ≤ maximum_record_size.

Definition journal_of (messages : list (list byte)) : list byte :=
  concat (Journal.record_of <$> messages).

Definition apply_messages (messages : list (list byte)) (r : t) : t :=
  foldl (λ r message, (replay_record message r).2) r messages.

Lemma decode_length_spec n rest :
  0 ≤ n < 2 ^ 32 →
  decode_record_length (take record_length_size (le_bytes 4 n ++ rest)) = n.
Proof.
  intros Hn. unfold decode_record_length, record_length_size.
  rewrite take_app_length' by (by rewrite length_le_bytes). rewrite length_le_bytes.
  rewrite (read_fold U32 (λ index, nth index (le_bytes 4 n) x00)) by done.
  assert ((λ index, nth index (le_bytes 4 n) x00) <$> seq 0 4 = le_bytes 4 n) as ->.
  { pose proof (slice_nth (le_bytes 4 n) 0 4) as H. rewrite length_le_bytes in H.
    specialize (H ltac:(done)). rewrite drop_0, firstn_all2 in H by (by rewrite length_le_bytes).
    exact H. }
  rewrite le_value_bytes. change (256 ^ Z.of_nat 4) with (2 ^ 32). by rewrite Z.mod_small.
Qed.

(** One record at the front of the file is read and applied. *)
Lemma replay_loop_record fuel message rest r :
  message_sized message →
  replay_loop (S fuel) (Journal.record_of message ++ rest) r =
  replay_loop fuel rest (replay_record message r).2.
Proof.
  intros [H1 H2]. unfold maximum_record_size in H2. cbn [replay_loop].
  rewrite length_app, Journal.length_record_of. unfold record_length_size at 1.
  rewrite (proj2 (Nat.ltb_ge _ _)) by lia. unfold Journal.record_of.
  rewrite <- app_assoc, decode_length_spec by lia.
  unfold record_length_size. rewrite drop_app_length' by (by rewrite length_le_bytes).
  rewrite (proj2 (Z.ltb_ge _ _)), Z.gtb_ltb, (proj2 (Z.ltb_ge _ _)) by (unfold maximum_record_size; lia).
  cbn [orb]. rewrite Nat2Z.id, length_app, (proj2 (Nat.ltb_ge _ _)) by lia.
  rewrite take_app_length, drop_app_length. unfold bind.
  destruct (replay_record_ok message r) as [r' Hr]. by rewrite Hr.
Qed.

Lemma journal_of_cons message messages rest :
  journal_of (message :: messages) ++ rest =
  Journal.record_of message ++ (journal_of messages ++ rest).
Proof. unfold journal_of. by rewrite fmap_cons, app_assoc. Qed.

Lemma replay_loop_records fuel messages rest r :
  Forall message_sized messages →
  replay_loop (length messages + fuel) (journal_of messages ++ rest) r =
  replay_loop fuel rest (apply_messages messages r).
Proof.
  intros Hm. revert r. induction Hm as [|m ms Hm _ IH]; intros r; [done|].
  rewrite journal_of_cons. cbn [length Nat.add]. by rewrite replay_loop_record.
Qed.

(** More fuel than bytes changes nothing. *)
Lemma replay_loop_fuel fuel1 fuel2 input r :
  (length input < fuel1)%nat → (length input < fuel2)%nat →
  replay_loop fuel1 input r = replay_loop fuel2 input r.
Proof.
  revert fuel2 input r. induction fuel1 as [|fuel1 IH]; intros [|fuel2] input r H1 H2; try lia.
  simpl. destruct (Nat.ltb_spec (length input) record_length_size) as [|Hlen]; [done|].
  destruct (_ || _); [done|]. destruct (_ <? _)%nat; [done|].
  unfold bind. destruct (replay_record _ r) as [[]]; [|done].
  apply IH; rewrite !length_drop; unfold record_length_size in *; lia.
Qed.

Lemma length_journal_of messages :
  Forall message_sized messages → (length messages ≤ length (journal_of messages))%nat.
Proof.
  induction 1 as [|m ms _ _ IH]; [done|].
  change (journal_of (m :: ms)) with (Journal.record_of m ++ journal_of ms).
  rewrite length_app, Journal.length_record_of. cbn [length]. lia.
Qed.

(** A journal is replayed record by record, then its tail is looked at. *)
Lemma replay_journal messages tail r :
  Forall message_sized messages →
  replay_loop (replay_fuel (journal_of messages ++ tail)) (journal_of messages ++ tail) r =
  replay_loop (S (length tail)) tail (apply_messages messages r).
Proof.
  intros Hm. pose proof (length_journal_of _ Hm).
  replace (replay_fuel (journal_of messages ++ tail))
    with (length messages + (S (length tail) + (length (journal_of messages) - length messages)))%nat
    by (unfold replay_fuel; rewrite length_app; lia).
  rewrite replay_loop_records by done. apply replay_loop_fuel; lia.
Qed.

Lemma replay_short_tail tail r :
  (length tail < record_length_size)%nat → replay_loop (S (length tail)) tail r = (Ok true, r).
Proof. intros H. simpl. by apply Nat.ltb_lt in H as ->. Qed.

(** A record of which only a part was written: its length is complete, its
    message is not. *)
Lemma replay_torn_tail message n r :
  message_sized message → (record_length_size ≤ n < length (Journal.record_of message))%nat →
  let tail := take n (Journal.record_of message) in
  replay_loop (S (length tail)) tail r = (Ok false, (rejected r).2).
Proof.
  intros [H1 H2] [Hn1 Hn2] tail. unfold maximum_record_size in H2.
  rewrite Journal.length_record_of in Hn2. unfold record_length_size in *.
  assert (tail = le_bytes 4 (Z.of_nat (length message)) ++ take (n - 4) message) as Ht.
  { unfold tail, Journal.record_of. rewrite take_app_ge by (rewrite length_le_bytes; lia).
    by rewrite length_le_bytes. }
  assert (length tail = n) as Hl.
  { rewrite Ht, length_app, length_le_bytes, length_take. lia. }
  cbn [replay_loop]. rewrite Hl. unfold record_length_size at 1.
  rewrite (proj2 (Nat.ltb_ge _ _)) by lia. rewrite Ht, decode_length_spec by lia.
  unfold record_length_size. rewrite drop_app_length' by (by rewrite length_le_bytes).
  rewrite (proj2 (Z.ltb_ge _ _)), Z.gtb_ltb, (proj2 (Z.ltb_ge _ _)) by (unfold maximum_record_size; lia).
  cbn [orb]. rewrite Nat2Z.id, length_take, (proj2 (Nat.ltb_lt _ _)) by lia. done.
Qed.

(** ** Only the books matter to the books *)

Definition books_sim {A} (m1 m2 : M t A) : Prop :=
  ∀ r1 r2, books_ r1 = books_ r2 →
    (m1 r1).1 = (m2 r2).1 ∧ books_ (m1 r1).2 = books_ (m2 r2).2.

Lemma books_sim_bind {A B} (m1 m2 : M t A) (k1 k2 : A → M t B) :
  books_sim m1 m2 → (∀ a, books_sim (k1 a) (k2 a)) → books_sim (bind m1 k1) (bind m2 k2).
Proof.
  intros Hm Hk r1 r2 Hr. destruct (Hm _ _ Hr) as [Hx Hr']. unfold bind.
  destruct (m1 r1) as [[a|e] r1'], (m2 r2) as [x r2']; simpl in *; subst x; [|done].
  by apply Hk.
Qed.

Lemma books_sim_get {A} (k1 k2 : t → M t A) :
  (∀ r1 r2, books_ r1 = books_ r2 → books_sim (k1 r1) (k2 r2)) →
  books_sim (r <- get ;; k1 r) (r <- get ;; k2 r).
Proof. intros Hk r1 r2 Hr. by apply Hk. Qed.

Lemma books_sim_summary f1 f2 : books_sim (on_summary f1) (on_summary f2).
Proof. by intros r1 r2 Hr. Qed.

Lemma books_sim_ret {A} (a : A) : books_sim (ret a) (ret a).
Proof. by intros r1 r2 Hr. Qed.

Lemma books_sim_book_for symbol : books_sim (modify (book_for symbol)) (modify (book_for symbol)).
Proof. intros r1 r2 Hr. simpl. by rewrite Hr. Qed.

Lemma books_sim_on_book {A} symbol (m : M (OrderBook.t * TradeBuffer.t) A) :
  (∀ book trades1 trades2, (m (book, trades1)).1 = (m (book, trades2)).1 ∧
     (m (book, trades1)).2.1 = (m (book, trades2)).2.1) →
  books_sim (on_book symbol m) (on_book symbol m).
Proof.
  intros Hm r1 r2 Hr. unfold on_book. rewrite Hr. destruct (books_ r2 !! symbol) as [book|]; [|done].
  destruct (Hm book (trade_buffer_ r1) (trade_buffer_ r2)) as [H1 H2].
  destruct (m (book, trade_buffer_ r1)) as [x1 [b1 t1]], (m (book, trade_buffer_ r2)) as [x2 [b2 t2]].
  simpl in *. by subst.
Qed.

Lemma books_sim_cancel symbol order_id :
  books_sim (on_book symbol (MatchingEngine.cancel_order order_id))
    (on_book symbol (MatchingEngine.cancel_order order_id)).
Proof.
  apply books_sim_on_book. intros book trades1 trades2.
  unfold MatchingEngine.cancel_order, MatchingEngine.on_book. simpl.
  by destruct (OrderBook.cancel_order order_id book).
Qed.

Lemma books_sim_replace symbol order_id p q ts :
  books_sim (replace_on_book symbol order_id p q ts) (replace_on_book symbol order_id p q ts).
Proof.
  apply books_sim_on_book. intros book trades1 trades2. simpl.
  by destruct (MatchingEngine.replace_order book order_id p q ts).
Qed.

Create HintDb books.
#[local] Hint Resolve books_sim_summary books_sim_ret books_sim_book_for books_sim_cancel
  books_sim_replace : books.
#[local] Hint Extern 1 (books_sim rejected rejected) => apply books_sim_summary : books.

Lemma books_sim_command type body : books_sim (replay_command type body) (replay_command type body).
Proof.
  unfold replay_command. destruct (type =? _).
  { unfold replay_new_order. repeat (case_match; [|eauto with books]); eauto with books.
    repeat case_match; eauto with books.
    apply books_sim_bind; [eauto with books|intros _]. apply books_sim_bind.
    - apply books_sim_on_book. intros. apply MatchingEngine.process_any.
    - intros _. apply books_sim_get. eauto with books. }
  destruct (type =? _).
  { unfold replay_cancel_order. case_match; [|eauto with books].
    apply books_sim_get. intros r1 r2 ->. case_match; [eauto with books|].
    apply books_sim_bind; [eauto with books|intros []; eauto with books]. }
  destruct (type =? _); [|eauto with books].
  unfold replay_replace_order. case_match; [|eauto with books]. case_match; [eauto with books|].
  apply books_sim_get. intros r1 r2 ->. case_match; [eauto with books|].
  apply books_sim_bind; [eauto with books|intros result]. case_match; eauto with books.
Qed.

Lemma books_sim_record message : books_sim (replay_record message) (replay_record message).
Proof.
  unfold replay_record. apply books_sim_bind; [eauto with books|intros _].
  case_match; [|eauto with books]. case_match; [eauto with books|].
  intros r1 r2 Hr. unfold dispatch.
  destruct (books_sim_command (Protocol.MessageHeader.type t0)
    (take (Z.to_nat (Protocol.MessageHeader.body_size t0)) (drop Protocol.header_size message)) r1 r2 Hr)
    as [H1 H2].
  destruct (replay_command _ _ r1) as [[]], (replay_command _ _ r2) as [[]]; simpl in *;
    (done || by simplify_eq).
Qed.

Lemma apply_messages_books messages r1 r2 :
  books_ r1 = books_ r2 → books_ (apply_messages messages r1) = books_ (apply_messages messages r2).
Proof.
  revert r1 r2. induction messages as [|m ms IH]; intros r1 r2 Hr; [done|]. simpl.
  apply IH. by apply books_sim_record.
Qed.

(** A journal is its messages.  Replaying the file that holds any messages
    the server can write applies them to empty books one after another, in
    order, and succeeds.  If the last write was cut off inside the length of
    its record the result is the same; if it was cut off inside the message,
    replay reports failure. *)
Theorem replay_messages messages message n r :
  Forall message_sized messages → message_sized message →
  (n < length (Journal.record_of message))%nat →
  let file := journal_of messages ++ take n (Journal.record_of message) in
  let '(result, r') := replay (Some file) r in
  if (n <? record_length_size)%nat
  then result = Ok true ∧ books_ r' = books_ (apply_messages messages new)
  else result = Ok false.
Proof.
  intros Hm Hmsg Hn file. unfold replay. unfold bind at 1, modify at 1. unfold bind at 1.
  unfold file. rewrite replay_journal by done.
  destruct (Nat.ltb_spec n record_length_size) as [Hlt|Hge].
  - rewrite replay_short_tail by (rewrite length_take; lia).
    unfold bind, get, on_summary, modify, ret. simpl. split; [done|].
    by apply apply_messages_books.
  - by rewrite replay_torn_tail by done.
Qed.

(** ** Every book a replay builds is sound *)

Record good (r : t) : Prop := {
  good_buffer : TradeBuffer.ok default_capacity (trade_buffer_ r);
  good_books : map_Forall (λ _ book, MatchingEngine.sound (book, trade_buffer_ r)) (books_ r)
}.

Lemma sound_buffer book trades trades' :
  MatchingEngine.sound (book, trades) → TradeBuffer.ok default_capacity trades' →
  MatchingEngine.sound (book, trades').
Proof. by intros [H1 H2 H3 H4 H5] Hok; split. Qed.

Definition keeps_good {A} (m : M t A) : Prop := ∀ r, good r → good (m r).2.

Lemma keeps_bind {A B} (m : M t A) (k : A → M t B) :
  keeps_good m → (∀ a, keeps_good (k a)) → keeps_good (bind m k).
Proof.
  intros Hm Hk r Hr. specialize (Hm r Hr). unfold bind.
  destruct (m r) as [[a|e] r']; [by apply Hk|done].
Qed.

Lemma keeps_get {A} (k : t → M t A) : (∀ r, keeps_good (k r)) → keeps_good (r <- get ;; k r).
Proof. intros Hk r Hr. by apply Hk. Qed.

Lemma keeps_summary f : keeps_good (on_summary f).
Proof. by intros r [H1 H2]. Qed.

Lemma keeps_ret {A} (a : A) : keeps_good (ret a).
Proof. by intros r Hr. Qed.

Lemma keeps_book_for symbol : keeps_good (modify (book_for symbol)).
Proof.
  intros r [H1 H2]. split; [done|]. simpl. destruct (books_ r !! symbol); [done|].
  apply map_Forall_insert_2; [|done]. eapply sound_buffer; [apply MatchingEngine.start_sound|done].
Qed.

Lemma keeps_on_book {A} symbol (m : M (OrderBook.t * TradeBuffer.t) A) :
  (∀ st, MatchingEngine.sound st → MatchingEngine.sound (m st).2) → keeps_good (on_book symbol m).
Proof.
  intros Hm r [H1 H2]. unfold on_book. destruct (books_ r !! symbol) as [book|] eqn:E; [|by split].
  pose proof (Hm _ (H2 _ _ E)) as Hs. destruct (m (book, trade_buffer_ r)) as [x [book' trades']].
  simpl in *. pose proof (MatchingEngine.sound_trades _ Hs) as Hok. split; [done|]. simpl.
  apply map_Forall_insert_2; [done|]. intros s b Hb. eapply sound_buffer; [by apply (H2 s)|done].
Qed.

Lemma replay_order_typed request : Protocol.new_order_valid request → order_typed (order_of request).
Proof. intros Hv. destruct Hv as (? & ? & ? & _). split_and!; simpl; try done; apply u32_in. Qed.

Lemma keeps_process symbol o :
  order_typed o →
  keeps_good (on_book symbol (MatchingEngine.process_order_into o)).
Proof.
  intros Hq. apply keeps_on_book. intros st Hs.
  pose proof (MatchingEngine.process_sound o st Hs Hq) as H.
  destruct (MatchingEngine.process_order_into o st). by destruct H.
Qed.

Lemma keeps_cancel symbol order_id :
  keeps_good (on_book symbol (MatchingEngine.cancel_order order_id)).
Proof.
  apply keeps_on_book. intros st Hs.
  pose proof (MatchingEngine.engine_call_sound (MatchingEngine.Cancel order_id) st Hs I) as H.
  simpl in H. unfold bind in H. destruct (MatchingEngine.cancel_order order_id st) as [[x|e] st'];
    by destruct H.
Qed.

Lemma keeps_replace symbol order_id p q ts :
  in_i64 p → in_u32 q → in_u64 ts → keeps_good (replace_on_book symbol order_id p q ts).
Proof.
  intros Hp Hq Ht. apply keeps_on_book. intros [book trades] Hs. simpl.
  pose proof (sound_buffer _ _ (TradeBuffer.new default_capacity) Hs (TradeBuffer.new_ok _)) as Hs'.
  pose proof (MatchingEngine.engine_call_sound (MatchingEngine.Replace order_id p q ts) _ Hs'
    (conj Hp (conj Hq Ht))) as H.
  simpl in H. unfold bind in H. unfold MatchingEngine.replace_order.
  destruct (MatchingEngine.replace_order_into _ _ _ _ _) as [[x|e] [book' trades']]; simpl;
    destruct H as [_ H]; by eapply sound_buffer; [exact H|apply Hs].
Qed.

#[local] Hint Resolve keeps_summary keeps_ret keeps_book_for keeps_cancel : books.
#[local] Hint Extern 1 (keeps_good rejected) => apply keeps_summary : books.

Lemma keeps_command type body : keeps_good (replay_command type body).
Proof.
  unfold replay_command. destruct (type =? _).
  { unfold replay_new_order. destruct (Protocol.decode_new_order body) as [request|] eqn:Hd;
      [|eauto with books]. apply Protocol.decode_new_order_spec in Hd as [Hv _].
    case_match; [eauto with books|].
    cbn zeta. case_match; [eauto with books|].
    apply keeps_bind; [eauto with books|intros _]. apply keeps_bind; [|intros _].
    - by apply keeps_process, replay_order_typed.
    - apply keeps_get. eauto with books. }
  destruct (type =? _).
  { unfold replay_cancel_order. case_match; [|eauto with books].
    apply keeps_get. intros r. case_match; [eauto with books|].
    apply keeps_bind; [eauto with books|intros []; eauto with books]. }
  destruct (type =? _); [|eauto with books].
  unfold replay_replace_order. destruct (Protocol.decode_replace_order body) as [request|] eqn:Hd;
    [|eauto with books]. apply Protocol.decode_replace_order_spec in Hd as [Hv _].
  case_match; [eauto with books|].
  apply keeps_get. intros r. case_match; [eauto with books|].
  apply keeps_bind; [apply keeps_replace; [apply Hv|apply u32_in|apply Hv]|intros result].
  case_match; eauto with books.
Qed.

Lemma keeps_record message : keeps_good (replay_record message).
Proof.
  unfold replay_record. apply keeps_bind; [eauto with books|intros _].
  case_match; [|eauto with books]. case_match; [eauto with books|].
  intros r Hr. unfold dispatch.
  pose proof (keeps_command (Protocol.MessageHeader.type t0)
    (take (Z.to_nat (Protocol.MessageHeader.body_size t0)) (drop Protocol.header_size message)) r Hr) as H1.
  destruct (replay_command _ _ r) as [[]]; simpl in *; [done|]. by apply keeps_summary.
Qed.

Lemma keeps_loop fuel input : keeps_good (replay_loop fuel input).
Proof.
  revert input. induction fuel as [|fuel IH]; intros input; simpl; [by intros r Hr|].
  case_match; [eauto with books|]. case_match; [apply keeps_bind; eauto with books|].
  case_match; [apply keeps_bind; eauto with books|].
  apply keeps_bind; [apply keeps_record|intros _; apply IH].
Qed.

Lemma reset_good r : TradeBuffer.ok default_capacity (trade_buffer_ r) → good (reset r).
Proof. intros Hok. split; [by apply TradeBuffer.clear_ok|by intros ???]. Qed.

Lemma replay_good file : good (replay file new).2.
Proof.
  assert (good new) as Hnew by by apply reset_good, TradeBuffer.new_ok.
  unfold replay. unfold bind at 1, modify at 1.
  pose proof (reset_good new (good_buffer _ Hnew)) as Hr.
  destruct file as [input|]; [|done].
  revert Hr. generalize (reset new). apply keeps_bind; [apply keeps_loop|].
  intros []; [|eauto with books]. apply keeps_get. intros r. apply keeps_bind; eauto with books.
Qed.

(** C14. Replay always ends with an answer and cannot build a bad book.  From any
    bytes at all, damaged or hostile, the loop terminates, no exception escapes
    it, [replay] returns true or false, and every book the replayer ends up
    with satisfies the invariants of the order book, is uncrossed, and holds
    only good-till-cancel orders with fields within the widths of their types. *)
Theorem replay_sound file :
  ∃ b r, replay file new = (Ok b, r) ∧
    ∀ symbol book, books_ r !! symbol = Some book →
      OrderBook.inv book ∧ BookSpec.uncrossed (OrderBook.abs book) ∧
      BookSpec.gtc (OrderBook.abs book) ∧ MatchingEngine.book_typed book.
Proof.
  destruct (replay_total file new) as (b & r & Hr). exists b, r. split; [done|].
  intros symbol book Hs. pose proof (replay_good file) as Hgood. rewrite Hr in Hgood.
  by destruct (good_books _ Hgood _ _ Hs).
Qed.

(** ** A concrete journal: a bid, a sell that trades with it, a cancellation *)

Definition demo_message (type : Z) (body : list byte) : list byte :=
  Protocol.encode_header (Protocol.MessageHeader.mk Protocol.protocol_magic
    Protocol.protocol_version type (Z.of_nat (length body)) 7) ++ body.

Definition demo_order (order_id side price quantity : Z) : list byte :=
  demo_message Protocol.MessageType.NewOrder (Protocol.encode_new_order
    (Protocol.NewOrderRequest.mk order_id 1000 price quantity side Protocol.OrderType_Limit
       Protocol.TimeInForce_GoodTillCancel Protocol.default_symbol)).

Definition demo_cancel : list byte :=
  demo_message Protocol.MessageType.CancelOrder (Protocol.encode_cancel_order
    (Protocol.CancelOrderRequest.mk 1 1001 Protocol.default_symbol)).

Definition demo_messages : list (list byte) :=
  [demo_order 1 Protocol.Side_Buy 100 10; demo_order 2 Protocol.Side_Sell 99 4].

(* the cancellation was being written when the process died: after 3 bytes *)
Definition demo_file : list byte :=
  journal_of demo_messages ++ take 3 (Journal.record_of demo_cancel).

Lemma replay_messages_witness :
  (replay (Some demo_file) new).1 = Ok true ∧
  let '(result, r') := replay (Some demo_file) new in
  result = Ok true ∧ books_ r' = books_ (apply_messages demo_messages new).
Proof.
  split; [vm_compute; reflexivity|].
  exact (replay_messages demo_messages demo_cancel 3 new
    ltac:(repeat constructor; vm_compute; discriminate) ltac:(split; vm_compute; discriminate)
    ltac:(vm_compute; lia)).
Defined.

Lemma replay_sound_witness :
  ∃ b r book, replay (Some demo_file) new = (Ok b, r) ∧ books_ r !! "TEST"%string = Some book ∧
    OrderBook.inv book ∧ BookSpec.uncrossed (OrderBook.abs book) ∧
    BookSpec.gtc (OrderBook.abs book) ∧ MatchingEngine.book_typed book.
Proof.
  destruct (replay_sound (Some demo_file)) as (b & r & Hr & Hbooks).
  assert (r = (replay (Some demo_file) new).2) as Hr2 by (by rewrite Hr).
  destruct (books_ r !! "TEST"%string) as [book|] eqn:E.
  - exists b, r, book. split; [exact Hr|]. split; [exact E|]. exact (Hbooks _ _ E).
  - exfalso. rewrite Hr2 in E. vm_compute in E. discriminate.
Defined.
End Replay.
