(* ===== verification/ExchangeServer.v ===== *)
(** * The exchange server (include/exchange/exchange_server.hpp, src/exchange_server.cpp)

    The handlers of client messages: validation, risk check, journal, matching,
    bookkeeping of owners and exposures, and the messages sent.  A message is
    handled as one atomic step, which is what [journal_processing_mutex_]
    makes of it on a journaled server.  What the server sends is recorded in
    [output], in order; console logging is left out.

    Parameters: [io], the file system under the journal; [elapsed], the clock
    readings around the engine calls; [set_order], the iteration order of a
    [std::unordered_set]. *)
From Stdlib Require Import Strings.String.
From S2P Require Import Prelude Types PriceLevel TradeBuffer BookSpec OrderBook MatchingEngine RiskEngine Bytes Protocol PerformanceMetrics Journal Replay.
Open Scope Z_scope.

Module ExchangeServer.

Definition maximum_body_size : Z := 1024 * 1024.

Definition convert_side (side : Z) : Side :=
  if side =? Protocol.Side_Buy then Buy
  else if side =? Protocol.Side_Sell then Sell
  else Buy.

Definition convert_order_type (order_type : Z) : OrderType :=
  if order_type =? Protocol.OrderType_Limit then Limit
  else if order_type =? Protocol.OrderType_Market then Market
  else Limit.

Definition convert_time_in_force (time_in_force : Z) : TimeInForce :=
  if time_in_force =? Protocol.TimeInForce_GoodTillCancel then GoodTillCancel
  else if time_in_force =? Protocol.TimeInForce_ImmediateOrCancel then ImmediateOrCancel
  else if time_in_force =? Protocol.TimeInForce_FillOrKill then FillOrKill
  else GoodTillCancel.

Definition combine_message (header body : list byte) : list byte := header ++ body.

(** ** State *)

Module OrderOwner.
Record t : Type := mk { socket : Z; risk_client_id : Z }.
Definition none : t := mk (-1) RiskEngine.invalid_risk_client_id.
#[export] Instance eq_dec : EqDecision t.
Proof. solve_decision. Defined.
End OrderOwner.
Export (hints) OrderOwner.

Module InstrumentState.
Record t : Type := mk {
  book : OrderBook.t;
  order_owners : gmap OrderId OrderOwner.t
}.
Definition new : t := mk OrderBook.new ∅.
Definition set_book (b : OrderBook.t) (i : t) : t := mk b (order_owners i).
Definition set_owners (m : gmap OrderId OrderOwner.t) (i : t) : t := mk (book i) m.
End InstrumentState.

Module ExecutionDelivery.
Record t : Type := mk {
  trade : Trade;
  symbol : Protocol.Symbol;
  buyer_socket : Z;
  seller_socket : Z;
  buyer_risk_client_id : Z;
  seller_risk_client_id : Z
}.
End ExecutionDelivery.

Module BookSnapshot.
Record t : Type := mk {
  symbol : Protocol.Symbol;
  has_bid : bool; best_bid : Price; bid_quantity : Quantity;
  has_ask : bool; best_ask : Price; ask_quantity : Quantity
}.
Definition empty (symbol : Protocol.Symbol) : t := mk symbol false 0 0 false 0 0.
End BookSnapshot.

Module RecoveryState.
Record t : Type := mk {
  attempted : bool;
  successful : bool;
  journal_records : Z;
  new_orders : Z;
  trades : Z;
  rejected_messages : Z;
  unsupported_messages : Z;
  remaining_orders : Z;
  instruments : Z
}.
Definition zero : t := mk false false 0 0 0 0 0 0 0.
End RecoveryState.

Module Lifecycle.
Record t : Type := mk {
  multicast_config_ : bool;        (* was one given? *)
  recovery_completed_ : bool;
  running_ : bool
}.
End Lifecycle.

(* where a message goes: a client's socket, or the multicast publisher *)
Inductive Destination : Type := Socket (socket : Z) | Multicast.

Record t : Type := mk {
  risk_engine_ : RiskEngine.t;
  performance_metrics_ : PerformanceMetrics.t;
  instruments_ : gmap string InstrumentState.t;
  client_sockets_ : list Z;
  client_risk_ids_ : gmap Z Z;
  journal_ : option (list byte);      (* the file an open journal has *)
  multicast_publisher_ : bool;        (* is there one? *)
  next_sequence_number_ : Z;
  next_risk_client_id_ : Z;
  recovery_state_ : RecoveryState.t;
  lifecycle_ : Lifecycle.t;
  output : list (Destination * list byte)
}.

Definition new (risk_limits : RiskEngine.RiskLimits.t) (multicast : bool) : t :=
  mk (RiskEngine.new risk_limits) PerformanceMetrics.new ∅ [] ∅ None false 1 1
     RecoveryState.zero (Lifecycle.mk multicast false false) [].

Definition set_risk (x : RiskEngine.t) (s : t) : t :=
  mk x (performance_metrics_ s) (instruments_ s) (client_sockets_ s) (client_risk_ids_ s)
     (journal_ s) (multicast_publisher_ s) (next_sequence_number_ s) (next_risk_client_id_ s)
     (recovery_state_ s) (lifecycle_ s) (output s).
Definition set_metrics (x : PerformanceMetrics.t) (s : t) : t :=
  mk (risk_engine_ s) x (instruments_ s) (client_sockets_ s) (client_risk_ids_ s)
     (journal_ s) (multicast_publisher_ s) (next_sequence_number_ s) (next_risk_client_id_ s)
     (recovery_state_ s) (lifecycle_ s) (output s).
Definition set_instruments (x : gmap string InstrumentState.t) (s : t) : t :=
  mk (risk_engine_ s) (performance_metrics_ s) x (client_sockets_ s) (client_risk_ids_ s)
     (journal_ s) (multicast_publisher_ s) (next_sequence_number_ s) (next_risk_client_id_ s)
     (recovery_state_ s) (lifecycle_ s) (output s).
Definition set_clients (sockets : list Z) (ids : gmap Z Z) (next : Z) (s : t) : t :=
  mk (risk_engine_ s) (performance_metrics_ s) (instruments_ s) sockets ids
     (journal_ s) (multicast_publisher_ s) (next_sequence_number_ s) next
     (recovery_state_ s) (lifecycle_ s) (output s).
Definition set_journal (x : option (list byte)) (s : t) : t :=
  mk (risk_engine_ s) (performance_metrics_ s) (instruments_ s) (client_sockets_ s)
     (client_risk_ids_ s) x (multicast_publisher_ s) (next_sequence_number_ s)
     (next_risk_client_id_ s) (recovery_state_ s) (lifecycle_ s) (output s).
Definition set_sequence (x : Z) (s : t) : t :=
  mk (risk_engine_ s) (performance_metrics_ s) (instruments_ s) (client_sockets_ s)
     (client_risk_ids_ s) (journal_ s) (multicast_publisher_ s) x
     (next_risk_client_id_ s) (recovery_state_ s) (lifecycle_ s) (output s).
Definition set_recovery (x : RecoveryState.t) (s : t) : t :=
  mk (risk_engine_ s) (performance_metrics_ s) (instruments_ s) (client_sockets_ s)
     (client_risk_ids_ s) (journal_ s) (multicast_publisher_ s) (next_sequence_number_ s)
     (next_risk_client_id_ s) x (lifecycle_ s) (output s).
Definition set_lifecycle (x : Lifecycle.t) (publisher : bool) (s : t) : t :=
  mk (risk_engine_ s) (performance_metrics_ s) (instruments_ s) (client_sockets_ s)
     (client_risk_ids_ s) (journal_ s) publisher (next_sequence_number_ s)
     (next_risk_client_id_ s) (recovery_state_ s) x (output s).
Definition add_output (x : list (Destination * list byte)) (s : t) : t :=
  mk (risk_engine_ s) (performance_metrics_ s) (instruments_ s) (client_sockets_ s)
     (client_risk_ids_ s) (journal_ s) (multicast_publisher_ s) (next_sequence_number_ s)
     (next_risk_client_id_ s) (recovery_state_ s) (lifecycle_ s) (output s ++ x).

(* a handler also has the trade buffer of its client's thread *)
Abbreviation Handler := (M (t * TradeBuffer.t)).

Definition server : Handler t := λ st, (Ok st.1, st).
Definition on_server (f : t → t) : Handler unit := modify (λ st, (f st.1, st.2)).
Definition on_risk (f : RiskEngine.t → RiskEngine.t) : Handler unit :=
  on_server (λ s, set_risk (f (risk_engine_ s)) s).
Definition on_metrics (f : PerformanceMetrics.t → PerformanceMetrics.t) : Handler unit :=
  on_server (λ s, set_metrics (f (performance_metrics_ s)) s).
Definition clear_trades : Handler unit := modify (λ st, (st.1, TradeBuffer.clear st.2)).
(* the trades the buffer holds, as a range-for sees them *)
Definition buffered_trades : Handler (list Trade) :=
  λ st, (TradeBuffer.to_vector st.2, st).

(** ** Clients and instruments *)

Definition register_client (client_socket : Z) (s : t) : t :=
  let risk_client_id := next_risk_client_id_ s in
  set_clients (client_sockets_ s ++ [client_socket])
    (<[client_socket := risk_client_id]> (client_risk_ids_ s))
    (u64 (risk_client_id + 1)) s.

Fixpoint erase_first (x : Z) (l : list Z) : list Z :=
  match l with
  | [] => []
  | y :: l' => if x =? y then l' else y :: erase_first x l'
  end.

Definition unregister_client (client_socket : Z) (s : t) : t :=
  set_clients (erase_first client_socket (client_sockets_ s))
    (delete client_socket (client_risk_ids_ s)) (next_risk_client_id_ s) s.

Definition risk_client_id_for_socket (client_socket : Z) (s : t) : Z :=
  default RiskEngine.invalid_risk_client_id (client_risk_ids_ s !! client_socket).

Definition set_global_kill_switch (enabled : bool) (s : t) : t :=
  set_risk (RiskEngine.set_global_kill_switch enabled (risk_engine_ s)) s.

(* instruments_.try_emplace(symbol) *)
Definition instrument_for (symbol : string) (s : t) : t :=
  match instruments_ s !! symbol with
  | Some _ => s
  | None => set_instruments (<[symbol := InstrumentState.new]> (instruments_ s)) s
  end.

Definition find_instrument (symbol : string) (s : t) : option InstrumentState.t :=
  instruments_ s !! symbol.

(* the instrument a reference denotes *)
Definition instrument (symbol : string) : Handler InstrumentState.t :=
  λ st, match instruments_ st.1 !! symbol with
        | Some i => (Ok i, st)
        | None => (Throw (Undefined "dangling instrument"), st)
        end.

Definition on_owners (symbol : string)
    (f : gmap OrderId OrderOwner.t → gmap OrderId OrderOwner.t) : Handler unit :=
  on_server (λ s, set_instruments
    (alter (λ i, InstrumentState.set_owners (f (InstrumentState.order_owners i)) i) symbol
       (instruments_ s)) s).

(* an engine operation on an instrument's book and the thread's trade buffer *)
Definition on_engine {A} (symbol : string) (m : M (OrderBook.t * TradeBuffer.t) A) : Handler A :=
  λ st, match instruments_ st.1 !! symbol with
        | None => (Throw (Undefined "dangling instrument"), st)
        | Some i =>
            let '(x, (book, trades)) := m (InstrumentState.book i, st.2) in
            (x, (set_instruments (<[symbol := InstrumentState.set_book book i]>
                                    (instruments_ st.1)) st.1, trades))
        end.

Definition find_order (symbol : string) (order_id : OrderId) : Handler (option Order) :=
  i <- instrument symbol ;; lift (OrderBook.find_order (InstrumentState.book i) order_id).

Definition order_exists (symbol : string) (order_id : OrderId) : Handler bool :=
  o <- find_order symbol order_id ;;
  ret (match o with Some _ => true | None => false end).

Definition market_reference_price (side : Side) (book : OrderBook.t) : res (option Price) :=
  match side with
  | Buy =>
      if negb (OrderBook.has_asks book) then Ok None
      else let* price := OrderBook.best_ask book in Ok (Some price)
  | Sell =>
      if negb (OrderBook.has_bids book) then Ok None
      else let* price := OrderBook.best_bid book in Ok (Some price)
  end.

Definition find_order_owner (i : InstrumentState.t) (order_id incoming_order_id : OrderId)
    (incoming_socket incoming_risk_client_id : Z) : OrderOwner.t :=
  if order_id =? incoming_order_id
  then OrderOwner.mk incoming_socket incoming_risk_client_id
  else default OrderOwner.none (InstrumentState.order_owners i !! order_id).

Definition capture_book_snapshot (symbol : Protocol.Symbol) (book : OrderBook.t)
    : res BookSnapshot.t :=
  let* bid :=
    if OrderBook.has_bids book
    then let* price := OrderBook.best_bid book in
         let* level := OrderBook.best_bid_level book in
         Ok (price, PriceLevel.total_quantity level)
    else Ok (0, 0) in
  let* ask :=
    if OrderBook.has_asks book
    then let* price := OrderBook.best_ask book in
         let* level := OrderBook.best_ask_level book in
         Ok (price, PriceLevel.total_quantity level)
    else Ok (0, 0) in
  Ok (BookSnapshot.mk symbol (OrderBook.has_bids book) bid.1 bid.2
        (OrderBook.has_asks book) ask.1 ask.2).

(** ** Sending *)

Definition fetch_sequence : Handler Z :=
  λ st, (Ok (next_sequence_number_ st.1),
         (set_sequence (u64 (next_sequence_number_ st.1 + 1)) st.1, st.2)).

(* TcpServer::send_to; a failure is only logged *)
Definition send_to (client_socket : Z) (message : list byte) : Handler unit :=
  on_server (add_output [(Socket client_socket, message)]).

(* the tail the four broadcasts share: the multicast publisher, if there is
   one, then every client *)
Definition send_to_all (message : list byte) : Handler unit :=
  on_server (λ s, add_output
    ((if multicast_publisher_ s then [(Multicast, message)] else []) ++
     ((λ socket, (Socket socket, message)) <$> client_sockets_ s)) s).

Definition message_header (type : Z) (body : list byte) (sequence_number : Z)
    : Protocol.MessageHeader.t :=
  Protocol.MessageHeader.mk Protocol.protocol_magic Protocol.protocol_version type
    (u32 (Z.of_nat (length body))) sequence_number.

Definition send_order_response (client_socket : Z) (order_id : Z) (success : bool)
    (success_type : Z) : Handler unit :=
  sequence_number <- fetch_sequence ;;
  let response_body := Protocol.encode_order_response
    (Protocol.OrderResponse.mk order_id sequence_number (if success then 1 else 0)) in
  let response_header := message_header
    (if success then success_type else Protocol.MessageType.OrderRejected)
    response_body sequence_number in
  send_to client_socket
    (combine_message (Protocol.encode_header response_header) response_body).

Definition send_trade_execution (client_socket : Z) (symbol : Protocol.Symbol) (trade : Trade)
    : Handler unit :=
  if client_socket <? 0 then ret tt
  else
    sequence_number <- fetch_sequence ;;
    let response_body := Protocol.encode_trade_execution
      (Protocol.TradeExecution.mk (Trade.buy_order_id trade) (Trade.sell_order_id trade)
         (Trade.price trade) (Trade.quantity trade) sequence_number symbol) in
    let response_header :=
      message_header Protocol.MessageType.TradeExecution response_body sequence_number in
    send_to client_socket
      (combine_message (Protocol.encode_header response_header) response_body).

Definition send_execution_deliveries (deliveries : list ExecutionDelivery.t) : Handler unit :=
  for_each deliveries (λ delivery,
    send_trade_execution (ExecutionDelivery.buyer_socket delivery)
      (ExecutionDelivery.symbol delivery) (ExecutionDelivery.trade delivery) ;;;
    send_trade_execution (ExecutionDelivery.seller_socket delivery)
      (ExecutionDelivery.symbol delivery) (ExecutionDelivery.trade delivery)).

Definition broadcast_book_update (snapshot : BookSnapshot.t) : Handler unit :=
  sequence_number <- fetch_sequence ;;
  let has_bid := BookSnapshot.has_bid snapshot in
  let has_ask := BookSnapshot.has_ask snapshot in
  let body := Protocol.encode_book_update
    (Protocol.BookUpdate.mk
       (if has_bid then 1 else 0)
       (if has_bid then BookSnapshot.best_bid snapshot else 0)
       (if has_bid then BookSnapshot.bid_quantity snapshot else 0)
       (if has_ask then 1 else 0)
       (if has_ask then BookSnapshot.best_ask snapshot else 0)
       (if has_ask then BookSnapshot.ask_quantity snapshot else 0)
       sequence_number (BookSnapshot.symbol snapshot)) in
  let header := message_header Protocol.MessageType.BookUpdate body sequence_number in
  send_to_all (combine_message (Protocol.encode_header header) body).

Definition broadcast_level3_add_order (event : Protocol.Level3AddOrder.t) : Handler unit :=
  sequence_number <- fetch_sequence ;;
  let body := Protocol.encode_level3_add_order
    (Protocol.Level3AddOrder.mk (Protocol.Level3AddOrder.order_id event)
       (Protocol.Level3AddOrder.timestamp event) (Protocol.Level3AddOrder.price event)
       (Protocol.Level3AddOrder.quantity event) (Protocol.Level3AddOrder.side event)
       sequence_number (Protocol.Level3AddOrder.symbol event)) in
  let header := message_header Protocol.MessageType.Level3AddOrder body sequence_number in
  send_to_all (combine_message (Protocol.encode_header header) body).

Definition broadcast_level3_order_executed (event : Protocol.Level3OrderExecuted.t)
    : Handler unit :=
  sequence_number <- fetch_sequence ;;
  let body := Protocol.encode_level3_order_executed
    (Protocol.Level3OrderExecuted.mk (Protocol.Level3OrderExecuted.buy_order_id event)
       (Protocol.Level3OrderExecuted.sell_order_id event)
       (Protocol.Level3OrderExecuted.price event) (Protocol.Level3OrderExecuted.quantity event)
       sequence_number (Protocol.Level3OrderExecuted.symbol event)) in
  let header := message_header Protocol.MessageType.Level3OrderExecuted body sequence_number in
  send_to_all (combine_message (Protocol.encode_header header) body).

Definition broadcast_level3_order_deleted (event : Protocol.Level3OrderDeleted.t)
    : Handler unit :=
  sequence_number <- fetch_sequence ;;
  let body := Protocol.encode_level3_order_deleted
    (Protocol.Level3OrderDeleted.mk (Protocol.Level3OrderDeleted.order_id event)
       sequence_number (Protocol.Level3OrderDeleted.symbol event)) in
  let header := message_header Protocol.MessageType.Level3OrderDeleted body sequence_number in
  send_to_all (combine_message (Protocol.encode_header header) body).

(** ** Trades and owners *)

(* what the loop over the trades of a message collects; [deleted] lists the
   insertions into the unordered_set of filled orders *)
Module Effects.
Record t : Type := mk {
  deliveries : list ExecutionDelivery.t;
  traded_quantity : Z;
  level3_executions : list Protocol.Level3OrderExecuted.t;
  deleted : list OrderId
}.
Definition none : t := mk [] 0 [] [].
End Effects.

(* is a side of a trade an order that has left the book? *)
Definition filled_order (symbol : string) (order_id incoming_order_id : OrderId)
    : Handler (list OrderId) :=
  if order_id =? incoming_order_id then ret []
  else found <- order_exists symbol order_id ;;
       ret (if found : bool then [] else [order_id]).

(* the body of the loop over the trades *)
Definition record_trade (symbol : string) (wire_symbol : Protocol.Symbol)
    (order_id : OrderId) (client_socket risk_client_id : Z)
    (effects : Effects.t) (trade : Trade) : Handler Effects.t :=
  i <- instrument symbol ;;
  let buyer_owner := find_order_owner i (Trade.buy_order_id trade) order_id
                       client_socket risk_client_id in
  let seller_owner := find_order_owner i (Trade.sell_order_id trade) order_id
                        client_socket risk_client_id in
  let delivery := ExecutionDelivery.mk trade wire_symbol
    (OrderOwner.socket buyer_owner) (OrderOwner.socket seller_owner)
    (OrderOwner.risk_client_id buyer_owner) (OrderOwner.risk_client_id seller_owner) in
  on_risk (RiskEngine.on_trade symbol (OrderOwner.risk_client_id buyer_owner)
    (OrderOwner.risk_client_id seller_owner) (Trade.buy_order_id trade)
    (Trade.sell_order_id trade) (Trade.quantity trade)) ;;;
  let execution := Protocol.Level3OrderExecuted.mk (Trade.buy_order_id trade)
    (Trade.sell_order_id trade) (Trade.price trade) (Trade.quantity trade) 0 wire_symbol in
  bought <- filled_order symbol (Trade.buy_order_id trade) order_id ;;
  sold <- filled_order symbol (Trade.sell_order_id trade) order_id ;;
  ret (Effects.mk (Effects.deliveries effects ++ [delivery])
         (u64 (Effects.traded_quantity effects + Trade.quantity trade))
         (Effects.level3_executions effects ++ [execution])
         (Effects.deleted effects ++ bought ++ sold)).

Definition record_trades (symbol : string) (wire_symbol : Protocol.Symbol)
    (order_id : OrderId) (client_socket risk_client_id : Z) : Handler Effects.t :=
  trades <- buffered_trades ;;
  fold_each trades (record_trade symbol wire_symbol order_id client_socket risk_client_id)
    Effects.none.

Definition remove_filled_order_owners (symbol : string) (incoming_order_id : OrderId)
    : Handler unit :=
  trades <- buffered_trades ;;
  for_each trades (λ trade,
    bought <- filled_order symbol (Trade.buy_order_id trade) incoming_order_id ;;
    for_each bought (λ order_id, on_owners symbol (delete order_id)) ;;;
    sold <- filled_order symbol (Trade.sell_order_id trade) incoming_order_id ;;
    for_each sold (λ order_id, on_owners symbol (delete order_id))).

(* the incoming order rests: its owner, its exposure, and the level-3 event *)
Definition note_resting (symbol : string) (wire_symbol : Protocol.Symbol)
    (client_socket risk_client_id : Z) (order_id : OrderId) (resting_order : Order)
    : Handler Protocol.Level3AddOrder.t :=
  on_owners symbol <[order_id := OrderOwner.mk client_socket risk_client_id]> ;;;
  on_risk (RiskEngine.on_order_resting risk_client_id symbol (Order.id resting_order)
    (Order.side resting_order) (Order.price resting_order)
    (Order.remaining_quantity resting_order)) ;;;
  ret (Protocol.Level3AddOrder.mk (Order.id resting_order) (Order.timestamp resting_order)
    (Order.price resting_order) (Order.remaining_quantity resting_order)
    (match Order.side resting_order with
     | Buy => Protocol.Side_Buy | Sell => Protocol.Side_Sell end) 0 wire_symbol).

(* what the section under the engine lock hands to the rest of a handler *)
Module Outcome.
Record t : Type := mk {
  accepted : bool;
  risk_reject_reason : RiskEngine.RiskRejectReason;
  effects : Effects.t;
  level3_add : option Protocol.Level3AddOrder.t;
  snapshot : BookSnapshot.t
}.
Definition rejected (reason : RiskEngine.RiskRejectReason) (symbol : Protocol.Symbol) : t :=
  mk false reason Effects.none None (BookSnapshot.empty symbol).
Definition risk_rejected (o : t) : bool :=
  match risk_reject_reason o with RiskEngine.None_ => false | _ => true end.
End Outcome.

Definition on_metrics_trades (o : Outcome.t) : Handler unit :=
  let deliveries := Effects.deliveries (Outcome.effects o) in
  if Outcome.accepted o && negb (bool_decide (deliveries = []))
  then on_metrics (PerformanceMetrics.record_trades (u64 (Z.of_nat (length deliveries)))
         (Effects.traded_quantity (Outcome.effects o)))
  else ret tt.

Definition snapshot_of (symbol : string) (wire_symbol : Protocol.Symbol)
    : Handler BookSnapshot.t :=
  i <- instrument symbol ;; lift (capture_book_snapshot wire_symbol (InstrumentState.book i)).

Section handlers.
Context (io : list byte → list byte → option nat).   (* the file system, as in Journal *)
Context (elapsed : t → Z).                            (* the clock around an engine call *)
Context (set_order : list OrderId → list OrderId).    (* iteration over an unordered_set *)

Definition append_journal_record (header : Protocol.MessageHeader.t) (body : list byte)
    : Handler unit :=
  λ st, match journal_ st.1 with
        | None => (Ok tt, st)
        | Some file =>
            let message := Protocol.encode_header header ++ body in
            let '(r, file') := Journal.append io message file in
            (r, (set_journal (Some file') st.1, st.2))
        end.

Definition record_matching_latency : Handler unit :=
  on_server (λ s, set_metrics
    (PerformanceMetrics.record_matching_latency (u64 (elapsed s)) (performance_metrics_ s)) s).

(* after a successful engine call: the trades of the buffer, the owners of
   filled orders, and the incoming order if it rests.  handle_replace_order
   repeats these statements, with one more when the order does not rest
   ([otherwise]). *)
Definition settle (symbol : string) (wire_symbol : Protocol.Symbol) (order_id : OrderId)
    (client_socket risk_client_id : Z) (otherwise : Handler unit) : Handler Outcome.t :=
  effects <- record_trades symbol wire_symbol order_id client_socket risk_client_id ;;
  remove_filled_order_owners symbol order_id ;;;
  resting <- find_order symbol order_id ;;
  level3_add <-
    (match resting with
     | Some resting_order =>
         event <- note_resting symbol wire_symbol client_socket risk_client_id order_id
                    resting_order ;;
         ret (Some event)
     | None => otherwise ;;; ret None
     end) ;;
  snapshot <- snapshot_of symbol wire_symbol ;;
  ret (Outcome.mk true RiskEngine.None_ effects level3_add snapshot).

(* the same for a replacement, which is no longer owned if it does not rest *)
Definition settle_replacement (symbol : string) (wire_symbol : Protocol.Symbol)
    (order_id : OrderId) (client_socket risk_client_id : Z) : Handler Outcome.t :=
  settle symbol wire_symbol order_id client_socket risk_client_id
    (on_owners symbol (delete order_id)).

(** *** New orders *)

Definition order_of (request : Protocol.NewOrderRequest.t) : Order :=
  let quantity := u32 (Protocol.NewOrderRequest.quantity request) in
  Order.mk (Protocol.NewOrderRequest.order_id request)
    (convert_side (Protocol.NewOrderRequest.side request))
    (convert_order_type (Protocol.NewOrderRequest.order_type request))
    (convert_time_in_force (Protocol.NewOrderRequest.time_in_force request))
    (Protocol.NewOrderRequest.price request) quantity quantity
    (Protocol.NewOrderRequest.timestamp request).

Definition risk_request_of (risk_client_id : Z) (symbol : string) (order : Order)
    (reference_price : option Price) : RiskEngine.RiskOrderRequest.t :=
  RiskEngine.RiskOrderRequest.mk risk_client_id symbol (Order.id order) (Order.side order)
    (Order.type order) (Order.time_in_force order) (Order.price order)
    (Order.remaining_quantity order) reference_price.

(* the section of handle_new_order under the engine lock *)
Definition new_order_locked (client_socket risk_client_id : Z) (symbol : string)
    (request : Protocol.NewOrderRequest.t) (header : Protocol.MessageHeader.t)
    (body : list byte) : Handler Outcome.t :=
  let order_id := Protocol.NewOrderRequest.order_id request in
  let wire_symbol := Protocol.NewOrderRequest.symbol request in
  on_server (instrument_for symbol) ;;;
  resting <- order_exists symbol order_id ;;
  i <- instrument symbol ;;
  if (resting : bool) || bool_decide (is_Some (InstrumentState.order_owners i !! order_id))
  then clear_trades ;;; ret (Outcome.rejected RiskEngine.None_ wire_symbol)
  else
    let order := order_of request in
    reference_price <-
      (match Order.type order with
       | Market => lift (market_reference_price (Order.side order) (InstrumentState.book i))
       | Limit => ret None
       end) ;;
    s <- server ;;
    let risk_decision := RiskEngine.check_new_order (risk_engine_ s)
      (risk_request_of risk_client_id symbol order reference_price) in
    if negb (RiskEngine.RiskDecision.accepted risk_decision)
    then clear_trades ;;;
         ret (Outcome.rejected (RiskEngine.RiskDecision.reason risk_decision) wire_symbol)
    else
      append_journal_record header body ;;;
      on_engine symbol (MatchingEngine.process_order_into order) ;;;
      record_matching_latency ;;;
      settle symbol wire_symbol order_id client_socket risk_client_id (ret tt).

Definition broadcast_level3_deletions (wire_symbol : Protocol.Symbol) (deleted : list OrderId)
    : Handler unit :=
  for_each (set_order deleted) (λ order_id,
    broadcast_level3_order_deleted (Protocol.Level3OrderDeleted.mk order_id 0 wire_symbol)).

Definition broadcast_level3_addition (level3_add : option Protocol.Level3AddOrder.t)
    : Handler unit :=
  match level3_add with
  | Some event => broadcast_level3_add_order event
  | None => ret tt
  end.

(* the rest of handle_new_order, after the engine lock is released *)
Definition publish_new_order (client_socket : Z) (order_id : OrderId)
    (wire_symbol : Protocol.Symbol) (o : Outcome.t) : Handler unit :=
  on_metrics (PerformanceMetrics.record_new_order (Outcome.accepted o) (Outcome.risk_rejected o)) ;;;
  on_metrics_trades o ;;;
  send_order_response client_socket order_id (Outcome.accepted o)
    Protocol.MessageType.OrderAccepted ;;;
  if negb (Outcome.accepted o) then ret tt
  else
    send_execution_deliveries (Effects.deliveries (Outcome.effects o)) ;;;
    broadcast_book_update (Outcome.snapshot o) ;;;
    for_each (Effects.level3_executions (Outcome.effects o)) broadcast_level3_order_executed ;;;
    broadcast_level3_deletions wire_symbol (Effects.deleted (Outcome.effects o)) ;;;
    broadcast_level3_addition (Outcome.level3_add o).

Definition reject_request (client_socket : Z) (order_id : OrderId) : Handler unit :=
  send_order_response client_socket order_id false Protocol.MessageType.OrderAccepted.

Definition quantity_max : Z := 2 ^ 32 - 1.

Definition handle_new_order (client_socket : Z) (header : Protocol.MessageHeader.t)
    (body : list byte) : Handler unit :=
  if negb (Protocol.MessageHeader.body_size header =? Z.of_nat Protocol.new_order_body_size)
  then reject_request client_socket 0
  else
    match Protocol.decode_new_order body with
    | None => reject_request client_socket 0
    | Some request =>
        let order_id := Protocol.NewOrderRequest.order_id request in
        if Protocol.NewOrderRequest.quantity request >? quantity_max
        then reject_request client_socket order_id
        else
          let symbol := Protocol.symbol_to_string (Protocol.NewOrderRequest.symbol request) in
          if String.eqb symbol "" then reject_request client_socket order_id
          else
            s <- server ;;
            outcome <- new_order_locked client_socket (risk_client_id_for_socket client_socket s)
              symbol request header body ;;
            publish_new_order client_socket order_id
              (Protocol.NewOrderRequest.symbol request) outcome
    end.

(** *** Cancellations *)

(* does the order belong to this client and rest on the book? *)
Definition owned (i : InstrumentState.t) (order_id : OrderId)
    (client_socket risk_client_id : Z) : bool :=
  match InstrumentState.order_owners i !! order_id with
  | None => false
  | Some owner =>
      (OrderOwner.socket owner =? client_socket) &&
      (OrderOwner.risk_client_id owner =? risk_client_id)
  end.

(* the section under the engine lock; the snapshot of a cancelled order *)
Definition cancel_order_locked (client_socket risk_client_id : Z) (symbol : string)
    (request : Protocol.CancelOrderRequest.t) (header : Protocol.MessageHeader.t)
    (body : list byte) : Handler (option BookSnapshot.t) :=
  let order_id := Protocol.CancelOrderRequest.order_id request in
  s <- server ;;
  match find_instrument symbol s with
  | None => ret None
  | Some i =>
      if negb (owned i order_id client_socket risk_client_id) then ret None
      else
        resting <- order_exists symbol order_id ;;
        if negb resting then ret None
        else
          append_journal_record header body ;;;
          cancelled <- on_engine symbol (MatchingEngine.cancel_order order_id) ;;
          record_matching_latency ;;;
          if negb cancelled then ret None
          else
            (* the owner's id, which [owned] has compared with the client's *)
            on_risk (RiskEngine.on_order_cancelled risk_client_id symbol order_id) ;;;
            on_owners symbol (delete order_id) ;;;
            snapshot <- snapshot_of symbol (Protocol.CancelOrderRequest.symbol request) ;;
            ret (Some snapshot)
  end.

Definition handle_cancel_order (client_socket : Z) (header : Protocol.MessageHeader.t)
    (body : list byte) : Handler unit :=
  if negb (Protocol.MessageHeader.body_size header =? Z.of_nat Protocol.cancel_order_body_size)
  then reject_request client_socket 0
  else
    match Protocol.decode_cancel_order body with
    | None => reject_request client_socket 0
    | Some request =>
        let order_id := Protocol.CancelOrderRequest.order_id request in
        let wire_symbol := Protocol.CancelOrderRequest.symbol request in
        s <- server ;;
        snapshot <- cancel_order_locked client_socket (risk_client_id_for_socket client_socket s)
          (Protocol.symbol_to_string wire_symbol) request header body ;;
        let cancelled := bool_decide (is_Some snapshot) in
        on_metrics (PerformanceMetrics.record_cancel cancelled) ;;;
        send_order_response client_socket order_id cancelled Protocol.MessageType.OrderCancelled ;;;
        match snapshot with
        | None => ret tt
        | Some snapshot =>
            broadcast_book_update snapshot ;;;
            broadcast_level3_order_deleted
              (Protocol.Level3OrderDeleted.mk order_id 0 wire_symbol)
        end
    end.

(** *** Replacements *)

Definition replace_order_locked (client_socket risk_client_id : Z) (symbol : string)
    (request : Protocol.ReplaceOrderRequest.t) (header : Protocol.MessageHeader.t)
    (body : list byte) : Handler Outcome.t :=
  let order_id := Protocol.ReplaceOrderRequest.order_id request in
  let wire_symbol := Protocol.ReplaceOrderRequest.symbol request in
  let new_price := Protocol.ReplaceOrderRequest.new_price request in
  let new_quantity := u32 (Protocol.ReplaceOrderRequest.new_quantity request) in
  s <- server ;;
  match find_instrument symbol s with
  | None => ret (Outcome.rejected RiskEngine.None_ wire_symbol)
  | Some i =>
      existing_order <- find_order symbol order_id ;;
      match existing_order with
      | Some original_order =>
          if negb (owned i order_id client_socket risk_client_id)
          then ret (Outcome.rejected RiskEngine.None_ wire_symbol)
          else
            let risk_decision := RiskEngine.check_replace (risk_engine_ s) risk_client_id symbol
              order_id new_price new_quantity in
            if negb (RiskEngine.RiskDecision.accepted risk_decision)
            then clear_trades ;;;
                 ret (Outcome.rejected (RiskEngine.RiskDecision.reason risk_decision) wire_symbol)
            else
              append_journal_record header body ;;;
              on_risk (RiskEngine.on_order_cancelled risk_client_id symbol order_id) ;;;
              replaced <- on_engine symbol (MatchingEngine.replace_order_into order_id new_price
                new_quantity (Protocol.ReplaceOrderRequest.timestamp request)) ;;
              record_matching_latency ;;;
              if negb replaced
              then
                on_risk (RiskEngine.on_order_resting risk_client_id symbol
                  (Order.id original_order) (Order.side original_order)
                  (Order.price original_order) (Order.remaining_quantity original_order)) ;;;
                ret (Outcome.rejected RiskEngine.None_ wire_symbol)
              else
                settle_replacement symbol wire_symbol order_id client_socket risk_client_id
      | None => ret (Outcome.rejected RiskEngine.None_ wire_symbol)
      end
  end.

Definition publish_replace_order (client_socket : Z) (order_id : OrderId)
    (wire_symbol : Protocol.Symbol) (o : Outcome.t) : Handler unit :=
  on_metrics (PerformanceMetrics.record_replace (Outcome.accepted o) (Outcome.risk_rejected o)) ;;;
  on_metrics_trades o ;;;
  send_order_response client_socket order_id (Outcome.accepted o)
    Protocol.MessageType.OrderReplaced ;;;
  if negb (Outcome.accepted o) then ret tt
  else
    send_execution_deliveries (Effects.deliveries (Outcome.effects o)) ;;;
    broadcast_book_update (Outcome.snapshot o) ;;;
    broadcast_level3_order_deleted (Protocol.Level3OrderDeleted.mk order_id 0 wire_symbol) ;;;
    for_each (Effects.level3_executions (Outcome.effects o)) broadcast_level3_order_executed ;;;
    broadcast_level3_deletions wire_symbol (Effects.deleted (Outcome.effects o)) ;;;
    broadcast_level3_addition (Outcome.level3_add o).

Definition handle_replace_order (client_socket : Z) (header : Protocol.MessageHeader.t)
    (body : list byte) : Handler unit :=
  if negb (Protocol.MessageHeader.body_size header =? Z.of_nat Protocol.replace_order_body_size)
  then reject_request client_socket 0
  else
    match Protocol.decode_replace_order body with
    | None => reject_request client_socket 0
    | Some request =>
        let order_id := Protocol.ReplaceOrderRequest.order_id request in
        let wire_symbol := Protocol.ReplaceOrderRequest.symbol request in
        if Protocol.ReplaceOrderRequest.new_quantity request >? quantity_max
        then reject_request client_socket order_id
        else
          s <- server ;;
          outcome <- replace_order_locked client_socket
            (risk_client_id_for_socket client_socket s)
            (Protocol.symbol_to_string wire_symbol) request header body ;;
          publish_replace_order client_socket order_id wire_symbol outcome
    end.

(** *** Messages and sessions *)

Definition handle_message (client_socket : Z) (header : Protocol.MessageHeader.t)
    (body : list byte) : Handler unit :=
  let type := Protocol.MessageHeader.type header in
  if type =? Protocol.MessageType.NewOrder then handle_new_order client_socket header body
  else if type =? Protocol.MessageType.CancelOrder
  then handle_cancel_order client_socket header body
  else if type =? Protocol.MessageType.ReplaceOrder
  then handle_replace_order client_socket header body
  else ret tt.

(* the while loop; the result is the receive buffer that is left *)
Fixpoint process_receive_loop (fuel : nat) (client_socket : Z) (receive_buffer : list byte)
    : Handler (list byte) :=
  if (length receive_buffer <? Protocol.header_size)%nat then ret receive_buffer
  else
    match fuel with
    | O => throw OutOfFuel
    | S fuel' =>
        match Protocol.decode_header (take Protocol.header_size receive_buffer) with
        | None => ret []
        | Some header =>
            let body_size := Protocol.MessageHeader.body_size header in
            if body_size >? maximum_body_size then ret []
            else
              let full_message_size := (Protocol.header_size + Z.to_nat body_size)%nat in
              if (length receive_buffer <? full_message_size)%nat then ret receive_buffer
              else
                handle_message client_socket header
                  (take (Z.to_nat body_size) (drop Protocol.header_size receive_buffer)) ;;;
                process_receive_loop fuel' client_socket (drop full_message_size receive_buffer)
        end
    end.

(* every message takes at least a header from the buffer *)
Definition process_receive_buffer (client_socket : Z) (receive_buffer : list byte)
    : Handler (list byte) :=
  process_receive_loop (length receive_buffer) client_socket receive_buffer.

End handlers.

(** ** Recovery, start and the life of a server *)

(* what the file system has at journal_path_ *)
Inductive JournalPath : Type :=
  | NoJournal                       (* no path was given *)
  | Unreadable                      (* exists or file_size reports an error *)
  | Missing
  | Unopenable (contents : list byte)   (* the replayer cannot open the file *)
  | File (contents : list byte).

Definition set_book (symbol : string) (book : OrderBook.t) (s : t) : t :=
  set_instruments (alter (InstrumentState.set_book book) symbol (instruments_ s)) s.

(* instrument_for(symbol).book.swap( *recovered_book) *)
Definition adopt_book (s : t) (recovered : string * OrderBook.t) : t :=
  set_book recovered.1 recovered.2 (instrument_for recovered.1 s).

Definition remaining_orders (books : list (string * OrderBook.t)) : Z :=
  foldl (λ n recovered, u64 (n + Z.of_nat (OrderBook.order_count recovered.2))) 0 books.

Definition recovered_state (attempted successful : bool) : RecoveryState.t :=
  RecoveryState.mk attempted successful 0 0 0 0 0 0 0.

(* the replay of a journal that is not empty *)
Definition recover_from_replay (file : option (list byte)) (s : t) : bool * t :=
  let '(result, replayer) := Replay.replay file Replay.new in
  match result with
  | Ok true =>
      let summary := Replay.summary_ replayer in
      let recovered_books := map_to_list (Replay.books_ replayer) in
      let s := foldl adopt_book s recovered_books in
      (true, set_recovery
        (RecoveryState.mk true true
           (Replay.ReplaySummary.journal_records summary)
           (Replay.ReplaySummary.new_orders summary)
           (Replay.ReplaySummary.trades summary)
           (Replay.ReplaySummary.rejected_messages summary)
           (Replay.ReplaySummary.unsupported_messages summary)
           (remaining_orders recovered_books)
           (Z.of_nat (size (instruments_ s)))) s)
  | _ => (false, s)
  end.

Definition recover_from_journal (path : JournalPath) (s : t) : bool * t :=
  let attempted := set_recovery (recovered_state true false) s in
  match path with
  | NoJournal => (true, set_recovery (recovered_state false true) s)
  | Unreadable => (false, attempted)
  | Missing => (true, set_recovery (recovered_state true true) s)
  | Unopenable [] | File [] => (true, set_recovery (recovered_state true true) s)
  | Unopenable _ => recover_from_replay None attempted
  | File contents => recover_from_replay (Some contents) attempted
  end.

(* the file ExchangeJournal opens for appending; [None] is its exception *)
Definition open_journal (path : JournalPath) : option (list byte) :=
  match path with
  | File contents => Some contents
  | Missing => Some []
  | NoJournal | Unreadable | Unopenable _ => None
  end.

Definition set_recovery_completed (s : t) : t :=
  set_lifecycle (Lifecycle.mk (Lifecycle.multicast_config_ (lifecycle_ s)) true
    (Lifecycle.running_ (lifecycle_ s))) (multicast_publisher_ s) s.
Definition set_publisher (b : bool) (s : t) : t := set_lifecycle (lifecycle_ s) b s.
Definition set_running (b : bool) (s : t) : t :=
  set_lifecycle (Lifecycle.mk (Lifecycle.multicast_config_ (lifecycle_ s))
    (Lifecycle.recovery_completed_ (lifecycle_ s)) b) (multicast_publisher_ s) s.

(* start: [multicast_starts] and [listens] are the answers of the publisher
   and of the TCP server; the telemetry thread is not modelled *)
Definition start (path : JournalPath) (multicast_starts listens : bool) (s : t) : bool * t :=
  let '(recovered, s) :=
    if Lifecycle.recovery_completed_ (lifecycle_ s) then (true, s)
    else let '(ok, s) := recover_from_journal path s in
         (ok, if ok then set_recovery_completed s else s) in
  if negb recovered then (false, s)
  else
    let '(opened, s) :=
      match path, journal_ s with
      | NoJournal, _ | _, Some _ => (true, s)
      | _, None => match open_journal path with
                   | Some file => (true, set_journal (Some file) s)
                   | None => (false, s)
                   end
      end in
    if negb opened then (false, s)
    else if Lifecycle.multicast_config_ (lifecycle_ s) && negb (multicast_publisher_ s) &&
            negb multicast_starts
    then (false, s)
    else
      let s := if Lifecycle.multicast_config_ (lifecycle_ s) then set_publisher true s else s in
      if negb listens then (false, set_publisher false s)
      else (true, set_running true s).

(* stop, after the client threads have seen their sockets closed; the journal
   is already flushed *)
Definition stop (s : t) : t := set_publisher false (set_running false s).

Module Session.
(* the two locals of handle_client *)
Record t : Type := mk { receive_buffer : list byte; trade_buffer : TradeBuffer.t }.
Definition new : t := mk [] (TradeBuffer.new default_capacity).
End Session.

Record System : Type := mkSystem {
  exchange : t;
  sessions : gmap Z Session.t     (* a client thread for every socket *)
}.

Inductive Event : Type :=
  | Connect (client_socket : Z)                    (* run accepts a connection *)
  | Receive (client_socket : Z) (bytes : list byte)  (* receive_from returns *)
  | KillSwitch (enabled : bool).                    (* set_global_kill_switch *)

Section run.
Context (io : list byte → list byte → option nat).
Context (elapsed : t → Z).
Context (set_order : list OrderId → list OrderId).

(* one turn of handle_client; no bytes is the end of the connection *)
Definition receive (client_socket : Z) (bytes : list byte) : M System unit :=
  λ y,
    match sessions y !! client_socket with
    | None => (Ok tt, y)
    | Some session =>
        match bytes with
        | [] => (Ok tt, mkSystem (unregister_client client_socket (exchange y))
                          (delete client_socket (sessions y)))
        | _ =>
            let '(r, (s, trade_buffer)) :=
              process_receive_buffer io elapsed set_order client_socket
                (Session.receive_buffer session ++ bytes)
                (exchange y, Session.trade_buffer session) in
            match r with
            | Ok receive_buffer =>
                (Ok tt, mkSystem s
                   (<[client_socket := Session.mk receive_buffer trade_buffer]> (sessions y)))
            | Throw e => (Throw e, mkSystem s (sessions y))
            end
        end
    end.

Definition handle_event (event : Event) : M System unit :=
  match event with
  | Connect client_socket =>
      modify (λ y, mkSystem (register_client client_socket (exchange y))
                     (<[client_socket := Session.new]> (sessions y)))
  | Receive client_socket bytes => receive client_socket bytes
  | KillSwitch enabled =>
      modify (λ y, mkSystem (set_global_kill_switch enabled (exchange y)) (sessions y))
  end.

(* an exception that escapes a client thread ends the process: the result and
   the state at that point *)
Definition run (events : list Event) : M System unit := for_each events handle_event.

End run.

End ExchangeServer.
