(* ===== verification/ServerDemo.v ===== *)
(** * A concrete server

    Two clients trade in one symbol on a journaled server; the witnesses of the
    server theorems evaluate its states. *)
From S2P Require Import Prelude Types TradeBuffer OrderBook RiskEngine Bytes Protocol PerformanceMetrics ExchangeServer.
Open Scope Z_scope.

Module ServerDemo.
Import ExchangeServer.

Definition header (type : Z) (body : list byte) : list byte :=
  Protocol.encode_header (message_header type body 7).

Definition header_of (type : Z) (body : list byte) : Protocol.MessageHeader.t :=
  message_header type body 7.

Definition new_order (order_id side price quantity : Z) : list byte :=
  let body := Protocol.encode_new_order
    (Protocol.NewOrderRequest.mk order_id 1000 price quantity side Protocol.OrderType_Limit
       Protocol.TimeInForce_GoodTillCancel Protocol.default_symbol) in
  header Protocol.MessageType.NewOrder body ++ body.

Definition cancel_body (order_id : Z) : list byte :=
  Protocol.encode_cancel_order
    (Protocol.CancelOrderRequest.mk order_id 1001 Protocol.default_symbol).
Definition cancel_order (order_id : Z) : list byte :=
  let body := cancel_body order_id in
  header Protocol.MessageType.CancelOrder body ++ body.

Definition replace_body (order_id new_price new_quantity : Z) : list byte :=
  Protocol.encode_replace_order
    (Protocol.ReplaceOrderRequest.mk order_id 1002 new_price new_quantity
       Protocol.default_symbol).
Definition replace_order (order_id new_price new_quantity : Z) : list byte :=
  let body := replace_body order_id new_price new_quantity in
  header Protocol.MessageType.ReplaceOrder body ++ body.

(* a disk that never fails, a clock that stands still, a set in insertion order *)
Definition good_disk (file record : list byte) : option nat := None.
Definition no_time (s : t) : Z := 0.
Definition set_order (l : list OrderId) : list OrderId := remove_dups l.

Definition handle (event : Event) (y : System) : res unit * System :=
  handle_event good_disk no_time set_order event y.
Definition run_all (events : list Event) (y : System) : System :=
  foldl (λ y event, (handle event y).2) y events.

(* one message of a client, on the state of a system *)
Definition message (client type : Z) (body : list byte) (y : System)
    : res unit * (t * TradeBuffer.t) :=
  handle_message good_disk no_time set_order client (header_of type body) body
    (exchange y, TradeBuffer.new default_capacity).

Definition started : t := (start Missing true true (new RiskEngine.RiskLimits.default true)).2.

(* socket 5 bids for 10 at 100, socket 6 sells 4 of them *)
Definition trading : list Event :=
  [Connect 5; Connect 6; Receive 5 (new_order 1 Protocol.Side_Buy 100 10);
   Receive 6 (new_order 2 Protocol.Side_Sell 99 4)].
Definition traded : System := run_all trading (mkSystem started ∅).

Lemma started_ok : start Missing true true (new RiskEngine.RiskLimits.default true) = (true, started).
Proof. vm_compute. reflexivity. Qed.

(* the client takes its order back *)
Definition cancelling : Event := Receive 5 (cancel_order 1).
Definition cancelled : System := (handle cancelling traded).2.

(* a disk that takes [n] bytes of the next record *)
Definition full_disk (n : nat) (file record : list byte) : option nat := Some n.
Definition torn_cancel (n : nat) : System :=
  (handle_event (full_disk n) no_time set_order cancelling traded).2.

Definition journal_file (y : System) : list byte := default [] (journal_ (exchange y)).

(* the next life of a server, on the journal the last one left *)
Definition restarted (y : System) : bool * t :=
  start (File (journal_file y)) true true (new RiskEngine.RiskLimits.default true).

End ServerDemo.
