(* ===== verification/ServerFrames.v ===== *)
(** * What the parts of a handler leave alone

    Most steps of a handler touch one thing: the risk engine, an owner, a
    counter, the output.  A relation between server states that those steps
    keep is kept by everything built from them; this file proves that once,
    for every such relation. *)
From S2P Require Import Prelude Types TradeBuffer OrderBook RiskEngine Protocol PerformanceMetrics ExchangeServer.
Open Scope Z_scope.

Module ServerFrames.
Import ExchangeServer.

(** Kept by what a handler does after it has released the engine lock. *)
Class Publishes (R : t → t → Prop) : Prop := {
  publishes_preorder :: PreOrder R;
  publishes_sequence x s : R s (set_sequence x s);
  publishes_output x s : R s (add_output x s);
  publishes_metrics x s : R s (set_metrics x s)
}.

(** Kept by the bookkeeping that follows an engine call. *)
Class Settles (R : t → t → Prop) : Prop := {
  settles_preorder :: PreOrder R;
  settles_metrics x s : R s (set_metrics x s);
  settles_risk x s : R s (set_risk x s);
  settles_owners symbol f s :
    R s (set_instruments
           (alter (λ i, InstrumentState.set_owners (f (InstrumentState.order_owners i)) i) symbol
              (instruments_ s)) s)
}.

Definition on_first (R : t → t → Prop) (st st' : t * TradeBuffer.t) : Prop := R st.1 st'.1.

#[export] Instance on_first_preorder R `{!PreOrder R} : PreOrder (on_first R).
Proof.
  split; unfold on_first; [intros st; reflexivity|].
  intros st1 st2 st3 H1 H2. by transitivity st2.1.
Qed.

#[export] Hint Extern 0 (Publishes _) => apply _ : preserves.
#[export] Hint Extern 0 (Settles _) => apply _ : preserves.

Ltac keep :=
  repeat first
    [ solve [auto 3 with preserves nocore]
    | apply preserves_bind; [apply _| |intros]
    | apply preserves_for_each; [apply _|intros]
    | apply preserves_fold_each; [apply _|intros]
    | case_match ].

Section reads.
Context (R : t → t → Prop) `{!PreOrder R}.
Abbreviation keeps := (preserves (on_first R)).

Lemma keep_server : keeps server.
Proof. intros st. unfold on_first. reflexivity. Qed.
Lemma keep_buffered : keeps buffered_trades.
Proof. intros st. unfold on_first. reflexivity. Qed.
Lemma keep_clear : keeps clear_trades.
Proof. intros st. unfold on_first. reflexivity. Qed.
Lemma keep_instrument symbol : keeps (instrument symbol).
Proof. intros [s b]. unfold instrument, on_first. simpl. by destruct (instruments_ s !! symbol). Qed.
#[local] Hint Resolve keep_instrument : preserves.
Lemma keep_find_order symbol order_id : keeps (find_order symbol order_id).
Proof. unfold find_order. keep. Qed.
#[local] Hint Resolve keep_find_order : preserves.
Lemma keep_order_exists symbol order_id : keeps (order_exists symbol order_id).
Proof. unfold order_exists. keep. Qed.
#[local] Hint Resolve keep_order_exists : preserves.
Lemma keep_filled symbol order_id incoming : keeps (filled_order symbol order_id incoming).
Proof. unfold filled_order. keep. Qed.
Lemma keep_snapshot symbol wire : keeps (snapshot_of symbol wire).
Proof. unfold snapshot_of. keep. Qed.
End reads.

#[export] Hint Resolve keep_server keep_buffered keep_clear keep_instrument keep_find_order
  keep_order_exists keep_filled keep_snapshot : preserves.

Section publishes.
Context (R : t → t → Prop) `{!Publishes R} (set_order : list OrderId → list OrderId).
Abbreviation keeps := (preserves (on_first R)).

Lemma keep_metrics f : keeps (on_metrics f).
Proof. intros [s b]. apply publishes_metrics. Qed.
Lemma keep_send_to socket message : keeps (send_to socket message).
Proof. intros [s b]. apply publishes_output. Qed.
Lemma keep_send_to_all message : keeps (send_to_all message).
Proof. intros [s b]. apply publishes_output. Qed.
Lemma keep_sequence : keeps fetch_sequence.
Proof. intros [s b]. apply publishes_sequence. Qed.
#[local] Hint Resolve keep_metrics keep_send_to keep_send_to_all keep_sequence : preserves.

Lemma keep_response socket order_id success type :
  keeps (send_order_response socket order_id success type).
Proof. unfold send_order_response. keep. Qed.
Lemma keep_reject socket order_id : keeps (reject_request socket order_id).
Proof. apply keep_response. Qed.
Lemma keep_execution socket symbol trade : keeps (send_trade_execution socket symbol trade).
Proof. unfold send_trade_execution. keep. Qed.
Lemma keep_book_update snapshot : keeps (broadcast_book_update snapshot).
Proof. unfold broadcast_book_update. keep. Qed.
Lemma keep_l3_add event : keeps (broadcast_level3_add_order event).
Proof. unfold broadcast_level3_add_order. keep. Qed.
Lemma keep_l3_executed event : keeps (broadcast_level3_order_executed event).
Proof. unfold broadcast_level3_order_executed. keep. Qed.
Lemma keep_l3_deleted event : keeps (broadcast_level3_order_deleted event).
Proof. unfold broadcast_level3_order_deleted. keep. Qed.
#[local] Hint Resolve keep_response keep_reject keep_execution keep_book_update keep_l3_add
  keep_l3_executed keep_l3_deleted : preserves.

Lemma keep_publish_new socket order_id wire o :
  keeps (publish_new_order set_order socket order_id wire o).
Proof.
  unfold publish_new_order, on_metrics_trades, send_execution_deliveries,
    broadcast_level3_deletions, broadcast_level3_addition. keep.
Qed.
Lemma keep_publish_replace socket order_id wire o :
  keeps (publish_replace_order set_order socket order_id wire o).
Proof.
  unfold publish_replace_order, on_metrics_trades, send_execution_deliveries,
    broadcast_level3_deletions, broadcast_level3_addition. keep.
Qed.
End publishes.

#[export] Hint Resolve keep_metrics keep_send_to keep_send_to_all keep_sequence keep_response
  keep_reject keep_execution keep_book_update keep_l3_add keep_l3_executed keep_l3_deleted
  keep_publish_new keep_publish_replace : preserves.

Section settles.
Context (R : t → t → Prop) `{!Settles R} (elapsed : t → Z).
Abbreviation keeps := (preserves (on_first R)).

Lemma keep_risk f : keeps (on_risk f).
Proof. intros [s b]. apply settles_risk. Qed.
Lemma keep_owners symbol f : keeps (on_owners symbol f).
Proof. intros [s b]. apply settles_owners. Qed.
Lemma keep_latency : keeps (record_matching_latency elapsed).
Proof. intros [s b]. apply settles_metrics. Qed.
#[local] Hint Resolve keep_risk keep_owners : preserves.

Lemma keep_record_trades symbol wire order_id socket id :
  keeps (record_trades symbol wire order_id socket id).
Proof. unfold record_trades, record_trade. keep. Qed.
Lemma keep_remove_owners symbol order_id : keeps (remove_filled_order_owners symbol order_id).
Proof. unfold remove_filled_order_owners. keep. Qed.
#[local] Hint Resolve keep_record_trades keep_remove_owners : preserves.
Lemma keep_settle symbol wire order_id socket id otherwise :
  keeps otherwise → keeps (settle symbol wire order_id socket id otherwise).
Proof. intros Ho. unfold settle, note_resting. keep. Qed.
#[local] Hint Resolve keep_settle : preserves.
Lemma keep_settle_replacement symbol wire order_id socket id :
  keeps (settle_replacement symbol wire order_id socket id).
Proof. unfold settle_replacement. keep. Qed.
End settles.

#[export] Hint Resolve keep_risk keep_owners keep_latency keep_settle keep_settle_replacement
  : preserves.

End ServerFrames.
