(* ===== verification/ServerRecovery.v ===== *)
(** * The journal and the live books

    A journaled server and the replay of its journal agree as long as no write
    fails: after any events, any number of restarts and any other exception, the
    books recovered from the file are the books the server had. *)
From Stdlib Require Import Strings.String.
From S2P Require Import Prelude Types PriceLevel TradeBuffer BookSpec OrderBook MatchingEngine RiskEngine Bytes Protocol PerformanceMetrics Journal Replay ExchangeServer ServerDemo ServerFrames.
Open Scope Z_scope.

Module ServerRecovery.
Import ExchangeServer ServerFrames.

(** ** What replaying one message does to the books *)

Definition book_of (s : t) (symbol : string) : OrderBook.t :=
  default OrderBook.new (InstrumentState.book <$> instruments_ s !! symbol).

Definition message_of (header : Protocol.MessageHeader.t) (body : list byte) : list byte :=
  Protocol.encode_header header ++ body.

(* a header and a body as process_receive_buffer cuts them out of its buffer *)
Definition framed_message (header : Protocol.MessageHeader.t) (body : list byte) : Prop :=
  Protocol.header_valid header ∧
  Protocol.MessageHeader.body_size header = Z.of_nat (length body).

Lemma replay_record_message header body r :
  framed_message header body →
  Replay.replay_record (message_of header body) r =
  Replay.dispatch (Protocol.MessageHeader.type header) body
    (Replay.on_summary Replay.count_record r).2.
Proof.
  intros [Hh Hb]. unfold Replay.replay_record, message_of, bind, Replay.on_summary, modify.
  pose proof (Protocol.length_encode_header header) as Hl.
  rewrite take_app_length', drop_app_length' by done.
  rewrite (proj2 (Protocol.decode_header_spec _ header)) by done.
  rewrite length_app, Hl, Hb, Nat2Z.inj_add, Z.eqb_refl.
  cbn [negb]. by rewrite Nat2Z.id, firstn_all.
Qed.

Definition set_at (symbol : string) (book : OrderBook.t) (books : string → OrderBook.t)
    (symbol' : string) : OrderBook.t :=
  if decide (symbol' = symbol) then book else books symbol'.

Lemma order_book_insert r trades books summary symbol book symbol' :
  books = Replay.books_ r →
  Replay.order_book (Replay.mk trades (<[symbol := book]> books) summary) symbol' =
    set_at symbol book (Replay.order_book r) symbol'.
Proof.
  intros ->. unfold Replay.order_book, set_at. simpl. destruct (decide (symbol' = symbol)) as [->|].
  - by rewrite lookup_insert_eq.
  - by rewrite lookup_insert_ne by done.
Qed.

(** Running an engine operation on a book of the replayer. *)
Lemma on_book_books {A} symbol (m : M (OrderBook.t * TradeBuffer.t) A) r book :
  Replay.books_ r !! symbol = Some book →
  let '(x, r') := Replay.on_book symbol m r in
  x = (m (book, Replay.trade_buffer_ r)).1 ∧
  ∀ symbol', Replay.order_book r' symbol' =
    set_at symbol (m (book, Replay.trade_buffer_ r)).2.1 (Replay.order_book r) symbol'.
Proof.
  intros Hb. unfold Replay.on_book. rewrite Hb.
  destruct (m (book, Replay.trade_buffer_ r)) as [x [book' trades']].
  split; [done|]. intros symbol'. by apply order_book_insert.
Qed.

Lemma dispatch_books type body r :
  Replay.books_ (Replay.dispatch type body r).2 =
  Replay.books_ (Replay.replay_command type body r).2.
Proof. unfold Replay.dispatch. by destruct (Replay.replay_command type body r) as [[x|e] r']. Qed.

Lemma symbol_text_nonempty symbol :
  Protocol.valid_symbol symbol → String.eqb (Protocol.symbol_to_string symbol) "" = false.
Proof. intros H. apply String.eqb_neq. by apply Protocol.valid_symbol_text. Qed.

(** The books after one message: those after its command. *)
Lemma record_books header body r symbol :
  framed_message header body →
  Replay.order_book (Replay.replay_record (message_of header body) r).2 symbol =
  Replay.order_book (Replay.replay_command (Protocol.MessageHeader.type header) body
                       (Replay.on_summary Replay.count_record r).2).2 symbol.
Proof.
  intros Hm. rewrite replay_record_message by done. unfold Replay.order_book.
  by rewrite dispatch_books.
Qed.

(* what a message does to the books: it runs [m] on the book of [symbol] *)
Definition replays_as {A} (header : Protocol.MessageHeader.t) (body : list byte)
    (symbol : string) (book : OrderBook.t) (m : M (OrderBook.t * TradeBuffer.t) A) : Prop :=
  ∀ r trades, Replay.order_book r symbol = book →
    ∀ symbol', Replay.order_book (Replay.replay_record (message_of header body) r).2 symbol' =
      set_at symbol (m (book, trades)).2.1 (Replay.order_book r) symbol'.

Lemma order_of_replay request :
  Protocol.new_order_valid request → Replay.order_of request = order_of request.
Proof.
  intros (_ & _ & _ & _ & Hs & Ht & Hf & _). unfold Replay.order_of, order_of.
  f_equal.
  - by destruct Hs as [-> | ->].
  - by destruct Ht as [-> | ->].
Qed.

Lemma replays_new_order header body request book :
  framed_message header body →
  Protocol.MessageHeader.type header = Protocol.MessageType.NewOrder →
  Protocol.decode_new_order body = Some request →
  Protocol.NewOrderRequest.quantity request ≤ quantity_max →
  replays_as header body (Protocol.symbol_to_string (Protocol.NewOrderRequest.symbol request))
    book (MatchingEngine.process_order_into (order_of request)).
Proof.
  intros Hm Ht Hd Hq r trades Hb symbol'. rewrite record_books by done.
  set (symbol := Protocol.symbol_to_string _) in *. rewrite Ht. unfold Replay.replay_command.
  cbn [Z.eqb Pos.eqb Protocol.MessageType.NewOrder]. unfold Replay.replay_new_order. rewrite Hd.
  apply Protocol.decode_new_order_spec in Hd as [Hv _].
  rewrite Z.gtb_ltb, (proj2 (Z.ltb_ge _ _)) by done. fold symbol.
  assert (String.eqb symbol "" = false) as -> by apply symbol_text_nonempty, Hv.
  rewrite order_of_replay by done.
  set (r1 := (Replay.on_summary Replay.count_record r).2).
  unfold bind at 1, modify at 1.
  assert (Replay.books_ (Replay.book_for symbol r1) !! symbol = Some book) as Hb1.
  { subst book. unfold r1, Replay.order_book. simpl.
    destruct (Replay.books_ r !! symbol) eqn:E; [done|]. by rewrite lookup_insert_eq. }
  pose proof (on_book_books symbol (MatchingEngine.process_order_into (order_of request)) _ _ Hb1) as Hr.
  unfold bind. destruct (Replay.on_book _ _ _) as [x r2]. destruct Hr as [_ Hr].
  assert (∀ s', Replay.order_book (Replay.book_for symbol r1) s' = Replay.order_book r s') as Hsame.
  { intros s'. unfold Replay.order_book, r1. simpl. destruct (Replay.books_ r !! symbol) eqn:E; [done|].
    destruct (decide (s' = symbol)) as [->|]; [by rewrite lookup_insert_eq, E|].
    by rewrite lookup_insert_ne. }
  assert (∀ s', Replay.order_book r2 s' =
    set_at symbol (MatchingEngine.process_order_into (order_of request) (book, trades)).2.1
      (Replay.order_book r) s') as Hr2.
  { intros s'. rewrite Hr. unfold set_at. case_decide; [|done].
    apply MatchingEngine.process_any. }
  destruct x; [|done]. apply Hr2.
Qed.

(** An order that rests is in a book the replayer has. *)
Lemma order_book_known r symbol book order_id o :
  Replay.order_book r symbol = book → OrderBook.find_order book order_id = Ok (Some o) →
  Replay.books_ r !! symbol = Some book.
Proof.
  unfold Replay.order_book. destruct (Replay.books_ r !! symbol); [by intros <-|].
  by intros <-.
Qed.

Lemma replays_cancel header body request book o :
  framed_message header body →
  Protocol.MessageHeader.type header = Protocol.MessageType.CancelOrder →
  Protocol.decode_cancel_order body = Some request →
  OrderBook.find_order book (Protocol.CancelOrderRequest.order_id request) = Ok (Some o) →
  replays_as header body (Protocol.symbol_to_string (Protocol.CancelOrderRequest.symbol request))
    book (MatchingEngine.cancel_order (Protocol.CancelOrderRequest.order_id request)).
Proof.
  intros Hm Ht Hd Ho r trades Hb symbol'. rewrite record_books by done.
  set (symbol := Protocol.symbol_to_string _) in *. rewrite Ht. unfold Replay.replay_command.
  cbn [Z.eqb Pos.eqb Protocol.MessageType.CancelOrder Protocol.MessageType.NewOrder].
  unfold Replay.replay_cancel_order. rewrite Hd. fold symbol.
  apply Protocol.decode_cancel_order_spec in Hd as [Hv _].
  set (r1 := (Replay.on_summary Replay.count_record r).2).
  assert (Replay.books_ r1 !! symbol = Some book) as Hb1 by by eapply order_book_known.
  assert (String.eqb symbol "" = false) as Hne by apply symbol_text_nonempty, Hv.
  unfold bind at 1, get. rewrite Hne.
  rewrite bool_decide_eq_true_2 by by eexists. cbn [orb negb].
  set (m := MatchingEngine.cancel_order _). pose proof (on_book_books symbol m _ _ Hb1) as Hr.
  unfold bind. destruct (Replay.on_book _ _ _) as [x r2]. destruct Hr as [_ Hr].
  assert (Replay.order_book r2 symbol' =
    set_at symbol (m (book, trades)).2.1 (Replay.order_book r) symbol') as Hr2.
  { rewrite Hr. unfold set_at, m, MatchingEngine.cancel_order, MatchingEngine.on_book. simpl.
    by destruct (OrderBook.cancel_order _ book). }
  by destruct x as [[]|].
Qed.

Lemma replays_replace header body request book o :
  framed_message header body →
  Protocol.MessageHeader.type header = Protocol.MessageType.ReplaceOrder →
  Protocol.decode_replace_order body = Some request →
  Protocol.ReplaceOrderRequest.new_quantity request ≤ quantity_max →
  OrderBook.find_order book (Protocol.ReplaceOrderRequest.order_id request) = Ok (Some o) →
  replays_as header body (Protocol.symbol_to_string (Protocol.ReplaceOrderRequest.symbol request))
    book (MatchingEngine.replace_order_into (Protocol.ReplaceOrderRequest.order_id request)
            (Protocol.ReplaceOrderRequest.new_price request)
            (u32 (Protocol.ReplaceOrderRequest.new_quantity request))
            (Protocol.ReplaceOrderRequest.timestamp request)).
Proof.
  intros Hm Ht Hd Hq Ho r trades Hb symbol'. rewrite record_books by done.
  set (symbol := Protocol.symbol_to_string _) in *. rewrite Ht. unfold Replay.replay_command.
  cbn [Z.eqb Pos.eqb Protocol.MessageType.CancelOrder Protocol.MessageType.NewOrder
       Protocol.MessageType.ReplaceOrder].
  unfold Replay.replay_replace_order. rewrite Hd. fold symbol.
  apply Protocol.decode_replace_order_spec in Hd as [Hv _].
  rewrite Z.gtb_ltb, (proj2 (Z.ltb_ge _ _)) by done.
  set (r1 := (Replay.on_summary Replay.count_record r).2).
  assert (Replay.books_ r1 !! symbol = Some book) as Hb1 by by eapply order_book_known.
  assert (String.eqb symbol "" = false) as Hne by apply symbol_text_nonempty, Hv.
  unfold bind at 1, get. rewrite Hne.
  rewrite bool_decide_eq_true_2 by by eexists. cbn [orb negb].
  set (m := MatchingEngine.replace_order_into _ _ _ _).
  unfold Replay.replace_on_book.
  pose proof (on_book_books symbol (λ st,
    let '(x, book') := MatchingEngine.replace_order st.1 (Protocol.ReplaceOrderRequest.order_id request)
      (Protocol.ReplaceOrderRequest.new_price request)
      (u32 (Protocol.ReplaceOrderRequest.new_quantity request))
      (Protocol.ReplaceOrderRequest.timestamp request) in (x, (book', st.2))) _ _ Hb1) as Hr.
  unfold bind. destruct (Replay.on_book _ _ _) as [x r2]. destruct Hr as [_ Hr].
  assert (Replay.order_book r2 symbol' =
    set_at symbol (m (book, trades)).2.1 (Replay.order_book r) symbol') as Hr2.
  { rewrite Hr. unfold set_at. case_decide; [|done]. cbn [fst snd].
    pose proof (proj2 (MatchingEngine.replace_any (TradeBuffer.new default_capacity) trades
      (Protocol.ReplaceOrderRequest.order_id request)
      (Protocol.ReplaceOrderRequest.new_price request)
      (u32 (Protocol.ReplaceOrderRequest.new_quantity request))
      (Protocol.ReplaceOrderRequest.timestamp request) book)) as Ha.
    unfold m. rewrite <- Ha. unfold MatchingEngine.replace_order.
    by destruct (MatchingEngine.replace_order_into _ _ _ _ _) as [[] []]. }
  destruct x as [a|]; [|done]. by destruct (negb _).
Qed.

(** ** The server side *)

Definition write_failure : exn := RuntimeError "Failed to write and flush journal record".

(** The journal holds the messages [ms] and the books are what they build. *)
Record mirrors (ms : list (list byte)) (s : t) : Prop := {
  mirrors_journal : journal_ s = Some (Replay.journal_of ms);
  mirrors_sized : Forall Replay.message_sized ms;
  mirrors_books : ∀ symbol,
    Replay.order_book (Replay.apply_messages ms Replay.new) symbol = book_of s symbol
}.

(** ... or a write has failed: some bytes of one more record are in the file. *)
Record torn (s : t) : Prop := {
  torn_write : ∃ ms message n,
    journal_ s = Some (Replay.journal_of ms ++ take n (Journal.record_of message)) ∧
    Forall Replay.message_sized ms ∧ Replay.message_sized message ∧
    ∀ symbol, Replay.order_book (Replay.apply_messages ms Replay.new) symbol = book_of s symbol
}.

Definition consistent {A} (r : res A) (s : t) : Prop :=
  (∃ ms, mirrors ms s) ∨ (r = Throw write_failure ∧ torn s).

(** *** Operations that touch neither the journal nor a book *)

Definition same_market (s s' : t) : Prop :=
  journal_ s' = journal_ s ∧ ∀ symbol, book_of s' symbol = book_of s symbol.

#[export] Instance same_market_preorder : PreOrder same_market.
Proof.
  split; [by intros s|]. intros s1 s2 s3 [H1 H2] [H3 H4]. split; [congruence|].
  intros symbol. by rewrite H4.
Qed.

Lemma owners_same_market symbol f s :
  same_market s (set_instruments
    (alter (λ i, InstrumentState.set_owners (f (InstrumentState.order_owners i)) i) symbol
       (instruments_ s)) s).
Proof.
  split; [done|]. intros symbol'. unfold book_of. simpl.
  destruct (decide (symbol' = symbol)) as [->|].
  - rewrite lookup_alter_eq. by destruct (instruments_ s !! symbol).
  - by rewrite lookup_alter_ne.
Qed.

#[export] Instance same_market_publishes : Publishes same_market.
Proof. by split; [apply _|..]. Qed.
#[export] Instance same_market_settles : Settles same_market.
Proof. split; [apply _|done|done|apply owners_same_market]. Qed.

Lemma instrument_for_same_market symbol s : same_market s (instrument_for symbol s).
Proof.
  unfold instrument_for. destruct (instruments_ s !! symbol) eqn:E; [done|]. split; [done|].
  intros symbol'. unfold book_of. simpl. destruct (decide (symbol' = symbol)) as [->|].
  - by rewrite lookup_insert_eq, E.
  - by rewrite lookup_insert_ne.
Qed.

Lemma mirrors_same ms s s' : same_market s s' → mirrors ms s → mirrors ms s'.
Proof.
  intros [Hj Hb] [H1 H2 H3]. split; [congruence|done|]. intros symbol. by rewrite Hb.
Qed.

(** *** Handlers that journal what they do *)

Abbreviation quiet := (preserves (on_first same_market)).

Definition outcome_consistent {A} (x : res A * (t * TradeBuffer.t)) : Prop :=
  consistent x.1 x.2.1.

(* from a state that mirrors its journal, an operation ends in such a state or
   with a torn write *)
Definition journals {A} (m : Handler A) : Prop :=
  ∀ ms st, mirrors ms st.1 → outcome_consistent (m st).

Lemma quiet_outcome {A} (m : Handler A) ms st :
  quiet m → mirrors ms st.1 → outcome_consistent (m st).
Proof. intros Hm Hs. left. exists ms. by eapply mirrors_same; [apply Hm|]. Qed.

Lemma quiet_journals {A} (m : Handler A) : quiet m → journals m.
Proof. intros Hm ms st. by apply quiet_outcome. Qed.

Lemma consistent_Ok {A} (a : A) s : consistent (Ok a) s → ∃ ms, mirrors ms s.
Proof. by intros [?|[? _]]. Qed.

Lemma outcome_bind {A B} (m : Handler A) (k : A → Handler B) st :
  outcome_consistent (m st) → (∀ a, journals (k a)) → outcome_consistent (bind m k st).
Proof.
  intros Hm Hk. unfold bind. destruct (m st) as [[a|e] st'].
  - apply consistent_Ok in Hm as [ms Hm]. by eapply Hk.
  - destruct Hm as [Hm|[[= He] Hm]]; [by left|right]. simpl. split; [congruence|done].
Qed.

Lemma journals_bind {A B} (m : Handler A) (k : A → Handler B) :
  journals m → (∀ a, journals (k a)) → journals (bind m k).
Proof. intros Hm Hk ms st Hs. apply outcome_bind; [by eapply Hm|done]. Qed.

(** The books once [m] has run on the book of [symbol]. *)
Lemma on_engine_books {A} symbol (m : M (OrderBook.t * TradeBuffer.t) A) st i :
  instruments_ st.1 !! symbol = Some i →
  let x := on_engine symbol m st in
  x.1 = (m (InstrumentState.book i, st.2)).1 ∧ journal_ x.2.1 = journal_ st.1 ∧
  ∀ symbol', book_of x.2.1 symbol' =
    set_at symbol (m (InstrumentState.book i, st.2)).2.1 (book_of st.1) symbol'.
Proof.
  intros Hi. unfold on_engine. rewrite Hi.
  destruct (m (InstrumentState.book i, st.2)) as [x [book trades]]. simpl.
  split_and!; [done|done|]. intros symbol'. unfold book_of, set_at. simpl.
  case_decide as Hs; [subst; by rewrite lookup_insert_eq|by rewrite lookup_insert_ne].
Qed.

Lemma apply_messages_snoc ms message r :
  Replay.apply_messages (ms ++ [message]) r =
  (Replay.replay_record message (Replay.apply_messages ms r)).2.
Proof. unfold Replay.apply_messages. by rewrite foldl_app. Qed.

Lemma journal_of_snoc ms message :
  Replay.journal_of (ms ++ [message]) = Replay.journal_of ms ++ Journal.record_of message.
Proof.
  unfold Replay.journal_of. rewrite fmap_app, concat_app. simpl. by rewrite app_nil_r.
Qed.

Lemma message_sized_of header body :
  Z.of_nat (length body) ≤ 1024 → Replay.message_sized (message_of header body).
Proof.
  intros Hb. unfold Replay.message_sized, message_of, Replay.maximum_record_size.
  rewrite length_app, Protocol.length_encode_header. unfold Protocol.header_size. lia.
Qed.

Section handlers.
Context (io : list byte → list byte → option nat).
Context (elapsed : t → Z).
Context (set_order : list OrderId → list OrderId).

(* a step between the journal write and the engine call *)
Definition silent (pre : Handler unit) : Prop :=
  ∀ st, ∃ st', pre st = (Ok tt, st') ∧ instruments_ st'.1 = instruments_ st.1 ∧
    journal_ st'.1 = journal_ st.1.

(** A command whose record the disk takes is journaled, then applied. *)
Lemma transaction_written {A B} header body pre symbol (m : M (OrderBook.t * TradeBuffer.t) A)
    (k : A → Handler B) ms st i :
  mirrors ms st.1 → instruments_ st.1 !! symbol = Some i →
  Z.of_nat (length body) ≤ 1024 → silent pre →
  replays_as header body symbol (InstrumentState.book i) m → (∀ a, quiet (k a)) →
  io (Replay.journal_of ms) (Journal.record_of (message_of header body)) = None →
  mirrors (ms ++ [message_of header body])
    (bind (append_journal_record io header body)
       (λ _, bind pre (λ _, bind (on_engine symbol m) k)) st).2.1.
Proof.
  intros [Hj Hz Hb] Hi Hl Hpre Hr Hk Hio.
  pose proof (message_sized_of header body Hl) as Hsz.
  unfold bind at 1, append_journal_record. rewrite Hj. fold (message_of header body).
  rewrite Journal.append_spec, Hio by (destruct Hsz; unfold Replay.maximum_record_size in *; lia).
  set (st1 := (set_journal _ st.1, st.2)). unfold bind at 1.
  destruct (Hpre st1) as (st2 & -> & Hi2 & Hj2).
  assert (instruments_ st2.1 !! symbol = Some i) as Hi2' by (rewrite Hi2; apply Hi).
  destruct (on_engine_books symbol m st2 i Hi2') as (_ & Hj3 & Hb3).
  assert (mirrors (ms ++ [message_of header body]) (on_engine symbol m st2).2.1) as Hm.
  { split.
    - rewrite Hj3, Hj2, journal_of_snoc. done.
    - apply Forall_app; split; [done|by constructor].
    - intros symbol'. rewrite apply_messages_snoc, Hb3.
      rewrite (Hr _ st2.2). 2:{ rewrite Hb. unfold book_of. by rewrite Hi. }
      unfold set_at. case_decide; [done|]. rewrite Hb. unfold book_of. by rewrite Hi2. }
  unfold bind. destruct (on_engine symbol m st2) as [[a|e] st3]; [|done].
  eapply mirrors_same; [apply Hk|exact Hm].
Qed.

(** One whose write stops after [n] bytes is not applied. *)
Lemma transaction_failed {A} header body (k : unit → Handler A) ms st n :
  journal_ st.1 = Some (Replay.journal_of ms) → Z.of_nat (length body) ≤ 1024 →
  io (Replay.journal_of ms) (Journal.record_of (message_of header body)) = Some n →
  bind (append_journal_record io header body) k st =
    (Throw write_failure,
     (set_journal (Some (Replay.journal_of ms ++ take n (Journal.record_of (message_of header body)))) st.1, st.2)).
Proof.
  intros Hj Hl Hio. pose proof (message_sized_of header body Hl) as Hsz.
  unfold bind, append_journal_record. rewrite Hj. fold (message_of header body).
  by rewrite Journal.append_spec, Hio by (destruct Hsz; unfold Replay.maximum_record_size in *; lia).
Qed.

(** A command is journaled, then applied. *)
Lemma transaction {A B} header body pre symbol (m : M (OrderBook.t * TradeBuffer.t) A)
    (k : A → Handler B) ms st i :
  mirrors ms st.1 → instruments_ st.1 !! symbol = Some i →
  framed_message header body → Z.of_nat (length body) ≤ 1024 → silent pre →
  replays_as header body symbol (InstrumentState.book i) m → (∀ a, quiet (k a)) →
  outcome_consistent
    (bind (append_journal_record io header body)
       (λ _, bind pre (λ _, bind (on_engine symbol m) k)) st).
Proof.
  intros Hs Hi Hm Hl Hpre Hr Hk.
  destruct (io (Replay.journal_of ms) (Journal.record_of (message_of header body))) as [n|] eqn:Hio.
  - destruct Hs as [Hj Hz Hb]. rewrite (transaction_failed _ _ _ ms _ n) by done.
    right. split; [done|]. split. exists ms, (message_of header body), n.
    split_and!; [done|done|by apply message_sized_of|done].
  - left. eexists. by eapply transaction_written.
Qed.

Lemma silent_risk f : silent (on_risk f).
Proof. intros st. by eexists. Qed.

Lemma transaction_now {A B} header body symbol (m : M (OrderBook.t * TradeBuffer.t) A)
    (k : A → Handler B) ms st i :
  mirrors ms st.1 → instruments_ st.1 !! symbol = Some i →
  framed_message header body → Z.of_nat (length body) ≤ 1024 →
  replays_as header body symbol (InstrumentState.book i) m → (∀ a, quiet (k a)) →
  outcome_consistent
    (bind (append_journal_record io header body) (λ _, bind (on_engine symbol m) k) st).
Proof.
  intros Hs Hi Hm Hl Hr Hk.
  assert (silent (ret tt)) as Hret by (intros st'; by eexists).
  exact (transaction header body (ret tt) symbol m k ms st i Hs Hi Hm Hl Hret Hr Hk).
Qed.

Lemma instrument_Some symbol st i :
  instruments_ st.1 !! symbol = Some i → instrument symbol st = (Ok i, st).
Proof. intros H. unfold instrument. by rewrite H. Qed.

Lemma find_order_at symbol order_id st i :
  instruments_ st.1 !! symbol = Some i →
  find_order symbol order_id st =
    (OrderBook.find_order (InstrumentState.book i) order_id, st).
Proof. intros H. unfold find_order, bind. by rewrite (instrument_Some _ _ _ H). Qed.

Lemma new_order_journals client id request header body :
  framed_message header body →
  Protocol.MessageHeader.type header = Protocol.MessageType.NewOrder →
  Protocol.decode_new_order body = Some request →
  Protocol.NewOrderRequest.quantity request ≤ quantity_max →
  Z.of_nat (length body) ≤ 1024 →
  journals (new_order_locked io elapsed client id
    (Protocol.symbol_to_string (Protocol.NewOrderRequest.symbol request)) request header body).
Proof.
  intros Hm Ht Hd Hq Hl ms st Hs. set (symbol := Protocol.symbol_to_string _).
  unfold new_order_locked. unfold bind at 1, on_server at 1, modify at 1.
  set (st1 := (instrument_for symbol st.1, st.2)).
  assert (mirrors ms st1.1) as Hs1 by by eapply mirrors_same; [apply instrument_for_same_market|].
  assert (∃ i, instruments_ st1.1 !! symbol = Some i) as [i Hi].
  { subst st1. simpl. unfold instrument_for.
    destruct (instruments_ st.1 !! symbol) as [i|] eqn:E; [by exists i|].
    exists InstrumentState.new. apply lookup_insert_eq. }
  clearbody st1. clear Hs st. unfold order_exists. unfold bind at 1 2.
  rewrite (find_order_at _ _ _ _ Hi).
  destruct (OrderBook.find_order _ _) as [found|e]; [|by left; exists ms].
  unfold ret at 1. unfold bind at 1. rewrite (instrument_Some _ _ _ Hi).
  case_match; [by eapply quiet_outcome; [keep|]|].
  unfold bind at 1.
  assert (∃ x, (match Order.type (order_of request) with
       | Market => lift (market_reference_price (Order.side (order_of request)) (InstrumentState.book i))
       | Limit => ret None end : Handler (option Price)) st1 = (x, st1)) as [x ->]
    by (unfold lift, ret; destruct (Order.type (order_of request)); by eexists).
  destruct x as [reference|e]; [|by left; exists ms].
  unfold bind at 1, server. destruct (negb _); [by eapply quiet_outcome; [keep|]|].
  apply (transaction_now header body symbol _ _ ms st1 i); try done.
  - by apply replays_new_order.
  - intros a. keep.
Qed.

Lemma cancel_journals client id request header body :
  framed_message header body →
  Protocol.MessageHeader.type header = Protocol.MessageType.CancelOrder →
  Protocol.decode_cancel_order body = Some request →
  Z.of_nat (length body) ≤ 1024 →
  journals (cancel_order_locked io elapsed client id
    (Protocol.symbol_to_string (Protocol.CancelOrderRequest.symbol request)) request header body).
Proof.
  intros Hm Ht Hd Hl ms st Hs. set (symbol := Protocol.symbol_to_string _).
  unfold cancel_order_locked. unfold bind at 1, server, find_instrument.
  destruct (instruments_ st.1 !! symbol) as [i|] eqn:Hi; [|by left; exists ms].
  destruct (negb _); [by left; exists ms|]. unfold order_exists. unfold bind at 1 2.
  rewrite (find_order_at _ _ _ _ Hi).
  destruct (OrderBook.find_order _ _) as [[o|]|e] eqn:Ho; [|by left; exists ms..].
  unfold ret at 1. cbn [negb].
  apply (transaction_now header body symbol _ _ ms st i); try done.
  - by eapply replays_cancel.
  - intros a. keep.
Qed.

Lemma replace_journals client id request header body :
  framed_message header body →
  Protocol.MessageHeader.type header = Protocol.MessageType.ReplaceOrder →
  Protocol.decode_replace_order body = Some request →
  Protocol.ReplaceOrderRequest.new_quantity request ≤ quantity_max →
  Z.of_nat (length body) ≤ 1024 →
  journals (replace_order_locked io elapsed client id
    (Protocol.symbol_to_string (Protocol.ReplaceOrderRequest.symbol request)) request header body).
Proof.
  intros Hm Ht Hd Hq Hl ms st Hs. set (symbol := Protocol.symbol_to_string _).
  unfold replace_order_locked. unfold bind at 1, server, find_instrument.
  destruct (instruments_ st.1 !! symbol) as [i|] eqn:Hi; [|by left; exists ms].
  unfold bind at 1. rewrite (find_order_at _ _ _ _ Hi).
  destruct (OrderBook.find_order _ _) as [[o|]|e] eqn:Ho; [|by left; exists ms..].
  destruct (negb _); [by left; exists ms|].
  destruct (negb _); [by eapply quiet_outcome; [keep|]|].
  eapply (transaction header body _ symbol _ _ ms st i); try done.
  - apply silent_risk.
  - by eapply replays_replace.
  - intros a. keep.
Qed.

Lemma handle_message_journals client_socket header body :
  framed_message header body → journals (handle_message io elapsed set_order client_socket header body).
Proof.
  intros Hm. unfold handle_message.
  destruct (Z.eqb_spec (Protocol.MessageHeader.type header) Protocol.MessageType.NewOrder) as [Ht|_].
  { unfold handle_new_order. destruct (Z.eqb_spec (Protocol.MessageHeader.body_size header)
      (Z.of_nat Protocol.new_order_body_size)) as [Hl|]; cbn [negb]; [|apply quiet_journals; keep].
    destruct (Protocol.decode_new_order body) as [request|] eqn:Hd; [|apply quiet_journals; keep].
    rewrite Z.gtb_ltb. destruct (Z.ltb_spec quantity_max (Protocol.NewOrderRequest.quantity request));
      [apply quiet_journals; keep|].
    cbn zeta. destruct (String.eqb _ _); [apply quiet_journals; keep|].
    apply journals_bind; [apply quiet_journals; keep|intros s].
    apply journals_bind; [|intros o; apply quiet_journals; keep].
    apply new_order_journals; try done. destruct Hm as [_ Hm]. rewrite <- Hm, Hl.
    by vm_compute. }
  destruct (Z.eqb_spec (Protocol.MessageHeader.type header) Protocol.MessageType.CancelOrder) as [Ht|_].
  { unfold handle_cancel_order. destruct (Z.eqb_spec (Protocol.MessageHeader.body_size header)
      (Z.of_nat Protocol.cancel_order_body_size)) as [Hl|]; cbn [negb]; [|apply quiet_journals; keep].
    destruct (Protocol.decode_cancel_order body) as [request|] eqn:Hd; [|apply quiet_journals; keep].
    apply journals_bind; [apply quiet_journals; keep|intros s].
    apply journals_bind; [|intros o; apply quiet_journals; keep].
    apply cancel_journals; try done. destruct Hm as [_ Hm]. rewrite <- Hm, Hl. by vm_compute. }
  destruct (Z.eqb_spec (Protocol.MessageHeader.type header) Protocol.MessageType.ReplaceOrder) as [Ht|_];
    [|apply quiet_journals; keep].
  unfold handle_replace_order. destruct (Z.eqb_spec (Protocol.MessageHeader.body_size header)
    (Z.of_nat Protocol.replace_order_body_size)) as [Hl|]; cbn [negb]; [|apply quiet_journals; keep].
  destruct (Protocol.decode_replace_order body) as [request|] eqn:Hd; [|apply quiet_journals; keep].
  rewrite Z.gtb_ltb.
  destruct (Z.ltb_spec quantity_max (Protocol.ReplaceOrderRequest.new_quantity request));
    [apply quiet_journals; keep|].
  apply journals_bind; [apply quiet_journals; keep|intros s].
  apply journals_bind; [|intros o; apply quiet_journals; keep].
  apply replace_journals; try done. destruct Hm as [_ Hm]. rewrite <- Hm, Hl. by vm_compute.
Qed.

(** The messages cut out of a receive buffer are framed. *)
Lemma received_framed header receive_buffer :
  Protocol.decode_header (take Protocol.header_size receive_buffer) = Some header →
  (Protocol.header_size + Z.to_nat (Protocol.MessageHeader.body_size header) ≤
     length receive_buffer)%nat →
  framed_message header (take (Z.to_nat (Protocol.MessageHeader.body_size header))
    (drop Protocol.header_size receive_buffer)).
Proof.
  intros [Hh _]%Protocol.decode_header_spec Hl. split; [done|].
  destruct Hh as (_ & _ & _ & Hb & _). unfold in_u32 in Hb.
  rewrite length_take, length_drop. lia.
Qed.

Lemma process_receive_journals fuel client_socket receive_buffer :
  journals (process_receive_loop io elapsed set_order fuel client_socket receive_buffer).
Proof.
  revert receive_buffer. induction fuel as [|fuel IH]; intros receive_buffer;
    cbn [process_receive_loop]; destruct (length receive_buffer <? _)%nat;
    try (apply quiet_journals; keep; fail).
  destruct (Protocol.decode_header _) as [header|] eqn:Hh; [|apply quiet_journals; keep].
  cbn zeta. destruct (_ >? _); [apply quiet_journals; keep|].
  destruct (Nat.ltb_spec (length receive_buffer)
    (Protocol.header_size + Z.to_nat (Protocol.MessageHeader.body_size header)));
    [apply quiet_journals; keep|].
  apply journals_bind; [by apply handle_message_journals, received_framed|intros _; apply IH].
Qed.

(** Every event keeps the agreement. *)
Lemma handle_event_consistent event y ms :
  mirrors ms (exchange y) →
  let x := handle_event io elapsed set_order event y in consistent x.1 (exchange x.2).
Proof.
  intros Hs. destruct event as [socket|socket bytes|enabled]; simpl.
  - left. exists ms. by eapply mirrors_same; [|exact Hs].
  - unfold receive. destruct (sessions y !! socket) as [session|]; [|by left; exists ms].
    destruct bytes as [|b bytes]; [left; exists ms; by eapply mirrors_same; [|exact Hs]|].
    pose proof (process_receive_journals (length (Session.receive_buffer session ++ b :: bytes))
      socket (Session.receive_buffer session ++ b :: bytes) ms
      (exchange y, Session.trade_buffer session) Hs) as Hp.
    unfold process_receive_buffer, outcome_consistent in *.
    destruct (process_receive_loop _ _ _ _ _ _ _) as [[rest|e] [s trades]]; simpl in *.
    + left. by apply consistent_Ok in Hp.
    + destruct Hp as [Hp|[[= ->] Hp]]; [by left|by right].
  - left. exists ms. by eapply mirrors_same; [|exact Hs].
Qed.

End handlers.

(** ** Recovery *)

Lemma adopt_books l s symbol :
  NoDup l.*1 →
  book_of (foldl adopt_book s l) symbol =
    match (list_to_map l : gmap string OrderBook.t) !! symbol with
    | Some book => book
    | None => book_of s symbol
    end.
Proof.
  revert s. induction l as [|[k b] l IH]; intros s Hd; simpl; [by rewrite lookup_empty|].
  apply NoDup_cons in Hd as [Hk Hd]. rewrite IH by done.
  assert (book_of (adopt_book s (k, b)) symbol = if decide (symbol = k) then b else book_of s symbol)
    as Ha.
  { unfold adopt_book, set_book, book_of. simpl. unfold instrument_for.
    case_decide as Hs.
    - subst. rewrite lookup_alter_eq.
      destruct (instruments_ s !! k) as [i|] eqn:E; simpl; [by rewrite E|by rewrite lookup_insert_eq].
    - rewrite lookup_alter_ne by done. destruct (instruments_ s !! k); [done|]. simpl.
      by rewrite lookup_insert_ne. }
  destruct (decide (symbol = k)) as [->|].
  - rewrite lookup_insert_eq. cbn [fst] in Hk.
    by rewrite (not_elem_of_list_to_map_1 (M := gmap string)).
  - rewrite lookup_insert_ne by done. by destruct (_ !! symbol).
Qed.

Lemma adopt_frame l s :
  journal_ (foldl adopt_book s l) = journal_ s ∧ lifecycle_ (foldl adopt_book s l) = lifecycle_ s.
Proof.
  revert s. induction l as [|x l IH]; intros s; [done|]. simpl. destruct (IH (adopt_book s x)) as [-> ->].
  unfold adopt_book, set_book, instrument_for. by destruct (instruments_ s !! x.1).
Qed.

Lemma replay_books ms tail :
  Forall Replay.message_sized ms → (length tail < Replay.record_length_size)%nat →
  ∃ r, Replay.replay (Some (Replay.journal_of ms ++ tail)) Replay.new = (Ok true, r) ∧
    Replay.books_ r = Replay.books_ (Replay.apply_messages ms Replay.new).
Proof.
  intros Hm Ht. unfold Replay.replay. unfold bind at 1, modify at 1. unfold bind at 1.
  rewrite Replay.replay_journal, Replay.replay_short_tail by done.
  eexists. split; [reflexivity|]. by apply Replay.apply_messages_books.
Qed.

Lemma replay_torn ms message n :
  Forall Replay.message_sized ms → Replay.message_sized message →
  (Replay.record_length_size ≤ n < length (Journal.record_of message))%nat →
  ∃ r, Replay.replay (Some (Replay.journal_of ms ++ take n (Journal.record_of message))) Replay.new
    = (Ok false, r).
Proof.
  intros Hm Hmsg Hn. unfold Replay.replay. unfold bind at 1, modify at 1. unfold bind at 1.
  rewrite Replay.replay_journal, Replay.replay_torn_tail by done. by eexists.
Qed.

Lemma recover_nonempty contents s :
  contents ≠ [] →
  recover_from_journal (File contents) s =
    recover_from_replay (Some contents) (set_recovery (recovered_state true false) s).
Proof. by destruct contents. Qed.

Definition empty_server (s : t) : Prop := ∀ symbol, book_of s symbol = OrderBook.new.

(** Recovery from a journal whose last write stopped inside a length, or from
    one without such a tail. *)
Lemma recover_books ms tail s :
  Forall Replay.message_sized ms → (length tail < Replay.record_length_size)%nat →
  empty_server s →
  let '(ok, s') := recover_from_journal (File (Replay.journal_of ms ++ tail)) s in
  ok = true ∧ journal_ s' = journal_ s ∧ lifecycle_ s' = lifecycle_ s ∧
  ∀ symbol, book_of s' symbol =
    Replay.order_book (Replay.apply_messages ms Replay.new) symbol.
Proof.
  intros Hm Ht Hs. destruct (decide (Replay.journal_of ms ++ tail = [])) as [He|He].
  { rewrite He. simpl. assert (ms = []) as ->.
    { destruct ms; [done|]. apply app_eq_nil in He as [He _].
      apply (f_equal length) in He. pose proof (Replay.length_journal_of _ Hm). simpl in *. lia. }
    split_and!; [done..|]. intros symbol. apply Hs. }
  rewrite recover_nonempty by done. unfold recover_from_replay.
  destruct (replay_books ms tail Hm Ht) as (r & -> & Hr).
  destruct (adopt_frame (map_to_list (Replay.books_ r))
    (set_recovery (recovered_state true false) s)) as [Hj Hl].
  split_and!; [done|exact Hj|exact Hl|]. intros symbol.
  assert (∀ x s0, book_of (set_recovery x s0) symbol = book_of s0 symbol) as Hx by done.
  rewrite Hx, adopt_books, list_to_map_to_list by apply NoDup_fst_map_to_list.
  unfold Replay.order_book. rewrite <- Hr, Hx, Hs. by destruct (Replay.books_ r !! symbol).
Qed.

Lemma recover_torn ms message n s :
  Forall Replay.message_sized ms → Replay.message_sized message →
  (Replay.record_length_size ≤ n < length (Journal.record_of message))%nat →
  (recover_from_journal (File (Replay.journal_of ms ++ take n (Journal.record_of message))) s).1
    = false.
Proof.
  intros Hm Hmsg Hn. rewrite recover_nonempty.
  - unfold recover_from_replay. by destruct (replay_torn ms message n Hm Hmsg Hn) as [r ->].
  - intros [_ He]%app_eq_nil. apply (f_equal length) in He. rewrite length_take in He.
    unfold Replay.record_length_size in Hn. simpl in He. lia.
Qed.

Lemma journal_of_nil : Replay.journal_of [] = [].
Proof. done. Qed.

Lemma start_mirrors ms path multicast_starts listens limits multicast s :
  path = File (Replay.journal_of ms) ∨ (ms = [] ∧ path = Missing) →
  Forall Replay.message_sized ms →
  start path multicast_starts listens (new limits multicast) = (true, s) →
  mirrors ms s.
Proof.
  intros Hp Hm. unfold start. cbn [lifecycle_ new Lifecycle.recovery_completed_].
  assert (∃ s1, recover_from_journal path (new limits multicast) = (true, s1) ∧
    journal_ s1 = None ∧ (∀ symbol, book_of s1 symbol =
      Replay.order_book (Replay.apply_messages ms Replay.new) symbol)) as (s1 & -> & Hj & Hb).
  { destruct Hp as [->|[-> ->]]; [|by eexists].
    pose proof (recover_books ms [] (new limits multicast) Hm ltac:(vm_compute; lia)
      ltac:(done)) as Hr. rewrite app_nil_r in Hr.
    destruct (recover_from_journal _ _) as [ok s1]. destruct Hr as (-> & Hj & _ & Hb).
    by exists s1. }
  cbn [negb].
  assert (∃ file, open_journal path = Some file ∧ file = Replay.journal_of ms) as (file & Ho & ->).
  { destruct Hp as [->|[-> ->]]; by eexists. }
  assert ((match path, journal_ (set_recovery_completed s1) with
      | NoJournal, _ | _, Some _ => (true, set_recovery_completed s1)
      | _, None => match open_journal path with
                   | Some file => (true, set_journal (Some file) (set_recovery_completed s1))
                   | None => (false, set_recovery_completed s1)
                   end
      end) = (true, set_journal (Some (Replay.journal_of ms)) (set_recovery_completed s1))) as ->.
  { simpl. rewrite Hj. destruct Hp as [->|[-> ->]]; done. }
  cbn [negb]. destruct (_ && _); [done|].
  destruct listens; cbn [negb]; [|done]. intros [= <-].
  destruct (Lifecycle.multicast_config_ _); (split; [done|done|intros symbol; symmetry; apply Hb]).
Qed.

(** ** Every life of the server *)

(** The states of journaled servers: a first start without a journal, any
    events under any behaviour of the disk, the clock and the hash tables, and
    any number of restarts on the journal an earlier life left, whether it was
    stopped or died of an exception; only a failed journal write ends the
    chain. *)
Inductive journaled : System → Prop :=
  | journaled_first path limits multicast multicast_starts listens s :
      path = Missing ∨ path = File [] →
      start path multicast_starts listens (new limits multicast) = (true, s) →
      journaled (mkSystem s ∅)
  | journaled_event io elapsed set_order event y y' :
      journaled y → handle_event io elapsed set_order event y = (Ok tt, y') → journaled y'
  | journaled_restart io elapsed set_order event y r y' file limits multicast multicast_starts
      listens s :
      journaled y → handle_event io elapsed set_order event y = (r, y') →
      r ≠ Throw write_failure → journal_ (exchange y') = Some file →
      start (File file) multicast_starts listens (new limits multicast) = (true, s) →
      journaled (mkSystem s ∅).

Lemma journaled_mirrors y : journaled y → ∃ ms, mirrors ms (exchange y).
Proof.
  induction 1 as [path limits multicast ms ls s Hp Hs
    |io elapsed set_order event y y' _ [ms Hm] He
    |io elapsed set_order event y r y' file limits multicast mst ls s _ [ms Hm] He Hr Hj Hs].
  - exists []. eapply start_mirrors; [|constructor|exact Hs].
    destruct Hp as [->| ->]; [by right|by left].
  - pose proof (handle_event_consistent io elapsed set_order event y ms Hm) as Hc.
    rewrite He in Hc. by eapply consistent_Ok.
  - pose proof (handle_event_consistent io elapsed set_order event y ms Hm) as Hc.
    rewrite He in Hc. destruct Hc as [[ms' Hm']|[? _]]; [|done]. exists ms'.
    pose proof (mirrors_journal _ _ Hm') as Hj'. simpl in Hj'. rewrite Hj in Hj'.
    injection Hj' as ->. eapply start_mirrors; [by left|apply Hm'|exact Hs].
Qed.

(** C3. Recovery loses nothing and invents nothing, as long as no write to the
    journal fails (what a failed one leaves is in ServerTorn.v).  Whatever a
    journaled server has lived through (clients, messages, rejected and
    malformed bytes, kill switches, restarts), and whether the last event ended
    normally or with any other exception that killed the process, replaying its
    journal succeeds and rebuilds for every symbol exactly the order book the
    server had, down to the queue positions. *)
Theorem recovery_exact io elapsed set_order event y r y' :
  journaled y →
  handle_event io elapsed set_order event y = (r, y') →
  r ≠ Throw write_failure →
  ∃ file, journal_ (exchange y') = Some file ∧
    ∀ limits multicast,
      let '(ok, s) := recover_from_journal (File file) (new limits multicast) in
      ok = true ∧ ∀ symbol, book_of s symbol = book_of (exchange y') symbol.
Proof.
  intros [ms Hm]%journaled_mirrors He Hr.
  pose proof (handle_event_consistent io elapsed set_order event y ms Hm) as Hc.
  rewrite He in Hc. destruct Hc as [[ms' [Hj Hz Hb]]|[? _]]; [|done].
  exists (Replay.journal_of ms'). split; [done|]. intros limits multicast.
  pose proof (recover_books ms' [] (new limits multicast) Hz ltac:(vm_compute; lia) ltac:(done)) as Hrec.
  rewrite app_nil_r in Hrec. destruct (recover_from_journal _ _) as [ok s].
  destruct Hrec as (-> & _ & _ & Hrec). split; [done|]. intros symbol. by rewrite Hrec, Hb.
Qed.

(** ** Concrete lives *)

Lemma traded_journaled : journaled ServerDemo.traded.
Proof.
  assert (∀ events y, journaled y →
    forallb (λ n, is_ok (ServerDemo.handle (nth n events (KillSwitch false))
                           (ServerDemo.run_all (take n events) y)).1) (seq 0 (length events)) = true →
    journaled (ServerDemo.run_all events y)) as Hrun.
  { intros events. induction events as [|event events IH] using rev_ind; intros y Hy Hok; [done|].
    rewrite length_app, Nat.add_1_r, seq_S, forallb_app in Hok.
    apply andb_true_iff in Hok as [Hok Hlast]. cbn [forallb] in Hlast.
    rewrite Nat.add_0_l, app_nth2, Nat.sub_diag, take_app_length in Hlast by lia.
    rewrite andb_true_r in Hlast. cbn [nth] in Hlast.
    unfold ServerDemo.run_all. rewrite foldl_app. cbn [foldl]. fold (ServerDemo.run_all events y).
    eapply (journaled_event ServerDemo.good_disk ServerDemo.no_time ServerDemo.set_order event
              (ServerDemo.run_all events y)).
    - apply IH; [done|]. rewrite forallb_forall in Hok. apply forallb_forall. intros n Hn.
      specialize (Hok n Hn). apply in_seq in Hn. rewrite app_nth1 in Hok by lia.
      by rewrite take_app_le in Hok by lia.
    - unfold ServerDemo.handle in *. destruct (handle_event _ _ _ _ _) as [[[]|] y']; done. }
  apply Hrun; [|by vm_compute].
  eapply (journaled_first Missing); [by left|exact ServerDemo.started_ok].
Qed.

Lemma recovery_exact_witness :
  ServerDemo.handle ServerDemo.cancelling ServerDemo.traded = (Ok tt, ServerDemo.cancelled) ∧
  ∃ file, journal_ (exchange ServerDemo.cancelled) = Some file ∧
    ∀ limits multicast,
      let '(ok, s) := recover_from_journal (File file) (new limits multicast) in
      ok = true ∧ ∀ symbol, book_of s symbol = book_of (exchange ServerDemo.cancelled) symbol.
Proof.
  assert (ServerDemo.handle ServerDemo.cancelling ServerDemo.traded = (Ok tt, ServerDemo.cancelled))
    as He by (vm_compute; reflexivity).
  split; [exact He|].
  exact (recovery_exact _ _ _ _ _ _ _ traded_journaled He ltac:(done)).
Defined.

End ServerRecovery.
