(* ===== verification/ServerTorn.v ===== *)
(** * What a failed journal write leaves

    A write to the journal may stop anywhere.  The server then dies with the
    exception of [Journal.append]; this file shows which message it was
    handling, what is in the file, and what the next start makes of it. *)
From Stdlib Require Import Strings.String.
From S2P Require Import Prelude Types PriceLevel TradeBuffer BookSpec OrderBook MatchingEngine RiskEngine Bytes Protocol PerformanceMetrics Journal Replay ExchangeServer ServerDemo ServerFrames ServerRecovery.
Open Scope Z_scope.

Module ServerTorn.
Import ExchangeServer ServerFrames ServerRecovery.

(** ** Only the journal reports a failed write *)

Definition harmless {A} (r : res A) : Prop := ∀ what, r ≠ Throw (RuntimeError what).
Definition spares {S A} (m : M S A) : Prop := ∀ s, harmless (m s).1.

Create HintDb spares discriminated.
#[global] Hint Constants Opaque : spares.
#[global] Hint Variables Opaque : spares.

Section spares.
Context {S : Type}.

Lemma spares_bind {A B} (m : M S A) (k : A → M S B) : spares m → (∀ a, spares (k a)) → spares (bind m k).
Proof.
  intros Hm Hk s what. specialize (Hm s what). unfold bind.
  destruct (m s) as [[a|e] s']; [apply Hk|]. cbn in *. congruence.
Qed.
Lemma spares_ret {A} (a : A) : spares (ret a : M S A).
Proof. by intros s what. Qed.
Lemma spares_get : spares (get : M S S).
Proof. by intros s what. Qed.
Lemma spares_modify (f : S → S) : spares (modify f).
Proof. by intros s what. Qed.
Lemma spares_lift {A} (r : res A) : harmless r → spares (lift r : M S A).
Proof. by intros Hr s. Qed.
Lemma spares_throw {A} e : (∀ what, e ≠ RuntimeError what) → spares (throw e : M S A).
Proof. intros He s what [= Hw]. by apply (He what). Qed.
Lemma spares_for_each {A} (l : list A) (f : A → M S unit) : (∀ x, spares (f x)) → spares (for_each l f).
Proof. intros Hf. induction l; [apply spares_ret|by apply spares_bind]. Qed.
Lemma spares_fold_each {A B} (l : list A) (f : B → A → M S B) acc :
  (∀ acc x, spares (f acc x)) → spares (fold_each l f acc).
Proof. intros Hf. revert acc. induction l; intros acc; [apply spares_ret|by apply spares_bind]. Qed.
End spares.

#[export] Hint Resolve spares_ret spares_get spares_modify : spares.

(* a result that is computed by cases *)
Ltac harmless := unfold harmless; intros; unfold res_bind; repeat (case_match; try discriminate); congruence.

Ltac spare :=
  repeat first
    [ solve [auto 3 with spares nocore]
    | apply spares_bind; [|intros]
    | apply spares_for_each; intros
    | apply spares_fold_each; intros
    | apply spares_throw; discriminate
    | apply spares_lift; harmless
    | case_match ].

(** *** The engine *)

Lemma harmless_can_match s incoming book : harmless (MatchingEngine.can_match s incoming book).
Proof.
  destruct s; unfold MatchingEngine.can_match, MatchingEngine.buy_can_match, MatchingEngine.sell_can_match,
    OrderBook.best_ask, OrderBook.best_bid, OrderBook.best, OrderBook.no_levels; harmless.
Qed.

Lemma harmless_find_order book order_id : harmless (OrderBook.find_order book order_id).
Proof. unfold OrderBook.find_order, OrderBook.deref. harmless. Qed.

Lemma spares_book_add order : spares (OrderBook.add_order order).
Proof. unfold OrderBook.add_order, PriceLevel.add_order. spare. Qed.

Lemma spares_extract order_id : spares (OrderBook.extract_order order_id).
Proof. unfold OrderBook.extract_order, OrderBook.deref, OrderBook.inconsistent, PriceLevel.erase. spare. Qed.
#[local] Hint Resolve spares_book_add spares_extract : spares.

Section engine.
Context {B : Type} `{!TradeSink B}.

Lemma spares_on_book {A} (m : M OrderBook.t A) : spares m → spares (MatchingEngine.on_book (B := B) m).
Proof. intros Hm [book trades] what. specialize (Hm book what). unfold MatchingEngine.on_book. cbn. by destruct (m book). Qed.
Lemma spares_on_trades f : spares (MatchingEngine.on_trades (B := B) f).
Proof. by intros st what. Qed.
#[local] Hint Resolve spares_on_book spares_on_trades : spares.

Lemma spares_match_loop s fuel incoming : spares (MatchingEngine.match_loop (B := B) s fuel incoming).
Proof.
  revert incoming. induction fuel as [|fuel IH]; intros incoming; cbn [MatchingEngine.match_loop].
  all: apply spares_bind; [spare|intros st]; apply spares_bind;
    [apply spares_lift; destruct (0 <? _); [apply harmless_can_match|done]|intros []; [|spare]].
  - spare.
  - apply spares_bind; [|intros; apply IH]. unfold MatchingEngine.match_step, OrderBook.best, OrderBook.no_levels,
      PriceLevel.front, PriceLevel.fill_front. spare.
Qed.
#[local] Hint Resolve spares_match_loop : spares.

Lemma spares_process incoming : spares (MatchingEngine.process_order_into (B := B) incoming).
Proof.
  unfold MatchingEngine.process_order_into, MatchingEngine.validate_incoming, MatchingEngine.match_buy,
    MatchingEngine.match_sell, MatchingEngine.match_side. spare.
Qed.
#[local] Hint Resolve spares_process : spares.

Lemma spares_cancel order_id : spares (MatchingEngine.cancel_order (B := B) order_id).
Proof. unfold MatchingEngine.cancel_order, OrderBook.cancel_order. spare. apply spares_on_book. spare. Qed.

Lemma spares_replace order_id price quantity timestamp :
  spares (MatchingEngine.replace_order_into (B := B) order_id price quantity timestamp).
Proof. unfold MatchingEngine.replace_order_into. spare. Qed.
End engine.
#[local] Hint Resolve spares_process spares_cancel spares_replace : spares.

(** *** The handlers *)

Lemma harmless_snapshot symbol book : harmless (capture_book_snapshot symbol book).
Proof.
  unfold capture_book_snapshot, OrderBook.best_bid, OrderBook.best_bid_level, OrderBook.best_ask,
    OrderBook.best_ask_level, OrderBook.best, OrderBook.no_levels. harmless.
Qed.

Lemma harmless_reference side book : harmless (market_reference_price side book).
Proof.
  unfold market_reference_price, OrderBook.best_bid, OrderBook.best_ask, OrderBook.best, OrderBook.no_levels. harmless.
Qed.

Lemma harmless_vector trades : harmless (TradeBuffer.to_vector trades).
Proof.
  unfold TradeBuffer.to_vector. generalize 0%nat as i. generalize (TradeBuffer.size trades) as n.
  intros n. induction n as [|n IH]; intros i what; cbn [TradeBuffer.iterate]; [done|].
  destruct (TradeBuffer.index trades i); [|done]. specialize (IH (S i) what).
  destruct (TradeBuffer.iterate trades (S i) n); cbn in *; congruence.
Qed.

Lemma spares_server_get : spares server.
Proof. by intros st what. Qed.
Lemma spares_on_server f : spares (on_server f).
Proof. by intros st what. Qed.
Lemma spares_clear : spares clear_trades.
Proof. by intros st what. Qed.
Lemma spares_buffered : spares buffered_trades.
Proof. intros st. apply harmless_vector. Qed.
Lemma spares_instrument symbol : spares (instrument symbol).
Proof. intros st what. unfold instrument. by case_match. Qed.
Lemma spares_sequence : spares fetch_sequence.
Proof. by intros st what. Qed.
Lemma spares_on_engine {A} symbol (m : M (OrderBook.t * TradeBuffer.t) A) : spares m → spares (on_engine symbol m).
Proof.
  intros Hm st what. unfold on_engine. case_match; [|done]. specialize (Hm (InstrumentState.book t0, st.2) what).
  by destruct (m _) as [x [book trades]].
Qed.
#[local] Hint Resolve spares_server_get spares_on_server spares_clear spares_buffered spares_instrument spares_sequence
  spares_on_engine : spares.

Lemma spares_find symbol order_id : spares (find_order symbol order_id).
Proof. unfold find_order. spare. apply spares_lift, harmless_find_order. Qed.
#[local] Hint Resolve spares_find : spares.
Lemma spares_exists symbol order_id : spares (order_exists symbol order_id).
Proof. unfold order_exists. spare. Qed.
#[local] Hint Resolve spares_exists : spares.
Lemma spares_snapshot symbol wire : spares (snapshot_of symbol wire).
Proof. unfold snapshot_of. spare. apply spares_lift, harmless_snapshot. Qed.
#[local] Hint Resolve spares_snapshot : spares.

Lemma spares_response socket order_id success type : spares (send_order_response socket order_id success type).
Proof. unfold send_order_response, send_to. spare. Qed.
#[local] Hint Resolve spares_response : spares.
Lemma spares_reject socket order_id : spares (reject_request socket order_id).
Proof. apply spares_response. Qed.
#[local] Hint Resolve spares_reject : spares.

Lemma spares_settle symbol wire order_id socket id otherwise :
  spares otherwise → spares (settle symbol wire order_id socket id otherwise).
Proof.
  intros Ho. unfold settle, record_trades, record_trade, remove_filled_order_owners, note_resting, filled_order,
    on_risk, on_owners. spare.
Qed.

Section publish.
Context (set_order : list OrderId → list OrderId).

Lemma spares_publish_new socket order_id wire o : spares (publish_new_order set_order socket order_id wire o).
Proof.
  unfold publish_new_order, on_metrics_trades, on_metrics, send_execution_deliveries, send_trade_execution, send_to,
    broadcast_book_update, broadcast_level3_order_executed, broadcast_level3_deletions,
    broadcast_level3_order_deleted, broadcast_level3_addition, broadcast_level3_add_order, send_to_all. spare.
Qed.
Lemma spares_publish_replace socket order_id wire o : spares (publish_replace_order set_order socket order_id wire o).
Proof.
  unfold publish_replace_order, on_metrics_trades, on_metrics, send_execution_deliveries, send_trade_execution, send_to,
    broadcast_book_update, broadcast_level3_order_executed, broadcast_level3_deletions,
    broadcast_level3_order_deleted, broadcast_level3_addition, broadcast_level3_add_order, send_to_all. spare.
Qed.
End publish.
#[local] Hint Resolve spares_settle spares_publish_new spares_publish_replace : spares.

(** ** A command whose write fails *)

(* how much of a record a file takes, as in Journal.v; None: all of it *)
Abbreviation Disk := (list byte → list byte → option nat).

(* a disk that takes every write *)
Definition whole_disk : Disk := λ _ _, None.

Section handlers.
Context (io : Disk).
Context (elapsed : t → Z).
Context (set_order : list OrderId → list OrderId).

(** The write of the record of [message] stopped after [n] bytes, and nothing
    else has happened to the books or the journal. *)
Definition failed {A} (ms : list (list byte)) (message : list byte) (n : nat) (x : res A * (t * TradeBuffer.t)) : Prop :=
  io (Replay.journal_of ms) (Journal.record_of message) = Some n ∧ x.1 = Throw write_failure ∧
  journal_ x.2.1 = Some (Replay.journal_of ms ++ take n (Journal.record_of message)) ∧
  ∀ symbol, Replay.order_book (Replay.apply_messages ms Replay.new) symbol = book_of x.2.1 symbol.

(** A computation that may write the record of [message] on a disk: when the
    write fails on [io], a disk that takes it would have carried the command
    out. *)
Definition commits_at {A} (message : list byte) (ms : list (list byte)) (f : Disk → res A * (t * TradeBuffer.t)) : Prop :=
  (f io).1 = Throw write_failure →
  (∃ n, failed ms message n (f io)) ∧ mirrors (ms ++ [message]) (f whole_disk).2.1.

Definition commits {A} (message : list byte) (m : Disk → Handler A) : Prop :=
  ∀ ms st, mirrors ms st.1 → commits_at message ms (λ disk, m disk st).

Lemma commits_spares {A} message ms (m : Handler A) st : spares m → commits_at message ms (λ _, m st).
Proof. intros Hm He. by destruct (Hm st _ He). Qed.

(* what comes before the write *)
Lemma commits_after {A B} message (pre : Handler A) (k : Disk → A → Handler B) :
  spares pre → quiet pre → (∀ a, commits message (λ disk, k disk a)) → commits message (λ disk, bind pre (k disk)).
Proof.
  intros Hsp Hq Hk ms st Hm He. specialize (Hsp st). specialize (Hq st). unfold bind in *.
  destruct (pre st) as [[a|e] st']; [|cbn in He; injection He as ->; by destruct (Hsp _ eq_refl)].
  apply Hk; [by eapply mirrors_same|done].
Qed.

(* what comes after it *)
Lemma commits_before {A B} message (m : Disk → Handler A) (k : A → Handler B) :
  commits message m → (∀ a, spares (k a)) → (∀ a, quiet (k a)) → commits message (λ disk, bind (m disk) k).
Proof.
  intros Hm Hsp Hq ms st Hs He. specialize (Hm ms st Hs). unfold commits_at, bind in *.
  destruct (m io st) as [[a|e] st1] eqn:Hst; [by destruct (Hsp a st1 _ He)|]. cbn in He. injection He as ->.
  destruct (Hm eq_refl) as [(n & H1 & _ & H2) Hgood]. split; [by exists n|].
  destruct (m whole_disk st) as [[a|e] st2]; [|done]. eapply mirrors_same; [apply Hq|exact Hgood].
Qed.

Lemma commits_transaction {A B} header body pre symbol (m : M (OrderBook.t * TradeBuffer.t) A)
    (k : A → Handler B) ms st i :
  mirrors ms st.1 → instruments_ st.1 !! symbol = Some i →
  Z.of_nat (length body) ≤ 1024 → silent pre → spares pre → spares m →
  replays_as header body symbol (InstrumentState.book i) m → (∀ a, spares (k a)) → (∀ a, quiet (k a)) →
  commits_at (message_of header body) ms
    (λ disk, bind (append_journal_record disk header body) (λ _, bind pre (λ _, bind (on_engine symbol m) k)) st).
Proof.
  intros Hs Hi Hl Hpre Hspre Hsm Hr Hsk Hk He. split; [|by eapply transaction_written].
  destruct (io (Replay.journal_of ms) (Journal.record_of (message_of header body))) as [n|] eqn:Hio.
  - exists n. destruct Hs as [Hj Hz Hb]. rewrite (transaction_failed _ _ _ _ ms _ n) by done.
    by split_and!.
  - exfalso. pose proof (message_sized_of header body Hl) as Hsz. unfold bind at 1, append_journal_record in He.
    rewrite (mirrors_journal _ _ Hs) in He. fold (message_of header body) in He.
    rewrite Journal.append_spec, Hio in He by (destruct Hsz; unfold Replay.maximum_record_size in *; lia).
    revert He. apply spares_bind; [done|intros _]. apply spares_bind; [by apply spares_on_engine|done].
Qed.

(* without a step in between *)
Lemma commits_now {A B} header body symbol (m : M (OrderBook.t * TradeBuffer.t) A) (k : A → Handler B) ms st i :
  mirrors ms st.1 → instruments_ st.1 !! symbol = Some i →
  Z.of_nat (length body) ≤ 1024 → spares m →
  replays_as header body symbol (InstrumentState.book i) m → (∀ a, spares (k a)) → (∀ a, quiet (k a)) →
  commits_at (message_of header body) ms
    (λ disk, bind (append_journal_record disk header body) (λ _, bind (on_engine symbol m) k) st).
Proof.
  intros Hs Hi Hl Hsm Hr Hsk Hk. apply (commits_transaction header body (ret tt) symbol m k ms st i); try done.
  intros st'. by eexists.
Qed.

Lemma new_order_commits client id request header body :
  framed_message header body →
  Protocol.MessageHeader.type header = Protocol.MessageType.NewOrder →
  Protocol.decode_new_order body = Some request →
  Protocol.NewOrderRequest.quantity request ≤ quantity_max →
  Z.of_nat (length body) ≤ 1024 →
  commits (message_of header body) (λ disk, new_order_locked disk elapsed client id
    (Protocol.symbol_to_string (Protocol.NewOrderRequest.symbol request)) request header body).
Proof.
  intros Hm Ht Hd Hq Hl. set (symbol := Protocol.symbol_to_string _). unfold new_order_locked.
  apply commits_after; [spare|intros [s b]; apply instrument_for_same_market|intros _].
  apply commits_after; [spare|keep|intros resting].
  intros ms st Hs. unfold bind at 1, instrument. destruct (instruments_ st.1 !! symbol) as [i|] eqn:Hi; [|done].
  destruct (_ || _); [apply commits_spares; spare|].
  unfold bind at 1.
  assert (∃ x, (match Order.type (order_of request) with
       | Market => lift (market_reference_price (Order.side (order_of request)) (InstrumentState.book i))
       | Limit => ret None end : Handler (option Price)) st = (x, st) ∧ harmless x) as (x & -> & Hx).
  { destruct (Order.type _); [by eexists|]. eexists. split; [reflexivity|apply harmless_reference]. }
  destruct x as [reference|e]; [|intros [= ->]; by destruct (Hx _ eq_refl)].
  unfold bind at 1, server. destruct (negb _); [apply commits_spares; spare|].
  apply (commits_now header body symbol _ _ ms st i); try done.
  - apply spares_process.
  - by apply replays_new_order.
  - intros a. unfold record_matching_latency. spare.
  - intros a. keep.
Qed.

Lemma cancel_commits client id request header body :
  framed_message header body →
  Protocol.MessageHeader.type header = Protocol.MessageType.CancelOrder →
  Protocol.decode_cancel_order body = Some request →
  Z.of_nat (length body) ≤ 1024 →
  commits (message_of header body) (λ disk, cancel_order_locked disk elapsed client id
    (Protocol.symbol_to_string (Protocol.CancelOrderRequest.symbol request)) request header body).
Proof.
  intros Hm Ht Hd Hl ms st Hs. set (symbol := Protocol.symbol_to_string _).
  unfold cancel_order_locked. unfold bind at 1, server, find_instrument.
  destruct (instruments_ st.1 !! symbol) as [i|] eqn:Hi; [|done].
  destruct (negb _); [done|]. unfold order_exists. unfold bind at 1 2.
  rewrite (find_order_at _ _ _ _ Hi).
  destruct (OrderBook.find_order _ _) as [[o|]|e] eqn:Ho; [|done|].
  2: { intros [= ->]. by destruct (harmless_find_order _ _ _ Ho). }
  unfold ret at 1. cbn [negb].
  apply (commits_now header body symbol _ _ ms st i); try done.
  - apply spares_cancel.
  - by eapply replays_cancel.
  - intros a. unfold record_matching_latency, on_risk, on_owners. spare.
  - intros a. keep.
Qed.

Lemma replace_commits client id request header body :
  framed_message header body →
  Protocol.MessageHeader.type header = Protocol.MessageType.ReplaceOrder →
  Protocol.decode_replace_order body = Some request →
  Protocol.ReplaceOrderRequest.new_quantity request ≤ quantity_max →
  Z.of_nat (length body) ≤ 1024 →
  commits (message_of header body) (λ disk, replace_order_locked disk elapsed client id
    (Protocol.symbol_to_string (Protocol.ReplaceOrderRequest.symbol request)) request header body).
Proof.
  intros Hm Ht Hd Hq Hl ms st Hs. set (symbol := Protocol.symbol_to_string _).
  unfold replace_order_locked. unfold bind at 1, server, find_instrument.
  destruct (instruments_ st.1 !! symbol) as [i|] eqn:Hi; [|done].
  unfold bind at 1. rewrite (find_order_at _ _ _ _ Hi).
  destruct (OrderBook.find_order _ _) as [[o|]|e] eqn:Ho; [|done|].
  2: { intros [= ->]. by destruct (harmless_find_order _ _ _ Ho). }
  destruct (negb _); [done|].
  destruct (negb _); [apply commits_spares; spare|].
  eapply (commits_transaction header body _ symbol _ _ ms st i); try done.
  - apply silent_risk.
  - apply spares_replace.
  - by eapply replays_replace.
  - intros a. unfold record_matching_latency, settle_replacement, on_risk, on_owners. spare.
  - intros a. keep.
Qed.

Lemma handle_message_commits client_socket header body :
  framed_message header body →
  commits (message_of header body) (λ disk, handle_message disk elapsed set_order client_socket header body).
Proof.
  intros Hm. unfold handle_message.
  assert (∀ m : Handler unit, spares m → commits (message_of header body) (λ _, m)) as Hspare.
  { intros m Hsp ms st _. by apply commits_spares. }
  destruct (Z.eqb_spec (Protocol.MessageHeader.type header) Protocol.MessageType.NewOrder) as [Ht|_].
  { unfold handle_new_order. destruct (Z.eqb_spec (Protocol.MessageHeader.body_size header)
      (Z.of_nat Protocol.new_order_body_size)) as [Hl|]; cbn [negb]; [|apply Hspare; spare].
    destruct (Protocol.decode_new_order body) as [request|] eqn:Hd; [|apply Hspare; spare].
    rewrite Z.gtb_ltb. destruct (Z.ltb_spec quantity_max (Protocol.NewOrderRequest.quantity request));
      [apply Hspare; spare|].
    cbn zeta. destruct (String.eqb _ _); [apply Hspare; spare|].
    apply commits_after; [spare|keep|intros s]. apply commits_before; [|intros; spare|intros; keep].
    apply new_order_commits; try done. destruct Hm as [_ Hm]. rewrite <- Hm, Hl. by vm_compute. }
  destruct (Z.eqb_spec (Protocol.MessageHeader.type header) Protocol.MessageType.CancelOrder) as [Ht|_].
  { unfold handle_cancel_order. destruct (Z.eqb_spec (Protocol.MessageHeader.body_size header)
      (Z.of_nat Protocol.cancel_order_body_size)) as [Hl|]; cbn [negb]; [|apply Hspare; spare].
    destruct (Protocol.decode_cancel_order body) as [request|] eqn:Hd; [|apply Hspare; spare].
    apply commits_after; [spare|keep|intros s]. apply commits_before; [| |intros; keep].
    - apply cancel_commits; try done. destruct Hm as [_ Hm]. rewrite <- Hm, Hl. by vm_compute.
    - intros a. unfold on_metrics, broadcast_book_update, broadcast_level3_order_deleted, send_to_all. spare. }
  destruct (Z.eqb_spec (Protocol.MessageHeader.type header) Protocol.MessageType.ReplaceOrder) as [Ht|_];
    [|apply Hspare; spare].
  unfold handle_replace_order. destruct (Z.eqb_spec (Protocol.MessageHeader.body_size header)
    (Z.of_nat Protocol.replace_order_body_size)) as [Hl|]; cbn [negb]; [|apply Hspare; spare].
  destruct (Protocol.decode_replace_order body) as [request|] eqn:Hd; [|apply Hspare; spare].
  rewrite Z.gtb_ltb. destruct (Z.ltb_spec quantity_max (Protocol.ReplaceOrderRequest.new_quantity request));
    [apply Hspare; spare|].
  apply commits_after; [spare|keep|intros s]. apply commits_before; [|intros; spare|intros; keep].
  apply replace_commits; try done. destruct Hm as [_ Hm]. rewrite <- Hm, Hl. by vm_compute.
Qed.

(* the server was handling this message, with its books and its journal in
   agreement, when it died in state [s'] *)
Record dying (ms : list (list byte)) (client : Z) (header : Protocol.MessageHeader.t) (body : list byte)
    (st : t * TradeBuffer.t) (s' : t) : Prop := {
  dying_mirrors : mirrors ms st.1;
  dying_throws : (handle_message io elapsed set_order client header body st).1 = Throw write_failure;
  dying_state : (handle_message io elapsed set_order client header body st).2.1 = s';
  dying_framed : framed_message header body
}.

(** A receive loop that dies of a failed write dies in one of the messages that
    its buffer holds. *)
Lemma loop_dies fuel client buffer ms st :
  mirrors ms st.1 →
  (process_receive_loop io elapsed set_order fuel client buffer st).1 = Throw write_failure →
  ∃ ms' header body st' earlier later,
    buffer = earlier ++ message_of header body ++ later ∧
    dying ms' client header body st' (process_receive_loop io elapsed set_order fuel client buffer st).2.1.
Proof.
  revert buffer ms st. induction fuel as [|fuel IH]; intros buffer ms st Hs; cbn [process_receive_loop];
    destruct (length buffer <? _)%nat; try done.
  destruct (Protocol.decode_header _) as [header|] eqn:Hh; [|done].
  cbn zeta. destruct (_ >? _); [done|].
  destruct (Nat.ltb_spec (length buffer) (Protocol.header_size + Z.to_nat (Protocol.MessageHeader.body_size header)))
    as [|Hlen]; [done|].
  pose proof (received_framed _ _ Hh Hlen) as Hf. set (n := Z.to_nat (Protocol.MessageHeader.body_size header)) in *.
  set (body := take n (drop Protocol.header_size buffer)) in *.
  assert (buffer = message_of header body ++ drop (Protocol.header_size + n) buffer) as Hb.
  { unfold message_of, body. apply Protocol.decode_header_spec in Hh as [_ Hh].
    rewrite <- Hh, <- (assoc_L (++)), <- (drop_drop buffer), !take_drop. done. }
  pose proof (handle_message_journals io elapsed set_order client header body Hf ms st Hs) as Hj.
  unfold bind at 1 2. destruct (handle_message io elapsed set_order client header body st) as [[[]|e] st1] eqn:Hmsg.
  - intros He. apply consistent_Ok in Hj as [ms1 Hm1].
    destruct (IH _ _ _ Hm1 He) as (ms' & h' & b' & st' & earlier & later & Hd & Hdy).
    exists ms', h', b', st', (message_of header body ++ earlier), later. split; [|done].
    by rewrite Hb, Hd, (assoc_L (++)).
  - intros [= ->]. exists ms, header, body, st, [], (drop (Protocol.header_size + n) buffer). split; [done|].
    by split; rewrite ?Hmsg.
Qed.

Lemma event_dies event y y' ms :
  mirrors ms (exchange y) → handle_event io elapsed set_order event y = (Throw write_failure, y') →
  ∃ client bytes session ms' header body st earlier later,
    event = Receive client bytes ∧ sessions y !! client = Some session ∧
    Session.receive_buffer session ++ bytes = earlier ++ message_of header body ++ later ∧
    dying ms' client header body st (exchange y').
Proof.
  intros Hs He. destruct event as [client|client bytes|enabled]; [done| |done].
  cbn [handle_event] in He. unfold receive in He. destruct (sessions y !! client) as [session|] eqn:Hses; [|done].
  destruct bytes as [|b bytes]; [done|].
  pose proof (loop_dies (length (Session.receive_buffer session ++ b :: bytes)) client
    (Session.receive_buffer session ++ b :: bytes) ms (exchange y, Session.trade_buffer session) Hs) as Hd.
  unfold process_receive_buffer in He. destruct (process_receive_loop _ _ _ _ _ _ _) as [[rest|e] [s trades]]; [done|].
  injection He as -> <-. destruct (Hd eq_refl) as (ms' & header & body & st & earlier & later & Hb & Hdy).
  by exists client, (b :: bytes), session, ms', header, body, st, earlier, later.
Qed.
End handlers.

(** Recovery from a journal that ends in a part of a record. *)
Lemma torn_recovers ms message n s :
  Forall Replay.message_sized ms → Replay.message_sized message → empty_server s →
  let '(ok, s') := recover_from_journal (File (Replay.journal_of ms ++ take n (Journal.record_of message))) s in
  (ok = true ↔ (n < Replay.record_length_size)%nat ∨ (length (Journal.record_of message) ≤ n)%nat) ∧
  ((n < Replay.record_length_size)%nat →
     ∀ symbol, book_of s' symbol = Replay.order_book (Replay.apply_messages ms Replay.new) symbol) ∧
  ((length (Journal.record_of message) ≤ n)%nat →
     ∀ symbol, book_of s' symbol = Replay.order_book (Replay.apply_messages (ms ++ [message]) Replay.new) symbol).
Proof.
  intros Hz Hsz Hs. rewrite Journal.length_record_of. unfold Replay.record_length_size in *.
  destruct (decide (n < 4)%nat) as [Hlt|Hge]; [|destruct (decide (4 + length message ≤ n)%nat)].
  - pose proof (recover_books ms (take n (Journal.record_of message)) s Hz
      ltac:(rewrite length_take; unfold Replay.record_length_size; lia) Hs) as Hrec.
    destruct (recover_from_journal _ _) as [ok s']. destruct Hrec as (-> & _ & _ & Hrec).
    split_and!; [by split; [left|]|done|lia].
  - rewrite firstn_all2 by (rewrite Journal.length_record_of; lia). rewrite <- journal_of_snoc.
    pose proof (recover_books (ms ++ [message]) [] s ltac:(apply Forall_app; split; [done|by constructor])
      ltac:(vm_compute; lia) Hs) as Hrec.
    rewrite app_nil_r in Hrec. destruct (recover_from_journal _ _) as [ok s']. destruct Hrec as (-> & _ & _ & Hrec).
    split_and!; [by split; [right|]|lia|done].
  - pose proof (recover_torn ms message n s Hz Hsz
      ltac:(rewrite Journal.length_record_of; unfold Replay.record_length_size; lia)) as Hrec.
    destruct (recover_from_journal _ _) as [ok s']. simpl in Hrec. subst ok. split_and!; [|lia|lia]. split; [done|lia].
Qed.

(** C15. What a failed journal write leaves.  A journaled server dies of a failed
    write only while it handles a message of the client whose bytes came: a new
    order, cancellation or replacement that arrived whole, in a state whose
    books its journal builds.  The books are unchanged by that message, and in
    the file are the [n] bytes of its record that the disk took.  If fewer than
    four are, recovery gives the books before the message; if all are, the books
    that handling the message on a disk without failures gives; otherwise
    recovery fails and the server does not start. *)
Theorem torn_write_recovery io elapsed set_order event y y' limits multicast :
  journaled y →
  handle_event io elapsed set_order event y = (Throw write_failure, y') →
  ∃ client bytes session earlier later header body st before n,
    let message := Protocol.encode_header header ++ body in
    let record := Journal.record_of message in
    let file := before ++ take n record in
    (event = Receive client bytes ∧ sessions y !! client = Some session ∧
     Session.receive_buffer session ++ bytes = earlier ++ message ++ later) ∧
    (handle_message io elapsed set_order client header body st).1 = Throw write_failure ∧
    (handle_message io elapsed set_order client header body st).2.1 = exchange y' ∧
    journal_ st.1 = Some before ∧ (∀ symbol, book_of st.1 symbol = book_of (exchange y') symbol) ∧
    io before record = Some n ∧ journal_ (exchange y') = Some file ∧
    let '(ok, s) := recover_from_journal (File file) (new limits multicast) in
    (ok = true ↔ (n < Replay.record_length_size)%nat ∨ (length record ≤ n)%nat) ∧
    ((n < Replay.record_length_size)%nat → ∀ symbol, book_of s symbol = book_of st.1 symbol) ∧
    ((length record ≤ n)%nat → ∀ symbol, book_of s symbol =
       book_of (handle_message whole_disk elapsed set_order client header body st).2.1 symbol).
Proof.
  intros [ms0 Hm0]%journaled_mirrors He.
  destruct (event_dies io elapsed set_order event y y' ms0 Hm0 He)
    as (client & bytes & session & ms & header & body & st & earlier & later & Hev & Hses & Hbuf & [Hs Ht Hst Hf]).
  destruct (handle_message_commits io elapsed set_order client header body Hf ms st Hs Ht)
    as [(n & Hio & _ & Hj & Hb) [Hj2 Hz2 Hb2]].
  rewrite Hst in Hj, Hb. exists client, bytes, session, earlier, later, header, body, st, (Replay.journal_of ms), n.
  cbn zeta. fold (message_of header body).
  assert (Forall Replay.message_sized ms ∧ Replay.message_sized (message_of header body)) as [Hz Hsz].
  { apply Forall_app in Hz2 as [Hz Hsz]. apply Forall_cons in Hsz as [Hsz _]. by split. }
  assert (∀ symbol, book_of st.1 symbol = book_of (exchange y') symbol) as Hsame.
  { intros symbol. by rewrite <- Hb, (mirrors_books _ _ Hs). }
  do 5 (split; [done || apply Hs|]). split; [done|]. split; [done|].
  pose proof (torn_recovers ms (message_of header body) n (new limits multicast) Hz Hsz ltac:(done)) as Hrec.
  destruct (recover_from_journal _ _) as [ok s]. destruct Hrec as (Hok & Hshort & Hfull). split_and!; [done| |].
  - intros Hn symbol. by rewrite Hshort, (mirrors_books _ _ Hs).
  - intros Hn symbol. by rewrite Hfull, Hb2.
Qed.

(** ** A disk that takes two bytes *)

Lemma torn_write_recovery_witness :
  (handle_event (ServerDemo.full_disk 2) ServerDemo.no_time ServerDemo.set_order
     ServerDemo.cancelling ServerDemo.traded).1 = Throw write_failure ∧
  ∃ header body st before n,
    ServerDemo.full_disk 2 before (Journal.record_of (Protocol.encode_header header ++ body)) = Some n ∧
    (handle_message (ServerDemo.full_disk 2) ServerDemo.no_time ServerDemo.set_order 5 header body st).2.1 =
      exchange (ServerDemo.torn_cancel 2).
Proof.
  assert (handle_event (ServerDemo.full_disk 2) ServerDemo.no_time ServerDemo.set_order
    ServerDemo.cancelling ServerDemo.traded = (Throw write_failure, ServerDemo.torn_cancel 2)) as He
    by (vm_compute; reflexivity).
  split; [by rewrite He|].
  destruct (torn_write_recovery _ _ _ _ _ _ (RiskEngine.RiskLimits.default) true traded_journaled He)
    as (client & bytes & session & earlier & later & header & body & st & before & n & H).
  destruct H as ([Hev _] & _ & Hst & _ & _ & Hio & _).
  assert (client = 5) as -> by (injection Hev as <-; reflexivity).
  exists header, body, st, before, n. split; [exact Hio|exact Hst].
Defined.

(* A torn length poisons the journal.  When the last write of a life stops
    after two bytes, the next start succeeds; but it appends after those two
    bytes, and although it acknowledges a new order, the start after that
    fails: the journal that holds the order cannot be replayed. *)
Example torn_length_poisons_journal :
  let '(started_again, s) := ServerDemo.restarted (ServerDemo.torn_cancel 2) in
  let next_life := ServerDemo.run_all
    [Connect 5; Receive 5 (ServerDemo.new_order 3 Protocol.Side_Buy 90 1)] (mkSystem s ∅) in
  started_again = true ∧
  (∃ o, OrderBook.find_order (book_of (exchange next_life) "TEST") 3 = Ok (Some o)) ∧
  (ServerDemo.restarted next_life).1 = false.
Proof. vm_compute. split_and!; [done|by eexists|done]. Qed.

End ServerTorn.
