(* ===== verification/ServerSafety.v ===== *)
(** * The server never leaves the defined behaviour of its code

    The books of every instrument stay sound under every event, and no handler
    ever dereferences a dangling iterator, reads outside a buffer or loops
    without end: what can escape is one of the exceptions the code throws. *)
From Stdlib Require Import Strings.String.
From S2P Require Import Prelude Types PriceLevel TradeBuffer BookSpec OrderBook MatchingEngine RiskEngine Bytes Protocol PerformanceMetrics Journal Replay ExchangeServer ServerDemo ServerFrames.
Open Scope Z_scope.

Module ServerSafety.
Import ExchangeServer ServerFrames.
Import MatchingEngine (proper_exit, sound).

Definition books_sound (s : t) (trades : TradeBuffer.t) : Prop :=
  map_Forall (λ _ i, sound (InstrumentState.book i, trades)) (instruments_ s).

(* [known] says which instruments are there *)
Record safe_state (known : string → Prop) (st : t * TradeBuffer.t) : Prop := {
  safe_buffer : TradeBuffer.ok default_capacity st.2;
  safe_books : books_sound st.1 st.2;
  safe_known : ∀ symbol, known symbol → is_Some (instruments_ st.1 !! symbol)
}.

Definition safe {A} (known : string → Prop) (m : Handler A) : Prop :=
  ∀ st, safe_state known st → proper_exit (m st).1 ∧ safe_state known (m st).2.

Lemma safe_ret {A} known (a : A) : safe known (ret a).
Proof. by intros st Hs. Qed.

Lemma safe_bind {A B} known (m : Handler A) (k : A → Handler B) :
  safe known m → (∀ a, safe known (k a)) → safe known (bind m k).
Proof.
  intros Hm Hk st Hs. destruct (Hm st Hs) as [Hr Hs']. unfold bind.
  destruct (m st) as [[a|e] st']; [by apply Hk|done].
Qed.

Lemma safe_for_each {A} known (l : list A) f :
  (∀ x, safe known (f x)) → safe known (for_each l f).
Proof. intros Hf. induction l; [apply safe_ret|by apply safe_bind]. Qed.

Lemma safe_fold_each {A B} known (l : list A) (f : B → A → Handler B) acc :
  (∀ acc x, safe known (f acc x)) → safe known (fold_each l f acc).
Proof. intros Hf. revert acc. induction l; intros acc; [apply safe_ret|by apply safe_bind]. Qed.

Lemma safe_server known : safe known server.
Proof. by intros st Hs. Qed.

(** Steps that change neither an instrument nor the buffer. *)
Lemma safe_on_server known f :
  (∀ s, instruments_ (f s) = instruments_ s) → safe known (on_server f).
Proof.
  intros Hf [s b] [Hb Hs Hk]. split; [done|]. unfold on_server, modify in *. cbn [fst snd] in *.
  split; [done| |]; unfold books_sound; simpl; by rewrite Hf.
Qed.

Lemma safe_sequence known : safe known fetch_sequence.
Proof. by intros st [Hb Hs Hk]. Qed.

Lemma sound_other book trades trades' :
  TradeBuffer.ok default_capacity trades' → sound (book, trades) → sound (book, trades').
Proof. by intros Hok [H1 H2 H3 H4]; split. Qed.

Lemma books_sound_other s trades trades' :
  TradeBuffer.ok default_capacity trades' → books_sound s trades → books_sound s trades'.
Proof. intros Hok Hs symbol i Hi. eapply sound_other; [done|by apply (Hs symbol)]. Qed.

Lemma safe_clear known : safe known clear_trades.
Proof.
  intros [s b] [Hb Hs Hk]. split; [done|]. simpl in *.
  assert (TradeBuffer.ok default_capacity (TradeBuffer.clear b)) by by apply TradeBuffer.clear_ok.
  split; [done|by eapply books_sound_other|done].
Qed.

Lemma safe_buffered known : safe known buffered_trades.
Proof.
  intros [s b] [Hb Hs Hk]. unfold buffered_trades. simpl in *.
  by rewrite (TradeBuffer.to_vector_view default_capacity).
Qed.

Lemma safe_owners known symbol f : safe known (on_owners symbol f).
Proof.
  intros [s b] [Hb Hs Hk]. split; [done|]. unfold on_owners, on_server, modify. cbn [fst snd] in *.
  split; [done| |].
  - intros symbol' i Hi. simpl in Hi. destruct (decide (symbol' = symbol)) as [->|].
    + rewrite lookup_alter_eq in Hi. destruct (instruments_ s !! symbol) as [j|] eqn:E; [|done].
      injection Hi as <-. exact (Hs symbol j E).
    + rewrite lookup_alter_ne in Hi by done. by apply (Hs symbol').
  - intros symbol' Hs'. simpl. destruct (decide (symbol' = symbol)) as [->|].
    + rewrite lookup_alter_eq. destruct (Hk _ Hs') as [j ->]. by eexists.
    + rewrite lookup_alter_ne by done. by apply Hk.
Qed.

Create HintDb safe discriminated.
#[global] Hint Constants Opaque : safe.
#[export] Hint Resolve safe_ret safe_server safe_sequence safe_clear safe_buffered safe_owners : safe.
#[export] Hint Extern 1 (safe _ (on_server _)) => apply safe_on_server; done : safe.
#[export] Hint Extern 1 (safe _ (on_risk _)) => apply safe_on_server; done : safe.
#[export] Hint Extern 1 (safe _ (on_metrics _)) => apply safe_on_server; done : safe.
#[export] Hint Extern 1 (safe _ (send_to _ _)) => apply safe_on_server; done : safe.
#[export] Hint Extern 1 (safe _ (send_to_all _)) => apply safe_on_server; done : safe.
#[export] Hint Extern 1 (safe _ (record_matching_latency _)) => apply safe_on_server; done : safe.

Ltac prove_safe :=
  repeat first
    [ solve [auto 3 with safe nocore]
    | apply safe_bind; [|intros]
    | apply safe_for_each; intros
    | apply safe_fold_each; intros
    | case_match ].

(** ** Reading a known instrument *)

Section instrument.
Context (known : string → Prop) (symbol : string) (Hknown : known symbol).

Lemma instrument_known st :
  safe_state known st →
  ∃ i, instruments_ st.1 !! symbol = Some i ∧ instrument symbol st = (Ok i, st) ∧
    sound (InstrumentState.book i, st.2).
Proof.
  intros [Hb Hs Hk]. destruct (Hk _ Hknown) as [i Hi]. exists i. split; [done|].
  split; [unfold instrument; by rewrite Hi|by apply (Hs symbol)].
Qed.

Lemma safe_instrument : safe known (instrument symbol).
Proof. intros st Hs. by destruct (instrument_known st Hs) as (i & _ & -> & _). Qed.

Lemma find_order_Ok book trades order_id :
  sound (book, trades) → ∃ o, OrderBook.find_order book order_id = Ok o.
Proof.
  intros [Hi _ _ _]. pose proof (OrderBook.find_order_spec book order_id Hi) as H.
  destruct (OrderBook.order_locations book !! order_id); [|by destruct H as [-> _]; eexists].
  destruct H as (o & -> & _). by eexists.
Qed.

Lemma safe_find_order order_id : safe known (find_order symbol order_id).
Proof.
  intros st Hs. destruct (instrument_known st Hs) as (i & Hi & He & Hsound).
  unfold find_order, bind. rewrite He. unfold lift.
  destruct (find_order_Ok _ _ order_id Hsound) as [o ->]. done.
Qed.

Lemma capture_Ok book trades wire : sound (book, trades) → ∃ x, capture_book_snapshot wire book = Ok x.
Proof.
  intros _. unfold capture_book_snapshot, OrderBook.has_bids, OrderBook.has_asks,
    OrderBook.has_levels, OrderBook.best_bid, OrderBook.best_ask, OrderBook.best_bid_level,
    OrderBook.best_ask_level, OrderBook.best.
  destruct (OrderBook.levels Buy book), (OrderBook.levels Sell book); by eexists.
Qed.

Lemma safe_snapshot wire : safe known (snapshot_of symbol wire).
Proof.
  intros st Hs. destruct (instrument_known st Hs) as (i & Hi & He & Hsound).
  unfold snapshot_of, bind. rewrite He. unfold lift.
  destruct (capture_Ok _ _ wire Hsound) as [o ->]. done.
Qed.

Lemma reference_Ok side book : ∃ x, market_reference_price side book = Ok x.
Proof.
  unfold market_reference_price, OrderBook.has_bids, OrderBook.has_asks, OrderBook.has_levels,
    OrderBook.best_bid, OrderBook.best_ask, OrderBook.best.
  destruct side; [destruct (OrderBook.levels Sell book)|destruct (OrderBook.levels Buy book)];
    by eexists.
Qed.

Lemma safe_reference side book : safe known (lift (market_reference_price side book)).
Proof. intros st Hs. unfold lift. by destruct (reference_Ok side book) as [x ->]. Qed.

(** An engine call on a known instrument. *)
Lemma safe_engine {A} (m : M (OrderBook.t * TradeBuffer.t) A) :
  (∀ st, sound st → proper_exit (m st).1 ∧ sound (m st).2) → safe known (on_engine symbol m).
Proof.
  intros Hm st Hs. destruct (instrument_known st Hs) as (i & Hi & _ & Hsound).
  unfold on_engine. rewrite Hi. destruct (Hm _ Hsound) as [Hr Hsound'].
  destruct (m (InstrumentState.book i, st.2)) as [x [book trades]]. cbn [fst snd] in *.
  split; [done|]. pose proof (MatchingEngine.sound_trades _ Hsound') as Hok.
  destruct Hs as [Hb Hs Hk]. split; [done| |].
  - intros symbol' j Hj. simpl in Hj. destruct (decide (symbol' = symbol)) as [->|].
    + rewrite lookup_insert_eq in Hj. by injection Hj as <-.
    + rewrite lookup_insert_ne in Hj by done. eapply sound_other; [done|by apply (Hs symbol')].
  - intros symbol' Hs'. simpl. destruct (decide (symbol' = symbol)) as [->|].
    + rewrite lookup_insert_eq. by eexists.
    + rewrite lookup_insert_ne by done. by apply Hk.
Qed.
End instrument.

#[export] Hint Resolve safe_instrument safe_find_order safe_snapshot safe_reference : safe.

(** ** The handlers *)

Section handlers.
Context (io : list byte → list byte → option nat).
Context (elapsed : t → Z).
Context (set_order : list OrderId → list OrderId).

Lemma safe_journal known header body : safe known (append_journal_record io header body).
Proof.
  intros [s b] [Hb Hs Hk]. unfold append_journal_record. cbn [fst snd] in *.
  destruct (journal_ s) as [file|]; [|done].
  unfold Journal.append. destruct (_ >? _); [done|]. unfold bind, get, put, throw.
  by destruct (io _ _).
Qed.
#[local] Hint Resolve safe_journal : safe.

Lemma safe_response known socket order_id success type :
  safe known (send_order_response socket order_id success type).
Proof. unfold send_order_response. prove_safe. Qed.
Lemma safe_reject known socket order_id : safe known (reject_request socket order_id).
Proof. apply safe_response. Qed.
Lemma safe_execution known socket symbol trade : safe known (send_trade_execution socket symbol trade).
Proof. unfold send_trade_execution. prove_safe. Qed.
Lemma safe_book_update known snapshot : safe known (broadcast_book_update snapshot).
Proof. unfold broadcast_book_update. prove_safe. Qed.
Lemma safe_l3_add known event : safe known (broadcast_level3_add_order event).
Proof. unfold broadcast_level3_add_order. prove_safe. Qed.
Lemma safe_l3_executed known event : safe known (broadcast_level3_order_executed event).
Proof. unfold broadcast_level3_order_executed. prove_safe. Qed.
Lemma safe_l3_deleted known event : safe known (broadcast_level3_order_deleted event).
Proof. unfold broadcast_level3_order_deleted. prove_safe. Qed.
#[local] Hint Resolve safe_response safe_reject safe_execution safe_book_update safe_l3_add
  safe_l3_executed safe_l3_deleted : safe.

Lemma safe_publish_new known socket order_id wire o :
  safe known (publish_new_order set_order socket order_id wire o).
Proof.
  unfold publish_new_order, on_metrics_trades, send_execution_deliveries,
    broadcast_level3_deletions, broadcast_level3_addition. prove_safe.
Qed.
Lemma safe_publish_replace known socket order_id wire o :
  safe known (publish_replace_order set_order socket order_id wire o).
Proof.
  unfold publish_replace_order, on_metrics_trades, send_execution_deliveries,
    broadcast_level3_deletions, broadcast_level3_addition. prove_safe.
Qed.
#[local] Hint Resolve safe_publish_new safe_publish_replace : safe.

Section known_symbol.
Context (known : string → Prop) (symbol : string) (Hknown : known symbol).

Lemma safe_exists order_id : safe known (order_exists symbol order_id).
Proof. unfold order_exists. prove_safe. Qed.
#[local] Hint Resolve safe_exists : safe.
Lemma safe_filled order_id incoming : safe known (filled_order symbol order_id incoming).
Proof. unfold filled_order. prove_safe. Qed.
#[local] Hint Resolve safe_filled : safe.
Lemma safe_settle wire order_id socket id otherwise :
  safe known otherwise → safe known (settle symbol wire order_id socket id otherwise).
Proof.
  intros Ho. unfold settle, note_resting, record_trades, record_trade, remove_filled_order_owners.
  prove_safe.
Qed.

Lemma safe_settle_replacement wire order_id socket id :
  safe known (settle_replacement symbol wire order_id socket id).
Proof. unfold settle_replacement. apply safe_settle. prove_safe. Qed.

Lemma order_of_typed request : Protocol.new_order_valid request → order_typed (order_of request).
Proof. intros (? & ? & ? & _). split_and!; simpl; try done; apply u32_in. Qed.

Lemma safe_process order :
  order_typed order →
  safe known (on_engine symbol (MatchingEngine.process_order_into order)).
Proof.
  intros Hq. apply safe_engine; [done|]. intros st Hs.
  pose proof (MatchingEngine.process_sound order st Hs Hq) as H.
  by destruct (MatchingEngine.process_order_into order st).
Qed.

Lemma safe_engine_cancel order_id :
  safe known (on_engine symbol (MatchingEngine.cancel_order order_id)).
Proof.
  apply safe_engine; [done|]. intros st Hs.
  pose proof (MatchingEngine.engine_call_sound (MatchingEngine.Cancel order_id) st Hs I) as H.
  simpl in H. unfold bind in H. by destruct (MatchingEngine.cancel_order order_id st) as [[x|e] st'].
Qed.

Lemma safe_engine_replace order_id p q ts :
  in_i64 p → in_u32 q → in_u64 ts →
  safe known (on_engine symbol (MatchingEngine.replace_order_into order_id p q ts)).
Proof.
  intros Hp Hq Ht. apply safe_engine; [done|]. intros st Hs.
  pose proof (MatchingEngine.engine_call_sound (MatchingEngine.Replace order_id p q ts) st Hs
    (conj Hp (conj Hq Ht))) as H.
  simpl in H. unfold bind in H.
  by destruct (MatchingEngine.replace_order_into order_id p q ts st) as [[x|e] st'].
Qed.
End known_symbol.
#[local] Hint Resolve safe_exists safe_settle safe_settle_replacement safe_engine_cancel safe_engine_replace : safe.
#[local] Hint Extern 1 (safe _ (on_engine _ (MatchingEngine.process_order_into (order_of _)))) =>
  apply safe_process; [assumption|by apply order_of_typed] : safe.
#[local] Hint Extern 1 (in_u32 (u32 _)) => apply u32_in : safe.

Definition any (symbol : string) : Prop := False.

Lemma safe_forget known st : safe_state known st → safe_state any st.
Proof. by intros [H1 H2 H3]; split. Qed.

Lemma safe_learn (known : string → Prop) {A} (m : Handler A) st :
  (∀ symbol, known symbol → is_Some (instruments_ st.1 !! symbol)) → safe known m →
  safe_state any st → proper_exit (m st).1 ∧ safe_state any (m st).2.
Proof.
  intros Hk Hm [Hb Hs _]. destruct (Hm st) as [Hr Hs']; [by split|].
  split; [done|by eapply safe_forget].
Qed.

Lemma safe_new_order client id symbol request header body :
  Protocol.new_order_valid request →
  safe any (new_order_locked io elapsed client id symbol request header body).
Proof.
  intros Hv st Hs. unfold new_order_locked. unfold bind at 1, on_server, modify.
  set (st1 := (instrument_for symbol st.1, st.2)).
  assert (safe_state any st1) as Hs1.
  { destruct Hs as [Hb Hs _]. split; [done| |done]. intros symbol' i Hi.
    unfold st1, instrument_for in Hi. cbn [fst] in Hi.
    destruct (instruments_ st.1 !! symbol) eqn:E; [by apply (Hs symbol')|]. simpl in Hi.
    destruct (decide (symbol' = symbol)) as [->|].
    - rewrite lookup_insert_eq in Hi. injection Hi as <-.
      eapply sound_other; [done|apply MatchingEngine.start_sound].
    - rewrite lookup_insert_ne in Hi by done. by apply (Hs symbol'). }
  refine (safe_learn (λ s, s = symbol) _ st1 _ _ Hs1).
  - intros ? ->. unfold st1, instrument_for. cbn [fst].
    destruct (instruments_ st.1 !! symbol) eqn:E; [by eexists|].
    simpl. rewrite lookup_insert_eq. by eexists.
  - assert ((λ s, s = symbol) symbol) as Hknown by done. prove_safe.
Qed.

Lemma safe_find_instrument {A} symbol (none : Handler A) (some : InstrumentState.t → t → Handler A) :
  safe any none → (∀ i s, safe (λ s', s' = symbol) (some i s)) →
  safe any (s <- server ;; match find_instrument symbol s with
                           | None => none | Some i => some i s end).
Proof.
  intros Hn Hk st Hs. unfold bind, server, find_instrument.
  destruct (instruments_ st.1 !! symbol) as [i|] eqn:E; [|by apply Hn].
  apply (safe_learn (λ s, s = symbol)); [|apply Hk|done]. intros ? ->. by eexists.
Qed.

Lemma safe_cancel_order client id symbol request header body :
  safe any (cancel_order_locked io elapsed client id symbol request header body).
Proof.
  unfold cancel_order_locked. apply safe_find_instrument; [prove_safe|]. intros i s.
  assert ((λ s, s = symbol) symbol) as Hknown by done. prove_safe.
Qed.

Lemma safe_replace_order client id symbol request header body :
  Protocol.replace_order_valid request →
  safe any (replace_order_locked io elapsed client id symbol request header body).
Proof.
  intros (Hid & Ht & Hp & _). unfold replace_order_locked. apply safe_find_instrument; [prove_safe|]. intros i s.
  assert ((λ s, s = symbol) symbol) as Hknown by done. prove_safe.
Qed.
#[local] Hint Resolve safe_new_order safe_cancel_order safe_replace_order : safe.

Lemma safe_handle_message client_socket header body :
  safe any (handle_message io elapsed set_order client_socket header body).
Proof.
  unfold handle_message, handle_new_order, handle_cancel_order, handle_replace_order.
  pose proof (λ m, proj1 (Protocol.decode_new_order_spec body m)) as Hnew.
  pose proof (λ m, proj1 (Protocol.decode_replace_order_spec body m)) as Hreplace.
  destruct (Protocol.decode_new_order body) as [new|]; [destruct (Hnew new eq_refl) as [Hn _]|];
    (destruct (Protocol.decode_replace_order body) as [replace|];
      [destruct (Hreplace replace eq_refl) as [Hr _]|]); prove_safe.
Qed.

(** The bound on the receive loop is enough: a message takes a header at least. *)
Lemma safe_receive fuel client_socket receive_buffer :
  (length receive_buffer ≤ fuel)%nat →
  safe any (process_receive_loop io elapsed set_order fuel client_socket receive_buffer).
Proof.
  revert receive_buffer. induction fuel as [|fuel IH]; intros receive_buffer Hf;
    cbn [process_receive_loop].
  { replace (length receive_buffer) with 0%nat by lia. apply safe_ret. }
  destruct (Nat.ltb_spec (length receive_buffer) Protocol.header_size) as [|Hl]; [apply safe_ret|].
  destruct (Protocol.decode_header _) as [header|]; [|apply safe_ret].
  cbn zeta. destruct (_ >? _); [apply safe_ret|]. destruct (_ <? _)%nat; [apply safe_ret|].
  apply safe_bind; [apply safe_handle_message|intros _]. apply IH.
  rewrite length_drop. unfold Protocol.header_size in *. lia.
Qed.

(** *** Events *)

Definition empty_buffer : TradeBuffer.t := TradeBuffer.new default_capacity.

Record system_sound (y : System) : Prop := {
  system_books : books_sound (exchange y) empty_buffer;
  system_sessions : map_Forall (λ _ session,
    TradeBuffer.ok default_capacity (Session.trade_buffer session)) (sessions y)
}.

Lemma handle_event_sound event y :
  system_sound y →
  let '(r, y') := handle_event io elapsed set_order event y in
  proper_exit r ∧ system_sound y'.
Proof.
  intros [Hb Hs]. destruct event as [socket|socket bytes|enabled]; simpl.
  - split; [done|]. split; [done|]. apply map_Forall_insert_2; [apply TradeBuffer.new_ok|done].
  - unfold receive. destruct (sessions y !! socket) as [session|] eqn:E; [|done].
    destruct bytes as [|b bytes]; [split; [done|]; split; [done|by apply map_Forall_delete]|].
    set (buffer := Session.receive_buffer session ++ b :: bytes).
    pose proof (Hs _ _ E) as Hok. simpl in Hok.
    destruct (safe_receive (length buffer) socket buffer ltac:(lia)
      (exchange y, Session.trade_buffer session)) as [Hr [Hok' Hb' _]].
    { split; [done|by eapply books_sound_other|done]. }
    unfold process_receive_buffer in *.
    destruct (process_receive_loop _ _ _ _ _ _ _) as [[rest|e] [s trades]]; cbn [fst snd] in *;
      (split; [done|]); (split; [eapply books_sound_other; [apply TradeBuffer.new_ok|done]|]);
      [by apply map_Forall_insert_2|done].
  - done.
Qed.

End handlers.

(** *** Start *)

Lemma adopt_sound l s :
  books_sound s empty_buffer → Forall (λ e, sound (e.2, empty_buffer)) l →
  books_sound (foldl adopt_book s l) empty_buffer.
Proof.
  intros Hs Hl. revert s Hs. induction Hl as [|[symbol book] l Hx _ IH]; intros s Hs; [done|].
  cbn [foldl]. apply IH. intros symbol' i Hi. unfold adopt_book, set_book, instrument_for in Hi.
  cbn [fst snd] in Hi. destruct (decide (symbol' = symbol)) as [->|].
  - simpl in Hi. rewrite lookup_alter_eq in Hi.
    destruct (instruments_ s !! symbol) as [j|] eqn:E.
    + rewrite E in Hi. by injection Hi as <-.
    + simpl in Hi. rewrite lookup_insert_eq in Hi. by injection Hi as <-.
  - simpl in Hi. rewrite lookup_alter_ne in Hi by done.
    destruct (instruments_ s !! symbol) as [j|] eqn:E; [by apply (Hs symbol')|].
    simpl in Hi. rewrite lookup_insert_ne in Hi by done. by apply (Hs symbol').
Qed.

Lemma recover_replay_sound file s :
  books_sound s empty_buffer → books_sound (recover_from_replay file s).2 empty_buffer.
Proof.
  intros Hs. unfold recover_from_replay.
  pose proof (Replay.replay_good file) as Hg.
  destruct (Replay.replay file Replay.new) as [[[]|e] r]; cbn [snd] in *; [|done|done].
  assert (books_sound (foldl adopt_book s (map_to_list (Replay.books_ r))) empty_buffer) as H; [|exact H].
  apply adopt_sound; [done|]. apply Forall_forall. intros [symbol book] Hin%elem_of_map_to_list.
  eapply sound_other; [apply TradeBuffer.new_ok|]. by apply (Replay.good_books _ Hg symbol).
Qed.

Lemma recover_sound path s :
  books_sound s empty_buffer → books_sound (recover_from_journal path s).2 empty_buffer.
Proof.
  intros Hs. destruct path as [| | |[]|[]]; try done; by apply recover_replay_sound.
Qed.

Lemma server_start_sound path multicast_starts listens s :
  books_sound s empty_buffer → books_sound (start path multicast_starts listens s).2 empty_buffer.
Proof.
  intros Hs. unfold start.
  assert (∃ ok s1, (if Lifecycle.recovery_completed_ (lifecycle_ s) then (true, s)
    else let '(ok, s) := recover_from_journal path s in
         (ok, if ok then set_recovery_completed s else s)) = (ok, s1) ∧
    books_sound s1 empty_buffer) as (ok & s1 & -> & Hs1).
  { destruct (Lifecycle.recovery_completed_ _); [by eexists _, _|].
    pose proof (recover_sound path s Hs) as H.
    destruct (recover_from_journal path s) as [[] s1]; by eexists _, _. }
  destruct ok; cbn [negb]; [|done].
  assert (∃ opened s2, (match path, journal_ s1 with
      | NoJournal, _ | _, Some _ => (true, s1)
      | _, None => match open_journal path with
                   | Some file => (true, set_journal (Some file) s1)
                   | None => (false, s1)
                   end
      end) = (opened, s2) ∧ books_sound s2 empty_buffer) as (opened & s2 & -> & Hs2).
  { destruct path, (journal_ s1); by eexists _, _. }
  destruct opened; cbn [negb]; [|done]. destruct (_ && _); [done|].
  destruct (Lifecycle.multicast_config_ _), listens; done.
Qed.

(** The states of a running server: any start, any events, under any
    behaviour of the disk, the clock and the hash tables. *)
Inductive alive : System → Prop :=
  | alive_start path multicast_starts listens limits multicast s :
      start path multicast_starts listens (new limits multicast) = (true, s) →
      alive (mkSystem s ∅)
  | alive_event io elapsed set_order event y y' :
      alive y → handle_event io elapsed set_order event y = (Ok tt, y') → alive y'.

Lemma alive_sound y : alive y → system_sound y.
Proof.
  induction 1 as [path ms ls limits multicast s Hs|io elapsed set_order event y y' _ IH He].
  - split; [|by intros ???]. pose proof (server_start_sound path ms ls (new limits multicast)) as H.
    rewrite Hs in H. apply H. by intros ???.
  - pose proof (handle_event_sound io elapsed set_order event y IH) as H. rewrite He in H. apply H.
Qed.

(** C4. The server stays within defined behaviour.  In every state a running
    server can reach, from any journal and any bytes from any clients, every
    book satisfies its invariants, is uncrossed and holds only
    good-till-cancel orders with fields within the widths of their types; and whatever happens next, the handlers
    terminate, and end normally or with an exception of the code, never with
    an access outside a container or through a stale iterator. *)
Theorem server_safe io elapsed set_order event y r y' :
  alive y → handle_event io elapsed set_order event y = (r, y') →
  proper_exit r ∧
  ∀ symbol i, instruments_ (exchange y') !! symbol = Some i →
    OrderBook.inv (InstrumentState.book i) ∧
    BookSpec.uncrossed (OrderBook.abs (InstrumentState.book i)) ∧
    BookSpec.gtc (OrderBook.abs (InstrumentState.book i)) ∧
    MatchingEngine.book_typed (InstrumentState.book i).
Proof.
  intros Hy%alive_sound He.
  pose proof (handle_event_sound io elapsed set_order event y Hy) as H. rewrite He in H.
  destruct H as [Hr [Hb _]]. split; [done|]. intros symbol i Hi.
  by destruct (Hb _ _ Hi).
Qed.

(** ** The concrete server *)

Lemma traded_alive : alive ServerDemo.traded.
Proof.
  pose (y0 := mkSystem ServerDemo.started ∅).
  pose (at_ := λ n, ServerDemo.run_all (take n ServerDemo.trading) y0).
  assert (∀ n event, ServerDemo.handle event (at_ n) = (Ok tt, at_ (S n)) →
    alive (at_ n) → alive (at_ (S n))) as step.
  { intros n event He Hn. exact (alive_event _ _ _ event _ _ Hn He). }
  assert (alive (at_ 0%nat)) as H0 by (eapply alive_start; exact ServerDemo.started_ok).
  apply (step 0%nat (Connect 5)) in H0; [|vm_compute; reflexivity].
  apply (step 1%nat (Connect 6)) in H0; [|vm_compute; reflexivity].
  apply (step 2%nat (nth 2 ServerDemo.trading (Connect 0))) in H0; [|vm_compute; reflexivity].
  by apply (step 3%nat (nth 3 ServerDemo.trading (Connect 0))) in H0; [|vm_compute; reflexivity].
Qed.

Lemma server_safe_witness :
  ServerDemo.handle ServerDemo.cancelling ServerDemo.traded = (Ok tt, ServerDemo.cancelled) ∧
  size (instruments_ (exchange ServerDemo.cancelled)) = 1%nat ∧
  proper_exit (Ok tt : res unit) ∧
  ∀ symbol i, instruments_ (exchange ServerDemo.cancelled) !! symbol = Some i →
    OrderBook.inv (InstrumentState.book i) ∧
    BookSpec.uncrossed (OrderBook.abs (InstrumentState.book i)) ∧
    BookSpec.gtc (OrderBook.abs (InstrumentState.book i)) ∧
    MatchingEngine.book_typed (InstrumentState.book i).
Proof.
  assert (ServerDemo.handle ServerDemo.cancelling ServerDemo.traded = (Ok tt, ServerDemo.cancelled))
    as He by (vm_compute; reflexivity).
  split; [exact He|]. split; [by vm_compute|].
  exact (server_safe _ _ _ _ _ _ _ traded_alive He).
Defined.

End ServerSafety.
