(* ===== verification/ServerMessages.v ===== *)
(** * What the server sends

    Sequence numbers, responses and the safety of the handlers. *)
From S2P Require Import Prelude Types PriceLevel TradeBuffer BookSpec OrderBook MatchingEngine RiskEngine Bytes Protocol PerformanceMetrics Journal ExchangeServer ServerDemo ServerFrames.
Open Scope Z_scope.

Module ServerMessages.
Import ExchangeServer ServerFrames.

(** ** Sequence numbers *)

Definition numbered (n : Z) (message : list byte) : Prop :=
  ∃ header, Protocol.decode_header (take Protocol.header_size message) = Some header ∧
    Protocol.MessageHeader.sequence_number header = n.

(** [emits n out n']: the messages of [out] are numbered from [n] on, one
    number per message, whether it goes to one client or to everyone, and [n']
    is the number that comes next.  No destination gets a message twice. *)
Inductive emits : Z → list (Destination * list byte) → Z → Prop :=
  | emits_nil n : emits n [] n
  | emits_message n message destinations rest n' :
      numbered n message → NoDup destinations → emits (u64 (n + 1)) rest n' →
      emits n (((λ destination, (destination, message)) <$> destinations) ++ rest) n'.

Lemma emits_app n1 out1 n2 out2 n3 : emits n1 out1 n2 → emits n2 out2 n3 → emits n1 (out1 ++ out2) n3.
Proof. induction 1; intros H2; [done|]. rewrite <- app_assoc. constructor; auto. Qed.

Definition numbers (s s' : t) : Prop :=
  client_sockets_ s' = client_sockets_ s ∧
  (NoDup (client_sockets_ s) → in_u64 (next_sequence_number_ s) →
   in_u64 (next_sequence_number_ s') ∧
   ∃ out, output s' = output s ++ out ∧
     emits (next_sequence_number_ s) out (next_sequence_number_ s')).

#[export] Instance numbers_preorder : PreOrder numbers.
Proof.
  split.
  - intros s. split; [done|]. intros _ Hn. split; [done|]. exists [].
    rewrite app_nil_r. split; [done|constructor].
  - intros s1 s2 s3 [Hc1 H1] [Hc2 H2]. split; [congruence|]. intros Hd Hn.
    destruct (H1 Hd Hn) as (Hn2 & out1 & Ho1 & He1). rewrite <- Hc1 in Hd.
    destruct (H2 Hd Hn2) as (Hn3 & out2 & Ho2 & He2). split; [done|].
    exists (out1 ++ out2). split; [by rewrite Ho2, Ho1, app_assoc|by eapply emits_app].
Qed.

(* steps that send nothing *)
Lemma numbers_silent s s' :
  client_sockets_ s' = client_sockets_ s → output s' = output s →
  next_sequence_number_ s' = next_sequence_number_ s → numbers s s'.
Proof.
  intros Hc Ho Hn. split; [done|]. rewrite Hn, Ho. intros _ ?. split; [done|].
  exists []. rewrite app_nil_r. split; [done|constructor].
Qed.

#[export] Instance numbers_settles : Settles numbers.
Proof. split; [apply _|by intros; apply numbers_silent..]. Qed.

Lemma numbered_message type body n :
  in_u16 type → in_u64 n →
  numbered n (combine_message (Protocol.encode_header (message_header type body n)) body).
Proof.
  intros Ht Hn. exists (message_header type body n). split; [|done].
  unfold combine_message. rewrite take_app_length' by (by rewrite Protocol.length_encode_header).
  apply Protocol.decode_header_spec. split; [|done].
  unfold Protocol.header_valid, message_header. simpl. split_and!; auto. apply u32_in.
Qed.

(** Drawing a number and sending one message with it. *)
Lemma numbers_send (message : Z → list byte)
    (destinations : t → list Destination) :
  (∀ n, in_u64 n → numbered n (message n)) →
  (∀ x s, destinations (set_sequence x s) = destinations s) →
  (∀ s, NoDup (client_sockets_ s) → NoDup (destinations s)) →
  preserves (on_first numbers)
    (sequence_number <- fetch_sequence ;;
     on_server (λ s, add_output
       ((λ destination, (destination, message sequence_number)) <$> destinations s) s)).
Proof.
  intros Hm Hset Hd [s b]. unfold on_first. split; [done|]. intros Hs Hn. simpl in *.
  split; [apply u64_in|]. rewrite Hset. eexists. split; [reflexivity|].
  rewrite <- (app_nil_r (_ <$> _)). constructor; [by apply Hm|by apply Hd|constructor].
Qed.

Lemma numbers_send_to socket (message : Z → list byte) :
  (∀ n, in_u64 n → numbered n (message n)) →
  preserves (on_first numbers)
    (sequence_number <- fetch_sequence ;; send_to socket (message sequence_number)).
Proof.
  intros Hm. apply (numbers_send message (λ _, [Socket socket])); [done|done|].
  intros. apply NoDup_singleton.
Qed.

Definition everyone (s : t) : list Destination :=
  (if multicast_publisher_ s then [Multicast] else []) ++ (Socket <$> client_sockets_ s).

Lemma everyone_NoDup s : NoDup (client_sockets_ s) → NoDup (everyone s).
Proof.
  intros Hd. unfold everyone. apply NoDup_app. split_and!.
  - case_match; [apply NoDup_singleton|constructor].
  - intros x Hx. case_match; [|by apply elem_of_nil in Hx]. apply list_elem_of_singleton in Hx as ->.
    by intros (y & ? & _)%list_elem_of_fmap.
  - apply NoDup_fmap_2; [by intros ?? [=]|done].
Qed.

Lemma numbers_send_to_all (message : Z → list byte) :
  (∀ n, in_u64 n → numbered n (message n)) →
  preserves (on_first numbers)
    (sequence_number <- fetch_sequence ;; send_to_all (message sequence_number)).
Proof.
  intros Hm. pose proof (numbers_send message everyone Hm ltac:(done) everyone_NoDup) as H.
  assert (∀ (m : list byte) s, (λ destination, (destination, m)) <$> everyone s =
    (if multicast_publisher_ s then [(Multicast, m)] else []) ++
     ((λ socket, (Socket socket, m)) <$> client_sockets_ s)) as He.
  { intros m s. unfold everyone. rewrite fmap_app, <- list_fmap_compose.
    by destruct (multicast_publisher_ s). }
  intros st. specialize (H st). revert H. unfold bind, send_to_all, on_server, fetch_sequence, modify.
  cbn [fst snd]. by rewrite He.
Qed.

Ltac u16 := by vm_compute.

Section publishing.
Context (set_order : list OrderId → list OrderId).
Abbreviation keeps := (preserves (on_first numbers)).

Lemma numbers_metrics f : keeps (on_metrics f).
Proof. intros st. by apply numbers_silent. Qed.

Lemma numbers_response socket order_id success type :
  in_u16 type → keeps (send_order_response socket order_id success type).
Proof.
  intros Ht. apply (numbers_send_to socket (λ n : Z, combine_message _ _)). intros n Hn.
  apply numbered_message; [destruct success; [done|u16]|done].
Qed.

Lemma numbers_reject socket order_id : keeps (reject_request socket order_id).
Proof. apply numbers_response. u16. Qed.

Lemma numbers_execution socket symbol trade : keeps (send_trade_execution socket symbol trade).
Proof.
  unfold send_trade_execution. destruct (socket <? 0); [keep|].
  apply (numbers_send_to socket (λ n : Z, combine_message _ _)). intros n Hn.
  apply numbered_message; [u16|done].
Qed.

Lemma numbers_book_update snapshot : keeps (broadcast_book_update snapshot).
Proof.
  apply (numbers_send_to_all (λ n : Z, combine_message _ _)). intros n Hn.
  apply numbered_message; [u16|done].
Qed.
Lemma numbers_l3_add event : keeps (broadcast_level3_add_order event).
Proof.
  apply (numbers_send_to_all (λ n : Z, combine_message _ _)). intros n Hn.
  apply numbered_message; [u16|done].
Qed.
Lemma numbers_l3_executed event : keeps (broadcast_level3_order_executed event).
Proof.
  apply (numbers_send_to_all (λ n : Z, combine_message _ _)). intros n Hn.
  apply numbered_message; [u16|done].
Qed.
Lemma numbers_l3_deleted event : keeps (broadcast_level3_order_deleted event).
Proof.
  apply (numbers_send_to_all (λ n : Z, combine_message _ _)). intros n Hn.
  apply numbered_message; [u16|done].
Qed.
#[local] Hint Resolve numbers_metrics numbers_reject numbers_execution numbers_book_update
  numbers_l3_add numbers_l3_executed numbers_l3_deleted : preserves.

Lemma numbers_publish_new socket order_id wire o :
  keeps (publish_new_order set_order socket order_id wire o).
Proof.
  assert (keeps (send_order_response socket order_id (Outcome.accepted o)
    Protocol.MessageType.OrderAccepted)) by (apply numbers_response; u16).
  unfold publish_new_order, on_metrics_trades, send_execution_deliveries,
    broadcast_level3_deletions, broadcast_level3_addition. keep.
Qed.
Lemma numbers_publish_replace socket order_id wire o :
  keeps (publish_replace_order set_order socket order_id wire o).
Proof.
  assert (keeps (send_order_response socket order_id (Outcome.accepted o)
    Protocol.MessageType.OrderReplaced)) by (apply numbers_response; u16).
  unfold publish_replace_order, on_metrics_trades, send_execution_deliveries,
    broadcast_level3_deletions, broadcast_level3_addition. keep.
Qed.
End publishing.
#[local] Hint Resolve numbers_metrics numbers_reject numbers_execution numbers_book_update
  numbers_l3_add numbers_l3_executed numbers_l3_deleted numbers_publish_new
  numbers_publish_replace : preserves.

Section handlers.
Context (io : list byte → list byte → option nat).
Context (elapsed : t → Z).
Context (set_order : list OrderId → list OrderId).
Abbreviation keeps := (preserves (on_first numbers)).

Lemma numbers_instrument_for symbol : keeps (on_server (instrument_for symbol)).
Proof.
  intros [s b]. apply numbers_silent; simpl; unfold instrument_for; by case_match.
Qed.
Lemma numbers_journal header body : keeps (append_journal_record io header body).
Proof.
  intros [s b]. unfold append_journal_record, on_first. cbn [fst snd].
  destruct (journal_ s) as [file|]; [|done].
  destruct (Journal.append _ _ _) as [r file']. by apply numbers_silent.
Qed.
Lemma numbers_engine {A} symbol (m : M (OrderBook.t * TradeBuffer.t) A) :
  keeps (on_engine symbol m).
Proof.
  intros [s b]. unfold on_engine, on_first. cbn [fst snd]. destruct (instruments_ s !! symbol); [|done].
  destruct (m _) as [x [book trades]]. by apply numbers_silent.
Qed.
#[local] Hint Resolve numbers_instrument_for numbers_journal numbers_engine : preserves.

Lemma numbers_new_order client_socket header body :
  keeps (handle_new_order io elapsed set_order client_socket header body).
Proof. unfold handle_new_order, new_order_locked. keep. Qed.
Lemma numbers_cancel_order client_socket header body :
  keeps (handle_cancel_order io elapsed client_socket header body).
Proof.
  assert (∀ order_id success, keeps (send_order_response client_socket order_id success
    Protocol.MessageType.OrderCancelled)) by (intros; apply numbers_response; u16).
  unfold handle_cancel_order, cancel_order_locked. keep.
Qed.
Lemma numbers_replace_order client_socket header body :
  keeps (handle_replace_order io elapsed set_order client_socket header body).
Proof. unfold handle_replace_order, replace_order_locked. keep. Qed.
#[local] Hint Resolve numbers_new_order numbers_cancel_order numbers_replace_order : preserves.

Lemma numbers_receive fuel client_socket receive_buffer :
  keeps (process_receive_loop io elapsed set_order fuel client_socket receive_buffer).
Proof.
  revert receive_buffer. induction fuel as [|fuel IH]; intros receive_buffer;
    cbn [process_receive_loop]; [keep|].
  unfold handle_message. keep.
Qed.

(** C16. Sequence numbers have no gaps and no repeats.  Everything the server
    sends while it handles the bytes a client sent, responses, executions and
    market data together, is numbered consecutively (modulo 2^64) from the
    number it had, in the order sent; a broadcast uses one number, and no
    client gets a message twice.  This holds even when an exception ends the
    handling. *)
Theorem sequence_numbers_consecutive client_socket receive_buffer s trade_buffer r st' :
  NoDup (client_sockets_ s) → in_u64 (next_sequence_number_ s) →
  process_receive_buffer io elapsed set_order client_socket receive_buffer (s, trade_buffer)
    = (r, st') →
  ∃ out, output st'.1 = output s ++ out ∧
    emits (next_sequence_number_ s) out (next_sequence_number_ st'.1).
Proof.
  intros Hd Hn Hr.
  pose proof (numbers_receive (length receive_buffer) client_socket receive_buffer (s, trade_buffer))
    as [_ Hk].
  unfold process_receive_buffer in Hr. rewrite Hr in Hk. by apply Hk.
Qed.
End handlers.

(* socket 6 sells through the bid of socket 5: a response, two executions and
   market data to everyone *)
Definition crossing : list byte := ServerDemo.new_order 4 Protocol.Side_Sell 100 6.
Definition crossed : res (list byte) * (t * TradeBuffer.t) :=
  process_receive_buffer ServerDemo.good_disk ServerDemo.no_time ServerDemo.set_order 6 crossing
    (exchange ServerDemo.traded, TradeBuffer.new default_capacity).

Lemma sequence_numbers_consecutive_witness :
  client_sockets_ (exchange ServerDemo.traded) = [5; 6] ∧
  next_sequence_number_ (exchange ServerDemo.traded) = 9 ∧
  next_sequence_number_ crossed.2.1 = 15 ∧
  ∃ out, output crossed.2.1 = output (exchange ServerDemo.traded) ++ out ∧
    emits (next_sequence_number_ (exchange ServerDemo.traded)) out
      (next_sequence_number_ crossed.2.1).
Proof.
  split; [by vm_compute|]. split; [by vm_compute|]. split; [by vm_compute|].
  apply (sequence_numbers_consecutive ServerDemo.good_disk ServerDemo.no_time ServerDemo.set_order
    6 crossing (exchange ServerDemo.traded) (TradeBuffer.new default_capacity) crossed.1 crossed.2).
  - change (client_sockets_ (exchange ServerDemo.traded)) with [5; 6].
    repeat constructor; set_solver.
  - change (next_sequence_number_ (exchange ServerDemo.traded)) with 9. by vm_compute.
  - change (crossed = (crossed.1, crossed.2)). by destruct crossed.
Defined.

End ServerMessages.
