(* ===== verification/ServerOrders.v ===== *)
(** * Answers: what a request gets, and what a refused request does

    Every request is answered once, to the client that sent it, before anything
    else it causes is sent; a refused request has no other effect; and a
    request is accepted only from a client that has the authority for it. *)
From Stdlib Require Import Strings.String.
From S2P Require Import Prelude Types PriceLevel TradeBuffer BookSpec OrderBook MatchingEngine RiskEngine Bytes Protocol PerformanceMetrics Journal ExchangeServer ServerDemo ServerFrames ServerSafety.
Open Scope Z_scope.

Module ServerOrders.
Import ExchangeServer ServerFrames.

(** ** An order that rests can be cancelled and replaced *)

Lemma cancel_found order_id book (trades : TradeBuffer.t) o :
  OrderBook.inv book → OrderBook.find_order book order_id = Ok (Some o) →
  (MatchingEngine.cancel_order order_id (book, trades)).1 ≠ Ok false.
Proof.
  intros Hi Ho. unfold MatchingEngine.cancel_order, MatchingEngine.on_book, OrderBook.cancel_order,
    bind, ret. simpl.
  destruct (OrderBook.extract_order_cases book order_id Hi)
    as [[-> Hf]|[[-> _]|(x & book' & -> & _)]]; simpl; try done.
  unfold OrderBook.find_order in Ho. by rewrite Hf in Ho.
Qed.

Lemma replace_found order_id p q ts book (trades : TradeBuffer.t) o :
  OrderBook.inv book → OrderBook.find_order book order_id = Ok (Some o) →
  (MatchingEngine.replace_order_into order_id p q ts (book, trades)).1 ≠ Ok false.
Proof.
  intros Hi Ho. unfold MatchingEngine.replace_order_into. destruct (q =? 0); [done|].
  unfold bind, MatchingEngine.on_trades, MatchingEngine.on_book, ret. simpl.
  destruct (OrderBook.extract_order_cases book order_id Hi)
    as [[-> Hf]|[[-> _]|(x & book' & -> & _)]]; simpl; try done.
  - unfold OrderBook.find_order in Ho. by rewrite Hf in Ho.
  - by destruct (MatchingEngine.process_order_into _ _) as [[] ?].
Qed.

(** ** Nothing but the answer *)

Definition instrument_of (s : t) (symbol : string) : InstrumentState.t :=
  default InstrumentState.new (instruments_ s !! symbol).

(* the exchange itself: books, owners, exposures and journal *)
Definition unchanged (s s' : t) : Prop :=
  (∀ symbol, instrument_of s' symbol = instrument_of s symbol) ∧
  risk_engine_ s' = risk_engine_ s ∧ journal_ s' = journal_ s.

(* nothing sent, no number drawn, the same audience *)
Definition unsent (s s' : t) : Prop :=
  output s' = output s ∧ next_sequence_number_ s' = next_sequence_number_ s ∧
  client_sockets_ s' = client_sockets_ s ∧ multicast_publisher_ s' = multicast_publisher_ s.

#[export] Instance unchanged_preorder : PreOrder unchanged.
Proof.
  split; [by intros s|]. intros s1 s2 s3 (H1 & H2 & H3) (H4 & H5 & H6).
  split_and!; [|congruence..]. intros symbol. by rewrite H4.
Qed.
#[export] Instance unchanged_publishes : Publishes unchanged.
Proof. by split; [apply _|..]. Qed.

#[export] Instance unsent_preorder : PreOrder unsent.
Proof.
  split; [by intros s|]. intros s1 s2 s3 (H1 & H2 & H3 & H4) (H5 & H6 & H7 & H8).
  split_and!; congruence.
Qed.
#[export] Instance unsent_settles : Settles unsent.
Proof. by split; [apply _|..]. Qed.

Lemma instrument_for_unchanged symbol s : unchanged s (instrument_for symbol s).
Proof.
  unfold instrument_for. destruct (instruments_ s !! symbol) eqn:E; [done|]. split; [|done].
  intros symbol'. unfold instrument_of. simpl. destruct (decide (symbol' = symbol)) as [->|].
  - by rewrite lookup_insert_eq, E.
  - by rewrite lookup_insert_ne.
Qed.

Section handlers.
Context (io : list byte → list byte → option nat).
Context (elapsed : t → Z).
Context (set_order : list OrderId → list OrderId).

(** *** The sections under the lock send nothing *)

Lemma unsent_instrument_for symbol : preserves (on_first unsent) (on_server (instrument_for symbol)).
Proof.
  intros [s b]. unfold on_first, on_server, modify, instrument_for. cbn [fst snd].
  by destruct (instruments_ s !! symbol).
Qed.
Lemma unsent_journal header body : preserves (on_first unsent) (append_journal_record io header body).
Proof.
  intros [s b]. unfold append_journal_record, on_first. cbn [fst snd].
  destruct (journal_ s) as [file|]; [|done]. by destruct (Journal.append _ _ _) as [r file'].
Qed.
Lemma unsent_engine {A} symbol (m : M (OrderBook.t * TradeBuffer.t) A) :
  preserves (on_first unsent) (on_engine symbol m).
Proof.
  intros [s b]. unfold on_engine, on_first. cbn [fst snd].
  destruct (instruments_ s !! symbol); [|done]. by destruct (m _) as [x [book trades]].
Qed.
#[local] Hint Resolve unsent_instrument_for unsent_journal unsent_engine : preserves.

Lemma unsent_new_order client id symbol request header body :
  preserves (on_first unsent) (new_order_locked io elapsed client id symbol request header body).
Proof. unfold new_order_locked. keep. Qed.
Lemma unsent_cancel_order client id symbol request header body :
  preserves (on_first unsent) (cancel_order_locked io elapsed client id symbol request header body).
Proof. unfold cancel_order_locked. keep. Qed.
Lemma unsent_replace_order client id symbol request header body :
  preserves (on_first unsent) (replace_order_locked io elapsed client id symbol request header body).
Proof. unfold replace_order_locked. keep. Qed.

(** *** What the sections under the lock decide *)

Lemma settle_accepted symbol wire order_id client id otherwise st o st' :
  settle symbol wire order_id client id otherwise st = (Ok o, st') → Outcome.accepted o = true.
Proof.
  intros (? & ? & _ & H)%bind_Ok. apply bind_Ok in H as (? & ? & _ & H).
  apply bind_Ok in H as (? & ? & _ & H). apply bind_Ok in H as (? & ? & _ & H).
  apply bind_Ok in H as (? & ? & _ & H). by injection H as <- _.
Qed.

Lemma instrument_found symbol st i :
  instruments_ st.1 !! symbol = Some i → instrument symbol st = (Ok i, st).
Proof. intros H. unfold instrument. by rewrite H. Qed.

Lemma instrument_of_Some s symbol i : instruments_ s !! symbol = Some i → instrument_of s symbol = i.
Proof. unfold instrument_of. by intros ->. Qed.

Lemma find_order_inv symbol order_id st x st' :
  find_order symbol order_id st = (Ok x, st') →
  st' = st ∧ ∃ i, instruments_ st.1 !! symbol = Some i ∧
    OrderBook.find_order (InstrumentState.book i) order_id = Ok x.
Proof.
  unfold find_order, bind, instrument. destruct (instruments_ st.1 !! symbol) as [i|]; [|done].
  unfold lift. intros [= Hx <-]. split; [done|]. by exists i.
Qed.

Lemma order_exists_inv symbol order_id st b st' :
  order_exists symbol order_id st = (Ok b, st') →
  st' = st ∧ ∃ i x, instruments_ st.1 !! symbol = Some i ∧
    OrderBook.find_order (InstrumentState.book i) order_id = Ok x ∧
    b = match x with Some _ => true | None => false end.
Proof.
  intros (x & st1 & (-> & i & Hi & Hx)%find_order_inv & Hb)%bind_Ok.
  injection Hb as <- <-. split; [done|]. by exists i, x.
Qed.

Record may_enter (s : t) (id : Z) (symbol : string) (request : Protocol.NewOrderRequest.t) : Prop := {
  enter_fresh : OrderBook.find_order (InstrumentState.book (instrument_of s symbol))
    (Protocol.NewOrderRequest.order_id request) = Ok None;
  enter_unowned : InstrumentState.order_owners (instrument_of s symbol) !!
    Protocol.NewOrderRequest.order_id request = None;
  enter_risk : ∃ reference_price, RiskEngine.RiskDecision.accepted
    (RiskEngine.check_new_order (risk_engine_ s)
       (risk_request_of id symbol (order_of request) reference_price)) = true
}.

Lemma new_order_outcome client id symbol request header body st o st' :
  new_order_locked io elapsed client id symbol request header body st = (Ok o, st') →
  if Outcome.accepted o then may_enter st.1 id symbol request else unchanged st.1 st'.1.
Proof.
  intros H. unfold new_order_locked in H. apply bind_Ok in H as ([] & st1 & H1 & H).
  injection H1 as <-. pose proof (instrument_for_unchanged symbol st.1) as Hu.
  apply bind_Ok in H as (b & st2 & (-> & i & x & Hi & Hx & Hb)%order_exists_inv & H).
  apply bind_Ok in H as (j & st3 & Hj & H). rewrite (instrument_found _ _ _ Hi) in Hj.
  injection Hj as <- <-. cbn [fst] in *.
  destruct (b || _) eqn:Hdup.
  { apply bind_Ok in H as ([] & st2 & [= <-] & [= <- <-]). exact Hu. }
  apply bind_Ok in H as (reference & st4 & Href & H).
  assert (st4 = (instrument_for symbol st.1, st.2)) as ->.
  { revert Href. unfold lift, ret. by destruct (Order.type (order_of request)); intros [= _ <-]. }
  apply bind_Ok in H as (s & st5 & [= <- <-] & H). cbn [fst] in H.
  destruct (RiskEngine.RiskDecision.accepted _) eqn:Hrisk; cbn [negb] in H.
  - apply bind_Ok in H as (? & ? & _ & H). apply bind_Ok in H as (? & ? & _ & H).
    apply bind_Ok in H as (? & ? & _ & H). rewrite (settle_accepted _ _ _ _ _ _ _ _ _ H).
    destruct Hu as (Hu & Hr & _). rewrite Hr in Hrisk.
    apply orb_false_iff in Hdup as [Hb' Hown]. subst b. destruct x; [done|].
    apply bool_decide_eq_false in Hown.
    assert (instrument_of st.1 symbol = i) as He by (rewrite <- Hu; by apply instrument_of_Some).
    split; rewrite ?He; [done|by apply eq_None_not_Some|by eexists].
  - apply bind_Ok in H as ([] & st2 & [= <-] & [= <- <-]). exact Hu.
Qed.

Definition books_sound (st : t * TradeBuffer.t) : Prop :=
  ServerSafety.safe_state ServerSafety.any st.

Lemma books_sound_inv st symbol i :
  books_sound st → instruments_ st.1 !! symbol = Some i → OrderBook.inv (InstrumentState.book i).
Proof. intros [_ Hb _] Hi. by destruct (Hb _ _ Hi). Qed.

Lemma on_engine_result {A} symbol (m : M (OrderBook.t * TradeBuffer.t) A) st i :
  instruments_ st.1 !! symbol = Some i →
  (on_engine symbol m st).1 = (m (InstrumentState.book i, st.2)).1.
Proof.
  intros Hi. unfold on_engine. rewrite Hi. by destruct (m _) as [x [book trades]].
Qed.

(* the journal write leaves the instruments alone *)
Lemma journal_instruments header body st x st' :
  append_journal_record io header body st = (x, st') → instruments_ st'.1 = instruments_ st.1.
Proof.
  unfold append_journal_record. destruct (journal_ st.1) as [file|]; [|by intros [= _ <-]].
  destruct (Journal.append _ _ _) as [r file']. by intros [= _ <-].
Qed.

Lemma cancel_order_outcome client id symbol request header body st o st' :
  books_sound st →
  cancel_order_locked io elapsed client id symbol request header body st = (Ok o, st') →
  match o with
  | Some _ => owned (instrument_of st.1 symbol) (Protocol.CancelOrderRequest.order_id request)
                client id = true
  | None => unchanged st.1 st'.1
  end.
Proof.
  intros Hs H. unfold cancel_order_locked in H.
  apply bind_Ok in H as (s & st1 & [= <- <-] & H). unfold find_instrument in H.
  destruct (instruments_ st.1 !! symbol) as [i|] eqn:Hi; [|by injection H as <- <-].
  destruct (owned i _ _ _) eqn:Hown; cbn [negb] in H; [|by injection H as <- <-].
  apply bind_Ok in H as (b & st2 & (-> & j & x & Hj & Hx & ->)%order_exists_inv & H).
  rewrite Hi in Hj. injection Hj as <-.
  destruct x as [x|]; cbn [negb] in H; [|by injection H as <- <-].
  apply bind_Ok in H as ([] & st2 & Hj%journal_instruments & H).
  apply bind_Ok in H as (cancelled & st3 & Hc & H).
  apply bind_Ok in H as ([] & st4 & _ & H).
  pose proof (f_equal fst Hc) as Hc1. rewrite <- Hj in Hi. rewrite (on_engine_result _ _ _ _ Hi) in Hc1.
  cbn [fst] in Hc1. destruct cancelled; cbn [negb] in H.
  - apply bind_Ok in H as ([] & ? & _ & H). apply bind_Ok in H as ([] & ? & _ & H).
    apply bind_Ok in H as (? & ? & _ & H). injection H as <- _.
    rewrite Hj in Hi. by rewrite (instrument_of_Some _ _ _ Hi).
  - exfalso. rewrite Hj in Hi. by apply (cancel_found _ _ st2.2 _ (books_sound_inv _ _ _ Hs Hi) Hx).
Qed.

Lemma replace_order_outcome client id symbol request header body st o st' :
  books_sound st →
  replace_order_locked io elapsed client id symbol request header body st = (Ok o, st') →
  if Outcome.accepted o
  then owned (instrument_of st.1 symbol) (Protocol.ReplaceOrderRequest.order_id request)
         client id = true ∧
       RiskEngine.RiskDecision.accepted (RiskEngine.check_replace (risk_engine_ st.1) id symbol
         (Protocol.ReplaceOrderRequest.order_id request)
         (Protocol.ReplaceOrderRequest.new_price request)
         (u32 (Protocol.ReplaceOrderRequest.new_quantity request))) = true
  else unchanged st.1 st'.1.
Proof.
  intros Hs H. unfold replace_order_locked in H.
  apply bind_Ok in H as (s & st1 & [= <- <-] & H). unfold find_instrument in H.
  destruct (instruments_ st.1 !! symbol) as [i|] eqn:Hi; [|by injection H as <- <-].
  apply bind_Ok in H as (x & st2 & (-> & j & Hj & Hx)%find_order_inv & H).
  rewrite Hi in Hj. injection Hj as <-.
  destruct x as [x|]; [|by injection H as <- <-].
  destruct (owned i _ _ _) eqn:Hown; cbn [negb] in H; [|by injection H as <- <-].
  destruct (RiskEngine.RiskDecision.accepted _) eqn:Hrisk; cbn [negb] in H.
  2:{ by apply bind_Ok in H as ([] & st2 & [= <-] & [= <- <-]). }
  apply bind_Ok in H as ([] & st2 & Hj%journal_instruments & H).
  apply bind_Ok in H as ([] & st3 & [= <-] & H).
  apply bind_Ok in H as (replaced & st4 & Hc & H).
  apply bind_Ok in H as ([] & st5 & _ & H).
  pose proof (f_equal fst Hc) as Hc1. rewrite <- Hj in Hi.
  rewrite (on_engine_result _ _ _ i) in Hc1 by exact Hi. cbn [fst snd] in Hc1.
  destruct replaced; cbn [negb] in H.
  - unfold settle_replacement in H. rewrite (settle_accepted _ _ _ _ _ _ _ _ _ H). rewrite Hj in Hi.
    by rewrite (instrument_of_Some _ _ _ Hi).
  - exfalso. rewrite Hj in Hi.
    by apply (replace_found _ _ _ _ _ st2.2 _ (books_sound_inv _ _ _ Hs Hi) Hx) in Hc1.
Qed.

(** *** What is sent after the answer *)

Definition feed_types : list Z :=
  [Protocol.MessageType.TradeExecution; Protocol.MessageType.BookUpdate;
   Protocol.MessageType.Level3AddOrder; Protocol.MessageType.Level3OrderExecuted;
   Protocol.MessageType.Level3OrderDeleted].

(* an execution or market data *)
Definition is_feed (message : list byte) : Prop :=
  ∃ type body n, type ∈ feed_types ∧
    message = combine_message (Protocol.encode_header (message_header type body n)) body.

Definition feeds (s s' : t) : Prop :=
  ∃ rest, output s' = output s ++ rest ∧ Forall (λ x, is_feed x.2) rest.

#[local] Instance feeds_preorder : PreOrder feeds.
Proof.
  split; [intros s; exists []; by rewrite app_nil_r|].
  intros s1 s2 s3 (r1 & H1 & F1) (r2 & H2 & F2). exists (r1 ++ r2).
  rewrite H2, H1, app_assoc. split; [done|by apply Forall_app].
Qed.

Lemma feeds_send_to socket type (body : Z → list byte) :
  type ∈ feed_types →
  preserves (on_first feeds) (n <- fetch_sequence ;;
    send_to socket (combine_message (Protocol.encode_header (message_header type (body n) n)) (body n))).
Proof.
  intros Ht [s b]. eexists. split; [reflexivity|]. constructor; [|constructor]. by eexists _, _, _.
Qed.

Lemma feeds_send_to_all type (body : Z → list byte) :
  type ∈ feed_types →
  preserves (on_first feeds) (n <- fetch_sequence ;;
    send_to_all (combine_message (Protocol.encode_header (message_header type (body n) n)) (body n))).
Proof.
  intros Ht [s b]. eexists. split; [reflexivity|]. apply Forall_app. split.
  - case_match; constructor; [|constructor]. by eexists _, _, _.
  - apply Forall_fmap, Forall_true. intros socket'. by eexists _, _, _.
Qed.

Ltac feed := unfold feed_types; rewrite !elem_of_cons; tauto.

Lemma feeds_metrics f : preserves (on_first feeds) (on_metrics f).
Proof. intros st. exists []. by rewrite app_nil_r. Qed.
Lemma feeds_execution socket symbol trade :
  preserves (on_first feeds) (send_trade_execution socket symbol trade).
Proof.
  unfold send_trade_execution. destruct (socket <? 0); [keep|].
  apply (feeds_send_to socket _ (λ n, Protocol.encode_trade_execution _)). feed.
Qed.
Lemma feeds_book_update snapshot : preserves (on_first feeds) (broadcast_book_update snapshot).
Proof. apply (feeds_send_to_all _ (λ n, Protocol.encode_book_update _)). feed. Qed.
Lemma feeds_l3_add event : preserves (on_first feeds) (broadcast_level3_add_order event).
Proof. apply (feeds_send_to_all _ (λ n, Protocol.encode_level3_add_order _)). feed. Qed.
Lemma feeds_l3_executed event : preserves (on_first feeds) (broadcast_level3_order_executed event).
Proof. apply (feeds_send_to_all _ (λ n, Protocol.encode_level3_order_executed _)). feed. Qed.
Lemma feeds_l3_deleted event : preserves (on_first feeds) (broadcast_level3_order_deleted event).
Proof. apply (feeds_send_to_all _ (λ n, Protocol.encode_level3_order_deleted _)). feed. Qed.
#[local] Hint Resolve feeds_metrics feeds_execution feeds_book_update feeds_l3_add feeds_l3_executed
  feeds_l3_deleted : preserves.

(** *** Answers *)

Definition response_bytes (n order_id : Z) (success : bool) (success_type : Z) : list byte :=
  let body := Protocol.encode_order_response
    (Protocol.OrderResponse.mk order_id n (if success then 1 else 0)) in
  combine_message (Protocol.encode_header (message_header
    (if success then success_type else Protocol.MessageType.OrderRejected) body n)) body.

(* the answer, then the feed; a refusal is all there is and changes nothing *)
Definition answered (s s' : t) (client order_id success_type : Z) (granted : Prop) : Prop :=
  ∃ success rest,
    output s' = output s ++
      (Socket client, response_bytes (next_sequence_number_ s) order_id success success_type) :: rest ∧
    Forall (λ x, is_feed x.2) rest ∧
    if success : bool then granted else rest = [] ∧ unchanged s s'.

Lemma reject_answered client order_id type granted st x st' :
  reject_request client order_id st = (x, st') →
  answered st.1 st'.1 client order_id type granted.
Proof. intros [= _ <-]. exists false, []. by split_and!. Qed.

(* the answer and what follows it, from the state the locked section leaves *)
Lemma publish_answered client order_id type success (tail : Handler unit) s0 granted st st' :
  preserves (on_first feeds) tail →
  unsent s0 st.1 → (if success : bool then granted else unchanged s0 st.1) →
  (send_order_response client order_id success type ;;;
   if negb success then ret tt else tail) st = (Ok tt, st') →
  answered s0 st'.1 client order_id type granted.
Proof.
  intros Ht (Ho & Hn & _) Hg H. apply bind_Ok in H as ([] & st1 & H1 & H).
  assert (st1.1 = add_output [(Socket client,
    response_bytes (next_sequence_number_ st.1) order_id success type)]
      (set_sequence (u64 (next_sequence_number_ st.1 + 1)) st.1)) as Hst1.
  { clear H. destruct st as [s b]. by injection H1 as <-. }
  destruct success; cbn [negb] in H.
  - destruct (Ht st1) as (rest & Hout & Hf). rewrite H in Hout. cbn [snd] in Hout.
    exists true, rest. split_and!; [|done|done]. rewrite Hout, Hst1. simpl.
    rewrite Ho, <- app_assoc, Hn. done.
  - injection H as <-. exists false, []. rewrite Hst1. simpl. rewrite Ho, Hn.
    split_and!; [done|done|done|]. exact Hg.
Qed.

(* counters are neither sent nor part of the exchange *)
Lemma metrics_step f {B} (k : unit → Handler B) st x :
  bind (on_metrics f) k st = x →
  ∃ st1, k tt st1 = x ∧ unsent st.1 st1.1 ∧ unchanged st.1 st1.1.
Proof. intros <-. eexists. split; [reflexivity|]. by split. Qed.

Lemma metrics_trades_step o {B} (k : unit → Handler B) st x :
  bind (on_metrics_trades o) k st = x →
  ∃ st1, k tt st1 = x ∧ unsent st.1 st1.1 ∧ unchanged st.1 st1.1.
Proof.
  unfold on_metrics_trades. destruct (_ && _); [apply metrics_step|].
  intros <-. exists st. split; [done|]. by split.
Qed.

Lemma publish_new_answered client order_id wire o s0 granted st st' :
  unsent s0 st.1 → (if Outcome.accepted o then granted else unchanged s0 st.1) →
  publish_new_order set_order client order_id wire o st = (Ok tt, st') →
  answered s0 st'.1 client order_id Protocol.MessageType.OrderAccepted granted.
Proof.
  intros Hs Hg H. apply metrics_step in H as (st1 & H & Hs1 & Hu1).
  apply metrics_trades_step in H as (st2 & H & Hs2 & Hu2).
  revert H. apply publish_answered.
  - unfold send_execution_deliveries, broadcast_level3_deletions, broadcast_level3_addition. keep.
  - by etrans; [exact Hs|etrans; [exact Hs1|exact Hs2]].
  - destruct (Outcome.accepted o); [done|]. by etrans; [exact Hg|etrans; [exact Hu1|exact Hu2]].
Qed.

Lemma publish_replace_answered client order_id wire o s0 granted st st' :
  unsent s0 st.1 → (if Outcome.accepted o then granted else unchanged s0 st.1) →
  publish_replace_order set_order client order_id wire o st = (Ok tt, st') →
  answered s0 st'.1 client order_id Protocol.MessageType.OrderReplaced granted.
Proof.
  intros Hs Hg H. apply metrics_step in H as (st1 & H & Hs1 & Hu1).
  apply metrics_trades_step in H as (st2 & H & Hs2 & Hu2).
  revert H. apply publish_answered.
  - unfold send_execution_deliveries, broadcast_level3_deletions, broadcast_level3_addition. keep.
  - by etrans; [exact Hs|etrans; [exact Hs1|exact Hs2]].
  - destruct (Outcome.accepted o); [done|]. by etrans; [exact Hg|etrans; [exact Hu1|exact Hu2]].
Qed.

Definition text (symbol : Protocol.Symbol) : string := Protocol.symbol_to_string symbol.

(* the order id a request's answer carries: 0 when the body cannot be read *)
Definition requested_id (type : Z) (body : list byte) : Z :=
  if type =? Protocol.MessageType.NewOrder
  then from_option Protocol.NewOrderRequest.order_id 0 (Protocol.decode_new_order body)
  else if type =? Protocol.MessageType.CancelOrder
  then from_option Protocol.CancelOrderRequest.order_id 0 (Protocol.decode_cancel_order body)
  else from_option Protocol.ReplaceOrderRequest.order_id 0 (Protocol.decode_replace_order body).

Definition success_type (type : Z) : Z :=
  if type =? Protocol.MessageType.NewOrder then Protocol.MessageType.OrderAccepted
  else if type =? Protocol.MessageType.CancelOrder then Protocol.MessageType.OrderCancelled
  else Protocol.MessageType.OrderReplaced.

(** What a client needs for each kind of request. *)
Inductive authorised (s : t) (client : Z) (type : Z) (body : list byte) : Prop :=
  | authorised_new request :
      type = Protocol.MessageType.NewOrder → Protocol.decode_new_order body = Some request →
      may_enter s (risk_client_id_for_socket client s)
        (text (Protocol.NewOrderRequest.symbol request)) request →
      authorised s client type body
  | authorised_cancel request :
      type = Protocol.MessageType.CancelOrder → Protocol.decode_cancel_order body = Some request →
      owned (instrument_of s (text (Protocol.CancelOrderRequest.symbol request)))
        (Protocol.CancelOrderRequest.order_id request) client
        (risk_client_id_for_socket client s) = true →
      authorised s client type body
  | authorised_replace request :
      type = Protocol.MessageType.ReplaceOrder → Protocol.decode_replace_order body = Some request →
      owned (instrument_of s (text (Protocol.ReplaceOrderRequest.symbol request)))
        (Protocol.ReplaceOrderRequest.order_id request) client
        (risk_client_id_for_socket client s) = true →
      RiskEngine.RiskDecision.accepted (RiskEngine.check_replace (risk_engine_ s)
        (risk_client_id_for_socket client s) (text (Protocol.ReplaceOrderRequest.symbol request))
        (Protocol.ReplaceOrderRequest.order_id request)
        (Protocol.ReplaceOrderRequest.new_price request)
        (u32 (Protocol.ReplaceOrderRequest.new_quantity request))) = true →
      authorised s client type body.

(* a body whose length is the header's, as in every message received *)
Definition sized (header : Protocol.MessageHeader.t) (body : list byte) : Prop :=
  Protocol.MessageHeader.body_size header = Z.of_nat (length body).

Lemma new_order_answered client header body st st' :
  Protocol.MessageHeader.type header = Protocol.MessageType.NewOrder → sized header body →
  handle_new_order io elapsed set_order client header body st = (Ok tt, st') →
  answered st.1 st'.1 client (requested_id (Protocol.MessageHeader.type header) body)
    Protocol.MessageType.OrderAccepted
    (authorised st.1 client (Protocol.MessageHeader.type header) body).
Proof.
  intros Ht Hsz H. rewrite Ht. change (requested_id _ body) with
    (from_option Protocol.NewOrderRequest.order_id 0 (Protocol.decode_new_order body)).
  unfold handle_new_order in H.
  destruct (Z.eqb_spec (Protocol.MessageHeader.body_size header)
    (Z.of_nat Protocol.new_order_body_size)) as [_|Hne]; cbn [negb] in H.
  2:{ assert (Protocol.decode_new_order body = None) as ->; [|by eapply reject_answered].
      unfold Protocol.decode_new_order. rewrite Hsz in Hne.
      destruct (Nat.eqb_spec (length body) Protocol.new_order_body_size); [congruence|done]. }
  destruct (Protocol.decode_new_order body) as [request|] eqn:Hd; [|by eapply reject_answered].
  cbn [from_option]. cbn zeta in H. destruct (_ >? _); [by eapply reject_answered|].
  destruct (String.eqb _ _); [by eapply reject_answered|].
  apply bind_Ok in H as (s & st1 & [= <- <-] & H). apply bind_Ok in H as (o & st1 & Ho & H).
  pose proof (unsent_new_order client (risk_client_id_for_socket client st.1) (text (Protocol.NewOrderRequest.symbol request)) request header body st) as Hs.
  unfold text in Hs. rewrite Ho in Hs. apply new_order_outcome in Ho.
  eapply publish_new_answered; [exact Hs| |exact H].
  destruct (Outcome.accepted o); [|done]. by eapply authorised_new.
Qed.

Lemma cancel_order_answered client header body st st' :
  books_sound st →
  Protocol.MessageHeader.type header = Protocol.MessageType.CancelOrder → sized header body →
  handle_cancel_order io elapsed client header body st = (Ok tt, st') →
  answered st.1 st'.1 client (requested_id (Protocol.MessageHeader.type header) body)
    Protocol.MessageType.OrderCancelled
    (authorised st.1 client (Protocol.MessageHeader.type header) body).
Proof.
  intros Hb Ht Hsz H. rewrite Ht. change (requested_id _ body) with
    (from_option Protocol.CancelOrderRequest.order_id 0 (Protocol.decode_cancel_order body)).
  unfold handle_cancel_order in H.
  destruct (Z.eqb_spec (Protocol.MessageHeader.body_size header)
    (Z.of_nat Protocol.cancel_order_body_size)) as [_|Hne]; cbn [negb] in H.
  2:{ assert (Protocol.decode_cancel_order body = None) as ->; [|by eapply reject_answered].
      unfold Protocol.decode_cancel_order. rewrite Hsz in Hne.
      destruct (Nat.eqb_spec (length body) Protocol.cancel_order_body_size); [congruence|done]. }
  destruct (Protocol.decode_cancel_order body) as [request|] eqn:Hd; [|by eapply reject_answered].
  cbn [from_option]. cbn zeta in H.
  apply bind_Ok in H as (s & st1 & [= <- <-] & H). apply bind_Ok in H as (o & st1 & Ho & H).
  pose proof (unsent_cancel_order client (risk_client_id_for_socket client st.1) (text (Protocol.CancelOrderRequest.symbol request)) request header body st) as Hs.
  unfold text in Hs. rewrite Ho in Hs. apply cancel_order_outcome in Ho; [|done].
  apply metrics_step in H as (st2 & H & Hs2 & Hu2).
  destruct o as [snapshot|].
  - eapply (publish_answered _ _ _ true); [|by etrans; [exact Hs|exact Hs2]| |exact H]; [keep|].
    by eapply authorised_cancel.
  - eapply (publish_answered _ _ _ false (ret tt)); [keep|by etrans; [exact Hs|exact Hs2]| |exact H].
    by etrans; [exact Ho|exact Hu2].
Qed.

Lemma replace_order_answered client header body st st' :
  books_sound st →
  Protocol.MessageHeader.type header = Protocol.MessageType.ReplaceOrder → sized header body →
  handle_replace_order io elapsed set_order client header body st = (Ok tt, st') →
  answered st.1 st'.1 client (requested_id (Protocol.MessageHeader.type header) body)
    Protocol.MessageType.OrderReplaced
    (authorised st.1 client (Protocol.MessageHeader.type header) body).
Proof.
  intros Hb Ht Hsz H. rewrite Ht. change (requested_id _ body) with
    (from_option Protocol.ReplaceOrderRequest.order_id 0 (Protocol.decode_replace_order body)).
  unfold handle_replace_order in H.
  destruct (Z.eqb_spec (Protocol.MessageHeader.body_size header)
    (Z.of_nat Protocol.replace_order_body_size)) as [_|Hne]; cbn [negb] in H.
  2:{ assert (Protocol.decode_replace_order body = None) as ->; [|by eapply reject_answered].
      unfold Protocol.decode_replace_order. rewrite Hsz in Hne.
      destruct (Nat.eqb_spec (length body) Protocol.replace_order_body_size); [congruence|done]. }
  destruct (Protocol.decode_replace_order body) as [request|] eqn:Hd; [|by eapply reject_answered].
  cbn [from_option]. cbn zeta in H. destruct (_ >? _); [by eapply reject_answered|].
  apply bind_Ok in H as (s & st1 & [= <- <-] & H). apply bind_Ok in H as (o & st1 & Ho & H).
  pose proof (unsent_replace_order client (risk_client_id_for_socket client st.1) (text (Protocol.ReplaceOrderRequest.symbol request)) request header body st) as Hs.
  unfold text in Hs. rewrite Ho in Hs. apply replace_order_outcome in Ho; [|done].
  eapply publish_replace_answered; [exact Hs| |exact H].
  destruct (Outcome.accepted o); [|done]. destruct Ho as [Hown Hrisk].
  by eapply authorised_replace.
Qed.

Lemma kill_switch_new r request :
  RiskEngine.global_kill_switch r = true →
  RiskEngine.RiskDecision.accepted (RiskEngine.check_new_order r request) = false.
Proof. unfold RiskEngine.check_new_order, RiskEngine.global_kill_switch. by intros ->. Qed.

Lemma kill_switch_replace r client symbol order_id p q :
  RiskEngine.global_kill_switch r = true →
  RiskEngine.RiskDecision.accepted (RiskEngine.check_replace r client symbol order_id p q) = false.
Proof. unfold RiskEngine.check_replace, RiskEngine.global_kill_switch. by intros ->. Qed.

Definition is_request (type : Z) : Prop :=
  type = Protocol.MessageType.NewOrder ∨ type = Protocol.MessageType.CancelOrder ∨
  type = Protocol.MessageType.ReplaceOrder.

Lemma message_answered client header body st st' :
  books_sound st → is_request (Protocol.MessageHeader.type header) → sized header body →
  handle_message io elapsed set_order client header body st = (Ok tt, st') →
  answered st.1 st'.1 client (requested_id (Protocol.MessageHeader.type header) body)
    (success_type (Protocol.MessageHeader.type header))
    (authorised st.1 client (Protocol.MessageHeader.type header) body).
Proof.
  intros Hb Ht Hsz H. unfold handle_message in H. destruct Ht as [Ht|[Ht|Ht]].
  - replace (success_type _) with Protocol.MessageType.OrderAccepted by by rewrite Ht.
    apply new_order_answered; [done|done|]. by rewrite Ht in H.
  - replace (success_type _) with Protocol.MessageType.OrderCancelled by by rewrite Ht.
    apply cancel_order_answered; [done|done|done|]. by rewrite Ht in H.
  - replace (success_type _) with Protocol.MessageType.OrderReplaced by by rewrite Ht.
    apply replace_order_answered; [done|done|done|]. by rewrite Ht in H.
Qed.

(** C8. Every request gets exactly one answer.  A new order, cancellation or
    replacement that is handled to its end sends, first of all and to the
    client that asked, one response with the server's next sequence number and
    the order's id (0 when the body cannot be decoded); what follows are only
    executions and market data.  A rejection is sent alone, and the books, the
    owners, the exposures and the journal are as if the request had never been
    made. *)
Theorem every_request_answered client header body st st' :
  books_sound st → is_request (Protocol.MessageHeader.type header) → sized header body →
  handle_message io elapsed set_order client header body st = (Ok tt, st') →
  ∃ success rest,
    output st'.1 = output st.1 ++
      (Socket client,
       response_bytes (next_sequence_number_ st.1)
         (requested_id (Protocol.MessageHeader.type header) body) success
         (success_type (Protocol.MessageHeader.type header))) :: rest ∧
    Forall (λ x, is_feed x.2) rest ∧
    (success = false → rest = [] ∧ unchanged st.1 st'.1).
Proof.
  intros Hb Ht Hsz H. destruct (message_answered _ _ _ _ _ Hb Ht Hsz H) as (success & rest & Ho & Hf & Hs).
  exists success, rest. split_and!; [done|done|]. by intros ->.
Qed.

Lemma message_effect client header body st st' :
  books_sound st → sized header body →
  handle_message io elapsed set_order client header body st = (Ok tt, st') →
  unchanged st.1 st'.1 ∨ authorised st.1 client (Protocol.MessageHeader.type header) body.
Proof.
  intros Hb Hsz H.
  destruct (decide (Protocol.MessageHeader.type header = Protocol.MessageType.NewOrder ∨
    Protocol.MessageHeader.type header = Protocol.MessageType.CancelOrder ∨
    Protocol.MessageHeader.type header = Protocol.MessageType.ReplaceOrder)) as [Ht|Ht].
  - destruct (message_answered _ _ _ _ _ Hb Ht Hsz H) as ([] & rest & _ & _ & Hs); [by right|].
    left. by destruct Hs.
  - left. unfold handle_message in H.
    rewrite !(proj2 (Z.eqb_neq _ _)) in H by tauto. by injection H as <-.
Qed.

(* the kill switch stops everything but cancellations *)
Lemma kill_switch_blocks client header body st st' :
  books_sound st → sized header body →
  RiskEngine.global_kill_switch (risk_engine_ st.1) = true →
  Protocol.MessageHeader.type header ≠ Protocol.MessageType.CancelOrder →
  handle_message io elapsed set_order client header body st = (Ok tt, st') →
  unchanged st.1 st'.1.
Proof.
  intros Hb Hsz Hk Ht H. destruct (message_effect client header body st st' Hb Hsz H) as [|Ha]; [done|].
  destruct Ha as [request _ _ [_ _ [reference Hr]]|request Hc _ _|request _ _ _ Hr]; [|done|].
  - by rewrite kill_switch_new in Hr.
  - by rewrite kill_switch_replace in Hr.
Qed.

(** C9. Only those with the authority change the exchange.  If a message changes
    a book, an owner, an exposure or the journal, it is either a new order
    whose id is neither resting nor owned and that the risk engine accepts for
    the client; or a cancellation of an order that this client's socket and
    risk session own; or a replacement of such an order that the risk engine
    accepts; and while the global kill switch is on it is a cancellation. *)
Theorem changes_need_authority client header body st st' :
  books_sound st → sized header body →
  handle_message io elapsed set_order client header body st = (Ok tt, st') →
  ¬ unchanged st.1 st'.1 →
  authorised st.1 client (Protocol.MessageHeader.type header) body ∧
  (RiskEngine.global_kill_switch (risk_engine_ st.1) = true →
   Protocol.MessageHeader.type header = Protocol.MessageType.CancelOrder).
Proof.
  intros Hb Hsz H Hch. split; [by destruct (message_effect client header body st st')|].
  intros Hk. destruct (decide (Protocol.MessageHeader.type header = Protocol.MessageType.CancelOrder))
    as [|Ht]; [done|]. destruct Hch. by eapply kill_switch_blocks.
Qed.

End handlers.

(** ** Concrete requests *)

Lemma system_books_sound y :
  ServerSafety.system_sound y → books_sound (exchange y, TradeBuffer.new default_capacity).
Proof. intros [Hb _]. split; [apply TradeBuffer.new_ok|exact Hb|done]. Qed.

Lemma traded_sound : books_sound (exchange ServerDemo.traded, TradeBuffer.new default_capacity).
Proof. apply system_books_sound, ServerSafety.alive_sound, ServerSafety.traded_alive. Qed.

(* socket 6 tries to cancel the order of socket 5 *)
Definition refused : t * TradeBuffer.t :=
  (ServerDemo.message 6 Protocol.MessageType.CancelOrder (ServerDemo.cancel_body 1)
     ServerDemo.traded).2.

Lemma every_request_answered_witness :
  ServerDemo.message 6 Protocol.MessageType.CancelOrder (ServerDemo.cancel_body 1)
    ServerDemo.traded = (Ok tt, refused) ∧
  output refused.1 = output (exchange ServerDemo.traded) ++
    [(Socket 6, response_bytes 9 1 false Protocol.MessageType.OrderCancelled)] ∧
  ∃ success rest,
    output refused.1 = output (exchange ServerDemo.traded) ++
      (Socket 6, response_bytes (next_sequence_number_ (exchange ServerDemo.traded))
         (requested_id Protocol.MessageType.CancelOrder (ServerDemo.cancel_body 1)) success
         (success_type Protocol.MessageType.CancelOrder)) :: rest ∧
    Forall (λ x, is_feed x.2) rest ∧
    (success = false → rest = [] ∧ unchanged (exchange ServerDemo.traded) refused.1).
Proof.
  assert (ServerDemo.message 6 Protocol.MessageType.CancelOrder (ServerDemo.cancel_body 1)
    ServerDemo.traded = (Ok tt, refused)) as He by (vm_compute; reflexivity).
  split; [exact He|]. split; [vm_compute; reflexivity|].
  refine (every_request_answered _ _ _ _ _ _ _ _ traded_sound _ _ He); [right; by left|].
  vm_compute. reflexivity.
Defined.

(* socket 5 replaces its order *)
Definition replaced : t * TradeBuffer.t :=
  (ServerDemo.message 5 Protocol.MessageType.ReplaceOrder (ServerDemo.replace_body 1 98 20)
     ServerDemo.traded).2.

Lemma changes_need_authority_witness :
  ServerDemo.message 5 Protocol.MessageType.ReplaceOrder (ServerDemo.replace_body 1 98 20)
    ServerDemo.traded = (Ok tt, replaced) ∧
  ¬ unchanged (exchange ServerDemo.traded) replaced.1 ∧
  authorised (exchange ServerDemo.traded) 5 Protocol.MessageType.ReplaceOrder
    (ServerDemo.replace_body 1 98 20) ∧
  (RiskEngine.global_kill_switch (risk_engine_ (exchange ServerDemo.traded)) = true →
   Protocol.MessageType.ReplaceOrder = Protocol.MessageType.CancelOrder).
Proof.
  assert (ServerDemo.message 5 Protocol.MessageType.ReplaceOrder (ServerDemo.replace_body 1 98 20)
    ServerDemo.traded = (Ok tt, replaced)) as He by (vm_compute; reflexivity).
  assert (¬ unchanged (exchange ServerDemo.traded) replaced.1) as Hch.
  { intros (_ & Hr & _). apply (f_equal (λ r, RiskEngine.gross r 1)) in Hr.
    vm_compute in Hr. discriminate. }
  split; [exact He|]. split; [exact Hch|].
  refine (changes_need_authority _ _ _ _ _ _ _ _ traded_sound _ He Hch).
  vm_compute. reflexivity.
Defined.

(* the kill switch is on, and socket 5 still tries to replace its order *)
Definition killed : System := (ServerDemo.handle (KillSwitch true) ServerDemo.traded).2.
Definition blocked : t * TradeBuffer.t :=
  (ServerDemo.message 5 Protocol.MessageType.ReplaceOrder (ServerDemo.replace_body 1 98 20)
     killed).2.

Lemma replace_blocked :
  ServerDemo.message 5 Protocol.MessageType.ReplaceOrder (ServerDemo.replace_body 1 98 20) killed
    = (Ok tt, blocked) ∧
  unchanged (exchange killed) blocked.1.
Proof.
  assert (ServerDemo.message 5 Protocol.MessageType.ReplaceOrder (ServerDemo.replace_body 1 98 20)
    killed = (Ok tt, blocked)) as He by (vm_compute; reflexivity).
  assert (books_sound (exchange killed, TradeBuffer.new default_capacity)) as Hs.
  { apply system_books_sound.
    exact (proj2 (ServerSafety.handle_event_sound ServerDemo.good_disk ServerDemo.no_time
      ServerDemo.set_order (KillSwitch true) _
      (ServerSafety.alive_sound _ ServerSafety.traded_alive))). }
  split; [exact He|].
  refine (kill_switch_blocks _ _ _ _ _ _ _ _ Hs _ _ _ He); [vm_compute; reflexivity..|done].
Qed.

End ServerOrders.
