(* ===== verification/ServerSettle.v ===== *)
(** * What a handler computes under the engine lock

    The trades of the buffer are settled one by one, with reads of the book in
    between; here the result is a function of the book, the owners, the trades
    and the risk engine as they are when the engine returns.  The theorems
    about the feed and about positions start from it. *)
From Stdlib Require Import Strings.String.
From S2P Require Import Prelude Types PriceLevel TradeBuffer BookSpec OrderBook MatchingEngine RiskEngine Bytes Protocol PerformanceMetrics Journal ExchangeServer ServerFrames ServerSafety ServerOrders.
Open Scope Z_scope.

Module ServerSettle.
Import ExchangeServer ServerFrames ServerOrders.

(** ** Orders by id, on the abstract book *)

Definition lookup_order (b : BookSpec.t) (order_id : OrderId) : option Order :=
  head (filter (λ o, Order.id o = order_id) (BookSpec.all_orders b)).

Lemma nodes_orders book : (OrderBook.nodes book).*2 = BookSpec.all_orders (OrderBook.abs book).
Proof. unfold OrderBook.nodes. by rewrite fmap_app. Qed.

Lemma all_unique book :
  OrderBook.inv book → NoDup (Order.id <$> BookSpec.all_orders (OrderBook.abs book)).
Proof.
  intros Hi. rewrite <- nodes_orders. apply OrderBook.nodup_ids; [apply (OrderBook.inv_nodes _ Hi)|].
  intros n1 o1 n2 o2. apply (OrderBook.index_unique _ _ n1 o1 n2 o2 (OrderBook.inv_index _ Hi)).
Qed.

(** Ids name orders. *)
Lemma lookup_order_Some b order_id o :
  NoDup (Order.id <$> BookSpec.all_orders b) →
  lookup_order b order_id = Some o ↔ o ∈ BookSpec.all_orders b ∧ Order.id o = order_id.
Proof.
  unfold lookup_order. induction (BookSpec.all_orders b) as [|x l IH]; intros Hd.
  { split; [done|]. by intros [?%elem_of_nil _]. }
  rewrite fmap_cons in Hd. apply NoDup_cons in Hd as [Hx Hd].
  destruct (decide (Order.id x = order_id)) as [He|Hne].
  - rewrite filter_cons_True by done. simpl. split; [intros [= ->]; split; [by left|done]|].
    intros [[->|Ho]%elem_of_cons Hid]; [done|]. destruct Hx. subst.
    apply list_elem_of_fmap. exists o. by rewrite Hid.
  - rewrite filter_cons_False by done. rewrite (IH Hd), elem_of_cons. naive_solver.
Qed.

Lemma lookup_order_None b order_id :
  lookup_order b order_id = None ↔ Forall (λ o, Order.id o ≠ order_id) (BookSpec.all_orders b).
Proof.
  unfold lookup_order. rewrite head_None, Forall_forall. split.
  - intros Hn o Ho Hid.
    assert (o ∈ filter (λ o, Order.id o = order_id) (BookSpec.all_orders b)) as H
      by by apply list_elem_of_filter.
    rewrite Hn in H. by apply elem_of_nil in H.
  - intros Hall. destruct (filter _ _) as [|o l] eqn:E; [done|].
    assert (o ∈ filter (λ o, Order.id o = order_id) (BookSpec.all_orders b)) as H
      by (rewrite E; by left).
    apply list_elem_of_filter in H as [Hid Ho]. by destruct (Hall _ Ho).
Qed.

Lemma find_order_lookup book order_id :
  OrderBook.inv book →
  OrderBook.find_order book order_id = Ok (lookup_order (OrderBook.abs book) order_id).
Proof.
  intros Hi. pose proof (OrderBook.find_order_spec book order_id Hi) as H.
  destruct (OrderBook.order_locations book !! order_id) as [loc|].
  - destruct H as (o & -> & Hid & Hin & _). f_equal. symmetry.
    apply lookup_order_Some; [by apply all_unique|]. split; [|done].
    rewrite <- nodes_orders. apply list_elem_of_fmap. by eexists (_, o).
  - destruct H as [-> Hall]. f_equal. symmetry. apply lookup_order_None.
    rewrite <- nodes_orders. by apply Forall_fmap.
Qed.

(** ** The functions *)

Section settled.
Context (symbol : string) (wire_symbol : Protocol.Symbol) (order_id : OrderId)
  (client_socket risk_client_id : Z) (b : BookSpec.t).

Definition owner_in (owners : gmap OrderId OrderOwner.t) (id : OrderId) : OrderOwner.t :=
  if id =? order_id then OrderOwner.mk client_socket risk_client_id
  else default OrderOwner.none (owners !! id).

(* one side of a trade, if it is an order that has left the book *)
Definition gone (id : OrderId) : list OrderId :=
  if id =? order_id then []
  else match lookup_order b id with Some _ => [] | None => [id] end.
Definition gone_in (trade : Trade) : list OrderId :=
  gone (Trade.buy_order_id trade) ++ gone (Trade.sell_order_id trade).
Definition gone_ids (ts : list Trade) : list OrderId := concat (gone_in <$> ts).

Definition trade_risk (owners : gmap OrderId OrderOwner.t) (r : RiskEngine.t) (trade : Trade)
    : RiskEngine.t :=
  RiskEngine.on_trade symbol
    (OrderOwner.risk_client_id (owner_in owners (Trade.buy_order_id trade)))
    (OrderOwner.risk_client_id (owner_in owners (Trade.sell_order_id trade)))
    (Trade.buy_order_id trade) (Trade.sell_order_id trade) (Trade.quantity trade) r.

Definition execution_of (trade : Trade) : Protocol.Level3OrderExecuted.t :=
  Protocol.Level3OrderExecuted.mk (Trade.buy_order_id trade) (Trade.sell_order_id trade)
    (Trade.price trade) (Trade.quantity trade) 0 wire_symbol.

Definition delivery_of (owners : gmap OrderId OrderOwner.t) (trade : Trade) : ExecutionDelivery.t :=
  let buyer := owner_in owners (Trade.buy_order_id trade) in
  let seller := owner_in owners (Trade.sell_order_id trade) in
  ExecutionDelivery.mk trade wire_symbol (OrderOwner.socket buyer) (OrderOwner.socket seller)
    (OrderOwner.risk_client_id buyer) (OrderOwner.risk_client_id seller).

Definition add_trade (owners : gmap OrderId OrderOwner.t) (effects : Effects.t) (trade : Trade)
    : Effects.t :=
  Effects.mk (Effects.deliveries effects ++ [delivery_of owners trade])
    (u64 (Effects.traded_quantity effects + Trade.quantity trade))
    (Effects.level3_executions effects ++ [execution_of trade])
    (Effects.deleted effects ++ gone (Trade.buy_order_id trade) ++ gone (Trade.sell_order_id trade)).

Definition drop_owners (ids : list OrderId) (owners : gmap OrderId OrderOwner.t)
    : gmap OrderId OrderOwner.t := foldl (λ m id, delete id m) owners ids.

Definition rest_owners (g : gmap OrderId OrderOwner.t → gmap OrderId OrderOwner.t)
    (owners : gmap OrderId OrderOwner.t) : gmap OrderId OrderOwner.t :=
  match lookup_order b order_id with
  | Some _ => <[order_id := OrderOwner.mk client_socket risk_client_id]> owners
  | None => g owners
  end.

Definition rest_risk (r : RiskEngine.t) : RiskEngine.t :=
  match lookup_order b order_id with
  | Some o => RiskEngine.on_order_resting risk_client_id symbol (Order.id o) (Order.side o)
                (Order.price o) (Order.remaining_quantity o) r
  | None => r
  end.

Definition wire_side (s : Side) : Z :=
  match s with Buy => Protocol.Side_Buy | Sell => Protocol.Side_Sell end.

Definition rest_event : option Protocol.Level3AddOrder.t :=
  (λ o, Protocol.Level3AddOrder.mk (Order.id o) (Order.timestamp o) (Order.price o)
          (Order.remaining_quantity o) (wire_side (Order.side o)) 0 wire_symbol) <$>
  lookup_order b order_id.
End settled.

(** ** The handlers compute them *)

(* the server with another book and other owners of an instrument *)
Definition with_instrument (symbol : string) (i : InstrumentState.t) (s : t) : t :=
  set_instruments (<[symbol := i]> (instruments_ s)) s.

Lemma with_instrument_same symbol i s :
  instruments_ s !! symbol = Some i → with_instrument symbol i s = s.
Proof. intros Hi. unfold with_instrument. rewrite insert_id by done. by destruct s. Qed.

Section eval.
Context (symbol : string) (wire_symbol : Protocol.Symbol) (order_id : OrderId)
  (client_socket risk_client_id : Z).
Context (book : OrderBook.t) (Hi : OrderBook.inv book).
Abbreviation b := (OrderBook.abs book).
Abbreviation at_ owners := (with_instrument symbol (InstrumentState.mk book owners)).

Lemma instrument_at owners s (trades : TradeBuffer.t) :
  instrument symbol (at_ owners s, trades) =
    (Ok (InstrumentState.mk book owners), (at_ owners s, trades)).
Proof. unfold instrument. simpl. by rewrite lookup_insert_eq. Qed.

Lemma find_settled_order owners id s (trades : TradeBuffer.t) :
  find_order symbol id (at_ owners s, trades) = (Ok (lookup_order b id), (at_ owners s, trades)).
Proof.
  unfold find_order, bind. rewrite instrument_at. unfold lift. cbn [InstrumentState.book].
  by rewrite find_order_lookup.
Qed.

Lemma filled_at owners id s (trades : TradeBuffer.t) :
  filled_order symbol id order_id (at_ owners s, trades) =
    (Ok (gone order_id b id), (at_ owners s, trades)).
Proof.
  unfold filled_order, gone. destruct (id =? order_id); [done|].
  unfold order_exists, bind. rewrite find_settled_order. by destruct (lookup_order b id).
Qed.

Lemma on_owners_at owners f s (trades : TradeBuffer.t) :
  on_owners symbol f (at_ owners s, trades) = (Ok tt, (at_ (f owners) s, trades)).
Proof.
  unfold on_owners, on_server, modify, with_instrument. cbn [fst snd].
  f_equal. f_equal. unfold set_instruments. simpl. f_equal. by rewrite alter_insert_eq.
Qed.

Lemma record_trade_at owners effects trade s (trades : TradeBuffer.t) :
  record_trade symbol wire_symbol order_id client_socket risk_client_id effects trade
    (at_ owners s, trades) =
  (Ok (add_trade wire_symbol order_id client_socket risk_client_id b owners effects trade),
   (at_ owners (set_risk (trade_risk symbol order_id client_socket risk_client_id owners
                            (risk_engine_ s) trade) s), trades)).
Proof.
  unfold record_trade. unfold bind at 1. rewrite instrument_at.
  unfold find_order_owner. cbn [InstrumentState.order_owners].
  fold (owner_in order_id client_socket risk_client_id owners (Trade.buy_order_id trade)).
  fold (owner_in order_id client_socket risk_client_id owners (Trade.sell_order_id trade)).
  unfold bind at 1, on_risk, on_server, modify. cbn [fst snd].
  match goal with |- context [set_risk ?r (at_ owners s)] =>
    change (set_risk r (at_ owners s)) with (at_ owners (set_risk r s)) end.
  unfold bind. by rewrite !filled_at.
Qed.

Lemma record_all_at owners ts effects s (trades : TradeBuffer.t) :
  fold_each ts (record_trade symbol wire_symbol order_id client_socket risk_client_id) effects
    (at_ owners s, trades) =
  (Ok (foldl (add_trade wire_symbol order_id client_socket risk_client_id b owners) effects ts),
   (at_ owners (set_risk (foldl (trade_risk symbol order_id client_socket risk_client_id owners)
                            (risk_engine_ s) ts) s), trades)).
Proof.
  revert effects s. induction ts as [|trade ts IH]; intros effects s.
  { unfold ret. simpl. by destruct s. }
  cbn [fold_each]. unfold bind. rewrite record_trade_at, IH. done.
Qed.

Lemma drop_at owners (ids : list OrderId) s (trades : TradeBuffer.t) :
  for_each ids (λ id, on_owners symbol (delete id)) (at_ owners s, trades) =
    (Ok tt, (at_ (drop_owners ids owners) s, trades)).
Proof.
  revert owners. induction ids as [|id ids IH]; intros owners; [done|].
  cbn [for_each]. unfold bind. by rewrite on_owners_at, IH.
Qed.

Lemma drop_all_at owners ts s (trades : TradeBuffer.t) :
  for_each ts (λ trade,
    bought <- filled_order symbol (Trade.buy_order_id trade) order_id ;;
    for_each bought (λ id, on_owners symbol (delete id)) ;;;
    sold <- filled_order symbol (Trade.sell_order_id trade) order_id ;;
    for_each sold (λ id, on_owners symbol (delete id))) (at_ owners s, trades) =
  (Ok tt, (at_ (drop_owners (gone_ids order_id b ts) owners) s, trades)).
Proof.
  revert owners. induction ts as [|trade ts IH]; intros owners; [done|].
  cbn [for_each]. unfold bind in *. rewrite filled_at, drop_at, filled_at, drop_at, IH.
  unfold gone_ids, gone_in, drop_owners. cbn [fmap list_fmap concat]. by rewrite !foldl_app.
Qed.
Lemma snapshot_at owners s (trades : TradeBuffer.t) :
  ∃ snapshot, capture_book_snapshot wire_symbol book = Ok snapshot ∧
    snapshot_of symbol wire_symbol (at_ owners s, trades) = (Ok snapshot, (at_ owners s, trades)).
Proof.
  assert (∃ x, capture_book_snapshot wire_symbol book = Ok x) as [snapshot Hs].
  { unfold capture_book_snapshot, OrderBook.has_bids, OrderBook.has_asks, OrderBook.has_levels,
      OrderBook.best_bid, OrderBook.best_ask, OrderBook.best_bid_level, OrderBook.best_ask_level,
      OrderBook.best.
    destruct (OrderBook.levels Buy book), (OrderBook.levels Sell book); by eexists. }
  exists snapshot. split; [done|]. unfold snapshot_of, bind. rewrite instrument_at.
  cbn [InstrumentState.book]. unfold lift. by rewrite Hs.
Qed.

(* what becomes of an order that does not rest *)
Definition acts_as (otherwise : Handler unit)
    (g : gmap OrderId OrderOwner.t → gmap OrderId OrderOwner.t) : Prop :=
  ∀ owners s trades, otherwise (at_ owners s, trades) = (Ok tt, (at_ (g owners) s, trades)).

Definition settled_effects (owners : gmap OrderId OrderOwner.t) (ts : list Trade) : Effects.t :=
  foldl (add_trade wire_symbol order_id client_socket risk_client_id b owners) Effects.none ts.
Definition settled_owners (g : gmap OrderId OrderOwner.t → gmap OrderId OrderOwner.t)
    (owners : gmap OrderId OrderOwner.t) (ts : list Trade) : gmap OrderId OrderOwner.t :=
  rest_owners order_id client_socket risk_client_id b g
    (drop_owners (gone_ids order_id b ts) owners).
Definition settled_risk (owners : gmap OrderId OrderOwner.t) (ts : list Trade) (r : RiskEngine.t)
    : RiskEngine.t :=
  rest_risk symbol order_id risk_client_id b
    (foldl (trade_risk symbol order_id client_socket risk_client_id owners) r ts).

Lemma settle_at otherwise g owners s (trades : TradeBuffer.t) :
  TradeBuffer.ok default_capacity trades → acts_as otherwise g →
  let ts := TradeBuffer.view trades in
  ∃ snapshot, capture_book_snapshot wire_symbol book = Ok snapshot ∧
    settle symbol wire_symbol order_id client_socket risk_client_id otherwise (at_ owners s, trades) =
    (Ok (Outcome.mk true RiskEngine.None_ (settled_effects owners ts)
           (rest_event wire_symbol order_id b) snapshot),
     (at_ (settled_owners g owners ts) (set_risk (settled_risk owners ts (risk_engine_ s)) s),
      trades)).
Proof.
  intros Hok Hg ts.
  assert (∀ s', buffered_trades (s', trades) = (Ok ts, (s', trades))) as Hts.
  { intros s'. unfold buffered_trades. cbn [fst snd]. by rewrite (TradeBuffer.to_vector_view default_capacity). }
  set (r1 := foldl (trade_risk symbol order_id client_socket risk_client_id owners) (risk_engine_ s) ts).
  set (owners1 := drop_owners (gone_ids order_id b ts) owners).
  set (owners2 := settled_owners g owners ts).
  set (s2 := set_risk (settled_risk owners ts (risk_engine_ s)) s).
  destruct (snapshot_at owners2 s2 trades) as (snapshot & Hs & He). exists snapshot. split; [done|].
  unfold settle, record_trades. unfold bind at 1. unfold bind at 1. rewrite Hts, record_all_at.
  fold r1 (settled_effects owners ts).
  unfold bind at 1, remove_filled_order_owners. unfold bind at 1. rewrite Hts, drop_all_at. fold owners1.
  unfold bind at 1. rewrite find_settled_order. unfold bind at 1.
  unfold s2, owners2, settled_owners, settled_risk, rest_owners, rest_risk, rest_event in *.
  fold owners1 r1 in He |- *. clearbody r1 owners1.
  destruct (lookup_order b order_id) as [o|].
  - unfold note_resting. unfold bind at 1. unfold bind at 1. rewrite on_owners_at. unfold bind at 1.
    unfold on_risk, on_server, modify. cbn [fst snd ret].
    match goal with |- context [set_risk ?r (at_ ?w (set_risk r1 s))] =>
      change (set_risk r (at_ w (set_risk r1 s))) with (at_ w (set_risk r s)) end.
    unfold bind. cbn [risk_engine_ with_instrument set_instruments set_risk].
    change (set_risk r1 s) with (set_risk r1 s). fold (with_instrument symbol). 
    unfold with_instrument, set_instruments, set_risk in *. cbn in *. rewrite He. by destruct (Order.side o).
  - unfold bind at 1. rewrite Hg. cbn [ret]. unfold bind. rewrite He. done.
Qed.
End eval.

(** ** What the sections under the lock leave behind *)

Section locked.
Context (io : list byte → list byte → option nat).
Context (elapsed : t → Z).

(* the engine has matched an order on a book *)
Definition matched (order : Order) (book book' : OrderBook.t) (ts : list Trade) : Prop :=
  BookSpec.valid_incoming order ∧ OrderBook.inv book' ∧
  MatchingEngine.outcome (BookSpec.normalise order) book (Ok tt) book' ts.

(* the server when an engine call, and its settlement, are done *)
Definition settled_server (symbol : string) (i : InstrumentState.t) (r : RiskEngine.t)
    (m : PerformanceMetrics.t) (j : option (list byte)) (s : t) : t :=
  with_instrument symbol i (set_risk r (set_metrics m (set_journal j s))).

Lemma journal_step header body (st : t * TradeBuffer.t) st' :
  append_journal_record io header body st = (Ok tt, st') →
  ∃ j, st' = (set_journal j st.1, st.2).
Proof.
  destruct st as [s trades]. unfold append_journal_record. cbn [fst snd].
  destruct (journal_ s) as [file|] eqn:E.
  - destruct (Journal.append _ _ _) as [[]]; [|done]. intros [= _ <-]. by eexists.
  - intros [= <-]. exists None. rewrite <- E. by destruct s.
Qed.

Lemma process_matched order book trades book' trades' :
  OrderBook.inv book → TradeBuffer.ok default_capacity trades → in_u32 (Order.remaining_quantity order) →
  MatchingEngine.process_order_into order (book, trades) = (Ok tt, (book', trades')) →
  TradeBuffer.ok default_capacity trades' ∧ matched order book book' (TradeBuffer.view trades').
Proof.
  intros Hi Hok Hq He.
  assert (BookSpec.valid_incoming order) as Hv.
  { unfold in_u32 in Hq. red. destruct (Z.eq_dec (Order.remaining_quantity order) 0) as [H0|]; [|lia].
    rewrite MatchingEngine.process_order_unfold in He. apply Z.eqb_eq in H0. by rewrite H0 in He. }
  assert (sink_ok trades) as Hok' by exact Hok.
  destruct (MatchingEngine.process_order_outcome (B := TradeBuffer.t) order book trades Hi Hok' Hv)
    as (r & book2 & trades2 & He2 & Hi' & Hok2 & Hout).
  rewrite He in He2. injection He2 as <- <- <-. done.
Qed.

(* the best price of a side, and what rests there *)
Lemma best_typed s book p level ls :
  OrderBook.inv book → MatchingEngine.book_typed book → OrderBook.levels s book = (p, level) :: ls →
  in_i64 p ∧ in_u32 (PriceLevel.total_quantity level).
Proof.
  intros Hi Hty Hl.
  destruct (OrderBook.side_level s (OrderBook.levels s book) p level (OrderBook.inv_side s book Hi))
    as (Hwf & Hne & _); [rewrite Hl; by left|].
  split.
  2:{ unfold PriceLevel.total_quantity. rewrite (PriceLevel.wf_total _ _ _ Hwf). apply u32_in. }
  destruct (PriceLevel.orders_ level) as [|[n o] ns] eqn:E; [done|].
  destruct (proj1 (MatchingEngine.book_typed_sides s book) Hty) as [Hs _].
  unfold OrderBook.abs_side in Hs. rewrite Hl, OrderBook.flat_cons, E in Hs. cbn in Hs.
  apply Forall_cons in Hs as [(_ & Ho & _) _].
  pose proof (PriceLevel.wf_orders _ _ _ Hwf) as Hall. rewrite E in Hall.
  apply Forall_cons in Hall as [Ho' _]. destruct Ho' as (_ & _ & <- & _). exact Ho.
Qed.

Lemma reference_typed side book p :
  OrderBook.inv book → MatchingEngine.book_typed book →
  market_reference_price side book = Ok (Some p) → in_i64 p.
Proof.
  intros Hi Hty Hp.
  assert (∃ s level ls, OrderBook.levels s book = (p, level) :: ls) as (s & level & ls & Hl).
  { unfold market_reference_price, OrderBook.has_asks, OrderBook.has_bids, OrderBook.has_levels,
      OrderBook.best_ask, OrderBook.best_bid, OrderBook.best in Hp.
    destruct side; [destruct (OrderBook.levels Sell book) as [|[q level] ls] eqn:E
      |destruct (OrderBook.levels Buy book) as [|[q level] ls] eqn:E]; try done;
      injection Hp as <-; eauto. }
  by eapply best_typed.
Qed.
(** A new order that is accepted. *)
Record entered (symbol : string) (client_socket risk_client_id : Z)
    (request : Protocol.NewOrderRequest.t) (st : t * TradeBuffer.t) (o : Outcome.t)
    (st' : t * TradeBuffer.t) : Prop := {
  entered_enter : may_enter st.1 risk_client_id symbol request;
  entered_typed : ∃ reference_price,
    let q := risk_request_of risk_client_id symbol (order_of request) reference_price in
    RiskEngine.request_typed q ∧
    RiskEngine.RiskDecision.accepted (RiskEngine.check_new_order (risk_engine_ st.1) q) = true;
  entered_run :
    let i := instrument_of st.1 symbol in
    let order_id := Protocol.NewOrderRequest.order_id request in
    let wire_symbol := Protocol.NewOrderRequest.symbol request in
    let owners := InstrumentState.order_owners i in
    ∃ book' ts m j,
      OrderBook.inv (InstrumentState.book i) ∧
      matched (order_of request) (InstrumentState.book i) book' ts ∧
      st'.1 = settled_server symbol
        (InstrumentState.mk book' (settled_owners order_id client_socket risk_client_id book'
           (λ m, m) owners ts))
        (settled_risk symbol order_id client_socket risk_client_id book' owners ts
           (risk_engine_ st.1)) m j (instrument_for symbol st.1) ∧
      Outcome.effects o =
        settled_effects wire_symbol order_id client_socket risk_client_id book' owners ts ∧
      Outcome.level3_add o = rest_event wire_symbol order_id (OrderBook.abs book') ∧
      capture_book_snapshot wire_symbol book' = Ok (Outcome.snapshot o)
}.

Lemma instrument_for_found symbol s :
  instruments_ (instrument_for symbol s) !! symbol = Some (instrument_of s symbol).
Proof.
  unfold instrument_for, instrument_of. destruct (instruments_ s !! symbol) eqn:E; [done|].
  simpl. by rewrite lookup_insert_eq.
Qed.

Lemma instrument_for_risk symbol s : risk_engine_ (instrument_for symbol s) = risk_engine_ s.
Proof. unfold instrument_for. by destruct (instruments_ s !! symbol). Qed.

Lemma instrument_of_sound st symbol :
  books_sound st →
  OrderBook.inv (InstrumentState.book (instrument_of st.1 symbol)) ∧
  MatchingEngine.book_typed (InstrumentState.book (instrument_of st.1 symbol)).
Proof.
  intros [_ Hb _]. unfold instrument_of. destruct (instruments_ st.1 !! symbol) as [i|] eqn:Hi; simpl.
  - by destruct (Hb _ _ Hi).
  - by destruct MatchingEngine.start_sound.
Qed.

(* the engine call and the settlement *)
Lemma engine_settle {A} symbol wire_symbol order_id client_socket risk_client_id i
    (call : M (OrderBook.t * TradeBuffer.t) A) x otherwise g (st : t * TradeBuffer.t) book' trades' o st' :
  instruments_ st.1 !! symbol = Some i →
  call (InstrumentState.book i, st.2) = (Ok x, (book', trades')) →
  OrderBook.inv book' → TradeBuffer.ok default_capacity trades' →
  acts_as symbol book' otherwise g →
  bind (on_engine symbol call) (λ _, record_matching_latency elapsed ;;;
    settle symbol wire_symbol order_id client_socket risk_client_id otherwise) st = (Ok o, st') →
  let ts := TradeBuffer.view trades' in
  let owners := InstrumentState.order_owners i in
  ∃ m,
    st'.1 = with_instrument symbol
      (InstrumentState.mk book' (settled_owners order_id client_socket risk_client_id book' g owners ts))
      (set_risk (settled_risk symbol order_id client_socket risk_client_id book' owners ts
         (risk_engine_ st.1)) (set_metrics m st.1)) ∧
    Outcome.effects o =
      settled_effects wire_symbol order_id client_socket risk_client_id book' owners ts ∧
    Outcome.level3_add o = rest_event wire_symbol order_id (OrderBook.abs book') ∧
    capture_book_snapshot wire_symbol book' = Ok (Outcome.snapshot o).
Proof.
  intros Hi He Hinv Hok Hg H ts owners.
  unfold bind at 1, on_engine in H. rewrite Hi, He in H.
  unfold bind at 1, record_matching_latency, on_server, modify in H. cbn [fst snd] in H.
  match type of H with context [set_metrics ?m (set_instruments _ _)] => set (mm := m) in H end.
  change (set_metrics mm (set_instruments (<[symbol := InstrumentState.set_book book' i]>
    (instruments_ st.1)) st.1)) with
    (with_instrument symbol (InstrumentState.mk book' owners) (set_metrics mm st.1)) in H.
  destruct (settle_at symbol wire_symbol order_id client_socket risk_client_id book' Hinv otherwise g
    owners (set_metrics mm st.1) trades' Hok Hg) as (snapshot & Hc & Hs).
  rewrite Hs in H. injection H as <- <-. exists mm. by split_and!.
Qed.

Lemma new_order_entered client id symbol request header body st o st' :
  books_sound st → Protocol.new_order_valid request →
  new_order_locked io elapsed client id symbol request header body st = (Ok o, st') →
  Outcome.accepted o = true →
  entered symbol client id request st o st'.
Proof.
  intros Hs Hv H Hacc. pose proof (new_order_outcome io elapsed _ _ _ _ _ _ _ _ _ H) as Henter.
  rewrite Hacc in Henter. destruct (instrument_of_sound st symbol Hs) as [Hinv Hty].
  unfold new_order_locked in H. apply bind_Ok in H as ([] & st1 & H1 & H). injection H1 as <-.
  apply bind_Ok in H as (b & st2 & (-> & i & x & Hi & Hx & Hb)%order_exists_inv & H).
  apply bind_Ok in H as (j & st3 & Hj & H). rewrite (instrument_found _ _ _ Hi) in Hj.
  injection Hj as <- <-. cbn [fst snd] in *.
  rewrite instrument_for_found in Hi. injection Hi as <-. set (i := instrument_of st.1 symbol) in *.
  destruct (b || _); [by apply bind_Ok in H as ([] & st2 & [= <-] & [= <- _])|].
  apply bind_Ok in H as (reference & st4 & Href & H).
  assert (st4 = (instrument_for symbol st.1, st.2) ∧ RiskEngine.request_typed
    (risk_request_of id symbol (order_of request) reference)) as [-> Hrt].
  { pose proof (ServerSafety.order_of_typed request Hv) as (_ & Hp & _ & Hq & _).
    revert Href. unfold lift, ret. destruct (Order.type (order_of request)); intros [= Hr <-].
    - split; [done|]. subst reference. by split.
    - split; [done|]. split; [done|]. simpl. destruct reference as [p|]; [|done].
      by eapply reference_typed. }
  apply bind_Ok in H as (s & st5 & [= <- <-] & H). cbn [fst] in H.
  destruct (RiskEngine.RiskDecision.accepted _) eqn:Hrisk; cbn [negb] in H.
  2:{ by apply bind_Ok in H as ([] & st2 & [= <-] & [= <- _]). }
  split; [done| |].
  { exists reference. split; [done|]. by rewrite instrument_for_risk in Hrisk. }
  intros i' order_id wire owners. fold i in i'. subst i'.
  apply bind_Ok in H as ([] & st2 & (jj & ->)%journal_step & H). cbn [fst snd] in H.
  apply bind_Ok in H as ([] & st3 & He & H). pose proof He as He'.
  unfold on_engine in He. cbn [fst snd set_journal instruments_] in He.
  rewrite instrument_for_found in He. fold i in He.
  destruct (MatchingEngine.process_order_into (order_of request) (InstrumentState.book i, st.2))
    as [r [book' trades']] eqn:Hp.
  injection He as -> _.
  assert (in_u32 (Order.remaining_quantity (order_of request))) as Hq by apply u32_in.
  destruct (process_matched _ _ _ _ _ Hinv (ServerSafety.safe_buffer _ _ Hs) Hq Hp) as [Hok Hm].
  assert (acts_as symbol book' (ret tt) (λ m, m)) as Hact by done.
  destruct (engine_settle symbol wire order_id client id i
    (MatchingEngine.process_order_into (order_of request)) tt (ret tt) (λ m, m)
    (set_journal jj (instrument_for symbol st.1), st.2) book' trades' o st')
    as (m & Hst & Heff & Hl3 & Hsnap); try done.
  { apply instrument_for_found. }
  { apply Hm. }
  { unfold bind at 1. by rewrite He'. }
  exists book', (TradeBuffer.view trades'), m, jj. split_and!; try done.
  cbn [fst] in Hst. unfold settled_server.
  rewrite Hst. cbn [risk_engine_ set_journal]. by rewrite instrument_for_risk.
Qed.
(** A cancellation that is accepted. *)
Record withdrawn (order_id : OrderId) (book book' : OrderBook.t) (x : Order) : Prop := {
  withdrawn_inv : OrderBook.inv book;
  withdrawn_order : lookup_order (OrderBook.abs book) order_id = Some x;
  withdrawn_inv' : OrderBook.inv book';
  withdrawn_abs : OrderBook.abs book' = BookSpec.with_side (Order.side x)
    (BookSpec.remove order_id (OrderBook.abs_side (Order.side x) book)) (OrderBook.abs book)
}.

Definition left_by_cancel (symbol : string) (client_socket risk_client_id : Z)
    (request : Protocol.CancelOrderRequest.t) (snapshot : BookSnapshot.t)
    (st st' : t * TradeBuffer.t) : Prop :=
  let i := instrument_of st.1 symbol in
  let order_id := Protocol.CancelOrderRequest.order_id request in
  owned i order_id client_socket risk_client_id = true ∧
  ∃ x book' m j,
    withdrawn order_id (InstrumentState.book i) book' x ∧
    st'.1 = settled_server symbol
      (InstrumentState.mk book' (delete order_id (InstrumentState.order_owners i)))
      (RiskEngine.on_order_cancelled risk_client_id symbol order_id (risk_engine_ st.1)) m j st.1 ∧
    capture_book_snapshot (Protocol.CancelOrderRequest.symbol request) book' = Ok snapshot.

Lemma extract_withdrawn order_id book x book' :
  OrderBook.inv book → OrderBook.extract_order order_id book = (Ok (Some x), book') →
  withdrawn order_id book book' x.
Proof.
  intros Hi He. destruct (OrderBook.extract_order_cases book order_id Hi)
    as [[E _]|[[E _]|(o & book2 & E & Hf & Hid & Hi' & _ & Habs & _)]]; rewrite E in He; [done|done|].
  injection He as -> ->. split; [done| |done|done].
  rewrite find_order_lookup in Hf by done. by injection Hf.
Qed.

Lemma cancel_order_left client id symbol request header body st snapshot st' :
  books_sound st →
  cancel_order_locked io elapsed client id symbol request header body st = (Ok (Some snapshot), st') →
  left_by_cancel symbol client id request snapshot st st'.
Proof.
  intros Hs H. destruct (instrument_of_sound st symbol Hs) as [Hinv _].
  pose proof (cancel_order_outcome io elapsed _ _ _ _ _ _ _ _ _ Hs H) as Hown. cbn beta iota in Hown.
  split; [exact Hown|]. unfold cancel_order_locked in H.
  apply bind_Ok in H as (s & st1 & [= <- <-] & H). unfold find_instrument in H.
  destruct (instruments_ st.1 !! symbol) as [i|] eqn:Hi; [|done].
  rewrite (instrument_of_Some _ _ _ Hi) in *.
  destruct (owned i _ _ _); [cbn [negb] in H|done].
  apply bind_Ok in H as (b & st2 & (-> & _)%order_exists_inv & H).
  destruct b; cbn [negb] in H; [|done].
  apply bind_Ok in H as ([] & st2 & (j & ->)%journal_step & H). cbn [fst snd] in H.
  apply bind_Ok in H as (cancelled & st3 & He & H).
  unfold on_engine in He. cbn [fst snd set_journal instruments_] in He. rewrite Hi in He.
  unfold MatchingEngine.cancel_order, MatchingEngine.on_book, OrderBook.cancel_order, bind at 1 in He.
  cbn [fst snd] in He.
  destruct (OrderBook.extract_order _ _) as [[[x|]|e] book'] eqn:Hx; cbn [fst snd ret] in He;
    [|injection He as <- <-; by apply bind_Ok in H as ([] & st4 & _ & [= ]) |done].
  injection He as <- <-. apply bind_Ok in H as ([] & st4 & [= <-] & H). cbn [negb fst snd] in H.
  apply bind_Ok in H as ([] & st5 & [= <-] & H). apply bind_Ok in H as ([] & st6 & [= <-] & H).
  apply bind_Ok in H as (snapshot' & st7 & Hsnap & [= <- <-]).
  apply extract_withdrawn in Hx; [|done].
  exists x, book'. eexists _, j. split; [done|].
  match type of Hsnap with _ ?s = _ => set (s8 := s) in Hsnap end.
  assert (instruments_ s8.1 !! symbol = Some (InstrumentState.mk book'
    (delete (Protocol.CancelOrderRequest.order_id request) (InstrumentState.order_owners i)))) as H8.
  { simpl. by rewrite lookup_alter_eq, lookup_insert_eq. }
  revert Hsnap. unfold snapshot_of, instrument, bind, lift. rewrite H8. intros [= Hsnap <-].
  split; [|exact Hsnap]. unfold s8, settled_server, with_instrument, set_instruments. simpl.
  by rewrite alter_insert_eq.
Qed.

Lemma withdrawn_typed order_id book book' x :
  withdrawn order_id book book' x → MatchingEngine.book_typed book →
  order_typed x ∧ MatchingEngine.book_typed book'.
Proof.
  intros [Hi Hx _ Habs] Hty.
  apply lookup_order_Some in Hx as [Hin _]; [|by apply all_unique].
  unfold MatchingEngine.book_typed in *. rewrite Forall_forall in Hty. split; [by apply Hty|].
  rewrite Habs. apply Forall_forall. intros y Hy. apply Hty.
  unfold BookSpec.all_orders, BookSpec.remove in *. rewrite elem_of_app in Hy |- *.
  destruct (Order.side x); simpl in Hy; rewrite list_elem_of_filter in Hy; simpl; tauto.
Qed.

(** A replacement that is accepted. *)
Definition left_by_replace (symbol : string) (client_socket risk_client_id : Z)
    (request : Protocol.ReplaceOrderRequest.t) (st : t * TradeBuffer.t) (o : Outcome.t)
    (st' : t * TradeBuffer.t) : Prop :=
  let i := instrument_of st.1 symbol in
  let order_id := Protocol.ReplaceOrderRequest.order_id request in
  let wire_symbol := Protocol.ReplaceOrderRequest.symbol request in
  let owners := InstrumentState.order_owners i in
  let new_price := Protocol.ReplaceOrderRequest.new_price request in
  let new_quantity := u32 (Protocol.ReplaceOrderRequest.new_quantity request) in
  owned i order_id client_socket risk_client_id = true ∧
  RiskEngine.RiskDecision.accepted (RiskEngine.check_replace (risk_engine_ st.1) risk_client_id
    symbol order_id new_price new_quantity) = true ∧
  ∃ x book1 book' ts m j,
    withdrawn order_id (InstrumentState.book i) book1 x ∧
    matched (MatchingEngine.replacement_of x new_price new_quantity
      (Protocol.ReplaceOrderRequest.timestamp request)) book1 book' ts ∧
    st'.1 = settled_server symbol
      (InstrumentState.mk book' (settled_owners order_id client_socket risk_client_id book'
         (delete order_id) owners ts))
      (settled_risk symbol order_id client_socket risk_client_id book' owners ts
         (RiskEngine.on_order_cancelled risk_client_id symbol order_id (risk_engine_ st.1)))
      m j st.1 ∧
    Outcome.effects o =
      settled_effects wire_symbol order_id client_socket risk_client_id book' owners ts ∧
    Outcome.level3_add o = rest_event wire_symbol order_id (OrderBook.abs book') ∧
    capture_book_snapshot wire_symbol book' = Ok (Outcome.snapshot o).

Lemma replace_into_matched order_id p q ts book trades book' trades' :
  OrderBook.inv book → TradeBuffer.ok default_capacity trades → in_u32 q →
  MatchingEngine.replace_order_into order_id p q ts (book, trades) = (Ok true, (book', trades')) →
  TradeBuffer.ok default_capacity trades' ∧
  ∃ x book1, withdrawn order_id book book1 x ∧
    matched (MatchingEngine.replacement_of x p q ts) book1 book' (TradeBuffer.view trades').
Proof.
  intros Hi Hok Hq H. unfold MatchingEngine.replace_order_into in H. destruct (q =? 0); [done|].
  apply bind_Ok in H as ([] & st1 & [= <-] & H). cbn [fst snd] in H.
  apply bind_Ok in H as (existing & st2 & He & H). unfold MatchingEngine.on_book in He. cbn [fst snd] in He.
  destruct (OrderBook.extract_order order_id book) as [r book1] eqn:Hx. injection He as -> <-.
  destruct existing as [x|]; [|done]. apply extract_withdrawn in Hx; [|done].
  apply bind_Ok in H as ([] & [book2 trades2] & Hp & [= <- <-]).
  assert (in_u32 (Order.remaining_quantity (MatchingEngine.replacement_of x p q ts))) as Hq' by done.
  destruct (process_matched _ _ _ _ _ (withdrawn_inv' _ _ _ _ Hx)
    (TradeBuffer.clear_ok _ _ Hok) Hq' Hp) as [Hok' Hm].
  split; [done|]. by exists x, book1.
Qed.

Lemma replace_order_left client id symbol request header body st o st' :
  books_sound st →
  replace_order_locked io elapsed client id symbol request header body st = (Ok o, st') →
  Outcome.accepted o = true →
  left_by_replace symbol client id request st o st'.
Proof.
  intros Hs H Hacc. destruct (instrument_of_sound st symbol Hs) as [Hinv _].
  pose proof (replace_order_outcome io elapsed _ _ _ _ _ _ _ _ _ Hs H) as Hout.
  rewrite Hacc in Hout. destruct Hout as [Hown Hrisk]. split; [exact Hown|]. split; [exact Hrisk|].
  unfold replace_order_locked in H.
  apply bind_Ok in H as (s & st1 & [= <- <-] & H). unfold find_instrument in H.
  destruct (instruments_ st.1 !! symbol) as [i|] eqn:Hi; [|by injection H as <- _].
  rewrite (instrument_of_Some _ _ _ Hi) in *.
  apply bind_Ok in H as (x & st2 & (-> & _)%find_order_inv & H).
  destruct x as [x|]; [|by injection H as <- _].
  rewrite Hown, Hrisk in H. cbn [negb] in H.
  apply bind_Ok in H as ([] & st2 & (j & ->)%journal_step & H). cbn [fst snd] in H.
  apply bind_Ok in H as ([] & st3 & [= <-] & H). cbn [fst snd] in H.
  apply bind_Ok in H as (replaced & st4 & He & H). pose proof He as He'.
  unfold on_engine in He. cbn [fst snd set_journal set_risk instruments_] in He. rewrite Hi in He.
  destruct (MatchingEngine.replace_order_into _ _ _ _ _) as [r [book' trades']] eqn:Hp.
  injection He as -> _.
  destruct replaced; cbn [negb] in H.
  2:{ apply bind_Ok in H as ([] & ? & _ & H). apply bind_Ok in H as ([] & ? & _ & H).
      by injection H as <- _. }
  pose proof Hp as Hp'. apply replace_into_matched in Hp' as (Hok & y & book1 & Hw & Hm);
    [|done|apply (ServerSafety.safe_buffer _ _ Hs)|apply u32_in].
  unfold settle_replacement in H.
  set (order_id := Protocol.ReplaceOrderRequest.order_id request) in *.
  set (s1 := set_risk _ _) in *.
  destruct (engine_settle symbol (Protocol.ReplaceOrderRequest.symbol request) order_id client id i
    (MatchingEngine.replace_order_into order_id (Protocol.ReplaceOrderRequest.new_price request)
       (u32 (Protocol.ReplaceOrderRequest.new_quantity request))
       (Protocol.ReplaceOrderRequest.timestamp request)) true
    (on_owners symbol (delete order_id)) (delete order_id) (s1, st.2) book' trades' o st')
    as (m & Hst & Heff & Hl3 & Hsnap); try done.
  { by apply Hm. }
  { intros owners s trades. by apply on_owners_at. }
  { unfold bind at 1. by rewrite He'. }
  exists y, book1, book', (TradeBuffer.view trades'), m, j. split_and!; try done.
Qed.
End locked.

End ServerSettle.
