(* ===== verification/FeedReader.v ===== *)
(** * A reader of the level-3 feed

    What a subscriber does with the market data the server sends: it keeps, for
    every symbol, the two queues of orders, and changes them as the level-3
    events say.  It models no code of the repository; it is what the feed is
    for, and ServerFeed.v proves that it always ends up with the books of the
    server.  Here: the reader, and its agreement with the matching of an
    order. *)
From Stdlib Require Import Strings.String.
From S2P Require Import Prelude Types SortedMap BookSpec OrderBook MatchingEngine Bytes Protocol ExchangeServer ServerOrders ServerSettle.
Open Scope Z_scope.

Module FeedReader.
Import ServerSettle.

(** ** The reader *)

Module Entry.
Record t : Type := mk { id : OrderId; timestamp : Timestamp; price : Price; quantity : Z }.
End Entry.

Record view : Type := mk_view { view_bids : list Entry.t; view_asks : list Entry.t }.

Definition views : Type := string → view.

(* the same view of every symbol *)
Record views_same (v1 v2 : views) : Prop := { same_at : ∀ symbol, v1 symbol = v2 symbol }.
#[export] Instance views_equiv : Equiv views := views_same.
#[export] Instance views_equivalence : Equivalence (≡@{views}).
Proof.
  split; [by intros v; split|by intros v1 v2 [H]; split|].
  intros v1 v2 v3 [H1] [H2]. split. intros symbol. by rewrite H1.
Qed.

Definition on_sides (f g : list Entry.t → list Entry.t) (v : view) : view :=
  mk_view (f (view_bids v)) (g (view_asks v)).

Definition on_side (s : Side) (f : list Entry.t → list Entry.t) : view → view :=
  match s with Buy => on_sides f id | Sell => on_sides id f end.

Definition at_symbol (symbol : string) (f : view → view) (v : views) : views :=
  λ symbol', if decide (symbol' = symbol) then f (v symbol') else v symbol'.

(* behind every order of the same or a better price *)
Fixpoint queue (s : Side) (e : Entry.t) (l : list Entry.t) : list Entry.t :=
  match l with
  | [] => [e]
  | x :: l' => if before_of s (Entry.price e) (Entry.price x) then e :: l else x :: queue s e l'
  end.

Definition fill (id : OrderId) (q : Z) (e : Entry.t) : Entry.t :=
  if decide (Entry.id e = id)
  then Entry.mk (Entry.id e) (Entry.timestamp e) (Entry.price e) (Entry.quantity e - q)
  else e.

Definition read_added (e : Protocol.Level3AddOrder.t) : view → view :=
  let s := if Protocol.Level3AddOrder.side e =? Protocol.Side_Buy then Buy else Sell in
  on_side s (queue s (Entry.mk (Protocol.Level3AddOrder.order_id e)
    (Protocol.Level3AddOrder.timestamp e) (Protocol.Level3AddOrder.price e)
    (Protocol.Level3AddOrder.quantity e))).

Definition read_executed (e : Protocol.Level3OrderExecuted.t) : view → view :=
  let q := Protocol.Level3OrderExecuted.quantity e in
  on_sides (fmap (fill (Protocol.Level3OrderExecuted.buy_order_id e) q))
    (fmap (fill (Protocol.Level3OrderExecuted.sell_order_id e) q)).

Definition without (id : OrderId) : list Entry.t → list Entry.t := filter (λ e, Entry.id e ≠ id).

Definition read_deleted (id : OrderId) : view → view := on_sides (without id) (without id).

Definition text (symbol : Protocol.Symbol) : string := Protocol.symbol_to_string symbol.

(** A message, whatever it is: anything but a level-3 event is passed over. *)
Definition read_body (type : Z) (body : list byte) (v : views) : views :=
  if type =? Protocol.MessageType.Level3AddOrder
  then match Protocol.decode_level3_add_order body with
       | Some e => at_symbol (text (Protocol.Level3AddOrder.symbol e)) (read_added e) v
       | None => v
       end
  else if type =? Protocol.MessageType.Level3OrderExecuted
  then match Protocol.decode_level3_order_executed body with
       | Some e => at_symbol (text (Protocol.Level3OrderExecuted.symbol e)) (read_executed e) v
       | None => v
       end
  else if type =? Protocol.MessageType.Level3OrderDeleted
  then match Protocol.decode_level3_order_deleted body with
       | Some e => at_symbol (text (Protocol.Level3OrderDeleted.symbol e))
                     (read_deleted (Protocol.Level3OrderDeleted.order_id e)) v
       | None => v
       end
  else v.

Definition read_message (v : views) (message : list byte) : views :=
  match Protocol.decode_header (take Protocol.header_size message) with
  | Some header =>
      read_body (Protocol.MessageHeader.type header) (drop Protocol.header_size message) v
  | None => v
  end.

Definition follow (messages : list (list byte)) (v : views) : views := foldl read_message v messages.

#[export] Instance at_symbol_proper symbol f : Proper ((≡) ==> (≡)) (at_symbol symbol f).
Proof. intros v1 v2 [H]. split. intros symbol'. unfold at_symbol. by rewrite H. Qed.

#[export] Instance read_message_proper : Proper ((≡) ==> (=) ==> (≡)) read_message.
Proof.
  intros v1 v2 H m ? <-. unfold read_message, read_body.
  repeat case_match; try done; by apply at_symbol_proper.
Qed.

#[export] Instance follow_proper messages : Proper ((≡) ==> (≡)) (follow messages).
Proof.
  unfold follow. induction messages as [|m messages IH]; intros v1 v2 H; [done|].
  apply IH. by apply read_message_proper.
Qed.

Lemma follow_app m1 m2 v : follow (m1 ++ m2) v = follow m2 (follow m1 v).
Proof. apply foldl_app. Qed.

Lemma at_symbol_compose symbol f g v :
  at_symbol symbol g (at_symbol symbol f v) ≡ at_symbol symbol (λ w, g (f w)) v.
Proof. split. intros symbol'. unfold at_symbol. by destruct (decide (symbol' = symbol)). Qed.

(** ** The view of a book *)

Definition entry_of (o : Order) : Entry.t :=
  Entry.mk (Order.id o) (Order.timestamp o) (Order.price o) (Order.remaining_quantity o).

Definition view_of (b : BookSpec.t) : view :=
  mk_view (entry_of <$> BookSpec.bids b) (entry_of <$> BookSpec.asks b).

Definition side_view (s : Side) (v : view) : list Entry.t :=
  match s with Buy => view_bids v | Sell => view_asks v end.

Lemma view_eq s v1 v2 :
  side_view s v1 = side_view s v2 → side_view (opposite s) v1 = side_view (opposite s) v2 → v1 = v2.
Proof. destruct v1, v2, s; simpl; by intros -> ->. Qed.

Lemma side_view_of s b : side_view s (view_of b) = entry_of <$> BookSpec.side_orders s b.
Proof. by destruct s. Qed.

Lemma queue_enqueue s o l :
  entry_of <$> BookSpec.enqueue s o l = queue s (entry_of o) (entry_of <$> l).
Proof.
  induction l as [|x l IH]; [done|]. simpl. destruct (before_of _ _ _); [done|].
  by rewrite fmap_cons, IH.
Qed.

Lemma without_entries id l : without id (entry_of <$> l) = entry_of <$> BookSpec.remove id l.
Proof.
  unfold without, BookSpec.remove. induction l as [|x l IH]; [done|]. rewrite fmap_cons, !filter_cons.
  simpl. rewrite IH. by case_decide.
Qed.

Lemma without_absent id l : Forall (λ e, Entry.id e ≠ id) l → without id l = l.
Proof. apply filter_all. Qed.

(** *** Removing many orders, in any order *)

Definition drop_entries (ids : list OrderId) (l : list Entry.t) : list Entry.t :=
  foldl (λ l id, without id l) l ids.

Lemma drop_entries_filter ids l : drop_entries ids l = filter (λ e, Entry.id e ∉ ids) l.
Proof.
  revert l. induction ids as [|id ids IH]; intros l; simpl.
  - symmetry. apply filter_all. apply Forall_forall. intros e _. apply not_elem_of_nil.
  - unfold drop_entries in *. rewrite IH. unfold without. rewrite list_filter_filter.
    apply list_filter_iff. intros e. rewrite not_elem_of_cons. tauto.
Qed.

(** *** The trades of an order, on the queue it trades against *)

(* the order of side [s] in a trade *)
Definition party (s : Side) (t : Trade) : OrderId :=
  match s with Buy => Trade.buy_order_id t | Sell => Trade.sell_order_id t end.

Definition fill_all (s : Side) (ts : list Trade) (e : Entry.t) : Entry.t :=
  foldl (λ e t, fill (party s t) (Trade.quantity t) e) e ts.

Lemma fill_id id q e : Entry.id (fill id q e) = Entry.id e.
Proof. unfold fill. by destruct (decide _). Qed.

Lemma fill_all_id s ts e : Entry.id (fill_all s ts e) = Entry.id e.
Proof.
  unfold fill_all. revert e. induction ts as [|t ts IH]; intros e; [done|]. simpl. by rewrite IH, fill_id.
Qed.

Lemma fill_all_absent s ts e : Entry.id e ∉ party s <$> ts → fill_all s ts e = e.
Proof.
  unfold fill_all. induction ts as [|t ts IH]; [done|]. rewrite fmap_cons, not_elem_of_cons.
  intros [Hne Hts]. simpl. unfold fill at 2. rewrite decide_False by done. by apply IH.
Qed.

Lemma party_trade incoming o q :
  party (opposite (Order.side incoming)) (trade_between incoming o q) = Order.id o ∧
  party (Order.side incoming) (trade_between incoming o q) = Order.id incoming.
Proof. unfold trade_between. by destruct (Order.side incoming). Qed.

Lemma party_full incoming (l : list Order) :
  party (opposite (Order.side incoming)) <$> (BookSpec.full_trade incoming <$> l) = Order.id <$> l.
Proof.
  rewrite <- list_fmap_compose. apply list_fmap_ext. intros i o _. apply party_trade.
Qed.

(** A sweep, event by event: executing its trades and dropping the orders they
    filled leaves the queue the sweep leaves. *)
Lemma sweep_followed incoming q l ts q' l' ids :
  let s := opposite (Order.side incoming) in
  BookSpec.swept incoming q l ts q' l' → NoDup (Order.id <$> l) →
  (∀ id, id ∈ ids ↔ id ∈ party s <$> ts ∧ id ∉ Order.id <$> l') →
  drop_entries ids (fill_all s ts <$> (entry_of <$> l)) = entry_of <$> l'.
Proof.
  intros s Hsw Hd Hids. rewrite drop_entries_filter.
  pose proof (party_full incoming) as Hfull. fold s in Hfull.
  assert (∀ l1 l2 : list Order, (∀ o, o ∈ l1 → Order.id o ∈ ids) →
    (∀ o, o ∈ l2 → Order.id o ∉ ids) →
    filter (λ e, Entry.id e ∉ ids) (fill_all s ts <$> (entry_of <$> (l1 ++ l2))) =
      fill_all s ts <$> (entry_of <$> l2)) as Hfilter.
  { intros l1 l2 H1 H2. rewrite !fmap_app, filter_app.
    rewrite (filter_all (λ e, Entry.id e ∉ ids) (fill_all s ts <$> (entry_of <$> l2))).
    - match goal with |- ?x ++ _ = _ => assert (x = []) as ->; [|done] end.
      rewrite <- !list_fmap_compose. clear Hids Hsw. induction l1 as [|o l1 IH]; [done|]. rewrite fmap_cons, filter_cons_False.
      + apply IH. intros x Hx. apply H1. by right.
      + simpl. rewrite fill_all_id. intros Hn. apply Hn. apply (H1 o). by left.
    - rewrite <- list_fmap_compose. apply Forall_fmap, Forall_forall. intros o Ho. simpl.
      rewrite fill_all_id. by apply H2. }
  destruct Hsw as [filled rest -> _ _ _|filled o rest -> _ _ _].
  - rewrite Hfull in Hids. rewrite fmap_app in Hd. apply NoDup_app in Hd as (_ & Hdisj & _).
    rewrite Hfilter.
    + rewrite <- !list_fmap_compose. apply list_fmap_ext. intros i x Hx%list_elem_of_lookup_2. simpl.
      apply fill_all_absent. rewrite Hfull. simpl. intros Hin.
      apply (Hdisj _ Hin), list_elem_of_fmap. eauto.
    + intros x Hx. apply Hids. split; [by apply list_elem_of_fmap_2|].
      apply Hdisj. by apply list_elem_of_fmap_2.
    + intros x Hx [_ Hn]%Hids. apply Hn. by apply list_elem_of_fmap_2.
  - set (last := trade_between incoming o (q - BookSpec.depth filled)) in *.
    rewrite fmap_app, Hfull in Hids. simpl in Hids.
    rewrite fmap_app in Hd. apply NoDup_app in Hd as (_ & Hdisj & Hd').
    rewrite fmap_cons in Hdisj, Hd'. apply NoDup_cons in Hd' as [Ho _].
    assert (party s last = Order.id o) as Hlast by apply party_trade.
    rewrite Hfilter.
    + rewrite !fmap_cons. f_equal.
      * unfold fill_all. rewrite foldl_app. simpl. fold (fill_all s (BookSpec.full_trade incoming <$> filled) (entry_of o)).
        rewrite fill_all_absent.
        { unfold fill. rewrite Hlast, decide_True by done. unfold last.
          by rewrite BookSpec.trade_between_quantity. }
        rewrite Hfull. simpl. intros Hin. apply (Hdisj _ Hin). by left.
      * rewrite <- !list_fmap_compose. apply list_fmap_ext. intros i x Hx%list_elem_of_lookup_2. simpl.
        apply fill_all_absent. rewrite fmap_app, Hfull, elem_of_app. simpl.
        rewrite list_elem_of_singleton, Hlast. intros [Hin|Heq].
        -- apply (Hdisj _ Hin). right. by apply list_elem_of_fmap_2.
        -- apply Ho. rewrite <- Heq. by apply list_elem_of_fmap_2.
    + intros x Hx. apply Hids. split.
      * apply elem_of_app. left. by apply list_elem_of_fmap_2.
      * apply (Hdisj (Order.id x)). by apply list_elem_of_fmap_2.
    + intros x Hx [_ Hn]%Hids. apply Hn. simpl. apply elem_of_cons in Hx as [->|Hx]; [by left|].
      right. by apply list_elem_of_fmap_2.
Qed.

(** ** What the events of an order do to the view of a book *)

Definition read_executions (wire : Protocol.Symbol) (ts : list Trade) (v : view) : view :=
  foldl (λ v t, read_executed (execution_of wire t) v) v ts.
Definition read_deletions (ids : list OrderId) (v : view) : view :=
  foldl (λ v id, read_deleted id v) v ids.
Definition read_addition (event : option Protocol.Level3AddOrder.t) (v : view) : view :=
  match event with Some e => read_added e v | None => v end.

Lemma executions_side s wire ts v :
  side_view s (read_executions wire ts v) = fill_all s ts <$> side_view s v.
Proof.
  unfold read_executions. revert v. induction ts as [|t ts IH]; intros v; simpl.
  - unfold fill_all. simpl. by rewrite list_fmap_id.
  - rewrite IH. unfold fill_all. simpl.
    destruct s; simpl; rewrite <- list_fmap_compose; by apply list_fmap_ext.
Qed.

Lemma deletions_side s ids v : side_view s (read_deletions ids v) = drop_entries ids (side_view s v).
Proof.
  unfold read_deletions, drop_entries. revert v.
  induction ids as [|id ids IH]; intros v; [done|]. simpl. rewrite IH. by destruct s.
Qed.

Lemma added_side s s' e l :
  side_view s' (on_side s (queue s e) l) =
    if decide (s' = s) then queue s e (side_view s' l) else side_view s' l.
Proof. by destruct s, s', l. Qed.

Lemma elem_of_gone order_id b ts id :
  id ∈ gone_ids order_id b ts ↔
  (∃ t, t ∈ ts ∧ (id = Trade.buy_order_id t ∨ id = Trade.sell_order_id t)) ∧
  id ≠ order_id ∧ lookup_order b id = None.
Proof.
  assert (∀ x, id ∈ gone order_id b x ↔ id = x ∧ id ≠ order_id ∧ lookup_order b id = None) as Hgone.
  { intros x. unfold gone. destruct (Z.eqb_spec x order_id).
    - rewrite elem_of_nil. naive_solver.
    - destruct (lookup_order b x) eqn:E; [rewrite elem_of_nil|rewrite list_elem_of_singleton];
        naive_solver congruence. }
  unfold gone_ids, gone_in. induction ts as [|t ts IH]; simpl.
  - rewrite elem_of_nil. setoid_rewrite elem_of_nil. naive_solver.
  - rewrite elem_of_app, IH, elem_of_app, !Hgone. setoid_rewrite elem_of_cons. naive_solver.
Qed.

Section matched.
Context (order : Order) (book book' : OrderBook.t) (ts : list Trade).
Context (Hi : OrderBook.inv book) (Hm : matched order book book' ts).
Context (Hfresh : lookup_order (OrderBook.abs book) (Order.id order) = None).
Abbreviation s := (Order.side order).

Lemma own_ids_fresh s' : Forall (λ o, Order.id o ≠ Order.id order) (OrderBook.abs_side s' book).
Proof.
  apply lookup_order_None in Hfresh. unfold BookSpec.all_orders in Hfresh.
  apply Forall_app in Hfresh as [Hb Ha]. by destruct s'.
Qed.

Lemma sides_disjoint o1 o2 :
  o1 ∈ OrderBook.abs_side s book → o2 ∈ OrderBook.abs_side (opposite s) book → Order.id o1 ≠ Order.id o2.
Proof.
  pose proof (all_unique book Hi) as Hd. unfold BookSpec.all_orders in Hd. rewrite fmap_app in Hd.
  apply NoDup_app in Hd as (_ & Hd & _). simpl in Hd. intros H1 H2 He.
  destruct s; simpl in *.
  - apply (Hd (Order.id o1)); [by apply list_elem_of_fmap_2|].
    rewrite He. by apply list_elem_of_fmap_2.
  - apply (Hd (Order.id o2)); [by apply list_elem_of_fmap_2|].
    rewrite <- He. by apply list_elem_of_fmap_2.
Qed.

Lemma lookup_sides b id :
  lookup_order b id = None ↔
  (id ∉ Order.id <$> BookSpec.side_orders s b) ∧
  (id ∉ Order.id <$> BookSpec.side_orders (opposite s) b).
Proof.
  rewrite lookup_order_None. unfold BookSpec.all_orders. rewrite Forall_app, !Forall_forall.
  rewrite !list_elem_of_fmap. destruct s; simpl; naive_solver.
Qed.

(** The two queues after the order, and the order itself. *)
Lemma matched_queues :
  (ts = [] ∧ book' = book) ∨
  ∃ q l', 
    BookSpec.swept (BookSpec.normalise order) (Order.remaining_quantity order)
      (OrderBook.abs_side (opposite s) book) ts q l' ∧
    OrderBook.abs_side (opposite s) book' = l' ∧
    (OrderBook.abs_side s book' = OrderBook.abs_side s book ∧
       lookup_order (OrderBook.abs book') (Order.id order) = None ∨
     ∃ o, o = Order.set_remaining_quantity q (BookSpec.normalise order) ∧ 0 < q ∧
       BookSpec.rests (BookSpec.normalise order) = true ∧
       Order.id o = Order.id order ∧ Order.side o = s ∧
       OrderBook.abs_side s book' = BookSpec.enqueue s o (OrderBook.abs_side s book) ∧
       lookup_order (OrderBook.abs book') (Order.id order) = Some o).
Proof.
  destruct Hm as (Hv & Hi' & Hout).
  pose proof (BookSpec.normalise_fields order) as (Hid & Hs & Ht & Hrem & _).
  apply BookSpec.normalise_valid in Hv.
  destruct (MatchingEngine.outcome_queues _ _ _ _ _ Hout Hi Hv) as [(-> & -> & _)|(q & Hq & Hsw & Hown)];
    [by left|right]. rewrite Hs in Hsw, Hown. rewrite Hrem in Hsw. cbn [is_ok] in Hown.
  rewrite andb_true_l in Hown.
  exists q. eexists. split; [exact Hsw|]. split; [done|].
  assert (∀ s', BookSpec.side_orders s' (OrderBook.abs book') = OrderBook.abs_side s' book') as Hsides
    by (intros; apply OrderBook.abs_side_orders).
  assert (Order.id order ∉ Order.id <$> OrderBook.abs_side (opposite s) book') as Hopp.
  { rewrite list_elem_of_fmap. intros (x & Hx & Hin).
    destruct (BookSpec.swept_origin _ _ _ _ _ _ _ Hsw Hin) as (y & Hy & He).
    pose proof (own_ids_fresh (opposite s)) as Hf. rewrite Forall_forall in Hf.
    apply (Hf y Hy). by rewrite Hx, He. }
  destruct ((0 <? q) && BookSpec.rests (BookSpec.normalise order)) eqn:Hrest; [right|left].
  - apply andb_true_iff in Hrest as [Hpos Hrest]. apply Z.ltb_lt in Hpos.
    exists (Order.set_remaining_quantity q (BookSpec.normalise order)).
    do 3 (split; [done|]). split; [done|]. split; [done|]. split; [exact Hown|].
    apply lookup_order_Some; [by apply all_unique|]. split; [|done].
    assert (Order.set_remaining_quantity q (BookSpec.normalise order) ∈ OrderBook.abs_side s book') as Hin.
    { rewrite Hown. apply BookSpec.elem_of_enqueue. by left. }
    unfold BookSpec.all_orders. apply elem_of_app. revert Hin. destruct s; simpl; auto.
  - split; [done|]. apply lookup_sides. rewrite !Hsides. split; [|done].
    rewrite Hown, list_elem_of_fmap. intros (x & Hx & Hin).
    pose proof (own_ids_fresh s) as Hf. rewrite Forall_forall in Hf. by apply (Hf x Hin).
Qed.

Lemma passive_parties incoming q l q' l' id :
  Order.side incoming = s → BookSpec.swept incoming q l ts q' l' →
  id ∈ party (opposite s) <$> ts → id ∈ Order.id <$> l.
Proof.
  intros Hs Hsw. rewrite <- Hs. destruct Hsw as [filled rest -> _ _ _|filled o rest -> _ _ _].
  - rewrite party_full, fmap_app, elem_of_app. by left.
  - rewrite !fmap_app, party_full, fmap_cons, !elem_of_app. simpl.
    rewrite (proj1 (party_trade _ _ _)). set_solver.
Qed.

Lemma active_parties incoming q l q' l' t :
  Order.side incoming = s → BookSpec.swept incoming q l ts q' l' → t ∈ ts →
  party s t = Order.id incoming.
Proof.
  intros Hs Hsw. rewrite <- Hs. destruct Hsw as [filled rest -> _ _ _|filled o rest -> _ _ _].
  - intros (x & -> & _)%list_elem_of_fmap. apply party_trade.
  - intros [(x & -> & _)%list_elem_of_fmap| ->%list_elem_of_singleton]%elem_of_app; apply party_trade.
Qed.

Lemma trade_parties t id :
  id = Trade.buy_order_id t ∨ id = Trade.sell_order_id t ↔ id = party s t ∨ id = party (opposite s) t.
Proof. destruct s; simpl; tauto. Qed.

(** After the trades, the deletions and the addition are read, the reader has
    the book the order left. *)
Lemma matched_followed wire ids :
  (∀ id, id ∈ ids ↔ id ∈ gone_ids (Order.id order) (OrderBook.abs book') ts) →
  view_of (OrderBook.abs book') =
    read_addition (rest_event wire (Order.id order) (OrderBook.abs book'))
      (read_deletions ids (read_executions wire ts (view_of (OrderBook.abs book)))).
Proof.
  intros Hids. unfold rest_event.
  destruct matched_queues as [[Hts Hb]|(q & l' & Hsw & Hopp & Hown)].
  { rewrite Hb, Hfresh. simpl. rewrite Hts in *.
    assert (ids = []) as ->; [|by destruct (OrderBook.abs book)].
    destruct ids as [|id ids]; [done|]. assert (id ∈ id :: ids) as [(t & Ht & _) _]%Hids%elem_of_gone by by left.
    by apply elem_of_nil in Ht. }
  pose proof (BookSpec.normalise_fields order) as (Hid & Hs & _).
  assert (∀ id, id ∈ party (opposite s) <$> ts → id ∈ Order.id <$> OrderBook.abs_side (opposite s) book)
    as Hpassive by by (intros; eapply passive_parties).
  assert (∀ id, id ∈ Order.id <$> OrderBook.abs_side (opposite s) book →
    id ≠ Order.id order ∧ (id ∉ Order.id <$> OrderBook.abs_side s book)) as Hopposite.
  { intros id (x & -> & Hx)%list_elem_of_fmap. pose proof (own_ids_fresh (opposite s)) as Hf.
    rewrite Forall_forall in Hf. split; [by apply Hf|].
    intros (y & Hy & Hin)%list_elem_of_fmap. by apply (sides_disjoint y x). }
  assert (∀ id, id ∈ ids ↔ id ∈ party (opposite s) <$> ts ∧ (id ∉ Order.id <$> l')) as Hpass.
  { intros id. rewrite Hids, elem_of_gone, lookup_sides, !OrderBook.abs_side_orders, Hopp. split.
    - intros ((t & Ht & Hp%trade_parties) & Hne & Ha & Hb). split; [|done].
      destruct Hp as [Hp|Hp]; [|rewrite Hp; by apply list_elem_of_fmap_2].
      rewrite (active_parties _ _ _ _ _ _ Hs Hsw Ht), Hid in Hp. done.
    - intros [Hp Hn]. pose proof (Hpassive _ Hp) as [Hne Hno]%Hopposite. split; [|split; [done|]].
      { apply list_elem_of_fmap in Hp as (t & -> & Ht). exists t. rewrite trade_parties. auto. }
      split; [|done]. destruct Hown as [[-> _]|(o & _ & _ & _ & Ho & _ & -> & _)]; [done|].
      rewrite BookSpec.enqueue_perm, fmap_cons, not_elem_of_cons. by rewrite Ho. }
  set (v := read_deletions ids (read_executions wire ts (view_of (OrderBook.abs book)))).
  assert (side_view (opposite s) v = entry_of <$> OrderBook.abs_side (opposite s) book') as Hv1.
  { unfold v. rewrite deletions_side, executions_side, side_view_of, OrderBook.abs_side_orders, Hopp.
    rewrite <- Hs in Hsw, Hpass |- *. eapply sweep_followed; [exact Hsw| |exact Hpass].
    apply OrderBook.side_unique, Hi. }
  assert (side_view s v = entry_of <$> OrderBook.abs_side s book) as Hv2.
  { unfold v. rewrite deletions_side, executions_side, side_view_of, OrderBook.abs_side_orders.
    rewrite drop_entries_filter. rewrite filter_all.
    - rewrite <- list_fmap_compose. apply list_fmap_ext. intros i x Hx%list_elem_of_lookup_2. simpl.
      apply fill_all_absent. intros (t & Hp & Ht)%list_elem_of_fmap.
      rewrite (active_parties _ _ _ _ _ _ Hs Hsw Ht), Hid in Hp.
      pose proof (own_ids_fresh s) as Hf. rewrite Forall_forall in Hf. by apply (Hf x Hx).
    - rewrite <- list_fmap_compose. apply Forall_fmap, Forall_forall. intros x Hx. simpl.
      rewrite fill_all_id. intros [Hp _]%Hpass. apply Hpassive, Hopposite in Hp as [_ Hn].
      apply Hn. apply list_elem_of_fmap. by exists x. }
  clearbody v. destruct Hown as [[Hown ->]|(o & _ & _ & _ & Ho & Hos & Hown & ->)]; simpl.
  - apply (view_eq s); rewrite side_view_of, OrderBook.abs_side_orders; [by rewrite Hv2, Hown|by rewrite Hv1].
  - unfold read_added. simpl.
    assert ((if wire_side (Order.side o) =? Protocol.Side_Buy then Buy else Sell) = s) as ->
      by (rewrite Hos; by destruct s).
    change (Entry.mk _ _ _ _) with (entry_of o).
    apply (view_eq s); rewrite side_view_of, OrderBook.abs_side_orders, added_side.
    + rewrite decide_True by done. by rewrite Hv2, Hown, queue_enqueue.
    + rewrite decide_False by by destruct s. by rewrite Hv1.
Qed.
End matched.

(** A cancelled order, and the order a replacement takes off the book. *)
Lemma withdrawn_followed order_id book book' x :
  withdrawn order_id book book' x →
  view_of (OrderBook.abs book') = read_deleted order_id (view_of (OrderBook.abs book)).
Proof.
  intros [Hi Hx _ Habs]. rewrite Habs.
  apply lookup_order_Some in Hx as [Hin Hid]; [|by apply all_unique].
  set (s := Order.side x). assert (x ∈ OrderBook.abs_side s book) as Hs.
  { pose proof (OrderBook.abs_wf _ Hi) as [Hb Ha _ _]. unfold BookSpec.all_orders in Hin.
    rewrite Forall_forall in Hb, Ha.
    apply elem_of_app in Hin as [H|H]; unfold s;
      [rewrite (proj1 (Hb _ H))|rewrite (proj1 (Ha _ H))]; done. }
  apply (view_eq s); rewrite side_view_of.
  - rewrite BookSpec.side_with_side, <- without_entries.
    unfold read_deleted. by destruct s.
  - rewrite BookSpec.opposite_with_side, OrderBook.abs_side_orders.
    transitivity (without order_id (entry_of <$> OrderBook.abs_side (opposite s) book)).
    + symmetry. apply without_absent, Forall_fmap, Forall_forall. intros y Hy Hy'. simpl in Hy'.
      pose proof (all_unique book Hi) as Hd. unfold BookSpec.all_orders in Hd.
      rewrite fmap_app in Hd. apply NoDup_app in Hd as (_ & Hd & _).
      assert (order_id ∈ Order.id <$> OrderBook.abs_side s book) as H1
        by (rewrite <- Hid; by apply list_elem_of_fmap_2).
      assert (order_id ∈ Order.id <$> OrderBook.abs_side (opposite s) book) as H2
        by (rewrite <- Hy'; by apply list_elem_of_fmap_2).
      destruct s; simpl in *; by apply (Hd order_id).
    + unfold read_deleted. by destruct s.
Qed.

Lemma withdrawn_fresh order_id book book' x :
  withdrawn order_id book book' x → lookup_order (OrderBook.abs book') order_id = None ∧
  Order.id x = order_id.
Proof.
  intros Hw. pose proof (withdrawn_followed _ _ _ _ Hw) as Hv. destruct Hw as [Hi Hx _ Habs].
  apply lookup_order_Some in Hx as [_ Hid]; [|by apply all_unique]. split; [|done].
  apply lookup_order_None. unfold BookSpec.all_orders.
  assert (∀ l l', entry_of <$> l = without order_id l' → Forall (λ o, Order.id o ≠ order_id) l) as Hl.
  { intros l l' He. apply Forall_forall. intros o Ho.
    assert (entry_of o ∈ without order_id l') as Hin by (rewrite <- He; by apply list_elem_of_fmap_2).
    by apply list_elem_of_filter in Hin as [Hne _]. }
  injection Hv as Hb Ha. apply Forall_app. split; by eapply Hl.
Qed.

End FeedReader.
