(* ===== verification/ServerFeed.v ===== *)
(** * The market data feed and the books

    A subscriber that reads the level-3 events of the server, and nothing else,
    has the books of the server after every message: the executions, deletions
    and additions a handler sends are exactly what the engine did.  This holds
    for the multicast group and for every connected client. *)
From Stdlib Require Import Strings.String.
From S2P Require Import Prelude Types PriceLevel TradeBuffer BookSpec OrderBook MatchingEngine RiskEngine Bytes Protocol Messages PerformanceMetrics Journal Replay ExchangeServer ServerDemo ServerFrames ServerSafety ServerMessages ServerOrders ServerSettle FeedReader.
Open Scope Z_scope.

Module ServerFeed.
Import Messages ExchangeServer ServerFrames ServerOrders ServerSettle FeedReader.

(** ** What a subscriber hears *)

#[export] Instance destination_eq_dec : EqDecision Destination.
Proof. solve_decision. Defined.

Definition heard (d : Destination) (out : list (Destination * list byte)) : list (list byte) :=
  (filter (λ x, x.1 = d) out).*2.

(* a broadcast reaches [d], once *)
Definition listening (d : Destination) (s : t) : Prop :=
  filter (λ x, x = d) (ServerMessages.everyone s) = [d].

(* the sequence number is one of its type *)
Definition counting (s : t) : Prop := in_u64 (next_sequence_number_ s).

Lemma framed_well_formed type body n :
  in_u16 type → in_u64 n → decodes type body = true →
  well_formed (combine_message (Protocol.encode_header (message_header type body n)) body).
Proof.
  intros Ht Hn Hd. pose proof (decodes_length _ _ Hd) as Hl. exists (message_header type body n), body.
  assert (in_u32 (Z.of_nat (length body))) as Hb by (unfold in_u32; lia).
  split_and!; [done| |by apply u32_id|done].
  unfold Protocol.header_valid, message_header. simpl. rewrite u32_id by done. by split_and!.
Qed.

Lemma heard_app d out1 out2 : heard d (out1 ++ out2) = heard d out1 ++ heard d out2.
Proof. unfold heard. by rewrite filter_app, fmap_app. Qed.

Lemma heard_cons d x out :
  heard d (x :: out) = if decide (x.1 = d) then x.2 :: heard d out else heard d out.
Proof. unfold heard. rewrite filter_cons. by destruct (decide _). Qed.

Lemma heard_broadcast d message s :
  listening d s →
  heard d ((if multicast_publisher_ s then [(Multicast, message)] else []) ++
     ((λ socket, (Socket socket, message)) <$> client_sockets_ s)) = [message].
Proof.
  intros Ho.
  assert (∀ l, heard d ((λ x, (x, message)) <$> l) = (λ _, message) <$> filter (λ x, x = d) l) as Hl.
  { intros l. induction l as [|x l IH]; [done|]. rewrite fmap_cons, heard_cons, filter_cons. simpl.
    destruct (decide (x = d)); [by rewrite IH|done]. }
  specialize (Hl (ServerMessages.everyone s)). rewrite Ho in Hl. simpl in Hl. rewrite <- Hl. f_equal.
  unfold ServerMessages.everyone. rewrite fmap_app, <- list_fmap_compose.
  by destruct (multicast_publisher_ s).
Qed.

(** ** Publishing steps *)

(** [tells d m g]: [m] returns, leaves the instruments alone, and sends
    well-formed messages; those that reach [d], if it is listening, make a
    reader change its view by [g]. *)
Definition tells (d : Destination) {A} (m : Handler A) (g : views → views) : Prop :=
  ∀ st, counting st.1 →
    is_ok (m st).1 = true ∧ counting (m st).2.1 ∧
    ServerMessages.everyone (m st).2.1 = ServerMessages.everyone st.1 ∧
    instruments_ (m st).2.1 = instruments_ st.1 ∧
    ∃ out, output (m st).2.1 = output st.1 ++ out ∧ Forall (λ x, well_formed x.2) out ∧
      (listening d st.1 → ∀ v, follow (heard d out) v ≡ g v).

Section tells.
Context (d : Destination).
Abbreviation tells := (tells d).

Lemma tells_weaken {A} (m : Handler A) g g' : tells m g → (∀ v, g v ≡ g' v) → tells m g'.
Proof.
  intros Hm Hg st Hl. destruct (Hm st Hl) as (Hr & Hl' & He & Hi & out & Ho & Hw & Hf).
  split_and!; [done..|]. exists out. split_and!; [done..|]. intros Hd v. by rewrite Hf.
Qed.

Lemma tells_ret {A} (a : A) : tells (ret a) (λ v, v).
Proof. intros st Hl. split_and!; [done..|]. exists []. by rewrite app_nil_r. Qed.

Lemma tells_bind {A B} (m : Handler A) (k : A → Handler B) g1 g2 :
  tells m g1 → (∀ a, tells (k a) g2) → tells (bind m k) (λ v, g2 (g1 v)).
Proof.
  intros Hm Hk st Hl. destruct (Hm st Hl) as (Hr & Hl1 & He1 & Hi1 & out1 & Ho1 & Hw1 & Hf1). unfold bind.
  destruct (m st) as [[a|e] st1]; [|done]. cbn [fst snd] in *.
  destruct (Hk a st1 Hl1) as (Hr2 & Hl2 & He2 & Hi2 & out2 & Ho2 & Hw2 & Hf2).
  split_and!; [done|done|congruence|congruence|]. exists (out1 ++ out2).
  rewrite Ho2, Ho1, <- app_assoc. split; [done|]. split; [by apply Forall_app|].
  intros Hd v. rewrite heard_app, follow_app, Hf1 by done. apply Hf2.
  unfold listening. by rewrite He1.
Qed.

Lemma tells_for_each {A} (l : list A) f g :
  (∀ x, x ∈ l → tells (f x) (g x)) → tells (for_each l f) (λ v, foldl (λ v x, g x v) v l).
Proof.
  induction l as [|x l IH]; intros Hf; [apply tells_ret|]. simpl.
  apply (tells_bind _ _ (g x) (λ v, foldl (λ v x, g x v) v l)).
  - apply Hf. by left.
  - intros _. apply IH. intros y Hy. apply Hf. by right.
Qed.

Lemma tells_silent {A} (m : Handler A) (Hm : ∀ st, ∃ a m', m st = (Ok a, (set_metrics m' st.1, st.2))) :
  tells m (λ v, v).
Proof.
  intros st Hl. destruct (Hm st) as (a & m' & ->). cbn [fst snd]. split_and!; [done..|].
  exists []. by rewrite app_nil_r.
Qed.

Lemma tells_metrics f : tells (on_metrics f) (λ v, v).
Proof. apply tells_silent. intros st. by eexists _, _. Qed.

Lemma tells_metrics_trades o : tells (on_metrics_trades o) (λ v, v).
Proof. unfold on_metrics_trades. destruct (_ && _); [apply tells_metrics|apply tells_ret]. Qed.

(** *** One message *)

Lemma read_framed type body n v :
  in_u16 type → in_u64 n →
  read_message v (combine_message (Protocol.encode_header (message_header type body n)) body) =
    read_body type body v.
Proof.
  intros Ht Hn. unfold read_message, combine_message.
  rewrite take_app_length', drop_app_length' by (by rewrite Protocol.length_encode_header).
  rewrite (proj2 (Protocol.decode_header_spec _ (message_header type body n))); [done|].
  split; [|done]. unfold Protocol.header_valid, message_header. simpl. split_and!; auto. apply u32_in.
Qed.

Lemma tells_broadcast type (body : Z → list byte) g :
  in_u16 type → (∀ n, in_u64 n → decodes type (body n) = true) →
  (∀ n v, in_u64 n → read_body type (body n) v ≡ g v) →
  tells (n <- fetch_sequence ;;
    send_to_all (combine_message (Protocol.encode_header (message_header type (body n) n)) (body n))) g.
Proof.
  intros Ht Hb Hg [s trades] Hl. unfold bind, fetch_sequence, send_to_all, on_server, modify.
  cbn [fst snd] in *. set (n := next_sequence_number_ s).
  split_and!; [done|apply u64_in|done|done|].
  eexists. split; [reflexivity|]. split.
  - pose proof (framed_well_formed type (body n) n Ht Hl (Hb n Hl)) as Hw. cbn [multicast_publisher_].
    apply Forall_app. split; [destruct (multicast_publisher_ _); [by constructor|constructor]|].
    apply Forall_fmap, Forall_forall. intros x _. exact Hw.
  - intros Hd v. rewrite (heard_broadcast d _ (set_sequence (u64 (n + 1)) s)) by exact Hd.
    unfold follow. cbn [foldl]. rewrite read_framed; [by apply Hg|done|apply Hl].
Qed.

(* anything but a level-3 event *)
Definition unread (type : Z) : Prop :=
  in_u16 type ∧ ∀ body v, read_body type body v = v.

Lemma tells_private socket type (body : Z → list byte) :
  unread type → (∀ n, in_u64 n → decodes type (body n) = true) →
  tells (n <- fetch_sequence ;; send_to socket
    (combine_message (Protocol.encode_header (message_header type (body n) n)) (body n))) (λ v, v).
Proof.
  intros [Ht Hg] Hb [s trades] Hl. unfold bind, fetch_sequence, send_to, on_server, modify.
  cbn [fst snd] in *. split_and!; [done|apply u64_in|done|done|].
  eexists. split; [reflexivity|]. split.
  { constructor; [|constructor]. by apply framed_well_formed, Hb. }
  intros _ v. rewrite heard_cons. case_decide; [|done].
  unfold heard, follow. cbn [filter list_filter fmap list_fmap foldl snd]. rewrite read_framed; [|done|apply Hl]. by rewrite Hg.
Qed.

Ltac unread := split; [by vm_compute|done].

Definition response_type (type : Z) : Prop :=
  type ∈ [Protocol.MessageType.OrderAccepted; Protocol.MessageType.OrderRejected;
          Protocol.MessageType.OrderCancelled; Protocol.MessageType.OrderReplaced].

Lemma tells_response socket order_id success type :
  response_type type → in_u64 order_id →
  tells (send_order_response socket order_id success type) (λ v, v).
Proof.
  intros Ht Hid.
  assert (∀ type n, response_type type → in_u64 n →
    unread type ∧ decodes type (Protocol.encode_order_response
      (Protocol.OrderResponse.mk order_id n (if success then 1 else 0))) = true) as Hr.
  { clear Ht type. intros type n Ht Hn.
    assert (decodes type (Protocol.encode_order_response
      (Protocol.OrderResponse.mk order_id n (if success then 1 else 0))) =
      bool_decide (is_Some (Protocol.decode_order_response (Protocol.encode_order_response
        (Protocol.OrderResponse.mk order_id n (if success then 1 else 0)))))) as ->.
    { unfold response_type in Ht. rewrite !elem_of_cons in Ht. by destruct Ht as [-> |[-> |[-> |[-> |?%elem_of_nil]]]]. }
    split.
    { unfold response_type in Ht. rewrite !elem_of_cons in Ht.
      destruct Ht as [-> |[-> |[-> |[-> |?%elem_of_nil]]]]; [unread..|done]. }
    apply bool_decide_eq_true. eexists. apply Protocol.decode_order_response_spec. split; [|done].
    split_and!; simpl; [done|done|]. destruct success; auto. }
  assert (response_type (if success then type else Protocol.MessageType.OrderRejected)) as Ht'.
  { destruct success; [done|]. unfold response_type. set_solver. }
  apply (tells_private socket (if success then type else _) (λ n, Protocol.encode_order_response _)).
  - by apply (Hr _ 0).
  - intros n Hn. by apply Hr.
Qed.

(* a trade as an execution report *)
Definition reportable (wire : Protocol.Symbol) (t : Trade) : Prop :=
  ∀ n, in_u64 n → Protocol.trade_execution_valid (Protocol.TradeExecution.mk (Trade.buy_order_id t)
    (Trade.sell_order_id t) (Trade.price t) (Trade.quantity t) n wire).

Lemma tells_execution socket symbol trade :
  reportable symbol trade → tells (send_trade_execution socket symbol trade) (λ v, v).
Proof.
  intros Ht. unfold send_trade_execution. destruct (socket <? 0); [apply tells_ret|].
  apply (tells_private socket _ (λ n, Protocol.encode_trade_execution _)); [unread|].
  intros n Hn. apply bool_decide_eq_true. eexists. apply Protocol.decode_trade_execution_spec.
  split; [by apply Ht|done].
Qed.

Definition deliverable (delivery : ExecutionDelivery.t) : Prop :=
  reportable (ExecutionDelivery.symbol delivery) (ExecutionDelivery.trade delivery).

Lemma tells_deliveries deliveries :
  Forall deliverable deliveries → tells (send_execution_deliveries deliveries) (λ v, v).
Proof.
  intros Hd. rewrite Forall_forall in Hd. eapply tells_weaken; [apply (tells_for_each _ _ (λ _ v, v))|].
  - intros x Hx. eapply tells_bind; [|intros]; by apply tells_execution, Hd.
  - intros v. clear Hd. by induction deliveries.
Qed.

(* a snapshot as a book update *)
Definition update_of (snapshot : BookSnapshot.t) (n : Z) : Protocol.BookUpdate.t :=
  let has_bid := BookSnapshot.has_bid snapshot in
  let has_ask := BookSnapshot.has_ask snapshot in
  Protocol.BookUpdate.mk
    (if has_bid then 1 else 0)
    (if has_bid then BookSnapshot.best_bid snapshot else 0)
    (if has_bid then BookSnapshot.bid_quantity snapshot else 0)
    (if has_ask then 1 else 0)
    (if has_ask then BookSnapshot.best_ask snapshot else 0)
    (if has_ask then BookSnapshot.ask_quantity snapshot else 0)
    n (BookSnapshot.symbol snapshot).

Definition publishable (snapshot : BookSnapshot.t) : Prop :=
  ∀ n, in_u64 n → Protocol.book_update_valid (update_of snapshot n).

Lemma tells_book_update snapshot :
  publishable snapshot → tells (broadcast_book_update snapshot) (λ v, v).
Proof.
  intros Hs. apply (tells_broadcast _ (λ n, Protocol.encode_book_update (update_of snapshot n)));
    [by vm_compute| |done].
  intros n Hn. apply bool_decide_eq_true. eexists. apply Protocol.decode_book_update_spec.
  split; [by apply Hs|done].
Qed.

(** *** The level-3 events *)

Definition with_sequence_add (n : Z) (e : Protocol.Level3AddOrder.t) : Protocol.Level3AddOrder.t :=
  Protocol.Level3AddOrder.mk (Protocol.Level3AddOrder.order_id e)
    (Protocol.Level3AddOrder.timestamp e) (Protocol.Level3AddOrder.price e)
    (Protocol.Level3AddOrder.quantity e) (Protocol.Level3AddOrder.side e) n
    (Protocol.Level3AddOrder.symbol e).
Definition with_sequence_executed (n : Z) (e : Protocol.Level3OrderExecuted.t)
    : Protocol.Level3OrderExecuted.t :=
  Protocol.Level3OrderExecuted.mk (Protocol.Level3OrderExecuted.buy_order_id e)
    (Protocol.Level3OrderExecuted.sell_order_id e) (Protocol.Level3OrderExecuted.price e)
    (Protocol.Level3OrderExecuted.quantity e) n (Protocol.Level3OrderExecuted.symbol e).

Lemma tells_add e :
  (∀ n, in_u64 n → Protocol.level3_add_order_valid (with_sequence_add n e)) →
  tells (broadcast_level3_add_order e)
    (at_symbol (text (Protocol.Level3AddOrder.symbol e)) (read_added e)).
Proof.
  intros Hv. apply (tells_broadcast _ (λ n, Protocol.encode_level3_add_order (with_sequence_add n e)));
    [by vm_compute| |].
  { intros n Hn. apply bool_decide_eq_true. eexists. apply Protocol.decode_level3_add_order_spec.
    split; [by apply Hv|done]. }
  intros n v Hn. unfold read_body. simpl.
  rewrite (proj2 (Protocol.decode_level3_add_order_spec _ (with_sequence_add n e))); [done|].
  split; [by apply Hv|done].
Qed.

Lemma tells_executed e :
  (∀ n, in_u64 n → Protocol.level3_order_executed_valid (with_sequence_executed n e)) →
  tells (broadcast_level3_order_executed e)
    (at_symbol (text (Protocol.Level3OrderExecuted.symbol e)) (read_executed e)).
Proof.
  intros Hv. apply (tells_broadcast _
    (λ n, Protocol.encode_level3_order_executed (with_sequence_executed n e))); [by vm_compute| |].
  { intros n Hn. apply bool_decide_eq_true. eexists. apply Protocol.decode_level3_order_executed_spec.
    split; [by apply Hv|done]. }
  intros n v Hn. unfold read_body. simpl.
  rewrite (proj2 (Protocol.decode_level3_order_executed_spec _ (with_sequence_executed n e))); [done|].
  split; [by apply Hv|done].
Qed.

Lemma tells_deleted order_id n0 wire :
  in_u64 order_id → Protocol.valid_symbol wire →
  tells (broadcast_level3_order_deleted (Protocol.Level3OrderDeleted.mk order_id n0 wire))
    (at_symbol (text wire) (read_deleted order_id)).
Proof.
  intros Hid Hw. apply (tells_broadcast _
    (λ n, Protocol.encode_level3_order_deleted (Protocol.Level3OrderDeleted.mk order_id n wire)));
    [by vm_compute| |].
  { intros n Hn. apply bool_decide_eq_true.
    exists (Protocol.Level3OrderDeleted.mk order_id n wire).
    by apply Protocol.decode_level3_order_deleted_spec. }
  intros n v Hn. unfold read_body. simpl.
  by rewrite (proj2 (Protocol.decode_level3_order_deleted_spec _
    (Protocol.Level3OrderDeleted.mk order_id n wire))).
Qed.
End tells.

(** ** What an order makes the server say *)

Lemma swept_trade s incoming q l ts q' l' t :
  Forall (BookSpec.resting_on s) l → BookSpec.swept incoming q l ts q' l' → t ∈ ts →
  ∃ o x, o ∈ l ∧ t = trade_between incoming o x ∧ 0 < x ≤ Order.remaining_quantity o.
Proof.
  intros Hr [filled rest -> _ _ _|filled o rest -> _ _ Hq] Ht; rewrite Forall_forall in Hr.
  - apply list_elem_of_fmap in Ht as (o & -> & Ho). exists o, (Order.remaining_quantity o).
    assert (o ∈ filled ++ rest) as Hin by (apply elem_of_app; by left).
    destruct (Hr _ Hin) as (_ & _ & ?). split_and!; [done|done|lia|lia].
  - apply elem_of_app in Ht as [(x & -> & Hx)%list_elem_of_fmap| ->%list_elem_of_singleton].
    + exists x, (Order.remaining_quantity x).
      assert (x ∈ filled ++ o :: rest) as Hin by (apply elem_of_app; by left).
      destruct (Hr _ Hin) as (_ & _ & ?). split_and!; [done|done|lia|lia].
    + exists o, (q - BookSpec.depth filled). split_and!; [|done|lia|lia].
      apply elem_of_app. right. by left.
Qed.

Section events.
Context (order : Order) (book book' : OrderBook.t) (ts : list Trade) (wire : Protocol.Symbol).
Context (Hi : OrderBook.inv book) (Hm : matched order book book' ts).
Context (Hbt : MatchingEngine.book_typed book) (Hot : order_typed order).
Context (Hwire : Protocol.valid_symbol wire).

Lemma normalised_typed : order_typed (BookSpec.normalise order).
Proof.
  destruct Hot as (? & ? & ? & ? & ?). unfold BookSpec.normalise.
  destruct (Order.type order), (Order.time_in_force order); done.
Qed.

Lemma execution_valid t n :
  t ∈ ts → in_u64 n →
  Protocol.level3_order_executed_valid (with_sequence_executed n (execution_of wire t)).
Proof.
  intros Ht Hn. destruct Hm as (Hv & Hi' & Hout). pose proof normalised_typed as Hno.
  destruct (MatchingEngine.outcome_queues _ _ _ _ _ Hout Hi (BookSpec.normalise_valid _ Hv))
    as [(-> & _)|(q & _ & Hsw & _)]; [by apply elem_of_nil in Ht|].
  set (o := BookSpec.normalise order) in *. set (s := opposite (Order.side o)) in *.
  pose proof (proj1 (BookSpec.wf_side s _ (OrderBook.abs_wf _ Hi))) as Hr.
  rewrite OrderBook.abs_side_orders in Hr.
  destruct (swept_trade _ _ _ _ _ _ _ _ Hr Hsw Ht) as (x & k & Hx & -> & Hk).
  pose proof (proj1 (proj1 (MatchingEngine.book_typed_sides s book) Hbt)) as Hxt.
  rewrite Forall_forall in Hr, Hxt. destruct (Hr _ Hx) as (_ & _ & Hrem).
  destruct (Hxt _ Hx) as (Hid & Hp & _). destruct Hno as (Hoid & _).
  assert (in_u64 k) as Hk' by (unfold in_u64; lia).
  unfold trade_between. destruct (Order.side o); split_and!; simpl; try done; lia.
Qed.

Lemma trade_reportable t : t ∈ ts → reportable wire t.
Proof. intros Ht n Hn. exact (execution_valid t n Ht Hn). Qed.

Lemma gone_typed order_id b id : id ∈ gone_ids order_id b ts → in_u64 id.
Proof.
  intros ((t & Ht & Hx) & _)%elem_of_gone.
  pose proof (execution_valid t 0 Ht ltac:(done)) as (Hb & Hs & _). simpl in Hb, Hs.
  destruct Hx as [-> | ->]; done.
Qed.

Lemma addition_valid order_id e n :
  rest_event wire order_id (OrderBook.abs book') = Some e → in_u64 n →
  Protocol.level3_add_order_valid (with_sequence_add n e).
Proof.
  intros He Hn. destruct Hm as (Hv & Hi' & Hout).
  pose proof (MatchingEngine.process_typed _ _ _ _ _ Hout Hi (BookSpec.normalise_valid _ Hv)
    normalised_typed Hbt) as Hty.
  unfold rest_event in He. destruct (lookup_order _ order_id) as [o|] eqn:Ho; [|done].
  injection He as <-. apply lookup_order_Some in Ho as [Hin _]; [|by apply all_unique].
  unfold MatchingEngine.book_typed in Hty. rewrite Forall_forall in Hty.
  destruct (Hty _ Hin) as (Hid & Hp & _ & _ & Hts).
  assert (0 < Order.remaining_quantity o < 2 ^ 32) as Hq.
  { destruct (OrderBook.abs_wf _ Hi') as [Hb Ha _ _]. rewrite Forall_forall in Hb, Ha.
    apply elem_of_app in Hin as [H|H]; [apply (Hb _ H)|apply (Ha _ H)]. }
  assert (in_u64 (Order.remaining_quantity o)) as Hq' by (unfold in_u64; lia).
  split_and!; simpl; try done; [|lia]. destruct (Order.side o); simpl; auto.
Qed.
End events.

Section publish.
Context (d : Destination) (set_order : list OrderId → list OrderId)
  (Hset : ∀ l id, id ∈ set_order l ↔ id ∈ l).

Lemma at_symbol_foldl {A} symbol (f : A → view → view) l v :
  foldl (λ v x, at_symbol symbol (f x) v) v l ≡ at_symbol symbol (λ w, foldl (λ w x, f x w) w l) v.
Proof.
  revert v. induction l as [|x l IH]; intros v; simpl.
  - split. intros symbol'. unfold at_symbol. by destruct (decide _).
  - rewrite IH. apply at_symbol_compose.
Qed.

Lemma events_told order book book' ts wire order_id :
  OrderBook.inv book → matched order book book' ts → MatchingEngine.book_typed book →
  order_typed order → Protocol.valid_symbol wire →
  let b := OrderBook.abs book' in
  let event := rest_event wire order_id b in
  tells d (for_each (execution_of wire <$> ts) broadcast_level3_order_executed ;;;
           broadcast_level3_deletions set_order wire (gone_ids order_id b ts) ;;;
           broadcast_level3_addition event)
    (at_symbol (text wire) (λ w, read_addition event
       (read_deletions (set_order (gone_ids order_id b ts)) (read_executions wire ts w)))).
Proof.
  intros Hi Hm Hbt Hot Hw b event.
  assert (tells d (broadcast_level3_addition event) (at_symbol (text wire) (read_addition event))) as Hadd.
  { unfold broadcast_level3_addition. destruct event as [e|] eqn:He.
    - assert (Protocol.Level3AddOrder.symbol e = wire) as Hs.
      { unfold event, rest_event in He. destruct (lookup_order b order_id); [|done]. by injection He as <-. }
      rewrite <- Hs. apply tells_add. intros n Hn.
      exact (addition_valid order book book' ts wire Hi Hm Hbt Hot Hw order_id e n He Hn).
    - eapply tells_weaken; [apply tells_ret|]. intros v. split. intros symbol'. unfold at_symbol. by destruct (decide _). }
  eapply tells_weaken.
  - apply tells_bind; [apply (tells_for_each d _ _ (λ e, at_symbol (text wire) (read_executed e)))|].
    { intros e (t & -> & Ht)%list_elem_of_fmap.
      apply (tells_executed d (execution_of wire t)). intros n Hn. by eapply execution_valid. }
    intros _. apply tells_bind;
      [apply (tells_for_each d _ _ (λ id, at_symbol (text wire) (read_deleted id)))|].
    { intros id Hid. rewrite Hset in Hid. apply tells_deleted; [|done]. exact (gone_typed order book book' ts wire Hi Hm Hbt Hot Hw _ _ _ Hid). }
    intros _. apply Hadd.
  - intros v. cbn beta.
    rewrite (at_symbol_foldl (text wire) read_deleted).
    rewrite (at_symbol_foldl (text wire) read_executed (execution_of wire <$> ts) v).
    rewrite !at_symbol_compose. split. intros symbol'.
    unfold at_symbol. destruct (decide _); [|done]. f_equal.
    unfold read_deletions, read_executions. by rewrite foldl_fmap.
Qed.
End publish.

(** ** The handlers *)

(* the books of the server, as a reader should have them *)
Definition views_of (s : t) : views :=
  λ symbol, view_of (OrderBook.abs (InstrumentState.book (instrument_of s symbol))).

Definition keeps_up (d : Destination) (s s' : t) : Prop :=
  counting s → counting s' ∧
  ∃ out, output s' = output s ++ out ∧ Forall (λ x, well_formed x.2) out ∧
    (listening d s → listening d s' ∧ follow (heard d out) (views_of s) ≡ views_of s').

#[export] Instance keeps_up_preorder d : PreOrder (keeps_up d).
Proof.
  split.
  - intros s Hc. split; [done|]. exists []. by rewrite app_nil_r.
  - intros s1 s2 s3 H1 H2 Hc. destruct (H1 Hc) as (Hc2 & out1 & Ho1 & Hw1 & Hf1).
    destruct (H2 Hc2) as (Hc3 & out2 & Ho2 & Hw2 & Hf2). split; [done|]. exists (out1 ++ out2).
    rewrite Ho2, Ho1, <- app_assoc. split; [done|]. split; [by apply Forall_app|].
    intros Hl. destruct (Hf1 Hl) as [Hl2 He1]. destruct (Hf2 Hl2) as [Hl3 He2].
    split; [done|]. by rewrite heard_app, follow_app, He1.
Qed.

Lemma unsent_everyone s s' : unsent s s' → ServerMessages.everyone s' = ServerMessages.everyone s.
Proof. intros (_ & _ & Hc & Hp). unfold ServerMessages.everyone in *. by rewrite Hc, Hp. Qed.

(** A locked section changes the books by [g]; what is sent after it says so. *)
Lemma locked_keeps_up d {A} (m : Handler A) g s0 st a st' :
  unsent s0 st.1 → views_of st.1 ≡ g (views_of s0) → tells d m g → m st = (Ok a, st') →
  keeps_up d s0 st'.1.
Proof.
  intros Hu Hv Hm He Hc. assert (counting st.1) as Hc1 by (unfold counting; by rewrite (proj1 (proj2 Hu))).
  destruct (Hm st Hc1) as (_ & Hc2 & Hev & Hi & out & Ho & Hw & Hf). rewrite He in *. cbn [fst snd] in *.
  split; [done|]. exists out. split; [by rewrite Ho, (proj1 Hu)|]. split; [done|].
  intros Hl. unfold listening in *. rewrite (unsent_everyone _ _ Hu) in *. split; [by rewrite Hev|].
  rewrite Hf, <- Hv by done. split. intros symbol. unfold views_of, instrument_of. by rewrite Hi.
Qed.

Lemma unchanged_views s s' : unchanged s s' → views_of s' ≡ views_of s.
Proof. intros [H _]. split. intros symbol. unfold views_of. by rewrite H. Qed.

Lemma unsent_refl s : unsent s s.
Proof. done. Qed.

Lemma reject_keeps_up d client order_id st a st' :
  in_u64 order_id →
  reject_request client order_id st = (Ok a, st') → keeps_up d st.1 st'.1.
Proof.
  intros Hid. apply (locked_keeps_up d _ (λ v, v)); [done|done|].
  apply tells_response; [|done]. unfold response_type. set_solver.
Qed.

Lemma settled_views symbol i r m j s s0 :
  unchanged s0 s →
  views_of (settled_server symbol i r m j s) ≡
    at_symbol symbol (λ _, view_of (OrderBook.abs (InstrumentState.book i))) (views_of s0).
Proof.
  intros [Hu _]. split. intros symbol'. unfold views_of, at_symbol, instrument_of, settled_server. simpl.
  destruct (decide (symbol' = symbol)) as [->|].
  - by rewrite lookup_insert_eq.
  - rewrite lookup_insert_ne by done. specialize (Hu symbol'). unfold instrument_of in Hu. by rewrite Hu.
Qed.

Lemma settled_executions wire order_id client id b owners ts :
  let effects := settled_effects wire order_id client id b owners ts in
  Effects.level3_executions effects = execution_of wire <$> ts ∧
  Effects.deleted effects = gone_ids order_id (OrderBook.abs b) ts.
Proof.
  unfold settled_effects.
  enough (∀ effects0, let effects := foldl (add_trade wire order_id client id (OrderBook.abs b) owners)
      effects0 ts in
    Effects.level3_executions effects = Effects.level3_executions effects0 ++ (execution_of wire <$> ts) ∧
    Effects.deleted effects = Effects.deleted effects0 ++ gone_ids order_id (OrderBook.abs b) ts) as H
    by apply (H Effects.none).
  induction ts as [|t ts IH]; intros effects0.
  - unfold gone_ids. simpl. by rewrite !app_nil_r.
  - simpl. destruct (IH (add_trade wire order_id client id (OrderBook.abs b) owners effects0 t))
      as [-> ->]. simpl. rewrite <- !app_assoc. split; [done|]. unfold gone_ids, gone_in. simpl.
    by rewrite <- !app_assoc.
Qed.

Lemma settled_deliverable order book book' ts wire order_id client id owners :
  OrderBook.inv book → matched order book book' ts → MatchingEngine.book_typed book →
  order_typed order → Protocol.valid_symbol wire →
  Forall deliverable (Effects.deliveries (settled_effects wire order_id client id book' owners ts)).
Proof.
  intros Hi Hm Hbt Hot Hw.
  assert (∀ t, t ∈ ts → reportable wire t) as Ht by (intros; by eapply trade_reportable).
  unfold settled_effects. clear - Ht.
  enough (∀ effects0, Forall deliverable (Effects.deliveries effects0) →
    Forall deliverable (Effects.deliveries
      (foldl (add_trade wire order_id client id (OrderBook.abs book') owners) effects0 ts))) as H
    by (apply H; constructor).
  induction ts as [|t ts IH]; intros effects0 H0; [done|]. simpl. apply IH.
  - intros t' Ht'. apply Ht. by right.
  - simpl. apply Forall_app. split; [done|]. constructor; [|constructor]. apply Ht. by left.
Qed.

Lemma snapshot_publishable book wire snapshot :
  OrderBook.inv book → MatchingEngine.book_typed book → Protocol.valid_symbol wire →
  capture_book_snapshot wire book = Ok snapshot → publishable snapshot.
Proof.
  intros Hi Hty Hw Hc n Hn. revert Hc.
  unfold capture_book_snapshot, OrderBook.has_bids, OrderBook.has_asks, OrderBook.has_levels,
    OrderBook.best_bid, OrderBook.best_ask, OrderBook.best_bid_level, OrderBook.best_ask_level,
    OrderBook.best.
  destruct (OrderBook.levels Buy book) as [|[p1 l1] ls1] eqn:E1;
    destruct (OrderBook.levels Sell book) as [|[p2 l2] ls2] eqn:E2;
    intros [= <-];
    try (destruct (best_typed Buy book p1 l1 ls1 Hi Hty E1) as [? ?%in_u32_u64]);
    try (destruct (best_typed Sell book p2 l2 ls2 Hi Hty E2) as [? ?%in_u32_u64]);
    split_and!; simpl; auto; done.
Qed.

Lemma zero_u64 : in_u64 0.
Proof. by vm_compute. Qed.

Lemma matched_typed order book book' ts :
  OrderBook.inv book → matched order book book' ts → MatchingEngine.book_typed book →
  order_typed order → MatchingEngine.book_typed book'.
Proof.
  intros Hi (Hv & _ & Hout) Hbt Hot. eapply MatchingEngine.process_typed; [exact Hout|done| |by apply normalised_typed|done].
  by apply BookSpec.normalise_valid.
Qed.

Section handlers.
Context (io : list byte → list byte → option nat).
Context (elapsed : t → Z).
Context (set_order : list OrderId → list OrderId) (Hset : ∀ l id, id ∈ set_order l ↔ id ∈ l).
Context (d : Destination).

(* the part of a publication that precedes the level-3 events *)
Lemma tells_opening {A} f o client order_id success type deliveries snapshot (m : Handler A) g :
  response_type type → in_u64 order_id → Forall deliverable deliveries → publishable snapshot →
  tells d m g →
  tells d (on_metrics f ;;; on_metrics_trades o ;;;
    send_order_response client order_id success type ;;;
    send_execution_deliveries deliveries ;;; broadcast_book_update snapshot ;;; m) g.
Proof.
  intros Ht Hid Hd Hs Hm. repeat (apply (tells_bind d _ _ (λ v, v) g); [|intros _]);
    auto using tells_metrics, tells_metrics_trades, tells_response, tells_deliveries, tells_book_update.
Qed.

Lemma tells_refusal f o client order_id type :
  response_type type → in_u64 order_id →
  tells d (on_metrics f ;;; on_metrics_trades o ;;;
    send_order_response client order_id false type ;;; ret tt) (λ v, v).
Proof.
  intros Ht Hid. repeat (apply (tells_bind d _ _ (λ v, v) (λ v, v)); [|intros _]);
    auto using tells_metrics, tells_metrics_trades, tells_response, tells_ret.
Qed.

(** What a matched order says, and what the books become. *)
Definition told (wire : Protocol.Symbol) (order_id : OrderId) (book' : OrderBook.t) (ts : list Trade)
    : view → view :=
  let b := OrderBook.abs book' in
  λ w, read_addition (rest_event wire order_id b)
    (read_deletions (set_order (gone_ids order_id b ts)) (read_executions wire ts w)).

Lemma told_book order book book' ts wire :
  OrderBook.inv book → matched order book book' ts →
  lookup_order (OrderBook.abs book) (Order.id order) = None →
  told wire (Order.id order) book' ts (view_of (OrderBook.abs book)) = view_of (OrderBook.abs book').
Proof.
  intros Hi Hm Hf. symmetry. eapply matched_followed; [done|done|done|]. intros id. apply Hset.
Qed.

Lemma at_symbol_views symbol s f w :
  f (view_of (OrderBook.abs (InstrumentState.book (instrument_of s symbol)))) = w →
  at_symbol symbol (λ _, w) (views_of s) ≡ at_symbol symbol f (views_of s).
Proof.
  intros Hf. split. intros symbol'. unfold at_symbol, views_of.
  destruct (decide (symbol' = symbol)) as [->|]; [by rewrite Hf|done].
Qed.

Lemma new_order_keeps_up client header body st st' :
  books_sound st →
  handle_new_order io elapsed set_order client header body st = (Ok tt, st') →
  keeps_up d st.1 st'.1.
Proof.
  intros Hs H. unfold handle_new_order in H.
  destruct (negb _); [exact (reject_keeps_up d client 0 _ _ _ zero_u64 H)|].
  destruct (Protocol.decode_new_order body) as [request|] eqn:Hd; [|exact (reject_keeps_up d client 0 _ _ _ zero_u64 H)].
  apply Protocol.decode_new_order_spec in Hd as [Hv _].
  cbn zeta in H. destruct (_ >? _); [eapply reject_keeps_up; [|exact H]; apply Hv|].
  destruct (String.eqb _ _); [eapply reject_keeps_up; [|exact H]; apply Hv|].
  apply bind_Ok in H as (s & st1 & [= <- <-] & H). apply bind_Ok in H as (o & st1 & Ho & H).
  set (wire := Protocol.NewOrderRequest.symbol request) in *.
  set (id := risk_client_id_for_socket client st.1) in *.
  pose proof (unsent_new_order io elapsed client id (text wire) request header body st) as Hu.
  unfold text in Hu at 1. rewrite Ho in Hu. unfold on_first in Hu. cbn [snd] in Hu.
  destruct (Outcome.accepted o) eqn:Hacc.
  - pose proof (new_order_entered io elapsed _ _ _ _ _ _ _ _ _ Hs Hv Ho Hacc) as [Hent _ Hrun].
    destruct Hrun as (book' & ts & m & j & Hi & Hm & Hst & Heff & Hl3 & Hsnap). fold (text wire) in *.
    destruct (instrument_of_sound st (text wire) Hs) as [_ Hbt].
    pose proof (enter_fresh _ _ _ _ Hent) as Hfresh. rewrite find_order_lookup in Hfresh by done.
    injection Hfresh as Hfresh.
    apply (locked_keeps_up d _ (at_symbol (text wire)
      (told wire (Protocol.NewOrderRequest.order_id request) book' ts)) _ _ _ _ Hu) in H; [done| |].
    + rewrite Hst. rewrite (settled_views _ _ _ _ _ _ st.1) by apply instrument_for_unchanged.
      apply at_symbol_views. cbn [InstrumentState.book]. by apply (told_book (order_of request)).
    + unfold publish_new_order. rewrite Hacc. cbn [negb]. fold wire in Heff, Hl3. rewrite Heff, Hl3.
      assert (order_typed (order_of request)) as Hot by (by apply ServerSafety.order_of_typed).
      apply tells_opening; [unfold response_type; set_solver|apply Hv| | |].
      { eapply settled_deliverable; [exact Hi|exact Hm|done|done|apply Hv]. }
      { eapply snapshot_publishable; [apply Hm|eapply matched_typed; done|apply Hv|exact Hsnap]. }
      destruct (settled_executions wire (Protocol.NewOrderRequest.order_id request) client id book'
        (InstrumentState.order_owners (instrument_of st.1 (text wire))) ts) as [-> ->].
      eapply events_told; [done|exact Hi|exact Hm|done|by apply ServerSafety.order_of_typed|apply Hv].
  - pose proof (new_order_outcome io elapsed _ _ _ _ _ _ _ _ _ Ho) as Hout. rewrite Hacc in Hout.
    apply (locked_keeps_up d _ (λ v, v) _ _ _ _ Hu) in H; [done|by apply unchanged_views|].
    unfold publish_new_order. rewrite Hacc. apply tells_refusal; [unfold response_type; set_solver|apply Hv].
Qed.

Lemma cancel_order_keeps_up client header body st st' :
  books_sound st →
  handle_cancel_order io elapsed client header body st = (Ok tt, st') →
  keeps_up d st.1 st'.1.
Proof.
  intros Hs H. unfold handle_cancel_order in H.
  destruct (negb _); [exact (reject_keeps_up d client 0 _ _ _ zero_u64 H)|].
  destruct (Protocol.decode_cancel_order body) as [request|] eqn:Hd; [|exact (reject_keeps_up d client 0 _ _ _ zero_u64 H)].
  apply Protocol.decode_cancel_order_spec in Hd as [Hv _]. cbn zeta in H.
  apply bind_Ok in H as (s & st1 & [= <- <-] & H). apply bind_Ok in H as (o & st1 & Ho & H).
  set (wire := Protocol.CancelOrderRequest.symbol request) in *.
  set (id := risk_client_id_for_socket client st.1) in *.
  pose proof (unsent_cancel_order io elapsed client id (text wire) request header body st) as Hu.
  unfold text in Hu at 1. rewrite Ho in Hu. unfold on_first in Hu. cbn [snd] in Hu.
  assert (response_type Protocol.MessageType.OrderCancelled) as Hun by (unfold response_type; set_solver).
  assert (in_u64 (Protocol.CancelOrderRequest.order_id request)) as Hid by apply Hv.
  destruct o as [snapshot|].
  - destruct (cancel_order_left io elapsed _ _ _ _ _ _ _ _ _ Hs Ho)
      as (_ & x & book' & m & j & Hw & Hst & Hsnap).
    assert (publishable snapshot) as Hpub.
    { eapply snapshot_publishable; [exact (withdrawn_inv' _ _ _ _ Hw)| |apply Hv|exact Hsnap].
      eapply withdrawn_typed; [exact Hw|]. by apply instrument_of_sound. }
    fold (text wire) in *. set (order_id := Protocol.CancelOrderRequest.order_id request) in *.
    apply (locked_keeps_up d _ (at_symbol (text wire) (read_deleted order_id)) _ _ _ _ Hu) in H; [done| |].
    + rewrite Hst. rewrite (settled_views _ _ _ _ _ _ st.1) by done.
      apply at_symbol_views. symmetry. by eapply withdrawn_followed.
    + repeat (apply (tells_bind d _ _ (λ v, v) (at_symbol (text wire) (read_deleted order_id))); [|intros _]);
        auto using tells_metrics, tells_response, tells_book_update.
      apply tells_deleted; apply Hv.
  - pose proof (cancel_order_outcome io elapsed _ _ _ _ _ _ _ _ _ Hs Ho) as Hout.
    apply (locked_keeps_up d _ (λ v, v) _ _ _ _ Hu) in H; [done|by apply unchanged_views|].
    repeat (apply (tells_bind d _ _ (λ v, v) (λ v, v)); [|intros _]);
      auto using tells_metrics, tells_response, tells_ret.
Qed.

Lemma replace_order_keeps_up client header body st st' :
  books_sound st →
  handle_replace_order io elapsed set_order client header body st = (Ok tt, st') →
  keeps_up d st.1 st'.1.
Proof.
  intros Hs H. unfold handle_replace_order in H.
  destruct (negb _); [exact (reject_keeps_up d client 0 _ _ _ zero_u64 H)|].
  destruct (Protocol.decode_replace_order body) as [request|] eqn:Hd; [|exact (reject_keeps_up d client 0 _ _ _ zero_u64 H)].
  apply Protocol.decode_replace_order_spec in Hd as [Hv _].
  cbn zeta in H. destruct (_ >? _); [eapply reject_keeps_up; [|exact H]; apply Hv|].
  apply bind_Ok in H as (s & st1 & [= <- <-] & H). apply bind_Ok in H as (o & st1 & Ho & H).
  set (wire := Protocol.ReplaceOrderRequest.symbol request) in *.
  set (id := risk_client_id_for_socket client st.1) in *.
  pose proof (unsent_replace_order io elapsed client id (text wire) request header body st) as Hu.
  unfold text in Hu at 1. rewrite Ho in Hu. unfold on_first in Hu. cbn [snd] in Hu.
  destruct (Outcome.accepted o) eqn:Hacc.
  - destruct (replace_order_left io elapsed _ _ _ _ _ _ _ _ _ Hs Ho Hacc)
      as (_ & _ & x & book1 & book' & ts & m & j & Hw & Hm & Hst & Heff & Hl3 & Hsnap). fold (text wire) in *.
    set (order_id := Protocol.ReplaceOrderRequest.order_id request) in *.
    destruct (instrument_of_sound st (text wire) Hs) as [_ Hbt].
    destruct (withdrawn_fresh _ _ _ _ Hw) as [Hfresh Hxid].
    destruct (withdrawn_typed _ _ _ _ Hw Hbt) as [Hxt Hbt1].
    apply (locked_keeps_up d _ (at_symbol (text wire)
      (λ w, told wire order_id book' ts (read_deleted order_id w))) _ _ _ _ Hu) in H; [done| |].
    + rewrite Hst. rewrite (settled_views _ _ _ _ _ _ st.1) by done.
      apply at_symbol_views. cbn [InstrumentState.book].
      rewrite <- (withdrawn_followed _ _ _ _ Hw). rewrite <- Hxid.
      eapply (told_book (MatchingEngine.replacement_of x _ _ _)); [apply Hw|exact Hm|].
      simpl. by rewrite Hxid.
    + unfold publish_replace_order. rewrite Hacc. cbn [negb]. fold wire in Heff, Hl3. rewrite Heff, Hl3.
      assert (order_typed (MatchingEngine.replacement_of x (Protocol.ReplaceOrderRequest.new_price request)
        (u32 (Protocol.ReplaceOrderRequest.new_quantity request))
        (Protocol.ReplaceOrderRequest.timestamp request))) as Hot.
      { destruct Hxt as (? & _), Hv as (_ & ? & ? & _). split_and!; try done; apply u32_in. }
      pose proof (withdrawn_inv' _ _ _ _ Hw) as Hi1.
      apply tells_opening; [unfold response_type; set_solver|apply Hv| | |].
      { eapply settled_deliverable; [exact Hi1|exact Hm|done|done|apply Hv]. }
      { eapply snapshot_publishable; [apply Hm|by eapply matched_typed|apply Hv|exact Hsnap]. }
      destruct (settled_executions wire order_id client id book'
        (InstrumentState.order_owners (instrument_of st.1 (text wire))) ts) as [-> ->].
      eapply tells_weaken; [|intros v; apply at_symbol_compose].
      apply tells_bind; [apply tells_deleted; apply Hv|intros _].
      eapply events_told; [done|exact Hi1|exact Hm|done|exact Hot|apply Hv].
  - pose proof (replace_order_outcome io elapsed _ _ _ _ _ _ _ _ _ Hs Ho) as Hout. rewrite Hacc in Hout.
    apply (locked_keeps_up d _ (λ v, v) _ _ _ _ Hu) in H; [done|by apply unchanged_views|].
    unfold publish_replace_order. rewrite Hacc. apply tells_refusal; [unfold response_type; set_solver|apply Hv].
Qed.

Lemma message_keeps_up client header body st st' :
  books_sound st →
  handle_message io elapsed set_order client header body st = (Ok tt, st') →
  keeps_up d st.1 st'.1.
Proof.
  intros Hs H. unfold handle_message in H.
  destruct (_ =? _); [by eapply new_order_keeps_up|].
  destruct (_ =? _); [by eapply cancel_order_keeps_up|].
  destruct (_ =? _); [by eapply replace_order_keeps_up|]. injection H as <-. reflexivity.
Qed.

Lemma receive_keeps_up fuel client receive_buffer st r st' :
  books_sound st →
  process_receive_loop io elapsed set_order fuel client receive_buffer st = (Ok r, st') →
  keeps_up d st.1 st'.1.
Proof.
  revert receive_buffer st. induction fuel as [|fuel IH]; intros receive_buffer st Hs H;
    cbn [process_receive_loop] in H; (destruct (_ <? _)%nat; [injection H as _ <-; reflexivity|]); [done|].
  destruct (Protocol.decode_header _) as [header|]; [|injection H as _ <-; reflexivity].
  cbn zeta in H. destruct (_ >? _); [injection H as _ <-; reflexivity|].
  destruct (_ <? _)%nat; [injection H as _ <-; reflexivity|].
  apply bind_Ok in H as ([] & st1 & Hm & H).
  pose proof (ServerSafety.safe_handle_message io elapsed set_order client header
    (take (Z.to_nat (Protocol.MessageHeader.body_size header)) (drop Protocol.header_size receive_buffer))
    st Hs) as [_ Hs1].
  rewrite Hm in Hs1. transitivity st1.1; [by eapply message_keeps_up|by eapply IH].
Qed.
End handlers.

(** ** Every event of the server's life *)

(* [d] goes on listening: its connection is neither closed nor made anew *)
Definition stays (d : Destination) (event : Event) : Prop :=
  match d, event with
  | Socket c, Connect c' | Socket c, Receive c' [] => c ≠ c'
  | _, _ => True
  end.

Lemma listening_sockets d sockets' (s : t) ids next :
  (∀ c, d = Socket c → filter (λ x, x = c) sockets' = filter (λ x, x = c) (client_sockets_ s)) →
  listening d s → listening d (set_clients sockets' ids next s).
Proof.
  unfold listening. intros Hd Ho. rewrite <- Ho. unfold ServerMessages.everyone. simpl.
  rewrite !filter_app. f_equal.
  assert (∀ l, filter (λ x, x = d) (Socket <$> l) =
    match d with Socket c => Socket <$> filter (λ x, x = c) l | Multicast => [] end) as Hf.
  { intros l. induction l as [|x l IH]; [by destruct d|]. rewrite fmap_cons, filter_cons, IH.
    destruct d as [c|]; [|done]. rewrite filter_cons. by repeat case_decide; simplify_eq. }
  rewrite !Hf. destruct d as [c|]; [|done]. by rewrite (Hd c).
Qed.

Lemma filter_erase c c' l : c ≠ c' → filter (λ x, x = c) (erase_first c' l) = filter (λ x, x = c) l.
Proof.
  intros Hne. induction l as [|x l IH]; [done|]. simpl. destruct (Z.eqb_spec c' x) as [<-|].
  - by rewrite filter_cons_False.
  - rewrite !filter_cons. by rewrite IH.
Qed.

Lemma clients_keep_up d sockets' ids next s :
  (∀ c, d = Socket c → filter (λ x, x = c) sockets' = filter (λ x, x = c) (client_sockets_ s)) →
  keeps_up d s (set_clients sockets' ids next s).
Proof.
  intros Hd Hc. split; [done|]. exists []. rewrite app_nil_r. split_and!; [done..|].
  intros Hl. split; [by apply listening_sockets|done].
Qed.

Section run.
Context (io : list byte → list byte → option nat).
Context (elapsed : t → Z).
Context (set_order : list OrderId → list OrderId) (Hset : ∀ l id, id ∈ set_order l ↔ id ∈ l).
Context (d : Destination).

Lemma event_keeps_up event y y' :
  ServerSafety.system_sound y → stays d event →
  handle_event io elapsed set_order event y = (Ok tt, y') →
  keeps_up d (exchange y) (exchange y').
Proof.
  intros [Hb Hss] Hst H. destruct event as [socket|socket bytes|enabled]; simpl in H.
  - injection H as <-. apply clients_keep_up. intros c ->. simpl in Hst.
    by rewrite filter_app, filter_cons_False, filter_nil, app_nil_r.
  - unfold receive in H. destruct (sessions y !! socket) as [session|] eqn:E; [|by injection H as <-].
    destruct bytes as [|x bytes].
    { injection H as <-. apply clients_keep_up. intros c ->. simpl in Hst. by apply filter_erase. }
    destruct (process_receive_buffer _ _ _ _ _ _) as [[rest|e] [s trades]] eqn:Hr; [|done].
    injection H as <-. cbn [exchange].
    apply (receive_keeps_up io elapsed set_order Hset d) in Hr; [done|].
    pose proof (Hss _ _ E) as Hok. split; [exact Hok| |done].
    eapply ServerSafety.books_sound_other; [exact Hok|exact Hb].
  - injection H as <-. intros Hc. split; [done|]. exists []. by rewrite app_nil_r.
Qed.

Lemma run_keeps_up events y y' :
  ServerSafety.system_sound y → Forall (stays d) events →
  run io elapsed set_order events y = (Ok tt, y') →
  keeps_up d (exchange y) (exchange y').
Proof.
  intros Hy Hst. revert y Hy. induction Hst as [|event events He _ IH]; intros y Hy H.
  { injection H as <-. reflexivity. }
  apply bind_Ok in H as ([] & y1 & H1 & H).
  pose proof (ServerSafety.handle_event_sound io elapsed set_order event y Hy) as Hs. rewrite H1 in Hs.
  transitivity (exchange y1); [by eapply event_keeps_up|]. apply IH; [apply Hs|done].
Qed.
End run.

(** *** From the start *)

Definition silent (s s' : t) : Prop :=
  next_sequence_number_ s' = next_sequence_number_ s ∧ output s' = output s.

Lemma adopt_silent l s : silent s (foldl adopt_book s l).
Proof.
  revert s. induction l as [|x l IH]; intros s; [done|]. simpl.
  destruct (IH (adopt_book s x)) as [Hn Ho]. unfold silent. rewrite Hn, Ho.
  unfold adopt_book, set_book, instrument_for. by destruct (instruments_ s !! x.1).
Qed.

Lemma recover_silent path s : silent s (recover_from_journal path s).2.
Proof.
  assert (∀ file s1, silent s s1 → silent s (recover_from_replay file s1).2) as Hr.
  { intros file s1 [Hn Ho]. unfold recover_from_replay.
    destruct (Replay.replay file Replay.new) as [[[]|e] r]; [|done..]. cbn [snd].
    destruct (adopt_silent (map_to_list (Replay.books_ r)) s1) as [Hn' Ho'].
    unfold silent. simpl. by rewrite Hn', Ho', Hn, Ho. }
  destruct path as [| | |[]|[]]; try done; by apply Hr.
Qed.

Lemma start_silent path multicast_starts listens s :
  silent s (start path multicast_starts listens s).2.
Proof.
  unfold start.
  assert (∃ ok s1, (if Lifecycle.recovery_completed_ (lifecycle_ s) then (true, s)
    else let '(ok, s) := recover_from_journal path s in
         (ok, if ok then set_recovery_completed s else s)) = (ok, s1) ∧ silent s s1)
    as (ok & s1 & -> & Hs1).
  { destruct (Lifecycle.recovery_completed_ _); [by eexists _, _|].
    pose proof (recover_silent path s) as H.
    destruct (recover_from_journal path s) as [[] s1]; by eexists _, _. }
  destruct ok; cbn [negb]; [|done].
  assert (∃ opened s2, (match path, journal_ s1 with
      | NoJournal, _ | _, Some _ => (true, s1)
      | _, None => match open_journal path with
                   | Some file => (true, set_journal (Some file) s1)
                   | None => (false, s1)
                   end
      end) = (opened, s2) ∧ silent s s2) as (opened & s2 & -> & Hs2).
  { destruct path, (journal_ s1); by eexists _, _. }
  destruct opened; cbn [negb]; [|done]. destruct (_ && _); [done|].
  destruct (Lifecycle.multicast_config_ _), listens; done.
Qed.

(** The states of a running server; an iteration over an unordered_set visits
    its elements. *)
Inductive live : System → Prop :=
  | live_start path multicast_starts listens limits multicast s :
      start path multicast_starts listens (new limits multicast) = (true, s) →
      live (mkSystem s ∅)
  | live_event io elapsed set_order event y y' :
      (∀ l id, id ∈ set_order l ↔ id ∈ l) →
      live y → handle_event io elapsed set_order event y = (Ok tt, y') → live y'.

Lemma live_alive y : live y → ServerSafety.alive y.
Proof.
  induction 1 as [path ms ls limits multicast s Hs|io elapsed set_order event y y' _ _ IH He].
  - by eapply ServerSafety.alive_start.
  - by eapply ServerSafety.alive_event.
Qed.

Lemma live_speech y :
  live y → counting (exchange y) ∧ Forall (λ x, well_formed x.2) (output (exchange y)).
Proof.
  induction 1 as [path ms ls limits multicast s Hs|io elapsed set_order event y y' Hset Hy [Hc Hw] He].
  - destruct (start_silent path ms ls (new limits multicast)) as [Hn Ho]. rewrite Hs in Hn, Ho.
    simpl in Hn, Ho. split; [|simpl; by rewrite Ho]. unfold counting. simpl. by rewrite Hn.
  - apply live_alive, ServerSafety.alive_sound in Hy.
    destruct (event_keeps_up io elapsed set_order Hset Multicast event y y' Hy I He Hc)
      as (Hc' & out & Ho & Hw' & _).
    split; [done|]. rewrite Ho. by apply Forall_app.
Qed.

(** C32. The server speaks the protocol.  Every message a running server has ever
    sent, to a client or to the multicast group, is the encoding of a valid
    header, with the size of its body, and a body that the decoder for its type
    accepts; so no reader that uses these decoders has to drop anything. *)
Theorem messages_well_formed y d message :
  live y → (d, message) ∈ output (exchange y) → well_formed message.
Proof.
  intros [_ Hw]%live_speech Hin. rewrite Forall_forall in Hw. exact (Hw _ Hin).
Qed.

(** C5. The feed is the book.  A subscriber of the multicast group, or a client
    that stays connected, that has the books of the server at any moment and
    from then on reads nothing but the level-3 messages it is sent, has after
    any further events exactly the books of the server: the same orders, with
    the same ids, prices, times and remaining quantities, in the same priority
    on both sides of every symbol.  ([Hset]: iterating over an unordered_set
    visits its elements.) *)
Theorem feed_rebuilds_books io elapsed set_order d events y y'
    (Hset : ∀ l id, id ∈ set_order l ↔ id ∈ l) :
  live y → listening d (exchange y) → Forall (stays d) events →
  run io elapsed set_order events y = (Ok tt, y') →
  ∃ out, output (exchange y') = output (exchange y) ++ out ∧
    ∀ symbol, follow (heard d out) (views_of (exchange y)) symbol = views_of (exchange y') symbol.
Proof.
  intros Ha Hl Hst H. pose proof (ServerSafety.alive_sound _ (live_alive _ Ha)) as Hy.
  destruct (run_keeps_up io elapsed set_order Hset d events y y' Hy Hst H (proj1 (live_speech _ Ha)))
    as (_ & out & Ho & _ & Hf).
  exists out. split; [done|]. by destruct (Hf Hl) as [_ [Hs]].
Qed.

(* from the start: socket 5 bids, socket 6 sells into the bid, socket 5
   replaces what is left and sells across it *)
Definition busy : list Event :=
  ServerDemo.trading ++
  [Receive 5 (ServerDemo.replace_order 1 98 20);
   Receive 6 (ServerDemo.new_order 3 Protocol.Side_Buy 97 8);
   Receive 5 (ServerDemo.new_order 4 Protocol.Side_Sell 97 23)].
Definition busy_start : System := mkSystem ServerDemo.started ∅.
Definition busy_end : System :=
  (run ServerDemo.good_disk ServerDemo.no_time ServerDemo.set_order busy busy_start).2.

Lemma feed_rebuilds_books_witness :
  run ServerDemo.good_disk ServerDemo.no_time ServerDemo.set_order busy busy_start = (Ok tt, busy_end) ∧
  view_bids (views_of (exchange busy_end) "TEST"%string) = [Entry.mk 3 1000 97 5] ∧
  ∃ out, output (exchange busy_end) = output (exchange busy_start) ++ out ∧
    ∀ symbol, follow (heard Multicast out) (views_of (exchange busy_start)) symbol =
      views_of (exchange busy_end) symbol.
Proof.
  assert (run ServerDemo.good_disk ServerDemo.no_time ServerDemo.set_order busy busy_start =
    (Ok tt, busy_end)) as Hr by (vm_compute; reflexivity).
  split; [exact Hr|]. split; [vm_compute; reflexivity|].
  apply (feed_rebuilds_books ServerDemo.good_disk ServerDemo.no_time ServerDemo.set_order Multicast
    busy busy_start busy_end).
  - intros l id. apply elem_of_remove_dups.
  - eapply live_start. exact ServerDemo.started_ok.
  - clear Hr. vm_compute. reflexivity.
  - repeat constructor.
  - exact Hr.
Defined.

Lemma demo_live events y y' :
  live y → run ServerDemo.good_disk ServerDemo.no_time ServerDemo.set_order events y = (Ok tt, y') →
  live y'.
Proof.
  revert y. induction events as [|event events IH]; intros y Hy H; [by injection H as <-|].
  apply bind_Ok in H as ([] & y1 & H1 & H). eapply IH; [|exact H]. eapply live_event; [|exact Hy|exact H1].
  intros l id. apply elem_of_remove_dups.
Qed.

Lemma messages_well_formed_witness :
  ∃ message, last (output (exchange busy_end)) = Some (Socket 6, message) ∧ well_formed message.
Proof.
  destruct (last (output (exchange busy_end))) as [[d message]|] eqn:E; [|by vm_compute in E].
  exists message. split.
  - f_equal. f_equal. pose proof (f_equal (fmap fst) E) as E'. vm_compute in E'. by injection E'.
  - apply (messages_well_formed busy_end d message).
    + apply (demo_live busy busy_start); [|vm_compute; reflexivity].
      eapply live_start. exact ServerDemo.started_ok.
    + apply last_Some in E as [l ->]. apply elem_of_app. right. by left.
Defined.

End ServerFeed.
