(* ===== verification/ServerPositions.v ===== *)
(** * Positions: the risk engine of a running server knows every order

    The handlers keep the risk engine and the books in step by calls that are
    spread over them: one for every trade, one when an order comes to rest, one
    when it is withdrawn.  Here: what the engine works with is, in every state
    a server can reach, exactly the resting orders that belong to a session,
    with what they have left; and so the limits hold for the books themselves. *)
From Stdlib Require Import Strings.String.
From S2P Require Import Prelude Types SortedMap PriceLevel TradeBuffer BookSpec OrderBook MatchingEngine RiskEngine Bytes Protocol PerformanceMetrics Journal Replay ExchangeServer ServerDemo ServerFrames ServerSafety ServerOrders ServerSettle FeedReader ServerFeed.
Open Scope Z_scope.

Module ServerPositions.
Import ExchangeServer ServerFrames ServerOrders ServerSettle.
Import RiskEngine (working_orders_, invalid_risk_client_id).

(** ** What the engine should be working with *)

(* the risk session an order is accounted to; 0 is nobody *)
Definition session_of (owners : gmap OrderId OrderOwner.t) (id : OrderId) : Z :=
  OrderOwner.risk_client_id (default OrderOwner.none (owners !! id)).

Definition working (o : Order) : RiskEngine.WorkingOrder.t :=
  RiskEngine.WorkingOrder.mk (Order.side o) (Order.price o) (Order.remaining_quantity o).

(* what session [d] has at stake in a resting order *)
Definition stake (owners : gmap OrderId OrderOwner.t) (d : Z) (o : Order)
    : option RiskEngine.WorkingOrder.t :=
  if decide (d = session_of owners (Order.id o) ∧ d ≠ invalid_risk_client_id)
  then Some (working o) else None.

(* the engine's working orders of a symbol are the stakes in its book *)
Record tracked (symbol : string) (owners : gmap OrderId OrderOwner.t) (b : BookSpec.t)
    (r : RiskEngine.t) : Prop := {
  tracked_resting o d : o ∈ BookSpec.all_orders b →
    working_orders_ r !! RiskEngine.WorkingOrderKey.mk d symbol (Order.id o) = stake owners d o;
  tracked_absent id d : id ∉ Order.id <$> BookSpec.all_orders b →
    working_orders_ r !! RiskEngine.WorkingOrderKey.mk d symbol id = None
}.

Lemma stake_reduce owners d o x :
  stake owners d (BookSpec.reduce x o) =
    RiskEngine.WorkingOrder.set_remaining_quantity (Order.remaining_quantity o - x) <$> stake owners d o.
Proof. unfold stake. by destruct (decide _). Qed.

Lemma stake_session owners owners' d o :
  session_of owners' (Order.id o) = session_of owners (Order.id o) →
  stake owners' d o = stake owners d o.
Proof. unfold stake. by intros ->. Qed.

(** ** A trade *)

Lemma fill_absent r symbol c id s q :
  RiskEngine.inv r → 0 < q < 2 ^ 32 →
  working_orders_ r !! RiskEngine.WorkingOrderKey.mk c symbol id = None →
  working_orders_ (RiskEngine.on_fill symbol c id s q r) = working_orders_ r.
Proof.
  intros Hi Hq Hk. destruct (decide (c = invalid_risk_client_id)) as [->|Hc]; [done|].
  pose proof (RiskEngine.fill_event r symbol c id s q Hi Hc Hq) as H. cbn zeta in H.
  rewrite Hk in H. apply H.
Qed.

Lemma fill_present r symbol c id s q w :
  let k := RiskEngine.WorkingOrderKey.mk c symbol id in
  let left := RiskEngine.WorkingOrder.remaining_quantity w - q in
  RiskEngine.inv r → 0 < q < 2 ^ 32 → q ≤ RiskEngine.WorkingOrder.remaining_quantity w →
  working_orders_ r !! k = Some w →
  working_orders_ (RiskEngine.on_fill symbol c id s q r) =
    if left =? 0 then delete k (working_orders_ r)
    else <[k := RiskEngine.WorkingOrder.set_remaining_quantity left w]> (working_orders_ r).
Proof.
  intros k left Hi Hq Hle Hk. destruct (RiskEngine.inv_typed _ Hi _ _ Hk) as [Hc _].
  pose proof (RiskEngine.fill_event r symbol c id s q Hi Hc Hq) as H. cbn zeta in H. fold k in H.
  rewrite Hk, Z.min_r in H by done. apply H.
Qed.

Section trades.
Context (symbol : string) (client_socket c : Z) (owners : gmap OrderId OrderOwner.t).
Context (incoming : Order).
Abbreviation order_id := (Order.id incoming).
Abbreviation s := (Order.side incoming).
Abbreviation own := (RiskEngine.WorkingOrderKey.mk c symbol order_id).
Abbreviation key d id := (RiskEngine.WorkingOrderKey.mk d symbol id).
Abbreviation traded_on := (trade_risk symbol order_id client_socket c owners).

Lemma trade_risk_aggress r o x :
  Order.id o ≠ order_id →
  traded_on r (trade_between incoming o x) =
    RiskEngine.aggress symbol c order_id s (session_of owners (Order.id o), Order.id o, x) r.
Proof.
  intros Hne%Z.eqb_neq. unfold trade_risk, trade_between, RiskEngine.aggress, owner_in, session_of.
  destruct s; simpl; by rewrite Z.eqb_refl, Hne.
Qed.

(* what is needed of an order that trades *)
Definition tradable (r : RiskEngine.t) (o : Order) : Prop :=
  Order.id o ≠ order_id ∧ BookSpec.resting_on (opposite s) o ∧
  ∀ d, working_orders_ r !! key d (Order.id o) = stake owners d o.

(* the orders of other ids, or on other symbols *)
Definition elsewhere (ids : list OrderId) (k : RiskEngine.WorkingOrderKey.t) : Prop :=
  RiskEngine.WorkingOrderKey.symbol k = symbol → RiskEngine.WorkingOrderKey.order_id k ∉ ids.

Lemma passive_fill_working r o x s' :
  RiskEngine.inv r → tradable r o → 0 < x ≤ Order.remaining_quantity o →
  let d := session_of owners (Order.id o) in
  let r' := RiskEngine.on_fill symbol d (Order.id o) s' x r in
  (∀ e, working_orders_ r' !! key e (Order.id o) =
     if decide (x = Order.remaining_quantity o) then None else stake owners e (BookSpec.reduce x o)) ∧
  (∀ k, elsewhere [Order.id o] k → working_orders_ r' !! k = working_orders_ r !! k).
Proof.
  intros Hi (Hne & (_ & _ & Hr) & Hst) Hx d r'.
  assert (∀ k, elsewhere [Order.id o] k → k ≠ key d (Order.id o)) as Hother.
  { intros k Hk ->. destruct (Hk eq_refl). by left. }
  destruct (decide (d = invalid_risk_client_id)) as [Hd|Hd].
  { assert (r' = r) as Hrr by (unfold r', RiskEngine.on_fill; by rewrite Hd). rewrite Hrr.
    split; [|done]. intros e. rewrite Hst, stake_reduce. unfold stake. fold d.
    rewrite decide_False by (intros [-> ?]; done). by destruct (decide _). }
  assert (working_orders_ r !! key d (Order.id o) = Some (working o)) as Hk.
  { rewrite Hst. unfold stake. by rewrite decide_True. }
  pose proof (fill_present r symbol d (Order.id o) s' x (working o) Hi ltac:(lia) ltac:(simpl; lia) Hk) as H.
  cbn [working RiskEngine.WorkingOrder.remaining_quantity] in H. fold r' in H. rewrite H. clear H. split.
  - intros e. rewrite stake_reduce. unfold stake. fold d.
    destruct (Z.eqb_spec (Order.remaining_quantity o - x) 0); destruct (decide (x = _)); try lia.
    + destruct (decide (e = d)) as [->|He]; [by rewrite lookup_delete_eq|].
      rewrite lookup_delete_ne by congruence. rewrite Hst. unfold stake. fold d.
      by rewrite decide_False by tauto.
    + destruct (decide (e = d)) as [->|He]; [by rewrite lookup_insert_eq, decide_True|].
      rewrite lookup_insert_ne by congruence. rewrite Hst. unfold stake. fold d.
      by rewrite decide_False by tauto.
  - intros k Hk'%Hother. destruct (_ =? 0); [by rewrite lookup_delete_ne|by rewrite lookup_insert_ne].
Qed.

Lemma tradable_mono r r' o :
  (∀ d, working_orders_ r' !! key d (Order.id o) = working_orders_ r !! key d (Order.id o)) →
  tradable r o → tradable r' o.
Proof. intros He (H1 & H2 & H3). split_and!; [done..|]. intros d. by rewrite He. Qed.

(** One trade of the incoming order. *)
Lemma trade_tracked r o x :
  RiskEngine.inv r → working_orders_ r !! own = None → tradable r o →
  0 < x ≤ Order.remaining_quantity o →
  let r' := traded_on r (trade_between incoming o x) in
  RiskEngine.fillable symbol s (session_of owners (Order.id o), Order.id o, x) r ∧
  RiskEngine.inv r' ∧ working_orders_ r' !! own = None ∧
  (∀ e, working_orders_ r' !! key e (Order.id o) =
     if decide (x = Order.remaining_quantity o) then None else stake owners e (BookSpec.reduce x o)) ∧
  (∀ k, elsewhere [Order.id o] k → working_orders_ r' !! k = working_orders_ r !! k).
Proof.
  intros Hi Hown Ht Hx r'. pose proof Ht as (Hne & (Hside & _ & Hr) & Hst).
  assert (elsewhere [Order.id o] own) as Helse.
  { intros _. rewrite list_elem_of_singleton. simpl. congruence. }
  assert (in_u32 x) as Hx32 by (unfold in_u32; lia).
  split.
  { split; [lia|]. destruct (decide (session_of owners (Order.id o) = invalid_risk_client_id)) as [|Hd];
      [by left|right]. exists (working o). rewrite Hst. unfold stake. rewrite decide_True by done.
    split_and!; [done|done|simpl; lia]. }
  unfold r'. rewrite trade_risk_aggress by done. unfold RiskEngine.aggress.
  set (d := session_of owners (Order.id o)).
  destruct s; unfold RiskEngine.on_trade; (destruct (Z.eqb_spec x 0); [lia|]).
  - set (r1 := RiskEngine.on_fill symbol c order_id Buy x r).
    assert (working_orders_ r1 = working_orders_ r) as Hr1 by (apply fill_absent; [done|lia|done]).
    assert (RiskEngine.inv r1) as Hi1 by by apply RiskEngine.fill_inv.
    destruct (passive_fill_working r1 o x Sell Hi1) as [H1 H2]; [|done|].
    { apply (tradable_mono r); [|done]. intros. by rewrite Hr1. }
    fold d in H1, H2. split; [by apply RiskEngine.fill_inv|].
    split; [by rewrite H2, Hr1|]. split; [done|]. intros k Hk. by rewrite H2, Hr1.
  - destruct (passive_fill_working r o x Buy Hi Ht Hx) as [H1 H2]. fold d in H1, H2.
    set (r1 := RiskEngine.on_fill symbol d (Order.id o) Buy x r) in *.
    assert (RiskEngine.inv r1) as Hi1 by by apply RiskEngine.fill_inv.
    assert (working_orders_ (RiskEngine.on_fill symbol c order_id Sell x r1) = working_orders_ r1) as ->.
    { apply fill_absent; [done|lia|]. by rewrite H2. }
    split; [by apply RiskEngine.fill_inv|]. split; [by rewrite H2|]. by split.
Qed.

(** *** All its trades *)

Abbreviation trade_of := (λ step : Order * Z, trade_between incoming step.1 step.2).
Abbreviation ids_of := (λ steps : list (Order * Z), (λ step, Order.id step.1) <$> steps).

Lemma steps_tracked steps r :
  RiskEngine.inv r → working_orders_ r !! own = None → NoDup (ids_of steps) →
  Forall (λ step, tradable r step.1 ∧ 0 < step.2 ≤ Order.remaining_quantity step.1) steps →
  let ts := trade_of <$> steps in
  let r' := foldl traded_on r ts in
  RiskEngine.fills symbol c order_id s r (BookSpec.traded ts) r' ∧
  RiskEngine.inv r' ∧ working_orders_ r' !! own = None ∧
  Forall (λ step, ∀ e, working_orders_ r' !! key e (Order.id step.1) =
    if decide (step.2 = Order.remaining_quantity step.1) then None
    else stake owners e (BookSpec.reduce step.2 step.1)) steps ∧
  (∀ k, elsewhere (ids_of steps) k → working_orders_ r' !! k = working_orders_ r !! k).
Proof.
  revert r. induction steps as [|[o x] steps IH]; intros r Hi Hown Hd Hall ts r'.
  { split_and!; [constructor|done..]. }
  cbn in Hd. apply NoDup_cons in Hd as [Hnew Hd]. apply Forall_cons in Hall as [[Ht Hx] Hall].
  cbn [fst snd] in Ht, Hx.
  destruct (trade_tracked r o x Hi Hown Ht Hx) as (Hf & Hi1 & Hown1 & Hat & Helse).
  set (r1 := traded_on r (trade_between incoming o x)) in *.
  destruct (IH r1 Hi1 Hown1 Hd) as (Hfs & Hi' & Hown' & Hats & Helses).
  { rewrite Forall_forall in Hall |- *. intros [o' x'] Hin. destruct (Hall _ Hin) as [Ht' Hx'].
    split; [|done]. apply (tradable_mono r); [|done]. intros d. apply Helse. intros _. simpl.
    rewrite list_elem_of_singleton. intros He. apply Hnew. rewrite <- He.
    by apply (list_elem_of_fmap_2 (λ step : Order * Z, Order.id step.1) _ (o', x')). }
  clear IH. change r' with (foldl traded_on r1 (trade_of <$> steps)).
  change ts with (trade_between incoming o x :: (trade_of <$> steps)).
  set (r2 := foldl traded_on r1 (trade_of <$> steps)) in *. clearbody r2.
  split_and!; [|done|done| |].
  - unfold BookSpec.traded. cbn [fmap list_fmap sum_Z foldr]. rewrite BookSpec.trade_between_quantity.
    refine (RiskEngine.fills_next _ _ _ _ r (session_of owners (Order.id o), Order.id o, x) _ r2 Hf _).
    rewrite <- trade_risk_aggress by apply Ht. exact Hfs.
  - constructor; [|done]. cbn [fst snd]. intros e. rewrite Helses; [apply Hat|]. intros _. exact Hnew.
  - intros k Hk. rewrite Helses, Helse; [done| |]; intros Hsym Hin; destruct (Hk Hsym);
      rewrite fmap_cons, elem_of_cons; [left; by apply list_elem_of_singleton in Hin|by right].
Qed.

(* a sweep is a list of orders, each with what it gives *)
Lemma swept_steps q l ts q' l' :
  Forall (BookSpec.resting_on (opposite s)) l → NoDup (Order.id <$> l) →
  BookSpec.swept incoming q l ts q' l' →
  ∃ steps, ts = trade_of <$> steps ∧ NoDup (ids_of steps) ∧
    Forall (λ step, step.1 ∈ l ∧ 0 < step.2 ≤ Order.remaining_quantity step.1) steps ∧
    (∀ o, o ∈ l' → (o ∈ l ∧ Order.id o ∉ ids_of steps) ∨
       ∃ step, step ∈ steps ∧ o = BookSpec.reduce step.2 step.1 ∧
         step.2 ≠ Order.remaining_quantity step.1) ∧
    (∀ id, id ∈ Order.id <$> l → id ∉ Order.id <$> l' →
       ∃ step, step ∈ steps ∧ id = Order.id step.1 ∧ step.2 = Order.remaining_quantity step.1).
Proof.
  intros Hr Hd Hsw. pose (full := λ o : Order, (o, Order.remaining_quantity o)).
  assert (∀ l0 : list Order, ids_of (full <$> l0) = Order.id <$> l0) as Hids.
  { intros l0. by rewrite <- list_fmap_compose. }
  assert (∀ l0 : list Order, trade_of <$> (full <$> l0) = BookSpec.full_trade incoming <$> l0) as Htr.
  { intros l0. by rewrite <- list_fmap_compose. }
  assert (∀ l0 : list Order, (∀ o, o ∈ l0 → o ∈ l) →
    Forall (λ step, step.1 ∈ l ∧ 0 < step.2 ≤ Order.remaining_quantity step.1) (full <$> l0)) as Hok.
  { intros l0 Hl0. apply Forall_fmap, Forall_forall. intros o Ho. simpl. rewrite Forall_forall in Hr.
    destruct (Hr o (Hl0 o Ho)) as (_ & _ & ?). split; [by apply Hl0|lia]. }
  destruct Hsw as [filled rest -> _ _ _|filled o rest -> _ _ Hq].
  - exists (full <$> filled). rewrite fmap_app in Hd. apply NoDup_app in Hd as (Hd1 & Hd2 & _).
    rewrite Htr, Hids. split_and!; [done|done| | |].
    + apply Hok. intros o Ho. apply elem_of_app. by left.
    + intros o Ho. left. split; [apply elem_of_app; by right|]. intros Hin. apply (Hd2 _ Hin).
      by apply list_elem_of_fmap_2.
    + intros id Hin Hno. rewrite fmap_app, elem_of_app in Hin. destruct Hin as [Hin|?]; [|done].
      apply list_elem_of_fmap in Hin as (o & -> & Ho). exists (full o). split; [|done].
      by apply list_elem_of_fmap_2.
  - set (x := q - BookSpec.depth filled) in *. exists ((full <$> filled) ++ [(o, x)]).
    rewrite fmap_app in Hd. apply NoDup_app in Hd as (Hd1 & Hd2 & Hd3).
    rewrite fmap_cons in Hd2, Hd3. apply NoDup_cons in Hd3 as [Ho Hd3].
    rewrite !fmap_app, Htr, Hids. split_and!; [done| | | |].
    + apply NoDup_app. split; [done|]. split; [|apply NoDup_singleton].
      intros id Hin. simpl. rewrite list_elem_of_singleton. intros ->. apply (Hd2 _ Hin). by left.
    + apply Forall_app. split; [apply Hok; intros y Hy; apply elem_of_app; by left|].
      constructor; [|constructor]. simpl. split; [|lia]. apply elem_of_app. right. by left.
    + intros y [->|Hy]%elem_of_cons.
      * right. exists (o, x). split; [apply elem_of_app; right; by left|]. simpl. split; [done|lia].
      * left. split; [apply elem_of_app; right; by right|]. rewrite elem_of_app. simpl.
        rewrite list_elem_of_singleton. intros [Hin|Hin].
        -- apply (Hd2 _ Hin). right. by apply list_elem_of_fmap_2.
        -- apply Ho. rewrite <- Hin. by apply list_elem_of_fmap_2.
    + intros id Hin Hno. rewrite fmap_cons, elem_of_app, elem_of_cons in Hin.
      rewrite fmap_cons, not_elem_of_cons in Hno. simpl in Hno.
      destruct Hin as [Hin|[Hin|Hin]]; [|tauto|tauto].
      apply list_elem_of_fmap in Hin as (y & -> & Hy). exists (full y). split; [|done].
      apply elem_of_app. left. by apply list_elem_of_fmap_2.
Qed.

(** The trades of a sweep leave the engine with what the sweep leaves. *)
Lemma sweep_tracked q l ts q' l' r :
  RiskEngine.inv r → working_orders_ r !! own = None →
  Forall (tradable r) l → NoDup (Order.id <$> l) →
  BookSpec.swept incoming q l ts q' l' →
  let r' := foldl traded_on r ts in
  RiskEngine.fills symbol c order_id s r (BookSpec.traded ts) r' ∧
  RiskEngine.inv r' ∧ working_orders_ r' !! own = None ∧
  (∀ o e, o ∈ l' → working_orders_ r' !! key e (Order.id o) = stake owners e o) ∧
  (∀ id e, id ∈ Order.id <$> l → id ∉ Order.id <$> l' → working_orders_ r' !! key e id = None) ∧
  (∀ k, elsewhere (Order.id <$> l) k → working_orders_ r' !! k = working_orders_ r !! k).
Proof.
  intros Hi Hown Hall Hd Hsw r'. rewrite Forall_forall in Hall.
  destruct (swept_steps q l ts q' l') as (steps & -> & Hds & Hsteps & Hleft & Hgone); [|done|done|].
  { apply Forall_forall. intros o Ho. apply (Hall o Ho). }
  rewrite Forall_forall in Hsteps.
  destruct (steps_tracked steps r Hi Hown Hds) as (Hf & Hi' & Hown' & Hat & Helse).
  { apply Forall_forall. intros step Hin. destruct (Hsteps _ Hin). split; [by apply Hall|done]. }
  fold r' in Hf, Hi', Hown', Hat, Helse. rewrite Forall_forall in Hat. split_and!; [done..| | |].
  - intros o e [[Ho Hn]|(step & Hin & -> & Hne)]%Hleft.
    + rewrite Helse by (intros _; exact Hn). by apply (Hall o Ho).
    + pose proof (Hat step Hin e) as H. rewrite decide_False in H by done. exact H.
  - intros id e Hid Hn. destruct (Hgone id Hid Hn) as (step & Hin & -> & He).
    pose proof (Hat step Hin e) as H. by rewrite decide_True in H by done.
  - intros k Hk. apply Helse. intros Hsym (step & He & Hin)%list_elem_of_fmap.
    apply (Hk Hsym). rewrite He. apply list_elem_of_fmap_2. by apply (Hsteps _ Hin).
Qed.
End trades.

(** ** The engine and the book after an order *)

Lemma drop_owners_lookup ids owners id : id ∉ ids → drop_owners ids owners !! id = owners !! id.
Proof.
  unfold drop_owners. revert owners. induction ids as [|x ids IH]; intros owners; [done|].
  rewrite not_elem_of_cons. intros [Hne Hn]. simpl. rewrite IH by done. by rewrite lookup_delete_ne.
Qed.

Lemma tracked_owners symbol owners owners' b b' r :
  (∀ o, o ∈ BookSpec.all_orders b' ↔ o ∈ BookSpec.all_orders b) →
  (∀ o, o ∈ BookSpec.all_orders b → session_of owners' (Order.id o) = session_of owners (Order.id o)) →
  tracked symbol owners b r → tracked symbol owners' b' r.
Proof.
  intros Hb Ho [Hr Ha]. split.
  - intros o d Hin%Hb. rewrite Hr by done. symmetry. by apply stake_session, Ho.
  - intros id d Hn. apply Ha. intros (o & -> & Hin%Hb)%list_elem_of_fmap. apply Hn.
    by apply list_elem_of_fmap_2.
Qed.

Lemma tracked_same symbol owners b r r' :
  (∀ d id, working_orders_ r' !! RiskEngine.WorkingOrderKey.mk d symbol id =
           working_orders_ r !! RiskEngine.WorkingOrderKey.mk d symbol id) →
  tracked symbol owners b r → tracked symbol owners b r'.
Proof. intros He [Hr Ha]. split; intros; rewrite He; auto. Qed.

Lemma resting_working r c symbol id s price q :
  RiskEngine.inv r → in_u32 q →
  working_orders_ r !! RiskEngine.WorkingOrderKey.mk c symbol id = None →
  working_orders_ (RiskEngine.on_order_resting c symbol id s price q r) =
    if decide (c ≠ invalid_risk_client_id ∧ 0 < q)
    then <[RiskEngine.WorkingOrderKey.mk c symbol id := RiskEngine.WorkingOrder.mk s price q]>
           (working_orders_ r)
    else working_orders_ r.
Proof.
  unfold in_u32. intros Hi Hq Hk. destruct (decide _) as [[Hc Hpos]|Hno].
  - apply RiskEngine.resting_event; [done..|lia].
  - unfold RiskEngine.on_order_resting. destruct (Z.eqb_spec c invalid_risk_client_id); [done|].
    destruct (Z.eqb_spec q 0); [done|]. destruct Hno. split; [done|lia].
Qed.

(* a new order rests, owned by session [c] *)
Lemma tracked_rest symbol owners owners' b b' r c o :
  RiskEngine.inv r → tracked symbol owners b r → in_u32 (Order.remaining_quantity o) →
  0 < Order.remaining_quantity o → Order.id o ∉ Order.id <$> BookSpec.all_orders b →
  (∀ x, x ∈ BookSpec.all_orders b' ↔ x = o ∨ x ∈ BookSpec.all_orders b) →
  (∀ x, x ∈ BookSpec.all_orders b → session_of owners' (Order.id x) = session_of owners (Order.id x)) →
  session_of owners' (Order.id o) = c →
  tracked symbol owners' b' (RiskEngine.on_order_resting c symbol (Order.id o) (Order.side o)
    (Order.price o) (Order.remaining_quantity o) r).
Proof.
  intros Hi [Hr Ha] Hq Hpos Hnew Hb Ho Hc.
  pose proof (resting_working r c symbol (Order.id o) (Order.side o) (Order.price o)
    (Order.remaining_quantity o) Hi Hq (Ha _ _ Hnew)) as Hw.
  assert (∀ d id, id ≠ Order.id o →
    working_orders_ (RiskEngine.on_order_resting c symbol (Order.id o) (Order.side o)
      (Order.price o) (Order.remaining_quantity o) r) !! RiskEngine.WorkingOrderKey.mk d symbol id =
    working_orders_ r !! RiskEngine.WorkingOrderKey.mk d symbol id) as Hne.
  { intros d id Hid. rewrite Hw. destruct (decide _); [|done]. apply lookup_insert_ne. congruence. }
  split.
  - intros x d [->|Hx]%Hb.
    + rewrite Hw. unfold stake. rewrite Hc. destruct (decide (c ≠ _ ∧ _)) as [[Hc0 _]|Hc0].
      * destruct (decide (d = c)) as [->|Hd].
        { rewrite lookup_insert_eq. by rewrite decide_True by done. }
        rewrite lookup_insert_ne by congruence. rewrite decide_False by tauto. by apply Ha.
      * rewrite decide_False by (intros [-> ?]; tauto). by apply Ha.
    + rewrite Hne, Hr by (done || (intros He; apply Hnew; rewrite <- He; by apply list_elem_of_fmap_2)).
      symmetry. by apply stake_session, Ho.
  - intros id d Hn. rewrite Hne.
    + apply Ha. intros (x & -> & Hx)%list_elem_of_fmap. apply Hn, list_elem_of_fmap_2, Hb. by right.
    + intros ->. apply Hn, list_elem_of_fmap_2, Hb. by left.
Qed.

(* an order is withdrawn *)
Lemma tracked_withdraw symbol owners owners' b b' r c x :
  RiskEngine.inv r → tracked symbol owners b r → NoDup (Order.id <$> BookSpec.all_orders b) →
  x ∈ BookSpec.all_orders b → c = session_of owners (Order.id x) →
  (∀ o, o ∈ BookSpec.all_orders b' ↔ o ∈ BookSpec.all_orders b ∧ Order.id o ≠ Order.id x) →
  (∀ id, id ≠ Order.id x → owners' !! id = owners !! id) →
  tracked symbol owners' b' (RiskEngine.on_order_cancelled c symbol (Order.id x) r).
Proof.
  intros Hi [Hr Ha] Hd Hx Hc Hb Ho.
  set (k := RiskEngine.WorkingOrderKey.mk c symbol (Order.id x)).
  assert (∀ d id, working_orders_ (RiskEngine.on_order_cancelled c symbol (Order.id x) r) !!
      RiskEngine.WorkingOrderKey.mk d symbol id =
    if decide (id = Order.id x) then None
    else working_orders_ r !! RiskEngine.WorkingOrderKey.mk d symbol id) as Hw.
  { intros d id. unfold RiskEngine.on_order_cancelled.
    destruct (Z.eqb_spec c invalid_risk_client_id) as [Hc0|Hc0].
    - destruct (decide _) as [->|]; [|done]. rewrite Hr by done. unfold stake.
      rewrite <- Hc. by rewrite decide_False by (intros [-> ?]; done).
    - fold k. rewrite RiskEngine.erase_absent by done. destruct (decide (id = _)) as [->|Hne].
      + destruct (decide (d = c)) as [->|Hd']; [apply lookup_delete_eq|].
        rewrite lookup_delete_ne by (unfold k; congruence). rewrite Hr by done. unfold stake.
        rewrite <- Hc. by rewrite decide_False by tauto.
      + apply lookup_delete_ne. unfold k. congruence. }
  split.
  - intros o d [Hin Hne]%Hb. rewrite Hw, decide_False by done. rewrite Hr by done. symmetry.
    apply stake_session. unfold session_of. by rewrite Ho.
  - intros id d Hn. rewrite Hw. destruct (decide _) as [|Hne]; [done|]. apply Ha.
    intros (o & -> & Hin)%list_elem_of_fmap. apply Hn, list_elem_of_fmap_2, Hb. by split.
Qed.

Lemma elem_of_sides s b o :
  o ∈ BookSpec.all_orders b ↔ o ∈ BookSpec.side_orders s b ∨ o ∈ BookSpec.side_orders (opposite s) b.
Proof. unfold BookSpec.all_orders. rewrite elem_of_app. destruct s; simpl; tauto. Qed.

Section matched.
Context (symbol : string) (client_socket c : Z) (owners : gmap OrderId OrderOwner.t).
Context (order : Order) (book book' : OrderBook.t) (ts : list Trade).
Context (g : gmap OrderId OrderOwner.t → gmap OrderId OrderOwner.t) (r : RiskEngine.t).
Context (Hi : OrderBook.inv book) (Hm : matched order book book' ts).
Context (Hfresh : lookup_order (OrderBook.abs book) (Order.id order) = None).
Context (Hg : ∀ m id, id ≠ Order.id order → g m !! id = m !! id).
Context (Hr : RiskEngine.inv r) (Ht : tracked symbol owners (OrderBook.abs book) r).
Abbreviation s := (Order.side order).
Abbreviation after := (settled_owners (Order.id order) client_socket c book' g owners ts).
Abbreviation traded_on := (trade_risk symbol (Order.id order) client_socket c owners).

Lemma settled_session id :
  id ≠ Order.id order → id ∈ Order.id <$> BookSpec.all_orders (OrderBook.abs book') →
  session_of after id = session_of owners id.
Proof.
  intros Hne (o & -> & Ho)%list_elem_of_fmap. unfold session_of. f_equal. f_equal.
  unfold settled_owners, rest_owners.
  assert (∀ m, drop_owners (gone_ids (Order.id order) (OrderBook.abs book') ts) m !! Order.id o =
               m !! Order.id o) as Hd.
  { intros m. apply drop_owners_lookup. intros (_ & _ & Hn)%FeedReader.elem_of_gone.
    apply lookup_order_None in Hn. rewrite Forall_forall in Hn. by apply (Hn o Ho). }
  etrans; [|apply Hd]. destruct (lookup_order (OrderBook.abs book') _); [by apply lookup_insert_ne|by apply Hg].
Qed.

Lemma settled_own o :
  lookup_order (OrderBook.abs book') (Order.id order) = Some o → session_of after (Order.id order) = c.
Proof. intros Ho. unfold session_of, settled_owners, rest_owners. by rewrite Ho, lookup_insert_eq. Qed.

Lemma fresh_id : Order.id order ∉ Order.id <$> BookSpec.all_orders (OrderBook.abs book).
Proof.
  apply lookup_order_None in Hfresh. rewrite Forall_forall in Hfresh.
  intros (o & He & Ho)%list_elem_of_fmap. by apply (Hfresh o Ho).
Qed.

(* after the trades: the old book, its opposite queue swept *)
Lemma trades_tracked q l' :
  BookSpec.swept (BookSpec.normalise order) (Order.remaining_quantity order)
    (OrderBook.abs_side (opposite s) book) ts q l' →
  let r1 := foldl traded_on r ts in
  RiskEngine.fills symbol c (Order.id order) s r (BookSpec.traded ts) r1 ∧ RiskEngine.inv r1 ∧
  tracked symbol owners (BookSpec.with_side (opposite s) l' (OrderBook.abs book)) r1.
Proof.
  intros Hsw r1. pose proof (BookSpec.normalise_fields order) as (Hid & Hs & _).
  pose proof (OrderBook.abs_wf _ Hi) as Hwf.
  pose proof (proj1 (BookSpec.wf_side (opposite s) _ Hwf)) as Hrest. rewrite OrderBook.abs_side_orders in Hrest.
  pose proof Ht as [Htr Hta]. pose proof fresh_id as Hf.
  set (l := OrderBook.abs_side (opposite s) book) in *.
  assert (∀ o, o ∈ l → o ∈ BookSpec.all_orders (OrderBook.abs book)) as Hl.
  { intros o Ho. apply (elem_of_sides s). right. by rewrite OrderBook.abs_side_orders. }
  destruct (sweep_tracked symbol client_socket c owners (BookSpec.normalise order)
    (Order.remaining_quantity order) l ts q l' r) as (Hfl & Hi1 & _ & Hleft & Hgone & Helse).
  - done.
  - rewrite Hid. by apply Hta.
  - apply Forall_forall. intros o Ho. rewrite Forall_forall in Hrest. unfold tradable. rewrite Hid, Hs.
    split; [|split; [by apply Hrest|]].
    + intros He. apply Hf. rewrite <- He. by apply list_elem_of_fmap_2, Hl.
    + intros d. by apply Htr, Hl.
  - by apply OrderBook.side_unique.
  - exact Hsw.
  - rewrite Hid in *. rewrite Hs in Hfl. fold r1 in Hfl, Hi1, Hleft, Hgone, Helse.
    split; [done|]. split; [done|].
    set (b1 := BookSpec.with_side (opposite s) l' (OrderBook.abs book)).
    assert (∀ o, o ∈ BookSpec.all_orders b1 ↔ o ∈ OrderBook.abs_side s book ∨ o ∈ l') as Hb1.
    { intros o. rewrite (elem_of_sides s). unfold b1.
      by rewrite BookSpec.side_with_side, BookSpec.side_with_opposite, OrderBook.abs_side_orders. }
    assert (∀ o, o ∈ OrderBook.abs_side s book → o ∈ BookSpec.all_orders (OrderBook.abs book)) as Hown.
    { intros o Ho. apply (elem_of_sides s). left. by rewrite OrderBook.abs_side_orders. }
    split.
    + intros o d [Ho|Ho]%Hb1; [|by apply Hleft]. rewrite Helse; [by apply Htr, Hown|].
      intros _ (x & He & Hx)%list_elem_of_fmap. by apply (FeedReader.sides_disjoint order book Hi o x).
    + intros id d Hn. destruct (decide (id ∈ Order.id <$> l)) as [Hin|Hout].
      * apply Hgone; [done|]. intros (o & -> & Ho)%list_elem_of_fmap. apply Hn, list_elem_of_fmap_2, Hb1.
        by right.
      * rewrite Helse by (intros _; exact Hout). apply Hta.
        intros (o & -> & [Ho|Ho]%(elem_of_sides s))%list_elem_of_fmap; rewrite OrderBook.abs_side_orders in Ho.
        -- apply Hn, list_elem_of_fmap_2, Hb1. by left.
        -- apply Hout. by apply list_elem_of_fmap_2.
Qed.

(** The engine and the book when an order has been matched and settled. *)
Lemma order_tracked :
  ∃ total rest r1,
    RiskEngine.fills symbol c (Order.id order) s r total r1 ∧ 0 ≤ rest ∧
    total + rest ≤ Order.remaining_quantity order ∧
    (0 < rest → RiskEngine.may_rest (Order.type order) (Order.time_in_force order) = true) ∧
    settled_risk symbol (Order.id order) client_socket c book' owners ts r =
      RiskEngine.on_order_resting c symbol (Order.id order) s (Order.price order) rest r1 ∧
    tracked symbol after (OrderBook.abs book')
      (settled_risk symbol (Order.id order) client_socket c book' owners ts r).
Proof.
  pose proof fresh_id as Hf. pose proof Hm as (Hv & Hi' & _).
  assert (∀ r1, RiskEngine.on_order_resting c symbol (Order.id order) s (Order.price order) 0 r1 = r1)
    as Hzero by (intros r1; unfold RiskEngine.on_order_resting; by rewrite orb_true_r).
  unfold settled_risk, rest_risk.
  destruct (FeedReader.matched_queues order book book' ts Hi Hm Hfresh)
    as [[Hts Hb]|(q & l' & Hsw & Hopp & Hown)].
  - exists 0, 0, r. rewrite Hzero, Hts, Hb, Hfresh. red in Hv. split; [constructor|]. split_and!; [lia|lia|lia|done|].
    apply (tracked_owners _ owners _ (OrderBook.abs book)); [done| |done]. intros o Ho.
    rewrite <- Hb, <- Hts. apply settled_session; [|rewrite Hb; by apply list_elem_of_fmap_2].
    intros He. apply Hf. rewrite <- He. by apply list_elem_of_fmap_2.
  - pose proof (BookSpec.swept_conservation _ _ _ _ _ _ Hsw) as [Hsum _].
    destruct (trades_tracked q l' Hsw) as (Hfl & Hi1 & Ht1).
    set (r1 := foldl traded_on r ts) in *. set (b1 := BookSpec.with_side _ _ _) in Ht1.
    assert (∀ o, o ∈ BookSpec.all_orders b1 ↔ o ∈ OrderBook.abs_side s book ∨ o ∈ l') as Hb1.
    { intros o. rewrite (elem_of_sides s). unfold b1.
      by rewrite BookSpec.side_with_side, BookSpec.side_with_opposite, OrderBook.abs_side_orders. }
    assert (∀ o, o ∈ BookSpec.all_orders (OrderBook.abs book') ↔
      o ∈ OrderBook.abs_side s book' ∨ o ∈ l') as Hb'.
    { intros o. rewrite (elem_of_sides s). by rewrite !OrderBook.abs_side_orders, Hopp. }
    assert (∀ o, o ∈ BookSpec.all_orders b1 → Order.id o ≠ Order.id order) as Hne.
    { intros o Ho He. apply Hb1 in Ho as [Ho|Ho].
      - pose proof (FeedReader.own_ids_fresh order book Hfresh s) as H. rewrite Forall_forall in H.
        by apply (H o Ho).
      - destruct (BookSpec.swept_origin _ _ _ _ _ _ _ Hsw Ho) as (y & Hy & Hoy).
        pose proof (FeedReader.own_ids_fresh order book Hfresh (opposite s)) as H. rewrite Forall_forall in H.
        apply (H y Hy). rewrite <- He, Hoy. done. }
    destruct Hown as [[Hown Hno]|(o & Ho & Hpos & Hrests & Hoid & Hos & Hown & Hlook)].
    + exists (BookSpec.traded ts), 0, r1. rewrite Hno, Hzero.
      assert (0 ≤ q) as Hq.
      { pose proof (proj1 (BookSpec.wf_side (opposite s) _ (OrderBook.abs_wf _ Hi))) as Hrest.
        rewrite OrderBook.abs_side_orders in Hrest. apply (BookSpec.swept_bounds _ _ _ _ _ _ _ Hrest Hsw). }
      split_and!; [done|lia|lia|lia|done|].
      assert (∀ o, o ∈ BookSpec.all_orders (OrderBook.abs book') ↔ o ∈ BookSpec.all_orders b1) as Hsame.
      { intros o. by rewrite Hb', Hb1, Hown. }
      apply (tracked_owners _ owners _ b1); [done| |done]. intros o Ho. apply settled_session; [by apply Hne|].
      apply list_elem_of_fmap_2. by apply Hsame.
    + apply BookSpec.normalise_rests in Hrests as [Hty Htif].
      pose proof (BookSpec.normalise_fields order) as (_ & _ & Hprice & _).
      assert (Order.price o = Order.price order ∧ Order.remaining_quantity o = q) as [Hp Hrem].
      { rewrite Ho. simpl. by rewrite Hprice. }
      exists (BookSpec.traded ts), q, r1. rewrite Hlook, Hoid, Hos, Hp, Hrem.
      split_and!; [done|lia|lia| |done|].
      { intros _. unfold RiskEngine.may_rest. by rewrite Hty, Htif. }
      assert (∀ x, x ∈ BookSpec.all_orders (OrderBook.abs book') ↔ x = o ∨ x ∈ BookSpec.all_orders b1) as Hadd.
      { intros x. rewrite Hb', Hb1, Hown, BookSpec.enqueue_perm, elem_of_cons. tauto. }
      pose proof (tracked_rest symbol owners after b1 (OrderBook.abs book') r1 c o) as Hfinal.
      rewrite Hoid, Hos, Hp, Hrem in Hfinal.
      apply Hfinal; [done|done| |done| |done| |].
      * red in Hv. pose proof (RiskEngine.fills_nonneg _ _ _ _ _ _ _ Hfl). unfold in_u32. lia.
      * intros (x & He & Hx)%list_elem_of_fmap. by apply (Hne x Hx).
      * intros x Hx. apply settled_session; [by apply Hne|]. apply list_elem_of_fmap_2, Hadd. by right.
      * by eapply settled_own.
Qed.
End matched.

(** ** The server *)

(* the engine keeps to the limits, and its working orders are those of the books *)
Record accounted (l : RiskEngine.RiskLimits.t) (s : t) : Prop := {
  accounted_limits : RiskEngine.limits_ (risk_engine_ s) = l;
  accounted_inv : RiskEngine.inv (risk_engine_ s);
  accounted_within : RiskEngine.all_within l (risk_engine_ s);
  accounted_tracked symbol :
    let i := instrument_of s symbol in
    tracked symbol (InstrumentState.order_owners i) (OrderBook.abs (InstrumentState.book i))
      (risk_engine_ s)
}.

Lemma accounted_same l s s' :
  (∀ symbol, instrument_of s' symbol = instrument_of s symbol) →
  risk_engine_ s' = risk_engine_ s → accounted l s → accounted l s'.
Proof. intros Hi Hr [H1 H2 H3 H4]. split; rewrite ?Hr; try done. intros symbol. rewrite Hi. apply H4. Qed.

Lemma accounted_unchanged l s s' : unchanged s s' → accounted l s → accounted l s'.
Proof. intros (Hi & Hr & _). by apply accounted_same. Qed.

(** *** Other symbols are left alone *)

Lemma fill_other symbol c id s q r k :
  RiskEngine.WorkingOrderKey.symbol k ≠ symbol →
  working_orders_ (RiskEngine.on_fill symbol c id s q r) !! k = working_orders_ r !! k.
Proof.
  intros Hk. assert (RiskEngine.WorkingOrderKey.mk c symbol id ≠ k) as Hne by (by intros <-).
  unfold RiskEngine.on_fill, RiskEngine.reduce_working_order.
  repeat case_match; simpl; rewrite ?lookup_delete_ne, ?lookup_insert_ne by done; done.
Qed.

Lemma cancelled_other symbol c id r k :
  RiskEngine.WorkingOrderKey.symbol k ≠ symbol →
  working_orders_ (RiskEngine.on_order_cancelled c symbol id r) !! k = working_orders_ r !! k.
Proof.
  intros Hk. assert (RiskEngine.WorkingOrderKey.mk c symbol id ≠ k) as Hne by (by intros <-).
  unfold RiskEngine.on_order_cancelled, RiskEngine.erase_working_order.
  repeat case_match; simpl; rewrite ?lookup_delete_ne by done; done.
Qed.

Lemma resting_other symbol c id s price q r k :
  RiskEngine.WorkingOrderKey.symbol k ≠ symbol →
  working_orders_ (RiskEngine.on_order_resting c symbol id s price q r) !! k = working_orders_ r !! k.
Proof.
  intros Hk. assert (RiskEngine.WorkingOrderKey.mk c symbol id ≠ k) as Hne by (by intros <-).
  unfold RiskEngine.on_order_resting, RiskEngine.erase_working_order.
  repeat case_match; simpl; rewrite ?lookup_insert_ne, ?lookup_delete_ne by done; done.
Qed.

Lemma settled_other symbol order_id client c book' owners ts r k :
  RiskEngine.WorkingOrderKey.symbol k ≠ symbol →
  working_orders_ (settled_risk symbol order_id client c book' owners ts r) !! k = working_orders_ r !! k.
Proof.
  intros Hk. unfold settled_risk, rest_risk.
  assert (working_orders_ (foldl (trade_risk symbol order_id client c owners) r ts) !! k =
          working_orders_ r !! k) as Ht.
  { revert r. induction ts as [|t ts IH]; intros r; [done|]. simpl. rewrite IH.
    unfold trade_risk, RiskEngine.on_trade. destruct (_ =? 0); [done|]. by rewrite !fill_other. }
  destruct (lookup_order _ _); [|done]. by rewrite resting_other.
Qed.

Lemma settled_instrument symbol i r m j s symbol' :
  instrument_of (settled_server symbol i r m j s) symbol' =
    if decide (symbol' = symbol) then i else instrument_of s symbol'.
Proof.
  unfold instrument_of, settled_server, with_instrument. simpl. destruct (decide _) as [->|].
  - by rewrite lookup_insert_eq.
  - by rewrite lookup_insert_ne.
Qed.

(* a handler has settled one instrument *)
Lemma accounted_settled l s s0 symbol i r m j :
  accounted l s → (∀ symbol, instrument_of s0 symbol = instrument_of s symbol) →
  RiskEngine.limits_ r = l → RiskEngine.inv r ∧ RiskEngine.all_within l r →
  (∀ k, RiskEngine.WorkingOrderKey.symbol k ≠ symbol →
     working_orders_ r !! k = working_orders_ (risk_engine_ s) !! k) →
  tracked symbol (InstrumentState.order_owners i) (OrderBook.abs (InstrumentState.book i)) r →
  accounted l (settled_server symbol i r m j s0).
Proof.
  intros [_ _ _ Ht] Hs0 Hl [Hi Hw] Ho Hr. split; [done..|]. intros symbol'. cbn zeta.
  rewrite settled_instrument. change (risk_engine_ (settled_server symbol i r m j s0)) with r.
  destruct (decide (symbol' = symbol)) as [->|Hne]; [done|].
  rewrite Hs0. eapply tracked_same; [|apply Ht]. intros d id. by apply Ho.
Qed.

Lemma instrument_fresh s symbol id :
  OrderBook.inv (InstrumentState.book (instrument_of s symbol)) →
  OrderBook.find_order (InstrumentState.book (instrument_of s symbol)) id = Ok None →
  lookup_order (OrderBook.abs (InstrumentState.book (instrument_of s symbol))) id = None.
Proof. intros Hi. rewrite find_order_lookup by done. by intros [= H]. Qed.

(** *** The handlers *)

Lemma accounted_entered l symbol client c request st o st' :
  RiskEngine.limits_typed l → accounted l st.1 →
  entered symbol client c request st o st' → accounted l st'.1.
Proof.
  intros Hl Ha [Henter (reference & Htyped & Hacc) (book' & ts & m & j & Hi & Hm & Hst & _)].
  cbn zeta in *. set (i := instrument_of st.1 symbol) in *. set (r := risk_engine_ st.1) in *.
  pose proof (instrument_fresh _ _ _ Hi (enter_fresh _ _ _ _ Henter)) as Hfresh. fold i in Hfresh.
  pose proof Ha as [Hlim Hri Hw Ht]. specialize (Ht symbol). cbn zeta in Ht. fold i r in Ht, Hlim, Hri, Hw.
  destruct (order_tracked symbol client c (InstrumentState.order_owners i) (order_of request)
    (InstrumentState.book i) book' ts (λ m, m) r Hi Hm Hfresh ltac:(done) Hri Ht)
    as (total & rest & r1 & Hf & Hrest & Hsum & Hmay & Hr2 & Ht2).
  change (Order.id (order_of request)) with (Protocol.NewOrderRequest.order_id request) in *.
  rewrite Hst. eapply accounted_settled; [exact Ha|apply instrument_for_unchanged| | | |exact Ht2].
  - by rewrite Hr2, RiskEngine.limits_resting, (RiskEngine.limits_fills _ _ _ _ _ _ _ Hf).
  - rewrite Hr2.
    apply (RiskEngine.new_order_within l r (risk_request_of c symbol (order_of request) reference)
             total rest r1); try done.
    apply (tracked_absent _ _ _ _ Ht). apply lookup_order_None in Hfresh. rewrite Forall_forall in Hfresh.
    intros (x & He & Hx)%list_elem_of_fmap. by apply (Hfresh x Hx).
  - intros k Hk. by apply settled_other.
Qed.

(* what a withdrawal leaves, and whose order it takes *)
Lemma withdrawn_orders order_id book book1 x :
  withdrawn order_id book book1 x →
  Order.id x = order_id ∧ x ∈ BookSpec.all_orders (OrderBook.abs book) ∧
  ∀ o, o ∈ BookSpec.all_orders (OrderBook.abs book1) ↔
    o ∈ BookSpec.all_orders (OrderBook.abs book) ∧ Order.id o ≠ Order.id x.
Proof.
  intros [Hi Hx Hi1 Habs]. apply lookup_order_Some in Hx as [Hin Hid]; [|by apply all_unique].
  split; [done|]. split; [done|]. intros o.
  assert (x ∈ OrderBook.abs_side (Order.side x) book) as Hxs.
  { pose proof (OrderBook.abs_wf _ Hi) as [Hb Hs _ _]. rewrite Forall_forall in Hb, Hs.
    apply elem_of_app in Hin as [H|H]; [rewrite (proj1 (Hb _ H))|rewrite (proj1 (Hs _ H))]; done. }
  rewrite !(elem_of_sides (Order.side x)), Habs, BookSpec.side_with_side, BookSpec.opposite_with_side.
  unfold BookSpec.remove. rewrite list_elem_of_filter, !OrderBook.abs_side_orders, Hid.
  split; [|tauto]. intros [[? ?]|Ho]; [tauto|]. split; [by right|]. intros He.
  pose proof (all_unique book Hi) as Hd. unfold BookSpec.all_orders in Hd.
  rewrite fmap_app in Hd. apply NoDup_app in Hd as (_ & Hd & _).
  pose proof (list_elem_of_fmap_2 Order.id _ _ Hxs) as H1. pose proof (list_elem_of_fmap_2 Order.id _ _ Ho) as H2.
  rewrite Hid in H1. rewrite He in H2. destruct (Order.side x); simpl in *; by apply (Hd order_id).
Qed.

Lemma owned_session i id client c :
  owned i id client c = true → session_of (InstrumentState.order_owners i) id = c.
Proof.
  unfold owned, session_of. destruct (_ !! id) as [owner|]; [|done]. intros H. zify_bool. simpl. lia.
Qed.

(* the engine after a withdrawal *)
Lemma accounted_withdrawn symbol i c client r order_id book1 x owners' :
  RiskEngine.inv r →
  tracked symbol (InstrumentState.order_owners i) (OrderBook.abs (InstrumentState.book i)) r →
  owned i order_id client c = true → withdrawn order_id (InstrumentState.book i) book1 x →
  (∀ id, id ≠ order_id → owners' !! id = InstrumentState.order_owners i !! id) →
  tracked symbol owners' (OrderBook.abs book1) (RiskEngine.on_order_cancelled c symbol order_id r).
Proof.
  intros Hi Ht Hown%owned_session Hw Ho. destruct (withdrawn_orders _ _ _ _ Hw) as (Hid & Hx & Hb).
  rewrite <- Hid in *. eapply tracked_withdraw; [done|exact Ht| |done|done|done|done].
  apply all_unique, (withdrawn_inv _ _ _ _ Hw).
Qed.

Lemma accounted_cancelled l symbol client c request snapshot st st' :
  accounted l st.1 → left_by_cancel symbol client c request snapshot st st' → accounted l st'.1.
Proof.
  intros Ha (Hown & x & book' & m & j & Hw & Hst & _). rewrite Hst.
  pose proof Ha as [Hlim Hri Hwi Ht]. eapply accounted_settled; [exact Ha|done| | | |].
  - by rewrite RiskEngine.limits_cancelled.
  - by apply RiskEngine.cancel_within.
  - intros k Hk. by apply cancelled_other.
  - eapply accounted_withdrawn; [done|apply Ht|exact Hown|exact Hw|].
    intros id Hid. by apply lookup_delete_ne.
Qed.

Lemma accounted_replaced l symbol client c request st o st' :
  RiskEngine.limits_typed l → Protocol.replace_order_valid request →
  accounted l st.1 → left_by_replace symbol client c request st o st' → accounted l st'.1.
Proof.
  intros Hl Hv Ha (Hown & Hacc & x & book1 & book' & ts & m & j & Hw & Hm & Hst & _). cbn zeta in *.
  set (i := instrument_of st.1 symbol) in *. set (r := risk_engine_ st.1) in *.
  set (order_id := Protocol.ReplaceOrderRequest.order_id request) in *.
  set (q := u32 (Protocol.ReplaceOrderRequest.new_quantity request)) in *.
  set (price := Protocol.ReplaceOrderRequest.new_price request) in *.
  set (order := MatchingEngine.replacement_of x price q _) in *.
  pose proof Ha as [Hlim Hri Hwi Ht]. specialize (Ht symbol). cbn zeta in Ht. fold i r in Ht, Hlim, Hri, Hwi.
  destruct (FeedReader.withdrawn_fresh _ _ _ _ Hw) as [Hfresh Hid].
  assert (Order.id order = order_id) as Hoid by (simpl; exact Hid).
  assert (Order.price order = price ∧ Order.remaining_quantity order = q ∧ Order.side order = Order.side x)
    as (Hp & Hq & Hs) by done.
  clearbody order. rewrite <- Hoid in Hfresh.
  pose proof (accounted_withdrawn symbol i c client r order_id book1 x (InstrumentState.order_owners i)
    Hri Ht Hown Hw ltac:(done)) as Ht1.
  pose proof (RiskEngine.cancelled_inv r c symbol order_id Hri) as Hri1.
  destruct (order_tracked symbol client c (InstrumentState.order_owners i) order book1 book' ts
    (delete order_id) (RiskEngine.on_order_cancelled c symbol order_id r)
    (withdrawn_inv' _ _ _ _ Hw) Hm Hfresh) as (total & rest & r1 & Hf & Hrest & Hsum & _ & Hr2 & Ht2);
    [intros; apply lookup_delete_ne; congruence|done|done|].
  rewrite Hoid in *. rewrite Hp, Hs in *. rewrite Hq in Hsum.
  assert (in_u32 q) as Hqt by apply u32_in. assert (in_i64 price) as Hpt by apply Hv.
  rewrite Hst. eapply accounted_settled; [exact Ha|done| | | |exact Ht2].
  - by rewrite Hr2, RiskEngine.limits_resting, (RiskEngine.limits_fills _ _ _ _ _ _ _ Hf),
      RiskEngine.limits_cancelled.
  - rewrite Hr2. destruct (proj1 (RiskEngine.check_replace_accepted r c symbol order_id price q Hri
      ltac:(by rewrite Hlim) Hqt Hpt) Hacc) as (w & Hwk & _).
    destruct (RiskEngine.inv_typed _ Hri _ _ Hwk) as [Hc _].
    destruct (withdrawn_orders _ _ _ _ Hw) as (_ & Hx & _).
    assert (w = working x) as ->.
    { pose proof (tracked_resting _ _ _ _ Ht x c Hx) as H. rewrite Hid, Hwk in H.
      unfold stake in H. destruct (decide _); congruence. }
    by apply (RiskEngine.replace_within l r c symbol order_id (working x) price q total rest r1).
  - intros k Hk. rewrite settled_other by done. by apply cancelled_other.
Qed.

(** *** Messages and events *)

Section handlers.
Context (io : list byte → list byte → option nat).
Context (elapsed : t → Z).
Context (set_order : list OrderId → list OrderId).
Context (l : RiskEngine.RiskLimits.t) (Hl : RiskEngine.limits_typed l).
Abbreviation kept st st' := (accounted l st.1 → accounted l st'.1).

(* what follows the engine lock sends messages, and changes nothing else *)
Lemma quiet_kept {A} (m : Handler A) st x st' :
  preserves (on_first unchanged) m → m st = (x, st') → kept st st'.
Proof.
  intros Hm H Ha. specialize (Hm st). rewrite H in Hm. exact (accounted_unchanged _ _ _ Hm Ha).
Qed.

Lemma reject_kept client order_id st x st' : reject_request client order_id st = (x, st') → kept st st'.
Proof. apply quiet_kept. keep. Qed.

Lemma new_order_kept client header body st st' :
  books_sound st → handle_new_order io elapsed set_order client header body st = (Ok tt, st') →
  kept st st'.
Proof.
  intros Hs H Ha. unfold handle_new_order in H.
  destruct (negb _); [by eapply reject_kept|].
  destruct (Protocol.decode_new_order body) as [request|] eqn:Hd; [|by eapply reject_kept].
  apply Protocol.decode_new_order_spec in Hd as [Hv _].
  cbn zeta in H. destruct (_ >? _); [by eapply reject_kept|].
  destruct (String.eqb _ _); [by eapply reject_kept|].
  apply bind_Ok in H as (s & st1 & [= <- <-] & H). apply bind_Ok in H as (o & st1 & Ho & H).
  eapply (quiet_kept _ st1); [|exact H|]; [keep|]. destruct (Outcome.accepted o) eqn:Hacc.
  - eapply accounted_entered; [exact Hl|exact Ha|by eapply new_order_entered].
  - pose proof (new_order_outcome io elapsed _ _ _ _ _ _ _ _ _ Ho) as Hout. rewrite Hacc in Hout.
    by eapply accounted_unchanged.
Qed.

Lemma cancel_order_kept client header body st st' :
  books_sound st → handle_cancel_order io elapsed client header body st = (Ok tt, st') → kept st st'.
Proof.
  intros Hs H Ha. unfold handle_cancel_order in H.
  destruct (negb _); [by eapply reject_kept|].
  destruct (Protocol.decode_cancel_order body) as [request|]; [|by eapply reject_kept]. cbn zeta in H.
  apply bind_Ok in H as (s & st1 & [= <- <-] & H). apply bind_Ok in H as (o & st1 & Ho & H).
  eapply (quiet_kept _ st1); [|exact H|]; [keep|]. destruct o as [snapshot|].
  - eapply accounted_cancelled; [exact Ha|by eapply cancel_order_left].
  - eapply accounted_unchanged; [|exact Ha].
    exact (cancel_order_outcome io elapsed _ _ _ _ _ _ _ _ _ Hs Ho).
Qed.

Lemma replace_order_kept client header body st st' :
  books_sound st → handle_replace_order io elapsed set_order client header body st = (Ok tt, st') →
  kept st st'.
Proof.
  intros Hs H Ha. unfold handle_replace_order in H.
  destruct (negb _); [by eapply reject_kept|].
  destruct (Protocol.decode_replace_order body) as [request|] eqn:Hd; [|by eapply reject_kept].
  apply Protocol.decode_replace_order_spec in Hd as [Hv _].
  cbn zeta in H. destruct (_ >? _); [by eapply reject_kept|].
  apply bind_Ok in H as (s & st1 & [= <- <-] & H). apply bind_Ok in H as (o & st1 & Ho & H).
  eapply (quiet_kept _ st1); [|exact H|]; [keep|]. destruct (Outcome.accepted o) eqn:Hacc.
  - eapply accounted_replaced; [exact Hl|exact Hv|exact Ha|by eapply replace_order_left].
  - pose proof (replace_order_outcome io elapsed _ _ _ _ _ _ _ _ _ Hs Ho) as Hout. rewrite Hacc in Hout.
    by eapply accounted_unchanged.
Qed.

Lemma message_kept client header body st st' :
  books_sound st → handle_message io elapsed set_order client header body st = (Ok tt, st') →
  kept st st'.
Proof.
  intros Hs H. unfold handle_message in H.
  destruct (_ =? _); [by eapply new_order_kept|].
  destruct (_ =? _); [by eapply cancel_order_kept|].
  destruct (_ =? _); [by eapply replace_order_kept|]. by injection H as <-.
Qed.

Lemma receive_kept fuel client receive_buffer st r st' :
  books_sound st →
  process_receive_loop io elapsed set_order fuel client receive_buffer st = (Ok r, st') →
  kept st st'.
Proof.
  revert receive_buffer st. induction fuel as [|fuel IH]; intros receive_buffer st Hs H Ha;
    cbn [process_receive_loop] in H; (destruct (_ <? _)%nat; [by injection H as _ <-|]); [done|].
  destruct (Protocol.decode_header _) as [header|]; [|by injection H as _ <-].
  cbn zeta in H. destruct (_ >? _); [by injection H as _ <-|].
  destruct (_ <? _)%nat; [by injection H as _ <-|].
  apply bind_Ok in H as ([] & st1 & Hm & H).
  pose proof (ServerSafety.safe_handle_message io elapsed set_order client header
    (take (Z.to_nat (Protocol.MessageHeader.body_size header)) (drop Protocol.header_size receive_buffer))
    st Hs) as [_ Hs1].
  rewrite Hm in Hs1. eapply IH; [exact Hs1|exact H|]. exact (message_kept _ _ _ _ _ Hs Hm Ha).
Qed.

Lemma event_kept event y y' :
  ServerSafety.system_sound y → handle_event io elapsed set_order event y = (Ok tt, y') →
  accounted l (exchange y) → accounted l (exchange y').
Proof.
  intros [Hb Hss] H Ha. destruct event as [socket|socket bytes|enabled]; simpl in H.
  - injection H as <-. eapply accounted_same; [..|exact Ha]; done.
  - unfold receive in H. destruct (sessions y !! socket) as [session|] eqn:E; [|by injection H as <-].
    destruct bytes as [|x bytes].
    { injection H as <-. eapply accounted_same; [..|exact Ha]; done. }
    destruct (process_receive_buffer _ _ _ _ _ _) as [[rest|e] [s trades]] eqn:Hr; [|done].
    injection H as <-. cbn [exchange].
    refine (receive_kept _ _ _ _ _ _ _ Hr Ha). pose proof (Hss _ _ E) as Hok.
    split; [exact Hok| |done]. eapply ServerSafety.books_sound_other; [exact Hok|exact Hb].
  - injection H as <-. destruct Ha as [H1 H2 H3 H4].
    split; [done|by apply RiskEngine.global_kill_inv|done|]. intros symbol i. by destruct (H4 symbol).
Qed.
End handlers.

(** *** Start: what is recovered belongs to nobody *)

Definition unowned (s : t) : Prop := ∀ symbol, InstrumentState.order_owners (instrument_of s symbol) = ∅.

(* nobody has a stake yet *)
Definition clean (l : RiskEngine.RiskLimits.t) (s : t) : Prop :=
  unowned s ∧ risk_engine_ s = RiskEngine.new l.

Lemma clean_same l s s' :
  (∀ symbol, instrument_of s' symbol = instrument_of s symbol) →
  risk_engine_ s' = risk_engine_ s → clean l s → clean l s'.
Proof. intros Hi Hr [H1 H2]. split; [|congruence]. intros symbol. by rewrite Hi. Qed.

Lemma adopt_clean l books s : clean l s → clean l (foldl adopt_book s books).
Proof.
  revert s. induction books as [|[symbol book] books IH]; intros s Hs; [done|]. simpl. apply IH.
  destruct Hs as [Ho Hr]. pose proof (instrument_for_unchanged symbol s) as (Hu & Hr' & _).
  split; [|unfold adopt_book, set_book; simpl; by rewrite Hr'].
  intros symbol'. unfold adopt_book, set_book, instrument_of. cbn [fst snd set_instruments instruments_].
  destruct (decide (symbol' = symbol)) as [->|Hne].
  - rewrite lookup_alter_eq, instrument_for_found. simpl. apply Ho.
  - rewrite lookup_alter_ne by done. fold (instrument_of (instrument_for symbol s) symbol').
    rewrite Hu. apply Ho.
Qed.

Lemma recover_clean l path s : clean l s → clean l (recover_from_journal path s).2.
Proof.
  intros Hs. assert (∀ file s1, clean l s1 → clean l (recover_from_replay file s1).2) as Hr.
  { intros file s1 H1. unfold recover_from_replay.
    destruct (Replay.replay file Replay.new) as [[[]|e] r]; [|done..]. cbn [snd].
    eapply clean_same; [..|apply (adopt_clean l (map_to_list (Replay.books_ r)) s1 H1)]; done. }
  destruct path as [| | |[]|[]]; try (eapply clean_same; [..|exact Hs]; done); by apply Hr.
Qed.

Lemma start_clean l path multicast_starts listens s :
  clean l s → clean l (start path multicast_starts listens s).2.
Proof.
  intros Hs. unfold start.
  assert (∃ ok s1, (if Lifecycle.recovery_completed_ (lifecycle_ s) then (true, s)
    else let '(ok, s) := recover_from_journal path s in
         (ok, if ok then set_recovery_completed s else s)) = (ok, s1) ∧ clean l s1)
    as (ok & s1 & -> & Hs1).
  { destruct (Lifecycle.recovery_completed_ _); [by eexists _, _|].
    pose proof (recover_clean l path s Hs) as H.
    destruct (recover_from_journal path s) as [[] s1]; by eexists _, _. }
  destruct ok; cbn [negb]; [|done].
  assert (∃ opened s2, (match path, journal_ s1 with
      | NoJournal, _ | _, Some _ => (true, s1)
      | _, None => match open_journal path with
                   | Some file => (true, set_journal (Some file) s1)
                   | None => (false, s1)
                   end
      end) = (opened, s2) ∧ clean l s2) as (opened & s2 & -> & Hs2).
  { destruct path, (journal_ s1); by eexists _, _. }
  destruct opened; cbn [negb]; [|done]. destruct (_ && _); [done|].
  destruct (Lifecycle.multicast_config_ _), listens; done.
Qed.

Lemma new_within l : RiskEngine.limits_typed l → RiskEngine.all_within l (RiskEngine.new l).
Proof. intros Hl. by destruct (RiskEngine.checked_bounded l _ Hl (RiskEngine.checked_new l)) as (_ & _ & H). Qed.

Lemma clean_accounted l s : RiskEngine.limits_typed l → clean l s → accounted l s.
Proof.
  intros Hl [Ho Hr]. split; rewrite ?Hr; [done|apply RiskEngine.engine_new_inv|by apply new_within|].
  intros symbol i. unfold i. rewrite Ho. split; [|done]. intros o d _.
  unfold stake, session_of. rewrite lookup_empty. by rewrite decide_False by (intros [-> ?]; done).
Qed.

(** The states of a server that was made with these limits. *)
Inductive serving (limits : RiskEngine.RiskLimits.t) : System → Prop :=
  | serving_start path multicast_starts listens multicast s :
      start path multicast_starts listens (new limits multicast) = (true, s) →
      serving limits (mkSystem s ∅)
  | serving_event io elapsed set_order event y y' :
      serving limits y → handle_event io elapsed set_order event y = (Ok tt, y') →
      serving limits y'.

Lemma serving_alive limits y : serving limits y → ServerSafety.alive y.
Proof.
  induction 1 as [path ms ls multicast s Hs|io elapsed set_order event y y' _ IH He].
  - by eapply ServerSafety.alive_start.
  - by eapply ServerSafety.alive_event.
Qed.

Lemma serving_accounted limits y :
  RiskEngine.limits_typed limits → serving limits y → accounted limits (exchange y).
Proof.
  intros Hl. induction 1 as [path ms ls multicast s Hs|io elapsed set_order event y y' Hy IH He].
  - apply clean_accounted; [done|].
    pose proof (start_clean limits path ms ls (new limits multicast)) as H. rewrite Hs in H. by apply H.
  - eapply event_kept; [done| |exact He|done]. by eapply ServerSafety.alive_sound, serving_alive.
Qed.

(** *** What a client has in a book *)

(* the resting orders of a side that are accounted to a session *)
Definition resting_of (s : t) (c : Z) (symbol : string) (side : Side) : list Order :=
  let i := instrument_of s symbol in
  filter (λ o, session_of (InstrumentState.order_owners i) (Order.id o) = c)
    (OrderBook.abs_side side (InstrumentState.book i)).


Section book.
Context (l : RiskEngine.RiskLimits.t) (s : t) (Ha : accounted l s).
Context (Hbooks : ∀ symbol, OrderBook.inv (InstrumentState.book (instrument_of s symbol))).
Abbreviation owners_of symbol := (InstrumentState.order_owners (instrument_of s symbol)).
Abbreviation orders_of symbol := (BookSpec.all_orders (OrderBook.abs (InstrumentState.book (instrument_of s symbol)))).

(* a working order is a resting order, with its session *)
Lemma working_iff k w :
  working_orders_ (risk_engine_ s) !! k = Some w ↔
  ∃ o, o ∈ orders_of (RiskEngine.WorkingOrderKey.symbol k) ∧ w = working o ∧
    k = RiskEngine.WorkingOrderKey.mk (session_of (owners_of (RiskEngine.WorkingOrderKey.symbol k)) (Order.id o))
          (RiskEngine.WorkingOrderKey.symbol k) (Order.id o) ∧
    RiskEngine.WorkingOrderKey.client_id k ≠ invalid_risk_client_id.
Proof.
  destruct k as [c symbol id]. simpl. destruct (accounted_tracked _ _ Ha symbol) as [Hr Hn]. split.
  - intros Hk. destruct (decide (id ∈ Order.id <$> orders_of symbol)) as [Hin|Hout].
    + apply list_elem_of_fmap in Hin as (o & -> & Ho). rewrite Hr in Hk by done. unfold stake in Hk.
      destruct (decide _) as [[-> Hc]|]; [|done]. injection Hk as <-. by exists o.
    + by rewrite Hn in Hk.
  - intros (o & Ho & -> & [= -> ->] & Hc). rewrite Hr by done. unfold stake. by rewrite decide_True.
Qed.

Lemma side_orders_of symbol side o :
  o ∈ OrderBook.abs_side side (InstrumentState.book (instrument_of s symbol)) ↔
  o ∈ orders_of symbol ∧ Order.side o = side.
Proof.
  pose proof (OrderBook.abs_wf _ (Hbooks symbol)) as [Hb Hs _ _]. rewrite Forall_forall in Hb, Hs.
  rewrite (elem_of_sides Buy). simpl. split.
  - intros Ho. destruct side; simpl in *; (split; [tauto|]); [apply (Hb o Ho)|apply (Hs o Ho)].
  - intros [[Ho|Ho] <-]; simpl in *; [rewrite (proj1 (Hb o Ho))|rewrite (proj1 (Hs o Ho))]; done.
Qed.

(** The open quantity of a session is what it has resting in the book. *)
Lemma open_resting c symbol side :
  c ≠ invalid_risk_client_id →
  RiskEngine.open_quantity (risk_engine_ s) c symbol side = BookSpec.depth (resting_of s c symbol side).
Proof.
  intros Hc. rewrite (RiskEngine.inv_open _ (accounted_inv _ _ Ha)).
  pose (entry := λ o, (RiskEngine.WorkingOrderKey.mk c symbol (Order.id o), working o)).
  rewrite (msum_list _ _ (entry <$> resting_of s c symbol side)).
  - unfold BookSpec.depth. f_equal. rewrite <- list_fmap_compose. apply list_fmap_ext.
    intros i o Ho%list_elem_of_lookup_2. apply list_elem_of_filter in Ho as [_ [_ Hs]%side_orders_of].
    unfold RiskEngine.opened. simpl. rewrite decide_True by done. done.
  - rewrite <- list_fmap_compose. apply (NoDup_fmap_1 RiskEngine.WorkingOrderKey.order_id).
    rewrite <- list_fmap_compose. unfold resting_of. apply NoDup_fmap_2_strong.
    + intros o1 o2 [_ H1]%list_elem_of_filter [_ H2]%list_elem_of_filter He. simpl in He.
      pose proof (OrderBook.side_unique side _ (Hbooks symbol)) as Hd.
      apply list_elem_of_lookup in H1 as [i1 H1], H2 as [i2 H2].
      assert (i1 = i2) as <-; [|congruence].
      eapply NoDup_lookup; [exact Hd|rewrite list_lookup_fmap, H1; reflexivity|].
      rewrite list_lookup_fmap, H2. simpl. congruence.
    + apply NoDup_filter. by eapply NoDup_fmap_1, OrderBook.side_unique.
  - apply Forall_fmap, Forall_forall. intros o [Hs [Ho _]%side_orders_of]%list_elem_of_filter. simpl.
    apply working_iff. exists o. simpl. by rewrite Hs.
  - intros [kc ks kid] w (o & Ho & -> & Hk & _)%working_iff Hn. simpl in *. injection Hk as -> ->.
    unfold RiskEngine.opened. simpl. destruct (decide _) as [(Hcl & -> & Hs)|]; [|done]. destruct Hn.
    rewrite <- list_fmap_compose. apply list_elem_of_fmap. exists o. split; [simpl; by rewrite Hcl|].
    apply list_elem_of_filter. split; [done|]. by apply side_orders_of.
Qed.
End book.

(** C7. No client passes a limit.  In every state that a running server can
    reach, whatever the journal it started from and whatever the bytes its
    clients send, the orders its risk engine works with are exactly the resting
    orders of the books that belong to a session, each with its side, its price
    and what it has left; on each side of each symbol the position of a client
    and all it has resting there stay together within the position limit, and
    so does the position itself; and its working orders, and their quantities,
    stay within the limits for open orders and open quantity. *)
Theorem server_within_limits limits y c symbol side :
  RiskEngine.limits_typed limits → serving limits y → c ≠ invalid_risk_client_id →
  let s := exchange y in
  let r := risk_engine_ s in
  (∀ k w, working_orders_ r !! k = Some w ↔
     let i := instrument_of s (RiskEngine.WorkingOrderKey.symbol k) in
     ∃ o, o ∈ BookSpec.all_orders (OrderBook.abs (InstrumentState.book i)) ∧ w = working o ∧
       k = RiskEngine.WorkingOrderKey.mk (session_of (InstrumentState.order_owners i) (Order.id o))
             (RiskEngine.WorkingOrderKey.symbol k) (Order.id o) ∧
       RiskEngine.WorkingOrderKey.client_id k ≠ invalid_risk_client_id) ∧
  RiskEngine.signed side (RiskEngine.position r c symbol) + BookSpec.depth (resting_of s c symbol side)
    ≤ RiskEngine.RiskLimits.max_position_per_symbol limits ∧
  Z.abs (RiskEngine.position r c symbol) ≤ RiskEngine.RiskLimits.max_position_per_symbol limits ∧
  msum (RiskEngine.counted c) (working_orders_ r) ≤ RiskEngine.RiskLimits.max_open_orders limits ∧
  msum (RiskEngine.grossed c) (working_orders_ r) ≤ RiskEngine.RiskLimits.max_open_quantity limits.
Proof.
  intros Hl Hy Hc s r. pose proof (serving_accounted _ _ Hl Hy) as Ha.
  pose proof Ha as [_ Hi Hw _]. fold s r in Ha, Hi, Hw.
  assert (∀ symbol, OrderBook.inv (InstrumentState.book (instrument_of s symbol))) as Hbooks.
  { intros symbol'. apply (instrument_of_sound (s, TradeBuffer.new default_capacity)), system_books_sound.
    by eapply ServerSafety.alive_sound, serving_alive. }
  split; [intros k w; by apply (working_iff limits s Ha)|].
  split; [|split; [by apply RiskEngine.within_position|]].
  - rewrite <- (open_resting limits s Ha Hbooks c symbol side Hc). apply Hw.
  - rewrite <- (RiskEngine.inv_orders _ Hi), <- (RiskEngine.inv_gross _ Hi). apply Hw.
Qed.

Lemma serving_run limits events y y' :
  serving limits y → run ServerDemo.good_disk ServerDemo.no_time ServerDemo.set_order events y = (Ok tt, y') →
  serving limits y'.
Proof.
  revert y. induction events as [|event events IH]; intros y Hy H; [by injection H as <-|].
  apply bind_Ok in H as ([] & y1 & H1 & H). eapply IH; [|exact H]. by eapply serving_event.
Qed.

(* session 1 has bought 4 and still bids for 6 *)
Lemma server_within_limits_witness :
  let s := exchange ServerDemo.traded in
  RiskEngine.position (risk_engine_ s) 1 "TEST" = 4 ∧
  (Order.remaining_quantity <$> resting_of s 1 "TEST" Buy) = [6] ∧
  RiskEngine.signed Buy (RiskEngine.position (risk_engine_ s) 1 "TEST") +
    BookSpec.depth (resting_of s 1 "TEST" Buy) ≤ 1000000.
Proof.
  intros s. split; [vm_compute; reflexivity|]. split; [vm_compute; reflexivity|].
  assert (serving RiskEngine.RiskLimits.default ServerDemo.traded) as Hs.
  { apply (serving_run _ ServerDemo.trading (mkSystem ServerDemo.started ∅)); [|vm_compute; reflexivity].
    eapply serving_start. exact ServerDemo.started_ok. }
  destruct (server_within_limits RiskEngine.RiskLimits.default ServerDemo.traded 1 "TEST" Buy
    RiskEngine.default_typed Hs ltac:(done)) as (_ & H & _).
  exact H.
Defined.

End ServerPositions.
