(* ===== verification/ServerStream.v ===== *)
(** * The streams of the clients

    TCP cuts the stream of a client anywhere.  Here: however the streams of
    the clients are cut and mixed, the server does exactly what it would do if
    every request arrived in one piece at the moment its last byte did. *)
From S2P Require Import Prelude Types TradeBuffer Bytes Protocol ExchangeServer ServerDemo ServerRecovery.
Open Scope Z_scope.

Module ServerStream.
Import ExchangeServer ServerRecovery.

(** ** Requests and their bytes *)

Definition Request : Type := Protocol.MessageHeader.t * list byte.

Definition wire (r : Request) : list byte := message_of r.1 r.2.
Definition wires (rs : list Request) : list byte := concat (wire <$> rs).

Definition framed (r : Request) : Prop :=
  framed_message r.1 r.2 ∧ Z.of_nat (length r.2) ≤ maximum_body_size.

(* a first part of a request, not all of it *)
Definition unfinished (part : list byte) : Prop :=
  ∃ r, framed r ∧ part `prefix_of` wire r ∧ (length part < length (wire r))%nat.

Lemma length_wire r : length (wire r) = (Protocol.header_size + length r.2)%nat.
Proof. unfold wire, message_of. by rewrite length_app, Protocol.length_encode_header. Qed.

Lemma wires_app rs1 rs2 : wires (rs1 ++ rs2) = wires rs1 ++ wires rs2.
Proof. unfold wires. by rewrite fmap_app, concat_app. Qed.

(** The first part of a stream is requests and an unfinished one. *)
Lemma cut_stream rs part rest tail :
  Forall framed rs → unfinished tail → part ++ rest = wires rs ++ tail →
  ∃ rs1 rs2 part', rs = rs1 ++ rs2 ∧ part = wires rs1 ++ part' ∧ unfinished part' ∧
    part' ++ rest = wires rs2 ++ tail.
Proof.
  intros Hrs Ht. revert part. induction Hrs as [|r rs Hr Hrs IH]; intros part He.
  - exists [], [], part. split_and!; [done|done| |done].
    destruct Ht as (r & Hr & Hp & Hl). exists r. simpl in He. split; [done|]. rewrite <- He in Hp, Hl.
    split; [by eapply prefix_app_l|]. rewrite length_app in Hl. lia.
  - change (wires (r :: rs)) with (wire r ++ wires rs) in He. rewrite <- app_assoc in He.
    destruct (Nat.lt_ge_cases (length part) (length (wire r))) as [Hl|Hl].
    + exists [], (r :: rs), part. split_and!; [done|done| |].
      * exists r. split; [done|]. split; [|done].
        apply (f_equal (take (length part))) in He.
        rewrite take_app_length, take_app_le in He by lia. rewrite He. apply prefix_take.
      * by change (wires (r :: rs)) with (wire r ++ wires rs); rewrite <- app_assoc.
    + assert (part = wire r ++ drop (length (wire r)) part) as Hpart.
      { rewrite <- (take_drop (length (wire r)) part) at 1. f_equal.
        apply (f_equal (take (length (wire r)))) in He.
        by rewrite take_app_length, take_app_le in He by lia. }
      rewrite Hpart, <- app_assoc in He. apply app_inv_head in He.
      destruct (IH _ He) as (rs1 & rs2 & part' & -> & Hd & Hu & Hr2).
      exists (r :: rs1), rs2, part'. split_and!; [done| |done|done].
      rewrite Hpart, Hd. change (wires (r :: rs1)) with (wire r ++ wires rs1). by rewrite app_assoc.
Qed.

Section server.
Context (io : list byte → list byte → option nat).
Context (elapsed : t → Z).
Context (set_order : list OrderId → list OrderId).

(** ** The receive loop *)

Definition handle_request (client : Z) (r : Request) : Handler unit :=
  handle_message io elapsed set_order client r.1 r.2.

Lemma loop_request fuel client r rest :
  framed r →
  process_receive_loop io elapsed set_order (S fuel) client (wire r ++ rest) =
    (handle_request client r ;;; process_receive_loop io elapsed set_order fuel client rest).
Proof.
  intros [[Hv Hb] Hm]. cbn [process_receive_loop].
  pose proof (length_wire r) as Hl.
  destruct (Nat.ltb_spec (length (wire r ++ rest)) Protocol.header_size) as [Hs|_].
  { rewrite length_app in Hs. lia. }
  assert (take Protocol.header_size (wire r ++ rest) = Protocol.encode_header r.1) as ->.
  { unfold wire, message_of. rewrite <- app_assoc.
    by rewrite take_app_length' by (by rewrite Protocol.length_encode_header). }
  rewrite (proj2 (Protocol.decode_header_spec _ r.1)) by done. cbn zeta.
  rewrite Hb. destruct (Z.of_nat (length r.2) >? maximum_body_size) eqn:E; [lia|]. rewrite Nat2Z.id.
  rewrite <- Hl. destruct (Nat.ltb_spec (length (wire r ++ rest)) (length (wire r))) as [Hs|_].
  { rewrite length_app in Hs. lia. }
  rewrite drop_app_length. f_equal. unfold handle_request. f_equal.
  unfold wire, message_of. rewrite <- app_assoc.
  rewrite drop_app_length' by (by rewrite Protocol.length_encode_header).
  by rewrite take_app_length.
Qed.

Lemma loop_unfinished fuel client part :
  unfinished part →
  process_receive_loop io elapsed set_order (S fuel) client part = ret part ∧
  ((length part < Protocol.header_size)%nat →
    process_receive_loop io elapsed set_order fuel client part = ret part).
Proof.
  intros (r & [[Hv Hb] Hm] & [rest Hp] & Hl). split.
  2:{ intros Hs. destruct fuel; cbn [process_receive_loop];
        by destruct (Nat.ltb_spec (length part) Protocol.header_size); [|lia]. }
  cbn [process_receive_loop].
  destruct (Nat.ltb_spec (length part) Protocol.header_size) as [|Hs]; [done|].
  assert (take Protocol.header_size part = Protocol.encode_header r.1) as ->.
  { apply (f_equal (take Protocol.header_size)) in Hp. rewrite take_app_le in Hp by done.
    rewrite <- Hp. unfold wire, message_of.
    by rewrite take_app_length' by (by rewrite Protocol.length_encode_header). }
  rewrite (proj2 (Protocol.decode_header_spec _ r.1)) by done. cbn zeta.
  rewrite Hb. destruct (Z.of_nat (length r.2) >? maximum_body_size) eqn:E; [lia|].
  rewrite Nat2Z.id, <- length_wire. by destruct (Nat.ltb_spec (length part) (length (wire r))); [|lia].
Qed.

Lemma loop_requests rs fuel client tail st :
  Forall framed rs → unfinished tail → (length (wires rs ++ tail) ≤ fuel)%nat →
  process_receive_loop io elapsed set_order fuel client (wires rs ++ tail) st =
    (for_each rs (handle_request client) ;;; ret tail) st.
Proof.
  intros Hrs Ht. revert fuel st. induction Hrs as [|r rs Hr Hrs IH]; intros fuel st Hf.
  - simpl. unfold bind. cbn. destruct (loop_unfinished fuel client tail Ht) as [_ Hshort].
    destruct (Nat.lt_ge_cases (length tail) Protocol.header_size) as [Hs|Hs]; [by rewrite Hshort|].
    destruct fuel as [|fuel]; [simpl in Hf; unfold Protocol.header_size in Hs; lia|].
    by rewrite (proj1 (loop_unfinished fuel client tail Ht)).
  - change (wires (r :: rs)) with (wire r ++ wires rs) in *. rewrite <- app_assoc in *.
    assert (0 < length (wire r))%nat by (rewrite length_wire; unfold Protocol.header_size; lia).
    rewrite length_app in Hf. destruct fuel as [|fuel]; [lia|]. rewrite loop_request by done.
    cbn [for_each]. unfold bind. destruct (handle_request client r st) as [[[]|e] st1]; [|done].
    apply IH. lia.
Qed.
(** ** Runs *)

(** [assembled parts events whole]: the events of [whole] are those of [events],
    but each request arrives in one piece, when its last byte does in
    [events]; [parts] are the unfinished requests of the clients. *)
Inductive assembled : gmap Z (list byte) → list Event → list Event → Prop :=
  | assembled_nil parts : assembled parts [] []
  | assembled_connect parts client events whole :
      assembled (<[client := []]> parts) events whole →
      assembled parts (Connect client :: events) (Connect client :: whole)
  | assembled_receive parts client bytes part rs tail events whole :
      bytes ≠ [] → parts !! client = Some part → part ++ bytes = wires rs ++ tail →
      Forall framed rs → unfinished tail →
      assembled (<[client := tail]> parts) events whole →
      assembled parts (Receive client bytes :: events)
        (((λ r, Receive client (wire r)) <$> rs) ++ whole)
  | assembled_stranger parts client bytes events whole :
      parts !! client = None → assembled parts events whole →
      assembled parts (Receive client bytes :: events) whole
  | assembled_close parts client events whole :
      is_Some (parts !! client) → assembled (delete client parts) events whole →
      assembled parts (Receive client [] :: events) (Receive client [] :: whole)
  | assembled_kill parts enabled events whole :
      assembled parts events whole →
      assembled parts (KillSwitch enabled :: events) (KillSwitch enabled :: whole).

(* the sessions differ in what is in their receive buffers *)
Definition buffering (part : option (list byte)) (x y : option Session.t) : Prop :=
  match part, x, y with
  | None, None, None => True
  | Some part, Some x, Some y =>
      Session.receive_buffer x = part ∧ Session.receive_buffer y = [] ∧
      Session.trade_buffer x = Session.trade_buffer y
  | _, _, _ => False
  end.

Record alike (parts : gmap Z (list byte)) (y1 y2 : System) : Prop := {
  alike_exchange : exchange y1 = exchange y2;
  alike_sessions client : buffering (parts !! client) (sessions y1 !! client) (sessions y2 !! client)
}.

Lemma alike_insert parts client part x1 x2 s m1 m2 :
  (∀ c, buffering (parts !! c) (m1 !! c) (m2 !! c)) →
  buffering (Some part) (Some x1) (Some x2) →
  alike (<[client := part]> parts) (mkSystem s (<[client := x1]> m1)) (mkSystem s (<[client := x2]> m2)).
Proof.
  intros Hm Hx. split; [done|]. intros c. simpl.
  destruct (decide (client = c)) as [<-|Hne]; [by rewrite !lookup_insert_eq|].
  rewrite !lookup_insert_ne by done. apply Hm.
Qed.

(* all requests of a piece, in one step or one step each *)
Lemma receive_requests client rs y session :
  Forall framed rs → sessions y !! client = Some session → Session.receive_buffer session = [] →
  let '(r, (s, trades)) :=
    for_each rs (handle_request client) (exchange y, Session.trade_buffer session) in
  let '(r', y') := run io elapsed set_order ((λ r, Receive client (wire r)) <$> rs) y in
  r = r' ∧ exchange y' = s ∧
  (r = Ok tt → ∃ session', sessions y' !! client = Some session' ∧
     Session.receive_buffer session' = [] ∧ Session.trade_buffer session' = trades ∧
     ∀ c, c ≠ client → sessions y' !! c = sessions y !! c).
Proof.
  intros Hrs. revert y session. induction Hrs as [|r rs Hr Hrs IH]; intros y session Hs Hb.
  { simpl. split_and!; [done|done|]. intros _. by exists session. }
  cbn [for_each fmap list_fmap]. unfold run. cbn [for_each].
  change (for_each ((λ r, Receive client (wire r)) <$> rs) (handle_event io elapsed set_order))
    with (run io elapsed set_order ((λ r, Receive client (wire r)) <$> rs)).
  unfold bind. cbn [handle_event]. unfold receive. rewrite Hs, Hb. simpl (_ ++ _).
  assert (∃ b l, wire r = b :: l) as (b & l & Hw).
  { pose proof (length_wire r). destruct (wire r); [|by eexists _, _].
    unfold Protocol.header_size in *. simpl in *. lia. }
  rewrite Hw. cbn match. rewrite <- Hw. unfold process_receive_buffer.
  pose proof (loop_requests [r] (length (wire r)) client [] (exchange y, Session.trade_buffer session)) as Hl.
  unfold wires in Hl. cbn [fmap list_fmap concat for_each] in Hl. rewrite !app_nil_r in Hl. rewrite Hl; [|by constructor|exists r|lia].
  2:{ split; [done|]. split; [apply prefix_nil|]. rewrite Hw. simpl. lia. }
  unfold bind. destruct (handle_request client r (exchange y, Session.trade_buffer session))
    as [[[]|e] [s1 tr1]] eqn:Eh; [|by split_and!].
  simpl. specialize (IH (mkSystem s1 (<[client := Session.mk [] tr1]> (sessions y))) (Session.mk [] tr1)).
  cbn [exchange sessions Session.trade_buffer] in IH. specialize (IH (lookup_insert_eq _ _ _) eq_refl).
  destruct (for_each rs (handle_request client) (s1, tr1)) as [r2 [s2 tr2]].
  destruct (run _ _ _ _ _) as [r' y']. destruct IH as (-> & Hex & Hok).
  split_and!; [done|done|]. intros E. destruct (Hok E) as (session' & Hs' & Hb' & Ht' & Ho').
  exists session'. split_and!; [done..|]. intros c Hc. rewrite Ho' by done. by rewrite lookup_insert_ne.
Qed.

Lemma assembled_runs parts events whole y1 y2 :
  assembled parts events whole → alike parts y1 y2 →
  let '(r1, y1') := run io elapsed set_order events y1 in
  let '(r2, y2') := run io elapsed set_order whole y2 in
  r1 = r2 ∧ exchange y1' = exchange y2'.
Proof.
  intros Ha. revert y1 y2. induction Ha as [parts|parts client events whole _ IH
    |parts client bytes part rs tail events whole Hne Hpart Hcut Hrs Htail _ IH
    |parts client bytes events whole Hpart _ IH|parts client events whole Hpart _ IH
    |parts enabled events whole _ IH]; intros [s1 m1] [s2 m2] [He Hm]; cbn [exchange sessions] in He, Hm;
    subst s2.
  - done.
  - apply IH. by apply alike_insert.
  - pose proof (Hm client) as Hc. rewrite Hpart in Hc.
    destruct (m1 !! client) as [x1|] eqn:E1, (m2 !! client) as [x2|] eqn:E2; try done.
    destruct Hc as (Hb1 & Hb2 & Htb).
    pose proof (receive_requests client rs (mkSystem s1 m2) x2 Hrs E2 Hb2) as Hreq.
    cbn [exchange] in Hreq. rewrite <- Htb in Hreq.
    unfold run. rewrite for_each_app. cbn [for_each]. unfold bind. cbn [handle_event].
    unfold receive at 1. cbn [sessions exchange]. rewrite E1, Hb1, Hcut.
    destruct bytes as [|b bytes]; [done|]. unfold process_receive_buffer.
    rewrite loop_requests by done. unfold bind.
    unfold run in Hreq. destruct (for_each rs _ _) as [[[]|e] [s trades]].
    2:{ destruct (for_each _ (handle_event _ _ _) _) as [r' y']. by destruct Hreq as (<- & <- & _). }
    destruct (for_each ((λ r, Receive client (wire r)) <$> rs) _ _) as [r' [s' m']].
    destruct Hreq as (<- & He & Hok). simpl in He. subst s'.
    destruct (Hok eq_refl) as (x' & Hx & Hbx & Htx & Hox). apply IH. split; [done|]. cbn [sessions].
    intros c. destruct (decide (client = c)) as [<-|Hcne].
    + rewrite !lookup_insert_eq. cbn [sessions] in Hx. by rewrite Hx.
    + rewrite !lookup_insert_ne by done. cbn [sessions] in Hox. rewrite Hox by done. apply Hm.
  - unfold run. cbn [for_each]. unfold bind. cbn [handle_event]. unfold receive. cbn [sessions].
    pose proof (Hm client) as Hc. rewrite Hpart in Hc. destruct (m1 !! client) eqn:E1; [done|].
    by apply IH.
  - unfold run. cbn [for_each]. unfold bind. cbn [handle_event]. unfold receive. cbn [sessions].
    pose proof (Hm client) as Hc. destruct Hpart as [part Hpart]. rewrite Hpart in Hc.
    destruct (m1 !! client) eqn:E1, (m2 !! client) eqn:E2; try done. apply IH. split; [done|].
    cbn [sessions]. intros c. destruct (decide (client = c)) as [<-|Hcne].
    + by rewrite !lookup_delete_eq.
    + rewrite !lookup_delete_ne by done. apply Hm.
  - apply IH. by split.
Qed.
End server.


(** ** A concrete run: two clients, the first request in three pieces, two
    requests in one, the bytes of the second client between them *)

Definition request (type : Z) (body : list byte) : Request := (ServerDemo.header_of type body, body).
Definition bid : Request := request Protocol.MessageType.NewOrder (Protocol.encode_new_order
  (Protocol.NewOrderRequest.mk 1 1000 100 10 Protocol.Side_Buy Protocol.OrderType_Limit
     Protocol.TimeInForce_GoodTillCancel Protocol.default_symbol)).
Definition ask : Request := request Protocol.MessageType.NewOrder (Protocol.encode_new_order
  (Protocol.NewOrderRequest.mk 2 1001 99 4 Protocol.Side_Sell Protocol.OrderType_Limit
     Protocol.TimeInForce_GoodTillCancel Protocol.default_symbol)).
Definition cancellation : Request :=
  request Protocol.MessageType.CancelOrder (ServerDemo.cancel_body 1).

Definition cut_events : list Event :=
  [Connect 5; Connect 6; Receive 5 (take 7 (wire bid)); Receive 6 (take 30 (wire ask));
   Receive 5 (drop 7 (wire bid) ++ take 20 (wire cancellation)); Receive 6 (drop 30 (wire ask));
   Receive 5 (drop 20 (wire cancellation))].
Definition whole_events : list Event :=
  [Connect 5; Connect 6; Receive 5 (wire bid); Receive 6 (wire ask); Receive 5 (wire cancellation)].

Lemma framed_request type body :
  in_u16 type → Z.of_nat (length body) ≤ maximum_body_size → framed (request type body).
Proof.
  intros Ht Hl. unfold maximum_body_size in Hl. assert (u32 (Z.of_nat (length body)) = Z.of_nat (length body)) as Hu.
  { apply u32_id. unfold in_u32. lia. }
  split; [|exact Hl]. split; [|exact Hu]. unfold Protocol.header_valid. simpl. rewrite Hu.
  split_and!; try done. unfold in_u32. lia.
Qed.

Lemma unfinished_take r n : framed r → (n < length (wire r))%nat → unfinished (take n (wire r)).
Proof.
  intros Hr Hn. exists r. split; [done|]. split; [apply prefix_take|]. rewrite length_take. lia.
Qed.

Lemma cut_assembled : assembled ∅ cut_events whole_events.
Proof.
  assert (framed bid ∧ framed ask ∧ framed cancellation) as (Hb & Ha & Hc)
    by by split_and!; apply framed_request.
  assert (unfinished []) as H0 by (change [] with (take 0 (wire bid)); by apply unfinished_take; [|vm_compute; lia]).
  unfold cut_events, whole_events. apply assembled_connect, assembled_connect.
  apply (assembled_receive _ 5 _ [] [] (take 7 (wire bid)));
    [done|done|done|done|apply unfinished_take; [done|vm_compute; lia]|].
  apply (assembled_receive _ 6 _ [] [] (take 30 (wire ask)));
    [done|done|done|done|apply unfinished_take; [done|vm_compute; lia]|].
  apply (assembled_receive _ 5 _ (take 7 (wire bid)) [bid] (take 20 (wire cancellation)));
    [done|done| |by constructor|apply unfinished_take; [done|vm_compute; lia]|].
  { unfold wires. cbn [fmap list_fmap concat]. by rewrite app_nil_r, app_assoc, take_drop. }
  apply (assembled_receive _ 6 _ (take 30 (wire ask)) [ask] []);
    [done|done| |by constructor|done|].
  { unfold wires. cbn [fmap list_fmap concat]. by rewrite !app_nil_r, take_drop. }
  apply (assembled_receive _ 5 _ (take 20 (wire cancellation)) [cancellation] [] [] []);
    [done|done| |by constructor|done|apply assembled_nil].
  unfold wires. cbn [fmap list_fmap concat]. by rewrite !app_nil_r, take_drop.
Qed.


(** What cannot be decoded is another matter: the whole buffer is thrown away,
    so which requests are lost depends on the cut. *)
Definition garbage : list byte := repeat x00 Protocol.header_size.
Example garbage_depends_on_cut :
  let run := run ServerDemo.good_disk ServerDemo.no_time ServerDemo.set_order in
  let y := mkSystem ServerDemo.started ∅ in
  size (instruments_ (exchange (run [Connect 5; Receive 5 (garbage ++ wire bid)] y).2)) = 0%nat ∧
  size (instruments_ (exchange (run [Connect 5; Receive 5 garbage; Receive 5 (wire bid)] y).2)) = 1%nat.
Proof. by vm_compute. Qed.

End ServerStream.
