(* ===== verification/LockFreeRing.v ===== *)
(** * The single-producer single-consumer ring (include/exchange/lock_free_ring.hpp)

    [BoundedQueue] is what the ring promises.  [SpscRing] is the ring under the
    C++ memory model: each atomic access and each access to a slot is a step,
    the steps of the two threads interleave freely, an acquire load may return
    any store that coherence allows (not only the last one), and a slot access
    that is not ordered after the other thread's last conflicting access is a
    data race, that is undefined behaviour.  The theorems show that no race
    occurs, that the ring is a bounded FIFO queue, and that calls are wait-free. *)
From S2P Require Import Prelude.

(** ** The specification: a FIFO queue of bounded length *)

Module BoundedQueue.
Definition push {T} (capacity : Z) (x : T) (q : list T) : bool * list T :=
  if Z.of_nat (length q) <? capacity then (true, q ++ [x]) else (false, q).

Definition pop {T} (q : list T) : option T * list T :=
  match q with
  | [] => (None, [])
  | x :: q' => (Some x, q')
  end.
End BoundedQueue.

Module SpscRing.

(** ** Memory

    Each position has one writer, so its modification order is the list of its
    stores.  A store carries the clock of its thread: how many slot accesses
    the thread had made.  A thread that acquires the store is ordered after
    them. *)
Record Store : Type := mk_store { value : Z; released : Z }.

(* a slot, with the clocks of the last write and of the last read *)
Record Slot (T : Type) : Type := mk_slot { content : T; written_at : Z; read_at : Z }.
Arguments mk_slot {T} content written_at read_at.
Arguments content {T} s.
Arguments written_at {T} s.
Arguments read_at {T} s.

(* what a thread has done and observed: its slot accesses, those of the other
   thread it is ordered after, the index of the last store it has loaded *)
Record View : Type := mk_view { clock : Z; knows : Z; seen : nat }.

(* where a thread is in try_emplace or try_consume *)
Inductive Producer (T : Type) : Type :=
  | PIdle
  | PReload (writer : T → T) (write : Z)    (* about to load read_position_ *)
  | PWrite (writer : T → T) (write : Z)     (* about to invoke the writer *)
  | PPublish (written : T) (write : Z).     (* about to store write_position_ *)
Arguments PIdle {T}.
Arguments PReload {T} writer write.
Arguments PWrite {T} writer write.
Arguments PPublish {T} written write.

Inductive Consumer (T : Type) : Type :=
  | CIdle
  | CReload (read : Z)
  | CRead (read : Z)
  | CRelease (result : T) (read : Z).
Arguments CIdle {T}.
Arguments CReload {T} read.
Arguments CRead {T} read.
Arguments CRelease {T} result read.

Record t (T : Type) : Type := mk {
  slots_ : list (Slot T);
  write_position_ : list Store;
  cached_read_position_ : Z;
  read_position_ : list Store;
  cached_write_position_ : Z;
  producer : Producer T;
  producer_view : View;
  consumer : Consumer T;
  consumer_view : View
}.
Arguments mk {T} _ _ _ _ _ _ _ _ _.
Arguments slots_ {T} _.
Arguments write_position_ {T} _.
Arguments cached_read_position_ {T} _.
Arguments read_position_ {T} _.
Arguments cached_write_position_ {T} _.
Arguments producer {T} _.
Arguments producer_view {T} _.
Arguments consumer {T} _.
Arguments consumer_view {T} _.

(* how a call ends *)
Inductive Event (T : Type) : Type :=
  | Pushed (x : T)
  | Refused
  | Popped (x : T)
  | Empty.
Arguments Pushed {T} x.
Arguments Refused {T}.
Arguments Popped {T} x.
Arguments Empty {T}.

(* a move of the scheduler; [load] is the store an acquire load returns *)
Inductive Move (T : Type) : Type :=
  | CallEmplace (writer : T → T)
  | StepProducer (load : nat)
  | CallConsume
  | StepConsumer (load : nat).
Arguments CallEmplace {T} writer.
Arguments StepProducer {T} load.
Arguments CallConsume {T}.
Arguments StepConsumer {T} load.

(* the static assertions, and that Capacity is a std::size_t *)
Class StaticAsserts (Capacity : Z) : Prop := {
  capacity_size_t : in_u64 Capacity;
  capacity_at_least_two : 2 ≤ Capacity;
  capacity_power_of_two : Z.land Capacity (Capacity - 1) = 0
}.

Section ring.
Context {T : Type} (Capacity : Z).

Definition kMask : Z := Capacity - 1.

Definition capacity : Z := Capacity.

(* the caller has stopped both threads, so that what they did is ordered
   before everything that follows *)
Definition reset (r : t T) : t T :=
  mk ((λ s, mk_slot (content s) 0 0) <$> slots_ r)
     [mk_store 0 0] 0 [mk_store 0 0] 0 PIdle (mk_view 0 0 0) CIdle (mk_view 0 0 0).

Definition new (initial : T) : t T :=
  reset (mk (replicate (Z.to_nat Capacity) (mk_slot initial 0 0))
            [] 0 [] 0 PIdle (mk_view 0 0 0) CIdle (mk_view 0 0 0)).

(* a load by the only writer of the position returns its last store *)
Definition own (position : list Store) : Z :=
  match last position with Some s => value s | None => 0 end.

Definition full (r : t T) (write : Z) : bool :=
  u64 (write - cached_read_position_ r) >=? Capacity.

Definition set_producer (p : Producer T) (r : t T) : t T :=
  mk (slots_ r) (write_position_ r) (cached_read_position_ r) (read_position_ r)
     (cached_write_position_ r) p (producer_view r) (consumer r) (consumer_view r).

Definition set_consumer (c : Consumer T) (r : t T) : t T :=
  mk (slots_ r) (write_position_ r) (cached_read_position_ r) (read_position_ r)
     (cached_write_position_ r) (producer r) (producer_view r) c (consumer_view r).

(** ** try_emplace, step by step *)

Definition call_emplace (writer : T → T) (r : t T) : t T :=
  let write := own (write_position_ r) in
  set_producer (if full r write then PReload writer write else PWrite writer write) r.

(* cached_read_position_ = read_position_.load(acquire) *)
Definition acquire_read (load : nat) (r : t T) : t T :=
  match read_position_ r !! load with
  | None => r
  | Some s =>
      mk (slots_ r) (write_position_ r) (value s) (read_position_ r) (cached_write_position_ r)
         (producer r)
         (mk_view (clock (producer_view r)) (Z.max (knows (producer_view r)) (released s)) load)
         (consumer r) (consumer_view r)
  end.

(* std::invoke(writer, slots_[write & kMask]) *)
Definition write_slot (writer : T → T) (write : Z) : M (t T) T :=
  λ r,
    let i := Z.to_nat (Z.land write kMask) in
    match slots_ r !! i with
    | None => (Throw (Undefined "slot out of range"), r)
    | Some s =>
        if knows (producer_view r) <? read_at s then (Throw (Undefined "data race"), r)
        else
          let v := producer_view r in
          let x := writer (content s) in
          (Ok x,
           mk (<[i := mk_slot x (clock v + 1) (read_at s)]> (slots_ r))
              (write_position_ r) (cached_read_position_ r) (read_position_ r)
              (cached_write_position_ r) (producer r)
              (mk_view (clock v + 1) (knows v) (seen v)) (consumer r) (consumer_view r))
    end.

(* write_position_.store(position, release) *)
Definition release_write (position : Z) (r : t T) : t T :=
  mk (slots_ r) (write_position_ r ++ [mk_store position (clock (producer_view r))])
     (cached_read_position_ r) (read_position_ r) (cached_write_position_ r)
     (producer r) (producer_view r) (consumer r) (consumer_view r).

Definition step_producer (load : nat) : M (t T) (option (Event T)) :=
  r <- get ;;
  match producer r with
  | PIdle => ret None
  | PReload writer write =>
      modify (acquire_read load) ;;;
      r <- get ;;
      if full r write then modify (set_producer PIdle) ;;; ret (Some Refused)
      else modify (set_producer (PWrite writer write)) ;;; ret None
  | PWrite writer write =>
      x <- write_slot writer write ;;
      modify (set_producer (PPublish x write)) ;;;
      ret None
  | PPublish x write =>
      modify (release_write (u64 (write + 1))) ;;;
      modify (set_producer PIdle) ;;;
      ret (Some (Pushed x))
  end.

(** ** try_consume, step by step *)

Definition call_consume (r : t T) : t T :=
  let read := own (read_position_ r) in
  set_consumer (if read =? cached_write_position_ r then CReload read else CRead read) r.

Definition acquire_write (load : nat) (r : t T) : t T :=
  match write_position_ r !! load with
  | None => r
  | Some s =>
      mk (slots_ r) (write_position_ r) (cached_read_position_ r) (read_position_ r) (value s)
         (producer r) (producer_view r) (consumer r)
         (mk_view (clock (consumer_view r)) (Z.max (knows (consumer_view r)) (released s)) load)
  end.

(* std::invoke(reader, slots_[read & kMask]): the reader receives the content *)
Definition read_slot (read : Z) : M (t T) T :=
  λ r,
    let i := Z.to_nat (Z.land read kMask) in
    match slots_ r !! i with
    | None => (Throw (Undefined "slot out of range"), r)
    | Some s =>
        if knows (consumer_view r) <? written_at s then (Throw (Undefined "data race"), r)
        else
          let v := consumer_view r in
          (Ok (content s),
           mk (<[i := mk_slot (content s) (written_at s) (clock v + 1)]> (slots_ r))
              (write_position_ r) (cached_read_position_ r) (read_position_ r)
              (cached_write_position_ r) (producer r) (producer_view r) (consumer r)
              (mk_view (clock v + 1) (knows v) (seen v)))
    end.

Definition release_read (position : Z) (r : t T) : t T :=
  mk (slots_ r) (write_position_ r) (cached_read_position_ r)
     (read_position_ r ++ [mk_store position (clock (consumer_view r))])
     (cached_write_position_ r) (producer r) (producer_view r) (consumer r) (consumer_view r).

Definition step_consumer (load : nat) : M (t T) (option (Event T)) :=
  r <- get ;;
  match consumer r with
  | CIdle => ret None
  | CReload read =>
      modify (acquire_write load) ;;;
      r <- get ;;
      if read =? cached_write_position_ r
      then modify (set_consumer CIdle) ;;; ret (Some Empty)
      else modify (set_consumer (CRead read)) ;;; ret None
  | CRead read =>
      x <- read_slot read ;;
      modify (set_consumer (CRelease x read)) ;;;
      ret None
  | CRelease x read =>
      modify (release_read (u64 (read + 1))) ;;;
      modify (set_consumer CIdle) ;;;
      ret (Some (Popped x))
  end.

(** ** Moves, traces *)

(* a thread makes one call at a time; a load returns a store that exists and is
   not older, in the modification order, than one the thread has seen *)
Definition enabled (m : Move T) (r : t T) : bool :=
  match m with
  | CallEmplace _ => match producer r with PIdle => true | _ => false end
  | StepProducer load =>
      match producer r with
      | PIdle => false
      | PReload _ _ =>
          (seen (producer_view r) <=? load)%nat && (load <? length (read_position_ r))%nat
      | _ => true
      end
  | CallConsume => match consumer r with CIdle => true | _ => false end
  | StepConsumer load =>
      match consumer r with
      | CIdle => false
      | CReload _ =>
          (seen (consumer_view r) <=? load)%nat && (load <? length (write_position_ r))%nat
      | _ => true
      end
  end.

Definition exec (m : Move T) : M (t T) (option (Event T)) :=
  match m with
  | CallEmplace writer => modify (call_emplace writer) ;;; ret None
  | StepProducer load => step_producer load
  | CallConsume => modify call_consume ;;; ret None
  | StepConsumer load => step_consumer load
  end.

Inductive trace (r0 : t T) : list (Event T) → t T → Prop :=
  | trace_nil : trace r0 [] r0
  | trace_move es r m e r' :
      trace r0 es r → enabled m r = true → exec m r = (Ok e, r') →
      trace r0 (es ++ option_list e) r'.

(* the events of a schedule *)
Fixpoint play (ms : list (Move T)) (r : t T) : option (list (Event T) * t T) :=
  match ms with
  | [] => Some ([], r)
  | m :: ms' =>
      if enabled m r then
        match exec m r with
        | (Ok e, r') =>
            '(es, r'') ← play ms' r';
            Some (option_list e ++ es, r'')
        | (Throw _, _) => None
        end
      else None
  end.

Definition pushed (es : list (Event T)) : list T :=
  omap (λ e, match e with Pushed x => Some x | _ => None end) es.
Definition popped (es : list (Event T)) : list T :=
  omap (λ e, match e with Popped x => Some x | _ => None end) es.

(** ** Calls that run to their end with current loads *)

Definition current (position : list Store) : nat := pred (length position).

Fixpoint finish_producer (steps : nat) : M (t T) (option (Event T)) :=
  match steps with
  | O => throw OutOfFuel
  | S steps' =>
      r <- get ;;
      e <- step_producer (current (read_position_ r)) ;;
      match e with None => finish_producer steps' | Some _ => ret e end
  end.

Definition try_emplace (writer : T → T) : M (t T) bool :=
  modify (call_emplace writer) ;;;
  e <- finish_producer 3 ;;
  ret match e with Some (Pushed _) => true | _ => false end.

Definition try_push (x : T) : M (t T) bool := try_emplace (λ _, x).

Fixpoint finish_consumer (steps : nat) : M (t T) (option (Event T)) :=
  match steps with
  | O => throw OutOfFuel
  | S steps' =>
      r <- get ;;
      e <- step_consumer (current (write_position_ r)) ;;
      match e with None => finish_consumer steps' | Some _ => ret e end
  end.

Definition try_consume : M (t T) (option T) :=
  modify call_consume ;;;
  e <- finish_consumer 3 ;;
  ret match e with Some (Popped x) => Some x | _ => None end.

Definition try_pop : M (t T) (option T) := try_consume.

(* the two loads return the given stores *)
Definition size_approx (write_load read_load : nat) (r : t T) : option Z :=
  write ← write_position_ r !! write_load;
  read ← read_position_ r !! read_load;
  let difference := u64 (value write - value read) in
  Some (if difference >? Capacity then Capacity else difference).

Definition empty_approx (write_load read_load : nat) (r : t T) : option bool :=
  (λ size, size =? 0) <$> size_approx write_load read_load r.

(** ** Abstraction: the published slots that have not been released *)

Definition released_count (position : list Store) : Z := Z.of_nat (length position) - 1.

Definition contents (r : t T) : list T :=
  omap (λ n, content <$> slots_ r !! Z.to_nat (n `mod` Capacity))
    (seqZ (released_count (read_position_ r))
       (released_count (write_position_ r) - released_count (read_position_ r))).

(** ** Invariant

    The n-th store of a position is n modulo 2^64.  [W] and [R] are the numbers
    of slots published and released; [a] and [b] are what the producer knows of
    [R] and the consumer of [W]. *)

Definition slot_at (r : t T) (n : Z) : option (Slot T) :=
  slots_ r !! Z.to_nat (n `mod` Capacity).

Definition numbered (position : list Store) : Prop :=
  position ≠ [] ∧
  ∀ n s, position !! n = Some s → s = mk_store (u64 (Z.of_nat n)) (Z.of_nat n).

Abbreviation W r := (released_count (write_position_ r)).
Abbreviation R r := (released_count (read_position_ r)).
Abbreviation a r := (Z.of_nat (seen (producer_view r))).
Abbreviation b r := (Z.of_nat (seen (consumer_view r))).

Definition producer_ok (r : t T) : Prop :=
  match producer r with
  | PIdle => clock (producer_view r) = W r
  | PReload _ write => write = u64 (W r) ∧ clock (producer_view r) = W r
  | PWrite _ write => write = u64 (W r) ∧ clock (producer_view r) = W r ∧ W r < a r + Capacity
  | PPublish x write =>
      write = u64 (W r) ∧ clock (producer_view r) = W r + 1 ∧ W r < a r + Capacity ∧
      ∃ s, slot_at r (W r) = Some s ∧ content s = x ∧ written_at s = W r + 1
  end.

Definition consumer_ok (r : t T) : Prop :=
  match consumer r with
  | CIdle => clock (consumer_view r) = R r
  | CReload read => read = u64 (R r) ∧ clock (consumer_view r) = R r
  | CRead read => read = u64 (R r) ∧ clock (consumer_view r) = R r ∧ R r < b r
  | CRelease x read =>
      read = u64 (R r) ∧ clock (consumer_view r) = R r + 1 ∧ R r < b r ∧
      ∃ s, slot_at r (R r) = Some s ∧ content s = x ∧ read_at s = R r + 1
  end.

Record inv (r : t T) : Prop := {
  inv_slots : Z.of_nat (length (slots_ r)) = Capacity;
  inv_write : numbered (write_position_ r);
  inv_read : numbered (read_position_ r);
  inv_cached_read : cached_read_position_ r = u64 (a r) ∧ knows (producer_view r) = a r;
  inv_cached_write : cached_write_position_ r = u64 (b r) ∧ knows (consumer_view r) = b r;
  inv_order : a r ≤ R r ≤ b r ∧ b r ≤ W r ≤ a r + Capacity;
  inv_producer : producer_ok r;
  inv_consumer : consumer_ok r;
  inv_written : ∀ n, R r ≤ n < W r → ∃ s, slot_at r n = Some s ∧ written_at s = n + 1;
  inv_free : ∀ n s, W r ≤ n < R r + Capacity → slot_at r n = Some s →
    read_at s ≤ Z.max 0 (n - Capacity + 1)
}.

Context `{!StaticAsserts Capacity}.

(** *** Positions and slots *)

Lemma capacity_power : ∃ k, 1 ≤ k < 64 ∧ Capacity = 2 ^ k.
Proof.
  destruct (_ : StaticAsserts Capacity) as [Hs H2 Hp].
  set (k := Z.log2 Capacity).
  assert (0 < Capacity) as H0 by lia. pose proof (Z.log2_spec Capacity H0) as Hk. fold k in Hk.
  assert (1 ≤ k) as H1 by (apply Z.log2_le_pow2; lia).
  assert (k < 64) by (apply Z.log2_lt_pow2; [lia|apply Hs]).
  exists k. split; [done|]. destruct (decide (Capacity = 2 ^ k)) as [?|Hne]; [done|exfalso].
  assert (Z.testbit (Z.land Capacity (Capacity - 1)) k = true) as Hbit; [|by rewrite Hp, Z.bits_0 in Hbit].
  assert (Z.log2 (Capacity - 1) = k) as Hk1 by (apply Z.log2_unique; lia).
  rewrite Z.land_spec, andb_true_iff. split; [by apply Z.bit_log2|].
  rewrite <- Hk1. apply Z.bit_log2. lia.
Qed.

Lemma capacity_bounds : 2 ≤ Capacity < 2 ^ 64.
Proof. split; [apply capacity_at_least_two|apply capacity_size_t]. Qed.

Lemma mask_mod n : Z.land (u64 n) kMask = n `mod` Capacity.
Proof.
  unfold kMask. destruct capacity_power as (k & Hk & ->).
  replace (2 ^ k - 1) with (Z.ones k) by (rewrite Z.ones_equiv; lia).
  rewrite Z.land_ones by lia. apply Z.mod_mod_divide.
  exists (2 ^ (64 - k)). rewrite <- Z.pow_add_r by lia. f_equal. lia.
Qed.

Lemma position_distance m n : 0 ≤ m - n ≤ Capacity → u64 (u64 m - u64 n) = m - n.
Proof.
  intros H. pose proof capacity_bounds. unfold u64.
  rewrite Zminus_mod_idemp_l, Zminus_mod_idemp_r. apply Z.mod_small. lia.
Qed.

Lemma position_equal m n : 0 ≤ n - m ≤ Capacity → (u64 m =? u64 n) = (m =? n).
Proof.
  intros H. pose proof (position_distance n m H) as Hd.
  destruct (Z.eqb_spec m n) as [->|Hne]; [apply Z.eqb_refl|].
  apply Z.eqb_neq. intros Heq. rewrite Heq, Z.sub_diag in Hd. unfold u64 in Hd.
  rewrite Z.mod_0_l in Hd by done. lia.
Qed.

Lemma own_numbered position : numbered position → own position = u64 (released_count position).
Proof.
  intros [Hne H]. unfold own, released_count.
  destruct position as [|s l _] using rev_ind; [done|].
  rewrite last_snoc, length_app. simpl.
  rewrite (H (length l) s) by (by rewrite lookup_app_r, Nat.sub_diag by done). simpl. f_equal. lia.
Qed.

Lemma numbered_snoc position :
  numbered position →
  numbered (position ++ [mk_store (u64 (u64 (released_count position) + 1))
                           (released_count position + 1)]).
Proof.
  intros [Hne H]. split; [by destruct position|]. intros n s [Hn|[Hn Hs]]%lookup_app_Some; [by apply H|].
  destruct position as [|s0 l]; [done|]. unfold released_count in *. simpl length in *.
  apply list_lookup_singleton_Some in Hs as [Hs <-].
  replace (Z.of_nat n) with (Z.of_nat (S (length l)) - 1 + 1) by lia.
  f_equal. unfold u64. by rewrite Zplus_mod_idemp_l.
Qed.

Lemma released_snoc position s :
  released_count (position ++ [s]) = released_count position + 1.
Proof. unfold released_count. rewrite length_app. simpl. lia. Qed.

Lemma slot_index n m :
  0 ≤ n → 0 ≤ m → - Capacity < n - m < Capacity →
  Z.to_nat (n `mod` Capacity) = Z.to_nat (m `mod` Capacity) → n = m.
Proof.
  intros Hn Hm Hd Heq. pose proof capacity_bounds.
  apply Z2Nat.inj in Heq; [|apply Z.mod_pos_bound; lia..].
  pose proof (Z.div_mod n Capacity). pose proof (Z.div_mod m Capacity).
  assert (n `div` Capacity = m `div` Capacity); nia.
Qed.

Lemma slot_bound r n : inv r → (Z.to_nat (n `mod` Capacity) < length (slots_ r))%nat.
Proof.
  intros H. pose proof capacity_bounds. pose proof (inv_slots r H).
  pose proof (Z.mod_pos_bound n Capacity). lia.
Qed.

Lemma slot_at_Some r n : inv r → ∃ s, slot_at r n = Some s.
Proof. intros H. by apply lookup_lt_is_Some_2, slot_bound. Qed.

(** *** Contents *)

Lemma contents_ext r r' :
  R r' = R r → W r' = W r →
  (∀ n, R r ≤ n < W r → content <$> slot_at r' n = content <$> slot_at r n) →
  contents r' = contents r.
Proof.
  unfold slot_at. intros HR HW H. unfold contents. rewrite HR, HW.
  assert (Forall (λ n, R r ≤ n < W r) (seqZ (R r) (W r - R r))) as Hall.
  { apply Forall_forall. intros n Hn. apply elem_of_seqZ in Hn. lia. }
  induction Hall as [|n l Hn _ IH]; [done|]. cbn [omap list_omap].
  rewrite (H n Hn). destruct (_ <$> _); by rewrite IH.
Qed.

Lemma contents_length r : inv r → Z.of_nat (length (contents r)) = W r - R r.
Proof.
  intros H. unfold contents. pose proof (inv_order r H).
  transitivity (Z.of_nat (length (seqZ (R r) (W r - R r)))); [|rewrite length_seqZ; lia].
  induction (seqZ _ _) as [|n l IH]; [done|]. cbn [omap list_omap].
  destruct (slot_at_Some r n H) as [s Hs]. unfold slot_at in Hs. rewrite Hs.
  cbn [length fmap option_fmap option_map]. lia.
Qed.

Lemma contents_publish r r' x :
  slots_ r' = slots_ r → R r' = R r → W r' = W r + 1 → R r ≤ W r →
  content <$> slot_at r (W r) = Some x →
  contents r' = contents r ++ [x].
Proof.
  intros Hs HR HW Hle Hx. unfold contents. rewrite Hs, HR, HW.
  replace (W r + 1 - R r) with ((W r - R r) + 1) by lia.
  rewrite seqZ_app by lia. rewrite omap_app. f_equal.
  replace (R r + (W r - R r)) with (W r) by lia.
  rewrite (seqZ_cons (W r) 1), (seqZ_nil _ (Z.pred 1)) by lia. cbn [omap list_omap].
  unfold slot_at in Hx. by rewrite Hx.
Qed.

Lemma contents_release r r' x :
  slots_ r' = slots_ r → R r' = R r + 1 → W r' = W r → R r < W r →
  content <$> slot_at r (R r) = Some x →
  contents r = x :: contents r'.
Proof.
  intros Hs HR HW Hlt Hx. unfold contents. rewrite Hs, HR, HW.
  rewrite seqZ_cons by lia. cbn [omap list_omap]. unfold slot_at in Hx. rewrite Hx.
  f_equal. f_equal. unfold Z.succ, Z.pred. f_equal. lia.
Qed.

(** *** What a step of a thread does *)

Definition refines (q : list T) (e : option (Event T)) (q' : list T) : Prop :=
  match e with
  | Some (Pushed x) => BoundedQueue.push Capacity x q = (true, q')
  | Some (Popped x) => BoundedQueue.pop q = (Some x, q')
  | _ => q' = q
  end.

Lemma full_spec r : inv r → full r (u64 (W r)) = (W r - a r >=? Capacity).
Proof.
  intros H. unfold full. pose proof (inv_order r H).
  by rewrite (proj1 (inv_cached_read r H)), position_distance by lia.
Qed.

Lemma call_emplace_inv writer r :
  inv r → producer r = PIdle → inv (call_emplace writer r).
Proof.
  intros H Hp. unfold call_emplace. rewrite own_numbered, full_spec by apply H.
  pose proof (inv_producer r H) as Hok. unfold producer_ok in Hok. rewrite Hp in Hok.
  destruct H; split; try done. unfold producer_ok, set_producer; cbn.
  destruct (_ >=? _) eqn:?; zify_bool; split_and!; try done. lia.
Qed.

Lemma call_consume_inv r : inv r → consumer r = CIdle → inv (call_consume r).
Proof.
  intros H Hp. unfold call_consume. pose proof (inv_order r H) as Ho.
  rewrite own_numbered, (proj1 (inv_cached_write r H)), position_equal by (apply H || lia).
  pose proof (inv_consumer r H) as Hok. unfold consumer_ok in Hok. rewrite Hp in Hok.
  destruct H; split; try done. unfold consumer_ok, set_consumer; cbn.
  destruct (_ =? _) eqn:?; zify_bool; split_and!; try done. lia.
Qed.

Lemma acquire_read_inv load r writer write :
  inv r → producer r = PReload writer write →
  (seen (producer_view r) ≤ load < length (read_position_ r))%nat →
  inv (acquire_read load r) ∧ a (acquire_read load r) = Z.of_nat load.
Proof.
  intros H Hp Hload. unfold acquire_read.
  destruct (lookup_lt_is_Some_2 (read_position_ r) load) as [s Hs]; [lia|].
  rewrite Hs. rewrite (proj2 (inv_read r H) load s Hs). split; [|done].
  pose proof (inv_producer r H) as Hok. unfold producer_ok in Hok. rewrite Hp in Hok.
  assert (Z.of_nat load ≤ R r) by (unfold released_count; lia).
  destruct H; split; try done; cbn.
  - split; [done|]. lia.
  - lia.
  - unfold producer_ok; cbn. by rewrite Hp.
Qed.

Lemma acquire_write_inv load r read :
  inv r → consumer r = CReload read →
  (seen (consumer_view r) ≤ load < length (write_position_ r))%nat →
  inv (acquire_write load r) ∧ b (acquire_write load r) = Z.of_nat load.
Proof.
  intros H Hp Hload. unfold acquire_write.
  destruct (lookup_lt_is_Some_2 (write_position_ r) load) as [s Hs]; [lia|].
  rewrite Hs. rewrite (proj2 (inv_write r H) load s Hs). split; [|done].
  pose proof (inv_consumer r H) as Hok. unfold consumer_ok in Hok. rewrite Hp in Hok.
  assert (Z.of_nat load ≤ W r) by (unfold released_count; lia).
  destruct H; split; try done; cbn.
  - split; [done|]. lia.
  - lia.
  - unfold consumer_ok; cbn. by rewrite Hp.
Qed.

Lemma reload_producer load r writer write :
  inv r → producer r = PReload writer write →
  (seen (producer_view r) ≤ load < length (read_position_ r))%nat →
  let stop := W r - Z.of_nat load >=? Capacity in
  let r' := set_producer (if stop then PIdle else PWrite writer write) (acquire_read load r) in
  step_producer load r = (Ok (if stop then Some Refused else None), r') ∧
  inv r' ∧ contents r' = contents r.
Proof.
  intros H Hp Hload. destruct (acquire_read_inv _ _ _ _ H Hp Hload) as [Hi Ha].
  pose proof (inv_producer r H) as Hok. unfold producer_ok in Hok. rewrite Hp in Hok.
  destruct Hok as [-> Hclock].
  assert (W (acquire_read load r) = W r) as HW by (unfold acquire_read; by case_match).
  assert (producer (acquire_read load r) = PReload writer (u64 (W r))) as Hp'
    by (unfold acquire_read; by case_match).
  pose proof (full_spec _ Hi) as Hf. rewrite HW, Ha in Hf.
  unfold step_producer, bind, get, modify. rewrite Hp, Hf.
  pose proof (inv_producer _ Hi) as Hok'. unfold producer_ok in Hok'. rewrite Hp', HW in Hok'.
  cbn zeta. split_and!; [by destruct (_ >=? _)| |].
  - destruct Hi; split; try done. unfold producer_ok, set_producer; cbn. rewrite HW.
    destruct (_ >=? _) eqn:?; zify_bool; [apply Hok'|].
    split_and!; [done|apply Hok'|lia].
  - unfold acquire_read. by destruct (read_position_ r !! load).
Qed.

Lemma reload_consumer load r read :
  inv r → consumer r = CReload read →
  (seen (consumer_view r) ≤ load < length (write_position_ r))%nat →
  let stop := R r =? Z.of_nat load in
  let r' := set_consumer (if stop then CIdle else CRead read) (acquire_write load r) in
  step_consumer load r = (Ok (if stop then Some Empty else None), r') ∧
  inv r' ∧ contents r' = contents r.
Proof.
  intros H Hp Hload. destruct (acquire_write_inv _ _ _ H Hp Hload) as [Hi Ha].
  pose proof (inv_consumer r H) as Hok. unfold consumer_ok in Hok. rewrite Hp in Hok.
  destruct Hok as [-> Hclock].
  assert (R (acquire_write load r) = R r) as HR by (unfold acquire_write; by case_match).
  assert (consumer (acquire_write load r) = CReload (u64 (R r))) as Hp'
    by (unfold acquire_write; by case_match).
  pose proof (inv_order _ Hi) as Ho. rewrite HR, Ha in Ho.
  assert ((u64 (R r) =? cached_write_position_ (acquire_write load r)) = (R r =? Z.of_nat load)) as Hf
    by (rewrite (proj1 (inv_cached_write _ Hi)), Ha; apply position_equal; lia).
  unfold step_consumer, bind, get, modify. rewrite Hp, Hf.
  pose proof (inv_consumer _ Hi) as Hok'. unfold consumer_ok in Hok'. rewrite Hp', HR in Hok'.
  cbn zeta. split_and!; [destruct (R r =? Z.of_nat load); reflexivity| |].
  - destruct Hi; split; try done. unfold consumer_ok, set_consumer; cbn. rewrite HR.
    destruct (Z.eqb_spec (R r) (Z.of_nat load)); [apply Hok'|].
    split_and!; [done|apply Hok'|lia].
  - unfold acquire_write. by destruct (write_position_ r !! load).
Qed.

(** The slots after a write to one of them. *)
Lemma slot_at_insert r r' k n s :
  inv r → slots_ r' = <[Z.to_nat (k `mod` Capacity) := s]> (slots_ r) →
  0 ≤ n → 0 ≤ k → - Capacity < n - k < Capacity →
  slot_at r' n = if decide (n = k) then Some s else slot_at r n.
Proof.
  intros H Hs Hn Hk Hd. unfold slot_at. rewrite Hs. destruct (decide (n = k)) as [->|Hne].
  - apply list_lookup_insert_eq. by apply slot_bound.
  - apply list_lookup_insert_ne. intros Heq. apply Hne. by apply slot_index.
Qed.

Lemma write_producer load writer write r :
  inv r → producer r = PWrite writer write →
  ∃ s r', slot_at r (W r) = Some s ∧ step_producer load r = (Ok None, r') ∧ inv r' ∧
    contents r' = contents r ∧ producer r' = PPublish (writer (content s)) write ∧
    consumer r' = consumer r ∧ W r' = W r ∧ R r' = R r.
Proof.
  intros H Hp. pose proof (inv_producer r H) as Hok. unfold producer_ok in Hok. rewrite Hp in Hok.
  destruct Hok as (-> & Hclock & Hlt). pose proof (inv_order r H) as Ho.
  assert (0 ≤ R r) as HR0 by lia.
  destruct (slot_at_Some r (W r) H) as [s Hs].
  pose proof (inv_free r H (W r) s ltac:(lia) Hs) as Hfree.
  unfold step_producer, bind, get, write_slot, modify, ret. rewrite Hp, mask_mod.
  unfold slot_at in Hs. rewrite Hs.
  destruct (Z.ltb_spec (knows (producer_view r)) (read_at s)) as [Hrace|_].
  { rewrite (proj2 (inv_cached_read r H)) in Hrace. lia. }
  eexists s, _. split; [done|]. split; [reflexivity|].
  match goal with |- inv ?r2 ∧ _ => set (r' := r2) end.
  assert (∀ n, 0 ≤ n → - Capacity < n - W r < Capacity → slot_at r' n =
    if decide (n = W r) then Some (mk_slot (writer (content s)) (clock (producer_view r) + 1) (read_at s))
    else slot_at r n) as Hslot by (intros n ? ?; apply slot_at_insert; [done..|lia|done]).
  split_and!; try done.
  - destruct H; split; try done; cbn.
    + by rewrite length_insert.
    + unfold producer_ok; cbn. split_and!; [done|lia|lia|].
      rewrite Hslot, decide_True by (lia || done). eexists. split_and!; [done..|]. cbn. lia.
    + unfold consumer_ok in *; cbn. destruct (consumer r); try done.
      destruct inv_consumer0 as (? & ? & ? & s' & ?). split_and!; [done..|]. exists s'.
      by rewrite Hslot, decide_False by lia.
    + intros n Hn. rewrite Hslot, decide_False by (cbn in Hn; lia). by apply inv_written0.
    + intros n s' Hn. cbn in Hn. rewrite Hslot by lia. case_decide; [|by apply inv_free0].
      intros [= <-]. cbn. lia.
  - apply contents_ext; [done..|]. intros n Hn. by rewrite Hslot, decide_False by lia.
Qed.

Lemma publish_producer load x write r :
  inv r → producer r = PPublish x write →
  ∃ r', step_producer load r = (Ok (Some (Pushed x)), r') ∧ inv r' ∧
    W r < R r + Capacity ∧ contents r' = contents r ++ [x] ∧
    producer r' = PIdle ∧ consumer r' = consumer r.
Proof.
  intros H Hp. pose proof (inv_producer r H) as Hok. unfold producer_ok in Hok. rewrite Hp in Hok.
  destruct Hok as (-> & Hclock & Hlt & s & Hs & Hx & Hw). pose proof (inv_order r H) as Ho.
  unfold step_producer, bind, get, modify, ret. rewrite Hp.
  eexists. split; [reflexivity|].
  match goal with |- inv ?r2 ∧ _ => set (r' := r2) end.
  assert (W r' = W r + 1) as HW by apply released_snoc.
  split_and!; [|lia| |done..].
  - destruct H; split; try done; cbn.
    + rewrite Hclock. by apply numbered_snoc.
    + change (a r ≤ R r ≤ b r ∧ b r ≤ W r' ≤ a r + Capacity). lia.
    + unfold producer_ok. change (clock (producer_view r) = W r'). lia.
    + intros n Hn. change (R r ≤ n < W r') in Hn.
      destruct (decide (n = W r)) as [->|Hne]; [by exists s|]. apply inv_written0. lia.
    + intros n s' Hn. change (W r' ≤ n < R r + Capacity) in Hn. apply inv_free0. lia.
  - apply contents_publish; [done..|lia|]. by rewrite Hs, <- Hx.
Qed.

Lemma read_consumer load read r :
  inv r → consumer r = CRead read →
  ∃ s r', slot_at r (R r) = Some s ∧ step_consumer load r = (Ok None, r') ∧ inv r' ∧
    contents r' = contents r ∧ consumer r' = CRelease (content s) read ∧
    producer r' = producer r.
Proof.
  intros H Hp. pose proof (inv_consumer r H) as Hok. unfold consumer_ok in Hok. rewrite Hp in Hok.
  destruct Hok as (-> & Hclock & Hlt). pose proof (inv_order r H) as Ho.
  assert (0 ≤ R r) as HR0 by lia.
  destruct (inv_written r H (R r) ltac:(lia)) as (s & Hs & Hw).
  unfold step_consumer, bind, get, read_slot, modify, ret. rewrite Hp, mask_mod.
  pose proof Hs as Hs'. unfold slot_at in Hs'. rewrite Hs'.
  destruct (Z.ltb_spec (knows (consumer_view r)) (written_at s)) as [Hrace|_].
  { rewrite (proj2 (inv_cached_write r H)) in Hrace. lia. }
  eexists s, _. split; [done|]. split; [reflexivity|].
  match goal with |- inv ?r2 ∧ _ => set (r' := r2) end.
  assert (∀ n, 0 ≤ n → - Capacity < n - R r < Capacity → slot_at r' n =
    if decide (n = R r) then Some (mk_slot (content s) (written_at s) (clock (consumer_view r) + 1))
    else slot_at r n) as Hslot by (intros n ? ?; apply slot_at_insert; [done..|lia|done]).
  split_and!; try done.
  - destruct H; split; try done; cbn.
    + by rewrite length_insert.
    + unfold producer_ok in *; cbn. destruct (producer r); try done.
      destruct inv_producer0 as (? & ? & ? & s' & ?). split_and!; [done..|]. exists s'.
      by rewrite Hslot, decide_False by lia.
    + unfold consumer_ok; cbn. split_and!; [done|lia|done|].
      rewrite Hslot, decide_True by (lia || done). eexists. split_and!; [done..|]. cbn. lia.
    + intros n Hn. cbn in Hn. rewrite Hslot by lia. case_decide as Hd; [|by apply inv_written0].
      eexists. split; [done|]. cbn. by rewrite Hd.
    + intros n s' Hn. cbn in Hn. rewrite Hslot, decide_False by lia. by apply inv_free0.
  - apply contents_ext; [done..|]. intros n Hn. rewrite Hslot by lia.
    case_decide as Hd; [|done]. by rewrite Hd, Hs.
Qed.

Lemma release_consumer load x read r :
  inv r → consumer r = CRelease x read →
  ∃ r', step_consumer load r = (Ok (Some (Popped x)), r') ∧ inv r' ∧
    contents r = x :: contents r' ∧ consumer r' = CIdle ∧ producer r' = producer r.
Proof.
  intros H Hp. pose proof (inv_consumer r H) as Hok. unfold consumer_ok in Hok. rewrite Hp in Hok.
  destruct Hok as (-> & Hclock & Hlt & s & Hs & Hx & Hr). pose proof (inv_order r H) as Ho.
  unfold step_consumer, bind, get, modify, ret. rewrite Hp.
  eexists. split; [reflexivity|].
  match goal with |- inv ?r2 ∧ _ => set (r' := r2) end.
  assert (R r' = R r + 1) as HR by apply released_snoc.
  split_and!; [| |done..].
  - destruct H; split; try done; cbn.
    + rewrite Hclock. by apply numbered_snoc.
    + change (a r ≤ R r' ≤ b r ∧ b r ≤ W r ≤ a r + Capacity). lia.
    + unfold consumer_ok. change (clock (consumer_view r) = R r'). lia.
    + intros n Hn. change (R r' ≤ n < W r) in Hn. apply inv_written0. lia.
    + intros n s' Hn Hs'. change (W r ≤ n < R r' + Capacity) in Hn.
      change (slot_at r n = Some s') in Hs'.
      destruct (decide (n = R r + Capacity)) as [->|Hne]; [|apply inv_free0; [lia|done]].
      assert (slot_at r (R r + Capacity) = slot_at r (R r)) as Hsame.
      { unfold slot_at. replace (R r + Capacity) with (R r + 1 * Capacity) by lia.
        by rewrite Z_mod_plus_full. }
      rewrite Hsame, Hs in Hs'. injection Hs' as <-. lia.
  - eapply contents_release; [done..|lia|]. by rewrite Hs, <- Hx.
Qed.

(** *** Every move, every trace *)

Lemma reset_inv r : Z.of_nat (length (slots_ r)) = Capacity → inv (reset r).
Proof.
  intros Hl. pose proof capacity_bounds.
  assert (numbered [mk_store 0 0]) as Hn.
  { split; [done|]. by intros n s [-> <-]%list_lookup_singleton_Some. }
  split; try done; cbn.
  - by rewrite length_fmap.
  - unfold released_count; cbn. lia.
  - intros n Hn'. unfold released_count in Hn'. simpl in Hn'. lia.
  - intros n s _ Hs. unfold slot_at, reset in Hs; cbn in Hs.
    apply list_lookup_fmap_Some in Hs as (s' & -> & _). cbn. lia.
Qed.

Lemma contents_reset r : contents (reset r) = [].
Proof. done. Qed.

Lemma contents_bound r : inv r → Z.of_nat (length (contents r)) ≤ Capacity.
Proof. intros H. rewrite contents_length by done. pose proof (inv_order r H). lia. Qed.

Lemma refines_pushed x r : inv r → W r < R r + Capacity →
  BoundedQueue.push Capacity x (contents r) = (true, contents r ++ [x]).
Proof.
  intros H Hlt. unfold BoundedQueue.push. rewrite contents_length by done.
  by rewrite (proj2 (Z.ltb_lt _ _)) by lia.
Qed.

Lemma exec_refines m r :
  inv r → enabled m r = true →
  ∃ e r', exec m r = (Ok e, r') ∧ inv r' ∧ refines (contents r) e (contents r').
Proof.
  intros H He. destruct m as [writer|load| |load]; unfold enabled in He; unfold exec.
  - destruct (producer r) eqn:Hp; try done. eexists None, _. split; [done|].
    split; [by apply call_emplace_inv|done].
  - destruct (producer r) as [|writer write|writer write|x write] eqn:Hp; try done.
    + apply andb_true_iff in He as [?%Nat.leb_le ?%Nat.ltb_lt].
      destruct (reload_producer load r writer write) as (Hs & Hi & Hc); [done..|].
      eexists _, _. split; [exact Hs|]. split; [done|]. rewrite <- Hc. by destruct (_ >=? _).
    + destruct (write_producer load writer write r) as (s & r' & _ & Hs & Hi & Hc & _); [done..|].
      by exists None, r'.
    + destruct (publish_producer load x write r) as (r' & Hs & Hi & Hlt & Hc & _); [done..|].
      eexists _, r'. split; [done|]. split; [done|]. cbn. rewrite Hc. by apply refines_pushed.
  - destruct (consumer r) eqn:Hp; try done. eexists None, _. split; [done|].
    split; [by apply call_consume_inv|done].
  - destruct (consumer r) as [|read|read|x read] eqn:Hp; try done.
    + apply andb_true_iff in He as [?%Nat.leb_le ?%Nat.ltb_lt].
      destruct (reload_consumer load r read) as (Hs & Hi & Hc); [done..|].
      eexists _, _. split; [exact Hs|]. split; [done|]. rewrite <- Hc. by destruct (_ =? _).
    + destruct (read_consumer load read r) as (s & r' & _ & Hs & Hi & Hc & _); [done..|].
      by exists None, r'.
    + destruct (release_consumer load x read r) as (r' & Hs & Hi & Hc & _); [done..|].
      eexists _, r'. split; [done|]. split; [done|]. cbn. by rewrite Hc.
Qed.

Lemma refines_history e pushes pops q q' :
  refines q e q' → pushes = pops ++ q →
  pushes ++ pushed (option_list e) = (pops ++ popped (option_list e)) ++ q'.
Proof.
  destruct e as [[x| |x|]|]; cbn; intros H ->; try by rewrite H, !(right_id_L [] (++)).
  - unfold BoundedQueue.push in H. case_match; [|done]. injection H as <-.
    by rewrite (right_id_L [] (++)), (assoc_L (++)).
  - destruct q as [|y q]; [done|]. injection H as -> ->.
    by rewrite (right_id_L [] (++)), <- (assoc_L (++)).
Qed.

Lemma trace_inv r0 es r :
  Z.of_nat (length (slots_ r0)) = Capacity → trace (reset r0) es r →
  inv r ∧ pushed es = popped es ++ contents r.
Proof.
  intros Hl. induction 1 as [|es r m e r' _ [Hi IH] He Hr]; [by split; [apply reset_inv|]|].
  destruct (exec_refines m r Hi He) as (e' & r'' & Hr' & Hi' & Href).
  rewrite Hr in Hr'. injection Hr' as <- <-. split; [done|].
  unfold pushed, popped in *. rewrite !omap_app. by eapply refines_history.
Qed.

(** *** Calls that run to their end *)

Lemma current_lt position : numbered position → (current position < length position)%nat.
Proof. intros [Hne _]. unfold current. destruct position; simpl; [done|lia]. Qed.

Lemma current_count position : numbered position →
  Z.of_nat (current position) = released_count position.
Proof. intros [Hne _]. unfold current, released_count. destruct position; simpl; [done|lia]. Qed.

Lemma play_trace ms r0 es r es' r' :
  trace r0 es r → play ms r = Some (es', r') → trace r0 (es ++ es') r'.
Proof.
  revert es r es'. induction ms as [|m ms IH]; intros es r es' Ht H; cbn in H.
  - injection H as <- <-. by rewrite (right_id_L [] (++)).
  - destruct (enabled m r) eqn:Hm; [|done]. destruct (exec m r) as [[e|] r1] eqn:Hr; [|done].
    apply bind_Some in H as ([es1 r2] & H & [= <- <-]). rewrite (assoc_L (++)).
    apply (IH _ r1); [|done]. by eapply trace_move.
Qed.

Lemma finish_producer_S steps r e r' :
  step_producer (current (read_position_ r)) r = (Ok e, r') →
  finish_producer (S steps) r =
    match e with None => finish_producer steps r' | Some _ => (Ok e, r') end.
Proof.
  intros Hs. cbn [finish_producer]. unfold bind at 1, get. unfold bind. rewrite Hs. by destruct e.
Qed.

Lemma finish_consumer_S steps r e r' :
  step_consumer (current (write_position_ r)) r = (Ok e, r') →
  finish_consumer (S steps) r =
    match e with None => finish_consumer steps r' | Some _ => (Ok e, r') end.
Proof.
  intros Hs. cbn [finish_consumer]. unfold bind at 1, get. unfold bind. rewrite Hs. by destruct e.
Qed.

Lemma trace_producer r0 es r load e r' :
  trace r0 es r → enabled (StepProducer load) r = true → step_producer load r = (Ok e, r') →
  trace r0 (es ++ option_list e) r'.
Proof. intros Ht He Hs. by apply (trace_move r0 es r (StepProducer load) e r'). Qed.

Lemma trace_consumer r0 es r load e r' :
  trace r0 es r → enabled (StepConsumer load) r = true → step_consumer load r = (Ok e, r') →
  trace r0 (es ++ option_list e) r'.
Proof. intros Ht He Hs. by apply (trace_move r0 es r (StepConsumer load) e r'). Qed.

Lemma finish_write steps writer write r0 es r :
  inv r → producer r = PWrite writer write → trace r0 es r →
  ∃ y r', y ∈ content <$> slots_ r ∧
    finish_producer (2 + steps) r = (Ok (Some (Pushed (writer y))), r') ∧
    trace r0 (es ++ [Pushed (writer y)]) r' ∧
    BoundedQueue.push Capacity (writer y) (contents r) = (true, contents r').
Proof.
  intros Hi Hp Ht.
  destruct (write_producer (current (read_position_ r)) writer write r Hi Hp)
    as (s & r1 & Hs & Hstep & Hi1 & Hc1 & Hp1 & _).
  destruct (publish_producer (current (read_position_ r1)) _ _ r1 Hi1 Hp1)
    as (r2 & Hstep2 & Hi2 & Hlt & Hc2 & _).
  exists (content s), r2. split_and!.
  - apply list_elem_of_fmap. exists s. split; [done|]. by eapply list_elem_of_lookup_2.
  - cbn [Nat.add]. by rewrite (finish_producer_S _ _ _ _ Hstep), (finish_producer_S _ _ _ _ Hstep2).
  - replace (es ++ [_]) with ((es ++ option_list None) ++ option_list (Some (Pushed (writer (content s)))))
      by (cbn; by rewrite (right_id_L [] (++))).
    eapply trace_producer, Hstep2; [eapply trace_producer, Hstep; [done|]|];
      unfold enabled; [by rewrite Hp|by rewrite Hp1].
  - rewrite Hc2, <- Hc1. by apply refines_pushed.
Qed.

Lemma finish_read steps read r0 es r :
  inv r → consumer r = CRead read → trace r0 es r →
  ∃ x r', finish_consumer (2 + steps) r = (Ok (Some (Popped x)), r') ∧
    trace r0 (es ++ [Popped x]) r' ∧ BoundedQueue.pop (contents r) = (Some x, contents r').
Proof.
  intros Hi Hp Ht.
  destruct (read_consumer (current (write_position_ r)) read r Hi Hp)
    as (s & r1 & Hs & Hstep & Hi1 & Hc1 & Hp1 & _).
  destruct (release_consumer (current (write_position_ r1)) _ _ r1 Hi1 Hp1)
    as (r2 & Hstep2 & Hi2 & Hc2 & _).
  exists (content s), r2. split_and!.
  - cbn [Nat.add]. by rewrite (finish_consumer_S _ _ _ _ Hstep), (finish_consumer_S _ _ _ _ Hstep2).
  - replace (es ++ [_]) with ((es ++ option_list None) ++ option_list (Some (Popped (content s))))
      by (cbn; by rewrite (right_id_L [] (++))).
    eapply trace_consumer, Hstep2; [eapply trace_consumer, Hstep; [done|]|];
      unfold enabled; [by rewrite Hp|by rewrite Hp1].
  - by rewrite <- Hc1, Hc2.
Qed.

Lemma full_iff r : inv r →
  (W r - R r >=? Capacity) = negb (Z.of_nat (length (contents r)) <? Capacity).
Proof. intros H. rewrite contents_length by done. by rewrite Z.geb_leb, Z.leb_antisym. Qed.

Lemma try_emplace_spec writer r0 es r :
  inv r → trace r0 es r → producer r = PIdle →
  ∃ y ok r', y ∈ content <$> slots_ r ∧ try_emplace writer r = (Ok ok, r') ∧
    trace r0 (es ++ [if ok then Pushed (writer y) else Refused]) r' ∧
    BoundedQueue.push Capacity (writer y) (contents r) = (ok, contents r').
Proof.
  intros Hi Ht Hp. set (r1 := call_emplace writer r).
  assert (inv r1) as Hi1 by by apply call_emplace_inv.
  assert (trace r0 es r1) as Ht1.
  { rewrite <- (right_id_L [] (++) es).
    apply (trace_move r0 es r (CallEmplace writer) None r1); [done|unfold enabled; by rewrite Hp|done]. }
  assert (producer r1 = if full r (u64 (W r)) then PReload writer (u64 (W r))
                        else PWrite writer (u64 (W r))) as Hp1
    by (unfold r1, call_emplace; by rewrite own_numbered by apply Hi).
  unfold try_emplace, bind at 1, modify. fold r1. destruct (full r _).
  - pose proof (inv_read _ Hi1) as Hn. pose proof (current_lt _ Hn) as Hlt.
    pose proof (current_count _ Hn) as Hc. pose proof (inv_order _ Hi1) as Ho.
    set (load := current (read_position_ r1)) in *.
    destruct (reload_producer load r1 _ _ Hi1 Hp1 ltac:(lia)) as (Hstep & Hi2 & Hc2).
    rewrite Hc, full_iff in Hstep, Hi2, Hc2 by done. unfold negb in *.
    change (contents r1) with (contents r) in *.
    pose proof (trace_producer r0 es r1 load _ _ Ht1
      ltac:(unfold enabled; rewrite Hp1, (proj2 (Nat.leb_le _ _)), (proj2 (Nat.ltb_lt _ _)) by lia; done)
      Hstep) as Ht2.
    apply (finish_producer_S 2) in Hstep. unfold bind. rewrite Hstep. clear Hstep.
    destruct (_ <? _) eqn:Hfull; cbn [option_list option_rect] in Ht2.
    + rewrite (right_id_L [] (++)) in Ht2.
      edestruct (finish_write 0 writer) as (y & r' & Hy & Hf & Ht' & Hpush); [exact Hi2|done|exact Ht2|].
      exists y, true, r'. rewrite Hc2 in Hpush.
      split_and!; [|cbn [Nat.add] in Hf; by rewrite Hf|done|done].
      revert Hy. unfold acquire_read. by destruct (read_position_ r1 !! load).
    + destruct (slot_at_Some r 0 Hi) as [s Hs].
      eexists (content s), false, _. split_and!; [|done|exact Ht2|].
      * apply list_elem_of_fmap. exists s. split; [done|]. by eapply list_elem_of_lookup_2.
      * unfold BoundedQueue.push. by rewrite Hfull, Hc2.
  - destruct (finish_write 1 writer _ r0 es r1 Hi1 Hp1 Ht1) as (y & r' & Hy & Hf & Ht' & Hpush).
    exists y, true, r'. split_and!; [done| |done|done].
    cbn [Nat.add] in Hf. unfold bind. by rewrite Hf.
Qed.

Lemma try_consume_spec r0 es r :
  inv r → trace r0 es r → consumer r = CIdle →
  ∃ result r', try_consume r = (Ok result, r') ∧
    trace r0 (es ++ [match result with Some x => Popped x | None => Empty end]) r' ∧
    BoundedQueue.pop (contents r) = (result, contents r').
Proof.
  intros Hi Ht Hp. set (r1 := call_consume r).
  assert (inv r1) as Hi1 by by apply call_consume_inv.
  assert (trace r0 es r1) as Ht1.
  { rewrite <- (right_id_L [] (++) es).
    apply (trace_move r0 es r CallConsume None r1); [done|unfold enabled; by rewrite Hp|done]. }
  assert (consumer r1 = if u64 (R r) =? cached_write_position_ r then CReload (u64 (R r))
                        else CRead (u64 (R r))) as Hp1
    by (unfold r1, call_consume; by rewrite own_numbered by apply Hi).
  unfold try_consume, bind at 1, modify. fold r1. destruct (_ =? _).
  - pose proof (inv_write _ Hi1) as Hn. pose proof (current_lt _ Hn) as Hlt.
    pose proof (current_count _ Hn) as Hc. pose proof (inv_order _ Hi1) as Ho.
    set (load := current (write_position_ r1)) in *.
    destruct (reload_consumer load r1 _ Hi1 Hp1 ltac:(lia)) as (Hstep & Hi2 & Hc2).
    rewrite Hc in Hstep, Hi2, Hc2. change (contents r1) with (contents r) in *.
    pose proof (trace_consumer r0 es r1 load _ _ Ht1
      ltac:(unfold enabled; rewrite Hp1, (proj2 (Nat.leb_le _ _)), (proj2 (Nat.ltb_lt _ _)) by lia; done)
      Hstep) as Ht2.
    apply (finish_consumer_S 2) in Hstep. unfold bind. rewrite Hstep. clear Hstep.
    destruct (Z.eqb_spec (R r1) (W r1)) as [Heq|Hne]; cbn [option_list option_rect] in Ht2.
    + eexists None, _. split_and!; [done|exact Ht2|]. rewrite Hc2.
      pose proof (contents_length r Hi) as Hlen. change (Z.of_nat (length (contents r)) = W r1 - R r1) in Hlen.
      rewrite Heq, Z.sub_diag in Hlen. by destruct (contents r).
    + rewrite (right_id_L [] (++)) in Ht2.
      edestruct (finish_read 0) as (x & r' & Hf & Ht' & Hpop); [exact Hi2|done|exact Ht2|].
      exists (Some x), r'. rewrite Hc2 in Hpop.
      split_and!; [cbn [Nat.add] in Hf; by rewrite Hf|done|done].
  - destruct (finish_read 1 _ r0 es r1 Hi1 Hp1 Ht1) as (x & r' & Hf & Ht' & Hpop).
    exists (Some x), r'. split_and!; [|done|done].
    cbn [Nat.add] in Hf. unfold bind. by rewrite Hf.
Qed.

Lemma size_approx_current r : inv r →
  size_approx (current (write_position_ r)) (current (read_position_ r)) r =
    Some (Z.of_nat (length (contents r))).
Proof.
  intros H. pose proof (inv_write r H) as HW. pose proof (inv_read r H) as HR. unfold size_approx.
  destruct (lookup_lt_is_Some_2 _ _ (current_lt _ HW)) as [w Hw].
  destruct (lookup_lt_is_Some_2 _ _ (current_lt _ HR)) as [s Hs].
  rewrite Hw, Hs. cbn. rewrite (proj2 HW _ _ Hw), (proj2 HR _ _ Hs). cbn [value].
  rewrite !current_count by done. pose proof (inv_order r H).
  rewrite position_distance, contents_length by (done || lia).
  rewrite Z.gtb_ltb. by rewrite (proj2 (Z.ltb_ge _ _)) by lia.
Qed.

(** ** Correctness *)

(** C17. However the steps of the two threads interleave, and whichever stores
    their loads return, the ring is a bounded FIFO queue: what has been pushed
    is what has been popped followed by the contents, which never exceed the
    capacity; and no step races with the other thread or leaves the array. *)
Theorem ring_refines (r0 r : t T) (es : list (Event T)) :
  Z.of_nat (length (slots_ r0)) = Capacity → trace (reset r0) es r →
  pushed es = popped es ++ contents r ∧
  Z.of_nat (length (contents r)) ≤ Capacity ∧
  (∀ m, enabled m r = true → ∃ e r', exec m r = (Ok e, r') ∧ refines (contents r) e (contents r')).
Proof.
  intros Hl Ht. destruct (trace_inv r0 es r Hl Ht) as [Hi Hes].
  split; [done|]. split; [by apply contents_bound|]. intros m Hm.
  destruct (exec_refines m r Hi Hm) as (e & r' & ? & _ & ?). by exists e, r'.
Qed.

(** In every reachable state a call of an idle thread returns within its
    own three steps, whatever the other thread is in the middle of; when its
    loads return the current positions, a push is refused exactly when the
    queue is full, a pop fails exactly when it is empty, and the approximate
    size is the exact one. *)
Theorem ring_calls (r0 r : t T) (es : list (Event T)) :
  Z.of_nat (length (slots_ r0)) = Capacity → trace (reset r0) es r →
  (producer r = PIdle → ∀ x, ∃ ok r',
     try_push x r = (Ok ok, r') ∧ trace (reset r0) (es ++ [if ok then Pushed x else Refused]) r' ∧
     BoundedQueue.push Capacity x (contents r) = (ok, contents r')) ∧
  (consumer r = CIdle → ∃ result r',
     try_pop r = (Ok result, r') ∧
     trace (reset r0) (es ++ [match result with Some x => Popped x | None => Empty end]) r' ∧
     BoundedQueue.pop (contents r) = (result, contents r')) ∧
  size_approx (current (write_position_ r)) (current (read_position_ r)) r =
    Some (Z.of_nat (length (contents r))).
Proof.
  intros Hl Ht. destruct (trace_inv r0 es r Hl Ht) as [Hi _].
  split_and!.
  - intros Hp x. destruct (try_emplace_spec (λ _, x) _ es r Hi Ht Hp) as (y & ok & r' & _ & H). by exists ok, r'.
  - intros Hp. by apply try_consume_spec.
  - by apply size_approx_current.
Qed.
End ring.

(** ** A ring of two slots *)

#[export] Instance static_asserts_2 : StaticAsserts 2.
Proof. split; [done|lia|done]. Qed.

Definition pair_ring : t Z := new 2 0.

(* two pushes, a pop in the middle of which a third push loads the old read
   position and is refused, and a last push that loads the new one *)
Definition pair_schedule : list (Move Z) :=
  [CallEmplace (λ _, 10); StepProducer 0; StepProducer 0;
   CallEmplace (λ _, 20); StepProducer 0; StepProducer 0;
   CallConsume; StepConsumer 1; StepConsumer 0;
   CallEmplace (λ _, 30); StepConsumer 0; StepProducer 0;
   CallEmplace (λ _, 30); StepProducer 1; StepProducer 0; StepProducer 0].

Definition pair_played : t Z :=
  match play 2 pair_schedule pair_ring with Some (_, r) => r | None => pair_ring end.

Definition pair_events : list (Event Z) :=
  [Pushed 10; Pushed 20; Popped 10; Refused; Pushed 30].

Lemma pair_trace : trace 2 (reset pair_ring) pair_events pair_played.
Proof.
  apply (play_trace 2 pair_schedule (reset pair_ring) [] (reset pair_ring)); [constructor|].
  vm_compute. reflexivity.
Qed.

Example pair_contents : contents 2 pair_played = [20; 30].
Proof. vm_compute. reflexivity. Qed.

Example wrap_around :
  own [mk_store 18446744073709551615 0] = 18446744073709551615 ∧
  u64 (18446744073709551615 + 1) = 0 ∧
  Z.land 18446744073709551615 (kMask 2) = 1.
Proof. vm_compute. done. Qed.

Lemma ring_refines_witness :
  pushed pair_events = popped pair_events ++ [20; 30] ∧ (2 : Z) ≤ 2.
Proof.
  pose proof (ring_refines 2 pair_ring pair_played pair_events eq_refl pair_trace) as (H & Hb & _).
  rewrite pair_contents in H, Hb. split; [exact H|exact Hb].
Defined.

Lemma ring_calls_witness :
  ∃ r', try_push 2 40 pair_played = (Ok false, r') ∧ contents 2 r' = [20; 30].
Proof.
  destruct (ring_calls 2 pair_ring pair_played pair_events eq_refl pair_trace) as (Hpush & _ & _).
  destruct (Hpush ltac:(vm_compute; reflexivity) 40) as (ok & r' & Hr & _ & Hq).
  rewrite pair_contents in Hq. injection Hq as <- Hq. exists r'. split; [exact Hr|exact (eq_sym Hq)].
Defined.
End SpscRing.
