(* ===== verification/FixState.v ===== *)
(** * The state of a FIX session (SessionContext of src/fix_gateway.cpp)

    One record per structure of the gateway.  Texts are lists of bytes.  The
    average price of an order is kept in long double, whose precision is the
    platform's: [LongDouble] lists the operations the gateway uses. *)
From Stdlib Require Import QArith.
From S2P Require Import Prelude Bytes Numerals Protocol Fix.
#[global] Open Scope Z_scope.

Abbreviation Text := (list byte).

#[export] Instance byte_countable : Countable byte :=
  inj_countable' (λ b, Byte.to_N b) (λ n, default x00 (Byte.of_N n))
    (λ b, ltac:(by destruct b)).

(** ** long double

    The conversion to int64_t is a total function here.  In C++ it is undefined
    for a number that int64_t does not have; where long double is double a trade
    at the highest price leads there ([average_leaves_int64] of Binary64.v),
    and what is proved of the gateway says nothing about such a conversion. *)

Class LongDouble (F : Type) : Type := {
  ld_zero : F;
  ld_of_integer : Z → F;
  ld_add : F → F → F;
  ld_mul : F → F → F;
  ld_div : F → F → F;
  ld_eqb : F → F → bool;
  ld_truncate : F → Z;          (* static_cast<std::int64_t> *)
  ld_double_text : F → Text     (* std::to_string(static_cast<double>) *)
}.

(** What the gateway relies on: std::to_string of a floating-point number
    prints digits, a point and a sign. *)
Class LongDoubleLaws (F : Type) `{!LongDouble F} : Prop := {
  double_text_printable (x : F) : Fix.soh ∉ ld_double_text x
}.

(* rational numbers, with six digits after the point as std::to_string has *)
#[export] Instance rational_long_double : LongDouble Q := {|
  ld_zero := 0%Q;
  ld_of_integer := inject_Z;
  ld_add := Qplus;
  ld_mul := Qmult;
  ld_div := Qdiv;
  ld_eqb := Qeq_bool;
  ld_truncate x := Z.quot (Qnum x) (Zpos (Qden x));
  ld_double_text x :=
    let millionths := Z.quot (Qnum x * 1000000) (Zpos (Qden x)) in
    to_string (Z.quot millionths 1000000) ++ bytes_of "." ++
    (digit <$> ((λ i, (Z.abs millionths `div` 10 ^ i) `mod` 10) <$> [5; 4; 3; 2; 1; 0]))
|}.

(** ** The structures *)

Module CoreMessage.
Record t : Type := mk { header : Protocol.MessageHeader.t; body : list byte }.
End CoreMessage.

Module PendingKind.
Inductive t : Type := New | Cancel | Replace.
#[global] Instance eq_dec : EqDecision t.
Proof. solve_decision. Defined.
End PendingKind.

Module PendingRequest.
Record t : Type := mk {
  kind : PendingKind.t;
  cl_ord_id : Text;
  orig_cl_ord_id : Text;
  replacement_total_quantity : Z;
  replacement_working_quantity : Z;
  replacement_price : Z
}.
End PendingRequest.

Module OrderState.
Record t (F : Type) : Type := mk {
  numeric_order_id : Z;
  symbol : Protocol.Symbol;
  side : Z;
  order_type : Z;
  time_in_force : Z;
  current_cl_ord_id : Text;
  order_quantity : Z;
  cumulative_quantity : Z;
  leaves_quantity : Z;
  cumulative_notional : F;
  price : Z;
  ord_status : byte
}.
Arguments mk {F}.
Arguments numeric_order_id {F} _.
Arguments symbol {F} _.
Arguments side {F} _.
Arguments order_type {F} _.
Arguments time_in_force {F} _.
Arguments current_cl_ord_id {F} _.
Arguments order_quantity {F} _.
Arguments cumulative_quantity {F} _.
Arguments leaves_quantity {F} _.
Arguments cumulative_notional {F} _.
Arguments price {F} _.
Arguments ord_status {F} _.

(* the assignments the handlers make *)
Definition set_working {F} (leaves : Z) (status : byte) (o : t F) : t F :=
  mk (numeric_order_id o) (symbol o) (side o) (order_type o) (time_in_force o)
     (current_cl_ord_id o) (order_quantity o) (cumulative_quantity o) leaves
     (cumulative_notional o) (price o) status.
Definition set_traded {F} (cumulative leaves : Z) (notional : F) (status : byte) (o : t F) : t F :=
  mk (numeric_order_id o) (symbol o) (side o) (order_type o) (time_in_force o)
     (current_cl_ord_id o) (order_quantity o) cumulative leaves notional (price o) status.
Definition set_replaced {F} (cl_ord_id : Text) (total leaves new_price : Z) (status : byte)
    (o : t F) : t F :=
  mk (numeric_order_id o) (symbol o) (side o) (order_type o) (time_in_force o)
     cl_ord_id total (cumulative_quantity o) leaves (cumulative_notional o) new_price status.
End OrderState.

Module SessionContext.
Section fields.
Context (F : Type).
Record t : Type := mk {
  client_socket : Z;
  core_socket : Z;
  logged_on : bool;
  closing : bool;
  client_comp_id : Text;
  heartbeat_seconds : Z;
  expected_inbound_sequence : Z;
  next_outbound_sequence : Z;
  next_core_sequence : Z;
  fix_receive_buffer : list byte;
  core_receive_buffer : list byte;
  orders : gmap Z (OrderState.t F);
  clord_to_order : gmap Text Z;
  used_clord_ids : gset Text;
  pending : gmap Z (list PendingRequest.t);
  non_resting_awaiting_boundary : gset Z;
  last_self_trade_key : Text;
  self_trade_duplicate_messages_to_ignore : Z;
  last_fix_receive : Z;
  last_fix_send : Z
}.
End fields.
Arguments mk {F}.
Arguments client_socket {F} _.
Arguments core_socket {F} _.
Arguments logged_on {F} _.
Arguments closing {F} _.
Arguments client_comp_id {F} _.
Arguments heartbeat_seconds {F} _.
Arguments expected_inbound_sequence {F} _.
Arguments next_outbound_sequence {F} _.
Arguments next_core_sequence {F} _.
Arguments fix_receive_buffer {F} _.
Arguments core_receive_buffer {F} _.
Arguments orders {F} _.
Arguments clord_to_order {F} _.
Arguments used_clord_ids {F} _.
Arguments pending {F} _.
Arguments non_resting_awaiting_boundary {F} _.
Arguments last_self_trade_key {F} _.
Arguments self_trade_duplicate_messages_to_ignore {F} _.
Arguments last_fix_receive {F} _.
Arguments last_fix_send {F} _.

Section setters.
Context {F : Type}.
Definition set_core_socket (x : Z) (s : t F) : t F :=
  mk (client_socket s) x (logged_on s) (closing s) (client_comp_id s) (heartbeat_seconds s)
     (expected_inbound_sequence s) (next_outbound_sequence s) (next_core_sequence s)
     (fix_receive_buffer s) (core_receive_buffer s) (orders s) (clord_to_order s)
     (used_clord_ids s) (pending s) (non_resting_awaiting_boundary s) (last_self_trade_key s)
     (self_trade_duplicate_messages_to_ignore s) (last_fix_receive s) (last_fix_send s).
Definition set_logged_on (x : bool) (s : t F) : t F :=
  mk (client_socket s) (core_socket s) x (closing s) (client_comp_id s) (heartbeat_seconds s)
     (expected_inbound_sequence s) (next_outbound_sequence s) (next_core_sequence s)
     (fix_receive_buffer s) (core_receive_buffer s) (orders s) (clord_to_order s)
     (used_clord_ids s) (pending s) (non_resting_awaiting_boundary s) (last_self_trade_key s)
     (self_trade_duplicate_messages_to_ignore s) (last_fix_receive s) (last_fix_send s).
Definition set_closing (x : bool) (s : t F) : t F :=
  mk (client_socket s) (core_socket s) (logged_on s) x (client_comp_id s) (heartbeat_seconds s)
     (expected_inbound_sequence s) (next_outbound_sequence s) (next_core_sequence s)
     (fix_receive_buffer s) (core_receive_buffer s) (orders s) (clord_to_order s)
     (used_clord_ids s) (pending s) (non_resting_awaiting_boundary s) (last_self_trade_key s)
     (self_trade_duplicate_messages_to_ignore s) (last_fix_receive s) (last_fix_send s).
Definition set_client_comp_id (x : Text) (s : t F) : t F :=
  mk (client_socket s) (core_socket s) (logged_on s) (closing s) x (heartbeat_seconds s)
     (expected_inbound_sequence s) (next_outbound_sequence s) (next_core_sequence s)
     (fix_receive_buffer s) (core_receive_buffer s) (orders s) (clord_to_order s)
     (used_clord_ids s) (pending s) (non_resting_awaiting_boundary s) (last_self_trade_key s)
     (self_trade_duplicate_messages_to_ignore s) (last_fix_receive s) (last_fix_send s).
Definition set_heartbeat_seconds (x : Z) (s : t F) : t F :=
  mk (client_socket s) (core_socket s) (logged_on s) (closing s) (client_comp_id s) x
     (expected_inbound_sequence s) (next_outbound_sequence s) (next_core_sequence s)
     (fix_receive_buffer s) (core_receive_buffer s) (orders s) (clord_to_order s)
     (used_clord_ids s) (pending s) (non_resting_awaiting_boundary s) (last_self_trade_key s)
     (self_trade_duplicate_messages_to_ignore s) (last_fix_receive s) (last_fix_send s).
Definition set_expected_inbound_sequence (x : Z) (s : t F) : t F :=
  mk (client_socket s) (core_socket s) (logged_on s) (closing s) (client_comp_id s)
     (heartbeat_seconds s) x (next_outbound_sequence s) (next_core_sequence s)
     (fix_receive_buffer s) (core_receive_buffer s) (orders s) (clord_to_order s)
     (used_clord_ids s) (pending s) (non_resting_awaiting_boundary s) (last_self_trade_key s)
     (self_trade_duplicate_messages_to_ignore s) (last_fix_receive s) (last_fix_send s).
Definition set_next_outbound_sequence (x : Z) (s : t F) : t F :=
  mk (client_socket s) (core_socket s) (logged_on s) (closing s) (client_comp_id s)
     (heartbeat_seconds s) (expected_inbound_sequence s) x (next_core_sequence s)
     (fix_receive_buffer s) (core_receive_buffer s) (orders s) (clord_to_order s)
     (used_clord_ids s) (pending s) (non_resting_awaiting_boundary s) (last_self_trade_key s)
     (self_trade_duplicate_messages_to_ignore s) (last_fix_receive s) (last_fix_send s).
Definition set_next_core_sequence (x : Z) (s : t F) : t F :=
  mk (client_socket s) (core_socket s) (logged_on s) (closing s) (client_comp_id s)
     (heartbeat_seconds s) (expected_inbound_sequence s) (next_outbound_sequence s) x
     (fix_receive_buffer s) (core_receive_buffer s) (orders s) (clord_to_order s)
     (used_clord_ids s) (pending s) (non_resting_awaiting_boundary s) (last_self_trade_key s)
     (self_trade_duplicate_messages_to_ignore s) (last_fix_receive s) (last_fix_send s).
Definition set_fix_receive_buffer (x : list byte) (s : t F) : t F :=
  mk (client_socket s) (core_socket s) (logged_on s) (closing s) (client_comp_id s)
     (heartbeat_seconds s) (expected_inbound_sequence s) (next_outbound_sequence s)
     (next_core_sequence s) x (core_receive_buffer s) (orders s) (clord_to_order s)
     (used_clord_ids s) (pending s) (non_resting_awaiting_boundary s) (last_self_trade_key s)
     (self_trade_duplicate_messages_to_ignore s) (last_fix_receive s) (last_fix_send s).
Definition set_core_receive_buffer (x : list byte) (s : t F) : t F :=
  mk (client_socket s) (core_socket s) (logged_on s) (closing s) (client_comp_id s)
     (heartbeat_seconds s) (expected_inbound_sequence s) (next_outbound_sequence s)
     (next_core_sequence s) (fix_receive_buffer s) x (orders s) (clord_to_order s)
     (used_clord_ids s) (pending s) (non_resting_awaiting_boundary s) (last_self_trade_key s)
     (self_trade_duplicate_messages_to_ignore s) (last_fix_receive s) (last_fix_send s).
Definition set_orders (x : gmap Z (OrderState.t F)) (s : t F) : t F :=
  mk (client_socket s) (core_socket s) (logged_on s) (closing s) (client_comp_id s)
     (heartbeat_seconds s) (expected_inbound_sequence s) (next_outbound_sequence s)
     (next_core_sequence s) (fix_receive_buffer s) (core_receive_buffer s) x (clord_to_order s)
     (used_clord_ids s) (pending s) (non_resting_awaiting_boundary s) (last_self_trade_key s)
     (self_trade_duplicate_messages_to_ignore s) (last_fix_receive s) (last_fix_send s).
Definition set_clord_to_order (x : gmap Text Z) (s : t F) : t F :=
  mk (client_socket s) (core_socket s) (logged_on s) (closing s) (client_comp_id s)
     (heartbeat_seconds s) (expected_inbound_sequence s) (next_outbound_sequence s)
     (next_core_sequence s) (fix_receive_buffer s) (core_receive_buffer s) (orders s) x
     (used_clord_ids s) (pending s) (non_resting_awaiting_boundary s) (last_self_trade_key s)
     (self_trade_duplicate_messages_to_ignore s) (last_fix_receive s) (last_fix_send s).
Definition set_used_clord_ids (x : gset Text) (s : t F) : t F :=
  mk (client_socket s) (core_socket s) (logged_on s) (closing s) (client_comp_id s)
     (heartbeat_seconds s) (expected_inbound_sequence s) (next_outbound_sequence s)
     (next_core_sequence s) (fix_receive_buffer s) (core_receive_buffer s) (orders s)
     (clord_to_order s) x (pending s) (non_resting_awaiting_boundary s) (last_self_trade_key s)
     (self_trade_duplicate_messages_to_ignore s) (last_fix_receive s) (last_fix_send s).
Definition set_pending (x : gmap Z (list PendingRequest.t)) (s : t F) : t F :=
  mk (client_socket s) (core_socket s) (logged_on s) (closing s) (client_comp_id s)
     (heartbeat_seconds s) (expected_inbound_sequence s) (next_outbound_sequence s)
     (next_core_sequence s) (fix_receive_buffer s) (core_receive_buffer s) (orders s)
     (clord_to_order s) (used_clord_ids s) x (non_resting_awaiting_boundary s)
     (last_self_trade_key s) (self_trade_duplicate_messages_to_ignore s) (last_fix_receive s)
     (last_fix_send s).
Definition set_non_resting_awaiting_boundary (x : gset Z) (s : t F) : t F :=
  mk (client_socket s) (core_socket s) (logged_on s) (closing s) (client_comp_id s)
     (heartbeat_seconds s) (expected_inbound_sequence s) (next_outbound_sequence s)
     (next_core_sequence s) (fix_receive_buffer s) (core_receive_buffer s) (orders s)
     (clord_to_order s) (used_clord_ids s) (pending s) x (last_self_trade_key s)
     (self_trade_duplicate_messages_to_ignore s) (last_fix_receive s) (last_fix_send s).
Definition set_last_self_trade_key (x : Text) (s : t F) : t F :=
  mk (client_socket s) (core_socket s) (logged_on s) (closing s) (client_comp_id s)
     (heartbeat_seconds s) (expected_inbound_sequence s) (next_outbound_sequence s)
     (next_core_sequence s) (fix_receive_buffer s) (core_receive_buffer s) (orders s)
     (clord_to_order s) (used_clord_ids s) (pending s) (non_resting_awaiting_boundary s) x
     (self_trade_duplicate_messages_to_ignore s) (last_fix_receive s) (last_fix_send s).
Definition set_self_trade_duplicate_messages_to_ignore (x : Z) (s : t F) : t F :=
  mk (client_socket s) (core_socket s) (logged_on s) (closing s) (client_comp_id s)
     (heartbeat_seconds s) (expected_inbound_sequence s) (next_outbound_sequence s)
     (next_core_sequence s) (fix_receive_buffer s) (core_receive_buffer s) (orders s)
     (clord_to_order s) (used_clord_ids s) (pending s) (non_resting_awaiting_boundary s)
     (last_self_trade_key s) x (last_fix_receive s) (last_fix_send s).
Definition set_last_fix_receive (x : Z) (s : t F) : t F :=
  mk (client_socket s) (core_socket s) (logged_on s) (closing s) (client_comp_id s)
     (heartbeat_seconds s) (expected_inbound_sequence s) (next_outbound_sequence s)
     (next_core_sequence s) (fix_receive_buffer s) (core_receive_buffer s) (orders s)
     (clord_to_order s) (used_clord_ids s) (pending s) (non_resting_awaiting_boundary s)
     (last_self_trade_key s) (self_trade_duplicate_messages_to_ignore s) x (last_fix_send s).
Definition set_last_fix_send (x : Z) (s : t F) : t F :=
  mk (client_socket s) (core_socket s) (logged_on s) (closing s) (client_comp_id s)
     (heartbeat_seconds s) (expected_inbound_sequence s) (next_outbound_sequence s)
     (next_core_sequence s) (fix_receive_buffer s) (core_receive_buffer s) (orders s)
     (clord_to_order s) (used_clord_ids s) (pending s) (non_resting_awaiting_boundary s)
     (last_self_trade_key s) (self_trade_duplicate_messages_to_ignore s) (last_fix_receive s) x.
End setters.
End SessionContext.

Module FixGatewayConfig.
Record t : Type := mk {
  listen_port : Z;
  exchange_host : string;
  exchange_port : Z;
  sender_comp_id : Text;
  default_heartbeat_seconds : Z
}.
End FixGatewayConfig.

(** What a gateway transmits, in order. *)
Inductive Transmission : Type :=
  | ToClient (wire : list byte)
  | ToCore (message : list byte).

(** A session with the two counters of its gateway and what it has sent. *)
Module Gateway.
Record t (F : Type) : Type := mk {
  session : SessionContext.t F;
  next_numeric_order_id_ : Z;
  next_exec_id_ : Z;
  sent : list Transmission
}.
Arguments mk {F}.
Arguments session {F} _.
Arguments next_numeric_order_id_ {F} _.
Arguments next_exec_id_ {F} _.
Arguments sent {F} _.
Definition set_session {F} (x : SessionContext.t F) (g : t F) : t F :=
  mk x (next_numeric_order_id_ g) (next_exec_id_ g) (sent g).
Definition set_next_numeric_order_id {F} (x : Z) (g : t F) : t F :=
  mk (session g) x (next_exec_id_ g) (sent g).
Definition set_next_exec_id {F} (x : Z) (g : t F) : t F :=
  mk (session g) (next_numeric_order_id_ g) x (sent g).
Definition transmit {F} (x : Transmission) (g : t F) : t F :=
  mk (session g) (next_numeric_order_id_ g) (next_exec_id_ g) (sent g ++ [x]).
End Gateway.

(** The world around a session: whether the sockets take a message, what
    connecting gives, the clocks, and the order an unordered_set is iterated
    in.  Each may depend on everything that happened. *)
Class World (F : Type) : Type := {
  client_accepts : Gateway.t F → bool;
  core_accepts : Gateway.t F → bool;
  connect_to_exchange : Gateway.t F → Z;
  now_nanoseconds : Gateway.t F → Z;
  steady_now : Gateway.t F → Z;
  utc_timestamp : Gateway.t F → Text;
  iteration_order : list Z → list Z
}.

(** What the gateway relies on: the system clock is an unsigned 64-bit number,
    a timestamp prints without a separator, an iteration visits each element
    once. *)
Class WorldLaws (F : Type) `{!World F} : Prop := {
  now_in_range g : in_u64 (now_nanoseconds g);
  timestamp_printable g : Fix.soh ∉ utc_timestamp g;
  iteration_permutes l : iteration_order l ≡ₚ l
}.
