(* ===== verification/FixGateway.v ===== *)
(** * The FIX gateway (src/fix_gateway.cpp)

    The translation of FIX orders into the binary protocol ([FixBridge]) and a
    session: what it does with each message of the client and of the core, and
    one turn of its poll loop.  A handler runs in the state of [FixState];
    its result is the code's, false when a socket failed. *)
From S2P Require Import Prelude Bytes Numerals Protocol Fix FixState.

(** ** required_field: the value and the error text, which a missing field
    overwrites *)

Definition required_field (message : Fix.Message.t) (tag : Z) (error : Text) : option Text * Text :=
  match Fix.get tag message with
  | None | Some [] => (None, bytes_of "required FIX tag " ++ to_string tag ++ bytes_of " is missing")
  | Some value => (Some value, error)
  end.

Definition symbol_text (symbol : Protocol.Symbol) : Text :=
  String.list_byte_of_string (Protocol.symbol_to_string symbol).
Definition make_symbol (text : Text) : Protocol.Symbol :=
  Protocol.make_symbol (String.string_of_list_byte text).

Module FixBridge.

Module NewOrderTranslation.
Record t : Type := mk { request : Protocol.NewOrderRequest.t; cl_ord_id : Text }.
End NewOrderTranslation.

Definition translate_side (fix_value : Text) : option Z :=
  if bool_decide (fix_value = bytes_of "1") then Some Protocol.Side_Buy
  else if bool_decide (fix_value = bytes_of "2") then Some Protocol.Side_Sell
  else None.

Definition translate_order_type (fix_value : Text) : option Z :=
  if bool_decide (fix_value = bytes_of "1") then Some Protocol.OrderType_Market
  else if bool_decide (fix_value = bytes_of "2") then Some Protocol.OrderType_Limit
  else None.

Definition translate_time_in_force (fix_value : Text) : option Z :=
  if bool_decide (fix_value = bytes_of "1") then Some Protocol.TimeInForce_GoodTillCancel
  else if bool_decide (fix_value = bytes_of "3") then Some Protocol.TimeInForce_ImmediateOrCancel
  else if bool_decide (fix_value = bytes_of "4") then Some Protocol.TimeInForce_FillOrKill
  else None.

(* *quantity == 0 || *quantity > max of uint32 *)
Definition is_order_quantity (quantity : Z) : bool :=
  negb (quantity =? 0) && (quantity <=? 2 ^ 32 - 1).

(* the price of a limit order: an error text, or the price *)
Definition translate_price (message : Fix.Message.t) (order_type : Z) (error : Text) : Text + Z :=
  if order_type =? Protocol.OrderType_Limit then
    match required_field message 44 error with
    | (None, error') => inl error'
    | (Some price_text, _) =>
        match Fix.parse_i64 price_text with
        | Some parsed_price =>
            if parsed_price <=? 0 then inl (bytes_of "Price must be a positive integer tick value")
            else inr parsed_price
        | None => inl (bytes_of "Price must be a positive integer tick value")
        end
    end
  else inr 0.

Definition translate_tif (message : Fix.Message.t) (order_type : Z) : Text + Z :=
  let default := if order_type =? Protocol.OrderType_Market
                 then Protocol.TimeInForce_ImmediateOrCancel
                 else Protocol.TimeInForce_GoodTillCancel in
  let chosen := match Fix.get 59 message with
                | None => Some default
                | Some tif => translate_time_in_force tif
                end in
  match chosen with
  | None => inl (bytes_of "unsupported TimeInForce; use 59=1 (GTC), 3 (IOC), or 4 (FOK)")
  | Some time_in_force =>
      inr (if (order_type =? Protocol.OrderType_Market) &&
              (time_in_force =? Protocol.TimeInForce_GoodTillCancel)
           then Protocol.TimeInForce_ImmediateOrCancel else time_in_force)
  end.

Definition translate_new_order_single (message : Fix.Message.t) (numeric_order_id timestamp : Z)
    (error : Text) : Text + NewOrderTranslation.t :=
  let '(cl_ord_id, error) := required_field message 11 error in
  let '(symbol_text, error) := required_field message 55 error in
  let '(side_text_value, error) := required_field message 54 error in
  let '(quantity_text, error) := required_field message 38 error in
  let '(order_type_text, error) := required_field message 40 error in
  match cl_ord_id, symbol_text, side_text_value, quantity_text, order_type_text with
  | Some cl_ord_id, Some symbol_text, Some side_text_value, Some quantity_text, Some order_type_text =>
      let symbol := make_symbol symbol_text in
      if negb (Protocol.is_valid_symbol symbol)
      then inl (bytes_of "invalid Symbol; use 1-8 uppercase A-Z/0-9/./- characters")
      else
        match translate_side side_text_value with
        | None => inl (bytes_of "unsupported Side; use 54=1 (Buy) or 54=2 (Sell)")
        | Some side =>
            match translate_order_type order_type_text with
            | None => inl (bytes_of "unsupported OrdType; use 40=1 (Market) or 40=2 (Limit)")
            | Some order_type =>
                match Fix.parse_u64 quantity_text with
                | None => inl (bytes_of "invalid OrderQty")
                | Some quantity =>
                    if negb (is_order_quantity quantity) then inl (bytes_of "invalid OrderQty")
                    else
                      match translate_price message order_type error with
                      | inl error => inl error
                      | inr price =>
                          match translate_tif message order_type with
                          | inl error => inl error
                          | inr time_in_force =>
                              inr (NewOrderTranslation.mk
                                (Protocol.NewOrderRequest.mk numeric_order_id timestamp price quantity
                                   side order_type time_in_force symbol) cl_ord_id)
                          end
                      end
                end
            end
        end
  | _, _, _, _, _ => inl error
  end.
End FixBridge.

Module FixGateway.
Section gateway.
Context {F : Type} `{!LongDouble F} `{!World F} (config : FixGatewayConfig.t).

Abbreviation Handler A := (M (Gateway.t F) A).

Definition session : Handler (SessionContext.t F) := λ g, (Ok (Gateway.session g), g).
Definition on_session (f : SessionContext.t F → SessionContext.t F) : Handler unit :=
  modify (λ g, Gateway.set_session (f (Gateway.session g)) g).

(** ** Sending to the client *)

(* a socket that fails is closed by the caller of the handler *)
Definition send_fix_wire (wire : list byte) : Handler bool :=
  g <- get ;;
  if negb (client_accepts g) then ret false
  else
    modify (Gateway.transmit (ToClient wire)) ;;;
    on_session (SessionContext.set_last_fix_send (steady_now g)) ;;;
    ret true.

Definition build_session_message (message_type : Text) (fields : list Fix.Field.t) :
    Handler (list byte) :=
  s <- session ;;
  let sequence := SessionContext.next_outbound_sequence s in
  on_session (SessionContext.set_next_outbound_sequence (u64 (sequence + 1))) ;;;
  g <- get ;;
  let message := Fix.add 35 message_type (Fix.Message.mk []) in
  let message := Fix.add 34 (to_string sequence) message in
  let message := Fix.add 49 (FixGatewayConfig.sender_comp_id config) message in
  let message := Fix.add 56
    (if bool_decide (SessionContext.client_comp_id s = []) then bytes_of "UNKNOWN"
     else SessionContext.client_comp_id s) message in
  let message := Fix.add 52 (utc_timestamp g) message in
  ret (Fix.encode
    (foldl (λ message field, Fix.add (Fix.Field.tag field) (Fix.Field.value field) message)
       message fields)).

Definition send_session_message (message_type : Text) (fields : list Fix.Field.t) : Handler bool :=
  wire <- build_session_message message_type fields ;;
  send_fix_wire wire.

Definition fetch_exec_id : Handler Z :=
  g <- get ;;
  modify (Gateway.set_next_exec_id (u64 (Gateway.next_exec_id_ g + 1))) ;;;
  ret (Gateway.next_exec_id_ g).

Definition side_text (side : Z) : Text := if side =? Protocol.Side_Buy then bytes_of "1" else bytes_of "2".
Definition ord_type_text (type : Z) : Text :=
  if type =? Protocol.OrderType_Limit then bytes_of "2" else bytes_of "1".
Definition tif_text (tif : Z) : Text :=
  if tif =? Protocol.TimeInForce_GoodTillCancel then bytes_of "1"
  else if tif =? Protocol.TimeInForce_ImmediateOrCancel then bytes_of "3"
  else if tif =? Protocol.TimeInForce_FillOrKill then bytes_of "4"
  else bytes_of "1".

(* the while loop over trailing zeros, on the text reversed *)
Fixpoint strip_zeros (reversed : Text) : Text :=
  match reversed with
  | c :: (_ :: _) as rest => if bool_decide (c = x30) then strip_zeros rest else reversed
  | _ => reversed
  end.
Definition strip_point (reversed : Text) : Text :=
  match reversed with
  | c :: rest => if bool_decide (c = x2e) then rest else reversed
  | [] => []
  end.

Definition average_price_text (order : OrderState.t F) : Text :=
  if OrderState.cumulative_quantity order =? 0 then bytes_of "0"
  else
    let average := ld_div (OrderState.cumulative_notional order)
                     (ld_of_integer (OrderState.cumulative_quantity order)) in
    let rounded := ld_truncate average in
    if ld_eqb average (ld_of_integer rounded) then to_string rounded
    else reverse (strip_point (strip_zeros (reverse (ld_double_text average)))).

Definition optional_field (tag : Z) (value : option Text) : list Fix.Field.t :=
  match value with Some value => [Fix.Field.mk tag value] | None => [] end.

Definition execution_report_fields (order : OrderState.t F) (cl_ord_id exec_type : Text)
    (ord_status : byte) (orig_cl_ord_id : option Text) (last_quantity last_price : option Z)
    (text : option Text) (exec_id : Z) : list Fix.Field.t :=
  [Fix.Field.mk 37 (to_string (OrderState.numeric_order_id order)); Fix.Field.mk 11 cl_ord_id] ++
  optional_field 41 orig_cl_ord_id ++
  [Fix.Field.mk 17 (to_string exec_id);
   Fix.Field.mk 150 exec_type;
   Fix.Field.mk 39 [ord_status];
   Fix.Field.mk 55 (symbol_text (OrderState.symbol order));
   Fix.Field.mk 54 (side_text (OrderState.side order));
   Fix.Field.mk 38 (to_string (OrderState.order_quantity order));
   Fix.Field.mk 40 (ord_type_text (OrderState.order_type order))] ++
  optional_field 44 (if OrderState.order_type order =? Protocol.OrderType_Limit
                     then Some (to_string (OrderState.price order)) else None) ++
  [Fix.Field.mk 59 (tif_text (OrderState.time_in_force order));
   Fix.Field.mk 14 (to_string (OrderState.cumulative_quantity order));
   Fix.Field.mk 151 (to_string (OrderState.leaves_quantity order));
   Fix.Field.mk 6 (average_price_text order)] ++
  optional_field 32 (to_string <$> last_quantity) ++
  optional_field 31 (to_string <$> last_price) ++
  optional_field 58 text.

Definition send_execution_report (order : OrderState.t F) (cl_ord_id exec_type : Text)
    (ord_status : byte) (orig_cl_ord_id : option Text) (last_quantity last_price : option Z)
    (text : option Text) : Handler bool :=
  exec_id <- fetch_exec_id ;;
  send_session_message (bytes_of "8")
    (execution_report_fields order cl_ord_id exec_type ord_status orig_cl_ord_id last_quantity
       last_price text exec_id).

Definition send_new_reject (cl_ord_id symbol side quantity reason : Text) : Handler bool :=
  exec_id <- fetch_exec_id ;;
  send_session_message (bytes_of "8")
    [Fix.Field.mk 37 (bytes_of "NONE"); Fix.Field.mk 11 cl_ord_id; Fix.Field.mk 17 (to_string exec_id);
     Fix.Field.mk 150 (bytes_of "8"); Fix.Field.mk 39 (bytes_of "8"); Fix.Field.mk 55 symbol;
     Fix.Field.mk 54 side; Fix.Field.mk 38 quantity; Fix.Field.mk 14 (bytes_of "0");
     Fix.Field.mk 151 (bytes_of "0"); Fix.Field.mk 6 (bytes_of "0"); Fix.Field.mk 58 reason].

Definition send_cancel_reject (order : option (OrderState.t F)) (cl_ord_id orig_cl_ord_id : Text)
    (kind : PendingKind.t) (reason : Text) : Handler bool :=
  send_session_message (bytes_of "9")
    [Fix.Field.mk 37 (match order with
                      | Some o => to_string (OrderState.numeric_order_id o)
                      | None => bytes_of "NONE"
                      end);
     Fix.Field.mk 11 cl_ord_id; Fix.Field.mk 41 orig_cl_ord_id;
     Fix.Field.mk 39 (match order with Some o => [OrderState.ord_status o] | None => bytes_of "8" end);
     Fix.Field.mk 434 (if decide (kind = PendingKind.Cancel) then bytes_of "1" else bytes_of "2");
     Fix.Field.mk 102 (bytes_of "99"); Fix.Field.mk 58 reason].

Definition send_session_reject (reference_sequence : Z) (reason : Text)
    (reference_message_type : option Text) : Handler bool :=
  send_session_message (bytes_of "3")
    ([Fix.Field.mk 45 (to_string reference_sequence); Fix.Field.mk 373 (bytes_of "99");
      Fix.Field.mk 58 reason] ++ optional_field 372 reference_message_type).

(** ** The connection to the core *)

Definition send_core_request (type : Z) (body : list byte) : Handler bool :=
  s <- session ;;
  let sequence := SessionContext.next_core_sequence s in
  on_session (SessionContext.set_next_core_sequence (u64 (sequence + 1))) ;;;
  let header := Protocol.MessageHeader.mk Protocol.protocol_magic Protocol.protocol_version type
                  (u32 (Z.of_nat (length body))) sequence in
  g <- get ;;
  if negb (core_accepts g) then ret false
  else modify (Gateway.transmit (ToCore (Protocol.encode_header header ++ body))) ;;; ret true.

(* on the receive buffer: a whole message and the rest, or no message and what
   is left of the buffer *)
Definition extract_core_message (buffer : list byte) : option CoreMessage.t * list byte :=
  if (length buffer <? Protocol.header_size)%nat then (None, buffer)
  else
    match Protocol.decode_header (take Protocol.header_size buffer) with
    | None => (None, [])
    | Some header =>
        let body_size := Protocol.MessageHeader.body_size header in
        if body_size >? 2 ^ 64 - 1 - Z.of_nat Protocol.header_size then (None, [])
        else
          let total_size := Z.of_nat Protocol.header_size + body_size in
          if Z.of_nat (length buffer) <? total_size then (None, buffer)
          else
            (Some (CoreMessage.mk header
               (take (Z.to_nat body_size) (drop Protocol.header_size buffer))),
             drop (Z.to_nat total_size) buffer)
    end.

(** ** Checks *)

Definition sequence_number (message : Fix.Message.t) : option Z :=
  match Fix.get 34 message with
  | None => None
  | Some value => Fix.parse_u64 value
  end.

(* the error text of a message whose identifiers are wrong *)
Definition validate_comp_ids (message : Fix.Message.t) (s : SessionContext.t F) : option Text :=
  match Fix.get 49 message, Fix.get 56 message with
  | Some sender, Some target =>
      if negb (bool_decide (target = FixGatewayConfig.sender_comp_id config))
      then Some (bytes_of "TargetCompID does not match gateway")
      else if SessionContext.logged_on s &&
              negb (bool_decide (sender = SessionContext.client_comp_id s))
      then Some (bytes_of "SenderCompID changed during session")
      else None
  | _, _ => Some (bytes_of "SenderCompID (49) and TargetCompID (56) are required")
  end.

(* emplace: was it new? *)
Definition ensure_unique_clordid (cl_ord_id : Text) : Handler bool :=
  s <- session ;;
  if decide (cl_ord_id ∈ SessionContext.used_clord_ids s) then ret false
  else
    on_session (SessionContext.set_used_clord_ids ({[cl_ord_id]} ∪ SessionContext.used_clord_ids s)) ;;;
    ret true.

Definition lookup_order_id (s : SessionContext.t F) (cl_ord_id : Text) : option Z :=
  SessionContext.clord_to_order s !! cl_ord_id.

(** ** Pending requests and orders *)

Definition on_orders (f : gmap Z (OrderState.t F) → gmap Z (OrderState.t F)) : Handler unit :=
  on_session (λ s, SessionContext.set_orders (f (SessionContext.orders s)) s).
Definition on_clords (f : gmap Text Z → gmap Text Z) : Handler unit :=
  on_session (λ s, SessionContext.set_clord_to_order (f (SessionContext.clord_to_order s)) s).
Definition on_pending (f : gmap Z (list PendingRequest.t) → gmap Z (list PendingRequest.t)) :
    Handler unit :=
  on_session (λ s, SessionContext.set_pending (f (SessionContext.pending s)) s).

(* emplace of a map *)
Definition emplace {K} `{Countable K} {V} (k : K) (v : V) (m : gmap K V) : gmap K V :=
  match m !! k with Some _ => m | None => <[k := v]> m end.

(* pending[id].push_back and pop_back: operator[] creates the queue *)
Definition push_pending (order_id : Z) (request : PendingRequest.t) : Handler unit :=
  on_pending (λ p, <[order_id := default [] (p !! order_id) ++ [request]]> p).
Definition pop_back_pending (order_id : Z) : Handler unit :=
  on_pending (λ p, <[order_id := removelast (default [] (p !! order_id))]> p).

(** ** Messages of the client *)

Definition field_or (message : Fix.Message.t) (tag : Z) (default : Text) : Text :=
  match Fix.get tag message with Some value => value | None => default end.

Definition fetch_numeric_order_id : Handler Z :=
  g <- get ;;
  modify (Gateway.set_next_numeric_order_id (u64 (Gateway.next_numeric_order_id_ g + 1))) ;;;
  ret (Gateway.next_numeric_order_id_ g).

(* the order is recorded, the request sent; a failed connection takes it back *)
Definition submit_new_order (translated : FixBridge.NewOrderTranslation.t) (numeric_order_id : Z) :
    Handler bool :=
  let request := FixBridge.NewOrderTranslation.request translated in
  let cl_ord_id := FixBridge.NewOrderTranslation.cl_ord_id translated in
  let order := OrderState.mk numeric_order_id
    (Protocol.NewOrderRequest.symbol request) (Protocol.NewOrderRequest.side request)
    (Protocol.NewOrderRequest.order_type request) (Protocol.NewOrderRequest.time_in_force request)
    cl_ord_id (Protocol.NewOrderRequest.quantity request) 0 (Protocol.NewOrderRequest.quantity request)
    ld_zero (Protocol.NewOrderRequest.price request) x30 in
  on_orders (emplace numeric_order_id order) ;;;
  on_clords (emplace cl_ord_id numeric_order_id) ;;;
  push_pending numeric_order_id (PendingRequest.mk PendingKind.New cl_ord_id [] 0 0 0) ;;;
  delivered <- send_core_request Protocol.MessageType.NewOrder (Protocol.encode_new_order request) ;;
  if negb delivered then
    pop_back_pending numeric_order_id ;;;
    on_clords (delete cl_ord_id) ;;;
    on_orders (delete numeric_order_id) ;;;
    send_new_reject cl_ord_id (symbol_text (Protocol.NewOrderRequest.symbol request))
      (side_text (Protocol.NewOrderRequest.side request))
      (to_string (Protocol.NewOrderRequest.quantity request))
      (bytes_of "core exchange connection failed")
  else ret true.

Definition handle_new_order (message : Fix.Message.t) : Handler bool :=
  let cl_ord_id := field_or message 11 (bytes_of "MISSING") in
  let symbol := field_or message 55 (bytes_of "UNKNOWN") in
  let side := field_or message 54 (bytes_of "?") in
  let quantity := field_or message 38 (bytes_of "0") in
  unique <- match Fix.get 11 message with
            | Some value => ensure_unique_clordid value
            | None => ret true
            end ;;
  if negb unique then send_new_reject cl_ord_id symbol side quantity (bytes_of "duplicate ClOrdID")
  else
    numeric_order_id <- fetch_numeric_order_id ;;
    g <- get ;;
    match FixBridge.translate_new_order_single message numeric_order_id (now_nanoseconds g) [] with
    | inl error => send_new_reject cl_ord_id symbol side quantity error
    | inr translated => submit_new_order translated numeric_order_id
    end.

(* what cancel and replace do first: the working order a request names; the
   reject, which ends the handler, or the order and the two identifiers *)
Definition find_working_order (message : Fix.Message.t) (kind : PendingKind.t) :
    Handler (bool + (OrderState.t F * Z * Text * Text)) :=
  let reject order cl_ord_id orig_cl_ord_id reason :=
    sent <- send_cancel_reject order cl_ord_id orig_cl_ord_id kind reason ;; ret (inl sent) in
  let '(cl_ord_id, error) := required_field message 11 [] in
  let '(orig_cl_ord_id, error) := required_field message 41 error in
  match cl_ord_id, orig_cl_ord_id with
  | Some cl_ord_id, Some orig_cl_ord_id =>
      unique <- ensure_unique_clordid cl_ord_id ;;
      if negb unique then reject None cl_ord_id orig_cl_ord_id (bytes_of "duplicate ClOrdID")
      else
        s <- session ;;
        match lookup_order_id s orig_cl_ord_id with
        | None => reject None cl_ord_id orig_cl_ord_id (bytes_of "unknown OrigClOrdID")
        | Some numeric_order_id =>
            match SessionContext.orders s !! numeric_order_id with
            | None => reject None cl_ord_id orig_cl_ord_id (bytes_of "order is no longer working")
            | Some order =>
                if OrderState.leaves_quantity order =? 0
                then reject (Some order) cl_ord_id orig_cl_ord_id (bytes_of "order is no longer working")
                else ret (inr (order, numeric_order_id, cl_ord_id, orig_cl_ord_id))
            end
        end
  | _, _ =>
      reject None (default (bytes_of "MISSING") cl_ord_id) (default (bytes_of "MISSING") orig_cl_ord_id)
        error
  end.

(* the request is recorded and sent; a failed connection takes it back *)
Definition submit_request (order : OrderState.t F) (numeric_order_id : Z) (pending : PendingRequest.t)
    (type : Z) (body : list byte) : Handler bool :=
  push_pending numeric_order_id pending ;;;
  delivered <- send_core_request type body ;;
  if negb delivered then
    pop_back_pending numeric_order_id ;;;
    send_cancel_reject (Some order) (PendingRequest.cl_ord_id pending)
      (PendingRequest.orig_cl_ord_id pending) (PendingRequest.kind pending)
      (bytes_of "core exchange connection failed")
  else ret true.

Definition handle_cancel (message : Fix.Message.t) : Handler bool :=
  found <- find_working_order message PendingKind.Cancel ;;
  match found with
  | inl sent => ret sent
  | inr (order, numeric_order_id, cl_ord_id, orig_cl_ord_id) =>
      g <- get ;;
      submit_request order numeric_order_id
        (PendingRequest.mk PendingKind.Cancel cl_ord_id orig_cl_ord_id 0 0 0)
        Protocol.MessageType.CancelOrder
        (Protocol.encode_cancel_order
           (Protocol.CancelOrderRequest.mk numeric_order_id (now_nanoseconds g)
              (OrderState.symbol order)))
  end.

(* the checks of a replacement: an error, or the new total quantity and price *)
Definition check_replacement (message : Fix.Message.t) (order : OrderState.t F) : Text + (Z * Z) :=
  let '(symbol, error) := required_field message 55 [] in
  let '(quantity_text, error) := required_field message 38 error in
  let '(price_text, error) := required_field message 44 error in
  match symbol, quantity_text, price_text with
  | Some symbol, Some quantity_text, Some price_text =>
      if negb (bool_decide (symbol = symbol_text (OrderState.symbol order)))
      then inl (bytes_of "Symbol cannot change on replace")
      else if negb (OrderState.order_type order =? Protocol.OrderType_Limit)
      then inl (bytes_of "only working limit orders can be replaced")
      else
        let new_price := Fix.parse_i64 price_text in
        match Fix.parse_u64 quantity_text with
        | None => inl (bytes_of "invalid OrderQty")
        | Some total_quantity =>
            if negb (FixBridge.is_order_quantity total_quantity) then inl (bytes_of "invalid OrderQty")
            else
              match new_price with
              | None => inl (bytes_of "invalid Price")
              | Some new_price =>
                  if new_price <=? 0 then inl (bytes_of "invalid Price")
                  else if total_quantity <=? OrderState.cumulative_quantity order
                  then inl (bytes_of "replacement OrderQty must exceed CumQty")
                  else
                    match Fix.get 54 message with
                    | None => inr (total_quantity, new_price)
                    | Some side =>
                        if bool_decide (FixBridge.translate_side side = Some (OrderState.side order))
                        then inr (total_quantity, new_price)
                        else inl (bytes_of "Side cannot change on replace")
                    end
              end
        end
  | _, _, _ => inl error
  end.

(* the request of a replacement that passed the checks *)
Definition submit_replacement (order : OrderState.t F) (cl_ord_id orig_cl_ord_id : Text)
    (total_quantity new_price : Z) : Handler bool :=
  let working_quantity := u64 (total_quantity - OrderState.cumulative_quantity order) in
  g <- get ;;
  submit_request order (OrderState.numeric_order_id order)
    (PendingRequest.mk PendingKind.Replace cl_ord_id orig_cl_ord_id total_quantity
       working_quantity new_price)
    Protocol.MessageType.ReplaceOrder
    (Protocol.encode_replace_order
       (Protocol.ReplaceOrderRequest.mk (OrderState.numeric_order_id order)
          (now_nanoseconds g) new_price working_quantity (OrderState.symbol order))).

Definition handle_replace (message : Fix.Message.t) : Handler bool :=
  found <- find_working_order message PendingKind.Replace ;;
  match found with
  | inl sent => ret sent
  | inr (order, numeric_order_id, cl_ord_id, orig_cl_ord_id) =>
      match check_replacement message order with
      | inl error => send_cancel_reject (Some order) cl_ord_id orig_cl_ord_id PendingKind.Replace error
      | inr (total_quantity, new_price) =>
          submit_replacement order cl_ord_id orig_cl_ord_id total_quantity new_price
      end
  end.

(** ** Messages of the core *)

Definition handle_core_order_response (message : CoreMessage.t) : Handler bool :=
  match Protocol.decode_order_response (CoreMessage.body message) with
  | None => ret true
  | Some response =>
      let order_id := Protocol.OrderResponse.order_id response in
      s <- session ;;
      match SessionContext.pending s !! order_id with
      | None | Some [] => ret true
      | Some (pending :: rest) =>
          on_pending (if bool_decide (rest = []) then delete order_id else <[order_id := rest]>) ;;;
          match SessionContext.orders s !! order_id with
          | None => ret true
          | Some order =>
              let success :=
                negb (Protocol.OrderResponse.success response =? 0) &&
                negb (Protocol.MessageHeader.type (CoreMessage.header message) =?
                      Protocol.MessageType.OrderRejected) in
              match PendingRequest.kind pending with
              | PendingKind.New =>
                  if success then
                    let order := OrderState.set_working (OrderState.leaves_quantity order) x30 order in
                    on_orders (<[order_id := order]>) ;;;
                    (if (OrderState.order_type order =? Protocol.OrderType_Market) ||
                        negb (OrderState.time_in_force order =? Protocol.TimeInForce_GoodTillCancel)
                     then on_session (λ s, SessionContext.set_non_resting_awaiting_boundary
                            ({[OrderState.numeric_order_id order]} ∪
                             SessionContext.non_resting_awaiting_boundary s) s)
                     else ret tt) ;;;
                    send_execution_report order (PendingRequest.cl_ord_id pending) (bytes_of "0")
                      (OrderState.ord_status order) None None None None
                  else
                    let order := OrderState.set_working 0 x38 order in
                    on_orders (<[order_id := order]>) ;;;
                    sent <- send_execution_report order (PendingRequest.cl_ord_id pending) (bytes_of "8")
                      x38 None None None
                      (Some (bytes_of "rejected by ExchangeLab core or risk engine")) ;;
                    on_clords (delete (OrderState.current_cl_ord_id order)) ;;;
                    on_orders (delete order_id) ;;;
                    ret sent
              | PendingKind.Cancel =>
                  if negb success then
                    send_cancel_reject (Some order) (PendingRequest.cl_ord_id pending)
                      (PendingRequest.orig_cl_ord_id pending) PendingKind.Cancel
                      (bytes_of "cancel rejected by ExchangeLab core")
                  else
                    let order := OrderState.set_working 0 x34 order in
                    on_orders (<[order_id := order]>) ;;;
                    send_execution_report order (PendingRequest.cl_ord_id pending) (bytes_of "4") x34
                      (Some (PendingRequest.orig_cl_ord_id pending)) None None None
              | PendingKind.Replace =>
                  if negb success then
                    send_cancel_reject (Some order) (PendingRequest.cl_ord_id pending)
                      (PendingRequest.orig_cl_ord_id pending) PendingKind.Replace
                      (bytes_of "replace rejected by ExchangeLab core or risk engine")
                  else
                    let order := OrderState.set_replaced (PendingRequest.cl_ord_id pending)
                      (PendingRequest.replacement_total_quantity pending)
                      (PendingRequest.replacement_working_quantity pending)
                      (PendingRequest.replacement_price pending)
                      (if OrderState.cumulative_quantity order =? 0 then x30 else x31) order in
                    on_orders (<[order_id := order]>) ;;;
                    on_clords (emplace (PendingRequest.cl_ord_id pending)
                                 (OrderState.numeric_order_id order)) ;;;
                    send_execution_report order (PendingRequest.cl_ord_id pending) (bytes_of "5")
                      (OrderState.ord_status order) (Some (PendingRequest.orig_cl_ord_id pending))
                      None None None
              end
          end
      end
  end.

Definition self_trade_key (execution : Protocol.TradeExecution.t) : Text :=
  to_string (Protocol.TradeExecution.buy_order_id execution) ++ bytes_of ":" ++
  to_string (Protocol.TradeExecution.sell_order_id execution) ++ bytes_of ":" ++
  to_string (Protocol.TradeExecution.price execution) ++ bytes_of ":" ++
  to_string (Protocol.TradeExecution.quantity execution).

(* [order_id] is the key under which the order is found *)
Definition apply_trade_to_order (order_id : Z) (execution : Protocol.TradeExecution.t) : Handler bool :=
  s <- session ;;
  match SessionContext.orders s !! order_id with
  | None => throw (Undefined "reference to an erased order")
  | Some order =>
      let quantity := Z.min (OrderState.leaves_quantity order)
                            (Protocol.TradeExecution.quantity execution) in
      let leaves := u64 (OrderState.leaves_quantity order - quantity) in
      let order := OrderState.set_traded
        (u64 (OrderState.cumulative_quantity order + quantity)) leaves
        (ld_add (OrderState.cumulative_notional order)
           (ld_mul (ld_of_integer (Protocol.TradeExecution.price execution)) (ld_of_integer quantity)))
        (if leaves =? 0 then x32 else x31) order in
      on_orders (<[order_id := order]>) ;;;
      send_execution_report order (OrderState.current_cl_ord_id order) (bytes_of "F")
        (OrderState.ord_status order) None (Some quantity)
        (Some (Protocol.TradeExecution.price execution)) None
  end.

Definition handle_core_trade (message : CoreMessage.t) : Handler bool :=
  match Protocol.decode_trade_execution (CoreMessage.body message) with
  | None => ret true
  | Some execution =>
      let buy_id := Protocol.TradeExecution.buy_order_id execution in
      let sell_id := Protocol.TradeExecution.sell_order_id execution in
      s <- session ;;
      let owns_buy := bool_decide (is_Some (SessionContext.orders s !! buy_id)) in
      let owns_sell := bool_decide (is_Some (SessionContext.orders s !! sell_id)) in
      if negb owns_buy && negb owns_sell then ret true
      else if owns_buy && owns_sell then
        let key := self_trade_key execution in
        if (0 <? SessionContext.self_trade_duplicate_messages_to_ignore s) &&
           bool_decide (key = SessionContext.last_self_trade_key s)
        then
          on_session (SessionContext.set_self_trade_duplicate_messages_to_ignore
            (SessionContext.self_trade_duplicate_messages_to_ignore s - 1)) ;;;
          ret true
        else
          bought <- apply_trade_to_order buy_id execution ;;
          if negb bought then ret false
          else
            sold <- apply_trade_to_order sell_id execution ;;
            if negb sold then ret false
            else
              on_session (SessionContext.set_last_self_trade_key key) ;;;
              on_session (SessionContext.set_self_trade_duplicate_messages_to_ignore 1) ;;;
              ret true
      else apply_trade_to_order (if owns_buy then buy_id else sell_id) execution
  end.

(* the loop over the orders that await a boundary: None when a send failed,
   else the boundaries completed *)
Fixpoint finalize_loop (order_ids : list Z) (symbol : Protocol.Symbol) (completed : list Z) :
    Handler (option (list Z)) :=
  match order_ids with
  | [] => ret (Some completed)
  | order_id :: order_ids' =>
      s <- session ;;
      match SessionContext.orders s !! order_id with
      | None => finalize_loop order_ids' symbol (completed ++ [order_id])
      | Some order =>
          if negb (bool_decide (OrderState.symbol order = symbol))
          then finalize_loop order_ids' symbol completed
          else if 0 <? OrderState.leaves_quantity order then
            let order := OrderState.set_working 0 x34 order in
            on_orders (<[order_id := order]>) ;;;
            sent <- send_execution_report order (OrderState.current_cl_ord_id order) (bytes_of "4") x34
              None None None (Some (bytes_of "non-resting remainder canceled")) ;;
            if negb sent then ret None
            else finalize_loop order_ids' symbol (completed ++ [order_id])
          else finalize_loop order_ids' symbol (completed ++ [order_id])
      end
  end.

Definition finalize_non_resting_orders (message : CoreMessage.t) : Handler bool :=
  match Protocol.decode_book_update (CoreMessage.body message) with
  | None => ret true
  | Some update =>
      s <- session ;;
      completed <- finalize_loop
        (iteration_order (elements (SessionContext.non_resting_awaiting_boundary s)))
        (Protocol.BookUpdate.symbol update) [] ;;
      match completed with
      | None => ret false
      | Some completed =>
          on_session (λ s, SessionContext.set_non_resting_awaiting_boundary
            (SessionContext.non_resting_awaiting_boundary s ∖ list_to_set completed) s) ;;;
          ret true
      end
  end.

Definition process_core_message (message : CoreMessage.t) : Handler bool :=
  let type := Protocol.MessageHeader.type (CoreMessage.header message) in
  if (type =? Protocol.MessageType.OrderAccepted) || (type =? Protocol.MessageType.OrderRejected) ||
     (type =? Protocol.MessageType.OrderCancelled) || (type =? Protocol.MessageType.OrderReplaced)
  then handle_core_order_response message
  else if type =? Protocol.MessageType.TradeExecution then handle_core_trade message
  else if type =? Protocol.MessageType.BookUpdate then finalize_non_resting_orders message
  else ret true.

(** ** Messages of the client, by type *)

Definition handle_logon (message : Fix.Message.t) (msg_type : Text) (seq_num : Z) : Handler bool :=
  let reject reason := send_session_reject seq_num (bytes_of reason) (Some msg_type) in
  s <- session ;;
  if SessionContext.logged_on s then reject "duplicate Logon"%string
  else
    match Fix.get 49 message, Fix.get 98 message, Fix.get 108 message with
    | Some sender, Some encrypt_method, Some heartbeat =>
        if negb (bool_decide (encrypt_method = bytes_of "0"))
        then reject "Logon requires 98=0 and HeartBtInt (108)"%string
        else
          match Fix.parse_u64 heartbeat with
          | None => reject "invalid HeartBtInt"%string
          | Some heartbeat_seconds =>
              if (heartbeat_seconds =? 0) || (3600 <? heartbeat_seconds)
              then reject "invalid HeartBtInt"%string
              else
                on_session (SessionContext.set_client_comp_id sender) ;;;
                on_session (SessionContext.set_heartbeat_seconds (u32 heartbeat_seconds)) ;;;
                g <- get ;;
                on_session (SessionContext.set_core_socket (connect_to_exchange g)) ;;;
                if connect_to_exchange g <? 0 then
                  on_session (SessionContext.set_closing true) ;;;
                  send_session_message (bytes_of "5")
                    [Fix.Field.mk 58 (bytes_of "ExchangeLab core is unavailable")]
                else
                  on_session (SessionContext.set_logged_on true) ;;;
                  send_session_message (bytes_of "A")
                    [Fix.Field.mk 98 (bytes_of "0");
                     Fix.Field.mk 108 (to_string (u32 heartbeat_seconds));
                     Fix.Field.mk 141 (bytes_of "N")]
          end
    | _, _, _ => reject "Logon requires 98=0 and HeartBtInt (108)"%string
    end.

(* the messages of a session that is logged on *)
Definition handle_application (message : Fix.Message.t) (msg_type : Text) (seq_num : Z) : Handler bool :=
  if bool_decide (msg_type = bytes_of "0") then ret true
  else if bool_decide (msg_type = bytes_of "1") then
    match Fix.get 112 message with
    | None => send_session_reject seq_num (bytes_of "TestRequest requires tag 112") (Some msg_type)
    | Some test_request_id => send_session_message (bytes_of "0") [Fix.Field.mk 112 test_request_id]
    end
  else if bool_decide (msg_type = bytes_of "5") then
    on_session (SessionContext.set_closing true) ;;;
    send_session_message (bytes_of "5") []
  else if bool_decide (msg_type = bytes_of "D") then handle_new_order message
  else if bool_decide (msg_type = bytes_of "F") then handle_cancel message
  else if bool_decide (msg_type = bytes_of "G") then handle_replace message
  else send_session_reject seq_num (bytes_of "unsupported MsgType") (Some msg_type).

Definition process_fix_message (message : Fix.Message.t) : Handler bool :=
  s <- session ;;
  let expected := SessionContext.expected_inbound_sequence s in
  match Fix.get 35 message, sequence_number message with
  | Some msg_type, Some seq_num =>
      if negb (seq_num =? expected)
      then send_session_reject seq_num
             (bytes_of "unexpected MsgSeqNum; expected " ++ to_string expected) (Some msg_type)
      else
        on_session (SessionContext.set_expected_inbound_sequence (u64 (expected + 1))) ;;;
        match validate_comp_ids message s with
        | Some comp_error => send_session_reject seq_num comp_error (Some msg_type)
        | None =>
            if bool_decide (msg_type = bytes_of "A") then handle_logon message msg_type seq_num
            else if negb (SessionContext.logged_on s)
            then send_session_reject seq_num
                   (bytes_of "Logon is required before application messages") (Some msg_type)
            else handle_application message msg_type seq_num
        end
  | _, _ =>
      send_session_reject expected (bytes_of "MsgType (35) and MsgSeqNum (34) are required") None
  end.

(** ** handle_client: one turn of the loop *)

(* the messages of the client that the buffer holds *)
Fixpoint fix_receive_loop (fuel : nat) : Handler bool :=
  match fuel with
  | O => throw OutOfFuel
  | S fuel' =>
      s <- session ;;
      match Fix.extract_one (SessionContext.fix_receive_buffer s) with
      | (Throw e, _) => throw e
      | (Ok extracted, buffer) =>
          on_session (SessionContext.set_fix_receive_buffer buffer) ;;;
          match Fix.ExtractResult.status extracted with
          | Fix.ExtractStatus.NeedMoreData => ret true
          | Fix.ExtractStatus.InvalidData => ret false
          | Fix.ExtractStatus.MessageReady =>
              parsed <- lift (Fix.parse (Fix.ExtractResult.wire_message extracted)) ;;
              match Fix.ParseResult.message parsed with
              | None => ret false
              | Some message =>
                  healthy <- process_fix_message message ;;
                  s <- session ;;
                  if SessionContext.closing s || negb healthy then ret healthy
                  else fix_receive_loop fuel'
              end
          end
      end
  end.

(* the messages of the core *)
Fixpoint core_receive_loop (fuel : nat) (healthy : bool) : Handler bool :=
  match fuel with
  | O => throw OutOfFuel
  | S fuel' =>
      s <- session ;;
      let '(core_message, buffer) := extract_core_message (SessionContext.core_receive_buffer s) in
      on_session (SessionContext.set_core_receive_buffer buffer) ;;;
      match core_message with
      | None => ret healthy
      | Some core_message =>
          healthy <- process_core_message core_message ;;
          if negb healthy then ret false else core_receive_loop fuel' healthy
      end
  end.

(* what poll and recv report: for each socket nothing, an error, or the bytes
   received, none when the peer has closed *)
Inductive Input : Type := Silent | Failed | Received (bytes : list byte).

(* std::chrono::seconds, on a clock of nanoseconds *)
Definition seconds (n : Z) : Z := n * 1000000000.

(* heartbeat and dead-session timeout: does the loop go on? *)
Definition check_timers (healthy : bool) : Handler bool :=
  s <- session ;;
  if negb (SessionContext.logged_on s && healthy) then ret healthy
  else
    g <- get ;;
    let now := steady_now g in
    let heartbeat := seconds (SessionContext.heartbeat_seconds s) in
    healthy <- (if heartbeat <=? now - SessionContext.last_fix_send s
                then send_session_message (bytes_of "0") [] else ret true) ;;
    if heartbeat * 3 <=? now - SessionContext.last_fix_receive s then
      _ <- send_session_message (bytes_of "5") [Fix.Field.mk 58 (bytes_of "heartbeat timeout")] ;;
      ret false
    else ret healthy.

(* the part of the turn that serves the core's socket, if there was one when
   the turn began: None breaks out of the loop *)
Definition serve_core (had_core : bool) (core : Input) (healthy : bool) : Handler (option bool) :=
  if negb had_core then ret (Some healthy)
  else
    match core with
    | Silent => ret (Some healthy)
    | Failed =>
        _ <- send_session_message (bytes_of "5")
               [Fix.Field.mk 58 (bytes_of "ExchangeLab core connection closed")] ;;
        ret None
    | Received [] => ret None
    | Received bytes =>
        on_session (λ s, SessionContext.set_core_receive_buffer
                           (SessionContext.core_receive_buffer s ++ bytes) s) ;;;
        s <- session ;;
        healthy <- core_receive_loop (S (length (SessionContext.core_receive_buffer s))) healthy ;;
        ret (Some healthy)
    end.

(* does the loop go on? *)
Definition poll_turn (client core : Input) : Handler bool :=
  s <- session ;;
  let had_core := 0 <=? SessionContext.core_socket s in
  let serve healthy :=
    served <- serve_core had_core core healthy ;;
    match served with
    | None => ret false
    | Some healthy =>
        healthy <- check_timers healthy ;;
        s <- session ;;
        ret (healthy && negb (SessionContext.closing s))
    end in
  match client with
  | Failed | Received [] => ret false
  | Silent => serve true
  | Received bytes =>
      g <- get ;;
      on_session (SessionContext.set_last_fix_receive (steady_now g)) ;;;
      on_session (λ s, SessionContext.set_fix_receive_buffer
                         (SessionContext.fix_receive_buffer s ++ bytes) s) ;;;
      s <- session ;;
      healthy <- fix_receive_loop (S (length (SessionContext.fix_receive_buffer s))) ;;
      serve healthy
  end.

(* the session a connection starts with *)
Definition new_session (client_socket now : Z) : SessionContext.t F :=
  SessionContext.mk client_socket (-1) false false [] (FixGatewayConfig.default_heartbeat_seconds config)
    1 1 1 [] [] ∅ ∅ ∅ ∅ ∅ [] 0 now now.

(* the loop, until it ends or the inputs do *)
Fixpoint handle_client (inputs : list (Input * Input)) : Handler unit :=
  match inputs with
  | [] => ret tt
  | (client, core) :: inputs' =>
      continue <- poll_turn client core ;;
      if continue then handle_client inputs' else ret tt
  end.
End gateway.
End FixGateway.
