(* ===== verification/FixInvariant.v ===== *)
(** * What a FIX session maintains

    An invariant of a session and of everything it has sent, kept by every
    handler on every input: the texts and numbers of the session are in range,
    each message to the client is a well-formed FIX message with the next
    number, and each message to the core is a request the core accepts. *)
From S2P Require Import Prelude Bytes Numerals Protocol Fix FixState FixGateway.

(** ** Texts without separators *)

Definition printable (text : Text) : Prop := Fix.soh ∉ text.

(** Constant texts are printable by evaluation. *)
Ltac printable_constant :=
  unfold printable; refine (bool_decide_eq_false_1 _ _); vm_compute; reflexivity.

Lemma printable_numeral text n : numeral text n → printable text.
Proof. intros H. by eapply numeral_no. Qed.

Lemma printable_to_string n : printable (to_string n).
Proof.
  unfold to_string. destruct (Z.ltb_spec n 0).
  - apply not_elem_of_cons. split; [done|]. eapply printable_numeral, numeral_natural. lia.
  - by eapply printable_numeral, numeral_natural.
Qed.

Lemma printable_app l1 l2 : printable l1 → printable l2 → printable (l1 ++ l2).
Proof. unfold printable. rewrite not_elem_of_app. done. Qed.

Lemma printable_sublist l1 l2 : l1 ⊆ l2 → printable l2 → printable l1.
Proof. intros Hl H Hin. by apply H, Hl. Qed.

Lemma printable_symbol symbol : printable (symbol_text symbol).
Proof.
  unfold symbol_text, Protocol.symbol_to_string.
  destruct (Protocol.is_valid_symbol symbol) eqn:Hv; cbn [negb]; [|by intros Hin%elem_of_nil].
  rewrite String.list_byte_of_string_of_list_byte. unfold Protocol.is_valid_symbol in Hv.
  apply Protocol.valid_loop_spec in Hv as (cs & n & -> & Hcs & _).
  rewrite Protocol.symbol_length_spec, take_app_length by done.
  unfold Protocol.valid_characters in Hcs. rewrite Forall_forall in Hcs. intros Hin. by specialize (Hcs _ Hin).
Qed.

Lemma printable_average {F} `{!LongDouble F} `{!LongDoubleLaws F} (o : OrderState.t F) :
  printable (FixGateway.average_price_text o).
Proof.
  unfold FixGateway.average_price_text. destruct (_ =? 0); [printable_constant|].
  destruct (ld_eqb _ _); [apply printable_to_string|].
  eapply printable_sublist; [|apply (double_text_printable (ld_div (OrderState.cumulative_notional o)
                     (ld_of_integer (OrderState.cumulative_quantity o))))].
  set (x := ld_double_text _). clearbody x.
  assert (∀ l, FixGateway.strip_zeros l ⊆ l) as Hz.
  { induction l as [|c [|c' l] IH]; [done..|]. cbn [FixGateway.strip_zeros].
    case_bool_decide; [set_solver|done]. }
  assert (∀ l, FixGateway.strip_point l ⊆ l) as Hp.
  { intros [|c l]; [done|]. cbn. case_bool_decide; set_solver. }
  intros c. rewrite elem_of_reverse. intros Hc%Hp%Hz. by apply elem_of_reverse.
Qed.

Create HintDb printable discriminated.
#[export] Hint Resolve printable_to_string printable_app printable_symbol printable_average : printable.
#[export] Hint Extern 3 (printable (bytes_of _)) => printable_constant : printable.

(** A message the parser gave. *)
Definition message_ok (m : Fix.Message.t) : Prop :=
  Forall (λ f, printable (Fix.Field.value f)) (Fix.fields m).

Lemma get_printable m tag value : message_ok m → Fix.get tag m = Some value → printable value.
Proof.
  unfold message_ok, Fix.get, Fix.fields. induction (Fix.Message.fields_ m) as [|f fs IH]; [done|].
  intros [Hf Hfs]%Forall_cons. cbn. destruct (_ =? _); [by intros [= <-]|by apply IH].
Qed.

Lemma body_printable bs fs : Fix.Body bs fs → Forall (λ f, printable (Fix.Field.value f)) fs.
Proof. induction 1; by constructor. Qed.

Lemma parsed_ok wire m e : Fix.parse wire = Ok (Fix.ParseResult.mk (Some m) e) → message_ok m.
Proof.
  intros H. destruct (Fix.parse_sound wire) as (r & Hr & _ & Hm).
  rewrite H in Hr. injection Hr as <-. destruct (Hm m eq_refl) as (lead & body & _ & Hb & _).
  by eapply body_printable.
Qed.

Lemma field_or_printable m tag d : message_ok m → printable d → printable (FixGateway.field_or m tag d).
Proof.
  intros Hm Hd. unfold FixGateway.field_or. destruct (Fix.get tag m) eqn:Hg; [by eapply get_printable|done].
Qed.

(** required_field *)
Lemma required_field_ok m tag error : message_ok m → printable error →
  printable (required_field m tag error).2 ∧
  ∀ value, (required_field m tag error).1 = Some value → Fix.get tag m = Some value ∧ printable value.
Proof.
  intros Hm He. unfold required_field.
  assert (printable (bytes_of "required FIX tag " ++ to_string tag ++ bytes_of " is missing"))
    by auto with printable.
  destruct (Fix.get tag m) as [[|c text]|] eqn:Hg; cbn; [done| |done].
  split; [done|]. intros value [= <-]. split; [done|]. by eapply get_printable.
Qed.

(** ** The invariant *)

(* numbers [u64 1], [u64 2], ... of which some may be missing: the [next] one,
   and those the messages [l] carry; none is missing when [always] *)
Definition numbered {A} (always : Prop) (wire_ok : Z → A → Prop) (next : Z) (l : list A) : Prop :=
  ∃ N ks, 1 ≤ N ∧ next = u64 N ∧ StronglySorted Z.lt ks ∧ Forall (λ k, 1 ≤ k < N) ks ∧
    Forall2 (λ k, wire_ok (u64 k)) ks l ∧ (always → ks = seqZ 1 (N - 1)).

Section numbered.
Context {A : Type} (always : Prop) (wire_ok : Z → A → Prop).

Lemma numbered_nil : numbered always wire_ok 1 [].
Proof. exists 1, []. split_and!; [lia|done|constructor|done|done|done]. Qed.

Lemma u64_succ N : u64 (u64 N + 1) = u64 (N + 1).
Proof. unfold u64. by rewrite Zplus_mod_idemp_l. Qed.

Lemma numbered_skip next l :
  ¬ always → numbered always wire_ok next l → numbered always wire_ok (u64 (next + 1)) l.
Proof.
  intros Ha (N & ks & HN & -> & Hs & Hk & Hl & _). exists (N + 1), ks.
  split_and!; [lia|apply u64_succ|done| |done|done].
  eapply Forall_impl; [exact Hk|]. intros k ?. cbn in *. lia.
Qed.

Lemma numbered_wires_snoc next l x :
  wire_ok next x → numbered always wire_ok next l →
  numbered always wire_ok (u64 (next + 1)) (l ++ [x]).
Proof.
  intros Hx (N & ks & HN & -> & Hs & Hk & Hl & Ha). exists (N + 1), (ks ++ [N]).
  split_and!; [lia|apply u64_succ| | | |].
  - apply StronglySorted_app. split_and!; [|done|by repeat constructor].
    intros k k' Hin Hin'. apply list_elem_of_singleton in Hin' as ->.
    rewrite Forall_forall in Hk. apply Hk in Hin. lia.
  - apply Forall_app. split; [|by repeat constructor; lia].
    eapply Forall_impl; [exact Hk|]. intros k ?. cbn in *. lia.
  - apply Forall2_app; [done|]. by repeat constructor.
  - intros H. rewrite (Ha H). replace (N + 1 - 1) with ((N - 1) + 1) by lia.
    rewrite seqZ_app by lia. f_equal. replace (1 + (N - 1)) with N by lia.
    by rewrite seqZ_cons, seqZ_nil by lia.
Qed.
End numbered.

Definition to_client (l : list Transmission) : list (list byte) :=
  omap (λ x, match x with ToClient wire => Some wire | ToCore _ => None end) l.
Definition to_core (l : list Transmission) : list (list byte) :=
  omap (λ x, match x with ToCore message => Some message | ToClient _ => None end) l.

Lemma to_client_client l w : to_client (l ++ [ToClient w]) = to_client l ++ [w].
Proof. unfold to_client. by rewrite omap_app. Qed.
Lemma to_client_core l w : to_client (l ++ [ToCore w]) = to_client l.
Proof. unfold to_client. rewrite omap_app. apply (right_id_L [] (++)). Qed.
Lemma to_core_client l w : to_core (l ++ [ToClient w]) = to_core l.
Proof. unfold to_core. rewrite omap_app. apply (right_id_L [] (++)). Qed.
Lemma to_core_core l w : to_core (l ++ [ToCore w]) = to_core l ++ [w].
Proof. unfold to_core. by rewrite omap_app. Qed.

(** A message to the client: what the FIX encoder makes of valid fields, with
    the sequence number and the gateway's name. *)
Definition client_wire (config : FixGatewayConfig.t) (sequence : Z) (wire : list byte) : Prop :=
  ∃ m, wire = Fix.encode m ∧ Forall Fix.valid_field (Fix.fields m) ∧ Fix.typed m ∧
    Fix.get 34 m = Some (to_string sequence) ∧
    Fix.get 49 m = Some (FixGatewayConfig.sender_comp_id config).

(** The body of a request the core decodes, within the limits of its orders. *)
Inductive core_body : Z → list byte → Prop :=
  | core_new request :
      Protocol.decode_new_order (Protocol.encode_new_order request) = Some request →
      1 ≤ Protocol.NewOrderRequest.quantity request < 2 ^ 32 →
      (Protocol.NewOrderRequest.order_type request = Protocol.OrderType_Limit →
       0 < Protocol.NewOrderRequest.price request) →
      (Protocol.NewOrderRequest.order_type request = Protocol.OrderType_Market →
       Protocol.NewOrderRequest.time_in_force request ≠ Protocol.TimeInForce_GoodTillCancel) →
      core_body Protocol.MessageType.NewOrder (Protocol.encode_new_order request)
  | core_cancel request :
      Protocol.decode_cancel_order (Protocol.encode_cancel_order request) = Some request →
      core_body Protocol.MessageType.CancelOrder (Protocol.encode_cancel_order request)
  | core_replace request :
      Protocol.decode_replace_order (Protocol.encode_replace_order request) = Some request →
      1 ≤ Protocol.ReplaceOrderRequest.new_quantity request < 2 ^ 32 →
      0 < Protocol.ReplaceOrderRequest.new_price request →
      core_body Protocol.MessageType.ReplaceOrder (Protocol.encode_replace_order request).

(** A message to the core: a header the core decodes, and such a body. *)
Definition core_wire (sequence : Z) (message : list byte) : Prop :=
  ∃ header body, message = Protocol.encode_header header ++ body ∧
    Protocol.decode_header (Protocol.encode_header header) = Some header ∧
    Protocol.MessageHeader.body_size header = Z.of_nat (length body) ∧
    Protocol.MessageHeader.sequence_number header = sequence ∧
    core_body (Protocol.MessageHeader.type header) body.

Section invariant.
Context {F : Type} `{!LongDouble F} `{!LongDoubleLaws F} `{!World F} `{!WorldLaws F}.
Context (config : FixGatewayConfig.t).
Hypothesis sender_printable : printable (FixGatewayConfig.sender_comp_id config).

Record order_ok (id : Z) (o : OrderState.t F) : Prop := {
  order_id_ok : OrderState.numeric_order_id o = id ∧ in_u64 id;
  order_symbol_ok : Protocol.valid_symbol (OrderState.symbol o);
  order_clord_ok : printable (OrderState.current_cl_ord_id o);
  order_status_ok : printable [OrderState.ord_status o];
  order_numbers_ok : in_u64 (OrderState.order_quantity o) ∧
    in_u64 (OrderState.cumulative_quantity o) ∧ in_u64 (OrderState.leaves_quantity o)
}.

Record pending_ok (p : PendingRequest.t) : Prop := {
  pending_clord_ok : printable (PendingRequest.cl_ord_id p);
  pending_orig_ok : printable (PendingRequest.orig_cl_ord_id p);
  pending_numbers_ok : in_u64 (PendingRequest.replacement_total_quantity p) ∧
    in_u64 (PendingRequest.replacement_working_quantity p)
}.

Record session_ok (s : SessionContext.t F) : Prop := {
  session_comp_ok : printable (SessionContext.client_comp_id s);
  session_orders_ok : map_Forall order_ok (SessionContext.orders s);
  session_pending_ok : map_Forall (λ _, Forall pending_ok) (SessionContext.pending s)
}.

Definition always_accepts : Prop := ∀ g : Gateway.t F, client_accepts g = true.

Record inv (online : bool) (g : Gateway.t F) : Prop := {
  inv_session : session_ok (Gateway.session g);
  inv_ids : in_u64 (Gateway.next_numeric_order_id_ g);
  inv_client : numbered always_accepts (client_wire config)
    (SessionContext.next_outbound_sequence (Gateway.session g)) (to_client (Gateway.sent g));
  inv_core : numbered False core_wire
    (SessionContext.next_core_sequence (Gateway.session g)) (to_core (Gateway.sent g));
  inv_logged : to_core (Gateway.sent g) ≠ [] → SessionContext.logged_on (Gateway.session g) = true;
  inv_online : online = true → SessionContext.logged_on (Gateway.session g) = true
}.

Definition keeps {A} (online : bool) (m : M (Gateway.t F) A) : Prop :=
  preserves (λ g g', inv online g → inv online g') m.

#[local] Instance keeps_preorder online : PreOrder (λ g g', inv online g → inv online g').
Proof. split; [by intros g|]. intros g1 g2 g3 H1 H2 H. by apply H2, H1. Qed.

(** *** Reading *)

Lemma keeps_session {A} online (k : SessionContext.t F → M (Gateway.t F) A) :
  (∀ s, session_ok s → (online = true → SessionContext.logged_on s = true) → keeps online (k s)) →
  keeps online (bind FixGateway.session k).
Proof. intros Hk g Hg. apply (Hk (Gateway.session g)); [apply Hg|apply Hg|done]. Qed.

Lemma keeps_inv_get {A} online (k : Gateway.t F → M (Gateway.t F) A) :
  (∀ g, inv online g → keeps online (k g)) → keeps online (bind get k).
Proof. intros Hk g Hg. by apply (Hk g). Qed.

Lemma keeps_inv_bind {A B} online (m : M (Gateway.t F) A) (k : A → M (Gateway.t F) B) :
  keeps online m → (∀ a, keeps online (k a)) → keeps online (bind m k).
Proof. apply (preserves_bind _). Qed.

(** *** Writing *)

(* an assignment that leaves the connection alone *)
Definition same_connection (s s' : SessionContext.t F) : Prop :=
  SessionContext.next_outbound_sequence s' = SessionContext.next_outbound_sequence s ∧
  SessionContext.next_core_sequence s' = SessionContext.next_core_sequence s ∧
  (SessionContext.logged_on s = true → SessionContext.logged_on s' = true).

Lemma keeps_on_session online f :
  (∀ s, session_ok s → session_ok (f s) ∧ same_connection s (f s)) →
  keeps online (FixGateway.on_session f).
Proof.
  intros Hf g Hg. destruct Hg. destruct (Hf (Gateway.session g)) as (Hok & Ho & Hc & Hl); [done|].
  split; cbn; [done|done|by rewrite Ho|by rewrite Hc|auto|auto].
Qed.

Lemma keeps_orders online f :
  (∀ m, map_Forall order_ok m → map_Forall order_ok (f m)) → keeps online (FixGateway.on_orders f).
Proof.
  intros Hf. apply keeps_on_session. intros s [Hc Ho Hp]. split; [|by split_and!]. split; cbn; auto.
Qed.

Lemma keeps_pending online f :
  (∀ m, map_Forall (λ _, Forall pending_ok) m → map_Forall (λ _, Forall pending_ok) (f m)) →
  keeps online (FixGateway.on_pending f).
Proof.
  intros Hf. apply keeps_on_session. intros s [Hc Ho Hp]. split; [|by split_and!]. split; cbn; auto.
Qed.

Lemma keeps_clords online f : keeps online (FixGateway.on_clords f).
Proof. apply keeps_on_session. intros s [Hc Ho Hp]. split; [|by split_and!]. by split. Qed.

(** *** Sending *)

Lemma foldl_add fs m :
  foldl (λ message field, Fix.add (Fix.Field.tag field) (Fix.Field.value field) message) m fs =
  Fix.Message.mk (Fix.Message.fields_ m ++ fs).
Proof.
  revert m. induction fs as [|f fs IH]; intros m; cbn; [rewrite (right_id_L [] (++)); by destruct m|].
  rewrite IH. cbn. rewrite <- (assoc_L (++)). by destruct f.
Qed.

Lemma field_ok tag value :
  0 < tag < 2 ^ 31 → Fix.is_generated tag = false → printable value →
  Fix.valid_field (Fix.Field.mk tag value).
Proof. by intros; split. Qed.

Lemma keeps_send_session_message online message_type fs :
  message_type ≠ [] → printable message_type → Forall Fix.valid_field fs →
  keeps online (FixGateway.send_session_message config message_type fs).
Proof.
  intros Hne Hmt Hfs g Hg. destruct Hg as [Hs Hids Hc Hk Hl Ho].
  unfold FixGateway.send_session_message, FixGateway.build_session_message, FixGateway.send_fix_wire.
  unfold bind, FixGateway.session, FixGateway.on_session, get, modify, ret.
  set (s := Gateway.session g) in *.
  set (s1 := SessionContext.set_next_outbound_sequence _ s).
  set (g1 := Gateway.set_session s1 g).
  match goal with |- context [Fix.encode ?m] => set (message := m) end.
  assert (client_wire config (SessionContext.next_outbound_sequence s) (Fix.encode message)) as Hwire.
  { assert (∃ comp, printable comp ∧ Fix.fields message =
      [Fix.Field.mk 35 message_type;
       Fix.Field.mk 34 (to_string (SessionContext.next_outbound_sequence s));
       Fix.Field.mk 49 (FixGatewayConfig.sender_comp_id config); Fix.Field.mk 56 comp;
       Fix.Field.mk 52 (utc_timestamp g1)] ++ fs) as (comp & Hcomp & Hf).
    { unfold message. rewrite foldl_add. eexists. split; [|reflexivity].
      case_bool_decide; [printable_constant|apply Hs]. }
    exists message. split; [done|]. unfold Fix.typed, Fix.get. fold (Fix.fields message). rewrite Hf.
    split_and!; [|by destruct message_type as [|c text]; [|exists c, text]|done|done].
    repeat (apply Forall_cons; split; [apply field_ok; [lia|done|]|]); auto with printable.
    apply timestamp_printable. }
  destruct (client_accepts g1) eqn:Ha; cbn [negb].
  - split; cbn -[to_client to_core]; rewrite ?to_client_client, ?to_core_client;
      [by destruct Hs|done|by apply numbered_wires_snoc|done|exact Hl|exact Ho].
  - split; cbn -[to_client to_core]; [by destruct Hs|done| |done|done|done].
    apply numbered_skip; [|done]. intros Hall. by rewrite Hall in Ha.
Qed.

Lemma keeps_fetch_exec_id online : keeps online FixGateway.fetch_exec_id.
Proof. intros g [Hs Hids Hc Hk Hl Ho]. by split. Qed.

Lemma keeps_fetch_order_id {A} online (k : Z → M (Gateway.t F) A) :
  (∀ id, in_u64 id → keeps online (k id)) → keeps online (bind FixGateway.fetch_numeric_order_id k).
Proof.
  intros Hk g [Hs Hids Hc Hk' Hl Ho]. unfold bind, FixGateway.fetch_numeric_order_id, get, modify.
  apply Hk; [done|]. split; cbn; [done|apply u64_in|done..].
Qed.

Lemma core_body_length type body : core_body type body → Z.of_nat (length body) < 2 ^ 32.
Proof.
  intros [request H|request H|request H]; revert H;
    [unfold Protocol.decode_new_order|unfold Protocol.decode_cancel_order|unfold Protocol.decode_replace_order];
    match goal with
    | |- context [(length ?l =? ?n)%nat] =>
        destruct (Nat.eqb_spec (length l) n) as [->|]; [|done]; intros _; by vm_compute
    end.
Qed.

Lemma core_body_type type body : core_body type body → in_u16 type.
Proof. by intros []; vm_compute. Qed.

Lemma keeps_send_core_request type body :
  core_body type body → keeps true (FixGateway.send_core_request type body).
Proof.
  intros Hb g [Hs Hids Hc Hk Hl Ho].
  unfold FixGateway.send_core_request, bind, FixGateway.session, FixGateway.on_session, get, modify, ret.
  set (s := Gateway.session g) in *.
  set (s1 := SessionContext.set_next_core_sequence _ s).
  set (g1 := Gateway.set_session s1 g).
  match goal with |- context [Protocol.encode_header ?h] => set (header := h) end.
  assert (core_wire (SessionContext.next_core_sequence s) (Protocol.encode_header header ++ body)) as Hwire.
  { pose proof (core_body_length _ _ Hb). exists header, body. split; [done|]. split_and!; [|cbn; apply u32_id; unfold in_u32; lia|done|done].
    apply Protocol.decode_header_spec. split; [|done]. destruct Hk as (N & ? & _ & HN & _).
    unfold Protocol.header_valid. cbn. rewrite HN. split_and!; try done.
    - by eapply core_body_type.
    - apply u32_in.
    - apply u64_in. }
  destruct (core_accepts g1); cbn [negb].
  - split; cbn -[to_client to_core]; rewrite ?to_client_core, ?to_core_core;
      [by destruct Hs|done|done|by apply numbered_wires_snoc|by intros _; apply Ho|exact Ho].
  - split; cbn -[to_client to_core]; [by destruct Hs|done|done| |done|done].
    apply numbered_skip; [|done]. tauto.
Qed.

(** *** The messages the handlers send *)

Definition printable_option (text : option Text) : Prop := from_option printable True text.

Lemma optional_field_ok tag value :
  0 < tag < 2 ^ 31 → Fix.is_generated tag = false → printable_option value →
  Forall Fix.valid_field (FixGateway.optional_field tag value).
Proof.
  intros Ht Hg Hv. destruct value; [|constructor]. apply Forall_cons_2; [by apply field_ok|constructor].
Qed.

(* lists of fields with constant tags *)
Ltac valid_fields :=
  repeat first
    [ apply Forall_nil_2
    | apply Forall_cons_2; [apply field_ok; [lia|reflexivity|]|]
    | apply Forall_app_2
    | apply optional_field_ok; [lia|reflexivity|] ];
  auto with printable.

Lemma keeps_session_reject online n reason type :
  printable reason → printable_option type → keeps online (FixGateway.send_session_reject config n reason type).
Proof.
  intros Hr Ht. apply keeps_send_session_message; [done|printable_constant|]. valid_fields.
Qed.

Lemma keeps_new_reject online cl symbol side quantity reason :
  printable cl → printable symbol → printable side → printable quantity → printable reason →
  keeps online (FixGateway.send_new_reject config cl symbol side quantity reason).
Proof.
  intros. apply keeps_inv_bind; [apply keeps_fetch_exec_id|intros n].
  apply keeps_send_session_message; [done|printable_constant|]. valid_fields.
Qed.

Lemma keeps_cancel_reject online id order cl orig kind reason :
  from_option (order_ok id) True order → printable cl → printable orig → printable reason →
  keeps online (FixGateway.send_cancel_reject config order cl orig kind reason).
Proof.
  intros Ho Hc Horig Hr. apply keeps_send_session_message; [done|printable_constant|].
  valid_fields.
  - destruct order; auto with printable.
  - destruct order; [apply Ho|printable_constant].
  - case_decide; printable_constant.
Qed.

Lemma keeps_execution_report online id o cl exec_type status orig last_quantity last_price text :
  order_ok id o → printable cl → printable exec_type → printable [status] →
  printable_option orig → printable_option text →
  keeps online (FixGateway.send_execution_report config o cl exec_type status orig last_quantity last_price text).
Proof.
  intros [Hid Hsym Hcl Hst Hn] Hc He Hs Horig Ht.
  apply keeps_inv_bind; [apply keeps_fetch_exec_id|intros n].
  apply keeps_send_session_message; [done|printable_constant|].
  unfold FixGateway.execution_report_fields. valid_fields.
  - unfold FixGateway.side_text. case_match; printable_constant.
  - unfold FixGateway.ord_type_text. case_match; printable_constant.
  - case_match; cbn; auto with printable.
  - unfold FixGateway.tif_text. repeat case_match; printable_constant.
  - destruct last_quantity; cbn; auto with printable.
  - destruct last_price; cbn; auto with printable.
Qed.

(** *** Order maps *)

Lemma orders_insert id o (m : gmap Z (OrderState.t F)) : order_ok id o → map_Forall order_ok m → map_Forall order_ok (<[id := o]> m).
Proof. intros. by apply map_Forall_insert_2. Qed.

Lemma orders_delete id (m : gmap Z (OrderState.t F)) : map_Forall order_ok m → map_Forall order_ok (delete id m).
Proof. apply map_Forall_delete. Qed.

Lemma orders_emplace id o (m : gmap Z (OrderState.t F)) :
  order_ok id o → map_Forall order_ok m → map_Forall order_ok (FixGateway.emplace id o m).
Proof. intros. unfold FixGateway.emplace. destruct (m !! id); [done|by apply orders_insert]. Qed.

Lemma session_order s id o : session_ok s → SessionContext.orders s !! id = Some o → order_ok id o.
Proof. intros [_ Ho _]. apply Ho. Qed.

Lemma session_pending s id ps :
  session_ok s → SessionContext.pending s !! id = Some ps → Forall pending_ok ps.
Proof. intros [_ _ Hp]. apply Hp. Qed.

Lemma keeps_push_pending online id p : pending_ok p → keeps online (FixGateway.push_pending id p).
Proof.
  intros Hp. apply keeps_pending. intros m Hm. apply map_Forall_insert_2; [|done].
  apply Forall_app. split; [|by apply Forall_singleton].
  destruct (m !! id) eqn:He; [by apply (Hm id)|constructor].
Qed.

Lemma keeps_pop_back online id : keeps online (FixGateway.pop_back_pending id).
Proof.
  apply keeps_pending. intros m Hm. apply map_Forall_insert_2; [|done].
  assert (Forall pending_ok (default [] (m !! id))) as H
    by (destruct (m !! id) eqn:He; [by apply (Hm id)|constructor]).
  induction H as [|p ps Hp Hps IH]; [constructor|]. cbn. destruct ps; [constructor|by constructor].
Qed.

Lemma keeps_ensure_unique online cl : keeps online (FixGateway.ensure_unique_clordid cl).
Proof.
  apply keeps_session. intros s _ _. case_decide; [apply (preserves_ret _)|].
  apply keeps_inv_bind; [|intros _; apply (preserves_ret _)].
  apply keeps_on_session. intros s' [Hc Ho Hp]. split; [|by split_and!]. by split.
Qed.

(** *** Orders of the client *)

Lemma make_symbol_valid text :
  Protocol.is_valid_symbol (make_symbol text) = true → Protocol.valid_symbol (make_symbol text).
Proof.
  intros Hv. split; [|done]. revert Hv. unfold make_symbol. rewrite Protocol.make_symbol_spec.
  rewrite String.list_byte_of_string_of_list_byte. case_decide as Hd; [|done]. intros _.
  rewrite length_app, length_replicate. lia.
Qed.

Lemma translate_price_ok m type error :
  message_ok m → printable error →
  match FixBridge.translate_price m type error with
  | inl e => printable e
  | inr price => in_i64 price ∧ (type = Protocol.OrderType_Limit → 0 < price)
  end.
Proof.
  intros Hm He. unfold FixBridge.translate_price.
  destruct (Z.eqb_spec type Protocol.OrderType_Limit); [|done].
  destruct (required_field_ok m 44 error Hm He) as [He' _].
  destruct (required_field m 44 error) as [[price_text|] error']; [|done].
  destruct (Fix.parse_i64 price_text) as [price|] eqn:Hp; [|printable_constant].
  destruct (Z.leb_spec price 0); [printable_constant|]. split; [|done].
  unfold Fix.parse_i64 in Hp. case_bool_decide; [done|].
  apply parse_whole_positive in Hp as [_ ?]; [|lia..]. unfold in_i64. lia.
Qed.

Lemma translate_tif_ok m type :
  match FixBridge.translate_tif m type with
  | inl e => printable e
  | inr tif =>
      (tif = Protocol.TimeInForce_GoodTillCancel ∨ tif = Protocol.TimeInForce_ImmediateOrCancel ∨
       tif = Protocol.TimeInForce_FillOrKill) ∧
      (type = Protocol.OrderType_Market → tif ≠ Protocol.TimeInForce_GoodTillCancel)
  end.
Proof.
  unfold FixBridge.translate_tif.
  assert (∀ text tif, FixBridge.translate_time_in_force text = Some tif →
    tif = Protocol.TimeInForce_GoodTillCancel ∨ tif = Protocol.TimeInForce_ImmediateOrCancel ∨
    tif = Protocol.TimeInForce_FillOrKill) as Ht.
  { intros text tif. unfold FixBridge.translate_time_in_force. repeat case_bool_decide; naive_solver. }
  set (d := if type =? _ then _ else _).
  assert (d = Protocol.TimeInForce_GoodTillCancel ∨ d = Protocol.TimeInForce_ImmediateOrCancel) as Hd
    by (unfold d; case_match; auto).
  destruct (match Fix.get 59 m with None => Some d | Some tif => FixBridge.translate_time_in_force tif end)
    as [tif|] eqn:Hc; [|printable_constant].
  assert (tif = Protocol.TimeInForce_GoodTillCancel ∨ tif = Protocol.TimeInForce_ImmediateOrCancel ∨
    tif = Protocol.TimeInForce_FillOrKill) as Htif.
  { destruct (Fix.get 59 m); [by eapply Ht|]. injection Hc as <-. tauto. }
  destruct (Z.eqb_spec type Protocol.OrderType_Market), (Z.eqb_spec tif Protocol.TimeInForce_GoodTillCancel);
    cbn [andb]; split; auto; done.
Qed.

Lemma parse_quantity_ok text quantity :
  Fix.parse_u64 text = Some quantity → FixBridge.is_order_quantity quantity = true →
  1 ≤ quantity < 2 ^ 32.
Proof.
  unfold Fix.parse_u64, FixBridge.is_order_quantity. case_bool_decide; [done|].
  intros [Hn _]%parse_whole_unsigned. pose proof (numeral_nonneg _ _ Hn).
  intros [?%negb_true_iff%Z.eqb_neq ?%Z.leb_le]%andb_true_iff. lia.
Qed.

(* a chain of required fields: each is the field of the message, and the error
   stays printable *)
Ltac required_field_step Hm :=
  match goal with
  | He : printable ?e |- context [required_field ?m ?tag ?e] =>
      let He' := fresh "He" in let Hf := fresh "Hf" in let v := fresh "v" in let e' := fresh "e" in
      destruct (required_field_ok m tag e Hm He) as [He' Hf];
      destruct (required_field m tag e) as [v e']; cbn [fst snd] in He', Hf; clear He
  end.

Lemma translate_ok m id timestamp error :
  message_ok m → printable error → in_u64 id → in_u64 timestamp →
  match FixBridge.translate_new_order_single m id timestamp error with
  | inl e => printable e
  | inr tr =>
      let request := FixBridge.NewOrderTranslation.request tr in
      Protocol.new_order_valid request ∧
      Protocol.NewOrderRequest.order_id request = id ∧
      1 ≤ Protocol.NewOrderRequest.quantity request < 2 ^ 32 ∧
      (Protocol.NewOrderRequest.order_type request = Protocol.OrderType_Limit →
       0 < Protocol.NewOrderRequest.price request) ∧
      (Protocol.NewOrderRequest.order_type request = Protocol.OrderType_Market →
       Protocol.NewOrderRequest.time_in_force request ≠ Protocol.TimeInForce_GoodTillCancel) ∧
      Fix.get 11 m = Some (FixBridge.NewOrderTranslation.cl_ord_id tr) ∧
      printable (FixBridge.NewOrderTranslation.cl_ord_id tr)
  end.
Proof.
  intros Hm He Hid Hts. unfold FixBridge.translate_new_order_single.
  do 5 required_field_step Hm.
  destruct v as [cl|], v0 as [sy|], v1 as [si|], v2 as [qu|], v3 as [ty|]; try done.
  destruct (Protocol.is_valid_symbol (make_symbol sy)) eqn:Hsym; cbn [negb]; [|printable_constant].
  apply make_symbol_valid in Hsym.
  destruct (FixBridge.translate_side si) as [side|] eqn:Hside; [|printable_constant].
  destruct (FixBridge.translate_order_type ty) as [type|] eqn:Htype; [|printable_constant].
  destruct (Fix.parse_u64 qu) as [quantity|] eqn:Hqu; [|printable_constant].
  destruct (FixBridge.is_order_quantity quantity) eqn:Hq; cbn [negb]; [|printable_constant].
  pose proof (parse_quantity_ok _ _ Hqu Hq) as Hquantity.
  match goal with
  | He : printable ?e |- context [FixBridge.translate_price m type ?e] =>
      pose proof (translate_price_ok m type e Hm He) as Hprice
  end.
  destruct (FixBridge.translate_price m type _) as [|price]; [done|].
  pose proof (translate_tif_ok m type) as Htif.
  destruct (FixBridge.translate_tif m type) as [|tif]; [done|].
  destruct (Hf cl eq_refl) as [H11 Hcl]. cbn. unfold Protocol.new_order_valid. cbn.
  assert (side = Protocol.Side_Buy ∨ side = Protocol.Side_Sell)
    by (revert Hside; unfold FixBridge.translate_side; repeat case_bool_decide; naive_solver).
  assert (type = Protocol.OrderType_Limit ∨ type = Protocol.OrderType_Market)
    by (revert Htype; unfold FixBridge.translate_order_type; repeat case_bool_decide; naive_solver).
  destruct Hprice, Htif. split_and!; try done; unfold in_u64; lia.
Qed.

Lemma keeps_inv_ret {A} online (a : A) : keeps online (ret a : M (Gateway.t F) A).
Proof. apply (preserves_ret _). Qed.

(* one step of a handler; what a lemma asks of the arguments is left *)
Ltac keep_step :=
  lazymatch goal with
  | |- keeps _ (ret _) => apply keeps_inv_ret
  | |- keeps _ (bind FixGateway.session _) => apply keeps_session; intros ? ? ?
  | |- keeps _ (bind get _) => apply keeps_inv_get; intros ? ?
  | |- keeps _ (bind FixGateway.fetch_numeric_order_id _) => apply keeps_fetch_order_id; intros ? ?
  | |- keeps _ (bind _ _) => apply keeps_inv_bind; [|intros ?]
  | |- keeps _ (FixGateway.on_clords _) => apply keeps_clords
  | |- keeps _ (FixGateway.on_orders (delete _)) =>
      apply keeps_orders; intros ? ?; by apply orders_delete
  | |- keeps _ (FixGateway.on_orders (insert _ _)) =>
      apply keeps_orders; intros ? ?; apply orders_insert; [|assumption]
  | |- keeps _ (FixGateway.ensure_unique_clordid _) => apply keeps_ensure_unique
  | |- keeps _ (FixGateway.pop_back_pending _) => apply keeps_pop_back
  | |- keeps _ (FixGateway.push_pending _ _) => apply keeps_push_pending
  | |- keeps _ (FixGateway.send_core_request _ _) => apply keeps_send_core_request
  | |- keeps _ (FixGateway.send_session_reject _ _ _ _) => apply keeps_session_reject
  | |- keeps _ (FixGateway.send_new_reject _ _ _ _ _ _) => apply keeps_new_reject
  end.

Lemma keeps_submit_new_order m id timestamp error tr :
  message_ok m → printable error → in_u64 id → in_u64 timestamp →
  FixBridge.translate_new_order_single m id timestamp error = inr tr →
  keeps true (FixGateway.submit_new_order config tr id).
Proof.
  intros Hm He Hid Hts Htr. pose proof (translate_ok m id timestamp error Hm He Hid Hts) as H.
  rewrite Htr in H. destruct H as (Hv & Hoid & Hq & Hlimit & Hmarket & _ & Hcl).
  set (request := FixBridge.NewOrderTranslation.request tr) in *.
  assert (order_ok id (OrderState.mk id (Protocol.NewOrderRequest.symbol request)
    (Protocol.NewOrderRequest.side request) (Protocol.NewOrderRequest.order_type request)
    (Protocol.NewOrderRequest.time_in_force request) (FixBridge.NewOrderTranslation.cl_ord_id tr)
    (Protocol.NewOrderRequest.quantity request) 0 (Protocol.NewOrderRequest.quantity request)
    ld_zero (Protocol.NewOrderRequest.price request) x30)) as Hok.
  { split; cbn; [done|apply Hv|done|printable_constant|unfold in_u64; lia]. }
  unfold FixGateway.submit_new_order. fold request.
  apply keeps_inv_bind; [apply keeps_orders; intros om Hom; by apply orders_emplace|intros _].
  repeat keep_step.
  - by split; cbn; [|printable_constant|unfold in_u64; lia].
  - apply core_new; [|done..]. by apply Protocol.decode_new_order_spec.
  - destruct (negb _); repeat keep_step; auto with printable.
    + unfold FixGateway.side_text. case_match; printable_constant.
Qed.

Lemma keeps_handle_new_order m : message_ok m → keeps true (FixGateway.handle_new_order config m).
Proof.
  intros Hm. unfold FixGateway.handle_new_order.
  assert (∀ tag d, printable d → printable (FixGateway.field_or m tag d)) as Hf
    by (intros; by apply field_or_printable).
  apply keeps_inv_bind; [destruct (Fix.get 11 m); repeat keep_step|intros unique].
  destruct (negb unique); [apply keeps_new_reject; auto with printable|].
  apply keeps_fetch_order_id. intros id Hid. apply keeps_inv_get. intros g Hg.
  pose proof (translate_ok m id (now_nanoseconds g) [] Hm ltac:(apply not_elem_of_nil) Hid (now_in_range g)) as H.
  destruct (FixBridge.translate_new_order_single _ _ _ _) as [e|tr] eqn:Htr;
    [apply keeps_new_reject; auto with printable|].
  eapply keeps_submit_new_order; [done|apply not_elem_of_nil|done|apply now_in_range|done].
Qed.

(** *** Cancels and replacements *)

(* what a handler may use of the order it found *)
Definition found_ok (found : bool + (OrderState.t F * Z * Text * Text)) : Prop :=
  match found with
  | inl _ => True
  | inr (o, id, cl, orig) =>
      order_ok id o ∧ OrderState.leaves_quantity o ≠ 0 ∧ printable cl ∧ printable orig
  end.

Definition returns {A} (online : bool) (m : M (Gateway.t F) A) (Q : A → Prop) : Prop :=
  ∀ g a g', inv online g → m g = (Ok a, g') → Q a.

Lemma keeps_bind_returns {A B} online (m : M (Gateway.t F) A) (k : A → M (Gateway.t F) B) Q :
  keeps online m → returns online m Q → (∀ a, Q a → keeps online (k a)) → keeps online (bind m k).
Proof.
  intros Hm Hr Hk g Hg. unfold bind. specialize (Hm g Hg). specialize (Hr g).
  destruct (m g) as [[a|e] g']; [|done]. by apply (Hk a); [by eapply Hr|].
Qed.

Lemma keeps_find_working_order m kind :
  message_ok m → keeps true (FixGateway.find_working_order config m kind).
Proof.
  intros Hm. unfold FixGateway.find_working_order.
  assert (printable []) as Hnil by apply not_elem_of_nil.
  do 2 required_field_step Hm.
  assert (∀ (text : option Text), (∀ value, text = Some value → printable value) →
    printable (default (bytes_of "MISSING") text)) as Hd
    by (intros [text|] Ht; [by apply Ht|printable_constant]).
  assert (∀ order cl orig reason, (∃ id, from_option (order_ok id) True order) → printable cl →
    printable orig → printable reason →
    keeps true (sent <- FixGateway.send_cancel_reject config order cl orig kind reason ;;
                ret (@inl _ (OrderState.t F * Z * Text * Text) sent))) as Hreject.
  { intros order cl orig reason (id & Ho) Hc Horig Hr.
    apply keeps_inv_bind; [by apply (keeps_cancel_reject _ id)|intros; apply keeps_inv_ret]. }
  destruct v as [cl|], v0 as [orig|];
    try (apply Hreject; [by exists 0|apply Hd; naive_solver|apply Hd; naive_solver|done]).
  assert (printable cl) by naive_solver. assert (printable orig) by naive_solver.
  apply keeps_inv_bind; [apply keeps_ensure_unique|intros unique].
  destruct (negb unique); [apply Hreject; auto with printable; by exists 0|].
  apply keeps_session. intros s Hs _.
  destruct (FixGateway.lookup_order_id s orig) as [id|]; [|apply Hreject; auto with printable; by exists 0].
  destruct (SessionContext.orders s !! id) as [o|] eqn:Ho; [|apply Hreject; auto with printable; by exists 0].
  destruct (_ =? 0); [|apply keeps_inv_ret].
  apply Hreject; auto with printable. exists id. by eapply session_order.
Qed.

Lemma bind_inl {S A B C} (m : M S A) (f : A → B) s (c : C) s' :
  bind m (λ a, ret (inl (f a))) s ≠ (Ok (inr c), s').
Proof. unfold bind. by destruct (m s) as [[a|e] s1]. Qed.

Lemma returns_find_working_order m kind :
  message_ok m → returns true (FixGateway.find_working_order config m kind) found_ok.
Proof.
  intros Hm g [sent|[[[o id] cl] orig]] g' Hg; [done|]. unfold FixGateway.find_working_order.
  assert (printable []) as Hnil by apply not_elem_of_nil.
  do 2 required_field_step Hm.
  destruct v as [cl'|], v0 as [orig'|]; try (intros H; by apply bind_inl in H).
  intros (unique & g1 & Hu & H)%bind_Ok.
  destruct (negb unique); [by apply bind_inl in H|].
  apply bind_Ok in H as (s & g2 & [= <- <-] & H).
  destruct (FixGateway.lookup_order_id _ _) as [id'|]; [|by apply bind_inl in H].
  destruct (SessionContext.orders _ !! id') as [o'|] eqn:Ho; [|by apply bind_inl in H].
  destruct (Z.eqb_spec (OrderState.leaves_quantity o') 0); [by apply bind_inl in H|].
  injection H as <- <- <- <- <-.
  pose proof (keeps_ensure_unique true cl' g Hg) as Hg1. rewrite Hu in Hg1.
  split_and!; [|done|naive_solver..]. eapply session_order; [|done]. apply Hg1.
Qed.

Lemma keeps_submit_request id o p type body :
  order_ok id o → pending_ok p → core_body type body →
  keeps true (FixGateway.submit_request config o id p type body).
Proof.
  intros Ho Hp Hb. unfold FixGateway.submit_request. repeat keep_step; [done|done|].
  destruct (negb _); repeat keep_step.
  apply (keeps_cancel_reject _ id); [done|apply Hp|apply Hp|printable_constant].
Qed.

Lemma keeps_handle_cancel m : message_ok m → keeps true (FixGateway.handle_cancel config m).
Proof.
  intros Hm. unfold FixGateway.handle_cancel.
  eapply keeps_bind_returns; [by apply keeps_find_working_order|by apply returns_find_working_order|].
  intros [sent|[[[o id] cl] orig]] Hf; [apply keeps_inv_ret|]. destruct Hf as (Ho & Hl & Hcl & Horig).
  apply keeps_inv_get. intros g Hg. apply keeps_submit_request; [done|by split; cbn; [| |unfold in_u64; lia]|].
  apply core_cancel. apply Protocol.decode_cancel_order_spec. split; [|done].
  split_and!; cbn; [apply Ho|apply now_in_range|apply Ho].
Qed.

Lemma check_replacement_ok m o id :
  message_ok m → order_ok id o →
  match FixGateway.check_replacement m o with
  | inl e => printable e
  | inr (total, price) =>
      1 ≤ total < 2 ^ 32 ∧ 0 < price < 2 ^ 63 ∧ OrderState.cumulative_quantity o < total
  end.
Proof.
  intros Hm Ho. unfold FixGateway.check_replacement.
  assert (printable []) as Hnil by apply not_elem_of_nil.
  do 3 required_field_step Hm. clear Hf Hf0 Hf1.
  destruct v as [sy|], v0 as [qu|], v1 as [pr|]; try done.
  destruct (bool_decide _); cbn [negb]; [|printable_constant].
  destruct (_ =? _); cbn [negb]; [|printable_constant].
  destruct (Fix.parse_u64 qu) as [total|] eqn:Hqu; [|printable_constant].
  destruct (FixBridge.is_order_quantity total) eqn:Hq; cbn [negb]; [|printable_constant].
  pose proof (parse_quantity_ok _ _ Hqu Hq).
  destruct (Fix.parse_i64 pr) as [price|] eqn:Hpr; [|printable_constant].
  destruct (Z.leb_spec price 0); [printable_constant|].
  assert (price < 2 ^ 63).
  { unfold Fix.parse_i64 in Hpr. case_bool_decide; [done|].
    apply parse_whole_positive in Hpr as [_ ?]; lia. }
  destruct (Z.leb_spec total (OrderState.cumulative_quantity o)); [printable_constant|].
  destruct (Fix.get 54 m); [|done]. destruct (bool_decide _); [done|printable_constant].
Qed.

Lemma keeps_handle_replace m : message_ok m → keeps true (FixGateway.handle_replace config m).
Proof.
  intros Hm. unfold FixGateway.handle_replace, FixGateway.submit_replacement.
  eapply keeps_bind_returns; [by apply keeps_find_working_order|by apply returns_find_working_order|].
  intros [sent|[[[o id] cl] orig]] Hf; [apply keeps_inv_ret|]. destruct Hf as (Ho & Hl & Hcl & Horig).
  pose proof (check_replacement_ok m o id Hm Ho) as Hc.
  destruct (FixGateway.check_replacement m o) as [e|[total price]];
    [by apply (keeps_cancel_reject _ id)|]. destruct Hc as (Ht & Hp & Hlt).
  destruct (order_numbers_ok _ _ Ho) as (_ & Hcum & _). unfold in_u64 in Hcum.
  apply keeps_inv_get. intros g Hg. rewrite (proj1 (order_id_ok _ _ Ho)).
  rewrite u64_id by (unfold in_u64; lia).
  apply keeps_submit_request; [done|by split; cbn; [| |unfold in_u64; lia]|].
  apply core_replace; cbn; [|lia|lia]. apply Protocol.decode_replace_order_spec. split; [|done].
  split_and!; cbn; [apply Ho|apply now_in_range|unfold in_i64; lia|unfold in_u64; lia|lia|apply Ho].
Qed.

(** *** Messages of the core *)

Lemma working_ok id o leaves status :
  order_ok id o → in_u64 leaves → printable [status] →
  order_ok id (OrderState.set_working leaves status o).
Proof. intros [Hid Hs Hc Hst (Hq & Hcum & _)] Hl Hp. by split. Qed.

Lemma replaced_ok id o cl total leaves price status :
  order_ok id o → printable cl → in_u64 total → in_u64 leaves → printable [status] →
  order_ok id (OrderState.set_replaced cl total leaves price status o).
Proof. intros [Hid Hs Hc Hst (Hq & Hcum & _)] Hcl Ht Hl Hp. by split. Qed.

Lemma traded_ok id o cumulative leaves notional status :
  order_ok id o → in_u64 cumulative → in_u64 leaves → printable [status] →
  order_ok id (OrderState.set_traded cumulative leaves notional status o).
Proof. intros [Hid Hs Hc Hst (Hq & Hcum & _)] Hcl Ht Hl. by split. Qed.

(* an assignment to fields the invariant does not mention *)
Ltac keep_assignment :=
  apply keeps_on_session; intros ? [? ? ?]; (split; [|by split_and!]); by split.

Lemma keeps_handle_core_order_response online message :
  keeps online (FixGateway.handle_core_order_response config message).
Proof.
  unfold FixGateway.handle_core_order_response.
  destruct (Protocol.decode_order_response _) as [response|]; [|apply keeps_inv_ret].
  set (id := Protocol.OrderResponse.order_id response).
  apply keeps_session. intros s Hs _.
  destruct (SessionContext.pending s !! id) as [[|p rest]|] eqn:Hp; [apply keeps_inv_ret| |apply keeps_inv_ret].
  apply session_pending in Hp as [Hpending Hrest]%Forall_cons; [|done].
  destruct Hpending as [Hcl Horig [Htotal Hworking]].
  apply keeps_inv_bind; [|intros _].
  { apply keeps_pending. intros pm Hpm. case_bool_decide; [by apply map_Forall_delete|].
    by apply map_Forall_insert_2. }
  destruct (SessionContext.orders s !! id) as [o|] eqn:Ho; [|apply keeps_inv_ret].
  apply session_order in Ho; [|done].
  destruct (order_numbers_ok _ _ Ho) as (Hq & Hcum & Hleaves).
  assert (in_u64 0) as H0 by done.
  assert (∀ status, printable [status] → order_ok id (OrderState.set_working 0 status o)) as Hclosed
    by (intros; by apply working_ok).
  assert (printable [x30] ∧ printable [x31] ∧ printable [x34] ∧ printable [x38]) as (H30 & H31 & H34 & H38)
    by (split_and!; printable_constant).
  destruct (PendingRequest.kind p).
  - destruct (negb _ && _).
    + apply keeps_inv_bind; [keep_step; by apply working_ok|intros _].
      apply keeps_inv_bind; [|intros _].
      { destruct (_ || _); [keep_assignment|apply keeps_inv_ret]. }
      apply (keeps_execution_report _ id); cbn [printable_option from_option]; auto with printable. by apply working_ok.
    + repeat keep_step; [by apply Hclosed|].
      apply (keeps_execution_report _ id); cbn [printable_option from_option]; auto with printable.
  - destruct (negb (negb _ && _)).
    + apply (keeps_cancel_reject _ id); auto with printable.
    + repeat keep_step; [by apply Hclosed|].
      apply (keeps_execution_report _ id); cbn [printable_option from_option]; auto with printable.
  - destruct (negb (negb _ && _)).
    + apply (keeps_cancel_reject _ id); auto with printable.
    + assert (printable [if OrderState.cumulative_quantity o =? 0 then x30 else x31]) by by case_match.
      repeat keep_step; [by apply replaced_ok|].
      apply (keeps_execution_report _ id); cbn [printable_option from_option]; auto with printable. by apply replaced_ok.
Qed.

Lemma keeps_apply_trade online id execution :
  Protocol.trade_execution_valid execution →
  keeps online (FixGateway.apply_trade_to_order config id execution).
Proof.
  intros (_ & _ & _ & Hq & _). unfold FixGateway.apply_trade_to_order.
  apply keeps_session. intros s Hs _.
  destruct (SessionContext.orders s !! id) as [o|] eqn:Ho; [|apply (preserves_throw _)].
  apply session_order in Ho; [|done].
  match goal with |- context [OrderState.set_traded ?c ?l ?n ?st o] =>
    assert (order_ok id (OrderState.set_traded c l n st o)) as Hok end.
  { apply traded_ok; [done|apply u64_in|apply u64_in|]. case_match; printable_constant. }
  apply keeps_inv_bind; [keep_step; done|intros _].
  apply (keeps_execution_report _ id); cbn [printable_option from_option]; auto with printable; apply Hok.
Qed.

Lemma keeps_handle_core_trade online message :
  keeps online (FixGateway.handle_core_trade config message).
Proof.
  unfold FixGateway.handle_core_trade.
  destruct (Protocol.decode_trade_execution _) as [execution|] eqn:Hd; [|apply keeps_inv_ret].
  apply Protocol.decode_trade_execution_spec in Hd as [Hv _].
  apply keeps_session. intros s Hs _. cbn zeta.
  destruct (negb _ && negb _); [apply keeps_inv_ret|].
  destruct (_ && _); [|by apply keeps_apply_trade].
  destruct (_ && _); [repeat keep_step; keep_assignment|].
  apply keeps_inv_bind; [by apply keeps_apply_trade|intros bought]. destruct (negb bought); [apply keeps_inv_ret|].
  apply keeps_inv_bind; [by apply keeps_apply_trade|intros sold]. destruct (negb sold); [apply keeps_inv_ret|].
  repeat keep_step; keep_assignment.
Qed.

Lemma keeps_finalize_loop online ids symbol completed :
  keeps online (FixGateway.finalize_loop config ids symbol completed).
Proof.
  revert completed. induction ids as [|id ids IH]; intros completed; [apply keeps_inv_ret|].
  cbn [FixGateway.finalize_loop]. apply keeps_session. intros s Hs _.
  destruct (SessionContext.orders s !! id) as [o|] eqn:Ho; [|apply IH].
  apply session_order in Ho; [|done]. destruct (negb _); [apply IH|]. destruct (0 <? _); [|apply IH].
  assert (order_ok id (OrderState.set_working 0 x34 o)) as Hok
    by (apply working_ok; [done|done|printable_constant]).
  apply keeps_inv_bind; [keep_step; done|intros _].
  apply keeps_inv_bind; [|intros sent; destruct (negb sent); [apply keeps_inv_ret|apply IH]].
  apply (keeps_execution_report _ id); cbn [printable_option from_option]; auto with printable; first [apply Hok|printable_constant].
Qed.

Lemma keeps_process_core_message online message :
  keeps online (FixGateway.process_core_message config message).
Proof.
  unfold FixGateway.process_core_message. cbn zeta.
  destruct (_ || _); [apply keeps_handle_core_order_response|].
  destruct (_ =? _); [apply keeps_handle_core_trade|].
  destruct (_ =? _); [|apply keeps_inv_ret].
  unfold FixGateway.finalize_non_resting_orders.
  destruct (Protocol.decode_book_update _); [|apply keeps_inv_ret].
  apply keeps_session. intros s Hs _.
  apply keeps_inv_bind; [apply keeps_finalize_loop|intros [completed|]]; [|apply keeps_inv_ret].
  repeat keep_step. keep_assignment.
Qed.

(** *** Messages of the client *)

Lemma keeps_handle_logon m type n :
  message_ok m → printable type → keeps false (FixGateway.handle_logon config m type n).
Proof.
  intros Hm Ht. unfold FixGateway.handle_logon.
  assert (∀ reason, printable (bytes_of reason) →
    keeps false (FixGateway.send_session_reject config n (bytes_of reason) (Some type))) as Hreject
    by (intros; by apply keeps_session_reject).
  apply keeps_session. intros s Hs _.
  destruct (SessionContext.logged_on s); [apply Hreject; printable_constant|].
  destruct (Fix.get 49 m) as [sender|] eqn:Hsender; [|apply Hreject; printable_constant].
  destruct (Fix.get 98 m); [|apply Hreject; printable_constant].
  destruct (Fix.get 108 m); [|apply Hreject; printable_constant].
  destruct (bool_decide _); cbn [negb]; [|apply Hreject; printable_constant].
  destruct (Fix.parse_u64 _); [|apply Hreject; printable_constant].
  destruct (_ || _); [apply Hreject; printable_constant|].
  apply get_printable in Hsender; [|done].
  apply keeps_inv_bind; [|intros _].
  { apply keeps_on_session. intros s' [? ? ?]. split; [|by split_and!]. by split. }
  apply keeps_inv_bind; [keep_assignment|intros _]. apply keeps_inv_get. intros g Hg.
  apply keeps_inv_bind; [keep_assignment|intros _].
  destruct (_ <? 0).
  - apply keeps_inv_bind; [keep_assignment|intros _].
    apply keeps_send_session_message; [done|printable_constant|valid_fields].
  - apply keeps_inv_bind; [keep_assignment|intros _].
    apply keeps_send_session_message; [done|printable_constant|valid_fields].
Qed.

Lemma keeps_handle_application m type n :
  message_ok m → printable type → keeps true (FixGateway.handle_application config m type n).
Proof.
  intros Hm Ht. unfold FixGateway.handle_application.
  destruct (bool_decide _); [apply keeps_inv_ret|].
  destruct (bool_decide _).
  { destruct (Fix.get 112 m) as [value|] eqn:Hv; [|apply keeps_session_reject; [printable_constant|done]].
    apply get_printable in Hv; [|done].
    apply keeps_send_session_message; [done|printable_constant|valid_fields]. }
  destruct (bool_decide _).
  { apply keeps_inv_bind; [keep_assignment|intros _].
    apply keeps_send_session_message; [done|printable_constant|valid_fields]. }
  destruct (bool_decide _); [by apply keeps_handle_new_order|].
  destruct (bool_decide _); [by apply keeps_handle_cancel|].
  destruct (bool_decide _); [by apply keeps_handle_replace|].
  apply keeps_session_reject; [printable_constant|done].
Qed.

(* a session known to be logged on *)
Lemma keeps_logged_on {A} (m : M (Gateway.t F) A) g :
  keeps true m → inv false g → SessionContext.logged_on (Gateway.session g) = true →
  inv false (m g).2.
Proof. intros Hm [] Hl. destruct (Hm g); [by split|]. by split. Qed.

Lemma validate_printable m (s : SessionContext.t F) e :
  FixGateway.validate_comp_ids config m s = Some e → printable e.
Proof.
  unfold FixGateway.validate_comp_ids. intros H. repeat case_match; simplify_eq; printable_constant.
Qed.

Lemma keeps_process_fix_message m :
  message_ok m → keeps false (FixGateway.process_fix_message config m).
Proof.
  intros Hm. unfold FixGateway.process_fix_message.
  intros g Hg. unfold bind at 1, FixGateway.session. set (s := Gateway.session g).
  destruct (Fix.get 35 m) as [type|] eqn:Htype; [|apply (keeps_session_reject false); [printable_constant|done|done]].
  apply get_printable in Htype; [|done].
  destruct (FixGateway.sequence_number m) as [n|]; [|apply (keeps_session_reject false); [printable_constant|done|done]].
  destruct (negb _).
  { apply (keeps_session_reject false); [|done|done]. auto with printable. }
  unfold bind at 1, FixGateway.on_session, modify.
  set (g1 := Gateway.set_session _ g).
  assert (inv false g1) as Hg1 by (destruct Hg as [[] ? ? ? ? ?]; by split).
  destruct (FixGateway.validate_comp_ids config m s) as [e|] eqn:Hv.
  { apply (keeps_session_reject false); [by eapply validate_printable|done|done]. }
  destruct (bool_decide _); [by apply keeps_handle_logon|].
  destruct (SessionContext.logged_on s) eqn:Hl; cbn [negb].
  - apply keeps_logged_on; [by apply keeps_handle_application|done|done].
  - apply (keeps_session_reject false); [printable_constant|done|done].
Qed.

(** *** The loop of a session *)

Lemma keeps_fix_receive_loop fuel : keeps false (FixGateway.fix_receive_loop config fuel).
Proof.
  induction fuel as [|fuel IH]; [apply (preserves_throw _)|]. cbn [FixGateway.fix_receive_loop].
  apply keeps_session. intros s Hs _.
  destruct (Fix.extract_one _) as [[extracted|e] buffer]; [|apply (preserves_throw _)].
  apply keeps_inv_bind; [keep_assignment|intros _].
  destruct (Fix.ExtractResult.status extracted); [apply keeps_inv_ret| |apply keeps_inv_ret].
  apply (keeps_bind_returns _ _ _ (λ r, ∀ m, Fix.ParseResult.message r = Some m → message_ok m)).
  - apply (preserves_lift _).
  - intros g r g' _ [= Hr _] m Hm. destruct r as [r e]. cbn in Hm. subst r. by eapply parsed_ok.
  - intros r Hr. destruct (Fix.ParseResult.message r) as [m|]; [|apply keeps_inv_ret].
    apply keeps_inv_bind; [by apply keeps_process_fix_message, Hr|intros healthy].
    apply keeps_session. intros s' Hs' _. destruct (_ || _); [apply keeps_inv_ret|apply IH].
Qed.

Lemma keeps_core_receive_loop online fuel healthy :
  keeps online (FixGateway.core_receive_loop config fuel healthy).
Proof.
  revert healthy. induction fuel as [|fuel IH]; intros healthy; [apply (preserves_throw _)|].
  cbn [FixGateway.core_receive_loop]. apply keeps_session. intros s Hs _.
  destruct (FixGateway.extract_core_message _) as [core_message buffer].
  apply keeps_inv_bind; [keep_assignment|intros _].
  destruct core_message as [core_message|]; [|apply keeps_inv_ret].
  apply keeps_inv_bind; [apply keeps_process_core_message|intros healthy'].
  destruct (negb healthy'); [apply keeps_inv_ret|apply IH].
Qed.

Lemma keeps_check_timers healthy : keeps false (FixGateway.check_timers config healthy).
Proof.
  unfold FixGateway.check_timers. apply keeps_session. intros s Hs _.
  destruct (negb _); [apply keeps_inv_ret|]. apply keeps_inv_get. intros g Hg. cbn zeta.
  apply keeps_inv_bind; [|intros healthy'].
  { destruct (_ <=? _); [|apply keeps_inv_ret].
    apply keeps_send_session_message; [done|printable_constant|constructor]. }
  destruct (_ <=? _); [|apply keeps_inv_ret]. apply keeps_inv_bind; [|intros _; apply keeps_inv_ret].
  apply keeps_send_session_message; [done|printable_constant|valid_fields].
Qed.

Lemma keeps_serve_core had_core core healthy :
  keeps false (FixGateway.serve_core config had_core core healthy).
Proof.
  unfold FixGateway.serve_core. destruct (negb had_core); [apply keeps_inv_ret|].
  destruct core as [| |[|c bytes]]; [apply keeps_inv_ret| |apply keeps_inv_ret|].
  - apply keeps_inv_bind; [|intros _; apply keeps_inv_ret].
    apply keeps_send_session_message; [done|printable_constant|valid_fields].
  - apply keeps_inv_bind; [keep_assignment|intros _]. apply keeps_session. intros s Hs _.
    apply keeps_inv_bind; [apply keeps_core_receive_loop|intros h; apply keeps_inv_ret].
Qed.

Lemma keeps_poll_turn client core : keeps false (FixGateway.poll_turn config client core).
Proof.
  unfold FixGateway.poll_turn. apply keeps_session. intros s Hs _. cbn zeta.
  assert (∀ had_core healthy, keeps false
    (served <- FixGateway.serve_core config had_core core healthy ;;
     match served with
     | None => ret false
     | Some healthy =>
         healthy <- FixGateway.check_timers config healthy ;;
         s <- FixGateway.session ;;
         ret (healthy && negb (SessionContext.closing s))
     end)) as Hserve.
  { intros had_core healthy. apply keeps_inv_bind; [apply keeps_serve_core|].
    intros [h|]; [|apply keeps_inv_ret]. apply keeps_inv_bind; [apply keeps_check_timers|intros h'].
    apply keeps_session. intros; apply keeps_inv_ret. }
  destruct client as [| |[|c bytes]]; [apply Hserve|apply keeps_inv_ret..|].
  apply keeps_inv_get. intros g Hg. apply keeps_inv_bind; [keep_assignment|intros _].
  apply keeps_inv_bind; [keep_assignment|intros _]. apply keeps_session. intros s' Hs' _.
  apply keeps_inv_bind; [apply keeps_fix_receive_loop|intros healthy; apply Hserve].
Qed.

Lemma keeps_handle_client inputs : keeps false (FixGateway.handle_client config inputs).
Proof.
  induction inputs as [|[client core] inputs IH]; [apply keeps_inv_ret|]. cbn [FixGateway.handle_client].
  apply keeps_inv_bind; [apply keeps_poll_turn|intros [|]; [apply IH|apply keeps_inv_ret]].
Qed.

Lemma new_session_inv client_socket now id exec_id :
  in_u64 id →
  inv false (Gateway.mk (FixGateway.new_session config client_socket now) id exec_id []).
Proof.
  intros Hid. split; cbn; [|done|apply numbered_nil|apply numbered_nil|done|done].
  split; cbn; [apply not_elem_of_nil|apply map_Forall_empty|apply map_Forall_empty].
Qed.
End invariant.
