(* ===== verification/FixDemo.v ===== *)
(** * A concrete FIX session

    Sockets that take everything, clocks that stand still, rational numbers for
    long double: the witnesses of the session theorems run on it. *)
From Stdlib Require Import QArith.
From S2P Require Import Prelude Bytes Numerals Protocol Fix FixState FixGateway FixInvariant.
#[global] Open Scope Z_scope.

Module FixDemo.

#[global] Instance demo_world : World Q := {|
  client_accepts _ := true;
  core_accepts _ := true;
  connect_to_exchange _ := 7;
  now_nanoseconds _ := 1000;
  steady_now _ := 5;
  utc_timestamp _ := bytes_of "20250101-00:00:00.000";
  iteration_order l := l
|}.

#[global] Instance demo_laws : WorldLaws Q.
Proof.
  split; [by intros g|intros g|done].
  refine (bool_decide_eq_true_1 _ _); vm_compute; reflexivity.
Qed.

Lemma decimal_printable n : Fix.soh ∉ to_string n.
Proof. apply printable_to_string. Qed.

#[global] Instance demo_floats : LongDoubleLaws Q.
Proof.
  split. intros x. cbn [ld_double_text rational_long_double].
  apply printable_app; [apply printable_to_string|]. apply printable_app.
  { refine (bool_decide_eq_true_1 _ _); vm_compute; reflexivity. }
  set (n := Z.abs _). clearbody n. intros Hin. apply list_elem_of_fmap in Hin as (d & Hd & Hin).
  apply list_elem_of_fmap in Hin as (i & -> & _). pose proof (Z.mod_pos_bound (n `div` 10 ^ i) 10).
  revert Hd. generalize ((n `div` 10 ^ i) `mod` 10) H. clear. intros d Hd.
  assert (d = 0 ∨ d = 1 ∨ d = 2 ∨ d = 3 ∨ d = 4 ∨ d = 5 ∨ d = 6 ∨ d = 7 ∨ d = 8 ∨ d = 9) as Hcases by lia.
  by destruct_or! Hcases; subst d.
Qed.

Definition config : FixGatewayConfig.t :=
  FixGatewayConfig.mk 9878 "127.0.0.1" 9000 (bytes_of "EXCHANGELAB") 30.

Lemma sender_printable : printable (FixGatewayConfig.sender_comp_id config).
Proof. refine (bool_decide_eq_true_1 _ _); vm_compute; reflexivity. Qed.

(* a message of the client: type, sequence number and the other fields *)
Definition from_client (type : string) (sequence : Z) (fields : list (Z * string)) : Fix.Message.t :=
  foldl (λ m f, Fix.add f.1 (bytes_of f.2) m)
    (Fix.add 56 (bytes_of "EXCHANGELAB") (Fix.add 49 (bytes_of "CLIENT")
      (Fix.add 34 (to_string sequence) (Fix.add 35 (bytes_of type) (Fix.Message.mk []))))) fields.

Definition logon : Fix.Message.t := from_client "A" 1 [(98, "0"); (108, "30")]%string.
Definition buy : Fix.Message.t :=
  from_client "D" 2 [(11, "ORDER1"); (55, "DEMO"); (54, "1"); (38, "100"); (40, "2"); (44, "250")]%string.
Definition unknown_cancel : Fix.Message.t := from_client "F" 3 [(11, "C1"); (41, "NONE"); (55, "DEMO")]%string.
Definition replace : Fix.Message.t :=
  from_client "G" 3 [(11, "ORDER2"); (41, "ORDER1"); (55, "DEMO"); (38, "120"); (44, "251")]%string.
Definition cancel : Fix.Message.t := from_client "F" 3 [(11, "C1"); (41, "ORDER1"); (55, "DEMO")]%string.

(* a message of the core *)
Definition core_message (type : Z) (body : list byte) : CoreMessage.t :=
  CoreMessage.mk (Protocol.MessageHeader.mk Protocol.protocol_magic Protocol.protocol_version type
                    (Z.of_nat (length body)) 1) body.
Definition core_bytes (m : CoreMessage.t) : list byte :=
  Protocol.encode_header (CoreMessage.header m) ++ CoreMessage.body m.
Definition response (type order_id success : Z) : CoreMessage.t :=
  core_message type (Protocol.encode_order_response (Protocol.OrderResponse.mk order_id 0 success)).
Definition accepted_order : CoreMessage.t := response Protocol.MessageType.OrderAccepted 1 1.

Definition inputs : list (FixGateway.Input * FixGateway.Input) :=
  [(FixGateway.Received (Fix.encode logon ++ take 20 (Fix.encode buy)), FixGateway.Silent);
   (FixGateway.Received (drop 20 (Fix.encode buy) ++ Fix.encode unknown_cancel),
    FixGateway.Received (core_bytes accepted_order))].

(* the gateway's counters, which sessions share, are at 1 here, to keep the
   texts short; those of a new gateway are in [FixThreads.new] *)
Definition connected : Gateway.t Q := Gateway.mk (FixGateway.new_session config 6 0) 1 1 [].
Definition finished : Gateway.t Q := (FixGateway.handle_client config inputs connected).2.

(* the logon is answered, the order reported, the unknown cancel refused *)
Example finished_sent :
  length (to_client (Gateway.sent finished)) = 3%nat ∧ length (to_core (Gateway.sent finished)) = 1%nat ∧
  (Fix.printable <$> take 1 (to_client (Gateway.sent finished))) =
    [bytes_of ("8=FIX.4.4|9=78|35=A|34=1|49=EXCHANGELAB|56=CLIENT|52=20250101-00:00:00.000" ++
               "|98=0|108=30|141=N|10=211|")].
Proof. vm_compute. done. Qed.
End FixDemo.
