(* ===== verification/FixSessions.v ===== *)
(** * Theorems about FIX sessions

    A session runs to its end on any input ([session_total]); what it sends to
    the client ([client_messages_well_formed]) and to the core
    ([core_requests_valid]). *)
From Stdlib Require Import QArith.
From S2P Require Import Prelude Bytes Numerals Protocol Fix FixState FixGateway FixInvariant FixDemo.
#[global] Open Scope Z_scope.

Module FixSessions.

(** ** Handlers that return, and leave the receive buffers alone *)

Section total.
Context {F : Type} `{!LongDouble F} `{!World F} (config : FixGatewayConfig.t).

Definition buffers (g : Gateway.t F) : list byte * list byte :=
  (SessionContext.fix_receive_buffer (Gateway.session g),
   SessionContext.core_receive_buffer (Gateway.session g)).

Definition runs {A} (m : M (Gateway.t F) A) : Prop :=
  ∀ g, ∃ a g', m g = (Ok a, g') ∧ buffers g' = buffers g.

Lemma runs_ret {A} (a : A) : runs (ret a).
Proof. intros g. by exists a, g. Qed.

Lemma runs_bind {A B} (m : M (Gateway.t F) A) (k : A → M (Gateway.t F) B) :
  runs m → (∀ a, runs (k a)) → runs (bind m k).
Proof.
  intros Hm Hk g. destruct (Hm g) as (a & g1 & Hg & Hb). destruct (Hk a g1) as (b & g2 & Hg2 & Hb2).
  exists b, g2. unfold bind. rewrite Hg. split; [done|]. by rewrite Hb2.
Qed.

Lemma runs_session : runs FixGateway.session.
Proof. intros g. by eexists _, g. Qed.

Lemma runs_get : runs get.
Proof. intros g. by eexists _, g. Qed.

Lemma runs_on_session (f : SessionContext.t F → SessionContext.t F) :
  (∀ s, SessionContext.fix_receive_buffer (f s) = SessionContext.fix_receive_buffer s ∧
        SessionContext.core_receive_buffer (f s) = SessionContext.core_receive_buffer s) →
  runs (FixGateway.on_session f).
Proof.
  intros Hf g. eexists tt, _. split; [done|]. unfold buffers. cbn.
  by destruct (Hf (Gateway.session g)) as [-> ->].
Qed.

Lemma runs_modify (f : Gateway.t F → Gateway.t F) :
  (∀ g, Gateway.session (f g) = Gateway.session g) → runs (modify f).
Proof. intros Hf g. exists tt, (f g). split; [done|]. unfold buffers. by rewrite Hf. Qed.

(* every primitive of the handlers *)
Ltac run_step :=
  lazymatch goal with
  | |- runs (ret _) => apply runs_ret
  | |- runs (bind _ _) => apply runs_bind; [|intros ?]
  | |- runs FixGateway.session => apply runs_session
  | |- runs get => apply runs_get
  | |- runs (FixGateway.on_session _) => apply runs_on_session; intros ?; split; reflexivity
  | |- runs (FixGateway.on_orders _) => apply runs_on_session; intros ?; split; reflexivity
  | |- runs (FixGateway.on_clords _) => apply runs_on_session; intros ?; split; reflexivity
  | |- runs (FixGateway.on_pending _) => apply runs_on_session; intros ?; split; reflexivity
  | |- runs (modify _) => apply runs_modify; intros ?; reflexivity
  | |- runs (match ?x with _ => _ end) => destruct x
  end.

Lemma runs_send_session_message type fs : runs (FixGateway.send_session_message config type fs).
Proof.
  unfold FixGateway.send_session_message, FixGateway.build_session_message, FixGateway.send_fix_wire.
  repeat run_step.
Qed.

Lemma runs_execution_report o cl e st orig lq lp text :
  runs (FixGateway.send_execution_report config o cl e st orig lq lp text).
Proof.
  unfold FixGateway.send_execution_report, FixGateway.fetch_exec_id.
  repeat run_step. apply runs_send_session_message.
Qed.

Lemma runs_new_reject cl sy si q r : runs (FixGateway.send_new_reject config cl sy si q r).
Proof.
  unfold FixGateway.send_new_reject, FixGateway.fetch_exec_id.
  repeat run_step. apply runs_send_session_message.
Qed.

Lemma runs_cancel_reject o cl orig kind r : runs (FixGateway.send_cancel_reject config o cl orig kind r).
Proof. apply runs_send_session_message. Qed.

Lemma runs_session_reject n r t : runs (FixGateway.send_session_reject config n r t).
Proof. apply runs_send_session_message. Qed.

Lemma runs_core_request type body : runs (FixGateway.send_core_request type body).
Proof. unfold FixGateway.send_core_request. repeat run_step. Qed.

Lemma runs_ensure_unique cl : runs (FixGateway.ensure_unique_clordid cl).
Proof. unfold FixGateway.ensure_unique_clordid. repeat run_step. Qed.

(* the handlers that have a lemma *)
Ltac run_handler :=
  lazymatch goal with
  | |- runs (FixGateway.send_execution_report _ _ _ _ _ _ _ _ _) => apply runs_execution_report
  | |- runs (FixGateway.send_new_reject _ _ _ _ _ _) => apply runs_new_reject
  | |- runs (FixGateway.send_cancel_reject _ _ _ _ _ _) => apply runs_cancel_reject
  | |- runs (FixGateway.send_session_reject _ _ _ _) => apply runs_session_reject
  | |- runs (FixGateway.send_core_request _ _) => apply runs_core_request
  | |- runs (FixGateway.ensure_unique_clordid _) => apply runs_ensure_unique
  | |- runs (FixGateway.send_session_message _ _ _) => apply runs_send_session_message
  end.

Ltac run := repeat first [run_step | run_handler].

Lemma runs_find_working_order m kind : runs (FixGateway.find_working_order config m kind).
Proof.
  unfold FixGateway.find_working_order. destruct (required_field m 11 []) as [cl e].
  destruct (required_field m 41 e) as [orig e']. run.
Qed.

Lemma runs_process_fix_message m : runs (FixGateway.process_fix_message config m).
Proof.
  unfold FixGateway.process_fix_message, FixGateway.handle_logon, FixGateway.handle_application,
    FixGateway.handle_new_order, FixGateway.submit_new_order, FixGateway.fetch_numeric_order_id,
    FixGateway.handle_cancel, FixGateway.handle_replace, FixGateway.submit_replacement, FixGateway.submit_request,
    FixGateway.push_pending, FixGateway.pop_back_pending.
  repeat first
    [ run_step | run_handler
    | lazymatch goal with
      | |- runs (FixGateway.find_working_order _ _ _) => apply runs_find_working_order
      end ].
Qed.

Lemma runs_core_order_response message : runs (FixGateway.handle_core_order_response config message).
Proof. unfold FixGateway.handle_core_order_response. run. Qed.

(* a trade of two orders of the session: the second is still there after the
   report about the first *)
Definition has_order (id : Z) (g : Gateway.t F) : Prop :=
  is_Some (SessionContext.orders (Gateway.session g) !! id).

Definition same_orders (g g' : Gateway.t F) : Prop :=
  SessionContext.orders (Gateway.session g') = SessionContext.orders (Gateway.session g).

Lemma send_orders type fs g b g' :
  FixGateway.send_session_message config type fs g = (b, g') → same_orders g g'.
Proof.
  cbn. unfold FixGateway.send_fix_wire, bind, get, modify, ret. cbn.
  case_match; intros [= <- <-]; reflexivity.
Qed.

Lemma runs_apply_trade id execution g : has_order id g →
  ∃ b g', FixGateway.apply_trade_to_order config id execution g = (Ok b, g') ∧ buffers g' = buffers g ∧
    ∀ id', has_order id' g → has_order id' g'.
Proof.
  intros [o Ho]. unfold FixGateway.apply_trade_to_order, FixGateway.session.
  unfold bind at 1. rewrite Ho. unfold bind at 1. cbn [FixGateway.on_orders FixGateway.on_session modify].
  set (o' := OrderState.set_traded _ _ _ _ _). set (g1 := Gateway.set_session _ g).
  destruct (runs_execution_report o' (OrderState.current_cl_ord_id o') (bytes_of "F")
    (OrderState.ord_status o') None (Some (Z.min (OrderState.leaves_quantity o)
                            (Protocol.TradeExecution.quantity execution)))
    (Some (Protocol.TradeExecution.price execution)) None g1) as (b & g' & Hg' & Hb).
  exists b, g'. split; [done|]. split; [done|].
  intros id' Hid'. unfold has_order.
  assert (same_orders g1 g') as ->.
  { unfold FixGateway.send_execution_report in Hg'. unfold bind at 1 in Hg'.
    cbn [FixGateway.fetch_exec_id bind get modify ret] in Hg'. by apply send_orders in Hg'. }
  cbn. destruct (decide (id = id')) as [->|]; [by rewrite lookup_insert_eq|by rewrite lookup_insert_ne].
Qed.

Lemma runs_core_trade message : runs (FixGateway.handle_core_trade config message).
Proof.
  unfold FixGateway.handle_core_trade.
  destruct (Protocol.decode_trade_execution _) as [execution|]; [|apply runs_ret].
  intros g. unfold FixGateway.session. unfold bind at 1. cbv zeta.
  set (buy := Protocol.TradeExecution.buy_order_id execution).
  set (sell := Protocol.TradeExecution.sell_order_id execution).
  case_bool_decide as Hbuy; case_bool_decide as Hsell; cbn [negb andb].
  - case_match; [revert g Hbuy Hsell H; intros g _ _ _; apply (runs_bind (FixGateway.on_session _)); [|intros]; run|].
    destruct (runs_apply_trade buy execution g Hbuy) as (b1 & g1 & Hg1 & Hb1 & Hkeep).
    unfold bind at 1. rewrite Hg1. destruct b1; cbn [negb]; [|by exists false, g1].
    destruct (runs_apply_trade sell execution g1 (Hkeep _ Hsell)) as (b2 & g2 & Hg2 & Hb2 & _).
    unfold bind at 1. rewrite Hg2. destruct b2; cbn [negb]; [|exists false, g2; by rewrite Hb2].
    eexists true, _. split; [reflexivity|]. cbn. by rewrite <- Hb1, <- Hb2.
  - destruct (runs_apply_trade buy execution g Hbuy) as (b & g' & ? & ? & _). by exists b, g'.
  - destruct (runs_apply_trade sell execution g Hsell) as (b & g' & ? & ? & _). by exists b, g'.
  - by exists true, g.
Qed.

Lemma runs_finalize_loop ids symbol completed : runs (FixGateway.finalize_loop config ids symbol completed).
Proof.
  revert completed. induction ids as [|id ids IH]; intros completed; cbn [FixGateway.finalize_loop]; run; apply IH.
Qed.

Lemma runs_process_core_message message : runs (FixGateway.process_core_message config message).
Proof.
  unfold FixGateway.process_core_message, FixGateway.finalize_non_resting_orders.
  repeat first
    [ run_step
    | lazymatch goal with
      | |- runs (FixGateway.handle_core_order_response _ _) => apply runs_core_order_response
      | |- runs (FixGateway.handle_core_trade _ _) => apply runs_core_trade
      | |- runs (FixGateway.finalize_loop _ _ _ _) => apply runs_finalize_loop
      end ].
Qed.

(** ** The loops of a turn: each message taken shortens a buffer *)

Definition size (g : Gateway.t F) : Z :=
  Z.of_nat (length (buffers g).1) + Z.of_nat (length (buffers g).2).

Definition ends {A} (m : M (Gateway.t F) A) (g : Gateway.t F) : Prop :=
  ∃ a g', m g = (Ok a, g') ∧ size g' ≤ size g.

Lemma runs_ends {A} (m : M (Gateway.t F) A) g : runs m → ends m g.
Proof. intros Hm. destruct (Hm g) as (a & g' & Hg & Hb). exists a, g'. unfold size. by rewrite Hb. Qed.

Lemma ends_ret {A} (a : A) g : ends (ret a) g.
Proof. apply runs_ends, runs_ret. Qed.

Lemma ends_bind {A B} (m : M (Gateway.t F) A) (k : A → M (Gateway.t F) B) g :
  ends m g → (∀ a g', size g' ≤ size g → ends (k a) g') → ends (bind m k) g.
Proof.
  intros (a & g1 & Hg & H1) Hk. destruct (Hk a g1 H1) as (b & g2 & Hg2 & H2).
  exists b, g2. unfold bind. rewrite Hg. split; [done|]. lia.
Qed.

Lemma ends_session {A} (k : SessionContext.t F → M (Gateway.t F) A) g :
  ends (k (Gateway.session g)) g → ends (bind FixGateway.session k) g.
Proof. done. Qed.

Lemma ends_assign {A} (f : SessionContext.t F → SessionContext.t F) (k : unit → M (Gateway.t F) A) g :
  let g1 := Gateway.set_session (f (Gateway.session g)) g in
  size g1 ≤ size g → ends (k tt) g1 → ends (bind (FixGateway.on_session f) k) g.
Proof. intros g1 H1 (a & g' & Hg & H'). exists a, g'. split; [done|]. lia. Qed.

Lemma fix_receive_loop_ends fuel g :
  size g < 2 ^ 63 → (length (buffers g).1 < fuel)%nat → ends (FixGateway.fix_receive_loop config fuel) g.
Proof.
  revert g. induction fuel as [|fuel IH]; intros g Hsize Hfuel; [lia|].
  cbn [FixGateway.fix_receive_loop]. apply ends_session.
  unfold size in Hsize. cbn [buffers fst snd] in Hsize, Hfuel.
  destruct (Fix.extract_total (SessionContext.fix_receive_buffer (Gateway.session g)))
    as (r & b' & -> & Hx); [lia|].
  assert (length b' ≤ length (SessionContext.fix_receive_buffer (Gateway.session g)) ∧
    (Fix.ExtractResult.status r = Fix.ExtractStatus.MessageReady →
     length b' < length (SessionContext.fix_receive_buffer (Gateway.session g))))%nat as [Hle Hlt].
  { unfold Fix.extracts in Hx. destruct (Fix.ExtractResult.status r);
      [destruct Hx as [d ->]|destruct Hx as (Hw & d & ->)|destruct Hx as [d ->]];
      rewrite !length_app; (split; [lia|]); [done| |done].
    destruct (Fix.ExtractResult.wire_message r); [done|]. simpl. lia. }
  apply ends_assign; [unfold size; cbn; lia|]. destruct (Fix.ExtractResult.status r);
    [apply ends_ret|specialize (Hlt eq_refl)|apply ends_ret].
  unfold lift. destruct (Fix.parse_sound (Fix.ExtractResult.wire_message r)) as (parsed & -> & _).
  unfold bind at 1. destruct (Fix.ParseResult.message parsed) as [m|]; [|apply ends_ret].
  set (g1 := Gateway.set_session _ _).
  destruct (runs_process_fix_message m g1) as (healthy & g2 & Hg2 & Hb2).
  assert (ends (s <- FixGateway.session ;;
    if SessionContext.closing s || negb healthy then ret healthy
    else FixGateway.fix_receive_loop config fuel) g2) as (a & g3 & Hg3 & H3).
  { apply ends_session. destruct (_ || _); [apply ends_ret|].
    apply IH; [unfold size|]; rewrite Hb2; cbn; lia. }
  exists a, g3. unfold bind at 1. rewrite Hg2. split; [done|]. unfold size in *. by rewrite Hb2 in H3.
Qed.

Lemma extract_core_shortens b message b' :
  FixGateway.extract_core_message b = (message, b') →
  (length b' ≤ length b ∧ (is_Some message → length b' < length b))%nat.
Proof.
  unfold FixGateway.extract_core_message. destruct (Nat.ltb_spec (length b) Protocol.header_size) as [|Hh].
  { intros [= <- <-]. split; [lia|]. by intros [? ?]. }
  destruct (Protocol.decode_header _) as [header|] eqn:Hheader;
    [|intros [= <- <-]; simpl; split; [lia|by intros [? ?]]].
  apply Protocol.decode_header_spec in Hheader as [(_ & _ & _ & Hbody & _) _]. unfold in_u32 in Hbody.
  destruct (_ >? _); [intros [= <- <-]; simpl; split; [lia|by intros [? ?]]|].
  destruct (Z.ltb_spec (Z.of_nat (length b))
    (Z.of_nat Protocol.header_size + Protocol.MessageHeader.body_size header)) as [|Hb];
    intros [= <- <-]; [split; [lia|by intros [? ?]]|].
  rewrite length_drop. split; [lia|]. intros _.
  unfold Protocol.header_size in *. lia.
Qed.

Lemma core_receive_loop_ends fuel healthy g :
  (length (buffers g).2 < fuel)%nat → ends (FixGateway.core_receive_loop config fuel healthy) g.
Proof.
  revert healthy g. induction fuel as [|fuel IH]; intros healthy g Hfuel; [lia|].
  cbn [FixGateway.core_receive_loop]. apply ends_session. cbn [buffers fst snd] in Hfuel.
  destruct (FixGateway.extract_core_message _) as [message b'] eqn:Hx.
  apply extract_core_shortens in Hx as [Hle Hlt].
  apply ends_assign; [unfold size; cbn; lia|]. destruct message as [message|]; [|apply ends_ret].
  specialize (Hlt (mk_is_Some _ _ eq_refl)). set (g1 := Gateway.set_session _ _).
  destruct (runs_process_core_message message g1) as (h & g2 & Hg2 & Hb2).
  assert (ends (if negb h then ret false else FixGateway.core_receive_loop config fuel h) g2)
    as (a & g3 & Hg3 & H3).
  { destruct (negb h); [apply ends_ret|]. apply IH. rewrite Hb2. cbn. lia. }
  exists a, g3. unfold bind at 1. rewrite Hg2. split; [done|]. unfold size in *. by rewrite Hb2 in H3.
Qed.

Lemma runs_check_timers healthy : runs (FixGateway.check_timers config healthy).
Proof. unfold FixGateway.check_timers. run. Qed.

Definition bytes_in (input : FixGateway.Input) : Z :=
  match input with FixGateway.Received bytes => Z.of_nat (length bytes) | _ => 0 end.

(* a handler may add [n] bytes to the buffers *)
Definition grows {A} (n : Z) (m : M (Gateway.t F) A) (g : Gateway.t F) : Prop :=
  ∃ a g', m g = (Ok a, g') ∧ size g' ≤ size g + n.

Lemma grows_bind {A B} n n' (m : M (Gateway.t F) A) (k : A → M (Gateway.t F) B) g :
  grows n m g → (∀ a g', size g' ≤ size g + n → grows n' (k a) g') → grows (n + n') (bind m k) g.
Proof.
  intros (a & g1 & Hg & H1) Hk. destruct (Hk a g1 H1) as (b & g2 & Hg2 & H2).
  exists b, g2. unfold bind. rewrite Hg. split; [done|]. lia.
Qed.

Lemma ends_grows {A} n (m : M (Gateway.t F) A) g : 0 ≤ n → ends m g → grows n m g.
Proof. intros Hn (a & g' & Hg & H). exists a, g'. split; [done|lia]. Qed.

Lemma grows_assign {A} n n' (f : SessionContext.t F → SessionContext.t F) (k : unit → M (Gateway.t F) A) g :
  let g1 := Gateway.set_session (f (Gateway.session g)) g in
  size g1 = size g + n → grows n' (k tt) g1 → grows (n + n') (bind (FixGateway.on_session f) k) g.
Proof. intros g1 H1 (a & g' & Hg & H'). exists a, g'. split; [done|]. lia. Qed.

Lemma grows_session {A} n (k : SessionContext.t F → M (Gateway.t F) A) g :
  grows n (k (Gateway.session g)) g → grows n (bind FixGateway.session k) g.
Proof. done. Qed.

Lemma grows_get {A} n (k : Gateway.t F → M (Gateway.t F) A) g :
  grows n (k g) g → grows n (bind get k) g.
Proof. done. Qed.

Lemma serve_core_grows had_core core healthy g :
  grows (bytes_in core) (FixGateway.serve_core config had_core core healthy) g.
Proof.
  unfold FixGateway.serve_core, bytes_in.
  destruct (negb had_core); [apply ends_grows; [destruct core; lia|apply ends_ret]|].
  destruct core as [| |[|c bytes]]; try solve [apply ends_grows; [cbn; lia|apply runs_ends; run]].
  cbv iota beta. rewrite <- (Z.add_0_r (Z.of_nat (length (c :: bytes)))). apply grows_assign.
  { unfold size. cbn. rewrite length_app. cbn [length]. lia. }
  apply grows_session, ends_grows; [lia|]. apply ends_bind; [|intros; apply ends_ret].
  apply core_receive_loop_ends. cbn. lia.
Qed.

Lemma poll_turn_grows client core g :
  size g + bytes_in client + bytes_in core < 2 ^ 63 →
  grows (bytes_in client + bytes_in core) (FixGateway.poll_turn config client core) g.
Proof.
  intros Hsize. unfold FixGateway.poll_turn. apply grows_session. cbv zeta.
  assert (∀ had_core healthy g, grows (bytes_in core)
    (served <- FixGateway.serve_core config had_core core healthy ;;
     match served with
     | None => ret false
     | Some healthy =>
         healthy <- FixGateway.check_timers config healthy ;;
         s <- FixGateway.session ;;
         ret (healthy && negb (SessionContext.closing s))
     end) g) as Hserve.
  { intros had_core healthy g'. rewrite <- (Z.add_0_r (bytes_in core)).
    apply grows_bind; [apply serve_core_grows|]. intros served g2 _. apply ends_grows; [lia|].
    apply runs_ends. repeat run_step. apply runs_check_timers. }
  assert (0 ≤ bytes_in core) by (destruct core; simpl; lia).
  set (m := bytes_in core) in *. clearbody m.
  destruct client as [| |[|c bytes]]; cbn [bytes_in];
    [apply Hserve|apply ends_grows; [simpl; lia|apply ends_ret]..|].
  cbn [bytes_in] in Hsize. set (n := Z.of_nat _) in *.
  apply grows_get. rewrite <- (Z.add_0_l (n + m)). apply grows_assign; [unfold size; cbn; lia|].
  apply grows_assign.
  { unfold size. cbn. rewrite length_app. unfold n. cbn [length]. lia. }
  apply grows_session. rewrite <- (Z.add_0_l m). apply grows_bind; [|intros; apply Hserve].
  apply ends_grows; [lia|]. apply fix_receive_loop_ends.
  - unfold size in *. cbn in *. rewrite length_app. unfold n in Hsize. cbn [length] in *. lia.
  - cbn. lia.
Qed.

Definition bytes_received (inputs : list (FixGateway.Input * FixGateway.Input)) : Z :=
  sum_Z ((λ i, bytes_in i.1 + bytes_in i.2) <$> inputs).

Lemma handle_client_ends inputs g :
  size g + bytes_received inputs < 2 ^ 63 →
  ∃ g', FixGateway.handle_client config inputs g = (Ok tt, g').
Proof.
  revert g. induction inputs as [|[client core] inputs IH]; intros g Hsize; [by exists g|].
  assert (0 ≤ bytes_received inputs) as Hrest.
  { clear. apply sum_Z_nonneg, Forall_fmap, Forall_true. intros [[| |] [| |]]; simpl; lia. }
  change (bytes_received _) with (bytes_in client + bytes_in core + bytes_received inputs) in Hsize.
  destruct (poll_turn_grows client core g) as (continue & g1 & Hg1 & H1); [lia|].
  cbn [FixGateway.handle_client]. unfold bind. rewrite Hg1.
  destruct continue; [|by exists g1]. apply IH. lia.
Qed.
End total.

(** ** What a session sends *)

Section sends.
Context {F : Type} `{!LongDouble F} `{!LongDoubleLaws F} `{!World F} `{!WorldLaws F}.
Context (config : FixGatewayConfig.t).

(* a gateway with a session that has just been accepted *)
Definition accepted (client_socket now id exec_id : Z) : Gateway.t F :=
  Gateway.mk (FixGateway.new_session config client_socket now) id exec_id [].

Lemma session_inv inputs client_socket now id exec_id :
  printable (FixGatewayConfig.sender_comp_id config) → in_u64 id →
  inv config false (FixGateway.handle_client config inputs (accepted client_socket now id exec_id)).2.
Proof.
  intros Hsender Hid. apply keeps_handle_client; [done|]. by apply new_session_inv.
Qed.

(** A message that its reader parses, with the fields of the header. *)
Definition readable (sequence : Z) (wire : list byte) : Prop :=
  ∃ m, wire = Fix.encode m ∧
    (Z.of_nat (length wire) < 2 ^ 64 → Fix.parse wire = Ok (Fix.ParseResult.mk (Some m) "")) ∧
    Fix.get 34 m = Some (to_string sequence) ∧
    Fix.get 49 m = Some (FixGatewayConfig.sender_comp_id config).

Lemma client_wire_readable sequence wire : client_wire config sequence wire → readable sequence wire.
Proof.
  intros (m & -> & Hfs & Ht & H34 & H49). exists m. split_and!; [done| |done|done].
  intros Hsize. destruct (Fix.encode_frame m Hsize) as [lead Hf].
  by eapply Fix.parse_complete, Ht; [|apply Fix.encode_body_valid].
Qed.

(** A request the core reads: its receiver takes exactly this message off the
    stream, and the decoder of its type accepts the body. *)
Definition request_readable (sequence : Z) (message : list byte) : Prop :=
  ∃ header body, core_body (Protocol.MessageHeader.type header) body ∧
    Protocol.MessageHeader.sequence_number header = sequence ∧
    ∀ rest, FixGateway.extract_core_message (message ++ rest) =
              (Some (CoreMessage.mk header body), rest).

Lemma core_wire_readable sequence message : core_wire sequence message → request_readable sequence message.
Proof.
  intros (header & body & -> & Hheader & Hsize & Hseq & Hbody).
  exists header, body. split; [done|]. split; [done|]. intros rest.
  pose proof (Protocol.length_encode_header header) as Hl.
  unfold FixGateway.extract_core_message. rewrite <- (assoc_L (++)).
  destruct (Nat.ltb_spec (length (Protocol.encode_header header ++ body ++ rest)) Protocol.header_size)
    as [Hshort|_]; [rewrite length_app in Hshort; lia|].
  rewrite take_app_length' by done. rewrite Hheader, Hsize.
  pose proof (core_body_length _ _ Hbody) as Hlen.
  destruct (Z.gtb_spec (Z.of_nat (length body)) (2 ^ 64 - 1 - Z.of_nat Protocol.header_size)) as [Hbig|_];
    [unfold Protocol.header_size in Hbig; lia|].
  destruct (Z.ltb_spec (Z.of_nat (length (Protocol.encode_header header ++ body ++ rest)))
    (Z.of_nat Protocol.header_size + Z.of_nat (length body))) as [Hs|_];
    [rewrite !length_app in Hs; lia|].
  rewrite drop_app_length' by done. rewrite Nat2Z.id, take_app_length.
  replace (Z.to_nat (Z.of_nat Protocol.header_size + Z.of_nat (length body)))
    with (length (Protocol.encode_header header ++ body)) by (rewrite length_app; lia).
  by rewrite (assoc_L (++)), drop_app_length.
Qed.

(* numbers [ks] count the messages [l] in the order sent *)
Lemma numbered_numbers {A} (always : Prop) (P Q : Z → A → Prop) next l :
  (∀ k x, P k x → Q k x) → numbered always P next l →
  ∃ ks, StronglySorted Z.lt ks ∧ Forall (λ k, 1 ≤ k) ks ∧ Forall2 (λ k, Q (u64 k)) ks l ∧
    (always → ks = seqZ 1 (Z.of_nat (length l))).
Proof.
  intros HPQ (N & ks & HN & _ & Hs & Hk & Hl & Ha). exists ks. split_and!; [done| | |].
  - eapply Forall_impl; [exact Hk|]. cbn. lia.
  - eapply Forall2_impl; [exact Hl|]. auto.
  - intros H. rewrite <- (Forall2_length _ _ _ Hl). specialize (Ha H).
    rewrite Ha at 2. rewrite length_seqZ, Z2Nat.id by lia. by rewrite Ha.
Qed.
End sends.

(** ** Correctness *)

Section theorems.
Context {F : Type} `{!LongDouble F} `{!LongDoubleLaws F} `{!World F} `{!WorldLaws F}.
Context (config : FixGatewayConfig.t) (client_socket now id exec_id : Z).

(** C24. A session runs to its end on any input.  Whatever bytes arrive from the
    client and from the core, however they are cut, and whatever the sockets,
    clocks and the connection to the core do, the loop of handle_client
    returns: its inner loops end, no reference outlives its order, no
    substr leaves its text and nothing throws, as long as fewer than 2^63
    bytes arrive.  (The conversion of an average price to int64_t is a total
    parameter, [ld_truncate]: that it is defined is not claimed.) *)
Theorem session_total inputs :
  bytes_received inputs < 2 ^ 63 →
  ∃ g, FixGateway.handle_client config inputs (accepted (F := F) config client_socket now id exec_id) =
         (Ok tt, g).
Proof. intros H. apply handle_client_ends. exact H. Qed.

(** C22. Everything a session sends to its client is a FIX message that the parser
    accepts, under the gateway's name, whatever text the client put in the
    fields that are echoed.  The messages are numbered: the numbers
    only grow, and while the socket takes every message they are 1, 2, 3, ...
    without a gap.  (Numbers are 64 bits wide.) *)
Theorem client_messages_well_formed inputs r g :
  printable (FixGatewayConfig.sender_comp_id config) → in_u64 id →
  FixGateway.handle_client config inputs (accepted config client_socket now id exec_id) = (r, g) →
  ∃ ks, StronglySorted Z.lt ks ∧ Forall (λ k, 1 ≤ k) ks ∧
    Forall2 (λ k, readable config (u64 k)) ks (to_client (Gateway.sent g)) ∧
    ((∀ g' : Gateway.t F, client_accepts g' = true) →
     ks = seqZ 1 (Z.of_nat (length (to_client (Gateway.sent g))))).
Proof.
  intros Hsender Hid Hrun. pose proof (session_inv config inputs client_socket now id exec_id Hsender Hid) as Hinv.
  rewrite Hrun in Hinv. eapply numbered_numbers, Hinv. apply client_wire_readable.
Qed.

(** C23. Everything a session sends to the core is a request the core can read:
    its header is accepted and says how long the body is, so exactly this
    message is taken off the stream; its body is one the decoder of its
    type accepts, with a positive quantity below 2^32, a positive price
    where there is one and no market order that would rest.  Requests
    carry growing sequence numbers, and none is sent before the client has
    logged on. *)
Theorem core_requests_valid inputs r g :
  printable (FixGatewayConfig.sender_comp_id config) → in_u64 id →
  FixGateway.handle_client config inputs (accepted config client_socket now id exec_id) = (r, g) →
  (∃ ks, StronglySorted Z.lt ks ∧ Forall (λ k, 1 ≤ k) ks ∧
     Forall2 (λ k, request_readable (u64 k)) ks (to_core (Gateway.sent g))) ∧
  (to_core (Gateway.sent g) ≠ [] → SessionContext.logged_on (Gateway.session g) = true).
Proof.
  intros Hsender Hid Hrun. pose proof (session_inv config inputs client_socket now id exec_id Hsender Hid) as Hinv.
  rewrite Hrun in Hinv. split; [|apply Hinv].
  destruct (numbered_numbers _ _ request_readable _ _ core_wire_readable (inv_core _ _ _ Hinv))
    as (ks & ? & ? & ? & _). by exists ks.
Qed.
End theorems.

(** ** The concrete session *)

Lemma session_total_witness :
  ∃ g, FixGateway.handle_client FixDemo.config FixDemo.inputs FixDemo.connected = (Ok tt, g).
Proof.
  refine (session_total FixDemo.config 6 0 1 1 FixDemo.inputs _).
  vm_compute. reflexivity.
Defined.

Lemma client_messages_well_formed_witness :
  length (to_client (Gateway.sent FixDemo.finished)) = 3%nat ∧
  ∃ ks, StronglySorted Z.lt ks ∧ Forall (λ k, 1 ≤ k) ks ∧
    Forall2 (λ k, readable FixDemo.config (u64 k)) ks (to_client (Gateway.sent FixDemo.finished)) ∧
    ((∀ g' : Gateway.t Q, client_accepts g' = true) →
     ks = seqZ 1 (Z.of_nat (length (to_client (Gateway.sent FixDemo.finished))))).
Proof.
  split; [apply FixDemo.finished_sent|].
  refine (client_messages_well_formed FixDemo.config 6 0 1 1 FixDemo.inputs _ _
    FixDemo.sender_printable _ (surjective_pairing _)).
  unfold in_u64. lia.
Defined.

Lemma core_requests_valid_witness :
  length (to_core (Gateway.sent FixDemo.finished)) = 1%nat ∧
  (∃ ks, StronglySorted Z.lt ks ∧ Forall (λ k, 1 ≤ k) ks ∧
     Forall2 (λ k, request_readable (u64 k)) ks (to_core (Gateway.sent FixDemo.finished))) ∧
  (to_core (Gateway.sent FixDemo.finished) ≠ [] →
   SessionContext.logged_on (Gateway.session FixDemo.finished) = true).
Proof.
  split; [apply FixDemo.finished_sent|].
  refine (core_requests_valid FixDemo.config 6 0 1 1 FixDemo.inputs _ _
    FixDemo.sender_printable _ (surjective_pairing _)).
  unfold in_u64. lia.
Defined.
End FixSessions.
