(* ===== verification/FixOrders.v ===== *)
(** * Orders of a FIX session

    What becomes of a request of the client ([request_forwarded_or_refused]),
    how the answers of the core are reported ([responses_reported]), and the
    quantities of an order ([order_accounting]).  A session is taken from event
    to event, an event being one message of the client or of the core. *)
From Stdlib Require Import QArith.
From S2P Require Import Prelude Bytes Numerals Protocol Fix FixState FixGateway FixInvariant FixSessions FixDemo.
#[global] Open Scope Z_scope.

Module FixOrders.

(** ** What a handler returns, and the state it leaves *)

Section wp.
Context {S : Type}.

Definition wp {A} (m : M S A) (s : S) (Q : A → S → Prop) : Prop :=
  ∃ a s', m s = (Ok a, s') ∧ Q a s'.

Lemma wp_ret {A} (a : A) s (Q : A → S → Prop) : Q a s → wp (ret a) s Q.
Proof. by exists a, s. Qed.

Lemma wp_bind {A B} (m : M S A) (k : A → M S B) s Q (R : A → S → Prop) :
  wp m s R → (∀ a s', R a s' → wp (k a) s' Q) → wp (bind m k) s Q.
Proof.
  intros (a & s1 & Hm & Hr) Hk. destruct (Hk a s1 Hr) as (b & s2 & Hb & HQ).
  exists b, s2. unfold bind. by rewrite Hm.
Qed.

Lemma wp_mono {A} (m : M S A) s (Q R : A → S → Prop) :
  wp m s R → (∀ a s', R a s' → Q a s') → wp m s Q.
Proof. intros (a & s' & Hm & Hr) H. exists a, s'. auto. Qed.

Lemma wp_get {A} (k : S → M S A) s Q : wp (k s) s Q → wp (bind get k) s Q.
Proof. done. Qed.

Lemma wp_run {A} (m : M S A) s (Q : A → S → Prop) a s' : wp m s Q → m s = (Ok a, s') → Q a s'.
Proof. intros (b & s2 & Hm & HQ) Hrun. rewrite Hrun in Hm. by injection Hm as -> ->. Qed.
End wp.

Section orders.
Context {F : Type} `{!LongDouble F} `{!World F} (config : FixGatewayConfig.t).
Implicit Types g : Gateway.t F.

Lemma wp_session {A} (k : SessionContext.t F → M (Gateway.t F) A) g Q :
  wp (k (Gateway.session g)) g Q → wp (bind FixGateway.session k) g Q.
Proof. done. Qed.

Lemma wp_on_session {A} f (k : unit → M (Gateway.t F) A) g Q :
  wp (k tt) (Gateway.set_session (f (Gateway.session g)) g) Q → wp (bind (FixGateway.on_session f) k) g Q.
Proof. done. Qed.

(** ** The orders, their identifiers and the requests that await an answer *)

Definition orders g := SessionContext.orders (Gateway.session g).
Definition clords g := SessionContext.clord_to_order (Gateway.session g).
Definition used g := SessionContext.used_clord_ids (Gateway.session g).
Definition queue g (id : Z) : list PendingRequest.t :=
  default [] (SessionContext.pending (Gateway.session g) !! id).

Record same_business (g g' : Gateway.t F) : Prop := {
  same_orders : orders g' = orders g;
  same_clords : clords g' = clords g;
  same_queues : ∀ id, queue g' id = queue g id;
  same_used : used g ⊆ used g';
  same_next : Gateway.next_numeric_order_id_ g ≤ Gateway.next_numeric_order_id_ g'
}.

#[export] Instance same_business_preorder : PreOrder same_business.
Proof.
  split; [intros g; by split|]. intros g1 g2 g3 [H1 H2 H3 H4 H5] [? ? H6 ? ?].
  split; [congruence|congruence| |set_solver|lia]. intros id. by rewrite H6, H3.
Qed.

(* nothing is sent either *)
Definition quiet g g' : Prop := same_business g g' ∧ Gateway.sent g' = Gateway.sent g.

#[export] Instance quiet_preorder : PreOrder quiet.
Proof. split; [by intros g|]. intros g1 g2 g3 [H1 H2] [? ?]. split; [by etrans|congruence]. Qed.

(** *** A message to the client *)

Definition header_tags : list Z := [35; 34; 49; 56; 52].

(* one message; [fs] are the fields after the header, and when the socket failed
   nothing is sent *)
Definition says (type : Text) (fs : list Fix.Field.t) (b : bool) g g' : Prop :=
  ∃ m, Gateway.sent g' = Gateway.sent g ++ (if b then [ToClient (Fix.encode m)] else []) ∧
    Fix.get 35 m = Some type ∧ ∀ tag, tag ∉ header_tags → Fix.get tag m = Fix.get_field tag fs.

Record reply (type : Text) (fs : list Fix.Field.t) (b : bool) (g g' : Gateway.t F) : Prop := {
  reply_business : same_business g g';
  reply_sent : says type fs b g g'
}.

Lemma quiet_reply type fs b g g1 g' : quiet g g1 → reply type fs b g1 g' → reply type fs b g g'.
Proof.
  intros [Hb Hs] [Hr (m & Hm & Hf)]. split; [by etrans|]. exists m. by rewrite <- Hs.
Qed.

Lemma get_field_skip tag f fs : Fix.Field.tag f ≠ tag → Fix.get_field tag (f :: fs) = Fix.get_field tag fs.
Proof. intros H. cbn. by destruct (Z.eqb_spec (Fix.Field.tag f) tag). Qed.

Lemma wp_send type fs g :
  wp (FixGateway.send_session_message config type fs) g (λ b g', reply type fs b g g').
Proof.
  unfold FixGateway.send_session_message, FixGateway.build_session_message, FixGateway.send_fix_wire.
  unfold bind, FixGateway.session, FixGateway.on_session, get, modify, ret, wp.
  match goal with |- context [Fix.encode ?m] => set (message := m) end.
  match goal with |- context [negb (client_accepts ?x)] => set (g1 := x) end.
  assert (Fix.get 35 message = Some type ∧
    ∀ tag, tag ∉ header_tags → Fix.get tag message = Fix.get_field tag fs) as [H35 Htags].
  { unfold message. rewrite foldl_add. split; [done|]. intros tag Htag. unfold Fix.get.
    unfold header_tags in Htag. rewrite !not_elem_of_cons in Htag. destruct_and! Htag.
    unfold Fix.add. cbn [Fix.Message.fields_ app].
    by rewrite !get_field_skip by (cbn; congruence). }
  destruct (client_accepts g1); cbn [negb]; eexists _, _; (split; [reflexivity|]);
    (split; [by split|]); exists message; cbn; rewrite ?(right_id_L [] (++)); done.
Qed.

Lemma wp_exec_id g : wp FixGateway.fetch_exec_id g (λ _ g', quiet g g').
Proof. eexists _, _. split; [reflexivity|]. split; [by split|reflexivity]. Qed.

Lemma wp_execution_report o cl e st orig lq lp text g :
  wp (FixGateway.send_execution_report config o cl e st orig lq lp text) g
    (λ b g', ∃ n, reply (bytes_of "8")
       (FixGateway.execution_report_fields o cl e st orig lq lp text n) b g g').
Proof.
  unfold FixGateway.send_execution_report. eapply wp_bind; [apply wp_exec_id|intros n g1 Hg1].
  eapply wp_mono; [apply wp_send|]. intros b g' Hr. exists n. exact (quiet_reply _ _ _ _ _ _ Hg1 Hr).
Qed.

Lemma wp_new_reject cl symbol side quantity reason g :
  wp (FixGateway.send_new_reject config cl symbol side quantity reason) g
    (λ b g', ∃ fs, reply (bytes_of "8") fs b g g' ∧ Fix.get_field 11 fs = Some cl ∧
       Fix.get_field 150 fs = Some (bytes_of "8") ∧ Fix.get_field 39 fs = Some (bytes_of "8") ∧
       Fix.get_field 58 fs = Some reason).
Proof.
  unfold FixGateway.send_new_reject. eapply wp_bind; [apply wp_exec_id|intros n g1 Hg1].
  eapply wp_mono; [apply wp_send|]. intros b g' Hr. eexists. split; [exact (quiet_reply _ _ _ _ _ _ Hg1 Hr)|done].
Qed.

Definition response_to (kind : PendingKind.t) : Text :=
  if decide (kind = PendingKind.Cancel) then bytes_of "1" else bytes_of "2".

Lemma wp_cancel_reject o cl orig kind reason g :
  wp (FixGateway.send_cancel_reject config o cl orig kind reason) g
    (λ b g', ∃ fs, reply (bytes_of "9") fs b g g' ∧ Fix.get_field 11 fs = Some cl ∧
       Fix.get_field 41 fs = Some orig ∧ Fix.get_field 434 fs = Some (response_to kind) ∧
       Fix.get_field 58 fs = Some reason).
Proof. eapply wp_mono; [apply wp_send|]. intros b g' Hr. eexists. split; [exact Hr|done]. Qed.

(** *** A request to the core *)

Lemma wp_core_request type body g :
  wp (FixGateway.send_core_request type body) g (λ b g', same_business g g' ∧
    ∃ header, Protocol.MessageHeader.type header = type ∧
      Gateway.sent g' = Gateway.sent g ++ (if b then [ToCore (Protocol.encode_header header ++ body)] else [])).
Proof.
  unfold FixGateway.send_core_request, FixGateway.session, FixGateway.on_session, bind, get, modify, ret, wp.
  match goal with |- context [Protocol.encode_header ?h] => set (header := h) end.
  destruct (core_accepts _); cbn [negb]; eexists _, _; (split; [reflexivity|]); (split; [by split|]);
    exists header; cbn; by rewrite ?(right_id_L [] (++)).
Qed.

(** ** What becomes of a request *)

Definition next_id g := Gateway.next_numeric_order_id_ g.

(* the request [p] is now the last one that awaits an answer about order [id] *)
Definition pushes (id : Z) (p : PendingRequest.t) g g' : Prop :=
  ∀ id', queue g' id' = if decide (id' = id) then queue g id' ++ [p] else queue g id'.

(* one message to the core, and no other *)
Definition sends_core (type : Z) (body : list byte) g g' : Prop :=
  ∃ header, Protocol.MessageHeader.type header = type ∧
    Gateway.sent g' = Gateway.sent g ++ [ToCore (Protocol.encode_header header ++ body)].

(* the order a translated request makes *)
Definition new_order (tr : FixBridge.NewOrderTranslation.t) (id : Z) : OrderState.t F :=
  let request := FixBridge.NewOrderTranslation.request tr in
  OrderState.mk id (Protocol.NewOrderRequest.symbol request) (Protocol.NewOrderRequest.side request)
    (Protocol.NewOrderRequest.order_type request) (Protocol.NewOrderRequest.time_in_force request)
    (FixBridge.NewOrderTranslation.cl_ord_id tr) (Protocol.NewOrderRequest.quantity request) 0
    (Protocol.NewOrderRequest.quantity request) ld_zero (Protocol.NewOrderRequest.price request) x30.

(* an order of the session that works, named by field 41 *)
Record names_working_order (m : Fix.Message.t) (cl orig : Text) (id : Z) (o : OrderState.t F) g : Prop := {
  named_cl : Fix.get 11 m = Some cl;
  named_orig : Fix.get 41 m = Some orig;
  named_fresh : cl ∉ used g;
  named_id : clords g !! orig = Some id;
  named_order : orders g !! id = Some o;
  named_works : OrderState.leaves_quantity o ≠ 0
}.

Inductive forwarded (m : Fix.Message.t) g g' : Prop :=
  | forwarded_new tr timestamp :
      let cl := FixBridge.NewOrderTranslation.cl_ord_id tr in
      FixBridge.translate_new_order_single m (next_id g) timestamp [] = inr tr →
      cl ∉ used g →
      sends_core Protocol.MessageType.NewOrder
        (Protocol.encode_new_order (FixBridge.NewOrderTranslation.request tr)) g g' →
      orders g' = <[next_id g := new_order tr (next_id g)]> (orders g) →
      clords g' = <[cl := next_id g]> (clords g) →
      pushes (next_id g) (PendingRequest.mk PendingKind.New cl [] 0 0 0) g g' →
      next_id g < next_id g' → {[cl]} ∪ used g ⊆ used g' →
      forwarded m g g'
  | forwarded_cancel cl orig id o timestamp :
      names_working_order m cl orig id o g →
      sends_core Protocol.MessageType.CancelOrder
        (Protocol.encode_cancel_order
           (Protocol.CancelOrderRequest.mk id timestamp (OrderState.symbol o))) g g' →
      orders g' = orders g → clords g' = clords g →
      pushes id (PendingRequest.mk PendingKind.Cancel cl orig 0 0 0) g g' →
      next_id g ≤ next_id g' → {[cl]} ∪ used g ⊆ used g' →
      forwarded m g g'
  | forwarded_replace cl orig id o timestamp total price :
      names_working_order m cl orig id o g →
      FixGateway.check_replacement m o = inr (total, price) →
      let working := u64 (total - OrderState.cumulative_quantity o) in
      sends_core Protocol.MessageType.ReplaceOrder
        (Protocol.encode_replace_order
           (Protocol.ReplaceOrderRequest.mk (OrderState.numeric_order_id o) timestamp price working
              (OrderState.symbol o))) g g' →
      orders g' = orders g → clords g' = clords g →
      pushes (OrderState.numeric_order_id o)
        (PendingRequest.mk PendingKind.Replace cl orig total working price) g g' →
      next_id g ≤ next_id g' → {[cl]} ∪ used g ⊆ used g' →
      forwarded m g g'.

(* the client's name for a request, in its reject *)
Definition echo (m : Fix.Message.t) (kind : PendingKind.t) : Text :=
  if decide (kind = PendingKind.New) then FixGateway.field_or m 11 (bytes_of "MISSING")
  else default (bytes_of "MISSING") (required_field m 11 []).1.

(* a reject for a new order, or for a cancel or replace, with the reason *)
Definition reject_fields (m : Fix.Message.t) (kind : PendingKind.t) (type : Text) (fs : list Fix.Field.t) : Prop :=
  Fix.get_field 11 fs = Some (echo m kind) ∧ is_Some (Fix.get_field 58 fs) ∧
  if decide (kind = PendingKind.New) then
    type = bytes_of "8" ∧ Fix.get_field 150 fs = Some (bytes_of "8") ∧
    Fix.get_field 39 fs = Some (bytes_of "8")
  else type = bytes_of "9" ∧ Fix.get_field 434 fs = Some (response_to kind).

Definition refused (m : Fix.Message.t) (kind : PendingKind.t) (b : bool) g g' : Prop :=
  ∃ type fs, reply type fs b g g' ∧ reject_fields m kind type fs.

Definition outcome (m : Fix.Message.t) (kind : PendingKind.t) (b : bool) g g' : Prop :=
  (b = true ∧ forwarded m g g') ∨ refused m kind b g g'.

Lemma quiet_refused m kind b g g1 g' : quiet g g1 → refused m kind b g1 g' → refused m kind b g g'.
Proof. intros Hq (type & fs & Hr & Hf). exists type, fs. split; [by eapply quiet_reply|done]. Qed.

(** *** What a session knows about its orders *)

Record well_formed g : Prop := {
  wf_next : 0 ≤ next_id g;
  wf_orders id : is_Some (orders g !! id) → id < next_id g;
  wf_queues id : queue g id ≠ [] → id < next_id g;
  wf_clords cl : is_Some (clords g !! cl) → cl ∈ used g;
  wf_names id p : p ∈ queue g id → PendingRequest.cl_ord_id p ∈ used g;
  wf_numeric id o : orders g !! id = Some o → OrderState.numeric_order_id o = id
}.

(** *** The checks *)

Lemma required_field_get m tag e value e' : required_field m tag e = (Some value, e') → Fix.get tag m = Some value.
Proof. unfold required_field. destruct (Fix.get tag m) as [[|c text]|]; congruence. Qed.

Lemma required_field_value m tag e e' : (required_field m tag e).1 = (required_field m tag e').1.
Proof. unfold required_field. by destruct (Fix.get tag m) as [[|c text]|]. Qed.

Lemma translate_spec m id timestamp e tr :
  FixBridge.translate_new_order_single m id timestamp e = inr tr →
  Fix.get 11 m = Some (FixBridge.NewOrderTranslation.cl_ord_id tr) ∧
  1 ≤ Protocol.NewOrderRequest.quantity (FixBridge.NewOrderTranslation.request tr) < 2 ^ 32.
Proof.
  unfold FixBridge.translate_new_order_single.
  destruct (required_field m 11 e) as [[cl|] e1] eqn:H11; repeat case_match; try done.
  apply required_field_get in H11. intros [= <-]. split; [done|]. cbn.
  eapply parse_quantity_ok; [eassumption|]. by apply negb_false_iff.
Qed.

Lemma check_replacement_spec m (o : OrderState.t F) total price :
  FixGateway.check_replacement m o = inr (total, price) →
  OrderState.cumulative_quantity o < total < 2 ^ 32.
Proof.
  unfold FixGateway.check_replacement. repeat case_match; try done; intros [= -> ->].
  all: match goal with H : Fix.parse_u64 _ = Some _, H' : negb (FixBridge.is_order_quantity _) = false |- _ =>
         apply negb_false_iff in H'; pose proof (parse_quantity_ok _ _ H H') end.
  all: match goal with H : (_ <=? OrderState.cumulative_quantity _) = false |- _ => apply Z.leb_gt in H end.
  all: lia.
Qed.

Lemma wp_ensure_unique cl g :
  wp (FixGateway.ensure_unique_clordid cl) g (λ b g', quiet g g' ∧ next_id g' = next_id g ∧
    (b = true → (cl ∉ used g) ∧ cl ∈ used g')).
Proof.
  unfold FixGateway.ensure_unique_clordid. apply wp_session. case_decide as Hin; [by apply wp_ret|].
  apply wp_on_session, wp_ret. split.
  { split; [|done]. split; [done|done|done| |done]. unfold used. cbn. set_solver. }
  split; [done|]. intros _. split; [done|]. unfold used. cbn. set_solver.
Qed.

(** *** A new order *)

Lemma pushed_back id p g g1 g2 :
  pushes id p g g1 →
  (∀ id', queue g2 id' = if decide (id' = id) then removelast (queue g1 id') else queue g1 id') →
  ∀ id', queue g2 id' = queue g id'.
Proof.
  intros Hp Hq id'. rewrite Hq, Hp. destruct (decide (id' = id)); [|done]. apply removelast_last.
Qed.

Definition pending g := SessionContext.pending (Gateway.session g).

Lemma queue_push id p g g' :
  pending g' = <[id := default [] (pending g !! id) ++ [p]]> (pending g) → pushes id p g g'.
Proof.
  intros Hp id'. unfold queue. fold (pending g') (pending g). rewrite Hp.
  destruct (decide (id' = id)) as [->|]; [by rewrite lookup_insert_eq|by rewrite lookup_insert_ne].
Qed.

Lemma queue_pop id g g' id' :
  pending g' = <[id := removelast (default [] (pending g !! id))]> (pending g) →
  queue g' id' = if decide (id' = id) then removelast (queue g id') else queue g id'.
Proof.
  intros Hp. unfold queue. fold (pending g') (pending g). rewrite Hp.
  destruct (decide (id' = id)) as [->|]; [by rewrite lookup_insert_eq|by rewrite lookup_insert_ne].
Qed.

Lemma emplace_fresh {K} `{Countable K} {V} (k : K) (v : V) (m : gmap K V) :
  m !! k = None → FixGateway.emplace k v m = <[k := v]> m.
Proof. intros Hk. unfold FixGateway.emplace. by rewrite Hk. Qed.

Lemma wp_submit_new tr id g :
  let cl := FixBridge.NewOrderTranslation.cl_ord_id tr in
  orders g !! id = None → clords g !! cl = None →
  wp (FixGateway.submit_new_order config tr id) g (λ b g',
    (b = true ∧
     sends_core Protocol.MessageType.NewOrder
       (Protocol.encode_new_order (FixBridge.NewOrderTranslation.request tr)) g g' ∧
     orders g' = <[id := new_order tr id]> (orders g) ∧ clords g' = <[cl := id]> (clords g) ∧
     pushes id (PendingRequest.mk PendingKind.New cl [] 0 0 0) g g' ∧
     next_id g ≤ next_id g' ∧ used g ⊆ used g') ∨
    ∃ fs, reply (bytes_of "8") fs b g g' ∧ Fix.get_field 11 fs = Some cl ∧
      Fix.get_field 150 fs = Some (bytes_of "8") ∧ Fix.get_field 39 fs = Some (bytes_of "8") ∧
      is_Some (Fix.get_field 58 fs)).
Proof.
  intros cl Hid Hcl. unfold FixGateway.submit_new_order. cbv zeta. fold cl.
  fold (new_order tr id). apply wp_on_session, wp_on_session, wp_on_session.
  match goal with |- wp _ ?x _ => set (g1 := x) end.
  assert (pushes id (PendingRequest.mk PendingKind.New cl [] 0 0 0) g g1) as Hpush
    by (apply queue_push; reflexivity).
  assert (orders g1 = <[id := new_order tr id]> (orders g)) as Ho1
    by (unfold orders; cbn; by apply emplace_fresh).
  assert (clords g1 = <[cl := id]> (clords g)) as Hc1 by (unfold clords; cbn; by apply emplace_fresh).
  eapply wp_bind; [apply wp_core_request|]. intros delivered g2 [[Ho2 Hc2 Hq2 Hu2 Hn2] (header & Ht & Hs2)].
  destruct delivered; cbn [negb].
  - apply wp_ret. left. split; [done|]. split; [by exists header|].
    split; [congruence|]. split; [congruence|]. split; [|done].
    intros id'. rewrite Hq2. apply Hpush.
  - apply wp_on_session, wp_on_session, wp_on_session.
    match goal with |- wp _ ?x _ => set (g3 := x) end.
    assert (quiet g g3) as Hquiet.
    { split; [split|].
      - change (orders g3) with (delete id (orders g2)). rewrite Ho2, Ho1. by apply delete_insert_id.
      - change (clords g3) with (delete cl (clords g2)). rewrite Hc2, Hc1. by apply delete_insert_id.
      - eapply pushed_back; [exact Hpush|]. intros id'. rewrite <- Hq2.
        etrans; [apply (queue_pop id g2 g3); reflexivity|]. by rewrite Hq2.
      - exact Hu2.
      - exact Hn2.
      - change (Gateway.sent g3) with (Gateway.sent g2). by rewrite Hs2, (right_id_L [] (++)). }
    eapply wp_mono; [apply wp_new_reject|]. intros b g' (fs & Hr & ? & ? & ? & H58). right.
    exists fs. split; [by eapply quiet_reply|]. split_and!; [done|done|done|by rewrite H58].
Qed.

Lemma wp_handle_new_order m g :
  well_formed g → next_id g + 1 < 2 ^ 64 → 0 ≤ next_id g →
  wp (FixGateway.handle_new_order config m) g (λ b g', outcome m PendingKind.New b g g').
Proof.
  intros Hwf Hid H0. unfold FixGateway.handle_new_order. cbv zeta.
  eapply (wp_bind _ _ _ _ (λ b g', quiet g g' ∧ next_id g' = next_id g ∧
    (b = true → ∀ cl, Fix.get 11 m = Some cl → (cl ∉ used g) ∧ cl ∈ used g'))).
  { destruct (Fix.get 11 m) as [cl|]; [|by apply wp_ret].
    eapply wp_mono; [apply wp_ensure_unique|]. intros b g' (? & ? & H). split; [done|]. split; [done|].
    intros Hb cl' [= <-]. auto. }
  intros unique g1 (Hq1 & Hn1 & Hunique). 
  assert (∀ symbol side quantity reason g1, quiet g g1 →
    wp (FixGateway.send_new_reject config (FixGateway.field_or m 11 (bytes_of "MISSING")) symbol side
          quantity reason) g1 (λ b g', outcome m PendingKind.New b g g')) as Hreject.
  { intros symbol side quantity reason g1' Hq. eapply wp_mono; [apply wp_new_reject|].
    intros b g' (fs & Hr & H11 & H150 & H39 & H58). right. exists (bytes_of "8"), fs.
    split; [by eapply quiet_reply|]. split; [done|]. split; [by rewrite H58|done]. }
  destruct unique; cbn [negb]; [|by apply Hreject]. specialize (Hunique eq_refl).
  unfold FixGateway.fetch_numeric_order_id. 
  eapply (wp_bind _ _ _ _ (λ id g2, id = next_id g ∧ quiet g1 g2 ∧ next_id g2 = next_id g + 1)).
  { apply wp_get. eexists _, _. split; [reflexivity|].
    assert (u64 (Gateway.next_numeric_order_id_ g1 + 1) = next_id g + 1) as Hu
      by (rewrite <- Hn1; apply u64_id; unfold in_u64; fold (next_id g1); lia).
    split; [done|]. split; [|exact Hu]. split; [|reflexivity]. split; [done|done|done|done|].
    cbn. rewrite Hu. fold (next_id g1). lia. }
  intros id g2 (-> & Hq2 & Hn2). apply wp_get.
  assert (quiet g g2) as Hq by (by etrans).
  destruct (FixBridge.translate_new_order_single _ _ _ _) as [reason|tr] eqn:Htr; [by apply Hreject|].
  destruct (translate_spec _ _ _ _ _ Htr) as [Hcl _].
  set (cl := FixBridge.NewOrderTranslation.cl_ord_id tr) in Hcl.
  destruct (Hunique cl Hcl) as [Hfresh Hused].
  destruct Hq as [Hb2 Hs2]. pose proof Hb2 as [Ho Hc Hqu Hus Hne].
  eapply wp_mono; [apply wp_submit_new|].
  - rewrite Ho. apply eq_None_not_Some. intros Hsome. apply Hwf in Hsome. lia.
  - rewrite Hc. apply eq_None_not_Some. intros Hsome. by apply Hwf in Hsome.
  - intros b g' [(-> & Hsent & Ho' & Hc' & Hp & Hn' & Hu')|(fs & Hr & H11 & H150 & H39 & H58)].
    + left. split; [done|]. eapply (forwarded_new m g g' tr); [exact Htr|done| | | | |lia|].
      * destruct Hsent as (header & Ht & Hs). exists header. by rewrite <- Hs2.
      * by rewrite Ho', Ho.
      * by rewrite Hc', Hc.
      * intros id'. rewrite Hp. by rewrite Hqu.
      * apply union_subseteq. split; [|by etrans]. apply singleton_subseteq_l.
        apply Hu'. destruct Hq2 as [[_ _ _ Hu2 _] _]. by apply Hu2.
    + right. exists (bytes_of "8"), fs. split; [exact (quiet_reply _ _ _ g g2 g' (conj Hb2 Hs2) Hr)|].
      split; [|done]. unfold echo, FixGateway.field_or. cbn. rewrite Hcl. exact H11.
Qed.

(** *** Cancel and replace *)

Lemma wp_find_working_order m kind g : kind ≠ PendingKind.New →
  wp (FixGateway.find_working_order config m kind) g (λ found g',
    match found with
    | inl b => refused m kind b g g'
    | inr (o, id, cl, orig) =>
        quiet g g' ∧ cl ∈ used g' ∧ names_working_order m cl orig id o g ∧
        echo m kind = cl
    end).
Proof.
  intros Hkind. unfold FixGateway.find_working_order, echo. rewrite decide_False by done.
  pose proof (required_field_value m 11 [] []) as Hecho.
  destruct (required_field m 11 []) as [cl e] eqn:H11. cbn [fst] in *.
  destruct (required_field m 41 e) as [orig e'] eqn:H41.
  assert (∀ o cl' orig' reason g1, quiet g g1 → default (bytes_of "MISSING") cl = cl' →
    wp (sent <- FixGateway.send_cancel_reject config o cl' orig' kind reason ;; ret (inl sent)) g1
      (λ (found : bool + (OrderState.t F * Z * Text * Text)) g',
        match found with
        | inl b => refused m kind b g g'
        | inr (o, id, cl0, orig) =>
            quiet g g' ∧ cl0 ∈ used g' ∧ names_working_order m cl0 orig id o g ∧
            default (bytes_of "MISSING") cl = cl0
        end)) as Hreject.
  { intros o cl' orig' reason g1 Hq Hcl'. eapply wp_bind; [apply wp_cancel_reject|].
    intros b g' (fs & Hr & Hf11 & _ & H434 & H58). apply wp_ret. exists (bytes_of "9"), fs.
    split; [exact (quiet_reply _ _ _ g g1 g' Hq Hr)|]. unfold reject_fields, echo.
    rewrite !decide_False by done. rewrite H11. cbn [fst]. by rewrite Hf11, Hcl', H58. }
  destruct cl as [cl|]; [|by apply Hreject]. destruct orig as [orig|]; [|by apply Hreject].
  apply required_field_get in H11 as Hg11. apply required_field_get in H41 as Hg41.
  eapply wp_bind; [apply wp_ensure_unique|]. intros unique g1 (Hq & _ & Hfresh).
  destruct unique; cbn [negb]; [|by apply Hreject]. destruct (Hfresh eq_refl) as [Hnew Hused].
  apply wp_session. unfold FixGateway.lookup_order_id.
  destruct Hq as [Hb Hs]. pose proof Hb as [Ho Hc _ _ _]. unfold orders, clords in Ho, Hc.
  rewrite Hc, Ho.
  destruct (SessionContext.clord_to_order (Gateway.session g) !! orig) as [id|] eqn:Hid; [|by apply Hreject].
  destruct (SessionContext.orders (Gateway.session g) !! id) as [o|] eqn:Hord; [|by apply Hreject].
  destruct (Z.eqb_spec (OrderState.leaves_quantity o) 0) as [|Hleaves]; [by apply Hreject|].
  apply wp_ret. by split_and!.
Qed.

(* a request about an order: recorded and sent, or taken back and refused *)
Lemma wp_submit_request o id p type body m g :
  PendingRequest.kind p ≠ PendingKind.New → echo m (PendingRequest.kind p) = PendingRequest.cl_ord_id p →
  wp (FixGateway.submit_request config o id p type body) g (λ b g',
    (b = true ∧ sends_core type body g g' ∧ orders g' = orders g ∧ clords g' = clords g ∧
     pushes id p g g' ∧ next_id g ≤ next_id g' ∧ used g ⊆ used g') ∨
    refused m (PendingRequest.kind p) b g g').
Proof.
  intros Hkind Hecho. unfold FixGateway.submit_request. apply wp_on_session.
  match goal with |- wp _ ?x _ => set (g1 := x) end.
  assert (pushes id p g g1) as Hpush by (apply queue_push; reflexivity).
  eapply wp_bind; [apply wp_core_request|]. intros delivered g2 [[Ho2 Hc2 Hq2 Hu2 Hn2] (header & Ht & Hs2)].
  destruct delivered; cbn [negb].
  - apply wp_ret. left. split; [done|]. split; [by exists header|]. split; [exact Ho2|].
    split; [exact Hc2|]. split; [|done]. intros id'. rewrite Hq2. apply Hpush.
  - apply wp_on_session. match goal with |- wp _ ?x _ => set (g3 := x) end.
    assert (quiet g g3) as Hquiet.
    { split; [split|].
      - exact Ho2.
      - exact Hc2.
      - eapply pushed_back; [exact Hpush|]. intros id'. rewrite <- Hq2.
        etrans; [apply (queue_pop id g2 g3); reflexivity|]. by rewrite Hq2.
      - exact Hu2.
      - exact Hn2.
      - change (Gateway.sent g3) with (Gateway.sent g2). by rewrite Hs2, (right_id_L [] (++)). }
    eapply wp_mono; [apply wp_cancel_reject|]. intros b g' (fs & Hr & H11 & _ & H434 & H58). right.
    exists (bytes_of "9"), fs. split; [exact (quiet_reply _ _ _ g g3 g' Hquiet Hr)|].
    unfold reject_fields. rewrite decide_False by done. by rewrite Hecho, H58.
Qed.

Lemma wp_handle_cancel m g :
  wp (FixGateway.handle_cancel config m) g (λ b g', outcome m PendingKind.Cancel b g g').
Proof.
  unfold FixGateway.handle_cancel. eapply wp_bind; [by apply wp_find_working_order|].
  intros [b|[[[o id] cl] orig]] g1 Hfound; [apply wp_ret; by right|].
  destruct Hfound as (Hq & Hused & Hnamed & Hecho). apply wp_get.
  eapply wp_mono; [by apply (wp_submit_request _ _ _ _ _ m)|].
  destruct Hq as [[Ho1 Hc1 Hq1 Hu1 Hn1] Hs1].
  intros b g' [(-> & (header & Ht & Hs) & Ho & Hc & Hp & Hn & Hu)|Href].
  - left. split; [done|]. eapply (forwarded_cancel m g g' cl orig id o _ Hnamed).
    + exists header. split; [done|]. by rewrite Hs, Hs1.
    + congruence.
    + congruence.
    + intros id'. by rewrite Hp, Hq1.
    + unfold next_id in *. lia.
    + set_solver.
  - right. eapply quiet_refused; [|exact Href]. by split.
Qed.

Lemma wp_handle_replace m g :
  wp (FixGateway.handle_replace config m) g (λ b g', outcome m PendingKind.Replace b g g').
Proof.
  unfold FixGateway.handle_replace, FixGateway.submit_replacement. eapply wp_bind; [by apply wp_find_working_order|].
  intros [b|[[[o id] cl] orig]] g1 Hfound; [apply wp_ret; by right|].
  destruct Hfound as (Hq & Hused & Hnamed & Hecho).
  destruct (FixGateway.check_replacement m o) as [reason|[total price]] eqn:Hcheck.
  { eapply wp_mono; [apply wp_cancel_reject|]. intros b g' (fs & Hr & H11 & _ & H434 & H58). right.
    exists (bytes_of "9"), fs. split; [exact (quiet_reply _ _ _ g g1 g' Hq Hr)|].
    unfold reject_fields. rewrite decide_False by done. by rewrite Hecho, H58. }
  apply wp_get. eapply wp_mono; [by apply (wp_submit_request _ _ _ _ _ m)|].
  destruct Hq as [[Ho1 Hc1 Hq1 Hu1 Hn1] Hs1].
  intros b g' [(-> & (header & Ht & Hs) & Ho & Hc & Hp & Hn & Hu)|Href].
  - left. split; [done|]. eapply (forwarded_replace m g g' cl orig id o _ total price Hnamed Hcheck).
    + exists header. split; [done|]. by rewrite Hs, Hs1.
    + congruence.
    + congruence.
    + intros id'. by rewrite Hp, Hq1.
    + unfold next_id in *. lia.
    + set_solver.
  - right. eapply quiet_refused; [|exact Href]. by split.
Qed.

(** *** Any message of the client *)

Definition request_type (kind : PendingKind.t) : Text :=
  match kind with
  | PendingKind.New => bytes_of "D"
  | PendingKind.Cancel => bytes_of "F"
  | PendingKind.Replace => bytes_of "G"
  end.

(* a request with the expected number and identifiers, after the logon *)
Record request_ready (m : Fix.Message.t) (kind : PendingKind.t) g : Prop := {
  ready_type : Fix.get 35 m = Some (request_type kind);
  ready_sequence :
    FixGateway.sequence_number m = Some (SessionContext.expected_inbound_sequence (Gateway.session g));
  ready_ids : FixGateway.validate_comp_ids config m (Gateway.session g) = None;
  ready_logon : SessionContext.logged_on (Gateway.session g) = true
}.

Definition next_ids_left g : Prop := 0 ≤ next_id g < 2 ^ 64 - 1.

Lemma quiet_request_outcome m kind b g g1 g' :
  well_formed g → quiet g g1 → orders g1 = orders g → next_id g1 = next_id g → used g1 = used g →
  outcome m kind b g1 g' → outcome m kind b g g'.
Proof.
  intros Hwf Hq Ho Hn Hu [[-> Hf]|Href]; [left|right; by eapply quiet_refused].
  split; [done|]. destruct Hq as [[_ Hc Hqu _ _] Hs].
  destruct Hf as [tr ts cl Htr Hcl (h & Ht & Hs') Ho' Hc' Hp Hn' Hu'|
                  cl orig id o ts [] (h & Ht & Hs') Ho' Hc' Hp Hn' Hu'|
                  cl orig id o ts total price [] Hcheck working (h & Ht & Hs') Ho' Hc' Hp Hn' Hu'].
  - eapply (forwarded_new m g g' tr ts); rewrite <- ?Ho, <- ?Hn, <- ?Hu, <- ?Hc; try done.
    + exists h. by rewrite <- Hs.
    + intros id'. by rewrite Hp, Hqu.
  - eapply (forwarded_cancel m g g' cl orig id o ts); rewrite <- ?Ho, <- ?Hn, <- ?Hu, <- ?Hc; try done.
    + split; rewrite <- ?Ho, <- ?Hu, <- ?Hc; done.
    + exists h. by rewrite <- Hs.
    + intros id'. by rewrite Hp, Hqu.
  - eapply (forwarded_replace m g g' cl orig id o ts total price);
      rewrite <- ?Ho, <- ?Hn, <- ?Hu, <- ?Hc; try done.
    + split; rewrite <- ?Ho, <- ?Hu, <- ?Hc; done.
    + exists h. by rewrite <- Hs.
    + intros id'. by rewrite Hp, Hqu.
Qed.

Lemma wp_request m kind g :
  well_formed g → next_ids_left g → request_ready m kind g →
  wp (FixGateway.process_fix_message config m) g (λ b g', outcome m kind b g g').
Proof.
  intros Hwf Hids [Ht Hseq Hcomp Hlog]. unfold FixGateway.process_fix_message.
  apply wp_session. cbv zeta. rewrite Ht, Hseq, Z.eqb_refl. cbn [negb].
  apply wp_on_session. rewrite Hcomp, Hlog. cbn [negb].
  match goal with |- wp _ ?x _ => set (g1 := x) end.
  assert (quiet g g1) as Hq by (split; [by split|done]).
  assert (well_formed g1) as Hwf1 by (destruct Hwf; by split).
  eapply wp_mono; [|intros b g'; by apply (quiet_request_outcome m kind b g g1 g')].
  rewrite bool_decide_false by (destruct kind; done). unfold FixGateway.handle_application.
  destruct kind; cbn [request_type].
  - rewrite !bool_decide_false, bool_decide_true by done.
    apply wp_handle_new_order; unfold next_ids_left, next_id in *; [done|cbn; lia|cbn; lia].
  - rewrite !bool_decide_false, bool_decide_true by done. apply wp_handle_cancel.
  - rewrite !bool_decide_false, bool_decide_true by done. apply wp_handle_replace.
Qed.

(* whatever the message: it is a request, or the orders stay as they are *)
Definition client_step (m : Fix.Message.t) g g' : Prop :=
  (∃ kind b, request_ready m kind g ∧ outcome m kind b g g') ∨ same_business g g'.

Definition keeps_business {A} (m : M (Gateway.t F) A) : Prop :=
  ∀ g, wp m g (λ _ g', same_business g g').

Lemma business_ret {A} (a : A) : keeps_business (ret a).
Proof. intros g. apply wp_ret. reflexivity. Qed.

Lemma business_bind {A B} (m : M (Gateway.t F) A) (k : A → M (Gateway.t F) B) :
  keeps_business m → (∀ a, keeps_business (k a)) → keeps_business (bind m k).
Proof.
  intros Hm Hk g. eapply wp_bind; [apply Hm|]. intros a g1 H1. eapply wp_mono; [apply Hk|].
  intros b g' H2. exact (transitivity H1 H2).
Qed.

Lemma business_session : keeps_business FixGateway.session.
Proof. intros g. eexists _, _. split; reflexivity. Qed.

Lemma business_get : keeps_business get.
Proof. intros g. eexists _, _. split; reflexivity. Qed.

Lemma business_send type fs : keeps_business (FixGateway.send_session_message config type fs).
Proof. intros g. eapply wp_mono; [apply wp_send|]. intros b g' [H _]. exact H. Qed.

(* an assignment to a field that is none of the orders' *)
Lemma business_assign f :
  (∀ s : SessionContext.t F, SessionContext.orders (f s) = SessionContext.orders s ∧
     SessionContext.clord_to_order (f s) = SessionContext.clord_to_order s ∧
     SessionContext.pending (f s) = SessionContext.pending s ∧
     SessionContext.used_clord_ids (f s) = SessionContext.used_clord_ids s) →
  keeps_business (FixGateway.on_session f).
Proof.
  intros Hf g. eexists _, _. split; [reflexivity|]. destruct (Hf (Gateway.session g)) as (Ho & Hc & Hp & Hu).
  split; [exact Ho|exact Hc| | |reflexivity].
  - intros id. unfold queue. cbn. by rewrite Hp.
  - unfold used. cbn. by rewrite Hu.
Qed.

Ltac business :=
  repeat lazymatch goal with
  | |- keeps_business (ret _) => apply business_ret
  | |- keeps_business (bind _ _) => apply business_bind; [|intros ?]
  | |- keeps_business FixGateway.session => apply business_session
  | |- keeps_business get => apply business_get
  | |- keeps_business (FixGateway.on_session _) => apply business_assign; intros ?; split_and!; reflexivity
  | |- keeps_business (FixGateway.send_session_message _ _ _) => apply business_send
  | |- keeps_business (FixGateway.send_session_reject _ _ _ _) => apply business_send
  | |- keeps_business (match ?x with _ => _ end) => destruct x
  end.

Lemma business_logon m type n : keeps_business (FixGateway.handle_logon config m type n).
Proof. unfold FixGateway.handle_logon. cbv zeta. business. Qed.

Lemma business_check_timers healthy : keeps_business (FixGateway.check_timers config healthy).
Proof. unfold FixGateway.check_timers. cbv zeta. business. Qed.

#[local] Instance request_ready_dec m kind g : Decision (request_ready m kind g).
Proof.
  refine (cast_if (decide ((Fix.get 35 m = Some (request_type kind) ∧
    FixGateway.sequence_number m = Some (SessionContext.expected_inbound_sequence (Gateway.session g))) ∧
    FixGateway.validate_comp_ids config m (Gateway.session g) = None ∧
    SessionContext.logged_on (Gateway.session g) = true))); [destruct_and!; by split|intros []; tauto].
Defined.

Lemma wp_process m g :
  well_formed g → next_ids_left g →
  wp (FixGateway.process_fix_message config m) g (λ _ g', client_step m g g').
Proof.
  intros Hwf Hids.
  assert ((∃ kind, request_ready m kind g) ∨ ∀ kind, ¬ request_ready m kind g) as [[kind Hr]|Hno].
  { destruct (decide (request_ready m PendingKind.New g)); [by left; eexists|].
    destruct (decide (request_ready m PendingKind.Cancel g)); [by left; eexists|].
    destruct (decide (request_ready m PendingKind.Replace g)); [by left; eexists|].
    right. by intros []. }
  { eapply wp_mono; [by apply (wp_request m kind)|]. intros b g' H. left. by exists kind, b. }
  apply (wp_mono _ _ _ (λ _ g', same_business g g')); [|intros b g'; by right].
  unfold FixGateway.process_fix_message. apply wp_session. cbv zeta.
  destruct (Fix.get 35 m) as [type|] eqn:H35; [|apply business_send].
  destruct (FixGateway.sequence_number m) as [n|] eqn:Hn; [|apply business_send].
  destruct (Z.eqb_spec n (SessionContext.expected_inbound_sequence (Gateway.session g))) as [->|];
    cbn [negb]; [|apply business_send].
  apply wp_on_session. match goal with |- wp _ ?x _ => set (g1 := x) end.
  assert (same_business g g1) as H1 by (by split).
  destruct (FixGateway.validate_comp_ids config m (Gateway.session g)) eqn:Hv.
  { eapply wp_mono; [apply business_send|]. intros b g' H. exact (transitivity H1 H). }
  case_bool_decide as HA. { eapply wp_mono; [apply business_logon|]. intros b g' H. exact (transitivity H1 H). }
  destruct (SessionContext.logged_on (Gateway.session g)) eqn:Hlog; cbn [negb].
  2:{ eapply wp_mono; [apply business_send|]. intros b g' H. exact (transitivity H1 H). }
  assert (∀ kind, type ≠ request_type kind) as Hkind.
  { intros kind ->. by apply (Hno kind). }
  unfold FixGateway.handle_application.
  rewrite (bool_decide_false (type = bytes_of "D")), (bool_decide_false (type = bytes_of "F")),
    (bool_decide_false (type = bytes_of "G"));
    [|apply (Hkind PendingKind.Replace)|apply (Hkind PendingKind.Cancel)|apply (Hkind PendingKind.New)].
  eapply wp_mono; [|intros b g' H; exact (transitivity H1 H)].
  match goal with |- wp ?m _ _ => cut (keeps_business m); [intros H; apply H|] end. business.
Qed.

(** ** The answers of the core *)

Definition is_order_response (type : Z) : bool :=
  (type =? Protocol.MessageType.OrderAccepted) || (type =? Protocol.MessageType.OrderRejected) ||
  (type =? Protocol.MessageType.OrderCancelled) || (type =? Protocol.MessageType.OrderReplaced).

Definition succeeded (message : CoreMessage.t) (response : Protocol.OrderResponse.t) : bool :=
  negb (Protocol.OrderResponse.success response =? 0) &&
  negb (Protocol.MessageHeader.type (CoreMessage.header message) =? Protocol.MessageType.OrderRejected).

(* an answer of the core about order [id] *)
Record answers (message : CoreMessage.t) (success : bool) (id : Z) : Prop := {
  answer_type : is_order_response (Protocol.MessageHeader.type (CoreMessage.header message)) = true;
  answer_body : ∃ response, Protocol.decode_order_response (CoreMessage.body message) = Some response ∧
    Protocol.OrderResponse.order_id response = id ∧ succeeded message response = success
}.

Definition pops (id : Z) (rest : list PendingRequest.t) g g' : Prop :=
  (∀ id', queue g' id' = if decide (id' = id) then rest else queue g id') ∧
  next_id g ≤ next_id g' ∧ used g ⊆ used g'.

(* an execution report about order [o] under the name of request [p] *)
Definition reports (o : OrderState.t F) (p : PendingRequest.t) (exec_type : string) (orig text : option Text)
    (b : bool) g g' : Prop :=
  ∃ n, says (bytes_of "8")
    (FixGateway.execution_report_fields o (PendingRequest.cl_ord_id p) (bytes_of exec_type)
       (OrderState.ord_status o) orig None None text n) b g g'.

Definition replaced_order (p : PendingRequest.t) (o : OrderState.t F) : OrderState.t F :=
  OrderState.set_replaced (PendingRequest.cl_ord_id p) (PendingRequest.replacement_total_quantity p)
    (PendingRequest.replacement_working_quantity p) (PendingRequest.replacement_price p)
    (if OrderState.cumulative_quantity o =? 0 then x30 else x31) o.

(* what the client is told, and the state of the order *)
Inductive answered (success : bool) (id : Z) (p : PendingRequest.t) (o : OrderState.t F) (b : bool) g g' : Prop :=
  | answered_accepted :
      PendingRequest.kind p = PendingKind.New → success = true →
      let o' := OrderState.set_working (OrderState.leaves_quantity o) x30 o in
      reports o' p "0" None None b g g' →
      orders g' = <[id := o']> (orders g) → clords g' = clords g → answered success id p o b g g'
  | answered_rejected text :
      PendingRequest.kind p = PendingKind.New → success = false →
      reports (OrderState.set_working 0 x38 o) p "8" None (Some text) b g g' →
      orders g' = delete id (orders g) →
      clords g' = delete (OrderState.current_cl_ord_id o) (clords g) → answered success id p o b g g'
  | answered_cancelled :
      PendingRequest.kind p = PendingKind.Cancel → success = true →
      let o' := OrderState.set_working 0 x34 o in
      reports o' p "4" (Some (PendingRequest.orig_cl_ord_id p)) None b g g' →
      orders g' = <[id := o']> (orders g) → clords g' = clords g → answered success id p o b g g'
  | answered_replaced :
      PendingRequest.kind p = PendingKind.Replace → success = true →
      let o' := replaced_order p o in
      reports o' p "5" (Some (PendingRequest.orig_cl_ord_id p)) None b g g' →
      orders g' = <[id := o']> (orders g) →
      clords g' = FixGateway.emplace (PendingRequest.cl_ord_id p) (OrderState.numeric_order_id o) (clords g) →
      answered success id p o b g g'
  | answered_refused fs :
      PendingRequest.kind p ≠ PendingKind.New → success = false →
      says (bytes_of "9") fs b g g' →
      Fix.get_field 11 fs = Some (PendingRequest.cl_ord_id p) →
      Fix.get_field 41 fs = Some (PendingRequest.orig_cl_ord_id p) →
      Fix.get_field 434 fs = Some (response_to (PendingRequest.kind p)) →
      Fix.get_field 39 fs = Some [OrderState.ord_status o] →
      orders g' = orders g → clords g' = clords g → answered success id p o b g g'.

(* the client is told nothing, and the orders and their names stay *)
Definition passed_over (b : bool) g g' : Prop :=
  b = true ∧ Gateway.sent g' = Gateway.sent g ∧ orders g' = orders g ∧ clords g' = clords g.

(* what becomes of an answer: it belongs to the oldest request about the order,
   and is reported if the session still has the order *)
Definition handled_answer (success : bool) (id : Z) (b : bool) g g' : Prop :=
  match queue g id with
  | [] => b = true ∧ g' = g
  | p :: rest =>
      pops id rest g g' ∧
      match orders g !! id with
      | Some o => answered success id p o b g g'
      | None => passed_over b g g'
      end
  end.

Lemma handled_report success id p rest o b g g' :
  queue g id = p :: rest → orders g !! id = Some o → handled_answer success id b g g' →
  pops id rest g g' ∧ answered success id p o b g g'.
Proof. unfold handled_answer. by intros -> ->. Qed.

Lemma queue_taken id g p rest :
  queue g id = p :: rest → SessionContext.pending (Gateway.session g) !! id = Some (p :: rest).
Proof. unfold queue. by destruct (_ !! id) as [l|]; [intros <-|]. Qed.

Lemma queue_pops id (rest : list PendingRequest.t) g g1 :
  pending g1 = (if bool_decide (rest = []) then delete id else <[id := rest]>) (pending g) →
  used g1 = used g → next_id g1 = next_id g → pops id rest g g1.
Proof.
  intros Hp Hu Hn. split; [|by rewrite Hu, Hn]. intros id'. unfold queue. fold (pending g1) (pending g).
  rewrite Hp. case_bool_decide as Hrest.
  - subst. destruct (decide (id' = id)) as [->|]; [by rewrite lookup_delete_eq|by rewrite lookup_delete_ne].
  - destruct (decide (id' = id)) as [->|]; [by rewrite lookup_insert_eq|by rewrite lookup_insert_ne].
Qed.

(* a report after which nothing but the orders has changed *)
Lemma pops_mono id rest g g1 g' : pops id rest g g1 → same_business g1 g' → pops id rest g g'.
Proof.
  intros (Hq & Hn & Hu) [_ _ Hq' Hu' Hn']. split; [|split; [unfold next_id in *; lia|set_solver]].
  intros id'. by rewrite Hq', Hq.
Qed.

Lemma says_from type fs b g g1 g' : Gateway.sent g1 = Gateway.sent g → says type fs b g1 g' → says type fs b g g'.
Proof. intros Hs (m & Hm & ?). exists m. by rewrite <- Hs. Qed.

(* what holds before a report, of the state [g2] that has taken the answer in [g] *)
Record taken (id : Z) (rest : list PendingRequest.t) (os : gmap Z (OrderState.t F)) (cs : gmap Text Z)
    g g2 : Prop := {
  taken_pops : pops id rest g g2;
  taken_orders : orders g2 = os;
  taken_clords : clords g2 = cs;
  taken_sent : Gateway.sent g2 = Gateway.sent g
}.

Lemma wp_reports id rest os cs o p e orig text g g2 :
  taken id rest os cs g g2 →
  wp (FixGateway.send_execution_report config o (PendingRequest.cl_ord_id p) (bytes_of e)
        (OrderState.ord_status o) orig None None text) g2
    (λ b g', pops id rest g g' ∧ orders g' = os ∧ clords g' = cs ∧ reports o p e orig text b g g').
Proof.
  intros [Hp <- <- Hs]. eapply wp_mono; [apply wp_execution_report|]. intros b g' (n & [Hb Hsays]).
  pose proof Hb as [Ho Hc _ _ _]. split; [by eapply pops_mono|]. split; [done|]. split; [done|].
  exists n. by eapply says_from.
Qed.

Lemma wp_refuses id rest o p g g1 :
  taken id rest (orders g) (clords g) g g1 → PendingRequest.kind p ≠ PendingKind.New →
  ∀ reason, wp (FixGateway.send_cancel_reject config (Some o) (PendingRequest.cl_ord_id p)
        (PendingRequest.orig_cl_ord_id p) (PendingRequest.kind p) reason) g1
    (λ b g', pops id rest g g' ∧ answered false id p o b g g').
Proof.
  intros [Hp Ho1 Hc1 Hs] Hkind reason. eapply wp_mono; [apply wp_send|]. intros b g' [Hb Hsays].
  pose proof Hb as [Ho Hc _ _ _]. split; [by eapply pops_mono|].
  eapply answered_refused; [done|done|by eapply says_from|done..|congruence|congruence].
Qed.

Lemma wp_taken_answer message success id p rest o g :
  (∃ response, Protocol.decode_order_response (CoreMessage.body message) = Some response ∧
     Protocol.OrderResponse.order_id response = id ∧ succeeded message response = success) →
  queue g id = p :: rest → orders g !! id = Some o →
  wp (FixGateway.handle_core_order_response config message) g
    (λ b g', pops id rest g g' ∧ answered success id p o b g g').
Proof.
  intros (response & Hd & Hid & Hsuc) Hqueue Ho. apply queue_taken in Hqueue.
  unfold FixGateway.handle_core_order_response. rewrite Hd. cbv zeta. rewrite Hid.
  apply wp_session. rewrite Hqueue. apply wp_on_session.
  match goal with |- wp _ ?x _ => set (g1 := x) end.
  assert (pops id rest g g1) as Hpops by (by eapply queue_pops).
  unfold orders in Ho. rewrite Ho. fold (succeeded message response). rewrite Hsuc.
  assert (taken id rest (orders g) (clords g) g g1) as Htaken by (by split).
  destruct (PendingRequest.kind p) eqn:Hkind; destruct success; cbn [negb].
  - (* a new order, accepted *)
    apply wp_on_session. set (o' := OrderState.set_working _ x30 o).
    eapply (wp_bind _ _ _ _ (λ _ g2, taken id rest (<[id := o']> (orders g)) (clords g) g g2)).
    { match goal with |- wp (if ?c then _ else _) _ _ => destruct c end; [|apply wp_ret; by split].
      eexists _, _. split; [reflexivity|]. by split. }
    intros _ g2 Hg2. eapply wp_mono; [by apply (wp_reports id rest)|].
    intros b g' (? & Ho' & Hc' & Hr). split; [done|]. by apply answered_accepted.
  - (* rejected *)
    apply wp_on_session. set (o' := OrderState.set_working 0 x38 o).
    eapply wp_bind; [apply (wp_reports id rest (<[id := o']> (orders g)) (clords g) o' p "8"); by split|].
    intros b g2 (Hp2 & Ho2 & Hc2 & Hr). apply wp_on_session, wp_on_session, wp_ret.
    split; [exact Hp2|]. eapply answered_rejected; [done|done|exact Hr| |].
    + change (delete id (orders g2) = delete id (orders g)). rewrite Ho2. apply delete_insert_eq.
    + change (delete (OrderState.current_cl_ord_id o) (clords g2) =
        delete (OrderState.current_cl_ord_id o) (clords g)). by rewrite Hc2.
  - (* cancelled *)
    apply wp_on_session. set (o' := OrderState.set_working 0 x34 o).
    eapply wp_mono; [apply (wp_reports id rest (<[id := o']> (orders g)) (clords g) o' p "4"); by split|].
    intros b g' (? & Ho' & Hc' & Hr). split; [done|]. by apply answered_cancelled.
  - rewrite <- Hkind. apply wp_refuses; [done|by rewrite Hkind].
  - (* replaced *)
    fold (replaced_order p o). apply wp_on_session, wp_on_session.
    eapply wp_mono; [apply (wp_reports id rest (<[id := replaced_order p o]> (orders g))
      (FixGateway.emplace (PendingRequest.cl_ord_id p) (OrderState.numeric_order_id o) (clords g))
      (replaced_order p o) p "5"); by split|].
    intros b g' (? & Ho' & Hc' & Hr). split; [done|]. by apply answered_replaced.
  - rewrite <- Hkind. apply wp_refuses; [done|by rewrite Hkind].
Qed.

Lemma wp_order_response message success id g :
  (∃ response, Protocol.decode_order_response (CoreMessage.body message) = Some response ∧
     Protocol.OrderResponse.order_id response = id ∧ succeeded message response = success) →
  wp (FixGateway.handle_core_order_response config message) g (λ b g', handled_answer success id b g g').
Proof.
  intros Hbody. unfold handled_answer. destruct (queue g id) as [|p rest] eqn:Hqueue.
  { destruct Hbody as (response & Hd & <- & _). unfold FixGateway.handle_core_order_response.
    rewrite Hd. cbv zeta. apply wp_session. unfold queue in Hqueue.
    destruct (_ !! _) as [ps|]; [cbn in Hqueue; subst ps|]; by apply wp_ret. }
  destruct (orders g !! id) as [o|] eqn:Ho; [by apply wp_taken_answer|].
  destruct Hbody as (response & Hd & <- & _). unfold FixGateway.handle_core_order_response.
  rewrite Hd. cbv zeta. apply wp_session. rewrite (queue_taken _ _ _ _ Hqueue). apply wp_on_session.
  unfold orders in Ho. rewrite Ho. apply wp_ret. split; [by eapply queue_pops|done].
Qed.

Lemma wp_answer message success id g :
  answers message success id →
  wp (FixGateway.process_core_message config message) g (λ b g', handled_answer success id b g g').
Proof.
  intros [Htype Hbody]. unfold FixGateway.process_core_message. cbv zeta.
  unfold is_order_response in Htype. rewrite Htype. by apply wp_order_response.
Qed.

(** ** The quantities of an order *)

Record balanced_order (o : OrderState.t F) : Prop := {
  balanced_cumulative : 0 ≤ OrderState.cumulative_quantity o ≤ OrderState.order_quantity o;
  balanced_quantity : OrderState.order_quantity o < 2 ^ 32;
  balanced_leaves : OrderState.leaves_quantity o = 0 ∨
    OrderState.cumulative_quantity o + OrderState.leaves_quantity o = OrderState.order_quantity o
}.

(* a replacement was computed from the quantity that has traded *)
Definition current_request (o : OrderState.t F) (p : PendingRequest.t) : Prop :=
  PendingRequest.kind p = PendingKind.Replace →
  OrderState.cumulative_quantity o < PendingRequest.replacement_total_quantity p < 2 ^ 32 ∧
  PendingRequest.replacement_working_quantity p =
    PendingRequest.replacement_total_quantity p - OrderState.cumulative_quantity o.

Record balanced g : Prop := {
  balanced_wf : well_formed g;
  balanced_orders id o : orders g !! id = Some o →
    balanced_order o ∧ Forall (current_request o) (queue g id)
}.

(* a step that changes at most the order [id], and takes requests off its queue *)
Lemma balanced_change id g g' :
  balanced g →
  (∀ id' o', orders g' !! id' = Some o' → id' ≠ id → orders g !! id' = Some o') →
  (∀ id', id' ≠ id → queue g' id' = queue g id') →
  queue g' id ⊆ queue g id →
  (∀ o', orders g' !! id = Some o' → ∃ o, orders g !! id = Some o ∧
     OrderState.numeric_order_id o' = OrderState.numeric_order_id o ∧
     balanced_order o' ∧ Forall (current_request o') (queue g' id)) →
  (∀ cl, is_Some (clords g' !! cl) → cl ∈ used g') →
  used g ⊆ used g' → next_id g ≤ next_id g' → balanced g'.
Proof.
  intros [[H0 Hid Hq Hc Hn Hnum] Hb] Hother Hqueue Hsub Hthis Hclords Hu Hnext. split; [split|].
  - lia.
  - intros id' [o' Ho']. destruct (decide (id' = id)) as [->|Hne].
    + destruct (Hthis _ Ho') as (o & Ho & _). assert (id < next_id g) by (apply Hid; by exists o). lia.
    + assert (id' < next_id g) by (apply Hid; exists o'; auto). lia.
  - intros id' Hne. destruct (decide (id' = id)) as [->|Hid'].
    + assert (id < next_id g); [|lia]. apply Hq. intros Hnil. rewrite Hnil in Hsub.
      destruct (queue g' id) as [|p ps]; [done|]. specialize (Hsub p). set_solver.
    + rewrite Hqueue in Hne by done. apply Hq in Hne. lia.
  - exact Hclords.
  - intros id' p Hp. apply Hu. destruct (decide (id' = id)) as [->|Hid'].
    + apply (Hn id). by apply Hsub.
    + rewrite Hqueue in Hp by done. by apply (Hn id').
  - intros id' o' Ho'. destruct (decide (id' = id)) as [->|Hid'].
    + destruct (Hthis _ Ho') as (o & Ho & -> & _). by apply Hnum.
    + apply Hnum. by apply Hother.
  - intros id' o' Ho'. destruct (decide (id' = id)) as [->|Hid'].
    + by destruct (Hthis _ Ho') as (o & _ & _ & ? & ?).
    + rewrite Hqueue by done. by apply Hb, Hother.
Qed.

Lemma balanced_same g g' : same_business g g' → balanced g → balanced g'.
Proof.
  intros [Ho Hc Hq Hu Hn] Hb. apply (balanced_change 0 g); rewrite ?Ho, ?Hc; try done; auto.
  - by rewrite Hq.
  - intros o' Ho'. exists o'. rewrite Hq. destruct (balanced_orders _ Hb _ _ Ho'). done.
  - intros cl Hcl. apply Hu. by apply Hb.
Qed.

Lemma balanced_answered success id p rest o b g g' :
  orders g !! id = Some o → queue g id = p :: rest →
  pops id rest g g' → answered success id p o b g g' → balanced g → balanced g'.
Proof.
  intros Ho Hqueue (Hq & Hn & Hu) Ha Hb. destruct (balanced_orders _ Hb _ _ Ho) as [[Hcum Hqty Hleaves] Hcur].
  rewrite Hqueue in Hcur. apply Forall_cons in Hcur as [Hp Hrest].
  assert (∀ os cs, (∀ id', id' ≠ id → os !! id' = orders g !! id') →
    orders g' = os → clords g' = cs → (∀ cl, is_Some (cs !! cl) → cl ∈ used g) →
    (∀ o', os !! id = Some o' → OrderState.numeric_order_id o' = OrderState.numeric_order_id o ∧
       OrderState.cumulative_quantity o' = OrderState.cumulative_quantity o ∧ balanced_order o') →
    balanced g') as Hdone.
  { intros os cs Hos Ho' Hc' Hcs Hthis. apply (balanced_change id g); rewrite ?Ho', ?Hc'; try done.
    - intros id' o' Hid' Hne. by rewrite <- Hos.
    - intros id' Hne. rewrite Hq. by rewrite decide_False.
    - rewrite Hq, Hqueue, decide_True by done. set_solver.
    - intros o' Hid'. destruct (Hthis _ Hid') as (Hnum & Hcumo & Hbal). exists o.
      split; [done|]. split; [done|]. split; [done|]. rewrite Hq, decide_True by done.
      eapply Forall_impl; [exact Hrest|]. unfold current_request. by rewrite Hcumo.
    - intros cl Hcl. apply Hu, Hcs, Hcl. }
  assert (∀ cl, is_Some (clords g !! cl) → cl ∈ used g) as Hclords by apply Hb.
  destruct Ha as [Hk Hs o' _ Ho' Hc'|text Hk Hs _ Ho' Hc'|Hk Hs o' _ Ho' Hc'|Hk Hs o' _ Ho' Hc'|fs Hk Hs _ _ _ _ _ Ho' Hc'].
  - eapply Hdone; [|exact Ho'|exact Hc'|done|]; [intros; by rewrite lookup_insert_ne|].
    intros ? [= <-]%lookup_insert_rev. by split_and!.
  - eapply Hdone; [|exact Ho'|exact Hc'| |]; [intros; by rewrite lookup_delete_ne| |].
    + intros cl [x Hx]. apply lookup_delete_Some in Hx as [_ Hx]. apply Hclords. by exists x.
    + intros ?. by rewrite lookup_delete_eq.
  - eapply Hdone; [|exact Ho'|exact Hc'|done|]; [intros; by rewrite lookup_insert_ne|].
    intros ? [= <-]%lookup_insert_rev. split; [done|]. split; [done|]. split; [done|done|by left].
  - destruct (Hp Hk) as [Htotal Hworking].
    eapply Hdone; [|exact Ho'|exact Hc'| |]; [intros; by rewrite lookup_insert_ne| |].
    + intros cl. unfold FixGateway.emplace. case_match; [apply Hclords|].
      destruct (decide (PendingRequest.cl_ord_id p = cl)) as [<-|];
        [intros _|rewrite lookup_insert_ne by done; apply Hclords].
      apply (wf_names _ (balanced_wf _ Hb) id). rewrite Hqueue. left.
    + intros ? [= <-]%lookup_insert_rev. split; [done|]. split; [done|].
      split; cbn; [lia|lia|right; lia].
  - eapply Hdone; [|exact Ho'|exact Hc'|done|]; [done|]. rewrite Ho. intros ? [= <-]. by split_and!.
Qed.

(* a request joins the queue of an order *)
Lemma balanced_push id p g g' :
  balanced g → pushes id p g g' → PendingRequest.cl_ord_id p ∈ used g' → id < next_id g' →
  (∀ id' o, orders g' !! id' = Some o → orders g !! id' = Some o ∨
     id' = id ∧ orders g !! id = None ∧ queue g id = [] ∧ OrderState.numeric_order_id o = id ∧ balanced_order o) →
  (∀ o, orders g' !! id = Some o → current_request o p) →
  (∀ cl, is_Some (clords g' !! cl) → cl ∈ used g') →
  used g ⊆ used g' → next_id g ≤ next_id g' → balanced g'.
Proof.
  intros [[H0 Hid Hq Hc Hn Hnum] Hb] Hp Hcl Hlt Hos Hcur Hclords Hu Hnext. split; [split|].
  - lia.
  - intros id' [o Ho]. destruct (Hos _ _ Ho) as [Hold|[-> _]]; [|done].
    assert (id' < next_id g) by (apply Hid; by exists o). lia.
  - intros id'. rewrite Hp. case_decide as Heq; [by subst|]. intros Hne%Hq. lia.
  - exact Hclords.
  - intros id' p'. rewrite Hp. case_decide as Heq; [|intros H; by apply Hu, (Hn id')].
    rewrite elem_of_app, list_elem_of_singleton. intros [H| ->]; [by apply Hu, (Hn id')|done].
  - intros id' o Ho. destruct (Hos _ _ Ho) as [Hold|(-> & _ & _ & ? & _)]; [by apply Hnum|done].
  - intros id' o Ho. destruct (Hos _ _ Ho) as [Hold|(-> & _ & Hnil & _ & ?)].
    + destruct (Hb _ _ Hold) as [Hbo Hqo]. split; [done|]. rewrite Hp.
      case_decide as Heq; [|done]. subst id'. apply Forall_app_2; [done|]. constructor; [by apply Hcur|constructor].
    + split; [done|]. rewrite Hp, decide_True, Hnil by done. constructor; [by apply Hcur|constructor].
Qed.

Lemma balanced_forwarded m g g' : balanced g → forwarded m g g' → balanced g'.
Proof.
  intros Hb Hf. pose proof (balanced_wf _ Hb) as Hwf.
  assert (∀ cl, is_Some (clords g !! cl) → cl ∈ used g) as Hclords by apply Hwf.
  destruct Hf as [tr ts cl Htr Hcl _ Ho Hc Hp Hn Hu|cl orig id o ts Hnamed _ Ho Hc Hp Hn Hu|
                  cl orig id o ts total price Hnamed Hcheck working _ Ho Hc Hp Hn Hu].
  - apply translate_spec in Htr as [_ Hqty].
    assert (orders g !! next_id g = None) as Hfree.
    { apply eq_None_not_Some. intros Hsome. apply (wf_orders _ Hwf) in Hsome. lia. }
    assert (queue g (next_id g) = []) as Hnil.
    { destruct (queue g (next_id g)) eqn:Hqu; [done|].
      assert (next_id g < next_id g); [|lia]. apply (wf_queues _ Hwf). by rewrite Hqu. }
    eapply (balanced_push (next_id g)); [done|exact Hp|set_solver|done| | | |set_solver|lia].
    + intros id' o. rewrite Ho. intros [[<- <-]|[Hne Hold]]%lookup_insert_Some; [right|by left].
      split_and!; [done|done|done|done|]. split; cbn; [lia|lia|right; lia].
    + intros o. rewrite Ho, lookup_insert_eq. intros [= <-] [=].
    + intros cl'. rewrite Hc. destruct (decide (cl = cl')) as [<-|]; [set_solver|].
      rewrite lookup_insert_ne by done. intros H%Hclords. set_solver.
  - destruct Hnamed as [_ _ _ _ Hord _].
    eapply (balanced_push id); [done|exact Hp|set_solver| | | | |set_solver|lia].
    + assert (id < next_id g) by (apply (wf_orders _ Hwf); by exists o). lia.
    + intros id' o'. rewrite Ho. by left.
    + intros o'. by intros _ [=].
    + intros cl'. rewrite Hc. intros H%Hclords. set_solver.
  - destruct Hnamed as [_ _ _ _ Hord _]. pose proof (wf_numeric _ Hwf _ _ Hord) as Hnum. rewrite Hnum in *.
    destruct (balanced_orders _ Hb _ _ Hord) as [[Hcum _ _] _].
    apply check_replacement_spec in Hcheck as Htotal.
    eapply (balanced_push id); [done|exact Hp|set_solver| | | | |set_solver|lia].
    + assert (id < next_id g) by (apply (wf_orders _ Hwf); by exists o). lia.
    + intros id' o'. rewrite Ho. by left.
    + intros o'. rewrite Ho, Hord. intros [= <-] _. split; [exact Htotal|]. cbn. apply u64_id. unfold in_u64. lia.
    + intros cl'. rewrite Hc. intros H%Hclords. set_solver.
Qed.

Lemma balanced_client_step m g g' : client_step m g g' → balanced g → balanced g'.
Proof.
  intros [(kind & b & _ & [[_ Hf]|(type & fs & [Hs _] & _)])|Hs] Hb;
    [by eapply balanced_forwarded|by eapply balanced_same..].
Qed.

(** *** Trades *)

Definition traded_order (execution : Protocol.TradeExecution.t) (o : OrderState.t F) : OrderState.t F :=
  let quantity := Z.min (OrderState.leaves_quantity o) (Protocol.TradeExecution.quantity execution) in
  let leaves := u64 (OrderState.leaves_quantity o - quantity) in
  OrderState.set_traded (u64 (OrderState.cumulative_quantity o + quantity)) leaves
    (ld_add (OrderState.cumulative_notional o)
       (ld_mul (ld_of_integer (Protocol.TradeExecution.price execution)) (ld_of_integer quantity)))
    (if leaves =? 0 then x32 else x31) o.

Lemma traded_balanced execution o :
  0 ≤ Protocol.TradeExecution.quantity execution → balanced_order o →
  let o' := traded_order execution o in
  let quantity := Z.min (OrderState.leaves_quantity o) (Protocol.TradeExecution.quantity execution) in
  balanced_order o' ∧
  OrderState.cumulative_quantity o' = OrderState.cumulative_quantity o + quantity ∧
  OrderState.leaves_quantity o' = OrderState.leaves_quantity o - quantity.
Proof.
  intros H0 [Hc Hq Hl] o' quantity.
  assert (OrderState.cumulative_quantity o' = OrderState.cumulative_quantity o + quantity) as Hc'
    by (apply u64_id; unfold in_u64; lia).
  assert (OrderState.leaves_quantity o' = OrderState.leaves_quantity o - quantity) as Hl'
    by (apply u64_id; unfold in_u64; lia).
  split; [|done]. change (OrderState.order_quantity o) with (OrderState.order_quantity o') in *.
  split; [lia|done|lia].
Qed.

Lemma wp_apply_trade id execution o g :
  orders g !! id = Some o →
  wp (FixGateway.apply_trade_to_order config id execution) g (λ b g',
    orders g' = <[id := traded_order execution o]> (orders g) ∧ clords g' = clords g ∧
    (∀ id', queue g' id' = queue g id') ∧ used g ⊆ used g' ∧ next_id g ≤ next_id g' ∧
    ∃ n, says (bytes_of "8") (FixGateway.execution_report_fields (traded_order execution o)
      (OrderState.current_cl_ord_id o) (bytes_of "F") (OrderState.ord_status (traded_order execution o))
      None (Some (Z.min (OrderState.leaves_quantity o) (Protocol.TradeExecution.quantity execution)))
      (Some (Protocol.TradeExecution.price execution)) None n) b g g').
Proof.
  intros Ho. unfold FixGateway.apply_trade_to_order. apply wp_session. unfold orders in Ho. rewrite Ho.
  cbv zeta. apply wp_on_session. eapply wp_mono; [apply wp_execution_report|].
  intros b g' (n & [[Ho' Hc' Hq' Hu' Hn'] Hsays]).
  split; [exact Ho'|]. split; [exact Hc'|]. split; [exact Hq'|]. split; [exact Hu'|]. split; [exact Hn'|].
  exists n. by eapply says_from.
Qed.

Definition no_replace_pending g (id : Z) : Prop :=
  Forall (λ p, PendingRequest.kind p ≠ PendingKind.Replace) (queue g id).

(* an order whose traded quantity stays, or that no replacement awaits *)
Lemma balanced_update id o o' g g' :
  balanced g → orders g !! id = Some o →
  OrderState.numeric_order_id o' = OrderState.numeric_order_id o → balanced_order o' →
  (OrderState.cumulative_quantity o' = OrderState.cumulative_quantity o ∨ no_replace_pending g id) →
  orders g' = <[id := o']> (orders g) → clords g' = clords g →
  (∀ id', queue g' id' = queue g id') → used g ⊆ used g' → next_id g ≤ next_id g' → balanced g'.
Proof.
  intros Hb Ho Hnum Hbo Hcum Ho' Hc Hq Hu Hn. apply (balanced_change id g); rewrite ?Ho', ?Hc; try done.
  - intros id' o2 Hid' Hne. by rewrite lookup_insert_ne in Hid'.
  - by rewrite Hq.
  - rewrite lookup_insert_eq. intros ? [= <-]. exists o. split_and!; [done..|]. rewrite Hq.
    destruct (balanced_orders _ Hb _ _ Ho) as [_ Hcur]. destruct Hcum as [Hcum|Hno].
    + unfold current_request in *. by rewrite Hcum.
    + eapply Forall_impl; [exact Hno|]. by intros p H ?.
  - intros cl Hcl. apply Hu. by apply Hb.
Qed.

Lemma wp_trade_balanced id execution o g :
  balanced g → orders g !! id = Some o → no_replace_pending g id →
  0 ≤ Protocol.TradeExecution.quantity execution →
  wp (FixGateway.apply_trade_to_order config id execution) g (λ b g',
    balanced g' ∧ (∀ id', queue g' id' = queue g id') ∧ (∀ id', FixSessions.has_order id' g → FixSessions.has_order id' g')).
Proof.
  intros Hb Ho Hno Hq. eapply wp_mono; [by apply wp_apply_trade|].
  intros b g' (Ho' & Hc' & Hq' & Hu' & Hn' & _). split; [|split; [done|]].
  - eapply (balanced_update id o); [done|done| | |by right|done..]; [done|].
    apply traded_balanced; [done|]. exact (proj1 (balanced_orders _ Hb _ _ Ho)).
  - intros id' Hid'. unfold FixSessions.has_order. fold (orders g'). rewrite Ho'.
    destruct (decide (id = id')) as [->|]; [by rewrite lookup_insert_eq|by rewrite lookup_insert_ne].
Qed.

Lemma wp_trade message g :
  balanced g →
  (∀ execution, Protocol.decode_trade_execution (CoreMessage.body message) = Some execution →
     no_replace_pending g (Protocol.TradeExecution.buy_order_id execution) ∧
     no_replace_pending g (Protocol.TradeExecution.sell_order_id execution)) →
  wp (FixGateway.handle_core_trade config message) g (λ _ g', balanced g').
Proof.
  intros Hb Htimely. unfold FixGateway.handle_core_trade.
  destruct (Protocol.decode_trade_execution _) as [execution|] eqn:Hd; [|by apply wp_ret].
  destruct (Htimely _ eq_refl) as [Hbuy Hsell]. cbv zeta.
  apply Protocol.decode_trade_execution_spec in Hd as [Hvalid _].
  assert (0 ≤ Protocol.TradeExecution.quantity execution) as Hq by apply Hvalid.
  apply wp_session. case_bool_decide as Hownbuy; case_bool_decide as Hownsell; cbn [negb andb].
  - destruct (_ && _); [by apply wp_on_session, wp_ret, (balanced_same g)|].
    destruct Hownbuy as [o Ho]. eapply wp_bind; [by apply (wp_trade_balanced _ _ o)|].
    intros b g1 (Hb1 & Hq1 & Hkeep). destruct b; cbn [negb]; [|by apply wp_ret].
    destruct (Hkeep _ Hownsell) as [o2 Ho2].
    eapply wp_bind; [apply (wp_trade_balanced _ _ o2); [done|exact Ho2| |done]; unfold no_replace_pending; by rewrite Hq1|].
    intros b g2 (Hb2 & _ & _). destruct b; cbn [negb]; [|by apply wp_ret].
    by apply wp_on_session, wp_on_session, wp_ret, (balanced_same g2).
  - destruct Hownbuy as [o Ho]. eapply wp_mono; [by apply (wp_trade_balanced _ _ o)|]. by intros b g' [? _].
  - destruct Hownsell as [o Ho]. eapply wp_mono; [by apply (wp_trade_balanced _ _ o)|]. by intros b g' [? _].
  - by apply wp_ret.
Qed.

(** *** The other messages of the core *)

Lemma wp_finalize_loop ids symbol completed g :
  balanced g → wp (FixGateway.finalize_loop config ids symbol completed) g (λ _ g', balanced g').
Proof.
  revert completed g. induction ids as [|id ids IH]; intros completed g Hb; cbn [FixGateway.finalize_loop];
    [by apply wp_ret|].
  apply wp_session. destruct (SessionContext.orders (Gateway.session g) !! id) as [o|] eqn:Ho; [|by apply IH].
  destruct (negb _); [by apply IH|]. destruct (_ <? _); [|by apply IH]. apply wp_on_session.
  match goal with |- wp _ ?x _ => set (g1 := x) end.
  assert (balanced g1) as Hb1.
  { apply (balanced_update id o (OrderState.set_working 0 x34 o) g);
      [exact Hb|exact Ho|done| |by left|reflexivity|done..].
    destruct (balanced_orders _ Hb _ _ Ho) as [[? ? ?] _]. split; [done|done|by left]. }
  eapply wp_bind; [apply wp_execution_report|]. intros b g2 (n & [Hs _]).
  apply (balanced_same _ _ Hs) in Hb1. destruct b; cbn [negb]; [by apply IH|by apply wp_ret].
Qed.

(* what the core may say to keep the books of the session: a trade of an order
   does not overtake the answer to a replacement of it *)
Definition timely (message : CoreMessage.t) g : Prop :=
  Protocol.MessageHeader.type (CoreMessage.header message) = Protocol.MessageType.TradeExecution →
  ∀ execution, Protocol.decode_trade_execution (CoreMessage.body message) = Some execution →
    no_replace_pending g (Protocol.TradeExecution.buy_order_id execution) ∧
    no_replace_pending g (Protocol.TradeExecution.sell_order_id execution).

Lemma balanced_popped id p rest g g1 :
  queue g id = p :: rest → pops id rest g g1 → orders g1 = orders g → clords g1 = clords g →
  balanced g → balanced g1.
Proof.
  intros Hqueue (Hq & Hn & Hu) Ho Hc Hb. apply (balanced_change id g); rewrite ?Ho, ?Hc; try done; auto.
  - intros id' Hne. by rewrite Hq, decide_False.
  - rewrite Hq, Hqueue, decide_True by done. set_solver.
  - intros o Hid. exists o. destruct (balanced_orders _ Hb _ _ Hid) as [? Hcur]. split_and!; [done..|].
    rewrite Hq, decide_True by done. rewrite Hqueue in Hcur. by apply Forall_cons in Hcur as [_ ?].
  - intros cl Hcl. apply Hu. by apply Hb.
Qed.

Lemma balanced_handled success id b g g' :
  handled_answer success id b g g' → balanced g → balanced g'.
Proof.
  unfold handled_answer. intros Hh Hb. destruct (queue g id) as [|p rest] eqn:Hqueue; [by destruct Hh as [_ ->]|].
  destruct Hh as [Hp Ha]. destruct (orders g !! id) as [o|] eqn:Ho; [by eapply balanced_answered|].
  destruct Ha as (_ & _ & Ho' & Hc'). by eapply (balanced_popped id p rest).
Qed.

Lemma wp_response_balanced message g :
  balanced g → wp (FixGateway.handle_core_order_response config message) g (λ _ g', balanced g').
Proof.
  intros Hb. destruct (Protocol.decode_order_response (CoreMessage.body message)) as [response|] eqn:Hd.
  2:{ unfold FixGateway.handle_core_order_response. rewrite Hd. by apply wp_ret. }
  eapply wp_mono; [apply (wp_order_response message (succeeded message response)
    (Protocol.OrderResponse.order_id response)); exists response; done|].
  intros b g' Hh. exact (balanced_handled _ _ _ _ _ Hh Hb).
Qed.

Lemma wp_core_balanced message g :
  balanced g → timely message g →
  wp (FixGateway.process_core_message config message) g (λ _ g', balanced g').
Proof.
  intros Hb Htimely. unfold FixGateway.process_core_message. cbv zeta.
  destruct (_ || _); [by apply wp_response_balanced|].
  destruct (Z.eqb_spec (Protocol.MessageHeader.type (CoreMessage.header message))
    Protocol.MessageType.TradeExecution) as [Ht|]; [apply wp_trade; auto|].
  destruct (_ =? _); [|by apply wp_ret]. unfold FixGateway.finalize_non_resting_orders.
  destruct (Protocol.decode_book_update _) as [update|]; [|by apply wp_ret]. apply wp_session.
  eapply wp_bind; [by apply wp_finalize_loop|]. intros [completed|] g1 Hb1; [|by apply wp_ret].
  by apply wp_on_session, wp_ret, (balanced_same g1).
Qed.

(** ** A session, from event to event *)

Inductive Event : Type :=
  | FromClient (message : Fix.Message.t)
  | FromCore (message : CoreMessage.t)
  | Timers (healthy : bool).

Definition handle (event : Event) : M (Gateway.t F) bool :=
  match event with
  | FromClient message => FixGateway.process_fix_message config message
  | FromCore message => FixGateway.process_core_message config message
  | Timers healthy => FixGateway.check_timers config healthy
  end.

(* identifiers are left, and trades do not overtake replacements *)
Definition in_order (event : Event) g : Prop :=
  match event with
  | FromClient _ => next_ids_left g
  | FromCore message => timely message g
  | Timers _ => True
  end.

Inductive reached : Gateway.t F → Prop :=
  | reached_start client_socket now id exec_id :
      0 ≤ id → reached (FixSessions.accepted config client_socket now id exec_id)
  | reached_event event b g g' :
      reached g → in_order event g → handle event g = (Ok b, g') → reached g'.

Lemma new_session_balanced client_socket now id exec_id :
  0 ≤ id → balanced (FixSessions.accepted config client_socket now id exec_id).
Proof.
  intros Hid. split; [split|].
  - done.
  - intros id'. unfold orders. cbn. rewrite lookup_empty. by intros [? ?].
  - done.
  - intros cl. unfold clords. cbn. rewrite lookup_empty. by intros [? ?].
  - intros id' p. unfold queue. cbn. by intros ?%not_elem_of_nil.
  - intros id' o. unfold orders. cbn. by rewrite lookup_empty.
  - intros id' o. unfold orders. cbn. by rewrite lookup_empty.
Qed.

Lemma reached_balanced g : reached g → balanced g.
Proof.
  induction 1 as [client_socket now id exec_id Hid|event b g g' _ Hb Horder Hrun];
    [by apply new_session_balanced|].
  destruct event as [message|message|healthy]; cbn [handle in_order] in *.
  - eapply (wp_run _ _ (λ _ g', balanced g')); [|exact Hrun].
    eapply wp_mono; [by apply wp_process, Horder; apply Hb|]. intros b' g2 H. exact (balanced_client_step _ _ _ H Hb).
  - by eapply (wp_run _ _ (λ _ g', balanced g')); [apply wp_core_balanced|].
  - eapply (wp_run _ _ (λ _ g', balanced g')); [|exact Hrun].
    eapply wp_mono; [apply business_check_timers|]. intros b' g2 H. exact (balanced_same _ _ H Hb).
Qed.

(** ** Correctness *)

(** C19. A request of the client is forwarded or refused, and never both.  A new
    order, cancel or replace that arrives in sequence after the logon either
    becomes exactly one message to the core, that asks for what the client
    asked (under the order's number, with the quantity that is still to
    trade), and is remembered as the last request about its order; or exactly
    one reject goes back under the client's name for the request (none if
    the socket fails, which ends the session) and the orders, their names and
    the waiting requests stay as they were, also when the connection to the
    core fails after the request was recorded. *)
Theorem request_forwarded_or_refused m kind g :
  reached g → next_ids_left g → request_ready m kind g →
  ∃ b g', FixGateway.process_fix_message config m g = (Ok b, g') ∧ outcome m kind b g g'.
Proof. intros Hg%reached_balanced Hids Hready. apply wp_request; [apply Hg|done|done]. Qed.

(** C20. Each answer of the core belongs to the oldest request that waits for one
    about its order, which it takes off its queue; no other queue changes.
    While the session has the order, the answer is reported exactly once:
    accepted, rejected, cancelled and replaced orders give one execution
    report under the name of that request with the new state of the order; a
    refused cancel or replace gives one cancel reject and leaves the order
    alone.  If the order is gone, since an earlier answer rejected it, the
    client is told nothing ([cancel_behind_reject]); and an answer that no
    request waits for changes nothing. *)
Theorem responses_reported message success id g :
  answers message success id →
  ∃ b g', FixGateway.process_core_message config message g = (Ok b, g') ∧
    handled_answer success id b g g'.
Proof. apply wp_answer. Qed.

(** C21. The quantities of every order add up: in every state of a session whose
    trades do not overtake the answers to replacements, an order either has
    nothing left to trade or what has traded and what is left make the
    order's quantity; and no order has traded more than its quantity. *)
Theorem order_accounting g :
  reached g → ∀ id o, orders g !! id = Some o →
    0 ≤ OrderState.cumulative_quantity o ≤ OrderState.order_quantity o ∧
    OrderState.order_quantity o < 2 ^ 32 ∧
    (OrderState.leaves_quantity o = 0 ∨
     OrderState.cumulative_quantity o + OrderState.leaves_quantity o = OrderState.order_quantity o).
Proof.
  intros Hg%reached_balanced id o Ho. destruct (balanced_orders _ Hg _ _ Ho) as [[Hc Hq Hl] _].
  done.
Qed.
End orders.

(** ** Sessions on the concrete world *)

Definition run (events : list Event) : Gateway.t Q :=
  foldl (λ g event, (handle FixDemo.config event g).2) FixDemo.connected events.

Definition ordered : list Event :=
  [FromClient FixDemo.logon; FromClient FixDemo.buy; FromCore FixDemo.accepted_order].
Definition traded_40 : CoreMessage.t :=
  FixDemo.core_message Protocol.MessageType.TradeExecution
    (Protocol.encode_trade_execution
       (Protocol.TradeExecution.mk 1 9 250 40 1 (make_symbol (bytes_of "DEMO")))).

Definition quantities (g : Gateway.t Q) (id : Z) : option (Z * Z * Z) :=
  (λ o, (OrderState.order_quantity o, OrderState.cumulative_quantity o, OrderState.leaves_quantity o)) <$>
    orders g !! id.

Example a_trade : quantities (run (ordered ++ [FromCore traded_40])) 1 = Some (100, 40, 60).
Proof. vm_compute. reflexivity. Qed.

(** A trade that overtakes the answer to a replacement: the order may trade 160,
    although the client asked for 120 in all. *)
Example replace_race :
  quantities (run (ordered ++ [FromClient FixDemo.replace; FromCore traded_40;
    FromCore (FixDemo.response Protocol.MessageType.OrderReplaced 1 1)])) 1 = Some (120, 40, 120).
Proof. vm_compute. reflexivity. Qed.

(** A cancel behind a new order that is rejected: the core answers both, the
    client hears of the order only. *)
Example cancel_behind_reject :
  let g := run [FromClient FixDemo.logon; FromClient FixDemo.buy; FromClient FixDemo.cancel;
                FromCore (FixDemo.response Protocol.MessageType.OrderRejected 1 0);
                FromCore (FixDemo.response Protocol.MessageType.OrderRejected 1 0)] in
  length (to_core (Gateway.sent g)) = 2%nat ∧ queue g 1 = [] ∧ length (to_client (Gateway.sent g)) = 2%nat.
Proof. vm_compute. done. Qed.

(** ** The theorems at work *)

Lemma reached_snoc events event b :
  reached FixDemo.config (run events) → in_order event (run events) →
  (handle FixDemo.config event (run events)).1 = Ok b →
  reached FixDemo.config (run (events ++ [event])).
Proof.
  intros Hg Ho Hb. unfold run. rewrite foldl_app. cbn [foldl]. fold (run events).
  eapply (reached_event FixDemo.config event b (run events)); [done|done|].
  rewrite <- Hb. apply surjective_pairing.
Qed.

Lemma connected_reached : reached FixDemo.config (run []).
Proof. apply (reached_start FixDemo.config 6 0 1 1). lia. Qed.

Lemma logged_on_reached : reached FixDemo.config (run [FromClient FixDemo.logon]).
Proof.
  apply (reached_snoc [] (FromClient FixDemo.logon) true); [apply connected_reached| |vm_compute; reflexivity].
  cbn. unfold next_ids_left, next_id. cbn. lia.
Qed.

Lemma logged_on_ids : next_ids_left (run [FromClient FixDemo.logon]).
Proof.
  unfold next_ids_left. assert (next_id (run [FromClient FixDemo.logon]) = 1) as ->
    by (vm_compute; reflexivity). lia.
Qed.

Lemma bought_reached : reached FixDemo.config (run [FromClient FixDemo.logon; FromClient FixDemo.buy]).
Proof.
  apply (reached_snoc [FromClient FixDemo.logon] (FromClient FixDemo.buy) true);
    [apply logged_on_reached|apply logged_on_ids|vm_compute; reflexivity].
Qed.

Lemma traded_reached : reached FixDemo.config (run (ordered ++ [FromCore traded_40])).
Proof.
  apply (reached_snoc ordered (FromCore traded_40) true); [| |vm_compute; reflexivity].
  - apply (reached_snoc [FromClient FixDemo.logon; FromClient FixDemo.buy]
      (FromCore FixDemo.accepted_order) true);
      [apply bought_reached|by intros [=]|vm_compute; reflexivity].
  - intros _ execution Hd. vm_compute in Hd. injection Hd as <-.
    split; refine (bool_decide_eq_true_1 _ _); vm_compute; reflexivity.
Qed.

Lemma request_forwarded_or_refused_witness :
  let g := run [FromClient FixDemo.logon] in
  ∃ b g', FixGateway.process_fix_message FixDemo.config FixDemo.buy g = (Ok b, g') ∧
    outcome FixDemo.buy PendingKind.New b g g'.
Proof.
  cbv zeta. refine (request_forwarded_or_refused FixDemo.config FixDemo.buy PendingKind.New _ logged_on_reached _ _).
  - apply logged_on_ids.
  - split; vm_compute; reflexivity.
Defined.

Definition bought : Gateway.t Q := run [FromClient FixDemo.logon; FromClient FixDemo.buy].
Definition buy_request : PendingRequest.t := PendingRequest.mk PendingKind.New (bytes_of "ORDER1") [] 0 0 0.

Lemma accepted_answers : answers FixDemo.accepted_order true 1.
Proof.
  split; [vm_compute; reflexivity|].
  exists (Protocol.OrderResponse.mk 1 0 1). split_and!; vm_compute; reflexivity.
Qed.

Lemma bought_awaits : ∃ o, orders bought !! 1 = Some o.
Proof. destruct (orders bought !! 1) as [o|] eqn:Ho; [by exists o|vm_compute in Ho; discriminate Ho]. Qed.

Lemma bought_queue : queue bought 1 = [buy_request].
Proof. vm_compute. reflexivity. Qed.

(* the acceptance of the order that waits for it is reported *)
Lemma responses_reported_witness :
  ∃ o b g', orders bought !! 1 = Some o ∧
    FixGateway.process_core_message FixDemo.config FixDemo.accepted_order bought = (Ok b, g') ∧
    pops 1 [] bought g' ∧ answered true 1 buy_request o b bought g'.
Proof.
  destruct bought_awaits as (o & Ho).
  destruct (responses_reported FixDemo.config FixDemo.accepted_order true 1 bought accepted_answers)
    as (b & g' & H & Hh).
  exact (ex_intro _ o (ex_intro _ b (ex_intro _ g' (conj Ho (conj H
    (handled_report true 1 buy_request [] o b bought g' bought_queue Ho Hh)))))).
Defined.

Lemma order_accounting_witness :
  let g := run (ordered ++ [FromCore traded_40]) in
  quantities g 1 = Some (100, 40, 60) ∧
  ∀ id o, orders g !! id = Some o →
    0 ≤ OrderState.cumulative_quantity o ≤ OrderState.order_quantity o ∧
    OrderState.order_quantity o < 2 ^ 32 ∧
    (OrderState.leaves_quantity o = 0 ∨
     OrderState.cumulative_quantity o + OrderState.leaves_quantity o = OrderState.order_quantity o).
Proof.
  split; [vm_compute; reflexivity|]. exact (order_accounting FixDemo.config _ traded_reached).
Defined.
End FixOrders.
