(* ===== verification/Sockets.v ===== *)
(** * The system calls on sockets

    Sockets are not code of the repository: a system is a parameter, the class
    [System], and what the code relies on are the laws of [SystemLaws], as
    POSIX documents the calls.  [Patient] says that no call is interrupted for
    ever.  [scripted] is a concrete system, whose answers are a list, for the
    witnesses. *)
From S2P Require Import Prelude Bytes.

(** ** The calls *)

(* what a call returns, and whether errno is EINTR when that is an error *)
Record Answer : Type := mk_answer { result : Z; interrupted : bool }.

Inductive SocketKind : Type := Stream | Datagrams.
Inductive SocketOption : Type :=
  | ReuseAddress
  | AddMembership (group : Z).

Definition inaddr_any : Z := 0.
Definition inaddr_loopback : Z := 127 * 2 ^ 24 + 1.

Class System (W : Type) : Type := {
  descriptors : W → gset Z;       (* open in the process *)
  taken : Z → W → list byte;      (* what was taken to be sent on a descriptor *)
  arriving : Z → W → list byte;   (* what the peer has sent and is still unread *)
  sys_socket : SocketKind → W → Z * W;
  sys_setsockopt : Z → SocketOption → W → Z * W;
  sys_bind : Z → Z → Z → W → Z * W;
  sys_listen : Z → Z → W → Z * W;
  sys_connect : Z → Z → Z → W → Z * W;
  sys_accept : Z → W → Answer * W;
  sys_send : Z → list byte → W → Answer * W;
  sys_recv : Z → Z → W → (Answer * list byte) * W;
  sys_sendto : Z → list byte → Z → Z → W → Z * W;
  sys_shutdown : Z → W → W;
  sys_close : Z → W → W;
  inet_pton : string → option Z
}.

(* a call that opens a descriptor, or fails *)
Definition opened {W} `{!System W} (d : Z) (w w' : W) : Prop :=
  if (d <? 0) then descriptors w' = descriptors w
  else (d ∉ descriptors w) ∧ descriptors w' = {[d]} ∪ descriptors w.

Class SystemLaws (W : Type) `{!System W} : Prop := {
  socket_opens kind w : opened (sys_socket kind w).1 w (sys_socket kind w).2;
  accept_opens d w : opened (result (sys_accept d w).1) w (sys_accept d w).2;
  setsockopt_descriptors d option w :
    descriptors (sys_setsockopt d option w).2 = descriptors w;
  bind_descriptors d ip port w : descriptors (sys_bind d ip port w).2 = descriptors w;
  listen_descriptors d backlog w : descriptors (sys_listen d backlog w).2 = descriptors w;
  connect_descriptors d ip port w : descriptors (sys_connect d ip port w).2 = descriptors w;
  send_descriptors d data w : descriptors (sys_send d data w).2 = descriptors w;
  recv_descriptors d size w : descriptors (sys_recv d size w).2 = descriptors w;
  sendto_descriptors d data ip port w :
    descriptors (sys_sendto d data ip port w).2 = descriptors w;
  shutdown_descriptors d w : descriptors (sys_shutdown d w) = descriptors w;
  close_descriptors d w : descriptors (sys_close d w) = descriptors w ∖ {[d]};
  (* send takes a part of the bytes, from the first on *)
  send_takes d data w :
    let '(answer, w') := sys_send d data w in
    result answer ≤ Z.of_nat (length data) ∧
    taken d w' = taken d w ++ take (Z.to_nat (result answer)) data;
  (* recv gives the next bytes, as many as it says, no more than there is room for *)
  recv_gives d size w :
    let '(answer, bytes, w') := sys_recv d size w in
    0 ≤ size →
    Z.of_nat (length bytes) = Z.max 0 (result answer) ∧ result answer ≤ size ∧
    arriving d w = bytes ++ arriving d w';
  recv_taken d d' size w : taken d (sys_recv d' size w).2 = taken d w
}.

(** How many more calls will be interrupted. *)
Class Patient (W : Type) `{!System W} : Type := {
  interruptions : W → nat;
  accept_patient d w :
    let '(answer, w') := sys_accept d w in
    (interruptions w' < interruptions w)%nat ∨
    (interruptions w' ≤ interruptions w)%nat ∧ (result answer < 0 → interrupted answer = false);
  send_patient d data w :
    let '(answer, w') := sys_send d data w in
    (interruptions w' < interruptions w)%nat ∨
    (interruptions w' ≤ interruptions w)%nat ∧ (result answer < 0 → interrupted answer = false);
  recv_patient d size w :
    let '(answer, _, w') := sys_recv d size w in
    (interruptions w' < interruptions w)%nat ∨
    (interruptions w' ≤ interruptions w)%nat ∧ (result answer < 0 → interrupted answer = false)
}.

(** A connection that goes on: what is there can be read, and something can
    always be sent. *)
Class Reliable (W : Type) `{!System W} : Prop := {
  recv_reliable d size w :
    0 < size → arriving d w ≠ [] → 0 < result (sys_recv d size w).1.1;
  send_reliable d data w : data ≠ [] → 0 < result (sys_send d data w).1
}.

(** Calls on something that is not a descriptor fail. *)
Class Refusing (W : Type) `{!System W} : Prop := {
  accept_refused d w : d < 0 → result (sys_accept d w).1 < 0;
  recv_refused d size w : d < 0 → result (sys_recv d size w).1.1 < 0
}.

(* the calls as steps of a computation over the system *)
Definition call {W A} (f : W → A * W) : M W A := λ w, let '(a, w') := f w in (Ok a, w').
Definition call_ {W} (f : W → W) : M W unit := modify f.

(** ** Keeping the descriptors *)

Definition keeps_descriptors {W A} `{!System W} (m : M W A) : Prop :=
  preserves (λ w w', descriptors w' = descriptors w) m.

#[export] Instance same_descriptors_preorder {W} `{!System W} :
  PreOrder (λ w w' : W, descriptors w' = descriptors w).
Proof. split; [by intros w|]. intros w1 w2 w3 H1 H2. by rewrite H2. Qed.

Lemma keeps_call {W A} `{!System W} (f : W → A * W) :
  (∀ w, descriptors (f w).2 = descriptors w) → keeps_descriptors (call f).
Proof. intros H w. unfold call. specialize (H w). by destruct (f w). Qed.

Lemma keeps_call_ {W} `{!System W} (f : W → W) :
  (∀ w, descriptors (f w) = descriptors w) → keeps_descriptors (call_ f).
Proof. intros H w. apply H. Qed.

(** ** A concrete system *)

Inductive Scripted : Type :=
  | Gives (n : Z)               (* the call returns this; a call that opens, a descriptor *)
  | Delivers (bytes : list byte)
  | Interrupts.

Record Script : Type := mk_script {
  open_descriptors : gset Z;
  answers : list Scripted;
  sent_bytes : list (Z * list byte)
}.

Definition fresh_descriptor (open : gset Z) : Z := 1 + foldr Z.max 2 (elements open).

Lemma fresh_descriptor_spec open : 0 ≤ fresh_descriptor open ∧ fresh_descriptor open ∉ open.
Proof.
  assert (∀ l, 2 ≤ foldr Z.max 2 l) as Hl by (induction l; simpl; lia).
  assert (∀ l d, d ∈ l → d ≤ foldr Z.max 2 l) as Hm.
  { induction l as [|x l IH]; intros d Hd; [by apply elem_of_nil in Hd|].
    apply elem_of_cons in Hd as [->|Hd]; simpl; [lia|]. specialize (IH _ Hd). lia. }
  unfold fresh_descriptor. split; [specialize (Hl (elements open)); lia|].
  intros H%elem_of_elements%Hm. lia.
Qed.

Definition next_answer (w : Script) : Scripted * Script :=
  match answers w with
  | [] => (Gives 0, w)
  | x :: l => (x, mk_script (open_descriptors w) l (sent_bytes w))
  end.

(* the rest of a delivery there was no room for *)
Definition put_back (bytes : list byte) (w : Script) : Script :=
  match bytes with
  | [] => w
  | _ => mk_script (open_descriptors w) (Delivers bytes :: answers w) (sent_bytes w)
  end.

Definition plain_answer (w : Script) : Z * Script :=
  let '(x, w') := next_answer w in (match x with Gives n => n | _ => 0 end, w').

Definition opening_answer (w : Script) : Answer * Script :=
  let '(x, w') := next_answer w in
  let d := fresh_descriptor (open_descriptors w) in
  match x with
  | Interrupts => (mk_answer (-1) true, w')
  | Gives n =>
      if n <? 0 then (mk_answer n false, w')
      else (mk_answer d false, mk_script ({[d]} ∪ open_descriptors w') (answers w') (sent_bytes w'))
  | Delivers _ => (mk_answer (-1) false, w')
  end.

#[export] Instance scripted : System Script := {|
  descriptors := open_descriptors;
  taken := λ d w, concat (filter (λ x, x.1 = d) (sent_bytes w)).*2;
  arriving := λ _ w, concat ((λ x, match x with Delivers bytes => bytes | _ => [] end) <$> answers w);
  sys_socket := λ _ w, let '(a, w') := opening_answer w in (result a, w');
  sys_setsockopt := λ _ _, plain_answer;
  sys_bind := λ _ _ _, plain_answer;
  sys_listen := λ _ _, plain_answer;
  sys_connect := λ _ _ _, plain_answer;
  sys_accept := λ d w, if d <? 0 then (mk_answer (-1) false, w) else opening_answer w;
  sys_send := λ d data w,
    let '(x, w') := next_answer w in
    match x with
    | Interrupts => (mk_answer (-1) true, w')
    | Gives n =>
        let n := Z.min n (Z.of_nat (length data)) in
        (mk_answer n false, mk_script (open_descriptors w') (answers w')
           (sent_bytes w' ++ [(d, take (Z.to_nat n) data)]))
    | Delivers _ => (mk_answer (-1) false, w')
    end;
  sys_recv := λ d size w,
    if d <? 0 then (mk_answer (-1) false, [], w) else
    let '(x, w') := next_answer w in
    match x with
    | Interrupts => (mk_answer (-1) true, [], w')
    | Gives n => (mk_answer (Z.min n 0) false, [], w')
    | Delivers bytes =>
        let given := take (Z.to_nat size) bytes in
        (mk_answer (Z.of_nat (length given)) false, given, put_back (drop (Z.to_nat size) bytes) w')
    end;
  sys_sendto := λ d data _ _ w,
    let '(n, w') := plain_answer w in
    (Z.min n (Z.of_nat (length data)),
     mk_script (open_descriptors w') (answers w') (sent_bytes w' ++ [(d, data)]));
  sys_shutdown := λ _ w, w;
  sys_close := λ d w, mk_script (open_descriptors w ∖ {[d]}) (answers w) (sent_bytes w);
  inet_pton := λ text, Some (Z.of_nat (String.length text))
|}.

Lemma next_answer_open w : open_descriptors (next_answer w).2 = open_descriptors w.
Proof. unfold next_answer. by destruct (answers w). Qed.

Lemma next_answer_sent w : sent_bytes (next_answer w).2 = sent_bytes w.
Proof. unfold next_answer. by destruct (answers w). Qed.

Lemma put_back_same bytes w :
  open_descriptors (put_back bytes w) = open_descriptors w ∧
  sent_bytes (put_back bytes w) = sent_bytes w.
Proof. by destruct bytes. Qed.

Lemma plain_answer_open w : open_descriptors (plain_answer w).2 = open_descriptors w.
Proof. unfold plain_answer. pose proof (next_answer_open w). by destruct (next_answer w). Qed.

Lemma opening_answer_opened w :
  opened (result (opening_answer w).1) w (opening_answer w).2.
Proof.
  unfold opening_answer. pose proof (next_answer_open w) as Hw.
  pose proof (fresh_descriptor_spec (open_descriptors w)) as [Hd Hf].
  destruct (next_answer w) as [[n|bytes|] w']; simpl in Hw; [|exact Hw|exact Hw].
  destruct (n <? 0) eqn:En; unfold opened; simpl; [by rewrite En|].
  destruct (Z.ltb_spec (fresh_descriptor (open_descriptors w)) 0); [lia|]. by rewrite Hw.
Qed.

#[export] Instance scripted_laws : SystemLaws Script.
Proof.
  constructor; simpl; try (intros; apply plain_answer_open).
  - intros _ w. pose proof (opening_answer_opened w). by destruct (opening_answer w).
  - intros d w. destruct (d <? 0); [done|]. apply opening_answer_opened.
  - intros d data w. pose proof (next_answer_open w). by destruct (next_answer w) as [[]].
  - intros d size w. destruct (d <? 0); [done|]. pose proof (next_answer_open w) as Hw.
    destruct (next_answer w) as [[n|bytes|] w']; simpl in *; [done| |done].
    by rewrite (proj1 (put_back_same _ w')).
  - intros d data ip port w. pose proof (plain_answer_open w). by destruct (plain_answer w).
  - done.
  - done.
  - intros d data w. pose proof (next_answer_sent w) as Hw.
    destruct (next_answer w) as [[n|bytes|] w']; simpl in *.
    + split; [lia|]. rewrite filter_app, fmap_app, concat_app, Hw.
      rewrite filter_cons_True by done. simpl. by rewrite app_nil_r.
    + split; [lia|]. by rewrite Hw, app_nil_r.
    + split; [lia|]. by rewrite Hw, app_nil_r.
  - intros d size w. destruct (d <? 0); [simpl; intros; split; [|split]; (lia || done)|].
    unfold next_answer. destruct (answers w) as [|[n|bytes|] l] eqn:E; simpl;
      intros Hs; rewrite ?E; simpl; (split; [|split]); try lia; try done.
    rewrite length_take. lia.
    unfold put_back. rewrite <- (take_drop (Z.to_nat size) bytes) at 1. rewrite <- app_assoc.
    f_equal. by destruct (drop (Z.to_nat size) bytes).
  - intros d d' size w. destruct (d' <? 0); [done|]. pose proof (next_answer_sent w) as Hw.
    destruct (next_answer w) as [[n|bytes|] w']; simpl in *; [by rewrite Hw| |by rewrite Hw].
    by rewrite (proj2 (put_back_same _ w')), Hw.
Qed.

#[export] Instance scripted_refusing : Refusing Script.
Proof. split; intros; simpl; destruct (Z.ltb_spec d 0); simpl; lia. Qed.

Definition is_interrupt (x : Scripted) : bool := match x with Interrupts => true | _ => false end.
Definition interrupts_left (w : Script) : nat := length (filter is_interrupt (answers w)).

Lemma next_answer_left w :
  let '(x, w') := next_answer w in
  interrupts_left w = ((if is_interrupt x then 1 else 0) + interrupts_left w')%nat.
Proof.
  unfold next_answer, interrupts_left. destruct (answers w) as [|x l] eqn:E; simpl; [by rewrite E|].
  by destruct x.
Qed.

#[export] Program Instance scripted_patient : Patient Script := {| interruptions := interrupts_left |}.
Next Obligation.
  intros d w. simpl. destruct (d <? 0); [right; done|]. unfold opening_answer. pose proof (next_answer_left w) as H.
  destruct (next_answer w) as [[n|bytes|] w']; simpl in *; [|right; split; [lia|done]|left; lia].
  destruct (Z.ltb_spec n 0); right; (split; [unfold interrupts_left in *; simpl; lia|done]).
Qed.
Next Obligation.
  intros d data w. simpl. pose proof (next_answer_left w) as H.
  destruct (next_answer w) as [[n|bytes|] w']; simpl in *; [|right; split; [lia|done]|left; lia].
  right. split; [unfold interrupts_left in *; simpl; lia|done].
Qed.
Next Obligation.
  intros d size w. simpl. destruct (d <? 0); [right; done|]. pose proof (next_answer_left w) as H.
  destruct (next_answer w) as [[n|bytes|] w']; simpl in *; [right; split; [lia|done]| |left; lia].
  right. assert (interrupts_left (put_back (drop (Z.to_nat size) bytes) w') = interrupts_left w')
    as -> by by destruct (drop _ bytes).
  split; lia.
Qed.

(** ** Accounts of the open descriptors *)

(* a field that holds a descriptor, or -1 *)
Definition field (d : Z) : list Z := if d <? 0 then [] else [d].

Lemma field_open d : 0 ≤ d → field d = [d].
Proof. intros. unfold field. by destruct (Z.ltb_spec d 0); [lia|]. Qed.
Lemma field_none d : d < 0 → field d = [].
Proof. intros. unfold field. by destruct (Z.ltb_spec d 0); [|lia]. Qed.

(* the field once the descriptor is closed *)
Definition vacated (d : Z) : Z := if 0 <=? d then -1 else d.

Lemma field_vacated d : field (vacated d) = [].
Proof. unfold field, vacated. destruct (Z.leb_spec 0 d); [done|]. by destruct (Z.ltb_spec d 0); [|lia]. Qed.

(** Besides those of [base], the open descriptors are those of [l], each once. *)
Record owned {W} `{!System W} (base : gset Z) (l : list Z) (w : W) : Prop := {
  owned_all : descriptors w = base ∪ list_to_set l;
  owned_once : NoDup l;
  owned_apart d : d ∈ l → d ∉ base
}.

Section owned.
Context {W : Type} `{!System W, !SystemLaws W} (base : gset Z).
Implicit Types (l : list Z) (w : W).

Lemma owned_perm l1 l2 w : l1 ≡ₚ l2 → owned base l1 w → owned base l2 w.
Proof.
  intros Hp [H1 H2 H3]. split; [|by rewrite <- Hp|intros d; rewrite <- Hp; apply H3].
  rewrite H1. f_equal. by rewrite Hp.
Qed.

#[export] Instance owned_proper : Proper ((≡ₚ) ==> (=) ==> iff) (owned base).
Proof. intros l1 l2 Hp w w' <-. split; by apply owned_perm. Qed.

Lemma owned_same l w w' : descriptors w' = descriptors w → owned base l w → owned base l w'.
Proof. intros Hw [H1 H2 H3]. split; [by rewrite Hw|done|done]. Qed.

Lemma owned_none w : owned (descriptors w) [] w.
Proof. split; [set_solver|constructor|]. by intros d ?%elem_of_nil. Qed.

Lemma owned_opened l d w w' : opened d w w' → owned base l w → owned base (field d ++ l) w'.
Proof.
  intros Ho Hl. unfold opened, field in *. destruct (d <? 0); [by eapply owned_same|].
  destruct Ho as [Hd Hw]. destruct Hl as [H1 H2 H3]. rewrite H1 in Hd. simpl. split.
  - rewrite Hw, H1. set_solver.
  - constructor; [|done]. set_solver.
  - intros x [->|Hx]%elem_of_cons; [set_solver|by apply H3].
Qed.

Lemma owned_close l d w : owned base (d :: l) w → owned base l (sys_close d w).
Proof.
  intros [H1 [Hd H2]%NoDup_cons H3]. split; [|done|intros x Hx; apply H3; by right].
  rewrite close_descriptors, H1. assert (d ∉ base) by (apply H3; by left). set_solver.
Qed.

Lemma owned_shutdown l d w : owned base l w → owned base l (sys_shutdown d w).
Proof. apply owned_same. apply shutdown_descriptors. Qed.

(* a field is shut down and closed, if it holds a descriptor *)
Definition closed_at (d : Z) (w : W) : W := if 0 <=? d then sys_close d (sys_shutdown d w) else w.

Lemma owned_closed_at l d w : owned base (field d ++ l) w → owned base l (closed_at d w).
Proof.
  unfold field, closed_at. destruct (Z.ltb_spec d 0), (Z.leb_spec 0 d); try lia; [done|].
  intros Ho. by apply owned_close, owned_shutdown.
Qed.

Lemma owned_closed w : owned base [] w → descriptors w = base.
Proof. intros [-> _ _]. set_solver. Qed.

Lemma forget_perm l d : NoDup l → d ∈ l → l ≡ₚ d :: filter (λ x, x ≠ d) l.
Proof.
  induction l as [|x l IH]; intros Hn Hd; [by apply elem_of_nil in Hd|].
  apply NoDup_cons in Hn as [Hx Hn]. rewrite filter_cons. destruct (decide (x ≠ d)) as [Hne|He].
  - rewrite (Permutation_swap x d). constructor. apply IH; [done|].
    by apply elem_of_cons in Hd as [->|?].
  - apply dec_stable in He. subst x. rewrite filter_all; [done|].
    apply Forall_forall. intros y Hy ->. done.
Qed.

Lemma owned_forget l1 l2 d w :
  d ∈ l2 → owned base (l1 ++ l2) w → owned base (d :: l1 ++ filter (λ x, x ≠ d) l2) w.
Proof.
  intros Hd Hl. eapply owned_perm; [|exact Hl]. destruct Hl as [_ Hn _].
  apply NoDup_app in Hn as (_ & _ & Hn). rewrite (forget_perm l2 d) at 1 by done.
  symmetry. apply Permutation_middle.
Qed.
End owned.

(** ** Objects that hold descriptors *)

(* an object and the system *)
Section objects.
Context {O W : Type} `{!System W}.

Definition on_world {A} (m : M W A) : M (O * W) A :=
  λ st, let '(r, w) := m st.2 in (r, (st.1, w)).
Definition on_object (f : O → O) : M (O * W) unit := modify (λ st, (f st.1, st.2)).
Definition the_object : M (O * W) O := λ st, (Ok st.1, st).

(* ::close(d), the field set to -1, return false *)
Definition close_field (d : Z) (set : Z → O → O) : M (O * W) bool :=
  on_world (call_ (sys_close d)) ;;; on_object (set (-1)) ;;; ret false.
End objects.

(** A function that opens a socket into a field: it returns true with the
    socket in the field, or false with everything closed. *)
Section opening.
Context {O W : Type} `{!System W, !SystemLaws W} (set : Z → O → O)
  (Hset : ∀ d d' s, set d (set d' s) = set d s) (base : gset Z) (l : list Z).
Implicit Types (s : O) (w : W).

Definition opens_field (m : M (O * W) bool) (s : O) (w : W) : Prop :=
  ∃ b d w' s', m (s, w) = (Ok b, (s', w')) ∧ s' = set d s ∧ owned base (field d ++ l) w' ∧
    if b then 0 ≤ d else d < 0.

(* with the socket in the field *)
Definition decides (d : Z) (m : M (O * W) bool) (s : O) : Prop :=
  ∀ w, owned base (d :: l) w → opens_field m (set d s) w.

Lemma decides_true d s : 0 ≤ d → decides d (ret true) s.
Proof. intros Hd w Ho. exists true, d, w, (set d s). by rewrite Hset, field_open. Qed.

Lemma decides_close d s : decides d (close_field d set) s.
Proof.
  intros w Ho. exists false, (-1), (sys_close d w), (set (-1) (set d s)).
  split; [done|]. split; [done|]. split; [by apply owned_close|done].
Qed.

Lemma decides_call {A} (f : W → A * W) k d s :
  (∀ w, descriptors (f w).2 = descriptors w) → (∀ a, decides d (k a) s) →
  decides d (a <- on_world (call f) ;; k a) s.
Proof.
  intros Hf Hk w Ho. unfold opens_field, bind, on_world, call. cbn [fst snd]. specialize (Hf w).
  destruct (f w) as [a w']. cbn [fst snd] in *. apply Hk. by eapply owned_same.
Qed.

Lemma decides_object k d s : (∀ s', decides d (k s') s) → decides d (s' <- the_object ;; k s') s.
Proof. intros Hk w Ho. by apply Hk. Qed.

Lemma opens_socket kind k s w :
  (∀ d, 0 ≤ d → decides d (k d) s) → owned base l w →
  opens_field (d <- on_world (call (sys_socket kind)) ;;
    on_object (set d) ;;; if d <? 0 then ret false else k d) s w.
Proof.
  intros Hk Ho. unfold opens_field, bind, on_world, on_object, call, modify. cbn [fst snd].
  pose proof (socket_opens kind w) as Hd. destruct (sys_socket kind w) as [d w1]. cbn [fst snd] in *.
  pose proof (owned_opened base l d w w1 Hd Ho) as H1.
  destruct (Z.ltb_spec d 0) as [Hneg|Hpos]; [by exists false, d, w1, (set d s)|].
  rewrite (field_open d) in H1 by done.
  destruct (Hk d Hpos w1 H1) as (b & d' & w' & s' & He & -> & Ho' & Hb).
  exists b, d', w', (set d' s). rewrite He, Hset. done.
Qed.
End opening.
