(* ===== verification/TcpServer.v ===== *)
(** * The TCP server (include/exchange/tcp_server.hpp, src/tcp_server.cpp)

    The listening socket, the connections it accepts, and the loops around
    send and recv, which go on after an interruption.  The state of an object
    is its three fields; the system is a parameter ([Sockets]).  [attempts]
    bounds the iterations a loop may spend on interruptions: with more of them
    than the system has interruptions no loop runs out. *)
From S2P Require Import Prelude Bytes Sockets.

Module TcpServer.

Definition kBufferSize : Z := 4096.
Definition kListenBacklog : Z := 16.

Record t : Type := mk { port_ : Z; listen_socket_ : Z; client_socket_ : Z }.

Definition new (port : Z) : t := mk port (-1) (-1).
Definition set_listen (d : Z) (s : t) : t := mk (port_ s) d (client_socket_ s).
Definition set_client (d : Z) (s : t) : t := mk (port_ s) (listen_socket_ s) d.

Section calls.
Context {W : Type} `{!System W} (attempts : nat).

(** ** The functions without an object *)

Fixpoint send_all_loop (fuel : nat) (socket : Z) (data : list byte) (total_sent : Z) : M W bool :=
  match fuel with
  | O => throw OutOfFuel
  | S fuel =>
      if negb (total_sent <? Z.of_nat (length data)) then ret true
      else
        answer <- call (sys_send socket (drop (Z.to_nat total_sent) data)) ;;
        let sent := result answer in
        if sent <? 0
        then if interrupted answer then send_all_loop fuel socket data total_sent else ret false
        else if sent =? 0 then ret false
        else send_all_loop fuel socket data (u64 (total_sent + sent))
  end.

Definition send_all (socket : Z) (data : list byte) : M W bool :=
  send_all_loop (attempts + S (length data)) socket data 0.

Definition send_to (client_socket : Z) (data : list byte) : M W bool :=
  if client_socket <? 0 then ret false else send_all client_socket data.

Fixpoint receive_loop (fuel : nat) (client_socket : Z) : M W (list byte) :=
  match fuel with
  | O => throw OutOfFuel
  | S fuel =>
      received <- call (sys_recv client_socket kBufferSize) ;;
      let '(answer, bytes) := received in
      if (result answer <? 0) && interrupted answer then receive_loop fuel client_socket
      else if result answer <=? 0 then ret []
      else ret bytes
  end.

(* the buffer is cut to what was received; nothing received, an error and the
   end of the connection are the same empty vector *)
Definition receive_from (client_socket : Z) : M W (list byte) :=
  if client_socket <? 0 then ret [] else receive_loop (S attempts) client_socket.

Definition close_connection (client_socket : Z) : M W unit :=
  if client_socket <? 0 then ret tt
  else call_ (sys_shutdown client_socket) ;;; call_ (sys_close client_socket).

Fixpoint accept_loop (fuel : nat) (listen_socket : Z) : M W Z :=
  match fuel with
  | O => throw OutOfFuel
  | S fuel =>
      answer <- call (sys_accept listen_socket) ;;
      if (result answer <? 0) && interrupted answer then accept_loop fuel listen_socket
      else ret (result answer)
  end.

(** ** The methods *)

Definition on_system {A} (m : M W A) : M (t * W) A :=
  λ st, let '(r, w) := m st.2 in (r, (st.1, w)).
Definition on_server (f : t → t) : M (t * W) unit := modify (λ st, (f st.1, st.2)).
Definition server : M (t * W) t := λ st, (Ok st.1, st).

Definition stop : M (t * W) unit :=
  s <- server ;;
  (if 0 <=? client_socket_ s
   then on_system (call_ (sys_shutdown (client_socket_ s))) ;;;
        on_system (call_ (sys_close (client_socket_ s))) ;;;
        on_server (set_client (-1))
   else ret tt) ;;;
  (if 0 <=? listen_socket_ s
   then on_system (call_ (sys_shutdown (listen_socket_ s))) ;;;
        on_system (call_ (sys_close (listen_socket_ s))) ;;;
        on_server (set_listen (-1))
   else ret tt).

Definition start : M (t * W) bool :=
  s <- server ;;
  if 0 <=? listen_socket_ s then ret true
  else
    d <- on_system (call (sys_socket Stream)) ;;
    on_server (set_listen d) ;;;
    if d <? 0 then ret false
    else
      reused <- on_system (call (sys_setsockopt d ReuseAddress)) ;;
      if reused <? 0 then stop ;;; ret false
      else
        bound <- on_system (call (sys_bind d inaddr_any (port_ s))) ;;
        if bound <? 0 then stop ;;; ret false
        else
          listening <- on_system (call (sys_listen d kListenBacklog)) ;;
          if listening <? 0 then stop ;;; ret false else ret true.

(* configure_client_socket does nothing where SO_NOSIGPIPE does not exist *)
Definition accept_connection : M (t * W) Z :=
  s <- server ;;
  if listen_socket_ s <? 0 then ret (-1)
  else on_system (accept_loop (S attempts) (listen_socket_ s)).

Definition accept_client : M (t * W) bool :=
  d <- accept_connection ;;
  on_server (set_client d) ;;;
  ret (0 <=? d).

Definition receive : M (t * W) (list byte) :=
  s <- server ;; on_system (receive_from (client_socket_ s)).

Definition send (data : list byte) : M (t * W) bool :=
  s <- server ;; on_system (send_to (client_socket_ s) data).
End calls.

(** ** The loops *)

Section loops.
Context {W : Type} `{!System W, !SystemLaws W, !Patient W}.

Lemma drop_part n k (data : list byte) :
  drop (n + k) data = drop k (drop n data).
Proof. by rewrite drop_drop. Qed.

Lemma send_all_loop_spec fuel d data total w :
  in_u64 (Z.of_nat (length data)) → 0 ≤ total ≤ Z.of_nat (length data) →
  (interruptions w + (length data - Z.to_nat total) < fuel)%nat →
  ∃ b w' part, send_all_loop fuel d data total w = (Ok b, w') ∧
    taken d w' = taken d w ++ part ∧ part `prefix_of` drop (Z.to_nat total) data ∧
    (b = true ↔ part = drop (Z.to_nat total) data) ∧ descriptors w' = descriptors w.
Proof.
  intros Hl. revert total w. induction fuel as [|fuel IH]; intros total w Ht Hf; [lia|].
  cbn [send_all_loop]. destruct (Z.ltb_spec total (Z.of_nat (length data))) as [Hlt|Hge]; cbn [negb].
  2:{ exists true, w, []. rewrite drop_ge by lia. split_and!; [done|by rewrite app_nil_r|done|done|done]. }
  set (rest := drop (Z.to_nat total) data). unfold bind at 1, call.
  pose proof (send_takes d rest w) as Hs. pose proof (send_patient d rest w) as Hp.
  pose proof (send_descriptors d rest w) as Hd.
  destruct (sys_send d rest w) as [answer w1]. destruct Hs as [Hn Hk]. simpl in Hd.
  assert (0 < length rest)%nat as Hr by (unfold rest; rewrite length_drop; lia).
  assert (length rest = length data - Z.to_nat total)%nat as Hrl by apply length_drop.
  destruct (Z.ltb_spec (result answer) 0) as [Hneg|Hpos].
  - rewrite Z2Nat.nonpos in Hk by lia. rewrite app_nil_r in Hk.
    destruct (interrupted answer).
    + assert (interruptions w1 < interruptions w)%nat as Hi.
      { destruct Hp as [?|[_ Hp]]; [done|]. by specialize (Hp Hneg). }
      destruct (IH total w1 Ht ltac:(lia)) as (b & w' & part & -> & Htk & Hpre & Hb & Hd').
      exists b, w', part. rewrite Htk, Hk. split_and!; [done..|congruence].
    + exists false, w1, []. rewrite Hk, app_nil_r. split_and!; [done|done|by apply prefix_nil| |done].
      split; [done|]. intros H. rewrite <- H in Hr. simpl in Hr. lia.
  - destruct (Z.eqb_spec (result answer) 0) as [Hz|Hz].
    + rewrite Hz in Hk. simpl in Hk. rewrite app_nil_r in Hk.
      exists false, w1, []. rewrite Hk, app_nil_r. split_and!; [done|done|by apply prefix_nil| |done].
      split; [done|]. intros H. rewrite <- H in Hr. simpl in Hr. lia.
    + rewrite u64_id by (unfold in_u64 in *; lia).
      destruct (IH (total + result answer) w1) as (b & w' & part & -> & Htk & Hpre & Hb & Hd');
        [lia|destruct Hp as [?|[? _]]; lia|].
      rewrite Z2Nat.inj_add, drop_part in Hpre, Hb by lia. fold rest in Hpre, Hb.
      exists b, w', (take (Z.to_nat (result answer)) rest ++ part).
      rewrite Htk, Hk, <- app_assoc. split_and!; [done|done| | |congruence].
      * rewrite <- (take_drop (Z.to_nat (result answer)) rest) at 2. by apply prefix_app.
      * rewrite Hb. rewrite <- (take_drop (Z.to_nat (result answer)) rest) at 3.
        split; [by intros ->|]. apply app_inv_head.
Qed.

Lemma receive_loop_spec fuel d w :
  (interruptions w < fuel)%nat →
  ∃ bytes w', receive_loop fuel d w = (Ok bytes, w') ∧
    arriving d w = bytes ++ arriving d w' ∧ Z.of_nat (length bytes) ≤ kBufferSize ∧
    taken d w' = taken d w ∧ descriptors w' = descriptors w.
Proof.
  revert w. induction fuel as [|fuel IH]; intros w Hf; [lia|].
  cbn [receive_loop]. unfold bind at 1, call.
  pose proof (recv_gives d kBufferSize w) as Hg. pose proof (recv_patient d kBufferSize w) as Hp.
  pose proof (recv_descriptors d kBufferSize w) as Hd. pose proof (recv_taken d d kBufferSize w) as Ht.
  destruct (sys_recv d kBufferSize w) as [[answer bytes] w1]. simpl in Hd, Ht.
  destruct (Hg ltac:(done)) as (Hn & Hle & Ha).
  destruct (Z.ltb_spec (result answer) 0) as [Hneg|Hpos].
  - assert (bytes = []) as -> by (apply length_zero_iff_nil; lia). simpl in Ha.
    destruct (interrupted answer); simpl.
    + destruct (IH w1) as (bytes & w' & -> & Ha' & Hl & Ht' & Hd').
      { destruct Hp as [?|[_ Hp]]; [lia|]. by specialize (Hp Hneg). }
      exists bytes, w'. split_and!; [done|congruence|done|congruence|congruence].
    + destruct (Z.leb_spec (result answer) 0); [|lia]. exists [], w1. by split_and!.
  - simpl. destruct (Z.leb_spec (result answer) 0).
    + assert (bytes = []) as -> by (apply length_zero_iff_nil; lia). exists [], w1. by split_and!.
    + exists bytes, w1. split_and!; [done|done|lia|done|done].
Qed.

Lemma accept_loop_spec fuel d w :
  (interruptions w < fuel)%nat →
  ∃ c w', accept_loop fuel d w = (Ok c, w') ∧ opened c w w'.
Proof.
  revert w. induction fuel as [|fuel IH]; intros w Hf; [lia|].
  cbn [accept_loop]. unfold bind at 1, call.
  pose proof (accept_opens d w) as Ho. pose proof (accept_patient d w) as Hp.
  destruct (sys_accept d w) as [answer w1]. simpl in Ho.
  destruct (Z.ltb_spec (result answer) 0) as [Hneg|Hpos]; simpl; [|by exists (result answer), w1].
  destruct (interrupted answer); [|by exists (result answer), w1].
  destruct (IH w1) as (c & w' & -> & Hc).
  { destruct Hp as [?|[_ Hp]]; [lia|]. by specialize (Hp Hneg). }
  exists c, w'. split; [done|]. unfold opened in *.
  destruct (Z.ltb_spec (result answer) 0); [|lia]. by rewrite <- Ho.
Qed.
End loops.

(** Bytes are sent whole or not at all reported as sent.  However the system
    cuts and interrupts the calls, send_to returns; what it has put on the
    connection is a first part of the message, all of it exactly when it
    returns true.  receive_from returns the next bytes of the connection, at
    most a buffer of them, in order, and loses none. *)
Theorem transfers_exact {W} `{!System W, !SystemLaws W, !Patient W} attempts d data (w : W) :
  0 ≤ d → in_u64 (Z.of_nat (length data)) → (interruptions w ≤ attempts)%nat →
  (∃ b w' part, send_to attempts d data w = (Ok b, w') ∧
    taken d w' = taken d w ++ part ∧ part `prefix_of` data ∧ (b = true ↔ part = data)) ∧
  (∃ bytes w', receive_from attempts d w = (Ok bytes, w') ∧
    arriving d w = bytes ++ arriving d w' ∧ Z.of_nat (length bytes) ≤ kBufferSize ∧
    taken d w' = taken d w).
Proof.
  intros Hd Hl Hp. unfold send_to, receive_from. destruct (Z.ltb_spec d 0); [lia|]. split.
  - destruct (send_all_loop_spec (attempts + S (length data)) d data 0 w)
      as (b & w' & part & Hs & Ht & Hpre & Hb & _); [done|lia|lia|].
    by exists b, w', part.
  - destruct (receive_loop_spec (S attempts) d w) as (bytes & w' & Hr & Ha & Hk & Ht & _); [lia|].
    by exists bytes, w'.
Qed.

(** ** Descriptors *)

(* what the object holds *)
Definition held (s : t) : list Z := field (listen_socket_ s) ++ field (client_socket_ s).

Section accounts.
Context {W : Type} `{!System W, !SystemLaws W, !Patient W} (attempts : nat).

(** The object in use: [lent] are the connections given to the caller. *)
Record Usage : Type := mk_usage { object : t; system : W; lent : list Z }.

Inductive Call : Type :=
  | Start | Stop | AcceptClient | AcceptConnection | CloseConnection (d : Z)
  | Receive | Send (data : list byte) | ReceiveFrom (d : Z) | SendTo (d : Z) (data : list byte).

Definition on_object {A} (m : M (t * W) A) (change : A → list Z → list Z) : M Usage unit :=
  λ u, match m (object u, system u) with
       | (Ok a, (s, w)) => (Ok tt, mk_usage s w (change a (lent u)))
       | (Throw e, (s, w)) => (Throw e, mk_usage s w (lent u))
       end.

Definition perform (c : Call) : M Usage unit :=
  match c with
  | Start => on_object start (λ _ l, l)
  | Stop => on_object stop (λ _ l, l)
  | AcceptClient => on_object (accept_client attempts) (λ _ l, l)
  | AcceptConnection => on_object (accept_connection attempts) (λ d l, field d ++ l)
  | CloseConnection d => on_object (on_system (close_connection d)) 
      (λ _ l, if d <? 0 then l else filter (λ x, x ≠ d) l)
  | Receive => on_object (receive attempts) (λ _ l, l)
  | Send data => on_object (send attempts data) (λ _ l, l)
  | ReceiveFrom d => on_object (on_system (receive_from attempts d)) (λ _ l, l)
  | SendTo d data => on_object (on_system (send_to attempts d data)) (λ _ l, l)
  end.

(* the caller closes only what it was given, and accepts one client at a time *)
Definition proper (c : Call) (u : Usage) : Prop :=
  (interruptions (system u) ≤ attempts)%nat ∧
  match c with
  | AcceptClient => client_socket_ (object u) < 0
  | CloseConnection d => d < 0 ∨ d ∈ lent u
  | Send data | SendTo _ data => in_u64 (Z.of_nat (length data))
  | _ => True
  end.

Inductive used (port : Z) (w0 : W) : Usage → Prop :=
  | used_new : used port w0 (mk_usage (new port) w0 [])
  | used_call c u r u' :
      used port w0 u → proper c u → perform c u = (r, u') → used port w0 u'.

(** [returns m change s w]: [m] returns, and every descriptor that was held or
    lent, or opened meanwhile, still is. *)
Definition returns {A} (m : M (t * W) A) (change : A → list Z → list Z) (s : t) (w : W) : Prop :=
  ∀ base l, owned base (held s ++ l) w →
    ∃ a s' w', m (s, w) = (Ok a, (s', w')) ∧ owned base (held s' ++ change a l) w'.

Lemma returns_ret {A} (a : A) s w : returns (ret a) (λ _ l, l) s w.
Proof. intros base l Ho. by exists a, s, w. Qed.

(* a call that neither opens nor closes *)
Lemma returns_call {A B} (f : W → A * W) (k : A → M (t * W) B) change s w :
  (∀ w, descriptors (f w).2 = descriptors w) → (∀ a w', returns (k a) change s w') →
  returns (a <- on_system (call f) ;; k a) change s w.
Proof.
  intros Hf Hk base l Ho. unfold bind, on_system, call. cbn [fst snd]. specialize (Hf w).
  destruct (f w) as [a w']. apply (Hk a w'). by eapply owned_same.
Qed.

Lemma returns_bind {A B} (m : M (t * W) A) (k : A → M (t * W) B) s w :
  returns m (λ _ l, l) s w → (∀ a s' w', returns (k a) (λ _ l, l) s' w') →
  returns (a <- m ;; k a) (λ _ l, l) s w.
Proof.
  intros Hm Hk base l Ho. destruct (Hm base l Ho) as (a & s1 & w1 & He & H1).
  unfold bind. rewrite He. by apply Hk.
Qed.

Lemma stop_eq s w :
  stop (s, w) = (Ok tt, (mk (port_ s) (vacated (listen_socket_ s)) (vacated (client_socket_ s)),
    closed_at (listen_socket_ s) (closed_at (client_socket_ s) w))).
Proof.
  destruct s as [p l c]. unfold stop, bind, server, on_system, on_server, call_, modify, closed_at, vacated.
  simpl. by destruct (0 <=? c), (0 <=? l).
Qed.

Lemma stop_returns s w base l :
  owned base (held s ++ l) w →
  ∃ s' w', stop (s, w) = (Ok tt, (s', w')) ∧ held s' = [] ∧ owned base l w'.
Proof.
  intros Ho. eexists _, _. split; [apply stop_eq|]. split.
  - unfold held. simpl. by rewrite !field_vacated.
  - apply owned_closed_at, owned_closed_at. eapply owned_perm; [|exact Ho]. unfold held.
    rewrite <- app_assoc. apply Permutation_app_swap_app.
Qed.

Lemma start_returns s w : returns start (λ _ l, l) s w.
Proof.
  assert (∀ s w, returns (stop ;;; ret false) (λ _ l, l) s w) as Hstop.
  { intros s1 w1. apply returns_bind; [|intros a s2 w2; apply returns_ret].
    intros base l H1. destruct (stop_returns s1 w1 base l H1) as (s' & w' & He & Hh & H').
    exists tt, s', w'. by rewrite Hh. }
  intros base l Ho. unfold start, bind at 1, server. cbn [fst snd].
  destruct (Z.leb_spec 0 (listen_socket_ s)) as [Hs|Hs]; [by exists true, s, w|].
  unfold bind at 1, on_system at 1, call at 1. cbn [fst snd].
  pose proof (socket_opens Stream w) as Hd. destruct (sys_socket Stream w) as [d w1]. cbn [fst snd] in *.
  set (s1 := set_listen d s).
  assert (owned base (held s1 ++ l) w1) as H1.
  { eapply owned_perm; [|by eapply owned_opened]. unfold held. rewrite (field_none (listen_socket_ s)) by done.
    simpl. by rewrite app_assoc. }
  clear Ho. revert base l H1. change (returns (if d <? 0 then ret false else
    reused <- on_system (call (sys_setsockopt d ReuseAddress)) ;;
    if reused <? 0 then stop ;;; ret false
    else
      bound <- on_system (call (sys_bind d inaddr_any (port_ s))) ;;
      if bound <? 0 then stop ;;; ret false
      else
        listening <- on_system (call (sys_listen d kListenBacklog)) ;;
        if listening <? 0 then stop ;;; ret false else ret true) (λ _ l, l) s1 w1).
  destruct (d <? 0); [apply returns_ret|].
  apply returns_call; [apply setsockopt_descriptors|intros r2 w2].
  destruct (r2 <? 0); [apply Hstop|].
  apply returns_call; [apply bind_descriptors|intros r3 w3].
  destruct (r3 <? 0); [apply Hstop|].
  apply returns_call; [apply listen_descriptors|intros r4 w4].
  destruct (r4 <? 0); [apply Hstop|apply returns_ret].
Qed.
Lemma accept_returns s w :
  (interruptions w ≤ attempts)%nat → returns (accept_connection attempts) (λ d l, field d ++ l) s w.
Proof.
  intros Hp base l Ho. unfold accept_connection, bind, server, on_system. cbn [fst snd].
  destruct (listen_socket_ s <? 0); [by exists (-1), s, w|]. cbn [fst snd].
  destruct (accept_loop_spec (S attempts) (listen_socket_ s) w ltac:(lia)) as (d & w' & -> & Hd).
  exists d, s, w'. split; [done|]. eapply owned_perm; [|by eapply owned_opened].
  apply Permutation_app_swap_app.
Qed.

Lemma accept_client_returns s w :
  (interruptions w ≤ attempts)%nat → client_socket_ s < 0 →
  returns (accept_client attempts) (λ _ l, l) s w.
Proof.
  intros Hp Hc base l Ho. destruct (accept_returns s w Hp base l Ho) as (d & s' & w' & He & H').
  assert (s' = s) as ->.
  { unfold accept_connection, bind, server, on_system in He. cbn [fst snd] in He.
    destruct (listen_socket_ s <? 0); [by injection He|].
    destruct (accept_loop _ _ _) as [[?|?] ?]; by injection He. }
  exists (0 <=? d), (set_client d s), w'. unfold accept_client, bind. rewrite He. split; [done|].
  eapply owned_perm; [|exact H']. unfold held. simpl. rewrite (field_none (client_socket_ s)) by done.
  by rewrite app_nil_r, <- !app_assoc.
Qed.

(* send and recv *)
Lemma transfer_returns {A} (m : M W A) s w :
  (∃ a w', m w = (Ok a, w') ∧ descriptors w' = descriptors w) → returns (on_system m) (λ _ l, l) s w.
Proof.
  intros (a & w' & Hm & Hw) base l Ho. unfold on_system. cbn [fst snd]. rewrite Hm.
  exists a, s, w'. split; [done|]. by eapply owned_same.
Qed.

Lemma send_to_same d data (w : W) :
  (interruptions w ≤ attempts)%nat → in_u64 (Z.of_nat (length data)) →
  ∃ b w', send_to attempts d data w = (Ok b, w') ∧ descriptors w' = descriptors w.
Proof.
  intros Hp Hl. unfold send_to. destruct (d <? 0); [by exists false, w|].
  destruct (send_all_loop_spec (attempts + S (length data)) d data 0 w)
    as (b & w' & part & Hs & _ & _ & _ & Hd); [done|lia|lia|]. by exists b, w'.
Qed.

Lemma receive_from_same d (w : W) :
  (interruptions w ≤ attempts)%nat →
  ∃ bytes w', receive_from attempts d w = (Ok bytes, w') ∧ descriptors w' = descriptors w.
Proof.
  intros Hp. unfold receive_from. destruct (d <? 0); [by exists [], w|].
  destruct (receive_loop_spec (S attempts) d w) as (bytes & w' & Hr & _ & _ & _ & Hd); [lia|].
  by exists bytes, w'.
Qed.

Lemma on_object_accounted {A} (m : M (t * W) A) change base u :
  returns m change (object u) (system u) →
  owned base (held (object u) ++ lent u) (system u) →
  ∃ u', on_object m change u = (Ok tt, u') ∧
    owned base (held (object u') ++ lent u') (system u').
Proof.
  intros Hm Ho. destruct (Hm base _ Ho) as (a & s' & w' & He & H').
  unfold on_object. rewrite He. by eexists.
Qed.

Lemma perform_accounted base c u :
  proper c u → owned base (held (object u) ++ lent u) (system u) →
  ∃ u', perform c u = (Ok tt, u') ∧ owned base (held (object u') ++ lent u') (system u').
Proof.
  intros [Hp Hc] Ho. destruct c; simpl in Hc |- *.
  5: { unfold on_object, on_system, close_connection. cbn [fst snd].
    destruct (Z.ltb_spec d 0) as [Hd|Hd]; eexists; (split; [reflexivity|]); [done|].
    destruct Hc as [?|Hc]; [lia|]. by apply owned_close, owned_shutdown, owned_forget. }
  all: apply on_object_accounted; [|done].
  - apply start_returns.
  - intros base' l' H'. destruct (stop_returns _ _ _ _ H') as (s' & w' & He & Hh & H'').
    exists tt, s', w'. by rewrite Hh.
  - by apply accept_client_returns.
  - by apply accept_returns.
  - unfold receive. intros base' l' H'. unfold bind, server. cbn [fst snd].
    apply (transfer_returns _ (object u) (system u)); [by apply receive_from_same|done].
  - unfold send. intros base' l' H'. unfold bind, server. cbn [fst snd].
    apply (transfer_returns _ (object u) (system u)); [by apply send_to_same|done].
  - apply transfer_returns. by apply receive_from_same.
  - apply transfer_returns. by apply send_to_same.
Qed.
Lemma used_accounted port w0 u :
  used port w0 u → owned (descriptors w0) (held (object u) ++ lent u) (system u).
Proof.
  induction 1 as [|c u r u' _ IH Hc He]; [apply owned_none|].
  destruct (perform_accounted _ c u Hc IH) as (u1 & H1 & Ho). rewrite H1 in He. by injection He as _ <-.
Qed.
End accounts.

(** No descriptor is lost.  Whatever calls a program makes, on any system, if it
    closes only connections it was given and accepts a single client only when
    it has none, every call returns; the descriptors the process has open are
    those it had before, those of the two fields, and the connections lent and
    not yet closed; and stop, which the destructor calls, leaves only the lent
    ones. *)
Theorem descriptors_accounted {W} `{!System W, !SystemLaws W, !Patient W} attempts port (w0 : W) u :
  used attempts port w0 u →
  (∀ c, proper attempts c u → ∃ u', perform attempts c u = (Ok tt, u')) ∧
  (∀ d, d ∈ descriptors (system u) ↔ d ∈ descriptors w0 ∨ d ∈ held (object u) ++ lent u) ∧
  NoDup (held (object u) ++ lent u) ∧
  ∃ u', perform attempts Stop u = (Ok tt, u') ∧ lent u' = lent u ∧
    ∀ d, d ∈ descriptors (system u') ↔ d ∈ descriptors w0 ∨ d ∈ lent u.
Proof.
  intros Hu. pose proof (used_accounted attempts port w0 u Hu) as Ho.
  split_and!.
  - intros c Hc. destruct (perform_accounted attempts _ c u Hc Ho) as (u' & H & _). by exists u'.
  - intros d. destruct Ho as [-> _ _]. set_solver.
  - apply Ho.
  - destruct (stop_returns _ _ _ _ Ho) as (s' & w' & He & _ & [Hw _ _]).
    unfold perform, on_object. rewrite He. eexists. split; [done|]. split; [done|].
    intros d. cbn [system]. rewrite Hw. set_solver.
Qed.

(** ** A concrete system *)

(* socket, bind, and so on succeed; accept is interrupted once *)
Definition quiet : Script := mk_script ∅ [Gives 0; Gives 0; Gives 0; Gives 0; Interrupts; Gives 0] [].
Definition listening : Usage := (perform 1 Start (mk_usage (new 9000) quiet [])).2.
Definition connected : Usage := (perform 1 AcceptConnection listening).2.

(* the message is cut and interrupted, then a delivery is read *)
Definition busy : Script := mk_script {[7]} [Gives 2; Interrupts; Gives 9; Delivers [x41; x42]] [].

Lemma transfers_exact_witness :
  (∃ b w' part, send_to 1 7 [x61; x62; x63] busy = (Ok b, w') ∧ taken 7 w' = taken 7 busy ++ part ∧
    part `prefix_of` [x61; x62; x63] ∧ (b = true ↔ part = [x61; x62; x63])) ∧
  (send_to 1 7 [x61; x62; x63] busy).1 = Ok true.
Proof.
  split; [|by vm_compute].
  apply (transfers_exact 1 7 [x61; x62; x63] busy); [lia|by unfold in_u64; simpl|vm_compute; lia].
Defined.

Lemma connected_used : used 1 9000 quiet connected.
Proof.
  apply (used_call 1 9000 quiet AcceptConnection listening (Ok tt)).
  - apply (used_call 1 9000 quiet Start (mk_usage (new 9000) quiet []) (Ok tt)).
    + apply used_new.
    + split; [vm_compute; lia|done].
    + vm_compute. reflexivity.
  - split; [vm_compute; lia|done].
  - vm_compute. reflexivity.
Qed.

Lemma descriptors_accounted_witness :
  held (object connected) = [3] ∧ lent connected = [4] ∧
  ∃ u', perform 1 Stop connected = (Ok tt, u') ∧ lent u' = [4] ∧
    ∀ d, d ∈ descriptors (system u') ↔ d ∈ descriptors quiet ∨ d ∈ [4].
Proof.
  split; [by vm_compute|]. split; [by vm_compute|].
  exact (proj2 (proj2 (proj2 (descriptors_accounted 1 9000 quiet connected connected_used)))).
Defined.

(** The guard on accept_client is needed: the descriptor of the first client is
    overwritten, and neither stop nor the destructor closes it. *)
Example second_client_leaks :
  let '(_, u) := perform 1 AcceptClient (perform 1 AcceptClient listening).2 in
  held (object u) = [3; 5] ∧ elements (descriptors (system u)) ≡ₚ [3; 4; 5] ∧
  descriptors (system (perform 1 Stop u).2) = {[4]}.
Proof. vm_compute. split_and!; [done| |done]. solve_Permutation. Qed.

End TcpServer.
