(* ===== verification/ServerThreads.v ===== *)
(** * The threads of the exchange (src/exchange_server.cpp)

    [start], [run], [stop], the thread of each client and the telemetry thread.
    A step is a system call, a section under a mutex, a test of running_, or the
    handling of one message, of one of these threads or of the callers of [run]
    and [stop].  A message is a step because journal_processing_mutex_ is held
    all through it; on a server without a journal that is a simplification.
    The system answers as it likes.

    What the threads do to the exchange is what a sequence of the events of
    ExchangeServer.v does: the theorems about those events are theorems about
    the threads. *)
From S2P Require Import Prelude Types TradeBuffer RiskEngine Bytes Protocol ExchangeServer ServerDemo ServerFrames ServerMessages ServerRecovery Sockets TcpServer.
Open Scope Z_scope.

Module ServerThreads.
Import ExchangeServer ServerFrames.

(** ** Threads *)

Inductive ClientPoint : Type :=
  | TestLoop                     (* at the top of the loop of handle_client *)
  | ReceiveFrom                  (* in receive_from *)
  | Messages                     (* in process_receive_buffer, at the top of its loop *)
  | Unregister
  | CloseConnection
  | Ended.                       (* not joined yet *)

#[export] Instance ClientPoint_eq_dec : EqDecision ClientPoint.
Proof. solve_decision. Defined.

Record ClientThread : Type := mk_client {
  point : ClientPoint;
  client_socket : Z;
  receive_buffer : list byte;
  trade_buffer : TradeBuffer.t
}.

Definition at_point (x : ClientPoint) (c : ClientThread) : ClientThread :=
  mk_client x (client_socket c) (receive_buffer c) (trade_buffer c).

(* the telemetry thread; what a turn sends is in Telemetry.v *)
Inductive PerformancePoint : Type :=
  | NoThread                     (* there is none, or it was joined *)
  | TestPerformance              (* at the top of the loop *)
  | Waiting                      (* in wait_for *)
  | TestAgain                    (* after it *)
  | PerformanceTurn
  | PerformanceEnded.

(* the caller of run *)
Inductive RunPoint : Type :=
  | NotRunning                   (* run has not been called, or has returned *)
  | TestRun                      (* at the top of the loop *)
  | AcceptConnection             (* in accept_connection *)
  | Register (client : Z)        (* about to register a client *)
  | Emplace (client : Z)         (* about to create its thread *)
  | SwapThreads
  | Join.                        (* joining the threads of [joining], in order *)

(* the caller of stop *)
Inductive StopPoint : Type :=
  | NotStopping
  | StopListening                (* server_.stop() *)
  | Snapshot
  | CloseClients (sockets : list Z)
  | JoinPerformance
  | ResetPublishers
  | Stopped.

Section threads.
Context (io : list byte → list byte → option nat) (elapsed : ExchangeServer.t → Z)
  (set_order : list OrderId → list OrderId).
Context {W : Type} `{!Sockets.System W}.

(* running_ is here, and not in the record of the exchange *)
Record Process : Type := mk_process {
  server_ : TcpServer.t;
  own : ExchangeServer.t;
  running_ : bool;
  client_threads_ : list ClientThread;
  joining : list ClientThread;        (* the local vector of run *)
  performance_thread_ : PerformancePoint;
  runner : RunPoint;
  stopper : StopPoint;
  world : W
}.

Definition set_server (x : TcpServer.t) (p : Process) : Process :=
  mk_process x (own p) (running_ p) (client_threads_ p) (joining p) (performance_thread_ p) (runner p) (stopper p) (world p).
Definition set_own (x : ExchangeServer.t) (p : Process) : Process :=
  mk_process (server_ p) x (running_ p) (client_threads_ p) (joining p) (performance_thread_ p) (runner p) (stopper p) (world p).
Definition set_running (x : bool) (p : Process) : Process :=
  mk_process (server_ p) (own p) x (client_threads_ p) (joining p) (performance_thread_ p) (runner p) (stopper p) (world p).
Definition set_threads (x : list ClientThread) (p : Process) : Process :=
  mk_process (server_ p) (own p) (running_ p) x (joining p) (performance_thread_ p) (runner p) (stopper p) (world p).
Definition set_joining (x : list ClientThread) (p : Process) : Process :=
  mk_process (server_ p) (own p) (running_ p) (client_threads_ p) x (performance_thread_ p) (runner p) (stopper p) (world p).
Definition set_performance (x : PerformancePoint) (p : Process) : Process :=
  mk_process (server_ p) (own p) (running_ p) (client_threads_ p) (joining p) x (runner p) (stopper p) (world p).
Definition set_runner (x : RunPoint) (p : Process) : Process :=
  mk_process (server_ p) (own p) (running_ p) (client_threads_ p) (joining p) (performance_thread_ p) x (stopper p) (world p).
Definition set_stopper (x : StopPoint) (p : Process) : Process :=
  mk_process (server_ p) (own p) (running_ p) (client_threads_ p) (joining p) (performance_thread_ p) (runner p) x (world p).
Definition set_world (x : W) (p : Process) : Process :=
  mk_process (server_ p) (own p) (running_ p) (client_threads_ p) (joining p) (performance_thread_ p) (runner p) (stopper p) x.

(** *** start *)

Definition constructed (port : Z) (limits : RiskEngine.RiskLimits.t) (multicast : bool) (w : W) : Process :=
  mk_process (TcpServer.new port) (ExchangeServer.new limits multicast) false [] [] NoThread NotRunning NotStopping w.

(* the server listens only once recovery, journal and publisher are ready;
   [telemetry]: whether its publisher starts and its thread can be created *)
Definition start (path : JournalPath) (multicast_starts telemetry : bool) (p : Process) : res bool * Process :=
  if (ExchangeServer.start path multicast_starts true (own p)).1 then
    let '(listens, (server, w)) := TcpServer.start (server_ p, world p) in
    match listens with
    | Throw e => (Throw e, set_world w (set_server server p))
    | Ok listens =>
        let '(started, s) := ExchangeServer.start path multicast_starts listens (own p) in
        let p := set_own s (set_world w (set_server server p)) in
        if started
        then (Ok true, set_performance (if telemetry then TestPerformance else NoThread) (set_running true p))
        else (Ok false, p)
    end
  else (Ok false, set_own (ExchangeServer.start path multicast_starts true (own p)).2 p).

(** *** run *)

(* accept_connection returns, after at most [attempts] interruptions *)
Definition accept_return (attempts : nat) (p : Process) : option Process :=
  let '(accepted, (server, w)) := TcpServer.accept_connection attempts (server_ p, world p) in
  match accepted with
  | Throw _ => None
  | Ok d => Some (set_world w (set_server server (set_runner (if d <? 0 then SwapThreads else Register d) p)))
  end.

Definition new_client (client : Z) : ClientThread :=
  mk_client TestLoop client [] (TradeBuffer.new default_capacity).

(* None while it waits *)
Definition run_step (attempts : nat) (p : Process) : option Process :=
  match runner p with
  | NotRunning => None
  | TestRun => Some (set_runner (if running_ p then AcceptConnection else SwapThreads) p)
  | AcceptConnection => accept_return attempts p
  | Register client => Some (set_runner (Emplace client) (set_own (register_client client (own p)) p))
  | Emplace client => Some (set_runner TestRun (set_threads (client_threads_ p ++ [new_client client]) p))
  | SwapThreads => Some (set_runner Join (set_joining (client_threads_ p) (set_threads [] p)))
  | Join =>
      match joining p with
      | [] => Some (set_runner NotRunning p)
      | c :: l => match point c with Ended => Some (set_joining l p) | _ => None end
      end
  end.

(** *** stop *)

(* close_connection on a descriptor of the system *)
Definition closed_connection (d : Z) (w : W) : W := (TcpServer.close_connection d w).2.

(* None while it waits for a thread.  Every record was flushed when it was
   written, so the last flush writes nothing, and it cannot throw: a failed
   append has ended the process.  What the publishers' own stop does is in
   Multicast.v and Telemetry.v *)
Definition stop_step (p : Process) : option Process :=
  match stopper p with
  | NotStopping | Stopped => None
  | StopListening =>
      let '(_, (server, w)) := TcpServer.stop (server_ p, world p) in
      Some (set_stopper Snapshot (set_world w (set_server server p)))
  | Snapshot => Some (set_stopper (CloseClients (client_sockets_ (own p))) p)
  | CloseClients [] => Some (set_stopper JoinPerformance p)
  | CloseClients (d :: l) => Some (set_stopper (CloseClients l) (set_world (closed_connection d (world p)) p))
  | JoinPerformance =>
      match performance_thread_ p with
      | NoThread | PerformanceEnded => Some (set_stopper ResetPublishers (set_performance NoThread p))
      | _ => None
      end
  | ResetPublishers => Some (set_stopper Stopped (set_own (set_publisher false (own p)) p))
  end.

(* running_.exchange(false) and notify_all *)
Definition call_stop (p : Process) : Process :=
  set_stopper (if running_ p then StopListening else JoinPerformance) (set_running false p).

(** *** The telemetry thread *)

Definition performance_step (p : Process) : option Process :=
  match performance_thread_ p with
  | NoThread | PerformanceEnded => None
  | TestPerformance => Some (set_performance (if running_ p then Waiting else PerformanceEnded) p)
  | Waiting => Some (set_performance TestAgain p)
  | TestAgain => Some (set_performance (if running_ p then PerformanceTurn else PerformanceEnded) p)
  | PerformanceTurn => Some (set_performance TestPerformance p)
  end.

(** *** handle_client *)

(** What process_receive_buffer finds at the front of its buffer. *)
Inductive Front : Type :=
  | Incomplete                   (* the loop ends, the buffer is kept *)
  | Garbage                      (* the loop ends, the buffer is cleared *)
  | Message (header : Protocol.MessageHeader.t) (body rest : list byte).

Definition front (buffer : list byte) : Front :=
  if (length buffer <? Protocol.header_size)%nat then Incomplete
  else
    match Protocol.decode_header (take Protocol.header_size buffer) with
    | None => Garbage
    | Some header =>
        let body_size := Protocol.MessageHeader.body_size header in
        if body_size >? maximum_body_size then Garbage
        else
          let full_message_size := (Protocol.header_size + Z.to_nat body_size)%nat in
          if (length buffer <? full_message_size)%nat then Incomplete
          else Message header (take (Z.to_nat body_size) (drop Protocol.header_size buffer))
                 (drop full_message_size buffer)
    end.

(* a step of the thread of a client, on the exchange and the system; an
   exception ends the process *)
Definition client_step (attempts : nat) (running : bool) (c : ClientThread) (s : ExchangeServer.t) (w : W)
    : option (res (ClientThread * ExchangeServer.t * W)) :=
  match point c with
  | TestLoop => Some (Ok (at_point (if running then ReceiveFrom else Unregister) c, s, w))
  | ReceiveFrom =>
      match TcpServer.receive_from attempts (client_socket c) w with
      | (Ok [], w) => Some (Ok (at_point Unregister c, s, w))
      | (Ok bytes, w) =>
          Some (Ok (mk_client Messages (client_socket c) (receive_buffer c ++ bytes) (trade_buffer c), s, w))
      | (Throw _, _) => None
      end
  | Messages =>
      match front (receive_buffer c) with
      | Incomplete => Some (Ok (at_point TestLoop c, s, w))
      | Garbage => Some (Ok (mk_client TestLoop (client_socket c) [] (trade_buffer c), s, w))
      | Message header body rest =>
          match handle_message io elapsed set_order (client_socket c) header body (s, trade_buffer c) with
          | (Ok _, (s, trades)) => Some (Ok (mk_client Messages (client_socket c) rest trades, s, w))
          | (Throw e, _) => Some (Throw e)
          end
      end
  | Unregister => Some (Ok (at_point CloseConnection c, unregister_client (client_socket c) s, w))
  | CloseConnection => Some (Ok (at_point Ended c, s, closed_connection (client_socket c) w))
  | Ended => None
  end.

(** *** The program *)

(* a thread, or a caller, goes on *)
Inductive works (p : Process) : Process → Prop :=
  | run_works attempts p' : run_step attempts p = Some p' → works p p'
  | stop_works p' : stop_step p = Some p' → works p p'
  | performance_works p' : performance_step p = Some p' → works p p'
  | client_works attempts l1 c l2 c' s w :
      client_threads_ p = l1 ++ c :: l2 →
      client_step attempts (running_ p) c (own p) (world p) = Some (Ok (c', s, w)) →
      works p (set_world w (set_own s (set_threads (l1 ++ c' :: l2) p)))
  | joined_works attempts l1 c l2 c' s w :
      joining p = l1 ++ c :: l2 →
      client_step attempts (running_ p) c (own p) (world p) = Some (Ok (c', s, w)) →
      works p (set_world w (set_own s (set_joining (l1 ++ c' :: l2) p))).

Inductive advance (p : Process) : Process → Prop :=
  | work_advances p' : works p p' → advance p p'
  | run_called : runner p = NotRunning → stopper p = NotStopping → advance p (set_runner TestRun p)
  | stop_called : stopper p = NotStopping → advance p (call_stop p)
  | kill_switched enabled : advance p (set_own (set_global_kill_switch enabled (own p)) p).

(** The life of a server object from a successful start on. *)
Inductive reachable (p0 : Process) : Process → Prop :=
  | reachable_start : reachable p0 p0
  | reachable_advance p p' : reachable p0 p → advance p p' → reachable p0 p'.

(** A thread of a client throws: the process ends. *)
Definition dies (p : Process) (e : exn) : Prop :=
  ∃ c, c ∈ client_threads_ p ++ joining p ∧
    client_step 0 (running_ p) c (own p) (world p) = Some (Throw e).
End threads.
Arguments Process : clear implicits.

(** ** The loop over the buffer *)

Section proofs.
Context (io : list byte → list byte → option nat) (elapsed : ExchangeServer.t → Z)
  (set_order : list OrderId → list OrderId).

(** [front] is a turn of process_receive_buffer. *)
Lemma process_front fuel client buffer :
  process_receive_loop io elapsed set_order (S fuel) client buffer =
  match front buffer with
  | Incomplete => ret buffer
  | Garbage => ret []
  | Message header body rest =>
      handle_message io elapsed set_order client header body ;;;
      process_receive_loop io elapsed set_order fuel client rest
  end.
Proof.
  cbn [process_receive_loop]. unfold front. destruct (_ <? _)%nat; [done|].
  destruct (Protocol.decode_header _) as [header|]; [|done]. cbn zeta.
  destruct (_ >? _); [done|]. by destruct (_ <? _)%nat.
Qed.

(** A message at the front, alone: its bytes, and what is not yet of it. *)
Lemma front_message buffer header body rest :
  front buffer = Message header body rest →
  ∃ m, buffer = m ++ rest ∧ m ≠ [] ∧ front m = Message header body [] ∧
    ∀ part pending, buffer = part ++ pending → front part = Incomplete → (length part < length m)%nat.
Proof.
  intros Hf. unfold front in Hf.
  destruct (Nat.ltb_spec (length buffer) Protocol.header_size) as [|Hlen]; [done|].
  destruct (Protocol.decode_header (take Protocol.header_size buffer)) as [h|] eqn:Hd; [|done].
  destruct (Protocol.MessageHeader.body_size h >? maximum_body_size) eqn:Hmax; [done|].
  set (n := (Protocol.header_size + Z.to_nat (Protocol.MessageHeader.body_size h))%nat) in *.
  destruct (Nat.ltb_spec (length buffer) n) as [|Hn]; [done|]. injection Hf as <- <- <-.
  assert (∀ m, m `prefix_of` buffer → (n ≤ length m)%nat →
    front m = Message h (take (Z.to_nat (Protocol.MessageHeader.body_size h)) (drop Protocol.header_size m)) (drop n m))
    as Hpre.
  { intros m [tail ->] Hm. unfold front.
    rewrite (proj2 (Nat.ltb_ge (length m) Protocol.header_size)) by lia.
    rewrite take_app_le in Hd by lia. rewrite Hd, Hmax. fold n.
    by rewrite (proj2 (Nat.ltb_ge (length m) n)) by lia. }
  assert (length (take n buffer) = n) as Hl by (rewrite length_take; lia).
  exists (take n buffer). split_and!.
  - by rewrite take_drop.
  - intros He. rewrite He in Hl. subst n. unfold Protocol.header_size in Hl. simpl in Hl. lia.
  - rewrite Hpre by (apply prefix_take || lia). rewrite (drop_ge (take n buffer) n) by lia. f_equal.
    rewrite !take_drop_commute. fold n. by rewrite take_idemp.
  - intros part pending -> Hi. rewrite Hl. destruct (Nat.lt_ge_cases (length part) n) as [|Hge]; [done|].
    rewrite Hpre in Hi; [done|by eexists|done].
Qed.

(** ** What the threads do is what events do *)

Definition evolves (y y' : System) : Prop :=
  ∃ events, run io elapsed set_order events y = (Ok tt, y').

#[local] Instance evolves_preorder : PreOrder evolves.
Proof.
  split; [by exists []|]. intros y1 y2 y3 [l1 H1] [l2 H2]. exists (l1 ++ l2).
  unfold run. rewrite for_each_app. unfold bind. unfold run in H1, H2. by rewrite H1.
Qed.

Lemma evolves_event event y y' :
  handle_event io elapsed set_order event y = (Ok tt, y') → evolves y y'.
Proof. intros H. exists [event]. unfold run. cbn [for_each]. unfold bind. by rewrite H. Qed.

(* bytes arrive for a client *)
Lemma receive_event d part trades bytes y :
  sessions y !! d = Some (Session.mk part trades) → bytes ≠ [] →
  handle_event io elapsed set_order (Receive d bytes) y =
    let '(r, (s, trades)) :=
      process_receive_loop io elapsed set_order (S (pred (length (part ++ bytes)))) d (part ++ bytes) (exchange y, trades) in
    match r with
    | Ok buffer => (Ok tt, mkSystem s (<[d := Session.mk buffer trades]> (sessions y)))
    | Throw e => (Throw e, mkSystem s (sessions y))
    end.
Proof.
  intros Hs Hne. cbn [handle_event]. unfold receive. rewrite Hs. destruct bytes as [|b bytes]; [done|].
  unfold process_receive_buffer. cbn [Session.receive_buffer Session.trade_buffer].
  replace (S (pred (length (part ++ b :: bytes)))) with (length (part ++ b :: bytes)); [done|].
  rewrite length_app. simpl. lia.
Qed.

(* the rest of a message arrives *)
Lemma message_event d part pending trades header body rest y :
  sessions y !! d = Some (Session.mk part trades) → front part = Incomplete →
  front (part ++ pending) = Message header body rest →
  ∃ bytes, handle_event io elapsed set_order (Receive d bytes) y =
    let '(r, (s, trades)) := handle_message io elapsed set_order d header body (exchange y, trades) in
    match r with
    | Ok _ => (Ok tt, mkSystem s (<[d := Session.mk [] trades]> (sessions y)))
    | Throw e => (Throw e, mkSystem s (sessions y))
    end.
Proof.
  intros Hs Hi Hf. destruct (front_message _ _ _ _ Hf) as (m & Hm & _ & Hfm & Hlt).
  specialize (Hlt part pending eq_refl Hi). exists (drop (length part) m).
  assert (part ++ drop (length part) m = m) as Hmp.
  { rewrite <- (take_drop (length part) m) at 2. f_equal.
    apply (f_equal (take (length part))) in Hm. by rewrite take_app_length, take_app_le in Hm by lia. }
  assert (drop (length part) m ≠ []) as Hne.
  { intros He. apply (f_equal length) in He. rewrite length_drop in He. cbn in He. lia. }
  rewrite (receive_event d part trades _ y Hs Hne), Hmp, process_front, Hfm. unfold bind.
  destruct (handle_message io elapsed set_order d header body (exchange y, trades)) as [[[]|e] [s1 trades']]; [|done].
  by destruct (pred (length m)).
Qed.

(** A client is connected until its thread has unregistered it. *)
Definition connected (c : ClientThread) : bool :=
  match point c with CloseConnection | Ended => false | _ => true end.

(** The session of the events has the part of the buffer that was not a message
    when it came; what came since is still to be given to it. *)
Definition session_of (c : ClientThread) (x : option Session.t) : Prop :=
  connected c = true →
  ∃ part pending, receive_buffer c = part ++ pending ∧ front part = Incomplete ∧
    (point c ≠ Messages → pending = []) ∧ x = Some (Session.mk part (trade_buffer c)).

Context {W : Type} `{!Sockets.System W}.
Implicit Types (p : Process W) (c : ClientThread).

(** What a step of a client's thread does is what no event or one event does. *)
Lemma client_step_evolves attempts running c y w c' s w' :
  session_of c (sessions y !! client_socket c) →
  client_step io elapsed set_order attempts running c (exchange y) w = Some (Ok (c', s, w')) →
  ∃ y', evolves y y' ∧ exchange y' = s ∧ client_socket c' = client_socket c ∧
    session_of c' (sessions y' !! client_socket c) ∧
    ∀ d, d ≠ client_socket c → sessions y' !! d = sessions y !! d.
Proof.
  intros Hs Hstep. unfold client_step, session_of in *. unfold connected in *.
  destruct (point c) eqn:Hp; try discriminate Hstep.
  - injection Hstep as <- <- <-. exists y. split_and!; [done|done|done| |done].
    intros _. destruct (Hs eq_refl) as (part & pending & H1 & H2 & H3 & H4).
    rewrite (H3 ltac:(done)) in *. exists part, []. by split_and!.
  - destruct (TcpServer.receive_from attempts (client_socket c) w) as [[[|b bytes]|e] w1]; [| |done].
    + injection Hstep as <- <- <-. exists y. split_and!; [done|done|done| |done].
      intros _. destruct (Hs eq_refl) as (part & pending & H1 & H2 & H3 & H4).
      rewrite (H3 ltac:(done)) in *. exists part, []. by split_and!.
    + injection Hstep as <- <- <-. exists y. split_and!; [done|done|done| |done].
      intros _. destruct (Hs eq_refl) as (part & pending & H1 & H2 & H3 & H4).
      rewrite (H3 ltac:(done)), app_nil_r in H1. exists part, (b :: bytes). cbn. split_and!; [by rewrite H1|done|done|done].
  - destruct (Hs eq_refl) as (part & pending & H1 & H2 & _ & H4).
    destruct (front (receive_buffer c)) as [| |header body rest] eqn:Hf.
    + injection Hstep as <- <- <-. destruct pending as [|b pending].
      * rewrite app_nil_r in H1. exists y. split_and!; [done|done|done| |done].
        intros _. exists part, []. cbn. rewrite app_nil_r. by split_and!.
      * pose proof (receive_event (client_socket c) part (trade_buffer c) (b :: pending) y H4 ltac:(done)) as He.
        rewrite <- H1, process_front, Hf in He. unfold ret in He. cbv beta iota in He.
        eexists. split; [eapply evolves_event; exact He|]. split_and!; [done|done| |].
        -- intros _. exists (receive_buffer c), []. cbn. rewrite app_nil_r, lookup_insert_eq. by split_and!.
        -- intros d Hd. cbn. by rewrite lookup_insert_ne.
    + injection Hstep as <- <- <-.
      assert (pending ≠ []) as Hne by (intros ->; rewrite app_nil_r in H1; congruence).
      pose proof (receive_event (client_socket c) part (trade_buffer c) pending y H4 Hne) as He.
      rewrite <- H1, process_front, Hf in He. unfold ret in He. cbv beta iota in He.
      eexists. split; [eapply evolves_event; exact He|]. split_and!; [done|done| |].
      * intros _. exists [], []. cbn. rewrite lookup_insert_eq. by split_and!.
      * intros d Hd. cbn. by rewrite lookup_insert_ne.
    + rewrite H1 in Hf. destruct (message_event _ _ _ _ _ _ _ _ H4 H2 Hf) as [bytes He].
      destruct (handle_message io elapsed set_order (client_socket c) header body (exchange y, trade_buffer c))
        as [[[]|e] [s1 trades]]; [|done]. injection Hstep as <- <- <-.
      eexists. split; [eapply evolves_event; exact He|]. split_and!; [done|done| |].
      * intros _. exists [], rest. cbn. rewrite lookup_insert_eq. by split_and!.
      * intros d Hd. cbn. by rewrite lookup_insert_ne.
  - destruct (Hs eq_refl) as (part & pending & _ & _ & _ & H4). injection Hstep as <- <- <-.
    eexists. split; [apply (evolves_event (Receive (client_socket c) []))|].
    { cbn [handle_event]. unfold receive. by rewrite H4. }
    split_and!; [done|done|done|]. intros d Hd. cbn. by rewrite lookup_delete_ne.
  - injection Hstep as <- <- <-. by exists y.
Qed.

(** A message that throws, throws as an event. *)
Lemma client_step_throws c y (w : W) e running :
  session_of c (sessions y !! client_socket c) →
  client_step io elapsed set_order 0 running c (exchange y) w = Some (Throw e) →
  ∃ event y', handle_event io elapsed set_order event y = (Throw e, y').
Proof.
  intros Hs Hstep. unfold client_step, session_of, connected in *.
  destruct (point c) eqn:Hp; try discriminate Hstep.
  { by destruct (TcpServer.receive_from _ _ _) as [[[|? ?]|?] ?]. }
  destruct (Hs eq_refl) as (part & pending & H1 & H2 & _ & H4).
  destruct (front (receive_buffer c)) as [| |header body rest] eqn:Hf; [done|done|].
  rewrite H1 in Hf. destruct (message_event _ _ _ _ _ _ _ _ H4 H2 Hf) as [bytes He].
  destruct (handle_message io elapsed set_order (client_socket c) header body (exchange y, trade_buffer c))
    as [[[]|e'] [s1 trades]]; [done|]. injection Hstep as <-. by eexists _, _.
Qed.

(** *** The sockets of the threads *)

Definition threads p : list ClientThread := client_threads_ p ++ joining p.

Definition holding c : list Z := match point c with Ended => [] | _ => [client_socket c] end.

(* accepted, and without a thread yet *)
Definition accepted p : list Z := match runner p with Register d | Emplace d => [d] | _ => [] end.

Definition held p : list Z := (threads p ≫= holding) ++ accepted p.

(** Each socket has one thread.  They are open until stop closes them, and then
    the server does not accept any more. *)
Record tidy p : Prop := {
  tidy_once : NoDup (held p);
  tidy_open d : 0 ≤ TcpServer.listen_socket_ (server_ p) → d ∈ held p → d ∈ descriptors (world p);
  tidy_closing : stopper p ≠ NotStopping → stopper p ≠ StopListening →
    TcpServer.listen_socket_ (server_ p) < 0 ∧ TcpServer.client_socket_ (server_ p) < 0;
  tidy_running : stopper p = NotStopping → running_ p = true;
  tidy_joining : runner p = Join ∨ joining p = []
}.

Context `{!SystemLaws W}.

Lemma receive_from_descriptors attempts d : keeps_descriptors (TcpServer.receive_from (W := W) attempts d).
Proof.
  unfold TcpServer.receive_from. destruct (d <? 0); [by intros w|].
  generalize (S attempts). intros fuel w. revert w. induction fuel as [|fuel IH]; intros w; [done|].
  cbn [TcpServer.receive_loop]. unfold bind, call. pose proof (recv_descriptors d TcpServer.kBufferSize w) as Hd.
  destruct (sys_recv d TcpServer.kBufferSize w) as [[answer bytes] w1]. cbn [snd] in Hd.
  destruct (_ && _); [by rewrite IH|]. by destruct (_ <=? 0).
Qed.

Lemma accept_loop_opened fuel d (w : W) a w' :
  TcpServer.accept_loop fuel d w = (Ok a, w') → opened a w w'.
Proof.
  revert w. induction fuel as [|fuel IH]; intros w; [done|]. cbn [TcpServer.accept_loop]. unfold bind, call.
  pose proof (accept_opens d w) as Ho. destruct (sys_accept d w) as [answer w1]. cbn [fst snd] in Ho.
  destruct (result answer <? 0) eqn:Hneg; cbn [andb]; [|by intros [= <- <-]].
  unfold opened in Ho. rewrite Hneg in Ho. destruct (interrupted answer); [|].
  - intros Hacc%IH. unfold opened in *. by rewrite Ho in Hacc.
  - intros [= <- <-]. unfold opened. by rewrite Hneg.
Qed.

Lemma closed_connection_descriptors d (w : W) :
  descriptors (closed_connection d w) = descriptors w ∨ descriptors (closed_connection d w) = descriptors w ∖ {[d]}.
Proof.
  unfold closed_connection, TcpServer.close_connection. destruct (d <? 0); [by left|right].
  cbn. by rewrite close_descriptors, shutdown_descriptors.
Qed.

Lemma client_step_world attempts running c s (w : W) c' s' w' :
  client_step io elapsed set_order attempts running c s w = Some (Ok (c', s', w')) →
  client_socket c' = client_socket c ∧ point c ≠ Ended ∧
  (point c' ≠ Ended ∧ descriptors w' = descriptors w ∨
   point c' = Ended ∧ w' = closed_connection (client_socket c) w).
Proof.
  unfold client_step. destruct (point c) eqn:Hp; intros Hstep; try discriminate Hstep.
  - injection Hstep as <- <- <-. destruct running; by split_and!; [..|left].
  - pose proof (receive_from_descriptors attempts (client_socket c) w) as Hd.
    destruct (TcpServer.receive_from attempts (client_socket c) w) as [[[|b bytes]|e] w1];
      [injection Hstep as <- <- <-; by split_and!; [..|left]|injection Hstep as <- <- <-; by split_and!; [..|left]|done].
  - destruct (front (receive_buffer c)) as [| |header body rest]; [injection Hstep as <- <- <-; by split_and!; [..|left]..|].
    destruct (handle_message _ _ _ _ _ _ _) as [[[]|e] [s1 trades]]; [|done].
    injection Hstep as <- <- <-; by split_and!; [..|left].
  - injection Hstep as <- <- <-; by split_and!; [..|left].
  - injection Hstep as <- <- <-. split_and!; [done|done|right]. by split.
Qed.

Lemma held_at p k1 c k2 :
  threads p = k1 ++ c :: k2 → held p ≡ₚ holding c ++ ((k1 ++ k2) ≫= holding) ++ accepted p.
Proof.
  intros Ht. unfold held. rewrite Ht, !bind_app, bind_cons, <- !(assoc_L (++)).
  apply Permutation_app_swap_app.
Qed.

(* a step of one client's thread, wherever it is *)
Record client_moves attempts k1 c k2 c' s (p p' : Process W) : Prop := {
  moves_before : threads p = k1 ++ c :: k2;
  moves_after : threads p' = k1 ++ c' :: k2;
  moves_step : client_step io elapsed set_order attempts (running_ p) c (own p) (world p) = Some (Ok (c', s, world p'));
  moves_own : own p' = s;
  moves_server : server_ p' = server_ p;
  moves_runner : runner p' = runner p;
  moves_stopper : stopper p' = stopper p;
  moves_running : running_ p' = running_ p;
  moves_joining : joining p = [] → joining p' = []
}.

Lemma client_moves_threads attempts l1 c l2 c' s (w : W) p :
  client_threads_ p = l1 ++ c :: l2 →
  client_step io elapsed set_order attempts (running_ p) c (own p) (world p) = Some (Ok (c', s, w)) →
  client_moves attempts l1 c (l2 ++ joining p) c' s p (set_world w (set_own s (set_threads (l1 ++ c' :: l2) p))).
Proof.
  intros Ht Hs. split; try done; unfold threads; cbn; [rewrite Ht|]; by rewrite <- (assoc_L (++)).
Qed.

Lemma client_moves_joined attempts l1 c l2 c' s (w : W) p :
  joining p = l1 ++ c :: l2 →
  client_step io elapsed set_order attempts (running_ p) c (own p) (world p) = Some (Ok (c', s, w)) →
  client_moves attempts (client_threads_ p ++ l1) c l2 c' s p
    (set_world w (set_own s (set_joining (l1 ++ c' :: l2) p))).
Proof.
  intros Ht Hs. split; try done; unfold threads; cbn; [rewrite Ht; by rewrite <- (assoc_L (++))|by rewrite <- (assoc_L (++))|].
  rewrite Ht. by destruct l1.
Qed.

Lemma accepted_moves p p' : runner p' = runner p → accepted p' = accepted p.
Proof. unfold accepted. by intros ->. Qed.

Lemma client_moves_tidy attempts k1 c k2 c' s p p' : client_moves attempts k1 c k2 c' s p p' → tidy p → tidy p'.
Proof.
  intros [Hb Ha Hs Ho Hsv Hr Hst Hrun Hj] [H1 H2 H3 H4 H5].
  destruct (client_step_world _ _ _ _ _ _ _ _ Hs) as (Hsock & Hne & Hw).
  pose proof (held_at p k1 c k2 Hb) as Hp. pose proof (held_at p' k1 c' k2 Ha) as Hp'.
  rewrite (accepted_moves _ _ Hr) in Hp'. set (rest := ((k1 ++ k2) ≫= holding) ++ accepted p) in *.
  assert (holding c = [client_socket c]) as Hc by (unfold holding; by destruct (point c)).
  rewrite Hc in Hp. rewrite Hp in H1. apply NoDup_cons in H1 as [Hnin Hnd].
  split; rewrite ?Hsv, ?Hst, ?Hrun, ?Hr; [| |done|done|destruct H5; [by left|right; by apply Hj]].
  - rewrite Hp'. destruct Hw as [[Hne' _]|[He _]].
    + assert (holding c' = [client_socket c]) as -> by (unfold holding; rewrite Hsock; by destruct (point c')).
      by apply NoDup_cons.
    + assert (holding c' = []) as -> by (unfold holding; by rewrite He). done.
  - intros d Hl. rewrite Hp'. specialize (H2 d Hl). rewrite Hp in H2. intros Hd.
    destruct Hw as [[Hne' Hw]|[He Hw]].
    + rewrite Hw. apply H2. revert Hd.
      by assert (holding c' = [client_socket c]) as -> by (unfold holding; rewrite Hsock; by destruct (point c')).
    + assert (holding c' = []) as Hc' by (unfold holding; by rewrite He). rewrite Hc' in Hd. cbn in Hd.
      assert (d ∈ descriptors (world p)) by (apply H2, elem_of_cons; by right).
      assert (d ≠ client_socket c) by by intros ->.
      rewrite Hw. destruct (closed_connection_descriptors (client_socket c) (world p)) as [->| ->]; [done|]. set_solver.
Qed.

(* a step that touches neither the threads of clients nor their sockets *)
Lemma tidy_same p p' :
  threads p' = threads p → accepted p' = accepted p → server_ p' = server_ p → world p' = world p →
  running_ p' = running_ p → (stopper p' = stopper p ∨ stopper p ≠ NotStopping ∧ stopper p ≠ StopListening ∧ stopper p' ≠ NotStopping) →
  (runner p' = Join ∨ joining p' = []) → tidy p → tidy p'.
Proof.
  intros Ht Ha Hs Hw Hr Hst Hj [H1 H2 H3 H4 H5]. unfold held in *.
  split; unfold held; rewrite ?Ht, ?Ha, ?Hs, ?Hw, ?Hr; [done|done| |  |done].
  - destruct Hst as [->|(? & ? & ?)]; [done|auto].
  - destruct Hst as [->|(? & ? & ?)]; [done|congruence].
Qed.

Lemma advance_tidy p p' : tidy p → advance io elapsed set_order p p' → tidy p'.
Proof.
  intros Hp Ha. destruct Ha as [pw [attempts p' Hs|p' Hs|p' Hs|attempts l1 c l2 c' s w Ht Hs|attempts l1 c l2 c' s w Ht Hs]|Hr Hn|Hn|enabled].
  - unfold run_step in Hs. destruct (runner p) as [| | |d|d| |] eqn:Hr; [done|..].
    + injection Hs as <-. pose proof Hp as [_ _ _ _ [?|Hj]]; [congruence|].
      eapply tidy_same; [..|exact Hp]; try done; [|by left|by right]. unfold accepted. rewrite Hr. cbn. by destruct (running_ p).
    + unfold accept_return, TcpServer.accept_connection, bind, TcpServer.server, TcpServer.on_system in Hs. cbn [fst snd] in Hs.
      pose proof Hp as [H1 H2 H3 H4 [?|Hj]]; [congruence|].
      destruct (Z.ltb_spec (TcpServer.listen_socket_ (server_ p)) 0) as [Hneg|Hpos].
      { injection Hs as <-. eapply tidy_same; [..|exact Hp]; try done; [|by left|by right]. unfold accepted. by rewrite Hr. }
      cbn [fst snd] in Hs.
      destruct (TcpServer.accept_loop _ _ _) as [[d|e] w1] eqn:Hacc; [|done]. injection Hs as <-.
      apply accept_loop_opened in Hacc. unfold opened in Hacc.
      assert (held p = threads p ≫= holding) as Hh by (unfold held, accepted; by rewrite Hr, app_nil_r).
      destruct (d <? 0) eqn:Hd.
      * split; cbn; unfold held, accepted, threads in *; cbn; rewrite ?app_nil_r; [by rewrite <- Hh| |done|done|by right].
        intros x Hx. rewrite <- Hh, Hacc. by apply H2.
      * destruct Hacc as [Hnew Hw1].
        split; cbn; [| |done|done|by right].
        -- unfold held, accepted, threads in *. cbn. apply NoDup_app. split_and!; [by rewrite <- Hh| |apply NoDup_singleton].
           intros x Hx ->%list_elem_of_singleton. apply Hnew. apply H2; [lia|]. by rewrite Hh.
        -- intros x _. unfold held, accepted, threads in *. cbn. rewrite Hw1, <- Hh.
           intros [Hx|Hx%list_elem_of_singleton]%elem_of_app; [|set_solver]. pose proof (H2 x ltac:(lia) Hx). set_solver.
    + injection Hs as <-. pose proof Hp as [_ _ _ _ [?|Hj]]; [congruence|].
      eapply tidy_same; [..|exact Hp]; try done; [|by left|by right]. unfold accepted. by rewrite Hr.
    + injection Hs as <-. pose proof Hp as [H1 H2 H3 H4 [?|Hj]]; [congruence|].
      assert (held (set_runner TestRun (set_threads (client_threads_ p ++ [new_client d]) p)) = held p) as Hh.
      { unfold held, threads, accepted. cbn. rewrite Hr, Hj, !app_nil_r, bind_app. done. }
      split; rewrite ?Hh; [done|exact H2|done|done|by right].
    + injection Hs as <-. pose proof Hp as [_ _ _ _ [?|Hj]]; [congruence|].
      eapply tidy_same; [..|exact Hp]; try done; [| |by left|by left].
      * unfold threads. cbn. by rewrite Hj, app_nil_r.
      * unfold accepted. by rewrite Hr.
    + destruct (joining p) as [|c l] eqn:Hj.
      * injection Hs as <-. eapply tidy_same; [..|exact Hp]; try done; [|by left|by right]. unfold accepted. by rewrite Hr.
      * destruct (point c) eqn:Hc; try done. injection Hs as <-. destruct Hp as [H1 H2 H3 H4 H5].
        assert (held (set_joining l p) = held p) as Hh.
        { unfold held, threads, accepted. cbn. rewrite Hj, !bind_app, bind_cons. unfold holding at 4. by rewrite Hc. }
        split; rewrite ?Hh; [done|exact H2|done|done|by left].
  - unfold stop_step in Hs. destruct (stopper p) as [| | |[|d l]| | |] eqn:Hst; try done.
    + rewrite TcpServer.stop_eq in Hs. injection Hs as <-. destruct Hp as [H1 H2 H3 H4 H5].
      assert (∀ d, vacated d < 0) as Hv by (intros d; unfold vacated; destruct (Z.leb_spec 0 d); lia).
      pose proof (Hv (TcpServer.listen_socket_ (server_ p))).
      split; cbn; [done|lia|by split|done|done].
    + injection Hs as <-. eapply tidy_same; [..|exact Hp]; try done; [right; by rewrite Hst|apply Hp].
    + injection Hs as <-. eapply tidy_same; [..|exact Hp]; try done; [right; by rewrite Hst|apply Hp].
    + injection Hs as <-. destruct Hp as [H1 H2 H3 H4 H5]. rewrite Hst in H3.
      specialize (H3 ltac:(done) ltac:(done)). split; cbn; [done|lia|done|done|done].
    + destruct (performance_thread_ p); try done; injection Hs as <-;
        (eapply tidy_same; [..|exact Hp]; try done; [right; by rewrite Hst|apply Hp]).
    + injection Hs as <-. eapply tidy_same; [..|exact Hp]; try done; [right; by rewrite Hst|apply Hp].
  - assert (∃ x, p' = set_performance x p) as [x ->].
    { unfold performance_step in Hs. destruct (performance_thread_ p); try done; injection Hs as <-; by eexists. }
    eapply tidy_same; [..|exact Hp]; try done; [by left|apply Hp].
  - eapply client_moves_tidy; [by eapply client_moves_threads|done].
  - eapply client_moves_tidy; [by eapply client_moves_joined|done].
  - pose proof Hp as [_ _ _ _ [?|Hj]]; [congruence|].
    eapply tidy_same; [..|exact Hp]; try done; [|by left|by right]. unfold accepted. by rewrite Hr.
  - destruct Hp as [H1 H2 H3 H4 H5]. unfold call_stop. rewrite (H4 Hn). split; cbn; [done|done|done|done|done].
  - eapply tidy_same; [..|exact Hp]; try done; [by left|apply Hp].
Qed.

(** *** The simulation *)

Record simulates p (y : System) : Prop := {
  sim_exchange : exchange y = own p;
  sim_threads c : c ∈ threads p → session_of c (sessions y !! client_socket c);
  sim_emplace d : runner p = Emplace d → sessions y !! d = Some Session.new
}.

Lemma connected_holding c : connected c = true → holding c = [client_socket c].
Proof. unfold connected, holding. by destruct (point c). Qed.

Lemma client_moves_simulates attempts k1 c k2 c' s p p' y :
  client_moves attempts k1 c k2 c' s p p' → tidy p → simulates p y →
  ∃ y', evolves y y' ∧ simulates p' y'.
Proof.
  intros [Hb Ha Hs Ho Hsv Hr Hst Hrun Hj] Ht [S1 S2 S3].
  destruct (client_step_world _ _ _ _ _ _ _ _ Hs) as (_ & Hne & _).
  rewrite <- S1 in Hs.
  destruct (client_step_evolves _ _ _ _ _ _ _ _ (S2 c ltac:(rewrite Hb; set_solver)) Hs)
    as (y' & Hy & He & Hsock & Hc' & Hother).
  pose proof (tidy_once _ Ht) as Hnd. rewrite (held_at p k1 c k2 Hb) in Hnd.
  assert (holding c = [client_socket c]) as Hc by (unfold holding; by destruct (point c)).
  rewrite Hc in Hnd. apply NoDup_cons in Hnd as [Hnin _].
  exists y'. split; [done|]. split; [congruence| |].
  - intros c2. rewrite Ha. intros [Hc2|[->|Hc2]%elem_of_cons]%elem_of_app; [| by rewrite Hsock |].
    1,2: intros Hconn; rewrite Hother; [apply S2; [rewrite Hb; set_solver|done]|];
      intros Heq; apply Hnin, elem_of_app; left; apply list_elem_of_bind; exists c2;
      (split; [rewrite connected_holding, Heq by done; by left|set_solver]).
  - intros d Hd. rewrite Hr in Hd. rewrite Hother; [by apply S3|].
    intros ->. apply Hnin, elem_of_app. right. unfold accepted. rewrite Hd. by left.
Qed.

(* a step that does not touch the exchange *)
Lemma simulates_same p p' y :
  own p' = own p → (∀ c, c ∈ threads p' → c ∈ threads p) → (∀ d, runner p' = Emplace d → runner p = Emplace d) →
  simulates p y → ∃ y', evolves y y' ∧ simulates p' y'.
Proof.
  intros Ho Ht Hr [S1 S2 S3]. exists y. split; [done|]. split; [congruence|auto|auto].
Qed.

Lemma advance_simulates p p' y :
  tidy p → simulates p y → advance io elapsed set_order p p' → stopper p' ≠ Stopped →
  ∃ y', evolves y y' ∧ simulates p' y'.
Proof.
  intros Hp Hy Ha Hns. destruct Ha as [pw [attempts p' Hs|p' Hs|p' Hs|attempts l1 c l2 c' s w Ht Hs|attempts l1 c l2 c' s w Ht Hs]|Hr Hn|Hn|enabled].
  - unfold run_step in Hs. destruct (runner p) as [| | |d|d| |] eqn:Hr; [done|..].
    + injection Hs as <-. eapply simulates_same; [..|exact Hy]; try done. cbn. by destruct (running_ p).
    + unfold accept_return in Hs. destruct (TcpServer.accept_connection _ _) as [[d|e] [server w1]]; [|done].
      injection Hs as <-. eapply simulates_same; [..|exact Hy]; try done. cbn. by destruct (d <? 0).
    + injection Hs as <-. destruct Hy as [S1 S2 S3].
      exists (mkSystem (register_client d (exchange y)) (<[d := Session.new]> (sessions y))).
      split; [by apply (evolves_event (Connect d))|]. split; cbn.
      * by rewrite S1.
      * intros c Hc Hconn. rewrite lookup_insert_ne; [by apply S2|].
        intros ->. pose proof (tidy_once _ Hp) as Hnd. unfold held, accepted in Hnd. rewrite Hr in Hnd.
        apply NoDup_app in Hnd as (_ & Hnd & _). apply (Hnd (client_socket c)); [|by left].
        apply list_elem_of_bind. exists c. split; [|done]. rewrite connected_holding by done. by left.
      * intros d' [= ->]. by rewrite lookup_insert_eq.
    + injection Hs as <-. destruct Hy as [S1 S2 S3]. exists y. split; [done|]. split; cbn; [done| |done].
      unfold threads. cbn. intros c. rewrite !elem_of_app, list_elem_of_singleton.
      intros [[Hc| ->]|Hc]; [apply S2, elem_of_app; by left| |apply S2, elem_of_app; by right].
      intros _. exists [], []. split_and!; [done|done|done|]. cbn. by rewrite (S3 d Hr).
    + injection Hs as <-. eapply simulates_same; [..|exact Hy]; try done.
      unfold threads. cbn. intros c Hc. apply elem_of_app. by left.
    + destruct (joining p) as [|c l] eqn:Hj; [|destruct (point c); try done]; injection Hs as <-;
        (eapply simulates_same; [..|exact Hy]; try done).
      unfold threads. cbn. rewrite Hj. set_solver.
  - assert (own p' = own p ∧ threads p' = threads p ∧ runner p' = runner p) as (H1 & H2 & H3).
    { unfold stop_step in Hs. destruct (stopper p) as [| | |[|d l]| | |]; try done.
      - rewrite TcpServer.stop_eq in Hs. by injection Hs as <-.
      - by injection Hs as <-.
      - by injection Hs as <-.
      - by injection Hs as <-.
      - destruct (performance_thread_ p); try done; by injection Hs as <-.
      - by injection Hs as <-. }
    eapply simulates_same; [exact H1|by rewrite H2|by rewrite H3|done].
  - assert (∃ x, p' = set_performance x p) as [x ->].
    { unfold performance_step in Hs. destruct (performance_thread_ p); try done; injection Hs as <-; by eexists. }
    eapply simulates_same; [..|exact Hy]; done.
  - eapply client_moves_simulates; [by eapply client_moves_threads|done|done].
  - eapply client_moves_simulates; [by eapply client_moves_joined|done|done].
  - eapply simulates_same; [..|exact Hy]; done.
  - eapply simulates_same; [..|exact Hy]; done.
  - destruct Hy as [S1 S2 S3]. exists (mkSystem (set_global_kill_switch enabled (exchange y)) (sessions y)).
    split; [by apply (evolves_event (KillSwitch enabled))|]. split; cbn; [by rewrite S1|done|done].
Qed.

Lemma advance_stopped p p' : advance io elapsed set_order p p' → stopper p = Stopped → stopper p' = Stopped.
Proof.
  intros Ha Hs. destruct Ha as [pw [attempts p' Hr|p' Hr|p' Hr| | ]|Hr Hn|Hn|enabled]; try done.
  - unfold run_step in Hr. destruct (runner p) as [| | |d|d| |]; try done; try (by injection Hr as <-).
    + unfold accept_return in Hr. destruct (TcpServer.accept_connection _ _) as [[d|e] [server w1]]; [|done].
      by injection Hr as <-.
    + destruct (joining p) as [|c l]; [by injection Hr as <-|]. destruct (point c); try done; by injection Hr as <-.
  - unfold stop_step in Hr. by rewrite Hs in Hr.
  - unfold performance_step in Hr. destruct (performance_thread_ p); try done; by injection Hr as <-.
  - congruence.
Qed.

Lemma reachable_simulated p0 p y0 :
  tidy p0 → simulates p0 y0 → reachable io elapsed set_order p0 p →
  tidy p ∧ (stopper p ≠ Stopped → ∃ y, evolves y0 y ∧ simulates p y).
Proof.
  intros Ht Hs. induction 1 as [|p p' _ [IH1 IH2] Ha]; [split; [done|]; intros _; by exists y0|].
  split; [by eapply advance_tidy|]. intros Hns.
  destruct IH2 as (y & He & Hy); [intros Hst; by eapply Hns, advance_stopped|].
  destruct (advance_simulates _ _ _ IH1 Hy Ha Hns) as (y' & He' & Hy'). exists y'. split; [by etrans|done].
Qed.

(** *** Who is connected *)

Lemma handle_message_clients client header body s trades :
  client_sockets_ (handle_message io elapsed set_order client header body (s, trades)).2.1 = client_sockets_ s.
Proof.
  assert (preserves (on_first ServerMessages.numbers) (handle_message io elapsed set_order client header body)) as Hk.
  { unfold handle_message. repeat case_match;
      [apply ServerMessages.numbers_new_order|apply ServerMessages.numbers_cancel_order
      |apply ServerMessages.numbers_replace_order
      |intros st; apply (@PreOrder_Reflexive _ _ ServerMessages.numbers_preorder)]. }
  apply (Hk (s, trades)).
Qed.

(* what stop has still to close, once it has read who is connected *)
Definition remaining p : option (list Z) :=
  match stopper p with
  | CloseClients l => Some l
  | JoinPerformance | ResetPublishers | Stopped => Some []
  | _ => None
  end.

(** Whoever has a thread is registered until the thread has unregistered him;
    so stop closes the socket of every thread that is in receive_from. *)
Record announced p : Prop := {
  announced_threads c : c ∈ threads p → connected c = true → client_socket c ∈ client_sockets_ (own p);
  announced_emplace d : runner p = Emplace d → d ∈ client_sockets_ (own p);
  announced_positive d : d ∈ held p → 0 ≤ d;
  announced_stopping : stopper p ≠ NotStopping → running_ p = false;
  announced_closing l c : remaining p = Some l → c ∈ threads p → point c = ReceiveFrom →
    client_socket c ∈ l ∨ (client_socket c ∉ descriptors (world p))
}.

Lemma erase_first_other x y l : y ≠ x → y ∈ l → y ∈ erase_first x l.
Proof.
  intros Hne. induction l as [|z l IH]; [done|]. cbn. intros [->|Hin]%elem_of_cons.
  - destruct (Z.eqb_spec x z); [congruence|by left].
  - destruct (Z.eqb_spec x z); [done|right; auto].
Qed.

Lemma client_step_clients attempts running c s (w : W) c' s' w' :
  client_step io elapsed set_order attempts running c s w = Some (Ok (c', s', w')) →
  (point c' = ReceiveFrom → running = true) ∧
  (connected c' = true → connected c = true ∧ client_sockets_ s' = client_sockets_ s) ∧
  ∀ d, d ≠ client_socket c → d ∈ client_sockets_ s → d ∈ client_sockets_ s'.
Proof.
  unfold client_step, connected. destruct (point c) eqn:Hp; intros Hstep; try discriminate Hstep.
  - injection Hstep as <- <- <-. by destruct running.
  - destruct (TcpServer.receive_from attempts (client_socket c) w) as [[[|b bytes]|e] w1]; [| |done];
      by injection Hstep as <- <- <-.
  - destruct (front (receive_buffer c)) as [| |header body rest]; [by injection Hstep as <- <- <-..|].
    pose proof (handle_message_clients (client_socket c) header body s (trade_buffer c)) as Hc.
    destruct (handle_message _ _ _ _ _ _ _) as [[[]|e] [s1 trades]]; [|done].
    injection Hstep as <- <- <-. cbn in Hc. by rewrite Hc.
  - injection Hstep as <- <- <-. split_and!; [done|done|]. intros d Hd Hin. by apply erase_first_other.
  - by injection Hstep as <- <- <-.
Qed.

Lemma held_threads p c : c ∈ threads p → point c ≠ Ended → client_socket c ∈ held p.
Proof.
  intros Hc Hne. apply elem_of_app. left. apply list_elem_of_bind. exists c. split; [|done].
  unfold holding. destruct (point c); try done; by left.
Qed.

Lemma client_moves_announced attempts k1 c k2 c' s p p' :
  client_moves attempts k1 c k2 c' s p p' → tidy p → announced p → announced p'.
Proof.
  intros [Hb Ha Hs Ho Hsv Hr Hst Hrun Hj] Ht [A1 A2 A3 A4 A5].
  destruct (client_step_world _ _ _ _ _ _ _ _ Hs) as (Hsock & Hne & Hw).
  destruct (client_step_clients _ _ _ _ _ _ _ _ Hs) as (Hrecv & Hconn & Hothers).
  pose proof (held_at p k1 c k2 Hb) as Hp. pose proof (held_at p' k1 c' k2 Ha) as Hp'.
  rewrite (accepted_moves _ _ Hr) in Hp'.
  assert (holding c = [client_socket c]) as Hc by (unfold holding; by destruct (point c)).
  assert (∀ d, d ∈ holding c' → d = client_socket c) as Hc'.
  { intros d. unfold holding. rewrite Hsock. destruct (point c'); set_solver. }
  assert (∀ x, x ∈ k1 ++ k2 → connected x = true → client_socket x ≠ client_socket c) as Hapart.
  { intros x Hx Hxc Heq. pose proof (tidy_once _ Ht) as Hnd. rewrite Hp, Hc in Hnd.
    apply NoDup_cons in Hnd as [Hnin _]. apply Hnin, elem_of_app. left. apply list_elem_of_bind. exists x.
    split; [rewrite connected_holding, Heq by done; by left|done]. }
  assert (∀ x, x ∈ threads p' → x = c' ∨ x ∈ k1 ++ k2 ∧ x ∈ threads p) as Hin.
  { intros x. rewrite Ha, Hb, !elem_of_app, !elem_of_cons. tauto. }
  split.
  - intros x Hx Hxc. rewrite Ho. destruct (Hin x Hx) as [->|[Hx' Hxp]].
    + destruct (Hconn Hxc) as [Hcc ->]. rewrite Hsock. apply A1; [rewrite Hb; set_solver|done].
    + apply Hothers; [by apply Hapart|by apply A1].
  - intros d Hd. rewrite Hr in Hd. rewrite Ho. apply Hothers; [|by apply A2].
    intros ->. pose proof (tidy_once _ Ht) as Hnd. rewrite Hp, Hc in Hnd.
    apply NoDup_cons in Hnd as [Hnin _]. apply Hnin, elem_of_app. right. unfold accepted. rewrite Hd. by left.
  - intros d. rewrite Hp'. intros [Hd|Hd]%elem_of_app; apply A3; rewrite Hp; [|by apply elem_of_app; right].
    rewrite (Hc' d Hd), Hc. by left.
  - by rewrite Hst, Hrun.
  - intros l x Hl Hx Hxp. assert (remaining p = Some l) as Hl' by (unfold remaining in *; by rewrite <- Hst).
    assert (stopper p ≠ NotStopping) as Hns by (unfold remaining in Hl'; by destruct (stopper p)).
    destruct (Hin x Hx) as [->|[_ Hxt]].
    + rewrite (A4 Hns) in Hrecv. by specialize (Hrecv Hxp).
    + destruct (A5 l x Hl' Hxt Hxp) as [?|Hnd]; [by left|right].
      destruct Hw as [[_ ->]|[_ ->]]; [set_solver|].
      destruct (closed_connection_descriptors (client_socket c) (world p)) as [->| ->]; set_solver.
Qed.

(* a step of one of the other threads, that lets the exchange, or closes something *)
Lemma announced_same p p' :
  (∀ c, c ∈ threads p' → c ∈ threads p) → (∀ d, d ∈ held p' → d ∈ held p) →
  (∀ d, runner p' = Emplace d → runner p = Emplace d) →
  client_sockets_ (own p') = client_sockets_ (own p) → running_ p' = running_ p →
  (stopper p' ≠ NotStopping → stopper p ≠ NotStopping) →
  (∀ d, d ∈ descriptors (world p') → d ∈ descriptors (world p)) →
  (∀ l, remaining p' = Some l → remaining p = Some l) → announced p → announced p'.
Proof.
  intros Ht Hh Hr Hc Hrun Hs Hw Hrem [A1 A2 A3 A4 A5].
  split; rewrite ?Hc, ?Hrun; [by auto|by auto|by auto|by auto|].
  intros l c Hl Hin Hp. destruct (A5 l c (Hrem l Hl) (Ht c Hin) Hp) as [?|?]; [by left|right; auto].
Qed.

Lemma closed_connection_closes d (w : W) :
  0 ≤ d → descriptors (closed_connection d w) = descriptors w ∖ {[d]}.
Proof.
  intros Hd. unfold closed_connection, TcpServer.close_connection. destruct (Z.ltb_spec d 0); [lia|].
  cbn. by rewrite close_descriptors, shutdown_descriptors.
Qed.

Lemma closed_at_shrinks d (w : W) x : x ∈ descriptors (closed_at d w) → x ∈ descriptors w.
Proof.
  unfold closed_at. destruct (0 <=? d); [|done]. rewrite close_descriptors, shutdown_descriptors. set_solver.
Qed.

Lemma run_step_announced attempts p p' : run_step attempts p = Some p' → tidy p → announced p → announced p'.
Proof.
  intros Hs Hp HA. unfold run_step in Hs. destruct (runner p) as [| | |d|d| |] eqn:Hr; [done|..].
  - injection Hs as <-. eapply announced_same; [..|exact HA]; try done; cbn.
    + unfold held, accepted. rewrite Hr. cbn. destruct (running_ p); set_solver.
    + by destruct (running_ p).
  - unfold accept_return, TcpServer.accept_connection, bind, TcpServer.server, TcpServer.on_system in Hs. cbn [fst snd] in Hs.
    destruct (Z.ltb_spec (TcpServer.listen_socket_ (server_ p)) 0) as [Hneg|Hpos].
    { injection Hs as <-. eapply announced_same; [..|exact HA]; try done. unfold held, accepted. rewrite Hr. cbn. set_solver. }
    cbn [fst snd] in Hs.
    destruct (TcpServer.accept_loop _ _ _) as [[d|e] w1] eqn:Hacc; [|done]. injection Hs as <-.
    assert (remaining p = None) as Hrem.
    { pose proof (tidy_closing _ Hp) as Hc. unfold remaining. destruct (stopper p); try done; specialize (Hc ltac:(done) ltac:(done)); lia. }
    destruct HA as [A1 A2 A3 A4 A5]. split; cbn; [done| | |done|].
    + by destruct (d <? 0).
    + intros x. unfold held, accepted in *. rewrite Hr in A3. cbn. rewrite app_nil_r in A3.
      intros [Hx|Hx]%elem_of_app; [by apply A3|]. destruct (Z.ltb_spec d 0); set_solver.
    + intros l c Hl. exfalso. unfold remaining in *. cbn in Hl. congruence.
  - injection Hs as <-. destruct HA as [A1 A2 A3 A4 A5]. split; cbn.
    + intros c Hc Hcc. apply elem_of_app. left. by apply A1.
    + intros d' [= ->]. apply elem_of_app. right. by left.
    + intros x. unfold held, accepted in *. rewrite Hr in A3. apply A3.
    + done.
    + intros l c Hl. apply A5. exact Hl.
  - injection Hs as <-. destruct HA as [A1 A2 A3 A4 A5].
    assert (∀ c, c ∈ threads (set_runner TestRun (set_threads (client_threads_ p ++ [new_client d]) p)) →
      c ∈ threads p ∨ c = new_client d) as Hin by (intros c; unfold threads; cbn; set_solver).
    split; cbn; [| | |done|].
    + intros c [Hc| ->]%Hin; [by apply A1|]. intros _. by apply A2.
    + done.
    + intros x. unfold held. intros [Hx|Hx]%elem_of_app; [|by apply elem_of_nil in Hx].
      apply list_elem_of_bind in Hx as (c & Hx & Hc). apply A3, elem_of_app.
      destruct (Hin c Hc) as [Hc'| ->]; [left; apply list_elem_of_bind; by exists c|right].
      unfold accepted. rewrite Hr. by cbn in Hx.
    + intros l c Hl Hc Hpt. destruct (Hin c Hc) as [Hc'| ->]; [|done]. by apply (A5 l c).
  - injection Hs as <-.
    assert (∀ c, c ∈ threads (set_runner Join (set_joining (client_threads_ p) (set_threads [] p))) → c ∈ threads p)
      as Hin by (intros c; unfold threads; cbn; set_solver).
    eapply announced_same; [exact Hin|..|exact HA]; try done.
    intros d [Hd|Hd]%elem_of_app; [|by apply elem_of_nil in Hd]. apply elem_of_app. left.
    apply list_elem_of_bind in Hd as (c & Hd & Hc). apply list_elem_of_bind. exists c. auto.
  - destruct (joining p) as [|c l] eqn:Hj.
    + injection Hs as <-. eapply announced_same; [..|exact HA]; try done.
      intros d. unfold held, accepted. rewrite Hr. cbn. done.
    + destruct (point c); try done. injection Hs as <-.
      assert (∀ x, x ∈ threads (set_joining l p) → x ∈ threads p) as Hin by (intros x; unfold threads; cbn; rewrite Hj; set_solver).
      eapply announced_same; [exact Hin|..|exact HA]; try done.
      intros d [Hd|Hd]%elem_of_app; apply elem_of_app; [left|by right].
      apply list_elem_of_bind in Hd as (x & Hd & Hx). apply list_elem_of_bind. exists x. auto.
Qed.

Lemma stop_step_announced p p' : stop_step p = Some p' → tidy p → announced p → announced p'.
Proof.
  intros Hs Hp HA. unfold stop_step in Hs. destruct (stopper p) as [| | |[|d l]| | |] eqn:Hst; try done.
  - rewrite TcpServer.stop_eq in Hs. injection Hs as <-. eapply announced_same; [..|exact HA]; try done; cbn.
    + by rewrite Hst.
    + by intros x ?%closed_at_shrinks%closed_at_shrinks.
  - injection Hs as <-. destruct HA as [A1 A2 A3 A4 A5]. split; cbn; [done|done|done| |].
    + intros _. apply A4. by rewrite Hst.
    + intros l c [= <-] Hc Hpt. left. apply A1; [done|]. unfold connected. by rewrite Hpt.
  - injection Hs as <-. eapply announced_same; [..|exact HA]; try done; [by rewrite Hst|].
    unfold remaining. cbn. by rewrite Hst.
  - injection Hs as <-. destruct HA as [A1 A2 A3 A4 A5]. split; cbn; [done|done|done| |].
    + intros _. apply A4. by rewrite Hst.
    + intros l' c [= <-] Hc Hpt.
      destruct (A5 (d :: l) c ltac:(unfold remaining; by rewrite Hst) Hc Hpt) as [[Heq|?]%elem_of_cons|Hnd]; [|by left|].
      * right. rewrite Heq, closed_connection_closes; [set_solver|].
        rewrite <- Heq. apply A3, held_threads; [done|by rewrite Hpt].
      * right. destruct (closed_connection_descriptors d (world p)) as [->| ->]; set_solver.
  - destruct (performance_thread_ p); try done; injection Hs as <-;
      (eapply announced_same; [..|exact HA]; try done; [by rewrite Hst|unfold remaining; cbn; by rewrite Hst]).
  - injection Hs as <-. eapply announced_same; [..|exact HA]; try done; [by rewrite Hst|unfold remaining; cbn; by rewrite Hst].
Qed.

Lemma advance_announced p p' : tidy p → announced p → advance io elapsed set_order p p' → announced p'.
Proof.
  intros Hp HA Ha. destruct Ha as [pw [attempts p' Hs|p' Hs|p' Hs|attempts l1 c l2 c' s w Ht Hs|attempts l1 c l2 c' s w Ht Hs]|Hr Hn|Hn|enabled].
  - by eapply run_step_announced.
  - by eapply stop_step_announced.
  - assert (∃ x, p' = set_performance x p) as [x ->].
    { unfold performance_step in Hs. destruct (performance_thread_ p); try done; injection Hs as <-; by eexists. }
    eapply announced_same; [..|exact HA]; done.
  - eapply client_moves_announced; [by eapply client_moves_threads|done|done].
  - eapply client_moves_announced; [by eapply client_moves_joined|done|done].
  - eapply announced_same; [..|exact HA]; try done. unfold held, accepted. rewrite Hr. cbn. done.
  - destruct HA as [A1 A2 A3 A4 A5]. unfold call_stop. rewrite (tidy_running _ Hp Hn). by split.
  - eapply announced_same; [..|exact HA]; done.
Qed.

(** *** Stopping ends *)

Definition rank c : nat :=
  match point c with
  | Ended => 0
  | CloseConnection => 1
  | Unregister => 2
  | TestLoop => 3
  | Messages => length (receive_buffer c) + 4
  | ReceiveFrom => length (receive_buffer c) + Z.to_nat TcpServer.kBufferSize + 5
  end.

Definition run_rank p : nat :=
  match runner p with
  | NotRunning => 0
  | Join => 1 + length (threads p)
  | SwapThreads => 2 + length (threads p)
  | TestRun => 3 + length (threads p)
  | Emplace _ => 8 + length (threads p)
  | Register _ => 10 + length (threads p)
  | AcceptConnection => 11 + length (threads p)
  end.

Definition stop_rank p : nat :=
  match stopper p with
  | NotStopping => 6 + length (client_sockets_ (own p))
  | StopListening => 5 + length (client_sockets_ (own p))
  | Snapshot => 4 + length (client_sockets_ (own p))
  | CloseClients l => 3 + length l
  | JoinPerformance => 2
  | ResetPublishers => 1
  | Stopped => 0
  end.

Definition performance_rank p : nat :=
  match performance_thread_ p with
  | NoThread | PerformanceEnded => 0
  | TestPerformance | TestAgain => 1
  | Waiting | PerformanceTurn => 2
  end.

Fixpoint ranks (l : list ClientThread) : nat :=
  match l with [] => 0 | c :: l => rank c + ranks l end.

Lemma ranks_app l1 l2 : ranks (l1 ++ l2) = (ranks l1 + ranks l2)%nat.
Proof. induction l1 as [|c l1 IH]; [done|]. cbn [app ranks]. rewrite IH. lia. Qed.

(** How many steps are left once stop has been called. *)
Definition left_to_do p : nat := ranks (threads p) + run_rank p + stop_rank p + performance_rank p.

Lemma erase_first_length x l : (length (erase_first x l) ≤ length l)%nat.
Proof. induction l as [|y l IH]; [done|]. cbn. destruct (x =? y); cbn; lia. Qed.

Lemma receive_from_length attempts d (w : W) bytes w' :
  TcpServer.receive_from attempts d w = (Ok bytes, w') → (length bytes ≤ Z.to_nat TcpServer.kBufferSize)%nat.
Proof.
  unfold TcpServer.receive_from. destruct (d <? 0); [intros [= <- _]; cbn [length]; lia|].
  generalize (S attempts). intros fuel. revert w. induction fuel as [|fuel IH]; intros w; [done|].
  cbn [TcpServer.receive_loop]. unfold bind, call. pose proof (recv_gives d TcpServer.kBufferSize w) as Hg.
  destruct (sys_recv d TcpServer.kBufferSize w) as [[answer got] w1]. destruct (Hg ltac:(done)) as (Hn & Hle & _).
  destruct (_ && _); [apply IH|]. destruct (_ <=? 0); intros [= <- _]; [cbn [length]; lia|lia].
Qed.

Lemma client_step_rank attempts c s (w : W) c' s' w' :
  client_step io elapsed set_order attempts false c s w = Some (Ok (c', s', w')) →
  (rank c' < rank c)%nat ∧ (length (client_sockets_ s') ≤ length (client_sockets_ s))%nat.
Proof.
  unfold client_step, rank. destruct (point c) eqn:Hp; intros Hstep; try discriminate Hstep.
  - injection Hstep as <- <- <-. cbn. lia.
  - pose proof (receive_from_length attempts (client_socket c) w) as Hl.
    destruct (TcpServer.receive_from attempts (client_socket c) w) as [[[|b bytes]|e] w1]; [| |done];
      injection Hstep as <- <- <-; cbn [point at_point receive_buffer]; [split; lia|].
    specialize (Hl _ _ eq_refl). rewrite length_app. split; lia.
  - destruct (front (receive_buffer c)) as [| |header body rest] eqn:Hf;
      [injection Hstep as <- <- <-; cbn; lia..|].
    pose proof (handle_message_clients (client_socket c) header body s (trade_buffer c)) as Hc.
    destruct (handle_message _ _ _ _ _ _ _) as [[[]|e] [s1 trades]]; [|done].
    injection Hstep as <- <- <-. cbn in Hc. cbn [point receive_buffer]. rewrite Hc.
    destruct (front_message _ _ _ _ Hf) as (m & -> & Hne & _). rewrite length_app.
    destruct m; [done|]. cbn [length]. split; lia.
  - injection Hstep as <- <- <-. cbn [point at_point]. split; [lia|]. apply erase_first_length.
  - injection Hstep as <- <- <-. cbn. lia.
Qed.

Lemma client_moves_rank attempts k1 c k2 c' s p p' :
  client_moves attempts k1 c k2 c' s p p' → running_ p = false → performance_thread_ p' = performance_thread_ p →
  (left_to_do p' < left_to_do p)%nat.
Proof.
  intros [Hb Ha Hs Ho Hsv Hr Hst Hrun Hj] Hf Hperf. rewrite Hf in Hs.
  destruct (client_step_rank _ _ _ _ _ _ _ Hs) as [Hrank Hclients]. rewrite <- Ho in Hclients.
  unfold left_to_do, run_rank, stop_rank, performance_rank. rewrite Hr, Hst, Hperf, Ha, Hb.
  rewrite !ranks_app, !length_app. cbn [ranks length].
  destruct (runner p), (stopper p); lia.
Qed.

Lemma run_step_rank attempts p p' :
  run_step attempts p = Some p' → tidy p → running_ p = false → (left_to_do p' < left_to_do p)%nat.
Proof.
  intros Hs Hp Hf. pose proof (tidy_joining _ Hp) as Hj.
  unfold run_step in Hs. unfold left_to_do, stop_rank, performance_rank, run_rank, threads.
  destruct (runner p) as [| | |d|d| |] eqn:Hr; [done|..].
  - rewrite Hf in Hs. injection Hs as <-. cbn. lia.
  - unfold accept_return in Hs. destruct (TcpServer.accept_connection _ _) as [[d|e] [server w1]]; [|done].
    injection Hs as <-. cbn. destruct (d <? 0); lia.
  - injection Hs as <-. cbn. rewrite !length_app. cbn. destruct (stopper p); lia.
  - injection Hs as <-. destruct Hj as [?|Hj]; [congruence|]. cbn. rewrite Hj, !app_nil_r, length_app.
    rewrite ranks_app. cbn.
    destruct (stopper p); lia.
  - injection Hs as <-. destruct Hj as [?|Hj]; [congruence|]. cbn. rewrite Hj, !app_nil_r. lia.
  - destruct (joining p) as [|c l] eqn:Hjo.
    + injection Hs as <-. cbn. rewrite Hjo. lia.
    + destruct (point c) eqn:Hc; try done. injection Hs as <-. cbn.
      rewrite Hr, !ranks_app, !length_app. cbn [ranks length].
      destruct (stopper p); lia.
Qed.

Lemma stop_step_rank p p' : stop_step p = Some p' → (left_to_do p' < left_to_do p)%nat.
Proof.
  intros Hs. unfold stop_step in Hs. unfold left_to_do, run_rank, stop_rank, performance_rank, threads.
  destruct (stopper p) as [| | |[|d l]| | |]; try done.
  - rewrite TcpServer.stop_eq in Hs. injection Hs as <-. cbn. lia.
  - injection Hs as <-. cbn. lia.
  - injection Hs as <-. cbn. lia.
  - injection Hs as <-. cbn. lia.
  - destruct (performance_thread_ p); try done; injection Hs as <-; cbn; lia.
  - injection Hs as <-. cbn. lia.
Qed.

Lemma performance_step_rank p p' :
  performance_step p = Some p' → running_ p = false → (left_to_do p' < left_to_do p)%nat.
Proof.
  intros Hs Hf. unfold performance_step in Hs. unfold left_to_do, run_rank, stop_rank, performance_rank, threads.
  destruct (performance_thread_ p); try done; rewrite ?Hf in Hs; injection Hs as <-; cbn; lia.
Qed.

(** The kill switch apart, every step after the call of stop is one of finitely
    many. *)
Lemma works_rank p p' :
  tidy p → announced p → stopper p ≠ NotStopping → works io elapsed set_order p p' →
  (left_to_do p' < left_to_do p)%nat.
Proof.
  intros Hp HA Hns Ha. pose proof (announced_stopping _ HA Hns) as Hf.
  destruct Ha as [attempts p' Hs|p' Hs|p' Hs|attempts l1 c l2 c' s w Ht Hs|attempts l1 c l2 c' s w Ht Hs].
  - by eapply run_step_rank.
  - by apply stop_step_rank.
  - by apply performance_step_rank.
  - by eapply client_moves_rank; [eapply client_moves_threads| |].
  - by eapply client_moves_rank; [eapply client_moves_joined| |].
Qed.

Definition finished p : Prop :=
  stopper p = Stopped ∧ runner p = NotRunning ∧ (∀ c, c ∈ threads p → point c = Ended) ∧
  (performance_thread_ p = NoThread ∨ performance_thread_ p = PerformanceEnded).

Context `{!Patient W}.

Lemma receive_from_returns d (w : W) :
  ∃ bytes w', TcpServer.receive_from (interruptions w) d w = (Ok bytes, w').
Proof. destruct (TcpServer.receive_from_same (interruptions w) d w) as (bytes & w' & Hr & _); [done|by exists bytes, w']. Qed.

Lemma client_step_goes c s (w : W) running :
  point c ≠ Ended →
  (∃ attempts c' s' w', client_step io elapsed set_order attempts running c s w = Some (Ok (c', s', w'))) ∨
  ∃ e, client_step io elapsed set_order 0 running c s w = Some (Throw e).
Proof.
  intros Hne. unfold client_step. destruct (point c); try done.
  - left. by eexists 0%nat, _, _, _.
  - left. destruct (receive_from_returns (client_socket c) w) as (bytes & w' & Hr).
    exists (interruptions w). rewrite Hr. destruct bytes; by eexists _, _, _.
  - destruct (front (receive_buffer c)); [left; by eexists 0%nat, _, _, _..|].
    destruct (handle_message _ _ _ _ _ _ _) as [[[]|e] [s1 trades]]; [left; by eexists 0%nat, _, _, _|right; by exists e].
  - left. by eexists 0%nat, _, _, _.
  - left. by eexists 0%nat, _, _, _.
Qed.

Lemma accept_goes p : runner p = AcceptConnection → ∃ p', works io elapsed set_order p p'.
Proof.
  intros Hr.
  assert (∃ p', run_step (interruptions (world p)) p = Some p') as [p' Hs]; [|exists p'; by eapply run_works].
  unfold run_step. rewrite Hr. unfold accept_return, TcpServer.accept_connection, bind, TcpServer.server, TcpServer.on_system.
  cbn [fst snd]. destruct (_ <? 0); [by eexists|]. cbn [fst snd].
  destruct (TcpServer.accept_loop_spec (S (interruptions (world p))) (TcpServer.listen_socket_ (server_ p)) (world p))
    as (d & w' & -> & _); [lia|by eexists].
Qed.

(** Somebody can go on, until everybody has ended; or the process dies. *)
Lemma goes_on p :
  stopper p ≠ NotStopping →
  (∃ p', works io elapsed set_order p p') ∨ (∃ e, dies io elapsed set_order p e) ∨ finished p.
Proof.
  intros Hns.
  assert ((∃ c, c ∈ threads p ∧ point c ≠ Ended) ∨ ∀ c, c ∈ threads p → point c = Ended) as [(c & Hc & Hne)|Hended].
  { destruct (Exists_dec (λ c, point c ≠ Ended) (threads p)) as [He|He].
    - left. apply Exists_exists in He as (c & Hc & Hne). by exists c.
    - right. intros c Hc. destruct (decide (point c = Ended)) as [|Hne]; [done|].
      exfalso. apply He, Exists_exists. by exists c. }
  { destruct (client_step_goes c (own p) (world p) (running_ p) Hne) as [(attempts & c' & s' & w' & Hs)|[e He]].
    - left. apply elem_of_app in Hc as [Hc|Hc]; apply list_elem_of_split in Hc as (l1 & l2 & Hl);
        eexists; [by eapply client_works|by eapply joined_works].
    - right. left. exists e, c. by split. }
  assert (performance_thread_ p = NoThread ∨ performance_thread_ p = PerformanceEnded ∨
    ∃ p', performance_step p = Some p') as [Hperf|[Hperf|[p' Hs]]].
  { unfold performance_step. destruct (performance_thread_ p); auto; right; right; by eexists. }
  3: { left. exists p'. by apply performance_works. }
  all: assert (stopper p = Stopped ∨ ∃ p', stop_step p = Some p') as [Hst|[p' Hs]]
    by (unfold stop_step; rewrite ?Hperf; destruct (stopper p) as [| | |[|d l]| | |]; try done; auto; try (right; by eexists);
        rewrite TcpServer.stop_eq; right; by eexists).
  2,4: left; exists p'; by apply stop_works.
  all: assert (runner p = NotRunning ∨ runner p = AcceptConnection ∨ ∃ p', run_step 0 p = Some p') as [Hr|[Hr|[p' Hs]]]
    by (unfold run_step; destruct (runner p); auto; try (right; right; by eexists);
        destruct (joining p) as [|c l] eqn:Hj; [right; right; by eexists|];
        rewrite (Hended c) by (unfold threads; rewrite Hj; set_solver); right; right; by eexists).
  2,5: left; by apply accept_goes.
  2,4: left; exists p'; by eapply run_works.
  all: right; right; split_and!; auto.
Qed.

(** *** Nothing leaks *)

Definition accounted (base : gset Z) p : Prop :=
  ∀ d, d ∈ descriptors (world p) → d ∈ base ∨ d ∈ TcpServer.held (server_ p) ∨ d ∈ held p.

Lemma process_accounted_same base p p' :
  (∀ d, d ∈ descriptors (world p') → d ∈ descriptors (world p)) → server_ p' = server_ p →
  (∀ d, d ∈ held p → d ∈ held p') → accounted base p → accounted base p'.
Proof. intros Hw Hs Hh Hb d Hd. rewrite Hs. destruct (Hb d (Hw d Hd)) as [?|[?|?]]; auto. Qed.

Lemma client_moves_accounted base attempts k1 c k2 c' s p p' :
  client_moves attempts k1 c k2 c' s p p' → announced p → accounted base p → accounted base p'.
Proof.
  intros [Hb Ha Hs Ho Hsv Hr Hst Hrun Hj] HA Hbase d Hd. rewrite Hsv.
  destruct (client_step_world _ _ _ _ _ _ _ _ Hs) as (Hsock & Hne & Hw).
  pose proof (held_at p k1 c k2 Hb) as Hp. pose proof (held_at p' k1 c' k2 Ha) as Hp'.
  rewrite (accepted_moves _ _ Hr) in Hp'.
  assert (holding c = [client_socket c]) as Hc by (unfold holding; by destruct (point c)).
  destruct Hw as [[Hne' Hw]|[He Hw]].
  - rewrite Hw in Hd. destruct (Hbase d Hd) as [?|[?|Hh]]; [auto..|]. right. right.
    rewrite Hp, Hc in Hh. rewrite Hp'.
    by assert (holding c' = [client_socket c]) as -> by (unfold holding; rewrite Hsock; by destruct (point c')).
  - assert (0 ≤ client_socket c) as Hpos.
    { apply (announced_positive _ HA). rewrite Hp, Hc. by left. }
    rewrite Hw, closed_connection_closes in Hd by done.
    destruct (Hbase d ltac:(set_solver)) as [?|[?|Hh]]; [auto..|]. right. right.
    rewrite Hp, Hc in Hh. rewrite Hp'. apply elem_of_app. right. set_solver.
Qed.

Lemma closed_at_closes d (w : W) x : x ∈ descriptors (closed_at d w) → x ∉ field d.
Proof.
  unfold closed_at, field. destruct (Z.leb_spec 0 d), (Z.ltb_spec d 0); try lia; [|set_solver].
  rewrite close_descriptors. set_solver.
Qed.

Lemma run_step_accounted base attempts p p' :
  run_step attempts p = Some p' → tidy p → accounted base p → accounted base p'.
Proof.
  intros Hs Hp Hb. pose proof (tidy_joining _ Hp) as Hjoin.
  unfold run_step in Hs. destruct (runner p) as [| | |d|d| |] eqn:Hr; [done|..].
  - injection Hs as <-. eapply process_accounted_same; [..|exact Hb]; try done.
    unfold held, accepted. rewrite Hr. cbn. destruct (running_ p); set_solver.
  - unfold accept_return, TcpServer.accept_connection, bind, TcpServer.server, TcpServer.on_system in Hs. cbn [fst snd] in Hs.
    destruct (Z.ltb_spec (TcpServer.listen_socket_ (server_ p)) 0) as [Hneg|Hpos].
    { injection Hs as <-. eapply process_accounted_same; [..|exact Hb]; try done. unfold held, accepted. rewrite Hr. cbn. set_solver. }
    cbn [fst snd] in Hs.
    destruct (TcpServer.accept_loop _ _ _) as [[d|e] w1] eqn:Hacc; [|done]. injection Hs as <-.
    apply accept_loop_opened in Hacc. unfold opened in Hacc.
    assert (∀ x, x ∈ held p → x ∈ threads p ≫= holding) as Hh by (intros x; unfold held, accepted; rewrite Hr, app_nil_r; done).
    intros x Hx. cbn in Hx |- *. unfold held, accepted. cbn.
    destruct (d <? 0); [rewrite Hacc in Hx|destruct Hacc as [_ Hacc]; rewrite Hacc in Hx; apply elem_of_union in Hx as [Hx|Hx]].
    + destruct (Hb x Hx) as [?|[?|Hx']]; [auto..|]. right. right. apply elem_of_app. left. by apply Hh.
    + right. right. apply elem_of_app. right. set_solver.
    + destruct (Hb x Hx) as [?|[?|Hx']]; [auto..|]. right. right. apply elem_of_app. left. by apply Hh.
  - injection Hs as <-. eapply process_accounted_same; [..|exact Hb]; try done. unfold held, accepted. by rewrite Hr.
  - injection Hs as <-. destruct Hjoin as [?|Hj]; [congruence|]. eapply process_accounted_same; [..|exact Hb]; try done.
    unfold held, accepted, threads. rewrite Hr. cbn. rewrite Hj, !app_nil_r, bind_app. done.
  - injection Hs as <-. destruct Hjoin as [?|Hj]; [congruence|]. eapply process_accounted_same; [..|exact Hb]; try done.
    unfold held, accepted, threads. rewrite Hr. cbn. by rewrite Hj, !app_nil_r.
  - destruct (joining p) as [|c l] eqn:Hj.
    + injection Hs as <-. eapply process_accounted_same; [..|exact Hb]; try done.
      unfold held, accepted. rewrite Hr. done.
    + destruct (point c) eqn:Hc; try done. injection Hs as <-. eapply process_accounted_same; [..|exact Hb]; try done.
      unfold held, accepted, threads. rewrite Hr. cbn. rewrite Hj, !bind_app, bind_cons.
      unfold holding at 2. by rewrite Hc, Hr.
Qed.

Lemma advance_accounted base p p' :
  tidy p → announced p → accounted base p → advance io elapsed set_order p p' → accounted base p'.
Proof.
  intros Hp HA Hb Ha. destruct Ha as [pw [attempts p' Hs|p' Hs|p' Hs|attempts l1 c l2 c' s w Ht Hs|attempts l1 c l2 c' s w Ht Hs]|Hr Hn|Hn|enabled].
  - by eapply run_step_accounted.
  - unfold stop_step in Hs. destruct (stopper p) as [| | |[|d l]| | |]; try done.
    + rewrite TcpServer.stop_eq in Hs. injection Hs as <-. intros x Hx. cbn in Hx |- *.
      pose proof (closed_at_closes _ _ _ Hx) as Hl. apply closed_at_shrinks in Hx.
      pose proof (closed_at_closes _ _ _ Hx) as Hc. apply closed_at_shrinks in Hx.
      destruct (Hb x Hx) as [?|[[?|?]%elem_of_app|?]]; [by left|done|done|by right; right].
    + by injection Hs as <-.
    + by injection Hs as <-.
    + injection Hs as <-. eapply process_accounted_same; [..|exact Hb]; try done. cbn. intros x.
      destruct (closed_connection_descriptors d (world p)) as [->| ->]; set_solver.
    + destruct (performance_thread_ p); try done; by injection Hs as <-.
    + by injection Hs as <-.
  - unfold performance_step in Hs. destruct (performance_thread_ p); try done; by injection Hs as <-.
  - by eapply client_moves_accounted; [eapply client_moves_threads|..].
  - by eapply client_moves_accounted; [eapply client_moves_joined|..].
  - eapply process_accounted_same; [..|exact Hb]; try done. unfold held, accepted. by rewrite Hr.
  - exact Hb.
  - exact Hb.
Qed.

(** ** From a successful start on *)

Definition launched (base : gset Z) p : Prop :=
  tidy p ∧ announced p ∧ accounted base p ∧ stopper p = NotStopping ∧ threads p = [] ∧ runner p = NotRunning.

Lemma start_deaf path multicast_starts s : (ExchangeServer.start path multicast_starts false s).1 = false.
Proof.
  unfold ExchangeServer.start.
  destruct (if Lifecycle.recovery_completed_ (lifecycle_ s) then _ else _) as [[] s1]; [|done]. cbn [negb].
  destruct (match path with NoJournal => _ | _ => _ end) as [[] s2]; [|done]. cbn [negb].
  by destruct (_ && _).
Qed.

Lemma start_launched path multicast_starts telemetry port limits multicast (w : W) p :
  start path multicast_starts telemetry (constructed port limits multicast w) = (Ok true, p) →
  launched (descriptors w) p ∧
  ExchangeServer.start path multicast_starts true (ExchangeServer.new limits multicast) = (true, own p).
Proof.
  unfold start. cbn [own server_ world constructed].
  destruct (ExchangeServer.start path multicast_starts true _) as [ready s0] eqn:Hready. cbn [fst snd].
  destruct ready; [|done].
  destruct (TcpServer.start_returns (TcpServer.new port) w (descriptors w) []) as (listens & server & w' & -> & Ho).
  { split; [cbn; set_solver|constructor|]. intros d Hd. cbn in Hd. by apply elem_of_nil in Hd. }
  destruct (ExchangeServer.start path multicast_starts listens _) as [started s1] eqn:Hstart.
  destruct started; [|done].
  assert (listens = true) as ->.
  { destruct listens; [done|]. pose proof (start_deaf path multicast_starts (ExchangeServer.new limits multicast)) as Hd.
    by rewrite Hstart in Hd. }
  rewrite Hready in Hstart. injection Hstart as ->. intros [= <-]. split; [|done].
  assert (∀ d : Z, d ∉ []) as Hnil by (intros d; apply not_elem_of_nil).
  split_and!; [..|done|done|done].
  - split; cbn; [constructor|by intros d _ ?%Hnil|done|done|by right].
  - split; cbn; [by intros c ?%elem_of_nil|done|by intros d ?%Hnil|done|done].
  - intros d Hd. cbn in Hd. rewrite (owned_all _ _ _ Ho), app_nil_r in Hd.
    apply elem_of_union in Hd as [?|Hd%elem_of_list_to_set]; [by left|right; by left].
Qed.

Lemma reachable_launched base p0 p :
  launched base p0 → reachable io elapsed set_order p0 p → tidy p ∧ announced p ∧ accounted base p.
Proof.
  intros (H1 & H2 & H3 & _). induction 1 as [|p p' _ (IH1 & IH2 & IH3) Ha]; [done|].
  split_and!; [by eapply advance_tidy|by eapply advance_announced|by eapply advance_accounted].
Qed.

Lemma launched_simulates base p : launched base p → simulates p (mkSystem (own p) ∅).
Proof.
  intros (_ & _ & _ & _ & Ht & Hr). split; [done| |congruence]. intros c. rewrite Ht. by intros ?%elem_of_nil.
Qed.

Lemma finished_held p : tidy p → finished p → TcpServer.held (server_ p) = [] ∧ held p = [].
Proof.
  intros Ht (Hst & Hr & He & _). destruct (tidy_closing _ Ht) as [Hl Hc]; [by rewrite Hst..|]. split.
  - unfold TcpServer.held. by rewrite !field_none.
  - unfold held, accepted. rewrite Hr, app_nil_r.
    induction (threads p) as [|c l IH]; [done|]. rewrite bind_cons. unfold holding at 1.
    rewrite (He c) by by left. apply IH. intros c' Hc'. apply He. by right.
Qed.

Section launched.
Context (path : JournalPath) (multicast_starts telemetry : bool) (port : Z) (limits : RiskEngine.RiskLimits.t)
  (multicast : bool) (w : W) (p0 : Process W).
Context (Hstart : start path multicast_starts telemetry (constructed port limits multicast w) = (Ok true, p0)).

(** C39. The threads of the exchange do what its events do.  Whatever run, stop,
    the threads of the clients and the telemetry thread do, message by message in
    any interleaving, and whatever the system answers: until stop has reset the publisher, the
    exchange is in a state that a sequence of events leads to from the state of
    the start, with a session for every connected client; and when a message
    throws, so does an event.  So what is proved of the events holds of the
    threads. *)
Theorem threads_refine_events p :
  reachable io elapsed set_order p0 p → stopper p ≠ Stopped →
  ExchangeServer.start path multicast_starts true (ExchangeServer.new limits multicast) = (true, own p0) ∧
  ∃ events y, run io elapsed set_order events (mkSystem (own p0) ∅) = (Ok tt, y) ∧ exchange y = own p ∧
    (∀ c, c ∈ threads p → connected c = true → is_Some (sessions y !! client_socket c)) ∧
    ∀ e, dies io elapsed set_order p e → ∃ event y', handle_event io elapsed set_order event y = (Throw e, y').
Proof.
  intros Hreach Hns. destruct (start_launched _ _ _ _ _ _ _ _ Hstart) as [Hl Hs]. split; [done|].
  destruct (reachable_simulated p0 p _ (proj1 Hl) (launched_simulates _ _ Hl) Hreach) as [_ Hsim].
  destruct (Hsim Hns) as (y & [events He] & [S1 S2 S3]). exists events, y. split_and!; [done|done| |].
  - intros c Hc Hcc. destruct (S2 c Hc Hcc) as (part & pending & _ & _ & _ & ->). by eexists.
  - intros e (c & Hc & Hd). rewrite <- S1 in Hd. by eapply client_step_throws, Hd; apply S2.
Qed.

(** C40. The exchange stops.  Once stop is called, in every reachable state: each
    step of the program is one of finitely many; somebody can take one, until
    every thread has ended and run and stop have returned, unless an exception
    ends the process; from when stop has closed the connections on, no thread is
    in receive_from on an open socket; and in the end no descriptor of the server
    is open that was not open before the start (the two publishers close their
    own, in Multicast.v and Telemetry.v). *)
Theorem exchange_stops p :
  reachable io elapsed set_order p0 p → stopper p ≠ NotStopping →
  (∀ p', works io elapsed set_order p p' → (left_to_do p' < left_to_do p)%nat) ∧
  ((∃ p', works io elapsed set_order p p') ∨ (∃ e, dies io elapsed set_order p e) ∨ finished p) ∧
  (remaining p = Some [] → ∀ c, c ∈ threads p → point c = ReceiveFrom → client_socket c ∉ descriptors (world p)) ∧
  (finished p → descriptors (world p) ⊆ descriptors w).
Proof.
  intros Hreach Hns. destruct (start_launched _ _ _ _ _ _ _ _ Hstart) as [Hl _].
  destruct (reachable_launched _ _ _ Hl Hreach) as (Ht & HA & Hb). split_and!.
  - intros p' Hw. by apply works_rank.
  - by apply goes_on.
  - intros Hrem c Hc Hp. destruct (announced_closing _ HA [] c Hrem Hc Hp) as [Hin|]; [|done]. by apply elem_of_nil in Hin.
  - intros Hf d Hd. destruct (finished_held _ Ht Hf) as [H1 H2].
    destruct (Hb d Hd) as [?|[Hin|Hin]]; [done|rewrite H1 in Hin|rewrite H2 in Hin]; by apply elem_of_nil in Hin.
Qed.

(** In particular: on a new journal the threads run a journaled server. *)
Lemma threads_journaled p :
  path = Missing ∨ path = File [] → reachable io elapsed set_order p0 p → stopper p ≠ Stopped →
  ∃ y, ServerRecovery.journaled y ∧ exchange y = own p.
Proof.
  intros Hp Hreach Hns. destruct (start_launched _ _ _ _ _ _ _ _ Hstart) as [Hl Hs].
  destruct (reachable_simulated p0 p _ (proj1 Hl) (launched_simulates _ _ Hl) Hreach) as [_ Hsim].
  destruct (Hsim Hns) as (y & [events He] & [S1 _ _]). exists y. split; [|done].
  pose proof (ServerRecovery.journaled_first _ _ _ _ _ _ Hp Hs) as Hj.
  revert Hj He. generalize (mkSystem (own p0) ∅). clear. induction events as [|event events IH]; intros y0 Hj He.
  - by injection He as <-.
  - unfold run in He. cbn [for_each] in He. unfold bind in He.
    destruct (handle_event io elapsed set_order event y0) as [[[]|e] y1] eqn:Hev; [|done].
    eapply IH; [|exact He]. by eapply ServerRecovery.journaled_event.
Qed.
End launched.
End proofs.

(** ** A concrete process *)

Inductive Actor : Type :=
  | Runner | Stopper | Telemetry
  | Client (n : nat)                 (* of client_threads_ *)
  | Joined (n : nat)                 (* of the vector run joins *)
  | CallRun | CallStop.

Module Demo.
Abbreviation proc := (Process Script).
Definition io := ServerDemo.good_disk.
Definition elapsed := ServerDemo.no_time.
Definition set_order := ServerDemo.set_order.

Definition act (a : Actor) (p : proc) : option proc :=
  match a with
  | Runner => run_step 0 p
  | Stopper => stop_step p
  | Telemetry => performance_step p
  | Client n =>
      match drop n (client_threads_ p) with
      | [] => None
      | c :: l2 =>
          match client_step io elapsed set_order 0 (running_ p) c (own p) (world p) with
          | Some (Ok (c', s, w)) =>
              Some (set_world w (set_own s (set_threads (take n (client_threads_ p) ++ c' :: l2) p)))
          | _ => None
          end
      end
  | Joined n =>
      match drop n (joining p) with
      | [] => None
      | c :: l2 =>
          match client_step io elapsed set_order 0 (running_ p) c (own p) (world p) with
          | Some (Ok (c', s, w)) =>
              Some (set_world w (set_own s (set_joining (take n (joining p) ++ c' :: l2) p)))
          | _ => None
          end
      end
  | CallRun =>
      match runner p, stopper p with NotRunning, NotStopping => Some (set_runner TestRun p) | _, _ => None end
  | CallStop => match stopper p with NotStopping => Some (call_stop p) | _ => None end
  end.

Lemma act_advances a p p' : act a p = Some p' → advance io elapsed set_order p p'.
Proof.
  destruct a as [| | |n|n| |]; cbn [act]; intros Ha.
  - apply work_advances. by eapply run_works.
  - apply work_advances. by apply stop_works.
  - apply work_advances. by apply performance_works.
  - destruct (drop n (client_threads_ p)) as [|c l2] eqn:Hd; [done|].
    destruct (client_step _ _ _ _ _ _ _ _) as [[[[c' s] w]|]|] eqn:Hs; try done. injection Ha as <-.
    apply work_advances. eapply client_works; [|exact Hs]. by rewrite <- Hd, take_drop.
  - destruct (drop n (joining p)) as [|c l2] eqn:Hd; [done|].
    destruct (client_step _ _ _ _ _ _ _ _) as [[[[c' s] w]|]|] eqn:Hs; try done. injection Ha as <-.
    apply work_advances. eapply joined_works; [|exact Hs]. by rewrite <- Hd, take_drop.
  - destruct (runner p) eqn:Hr; try done. destruct (stopper p) eqn:Hs; try done. injection Ha as <-. by apply run_called.
  - destruct (stopper p) eqn:Hs; try done. injection Ha as <-. by apply stop_called.
Qed.

Definition drive (l : list Actor) (p : proc) : proc := foldl (λ p a, default p (act a p)) p l.

Lemma drive_reachable p0 l p : reachable io elapsed set_order p0 p → reachable io elapsed set_order p0 (drive l p).
Proof.
  revert p. induction l as [|a l IH]; intros p Hp; [done|]. cbn. apply IH.
  destruct (act a p) as [p'|] eqn:Ha; [|done]. cbn. eapply reachable_advance; [done|]. by eapply act_advances.
Qed.

(* the sockets of the server, then one client, who bids in two pieces *)
Definition bid : list byte := ServerDemo.new_order 1 Protocol.Side_Buy 100 10.
Definition quiet : Script :=
  mk_script ∅ [Gives 0; Gives 0; Gives 0; Gives 0; Gives 0; Delivers (take 20 bid); Delivers (drop 20 bid ++ take 5 bid)] [].

Definition launch : res bool * proc :=
  start Missing true true (constructed 9000 RiskEngine.RiskLimits.default true quiet).
Definition started : proc := launch.2.

Lemma launch_ok : launch = (Ok true, started).
Proof. assert (launch.1 = Ok true) as H by (vm_compute; reflexivity). unfold started. by destruct launch as [r p]; cbn in *; rewrite H. Qed.

(* run accepts the client, whose thread receives and handles the bid *)
Definition serving : list Actor :=
  [CallRun; Runner; Runner; Runner; Runner; Client 0; Client 0; Client 0; Client 0; Client 0; Client 0].
Definition served : proc := drive serving started.

Lemma served_reachable : reachable io elapsed set_order started served.
Proof. apply drive_reachable. constructor. Qed.

(* stop, the threads, and run, to their ends *)
Definition stopping : list Actor :=
  [CallStop; Stopper; Stopper; Stopper; Stopper; Client 0; Client 0; Client 0; Client 0; Client 0; Runner; Runner; Runner;
   Runner; Runner; Telemetry; Telemetry; Telemetry; Stopper; Stopper].
Definition ended : proc := drive stopping served.

Lemma ended_reachable : reachable io elapsed set_order started ended.
Proof. apply drive_reachable, served_reachable. Qed.
End Demo.

Lemma threads_refine_events_witness :
  size (instruments_ (own Demo.served)) = 1%nat ∧
  ∃ events y, run Demo.io Demo.elapsed Demo.set_order events (mkSystem (own Demo.started) ∅) = (Ok tt, y) ∧
    exchange y = own Demo.served.
Proof.
  split; [vm_compute; reflexivity|].
  assert (stopper Demo.served ≠ Stopped) as Hns by (vm_compute; discriminate).
  destruct (threads_refine_events Demo.io Demo.elapsed Demo.set_order _ _ _ _ _ _ _ _ Demo.launch_ok
    Demo.served Demo.served_reachable Hns) as (_ & events & y & He & Hy & _).
  exists events, y. split; assumption.
Defined.

Lemma exchange_stops_witness :
  stopper Demo.ended = Stopped ∧ runner Demo.ended = NotRunning ∧ descriptors (world Demo.ended) ⊆ descriptors Demo.quiet.
Proof.
  assert (stopper Demo.ended = Stopped) as Hs by (vm_compute; reflexivity).
  assert (runner Demo.ended = NotRunning) as Hr by (vm_compute; reflexivity).
  split; [exact Hs|]. split; [exact Hr|].
  assert (stopper Demo.ended ≠ NotStopping) as Hns by (rewrite Hs; discriminate).
  apply (exchange_stops Demo.io Demo.elapsed Demo.set_order _ _ _ _ _ _ _ _ Demo.launch_ok
    Demo.ended Demo.ended_reachable Hns).
  assert (threads Demo.ended = []) as Ht by (vm_compute; reflexivity).
  assert (performance_thread_ Demo.ended = NoThread) as Hp by (vm_compute; reflexivity).
  refine (conj Hs (conj Hr (conj _ (or_introl Hp)))). intros c Hc. rewrite Ht in Hc.
  destruct (proj1 (elem_of_nil c) Hc).
Defined.

(** The publisher is reset under a client's thread: stop has returned from all it
    waits for, and a message is still to be handled. *)
Lemma stop_overtakes :
  let p := Demo.drive [CallRun; Runner; Runner; Runner; Runner; Client 0; Client 0; Client 0; Client 0; Client 0;
    CallStop; Stopper; Stopper; Stopper; Stopper; Telemetry; Stopper; Stopper] Demo.started in
  reachable Demo.io Demo.elapsed Demo.set_order Demo.started p ∧ stopper p = Stopped ∧
  ∃ c header body rest, client_threads_ p = [c] ∧ point c = Messages ∧
    front (receive_buffer c) = Message header body rest.
Proof.
  intros p. split; [apply Demo.drive_reachable; constructor|]. split; [vm_compute; reflexivity|].
  assert (match client_threads_ p with
          | [c] => match point c, front (receive_buffer c) with Messages, Message _ _ _ => true | _, _ => false end
          | _ => false
          end = true) as H by (vm_compute; reflexivity).
  destruct (client_threads_ p) as [|c [|]]; try done. destruct (point c) eqn:Hp; try done.
  destruct (front (receive_buffer c)) as [| |header body rest] eqn:Hf; try done. by exists c, header, body, rest.
Qed.
End ServerThreads.
