(* ===== verification/MarketDataListener.v ===== *)
(** * The market data listener (tools/exchange_market_data_listener.cpp)

    A program that joins the multicast group and prints every datagram.  Here:
    its arguments, the sockets it opens, what it prints for a datagram, and
    that it understands every message the server multicasts.  The system is a
    parameter ([Sockets]); recvfrom without an address is recv. *)
From Stdlib Require Import Strings.String.
From S2P Require Import Prelude Bytes Numerals Protocol Messages ExchangeServer ServerDemo ServerFeed Sockets.

(** ** std::stoul in base ten *)

Definition is_space (c : byte) : bool :=
  let n := Z_of_byte c in (n =? 32) || ((9 <=? n) && (n <=? 13)).

Fixpoint skip_spaces (text : list byte) : list byte :=
  match text with
  | c :: text' => if is_space c then skip_spaces text' else text
  | [] => []
  end.

(* a minus sign negates the value in the unsigned type *)
Definition stoul (text : list byte) : res Z :=
  let text := skip_spaces text in
  let negative := bool_decide (head text = Some x2d) in
  let signed := negative || bool_decide (head text = Some x2b) in
  match leading_digits (if signed then tail text else text) with
  | [] => Throw (InvalidArgument "stoul")
  | ds =>
      let value := decimal_value ds in
      if 2 ^ 64 - 1 <? value then Throw (OutOfRange "stoul")
      else Ok (if negative then u64 (- value) else value)
  end.

Module MarketDataListener.

Definition maximum_datagram_size : Z := 65507.

Definition newline : list byte := [x0a].
Definition text (s : string) : list byte := bytes_of s.
Definition symbol_text (symbol : Protocol.Symbol) : list byte :=
  bytes_of (Protocol.symbol_to_string symbol).

(** ** What is printed *)

Definition numbered_line (header : Protocol.MessageHeader.t) (rest : list byte) : list byte :=
  text "SEQ " ++ to_string (Protocol.MessageHeader.sequence_number header) ++ text " " ++ rest ++ newline.

Definition bid_text (update : Protocol.BookUpdate.t) : list byte :=
  if negb (Protocol.BookUpdate.has_bid update =? 0)
  then text "bid=" ++ to_string (Protocol.BookUpdate.best_bid update) ++
       text " x " ++ to_string (Protocol.BookUpdate.bid_quantity update) ++ text " "
  else text "bid=none ".
Definition ask_text (update : Protocol.BookUpdate.t) : list byte :=
  if negb (Protocol.BookUpdate.has_ask update =? 0)
  then text "ask=" ++ to_string (Protocol.BookUpdate.best_ask update) ++
       text " x " ++ to_string (Protocol.BookUpdate.ask_quantity update)
  else text "ask=none".

Definition book_text (update : Protocol.BookUpdate.t) : list byte :=
  symbol_text (Protocol.BookUpdate.symbol update) ++ text " BOOK " ++ bid_text update ++ ask_text update.

Definition add_text (event : Protocol.Level3AddOrder.t) : list byte :=
  symbol_text (Protocol.Level3AddOrder.symbol event) ++
  text " L3 ADD id=" ++ to_string (Protocol.Level3AddOrder.order_id event) ++ text " " ++
  (if Protocol.Level3AddOrder.side event =? Protocol.Side_Buy then text "BUY " else text "SELL ") ++
  to_string (Protocol.Level3AddOrder.price event) ++
  text " x " ++ to_string (Protocol.Level3AddOrder.quantity event).

Definition executed_text (event : Protocol.Level3OrderExecuted.t) : list byte :=
  symbol_text (Protocol.Level3OrderExecuted.symbol event) ++
  text " L3 EXEC buy=" ++ to_string (Protocol.Level3OrderExecuted.buy_order_id event) ++
  text " sell=" ++ to_string (Protocol.Level3OrderExecuted.sell_order_id event) ++
  text " price=" ++ to_string (Protocol.Level3OrderExecuted.price event) ++
  text " quantity=" ++ to_string (Protocol.Level3OrderExecuted.quantity event).

Definition deleted_text (event : Protocol.Level3OrderDeleted.t) : list byte :=
  symbol_text (Protocol.Level3OrderDeleted.symbol event) ++
  text " L3 DELETE id=" ++ to_string (Protocol.Level3OrderDeleted.order_id event).

Definition print_message (header : Protocol.MessageHeader.t) (body : list byte) : list byte :=
  let type := Protocol.MessageHeader.type header in
  if type =? Protocol.MessageType.BookUpdate
  then match Protocol.decode_book_update body with
       | None => text "Invalid BookUpdate" ++ newline
       | Some update => numbered_line header (book_text update)
       end
  else if type =? Protocol.MessageType.Level3AddOrder
  then match Protocol.decode_level3_add_order body with
       | None => text "Invalid Level3AddOrder" ++ newline
       | Some event => numbered_line header (add_text event)
       end
  else if type =? Protocol.MessageType.Level3OrderExecuted
  then match Protocol.decode_level3_order_executed body with
       | None => text "Invalid Level3OrderExecuted" ++ newline
       | Some event => numbered_line header (executed_text event)
       end
  else if type =? Protocol.MessageType.Level3OrderDeleted
  then match Protocol.decode_level3_order_deleted body with
       | None => text "Invalid Level3OrderDeleted" ++ newline
       | Some event => numbered_line header (deleted_text event)
       end
  else numbered_line header (text "message type=" ++ to_string type).

(* the rest of the loop, once a datagram has been received *)
Definition datagram_text (datagram : list byte) : list byte :=
  if (length datagram <? Protocol.header_size)%nat then text "Truncated datagram" ++ newline
  else
    match Protocol.decode_header (take Protocol.header_size datagram) with
    | None => text "Invalid protocol header" ++ newline
    | Some header =>
        if negb (Z.of_nat (length datagram) =?
                 Z.of_nat Protocol.header_size + Protocol.MessageHeader.body_size header)
        then text "Invalid datagram size" ++ newline
        else print_message header (drop Protocol.header_size datagram)
    end.

(** ** The program *)

Section main.
Context {W : Type} `{!System W}.

Definition Tool : Type := list byte * W.   (* what was printed, and the system *)
Definition on_system {A} (m : M W A) : M Tool A :=
  λ st, let '(r, w) := m st.2 in (r, (st.1, w)).
Definition print (line : list byte) : M Tool unit := modify (λ st, (st.1 ++ line, st.2)).

(* one turn of the loop for each of [turns], until the socket fails *)
Fixpoint listen (turns : nat) (socket_fd : Z) : M Tool unit :=
  match turns with
  | O => throw OutOfFuel
  | S turns =>
      received <- on_system (call (sys_recv socket_fd maximum_datagram_size)) ;;
      if result received.1 <=? 0 then ret tt
      else print (datagram_text received.2) ;;; listen turns socket_fd
  end.

(* the arguments that follow the program's name; a result is the exit code *)
Definition arguments (args : list (list byte)) : res (Z + (list byte * Z)) :=
  let group := match args with group :: _ => group | [] => text "239.255.0.1" end in
  match args with
  | _ :: port :: rest =>
      let* parsed := stoul port in
      if 65535 <? parsed then Ok (inl 1)
      else match rest with [] => Ok (inr (group, u16 parsed)) | _ => Ok (inl 1) end
  | _ => Ok (inr (group, 9100))
  end.

Definition failed (socket_fd : Z) : M Tool Z := on_system (call_ (sys_close socket_fd)) ;;; ret 1.

Definition main (turns : nat) (args : list (list byte)) : M Tool Z :=
  parsed <- lift (arguments args) ;;
  match parsed with
  | inl status => ret status
  | inr (group, port) =>
      socket_fd <- on_system (call (sys_socket Datagrams)) ;;
      if socket_fd <? 0 then ret 1
      else
        reused <- on_system (call (sys_setsockopt socket_fd ReuseAddress)) ;;
        if negb (reused =? 0) then failed socket_fd
        else
          bound <- on_system (call (sys_bind socket_fd inaddr_any port)) ;;
          if negb (bound =? 0) then failed socket_fd
          else
            match inet_pton (String.string_of_list_byte group) with
            | None => failed socket_fd
            | Some address =>
                joined <- on_system (call (sys_setsockopt socket_fd (AddMembership address))) ;;
                if negb (joined =? 0) then failed socket_fd
                else
                  print (text "Listening for ExchangeLab market data on " ++ group ++ text ":" ++
                         to_string port ++ newline) ;;;
                  listen turns socket_fd ;;;
                  on_system (call_ (sys_close socket_fd)) ;;;
                  ret 0
            end
  end.
End main.

(** ** What it understands *)

(* the text for a message, with its number *)
Definition understood (message line : list byte) : Prop :=
  ∃ header body, message = Protocol.encode_header header ++ body ∧
    ∃ rest, line = numbered_line header rest.

Lemma well_formed_understood message :
  Messages.well_formed message → understood message (datagram_text message).
Proof.
  intros (header & body & -> & Hv & Hb & Hd). exists header, body. split; [done|].
  unfold datagram_text. pose proof (Protocol.length_encode_header header) as Hl.
  destruct (Nat.ltb_spec (length (Protocol.encode_header header ++ body)) Protocol.header_size) as [Hs|_].
  { rewrite length_app in Hs. lia. }
  pose proof (Messages.read_header header body [] Hv) as Hh. rewrite app_nil_r in Hh. rewrite Hh.
  rewrite length_app, Hl, Nat2Z.inj_add, Hb, Z.eqb_refl. cbn [negb].
  rewrite drop_app_length' by done. revert Hd. unfold Messages.decodes, print_message.
  set (type := Protocol.MessageHeader.type header). intros Hd.
  assert (∀ A (x : option A) f (e : list byte), is_Some x →
    ∃ rest, match x with None => e | Some y => numbered_line header (f y) end = numbered_line header rest)
    as Hsome by (intros A x f e [y ->]; by eexists).
  destruct (Z.eqb_spec type Protocol.MessageType.BookUpdate) as [E|_].
  { rewrite E in Hd. by apply Hsome, (bool_decide_eq_true_1 _ Hd). }
  destruct (Z.eqb_spec type Protocol.MessageType.Level3AddOrder) as [E|_].
  { rewrite E in Hd. by apply Hsome, (bool_decide_eq_true_1 _ Hd). }
  destruct (Z.eqb_spec type Protocol.MessageType.Level3OrderExecuted) as [E|_].
  { rewrite E in Hd. by apply Hsome, (bool_decide_eq_true_1 _ Hd). }
  destruct (Z.eqb_spec type Protocol.MessageType.Level3OrderDeleted) as [E|_].
  { rewrite E in Hd. by apply Hsome, (bool_decide_eq_true_1 _ Hd). }
  by eexists.
Qed.

(** The listener understands the server.  For every datagram a running server
    gives to the multicast group, the listener prints the line of its event,
    with the number of the message, and never that it is truncated or invalid. *)
Theorem multicast_understood y message :
  ServerFeed.live y → (ExchangeServer.Multicast, message) ∈ ExchangeServer.output (ExchangeServer.exchange y) →
  understood message (datagram_text message).
Proof. intros Hy Hm. by eapply well_formed_understood, ServerFeed.messages_well_formed. Qed.

End MarketDataListener.
