(* ===== verification/ExchangeClient.v ===== *)
(** * The demonstration client (tools/exchange_client.cpp)

    A client of the wire protocol: its loops around send and recv, the framing
    of messages on the stream, what it prints, and the fixed dialogue of main.
    What it prints on std::cout is part of the state; the system is a
    parameter ([Sockets]).  A loop here gives up after an interruption, so that
    it needs no bound for them. *)
From S2P Require Import Prelude Bytes Numerals Protocol Messages Sockets.

Module ExchangeClient.

Module ReceivedMessage.
Record t : Type := mk { header : Protocol.MessageHeader.t; body : list byte }.
End ReceivedMessage.

(** ** What is printed *)

Definition newline : list byte := [x0a].
Definition text (s : string) : list byte := bytes_of s.
Definition symbol_text (symbol : Protocol.Symbol) : list byte :=
  bytes_of (Protocol.symbol_to_string symbol).

(* the two sides of a book update *)
Definition bid_text (update : Protocol.BookUpdate.t) : list byte :=
  if negb (Protocol.BookUpdate.has_bid update =? 0)
  then text "bid=" ++ to_string (Protocol.BookUpdate.best_bid update) ++
       text " x " ++ to_string (Protocol.BookUpdate.bid_quantity update) ++ text " "
  else text "bid=none ".
Definition ask_text (update : Protocol.BookUpdate.t) : list byte :=
  if negb (Protocol.BookUpdate.has_ask update =? 0)
  then text "ask=" ++ to_string (Protocol.BookUpdate.best_ask update) ++
       text " x " ++ to_string (Protocol.BookUpdate.ask_quantity update)
  else text "ask=none".

Definition side_text (side : Z) : list byte :=
  if side =? Protocol.Side_Buy then text "BUY " else text "SELL ".

Definition print_response (type : Z) (body : list byte) : list byte :=
  match Protocol.decode_order_response body with
  | None => text "Invalid order response" ++ newline
  | Some response =>
      text "ORDER RESPONSE type=" ++ to_string type ++
      text " id=" ++ to_string (Protocol.OrderResponse.order_id response) ++
      text " success=" ++ to_string (Protocol.OrderResponse.success response) ++ newline
  end.

Definition print_book_update (body : list byte) : list byte :=
  match Protocol.decode_book_update body with
  | None => text "Invalid book update" ++ newline
  | Some update =>
      text "BOOK " ++ symbol_text (Protocol.BookUpdate.symbol update) ++ text " " ++
      bid_text update ++ ask_text update ++ newline
  end.

Definition print_level3_add (body : list byte) : list byte :=
  match Protocol.decode_level3_add_order body with
  | None => text "Invalid Level-3 add event" ++ newline
  | Some event =>
      text "L3 ADD " ++ symbol_text (Protocol.Level3AddOrder.symbol event) ++
      text " id=" ++ to_string (Protocol.Level3AddOrder.order_id event) ++ text " " ++
      side_text (Protocol.Level3AddOrder.side event) ++
      to_string (Protocol.Level3AddOrder.price event) ++
      text " x " ++ to_string (Protocol.Level3AddOrder.quantity event) ++ newline
  end.

Definition print_level3_executed (body : list byte) : list byte :=
  match Protocol.decode_level3_order_executed body with
  | None => text "Invalid Level-3 execution event" ++ newline
  | Some event =>
      text "L3 EXEC " ++ symbol_text (Protocol.Level3OrderExecuted.symbol event) ++
      text " buy=" ++ to_string (Protocol.Level3OrderExecuted.buy_order_id event) ++
      text " sell=" ++ to_string (Protocol.Level3OrderExecuted.sell_order_id event) ++
      text " price=" ++ to_string (Protocol.Level3OrderExecuted.price event) ++
      text " quantity=" ++ to_string (Protocol.Level3OrderExecuted.quantity event) ++ newline
  end.

Definition print_level3_deleted (body : list byte) : list byte :=
  match Protocol.decode_level3_order_deleted body with
  | None => text "Invalid Level-3 delete event" ++ newline
  | Some event =>
      text "L3 DELETE " ++ symbol_text (Protocol.Level3OrderDeleted.symbol event) ++
      text " id=" ++ to_string (Protocol.Level3OrderDeleted.order_id event) ++ newline
  end.

Definition print_message (message : ReceivedMessage.t) : list byte :=
  let type := Protocol.MessageHeader.type (ReceivedMessage.header message) in
  let body := ReceivedMessage.body message in
  if (type =? Protocol.MessageType.OrderAccepted) || (type =? Protocol.MessageType.OrderRejected)
    || (type =? Protocol.MessageType.OrderCancelled) || (type =? Protocol.MessageType.OrderReplaced)
  then print_response type body
  else if type =? Protocol.MessageType.BookUpdate then print_book_update body
  else if type =? Protocol.MessageType.Level3AddOrder then print_level3_add body
  else if type =? Protocol.MessageType.Level3OrderExecuted then print_level3_executed body
  else if type =? Protocol.MessageType.Level3OrderDeleted then print_level3_deleted body
  else text "Received message type " ++ to_string type ++ newline.

(** ** Sockets *)

Section client.
Context {W : Type} `{!System W}.

Fixpoint send_all_loop (fuel : nat) (socket : Z) (bytes : list byte) (total_sent : Z) : M W bool :=
  match fuel with
  | O => throw OutOfFuel
  | S fuel =>
      if negb (total_sent <? Z.of_nat (length bytes)) then ret true
      else
        answer <- call (sys_send socket (drop (Z.to_nat total_sent) bytes)) ;;
        if result answer <=? 0 then ret false
        else send_all_loop fuel socket bytes (u64 (total_sent + result answer))
  end.

(* every turn but the last sends a byte *)
Definition send_all (socket : Z) (bytes : list byte) : M W bool :=
  send_all_loop (S (length bytes)) socket bytes 0.

(* [output] is what has been received of the [size] bytes *)
Fixpoint receive_exact_loop (fuel : nat) (socket size : Z) (output : list byte)
    : M W (option (list byte)) :=
  match fuel with
  | O => throw OutOfFuel
  | S fuel =>
      let total_received := Z.of_nat (length output) in
      if negb (total_received <? size) then ret (Some output)
      else
        received <- call (sys_recv socket (size - total_received)) ;;
        if result received.1 <=? 0 then ret None
        else receive_exact_loop fuel socket size (output ++ received.2)
  end.

Definition receive_exact (socket size : Z) : M W (option (list byte)) :=
  receive_exact_loop (S (Z.to_nat size)) socket size [].

Definition combine_message (header body : list byte) : list byte := header ++ body.

Definition send_request (socket type : Z) (body : list byte) (sequence_number : Z) : M W bool :=
  let header := Protocol.MessageHeader.mk Protocol.protocol_magic Protocol.protocol_version type
    (u32 (Z.of_nat (length body))) sequence_number in
  send_all socket (combine_message (Protocol.encode_header header) body).

Definition connect_to_server (port : Z) : M W Z :=
  client_socket <- call (sys_socket Stream) ;;
  if client_socket <? 0 then ret (-1)
  else
    match inet_pton "127.0.0.1" with
    | None => call_ (sys_close client_socket) ;;; ret (-1)
    | Some ip =>
        connected <- call (sys_connect client_socket ip port) ;;
        if negb (connected =? 0) then call_ (sys_close client_socket) ;;; ret (-1)
        else ret client_socket
    end.

Definition receive_message (socket : Z) : M W (option ReceivedMessage.t) :=
  header_bytes <- receive_exact socket (Z.of_nat Protocol.header_size) ;;
  match header_bytes with
  | None => ret None
  | Some header_bytes =>
      match Protocol.decode_header header_bytes with
      | None => ret None
      | Some header =>
          let body_size := Protocol.MessageHeader.body_size header in
          if body_size =? 0 then ret (Some (ReceivedMessage.mk header []))
          else
            body <- receive_exact socket body_size ;;
            ret (ReceivedMessage.mk header <$> body)
      end
  end.

(** ** The dialogue *)

Definition Tool : Type := list byte * W.   (* what was printed, and the system *)

Definition on_system {A} (m : M W A) : M Tool A :=
  λ st, let '(r, w) := m st.2 in (r, (st.1, w)).
Definition print (line : list byte) : M Tool unit := modify (λ st, (st.1 ++ line, st.2)).

Fixpoint receive_and_print (socket : Z) (message_count : nat) : M Tool bool :=
  match message_count with
  | O => ret true
  | S message_count =>
      message <- on_system (receive_message socket) ;;
      match message with
      | None => ret false
      | Some message => print (print_message message) ;;; receive_and_print socket message_count
      end
  end.

(* a request and the messages it is expected to cause; the error text goes to
   std::cerr, and main returns 1 *)
Definition lifecycle (socket type : Z) (body : list byte) (sequence_number : Z)
    (message_count : nat) (next : M Tool Z) : M Tool Z :=
  sent <- on_system (send_request socket type body sequence_number) ;;
  answered <- (if negb sent then ret false else receive_and_print socket message_count) ;;
  if negb answered then on_system (call_ (sys_close socket)) ;;; ret 1 else next.

Definition port : Z := 9000.
Definition aapl : Protocol.Symbol := Protocol.make_symbol "AAPL".
Definition msft : Protocol.Symbol := Protocol.make_symbol "MSFT".

Definition aapl_order : Protocol.NewOrderRequest.t :=
  Protocol.NewOrderRequest.mk 1 1 105 10 Protocol.Side_Sell Protocol.OrderType_Limit
    Protocol.TimeInForce_GoodTillCancel aapl.
Definition msft_order : Protocol.NewOrderRequest.t :=
  Protocol.NewOrderRequest.mk 1 2 410 25 Protocol.Side_Buy Protocol.OrderType_Limit
    Protocol.TimeInForce_GoodTillCancel msft.
Definition replace : Protocol.ReplaceOrderRequest.t :=
  Protocol.ReplaceOrderRequest.mk 1 3 106 12 aapl.
Definition cancel : Protocol.CancelOrderRequest.t := Protocol.CancelOrderRequest.mk 1 4 aapl.

Definition farewell : list byte :=
  text "Multi-symbol demo complete: AAPL lifecycle finished; MSFT order remains resting." ++ newline.

Definition main : M Tool Z :=
  client_socket <- on_system (connect_to_server port) ;;
  if client_socket <? 0 then ret 1
  else
    lifecycle client_socket Protocol.MessageType.NewOrder (Protocol.encode_new_order aapl_order) 1 3
    (lifecycle client_socket Protocol.MessageType.NewOrder (Protocol.encode_new_order msft_order) 2 3
    (lifecycle client_socket Protocol.MessageType.ReplaceOrder (Protocol.encode_replace_order replace) 3 4
    (lifecycle client_socket Protocol.MessageType.CancelOrder (Protocol.encode_cancel_order cancel) 4 3
    (print farewell ;;;
     on_system (call_ (sys_shutdown client_socket)) ;;;
     on_system (call_ (sys_close client_socket)) ;;;
     ret 0)))).
End client.

(** ** What it reads *)

Section reading.
Context {W : Type} `{!System W, !SystemLaws W}.

(** Whatever the system does, the loop ends; it has read the next [size] bytes
    of the stream or gives up. *)
Lemma receive_exact_loop_total fuel d size output w :
  (Z.to_nat size - length output < fuel)%nat → Z.of_nat (length output) ≤ Z.max 0 size →
  ∃ r w', receive_exact_loop fuel d size output w = (Ok r, w') ∧
    match r with
    | Some bytes => ∃ more, bytes = output ++ more ∧ arriving d w = more ++ arriving d w' ∧
                      Z.of_nat (length bytes) = Z.max 0 size
    | None => True
    end.
Proof.
  revert output w. induction fuel as [|fuel IH]; intros output w Hf Hl; [lia|].
  cbn [receive_exact_loop].
  destruct (Z.ltb_spec (Z.of_nat (length output)) size) as [Hlt|Hge]; cbn [negb].
  2:{ exists (Some output), w. split; [done|]. exists []. rewrite app_nil_r. split_and!; [done|done|lia]. }
  unfold bind, call. pose proof (recv_gives d (size - Z.of_nat (length output)) w) as Hg.
  destruct (sys_recv d (size - Z.of_nat (length output)) w) as [[answer bytes] w1].
  destruct (Hg ltac:(lia)) as (Hn & Hle & Ha). cbn [fst snd].
  destruct (Z.leb_spec (result answer) 0); [by exists None, w1|].
  destruct (IH (output ++ bytes) w1) as (r & w' & -> & Hr);
    [rewrite length_app; lia|rewrite length_app; lia|].
  exists r, w'. split; [done|]. destruct r as [all|]; [|done].
  destruct Hr as (more & -> & Ha1 & Hlen). exists (bytes ++ more).
  rewrite <- app_assoc, <- app_assoc, <- Ha1 in *. done.
Qed.

(* [R] is kept by recv: what the client does not change *)
Context `{!Reliable W} (R : W → W → Prop) `{!PreOrder R}
  (HR : ∀ d size w, R w (sys_recv d size w).2).

Lemma receive_exact_loop_reads fuel d size output bytes rest w :
  (length bytes < fuel)%nat → arriving d w = bytes ++ rest →
  Z.of_nat (length output) + Z.of_nat (length bytes) = size →
  ∃ w', receive_exact_loop fuel d size output w = (Ok (Some (output ++ bytes)), w') ∧
    arriving d w' = rest ∧ R w w'.
Proof.
  revert output bytes w. induction fuel as [|fuel IH]; intros output bytes w Hf Ha Hs; [lia|].
  cbn [receive_exact_loop].
  destruct (Z.ltb_spec (Z.of_nat (length output)) size) as [Hlt|Hge]; cbn [negb].
  2:{ destruct bytes; [|simpl in Hs; lia]. exists w. by rewrite app_nil_r. }
  unfold bind, call. pose proof (recv_gives d (size - Z.of_nat (length output)) w) as Hg.
  pose proof (HR d (size - Z.of_nat (length output)) w) as H1.
  assert (0 < result (sys_recv d (size - Z.of_nat (length output)) w).1.1) as Hpos.
  { apply recv_reliable; [lia|]. rewrite Ha. destruct bytes; [simpl in Hs; lia|done]. }
  destruct (sys_recv d (size - Z.of_nat (length output)) w) as [[answer got] w1]. cbn [fst snd] in *.
  destruct (Hg ltac:(lia)) as (Hn & Hle & Hgot).
  destruct (Z.leb_spec (result answer) 0); [lia|].
  rewrite Ha in Hgot.
  assert (bytes = got ++ drop (length got) bytes) as Hb.
  { apply (f_equal (take (length got))) in Hgot. rewrite take_app_length, take_app_le in Hgot by lia.
    by rewrite <- Hgot at 1; rewrite take_drop. }
  rewrite Hb, <- app_assoc in Hgot. apply app_inv_head in Hgot.
  destruct (IH (output ++ got) (drop (length got) bytes) w1) as (w' & -> & Ha' & H2).
  - rewrite length_drop. lia.
  - done.
  - rewrite length_app, length_drop. lia.
  - exists w'. rewrite <- app_assoc, <- Hb. split_and!; [done|done|by etrans].
Qed.

Lemma receive_exact_reads d bytes rest w :
  arriving d w = bytes ++ rest →
  ∃ w', receive_exact d (Z.of_nat (length bytes)) w = (Ok (Some bytes), w') ∧
    arriving d w' = rest ∧ R w w'.
Proof.
  intros Ha. unfold receive_exact.
  destruct (receive_exact_loop_reads (S (Z.to_nat (Z.of_nat (length bytes)))) d
    (Z.of_nat (length bytes)) [] bytes rest w) as (w' & Hr & H'); [lia|done|simpl; lia|].
  by exists w'.
Qed.

(** The next message of the stream, however it arrives. *)
Lemma receive_message_reads d message rest w :
  Messages.well_formed message → arriving d w = message ++ rest →
  ∃ header body w', message = Protocol.encode_header header ++ body ∧
    Protocol.header_valid header ∧
    receive_message d w = (Ok (Some (ReceivedMessage.mk header body)), w') ∧
    arriving d w' = rest ∧ R w w'.
Proof.
  intros (header & body & -> & Hv & Hb & Hd) Ha. rewrite <- app_assoc in Ha.
  exists header, body. unfold receive_message.
  destruct (receive_exact_reads d (Protocol.encode_header header) (body ++ rest) w Ha) as (w1 & H1 & Ha1 & HR1).
  rewrite Protocol.length_encode_header in H1. unfold bind at 1. rewrite H1.
  rewrite (proj2 (Protocol.decode_header_spec _ header)) by done. cbn zeta. rewrite Hb.
  destruct (Z.eqb_spec (Z.of_nat (length body)) 0) as [H0|H0].
  { destruct body; [|simpl in H0; lia]. by exists w1. }
  destruct (receive_exact_reads d body rest w1 Ha1) as (w2 & H2 & Ha2 & HR2).
  exists w2. unfold bind. rewrite H2. split_and!; [done|done|done|done|by etrans].
Qed.

(** The line that a message is printed as. *)
Definition printed (message : list byte) : list byte :=
  match Protocol.decode_header (take Protocol.header_size message) with
  | Some header => print_message (ReceivedMessage.mk header (drop Protocol.header_size message))
  | None => []
  end.

Lemma printed_message header body :
  Protocol.header_valid header →
  printed (Protocol.encode_header header ++ body) = print_message (ReceivedMessage.mk header body).
Proof.
  intros Hv. unfold printed. pose proof (Messages.read_header header body [] Hv) as Hh.
  rewrite app_nil_r in Hh. rewrite Hh.
  by rewrite drop_app_length' by (by rewrite Protocol.length_encode_header).
Qed.

Lemma receive_and_print_reads d messages rest out w :
  Forall Messages.well_formed messages → arriving d w = concat messages ++ rest →
  ∃ w', receive_and_print d (length messages) (out, w) =
      (Ok true, (out ++ concat (printed <$> messages), w')) ∧
    arriving d w' = rest ∧ R w w'.
Proof.
  intros Hm. revert out w. induction Hm as [|message messages Hm _ IH]; intros out w Ha.
  { exists w. by rewrite app_nil_r. }
  cbn [concat] in Ha. rewrite <- app_assoc in Ha.
  destruct (receive_message_reads d message (concat messages ++ rest) w Hm Ha)
    as (header & body & w1 & -> & Hv & Hr & Ha1 & HR1).
  cbn [length receive_and_print]. unfold bind at 1, on_system. cbn [fst snd]. rewrite Hr.
  unfold bind, print, modify. cbn [fst snd].
  destruct (IH (out ++ print_message (ReceivedMessage.mk header body)) w1 Ha1) as (w2 & H2 & Ha2 & HR2).
  exists w2. split; [|split; [done|by etrans]]. rewrite H2. cbn [fmap list_fmap concat].
  rewrite printed_message by done. by rewrite app_assoc.
Qed.
End reading.

End ExchangeClient.
