(* ===== verification/FixClient.v ===== *)
(** * The FIX demonstration client (tools/exchange_fix_client.cpp)

    Its loops around send and recv, the messages it sends, what it prints, and
    the fixed dialogue of main.  As in ExchangeClient.v, what it prints on
    std::cout is part of the state, the error text on std::cerr is left out,
    and the system is a parameter ([Sockets]), as is the clock behind
    [utc_timestamp]. *)
From Stdlib Require Import Strings.String.
From S2P Require Import Prelude Bytes Numerals Fix Sockets ExchangeClient.
Open Scope Z_scope.

Module FixClient.
Import ExchangeClient (Tool, on_system, print, text, newline).

Section client.
Context {W : Type} `{!System W} (utc_timestamp : W → list byte).

(** ** Sockets *)

Definition connect_to_gateway (port : Z) : M W Z :=
  socket <- call (sys_socket Stream) ;;
  if socket <? 0 then ret (-1)
  else
    match inet_pton "127.0.0.1" with
    | None => call_ (sys_close socket) ;;; ret (-1)
    | Some ip =>
        connected <- call (sys_connect socket ip port) ;;
        if negb (connected =? 0) then call_ (sys_close socket) ;;; ret (-1) else ret socket
    end.

Fixpoint send_all_loop (fuel : nat) (socket : Z) (wire : list byte) (sent_total : Z) : M W bool :=
  match fuel with
  | O => throw OutOfFuel
  | S fuel =>
      if negb (sent_total <? Z.of_nat (length wire)) then ret true
      else
        sent <- call (sys_send socket (drop (Z.to_nat sent_total) wire)) ;;
        if result sent <=? 0 then ret false
        else send_all_loop fuel socket wire (u64 (sent_total + result sent))
  end.

(* every turn but the last sends a byte *)
Definition send_all (socket : Z) (wire : list byte) : M Tool bool :=
  sent <- on_system (send_all_loop (S (length wire)) socket wire 0) ;;
  if negb sent then ret false
  else print (text "C -> G  " ++ Fix.printable wire ++ newline) ;;; ret true.

(* the message, or none, and the receive buffer, which is the caller's *)
Fixpoint receive_one_loop (fuel : nat) (socket : Z) (buffer : list byte)
    : M W (option (list byte) * list byte) :=
  match fuel with
  | O => throw OutOfFuel
  | S fuel =>
      match Fix.extract_one buffer with
      | (Throw e, _) => throw e
      | (Ok extracted, buffer) =>
          match Fix.ExtractResult.status extracted with
          | Fix.ExtractStatus.MessageReady => ret (Some (Fix.ExtractResult.wire_message extracted), buffer)
          | Fix.ExtractStatus.InvalidData => ret (None, buffer)
          | Fix.ExtractStatus.NeedMoreData =>
              received <- call (sys_recv socket 4096) ;;
              if result received.1 <=? 0 then ret (None, buffer)
              else receive_one_loop fuel socket (buffer ++ received.2)
          end
      end
  end.

(* every turn but the last reads a byte of what the peer sends *)
Definition receive_one (socket : Z) (buffer : list byte) : M W (option (list byte) * list byte) :=
  λ w, receive_one_loop (S (length (arriving socket w))) socket buffer w.

(** ** Messages *)

Definition base_message (type : string) (sequence : Z) : M W Fix.Message.t :=
  w <- get ;;
  ret (Fix.add 52 (utc_timestamp w)
    (Fix.add 56 (bytes_of "EXCHANGELAB")
      (Fix.add 49 (bytes_of "FIXDEMO")
        (Fix.add 34 (to_string sequence) (Fix.add 35 (bytes_of type) (Fix.Message.mk [])))))).

Definition add_fields (fields : list (Z * string)) (message : Fix.Message.t) : Fix.Message.t :=
  foldl (λ m f, Fix.add f.1 (bytes_of f.2) m) message fields.

(* tag 60 is another reading of the clock *)
Definition add_transact_time (message : Fix.Message.t) : M W Fix.Message.t :=
  w <- get ;; ret (Fix.add 60 (utc_timestamp w) message).

Definition logon (sequence : Z) : M W Fix.Message.t :=
  m <- base_message "A" sequence ;; ret (add_fields [(98, "0"); (108, "30")]%string m).

Definition new_order (sequence : Z) : M W Fix.Message.t :=
  m <- base_message "D" sequence ;;
  add_transact_time (add_fields [(11, "FIXDEMO-1"); (55, "AAPL"); (54, "1"); (38, "10"); (40, "2");
    (44, "100"); (59, "1")]%string m).

Definition replace (sequence : Z) : M W Fix.Message.t :=
  m <- base_message "G" sequence ;;
  add_transact_time (add_fields [(11, "FIXDEMO-2"); (41, "FIXDEMO-1"); (55, "AAPL"); (54, "1");
    (38, "12"); (40, "2"); (44, "101"); (59, "1")]%string m).

Definition cancel (sequence : Z) : M W Fix.Message.t :=
  m <- base_message "F" sequence ;;
  add_transact_time (add_fields [(11, "FIXDEMO-3"); (41, "FIXDEMO-2"); (55, "AAPL"); (54, "1")]%string m).

Definition risk_reject (sequence : Z) : M W Fix.Message.t :=
  m <- base_message "D" sequence ;;
  add_transact_time (add_fields [(11, "FIXDEMO-RISK"); (55, "MSFT"); (54, "1"); (38, "100001");
    (40, "2"); (44, "410"); (59, "1")]%string m).

Definition logout (sequence : Z) : M W Fix.Message.t := base_message "5" sequence.

(** ** The dialogue *)

Definition send_and_receive (socket : Z) (message : Fix.Message.t) (receive_buffer : list byte)
    : M Tool (bool * list byte) :=
  let wire := Fix.encode message in
  sent <- send_all socket wire ;;
  if negb sent then ret (false, receive_buffer)
  else
    response <- on_system (receive_one socket receive_buffer) ;;
    match response with
    | (None, receive_buffer) => ret (false, receive_buffer)
    | (Some response, receive_buffer) =>
        print (text "G -> C  " ++ Fix.printable response ++ newline ++ newline) ;;;
        ret (true, receive_buffer)
    end.

(* a message of main and what it does when there is no answer *)
Definition exchange (socket : Z) (build : M W Fix.Message.t) (receive_buffer : list byte)
    (next : list byte → M Tool Z) : M Tool Z :=
  message <- on_system build ;;
  answered <- send_and_receive socket message receive_buffer ;;
  if negb answered.1 then on_system (call_ (sys_close socket)) ;;; ret 1 else next answered.2.

Definition port : Z := 9878.

Definition main : M Tool Z :=
  socket <- on_system (connect_to_gateway port) ;;
  if socket <? 0 then ret 1
  else
    exchange socket (logon 1) [] (λ buffer,
    exchange socket (new_order 2) buffer (λ buffer,
    exchange socket (replace 3) buffer (λ buffer,
    exchange socket (cancel 4) buffer (λ buffer,
    exchange socket (risk_reject 5) buffer (λ buffer,
    exchange socket (logout 6) buffer (λ buffer,
      on_system (call_ (sys_shutdown socket)) ;;;
      on_system (call_ (sys_close socket)) ;;;
      ret 0)))))).
End client.

(** ** Its loops *)

Section loops.
Context {W : Type} `{!System W, !SystemLaws W}.

(** The loop ends, whatever arrives: an answer, no answer, but never more turns
    than there are bytes. *)
Lemma receive_one_loop_total fuel d buffer w :
  (length (arriving d w) < fuel)%nat → Z.of_nat (length buffer + length (arriving d w)) < 2 ^ 63 →
  ∃ r w', receive_one_loop fuel d buffer w = (Ok r, w').
Proof.
  revert buffer w. induction fuel as [|fuel IH]; intros buffer w Hf Hs; [lia|]. cbn [receive_one_loop].
  destruct (Fix.extract_total buffer ltac:(lia)) as (x & b & -> & Hx).
  unfold Fix.extracts in Hx.
  destruct (Fix.ExtractResult.status x); [|by eexists _, _..].
  unfold bind, call. pose proof (recv_gives d 4096 w) as Hg.
  destruct (sys_recv d 4096 w) as [[answer bytes] w1]. destruct (Hg ltac:(lia)) as (Hn & _ & Ha). cbn [fst snd].
  destruct (Z.leb_spec (result answer) 0); [by eexists _, _|].
  destruct Hx as [dropped Hb]. apply (f_equal length) in Ha, Hb. rewrite !length_app in Ha, Hb.
  apply IH; [lia|]. rewrite length_app. lia.
Qed.

Lemma receive_one_total d buffer w :
  Z.of_nat (length buffer + length (arriving d w)) < 2 ^ 63 →
  ∃ r w', receive_one d buffer w = (Ok r, w').
Proof. intros Hs. unfold receive_one. apply receive_one_loop_total; [lia|done]. Qed.

(** Over a connection that goes on it reads the next message of the stream,
    however the stream is cut, and keeps what comes after it. *)
Context `{!Reliable W} (R : W → W → Prop) `{!PreOrder R}
  (HR : ∀ d size w, R w (sys_recv d size w).2).

Lemma receive_one_loop_reads fuel d buffer rest message w :
  Fix.Envelope message → message = buffer ++ rest → rest ≠ [] → arriving d w = rest →
  (length rest < fuel)%nat →
  ∃ w', receive_one_loop fuel d buffer w = (Ok (Some message, []), w') ∧ arriving d w' = [] ∧ R w w'.
Proof.
  intros He. revert buffer rest w. induction fuel as [|fuel IH]; intros buffer rest w Hm Hne Ha Hf; [lia|].
  cbn [receive_one_loop].
  rewrite (Fix.extract_partial buffer) by (right; by exists message, rest). cbn [Fix.need_more_data Fix.ExtractResult.status].
  unfold bind, call. pose proof (recv_gives d 4096 w) as Hg. pose proof (HR d 4096 w) as H1.
  assert (0 < result (sys_recv d 4096 w).1.1) as Hpos by (apply recv_reliable; [lia|by rewrite Ha]).
  destruct (sys_recv d 4096 w) as [[answer got] w1]. cbn [fst snd] in *.
  destruct (Hg ltac:(lia)) as (Hn & _ & Hgot). destruct (Z.leb_spec (result answer) 0); [lia|].
  rewrite Ha in Hgot.
  destruct (arriving d w1) as [|b more] eqn:Hw1.
  - rewrite app_nil_r in Hgot. subst rest got. destruct fuel as [|fuel].
    { exfalso. simpl in Hf. destruct (arriving d w); [by apply Hne|simpl in *; lia]. }
    cbn [receive_one_loop]. rewrite <- Hm.
    pose proof (Fix.extract_ready message [] He) as Hx. rewrite app_nil_r in Hx. rewrite Hx.
    by exists w1.
  - destruct (IH (buffer ++ got) (b :: more) w1) as (w' & Hr & Hw' & H2).
    + by rewrite <- (assoc_L (++)), <- Hgot.
    + done.
    + done.
    + apply (f_equal length) in Hgot. rewrite length_app in Hgot. lia.
    + exists w'. split_and!; [done|done|by etrans].
Qed.

Lemma receive_one_reads d message w :
  Fix.Envelope message → arriving d w = message →
  ∃ w', receive_one d [] w = (Ok (Some message, []), w') ∧ arriving d w' = [] ∧ R w w'.
Proof.
  intros He Ha. unfold receive_one.
  apply (receive_one_loop_reads _ d [] message message); [done|done| |done|rewrite Ha; lia].
  by apply Fix.envelope_nonempty.
Qed.
End loops.

End FixClient.
