(* ===== verification/Connection.v ===== *)
(** * A TCP connection to a process

    The system of a client whose peer is a program of the repository: what is
    sent is delivered to the peer, what the peer says can be read, and TCP cuts
    both directions as it likes.  ClientDialogue.v and FixDialogue.v run the two
    demonstration clients over it. *)
From S2P Require Import Prelude Bytes Sockets ExchangeClient.
Open Scope Z_scope.

Module Connection.

Record Link {P : Type} : Type := mk_link {
  process : P;             (* the peer *)
  unread : list byte;      (* said by the peer, and not yet read *)
  sockets : gset Z;        (* the descriptors of the client *)
  spoken : list byte       (* sent by the client *)
}.
Arguments Link : clear implicits.
Arguments mk_link {P}.

Section link.
(* the peer on bytes, on a connection and on its end, and what it says then *)
Context {P : Type} (deliver : list byte → P → P * list byte) (connect hang_up : P → P * list byte).
Context (cut_send cut_receive : Link P → Z).

(* between one byte and [limit] *)
Definition clamp (n : Z) (limit : nat) : nat := Z.to_nat (Z.max 1 (Z.min n (Z.of_nat limit))).

Lemma clamp_range n limit : (0 < limit)%nat → (1 ≤ clamp n limit ≤ limit)%nat.
Proof. unfold clamp. lia. Qed.

Definition on_peer (f : P → P * list byte) (w : Link P) : Link P :=
  let '(p, said) := f (process w) in mk_link p (unread w ++ said) (sockets w) (spoken w).

Definition link_send (data : list byte) (w : Link P) : Answer * Link P :=
  match data with
  | [] => (mk_answer 0 false, w)
  | _ =>
      let piece := take (clamp (cut_send w) (length data)) data in
      let w' := on_peer (deliver piece) w in
      (mk_answer (Z.of_nat (length piece)) false,
       mk_link (process w') (unread w') (sockets w') (spoken w ++ piece))
  end.

Definition link_recv (size : Z) (w : Link P) : (Answer * list byte) * Link P :=
  if (size <=? 0) || bool_decide (unread w = []) then (mk_answer 0 false, [], w)
  else
    let n := clamp (cut_receive w) (Nat.min (Z.to_nat size) (length (unread w))) in
    (mk_answer (Z.of_nat n) false, take n (unread w),
     mk_link (process w) (drop n (unread w)) (sockets w) (spoken w)).

Definition linked : Sockets.System (Link P) := {|
  descriptors := sockets;
  taken := λ _, spoken;
  arriving := λ _, unread;
  sys_socket := λ _ w, let d := fresh_descriptor (sockets w) in
    (d, mk_link (process w) (unread w) ({[d]} ∪ sockets w) (spoken w));
  sys_setsockopt := λ _ _ w, (0, w);
  sys_bind := λ _ _ _ w, (0, w);
  sys_listen := λ _ _ w, (0, w);
  sys_connect := λ _ _ _ w, (0, on_peer connect w);
  sys_accept := λ _ w, (mk_answer (-1) false, w);
  sys_send := λ _, link_send;
  sys_recv := λ _, link_recv;
  sys_sendto := λ _ _ _ _ w, (-1, w);
  sys_shutdown := λ _ w, w;
  sys_close := λ d w, let w := on_peer hang_up w in
    mk_link (process w) (unread w) (sockets w ∖ {[d]}) (spoken w);
  inet_pton := λ _, Some inaddr_loopback
|}.
#[local] Existing Instance linked.

Lemma on_peer_same f w : sockets (on_peer f w) = sockets w ∧ spoken (on_peer f w) = spoken w.
Proof. unfold on_peer. by destruct (f _). Qed.

Lemma linked_laws : SystemLaws (Link P).
Proof.
  constructor; simpl; try done.
  - intros _ w. pose proof (fresh_descriptor_spec (sockets w)) as [Hd Hf]. unfold opened.
    by destruct (Z.ltb_spec (fresh_descriptor (sockets w)) 0); [lia|].
  - intros. apply on_peer_same.
  - intros d [|b data] w; [done|]. apply on_peer_same.
  - intros d size w. unfold link_recv. by destruct (_ || _).
  - intros d w. by rewrite (proj1 (on_peer_same _ _)).
  - intros d data w. unfold link_send. destruct data as [|b data]; simpl; [by rewrite app_nil_r|].
    set (n := clamp _ _). assert (1 ≤ n ≤ length (b :: data))%nat as Hn by (apply clamp_range; simpl; lia).
    split; [rewrite length_take; simpl in *; lia|].
    rewrite Nat2Z.id, length_take. f_equal. f_equal. simpl in *. lia.
  - intros d size w. unfold link_recv.
    destruct (Z.leb_spec size 0) as [|Hpos]; simpl; [intros ?; split_and!; [done|lia|done]|].
    destruct (bool_decide_reflect (unread w = [])) as [|Hne]; simpl; [intros ?; split_and!; [done|lia|done]|]. intros Hs.
    set (n := clamp _ _).
    assert (1 ≤ n ≤ Nat.min (Z.to_nat size) (length (unread w)))%nat as Hn.
    { apply clamp_range. destruct (unread w); [done|simpl; lia]. }
    split_and!; [rewrite length_take; lia|lia|by rewrite take_drop].
  - intros d d' size w. unfold link_recv. by destruct (_ || _).
Qed.

Lemma linked_reliable : Reliable (Link P).
Proof.
  constructor; simpl.
  - intros d size w Hs Hne. unfold link_recv. destruct (Z.leb_spec size 0); [lia|].
    rewrite bool_decide_eq_false_2 by done. simpl. unfold clamp. lia.
  - intros d data w Hne. destruct data as [|b data]; [done|]. simpl.
    pose proof (clamp_range (cut_send w) (length (b :: data)) ltac:(simpl; lia)) as Hn.
    destruct (clamp _ _); [lia|]. simpl. lia.
Qed.

(* reading leaves the peer alone *)
Definition reads (w w' : Link P) : Prop := process w' = process w ∧ sockets w' = sockets w.
#[global] Instance reads_preorder : PreOrder reads.
Proof. split; [done|]. intros w1 w2 w3 [H1 H2] [H3 H4]. split; congruence. Qed.

Lemma recv_reads d size w : reads w (sys_recv d size w).2.
Proof. simpl. unfold link_recv. by destruct (_ || _). Qed.

(** ** Sending a message in pieces *)

(* [fed n p]: the peer has been given the first [n] bytes of the message *)
Context (wire : list byte) (fed : nat → P → Prop) (final : P) (said : list byte).
Context (Hpart : ∀ n k p, fed n p → (0 < k)%nat → (n + k < length wire)%nat →
  let '(p', said') := deliver (take k (drop n wire)) p in fed (n + k) p' ∧ said' = []).
Context (Hlast : ∀ n p, fed n p → (n < length wire)%nat → deliver (drop n wire) p = (final, said)).

Lemma send_all_delivers fuel d total w :
  fed (Z.to_nat total) (process w) → 0 ≤ total < Z.of_nat (length wire) →
  in_u64 (Z.of_nat (length wire)) → (length wire - Z.to_nat total < fuel)%nat →
  ∃ w', ExchangeClient.send_all_loop fuel d wire total w = (Ok true, w') ∧
    process w' = final ∧ unread w' = unread w ++ said ∧ sockets w' = sockets w.
Proof.
  revert total w. induction fuel as [|fuel IH]; intros total w Hw Ht Hu Hf; [lia|].
  cbn [ExchangeClient.send_all_loop]. destruct (Z.ltb_spec total (Z.of_nat (length wire))); [|lia].
  cbn [negb]. unfold bind, call. cbn [sys_send linked]. unfold link_send.
  assert (length (drop (Z.to_nat total) wire) = length wire - Z.to_nat total)%nat as Hl by apply length_drop.
  destruct (drop (Z.to_nat total) wire) as [|b l] eqn:Hd; [cbn [length] in Hl; lia|]. rewrite <- Hd in *.
  set (k := clamp (cut_send w) (length (drop (Z.to_nat total) wire))).
  assert (1 ≤ k ≤ length (drop (Z.to_nat total) wire))%nat as Hk by (apply clamp_range; lia).
  cbn [result]. rewrite length_take, Nat.min_l by lia.
  destruct (Z.leb_spec (Z.of_nat k) 0); [lia|]. rewrite u64_id by (unfold in_u64 in *; lia).
  unfold on_peer. destruct (decide (Z.to_nat total + k < length wire)%nat) as [Hlt|Hge].
  - pose proof (Hpart (Z.to_nat total) k (process w) Hw ltac:(lia) Hlt) as Hp.
    destruct (deliver (take k _) (process w)) as [p said']. destruct Hp as [Hp ->].
    destruct (IH (total + Z.of_nat k) (mk_link p (unread w ++ []) (sockets w)
      (spoken w ++ take k (drop (Z.to_nat total) wire)))) as (w' & Hs & H1 & H2 & H3); [|lia|done|lia|].
    { rewrite Z2Nat.inj_add, Nat2Z.id by lia. exact Hp. }
    cbn [process unread sockets spoken] in *.
    rewrite app_nil_r in H2. exists w'. by split_and!.
  - rewrite (take_ge _ k) by lia. rewrite (Hlast (Z.to_nat total) (process w) Hw) by lia.
    eexists. destruct fuel as [|fuel]; [lia|]. cbn [ExchangeClient.send_all_loop].
    destruct (Z.ltb_spec (total + Z.of_nat k) (Z.of_nat (length wire))); [lia|]. cbn [negb].
    by split_and!.
Qed.
End link.

End Connection.
