(* ===== verification/ClientDialogue.v ===== *)
(** * The demonstration client and the server

    The system of ExchangeClient.v is here the exchange server itself: what the
    client sends is received by the server, what the server sends the client
    can be read, and TCP cuts both directions as it likes.  The dialogue of
    the client then ends as it says, on every cutting. *)
From Stdlib Require Import Strings.String.
From S2P Require Import Prelude Types TradeBuffer BookSpec OrderBook Bytes Numerals Protocol Messages ExchangeServer ServerDemo ServerSafety ServerOrders FeedReader ServerFeed ServerStream Sockets ExchangeClient Connection.
Open Scope Z_scope.

Module ClientDialogue.
Import Messages ExchangeServer FeedReader ServerFeed ServerStream.
Import Connection (Link, mk_link, process, unread, sockets).

(** ** The server at the other end *)

(* the socket of the connection in the server *)
Definition peer : Z := 5.

(* an event of the connection, and what the server then sends over it *)
Definition serve (event : Event) (y : System) : System * list byte :=
  let y' := (ServerDemo.handle event y).2 in
  (y', concat (heard (Socket peer) (drop (length (output (exchange y))) (output (exchange y'))))).

Section link.
Context (cut_send cut_receive : Link System → Z).

#[local] Instance linked : Sockets.System (Link System) :=
  Connection.linked (λ bytes, serve (Receive peer bytes)) (serve (Connect peer))
    (serve (Receive peer [])) cut_send cut_receive.
#[local] Instance linked_laws : SystemLaws (Link System) := Connection.linked_laws _ _ _ _ _.
#[local] Instance linked_reliable : Reliable (Link System) := Connection.linked_reliable _ _ _ _ _.

Lemma client_recv_reads d size w : Connection.reads w (sys_recv d size w).2.
Proof. apply Connection.recv_reads. Qed.

(** ** One request *)

Definition said (r : Request) (y : System) : list (list byte) :=
  let y' := (ServerDemo.handle (Receive peer (wire r)) y).2 in
  heard (Socket peer) (drop (length (output (exchange y))) (output (exchange y'))).

(* waiting for the rest of a request *)
Definition waiting (r : Request) (y : System) (n : nat) (y' : System) : Prop :=
  exchange y' = exchange y ∧
  ∃ session, sessions y !! peer = Some session ∧ Session.receive_buffer session = [] ∧
    sessions y' = <[peer := Session.mk (take n (wire r)) (Session.trade_buffer session)]> (sessions y).

(* not the end of the request *)
Lemma serve_part r y n k y' :
  framed r → waiting r y n y' → (0 < k)%nat → (n + k < length (wire r))%nat →
  let '(y2, said) := serve (Receive peer (take k (drop n (wire r)))) y' in
  waiting r y (n + k) y2 ∧ said = [].
Proof.
  intros Hr (He & session & Hs & Hb & Hs') Hk Hn.
  assert (take n (wire r) ++ take k (drop n (wire r)) = take (n + k) (wire r)) as Hcat
    by (by rewrite take_take_drop).
  assert (∃ b l, take k (drop n (wire r)) = b :: l) as (b & l & Hp).
  { assert (length (take k (drop n (wire r))) = k) by (rewrite length_take, length_drop; lia).
    destruct (take k (drop n (wire r))); [simpl in *; lia|by eexists _, _]. }
  unfold serve, ServerDemo.handle, handle_event, receive. rewrite Hs', lookup_insert_eq.
  cbn [Session.receive_buffer Session.trade_buffer].
  rewrite Hp. cbn match. rewrite <- Hp, Hcat. unfold process_receive_buffer.
  assert (unfinished (take (n + k) (wire r))) as Hu by by apply unfinished_take.
  pose proof (loop_requests ServerDemo.good_disk ServerDemo.no_time ServerDemo.set_order []
    (length (take (n + k) (wire r))) peer (take (n + k) (wire r))
    (exchange y', Session.trade_buffer session) ltac:(constructor) Hu ltac:(done)) as Hl.
  cbn [wires app fmap list_fmap concat] in Hl. unfold wires in Hl. cbn [app fmap list_fmap concat] in Hl.
  rewrite Hl. cbn. rewrite drop_all. split; [|done].
  split; [done|]. exists session. split_and!; [done|done|]. cbn [sessions]. by rewrite insert_insert_eq.
Qed.

(* the end of the request: as if it had come in one piece *)
Lemma serve_last r y n y' :
  waiting r y n y' → (n < length (wire r))%nat → (ServerDemo.handle (Receive peer (wire r)) y).1 = Ok tt →
  serve (Receive peer (drop n (wire r))) y' =
    ((ServerDemo.handle (Receive peer (wire r)) y).2, concat (said r y)).
Proof.
  intros (He & session & Hs & Hb & Hs') Hn Hok.
  assert (take n (wire r) ++ drop n (wire r) = wire r) as Hcat by apply take_drop.
  assert (∃ b l, drop n (wire r) = b :: l) as (b & l & Hp).
  { assert (length (drop n (wire r)) = length (wire r) - n)%nat by (rewrite length_drop; lia).
    destruct (drop n (wire r)); [simpl in *; lia|by eexists _, _]. }
  assert (∃ b' l', wire r = b' :: l') as (b' & l' & Hw).
  { destruct (wire r); [simpl in *; lia|by eexists _, _]. }
  unfold said, serve, ServerDemo.handle, handle_event, receive. rewrite Hs, Hs', lookup_insert_eq, Hb.
  cbn [Session.receive_buffer Session.trade_buffer app].
  rewrite Hp. cbn match. rewrite <- Hp, Hcat, He.
  revert Hok. unfold ServerDemo.handle, handle_event, receive. rewrite Hs, Hb. cbn [app].
  rewrite Hw. cbn match. rewrite <- Hw. unfold process_receive_buffer.
  destruct (process_receive_loop _ _ _ _ _ _ _) as [[rest|e] [s trades]]; [|done]. intros _.
  cbn [fst snd exchange]. by rewrite insert_insert_eq.
Qed.

Lemma demo_live_event event y :
  live y → (ServerDemo.handle event y).1 = Ok tt → live (ServerDemo.handle event y).2.
Proof.
  intros Hy Hok. eapply live_event; [|exact Hy|].
  - intros l id. apply elem_of_remove_dups.
  - rewrite <- Hok. unfold ServerDemo.handle. apply surjective_pairing.
Qed.

Lemma demo_said r y :
  live y → (ServerDemo.handle (Receive peer (wire r)) y).1 = Ok tt → Forall well_formed (said r y).
Proof.
  intros Hy Hok. destruct (live_speech _ (demo_live_event _ _ Hy Hok)) as [_ Hw].
  unfold said, heard. rewrite Forall_forall in Hw. apply Forall_forall.
  intros m (x & -> & [_ Hx]%list_elem_of_filter)%list_elem_of_fmap.
  apply Hw. rewrite <- (take_drop (length (output (exchange y)))). apply elem_of_app. by right.
Qed.

(** A request, and everything the server sends the client because of it. *)
Lemma lifecycle_completes r y d n next out w :
  framed r → r.1 = Protocol.MessageHeader.mk Protocol.protocol_magic Protocol.protocol_version
    (Protocol.MessageHeader.type r.1) (u32 (Z.of_nat (length r.2))) (Protocol.MessageHeader.sequence_number r.1) →
  process w = y → unread w = [] → live y →
  (∃ session, sessions y !! peer = Some session ∧ Session.receive_buffer session = []) →
  (ServerDemo.handle (Receive peer (wire r)) y).1 = Ok tt → length (said r y) = n →
  ∃ w', ExchangeClient.lifecycle d (Protocol.MessageHeader.type r.1) r.2
      (Protocol.MessageHeader.sequence_number r.1) n next (out, w) =
      next (out ++ concat (ExchangeClient.printed <$> said r y), w') ∧
    process w' = (ServerDemo.handle (Receive peer (wire r)) y).2 ∧ unread w' = [] ∧
    sockets w' = sockets w.
Proof.
  intros Hr Hh Hy Hu Hlive (session & Hs & Hb) Hok Hn.
  assert (Forall well_formed (said r y)) as Hwf.
  { apply demo_said; [exact Hlive|exact Hok]. }
  assert (waiting r y 0 (process w)) as Hw.
  { rewrite Hy. split; [done|]. exists session. split_and!; [done|done|].
    change (take 0 (wire r)) with (@nil byte). rewrite <- Hb. destruct session. cbn. by rewrite insert_id. }
  assert (in_u64 (Z.of_nat (length (wire r)))) as Hl.
  { rewrite length_wire. destruct Hr as [_ Hm]. unfold maximum_body_size in Hm.
    unfold Protocol.header_size, in_u64. lia. }
  destruct (Connection.send_all_delivers (λ bytes, serve (Receive peer bytes)) (serve (Connect peer))
    (serve (Receive peer [])) cut_send cut_receive (wire r) (waiting r y) _ _
    (λ n' k' y', serve_part r y n' k' y' Hr) (λ n' y' H1 H2, serve_last r y n' y' H1 H2 Hok)
    (S (length (wire r))) d 0 w Hw) as (w1 & H1 & Hs1 & Hu1 & Hk1);
    [rewrite length_wire; unfold Protocol.header_size; lia|done|lia|].
  rewrite Hu in Hu1. cbn [app] in Hu1. rewrite <- (app_nil_r (concat _)) in Hu1.
  destruct (ExchangeClient.receive_and_print_reads Connection.reads client_recv_reads d (said r y) [] out w1 Hwf Hu1)
    as (w2 & H2 & Hu2 & Hs2 & Hk2).
  exists w2. unfold ExchangeClient.lifecycle, bind at 1, ExchangeClient.on_system. cbn [fst snd].
  assert (ExchangeClient.send_request d (Protocol.MessageHeader.type r.1) r.2
    (Protocol.MessageHeader.sequence_number r.1) w = (Ok true, w1)) as ->.
  { unfold ExchangeClient.send_request. rewrite <- Hh. exact H1. }
  cbn [negb]. unfold bind at 1. rewrite <- Hn, H2. cbn [negb].
  split_and!; [done|congruence|done|congruence].
Qed.
End link.
(** ** The dialogue *)

Definition ask (type : Z) (body : list byte) (sequence_number : Z) : Request :=
  (message_header type body sequence_number, body).

Definition asks : list Request :=
  [ask Protocol.MessageType.NewOrder (Protocol.encode_new_order ExchangeClient.aapl_order) 1;
   ask Protocol.MessageType.NewOrder (Protocol.encode_new_order ExchangeClient.msft_order) 2;
   ask Protocol.MessageType.ReplaceOrder (Protocol.encode_replace_order ExchangeClient.replace) 3;
   ask Protocol.MessageType.CancelOrder (Protocol.encode_cancel_order ExchangeClient.cancel) 4].

(* the server after the connection and [n] requests *)
Definition connected : System :=
  (ServerDemo.handle (Connect peer) (mkSystem ServerDemo.started ∅)).2.
Definition after (n : nat) : System :=
  ServerDemo.run_all ((λ r, Receive peer (wire r)) <$> take n asks) connected.

Definition lines (l : list string) : list byte := concat ((λ s, bytes_of s ++ [x0a]) <$> l).

Definition script : list string :=
  ["ORDER RESPONSE type=100 id=1 success=1"; "BOOK AAPL bid=none ask=105 x 10";
   "L3 ADD AAPL id=1 SELL 105 x 10";
   "ORDER RESPONSE type=100 id=1 success=1"; "BOOK MSFT bid=410 x 25 ask=none";
   "L3 ADD MSFT id=1 BUY 410 x 25";
   "ORDER RESPONSE type=103 id=1 success=1"; "BOOK AAPL bid=none ask=106 x 12";
   "L3 DELETE AAPL id=1"; "L3 ADD AAPL id=1 SELL 106 x 12";
   "ORDER RESPONSE type=102 id=1 success=1"; "BOOK AAPL bid=none ask=none";
   "L3 DELETE AAPL id=1";
   "Multi-symbol demo complete: AAPL lifecycle finished; MSFT order remains resting."]%string.
Definition transcript : list byte := lines script.

Lemma after_ready n r :
  (n < 4)%nat → asks !! n = Some r →
  framed r ∧ live (after n) ∧
  (∃ session, sessions (after n) !! peer = Some session ∧ Session.receive_buffer session = []) ∧
  (ServerDemo.handle (Receive peer (wire r)) (after n)).1 = Ok tt ∧
  (ServerDemo.handle (Receive peer (wire r)) (after n)).2 = after (S n).
Proof.
  assert (∀ n r, (n < 4)%nat → asks !! n = Some r →
    (ServerDemo.handle (Receive peer (wire r)) (after n)).1 = Ok tt ∧
    (ServerDemo.handle (Receive peer (wire r)) (after n)).2 = after (S n)) as Hstep.
  { intros m r' Hm Hr. split.
    - destruct m as [|[|[|[|m]]]]; [..|lia]; injection Hr as <-; vm_compute; reflexivity.
    - unfold after. rewrite (take_S_r _ _ r') by done.
      rewrite fmap_app. unfold ServerDemo.run_all. by rewrite foldl_app. }
  intros Hn Hr. split_and!; [| | |by apply Hstep..].
  - destruct n as [|[|[|[|n]]]]; [..|lia]; injection Hr as <-; by apply framed_request.
  - clear Hr. induction n as [|n IH].
    + apply demo_live_event; [|by vm_compute]. eapply live_start. exact ServerDemo.started_ok.
    + destruct (asks !! n) as [r'|] eqn:Hr'; [|apply lookup_ge_None in Hr'; simpl in Hr'; lia].
      destruct (Hstep n r' ltac:(lia) Hr') as [Hok <-]. apply demo_live_event; [|done]. apply IH. lia.
  - destruct n as [|[|[|[|n]]]]; [..|lia]; (destruct (sessions _ !! peer) as [session|] eqn:E;
      [|by vm_compute in E]); exists session; (split; [done|]);
      apply (f_equal (fmap Session.receive_buffer)) in E; vm_compute in E; by injection E.
Qed.

(** C34. The demonstration ends as it should.  The client of the repository, against a
    server with default limits, prints exactly its transcript of fourteen lines,
    the farewell of main included, and returns 0,
    however TCP cuts what either of them sends: every request is accepted and
    causes the 3, 3, 4 and 3 messages the client counts on, nothing is left
    unread, its socket is closed, and of its orders the one in MSFT rests. *)
Theorem demo_completes cut_send cut_receive :
  let system := linked cut_send cut_receive in
  let w := mk_link (mkSystem ServerDemo.started ∅) [] ∅ [] in
  ∃ w', ExchangeClient.main ([], w) = (Ok 0, (transcript, w')) ∧
    unread w' = [] ∧ sockets w' = ∅ ∧
    view_bids (views_of (exchange (process w')) "MSFT"%string) =
      [FeedReader.Entry.mk 1 2 410 25] ∧
    FeedReader.view_asks (views_of (exchange (process w')) "AAPL"%string) = [].
Proof.
  intros system w. unfold ExchangeClient.main.
  set (d := fresh_descriptor ∅).
  pose (w0 := mk_link connected [] {[d]} []).
  assert (ExchangeClient.connect_to_server ExchangeClient.port w = (Ok d, w0)) as Hc.
  { vm_compute. reflexivity. }
  unfold bind at 1, ExchangeClient.on_system at 1. cbn [fst snd]. rewrite Hc.
  assert ((d <? 0) = false) as -> by by vm_compute.
  assert (∀ n count printed r w out next, asks !! n = Some r →
      (length (said r (after n)), concat (ExchangeClient.printed <$> said r (after n))) = (count, printed) →
      process w = after n → unread w = [] →
    ∃ w', ExchangeClient.lifecycle d (Protocol.MessageHeader.type r.1) r.2
        (Protocol.MessageHeader.sequence_number r.1) count next (out, w) = next (out ++ printed, w') ∧
      process w' = after (S n) ∧ unread w' = [] ∧ sockets w' = sockets w) as Hstep.
  { intros n count printed r w1 out next Hr [= <- <-] Hs Hu. pose proof (lookup_lt_Some _ _ _ Hr) as Hn. simpl in Hn.
    destruct (after_ready n r Hn Hr) as (Hf & Hl & Hses & Hok & Hnext). rewrite <- Hnext.
    apply (lifecycle_completes cut_send cut_receive r (after n)); try done.
    by destruct n as [|[|[|[|n]]]]; [..|lia]; injection Hr as <-. }
  match goal with |- context [ExchangeClient.lifecycle d _ _ 1 3 ?next] => set (next1 := next) end.
  destruct (Hstep 0%nat 3%nat (lines (take 3 script)) (nth 0 asks (ask 0 [] 0)) w0 [] next1) as (w1 & E1 & Hs1 & Hu1 & Hk1);
    [done|vm_compute; reflexivity|done|done|]. cbn [app] in E1.
  match eval unfold next1 in next1 with
    ExchangeClient.lifecycle d _ _ 2 3 ?next => set (next2 := next) in * end.
  destruct (Hstep 1%nat 3%nat (lines (take 3 (drop 3 script))) (nth 1 asks (ask 0 [] 0)) w1 (lines (take 3 script)) next2)
    as (w2 & E2 & Hs2 & Hu2 & Hk2); [done|vm_compute; reflexivity|done|done|].
  match eval unfold next2 in next2 with
    ExchangeClient.lifecycle d _ _ 3 4 ?next => set (next3 := next) in * end.
  destruct (Hstep 2%nat 4%nat (lines (take 4 (drop 6 script))) (nth 2 asks (ask 0 [] 0)) w2 (lines (take 6 script)) next3)
    as (w3 & E3 & Hs3 & Hu3 & Hk3); [done|vm_compute; reflexivity|done|done|].
  match eval unfold next3 in next3 with
    ExchangeClient.lifecycle d _ _ 4 3 ?next => set (next4 := next) in * end.
  destruct (Hstep 3%nat 3%nat (lines (take 3 (drop 10 script))) (nth 3 asks (ask 0 [] 0)) w3 (lines (take 10 script)) next4)
    as (w4 & E4 & Hs4 & Hu4 & Hk4); [done|vm_compute; reflexivity|done|done|].
  clear Hstep. exists (sys_close d w4). split_and!.
  - etrans; [exact E1|]. etrans; [exact E2|]. etrans; [exact E3|]. etrans; [exact E4|]. reflexivity.
  - simpl. rewrite Hs4, Hu4. by vm_compute.
  - simpl. rewrite Hk4, Hk3, Hk2, Hk1. unfold w0. cbn [sockets]. set_solver.
  - simpl. rewrite Hs4. by vm_compute.
  - simpl. rewrite Hs4. by vm_compute.
Qed.

End ClientDialogue.
