(* ===== verification/FixDialogue.v ===== *)
(** * The FIX client, the FIX gateway and the server

    The peer of FixClient.v is here a session of the gateway, and behind it the
    exchange server: what the client sends is received by the gateway, what the
    gateway asks of the core is received by the server, what the server sends
    goes back through the gateway, and TCP cuts what the client sends and
    receives as it likes.  The dialogue of the client then ends as it says, on
    every cutting. *)
From Stdlib Require Import Strings.String QArith.
From S2P Require Import Prelude Types TradeBuffer BookSpec OrderBook Bytes Numerals Protocol Fix FixState FixGateway FixInvariant FixDemo ExchangeServer ServerDemo FeedReader ServerFeed Sockets ExchangeClient FixClient Connection.
#[global] Open Scope Z_scope.

Module FixDialogue.
Import ExchangeServer.
Import Connection (Link, mk_link, process, unread, sockets).
Import ExchangeClient (on_system).

(** ** The gateway and the server *)

(* a session of the gateway, and the server *)
Definition Parties : Type := Gateway.t Q * ExchangeServer.System.

(* the socket of the gateway's connection in the server *)
Definition peer : Z := 5.

Definition config : FixGatewayConfig.t := FixDemo.config.

(* what the gateway has sent since [g] *)
Definition news (g g' : Gateway.t Q) : list Transmission := drop (length (Gateway.sent g)) (Gateway.sent g').

Definition ask (bytes : list byte) (y : ExchangeServer.System) : ExchangeServer.System :=
  match bytes with [] => y | _ => (ServerDemo.handle (Receive peer bytes) y).2 end.

(* what the server says to the gateway *)
Definition answers (y y' : ExchangeServer.System) : list byte :=
  concat (ServerFeed.heard (Socket peer) (drop (length (output (exchange y))) (output (exchange y')))).

Definition has_core (g : Gateway.t Q) : bool := 0 <=? SessionContext.core_socket (Gateway.session g).

(* what follows the gateway's turn: its requests reach the server, and the
   server's messages the gateway; a session that ends closes its connections *)
Definition relay (g : Gateway.t Q) (y : ExchangeServer.System) (turn : res bool * Gateway.t Q)
    : Parties * list byte :=
  let '(r, g1) := turn in
  let y0 := if negb (has_core g) && has_core g1 then (ServerDemo.handle (Connect peer) y).2 else y in
  let y1 := ask (concat (to_core (news g g1))) y0 in
  let g2 := match answers y0 y1 with
            | [] => g1
            | said => (FixGateway.poll_turn config FixGateway.Silent (FixGateway.Received said) g1).2
            end in
  let y2 := match r with Ok true => y1 | _ => (ServerDemo.handle (Receive peer []) y1).2 end in
  (g2, y2, concat (to_client (news g g2))).

Definition deliver (bytes : list byte) (p : Parties) : Parties * list byte :=
  relay p.1 p.2 (FixGateway.poll_turn config (FixGateway.Received bytes) FixGateway.Silent p.1).

(* the gateway has accepted the client: [start] below *)
Definition connect (p : Parties) : Parties * list byte := (p, []).

Definition hang_up (p : Parties) : Parties * list byte := deliver [] p.

(** ** A message in pieces *)

(* the session with a part of a message in its buffer *)
Definition buffered (g : Gateway.t Q) (bytes : list byte) : Gateway.t Q :=
  match bytes with
  | [] => g
  | _ => Gateway.set_session
           (SessionContext.set_fix_receive_buffer bytes
              (SessionContext.set_last_fix_receive (steady_now g) (Gateway.session g))) g
  end.

(* nothing pending from the client, and neither a heartbeat nor a timeout due *)
Definition quiet (g : Gateway.t Q) : bool :=
  let s := Gateway.session g in
  bool_decide (SessionContext.fix_receive_buffer s = []) && negb (SessionContext.closing s) &&
  (negb (SessionContext.logged_on s) ||
   (5 - SessionContext.last_fix_send s <? FixGateway.seconds (SessionContext.heartbeat_seconds s)) &&
   (0 <? SessionContext.heartbeat_seconds s)).

Lemma buffered_fields g bytes :
  SessionContext.core_socket (Gateway.session (buffered g bytes)) =
    SessionContext.core_socket (Gateway.session g) ∧
  Gateway.sent (buffered g bytes) = Gateway.sent g.
Proof. by destruct bytes. Qed.

Lemma buffered_grows g bytes more :
  SessionContext.fix_receive_buffer (Gateway.session g) = [] → more ≠ [] →
  Gateway.set_session
    (SessionContext.set_fix_receive_buffer
       (SessionContext.fix_receive_buffer (Gateway.session (buffered g bytes)) ++ more)
       (SessionContext.set_last_fix_receive 5 (Gateway.session (buffered g bytes)))) (buffered g bytes) =
  buffered g (bytes ++ more).
Proof.
  intros Hb Hm. destruct bytes as [|b bytes].
  - cbn [buffered app]. rewrite Hb. cbn [app]. by destruct more.
  - done.
Qed.

(* a turn of the loop once the bytes of the client are in the buffer *)
Definition turn_rest (had_core : bool) : M (Gateway.t Q) bool :=
  s <- FixGateway.session ;;
  healthy <- FixGateway.fix_receive_loop config (S (length (SessionContext.fix_receive_buffer s))) ;;
  served <- FixGateway.serve_core config had_core FixGateway.Silent healthy ;;
  match served with
  | None => ret false
  | Some healthy =>
      healthy <- FixGateway.check_timers config healthy ;;
      s <- FixGateway.session ;;
      ret (healthy && negb (SessionContext.closing s))
  end.

Lemma turn_bytes g bytes more :
  SessionContext.fix_receive_buffer (Gateway.session g) = [] → more ≠ [] →
  FixGateway.poll_turn config (FixGateway.Received more) FixGateway.Silent (buffered g bytes) =
  turn_rest (has_core g) (buffered g (bytes ++ more)).
Proof.
  intros Hb Hm. rewrite <- (buffered_grows g bytes more Hb Hm).
  unfold has_core. rewrite <- (proj1 (buffered_fields g bytes)). by destruct more.
Qed.

Lemma check_timers_quiet g :
  SessionContext.last_fix_receive (Gateway.session g) = 5 →
  negb (SessionContext.logged_on (Gateway.session g)) ||
    (5 - SessionContext.last_fix_send (Gateway.session g) <?
       FixGateway.seconds (SessionContext.heartbeat_seconds (Gateway.session g))) &&
    (0 <? SessionContext.heartbeat_seconds (Gateway.session g)) = true →
  FixGateway.check_timers config true g = (Ok true, g).
Proof.
  intros Hr Ht. unfold FixGateway.check_timers, FixGateway.session, bind at 1.
  rewrite andb_true_r. destruct (SessionContext.logged_on (Gateway.session g)); [|done]. cbn [negb orb] in *.
  apply andb_true_iff in Ht as [H1%Z.ltb_lt H2%Z.ltb_lt].
  unfold bind, get. cbn [steady_now FixDemo.demo_world]. rewrite Hr.
  unfold FixGateway.seconds in *.
  destruct (Z.leb_spec (SessionContext.heartbeat_seconds (Gateway.session g) * 1000000000)
    (5 - SessionContext.last_fix_send (Gateway.session g))); [lia|]. unfold ret at 1.
  destruct (Z.leb_spec (SessionContext.heartbeat_seconds (Gateway.session g) * 1000000000 * 3) (5 - 5)); [lia|].
  done.
Qed.

(** Not the end of the message: the gateway waits. *)
Lemma turn_part g wire n k :
  Fix.Envelope wire → quiet g = true → (0 < k)%nat → (n + k < length wire)%nat →
  FixGateway.poll_turn config (FixGateway.Received (take k (drop n wire))) FixGateway.Silent
    (buffered g (take n wire)) = (Ok true, buffered g (take (n + k) wire)).
Proof.
  intros He Hq Hk Hn. unfold quiet in Hq. apply andb_true_iff in Hq as [Hq Htime].
  apply andb_true_iff in Hq as [Hb%bool_decide_eq_true Hc%negb_true_iff].
  set (more := take k (drop n wire)).
  assert (more ≠ []) as Hm.
  { intros E. apply (f_equal length) in E. unfold more in E. rewrite length_take, length_drop in E. simpl in E. lia. }
  assert (take n wire ++ more = take (n + k) wire) as Hcat by (unfold more; by rewrite take_take_drop).
  rewrite turn_bytes, Hcat by done.
  assert (Fix.extract_one (take (n + k) wire) = (Ok Fix.need_more_data, take (n + k) wire)) as Hx.
  { apply Fix.extract_partial. right. exists wire, (drop (n + k) wire). rewrite take_drop. split_and!; [done|done|].
    intros E. apply (f_equal length) in E. rewrite length_drop in E. simpl in E. lia. }
  assert (take (n + k) wire ≠ []) as Hne.
  { rewrite <- Hcat. by destruct (take n wire). }
  set (p := take (n + k) wire) in *. clearbody p. destruct p as [|b p]; [done|].
  unfold turn_rest. unfold bind at 1, FixGateway.session at 1. unfold bind at 1.
  cbn [FixGateway.fix_receive_loop buffered Gateway.session Gateway.set_session
    SessionContext.fix_receive_buffer SessionContext.set_fix_receive_buffer].
  unfold bind at 1, FixGateway.session at 1.
  cbn [Gateway.session Gateway.set_session SessionContext.fix_receive_buffer SessionContext.set_fix_receive_buffer].
  rewrite Hx. cbn [Fix.need_more_data Fix.ExtractResult.status]. unfold bind at 1, FixGateway.on_session, modify.
  unfold ret at 1. unfold FixGateway.serve_core, bind.
  match goal with |- context [(if ?c then ?x else ?x) ?st] =>
    replace ((if c then x else x) st) with (Ok (Some true), buffered g (b :: p)) by (by destruct c) end.
  rewrite check_timers_quiet; [|done|].
  - unfold FixGateway.session, ret. cbn [buffered Gateway.session Gateway.set_session SessionContext.closing
      SessionContext.set_fix_receive_buffer SessionContext.set_last_fix_receive]. by rewrite Hc.
  - exact Htime.
Qed.

(** The end of the message: as if it had come in one piece. *)
Lemma turn_last g wire n :
  quiet g = true → (n < length wire)%nat →
  FixGateway.poll_turn config (FixGateway.Received (drop n wire)) FixGateway.Silent
    (buffered g (take n wire)) =
  FixGateway.poll_turn config (FixGateway.Received wire) FixGateway.Silent g.
Proof.
  intros Hq Hn. unfold quiet in Hq. apply andb_true_iff in Hq as [Hq _].
  apply andb_true_iff in Hq as [Hb%bool_decide_eq_true _].
  assert (drop n wire ≠ []) as Hm.
  { intros E. apply (f_equal length) in E. rewrite length_drop in E. simpl in E. lia. }
  assert (wire ≠ []) as Hw by (intros ->; simpl in Hn; lia).
  rewrite turn_bytes, take_drop by done. symmetry. exact (turn_bytes g [] wire Hb Hw).
Qed.
(* the gateway has the first [n] bytes of the message, and nothing has come of it *)
Definition fed (wire : list byte) (p : Parties) (n : nat) (p' : Parties) : Prop :=
  p' = (buffered p.1 (take n wire), p.2).

Lemma relay_quiet g y bytes bytes' :
  relay (buffered g bytes) y (Ok true, buffered g bytes') = (buffered g bytes', y, []).
Proof.
  destruct (buffered_fields g bytes) as [Hc Hs], (buffered_fields g bytes') as [Hc' Hs'].
  unfold relay, news, has_core. rewrite Hc, Hc', Hs, Hs', drop_all. cbn [to_core to_client omap list_omap concat ask].
  rewrite andb_negb_l. unfold answers. rewrite drop_all. cbn [ServerFeed.heard filter list_filter fmap list_fmap concat].
  by rewrite Hs', drop_all.
Qed.

Lemma deliver_part wire p n k p' :
  Fix.Envelope wire → quiet p.1 = true → fed wire p n p' → (0 < k)%nat → (n + k < length wire)%nat →
  let '(p2, said) := deliver (take k (drop n wire)) p' in fed wire p (n + k) p2 ∧ said = [].
Proof.
  intros He Hq -> Hk Hn. unfold deliver. cbn [fst snd]. rewrite turn_part by done.
  rewrite relay_quiet. done.
Qed.

Lemma relay_buffered g y bytes turn : relay (buffered g bytes) y turn = relay g y turn.
Proof.
  destruct (buffered_fields g bytes) as [Hc Hs]. unfold relay, news, has_core. by rewrite Hc, Hs.
Qed.

Lemma deliver_last wire p n p' :
  quiet p.1 = true → fed wire p n p' → (n < length wire)%nat →
  deliver (drop n wire) p' = deliver wire p.
Proof.
  intros Hq -> Hn. unfold deliver. cbn [fst snd]. by rewrite turn_last, relay_buffered.
Qed.

Definition parses (wire : list byte) : bool :=
  match Fix.parse wire with
  | Ok r => match Fix.ParseResult.message r with Some _ => true | None => false end
  | Throw _ => false
  end.

Lemma parses_envelope wire :
  parses wire = true → Z.of_nat (length wire) < 2 ^ 64 → Fix.Envelope wire.
Proof.
  unfold parses. intros Hp Hl. destruct (Fix.parse_sound wire) as (r & Hr & _ & Hm). rewrite Hr in Hp.
  destruct (Fix.ParseResult.message r) as [m|] eqn:E; [|done].
  destruct (Hm m eq_refl) as (lead & body & Hf & _). by eapply Fix.frame_envelope.
Qed.

(** ** A message and its answer *)

Section link.
Context (cut_send cut_receive : Link Parties → Z).

#[local] Instance linked : Sockets.System (Link Parties) :=
  Connection.linked deliver connect hang_up cut_send cut_receive.
#[local] Instance linked_laws : SystemLaws (Link Parties) := Connection.linked_laws _ _ _ _ _.
#[local] Instance linked_reliable : Reliable (Link Parties) := Connection.linked_reliable _ _ _ _ _.

Lemma fix_recv_reads d size w : Connection.reads w (sys_recv d size w).2.
Proof. apply Connection.recv_reads. Qed.

(* the loop is that of the other client *)
Lemma send_all_loop_same fuel d wire total w :
  FixClient.send_all_loop fuel d wire total w = ExchangeClient.send_all_loop fuel d wire total w.
Proof.
  revert total w. induction fuel as [|fuel IH]; intros total w; [done|].
  cbn [FixClient.send_all_loop ExchangeClient.send_all_loop].
  destruct (negb _); [done|]. unfold bind. destruct (call _ _) as [[answer|e] w']; [|done].
  by destruct (_ <=? _).
Qed.

(* what the client prints of a message and its answer *)
Definition shown (wire reply : list byte) : list byte :=
  (ExchangeClient.text "C -> G  " ++ Fix.printable wire ++ ExchangeClient.newline) ++
  (ExchangeClient.text "G -> C  " ++ Fix.printable reply ++ ExchangeClient.newline ++ ExchangeClient.newline).

Lemma exchange_completes d build m (p p' : Parties) reply out (w : Link Parties) next :
  build w = (Ok m, w) → Fix.Envelope (Fix.encode m) → quiet p.1 = true →
  deliver (Fix.encode m) p = (p', reply) → Fix.Envelope reply →
  process w = p → unread w = [] →
  ∃ w', FixClient.exchange d build [] next (out, w) = next [] (out ++ shown (Fix.encode m) reply, w') ∧
    process w' = p' ∧ unread w' = [] ∧ sockets w' = sockets w.
Proof.
  intros Hb He Hq Hd Hr Hp Hu. set (wire := Fix.encode m) in *.
  assert (fed wire p 0 (process w)) as Hfed by (rewrite Hp; by destruct p).
  assert (0 < length wire)%nat as Hpos.
  { apply Fix.envelope_nonempty in He. destruct wire; [done|simpl; lia]. }
  assert (in_u64 (Z.of_nat (length wire))) as Hl.
  { destruct He as [? ? ? _ _ ?]. unfold in_u64. lia. }
  destruct (Connection.send_all_delivers deliver connect hang_up cut_send cut_receive wire (fed wire p) p' reply
    (λ n k p2, deliver_part wire p n k p2 He Hq)
    (λ n p2 H1 H2, eq_trans (deliver_last wire p n p2 Hq H1 H2) Hd)
    (S (length wire)) d 0 w Hfed) as (w1 & Hs1 & Hp1 & Hu1 & Hk1); [lia|done|lia|].
  change (ExchangeClient.send_all_loop (S (length wire)) d wire 0 w = (Ok true, w1)) in Hs1.
  rewrite Hu in Hu1. cbn [app] in Hu1.
  destruct (FixClient.receive_one_reads Connection.reads fix_recv_reads d reply w1 Hr Hu1)
    as (w2 & Hr2 & Hu2 & Hp2 & Hk2).
  exists w2. split_and!; [|congruence|done|congruence].
  unfold FixClient.exchange, bind at 1, ExchangeClient.on_system at 1. cbn [fst snd]. rewrite Hb.
  unfold FixClient.send_and_receive. fold wire. cbn zeta. unfold bind at 1.
  unfold bind at 1, FixClient.send_all, bind at 1, ExchangeClient.on_system at 1. cbn [fst snd].
  rewrite send_all_loop_same, Hs1. cbn [negb]. unfold bind at 1, ExchangeClient.print at 1, modify, ret at 1. cbn [fst snd negb].
  unfold bind at 1, ExchangeClient.on_system at 1. cbn [fst snd]. rewrite Hr2.
  unfold bind at 1, ExchangeClient.print at 1, modify, ret at 1. cbn [fst snd negb].
  unfold shown. by rewrite <- !(assoc_L (++)).
Qed.
End link.

(** ** The dialogue *)

Definition now : list byte := bytes_of "20250101-00:00:00.000".

Definition message_of (build : M unit Fix.Message.t) : Fix.Message.t :=
  match (build tt).1 with Ok m => m | Throw _ => Fix.Message.mk [] end.
Definition messages : list Fix.Message.t :=
  message_of <$> [FixClient.logon (λ _, now) 1; FixClient.new_order (λ _, now) 2;
    FixClient.replace (λ _, now) 3; FixClient.cancel (λ _, now) 4;
    FixClient.risk_reject (λ _, now) 5; FixClient.logout (λ _, now) 6].
Definition wires : list (list byte) := Fix.encode <$> messages.

(* the first session of a gateway that has just been constructed, its counters
   as in fix_gateway.hpp, in front of an exchange that has just started *)
Definition start : Parties :=
  (Gateway.mk (FixGateway.new_session config 6 0) (2 ^ 62) 1 [], mkSystem ServerDemo.started ∅).
Definition after (n : nat) : Parties := foldl (λ p bytes, (deliver bytes p).1) start (take n wires).
Definition reply (n : nat) : list byte := (deliver (nth n wires []) (after n)).2.

Definition script : list string := [
  "C -> G  8=FIX.4.4|9=73|35=A|34=1|49=FIXDEMO|56=EXCHANGELAB|52=20250101-00:00:00.000|98=0|108=30|10=249|";
  "G -> C  8=FIX.4.4|9=79|35=A|34=1|49=EXCHANGELAB|56=FIXDEMO|52=20250101-00:00:00.000|98=0|108=30|141=N|10=033|"; EmptyString;
  "C -> G  8=FIX.4.4|9=135|35=D|34=2|49=FIXDEMO|56=EXCHANGELAB|52=20250101-00:00:00.000|11=FIXDEMO-1|55=AAPL|54=1|38=10|40=2|44=100|59=1|60=20250101-00:00:00.000|10=091|";
  "G -> C  8=FIX.4.4|9=165|35=8|34=2|49=EXCHANGELAB|56=FIXDEMO|52=20250101-00:00:00.000|37=4611686018427387904|11=FIXDEMO-1|17=1|150=0|39=0|55=AAPL|54=1|38=10|40=2|44=100|59=1|14=0|151=10|6=0|10=147|"; EmptyString;
  "C -> G  8=FIX.4.4|9=148|35=G|34=3|49=FIXDEMO|56=EXCHANGELAB|52=20250101-00:00:00.000|11=FIXDEMO-2|41=FIXDEMO-1|55=AAPL|54=1|38=12|40=2|44=101|59=1|60=20250101-00:00:00.000|10=116|";
  "G -> C  8=FIX.4.4|9=178|35=8|34=3|49=EXCHANGELAB|56=FIXDEMO|52=20250101-00:00:00.000|37=4611686018427387904|11=FIXDEMO-2|41=FIXDEMO-1|17=2|150=5|39=0|55=AAPL|54=1|38=12|40=2|44=101|59=1|14=0|151=12|6=0|10=177|"; EmptyString;
  "C -> G  8=FIX.4.4|9=125|35=F|34=4|49=FIXDEMO|56=EXCHANGELAB|52=20250101-00:00:00.000|11=FIXDEMO-3|41=FIXDEMO-2|55=AAPL|54=1|60=20250101-00:00:00.000|10=124|";
  "G -> C  8=FIX.4.4|9=177|35=8|34=4|49=EXCHANGELAB|56=FIXDEMO|52=20250101-00:00:00.000|37=4611686018427387904|11=FIXDEMO-3|41=FIXDEMO-2|17=3|150=4|39=4|55=AAPL|54=1|38=12|40=2|44=101|59=1|14=0|151=0|6=0|10=132|"; EmptyString;
  "C -> G  8=FIX.4.4|9=142|35=D|34=5|49=FIXDEMO|56=EXCHANGELAB|52=20250101-00:00:00.000|11=FIXDEMO-RISK|55=MSFT|54=1|38=100001|40=2|44=410|59=1|60=20250101-00:00:00.000|10=069|";
  "G -> C  8=FIX.4.4|9=218|35=8|34=5|49=EXCHANGELAB|56=FIXDEMO|52=20250101-00:00:00.000|37=4611686018427387905|11=FIXDEMO-RISK|17=4|150=8|39=8|55=MSFT|54=1|38=100001|40=2|44=410|59=1|14=0|151=0|6=0|58=rejected by ExchangeLab core or risk engine|10=216|"; EmptyString;
  "C -> G  8=FIX.4.4|9=61|35=5|34=6|49=FIXDEMO|56=EXCHANGELAB|52=20250101-00:00:00.000|10=214|";
  "G -> C  8=FIX.4.4|9=61|35=5|34=6|49=EXCHANGELAB|56=FIXDEMO|52=20250101-00:00:00.000|10=214|"; EmptyString]%string.

Definition lines (l : list string) : list byte := concat ((λ s, bytes_of s ++ [x0a]) <$> l).
Definition exchange_lines (n : nat) : list byte := lines (take 3 (drop (3 * n) script)).

(* the message is short, the gateway ready, the answer a message, and both are
   printed as in the script *)
Definition stage_ok (n : nat) : bool :=
  let wire := nth n wires [] in
  (Z.of_nat (length wire) <? 2 ^ 64) && quiet (after n).1 && parses (reply n) &&
  (Z.of_nat (length (reply n)) <? 2 ^ 64) && bool_decide (shown wire (reply n) = exchange_lines n).

Lemma stages_ok : forallb stage_ok (seq 0 6) = true.
Proof. vm_compute. reflexivity. Qed.

Lemma stage n m :
  messages !! n = Some m →
  Fix.Envelope (Fix.encode m) ∧ quiet (after n).1 = true ∧ Fix.Envelope (reply n) ∧
  deliver (Fix.encode m) (after n) = (after (S n), reply n) ∧
  shown (Fix.encode m) (reply n) = exchange_lines n.
Proof.
  intros Hm. pose proof (lookup_lt_Some _ _ _ Hm) as Hn. change (length messages) with 6%nat in Hn.
  assert (wires !! n = Some (Fix.encode m)) as Hw by (unfold wires; by rewrite list_lookup_fmap, Hm).
  pose proof (nth_lookup_Some _ _ [] _ Hw) as Hwire.
  pose proof (proj1 (forallb_forall _ _) stages_ok n) as Hok. unfold stage_ok in Hok. rewrite Hwire in Hok.
  specialize (Hok (proj2 (in_seq 6 0 n) ltac:(lia))).
  do 4 (apply andb_true_iff in Hok as [Hok ?]).
  split; [by apply Fix.encode_envelope, Z.ltb_lt|]. split; [done|].
  split; [apply parses_envelope; [done|by apply Z.ltb_lt]|].
  split; [|by eapply bool_decide_eq_true_1].
  unfold reply, after. rewrite Hwire, (take_S_r wires n (Fix.encode m)) by done.
  rewrite foldl_app. cbn [foldl]. apply surjective_pairing.
Qed.

(* when the client has gone *)
Definition final : Parties := (hang_up (after 6)).1.

Lemma final_said : hang_up (after 6) = (final, []).
Proof. rewrite (surjective_pairing (hang_up (after 6))). f_equal. Qed.

Lemma final_views :
  ServerFeed.views_of (exchange final.2) "AAPL"%string = FeedReader.mk_view [] [] ∧
  ServerFeed.views_of (exchange final.2) "MSFT"%string = FeedReader.mk_view [] [] ∧
  client_sockets_ (exchange final.2) = [].
Proof. split_and!; vm_compute; reflexivity. Qed.


End FixDialogue.
