(* ===== verification/Sha1.v ===== *)
(** * The accept key of the websocket handshake (src/websocket_gateway.cpp)

    SHA-1 and base64 as the gateway computes them; the references are SHA-1 as
    FIPS 180-4 defines it ([Fips]) and the base64 decoder of RFC 4648
    ([decode_base64]). *)
From S2P Require Import Prelude Bytes Numerals Fix.

(* the bytes of a number, the most significant first *)
Definition be_bytes (n : nat) (z : Z) : list byte := reverse (le_bytes n z).

Definition be_value (bs : list byte) : Z := le_value (reverse bs).

(** ** SHA-1 as the standard defines it *)

Module Fips.
(* section 2.2.2: operations on 32-bit words *)
Definition complement (x : Z) : Z := u32 (Z.lnot x).
Definition ROTL (n x : Z) : Z := Z.lor (u32 (Z.shiftl x n)) (Z.shiftr x (32 - n)).

(* section 4.1.1: the functions, and 4.2.1: the constants *)
Definition Ch (x y z : Z) : Z := Z.lxor (Z.land x y) (Z.land (complement x) z).
Definition Parity (x y z : Z) : Z := Z.lxor (Z.lxor x y) z.
Definition Maj (x y z : Z) : Z := Z.lxor (Z.lxor (Z.land x y) (Z.land x z)) (Z.land y z).
Definition f (t : nat) : Z → Z → Z → Z :=
  if (t <? 20)%nat then Ch else if (t <? 40)%nat then Parity else if (t <? 60)%nat then Maj else Parity.
Definition K (t : nat) : Z :=
  be_value (byte_of_Z <$>
    (if (t <? 20)%nat then [90; 130; 121; 153] else if (t <? 40)%nat then [110; 217; 235; 161]
     else if (t <? 60)%nat then [143; 27; 188; 220] else [202; 98; 193; 214])).

(* section 5.1.1: the message, a one, the fewest zeros, its length in 64 bits *)
Definition pad (message : list byte) : list byte :=
  let zeros := Z.to_nat ((55 - Z.of_nat (length message)) `mod` 64) in
  message ++ [x80] ++ replicate zeros x00 ++ be_bytes 8 (8 * Z.of_nat (length message)).

(* section 5.2.1: sixteen words make a block *)
Definition block (message : list byte) (i : nat) : list Z :=
  (λ t, be_value (take 4 (drop (64 * i + 4 * t) message))) <$> seq 0 16.

(* section 6.1.2: the message schedule, extended word by word *)
Definition next_word (w : list Z) : Z :=
  let t := length w in
  ROTL 1 (Z.lxor (Z.lxor (Z.lxor (nth (t - 3) w 0) (nth (t - 8) w 0)) (nth (t - 14) w 0))
            (nth (t - 16) w 0)).
Definition schedule (m : list Z) (n : nat) : list Z := Nat.iter n (λ w, w ++ [next_word w]) m.

Definition H : Type := Z * Z * Z * Z * Z.

Definition round (w : list Z) (s : H) (t : nat) : H :=
  let '(a, b, c, d, e) := s in
  (u32 (ROTL 5 a + f t b c d + e + K t + nth t w 0), a, ROTL 30 b, c, d).

Definition hash_block (h : H) (m : list Z) : H :=
  let '(a, b, c, d, e) := foldl (round (schedule m 64)) h (seq 0 80) in
  let '(h0, h1, h2, h3, h4) := h in
  (u32 (a + h0), u32 (b + h1), u32 (c + h2), u32 (d + h3), u32 (e + h4)).

(* section 5.3.1 *)
Definition H0 : H := (0x67452301, 0xefcdab89, 0x98badcfe, 0x10325476, 0xc3d2e1f0).

Definition sha1 (message : list byte) : list byte :=
  let padded := pad message in
  let '(a, b, c, d, e) := foldl hash_block H0 (block padded <$> seq 0 (length padded / 64)) in
  be_bytes 4 a ++ be_bytes 4 b ++ be_bytes 4 c ++ be_bytes 4 d ++ be_bytes 4 e.
End Fips.

Module WebSocketKey.

(** ** SHA-1 *)

Definition rotate_left (value amount : Z) : Z :=
  Z.lor (u32 (Z.shiftl value amount)) (Z.shiftr value (32 - amount)).

(* the loop that pads with zeros: at most 64 of them *)
Fixpoint pad_zeros (fuel : nat) (message : list byte) : list byte :=
  match fuel with
  | O => message
  | S fuel' =>
      if negb (length message `mod` 64 =? 56)%nat then pad_zeros fuel' (message ++ [x00]) else message
  end.

Definition push_length (bit_length : Z) (message : list byte) : list byte :=
  foldl (λ message shift, message ++ [byte_of_Z (Z.land (Z.shiftr bit_length shift) 255)])
    message [56; 48; 40; 32; 24; 16; 8; 0].

Definition padded (input : list byte) : list byte :=
  let bit_length := u64 (u64 (Z.of_nat (length input)) * 8) in
  push_length bit_length (pad_zeros 64 (input ++ [x80])).

Definition byte_at (message : list byte) (offset : nat) : Z := Z_of_byte (nth offset message x00).

Definition word_at (message : list byte) (offset : nat) : Z :=
  Z.lor (Z.lor (Z.lor (Z.shiftl (byte_at message offset) 24)
                      (Z.shiftl (byte_at message (offset + 1)) 16))
               (Z.shiftl (byte_at message (offset + 2)) 8))
        (byte_at message (offset + 3)).

(* the array of 80 words of a chunk *)
Definition words_of (message : list byte) (chunk : nat) : list Z :=
  let words := foldl (λ words index, <[index := word_at message (chunk + index * 4)]> words)
                 (replicate 80 0) (seq 0 16) in
  foldl (λ words index,
      <[index := rotate_left
          (Z.lxor (Z.lxor (Z.lxor (nth (index - 3) words 0) (nth (index - 8) words 0))
                     (nth (index - 14) words 0)) (nth (index - 16) words 0)) 1]> words)
    words (seq 16 64).

Module Hash.
Record t : Type := mk { a : Z; b : Z; c : Z; d : Z; e : Z }.
End Hash.

(* function and constant of a round *)
Definition round_of (index : nat) (b c d : Z) : Z * Z :=
  if (index <? 20)%nat then (Z.lor (Z.land b c) (Z.land (u32 (Z.lnot b)) d), 1518500249)
  else if (index <? 40)%nat then (Z.lxor (Z.lxor b c) d, 1859775393)
  else if (index <? 60)%nat then (Z.lor (Z.lor (Z.land b c) (Z.land b d)) (Z.land c d), 2400959708)
  else (Z.lxor (Z.lxor b c) d, 3395469782).

Definition round_step (words : list Z) (s : Hash.t) (index : nat) : Hash.t :=
  let '(function, constant) := round_of index (Hash.b s) (Hash.c s) (Hash.d s) in
  let temporary := u32 (rotate_left (Hash.a s) 5 + function + Hash.e s + constant + nth index words 0) in
  Hash.mk temporary (Hash.a s) (rotate_left (Hash.b s) 30) (Hash.c s) (Hash.d s).

Definition process_chunk (message : list byte) (h : Hash.t) (chunk : nat) : Hash.t :=
  let s := foldl (round_step (words_of message chunk)) h (seq 0 80) in
  Hash.mk (u32 (Hash.a h + Hash.a s)) (u32 (Hash.b h + Hash.b s)) (u32 (Hash.c h + Hash.c s))
    (u32 (Hash.d h + Hash.d s)) (u32 (Hash.e h + Hash.e s)).

Definition initial_hash : Hash.t :=
  Hash.mk 1732584193 4023233417 2562383102 271733878 3285377520.

Definition digest_word (h : Z) : list byte :=
  [byte_of_Z (Z.land (Z.shiftr h 24) 255); byte_of_Z (Z.land (Z.shiftr h 16) 255);
   byte_of_Z (Z.land (Z.shiftr h 8) 255); byte_of_Z (Z.land h 255)].

Definition sha1 (input : list byte) : list byte :=
  let message := padded input in
  let h := foldl (process_chunk message) initial_hash
             ((λ i, i * 64)%nat <$> seq 0 ((length message + 63) / 64)) in
  digest_word (Hash.a h) ++ digest_word (Hash.b h) ++ digest_word (Hash.c h) ++
  digest_word (Hash.d h) ++ digest_word (Hash.e h).

(** ** base64 *)

Definition alphabet : list byte :=
  bytes_of "ABCDEFGHIJKLMNOPQRSTUVWXYZabcdefghijklmnopqrstuvwxyz0123456789+/".
Definition padding : byte := x3d.

Definition letter (combined shift : Z) : byte :=
  nth (Z.to_nat (Z.land (Z.shiftr combined shift) 63)) alphabet x00.

(* one turn of the loop: up to three bytes *)
Definition encode_group (first : byte) (second third : option byte) : list byte :=
  let combined := Z.lor (Z.lor (Z.shiftl (Z_of_byte first) 16)
                               (Z.shiftl (from_option Z_of_byte 0 second) 8))
                        (from_option Z_of_byte 0 third) in
  [letter combined 18; letter combined 12;
   match second with Some _ => letter combined 6 | None => padding end;
   match third with Some _ => letter combined 0 | None => padding end].

Fixpoint base64_encode (input : list byte) : list byte :=
  match input with
  | [] => []
  | [first] => encode_group first None None
  | [first; second] => encode_group first (Some second) None
  | first :: second :: third :: input' =>
      encode_group first (Some second) (Some third) ++ base64_encode input'
  end.

(** ** The key *)

Definition websocket_guid : list byte := bytes_of "258EAFA5-E914-47DA-95CA-C5AB0DC85B11".

Definition websocket_accept_key (client_key : list byte) : list byte :=
  base64_encode (sha1 (client_key ++ websocket_guid)).

(* the example of RFC 6455 *)
Example rfc_key :
  websocket_accept_key (bytes_of "dGhlIHNhbXBsZSBub25jZQ==") = bytes_of "s3pPLMBiTxaQ9kYGzzhZRbK+xOo=".
Proof. vm_compute. reflexivity. Qed.

(** ** The gateway's SHA-1 is the standard's *)

(** *** Padding *)

Lemma pad_zeros_spec k fuel m :
  (k ≤ fuel)%nat → (k < 64)%nat → ((length m + k) `mod` 64 = 56)%nat →
  pad_zeros fuel m = m ++ replicate k x00.
Proof.
  revert fuel m. induction k as [|k IH]; intros fuel m Hf Hk Hm.
  - rewrite Nat.add_0_r in Hm. simpl. rewrite (right_id_L [] (++)).
    destruct fuel; [done|]. cbn [pad_zeros]. by rewrite Hm.
  - destruct fuel as [|fuel]; [lia|]. cbn [pad_zeros].
    destruct (Nat.eqb_spec (length m `mod` 64) 56) as [Heq|Hne]; cbn [negb].
    + exfalso. pose proof (Nat.div_mod_eq (length m) 64) as H1.
      pose proof (Nat.div_mod_eq (length m + S k) 64) as H2. rewrite Heq in H1. rewrite Hm in H2.
      revert H1 H2. generalize (length m / 64)%nat ((length m + S k) / 64)%nat. lia.
    + rewrite IH; [|lia|lia|rewrite length_app; cbn [length];
        by replace (length m + 1 + k)%nat with (length m + S k)%nat by lia].
      by rewrite <- (assoc_L (++)).
Qed.

Lemma push_length_spec n m : push_length n m = m ++ be_bytes 8 n.
Proof.
  unfold push_length, be_bytes. rewrite le_bytes_shifts. cbn [foldl]. rewrite <- !(assoc_L (++)).
  reflexivity.
Qed.

Lemma padded_spec input : padded input = Fips.pad input.
Proof.
  unfold padded, Fips.pad. rewrite push_length_spec.
  set (k := Z.to_nat ((55 - Z.of_nat (length input)) `mod` 64)).
  assert (k < 64 ∧ (length input + 1 + k) `mod` 64 = 56)%nat as [Hk Hm].
  { unfold k. pose proof (Z.mod_pos_bound (55 - Z.of_nat (length input)) 64). split; [lia|].
    apply Nat2Z.inj. rewrite Nat2Z.inj_mod, !Nat2Z.inj_add, Z2Nat.id by lia.
    change (Z.of_nat 64) with 64. rewrite Zplus_mod_idemp_r.
    replace (Z.of_nat (length input) + Z.of_nat 1 + (55 - Z.of_nat (length input))) with 56 by lia. done. }
  rewrite (pad_zeros_spec k); [|lia|lia|by rewrite length_app].
  rewrite <- !(assoc_L (++)). do 3 f_equal.
  unfold be_bytes. rewrite <- (le_bytes_mod 8 (8 * _)). do 2 f_equal.
  change (256 ^ Z.of_nat 8) with (2 ^ 64). unfold u64. rewrite Zmult_mod_idemp_l. f_equal. lia.
Qed.

Lemma pad_length input : ((length (Fips.pad input)) `mod` 64 = 0)%nat.
Proof.
  unfold Fips.pad, be_bytes. rewrite !length_app, length_replicate, length_reverse, length_le_bytes.
  set (n := Z.of_nat (length input)). cbn [length].
  apply Nat2Z.inj. rewrite Nat2Z.inj_mod, !Nat2Z.inj_add. fold n.
  pose proof (Z.mod_pos_bound (55 - n) 64). rewrite Z2Nat.id by lia.
  change (Z.of_nat 64) with 64. rewrite (Z.add_comm ((55 - n) `mod` 64)), !Z.add_assoc, Zplus_mod_idemp_r.
  replace (n + Z.of_nat 1 + Z.of_nat 8 + (55 - n)) with 64 by lia. done.
Qed.

(** *** Words *)

Lemma lor_high a b k : 0 ≤ k → 0 ≤ b < 2 ^ k → Z.lor (Z.shiftl a k) b = a * 2 ^ k + b.
Proof. intros Hk Hb. rewrite Z.lor_comm, lor_disjoint by done. lia. Qed.

Lemma shift_join a b k : 0 ≤ k → 0 ≤ b < 256 →
  Z.lor (Z.shiftl a (k + 8)) (Z.shiftl b k) = Z.shiftl (a * 256 + b) k.
Proof.
  intros Hk Hb. rewrite Z.add_comm, <- Z.shiftl_shiftl, <- Z.shiftl_lor by lia. by rewrite lor_high.
Qed.

Lemma word_at_spec m o :
  (o + 4 ≤ length m)%nat → word_at m o = be_value (take 4 (drop o m)).
Proof.
  intros Ho. unfold word_at, byte_at.
  assert (take 4 (drop o m) = [nth o m x00; nth (o + 1) m x00; nth (o + 2) m x00; nth (o + 3) m x00]) as ->.
  { rewrite !(nth_lookup _ _ x00). apply list_eq. intros i.
    destruct (decide (i < 4)%nat) as [Hi|Hi].
    - rewrite lookup_take by done. rewrite lookup_drop.
      destruct (lookup_lt_is_Some_2 m (o + i)) as [x Hx]; [lia|]. rewrite Hx.
      do 4 (destruct i as [|i]; [rewrite ?Nat.add_0_r in *; by rewrite Hx|]). lia.
    - rewrite lookup_take_ge by lia. symmetry. apply lookup_ge_None. simpl. lia. }
  generalize (nth o m x00) (nth (o + 1) m x00) (nth (o + 2) m x00) (nth (o + 3) m x00). intros b0 b1 b2 b3.
  pose proof (Z_of_byte_range b0). pose proof (Z_of_byte_range b1).
  pose proof (Z_of_byte_range b2). pose proof (Z_of_byte_range b3).
  change (reverse [b0; b1; b2; b3]) with [b3; b2; b1; b0]. unfold be_value. cbn.
  rewrite (shift_join _ _ 16), (shift_join _ _ 8) by lia. rewrite lor_high by lia. lia.
Qed.

Lemma insert_next (l : list Z) n x :
  <[length l := x]> (l ++ replicate (S n) 0) = (l ++ [x]) ++ replicate n 0.
Proof. rewrite insert_app_r_alt, Nat.sub_diag by done. by rewrite <- (assoc_L (++)). Qed.

Lemma first_words (g : nat → Z) n k :
  foldl (λ words index, <[index := g index]> words) (replicate (n + k) 0) (seq 0 n) =
  (g <$> seq 0 n) ++ replicate k 0.
Proof.
  revert k. induction n as [|n IH]; intros k; [done|].
  rewrite seq_S, foldl_app, fmap_app. rewrite Nat.add_succ_comm, IH. cbn [foldl fmap list_fmap].
  rewrite <- (length_seq n 0) at 1. rewrite <- (length_fmap g). simpl (0 + n)%nat. apply insert_next.
Qed.

Lemma schedule_S m n : Fips.schedule m (S n) = Fips.schedule m n ++ [Fips.next_word (Fips.schedule m n)].
Proof. done. Qed.

Lemma length_schedule m n : length (Fips.schedule m n) = (length m + n)%nat.
Proof.
  induction n as [|n IH]; [simpl; lia|]. rewrite schedule_S, length_app, IH. simpl. lia.
Qed.

Lemma schedule_words m n k : length m = 16%nat →
  foldl (λ words index,
      <[index := rotate_left
          (Z.lxor (Z.lxor (Z.lxor (nth (index - 3) words 0) (nth (index - 8) words 0))
                     (nth (index - 14) words 0)) (nth (index - 16) words 0)) 1]> words)
    (m ++ replicate (n + k) 0) (seq 16 n) = Fips.schedule m n ++ replicate k 0.
Proof.
  intros Hm. revert k. induction n as [|n IH]; intros k; [done|].
  rewrite seq_S, foldl_app, Nat.add_succ_comm, IH. cbn [foldl].
  assert (16 + n = length (Fips.schedule m n))%nat as Hlen by (rewrite length_schedule; lia).
  rewrite Hlen. rewrite !app_nth1 by lia. rewrite insert_next.
  by rewrite schedule_S.
Qed.

Lemma words_spec m i : (64 * i + 64 ≤ length m)%nat →
  words_of m (i * 64) = Fips.schedule (Fips.block m i) 64.
Proof.
  intros Hi. unfold words_of. change (replicate 80 0) with (replicate (16 + 64) 0).
  rewrite (first_words (λ index, word_at m (i * 64 + index * 4)) 16 64).
  replace ((λ index, word_at m (i * 64 + index * 4)) <$> seq 0 16) with (Fips.block m i).
  - etrans; [exact (schedule_words (Fips.block m i) 64 0 eq_refl)|]. apply (right_id_L [] (++)).
  - unfold Fips.block. apply list_fmap_ext. intros j t Ht. apply lookup_seq in Ht as [-> Ht].
    rewrite word_at_spec by lia. do 3 f_equal. lia.
Qed.

(** *** Rounds *)

Lemma choice_words b c d : Z.lor (Z.land b c) (Z.land (u32 (Z.lnot b)) d) = Fips.Ch b c d.
Proof.
  unfold Fips.Ch, Fips.complement, u32. rewrite <- Z.land_ones by lia.
  apply Z.bits_inj'. intros n Hn. rewrite ?Z.lor_spec, ?Z.lxor_spec, ?Z.land_spec, Z.lnot_spec by done.
  by destruct (Z.testbit b n), (Z.testbit c n), (Z.testbit d n), (Z.testbit (Z.ones 32) n).
Qed.

Lemma majority_words b c d :
  Z.lor (Z.lor (Z.land b c) (Z.land b d)) (Z.land c d) = Fips.Maj b c d.
Proof.
  apply Z.bits_inj'. intros n Hn. unfold Fips.Maj.
  rewrite ?Z.lor_spec, ?Z.lxor_spec, ?Z.land_spec.
  by destruct (Z.testbit b n), (Z.testbit c n), (Z.testbit d n).
Qed.

Lemma round_of_spec t b c d : round_of t b c d = (Fips.f t b c d, Fips.K t).
Proof.
  unfold round_of, Fips.f, Fips.K. rewrite choice_words, majority_words.
  repeat case_match; f_equal; vm_compute; done.
Qed.

Definition tuple (h : Hash.t) : Fips.H := (Hash.a h, Hash.b h, Hash.c h, Hash.d h, Hash.e h).

Lemma round_spec w s t : tuple (round_step w s t) = Fips.round w (tuple s) t.
Proof. unfold round_step. by rewrite round_of_spec. Qed.

Lemma rounds_spec w ts s : tuple (foldl (round_step w) s ts) = foldl (Fips.round w) (tuple s) ts.
Proof. revert s. induction ts as [|t ts IH]; intros s; [done|]. cbn [foldl]. by rewrite IH, round_spec. Qed.

Lemma chunk_spec m h i : (64 * i + 64 ≤ length m)%nat →
  tuple (process_chunk m h (i * 64)) = Fips.hash_block (tuple h) (Fips.block m i).
Proof.
  intros Hi. unfold process_chunk, Fips.hash_block. rewrite words_spec by done.
  rewrite <- rounds_spec. generalize (foldl (round_step (Fips.schedule (Fips.block m i) 64)) h (seq 0 80)).
  intros [a b c d e]. destruct h as [h0 h1 h2 h3 h4]. cbn [tuple Hash.a Hash.b Hash.c Hash.d Hash.e].
  by rewrite (Z.add_comm a), (Z.add_comm b), (Z.add_comm c), (Z.add_comm d), (Z.add_comm e).
Qed.

Lemma chunks_spec m n h : (64 * n ≤ length m)%nat →
  tuple (foldl (process_chunk m) h ((λ i, i * 64)%nat <$> seq 0 n)) =
  foldl Fips.hash_block (tuple h) (Fips.block m <$> seq 0 n).
Proof.
  intros Hn. induction n as [|n IH]; [done|].
  rewrite seq_S, !fmap_app, !foldl_app, <- IH by lia. cbn [foldl fmap list_fmap].
  by rewrite chunk_spec by lia.
Qed.

Lemma digest_word_spec h : digest_word h = be_bytes 4 h.
Proof. unfold be_bytes. by rewrite le_bytes_shifts. Qed.

Lemma sha1_spec input : sha1 input = Fips.sha1 input.
Proof.
  unfold sha1, Fips.sha1. rewrite padded_spec. cbv zeta.
  set (m := Fips.pad input). pose proof (pad_length input) as Hm. fold m in Hm.
  pose proof (Nat.div_mod_eq (length m) 64) as Hdiv. rewrite Hm, Nat.add_0_r in Hdiv.
  assert ((length m + 63) / 64 = length m / 64)%nat as ->.
  { rewrite Hdiv at 1. rewrite Nat.mul_comm, Nat.add_comm, Nat.div_add by lia. done. }
  set (h := foldl (process_chunk m) _ _).
  assert (tuple h = foldl Fips.hash_block Fips.H0 (Fips.block m <$> seq 0 (length m / 64))) as <-.
  { unfold h. rewrite chunks_spec by lia. done. }
  unfold tuple. by rewrite !digest_word_spec.
Qed.

(** ** The base64 decoder of RFC 4648 inverts the encoder *)

Definition letter_value (c : byte) : option Z := Z.of_nat <$> Text.index_of c alphabet.

(* the bytes of a number of 24 bits *)
Definition three_bytes (n : Z) : list byte :=
  [byte_of_Z (n / 65536); byte_of_Z ((n / 256) `mod` 256); byte_of_Z (n `mod` 256)].

(* groups of four letters; padding ends the text, over bits that are zero *)
Fixpoint decode_base64 (text : list byte) : option (list byte) :=
  match text with
  | [] => Some []
  | c0 :: c1 :: c2 :: c3 :: text' =>
      v0 ← letter_value c0; v1 ← letter_value c1;
      if bool_decide (c3 = padding) then
        guard (text' = []);;
        if bool_decide (c2 = padding) then
          guard (v1 `mod` 16 = 0);; Some (take 1 (three_bytes (v0 * 262144 + v1 * 4096)))
        else
          v2 ← letter_value c2;
          guard (v2 `mod` 4 = 0);;
          Some (take 2 (three_bytes (v0 * 262144 + v1 * 4096 + v2 * 64)))
      else
        v2 ← letter_value c2; v3 ← letter_value c3;
        bytes ← decode_base64 text';
        Some (three_bytes (v0 * 262144 + v1 * 4096 + v2 * 64 + v3) ++ bytes)
  | _ => None
  end.

Lemma letter_range combined shift : 0 ≤ combined → 0 ≤ shift →
  letter_value (letter combined shift) = Some ((combined / 2 ^ shift) `mod` 64) ∧
  letter combined shift ≠ padding.
Proof.
  intros Hc Hs. unfold letter. rewrite Z.shiftr_div_pow2 by done. change 63 with (Z.ones 6).
  rewrite Z.land_ones by done. change (2 ^ 6) with 64.
  set (v := (combined / 2 ^ shift) `mod` 64). assert (0 ≤ v < 64) as Hv by (apply Z.mod_pos_bound; lia).
  assert (Forall (λ i, letter_value (nth i alphabet x00) = Some (Z.of_nat i) ∧ nth i alphabet x00 ≠ padding)
    (seq 0 64)) as Hall by (refine (bool_decide_eq_true_1 _ _); vm_compute; reflexivity).
  rewrite Forall_forall in Hall. specialize (Hall (Z.to_nat v)). rewrite Z2Nat.id in Hall by lia.
  apply Hall, elem_of_seq. lia.
Qed.

Lemma combined_value a b c :
  Z.lor (Z.lor (Z.shiftl (Z_of_byte a) 16) (Z.shiftl (from_option Z_of_byte 0 b) 8)) (from_option Z_of_byte 0 c) =
  Z_of_byte a * 65536 + from_option Z_of_byte 0 b * 256 + from_option Z_of_byte 0 c.
Proof.
  assert (∀ o, 0 ≤ from_option Z_of_byte 0 o < 256) as Hr.
  { intros [o|]; simpl; [apply Z_of_byte_range|lia]. }
  pose proof (Hr b). pose proof (Hr c).
  rewrite (shift_join _ _ 8), lor_high by lia. lia.
Qed.

Lemma three_bytes_value a b c n :
  n = Z_of_byte a * 65536 + Z_of_byte b * 256 + Z_of_byte c → three_bytes n = [a; b; c].
Proof.
  intros ->. pose proof (Z_of_byte_range a). pose proof (Z_of_byte_range b). pose proof (Z_of_byte_range c).
  set (n := Z_of_byte a * 65536 + Z_of_byte b * 256 + Z_of_byte c).
  assert (n / 65536 = Z_of_byte a ∧ (n / 256) `mod` 256 = Z_of_byte b ∧ n `mod` 256 = Z_of_byte c)
    as (Ea & Eb & Ec) by (unfold n; Z.to_euclidean_division_equations; lia).
  unfold three_bytes. rewrite Ea, Eb, Ec. by rewrite !byte_of_Z_of_byte.
Qed.

Lemma sextets n : 0 ≤ n < 2 ^ 24 →
  (n / 2 ^ 18) `mod` 64 * 262144 + (n / 2 ^ 12) `mod` 64 * 4096 + (n / 2 ^ 6) `mod` 64 * 64 + n `mod` 64 = n.
Proof.
  intros Hn. change (2 ^ 18) with 262144. change (2 ^ 12) with 4096. change (2 ^ 6) with 64.
  Z.to_euclidean_division_equations; lia.
Qed.

(* the letters of a group, as numbers *)
Lemma group_letters a b c :
  let n := Z_of_byte a * 65536 + Z_of_byte b * 256 + Z_of_byte c in
  let l := letter n in
  letter_value (l 18) = Some ((n / 2 ^ 18) `mod` 64) ∧ letter_value (l 12) = Some ((n / 2 ^ 12) `mod` 64) ∧
  letter_value (l 6) = Some ((n / 2 ^ 6) `mod` 64) ∧ l 6 ≠ padding ∧
  letter_value (l 0) = Some (n `mod` 64) ∧ l 0 ≠ padding ∧ 0 ≤ n < 2 ^ 24.
Proof.
  intros n l. pose proof (Z_of_byte_range a). pose proof (Z_of_byte_range b). pose proof (Z_of_byte_range c).
  assert (0 ≤ n < 2 ^ 24) as Hn by (unfold n; lia).
  destruct (letter_range n 18) as [H18 _]; [lia..|]. destruct (letter_range n 12) as [H12 _]; [lia..|].
  destruct (letter_range n 6) as [H6 N6]; [lia..|]. destruct (letter_range n 0) as [L0 N0]; [lia..|].
  rewrite Z.div_1_r in L0.
  exact (conj H18 (conj H12 (conj H6 (conj N6 (conj L0 (conj N0 Hn)))))).
Qed.

Lemma decode_three a b c rest :
  decode_base64 (encode_group a (Some b) (Some c) ++ rest) =
  bytes ← decode_base64 rest; Some ([a; b; c] ++ bytes).
Proof.
  unfold encode_group. rewrite combined_value. cbn [from_option].
  destruct (group_letters a b c) as (H18 & H12 & H6 & N6 & H0 & N0 & Hn).
  cbn [app decode_base64]. rewrite H18, H12, H6, H0. cbn [mbind option_bind].
  rewrite bool_decide_false by done. rewrite sextets by done.
  by rewrite (three_bytes_value a b c).
Qed.

Lemma decode_two a b : decode_base64 (encode_group a (Some b) None) = Some [a; b].
Proof.
  unfold encode_group. rewrite combined_value. cbn [from_option].
  destruct (group_letters a b x00) as (H18 & H12 & H6 & N6 & _ & _ & Hn).
  change (Z_of_byte x00) with 0 in *. set (n := Z_of_byte a * 65536 + Z_of_byte b * 256 + 0) in *.
  assert (n `mod` 256 = 0) as Hz by (unfold n; Z.to_euclidean_division_equations; lia).
  pose proof (sextets n Hn) as Hs.
  assert (n `mod` 64 = 0 ∧ ((n / 2 ^ 6) `mod` 64) `mod` 4 = 0) as [Hz1 Hz2]
    by (change (2 ^ 6) with 64; Z.to_euclidean_division_equations; lia).
  cbn [app decode_base64]. rewrite H18, H12. cbn [mbind option_bind].
  rewrite bool_decide_true, (bool_decide_false (letter n 6 = padding)) by done.
  case_guard; [|done]. cbn [mbind option_bind]. rewrite H6. cbn [mbind option_bind].
  case_guard; [|done]. cbn [mbind option_bind].
  rewrite Hz1, Z.add_0_r in Hs. rewrite Hs. by rewrite (three_bytes_value a b x00).
Qed.

Lemma decode_one a : decode_base64 (encode_group a None None) = Some [a].
Proof.
  unfold encode_group. rewrite combined_value. cbn [from_option].
  destruct (group_letters a x00 x00) as (H18 & H12 & _ & _ & _ & _ & Hn).
  change (Z_of_byte x00) with 0 in *. set (n := Z_of_byte a * 65536 + 0 * 256 + 0) in *.
  assert (n `mod` 65536 = 0) as Hz by (unfold n; Z.to_euclidean_division_equations; lia).
  pose proof (sextets n Hn) as Hs.
  assert (n `mod` 64 = 0 ∧ (n / 2 ^ 6) `mod` 64 = 0 ∧ ((n / 2 ^ 12) `mod` 64) `mod` 16 = 0) as (Hz1 & Hz2 & Hz3)
    by (change (2 ^ 6) with 64; change (2 ^ 12) with 4096; Z.to_euclidean_division_equations; lia).
  cbn [app decode_base64]. rewrite H18, H12. cbn [mbind option_bind].
  rewrite !bool_decide_true by done. case_guard; [|done]. cbn [mbind option_bind].
  case_guard; [|done]. cbn [mbind option_bind].
  rewrite Hz1, Hz2, !Z.add_0_r in Hs. rewrite Hs. by rewrite (three_bytes_value a x00 x00).
Qed.

Lemma base64_roundtrip input : decode_base64 (base64_encode input) = Some input.
Proof.
  induction input as [input IH] using (induction_ltof1 _ length); unfold ltof in IH.
  destruct input as [|a [|b [|c input]]]; [done|apply decode_one|apply decode_two|].
  cbn [base64_encode]. rewrite decode_three, IH by (simpl; lia). done.
Qed.

Lemma base64_length input :
  length (base64_encode input) = (4 * ((length input + 2) / 3))%nat.
Proof.
  induction input as [input IH] using (induction_ltof1 _ length); unfold ltof in IH.
  destruct input as [|a [|b [|c input]]]; [done..|].
  cbn [base64_encode]. rewrite length_app, IH by (simpl; lia). cbn [encode_group length].
  replace (S (S (S (length input))) + 2)%nat with (length input + 2 + 1 * 3)%nat by lia.
  rewrite Nat.div_add by lia. lia.
Qed.

(** ** Correctness *)

(** C28. The key a client is answered is what RFC 6455 asks for: the base64 text,
    of 28 characters, of the SHA-1 digest of its key followed by the
    protocol's identifier.  SHA-1 is the algorithm of FIPS 180-4: the
    padding loop, the byte-wise assembly of words, the array of 80 words and
    the rounds compute the standard's function on every input. *)
Theorem accept_key_exact client_key :
  decode_base64 (websocket_accept_key client_key) = Some (Fips.sha1 (client_key ++ websocket_guid)) ∧
  length (websocket_accept_key client_key) = 28%nat.
Proof.
  unfold websocket_accept_key. rewrite base64_roundtrip, base64_length, sha1_spec. split; [done|].
  unfold Fips.sha1. destruct (foldl _ _ _) as [[[[a b] c] d] e]. unfold be_bytes.
  by rewrite !length_app, !length_reverse, !length_le_bytes.
Qed.
End WebSocketKey.
