(* ===== verification/WebSocket.v ===== *)
(** * The websocket gateway (src/websocket_gateway.cpp)

    The handshake, the frames, market data as JSON, and what reaches the
    clients.  A state is the list of connected clients and the bytes sent to
    each so far; the three threads of the gateway take the mutex for each
    broadcast, so that a run is a sequence of their steps. *)
From S2P Require Import Prelude Bytes Numerals Protocol Fix Json Sha1.

Definition crlf : list byte := [x0d; x0a].

Module WebSocketGateway.

(** ** The request of a client *)

(* std::getline until the stream ends *)
Fixpoint getlines (text : list byte) : list (list byte) :=
  match text with
  | [] => []
  | c :: text' =>
      if bool_decide (c = x0a) then [] :: getlines text'
      else match getlines text' with
           | [] => [[c]]
           | line :: lines => (c :: line) :: lines
           end
  end.

Definition strip_return (line : list byte) : list byte :=
  if bool_decide (last line = Some x0d) then removelast line else line.

Fixpoint skip_blanks (text : list byte) : list byte :=
  match text with
  | c :: text' => if bool_decide (c = x20) || bool_decide (c = x09) then skip_blanks text' else text
  | [] => []
  end.

(* the value, when the line is a header of that name *)
Definition value_in_line (header_name line : list byte) : option (list byte) :=
  let line := strip_return line in
  match Text.find x3a 0 line with
  | None => None
  | Some colon =>
      if bool_decide (take colon line = header_name) then Some (skip_blanks (drop (colon + 1) line))
      else None
  end.

Fixpoint find_header (header_name : list byte) (lines : list (list byte)) : option (list byte) :=
  match lines with
  | [] => None
  | line :: lines' =>
      match value_in_line header_name line with
      | Some value => Some value
      | None => find_header header_name lines'
      end
  end.

Definition header_value (request header_name : list byte) : option (list byte) :=
  find_header header_name (getlines request).

(** ** The handshake *)

(* a client that sends nothing more keeps the gateway waiting *)
Inductive Handshake : Type := Waiting | Failed | Responded (response : list byte).

(* the loop of recv: an empty chunk is the end of the connection, or an error *)
Fixpoint receive_request (received : list (list byte)) (request : list byte) : list byte + Handshake :=
  if bool_decide (is_Some (Text.find_text (crlf ++ crlf) request)) then inl request
  else
    match received with
    | [] => inr Waiting
    | [] :: _ => inr Failed
    | chunk :: received' =>
        let request := request ++ chunk in
        if 16 * 1024 <? Z.of_nat (length request) then inr Failed
        else receive_request received' request
    end.

Definition key_header : list byte := bytes_of "Sec-WebSocket-Key".

Definition handshake_response (accept_key : list byte) : list byte :=
  bytes_of "HTTP/1.1 101 Switching Protocols" ++ crlf ++
  bytes_of "Upgrade: websocket" ++ crlf ++
  bytes_of "Connection: Upgrade" ++ crlf ++
  bytes_of "Sec-WebSocket-Accept: " ++ accept_key ++ crlf ++ crlf.

(* before the response is sent *)
Definition perform_handshake (received : list (list byte)) : Handshake :=
  match receive_request received [] with
  | inr outcome => outcome
  | inl request =>
      match header_value request key_header with
      | None => Failed
      | Some key => Responded (handshake_response (WebSocketKey.websocket_accept_key key))
      end
  end.

(** ** Frames *)

Definition websocket_text_frame (text : list byte) : list byte :=
  let length_ := Z.of_nat (length text) in
  [x81] ++
  (if length_ <=? 125 then [byte_of_Z length_]
   else if length_ <=? 65535 then
     [byte_of_Z 126; byte_of_Z (Z.land (Z.shiftr length_ 8) 255); byte_of_Z (Z.land length_ 255)]
   else
     byte_of_Z 127 ::
     ((λ shift, byte_of_Z (Z.land (Z.shiftr length_ shift) 255)) <$> [56; 48; 40; 32; 24; 16; 8; 0])) ++
  text.

(** ** Market data as JSON *)

Definition symbol_bytes (symbol : Protocol.Symbol) : list byte :=
  bytes_of (Protocol.symbol_to_string symbol).
Definition book_json (u : Protocol.BookUpdate.t) : list byte :=
  object [("type"%string, quoted "book");
          ("symbol"%string, json_text (symbol_bytes (Protocol.BookUpdate.symbol u)));
          ("sequence"%string, to_string (Protocol.BookUpdate.sequence_number u));
          ("hasBid"%string, json_bool (negb (Protocol.BookUpdate.has_bid u =? 0)));
          ("bestBid"%string, to_string (Protocol.BookUpdate.best_bid u));
          ("bidQuantity"%string, to_string (Protocol.BookUpdate.bid_quantity u));
          ("hasAsk"%string, json_bool (negb (Protocol.BookUpdate.has_ask u =? 0)));
          ("bestAsk"%string, to_string (Protocol.BookUpdate.best_ask u));
          ("askQuantity"%string, to_string (Protocol.BookUpdate.ask_quantity u))].

Definition add_json (e : Protocol.Level3AddOrder.t) : list byte :=
  object [("type"%string, quoted "add");
          ("symbol"%string, json_text (symbol_bytes (Protocol.Level3AddOrder.symbol e)));
          ("sequence"%string, to_string (Protocol.Level3AddOrder.sequence_number e));
          ("orderId"%string, to_string (Protocol.Level3AddOrder.order_id e));
          ("timestamp"%string, to_string (Protocol.Level3AddOrder.timestamp e));
          ("price"%string, to_string (Protocol.Level3AddOrder.price e));
          ("quantity"%string, to_string (Protocol.Level3AddOrder.quantity e));
          ("side"%string, if Protocol.Level3AddOrder.side e =? Protocol.Side_Buy
                   then quoted "BUY" else quoted "SELL")].

Definition execute_json (e : Protocol.Level3OrderExecuted.t) : list byte :=
  object [("type"%string, quoted "execute");
          ("symbol"%string, json_text (symbol_bytes (Protocol.Level3OrderExecuted.symbol e)));
          ("sequence"%string, to_string (Protocol.Level3OrderExecuted.sequence_number e));
          ("buyOrderId"%string, to_string (Protocol.Level3OrderExecuted.buy_order_id e));
          ("sellOrderId"%string, to_string (Protocol.Level3OrderExecuted.sell_order_id e));
          ("price"%string, to_string (Protocol.Level3OrderExecuted.price e));
          ("quantity"%string, to_string (Protocol.Level3OrderExecuted.quantity e))].

Definition delete_json (e : Protocol.Level3OrderDeleted.t) : list byte :=
  object [("type"%string, quoted "delete");
          ("symbol"%string, json_text (symbol_bytes (Protocol.Level3OrderDeleted.symbol e)));
          ("sequence"%string, to_string (Protocol.Level3OrderDeleted.sequence_number e));
          ("orderId"%string, to_string (Protocol.Level3OrderDeleted.order_id e))].

(* the empty text: not for the clients *)
Definition market_data_to_json (datagram : list byte) : list byte :=
  if (length datagram <? Protocol.header_size)%nat then []
  else
    match Protocol.decode_header (take Protocol.header_size datagram) with
    | None => []
    | Some header =>
        if negb (Z.of_nat (length datagram) =?
                 Z.of_nat Protocol.header_size + Protocol.MessageHeader.body_size header) then []
        else
          let body := drop Protocol.header_size datagram in
          let type := Protocol.MessageHeader.type header in
          if type =? Protocol.MessageType.BookUpdate
          then from_option book_json [] (Protocol.decode_book_update body)
          else if type =? Protocol.MessageType.Level3AddOrder
          then from_option add_json [] (Protocol.decode_level3_add_order body)
          else if type =? Protocol.MessageType.Level3OrderExecuted
          then from_option execute_json [] (Protocol.decode_level3_order_executed body)
          else if type =? Protocol.MessageType.Level3OrderDeleted
          then from_option delete_json [] (Protocol.decode_level3_order_deleted body)
          else []
    end.

(** ** The clients *)

Record t : Type := mk {
  clients_ : list Z;
  delivered : list (Z * list byte);    (* what sockets took, in order *)
  closed : list Z                      (* sockets shut down, in order *)
}.

Section clients.
(* how much of a message a socket takes before it fails *)
Context (takes : t → Z → list byte → nat).

(* did the socket take everything? *)
Definition send_all (socket : Z) (bytes : list byte) : M t bool :=
  g <- get ;;
  let taken := take (takes g socket bytes) bytes in
  modify (λ g, mk (clients_ g) (delivered g ++ [(socket, taken)]) (closed g)) ;;;
  ret (length bytes <=? takes g socket bytes)%nat.

Definition close_client (socket : Z) : M t unit :=
  modify (λ g, mk (clients_ g) (delivered g) (closed g ++ [socket])).

(* the iteration: the clients that stay *)
Fixpoint broadcast_loop (frame : list byte) (clients : list Z) : M t (list Z) :=
  match clients with
  | [] => ret []
  | socket :: clients' =>
      sent <- send_all socket frame ;;
      (if sent then ret tt else close_client socket) ;;;
      rest <- broadcast_loop frame clients' ;;
      ret (if sent then socket :: rest else rest)
  end.

Definition broadcast_text (text : list byte) : M t unit :=
  g <- get ;;
  stay <- broadcast_loop (websocket_text_frame text) (clients_ g) ;;
  modify (λ g, mk stay (delivered g) (closed g)).

(** ** The threads *)

(* accept_loop: a connection, and what its client sends *)
Definition accept_client (client_socket : Z) (received : list (list byte)) : M t unit :=
  match perform_handshake received with
  | Waiting => ret tt
  | Failed => close_client client_socket
  | Responded response =>
      sent <- send_all client_socket response ;;
      if negb sent then close_client client_socket
      else modify (λ g, mk (clients_ g ++ [client_socket]) (delivered g) (closed g))
  end.

(* multicast_loop *)
Definition multicast_datagram (datagram : list byte) : M t unit :=
  let json := market_data_to_json datagram in
  if bool_decide (json = []) then ret tt else broadcast_text json.

(* performance_loop *)
Definition performance_buffer_size : Z := 8192.
Definition performance_mark : list byte := quoted "type" ++ bytes_of ":" ++ quoted "performance".
Definition performance_datagram (json : list byte) : M t unit :=
  if bool_decide (is_Some (Text.find_text performance_mark json)) then broadcast_text json else ret tt.

Inductive Event : Type :=
  | Accepted (client_socket : Z) (received : list (list byte))
  | Multicast (datagram : list byte)
  | Performance (datagram : list byte).

Definition handle (event : Event) : M t unit :=
  match event with
  | Accepted client_socket received => accept_client client_socket received
  | Multicast datagram => multicast_datagram datagram
  | Performance datagram => performance_datagram datagram
  end.

Fixpoint run (events : list Event) : M t unit :=
  match events with
  | [] => ret tt
  | event :: events' => handle event ;;; run events'
  end.
End clients.

(** ** Reading frames, as RFC 6455 has a client do it *)

(* a payload of the given length *)
Definition read_payload (length_ : Z) (bytes : list byte) : option (list byte * list byte) :=
  if Z.of_nat (length bytes) <? length_ then None
  else Some (take (Z.to_nat length_) bytes, drop (Z.to_nat length_) bytes).

(* a text frame that is final, not masked, with its length in the fewest bytes *)
Definition read_frame (bytes : list byte) : option (list byte * list byte) :=
  match bytes with
  | first :: second :: rest =>
      guard (first = x81);;
      let n := Z_of_byte second in
      if n <=? 125 then read_payload n rest
      else if n =? 126 then
        let length_ := be_value (take 2 rest) in
        guard (2 ≤ length rest)%nat;; guard (126 ≤ length_);; read_payload length_ (drop 2 rest)
      else if n =? 127 then
        let length_ := be_value (take 8 rest) in
        guard (8 ≤ length rest)%nat;; guard (65536 ≤ length_ < 2 ^ 63);; read_payload length_ (drop 8 rest)
      else None
  | _ => None
  end.

Fixpoint read_frames (fuel : nat) (bytes : list byte) : option (list (list byte)) :=
  match bytes, fuel with
  | [], _ => Some []
  | _, O => None
  | _, S fuel' =>
      '(text, rest) ← read_frame bytes; texts ← read_frames fuel' rest; Some (text :: texts)
  end.

Lemma be_value_bytes n z : 0 ≤ z < 256 ^ Z.of_nat n → be_value (be_bytes n z) = z.
Proof.
  intros Hz. unfold be_value, be_bytes. rewrite reverse_involutive, le_value_bytes. by apply Z.mod_small.
Qed.

Lemma length_be_bytes n z : length (be_bytes n z) = n.
Proof. unfold be_bytes. by rewrite length_reverse, length_le_bytes. Qed.

Lemma read_payload_app text rest :
  read_payload (Z.of_nat (length text)) (text ++ rest) = Some (text, rest).
Proof.
  unfold read_payload. rewrite length_app, (proj2 (Z.ltb_ge _ _)) by lia.
  by rewrite Nat2Z.id, take_app_length, drop_app_length.
Qed.

Lemma frame_layout text :
  let n := Z.of_nat (length text) in
  websocket_text_frame text =
    x81 :: (if n <=? 125 then [byte_of_Z n]
            else if n <=? 65535 then byte_of_Z 126 :: be_bytes 2 n else byte_of_Z 127 :: be_bytes 8 n) ++ text.
Proof.
  intros n. unfold websocket_text_frame. fold n. cbn [app]. do 2 f_equal.
  destruct (n <=? 125); [done|]. destruct (n <=? 65535); unfold be_bytes; by rewrite le_bytes_shifts.
Qed.

Lemma read_frame_frame text rest :
  Z.of_nat (length text) < 2 ^ 63 →
  read_frame (websocket_text_frame text ++ rest) = Some (text, rest).
Proof.
  intros Hlen. rewrite frame_layout. set (n := Z.of_nat (length text)) in *. assert (0 ≤ n) by lia.
  destruct (Z.leb_spec n 125); [|destruct (Z.leb_spec n 65535)]; cbn [app read_frame];
    rewrite option_guard_True by done; rewrite Z_of_byte_of_Z, Z.mod_small by lia.
  - rewrite (proj2 (Z.leb_le n 125)) by done. apply read_payload_app.
  - change (126 <=? 125) with false. cbn [Z.eqb Pos.eqb]. rewrite <- (assoc_L (++)).
    rewrite take_app_length', drop_app_length' by (by rewrite length_be_bytes).
    rewrite be_value_bytes by (change (256 ^ Z.of_nat 2) with 65536; lia).
    rewrite !option_guard_True by (rewrite ?length_app, ?length_be_bytes; lia). apply read_payload_app.
  - change (127 <=? 125) with false. cbn [Z.eqb Pos.eqb]. rewrite <- (assoc_L (++)).
    rewrite take_app_length', drop_app_length' by (by rewrite length_be_bytes).
    rewrite be_value_bytes by (change (256 ^ Z.of_nat 8) with (2 ^ 64); lia).
    rewrite !option_guard_True by (rewrite ?length_app, ?length_be_bytes; lia). apply read_payload_app.
Qed.

Definition frames (texts : list (list byte)) : list byte := concat (websocket_text_frame <$> texts).

Lemma read_frames_frames texts fuel :
  Forall (λ text, Z.of_nat (length text) < 2 ^ 63) texts → (length texts ≤ fuel)%nat →
  read_frames fuel (frames texts) = Some texts.
Proof.
  intros Htexts. revert fuel. induction Htexts as [|text texts Ht _ IH]; intros fuel Hf; [by destruct fuel|].
  destruct fuel as [|fuel]; [simpl in Hf; lia|]. unfold frames in *. cbn [fmap list_fmap concat].
  rewrite frame_layout. cbn [app read_frames]. 
  pose proof (read_frame_frame text (concat (websocket_text_frame <$> texts)) Ht) as Hr.
  rewrite frame_layout in Hr. cbn [app] in Hr. rewrite Hr. cbn [mbind option_bind].
  rewrite IH by (simpl in Hf; lia). done.
Qed.

(** ** What a datagram says *)

Definition write_fields (fields : list (string * Json)) : list byte := write_json (JObject fields).

Definition book_fields (u : Protocol.BookUpdate.t) : list (string * Json) :=
  [("type"%string, JText (bytes_of "book"));
   ("symbol"%string, JText (symbol_bytes (Protocol.BookUpdate.symbol u)));
   ("sequence"%string, JNumber (Protocol.BookUpdate.sequence_number u));
   ("hasBid"%string, JBool (negb (Protocol.BookUpdate.has_bid u =? 0)));
   ("bestBid"%string, JNumber (Protocol.BookUpdate.best_bid u));
   ("bidQuantity"%string, JNumber (Protocol.BookUpdate.bid_quantity u));
   ("hasAsk"%string, JBool (negb (Protocol.BookUpdate.has_ask u =? 0)));
   ("bestAsk"%string, JNumber (Protocol.BookUpdate.best_ask u));
   ("askQuantity"%string, JNumber (Protocol.BookUpdate.ask_quantity u))].

Definition add_fields (e : Protocol.Level3AddOrder.t) : list (string * Json) :=
  [("type"%string, JText (bytes_of "add"));
   ("symbol"%string, JText (symbol_bytes (Protocol.Level3AddOrder.symbol e)));
   ("sequence"%string, JNumber (Protocol.Level3AddOrder.sequence_number e));
   ("orderId"%string, JNumber (Protocol.Level3AddOrder.order_id e));
   ("timestamp"%string, JNumber (Protocol.Level3AddOrder.timestamp e));
   ("price"%string, JNumber (Protocol.Level3AddOrder.price e));
   ("quantity"%string, JNumber (Protocol.Level3AddOrder.quantity e));
   ("side"%string, JText (if Protocol.Level3AddOrder.side e =? Protocol.Side_Buy
                          then bytes_of "BUY" else bytes_of "SELL"))].

Definition execute_fields (e : Protocol.Level3OrderExecuted.t) : list (string * Json) :=
  [("type"%string, JText (bytes_of "execute"));
   ("symbol"%string, JText (symbol_bytes (Protocol.Level3OrderExecuted.symbol e)));
   ("sequence"%string, JNumber (Protocol.Level3OrderExecuted.sequence_number e));
   ("buyOrderId"%string, JNumber (Protocol.Level3OrderExecuted.buy_order_id e));
   ("sellOrderId"%string, JNumber (Protocol.Level3OrderExecuted.sell_order_id e));
   ("price"%string, JNumber (Protocol.Level3OrderExecuted.price e));
   ("quantity"%string, JNumber (Protocol.Level3OrderExecuted.quantity e))].

Definition delete_fields (e : Protocol.Level3OrderDeleted.t) : list (string * Json) :=
  [("type"%string, JText (bytes_of "delete"));
   ("symbol"%string, JText (symbol_bytes (Protocol.Level3OrderDeleted.symbol e)));
   ("sequence"%string, JNumber (Protocol.Level3OrderDeleted.sequence_number e));
   ("orderId"%string, JNumber (Protocol.Level3OrderDeleted.order_id e))].

(* a body of market data and what it says *)
Inductive event_body : Z → list byte → list (string * Json) → Prop :=
  | book_body u : Protocol.book_update_valid u →
      event_body Protocol.MessageType.BookUpdate (Protocol.encode_book_update u) (book_fields u)
  | add_body e : Protocol.level3_add_order_valid e →
      event_body Protocol.MessageType.Level3AddOrder (Protocol.encode_level3_add_order e) (add_fields e)
  | execute_body e : Protocol.level3_order_executed_valid e →
      event_body Protocol.MessageType.Level3OrderExecuted (Protocol.encode_level3_order_executed e)
        (execute_fields e)
  | delete_body e : Protocol.level3_order_deleted_valid e →
      event_body Protocol.MessageType.Level3OrderDeleted (Protocol.encode_level3_order_deleted e)
        (delete_fields e).

(* a datagram of market data *)
Inductive market_datagram : list byte → list (string * Json) → Prop :=
  | market header body fields :
      Protocol.header_valid header →
      Protocol.MessageHeader.body_size header = Z.of_nat (length body) →
      event_body (Protocol.MessageHeader.type header) body fields →
      market_datagram (Protocol.encode_header header ++ body) fields.

Lemma symbol_plain symbol : Forall plain (symbol_bytes symbol).
Proof.
  unfold symbol_bytes, bytes_of, Protocol.symbol_to_string.
  destruct (Protocol.is_valid_symbol symbol) eqn:Hv; cbn [negb]; [|constructor].
  rewrite String.list_byte_of_string_of_list_byte. unfold Protocol.is_valid_symbol in Hv.
  apply Protocol.valid_loop_spec in Hv as (cs & n & -> & Hcs & _).
  rewrite Protocol.symbol_length_spec, take_app_length by done.
  eapply Forall_impl; [exact Hcs|]. intros c Hc. by destruct c.
Qed.

Ltac plain_constant := refine (bool_decide_eq_true_1 _ _); vm_compute; reflexivity.

Lemma event_plain type body fields : event_body type body fields → Forall plain_field fields ∧ fields ≠ [].
Proof.
  intros [u _|e _|e _|e _]; (split; [|done]).
  all: unfold book_fields, add_fields, execute_fields, delete_fields, plain_field.
  all: repeat (apply Forall_cons_2; [split; cbn [fst snd plain_json];
         [plain_constant|first [exact I|apply symbol_plain|plain_constant|idtac]]|]); [..|apply Forall_nil_2].
  all: try apply Forall_nil_2. case_match; plain_constant.
Qed.

Lemma event_written type body :
  let text := if type =? Protocol.MessageType.BookUpdate
              then from_option book_json [] (Protocol.decode_book_update body)
              else if type =? Protocol.MessageType.Level3AddOrder
              then from_option add_json [] (Protocol.decode_level3_add_order body)
              else if type =? Protocol.MessageType.Level3OrderExecuted
              then from_option execute_json [] (Protocol.decode_level3_order_executed body)
              else if type =? Protocol.MessageType.Level3OrderDeleted
              then from_option delete_json [] (Protocol.decode_level3_order_deleted body)
              else [] in
  (∀ fields, event_body type body fields → text = write_fields fields) ∧
  (text ≠ [] → ∃ fields, event_body type body fields).
Proof.
  intros text. split.
  - subst text. intros fields [u Hu|e He|e He|e He]; cbn [Z.eqb Pos.eqb].
    + rewrite (proj2 (Protocol.decode_book_update_spec _ u) (conj Hu eq_refl)). reflexivity.
    + rewrite (proj2 (Protocol.decode_level3_add_order_spec _ e) (conj He eq_refl)).
      cbn [from_option]. unfold add_json, add_fields. by destruct (_ =? Protocol.Side_Buy).
    + rewrite (proj2 (Protocol.decode_level3_order_executed_spec _ e) (conj He eq_refl)). reflexivity.
    + rewrite (proj2 (Protocol.decode_level3_order_deleted_spec _ e) (conj He eq_refl)). reflexivity.
  - subst text.
    destruct (Z.eqb_spec type Protocol.MessageType.BookUpdate) as [->|_].
    { destruct (Protocol.decode_book_update body) as [u|] eqn:Hd; [|done].
      apply Protocol.decode_book_update_spec in Hd as [Hu ->]. intros _. eexists. by constructor. }
    destruct (Z.eqb_spec type Protocol.MessageType.Level3AddOrder) as [->|_].
    { destruct (Protocol.decode_level3_add_order body) as [e|] eqn:Hd; [|done].
      apply Protocol.decode_level3_add_order_spec in Hd as [He ->]. intros _. eexists. by constructor. }
    destruct (Z.eqb_spec type Protocol.MessageType.Level3OrderExecuted) as [->|_].
    { destruct (Protocol.decode_level3_order_executed body) as [e|] eqn:Hd; [|done].
      apply Protocol.decode_level3_order_executed_spec in Hd as [He ->]. intros _. eexists. by constructor. }
    destruct (Z.eqb_spec type Protocol.MessageType.Level3OrderDeleted) as [->|_]; [|done].
    destruct (Protocol.decode_level3_order_deleted body) as [e|] eqn:Hd; [|done].
    apply Protocol.decode_level3_order_deleted_spec in Hd as [He ->]. intros _. eexists. by constructor.
Qed.

Lemma json_of_market datagram fields :
  market_datagram datagram fields → market_data_to_json datagram = write_fields fields.
Proof.
  intros [header body fields' Hh Hsize Hbody]. unfold market_data_to_json.
  pose proof (Protocol.length_encode_header header) as Hl.
  rewrite (proj2 (Nat.ltb_ge _ _)) by (rewrite length_app; lia).
  rewrite take_app_length' by done. rewrite (proj2 (Protocol.decode_header_spec _ header)) by done.
  rewrite (proj2 (Z.eqb_eq _ _)) by (rewrite length_app, Hl; lia). cbn [negb].
  rewrite drop_app_length' by done. by apply event_written.
Qed.

Lemma market_of_json datagram :
  market_data_to_json datagram ≠ [] → ∃ fields, market_datagram datagram fields.
Proof.
  unfold market_data_to_json. destruct (Nat.ltb_spec (length datagram) Protocol.header_size); [done|].
  destruct (Protocol.decode_header _) as [header|] eqn:Hd; [|done].
  apply Protocol.decode_header_spec in Hd as [Hh Hd].
  destruct (Z.eqb_spec (Z.of_nat (length datagram))
    (Z.of_nat Protocol.header_size + Protocol.MessageHeader.body_size header)) as [Hsize|]; [|done].
  cbn [negb]. cbv zeta. intros Htext. apply event_written in Htext as [fields Hfields]. exists fields.
  rewrite <- (take_drop Protocol.header_size datagram), Hd.
  constructor; [done| |done]. rewrite length_drop. lia.
Qed.

(** ** What the clients are sent *)

(* the bytes a client has been sent *)
Definition received (client : Z) (g : t) : list byte :=
  concat (snd <$> filter (λ d, d.1 = client) (delivered g)).

(* the texts an event broadcasts *)
Definition texts_of (event : Event) : list (list byte) :=
  match event with
  | Accepted _ _ => []
  | Multicast datagram =>
      if bool_decide (market_data_to_json datagram = []) then [] else [market_data_to_json datagram]
  | Performance datagram =>
      if bool_decide (is_Some (Text.find_text performance_mark datagram)) then [datagram] else []
  end.

Lemma received_snoc client g socket bytes cs ds :
  received client (mk cs (delivered g ++ [(socket, bytes)]) ds) =
  received client g ++ (if decide (socket = client) then bytes else []).
Proof.
  unfold received. cbn [delivered]. rewrite filter_app, fmap_app, concat_app. f_equal.
  rewrite filter_cons, filter_nil. cbn [fst]. case_decide as H; cbn; [|done]. apply (right_id_L [] (++)).
Qed.

Section feed.
Context (takes : t → Z → list byte → nat) (client : Z).

(* the client's entries in a list of sockets: one while it is connected *)
Definition entries (sockets : list Z) : list Z := filter (λ socket, socket = client) sockets.

(* the client's socket takes whatever it is given *)
Definition keeps_up : Prop := ∀ g bytes, (length bytes ≤ takes g client bytes)%nat.

Lemma entries_cons socket sockets :
  entries (socket :: sockets) = (if decide (socket = client) then [client] else []) ++ entries sockets.
Proof. unfold entries. rewrite filter_cons. by case_decide as H; [subst|]. Qed.

Lemma send_all_received socket bytes g :
  ∃ g', send_all takes socket bytes g = (Ok (length bytes <=? takes g socket bytes)%nat, g') ∧
    clients_ g' = clients_ g ∧
    received client g' = received client g ++
      (if decide (socket = client) then take (takes g socket bytes) bytes else []).
Proof.
  exists (mk (clients_ g) (delivered g ++ [(socket, take (takes g socket bytes) bytes)]) (closed g)).
  split; [done|]. split; [done|]. apply received_snoc.
Qed.

Lemma broadcast_loop_feed frame sockets g :
  keeps_up ∨ entries sockets = [] →
  ∃ stay g', broadcast_loop takes frame sockets g = (Ok stay, g') ∧
    entries stay = entries sockets ∧ clients_ g' = clients_ g ∧
    received client g' = received client g ++ concat ((λ _, frame) <$> entries sockets).
Proof.
  revert g. induction sockets as [|socket sockets IH]; intros g Hc.
  { exists [], g. split_and!; [done..|]. symmetry. apply (right_id_L [] (++)). }
  rewrite entries_cons in *. cbn [broadcast_loop].
  destruct (send_all_received socket frame g) as (g1 & Hs & Hcl1 & Hr1).
  unfold bind at 1. rewrite Hs.
  set (sent := (length frame <=? takes g socket frame)%nat) in *.
  assert (∃ g2, (if sent then ret tt else close_client socket) g1 = (Ok tt, g2) ∧
    clients_ g2 = clients_ g1 ∧ received client g2 = received client g1) as (g2 & Hg2 & Hcl2 & Hr2).
  { destruct sent; [by exists g1|]. eexists. split; [reflexivity|]. done. }
  unfold bind at 1. rewrite Hg2.
  destruct (IH g2) as (stay & g3 & Hg3 & He & Hcl3 & Hr3).
  { destruct Hc as [?|Hnil]; [by left|right]. by apply app_eq_nil in Hnil as [_ ?]. }
  unfold bind at 1. rewrite Hg3.
  exists (if sent then socket :: stay else stay), g3. split; [by destruct sent|].
  assert (socket = client → sent = true) as Hsent.
  { intros ->. destruct Hc as [Hup|Hnil]; [by apply Nat.leb_le, Hup|]. by rewrite decide_True in Hnil. }
  split; [|split; [congruence|]].
  - destruct (decide (socket = client)) as [->|Hne].
    + rewrite Hsent by done. rewrite entries_cons, decide_True by done. by rewrite He.
    + destruct sent; [|done]. rewrite entries_cons, decide_False by done. by rewrite He.
  - rewrite Hr3, Hr2, Hr1, <- (assoc_L (++)). f_equal.
    destruct (decide (socket = client)) as [->|Hne]; [|done].
    cbn [app fmap list_fmap concat]. f_equal. apply take_ge, Nat.leb_le. by apply Hsent.
Qed.

Lemma broadcast_feed text g :
  keeps_up ∨ entries (clients_ g) = [] →
  ∃ g', broadcast_text takes text g = (Ok tt, g') ∧ entries (clients_ g') = entries (clients_ g) ∧
    received client g' = received client g ++
      concat ((λ _, websocket_text_frame text) <$> entries (clients_ g)).
Proof.
  intros Hc. unfold broadcast_text. unfold bind at 1, get.
  destruct (broadcast_loop_feed (websocket_text_frame text) (clients_ g) g Hc) as (stay & g1 & Hg1 & He & _ & Hr).
  unfold bind. rewrite Hg1. eexists. split; [reflexivity|]. by split.
Qed.

Definition accepts (event : Event) : Prop :=
  match event with Accepted socket _ => socket = client | _ => False end.

(* a step for a client that is connected (once), or is not *)
Lemma handle_feed event g :
  ¬ accepts event →
  (keeps_up ∧ entries (clients_ g) = [client]) ∨ entries (clients_ g) = [] →
  ∃ g', handle takes event g = (Ok tt, g') ∧ entries (clients_ g') = entries (clients_ g) ∧
    received client g' = received client g ++
      (if decide (entries (clients_ g) = []) then [] else frames (texts_of event)).
Proof.
  intros Hno Hc.
  assert (∀ text, ∃ g', broadcast_text takes text g = (Ok tt, g') ∧
    entries (clients_ g') = entries (clients_ g) ∧
    received client g' = received client g ++
      (if decide (entries (clients_ g) = []) then [] else frames [text])) as Hb.
  { intros text. destruct (broadcast_feed text g) as (g' & Hg' & He & Hr); [tauto|].
    exists g'. split; [done|]. split; [done|]. rewrite Hr. f_equal.
    destruct Hc as [[_ ->]|Hnil]; [done|]. by rewrite decide_True, Hnil by done. }
  assert (∀ g' : t, entries (clients_ g') = entries (clients_ g) → received client g' = received client g →
    received client g' = received client g ++ (if decide (entries (clients_ g) = []) then [] else frames [])) as Hnone.
  { intros g' _ ->. case_decide; symmetry; apply (right_id_L [] (++)). }
  destruct event as [socket chunks|datagram|datagram]; cbn [handle texts_of accepts] in *.
  - unfold accept_client. destruct (perform_handshake chunks) as [| |response]; [by exists g; auto| |].
    { eexists. split; [reflexivity|]. split; [done|]. by apply Hnone. }
    destruct (send_all_received socket response g) as (g1 & Hs & Hcl & Hr).
    unfold bind. rewrite Hs. rewrite decide_False, (right_id_L [] (++)) in Hr by done.
    destruct (negb _); eexists; (split; [reflexivity|]).
    + split; [cbn [clients_]; by rewrite Hcl|]. apply Hnone; [cbn [clients_]; by rewrite Hcl|exact Hr].
    + assert (entries (clients_ g1 ++ [socket]) = entries (clients_ g)) as He.
      { rewrite Hcl. unfold entries. rewrite filter_app, filter_cons_False, filter_nil by done.
        apply (right_id_L [] (++)). }
      split; [exact He|]. by apply Hnone.
  - unfold multicast_datagram. cbv zeta. case_bool_decide; [exists g; auto|apply Hb].
  - unfold performance_datagram. case_bool_decide; [apply Hb|exists g; auto].
Qed.

Lemma run_feed events g :
  Forall (λ event, ¬ accepts event) events →
  (keeps_up ∧ entries (clients_ g) = [client]) ∨ entries (clients_ g) = [] →
  ∃ g', run takes events g = (Ok tt, g') ∧ entries (clients_ g') = entries (clients_ g) ∧
    received client g' = received client g ++
      (if decide (entries (clients_ g) = []) then [] else frames (events ≫= texts_of)).
Proof.
  intros Hev. revert g. induction Hev as [|event events Hno _ IH]; intros g Hc.
  { exists g. split_and!; [done|done|]. case_decide; symmetry; apply (right_id_L [] (++)). }
  destruct (handle_feed event g Hno Hc) as (g1 & Hg1 & He1 & Hr1).
  destruct (IH g1) as (g2 & Hg2 & He2 & Hr2); [by rewrite He1|].
  exists g2. cbn [run]. unfold bind. rewrite Hg1. split; [done|]. split; [congruence|].
  rewrite Hr2, Hr1, He1, <- (assoc_L (++)). f_equal.
  destruct (decide (entries (clients_ g) = [])); [done|].
  rewrite bind_cons. unfold frames. by rewrite fmap_app, concat_app.
Qed.
End feed.

(** ** Requests *)

Record Header : Type := header { name : list byte; blanks : list byte; value : list byte }.

Definition header_line (h : Header) : list byte := name h ++ [x3a] ++ blanks h ++ value h ++ crlf.

(* a request line, headers and an empty line *)
Definition request_text (start : list byte) (headers : list Header) : list byte :=
  start ++ crlf ++ concat (header_line <$> headers) ++ crlf.

Definition is_blank (c : byte) : Prop := c = x20 ∨ c = x09.

Record header_ok (h : Header) : Prop := {
  name_ok : (x3a ∉ name h) ∧ x0a ∉ name h;
  blanks_ok : Forall is_blank (blanks h);
  value_ok : (x0a ∉ value h) ∧ ∀ c, head (value h) = Some c → ¬ is_blank c
}.

(* the first header of that name *)
Fixpoint lookup_header (header_name : list byte) (headers : list Header) : option (list byte) :=
  match headers with
  | [] => None
  | h :: headers' =>
      if bool_decide (name h = header_name) then Some (value h) else lookup_header header_name headers'
  end.

Lemma getlines_line line rest :
  x0a ∉ line → getlines (line ++ x0a :: rest) = line :: getlines rest.
Proof.
  induction line as [|c line IH]; intros Hline; cbn [app getlines]; [by rewrite bool_decide_true|].
  apply not_elem_of_cons in Hline as [Hc Hline].
  rewrite bool_decide_false, (IH Hline) by done. done.
Qed.

Lemma strip_return_line line : strip_return (line ++ [x0d]) = line.
Proof. unfold strip_return. by rewrite last_snoc, bool_decide_true, removelast_last. Qed.

Lemma skip_blanks_value bs v :
  Forall is_blank bs → (∀ c, head v = Some c → ¬ is_blank c) → skip_blanks (bs ++ v) = v.
Proof.
  intros Hbs Hv. induction Hbs as [|c bs Hc _ IH]; cbn [app skip_blanks].
  - destruct v as [|c v]; [done|]. specialize (Hv c eq_refl). unfold is_blank in Hv. cbn.
    rewrite !bool_decide_false by naive_solver. done.
  - destruct Hc as [-> | ->]; cbn; exact IH.
Qed.

Lemma value_in_header header_name h : header_ok h →
  value_in_line header_name (name h ++ [x3a] ++ blanks h ++ value h ++ [x0d]) =
  if bool_decide (name h = header_name) then Some (value h) else None.
Proof.
  intros [[Hcolon _] Hblanks [_ Hhead]]. unfold value_in_line.
  rewrite !(assoc_L (++)), strip_return_line, <- !(assoc_L (++)). cbn [app].
  rewrite Fix.find_front by done. rewrite take_app_length. case_bool_decide; [|done].
  replace (length (name h) + 1)%nat with (length (name h ++ [x3a])) by (rewrite length_app; done).
  change (name h ++ x3a :: blanks h ++ value h) with (name h ++ [x3a] ++ (blanks h ++ value h)).
  rewrite (assoc_L (++) (name h)), drop_app_length. by rewrite skip_blanks_value.
Qed.

Lemma find_header_headers header_name headers :
  Forall header_ok headers →
  find_header header_name (getlines (concat (header_line <$> headers) ++ crlf)) =
  lookup_header header_name headers.
Proof.
  induction 1 as [|h headers Hh _ IH]; [done|]. cbn [fmap list_fmap concat lookup_header].
  assert (header_line h = (name h ++ [x3a] ++ blanks h ++ value h ++ [x0d]) ++ [x0a]) as ->
    by (unfold header_line, crlf; by rewrite <- !(assoc_L (++))).
  set (line := name h ++ [x3a] ++ blanks h ++ value h ++ [x0d]).
  rewrite <- !(assoc_L (++) line [x0a]), <- (assoc_L (++) line). cbn [app].
  rewrite (getlines_line line); subst line.
  - cbn [find_header]. rewrite (value_in_header header_name h Hh).
    case_bool_decide; [done|exact IH].
  - destruct Hh as [[_ Hn] Hb [Hv _]]. rewrite !not_elem_of_app, !list_elem_of_singleton.
    split_and!; [done|done| |done|done].
    intros Hin. rewrite Forall_forall in Hb. by destruct (Hb _ Hin).
Qed.

Lemma header_value_request header_name start headers :
  x0a ∉ start → x3a ∉ start → Forall header_ok headers →
  header_value (request_text start headers) header_name = lookup_header header_name headers.
Proof.
  intros Hnl Hcolon Hheaders. unfold header_value, request_text, crlf.
  change [x0d; x0a] with ([x0d] ++ [x0a]) at 1.
  rewrite <- !(assoc_L (++) [x0d]), (assoc_L (++) start [x0d]). cbn [app].
  rewrite (getlines_line (start ++ [x0d])).
  - assert (value_in_line header_name (start ++ [x0d]) = None) as Hstart.
    { unfold value_in_line. rewrite strip_return_line. unfold Text.find. rewrite drop_0.
      by rewrite (proj2 (Fix.index_of_None x3a start)). }
    cbn [find_header]. rewrite Hstart. by apply find_header_headers.
  - by rewrite not_elem_of_app, list_elem_of_singleton.
Qed.

(** *** Where a request ends *)

Definition blank_line : list byte := crlf ++ crlf.

Lemma find_text_length pattern text i :
  Text.find_text pattern text = Some i → (i + length pattern ≤ length text)%nat.
Proof.
  revert i. induction text as [|c text IH]; intros i; cbn [Text.find_text];
    (destruct (Text.starts_with _ _) eqn:Hs; [intros [= <-]|]).
  - unfold Text.starts_with in Hs. apply bool_decide_eq_true in Hs.
    apply (f_equal length) in Hs. rewrite length_take in Hs. lia.
  - done.
  - unfold Text.starts_with in Hs. apply bool_decide_eq_true in Hs.
    apply (f_equal length) in Hs. rewrite length_take in Hs. lia.
  - intros (j & Hj & ->)%fmap_Some. apply IH in Hj. cbn [length]. lia.
Qed.

Lemma find_text_app pattern text rest i :
  Text.find_text pattern text = Some i → Text.find_text pattern (text ++ rest) = Some i.
Proof.
  revert i. induction text as [|c text IH]; intros i Hi; pose proof (find_text_length _ _ _ Hi) as Hl.
  - cbn [app length] in *. destruct pattern; [|simpl in Hl; lia]. injection Hi as <-. by destruct rest.
  - assert (Text.starts_with pattern ((c :: text) ++ rest) = Text.starts_with pattern (c :: text)) as Hs
      by (unfold Text.starts_with; by rewrite take_app_le by lia).
    cbn [app Text.find_text] in *. rewrite Hs. destruct (Text.starts_with _ _); [done|].
    apply fmap_Some in Hi as (j & Hj & ->). by rewrite (IH j Hj).
Qed.

Lemma starts_blank_line c d rest : d ≠ x0a → Text.starts_with blank_line (c :: d :: rest) = false.
Proof. intros Hd. apply bool_decide_eq_false_2. cbn. congruence. Qed.

Lemma find_blank_line line : x0a ∉ line → Text.find_text blank_line (line ++ blank_line) = Some (length line).
Proof.
  induction line as [|c line IH]; intros Hline; [done|]. apply not_elem_of_cons in Hline as [_ Hline].
  cbn [app Text.find_text length]. rewrite (IH Hline).
  destruct line as [|d line]; cbn [app].
  - change (c :: blank_line) with (c :: x0d :: drop 1 blank_line). by rewrite starts_blank_line.
  - apply not_elem_of_cons in Hline as [Hd _]. by rewrite starts_blank_line by congruence.
Qed.

(* lines before the last are not it *)
Lemma find_later_line line rest : x0a ∉ line → take 2 rest ≠ crlf →
  Text.find_text blank_line (line ++ crlf ++ rest) =
  (λ i, (length line + 2 + i)%nat) <$> Text.find_text blank_line rest.
Proof.
  intros Hline Hrest. induction line as [|c line IH].
  - cbn [app crlf Text.find_text length]. change (crlf ++ rest) with (x0d :: x0a :: rest).
    assert (Text.starts_with blank_line (x0d :: x0a :: rest) = false) as ->.
    { apply bool_decide_eq_false_2. intros Heq. apply Hrest. by injection Heq. }
    assert (Text.starts_with blank_line (x0a :: rest) = false) as ->
      by (apply bool_decide_eq_false_2; intros Heq; cbn in Heq; congruence).
    by destruct (Text.find_text blank_line rest).
  - apply not_elem_of_cons in Hline as [_ Hline]. cbn [app Text.find_text length]. rewrite (IH Hline).
    destruct line as [|d line]; cbn [app crlf]; rewrite starts_blank_line by
      (done || (apply not_elem_of_cons in Hline as [? _]; congruence)).
    all: by destruct (Text.find_text blank_line rest).
Qed.

Definition full_line (line : list byte) : Prop := line ≠ [] ∧ x0a ∉ line.

Lemma full_line_start line rest : full_line line → take 2 (line ++ crlf ++ rest) ≠ crlf.
Proof.
  intros [Hne Hline]. destruct line as [|c [|d line]]; [done|done|].
  apply not_elem_of_cons in Hline as [_ [Hd _]%not_elem_of_cons]. cbn. unfold crlf. congruence.
Qed.

Lemma find_lines_end line lines :
  x0a ∉ line → Forall full_line lines →
  let text := line ++ crlf ++ concat ((λ l, l ++ crlf) <$> lines) ++ crlf in
  Text.find_text blank_line text = Some (length text - 4)%nat.
Proof.
  intros Hline Hlines. revert line Hline.
  induction Hlines as [|line' lines Hl _ IH]; intros line Hline; cbv zeta; rewrite ?fmap_cons; cbn [concat].
  { cbn [fmap list_fmap concat app]. change (crlf ++ crlf) with blank_line. rewrite find_blank_line by done.
    f_equal. rewrite length_app. cbn. lia. }
  rewrite <- !(assoc_L (++) line'), <- !(assoc_L (++) crlf).
  rewrite find_later_line by (done || by apply full_line_start).
  specialize (IH line' (proj2 Hl)). cbv zeta in IH. rewrite IH. cbn [fmap option_fmap option_map].
  f_equal. rewrite !length_app. unfold crlf. cbn [length]. lia.
Qed.

Lemma header_full h : header_ok h → full_line (name h ++ [x3a] ++ blanks h ++ value h).
Proof.
  intros [[_ Hn] Hb [Hv _]]. split; [by destruct (name h)|].
  rewrite !not_elem_of_app, !list_elem_of_singleton. split_and!; [done|done| |done].
  intros Hin. rewrite Forall_forall in Hb. by destruct (Hb _ Hin).
Qed.

Lemma find_request_end start headers : x0a ∉ start → Forall header_ok headers →
  Text.find_text blank_line (request_text start headers) = Some (length (request_text start headers) - 4)%nat.
Proof.
  intros Hstart Hheaders. unfold request_text.
  assert (header_line <$> headers =
    (λ l, l ++ crlf) <$> ((λ h, name h ++ [x3a] ++ blanks h ++ value h) <$> headers)) as ->.
  { rewrite <- list_fmap_compose. apply list_fmap_ext. intros _ h _. unfold header_line, compose.
    by rewrite <- !(assoc_L (++)). }
  apply find_lines_end; [done|]. apply Forall_fmap. by eapply Forall_impl; [exact Hheaders|apply header_full].
Qed.

(** *** Receiving it in pieces *)

Definition pieces (chunks : list (list byte)) : Prop := Forall (λ chunk, chunk ≠ []) chunks.

Lemma receive_request_whole chunks request text :
  pieces chunks → request ++ concat chunks = text → Z.of_nat (length text) <= 16 * 1024 →
  Text.find_text blank_line text = Some (length text - 4)%nat →
  receive_request chunks request = inl text.
Proof.
  intros Hchunks. revert request. induction Hchunks as [|chunk chunks Hne Hchunks IH]; intros request Htext Hlen Hfind.
  - cbn [concat] in Htext. rewrite (right_id_L [] (++)) in Htext. subst request. cbn [receive_request].
    change (crlf ++ crlf) with blank_line. rewrite Hfind. by rewrite bool_decide_true.
  - cbn [receive_request concat] in *. change (crlf ++ crlf) with blank_line.
    case_bool_decide as Hdone.
    + destruct Hdone as [i Hi]. pose proof (find_text_length _ _ _ Hi) as Hl.
      pose proof (find_text_app _ _ (chunk ++ concat chunks) _ Hi) as Hi'. rewrite Htext, Hfind in Hi'.
      injection Hi' as <-. rewrite <- Htext, !length_app in Hl. change (length blank_line) with 4%nat in Hl.
      destruct chunk; [done|]. cbn [length] in Hl. exfalso. lia.
    + destruct chunk as [|c chunk]; [done|]. rewrite (proj2 (Z.ltb_ge _ _)).
      * apply IH; [by rewrite <- (assoc_L (++))|done|done].
      * rewrite <- Htext in Hlen. rewrite !length_app in *. lia.
Qed.

Lemma receive_request_unended chunks request :
  pieces chunks → Text.find_text blank_line (request ++ concat chunks) = None →
  Z.of_nat (length request) <= 16 * 1024 →
  receive_request chunks request =
  inr (if 16 * 1024 <? Z.of_nat (length (request ++ concat chunks)) then Failed else Waiting).
Proof.
  intros Hchunks. revert request.
  induction Hchunks as [|chunk chunks Hne Hchunks IH]; intros request Hnone Hlen.
  - cbn [concat] in *. rewrite (right_id_L [] (++)) in *. cbn [receive_request].
    change (crlf ++ crlf) with blank_line. rewrite Hnone.
    rewrite bool_decide_false by (by intros [? ?]). by rewrite (proj2 (Z.ltb_ge _ _)).
  - cbn [receive_request concat] in *. change (crlf ++ crlf) with blank_line.
    rewrite bool_decide_false.
    2:{ intros [i Hi]. by rewrite (find_text_app _ _ _ _ Hi) in Hnone. }
    destruct chunk as [|c chunk]; [done|]. rewrite (assoc_L (++)) in *.
    destruct (Z.ltb_spec (16 * 1024) (Z.of_nat (length (request ++ c :: chunk)))) as [Hlong|].
    + rewrite (proj2 (Z.ltb_lt _ _)); [done|]. rewrite (length_app (request ++ c :: chunk)). lia.
    + by apply IH.
Qed.

(* one that is too long is given up, also when its end has arrived *)
Lemma receive_request_long chunks request :
  pieces chunks →
  (∀ i, Text.find_text blank_line (request ++ concat chunks) = Some i → i = (length (request ++ concat chunks) - 4)%nat) →
  Z.of_nat (length request) <= 16 * 1024 < Z.of_nat (length (request ++ concat chunks)) →
  receive_request chunks request = inr Failed.
Proof.
  intros Hchunks. revert request.
  induction Hchunks as [|chunk chunks Hne Hchunks IH]; intros request Hend Hlen.
  - cbn [concat] in *. rewrite (right_id_L [] (++)) in *. lia.
  - cbn [receive_request concat] in *. change (crlf ++ crlf) with blank_line.
    destruct chunk as [|c chunk]; [done|]. rewrite bool_decide_false.
    2:{ intros [i Hi]. pose proof (find_text_length _ _ _ Hi) as Hl. change (length blank_line) with 4%nat in Hl.
        pose proof (Hend _ (find_text_app _ _ _ _ Hi)) as ->. rewrite length_app in Hl. cbn in Hl. lia. }
    rewrite (assoc_L (++)) in *.
    destruct (Z.ltb_spec (16 * 1024) (Z.of_nat (length (request ++ c :: chunk)))); [done|]. apply IH; [done|lia].
Qed.

(** *** A run with a client that connects in it *)

Lemma run_app takes events events' g g1 :
  run takes events g = (Ok tt, g1) → run takes (events ++ events') g = run takes events' g1.
Proof.
  revert g. induction events as [|event events IH]; intros g; cbn [app run]; [by intros [= ->]|].
  unfold bind. destruct (handle takes event g) as [[[]|e] g2]; [|done]. apply IH.
Qed.

Lemma accept_answered takes socket chunks response g :
  perform_handshake chunks = Responded response →
  let taken := takes g socket response in
  accept_client takes socket chunks g =
    if (length response <=? taken)%nat
    then (Ok tt, mk (clients_ g ++ [socket]) (delivered g ++ [(socket, response)]) (closed g))
    else (Ok tt, mk (clients_ g) (delivered g ++ [(socket, take taken response)]) (closed g ++ [socket])).
Proof.
  intros Hh taken. unfold accept_client. rewrite Hh.
  unfold close_client, bind, send_all, get, modify, ret. 
  cbn. fold taken. destruct (length response <=? taken)%nat eqn:Htaken; cbn.
  - apply Nat.leb_le in Htaken. by rewrite take_ge.
  - reflexivity.
Qed.

Lemma accept_responded takes socket chunks response g :
  perform_handshake chunks = Responded response → (length response ≤ takes g socket response)%nat →
  accept_client takes socket chunks g =
    (Ok tt, mk (clients_ g ++ [socket]) (delivered g ++ [(socket, response)]) (closed g)).
Proof.
  intros Hh Htakes. rewrite (accept_answered _ _ _ _ _ Hh). cbv zeta.
  rewrite (proj2 (Nat.leb_le _ _) Htakes). reflexivity.
Qed.

Lemma entries_none client sockets : client ∉ sockets → entries client sockets = [].
Proof.
  intros Hnot. induction sockets as [|s sockets IH]; [done|].
  apply not_elem_of_cons in Hnot as [Hs Hnot]. rewrite entries_cons, decide_False by done. by apply IH.
Qed.

Lemma entries_some client sockets : entries client sockets ≠ [] → client ∈ sockets.
Proof.
  intros He. destruct (decide (client ∈ sockets)) as [|Hnot]; [done|].
  exfalso. by apply He, entries_none.
Qed.

(** ** Correctness *)

(** C27. The handshake of a connection, however its request is cut into
    pieces.  A request longer than 16 KiB is closed without an answer.  A
    shorter one that has a header of the name Sec-WebSocket-Key, in exactly this
    spelling, is answered with the accept key of the first one's value (its
    leading blanks skipped); the client joins the clients exactly when its socket
    takes the whole answer, and is closed otherwise; a request with no header of
    that spelling is closed without an answer.  A request that has not ended is
    waited for until it is longer than 16 KiB, and then its connection is
    closed. *)
Theorem handshake_exact takes socket chunks start headers g :
  pieces chunks →
  (concat chunks = request_text start headers ∧ (x0a ∉ start) ∧ (x3a ∉ start) ∧ Forall header_ok headers →
   accept_client takes socket chunks g =
     if 16 * 1024 <? Z.of_nat (length (concat chunks))
     then (Ok tt, mk (clients_ g) (delivered g) (closed g ++ [socket]))
     else
       match lookup_header key_header headers with
       | None => (Ok tt, mk (clients_ g) (delivered g) (closed g ++ [socket]))
       | Some key =>
           let response := handshake_response (WebSocketKey.websocket_accept_key key) in
           let taken := takes g socket response in
           if (length response <=? taken)%nat
           then (Ok tt, mk (clients_ g ++ [socket]) (delivered g ++ [(socket, response)]) (closed g))
           else (Ok tt, mk (clients_ g) (delivered g ++ [(socket, take taken response)]) (closed g ++ [socket]))
       end) ∧
  (Text.find_text blank_line (concat chunks) = None →
   accept_client takes socket chunks g =
     if 16 * 1024 <? Z.of_nat (length (concat chunks))
     then (Ok tt, mk (clients_ g) (delivered g) (closed g ++ [socket]))
     else (Ok tt, g)).
Proof.
  intros Hchunks. split.
  - intros (Htext & Hnl & Hcolon & Hheaders). pose proof (find_request_end start headers Hnl Hheaders) as Hend.
    destruct (Z.ltb_spec (16 * 1024) (Z.of_nat (length (concat chunks)))) as [Hlong|Hlen].
    { unfold accept_client, perform_handshake. rewrite (receive_request_long chunks [] Hchunks); [done| |by cbn in *; lia].
      cbn [app]. rewrite Htext, Hend. by intros i [= <-]. }
    assert (receive_request chunks [] = inl (request_text start headers)) as Hreceived
      by (apply receive_request_whole; [done|done|by rewrite <- Htext|done]).
    pose proof (header_value_request key_header start headers Hnl Hcolon Hheaders) as Hvalue.
    destruct (lookup_header key_header headers) as [key|].
    + apply accept_answered. unfold perform_handshake. rewrite Hreceived, Hvalue. reflexivity.
    + unfold accept_client, perform_handshake. rewrite Hreceived, Hvalue. reflexivity.
  - intros Hnone. unfold accept_client, perform_handshake.
    rewrite (receive_request_unended chunks [] Hchunks Hnone) by (cbn [length]; lia). cbn [app]. by destruct (_ <? _).
Qed.

(** C26. What the clients are told of the market.  A datagram is passed on
    exactly when it is a valid datagram of market data, and then the text that
    is sent parses as a JSON object whose members say what the datagram says:
    its type, symbol and sequence number, and each of its other fields. *)
Theorem json_exact datagram :
  (market_data_to_json datagram ≠ [] ↔ ∃ fields, market_datagram datagram fields) ∧
  ∀ fields, market_datagram datagram fields →
    read_object (market_data_to_json datagram) = Some fields.
Proof.
  assert (∀ fields, market_datagram datagram fields →
    read_object (market_data_to_json datagram) = Some fields) as Hread.
  { intros fields Hfields. rewrite (json_of_market _ _ Hfields).
    destruct Hfields as [header body fields _ _ Hbody]. apply event_plain in Hbody as [Hplain Hne].
    by apply read_object_written. }
  split; [|done]. split; [apply market_of_json|].
  intros [fields Hfields] Hnil. apply Hread in Hfields. by rewrite Hnil in Hfields.
Qed.

(** C25. The feed of a client, in any run of the gateway's threads.  From the
    moment its handshake is answered, a client whose socket keeps up is sent
    the answer and then frames that read, as RFC 6455 reads them, as exactly
    the texts of the events after it, in order, none missing, repeated or cut;
    it stays connected whatever the other clients do (refuse, fail, leave).
    Nothing from before it connected reaches it. *)
Theorem feed_delivered takes client before chunks response after g :
  keeps_up takes client →
  (client ∉ clients_ g) →
  received client g = [] →
  Forall (λ event, ¬ accepts client event) (before ++ after) →
  perform_handshake chunks = Responded response →
  Forall (λ text, Z.of_nat (length text) < 2 ^ 63) (after ≫= texts_of) →
  ∃ g', run takes (before ++ [Accepted client chunks] ++ after) g = (Ok tt, g') ∧
    client ∈ clients_ g' ∧
    take (length response) (received client g') = response ∧
    read_frames (length (after ≫= texts_of)) (drop (length response) (received client g')) =
      Some (after ≫= texts_of).
Proof.
  intros Hup Hnot Hnone [Hbefore Hafter]%Forall_app Hh Htexts.
  pose proof (entries_none client _ Hnot) as He.
  destruct (run_feed takes client before g Hbefore) as (g1 & Hg1 & He1 & Hr1); [by right|].
  rewrite decide_True, Hnone in Hr1 by done. rewrite (run_app _ _ _ _ _ Hg1). cbn [app run handle].
  pose proof (accept_responded takes client chunks response g1 Hh (Hup _ _)) as Ha.
  set (g2 := mk _ _ _) in Ha. unfold bind at 1. rewrite Ha.
  assert (received client g2 = response) as Hr2.
  { subst g2. rewrite received_snoc, Hr1, decide_True by done. done. }
  assert (entries client (clients_ g2) = [client]) as He2.
  { subst g2. cbn [clients_]. unfold entries in *. rewrite filter_app, He1, He. cbn [app].
    rewrite filter_cons_True by done. done. }
  destruct (run_feed takes client after g2 Hafter) as (g3 & Hg3 & He3 & Hr3); [by left|].
  exists g3. split; [done|]. rewrite decide_False in Hr3 by (rewrite He2; done).
  split; [apply entries_some; rewrite He3, He2; done|].
  rewrite Hr3, Hr2. rewrite take_app_length, drop_app_length. split; [done|].
  by apply read_frames_frames.
Qed.

(** ** Witnesses *)

Definition sample_headers : list Header :=
  [header (bytes_of "Host") [x20] (bytes_of "localhost:8080");
   header (bytes_of "Upgrade") [x20] (bytes_of "websocket");
   header (bytes_of "Sec-WebSocket-Key") [x20; x09] (bytes_of "dGhlIHNhbXBsZSBub25jZQ==")].
Definition sample_request : list byte := request_text (bytes_of "GET / HTTP/1.1") sample_headers.
Definition sample_chunks : list (list byte) := [take 60 sample_request; drop 60 sample_request].
Definition sample_response : list byte :=
  handshake_response (bytes_of "s3pPLMBiTxaQ9kYGzzhZRbK+xOo=").
Definition everything (g : t) (socket : Z) (bytes : list byte) : nat := length bytes.

Lemma sample_headers_ok : Forall header_ok sample_headers.
Proof.
  repeat (apply Forall_cons_2; [split; cbn [name blanks value]|]); [..|apply Forall_nil_2].
  all: try (split; refine (bool_decide_eq_true_1 _ _); vm_compute; reflexivity).
  all: try (split; [refine (bool_decide_eq_true_1 _ _); vm_compute; reflexivity|]).
  all: try (intros c [= <-] [H|H]; discriminate H).
  all: repeat (apply Forall_cons_2; [first [by left|by right]|]); apply Forall_nil_2.
Qed.

Lemma handshake_exact_witness :
  accept_client everything 7 sample_chunks (mk [3] [] []) =
    (Ok tt, mk [3; 7] [(7, sample_response)] []) ∧
  accept_client everything 7 [bytes_of "GET / HTTP/1.1"] (mk [3] [] []) = (Ok tt, mk [3] [] []).
Proof.
  split.
  - refine (eq_trans (proj1 (handshake_exact everything 7 sample_chunks (bytes_of "GET / HTTP/1.1")
      sample_headers (mk [3] [] []) _) _) _); [..|vm_compute; reflexivity].
    + repeat (apply Forall_cons_2; [by vm_compute|]). apply Forall_nil_2.
    + split; [vm_compute; reflexivity|]. split; [|split; [|exact sample_headers_ok]].
      all: refine (bool_decide_eq_true_1 _ _); vm_compute; reflexivity.
  - refine (proj2 (handshake_exact everything 7 [bytes_of "GET / HTTP/1.1"] [] [] (mk [3] [] []) _) _).
    + apply Forall_cons_2; [by vm_compute|apply Forall_nil_2].
    + by vm_compute.
Defined.

Definition sample_deleted : Protocol.Level3OrderDeleted.t :=
  Protocol.Level3OrderDeleted.mk 42 9 (Protocol.make_symbol "DEMO").
Definition sample_datagram : list byte :=
  let body := Protocol.encode_level3_order_deleted sample_deleted in
  Protocol.encode_header (Protocol.MessageHeader.mk Protocol.protocol_magic Protocol.protocol_version
    Protocol.MessageType.Level3OrderDeleted (Z.of_nat (length body)) 9) ++ body.

Lemma sample_market : market_datagram sample_datagram (delete_fields sample_deleted).
Proof.
  constructor; [repeat split; vm_compute; congruence|reflexivity|]. constructor.
  split; [split; vm_compute; congruence|]. split; [split; vm_compute; congruence|].
  split; vm_compute; reflexivity.
Qed.

Lemma json_exact_witness :
  market_data_to_json sample_datagram =
    bytes_of "{" ++ quoted "type" ++ bytes_of ":" ++ quoted "delete" ++ bytes_of "," ++
    quoted "symbol" ++ bytes_of ":" ++ quoted "DEMO" ++ bytes_of "," ++
    quoted "sequence" ++ bytes_of ":9," ++ quoted "orderId" ++ bytes_of ":42}" ∧
  read_object (market_data_to_json sample_datagram) = Some (delete_fields sample_deleted).
Proof.
  split; [vm_compute; reflexivity|].
  exact (proj2 (json_exact sample_datagram) _ sample_market).
Defined.

Definition sample_telemetry : list byte :=
  object [("type"%string, quoted "performance"); ("ordersPerSecond"%string, to_string 1000)].

(* client 7 connects between two broadcasts; client 3 leaves at the second *)
Definition sample_takes (g : t) (socket : Z) (bytes : list byte) : nat :=
  if decide (socket = 7) then length bytes else length bytes - length (delivered g).

Lemma feed_delivered_witness :
  ∃ g', run sample_takes ([Performance sample_telemetry] ++ [Accepted 7 sample_chunks] ++
                          [Performance (bytes_of "{}"); Performance sample_telemetry]) (mk [3] [] []) = (Ok tt, g') ∧
    7 ∈ clients_ g' ∧
    take (length sample_response) (received 7 g') = sample_response ∧
    read_frames 1 (drop (length sample_response) (received 7 g')) = Some [sample_telemetry].
Proof.
  refine (feed_delivered sample_takes 7 [Performance sample_telemetry] sample_chunks sample_response
    [Performance (bytes_of "{}"); Performance sample_telemetry] (mk [3] [] []) _ _ _ _ _ _).
  - intros g bytes. unfold sample_takes. by rewrite decide_True.
  - cbn [clients_]. intros [=]%list_elem_of_singleton.
  - by vm_compute.
  - repeat (apply Forall_cons_2; [intros []|]). apply Forall_nil_2.
  - vm_compute. reflexivity.
  - apply Forall_cons_2; [by vm_compute|apply Forall_nil_2].
Defined.
End WebSocketGateway.
