(* ===== verification/WebSocketThreads.v ===== *)
(** * The websocket gateway: its sockets and threads (src/websocket_gateway.cpp)

    [start], [stop], the opening of the three sockets and the loops of the three
    threads.  A step is a system call, a section under the mutex, or a test of
    [running_], of one of the threads or of the thread that calls [stop]; a
    broadcast, which holds the mutex while it sends, is a step for each client.
    What a thread does with a connection or a datagram in between is
    WebSocket.v.  The system answers as it likes, and a call that waits for a
    peer need not return: the steps are divided into those the program makes by
    itself and those that somebody else has to make possible. *)
From S2P Require Import Prelude Bytes Fix WebSocket Sockets.

Module WebSocketThreads.

Module WebSocketGatewayConfig.
Record t : Type := mk {
  websocket_port : Z;
  multicast_group : string;
  multicast_port : Z;
  performance_port : Z
}.
Definition default : t := mk 8080 "239.255.0.1" 9100 9200.
End WebSocketGatewayConfig.

Definition receive_buffer_size : Z := 2048.

(* the object, apart from its threads and clients *)
Record Object : Type := mk_object {
  config_ : WebSocketGatewayConfig.t;
  listen_socket_ : Z;
  multicast_socket_ : Z;
  performance_socket_ : Z;
  running_ : bool
}.

Definition new (config : WebSocketGatewayConfig.t) : Object := mk_object config (-1) (-1) (-1) false.
Definition set_listen (d : Z) (s : Object) : Object :=
  mk_object (config_ s) d (multicast_socket_ s) (performance_socket_ s) (running_ s).
Definition set_multicast (d : Z) (s : Object) : Object :=
  mk_object (config_ s) (listen_socket_ s) d (performance_socket_ s) (running_ s).
Definition set_performance (d : Z) (s : Object) : Object :=
  mk_object (config_ s) (listen_socket_ s) (multicast_socket_ s) d (running_ s).
Definition set_running (b : bool) (s : Object) : Object :=
  mk_object (config_ s) (listen_socket_ s) (multicast_socket_ s) (performance_socket_ s) b.

(** ** Opening *)

Section opening.
Context {W : Type} `{!System W}.

Definition open_websocket_listener : M (Object * W) bool :=
  d <- on_world (call (sys_socket Stream)) ;;
  on_object (set_listen d) ;;;
  if d <? 0 then ret false
  else
    on_world (call (sys_setsockopt d ReuseAddress)) ;;;
    s <- the_object ;;
    bound <- on_world (call (sys_bind d inaddr_any (WebSocketGatewayConfig.websocket_port (config_ s)))) ;;
    if negb (bound =? 0) then close_field d set_listen
    else
      listening <- on_world (call (sys_listen d 16)) ;;
      if negb (listening =? 0) then close_field d set_listen else ret true.

Definition open_multicast_receiver : M (Object * W) bool :=
  d <- on_world (call (sys_socket Datagrams)) ;;
  on_object (set_multicast d) ;;;
  if d <? 0 then ret false
  else
    reused <- on_world (call (sys_setsockopt d ReuseAddress)) ;;
    if negb (reused =? 0) then close_field d set_multicast
    else
      s <- the_object ;;
      bound <- on_world (call (sys_bind d inaddr_any (WebSocketGatewayConfig.multicast_port (config_ s)))) ;;
      if negb (bound =? 0) then close_field d set_multicast
      else
        match inet_pton (WebSocketGatewayConfig.multicast_group (config_ s)) with
        | None => close_field d set_multicast
        | Some group =>
            joined <- on_world (call (sys_setsockopt d (AddMembership group))) ;;
            if negb (joined =? 0) then close_field d set_multicast else ret true
        end.

Definition open_performance_receiver : M (Object * W) bool :=
  d <- on_world (call (sys_socket Datagrams)) ;;
  on_object (set_performance d) ;;;
  if d <? 0 then ret false
  else
    reused <- on_world (call (sys_setsockopt d ReuseAddress)) ;;
    if negb (reused =? 0) then close_field d set_performance
    else
      s <- the_object ;;
      bound <- on_world (call (sys_bind d inaddr_loopback
        (WebSocketGatewayConfig.performance_port (config_ s)))) ;;
      if negb (bound =? 0) then close_field d set_performance else ret true.

(* start, up to the threads *)
Definition open_sockets : M (Object * W) bool :=
  listening <- open_websocket_listener ;;
  if negb listening then ret false
  else
    receiving <- open_multicast_receiver ;;
    if negb receiving
    then s <- the_object ;; close_field (listen_socket_ s) set_listen
    else
      measuring <- open_performance_receiver ;;
      if negb measuring
      then
        s <- the_object ;;
        on_world (call_ (sys_close (multicast_socket_ s))) ;;;
        on_object (set_multicast (-1)) ;;;
        close_field (listen_socket_ s) set_listen
      else on_object (set_running true) ;;; ret true.
End opening.

(** ** Threads *)

Inductive AcceptPoint : Type :=
  | TestRunning                  (* at the top of the loop *)
  | Accept                       (* in accept *)
  | Handshake (client : Z)       (* in perform_handshake, up to its answer or close *)
  | Register (client : Z).       (* at the lock of the mutex, to push_back *)

Inductive LoopPoint : Type :=
  | TestLoop                                    (* at the top of the loop *)
  | Receive                                     (* in recv *)
  | Broadcast (text : list byte)                (* broadcast_text, at the lock of the mutex *)
  | Sending (frame : list byte) (iterator : nat).   (* in its loop, with the mutex *)

(* a std::thread: empty, running at a point, or ended and not joined *)
Inductive Thread (P : Type) : Type :=
  | NoThread
  | At (point : P)
  | Ended.
Arguments NoThread {P}. Arguments At {P}. Arguments Ended {P}.

(* the thread that owns the object *)
Inductive CallerPoint : Type :=
  | Outside
  | RunAccept | RunMulticast | RunPerformance                    (* run: the joins *)
  | CloseListener | CloseMulticast | ClosePerformance | CloseClients
  | JoinAccept | JoinMulticast | JoinPerformance                 (* stop: the joins *)
  | Stopped.

Section threads.
Context {W : Type} `{!System W}.

Record Process : Type := mk_process {
  own : Object;
  gateway : WebSocketGateway.t;                (* clients_, and what they were sent *)
  accept_thread : Thread AcceptPoint;
  multicast_thread : Thread LoopPoint;
  performance_thread : Thread LoopPoint;
  caller : CallerPoint;
  world : W
}.

Definition set_own (s : Object) (p : Process) : Process :=
  mk_process s (gateway p) (accept_thread p) (multicast_thread p) (performance_thread p) (caller p) (world p).
Definition set_accept (x : Thread AcceptPoint) (p : Process) : Process :=
  mk_process (own p) (gateway p) x (multicast_thread p) (performance_thread p) (caller p) (world p).
Definition set_multicast_thread (x : Thread LoopPoint) (p : Process) : Process :=
  mk_process (own p) (gateway p) (accept_thread p) x (performance_thread p) (caller p) (world p).
Definition set_performance_thread (x : Thread LoopPoint) (p : Process) : Process :=
  mk_process (own p) (gateway p) (accept_thread p) (multicast_thread p) x (caller p) (world p).
Definition set_caller (x : CallerPoint) (p : Process) : Process :=
  mk_process (own p) (gateway p) (accept_thread p) (multicast_thread p) (performance_thread p) x (world p).
Definition set_world (w : W) (p : Process) : Process :=
  mk_process (own p) (gateway p) (accept_thread p) (multicast_thread p) (performance_thread p) (caller p) w.
Definition set_gateway (g : WebSocketGateway.t) (p : Process) : Process :=
  mk_process (own p) g (accept_thread p) (multicast_thread p) (performance_thread p) (caller p) (world p).

(* the call of stop, from outside or from start *)
Definition stop (p : Process) : Process :=
  set_caller CloseListener (set_own (set_running false (own p)) p).

(* [threads]: how many threads the system creates; the constructor of
   std::thread throws when it creates none, and start then stops *)
Definition start (threads : nat) (p : Process) : res bool * Process :=
  if running_ (own p) then (Ok true, p)
  else
    let '(opened, (s, w)) := open_sockets (own p, world p) in
    let p := set_world w (set_own s p) in
    match opened with
    | Ok true =>
        let p := if (0 <? threads)%nat then set_accept (At TestRunning) p else p in
        let p := if (1 <? threads)%nat then set_multicast_thread (At TestLoop) p else p in
        let p := if (2 <? threads)%nat then set_performance_thread (At TestLoop) p else p in
        if (2 <? threads)%nat then (Ok true, p) else (Ok false, stop p)
    | _ => (opened, p)
    end.

(** clients_mutex_.  stop and accept_loop take and release it in a step; only a
    broadcast holds it from step to step. *)
Definition is_sending (x : Thread LoopPoint) : bool :=
  match x with At (Sending _ _) => true | _ => false end.
Definition locked (p : Process) : bool :=
  is_sending (multicast_thread p) || is_sending (performance_thread p).

(* the sockets a section closed, in the system *)
Definition close_all (sockets : list Z) (w : W) : W :=
  foldl (λ w d, sys_close d (sys_shutdown d w)) w sockets.

(* joinable() and join(): None while the thread runs *)
Definition join {P} (x : Thread P) (p : Process) : option Process :=
  match x with At _ => None | _ => Some p end.

(* run *)
Definition run (p : Process) : Process := set_caller RunAccept p.

(* a step of run or of stop; None while it waits for a thread or for the mutex *)
Definition caller_step (p : Process) : option Process :=
  let s := own p in
  match caller p with
  | Outside | Stopped => None
  | RunAccept => join (accept_thread p) (set_caller RunMulticast (set_accept NoThread p))
  | RunMulticast => join (multicast_thread p) (set_caller RunPerformance (set_multicast_thread NoThread p))
  | RunPerformance => join (performance_thread p) (set_caller Outside (set_performance_thread NoThread p))
  | CloseListener =>
      Some (set_caller CloseMulticast (set_world (closed_at (listen_socket_ s) (world p))
        (set_own (set_listen (vacated (listen_socket_ s)) s) p)))
  | CloseMulticast =>
      Some (set_caller ClosePerformance (set_world (closed_at (multicast_socket_ s) (world p))
        (set_own (set_multicast (vacated (multicast_socket_ s)) s) p)))
  | ClosePerformance =>
      Some (set_caller CloseClients (set_world (closed_at (performance_socket_ s) (world p))
        (set_own (set_performance (vacated (performance_socket_ s)) s) p)))
  | CloseClients =>
      let g := gateway p in
      if locked p then None
      else Some (set_caller JoinAccept (set_world (close_all (WebSocketGateway.clients_ g) (world p))
        (set_gateway (WebSocketGateway.mk [] (WebSocketGateway.delivered g)
          (WebSocketGateway.closed g ++ WebSocketGateway.clients_ g)) p)))
  | JoinAccept => join (accept_thread p) (set_caller JoinMulticast (set_accept NoThread p))
  | JoinMulticast => join (multicast_thread p) (set_caller JoinPerformance (set_multicast_thread NoThread p))
  | JoinPerformance => join (performance_thread p) (set_caller Stopped (set_performance_thread NoThread p))
  end.

(* while (running_.load()) *)
Definition accept_test (p : Process) : Process :=
  set_accept (if running_ (own p) then At Accept else Ended) p.


(* accept returns *)
Definition accept_return (p : Process) : Process :=
  let '(answer, w) := sys_accept (listen_socket_ (own p)) (world p) in
  let d := result answer in
  set_world w (set_accept (if d <? 0 then Ended else At (Handshake d)) p).

(* recv on a socket of datagrams: None ends the loop *)
Definition datagram_received (d size : Z) (w : W) : option (list byte) * W :=
  let '(answer, bytes, w') := sys_recv d size w in
  (if result answer <=? 0 then None else Some bytes, w').

(* the loops: what a datagram leads to *)
Definition multicast_point (datagram : list byte) : LoopPoint :=
  let json := WebSocketGateway.market_data_to_json datagram in
  if bool_decide (json = []) then TestLoop else Broadcast json.
Definition performance_point (json : list byte) : LoopPoint :=
  if bool_decide (is_Some (Text.find_text WebSocketGateway.performance_mark json))
  then Broadcast json else TestLoop.

(* perform_handshake and what follows when it fails; true: the client is
   still to be added *)
Definition greet (takes : WebSocketGateway.t → Z → list byte → nat) (client : Z)
    (chunks : list (list byte)) : M WebSocketGateway.t bool :=
  match WebSocketGateway.perform_handshake chunks with
  | WebSocketGateway.Responded response =>
      sent <- WebSocketGateway.send_all takes client response ;;
      if negb sent then WebSocketGateway.close_client client ;;; ret false else ret true
  | _ => WebSocketGateway.close_client client ;;; ret false
  end.

Definition push_back (client : Z) (g : WebSocketGateway.t) : WebSocketGateway.t :=
  WebSocketGateway.mk (WebSocketGateway.clients_ g ++ [client]) (WebSocketGateway.delivered g)
    (WebSocketGateway.closed g).

(* a turn of the loop of broadcast_text: send_all to the client at the
   iterator, which then goes on, or the client is erased *)
Definition send_next (takes : WebSocketGateway.t → Z → list byte → nat) (frame : list byte)
    (iterator : nat) (client : Z) : M WebSocketGateway.t nat :=
  sent <- WebSocketGateway.send_all takes client frame ;;
  if sent then ret (S iterator)
  else
    WebSocketGateway.close_client client ;;;
    modify (λ g, WebSocketGateway.mk (delete iterator (WebSocketGateway.clients_ g))
      (WebSocketGateway.delivered g) (WebSocketGateway.closed g)) ;;;
    ret iterator.

(** A step is the program's own, or needs somebody else: the owner of the object
    who calls start, run or stop, or the peers: a client that connects, that
    speaks and reads in its handshake or that reads what is broadcast, the
    publisher whose datagram arrives. *)
Inductive Who : Type := Program | Others.

(* a call on one of the gateway's sockets, which returns by itself once stop
   has shut the socket down *)
Definition until_closed (d : Z) : Who := if d <? 0 then Program else Others.

(** The steps of multicast_loop and of performance_loop, on their socket [d]:
    where the thread is then, and what becomes of the clients and the system.
    How much of a message a socket takes ([takes]) is up to the system. *)
Inductive loop_step (running locked : bool) (d size : Z) (on_datagram : list byte → LoopPoint)
    (g : WebSocketGateway.t) (w : W) :
    Who → LoopPoint → Thread LoopPoint → WebSocketGateway.t → W → Prop :=
  | loop_tests :
      loop_step running locked d size on_datagram g w Program TestLoop
        (if running then At Receive else Ended) g w
  | loop_ends w' :
      datagram_received d size w = (None, w') →
      loop_step running locked d size on_datagram g w (until_closed d) Receive Ended g w'
  | loop_receives datagram w' :
      datagram_received d size w = (Some datagram, w') →
      loop_step running locked d size on_datagram g w (until_closed d) Receive (At (on_datagram datagram)) g w'
  | loop_locks text :
      locked = false →
      loop_step running locked d size on_datagram g w Program (Broadcast text)
        (At (Sending (WebSocketGateway.websocket_text_frame text) 0)) g w
  | loop_sends takes frame iterator client iterator' g' w' :
      WebSocketGateway.clients_ g !! iterator = Some client →
      send_next takes frame iterator client g = (Ok iterator', g') →
      descriptors w' = descriptors w →
      loop_step running locked d size on_datagram g w Others (Sending frame iterator)
        (At (Sending frame iterator')) g' w'
  | loop_unlocks frame iterator :
      WebSocketGateway.clients_ g !! iterator = None →
      loop_step running locked d size on_datagram g w Program (Sending frame iterator) (At TestLoop) g w.

(* a section of the program that sends and closes: the system is left as it
   was but for the sockets that are closed now *)
Definition after_section (g' : WebSocketGateway.t) (w : W) (p : Process) : Process :=
  set_gateway g' (set_world (close_all (drop (length (WebSocketGateway.closed (gateway p)))
    (WebSocketGateway.closed g')) w) p).

(** One step of one thread.  What a client sends in its handshake ([chunks]) is
    up to the client. *)
Inductive step : Who → Process → Process → Prop :=
  | start_called threads b p p' :
      caller p = Outside ∨ caller p = Stopped → start threads (set_caller Outside p) = (Ok b, p') →
      step Others p p'
  | run_called p : caller p = Outside → step Others p (run p)
  | stop_called p : caller p = Outside ∨ caller p = Stopped → step Others p (stop p)
  | caller_steps p p' : caller_step p = Some p' → step Program p p'
  | accept_tests p : accept_thread p = At TestRunning → step Program p (accept_test p)
  | accept_returns p :
      accept_thread p = At Accept → step (until_closed (listen_socket_ (own p))) p (accept_return p)
  | handshakes client chunks takes b g' w' p :
      accept_thread p = At (Handshake client) →
      WebSocketGateway.perform_handshake chunks ≠ WebSocketGateway.Waiting →
      greet takes client chunks (gateway p) = (Ok b, g') →
      descriptors w' = descriptors (world p) →
      step Others p (set_accept (if b then At (Register client) else At TestRunning) (after_section g' w' p))
  | registers client p :
      accept_thread p = At (Register client) → locked p = false →
      step Program p (set_accept (At TestRunning) (set_gateway (push_back client (gateway p)) p))
  | multicast_steps who x y g' w' p :
      multicast_thread p = At x →
      loop_step (running_ (own p)) (locked p) (multicast_socket_ (own p)) receive_buffer_size multicast_point
        (gateway p) (world p) who x y g' w' →
      step who p (set_multicast_thread y (after_section g' w' p))
  | performance_steps who x y g' w' p :
      performance_thread p = At x →
      loop_step (running_ (own p)) (locked p) (performance_socket_ (own p))
        WebSocketGateway.performance_buffer_size performance_point (gateway p) (world p) who x y g' w' →
      step who p (set_performance_thread y (after_section g' w' p)).

Definition constructed (config : WebSocketGatewayConfig.t) (w : W) : Process :=
  mk_process (new config) (WebSocketGateway.mk [] [] []) NoThread NoThread NoThread Outside w.

Inductive reachable (config : WebSocketGatewayConfig.t) (w0 : W) : Process → Prop :=
  | reachable_constructed : reachable config w0 (constructed config w0)
  | reachable_step who p p' : reachable config w0 p → step who p p' → reachable config w0 p'.
End threads.
Arguments Process : clear implicits.

(** ** Opening the sockets *)

Section opened.
Context {W : Type} `{!System W, !SystemLaws W} (base : gset Z) (l : list Z).
Implicit Types (s : Object) (w : W).

Ltac opens :=
  apply opens_socket; [done| |done]; intros d Hd;
  repeat first
    [ apply decides_true; [done|exact Hd] | apply decides_close; done
    | apply decides_object; intros ?
    | apply decides_call; [intros; apply setsockopt_descriptors || apply bind_descriptors || apply listen_descriptors|intros ?]
    | match goal with |- decides _ _ _ _ (if ?b then _ else _) _ => destruct b end
    | match goal with |- decides _ _ _ _ (match ?o with None => _ | Some _ => _ end) _ => destruct o end ].

Lemma listener_opened s w : owned base l w → opens_field set_listen base l open_websocket_listener s w.
Proof. intros Ho. unfold open_websocket_listener. opens. Qed.

Lemma multicast_opened s w : owned base l w → opens_field set_multicast base l open_multicast_receiver s w.
Proof. intros Ho. unfold open_multicast_receiver. opens. Qed.

Lemma performance_opened s w :
  owned base l w → opens_field set_performance base l open_performance_receiver s w.
Proof. intros Ho. unfold open_performance_receiver. opens. Qed.
End opened.

(* the three fields *)
Definition sockets (s : Object) : list Z :=
  field (listen_socket_ s) ++ field (multicast_socket_ s) ++ field (performance_socket_ s).

Definition all_closed (s : Object) : Prop :=
  listen_socket_ s < 0 ∧ multicast_socket_ s < 0 ∧ performance_socket_ s < 0.

Lemma sockets_closed s : all_closed s → sockets s = [].
Proof. intros (H1 & H2 & H3). unfold sockets. by rewrite !field_none. Qed.

(** The sockets are all open, or all closed again. *)
Lemma sockets_opened {W} `{!System W, !SystemLaws W} base l s (w : W) :
  all_closed s → running_ s = false → owned base l w →
  ∃ b s' w', open_sockets (s, w) = (Ok b, (s', w')) ∧ config_ s' = config_ s ∧ running_ s' = b ∧
    owned base (sockets s' ++ l) w' ∧ (b = false → all_closed s').
Proof.
  intros (C1 & C2 & C3) Hr Ho. unfold open_sockets.
  destruct (listener_opened base l s w Ho) as (b1 & d1 & w1 & s1 & E1 & -> & O1 & B1).
  unfold bind at 1. rewrite E1. destruct b1; cbn [negb].
  2: { exists false, (set_listen d1 s), w1. split; [done|]. split; [done|]. split; [done|].
       assert (all_closed (set_listen d1 s)) as Hc by (by split_and!).
       rewrite field_none in O1 by done. by rewrite sockets_closed. }
  destruct (multicast_opened base (field d1 ++ l) (set_listen d1 s) w1 O1) as (b2 & d2 & w2 & s2 & E2 & -> & O2 & B2).
  unfold bind at 1. rewrite E2. destruct b2; cbn [negb].
  2: { rewrite (field_none d2), (field_open d1) in O2 by done.
       eexists false, _, _. split; [reflexivity|]. split; [done|]. split; [done|].
       assert (all_closed (set_listen (-1) (set_multicast d2 (set_listen d1 s)))) as Hc by (by split_and!).
       rewrite sockets_closed by done. split; [by apply owned_close|done]. }
  destruct (performance_opened base (field d2 ++ field d1 ++ l) (set_multicast d2 (set_listen d1 s)) w2 O2)
    as (b3 & d3 & w3 & s3 & E3 & -> & O3 & B3).
  unfold bind at 1. rewrite E3. destruct b3; cbn [negb].
  - eexists true, _, _. split; [reflexivity|]. split; [done|]. split; [done|]. split; [|done].
    eapply owned_perm; [|exact O3]. unfold sockets. cbn. rewrite <- !(assoc_L (++)).
    rewrite (Permutation_app_swap_app (field d3)). rewrite !(assoc_L (++)). apply Permutation_app_tail.
    rewrite <- !(assoc_L (++)). rewrite (Permutation_app_comm (field d3)). apply Permutation_app_swap_app.
  - rewrite (field_none d3), (field_open d1), (field_open d2) in O3 by done.
    eexists false, _, _. split; [reflexivity|]. split; [done|]. split; [done|].
    assert (all_closed (set_listen (-1) (set_multicast (-1) (set_performance d3 (set_multicast d2 (set_listen d1 s))))))
      as Hc by (by split_and!).
    rewrite sockets_closed by done. split; [|done]. cbn. by do 2 apply owned_close.
Qed.

(** ** What the sections do to the clients *)

(* some clients are closed, the others stay *)
Definition parts (before : list Z) (g g' : WebSocketGateway.t) : Prop :=
  ∃ gone, WebSocketGateway.closed g' = WebSocketGateway.closed g ++ gone ∧
    before ≡ₚ gone ++ WebSocketGateway.clients_ g'.

Lemma send_all_same takes d bytes g :
  ∃ b g', WebSocketGateway.send_all takes d bytes g = (Ok b, g') ∧
    WebSocketGateway.clients_ g' = WebSocketGateway.clients_ g ∧
    WebSocketGateway.closed g' = WebSocketGateway.closed g.
Proof.
  unfold WebSocketGateway.send_all, bind, get, modify, ret. cbn zeta.
  eexists _, _. split; [reflexivity|done].
Qed.

Lemma greet_parts takes client chunks b g g' :
  greet takes client chunks g = (Ok b, g') →
  WebSocketGateway.clients_ g' = WebSocketGateway.clients_ g ∧
  WebSocketGateway.closed g' = WebSocketGateway.closed g ++ (if b then [] else [client]).
Proof.
  unfold greet. destruct (WebSocketGateway.perform_handshake chunks).
  - by intros [= <- <-].
  - by intros [= <- <-].
  - unfold bind at 1. destruct (send_all_same takes client response g) as (sent & g1 & -> & H1 & H2).
    destruct sent; intros [= <- <-]; cbn; by rewrite ?app_nil_r, ?H1, ?H2.
Qed.

Lemma send_next_parts takes frame iterator client i g g' :
  WebSocketGateway.clients_ g !! iterator = Some client →
  send_next takes frame iterator client g = (Ok i, g') →
  parts (WebSocketGateway.clients_ g) g g' ∧
  (i = S iterator ∧ WebSocketGateway.clients_ g' = WebSocketGateway.clients_ g ∨
   i = iterator ∧ WebSocketGateway.clients_ g' = delete iterator (WebSocketGateway.clients_ g)).
Proof.
  intros Hc. unfold send_next, bind at 1.
  destruct (send_all_same takes client frame g) as (sent & g1 & -> & H1 & H2).
  destruct sent; intros [= <- <-]; unfold parts; cbn; rewrite H1, H2.
  - split; [exists []; by rewrite app_nil_r|by left].
  - split; [|by right]. exists [client]. split; [done|]. by apply delete_Permutation.
Qed.

Lemma parts_none g : parts (WebSocketGateway.clients_ g) g g.
Proof. exists []. by rewrite app_nil_r. Qed.

(** *** The sections and the steps that make them up *)

(* a handshake and the addition of its client are the step of the event *)
Lemma greet_accepts takes client chunks g :
  WebSocketGateway.perform_handshake chunks ≠ WebSocketGateway.Waiting →
  WebSocketGateway.accept_client takes client chunks g =
    match greet takes client chunks g with
    | (Ok b, g') => (Ok tt, if b then push_back client g' else g')
    | (Throw e, g') => (Throw e, g')
    end.
Proof.
  unfold WebSocketGateway.accept_client, greet.
  destruct (WebSocketGateway.perform_handshake chunks); [done|done|]. intros _. unfold bind at 1 2.
  by destruct (send_all_same takes client response g) as ([] & g1 & -> & _).
Qed.

(* the loop of broadcast_text, from an iterator to its end *)
Inductive broadcasts (takes : WebSocketGateway.t → Z → list byte → nat) (frame : list byte) :
    nat → WebSocketGateway.t → WebSocketGateway.t → Prop :=
  | broadcasts_end i g : WebSocketGateway.clients_ g !! i = None → broadcasts takes frame i g g
  | broadcasts_next i client i' g g1 g' :
      WebSocketGateway.clients_ g !! i = Some client →
      send_next takes frame i client g = (Ok i', g1) →
      broadcasts takes frame i' g1 g' → broadcasts takes frame i g g'.

Lemma broadcasts_loop takes frame i h g' :
  (∀ g1 g2, WebSocketGateway.delivered g1 = WebSocketGateway.delivered g2 → takes g1 = takes g2) →
  broadcasts takes frame i h g' → ∀ stay todo h0,
    WebSocketGateway.clients_ h = stay ++ todo → i = length stay →
    WebSocketGateway.delivered h0 = WebSocketGateway.delivered h →
    WebSocketGateway.closed h0 = WebSocketGateway.closed h →
    ∃ rest h0', WebSocketGateway.broadcast_loop takes frame todo h0 = (Ok rest, h0') ∧
      g' = WebSocketGateway.mk (stay ++ rest) (WebSocketGateway.delivered h0') (WebSocketGateway.closed h0').
Proof.
  intros Htakes Hrun. induction Hrun as [i h Hend|i client i' h h1 h' Hc Hsend _ IH];
    intros stay todo h0 Hs -> Hd Hcl.
  - rewrite Hs, lookup_app_r, Nat.sub_diag in Hend by done. destruct todo; [|done].
    exists [], h0. split; [done|]. rewrite Hd, Hcl. rewrite <- Hs. by destruct h.
  - rewrite Hs, lookup_app_r, Nat.sub_diag in Hc by done. destruct todo as [|c todo]; [done|].
    injection Hc as ->. cbn [WebSocketGateway.broadcast_loop].
    unfold send_next, WebSocketGateway.send_all, bind, get, modify, ret in Hsend. cbn zeta in Hsend.
    unfold WebSocketGateway.send_all, bind, get, modify, ret. cbn zeta. rewrite (Htakes h0 h) by done.
    destruct (length frame <=? takes h client frame)%nat eqn:E; injection Hsend as <- <-.
    + destruct (IH (stay ++ [client]) todo (WebSocketGateway.mk (WebSocketGateway.clients_ h0)
        (WebSocketGateway.delivered h0 ++ [(client, take (takes h client frame) frame)])
        (WebSocketGateway.closed h0))) as (rest & h0' & Hl & ->).
      { cbn. by rewrite Hs, <- (assoc_L (++)). }
      { rewrite length_app. simpl. lia. }
      { cbn. by rewrite Hd. }
      { done. }
      exists (client :: rest), h0'. cbn. rewrite Hl.
      by rewrite <- (assoc_L (++)).
    + destruct (IH stay todo (WebSocketGateway.mk (WebSocketGateway.clients_ h0)
        (WebSocketGateway.delivered h0 ++ [(client, take (takes h client frame) frame)])
        (WebSocketGateway.closed h0 ++ [client]))) as (rest & h0' & Hl & ->).
      { cbn. rewrite Hs. apply (delete_middle stay todo client). }
      { done. }
      { cbn. by rewrite Hd. }
      { cbn. by rewrite Hcl. }
      exists rest, h0'. cbn. by rewrite Hl.
Qed.

(** The steps of a broadcast, which nobody who needs the mutex interrupts, are
    [broadcast_text]. *)
Lemma broadcasts_text takes text g g' :
  (∀ g1 g2, WebSocketGateway.delivered g1 = WebSocketGateway.delivered g2 → takes g1 = takes g2) →
  broadcasts takes (WebSocketGateway.websocket_text_frame text) 0 g g' →
  WebSocketGateway.broadcast_text takes text g = (Ok tt, g').
Proof.
  intros Htakes Hrun.
  destruct (broadcasts_loop _ _ _ _ _ Htakes Hrun [] (WebSocketGateway.clients_ g) g)
    as (rest & h0' & Hl & ->); [done..|].
  unfold WebSocketGateway.broadcast_text, bind at 1, get. unfold bind. by rewrite Hl.
Qed.

(** ** Accounts and points *)

Section accounts.
Context {W : Type} `{!System W, !SystemLaws W, !Refusing W}.
Implicit Types (p : Process W) (w : W).

(* accepted, and not yet among the clients *)
Definition handshaking (x : Thread AcceptPoint) : list Z :=
  match x with At (Handshake client) | At (Register client) => [client] | _ => [] end.

(* a broadcast stands at one of the clients, or at their end *)
Definition within (x : Thread LoopPoint) (clients : list Z) : Prop :=
  match x with At (Sending _ iterator) => (iterator ≤ length clients)%nat | _ => True end.

(* the descriptors the gateway has to close *)
Definition held p : list Z :=
  sockets (own p) ++ handshaking (accept_thread p) ++ WebSocketGateway.clients_ (gateway p).

(* how far a call of stop has come *)
Definition stage (x : CallerPoint) : nat :=
  match x with
  | Outside | RunAccept | RunMulticast | RunPerformance => 0
  | CloseListener => 1 | CloseMulticast => 2 | ClosePerformance => 3 | CloseClients => 4
  | JoinAccept => 5 | JoinMulticast => 6 | JoinPerformance => 7 | Stopped => 8
  end.

(* at most one client, and none while another may come *)
Definition few_clients p : Prop :=
  WebSocketGateway.clients_ (gateway p) = [] ∨
  (length (WebSocketGateway.clients_ (gateway p)) ≤ 1)%nat ∧ handshaking (accept_thread p) = [].

Record sound (base : gset Z) p : Prop := {
  sound_owned : owned base (held p) (world p);
  sound_mutex : is_sending (multicast_thread p) = true → is_sending (performance_thread p) = true → False;
  sound_multicast_within : within (multicast_thread p) (WebSocketGateway.clients_ (gateway p));
  sound_performance_within : within (performance_thread p) (WebSocketGateway.clients_ (gateway p));
  sound_running : (1 ≤ stage (caller p))%nat → running_ (own p) = false;
  sound_idle : stage (caller p) = 0%nat → running_ (own p) = false →
    all_closed (own p) ∧ accept_thread p = NoThread ∧ multicast_thread p = NoThread ∧
    performance_thread p = NoThread;
  sound_listener : (2 ≤ stage (caller p))%nat → listen_socket_ (own p) < 0;
  sound_multicast : (3 ≤ stage (caller p))%nat → multicast_socket_ (own p) < 0;
  sound_performance : (4 ≤ stage (caller p))%nat → performance_socket_ (own p) < 0;
  sound_clients : (5 ≤ stage (caller p))%nat → few_clients p;
  sound_accept : (6 ≤ stage (caller p))%nat → accept_thread p = NoThread;
  sound_multicast_thread : (7 ≤ stage (caller p))%nat → multicast_thread p = NoThread;
  sound_performance_thread : (8 ≤ stage (caller p))%nat → performance_thread p = NoThread
}.

Lemma owned_close_all base gone l w : owned base (gone ++ l) w → owned base l (close_all gone w).
Proof.
  unfold close_all. revert w. induction gone as [|d gone IH]; intros w Ho; [done|].
  apply IH. by apply owned_close, owned_shutdown.
Qed.

(* a section that was entered with the clients [before] *)
Lemma owned_section base l before g g' w :
  parts before g g' → owned base (l ++ before) w →
  owned base (l ++ WebSocketGateway.clients_ g')
    (close_all (drop (length (WebSocketGateway.closed g)) (WebSocketGateway.closed g')) w).
Proof.
  intros (gone & -> & Hp) Ho. rewrite drop_app_length. apply owned_close_all.
  eapply owned_perm; [|exact Ho]. rewrite Hp, !(assoc_L (++)). apply Permutation_app_tail, Permutation_app_comm.
Qed.

Lemma vacated_negative d : vacated d < 0.
Proof. unfold vacated. destruct (Z.leb_spec 0 d); lia. Qed.

Lemma vacate base d l1 l2 w : owned base (l1 ++ field d ++ l2) w →
  owned base (l1 ++ field (vacated d) ++ l2) (closed_at d w).
Proof.
  intros Ho. apply owned_closed_at. rewrite field_vacated. eapply owned_perm; [|exact Ho].
  cbn. apply Permutation_app_swap_app.
Qed.

Lemma new_sound config w : sound (descriptors w) (constructed config w).
Proof. constructor; cbn; try lia; intros; [apply owned_none|]. done. Qed.

Lemma started_sound base p threads b p' :
  sound base p → caller p = Outside ∨ caller p = Stopped →
  start threads (set_caller Outside p) = (Ok b, p') → sound base p'.
Proof.
  intros Hp Hc. unfold start. cbn [own set_caller].
  destruct (running_ (own p)) eqn:Hr.
  { intros [= <- <-]. destruct Hp as [? ? ? ? Hs]. destruct Hc as [Hc|Hc]; rewrite Hc in *.
    - rewrite Hr in *. constructor; cbn; try lia; [done..|congruence].
    - rewrite Hs in Hr by (cbn; lia). done. }
  assert (all_closed (own p) ∧ accept_thread p = NoThread ∧ multicast_thread p = NoThread ∧
    performance_thread p = NoThread) as (Hclosed & Ha & Hm & Hq).
  { destruct Hc as [Hc|Hc]; [by apply Hp; [rewrite Hc|]|].
    destruct Hp as [_ _ _ _ _ _ H1 H2 H3 _ H4 H5 H6]. rewrite Hc in *. cbn in *.
    split_and!; [split_and!|..]; auto with lia. }
  pose proof (sound_owned _ _ Hp) as Ho. unfold held in Ho. rewrite sockets_closed, Ha in Ho by done.
  destruct (sockets_opened base _ (own p) (world p) Hclosed Hr Ho)
    as (opened & s' & w' & E & _ & Hrun & Ho' & Hfail).
  cbn [set_caller world]. rewrite E. destruct opened.
  2: { intros [= <- <-]. constructor; unfold held; cbn; rewrite ?Ha, ?Hm, ?Hq; try lia; try done; auto. }
  destruct threads as [|[|[|threads]]]; cbn [Nat.ltb Nat.leb]; intros [= <- <-];
    constructor; unfold held; cbn; rewrite ?Ha, ?Hm, ?Hq; try lia; try done; auto; congruence.
Qed.

(* the conditions that a step leaves as they are *)
Ltac same_conditions Hc :=
  constructor; unfold held, few_clients, handshaking in *; cbn in *; rewrite ?Hc in *; cbn in *;
  intros; try lia; try congruence; auto with lia.

Ltac idle :=
  match goal with H : _ = 0%nat → running_ _ = false → _ |- _ =>
    destruct (H ltac:(done) ltac:(done)) as (? & ? & ? & ?); by auto end.
Ltac few :=
  match goal with H : (5 ≤ _)%nat → _ ∨ _ |- _ =>
    destruct (H ltac:(lia)) as [?|[? ?]]; by auto end.

Lemma stop_sound base p : sound base p → caller p = Outside ∨ caller p = Stopped → sound base (stop p).
Proof. intros [] [Hc|Hc]; same_conditions Hc. Qed.

Lemma run_sound base p : sound base p → caller p = Outside → sound base (run p).
Proof. intros [] Hc. same_conditions Hc. Qed.

Lemma join_Some {P} (x : Thread P) p p' : join x p = Some p' → p' = p ∧ ∀ point, x ≠ At point.
Proof. unfold join. destruct x; try done; intros [= <-]; split; done. Qed.

Lemma handshaking_joined (x : Thread AcceptPoint) : (∀ point, x ≠ At point) → handshaking x = [].
Proof. destruct x as [|point|]; [done| |done]. by intros H; destruct (H point). Qed.

Lemma outside_within x clients : is_sending x = false → within x clients.
Proof. by destruct x as [|[]|]. Qed.

Lemma caller_step_sound base p p' : sound base p → caller_step p = Some p' → sound base p'.
Proof.
  intros Hp. pose proof (sound_owned _ _ Hp) as Ho. unfold held, sockets in Ho.
  unfold caller_step. destruct (caller p) eqn:Hc; try done;
    try (intros [-> Hj]%join_Some; try rewrite (handshaking_joined _ Hj) in Ho; destruct Hp; same_conditions Hc; first [idle|few]).
  - intros [= <-]. destruct Hp. same_conditions Hc; [|apply vacated_negative].
    unfold sockets. cbn. rewrite <- !(assoc_L (++)) in *. by apply (vacate base _ []).
  - intros [= <-]. destruct Hp. same_conditions Hc; [|apply vacated_negative].
    unfold sockets. cbn. rewrite <- !(assoc_L (++)) in *. by apply vacate.
  - intros [= <-]. destruct Hp. same_conditions Hc; [|apply vacated_negative].
    unfold sockets. cbn. rewrite <- !(assoc_L (++)) in *.
    rewrite (assoc_L (++) (field (listen_socket_ _))) in *. by apply vacate.
  - destruct (locked p) eqn:Hl; [done|]. apply orb_false_iff in Hl as [Hlm Hlp].
    intros [= <-]. destruct Hp. same_conditions Hc; try by apply outside_within.
    rewrite app_nil_r. apply owned_close_all. eapply owned_perm; [|exact sound_owned0].
    rewrite (Permutation_app_comm (WebSocketGateway.clients_ _)). by rewrite <- !(assoc_L (++)).
Qed.

(* use what is known in this state *)
Ltac known :=
  repeat match goal with H : ?A → ?B, H1 : ?A |- _ => specialize (H H1) end; destruct_and?;
  try done; try congruence.

(* a step of a thread that is at a point *)
Ltac thread_conditions :=
  constructor; unfold few_clients in *; cbn in *; intros; known.

Lemma accept_test_sound base p :
  sound base p → accept_thread p = At TestRunning → sound base (accept_test p).
Proof.
  intros [] Ht. unfold accept_test. assert (handshaking (if running_ (own p) then At Accept else Ended) = []) as Hh
    by by destruct (running_ (own p)).
  thread_conditions.
  - unfold held in *. cbn. rewrite Hh. by rewrite Ht in sound_owned0.
  - destruct sound_clients0 as [?|[? ?]]; auto.
Qed.

Lemma accept_return_sound base p :
  sound base p → accept_thread p = At Accept → sound base (accept_return p).
Proof.
  intros [] Ht. unfold accept_return.
  pose proof (accept_opens (listen_socket_ (own p)) (world p)) as Hd.
  pose proof (accept_refused (listen_socket_ (own p)) (world p)) as Hr.
  destruct (sys_accept (listen_socket_ (own p)) (world p)) as [answer w]. cbn [fst snd] in *.
  set (x := if result answer <? 0 then Ended else At (Handshake (result answer))).
  assert (handshaking x = field (result answer)) as Hx by (subst x; unfold field; by destruct (result answer <? 0)).
  thread_conditions.
  - unfold held in *. cbn. rewrite Hx. rewrite Ht in sound_owned0. cbn in sound_owned0.
    eapply owned_perm; [|eapply owned_opened; [exact Hd|exact sound_owned0]]. apply Permutation_app_swap_app.
  - assert (listen_socket_ (own p) < 0) as Hl by (apply sound_listener0; lia). specialize (Hr Hl).
    rewrite Hx, field_none by done. destruct sound_clients0 as [?|[? ?]]; auto.
Qed.

Lemma greet_sound base p client chunks takes b g' w' :
  sound base p → accept_thread p = At (Handshake client) →
  greet takes client chunks (gateway p) = (Ok b, g') → descriptors w' = descriptors (world p) →
  sound base (set_accept (if b then At (Register client) else At TestRunning) (after_section g' w' p)).
Proof.
  intros [] Ht Hg Hsame. destruct (greet_parts _ _ _ _ _ _ Hg) as [Hc Hcl].
  set (x := if b then At (Register client) else At TestRunning).
  assert (handshaking x = if b then [client] else []) as Hx by (subst x; by destruct b).
  thread_conditions.
  - unfold held in *. cbn. rewrite Hc, Hcl, Hx, drop_app_length. rewrite Ht in sound_owned0.
    eapply owned_same in sound_owned0; [|exact Hsame]. destruct b; cbn; [done|].
    apply owned_close, owned_shutdown. eapply owned_perm; [|exact sound_owned0]. cbn.
    by rewrite Permutation_middle.
  - rewrite Hc, Hx. rewrite Ht in sound_clients0. destruct sound_clients0 as [?|[_ ?]]; [by left|done].
Qed.

Lemma register_sound base p client :
  sound base p → accept_thread p = At (Register client) → locked p = false →
  sound base (set_accept (At TestRunning) (set_gateway (push_back client (gateway p)) p)).
Proof.
  intros [] Ht Hl. unfold locked in Hl. apply orb_false_iff in Hl as [Hm Hq].
  thread_conditions.
  - unfold held in *. cbn. rewrite Ht in sound_owned0. eapply owned_perm; [|exact sound_owned0]. cbn.
    apply Permutation_app_head, Permutation_cons_append.
  - by apply outside_within.
  - by apply outside_within.
  - rewrite Ht in sound_clients0. destruct sound_clients0 as [Hc|[_ ?]]; [|done].
    right. by rewrite Hc.
Qed.

Lemma received_same d size w r w' :
  datagram_received d size w = (r, w') → descriptors w' = descriptors w.
Proof.
  unfold datagram_received. pose proof (recv_descriptors d size w) as H.
  destruct (sys_recv d size w) as [[answer bytes] w1]. cbn [fst snd] in H. by intros [= _ <-].
Qed.

(* what a step of a loop does to what the threads share *)
Lemma loop_step_parts running locked d size on_datagram g (w : W) who x y g' w' :
  loop_step running locked d size on_datagram g w who x y g' w' →
  parts (WebSocketGateway.clients_ g) g g' ∧ descriptors w' = descriptors w.
Proof.
  intros []; try (split; [apply parts_none|done]).
  - split; [apply parts_none|by eapply received_same].
  - split; [apply parts_none|by eapply received_same].
  - split; [by eapply send_next_parts|done].
Qed.

Lemma loop_step_within running locked d size on_datagram g (w : W) who x y g' w' :
  (∀ datagram, is_sending (At (on_datagram datagram)) = false) →
  loop_step running locked d size on_datagram g w who x y g' w' →
  within (At x) (WebSocketGateway.clients_ g) →
  within y (WebSocketGateway.clients_ g') ∧
  (is_sending y = true → is_sending (At x) = true ∨ locked = false) ∧
  (is_sending (At x) = false → WebSocketGateway.clients_ g' = WebSocketGateway.clients_ g).
Proof.
  intros Hon [] Hx; try (split_and!; [done|by auto|done]).
  - by destruct running.
  - specialize (Hon datagram). by destruct (on_datagram datagram).
  - split_and!; [simpl; lia|by right|done].
  - apply lookup_lt_Some in H as Hlt. destruct (send_next_parts _ _ _ _ _ _ _ H H0) as [_ [[-> ->]|[-> ->]]];
      (split_and!; [|by left|done]); cbn; [lia|]. rewrite length_delete by eauto. lia.
Qed.

Lemma multicast_point_outside datagram : is_sending (At (multicast_point datagram)) = false.
Proof. unfold multicast_point. cbv zeta. by case_bool_decide. Qed.
Lemma performance_point_outside datagram : is_sending (At (performance_point datagram)) = false.
Proof. unfold performance_point. by case_bool_decide. Qed.

Lemma few_parts g g' (x : Thread AcceptPoint) :
  parts (WebSocketGateway.clients_ g) g g' →
  WebSocketGateway.clients_ g = [] ∨ (length (WebSocketGateway.clients_ g) ≤ 1)%nat ∧ handshaking x = [] →
  WebSocketGateway.clients_ g' = [] ∨ (length (WebSocketGateway.clients_ g') ≤ 1)%nat ∧ handshaking x = [].
Proof.
  intros (gone & _ & Hp) Hf. apply Permutation_length in Hp. rewrite length_app in Hp.
  destruct Hf as [Hc|[Hc Hh]].
  - left. rewrite Hc in Hp. apply length_zero_iff_nil. simpl in Hp. lia.
  - right. split; [lia|done].
Qed.

Lemma multicast_sound base p who x y g' w' :
  sound base p → multicast_thread p = At x →
  loop_step (running_ (own p)) (locked p) (multicast_socket_ (own p)) receive_buffer_size multicast_point
    (gateway p) (world p) who x y g' w' →
  sound base (set_multicast_thread y (after_section g' w' p)).
Proof.
  intros [] Ht Hstep. destruct (loop_step_parts _ _ _ _ _ _ _ _ _ _ _ _ Hstep) as [Hparts Hsame].
  rewrite Ht in sound_multicast_within0, sound_mutex0.
  destruct (loop_step_within _ _ _ _ _ _ _ _ _ _ _ _ multicast_point_outside Hstep sound_multicast_within0)
    as (Hin & Hlock & Hkept).
  unfold locked in Hlock. rewrite Ht in Hlock. thread_conditions.
  - unfold held in *. cbn. rewrite (assoc_L (++)). eapply (owned_section base _ _ _ _ w' Hparts).
    rewrite <- (assoc_L (++)). by eapply owned_same.
  - destruct Hlock as [?|[_ ?]%orb_false_iff]; [by apply sound_mutex0|congruence].
  - destruct (is_sending (At x)) eqn:Hx; [|by rewrite Hkept].
    destruct (performance_thread p) as [|[]|]; try done. by destruct sound_mutex0.
  - by eapply few_parts.
Qed.

Lemma performance_sound base p who x y g' w' :
  sound base p → performance_thread p = At x →
  loop_step (running_ (own p)) (locked p) (performance_socket_ (own p))
    WebSocketGateway.performance_buffer_size performance_point (gateway p) (world p) who x y g' w' →
  sound base (set_performance_thread y (after_section g' w' p)).
Proof.
  intros [] Ht Hstep. destruct (loop_step_parts _ _ _ _ _ _ _ _ _ _ _ _ Hstep) as [Hparts Hsame].
  rewrite Ht in sound_performance_within0, sound_mutex0.
  destruct (loop_step_within _ _ _ _ _ _ _ _ _ _ _ _ performance_point_outside Hstep sound_performance_within0)
    as (Hin & Hlock & Hkept).
  unfold locked in Hlock. rewrite Ht in Hlock. thread_conditions.
  - unfold held in *. cbn. rewrite (assoc_L (++)). eapply (owned_section base _ _ _ _ w' Hparts).
    rewrite <- (assoc_L (++)). by eapply owned_same.
  - destruct Hlock as [?|[? _]%orb_false_iff]; [by apply sound_mutex0|congruence].
  - destruct (is_sending (At x)) eqn:Hx; [|by rewrite Hkept].
    destruct (multicast_thread p) as [|[]|]; try done. by destruct sound_mutex0.
  - by eapply few_parts.
Qed.

Lemma step_sound base who p p' : sound base p → step who p p' → sound base p'.
Proof.
  intros Hp Hstep. destruct Hstep.
  - by eapply started_sound.
  - by apply run_sound.
  - by apply stop_sound.
  - by eapply caller_step_sound.
  - by apply accept_test_sound.
  - by apply accept_return_sound.
  - by eapply greet_sound.
  - by apply register_sound.
  - by eapply multicast_sound.
  - by eapply performance_sound.
Qed.

Lemma threads_sound config w0 p : reachable config w0 p → sound (descriptors w0) p.
Proof. induction 1; [apply new_sound|by eapply step_sound]. Qed.
End accounts.

(** ** A call of stop *)

Section stopping.
Context {W : Type} `{!System W, !SystemLaws W, !Refusing W}.
Implicit Types (p : Process W) (w : W).

Definition stopping p : Prop := (1 ≤ stage (caller p) < 8)%nat.

(* how many more steps the threads can make, with [k] clients at most *)
Definition coming (x : Thread AcceptPoint) : nat :=
  match x with At TestRunning | NoThread | Ended => 0 | At _ => 1 end.
Definition accept_remaining (x : Thread AcceptPoint) : nat :=
  match x with
  | At Accept => 4 | At (Handshake _) => 3 | At (Register _) => 2 | At TestRunning => 1 | _ => 0
  end.
Definition loop_remaining (k : nat) (clients : list Z) (x : Thread LoopPoint) : nat :=
  match x with
  | At Receive => 4 + k
  | At (Broadcast _) => 3 + k
  | At (Sending _ iterator) => 2 + (length clients - iterator)
  | At TestLoop => 1
  | _ => 0
  end.
Definition most_clients p : nat :=
  length (WebSocketGateway.clients_ (gateway p)) + coming (accept_thread p).
Definition remaining p : nat :=
  let clients := WebSocketGateway.clients_ (gateway p) in
  (8 - stage (caller p)) + accept_remaining (accept_thread p) +
  loop_remaining (most_clients p) clients (multicast_thread p) +
  loop_remaining (most_clients p) clients (performance_thread p).

(* a loop that is not in a broadcast has no more to do when there are fewer
   clients *)
Lemma loop_remaining_mono k k' clients clients' x :
  (k' ≤ k)%nat → is_sending x = false ∨ clients' = clients →
  (loop_remaining k' clients' x ≤ loop_remaining k clients x)%nat.
Proof. intros Hk [Hx| ->]; destruct x as [|[]|]; cbn in *; try done; lia. Qed.

Lemma loop_remaining_joined k clients x : (∀ point, x ≠ At point) → loop_remaining k clients x = 0%nat.
Proof. destruct x as [|point|]; [done| |done]. by intros H; destruct (H point). Qed.

Lemma caller_step_remaining p p' :
  stopping p → caller_step p = Some p' → (remaining p' < remaining p)%nat.
Proof.
  unfold stopping, caller_step, remaining, most_clients. destruct (caller p) eqn:Hc; cbn [stage]; try lia.
  - intros _ [= <-]. cbn. lia.
  - intros _ [= <-]. cbn. lia.
  - intros _ [= <-]. cbn. lia.
  - destruct (locked p) eqn:Hl; [done|]. apply orb_false_iff in Hl as [Hm Hq]. intros _ [= <-]. cbn.
    set (clients := WebSocketGateway.clients_ (gateway p)).
    pose proof (loop_remaining_mono (length clients + coming (accept_thread p)) (coming (accept_thread p))
      clients [] (multicast_thread p) ltac:(lia) (or_introl Hm)).
    pose proof (loop_remaining_mono (length clients + coming (accept_thread p)) (coming (accept_thread p))
      clients [] (performance_thread p) ltac:(lia) (or_introl Hq)). lia.
  - intros _ [-> Hj]%join_Some. cbn.
    assert (coming (accept_thread p) = 0%nat) as -> by (destruct (accept_thread p) as [|point|]; [done|by destruct (Hj point)|done]).
    lia.
  - intros _ [-> _]%join_Some. cbn. lia.
  - intros _ [-> _]%join_Some. cbn. lia.
Qed.

Lemma loop_step_remaining locked d size on_datagram g (w : W) who x y g' w' k k' :
  (∀ datagram, on_datagram datagram = TestLoop ∨ ∃ text, on_datagram datagram = Broadcast text) →
  loop_step false locked d size on_datagram g w who x y g' w' →
  (length (WebSocketGateway.clients_ g) ≤ k)%nat → (k' ≤ k)%nat →
  (loop_remaining k' (WebSocketGateway.clients_ g') y <
   loop_remaining k (WebSocketGateway.clients_ g) (At x))%nat.
Proof.
  intros Hon [] Hg Hk; cbn; try lia.
  - destruct (Hon datagram) as [-> |[text ->]]; cbn; lia.
  - apply lookup_lt_Some in H as Hlt. destruct (send_next_parts _ _ _ _ _ _ _ H H0) as [_ [[-> ->]|[-> ->]]].
    + lia.
    + rewrite length_delete by eauto. lia.
Qed.

Lemma multicast_point_cases datagram :
  multicast_point datagram = TestLoop ∨ ∃ text, multicast_point datagram = Broadcast text.
Proof. unfold multicast_point. cbv zeta. case_bool_decide; eauto. Qed.
Lemma performance_point_cases datagram :
  performance_point datagram = TestLoop ∨ ∃ text, performance_point datagram = Broadcast text.
Proof. unfold performance_point. case_bool_decide; eauto. Qed.

Lemma parts_length g g' : parts (WebSocketGateway.clients_ g) g g' →
  (length (WebSocketGateway.clients_ g') ≤ length (WebSocketGateway.clients_ g))%nat.
Proof. intros (gone & _ & Hp). apply Permutation_length in Hp. rewrite length_app in Hp. lia. Qed.

(* the other loop, while one makes a step *)
Lemma other_loop running locked d size on_datagram g (w : W) who x y g' w' z k k' :
  (∀ datagram, is_sending (At (on_datagram datagram)) = false) →
  loop_step running locked d size on_datagram g w who x y g' w' →
  within (At x) (WebSocketGateway.clients_ g) →
  (is_sending (At x) = true → is_sending z = true → False) → (k' ≤ k)%nat →
  (loop_remaining k' (WebSocketGateway.clients_ g') z ≤ loop_remaining k (WebSocketGateway.clients_ g) z)%nat.
Proof.
  intros Hon Hstep Hx Hz Hk. destruct (loop_step_within _ _ _ _ _ _ _ _ _ _ _ _ Hon Hstep Hx) as (_ & _ & Hkept).
  apply loop_remaining_mono; [done|]. destruct (is_sending (At x)); [|by right; apply Hkept].
  left. destruct (is_sending z); [|done]. by destruct Hz.
Qed.

Lemma step_remaining base who p p' :
  sound base p → stopping p → step who p p' → (remaining p' < remaining p)%nat.
Proof.
  intros Hp Hs Hstep. pose proof (sound_running _ _ Hp ltac:(unfold stopping in Hs; lia)) as Hr.
  assert (caller p ≠ Outside ∧ caller p ≠ Stopped) as [? ?]
    by (split; intros E; unfold stopping in Hs; rewrite E in Hs; cbn in Hs; lia).
  destruct Hp as [_ Hmutex Hin1 Hin2 _ _ _ _ _ _ _ _ _].
  destruct Hstep as [????[?|?]| |?[?|?]| |p Ht|p Ht|client chunks takes b g' w' p Ht _ Hg _|client p Ht Hl
    |who x y g' w' p Ht Hstep|who x y g' w' p Ht Hstep]; try done.
  - by apply caller_step_remaining.
  - unfold remaining, most_clients, accept_test. rewrite Hr. cbn. rewrite Ht. cbn. lia.
  - unfold remaining, most_clients, accept_return. destruct (sys_accept _ _) as [answer w]. cbn. rewrite Ht.
    set (y := if result answer <? 0 then Ended else At (Handshake (result answer))).
    assert (coming y ≤ 1 ∧ accept_remaining y ≤ 3)%nat as [H1 H2] by (subst y; destruct (result answer <? 0); simpl; lia).
    set (clients := WebSocketGateway.clients_ (gateway p)). cbn [coming accept_remaining].
    pose proof (loop_remaining_mono (length clients + 1) (length clients + coming y)
      clients clients (multicast_thread p) ltac:(lia) (or_intror eq_refl)).
    pose proof (loop_remaining_mono (length clients + 1) (length clients + coming y)
      clients clients (performance_thread p) ltac:(lia) (or_intror eq_refl)). lia.
  - destruct (greet_parts _ _ _ _ _ _ Hg) as [Hc _]. unfold remaining, most_clients. cbn. rewrite Ht, Hc.
    set (y := if b then At (Register client) else At TestRunning).
    assert (coming y ≤ 1 ∧ accept_remaining y ≤ 2)%nat as [H1 H2] by (subst y; destruct b; simpl; lia).
    set (clients := WebSocketGateway.clients_ (gateway p)). cbn [coming accept_remaining].
    pose proof (loop_remaining_mono (length clients + 1) (length clients + coming y)
      clients clients (multicast_thread p) ltac:(lia) (or_intror eq_refl)).
    pose proof (loop_remaining_mono (length clients + 1) (length clients + coming y)
      clients clients (performance_thread p) ltac:(lia) (or_intror eq_refl)). lia.
  - apply orb_false_iff in Hl as [Hm Hq]. unfold remaining, most_clients. cbn. rewrite Ht, length_app. cbn.
    set (clients := WebSocketGateway.clients_ (gateway p)).
    pose proof (loop_remaining_mono (length clients + 1) (length clients + 1 + 0)
      clients (clients ++ [client]) (multicast_thread p) ltac:(lia) (or_introl Hm)).
    pose proof (loop_remaining_mono (length clients + 1) (length clients + 1 + 0)
      clients (clients ++ [client]) (performance_thread p) ltac:(lia) (or_introl Hq)). lia.
  - rewrite Ht in Hin1, Hmutex. rewrite Hr in Hstep.
    destruct (loop_step_parts _ _ _ _ _ _ _ _ _ _ _ _ Hstep) as [Hlen%parts_length _].
    pose proof (loop_step_remaining _ _ _ _ _ _ _ _ _ _ _ (most_clients p)
      (length (WebSocketGateway.clients_ g') + coming (accept_thread p)) multicast_point_cases Hstep
      ltac:(unfold most_clients; lia) ltac:(unfold most_clients; lia)).
    pose proof (other_loop _ _ _ _ _ _ _ _ _ _ _ _ (performance_thread p) (most_clients p)
      (length (WebSocketGateway.clients_ g') + coming (accept_thread p)) multicast_point_outside Hstep Hin1
      Hmutex ltac:(unfold most_clients; lia)).
    set (k := (length (WebSocketGateway.clients_ g') + coming (accept_thread p))%nat) in *.
    change (remaining _) with ((8 - stage (caller p)) + accept_remaining (accept_thread p) +
      loop_remaining k (WebSocketGateway.clients_ g') y +
      loop_remaining k (WebSocketGateway.clients_ g') (performance_thread p))%nat at 1.
    unfold remaining. rewrite Ht. cbv zeta. lia.
  - rewrite Ht in Hin2, Hmutex. rewrite Hr in Hstep.
    destruct (loop_step_parts _ _ _ _ _ _ _ _ _ _ _ _ Hstep) as [Hlen%parts_length _].
    pose proof (loop_step_remaining _ _ _ _ _ _ _ _ _ _ _ (most_clients p)
      (length (WebSocketGateway.clients_ g') + coming (accept_thread p)) performance_point_cases Hstep
      ltac:(unfold most_clients; lia) ltac:(unfold most_clients; lia)).
    pose proof (other_loop _ _ _ _ _ _ _ _ _ _ _ _ (multicast_thread p) (most_clients p)
      (length (WebSocketGateway.clients_ g') + coming (accept_thread p)) performance_point_outside Hstep Hin2
      ltac:(auto) ltac:(unfold most_clients; lia)).
    set (k := (length (WebSocketGateway.clients_ g') + coming (accept_thread p))%nat) in *.
    change (remaining _) with ((8 - stage (caller p)) + accept_remaining (accept_thread p) +
      loop_remaining k (WebSocketGateway.clients_ g') (multicast_thread p) +
      loop_remaining k (WebSocketGateway.clients_ g') y)%nat at 1.
    unfold remaining. rewrite Ht. cbv zeta. lia.
Qed.

(** *** Whom stop waits for *)

(* the client a broadcast sends to *)
Definition receiver (clients : list Z) (x : Thread LoopPoint) : list Z :=
  match x with At (Sending _ iterator) => option_list (clients !! iterator) | _ => [] end.

(* the clients in a call that waits for them: in their handshake, or receiving *)
Definition waiting_for p : list Z :=
  match accept_thread p with At (Handshake client) => [client] | _ => [] end ++
  receiver (WebSocketGateway.clients_ (gateway p)) (multicast_thread p) ++
  receiver (WebSocketGateway.clients_ (gateway p)) (performance_thread p).

Definition moves p : Prop := ∃ p', step Program p p'.

Lemma until_closed_program d : d < 0 → until_closed d = Program.
Proof. intros ?. unfold until_closed. destruct (Z.ltb_spec d 0); [done|lia]. Qed.

(* a loop makes its next step, if its socket is closed, it has or finds the
   mutex, and no client keeps it in send *)
Lemma loop_moves running locked d size on_datagram g (w : W) x :
  d < 0 → (locked = true → is_sending (At x) = true) →
  receiver (WebSocketGateway.clients_ g) (At x) = [] →
  ∃ y w', loop_step running locked d size on_datagram g w Program x y g w'.
Proof.
  intros Hd Hl Hr. destruct x as [| |text|frame iterator].
  - eexists _, _. apply loop_tests.
  - destruct (datagram_received d size w) as [[datagram|] w'] eqn:E; rewrite <- (until_closed_program d) by done;
      eexists _, _; [by eapply loop_receives|by eapply loop_ends].
  - destruct locked; [by discriminate Hl|]. eexists _, _. by apply loop_locks.
  - eexists _, _. apply loop_unlocks. cbn in Hr. by destruct (_ !! iterator).
Qed.

Lemma multicast_moves p x :
  multicast_thread p = At x → multicast_socket_ (own p) < 0 ∨ is_sending (At x) = true →
  (locked p = true → is_sending (At x) = true) →
  receiver (WebSocketGateway.clients_ (gateway p)) (At x) = [] → moves p.
Proof.
  intros Ht Hd Hl Hr. assert (∃ y w', loop_step (running_ (own p)) (locked p) (multicast_socket_ (own p))
    receive_buffer_size multicast_point (gateway p) (world p) Program x y (gateway p) w') as (y & w' & Hs).
  { destruct Hd as [Hd|Hx]; [by apply loop_moves|]. destruct x as [| | |frame iterator]; try done.
    eexists _, _. apply loop_unlocks. cbn in Hr. by destruct (_ !! iterator). }
  eexists. by eapply multicast_steps.
Qed.

Lemma performance_moves p x :
  performance_thread p = At x → performance_socket_ (own p) < 0 ∨ is_sending (At x) = true →
  (locked p = true → is_sending (At x) = true) →
  receiver (WebSocketGateway.clients_ (gateway p)) (At x) = [] → moves p.
Proof.
  intros Ht Hd Hl Hr. assert (∃ y w', loop_step (running_ (own p)) (locked p) (performance_socket_ (own p))
    WebSocketGateway.performance_buffer_size performance_point (gateway p) (world p) Program x y (gateway p) w')
    as (y & w' & Hs).
  { destruct Hd as [Hd|Hx]; [by apply loop_moves|]. destruct x as [| | |frame iterator]; try done.
    eexists _, _. apply loop_unlocks. cbn in Hr. by destruct (_ !! iterator). }
  eexists. by eapply performance_steps.
Qed.

(* who has the mutex gives it back *)
Lemma locked_moves p : locked p = true → waiting_for p = [] → moves p.
Proof.
  intros Hl [_ [Hm Hq]%app_nil]%app_nil. apply orb_true_iff in Hl as [Hx|Hx].
  - destruct (multicast_thread p) as [|x|] eqn:Ht; [done| |done]. eapply (multicast_moves p x); auto.
  - destruct (performance_thread p) as [|x|] eqn:Ht; [done| |done]. eapply (performance_moves p x); auto.
Qed.

Lemma join_moves {P} (x : Thread P) p p' : caller_step p = join x p' →
  (∀ point, x = At point → moves p) → moves p.
Proof.
  intros Hc Hx. destruct x as [|point|]; [|by eapply Hx|]; eexists; by apply caller_steps.
Qed.

(* as long as no client keeps the gateway waiting *)
Lemma stopping_moves base p :
  sound base p → stopping p → waiting_for p = [] → moves p.
Proof.
  intros Hp Hs Hw. destruct (locked p) eqn:Hl; [by apply locked_moves|].
  pose proof Hw as [Hh [Hm Hq]%app_nil]%app_nil. unfold stopping in Hs.
  destruct Hp as [_ _ _ _ _ _ Hd1 Hd2 Hd3 _ _ _ _].
  destruct (caller p) eqn:Hc; cbn in Hs, Hd1, Hd2, Hd3; try lia;
    try (eexists; apply caller_steps; unfold caller_step; rewrite Hc, ?Hl; reflexivity).
  - eapply (join_moves (accept_thread p)); [unfold caller_step; by rewrite Hc|].
    intros [| |client|client] Ht.
    + eexists. by apply accept_tests.
    + eexists. rewrite <- (until_closed_program (listen_socket_ (own p))) by (apply Hd1; lia).
      by apply accept_returns.
    + by rewrite Ht in Hh.
    + eexists. by eapply registers.
  - eapply (join_moves (multicast_thread p)); [unfold caller_step; by rewrite Hc|].
    intros x Ht. eapply (multicast_moves p x); [done|left; apply Hd2; lia|by rewrite Hl|by rewrite Ht in Hm].
  - eapply (join_moves (performance_thread p)); [unfold caller_step; by rewrite Hc|].
    intros x Ht. eapply (performance_moves p x); [done|left; apply Hd3; lia|by rewrite Hl|by rewrite Ht in Hq].
Qed.
End stopping.

(** C36. The gateway keeps account of its descriptors, and stops unless a client
    holds it up.  In every state the program can reach, with the threads and
    the system doing what they may in any order: the descriptors open are those
    of before, the three sockets, the clients, and the connection that is not
    yet a client, each once.  Once stop is called every step of any thread
    brings its end closer; and there is always one that needs nobody outside
    the program, unless a client that has not finished its handshake, or one
    that does not read what is broadcast to it, keeps a thread in a call.  (The
    broadcast holds the mutex that stop needs before it can shut the clients
    down, so such a client keeps stop waiting for ever: [stop_blocked].)  When
    stop has returned, no thread is left and the three sockets are closed; open
    is at most one client, whose handshake ended after stop had closed the
    others. *)
Theorem gateway_stops {W} `{!System W, !SystemLaws W, !Refusing W} config (w0 : W) p :
  reachable config w0 p →
  (∀ d, d ∈ descriptors (world p) ↔ d ∈ descriptors w0 ∨ d ∈ held p) ∧ NoDup (held p) ∧
  (stopping p →
     (∀ who p', step who p p' → (remaining p' < remaining p)%nat) ∧
     (waiting_for p = [] → ∃ p', step Program p p')) ∧
  (caller p = Stopped →
     accept_thread p = NoThread ∧ multicast_thread p = NoThread ∧ performance_thread p = NoThread ∧
     all_closed (own p) ∧ (length (held p) ≤ 1)%nat).
Proof.
  intros Hp%threads_sound. pose proof (sound_owned _ _ Hp) as [Hall Honce _]. split_and!.
  - intros d. rewrite Hall. set_solver.
  - done.
  - intros Hs. split; [intros who p'; by eapply step_remaining|by eapply stopping_moves].
  - intros Hc. destruct Hp as [_ _ _ _ _ _ H1 H2 H3 H4 H5 H6 H7]. rewrite Hc in *. cbn [stage] in *.
    assert (all_closed (own p)) as Hclosed by (split_and!; auto with lia).
    split_and!; [auto with lia..|]. unfold held. rewrite sockets_closed, H5 by (done || lia).
    destruct (H4 ltac:(lia)) as [->|[? _]]; [simpl; lia|done].
Qed.

(** ** Lives *)

(* a system where every call succeeds, and where a datagram arrives after a
   client has connected *)
Definition quiet : Script :=
  mk_script {[0; 1; 2]} (replicate 12 (Gives 0) ++ [Delivers WebSocketGateway.sample_datagram]) [].
Definition takes_all (g : WebSocketGateway.t) (socket : Z) (bytes : list byte) : nat := length bytes.

Definition started : Process Script := (start 3 (constructed WebSocketGatewayConfig.default quiet)).2.
Definition connected : Process Script := accept_return (accept_test started).
Definition next (p : Process Script) : Process Script := default p (caller_step p).
(* its handshake, and what follows *)
Definition greeted (p : Process Script) : Process Script :=
  set_accept (At (Register 6)) (after_section
    (greet takes_all 6 WebSocketGateway.sample_chunks (gateway p)).2 (world p) p).
Definition registered (p : Process Script) : Process Script :=
  set_accept (At TestRunning) (set_gateway (push_back 6 (gateway p)) p).

Abbreviation reached := (reachable WebSocketGatewayConfig.default quiet).

Lemma connected_reachable : reached connected.
Proof.
  eapply reachable_step; [eapply reachable_step; [eapply reachable_step; [apply reachable_constructed|]|]|].
  - eapply (start_called 3 true _ started); [by left|vm_compute; reflexivity].
  - by apply accept_tests; vm_compute.
  - by apply accept_returns; vm_compute.
Qed.

Lemma next_reachable p : reached p → reached (next p).
Proof.
  intros Hp. unfold next. destruct (caller_step p) as [p'|] eqn:E; [|done].
  eapply reachable_step; [exact Hp|by apply caller_steps].
Qed.

Lemma stop_reachable p : caller p = Outside → reached p → reached (stop p).
Proof. intros Hc Hp. exact (reachable_step _ _ _ p _ Hp (stop_called p (or_introl Hc))). Qed.

Lemma registered_reachable p :
  reached p → accept_thread p = At (Handshake 6) → locked p = false →
  (greet takes_all 6 WebSocketGateway.sample_chunks (gateway p)).1 = Ok true →
  reached (registered (greeted p)).
Proof.
  intros Hp Ht Hl Hg.
  assert (WebSocketGateway.perform_handshake WebSocketGateway.sample_chunks ≠ WebSocketGateway.Waiting) as Hw
    by (intros E; by vm_compute in E).
  destruct (greet takes_all 6 WebSocketGateway.sample_chunks (gateway p)) as [r g'] eqn:E. cbn [fst] in Hg. subst r.
  assert (reached (greeted p)) as Hq.
  { unfold greeted. rewrite E. exact (reachable_step _ _ _ p _ Hp
      (handshakes 6 WebSocketGateway.sample_chunks takes_all true g' (world p) p Ht Hw E eq_refl)). }
  exact (reachable_step _ _ _ _ _ Hq (registers 6 (greeted p) eq_refl Hl)).
Qed.

Lemma accept_test_reachable p : reached p → accept_thread p = At TestRunning → reached (accept_test p).
Proof. intros Hp Ht. exact (reachable_step _ _ _ p _ Hp (accept_tests p Ht)). Qed.

(* a step of a loop *)
Lemma multicast_reachable who x y g' w' p :
  reached p → multicast_thread p = At x →
  loop_step (running_ (own p)) (locked p) (multicast_socket_ (own p)) receive_buffer_size multicast_point
    (gateway p) (world p) who x y g' w' → reached (set_multicast_thread y (after_section g' w' p)).
Proof. intros Hp Ht Hs. exact (reachable_step _ _ _ p _ Hp (multicast_steps _ _ _ _ _ p Ht Hs)). Qed.
Lemma performance_reachable who x y g' w' p :
  reached p → performance_thread p = At x →
  loop_step (running_ (own p)) (locked p) (performance_socket_ (own p)) WebSocketGateway.performance_buffer_size
    performance_point (gateway p) (world p) who x y g' w' →
  reached (set_performance_thread y (after_section g' w' p)).
Proof. intros Hp Ht Hs. exact (reachable_step _ _ _ p _ Hp (performance_steps _ _ _ _ _ p Ht Hs)). Qed.

(** *** A client in its handshake when stop is called *)

Definition cleared : Process Script := next (next (next (next (stop connected)))).
Definition to_multicast (y : Thread LoopPoint) (p : Process Script) : Process Script :=
  set_multicast_thread y (after_section (gateway p) (world p) p).
Definition to_performance (y : Thread LoopPoint) (p : Process Script) : Process Script :=
  set_performance_thread y (after_section (gateway p) (world p) p).
Definition stopped : Process Script :=
  next (next (next (to_performance Ended (to_multicast Ended (accept_test (registered (greeted cleared))))))).

Lemma stopped_reachable : reached stopped.
Proof.
  unfold stopped. do 3 apply next_reachable.
  apply (performance_reachable Program TestLoop);
    [|by vm_compute|exact (loop_tests false _ _ _ _ _ _)].
  apply (multicast_reachable Program TestLoop);
    [|by vm_compute|exact (loop_tests false _ _ _ _ _ _)].
  apply accept_test_reachable; [|by vm_compute].
  apply registered_reachable; [|by vm_compute..].
  unfold cleared. do 4 apply next_reachable. apply stop_reachable; [by vm_compute|apply connected_reachable].
Qed.

(* stop has returned, and the client is still connected *)
Example stop_leaks :
  caller stopped = Stopped ∧ WebSocketGateway.clients_ (gateway stopped) = [6] ∧
  6 ∈ descriptors (world stopped).
Proof. split_and!; [by vm_compute..|]. apply (bool_decide_unpack _). by vm_compute. Qed.

(* a client that sends nothing keeps stop waiting *)
Example stop_waits :
  caller cleared = JoinAccept ∧ caller_step cleared = None ∧ waiting_for cleared = [6].
Proof. by vm_compute. Qed.

(** *** A client that does not read *)

Definition sample_json : list byte := WebSocketGateway.market_data_to_json WebSocketGateway.sample_datagram.
Definition open : Process Script := registered (greeted connected).
Definition listening : Process Script := to_multicast (At Receive) open.
Definition left_over : Script :=
  (datagram_received (multicast_socket_ (own listening)) receive_buffer_size (world listening)).2.
Definition received : Process Script :=
  set_multicast_thread (At (Broadcast sample_json)) (after_section (gateway listening) left_over listening).
Definition broadcasting : Process Script :=
  to_multicast (At (Sending (WebSocketGateway.websocket_text_frame sample_json) 0)) received.
Definition blocked : Process Script :=
  next (next (next (to_performance Ended (accept_test (stop broadcasting))))).

Lemma open_reachable : reached open.
Proof. apply registered_reachable; [apply connected_reachable|by vm_compute..]. Qed.

Lemma received_reachable : reached received.
Proof.
  assert (multicast_point WebSocketGateway.sample_datagram = Broadcast sample_json) as Hd.
  { unfold multicast_point. cbv zeta. case_bool_decide as E; [by vm_compute in E|done]. }
  assert (datagram_received (multicast_socket_ (own listening)) receive_buffer_size (world listening) =
    (Some WebSocketGateway.sample_datagram, left_over)) as Hr by (vm_compute; reflexivity).
  assert (until_closed (multicast_socket_ (own listening)) = Others) as Ho by (by vm_compute).
  pose proof (loop_receives (running_ (own listening)) (locked listening) _ _ multicast_point
    (gateway listening) _ _ _ Hr) as Hs. rewrite Hd, Ho in Hs.
  refine (multicast_reachable Others Receive _ _ left_over listening _ eq_refl Hs).
  refine (multicast_reachable Program TestLoop (At Receive) (gateway open) (world open) open open_reachable _ _);
    [by vm_compute|exact (loop_tests true _ _ _ _ _ _)].
Qed.

Lemma broadcasting_reachable : reached broadcasting.
Proof.
  refine (multicast_reachable Program (Broadcast sample_json) _ (gateway received) (world received) received
    received_reachable eq_refl _).
  apply loop_locks. by vm_compute.
Qed.

Lemma held_up_in_send (p p' : Process Script) frame iterator client :
  caller_step p = None → accept_thread p = Ended → performance_thread p = Ended →
  multicast_thread p = At (Sending frame iterator) →
  WebSocketGateway.clients_ (gateway p) !! iterator = Some client → ¬ step Program p p'.
Proof.
  intros Hc Ha Hq Hm Hi Hstep. inversion Hstep as [| | |? ? H|? H|? H|? ? ? ? ? ? ? H|? ? H|? ? ? ? ? ? H H1|? ? ? ? ? ? H]; subst.
  all: try congruence. rewrite H in Hm. injection Hm as ->. inversion H1; subst. congruence.
Qed.

(** The client keeps the broadcast in send, the broadcast keeps the mutex, and
    stop, which would shut the client down, waits for the mutex: nothing that is
    left in the program can make a step. *)
Example stop_blocked :
  reached blocked ∧ stopping blocked ∧ waiting_for blocked = [6] ∧ ∀ p, ¬ step Program blocked p.
Proof.
  assert (caller blocked = CloseClients ∧ caller_step blocked = None ∧ accept_thread blocked = Ended ∧
    performance_thread blocked = Ended ∧ WebSocketGateway.clients_ (gateway blocked) !! 0%nat = Some 6 ∧
    multicast_thread blocked = At (Sending (WebSocketGateway.websocket_text_frame sample_json) 0)) as (Hc & Hcs & Ha & Hq & Hg & Hm) by (by vm_compute).
  split; [|split; [|split]].
  - unfold blocked. do 3 apply next_reachable.
    apply (performance_reachable Program TestLoop); [|by vm_compute|exact (loop_tests false _ _ _ _ _ _)].
    apply accept_test_reachable; [|by vm_compute]. apply stop_reachable; [by vm_compute|].
    apply broadcasting_reachable.
  - unfold stopping. rewrite Hc. simpl. lia.
  - by vm_compute.
  - intros p. by eapply (held_up_in_send blocked p).
Qed.

Lemma gateway_stops_witness :
  waiting_for connected = [6] ∧
  NoDup (held connected) ∧
  (length (held stopped) ≤ 1)%nat ∧
  ∃ p, step Program (stop open) p.
Proof.
  split; [by vm_compute|]. split; [|split].
  - exact (proj1 (proj2 (gateway_stops _ _ _ connected_reachable))).
  - destruct (gateway_stops _ _ _ stopped_reachable) as (_ & _ & _ & H).
    by destruct (H ltac:(by vm_compute)) as (_ & _ & _ & _ & ?).
  - assert (reached (stop open)) as Hr by (apply stop_reachable; [by vm_compute|apply open_reachable]).
    destruct (gateway_stops _ _ _ Hr) as (_ & _ & H & _).
    refine (proj2 (H _) _); [|by vm_compute].
    unfold stopping. assert (stage (caller (stop open)) = 1%nat) as -> by (by vm_compute). lia.
Defined.

End WebSocketThreads.
