(* ===== verification/FixThreads.v ===== *)
(** * The FIX gateway: its sockets and threads (src/fix_gateway.cpp)

    [start], [run], [stop], the connection to the core, and the thread of each
    client.  A step is a system call, a section under the mutex, a test of
    [running_], a poll, or the rest of a turn of the loop of a client
    ([FixGateway.poll_turn]), of one of the threads or of the callers of [run]
    and [stop].  The system answers as it likes, and a call that waits for a peer
    need not return: the steps are divided into those the program makes by itself
    and those that somebody else has to make possible, among them the turns, in
    which a thread sends and connects without a timeout. *)
From Stdlib Require Import QArith.
From S2P Require Import Prelude Bytes Numerals Fix FixState FixGateway FixInvariant FixSessions FixDemo Sockets.
#[global] Open Scope Z_scope.

Module FixThreads.

(** ** System calls *)

Section calls.
Context {W : Type} `{!System W}.

Fixpoint send_all_loop (fuel : nat) (socket : Z) (bytes : list byte) (sent_total : Z) : M W bool :=
  match fuel with
  | O => throw OutOfFuel
  | S fuel =>
      if negb (sent_total <? Z.of_nat (length bytes)) then ret true
      else
        answer <- call (sys_send socket (drop (Z.to_nat sent_total) bytes)) ;;
        if result answer <=? 0 then ret false
        else send_all_loop fuel socket bytes (u64 (sent_total + result answer))
  end.

(* every turn but the last sends a byte *)
Definition send_all_bytes (socket : Z) (bytes : list byte) : M W bool :=
  send_all_loop (S (length bytes)) socket bytes 0.

(* the addresses of getaddrinfo, in order *)
Fixpoint try_addresses (addresses : list (Z * Z)) : M W Z :=
  match addresses with
  | [] => ret (-1)
  | (ip, port) :: addresses =>
      socket <- call (sys_socket Stream) ;;
      if socket <? 0 then try_addresses addresses
      else
        connected <- call (sys_connect socket ip port) ;;
        if connected =? 0 then ret socket
        else call_ (sys_close socket) ;;; try_addresses addresses
  end.

(* [getaddrinfo]: the addresses of a host and a service, or None for an error *)
Definition connect_to_exchange (getaddrinfo : string → list byte → W → option (list (Z * Z)))
    (host : string) (port : Z) : M W Z :=
  w <- get ;;
  match getaddrinfo host (to_string port) w with
  | None => ret (-1)
  | Some addresses => try_addresses addresses
  end.
End calls.

(** ** The gateway object *)

Record Object : Type := mk_object {
  config_ : FixGatewayConfig.t;
  running_ : bool;
  listen_socket_ : Z;
  next_numeric_order_id_ : Z;
  next_exec_id_ : Z
}.

Definition new (config : FixGatewayConfig.t) : Object := mk_object config false (-1) (2 ^ 62) 1.
Definition set_running (b : bool) (s : Object) : Object :=
  mk_object (config_ s) b (listen_socket_ s) (next_numeric_order_id_ s) (next_exec_id_ s).
Definition set_listen (d : Z) (s : Object) : Object :=
  mk_object (config_ s) (running_ s) d (next_numeric_order_id_ s) (next_exec_id_ s).
Definition set_counters (id exec_id : Z) (s : Object) : Object :=
  mk_object (config_ s) (running_ s) (listen_socket_ s) id exec_id.

Section start.
Context {W : Type} `{!System W}.

(* the listening socket *)
Definition open_listener : M (Object * W) bool :=
  d <- on_world (call (sys_socket Stream)) ;;
  on_object (set_listen d) ;;;
  if d <? 0 then ret false
  else
    on_world (call (sys_setsockopt d ReuseAddress)) ;;;
    s <- the_object ;;
    bound <- on_world (call (sys_bind d inaddr_any (FixGatewayConfig.listen_port (config_ s)))) ;;
    if negb (bound =? 0) then close_field d set_listen
    else
      listening <- on_world (call (sys_listen d 64)) ;;
      if negb (listening =? 0) then close_field d set_listen else ret true.

Definition start : M (Object * W) bool :=
  s <- the_object ;;
  on_object (set_running true) ;;;
  if running_ s then ret true
  else
    listening <- open_listener ;;
    if negb listening then on_object (set_running false) ;;; ret false else ret true.
End start.

(** ** Threads *)

Inductive ClientPoint : Type :=
  | TestLoop                     (* at the top of the loop *)
  | Poll                         (* in poll, which returns after 250 ms at the latest *)
  | Turn (client core : FixGateway.Input)   (* the turn that follows, with what poll and recv gave *)
  | CloseCore                    (* after the loop: core_socket *)
  | CloseClient                  (* client_socket *)
  | Ended.                       (* not joined yet *)

(* the caller of run *)
Inductive RunPoint : Type :=
  | NotRunning                   (* run has not been called, or has returned *)
  | TestRun                      (* at the top of the loop *)
  | Accept                       (* in accept *)
  | Refused                      (* accept failed *)
  | Emplace (client : Z).        (* about to create the thread of a client *)

(* the caller of stop *)
Inductive StopPoint : Type :=
  | NotStopping
  | CloseListener | SwapThreads
  | Join.                        (* joining the threads of [joining], in order *)

Section threads.
Context {F : Type} `{!LongDouble F} {W : Type} `{!System W}
  (getaddrinfo : string → list byte → W → option (list (Z * Z))).

(* a thread of a client; the messages it has sent are recorded *)
Record ClientThread : Type := mk_client {
  point : ClientPoint;
  session : SessionContext.t F;
  sent : list Transmission
}.

Definition at_point (x : ClientPoint) (c : ClientThread) : ClientThread := mk_client x (session c) (sent c).

Record Process : Type := mk_process {
  own : Object;
  client_threads_ : list ClientThread;
  joining : list ClientThread;        (* the local vector of stop *)
  runner : RunPoint;
  stopper : StopPoint;
  world : W
}.

Definition set_own (s : Object) (p : Process) : Process :=
  mk_process s (client_threads_ p) (joining p) (runner p) (stopper p) (world p).
Definition set_threads (l : list ClientThread) (p : Process) : Process :=
  mk_process (own p) l (joining p) (runner p) (stopper p) (world p).
Definition set_joining (l : list ClientThread) (p : Process) : Process :=
  mk_process (own p) (client_threads_ p) l (runner p) (stopper p) (world p).
Definition set_runner (x : RunPoint) (p : Process) : Process :=
  mk_process (own p) (client_threads_ p) (joining p) x (stopper p) (world p).
Definition set_stopper (x : StopPoint) (p : Process) : Process :=
  mk_process (own p) (client_threads_ p) (joining p) (runner p) x (world p).
Definition set_world (w : W) (p : Process) : Process :=
  mk_process (own p) (client_threads_ p) (joining p) (runner p) (stopper p) w.

(** *** Calls *)

Definition call_start (p : Process) : res bool * Process :=
  let '(r, (s, w)) := start (own p, world p) in (r, set_world w (set_own s p)).

(* run, up to its loop *)
Definition call_run (p : Process) : Process :=
  if running_ (own p) then set_runner TestRun p
  else
    match call_start p with
    | (Ok true, p') => set_runner TestRun p'
    | (_, p') => p'
    end.

(* stop, up to the first close *)
Definition call_stop (p : Process) : Process :=
  if running_ (own p) then set_stopper CloseListener (set_own (set_running false (own p)) p) else p.

(** *** run *)

(* accept returns *)
Definition accept_return (p : Process) : Process :=
  let '(answer, w) := sys_accept (listen_socket_ (own p)) (world p) in
  set_world w (set_runner (if result answer <? 0 then Refused else Emplace (result answer)) p).

(* the thread of a client *)
Definition new_client (client now : Z) (p : Process) : ClientThread :=
  mk_client TestLoop (FixGateway.new_session (config_ (own p)) client now) [].

(* a step of run; [now]: the clock when a session is created *)
Definition run_step (now : Z) (p : Process) : option Process :=
  match runner p with
  | NotRunning => None
  | TestRun => Some (set_runner (if running_ (own p) then Accept else NotRunning) p)
  | Accept => Some (accept_return p)
  | Refused => Some (set_runner (if running_ (own p) then TestRun else NotRunning) p)
  | Emplace client =>
      Some (set_runner TestRun (set_threads (client_threads_ p ++ [new_client client now p]) p))
  end.

(** *** stop *)

(* None while it waits for a thread *)
Definition stop_step (p : Process) : option Process :=
  let s := own p in
  match stopper p with
  | NotStopping => None
  | CloseListener =>
      Some (set_stopper SwapThreads (set_world (closed_at (listen_socket_ s) (world p))
        (set_own (set_listen (vacated (listen_socket_ s)) s) p)))
  | SwapThreads => Some (set_stopper Join (set_joining (client_threads_ p) (set_threads [] p)))
  | Join =>
      match joining p with
      | [] => Some (set_stopper NotStopping p)
      | c :: l => match point c with Ended => Some (set_joining l p) | _ => None end
      end
  end.

(** *** handle_client *)

(* one turn, as the state of the gateway has it: the counters are shared, the
   world answers as it likes, but connecting gives what the system gave *)
Definition turn (Wd : World F) (client core : FixGateway.Input) (s : Object) (c : ClientThread) :
    res bool * Gateway.t F :=
  FixGateway.poll_turn (World0 := Wd) (config_ s) client core
    (Gateway.mk (session c) (next_numeric_order_id_ s) (next_exec_id_ s) (sent c)).

(** A step is the program's own, or needs somebody else: a client that connects,
    or the peers of a turn, that read what it sends, and the host of the core,
    that answers when it connects. *)
Inductive Who : Type := Program | Others.

Inductive client_step (s : Object) (w : W) (c : ClientThread) : Who → Object → W → ClientThread → Prop :=
  | tests :
      point c = TestLoop →
      client_step s w c Program s w (at_point (if running_ s then Poll else CloseCore) c)
  | polls client core :
      point c = Poll →
      client_step s w c Program s w (at_point (Turn client core) c)
  | turns (Wd : World F) client core continue g d w1 w' :
      point c = Turn client core →
      connect_to_exchange getaddrinfo (FixGatewayConfig.exchange_host (config_ s))
        (FixGatewayConfig.exchange_port (config_ s)) w = (Ok d, w1) →
      (∀ g, @FixState.connect_to_exchange F Wd g = d) →
      turn Wd client core s c = (Ok continue, g) →
      descriptors w' =
        (if decide (SessionContext.core_socket (Gateway.session g) = SessionContext.core_socket (session c))
         then descriptors w else descriptors w1) →
      client_step s w c Others
        (set_counters (Gateway.next_numeric_order_id_ g) (Gateway.next_exec_id_ g) s) w'
        (mk_client (if continue then TestLoop else CloseCore) (Gateway.session g) (Gateway.sent g))
  | closes_core :
      point c = CloseCore →
      client_step s w c Program s (closed_at (SessionContext.core_socket (session c)) w) (at_point CloseClient c)
  | closes_client :
      point c = CloseClient →
      let d := SessionContext.client_socket (session c) in
      client_step s w c Program s (sys_close d (sys_shutdown d w)) (at_point Ended c).

(* accept returns by itself once stop has shut the listening socket down *)
Definition run_who (p : Process) : Who :=
  match runner p with
  | Accept => if listen_socket_ (own p) <? 0 then Program else Others
  | _ => Program
  end.

(** *** The program *)

Inductive advance (p : Process) : Who → Process → Prop :=
  | run_advances now p' : run_step now p = Some p' → advance p (run_who p) p'
  | stop_advances p' : stop_step p = Some p' → advance p Program p'
  | client_advances l1 c l2 who s w c' :
      client_threads_ p = l1 ++ c :: l2 → client_step (own p) (world p) c who s w c' →
      advance p who (set_world w (set_own s (set_threads (l1 ++ c' :: l2) p)))
  | joined_advances l1 c l2 who s w c' :
      joining p = l1 ++ c :: l2 → client_step (own p) (world p) c who s w c' →
      advance p who (set_world w (set_own s (set_joining (l1 ++ c' :: l2) p))).

(* the calls: while stop is in progress nobody calls start or run *)
Inductive called (p : Process) : Process → Prop :=
  | start_called b p' :
      runner p = NotRunning → stopper p = NotStopping → call_start p = (Ok b, p') → called p p'
  | run_called : runner p = NotRunning → stopper p = NotStopping → called p (call_run p)
  | stop_called : stopper p = NotStopping → called p (call_stop p).

Definition constructed (config : FixGatewayConfig.t) (w : W) : Process :=
  mk_process (new config) [] [] NotRunning NotStopping w.

Inductive reachable (config : FixGatewayConfig.t) (w0 : W) : Process → Prop :=
  | reachable_constructed : reachable config w0 (constructed config w0)
  | reachable_call p p' : reachable config w0 p → called p p' → reachable config w0 p'
  | reachable_advance who p p' : reachable config w0 p → advance p who p' → reachable config w0 p'.
End threads.
Arguments Process : clear implicits.
Arguments ClientThread : clear implicits.

(** ** What the calls do *)

Section calls_done.
Context {W : Type} `{!System W, !SystemLaws W}.
Implicit Types (w : W).

Lemma send_all_loop_exact fuel d bytes sent_total w :
  Z.of_nat (length bytes) < 2 ^ 64 → 0 ≤ sent_total ≤ Z.of_nat (length bytes) →
  (length bytes - Z.to_nat sent_total < fuel)%nat →
  ∃ b w' part, send_all_loop fuel d bytes sent_total w = (Ok b, w') ∧
    taken d w' = taken d w ++ part ∧ part `prefix_of` drop (Z.to_nat sent_total) bytes ∧
    (b = true → part = drop (Z.to_nat sent_total) bytes) ∧ descriptors w' = descriptors w.
Proof.
  intros Hlen. revert sent_total w. induction fuel as [|fuel IH]; intros n w Hn Hf; [lia|].
  cbn [send_all_loop]. destruct (Z.ltb_spec n (Z.of_nat (length bytes))) as [Hlt|Hge]; cbn [negb].
  2:{ exists true, w, []. rewrite drop_ge, app_nil_r by lia. done. }
  unfold bind, call. pose proof (send_takes d (drop (Z.to_nat n) bytes) w) as Ht.
  pose proof (send_descriptors d (drop (Z.to_nat n) bytes) w) as Hd.
  destruct (sys_send d (drop (Z.to_nat n) bytes) w) as [answer w1]. cbn [snd] in Hd.
  destruct Ht as [Hle Ht]. rewrite length_drop in Hle.
  destruct (Z.leb_spec (result answer) 0) as [Hneg|Hpos].
  { exists false, w1, []. rewrite app_nil_r. replace (Z.to_nat (result answer)) with 0%nat in Ht by lia.
    rewrite take_0, app_nil_r in Ht. split_and!; [done|done|apply prefix_nil|done|done]. }
  rewrite u64_id by word. destruct (IH (n + result answer) w1) as (b & w' & part & -> & H1 & H2 & H3 & H4);
    [lia|lia|]. rewrite Z2Nat.inj_add in * by lia. rewrite <- drop_drop in *.
  exists b, w', (take (Z.to_nat (result answer)) (drop (Z.to_nat n) bytes) ++ part).
  rewrite H1, Ht, <- (assoc_L (++)). split_and!; [done|done| | |by rewrite H4].
  - rewrite <- (take_drop (Z.to_nat (result answer)) (drop (Z.to_nat n) bytes)) at 2. by apply prefix_app.
  - intros Hb. rewrite H3 by done. apply take_drop.
Qed.

(** send_all_bytes ends; it says whether everything was taken. *)
Lemma send_all_bytes_exact d bytes w :
  Z.of_nat (length bytes) < 2 ^ 64 →
  ∃ b w' part, send_all_bytes d bytes w = (Ok b, w') ∧ taken d w' = taken d w ++ part ∧
    part `prefix_of` bytes ∧ (b = true → part = bytes) ∧ descriptors w' = descriptors w.
Proof.
  intros Hlen. apply (send_all_loop_exact (S (length bytes)) d bytes 0 w); simpl; lia.
Qed.

Context (base : gset Z) (l : list Z).

(* a call that opens a descriptor, or nothing *)
Definition acquires (m : M W Z) (w : W) : Prop :=
  ∃ d w', m w = (Ok d, w') ∧ owned base (field d ++ l) w'.

Lemma try_addresses_acquires addresses w : owned base l w → acquires (try_addresses addresses) w.
Proof.
  revert w. induction addresses as [|[ip port] addresses IH]; intros w Ho; [by exists (-1), w|].
  cbn [try_addresses]. unfold acquires, bind at 1, call at 1. pose proof (socket_opens Stream w) as Hd.
  destruct (sys_socket Stream w) as [d w1]. cbn [fst snd] in Hd.
  pose proof (owned_opened base l d w w1 Hd Ho) as H1.
  destruct (Z.ltb_spec d 0) as [Hneg|Hpos]; [rewrite field_none in H1 by done; by apply IH|].
  unfold bind at 1, call at 1. pose proof (connect_descriptors d ip port w1) as Hc.
  destruct (sys_connect d ip port w1) as [connected w2]. cbn [snd] in Hc.
  pose proof (owned_same base _ _ _ Hc H1) as H2.
  destruct (connected =? 0); [by exists d, w2|]. unfold bind, call_, modify. apply IH.
  rewrite field_open in H2 by done. by apply owned_close.
Qed.

Lemma connect_acquires getaddrinfo host port w :
  owned base l w → acquires (connect_to_exchange getaddrinfo host port) w.
Proof.
  intros Ho. unfold acquires, connect_to_exchange, bind, get.
  destruct (getaddrinfo host (to_string port) w); [by apply try_addresses_acquires|by exists (-1), w].
Qed.

Lemma fix_listener_opened s w : owned base l w → opens_field set_listen base l open_listener s w.
Proof.
  intros Ho. unfold open_listener. apply opens_socket; [done| |done]. intros d Hd.
  repeat first
    [ apply decides_true; [done|exact Hd] | apply decides_close; done | apply decides_object; intros ?
    | apply decides_call; [intros; apply setsockopt_descriptors || apply bind_descriptors || apply listen_descriptors|intros ?]
    | match goal with |- decides _ _ _ _ (if ?b then _ else _) _ => destruct b end ].
Qed.

Lemma start_opens s w :
  listen_socket_ s < 0 → running_ s = false → owned base l w →
  ∃ b d w', start (s, w) = (Ok b, (set_running b (set_listen d s), w')) ∧
    owned base (field d ++ l) w' ∧ (b = false → d < 0).
Proof.
  intros Hl Hr Ho. unfold start, bind at 1, the_object. cbn [fst snd].
  unfold bind at 1, on_object, modify. cbn [fst snd]. rewrite Hr.
  destruct (fix_listener_opened (set_running true s) w Ho) as (b & d & w' & s' & He & -> & Ho' & Hb).
  unfold bind at 1. rewrite He. destruct b; cbn [negb].
  - exists true, d, w'. done.
  - exists false, d, w'. done.
Qed.
End calls_done.

(** ** The connection to the core *)

(** A session opens one connection at most: while it has none it is not logged
    on, and once it is logged on it never connects again. *)
Section linked.
Context {F : Type} `{!LongDouble F} `{!World F} (config : FixGatewayConfig.t) (d : Z)
  (Hconnect : ∀ g : Gateway.t F, FixState.connect_to_exchange g = d).

Definition linked_session (s s' : SessionContext.t F) : Prop :=
  SessionContext.client_socket s' = SessionContext.client_socket s ∧
  (SessionContext.core_socket s' = SessionContext.core_socket s ∧
   SessionContext.logged_on s' = SessionContext.logged_on s ∨
   SessionContext.logged_on s = false ∧ SessionContext.core_socket s' = d ∧
   SessionContext.logged_on s' = bool_decide (0 ≤ d)).

Definition linked (g g' : Gateway.t F) : Prop := linked_session (Gateway.session g) (Gateway.session g').

#[local] Instance linked_preorder : PreOrder linked.
Proof.
  split; [intros g; unfold linked, linked_session; by auto|].
  intros g1 g2 g3 [H1 [[H2 H3]|(H2 & H3 & H4)]] [H5 [[H6 H7]|(H6 & H7 & H8)]];
    (split; [congruence|]); [left|right|right|right]; split_and?; congruence.
Qed.

Lemma linked_session_refl s : linked_session s s.
Proof. unfold linked_session. by auto. Qed.

Lemma linked_on_session f :
  (∀ s, SessionContext.client_socket (f s) = SessionContext.client_socket s ∧
        SessionContext.core_socket (f s) = SessionContext.core_socket s ∧
        SessionContext.logged_on (f s) = SessionContext.logged_on s) →
  preserves linked (FixGateway.on_session f).
Proof.
  intros Hf g. destruct (Hf (Gateway.session g)) as (H1 & H2 & H3). split; [exact H1|]. by left.
Qed.

Lemma linked_modify (f : Gateway.t F → Gateway.t F) :
  (∀ g, Gateway.session (f g) = Gateway.session g) → preserves linked (modify f).
Proof. intros Hf g. unfold linked. cbn. rewrite Hf. apply linked_session_refl. Qed.

Lemma linked_session_read : preserves linked FixGateway.session.
Proof. intros g. apply linked_session_refl. Qed.

Lemma linked_get : preserves linked get.
Proof. intros g. apply linked_session_refl. Qed.

(* the primitives of the handlers *)
Ltac link_step :=
  lazymatch goal with
  | |- preserves linked (ret _) => apply (preserves_ret _)
  | |- preserves linked (throw _) => apply (preserves_throw _)
  | |- preserves linked (lift _) => apply (preserves_lift _)
  | |- preserves linked (bind _ _) => apply (preserves_bind _); [|intros ?]
  | |- preserves linked FixGateway.session => apply linked_session_read
  | |- preserves linked get => apply linked_get
  | |- preserves linked (FixGateway.on_session _) => apply linked_on_session; intros ?; split_and!; reflexivity
  | |- preserves linked (FixGateway.on_orders _) => apply linked_on_session; intros ?; split_and!; reflexivity
  | |- preserves linked (FixGateway.on_clords _) => apply linked_on_session; intros ?; split_and!; reflexivity
  | |- preserves linked (FixGateway.on_pending _) => apply linked_on_session; intros ?; split_and!; reflexivity
  | |- preserves linked (modify _) => apply linked_modify; intros ?; reflexivity
  | |- preserves linked (match ?x with _ => _ end) => destruct x
  end.

Lemma linked_send type fs : preserves linked (FixGateway.send_session_message config type fs).
Proof.
  unfold FixGateway.send_session_message, FixGateway.build_session_message, FixGateway.send_fix_wire.
  repeat link_step.
Qed.

Lemma linked_report o cl e st orig lq lp text :
  preserves linked (FixGateway.send_execution_report config o cl e st orig lq lp text).
Proof.
  unfold FixGateway.send_execution_report, FixGateway.fetch_exec_id. repeat link_step. apply linked_send.
Qed.

Lemma linked_new_reject cl sy si q r : preserves linked (FixGateway.send_new_reject config cl sy si q r).
Proof. unfold FixGateway.send_new_reject, FixGateway.fetch_exec_id. repeat link_step. apply linked_send. Qed.

Lemma linked_reject n r t : preserves linked (FixGateway.send_session_reject config n r t).
Proof. apply linked_send. Qed.

Lemma linked_cancel_reject o cl orig kind r :
  preserves linked (FixGateway.send_cancel_reject config o cl orig kind r).
Proof. apply linked_send. Qed.

Lemma linked_core_request type body : preserves linked (FixGateway.send_core_request type body).
Proof. unfold FixGateway.send_core_request. repeat link_step. Qed.

Ltac link :=
  repeat first
    [ link_step
    | lazymatch goal with
      | |- preserves linked (FixGateway.send_execution_report _ _ _ _ _ _ _ _ _) => apply linked_report
      | |- preserves linked (FixGateway.send_new_reject _ _ _ _ _ _) => apply linked_new_reject
      | |- preserves linked (FixGateway.send_cancel_reject _ _ _ _ _ _) => apply linked_cancel_reject
      | |- preserves linked (FixGateway.send_session_reject _ _ _ _) => apply linked_reject
      | |- preserves linked (FixGateway.send_core_request _ _) => apply linked_core_request
      | |- preserves linked (FixGateway.send_session_message _ _ _) => apply linked_send
      end ].

(* connecting and the two assignments that follow are one transition *)
Lemma linked_connected (k1 k2 : M (Gateway.t F) bool) g :
  SessionContext.logged_on (Gateway.session g) = false →
  preserves linked k1 → preserves linked k2 →
  linked g ((FixGateway.on_session (SessionContext.set_core_socket (FixState.connect_to_exchange g)) ;;;
    if FixState.connect_to_exchange g <? 0
    then FixGateway.on_session (SessionContext.set_closing true) ;;; k1
    else FixGateway.on_session (SessionContext.set_logged_on true) ;;; k2) g).2.
Proof.
  intros Hl H1 H2. rewrite Hconnect. unfold bind, FixGateway.on_session, modify.
  assert (bool_decide (0 ≤ d) = negb (d <? 0)) as Hd
    by (destruct (Z.ltb_spec d 0); case_bool_decide; (done || lia)).
  destruct (d <? 0); (etrans; [|apply H1 || apply H2]); (split; [done|]); right; by rewrite Hd.
Qed.

Lemma linked_logon m type n : preserves linked (FixGateway.handle_logon config m type n).
Proof.
  intros g. unfold FixGateway.handle_logon, FixGateway.session. unfold bind at 1.
  destruct (SessionContext.logged_on (Gateway.session g)) eqn:Hl; [apply linked_reject|].
  repeat match goal with |- linked _ (match ?x with _ => _ end _).2 => destruct x; try apply linked_reject end.
  unfold bind at 1, FixGateway.on_session at 1, modify at 1. unfold bind at 1, FixGateway.on_session at 1, modify at 1.
  unfold bind at 1, get at 1.
  etrans; [|apply linked_connected; [exact Hl|apply linked_send..]].
  split; [done|by left].
Qed.

Lemma linked_find_working_order m kind : preserves linked (FixGateway.find_working_order config m kind).
Proof.
  unfold FixGateway.find_working_order, FixGateway.ensure_unique_clordid.
  destruct (required_field m 11 []) as [cl e]. destruct (required_field m 41 e) as [orig e']. link.
Qed.

Lemma linked_fix_message m : preserves linked (FixGateway.process_fix_message config m).
Proof.
  unfold FixGateway.process_fix_message, FixGateway.handle_application, FixGateway.handle_new_order,
    FixGateway.submit_new_order, FixGateway.fetch_numeric_order_id, FixGateway.handle_cancel,
    FixGateway.handle_replace, FixGateway.submit_replacement, FixGateway.submit_request, FixGateway.push_pending,
    FixGateway.pop_back_pending, FixGateway.ensure_unique_clordid.
  repeat first
    [ progress link
    | lazymatch goal with
      | |- preserves linked (FixGateway.find_working_order _ _ _) => apply linked_find_working_order
      | |- preserves linked (FixGateway.handle_logon _ _ _ _) => apply linked_logon
      end ].
Qed.

Lemma linked_finalize_loop ids symbol completed :
  preserves linked (FixGateway.finalize_loop config ids symbol completed).
Proof.
  revert completed. induction ids as [|id ids IH]; intros completed; cbn [FixGateway.finalize_loop]; link; apply IH.
Qed.

Lemma linked_core_message m : preserves linked (FixGateway.process_core_message config m).
Proof.
  unfold FixGateway.process_core_message, FixGateway.handle_core_order_response, FixGateway.handle_core_trade,
    FixGateway.apply_trade_to_order, FixGateway.finalize_non_resting_orders.
  repeat first [ progress link | apply linked_finalize_loop ].
Qed.

Lemma linked_fix_receive_loop fuel : preserves linked (FixGateway.fix_receive_loop config fuel).
Proof.
  induction fuel as [|fuel IH]; cbn [FixGateway.fix_receive_loop]; [apply (preserves_throw _)|].
  repeat first [ progress link | apply linked_fix_message | apply IH ].
Qed.

Lemma linked_core_receive_loop fuel healthy : preserves linked (FixGateway.core_receive_loop config fuel healthy).
Proof.
  revert healthy. induction fuel as [|fuel IH]; intros healthy; cbn [FixGateway.core_receive_loop];
    [apply (preserves_throw _)|].
  repeat first [ progress link | apply linked_core_message | apply IH ].
Qed.

Lemma linked_poll_turn client core : preserves linked (FixGateway.poll_turn config client core).
Proof.
  unfold FixGateway.poll_turn, FixGateway.serve_core, FixGateway.check_timers.
  repeat first [ progress link | apply linked_fix_receive_loop | apply linked_core_receive_loop ].
Qed.
End linked.

(** ** Accounts *)

Section accounts.
Context {F : Type} `{!LongDouble F} {W : Type} `{!System W, !SystemLaws W, !Refusing W}
  (getaddrinfo : string → list byte → W → option (list (Z * Z))).
Implicit Types (p : Process F W) (c : ClientThread F) (w : W).

(* the descriptors a thread has to close *)
Definition held_client c : list Z :=
  match point c with
  | Ended => []
  | CloseClient => [SessionContext.client_socket (session c)]
  | _ => SessionContext.client_socket (session c) :: field (SessionContext.core_socket (session c))
  end.

Definition emplacing (x : RunPoint) : list Z := match x with Emplace client => [client] | _ => [] end.

(* the descriptors the gateway has to close *)
Definition held p : list Z :=
  field (listen_socket_ (own p)) ++ emplacing (runner p) ++
  concat (held_client <$> client_threads_ p ++ joining p).

Definition client_ok c : Prop :=
  0 ≤ SessionContext.core_socket (session c) → SessionContext.logged_on (session c) = true.

Record sound (base : gset Z) p : Prop := {
  sound_owned : owned base (held p) (world p);
  sound_clients : Forall client_ok (client_threads_ p ++ joining p);
  sound_running : stopper p ≠ NotStopping → running_ (own p) = false;
  sound_listener : running_ (own p) = false → stopper p ≠ CloseListener → listen_socket_ (own p) < 0;
  sound_joining : stopper p ≠ Join → joining p = [];
  (* at most one thread is created after stop has taken the others *)
  sound_late : running_ (own p) = false → stopper p = Join ∨ stopper p = NotStopping →
    (length (client_threads_ p) + length (emplacing (runner p)) ≤ 1)%nat
}.

Lemma constructed_sound config w : sound (descriptors w) (constructed (F := F) config w).
Proof. constructor; cbn; intros; try (done || lia). apply owned_none. Qed.

(** *** The calls *)

Lemma listen_perm p d : listen_socket_ (own p) < 0 →
  field d ++ held p ≡ₚ field d ++ emplacing (runner p) ++ concat (held_client <$> client_threads_ p ++ joining p).
Proof. intros Hl. unfold held. by rewrite (field_none (listen_socket_ _)). Qed.

Lemma call_start_sound base p b p' :
  sound base p → runner p = NotRunning → stopper p = NotStopping → call_start p = (Ok b, p') →
  sound base p' ∧ running_ (own p') = b ∧ runner p' = NotRunning ∧ stopper p' = NotStopping.
Proof.
  intros Hp Hr Hs. unfold call_start. destruct (running_ (own p)) eqn:Hrun.
  { unfold start, bind at 1, the_object. cbn [fst snd]. rewrite Hrun.
    unfold bind, on_object, modify, ret. cbn [fst snd]. intros [= <- <-].
    replace (set_running true (own p)) with (own p) by (destruct (own p); cbn in *; by subst).
    assert (set_world (world p) (set_own (own p) p) = p) as -> by by destruct p. done. }
  destruct Hp as [Ho Hc _ Hl Hj Hn]. specialize (Hl Hrun ltac:(by rewrite Hs)).
  destruct (start_opens base (held p) (own p) (world p) Hl Hrun Ho) as (b' & d & w' & -> & Ho' & Hb).
  intros [= <- <-]. split; [|done]. constructor; cbn; try done.
  - eapply owned_perm; [|exact Ho']. rewrite listen_perm by done. done.
  - auto.
  - intros _. by apply Hn.
Qed.

Lemma called_sound base p p' : sound base p → called p p' → sound base p'.
Proof.
  intros Hp [b p1 Hr Hs E|Hr Hs|Hs].
  - by eapply call_start_sound.
  - unfold call_run. destruct (running_ (own p)) eqn:Hrun.
    + destruct Hp. constructor; cbn; try done; [|by rewrite Hrun].
      unfold held in *. cbn. by rewrite Hr in sound_owned0.
    + destruct (call_start p) as [[b|e] p1] eqn:E.
      2:{ exfalso. revert E. unfold call_start.
          pose proof (sound_listener _ _ Hp Hrun ltac:(by rewrite Hs)) as Hl.
          destruct (start_opens base (held p) (own p) (world p) Hl Hrun (sound_owned _ _ Hp))
            as (b' & d & w' & -> & _). done. }
      destruct (call_start_sound base p b p1 Hp Hr Hs E) as (Hp1 & Hb & Hr1 & Hs1).
      destruct b; [|done]. destruct Hp1. constructor; cbn; try done; [|by rewrite Hb].
      unfold held in *. cbn. by rewrite Hr1 in sound_owned0.
  - unfold call_stop. destruct (running_ (own p)) eqn:Hrun; [|done].
    destruct Hp. rewrite Hs in *. constructor; cbn; try done; auto. by intros _ [?|?].
Qed.

(** *** The threads *)

Lemma client_step_sound base l s w c who s' w' c' :
  owned base (held_client c ++ l) w → client_ok c → client_step getaddrinfo s w c who s' w' c' →
  owned base (held_client c' ++ l) w' ∧ client_ok c' ∧
  running_ s' = running_ s ∧ listen_socket_ s' = listen_socket_ s.
Proof.
  intros Ho Hok [Ht|client core Ht|Wd client core continue g d w1 w2 Ht Hconn Hd Hturn Hw|Ht|Ht].
  - unfold held_client in *. rewrite Ht in Ho. by destruct (running_ s).
  - unfold held_client in *. by rewrite Ht in Ho.
  - assert (linked_session d (session c) (Gateway.session g)) as [Hclient Hlink].
    { pose proof (linked_poll_turn (World0 := Wd) (config_ s) d Hd client core
        (Gateway.mk (session c) (next_numeric_order_id_ s) (next_exec_id_ s) (sent c))) as H.
      unfold turn in Hturn. by rewrite Hturn in H. }
    assert (client_ok (mk_client (if continue then TestLoop else CloseCore) (Gateway.session g)
      (Gateway.sent g))) as Hok'.
    { unfold client_ok in *. cbn. destruct Hlink as [[-> ->]|(_ & -> & ->)]; [done|].
      intros. by apply bool_decide_eq_true_2. }
    split; [|done].
    assert (held_client (mk_client (if continue then TestLoop else CloseCore) (Gateway.session g)
      (Gateway.sent g)) = SessionContext.client_socket (session c) ::
        field (SessionContext.core_socket (Gateway.session g))) as ->
      by (unfold held_client; rewrite <- Hclient; by destruct continue).
    unfold held_client in Ho. rewrite Ht in Ho.
    destruct (decide _) as [->|Hne] in Hw; [by eapply owned_same|].
    destruct Hlink as [[? _]|(Hl & Hcore & _)]; [done|].
    assert (SessionContext.core_socket (session c) < 0) as Hneg.
    { unfold client_ok in Hok. destruct (Z.lt_ge_cases (SessionContext.core_socket (session c)) 0); [done|].
      rewrite Hok in Hl by done. done. }
    rewrite field_none in Ho by done.
    destruct (connect_acquires base _ getaddrinfo (FixGatewayConfig.exchange_host (config_ s))
      (FixGatewayConfig.exchange_port (config_ s)) w Ho) as (d' & w1' & E & Ho').
    rewrite Hconn in E. injection E as <- <-. rewrite Hcore.
    eapply owned_perm; [|by eapply owned_same]. cbn. symmetry. apply Permutation_middle.
  - unfold held_client in *. rewrite Ht in Ho. cbn. split_and!; [|done..].
    apply owned_closed_at. eapply owned_perm; [|exact Ho].
    cbn. apply (Permutation_middle (field _) l).
  - unfold held_client in *. rewrite Ht in Ho. cbn. split_and!; [|done..].
    by apply owned_close, owned_shutdown.
Qed.

(* the descriptors of one thread first *)
Lemma held_middle (l1 l2 : list (ClientThread F)) c :
  concat (held_client <$> l1 ++ c :: l2) ≡ₚ held_client c ++ concat (held_client <$> l1 ++ l2).
Proof.
  rewrite !fmap_app, fmap_cons, !concat_app. cbn [concat]. apply Permutation_app_swap_app.
Qed.

Lemma thread_owned base (l1 l2 : list (ClientThread F)) c c' front w w' :
  owned base (front ++ concat (held_client <$> l1 ++ c :: l2)) w →
  (∀ l, owned base (held_client c ++ l) w → owned base (held_client c' ++ l) w') →
  owned base (front ++ concat (held_client <$> l1 ++ c' :: l2)) w'.
Proof.
  intros Ho Hstep. eapply owned_perm; [|apply (Hstep (front ++ concat (held_client <$> l1 ++ l2)))].
  - rewrite held_middle. apply Permutation_app_swap_app.
  - eapply owned_perm; [|exact Ho]. rewrite held_middle. apply Permutation_app_swap_app.
Qed.

(* a thread in one of the two vectors has made a step *)
Lemma client_advance_sound base p who s w c c' :
  sound base p → client_step getaddrinfo (own p) (world p) c who s w c' →
  (∀ l1 l2, client_threads_ p = l1 ++ c :: l2 →
     sound base (set_world w (set_own s (set_threads (l1 ++ c' :: l2) p)))) ∧
  (∀ l1 l2, joining p = l1 ++ c :: l2 →
     sound base (set_world w (set_own s (set_joining (l1 ++ c' :: l2) p)))).
Proof.
  intros [Ho Hc Hr Hl Hj Hn] Hstep. unfold held in Ho.
  assert (∀ front l1 l2, Forall client_ok (l1 ++ c :: l2) →
    owned base (front ++ concat (held_client <$> l1 ++ c :: l2)) (world p) →
    owned base (front ++ concat (held_client <$> l1 ++ c' :: l2)) w ∧ Forall client_ok (l1 ++ c' :: l2) ∧
    running_ s = running_ (own p) ∧ listen_socket_ s = listen_socket_ (own p)) as H.
  { intros front l1 l2 [Hc1 [Hok Hc2]%Forall_cons]%Forall_app Hl12. split.
    - eapply thread_owned; [exact Hl12|]. intros l Hcl.
      by apply (client_step_sound base l _ _ _ _ _ _ _ Hcl Hok Hstep).
    - rewrite held_middle in Hl12. rewrite Permutation_app_swap_app in Hl12.
      destruct (client_step_sound base _ _ _ _ _ _ _ _ Hl12 Hok Hstep) as (_ & Hok' & Hsame).
      split; [|done]. apply Forall_app. split; [done|by constructor]. }
  split; intros l1 l2 El; rewrite El in *.
  - rewrite <- (assoc_L (++)) in *. cbn in Ho, Hc. rewrite (assoc_L (++)) in Ho.
    destruct (H _ _ _ Hc Ho) as (Ho' & Hc' & Hr' & Hl').
    constructor; cbn; rewrite ?Hr', ?Hl', <- ?(assoc_L (++)); try done.
    + unfold held. cbn. rewrite Hl', (assoc_L (++)), <- (assoc_L (++) l1). exact Ho'.
    + intros H1 H2. specialize (Hn H1 H2). rewrite length_app in *. done.
  - rewrite (assoc_L (++) (client_threads_ p)) in Hc, Ho. rewrite (assoc_L (++) (field _)) in Ho.
    destruct (H _ _ _ Hc Ho) as (Ho' & Hc' & Hr' & Hl').
    constructor; cbn; rewrite ?Hr', ?Hl', ?(assoc_L (++) (client_threads_ p)); try done.
    + unfold held. cbn. rewrite Hl', (assoc_L (++) (field _)), (assoc_L (++) (client_threads_ p)). exact Ho'.
    + intros Hne. by destruct l1; specialize (Hj Hne).
Qed.

Lemma run_step_sound base now p p' : sound base p → run_step now p = Some p' → sound base p'.
Proof.
  intros [Ho Hc Hr Hl Hj Hn]. unfold run_step, held in *. destruct (runner p) as [| | | |client] eqn:Er; try done.
  - intros [= <-]. constructor; cbn; try done; (destruct (running_ (own p)) eqn:Erun; [done|]); auto.
  - unfold accept_return. pose proof (accept_opens (listen_socket_ (own p)) (world p)) as Hd.
    pose proof (accept_refused (listen_socket_ (own p)) (world p)) as Hneg.
    destruct (sys_accept (listen_socket_ (own p)) (world p)) as [answer w]. cbn [fst snd] in *.
    set (x := if result answer <? 0 then Refused else Emplace (result answer)).
    assert (emplacing x = field (result answer)) as Hx by (subst x; unfold field; by destruct (result answer <? 0)).
    intros [= <-]. constructor; cbn; try done.
    + unfold held. cbn. rewrite Hx, Permutation_app_swap_app. by eapply owned_opened.
    + intros H1 H2. specialize (Hn H1 H2). rewrite Hx.
      rewrite field_none; [done|]. apply Hneg, Hl; [done|]. by destruct H2 as [->| ->].
  - intros [= <-]. constructor; cbn; try done; (destruct (running_ (own p)) eqn:Erun; [done|]); auto.
  - intros [= <-]. constructor; cbn; try done.
    + unfold held. cbn [own runner client_threads_ joining world set_runner set_threads emplacing].
      rewrite <- (assoc_L (++)). cbn [app]. rewrite held_middle. exact Ho.
    + rewrite <- (assoc_L (++)). apply Forall_app in Hc as [Hc1 Hc2]. apply Forall_app. split; [done|].
      constructor; [|done]. unfold client_ok. cbn. lia.
    + intros H1 H2. specialize (Hn H1 H2). rewrite length_app. cbn in *. lia.
Qed.

Lemma stop_step_sound base p p' : sound base p → stop_step p = Some p' → sound base p'.
Proof.
  intros [Ho Hc Hr Hl Hj Hn]. unfold stop_step. destruct (stopper p) eqn:Es; try done.
  - intros [= <-]. constructor; cbn; auto.
    + unfold held in *. cbn. apply owned_closed_at. rewrite field_vacated. exact Ho.
    + intros _ _. unfold vacated. destruct (Z.leb_spec 0 (listen_socket_ (own p))); lia.
    + by intros _ [?|?].
  - intros [= <-]. rewrite (Hj ltac:(done)), (right_id_L [] (++)) in Hc. unfold held in Ho.
    rewrite (Hj ltac:(done)), (right_id_L [] (++)) in Ho. constructor; cbn; auto.
    + done.
    + intros _ _. by destruct (runner p); cbn; lia.
  - destruct (joining p) as [|c l] eqn:El.
    + intros [= <-]. constructor; cbn; rewrite ?El; auto.
    + destruct (point c) eqn:Ec; try done. intros [= <-].
      apply Forall_app in Hc as [Hc1 [_ Hc2]%Forall_cons].
      constructor; cbn; rewrite ?Es; auto.
      * unfold held in *. cbn. rewrite El in Ho. rewrite held_middle in Ho.
        unfold held_client at 1 in Ho. by rewrite Ec in Ho.
      * by apply Forall_app.
      * done.
Qed.

Lemma advance_sound base who p p' : sound base p → advance getaddrinfo p who p' → sound base p'.
Proof.
  intros Hp [].
  - by eapply run_step_sound.
  - by eapply stop_step_sound.
  - by eapply client_advance_sound.
  - by eapply client_advance_sound.
Qed.

Lemma reachable_threads_sound config w0 p : reachable getaddrinfo config w0 p → sound (descriptors w0) p.
Proof. induction 1; [apply constructed_sound|by eapply called_sound|by eapply advance_sound]. Qed.

(** ** After stop *)

(* how many more steps the threads can make *)
Definition client_remaining c : nat :=
  match point c with TestLoop => 3 | Poll => 5 | Turn _ _ => 4 | CloseCore => 2 | CloseClient => 1 | Ended => 0 end.
Definition run_remaining (x : RunPoint) : nat :=
  match x with NotRunning => 0 | TestRun => 1 | Accept => 8 | Refused => 2 | Emplace _ => 7 end.
Definition stop_remaining p : nat :=
  match stopper p with
  | NotStopping => 0
  | CloseListener => length (client_threads_ p) + 3
  | SwapThreads => length (client_threads_ p) + 2
  | Join => length (joining p) + 1
  end.
Definition remaining p : nat :=
  sum_list_with client_remaining (client_threads_ p ++ joining p) + run_remaining (runner p) + stop_remaining p.

Lemma sum_middle (l1 l2 : list (ClientThread F)) c :
  sum_list_with client_remaining (l1 ++ c :: l2) =
  (client_remaining c + sum_list_with client_remaining (l1 ++ l2))%nat.
Proof. rewrite !sum_list_with_app. simpl. lia. Qed.

Lemma client_step_remaining s w c who s' w' c' :
  running_ s = false → client_step getaddrinfo s w c who s' w' c' →
  (client_remaining c' < client_remaining c)%nat ∧ running_ s' = false.
Proof.
  intros Hr [Ht|client core Ht|Wd client core continue g d w1 w2 Ht Hconn Hd Hturn Hw|Ht|Ht];
    unfold client_remaining; rewrite Ht; cbn; (split; [|done]); try lia.
  - rewrite Hr. lia.
  - destruct continue; lia.
Qed.

Lemma advance_remaining who p p' :
  running_ (own p) = false → (stopper p ≠ Join → joining p = []) → advance getaddrinfo p who p' →
  (remaining p' < remaining p)%nat ∧ running_ (own p') = false.
Proof.
  intros Hr Hj Hstep. unfold remaining.
  destruct Hstep as [now p' H|p' H|l1 c l2 who s w c' El H|l1 c l2 who s w c' El H].
  - unfold run_step in H. destruct (runner p) eqn:Er; try done.
    + injection H as <-. cbn. rewrite Hr. unfold stop_remaining. cbn. split; [lia|done].
    + injection H as <-. unfold accept_return.
      destruct (sys_accept _ _) as [answer w]. cbn. unfold stop_remaining. cbn.
      by destruct (result answer <? 0); cbn; (split; [lia|]).
    + injection H as <-. cbn. rewrite Hr. unfold stop_remaining. cbn. split; [lia|done].
    + injection H as <-. unfold stop_remaining. cbn. rewrite <- (assoc_L (++)). cbn [app]. rewrite sum_middle, length_app. cbn.
      split; [destruct (stopper p); lia|done].
  - unfold stop_step in H. unfold stop_remaining. destruct (stopper p) eqn:Es; try done.
    + injection H as <-. cbn. split; [lia|done].
    + injection H as <-. cbn. rewrite (Hj ltac:(done)), (right_id_L [] (++)). split; [lia|done].
    + destruct (joining p) as [|c l] eqn:El.
      * injection H as <-. cbn. rewrite El. split; [lia|done].
      * destruct (point c); try done. injection H as <-. cbn. rewrite Es, sum_middle. split; [lia|done].
  - destruct (client_step_remaining _ _ _ _ _ _ _ Hr H) as [Hlt Hr']. unfold stop_remaining. cbn.
    rewrite El, <- !(assoc_L (++)). cbn. rewrite !sum_middle, !length_app. cbn.
    split; [destruct (stopper p); lia|done].
  - destruct (client_step_remaining _ _ _ _ _ _ _ Hr H) as [Hlt Hr']. unfold stop_remaining. cbn.
    rewrite El, !(assoc_L (++)), !sum_middle, !length_app. cbn.
    split; [destruct (stopper p); lia|done].
Qed.

Definition ended c : Prop := point c = Ended.

(* in a turn: dealing with what poll and recv gave *)
Definition in_turn c : Prop := ∃ client core, point c = Turn client core.

#[export] Instance in_turn_dec c : Decision (in_turn c).
Proof.
  refine (match point c as x return Decision (∃ client core, x = Turn client core) with
          | Turn client core => left (ex_intro _ client (ex_intro _ core eq_refl))
          | _ => right _
          end); by intros (? & ? & ?).
Defined.

(* who is in a turn waits for its peers; anybody else has a step *)
Lemma client_moves s w c : ¬ ended c → ¬ in_turn c → ∃ s' w' c', client_step getaddrinfo s w c Program s' w' c'.
Proof.
  unfold ended, in_turn. intros Hne Ht. destruct (point c) as [| |client core| | |] eqn:Hp; [| | | | |done].
  - eexists _, _, _. by apply tests.
  - eexists _, _, _. by apply (polls getaddrinfo s w c FixGateway.Silent FixGateway.Silent).
  - destruct Ht. by exists client, core.
  - eexists _, _, _. by apply closes_core.
  - eexists _, _, _. by apply closes_client.
Qed.

Lemma threads_move (l : list (ClientThread F)) :
  Forall ended l ∨ ∃ l1 c l2, l = l1 ++ c :: l2 ∧ ¬ ended c.
Proof.
  assert (∀ c, Decision (ended c)) as Hdec by (intros c; unfold ended; destruct (point c); by (left + right)).
  destruct (decide (Forall ended l)) as [|Hl]; [by left|right].
  apply not_Forall_Exists in Hl; [|exact Hdec].
  apply Exists_exists in Hl as (c & Hc & Hne). apply list_elem_of_split in Hc as (l1 & l2 & ->). by exists l1, c, l2.
Qed.

Lemma held_ended (l : list (ClientThread F)) : Forall ended l → concat (held_client <$> l) = [].
Proof. induction 1 as [|c l Hc _ IH]; [done|]. cbn. unfold held_client at 1. by rewrite Hc. Qed.

Definition quiet p : Prop :=
  runner p = NotRunning ∧ stopper p = NotStopping ∧ Forall ended (client_threads_ p) ∧ held p = [].

Lemma accept_program p : listen_socket_ (own p) < 0 → run_who p = Program.
Proof.
  intros Hl. unfold run_who. destruct (runner p); try done. destruct (Z.ltb_spec (listen_socket_ (own p)) 0); [done|lia].
Qed.

(* a thread that has not ended has a step, or is in a turn *)
Lemma thread_moves (l : list (ClientThread F)) s w :
  Forall ended l ∨ (∃ c, c ∈ l ∧ in_turn c) ∨
  ∃ l1 c l2 s' w' c', l = l1 ++ c :: l2 ∧ client_step getaddrinfo s w c Program s' w' c'.
Proof.
  destruct (threads_move l) as [|(l1 & c & l2 & -> & Hne)]; [by left|right].
  destruct (decide (in_turn c)) as [Ht|Ht]; [left; exists c; split; [set_solver|done]|right].
  destruct (client_moves s w c Hne Ht) as (s' & w' & c' & H). by exists l1, c, l2, s', w', c'.
Qed.

Lemma stopped_moves base p :
  sound base p → running_ (own p) = false →
  (∃ p', advance getaddrinfo p Program p') ∨ (∃ c, c ∈ client_threads_ p ++ joining p ∧ in_turn c) ∨ quiet p.
Proof.
  intros Hp Hr.
  destruct (stop_step p) as [p'|] eqn:Es; [left; exists p'; by eapply stop_advances|].
  destruct (run_step 0 p) as [p'|] eqn:Er.
  { left. exists p'. rewrite <- (accept_program p); [by eapply run_advances|].
    apply (sound_listener _ _ Hp Hr). intros E. unfold stop_step in Es. by rewrite E in Es. }
  destruct (thread_moves (client_threads_ p) (own p) (world p)) as [Hc|[(c & Hc & Ht)|(l1 & c & l2 & s & w & c' & El & H)]];
    [|right; left; exists c; split; [set_solver|done]|left; eexists; by eapply client_advances].
  destruct (thread_moves (joining p) (own p) (world p)) as [Hj|[(c & Hj & Ht)|(l1 & c & l2 & s & w & c' & El & H)]];
    [|right; left; exists c; split; [set_solver|done]|left; eexists; by eapply joined_advances].
  right. right. unfold run_step in Er. unfold stop_step in Es. unfold quiet, held.
  destruct (runner p); [|done..]. destruct (stopper p) eqn:Est; [|done|done|].
  - pose proof (sound_listener _ _ Hp Hr ltac:(by rewrite Est)) as Hl.
    pose proof (sound_joining _ _ Hp ltac:(by rewrite Est)) as ->.
    rewrite field_none, (right_id_L [] (++)), held_ended by done. done.
  - destruct (joining p) as [|c l]; [done|]. apply Forall_cons in Hj as [Hj _]. by rewrite Hj in Es.
Qed.
End accounts.

(** C37. The FIX gateway keeps account of its descriptors, and stops unless a peer
    holds it up.  In every state the program can reach, with the threads and
    the system doing what they may in any order: the descriptors open are those
    of before, the listening socket, a connection whose thread is not yet made,
    and for each client thread its socket and its connection to the core, each
    once.  Once stop is called every step of any thread brings the end closer,
    and until nothing is left to do, with every socket closed, there is a step
    that needs nobody outside the program, unless a client thread is in the
    middle of a turn: there it sends and connects without a timeout, and stop
    does not shut its sockets down, so a client that does not read keeps its
    thread in send, and with it stop, for ever ([stop_held_up]).  When stop has
    returned it has joined every thread but at most one, which run created
    after stop had taken the others. *)
Theorem fix_gateway_stops {F} `{!LongDouble F} {W} `{!System W, !SystemLaws W, !Refusing W}
    getaddrinfo config (w0 : W) (p : Process F W) :
  reachable getaddrinfo config w0 p →
  (∀ d, d ∈ descriptors (world p) ↔ d ∈ descriptors w0 ∨ d ∈ held p) ∧ NoDup (held p) ∧
  (running_ (own p) = false →
     (∀ who p', advance getaddrinfo p who p' → running_ (own p') = false ∧ (remaining p' < remaining p)%nat) ∧
     ((∃ p', advance getaddrinfo p Program p') ∨
      (∃ c, c ∈ client_threads_ p ++ joining p ∧ in_turn c) ∨ quiet p) ∧
     (stopper p = NotStopping → joining p = [] ∧ (length (client_threads_ p) ≤ 1)%nat)).
Proof.
  intros Hp%reachable_threads_sound. pose proof (sound_owned _ _ Hp) as [Hall Honce _].
  split; [intros d; rewrite Hall; set_solver|]. split; [done|]. intros Hr. split_and!.
  - intros who p' Hstep. apply and_comm. by apply (advance_remaining getaddrinfo who p p' Hr (sound_joining _ _ Hp)).
  - by eapply stopped_moves.
  - intros Hs. pose proof (sound_late _ _ Hp Hr ltac:(by right)).
    split; [apply (sound_joining _ _ Hp); by rewrite Hs|lia].
Qed.

(** ** Two lives *)

Definition host (name : string) (service : list byte) (w : Script) : option (list (Z * Z)) := Some [(1, 9000)].
Definition system0 : Script := mk_script {[0; 1; 2; 3; 4]} [] [].
Definition steps_run (p : Process Q Script) : Process Q Script := default p (run_step 0 p).
Definition steps_stop (p : Process Q Script) : Process Q Script := default p (stop_step p).
Abbreviation lives := (reachable host FixDemo.config system0).

Lemma steps_run_lives p : lives p → lives (steps_run p).
Proof.
  intros Hp. unfold steps_run. destruct (run_step 0 p) as [p'|] eqn:E; [|done].
  eapply reachable_advance; [exact Hp|by eapply run_advances].
Qed.

Lemma steps_stop_lives p : lives p → lives (steps_stop p).
Proof.
  intros Hp. unfold steps_stop. destruct (stop_step p) as [p'|] eqn:E; [|done].
  eapply reachable_advance; [exact Hp|by eapply stop_advances].
Qed.

(* the only thread of the vector *)
Definition on_thread (s : Object) (w : Script) (c : ClientThread Q) (p : Process Q Script) : Process Q Script :=
  set_world w (set_own s (set_threads [c] p)).

Lemma thread_lives p c who s w c' :
  lives p → client_threads_ p = [c] → client_step host (own p) (world p) c who s w c' → lives (on_thread s w c' p).
Proof.
  intros Hp Hc Hstep. eapply reachable_advance; [exact Hp|].
  exact (client_advances host p [] c [] who s w c' Hc Hstep).
Qed.

(* a client connects, and its thread is made *)
Definition accepted : Process Q Script :=
  steps_run (steps_run (call_run (constructed FixDemo.config system0))).
Definition served : Process Q Script := steps_run accepted.
Definition client6 : ClientThread Q := mk_client TestLoop (FixGateway.new_session FixDemo.config 6 0) [].

Lemma accepted_lives : lives accepted.
Proof.
  unfold accepted. do 2 apply steps_run_lives. eapply reachable_call; [apply reachable_constructed|].
  by apply run_called.
Qed.

(* it logs on: the gateway connects to the core *)
Definition at_turn : ClientThread Q :=
  at_point (Turn (FixGateway.Received (Fix.encode FixDemo.logon)) FixGateway.Silent) client6.
Definition logged : Gateway.t Q :=
  (turn FixDemo.demo_world (FixGateway.Received (Fix.encode FixDemo.logon)) FixGateway.Silent (own served) at_turn).2.
Definition core_connected : Script :=
  (connect_to_exchange host "127.0.0.1" 9000 (world served)).2.
Definition polling : Process Q Script := on_thread (own served) (world served) (at_point Poll client6) served.
Definition turning : Process Q Script := on_thread (own served) (world served) at_turn polling.
Definition online : Process Q Script :=
  on_thread (set_counters (Gateway.next_numeric_order_id_ logged) (Gateway.next_exec_id_ logged) (own served))
    core_connected (mk_client TestLoop (Gateway.session logged) (Gateway.sent logged)) turning.

Lemma logon_step :
  client_step host (own served) (world served) at_turn Others
    (set_counters (Gateway.next_numeric_order_id_ logged) (Gateway.next_exec_id_ logged) (own served))
    core_connected (mk_client TestLoop (Gateway.session logged) (Gateway.sent logged)).
Proof.
  assert (connect_to_exchange host (FixGatewayConfig.exchange_host (config_ (own served)))
    (FixGatewayConfig.exchange_port (config_ (own served))) (world served) = (Ok 7, core_connected)) as Hconn
    by by vm_compute.
  assert (turn FixDemo.demo_world (FixGateway.Received (Fix.encode FixDemo.logon)) FixGateway.Silent (own served)
     at_turn = (Ok true, logged)) as Hturn by by vm_compute.
  assert (descriptors core_connected =
    (if decide (SessionContext.core_socket (Gateway.session logged) =
                SessionContext.core_socket (session at_turn))
     then descriptors (world served) else descriptors core_connected)) as Hw by by vm_compute.
  exact (turns host _ _ at_turn FixDemo.demo_world _ _ true logged 7
    core_connected core_connected eq_refl Hconn (λ _, eq_refl) Hturn Hw).
Qed.

Lemma turning_lives : lives turning.
Proof.
  assert (client_threads_ served = [client6]) as Hc by by vm_compute.
  assert (lives polling) as Hp.
  { apply (thread_lives served client6 Program); [apply steps_run_lives, accepted_lives|exact Hc|].
    exact (tests host (own served) (world served) client6 eq_refl). }
  refine (thread_lives polling (at_point Poll client6) Program _ _ _ Hp eq_refl _).
  exact (polls host (own served) (world served) (at_point Poll client6) _ _ eq_refl).
Qed.

Lemma online_lives : lives online.
Proof. exact (thread_lives turning _ _ _ _ _ turning_lives eq_refl logon_step). Qed.

(** stop is called while the thread of a client is in a turn: it waits for the
    thread, whose send waits for the client, and nothing that is left in the
    program can make a step. *)
Definition held_up : Process Q Script :=
  steps_run (steps_run (steps_run (steps_stop (steps_stop (call_stop turning))))).

Lemma nobody_moves (p p' : Process Q Script) c :
  runner p = NotRunning → stop_step p = None → client_threads_ p = [] → joining p = [c] →
  in_turn c → ¬ advance host p Program p'.
Proof.
  intros Hr Hs Hc Hj (client & core & Ht) Hstep.
  inversion Hstep as [now p1 H E1 E2|p1 H|l1 x l2 who s w x' El H|l1 x l2 who s w x' El H]; subst.
  - unfold run_step in H. by rewrite Hr in H.
  - congruence.
  - rewrite Hc in El. by destruct l1.
  - rewrite Hj in El. destruct l1 as [|? []]; [|done..]. injection El as <- _. inversion H; congruence.
Qed.

Example stop_held_up :
  lives held_up ∧ stopper held_up = Join ∧ joining held_up = [at_turn] ∧ ∀ p, ¬ advance host held_up Program p.
Proof.
  assert (runner held_up = NotRunning ∧ stop_step held_up = None ∧
    client_threads_ held_up = [] ∧ joining held_up = [at_turn] ∧ stopper held_up = Join)
    as (H2 & H3 & H4 & H5 & H6) by (by vm_compute).
  split; [|split; [done|split; [done|]]].
  - unfold held_up. do 3 apply steps_run_lives. do 2 apply steps_stop_lives.
    eapply reachable_call; [exact turning_lives|]. by apply stop_called.
  - intros p. apply (nobody_moves held_up p at_turn); try done.
    by exists (FixGateway.Received (Fix.encode FixDemo.logon)), FixGateway.Silent.
Qed.

(* stop takes the threads, none, while the connection of a client is on its
   way into the vector; the thread that is then made is never joined *)
Definition late : Process Q Script :=
  steps_run (steps_run (steps_stop (steps_stop (steps_stop (call_stop accepted))))).
Definition late_at (x : ClientPoint) (w : Script) : Process Q Script := on_thread (own late) w (at_point x client6) late.
Definition orphaned : Process Q Script := late_at Ended (sys_close 6 (world late)).

Lemma orphaned_lives : lives orphaned.
Proof.
  assert (lives late) as H0.
  { unfold late. do 2 apply steps_run_lives. do 3 apply steps_stop_lives.
    eapply reachable_call; [exact accepted_lives|]. by apply stop_called. }
  assert (client_threads_ late = [client6]) as Hc by by vm_compute.
  assert (running_ (own late) = false) as Hr by by vm_compute.
  pose proof (tests host (own late) (world late) client6 eq_refl) as S1. rewrite Hr in S1.
  pose proof (thread_lives late _ _ _ _ _ H0 Hc S1) as H1.
  pose proof (closes_core host (own late) (world late) (at_point CloseCore client6) eq_refl) as S2.
  pose proof (thread_lives (late_at CloseCore (world late)) _ _ _ _ _ H1 eq_refl S2) as H2.
  pose proof (closes_client host (own late) (world late) (at_point CloseClient client6) eq_refl) as S3.
  exact (thread_lives (late_at CloseClient (world late)) _ _ _ _ _ H2 eq_refl S3).
Qed.

(* all is closed, run and stop have returned, and a thread was not joined: the
   destructor of the vector terminates the program *)
Example stop_orphans :
  stopper orphaned = NotStopping ∧ runner orphaned = NotRunning ∧ held orphaned = [] ∧
  (point <$> client_threads_ orphaned) = [Ended].
Proof. by vm_compute. Qed.

Lemma fix_gateway_stops_witness :
  held online = [5; 6; 7] ∧ NoDup (held online) ∧
  (running_ (own orphaned) = false ∧ stopper orphaned = NotStopping) ∧
  (joining orphaned = [] ∧ (length (client_threads_ orphaned) ≤ 1)%nat).
Proof.
  split; [by vm_compute|].
  split; [exact (proj1 (proj2 (fix_gateway_stops host FixDemo.config system0 online online_lives)))|].
  split; [by vm_compute|].
  destruct (fix_gateway_stops host FixDemo.config system0 orphaned orphaned_lives) as (_ & _ & H).
  apply (proj2 (proj2 (H eq_refl))). by vm_compute.
Defined.

End FixThreads.
