(* ===== verification/Multicast.v ===== *)
(** * The multicast publisher (src/multicast_publisher.cpp)

    Threads that hand datagrams to one publisher thread, each through a queue
    of its own.  Every atomic access is a step, and the steps of the threads,
    of the publisher thread and of [stop] interleave freely.

    The memory is that of the release and acquire orders of C++, not a
    sequentially consistent one.  A location is the list of the values it was
    given, oldest first; a load may return any of them that is not older than
    what its thread has already read or written there; a read-modify-write reads
    the last.  With a value goes what its store released: how many datagrams of
    each shard its thread knew to be queued, and an acquire load that returns
    the value learns it.  (Every location has one thread that stores plainly to
    it, so new values are always added at the end; the counters are only
    touched by read-modify-writes.)  The memory orders are modelled as far as
    they constrain what is read here; what the threads learn of each other in
    other ways is not assumed, except that a thread that calls send does so
    after [start] has returned, and what [stop] is told by its caller.

    The queue of a shard is the ring of LockFreeRing.v: what was stored in it,
    how far it was consumed, and how much of either the other side has seen. *)
From S2P Require Import Prelude Bytes.

Module MulticastPublisher.

Definition kProducerShardCount : nat := 256.
Definition kQueueCapacityPerProducer : Z := 32.
Definition queue_capacity : Z := Z.of_nat kProducerShardCount * kQueueCapacityPerProducer.
Definition kMaximumDatagramSize : nat := 512.

Definition Datagram : Type := list byte.

Record Slot : Type := mk_slot { bytes : list byte; size : nat }.

(* the writer that send gives try_emplace: memcpy over what the slot held *)
Definition write_slot (datagram : Datagram) (held : list byte) : Slot :=
  mk_slot (take kMaximumDatagramSize (datagram ++ drop (length datagram) held)) (length datagram).

Definition slot_datagram (slot : Slot) : Datagram := take (size slot) (bytes slot).

(** ** Memory *)

(* how many datagrams of each shard are known to be queued *)
Definition View : Type := nat → nat.
Definition no_view : View := λ _, 0%nat.
Definition join (v w : View) : View := λ i, (v i `max` w i)%nat.
(* (the function itself when it has that value already) *)
Definition set_at (i n : nat) (v : nat → nat) : nat → nat :=
  if (v i =? n)%nat then v else λ j, if (j =? i)%nat then n else v j.
Definition join_at (i n : nat) (v : View) : View := set_at i (v i `max` n)%nat v.

(* the values of a flag, each with what its store released *)
Definition Flag : Type := list (bool * View).

(* a load: the [k]-th value, if the thread may still read it *)
Definition load {A} (seen k : nat) (values : list A) : option A :=
  if (seen <=? k)%nat then values !! k else None.
Definition in_range (seen k latest : nat) : bool := (seen <=? k)%nat && (k <=? latest)%nat.

(* what a read-modify-write reads *)
Definition current (flag : Flag) : bool * View := default (false, no_view) (last flag).

(** ** The shards *)

Record ProducerShard : Type := mk_shard {
  stored : list Slot;                    (* all that was emplaced: write_position_ is its length *)
  consumed : nat;                        (* read_position_ *)
  seen_consumed : nat;                   (* what the sender has read of read_position_ *)
  active_sender : list (bool * nat);     (* each value with the length of [stored] it releases *)
  enqueued : Z;
  dropped : Z;
  max_depth : Z
}.

Definition fresh_shard : ProducerShard := mk_shard [] 0 0 [(false, 0%nat)] 0 0 0.
#[export] Instance shard_inhabited : Inhabited ProducerShard := populate fresh_shard.

(* what waits in the ring *)
Definition queue (p : ProducerShard) : list Slot := drop (consumed p) (stored p).

Definition emplace (seen : nat) (slot : Slot) (p : ProducerShard) : ProducerShard :=
  mk_shard (stored p ++ [slot]) (consumed p) seen (active_sender p) (enqueued p) (dropped p) (max_depth p).
Definition saw_consumed (seen : nat) (p : ProducerShard) : ProducerShard :=
  mk_shard (stored p) (consumed p) seen (active_sender p) (enqueued p) (dropped p) (max_depth p).
Definition consume (p : ProducerShard) : ProducerShard :=
  mk_shard (stored p) (S (consumed p)) (seen_consumed p) (active_sender p) (enqueued p) (dropped p) (max_depth p).
Definition store_active (b : bool) (p : ProducerShard) : ProducerShard :=
  mk_shard (stored p) (consumed p) (seen_consumed p) (active_sender p ++ [(b, length (stored p))])
    (enqueued p) (dropped p) (max_depth p).
Definition count_enqueued (p : ProducerShard) : ProducerShard :=
  mk_shard (stored p) (consumed p) (seen_consumed p) (active_sender p) (u64 (enqueued p + 1)) (dropped p) (max_depth p).
Definition count_dropped (p : ProducerShard) : ProducerShard :=
  mk_shard (stored p) (consumed p) (seen_consumed p) (active_sender p) (enqueued p) (u64 (dropped p + 1)) (max_depth p).

(* only the thread of the shard stores its max_depth, so that the exchange
   cannot fail but spuriously *)
Definition update_max_depth (depth : Z) (p : ProducerShard) : ProducerShard :=
  mk_shard (stored p) (consumed p) (seen_consumed p) (active_sender p) (enqueued p) (dropped p)
    (if max_depth p <? depth then depth else max_depth p).

(* try_emplace: what its thread knows of read_position_ afterwards; it loads it
   only when the ring looks full, and [k] is then what it reads *)
Definition free_position (k : nat) (p : ProducerShard) : option nat :=
  if Z.of_nat (length (stored p) - seen_consumed p) <? kQueueCapacityPerProducer then Some (seen_consumed p)
  else if in_range (seen_consumed p) k (consumed p) then Some k else None.

(* size_approx of the loaded positions, in std::size_t *)
Definition size_approx (write read : Z) : Z :=
  let difference := u64 (write - read) in
  if kQueueCapacityPerProducer <? difference then kQueueCapacityPerProducer else difference.

(** ** Threads *)

(* where a thread is in send *)
Inductive Send : Type :=
  | Outside
  | Reject                                     (* about to count an administrative drop *)
  | Register (datagram : Datagram)
  | FailRegistration                           (* about to count a registration that failed *)
  | Activate (datagram : Datagram) (shard : nat)
  | Recheck (datagram : Datagram) (shard : nat)  (* about to load running_ again *)
  | Abandon (shard : nat)
  | Emplace (datagram : Datagram) (shard : nat)
  | Deactivate (shard : nat) (queued : bool)
  | Count (shard : nat) (queued : bool)
  | Depth (shard : nat)
  | Signal (shard : nat)                       (* about to test wake_requested_ *)
  | SetFlag (shard : nat)                      (* about to test and set it *)
  | Notify.

(* thread_local: the generation and the shard of a registration *)
Record Thread : Type := mk_thread {
  producer_registration : option (Z * nat);
  sending : Send
}.

(* what a thread has read of running_ and of wake_requested_ *)
Record Seen : Type := mk_seen { seen_running : nat; seen_wake : nat }.

(* where the publisher thread is; [cursor] is the variable of its loop *)
Inductive Publisher : Type :=
  | Joined                                     (* there is no thread *)
  | Scan (cursor offset : nat)
  | Transmit (shard : nat)                     (* in the reader of try_consume, about to call sendto *)
  | Account (shard : nat) (ok : bool)          (* about to count the datagram *)
  | Release (shard : nat)                      (* about to store read_position_ *)
  | Idle (cursor : nat)                        (* nothing consumed *)
  | DrainQueues (cursor index : nat)           (* all_queues_empty, to end *)
  | DrainSenders (cursor index : nat)          (* any_active_senders *)
  | Arm (cursor : nat)
  | Rescan (cursor index : nat)                (* all_queues_empty, to sleep *)
  | StillRunning (cursor : nat)
  | Wait (cursor : nat)                        (* about to compare wake_requested_ *)
  | Blocked (cursor : nat)
  | Exited.

(* what the publisher thread has read *)
Record Known : Type := mk_known {
  known_running : nat;
  known_wake : nat;
  known_stored : View;                         (* of the write_position_ of each shard *)
  known_active : nat → nat                     (* of the active_sender of each shard *)
}.
Definition nothing_known : Known := mk_known 0 0 no_view no_view.

(* where the caller of stop is; [view]: what it knew when it called *)
Inductive Stopper : Type := NotStopping | StopFlag (view : View) | StopNotify | StopJoin.

Record t : Type := mk {
  running_ : Flag;
  generation_ : Z;
  next_producer_shard_ : Z;
  wake_requested_ : Flag;
  sent_ : Z;
  send_errors_ : Z;
  administrative_dropped_ : Z;
  producer_registration_failures_ : Z;
  shards_ : list ProducerShard;
  opened : bool;                               (* socket_ and destination_ are set *)
  threads : Z → Thread;
  seen : Z → Seen;
  publisher : Publisher;
  known : Known;
  stopper : Stopper
}.

Definition store_running (b : bool) (view : View) (s : t) : t :=
  mk (running_ s ++ [(b, view)]) (generation_ s) (next_producer_shard_ s) (wake_requested_ s) (sent_ s)
     (send_errors_ s) (administrative_dropped_ s) (producer_registration_failures_ s) (shards_ s) (opened s)
     (threads s) (seen s) (publisher s) (known s) (stopper s).
Definition store_wake (b : bool) (view : View) (s : t) : t :=
  mk (running_ s) (generation_ s) (next_producer_shard_ s) (wake_requested_ s ++ [(b, view)]) (sent_ s)
     (send_errors_ s) (administrative_dropped_ s) (producer_registration_failures_ s) (shards_ s) (opened s)
     (threads s) (seen s) (publisher s) (known s) (stopper s).
Definition take_shard (s : t) : t :=
  mk (running_ s) (generation_ s) (u64 (next_producer_shard_ s + 1)) (wake_requested_ s) (sent_ s)
     (send_errors_ s) (administrative_dropped_ s) (producer_registration_failures_ s) (shards_ s) (opened s)
     (threads s) (seen s) (publisher s) (known s) (stopper s).
Definition count_sent (ok : bool) (s : t) : t :=
  mk (running_ s) (generation_ s) (next_producer_shard_ s) (wake_requested_ s)
     (if ok then u64 (sent_ s + 1) else sent_ s) (if ok then send_errors_ s else u64 (send_errors_ s + 1))
     (administrative_dropped_ s) (producer_registration_failures_ s) (shards_ s) (opened s)
     (threads s) (seen s) (publisher s) (known s) (stopper s).
Definition count_rejected (s : t) : t :=
  mk (running_ s) (generation_ s) (next_producer_shard_ s) (wake_requested_ s) (sent_ s) (send_errors_ s)
     (u64 (administrative_dropped_ s + 1)) (producer_registration_failures_ s) (shards_ s) (opened s)
     (threads s) (seen s) (publisher s) (known s) (stopper s).
Definition count_failure (s : t) : t :=
  mk (running_ s) (generation_ s) (next_producer_shard_ s) (wake_requested_ s) (sent_ s) (send_errors_ s)
     (administrative_dropped_ s) (u64 (producer_registration_failures_ s + 1)) (shards_ s) (opened s)
     (threads s) (seen s) (publisher s) (known s) (stopper s).
Definition update_shard (f : ProducerShard → ProducerShard) (i : nat) (s : t) : t :=
  mk (running_ s) (generation_ s) (next_producer_shard_ s) (wake_requested_ s) (sent_ s) (send_errors_ s)
     (administrative_dropped_ s) (producer_registration_failures_ s) (alter f i (shards_ s)) (opened s)
     (threads s) (seen s) (publisher s) (known s) (stopper s).
Definition set_thread (tid : Z) (thread : Thread) (s : t) : t :=
  mk (running_ s) (generation_ s) (next_producer_shard_ s) (wake_requested_ s) (sent_ s) (send_errors_ s)
     (administrative_dropped_ s) (producer_registration_failures_ s) (shards_ s) (opened s)
     (λ k, if decide (k = tid) then thread else threads s k) (seen s) (publisher s) (known s) (stopper s).
Definition set_seen (tid : Z) (x : Seen) (s : t) : t :=
  mk (running_ s) (generation_ s) (next_producer_shard_ s) (wake_requested_ s) (sent_ s) (send_errors_ s)
     (administrative_dropped_ s) (producer_registration_failures_ s) (shards_ s) (opened s)
     (threads s) (λ k, if decide (k = tid) then x else seen s k) (publisher s) (known s) (stopper s).
Definition set_publisher (p : Publisher) (s : t) : t :=
  mk (running_ s) (generation_ s) (next_producer_shard_ s) (wake_requested_ s) (sent_ s) (send_errors_ s)
     (administrative_dropped_ s) (producer_registration_failures_ s) (shards_ s) (opened s)
     (threads s) (seen s) p (known s) (stopper s).
Definition set_known (x : Known) (s : t) : t :=
  mk (running_ s) (generation_ s) (next_producer_shard_ s) (wake_requested_ s) (sent_ s) (send_errors_ s)
     (administrative_dropped_ s) (producer_registration_failures_ s) (shards_ s) (opened s)
     (threads s) (seen s) (publisher s) x (stopper s).
Definition set_stopper (c : Stopper) (s : t) : t :=
  mk (running_ s) (generation_ s) (next_producer_shard_ s) (wake_requested_ s) (sent_ s) (send_errors_ s)
     (administrative_dropped_ s) (producer_registration_failures_ s) (shards_ s) (opened s)
     (threads s) (seen s) (publisher s) (known s) c.
Definition close (s : t) : t :=
  mk (running_ s) (generation_ s) (next_producer_shard_ s) (wake_requested_ s) (sent_ s) (send_errors_ s)
     (administrative_dropped_ s) (producer_registration_failures_ s) (shards_ s) false
     (threads s) (seen s) (publisher s) (known s) (stopper s).

Definition goto (tid : Z) (pc : Send) (s : t) : t :=
  set_thread tid (mk_thread (producer_registration (threads s tid)) pc) s.

(* what a thread, or the publisher thread, has read *)
Definition saw_running (tid : Z) (k : nat) (s : t) : t := set_seen tid (mk_seen k (seen_wake (seen s tid))) s.
Definition saw_wake (tid : Z) (k : nat) (s : t) : t := set_seen tid (mk_seen (seen_running (seen s tid)) k) s.
Definition learn_running (k : nat) (view : View) (x : Known) : Known :=
  mk_known k (known_wake x) (join (known_stored x) view) (known_active x).
Definition learn_wake (k : nat) (view : View) (x : Known) : Known :=
  mk_known (known_running x) k (join (known_stored x) view) (known_active x).
Definition learn_stored (i n : nat) (x : Known) : Known :=
  mk_known (known_running x) (known_wake x) (join_at i n (known_stored x)) (known_active x).
Definition learn_active (i k n : nat) (x : Known) : Known :=
  mk_known (known_running x) (known_wake x) (join_at i n (known_stored x)) (set_at i k (known_active x)).

(* notify_one and notify_all: only the publisher thread waits *)
Definition notify (s : t) : t :=
  match publisher s with Blocked cursor => set_publisher (Wait cursor) s | _ => s end.

(** ** What happens *)

Inductive Event : Type :=
  | Queued (tid : Z) (shard : nat) (datagram : Datagram)
  | Published (shard : nat) (datagram : Datagram) (ok : bool)   (* given to sendto; did it take it? *)
  | Refused (shard : option nat)                                (* full, or administrative *)
  | Returned (tid : Z) (result : bool).

(** ** send *)

(* [k]: what the load of running_ returns *)
Definition send (tid : Z) (datagram : Datagram) (k : nat) (s : t) : option t :=
  '(running, _) ← load (seen_running (seen s tid)) k (running_ s);
  let s := saw_running tid k s in
  Some (if negb running || bool_decide (datagram = []) || (kMaximumDatagramSize <? length datagram)%nat
        then goto tid Reject s
        else goto tid (Register datagram) s).

(* the shard, or none when there are no more *)
Definition producer_shard_for_current_thread (tid : Z) (s : t) : option nat * t :=
  let register :=
    let shard := next_producer_shard_ s in
    let s := take_shard s in
    if Z.of_nat kProducerShardCount <=? shard then (None, s)
    else
      (Some (Z.to_nat shard),
       set_thread tid (mk_thread (Some (generation_ s, Z.to_nat shard)) (sending (threads s tid))) s) in
  match producer_registration (threads s tid) with
  | Some (generation, shard) =>
      if (generation =? generation_ s) && (shard <? kProducerShardCount)%nat then (Some shard, s) else register
  | None => register
  end.

(* one step of a thread in send; [k]: what its load returns, [held]: what the
   slot held before; None when the load cannot return that *)
Definition send_step (tid : Z) (k : nat) (held : list byte) (s : t) : option (t * list Event) :=
  match sending (threads s tid) with
  | Outside => None
  | Reject => Some (goto tid Outside (count_rejected s), [Refused None; Returned tid false])
  | Register datagram =>
      Some (match producer_shard_for_current_thread tid s with
            | (Some shard, s) => goto tid (Activate datagram shard) s
            | (None, s) => goto tid FailRegistration s
            end, [])
  | FailRegistration => Some (goto tid Reject (count_failure s), [])
  | Activate datagram shard =>
      Some (goto tid (Recheck datagram shard) (update_shard (store_active true) shard s), [])
  | Recheck datagram shard =>
      '(running, _) ← load (seen_running (seen s tid)) k (running_ s);
      Some (goto tid (if running : bool then Emplace datagram shard else Abandon shard) (saw_running tid k s), [])
  | Abandon shard => Some (goto tid Reject (update_shard (store_active false) shard s), [])
  | Emplace datagram shard =>
      let p := shards_ s !!! shard in
      position ← free_position k p;
      if Z.of_nat (length (stored p) - position) <? kQueueCapacityPerProducer
      then Some (goto tid (Deactivate shard true)
                   (update_shard (emplace position (write_slot datagram held)) shard s),
                 [Queued tid shard datagram])
      else Some (goto tid (Deactivate shard false) (update_shard (saw_consumed position) shard s), [])
  | Deactivate shard queued =>
      Some (goto tid (Count shard queued) (update_shard (store_active false) shard s), [])
  | Count shard queued =>
      if negb queued
      then Some (goto tid Outside (update_shard count_dropped shard s),
                 [Refused (Some shard); Returned tid false])
      else Some (goto tid (Depth shard) (update_shard count_enqueued shard s), [])
  | Depth shard =>
      let p := shards_ s !!! shard in
      if in_range (seen_consumed p) k (consumed p) then
        let depth := size_approx (u64 (Z.of_nat (length (stored p)))) (u64 (Z.of_nat k)) in
        Some (goto tid (Signal shard) (update_shard (λ p, update_max_depth depth (saw_consumed k p)) shard s), [])
      else None
  | Signal shard =>
      '(flag, _) ← load (seen_wake (seen s tid)) k (wake_requested_ s);
      let s := saw_wake tid k s in
      if flag : bool then Some (goto tid Outside s, [Returned tid true])
      else Some (goto tid (SetFlag shard) s, [])
  | SetFlag shard =>
      let '(flag, view) := current (wake_requested_ s) in
      let s' := saw_wake tid (length (wake_requested_ s))
                  (store_wake true (join_at shard (length (stored (shards_ s !!! shard))) view) s) in
      if flag : bool then Some (goto tid Outside s', [Returned tid true])
      else Some (goto tid Notify s', [])
  | Notify => Some (goto tid Outside (notify s), [Returned tid true])
  end.

(** ** publisher_loop *)

(* [taken]: does sendto take the whole datagram? *)
Definition send_datagram (taken : bool) (datagram : Datagram) (s : t) : bool :=
  opened s && negb (bool_decide (datagram = [])) && taken.

(* load write_position_ of a shard, and compare it with read_position_, which
   the publisher thread stores: is there something? *)
Definition look (i k : nat) (s : t) : option (bool * t) :=
  let p := shards_ s !!! i in
  if in_range (known_stored (known s) i) k (length (stored p))
  then Some ((consumed p <? k)%nat, set_known (learn_stored i k (known s)) s)
  else None.

(* a step of all_queues_empty *)
Definition look_empty (index k : nat) (next : Publisher) (finished : Publisher) (cursor : nat) (s : t) : option t :=
  if (index <? kProducerShardCount)%nat then
    '(more, s) ← look index k s;
    Some (set_publisher (if more : bool then Scan cursor 0 else next) s)
  else Some (set_publisher finished s).

(* a load of running_: as [idle] and [still] say *)
Definition look_running (k : nat) (if_running otherwise : Publisher) (s : t) : option t :=
  '(running, view) ← load (known_running (known s)) k (running_ s);
  Some (set_publisher (if running : bool then if_running else otherwise)
          (set_known (learn_running k view (known s)) s)).

(* [k]: what the load of the step returns, if it has one *)
Definition publisher_step (k : nat) (taken : bool) (s : t) : option (t * list Event) :=
  match publisher s with
  | Joined | Blocked _ | Exited => None
  | Scan cursor offset =>
      if (offset <? kProducerShardCount)%nat then
        let shard := ((cursor + offset) `mod` kProducerShardCount)%nat in
        (* when something is known to be queued, a load cannot find the ring
           empty, and need not be told from none *)
        if (consumed (shards_ s !!! shard) <? known_stored (known s) shard)%nat
        then Some (set_publisher (Transmit shard) s, [])
        else
          '(more, s) ← look shard k s;
          Some (set_publisher (if more : bool then Transmit shard else Scan cursor (offset + 1)) s, [])
      else Some (set_publisher (Idle cursor) s, [])
  | Transmit shard =>
      slot ← stored (shards_ s !!! shard) !! consumed (shards_ s !!! shard);
      let datagram := slot_datagram slot in
      let ok := send_datagram taken datagram s in
      Some (set_publisher (Account shard ok) s, [Published shard datagram ok])
  | Account shard ok => Some (set_publisher (Release shard) (count_sent ok s), [])
  | Release shard =>
      Some (set_publisher (Scan ((shard + 1) `mod` kProducerShardCount)%nat 0) (update_shard consume shard s), [])
  | Idle cursor => (λ s, (s, [])) <$> look_running k (Arm cursor) (DrainQueues cursor 0) s
  | DrainQueues cursor index =>
      (λ s, (s, [])) <$> look_empty index k (DrainQueues cursor (index + 1)) (DrainSenders cursor 0) cursor s
  | DrainSenders cursor index =>
      if (index <? kProducerShardCount)%nat then
        '(active, pushed) ← load (known_active (known s) index) k (active_sender (shards_ s !!! index));
        Some (set_publisher (if active : bool then Scan cursor 0 else DrainSenders cursor (index + 1))
                (set_known (learn_active index k pushed (known s)) s), [])
      else Some (set_publisher Exited s, [])
  | Arm cursor =>
      Some (set_publisher (Rescan cursor 0)
              (set_known (learn_wake (length (wake_requested_ s)) no_view (known s))
                 (store_wake false (known_stored (known s)) s)), [])
  | Rescan cursor index =>
      (λ s, (s, [])) <$> look_empty index k (Rescan cursor (index + 1)) (StillRunning cursor) cursor s
  | StillRunning cursor => (λ s, (s, [])) <$> look_running k (Wait cursor) (Scan cursor 0) s
  | Wait cursor =>
      '(flag, view) ← load (known_wake (known s)) k (wake_requested_ s);
      Some (set_publisher (if flag : bool then Scan cursor 0 else Blocked cursor)
              (set_known (learn_wake k view (known s)) s), [])
  end.

(* a wait may end without a notification *)
Definition spurious_wake (s : t) : option t :=
  match publisher s with Blocked cursor => Some (set_publisher (Wait cursor) s) | _ => None end.

(** ** start and stop *)

(* [view]: the sends the caller knows to be over, as far as there are such *)
Definition stop (view : View) (s : t) : t :=
  let view i := (view i `min` length (stored (shards_ s !!! i)))%nat in
  set_stopper (StopFlag view) (store_running false view s).

Definition stop_step (s : t) : option t :=
  match stopper s with
  | NotStopping => None
  | StopFlag view =>
      Some (set_stopper StopNotify (store_wake true (join (current (wake_requested_ s)).2 view) s))
  | StopNotify => Some (set_stopper StopJoin (notify s))
  | StopJoin =>
      match publisher s with
      | Exited | Joined => Some (set_stopper NotStopping (close (set_publisher Joined s)))
      | _ => None
      end
  end.

(* [generation] is the next one of all publishers; do the socket, its options
   and the address come about, and then the thread?  The caller knows what is
   over, and the threads that call send later know what it did. *)
Definition start (socket_ready thread_created : bool) (generation : Z) (s : t) : bool * t :=
  if (current (running_ s)).1 then (true, s)
  else if negb socket_ready then (false, s)
  else
    (thread_created,
     mk [(thread_created, no_view)] generation 0 [(false, no_view)] 0 0 0 0
        ((λ _, fresh_shard) <$> shards_ s) thread_created (threads s) (λ _, mk_seen 0 0)
        (if thread_created then Scan 0 0 else publisher s) nothing_known (stopper s)).

Definition new : t :=
  mk [(false, no_view)] 0 0 [(false, no_view)] 0 0 0 0 (replicate kProducerShardCount fresh_shard) false
     (λ _, mk_thread None Outside) (λ _, mk_seen 0 0) Joined nothing_known NotStopping.

(* [running]: what its load of running_ returns *)
Definition is_open (running : bool) (s : t) : bool := running && opened s.

(** ** stats *)

Record Stats : Type := mk_stats {
  stat_enqueued : Z;
  stat_sent : Z;
  stat_dropped : Z;
  stat_send_errors : Z;
  stat_queue_depth : Z;
  stat_max_queue_depth : Z;
  stat_producer_shards_used : Z;
  stat_producer_registration_failures : Z
}.

(** stats makes one relaxed load after the other; these are the values it got. *)
Record ShardLoads : Type := mk_shard_loads {
  loaded_enqueued : Z;
  loaded_dropped : Z;
  loaded_max_depth : Z;
  loaded_write : Z;
  loaded_read : Z
}.

Record Loads : Type := mk_loads {
  loaded_rejected : Z;
  loaded_shards : list ShardLoads;
  loaded_next : Z;
  loaded_sent : Z;
  loaded_errors : Z;
  loaded_failures : Z
}.

(* a sum over the shards in std::uint64_t *)
Definition total {A} (f : A → Z) (initial : Z) (shards : list A) : Z :=
  foldl (λ sum p, u64 (sum + f p)) initial shards.

Definition aggregate_queue_depth (shards : list ShardLoads) : Z :=
  total (λ p, size_approx (loaded_write p) (loaded_read p)) 0 shards.

Definition stats (l : Loads) : Stats :=
  mk_stats (total loaded_enqueued 0 (loaded_shards l)) (loaded_sent l)
    (total loaded_dropped (loaded_rejected l) (loaded_shards l)) (loaded_errors l)
    (aggregate_queue_depth (loaded_shards l)) (total loaded_max_depth 0 (loaded_shards l))
    (Z.min (loaded_next l) (Z.of_nat kProducerShardCount)) (loaded_failures l).

(* the values the loads return when none of them is older than what the
   threads have done so far *)
Definition latest_shard (p : ProducerShard) : ShardLoads :=
  mk_shard_loads (enqueued p) (dropped p) (max_depth p) (u64 (Z.of_nat (length (stored p))))
    (u64 (Z.of_nat (consumed p))).
Definition latest (s : t) : Loads :=
  mk_loads (administrative_dropped_ s) (latest_shard <$> shards_ s) (next_producer_shard_ s) (sent_ s)
    (send_errors_ s) (producer_registration_failures_ s).

(** ** Interleavings *)

(* [k]: what the load of the step returns *)
Inductive Move : Type :=
  | CallSend (tid : Z) (datagram : Datagram) (k : nat)
  | StepSend (tid : Z) (k : nat) (held : list byte)
  | StepPublisher (k : nat) (taken : bool)
  | SpuriousWake
  | CallStop (view : View)
  | StepStop.

(* None: the thread cannot move, or is not there, or cannot read that *)
Definition exec (m : Move) (s : t) : option (t * list Event) :=
  match m with
  | CallSend tid datagram k =>
      match sending (threads s tid) with Outside => (λ s', (s', [])) <$> send tid datagram k s | _ => None end
  | StepSend tid k held => send_step tid k held s
  | StepPublisher k taken => publisher_step k taken s
  | SpuriousWake => (λ s', (s', [])) <$> spurious_wake s
  | CallStop view => match stopper s with NotStopping => Some (stop view s, []) | _ => None end
  | StepStop => (λ s', (s', [])) <$> stop_step s
  end.

(* fewer than 2^64 registrations are attempted in a generation *)
Inductive trace (s0 : t) : list Event → t → Prop :=
  | trace_nil : trace s0 [] s0
  | trace_move es s m es' s' :
      trace s0 es s → exec m s = Some (s', es') → next_producer_shard_ s + 1 < 2 ^ 64 →
      trace s0 (es ++ es') s'.

Fixpoint play (ms : list Move) (s : t) : option (list Event * t) :=
  match ms with
  | [] => Some ([], s)
  | m :: ms' =>
      '(s', es) ← exec m s;
      guard (next_producer_shard_ s + 1 < 2 ^ 64);;
      '(es', s'') ← play ms' s';
      Some (es ++ es', s'')
  end.
End MulticastPublisher.
