(* ===== verification/MulticastInvariant.v ===== *)
(** * What every interleaving of the multicast publisher maintains *)
From S2P Require Import Prelude Bytes Multicast.

Module MulticastInvariant.
Import MulticastPublisher.

(** ** Places in send *)

(* the shard a thread is working on *)
Definition uses (pc : Send) : option nat :=
  match pc with
  | Activate _ i | Recheck _ i | Abandon i | Emplace _ i | Deactivate i _ | Count i _ | Depth i => Some i
  | _ => None
  end.

Definition carried (pc : Send) : option Datagram :=
  match pc with
  | Register d | Activate d _ | Recheck d _ | Emplace d _ => Some d
  | _ => None
  end.

(* the shard with a datagram that is not in its counter yet *)
Definition uncounted (pc : Send) : option nat :=
  match pc with
  | Deactivate i true | Count i true => Some i
  | _ => None
  end.

(* a datagram has been queued in this call *)
Definition granted (pc : Send) : bool :=
  match pc with
  | Deactivate _ true | Count _ true | Depth _ | Signal _ | SetFlag _ | Notify => true
  | _ => false
  end.

Lemma uncounted_uses pc i : uncounted pc = Some i → uses pc = Some i.
Proof. by destruct pc as [| | | | | | | |? []|? []| | | |]. Qed.

Definition valid_datagram (d : Datagram) : Prop := d ≠ [] ∧ (length d ≤ kMaximumDatagramSize)%nat.

Lemma slot_write d held : valid_datagram d → slot_datagram (write_slot d held) = d.
Proof.
  intros [_ Hd]. unfold slot_datagram, write_slot. cbn [size bytes].
  rewrite take_take, Nat.min_l by done. apply take_app_length.
Qed.

(** ** Loads *)

Lemma load_Some {A} seen k (values : list A) x :
  load seen k values = Some x ↔ (seen ≤ k)%nat ∧ values !! k = Some x.
Proof. unfold load. destruct (Nat.leb_spec seen k); naive_solver lia. Qed.

Lemma in_range_true seen k latest : in_range seen k latest = true ↔ (seen ≤ k ≤ latest)%nat.
Proof. unfold in_range. rewrite andb_true_iff, !Nat.leb_le. lia. Qed.

(* what the sender of a shard may read of read_position_ *)
Definition readable (p : ProducerShard) (k : nat) : Prop := (seen_consumed p ≤ k ≤ consumed p)%nat.

Lemma free_position_readable k p r :
  (seen_consumed p ≤ consumed p)%nat → free_position k p = Some r → readable p r.
Proof.
  unfold free_position, readable. intros Hs. destruct (_ <? _); [intros [= <-]; lia|].
  destruct (in_range (seen_consumed p) k (consumed p)) eqn:E; [|done].
  apply in_range_true in E. by intros [= <-].
Qed.

Lemma last_current (flag : Flag) : flag ≠ [] → current flag ∈ flag.
Proof.
  intros Hne. unfold current. destruct (last flag) as [x|] eqn:E; [|by apply last_None in E].
  cbn. apply last_Some in E as [l ->]. set_solver.
Qed.

(** ** The steps, one case for each *)

Definition owns (s : t) (tid : Z) (i : nat) : Prop :=
  producer_registration (threads s tid) = Some (generation_ s, i) ∧ (i < kProducerShardCount)%nat.

(* the publisher thread knows what it knew, and what the loads gave it *)
Definition learns (s : t) (i : nat) (k : nat) (x : Known) : Prop :=
  x = learn_stored i k (known s) ∧ (known_stored (known s) i ≤ k ≤ length (stored (shards_ s !!! i)))%nat.

(* the steps of the publisher thread that only look: where it is then, and what
   it has read *)
Inductive publisher_looks (s : t) : Publisher → Known → Prop :=
  | scan_knows cursor offset i :
      publisher s = Scan cursor offset → (i < kProducerShardCount)%nat →
      (consumed (shards_ s !!! i) < known_stored (known s) i)%nat → publisher_looks s (Transmit i) (known s)
  | scan_finds cursor offset i k x :
      publisher s = Scan cursor offset → (i < kProducerShardCount)%nat → learns s i k x →
      (consumed (shards_ s !!! i) < k)%nat → publisher_looks s (Transmit i) x
  | scan_next cursor offset i k x :
      publisher s = Scan cursor offset → learns s i k x →
      (k ≤ consumed (shards_ s !!! i))%nat → publisher_looks s (Scan cursor (offset + 1)) x
  | scan_end cursor offset :
      publisher s = Scan cursor offset → publisher_looks s (Idle cursor) (known s)
  | idle_running cursor k view :
      publisher s = Idle cursor → running_ s !! k = Some (true, view) →
      publisher_looks s (Arm cursor) (learn_running k view (known s))
  | idle_stopped cursor k view :
      publisher s = Idle cursor → running_ s !! k = Some (false, view) →
      publisher_looks s (DrainQueues cursor 0) (learn_running k view (known s))
  | queues_next cursor i k x :
      publisher s = DrainQueues cursor i → learns s i k x → (k ≤ consumed (shards_ s !!! i))%nat →
      publisher_looks s (DrainQueues cursor (i + 1)) x
  | queues_end cursor i :
      publisher s = DrainQueues cursor i → (kProducerShardCount ≤ i)%nat →
      publisher_looks s (DrainSenders cursor 0) (known s)
  | senders_next cursor i k b n :
      publisher s = DrainSenders cursor i → active_sender (shards_ s !!! i) !! k = Some (b, n) →
      publisher_looks s (DrainSenders cursor (i + 1)) (learn_active i k n (known s))
  | senders_again cursor i k b n :
      publisher s = DrainSenders cursor i → active_sender (shards_ s !!! i) !! k = Some (b, n) →
      publisher_looks s (Scan cursor 0) (learn_active i k n (known s))
  | senders_end cursor i :
      publisher s = DrainSenders cursor i → (kProducerShardCount ≤ i)%nat → publisher_looks s Exited (known s)
  | rescan_next cursor i k x :
      publisher s = Rescan cursor i → learns s i k x → publisher_looks s (Rescan cursor (i + 1)) x
  | rescan_end cursor i :
      publisher s = Rescan cursor i → publisher_looks s (StillRunning cursor) (known s)
  | again cursor i k x :
      publisher s = DrainQueues cursor i ∨ publisher s = Rescan cursor i → learns s i k x →
      publisher_looks s (Scan cursor 0) x
  | still_running cursor k (b : bool) view :
      publisher s = StillRunning cursor → running_ s !! k = Some (b, view) →
      publisher_looks s (if b then Wait cursor else Scan cursor 0) (learn_running k view (known s))
  | waits cursor k (b : bool) view :
      publisher s = Wait cursor → wake_requested_ s !! k = Some (b, view) →
      publisher_looks s (if b then Scan cursor 0 else Blocked cursor) (learn_wake k view (known s))
  | woken cursor :
      publisher s = Blocked cursor → publisher_looks s (Wait cursor) (known s).

(* what a step does to the threads: one of them moves, or none *)
Inductive step (s : t) : t → list Event → Prop :=
  | call_refused tid x :
      sending (threads s tid) = Outside → step s (goto tid Reject (set_seen tid x s)) []
  | call_accepted tid x d :
      sending (threads s tid) = Outside → valid_datagram d →
      step s (goto tid (Register d) (set_seen tid x s)) []
  | rejected tid :
      sending (threads s tid) = Reject →
      step s (goto tid Outside (count_rejected s)) [Refused None; Returned tid false]
  | registered tid d i :
      sending (threads s tid) = Register d → owns s tid i → step s (goto tid (Activate d i) s) []
  | registers tid d :
      sending (threads s tid) = Register d → (∀ i, ¬ owns s tid i) →
      next_producer_shard_ s < Z.of_nat kProducerShardCount →
      let i := Z.to_nat (next_producer_shard_ s) in
      step s (goto tid (Activate d i) (set_thread tid (mk_thread (Some (generation_ s, i)) (Register d))
                                         (take_shard s))) []
  | no_shard tid d :
      sending (threads s tid) = Register d → (∀ i, ¬ owns s tid i) →
      Z.of_nat kProducerShardCount ≤ next_producer_shard_ s →
      step s (goto tid FailRegistration (take_shard s)) []
  | counts_failure tid :
      sending (threads s tid) = FailRegistration → step s (goto tid Reject (count_failure s)) []
  | activates tid d i :
      sending (threads s tid) = Activate d i →
      step s (goto tid (Recheck d i) (update_shard (store_active true) i s)) []
  | rechecks tid d i x (b : bool) :
      sending (threads s tid) = Recheck d i →
      step s (goto tid (if b then Emplace d i else Abandon i) (set_seen tid x s)) []
  | abandons tid i :
      sending (threads s tid) = Abandon i →
      step s (goto tid Reject (update_shard (store_active false) i s)) []
  | emplaces tid d i k held r :
      sending (threads s tid) = Emplace d i → free_position k (shards_ s !!! i) = Some r →
      Z.of_nat (length (stored (shards_ s !!! i)) - r) < kQueueCapacityPerProducer →
      step s (goto tid (Deactivate i true) (update_shard (emplace r (write_slot d held)) i s)) [Queued tid i d]
  | finds_full tid d i k r :
      sending (threads s tid) = Emplace d i → free_position k (shards_ s !!! i) = Some r →
      step s (goto tid (Deactivate i false) (update_shard (saw_consumed r) i s)) []
  | deactivates tid i queued :
      sending (threads s tid) = Deactivate i queued →
      step s (goto tid (Count i queued) (update_shard (store_active false) i s)) []
  | counts_dropped tid i :
      sending (threads s tid) = Count i false →
      step s (goto tid Outside (update_shard count_dropped i s)) [Refused (Some i); Returned tid false]
  | counts_enqueued tid i :
      sending (threads s tid) = Count i true →
      step s (goto tid (Depth i) (update_shard count_enqueued i s)) []
  | updates_depth tid i k depth :
      sending (threads s tid) = Depth i → readable (shards_ s !!! i) k →
      depth = size_approx (u64 (Z.of_nat (length (stored (shards_ s !!! i))))) (u64 (Z.of_nat k)) →
      step s (goto tid (Signal i) (update_shard (λ p, update_max_depth depth (saw_consumed k p)) i s)) []
  | flag_set tid i x :
      sending (threads s tid) = Signal i →
      step s (goto tid Outside (set_seen tid x s)) [Returned tid true]
  | flag_clear tid i x :
      sending (threads s tid) = Signal i →
      step s (goto tid (SetFlag i) (set_seen tid x s)) []
  | sets_flag tid i x view :
      sending (threads s tid) = SetFlag i →
      view = join_at i (length (stored (shards_ s !!! i))) (current (wake_requested_ s)).2 →
      step s (goto tid Notify (set_seen tid x (store_wake true view s))) []
  | keeps_flag tid i x view :
      sending (threads s tid) = SetFlag i →
      view = join_at i (length (stored (shards_ s !!! i))) (current (wake_requested_ s)).2 →
      step s (goto tid Outside (set_seen tid x (store_wake true view s))) [Returned tid true]
  | notifies tid :
      sending (threads s tid) = Notify → step s (goto tid Outside (notify s)) [Returned tid true]
  | looks p x :
      publisher_looks s p x → step s (set_publisher p (set_known x s)) []
  | transmits i slot ok :
      publisher s = Transmit i → stored (shards_ s !!! i) !! consumed (shards_ s !!! i) = Some slot →
      step s (set_publisher (Account i ok) s) [Published i (slot_datagram slot) ok]
  | accounts i ok :
      publisher s = Account i ok → step s (set_publisher (Release i) (count_sent ok s)) []
  | releases i cursor :
      publisher s = Release i → step s (set_publisher (Scan cursor 0) (update_shard consume i s)) []
  | arms cursor :
      publisher s = Arm cursor →
      step s (set_publisher (Rescan cursor 0)
                (set_known (learn_wake (length (wake_requested_ s)) no_view (known s))
                   (store_wake false (known_stored (known s)) s))) []
  | stops view : stopper s = NotStopping → step s (stop view s) []
  | stop_flags view :
      stopper s = StopFlag view →
      step s (set_stopper StopNotify (store_wake true (join (current (wake_requested_ s)).2 view) s)) []
  | stop_notifies : stopper s = StopNotify → step s (set_stopper StopJoin (notify s)) []
  | joins :
      stopper s = StopJoin → publisher s = Exited ∨ publisher s = Joined →
      step s (set_stopper NotStopping (close (set_publisher Joined s))) [].

Lemma send_call tid d k s s' : sending (threads s tid) = Outside → send tid d k s = Some s' → step s s' [].
Proof.
  intros Hpc. unfold send. destruct (load _ _ _) as [[b v]|]; [|done]. cbn [mbind option_bind]. intros [= <-].
  destruct b; cbn [negb orb]; [|by apply call_refused].
  case_bool_decide as Hd; cbn [orb]; [by apply call_refused|].
  destruct (Nat.ltb_spec kMaximumDatagramSize (length d)); [by apply call_refused|].
  by apply call_accepted.
Qed.

Lemma register_step tid d s :
  sending (threads s tid) = Register d → 0 ≤ next_producer_shard_ s →
  step s (match producer_shard_for_current_thread tid s with
          | (Some shard, s) => goto tid (Activate d shard) s
          | (None, s) => goto tid FailRegistration s
          end) [].
Proof.
  intros Hpc Hn. unfold producer_shard_for_current_thread.
  assert ((∀ i, ¬ owns s tid i) →
    step s (match (if Z.of_nat kProducerShardCount <=? next_producer_shard_ s
                   then (None, take_shard s)
                   else (Some (Z.to_nat (next_producer_shard_ s)),
                         set_thread tid (mk_thread (Some (generation_ (take_shard s), Z.to_nat (next_producer_shard_ s)))
                                           (sending (threads (take_shard s) tid))) (take_shard s))) with
            | (Some shard, s) => goto tid (Activate d shard) s
            | (None, s) => goto tid FailRegistration s
            end) []) as Hreg.
  { intros Hno. destruct (Z.leb_spec (Z.of_nat kProducerShardCount) (next_producer_shard_ s)).
    - by eapply no_shard.
    - change (threads (take_shard s)) with (threads s). rewrite Hpc. exact (registers s tid d Hpc Hno H). }
  destruct (producer_registration (threads s tid)) as [[g i]|] eqn:Hr.
  2: { apply Hreg. intros i [H _]. congruence. }
  destruct (Z.eqb_spec g (generation_ s)) as [->|Hne]; cbn [andb].
  2: { apply Hreg. intros j [H _]. congruence. }
  destruct (Nat.ltb_spec i kProducerShardCount).
  - eapply registered; [done|]. by split.
  - apply Hreg. intros j [Hj Hlt]. rewrite Hr in Hj. injection Hj as <-. lia.
Qed.

Lemma send_step_spec tid k held s s' es :
  send_step tid k held s = Some (s', es) → 0 ≤ next_producer_shard_ s → step s s' es.
Proof.
  intros Hs Hn. unfold send_step in Hs. destruct (sending (threads s tid)) eqn:Hpc.
  - done.
  - injection Hs as <- <-. by apply rejected.
  - injection Hs as <- <-. by apply register_step.
  - injection Hs as <- <-. by apply counts_failure.
  - injection Hs as <- <-. by eapply activates.
  - destruct (load _ _ _) as [[b v]|]; [|done]. cbn in Hs. injection Hs as <- <-. by eapply rechecks.
  - injection Hs as <- <-. by eapply abandons.
  - cbv zeta in Hs. destruct (free_position k _) as [r|] eqn:Hf; [|done]. cbn in Hs.
    destruct (Z.ltb_spec (Z.of_nat (length (stored (shards_ s !!! shard)) - r)) kQueueCapacityPerProducer);
      injection Hs as <- <-; [by eapply emplaces|by eapply finds_full].
  - injection Hs as <- <-. by eapply deactivates.
  - destruct queued; cbn [negb] in Hs; injection Hs as <- <-; [by eapply counts_enqueued|by eapply counts_dropped].
  - cbv zeta in Hs. destruct (in_range _ _ _) eqn:Hr; [|done]. injection Hs as <- <-.
    by eapply updates_depth; [|apply in_range_true|].
  - destruct (load _ _ _) as [[b v]|]; [|done]. cbn in Hs.
    destruct b; injection Hs as <- <-; [by eapply flag_set|by eapply flag_clear].
  - destruct (current (wake_requested_ s)) as [b v] eqn:Hc. cbv zeta in Hs.
    destruct b; injection Hs as <- <-; [eapply keeps_flag|eapply sets_flag]; rewrite ?Hc; done.
  - injection Hs as <- <-. by apply notifies.
Qed.

Lemma look_learns i k s b s' : look i k s = Some (b, s') →
  ∃ x, learns s i k x ∧ s' = set_known x s ∧ b = (consumed (shards_ s !!! i) <? k)%nat.
Proof.
  unfold look. cbv zeta. destruct (in_range _ _ _) eqn:E; [|done]. apply in_range_true in E.
  intros [= <- <-]. by exists (learn_stored i k (known s)).
Qed.

Lemma publisher_step_spec k taken s s' es : publisher_step k taken s = Some (s', es) → step s s' es.
Proof.
  unfold publisher_step. intros Hs. destruct (publisher s) eqn:Hp; try done.
  - destruct (Nat.ltb_spec offset kProducerShardCount).
    2: { injection Hs as <- <-. apply (looks s _ (known s)). by eapply scan_end. }
    set (i := ((cursor + offset) `mod` kProducerShardCount)%nat) in *. cbv zeta in Hs.
    assert (i < kProducerShardCount)%nat by (apply Nat.mod_upper_bound; done).
    destruct (Nat.ltb_spec (consumed (shards_ s !!! i)) (known_stored (known s) i)).
    { injection Hs as <- <-. apply (looks s _ (known s)). by eapply scan_knows. }
    destruct (look i k s) as [[b s1]|] eqn:Hl; [|done]. cbn in Hs.
    apply look_learns in Hl as (x & Hx & -> & ->). injection Hs as <- <-. apply looks.
    destruct (Nat.ltb_spec (consumed (shards_ s !!! i)) k); [by eapply scan_finds|by eapply scan_next].
  - destruct (stored _ !! _) as [slot|] eqn:Hl; [|done]. cbn in Hs. injection Hs as <- <-. by apply transmits.
  - injection Hs as <- <-. by apply accounts.
  - injection Hs as <- <-. by apply releases.
  - unfold look_running in Hs. destruct (load _ _ _) as [[b v]|] eqn:Hl; [|done].
    cbn in Hs. injection Hs as <- <-. apply load_Some in Hl as [_ Hl]. apply looks.
    destruct b; [by eapply idle_running|by eapply idle_stopped].
  - unfold look_empty in Hs. destruct (Nat.ltb_spec index kProducerShardCount).
    + destruct (look index k s) as [[b s1]|] eqn:Hl; [|done]. cbn in Hs.
      apply look_learns in Hl as (x & Hx & -> & ->). injection Hs as <- <-. apply looks.
      destruct (Nat.ltb_spec (consumed (shards_ s !!! index)) k); [eapply again; eauto|by eapply queues_next].
    + cbn in Hs. injection Hs as <- <-. apply (looks s _ (known s)). by eapply queues_end.
  - destruct (Nat.ltb_spec index kProducerShardCount).
    + destruct (load _ _ _) as [[b n]|] eqn:Hl; [|done]. cbn in Hs. injection Hs as <- <-.
      apply load_Some in Hl as [_ Hl]. apply looks. destruct b; [by eapply senders_again|by eapply senders_next].
    + injection Hs as <- <-. apply (looks s _ (known s)). by eapply senders_end.
  - injection Hs as <- <-. by apply arms.
  - unfold look_empty in Hs. destruct (Nat.ltb_spec index kProducerShardCount).
    + destruct (look index k s) as [[b s1]|] eqn:Hl; [|done]. cbn in Hs.
      apply look_learns in Hl as (x & Hx & -> & ->). injection Hs as <- <-. apply looks.
      destruct (Nat.ltb_spec (consumed (shards_ s !!! index)) k); [eapply again; eauto|by eapply rescan_next].
    + cbn in Hs. injection Hs as <- <-. apply (looks s _ (known s)). by eapply rescan_end.
  - unfold look_running in Hs. destruct (load _ _ _) as [[b v]|] eqn:Hl; [|done].
    cbn in Hs. injection Hs as <- <-. apply load_Some in Hl as [_ Hl]. apply looks. by apply still_running.
  - destruct (load _ _ _) as [[b v]|] eqn:Hl; [|done]. cbn in Hs. injection Hs as <- <-.
    apply load_Some in Hl as [_ Hl]. apply looks. by apply waits.
Qed.

Lemma exec_spec m s s' es :
  exec m s = Some (s', es) → 0 ≤ next_producer_shard_ s → step s s' es.
Proof.
  intros Hm Hn. destruct m as [tid d k|tid k held|k taken| |view|]; cbn [exec] in Hm.
  - destruct (sending (threads s tid)) eqn:Hpc; try done. apply fmap_Some in Hm as (s1 & Hs & [= -> ->]).
    by eapply send_call.
  - by eapply send_step_spec.
  - by eapply publisher_step_spec.
  - apply fmap_Some in Hm as (s1 & Hs & [= -> ->]). unfold spurious_wake in Hs.
    destruct (publisher s) eqn:Hp; try done. injection Hs as <-. apply (looks s _ (known s)). by apply woken.
  - destruct (stopper s) eqn:Hc; try done. injection Hm as <- <-. by apply stops.
  - apply fmap_Some in Hm as (s2 & Hs & [= -> ->]). unfold stop_step in Hs.
    destruct (stopper s) eqn:Hc; [done|..].
    + injection Hs as <-. by apply stop_flags.
    + injection Hs as <-. by apply stop_notifies.
    + destruct (publisher s) eqn:Hp; try done; injection Hs as <-; apply joins; auto.
Qed.
(** ** Reading a state after a step *)

Lemma sending_goto tid pc s k :
  sending (threads (goto tid pc s) k) = if decide (k = tid) then pc else sending (threads s k).
Proof. cbn. by destruct (decide (k = tid)). Qed.

Lemma registration_goto tid pc s k :
  producer_registration (threads (goto tid pc s) k) = producer_registration (threads s k).
Proof. cbn. by destruct (decide (k = tid)) as [->|]. Qed.

(* a notification changes where the publisher thread is, and nothing else *)
Lemma notify_publisher s : ∃ p, notify s = set_publisher p s ∧
  (p = publisher s ∧ (∀ c, publisher s ≠ Blocked c) ∨ ∃ c, publisher s = Blocked c ∧ p = Wait c).
Proof.
  assert ((∃ c, publisher s = Blocked c) ∨ (∀ c, publisher s ≠ Blocked c) ∧ notify s = s) as [[c Hc]|[Hc Hn]].
  { unfold notify. destruct (publisher s); first [by right | left; by eexists]. }
  - exists (Wait c). unfold notify. rewrite Hc. eauto.
  - exists (publisher s). rewrite Hn. split; [by destruct s|by left].
Qed.

(** ** A shard has one thread *)

Record owners (s : t) : Prop := {
  owners_length : length (shards_ s) = kProducerShardCount;
  owners_next : 0 ≤ next_producer_shard_ s;
  owners_bound : ∀ tid i, owns s tid i → Z.of_nat i < next_producer_shard_ s;
  owners_unique : ∀ tid tid' i, owns s tid i → owns s tid' i → tid = tid';
  owners_uses : ∀ tid i, uses (sending (threads s tid)) = Some i → owns s tid i;
  owners_carried : ∀ tid d, carried (sending (threads s tid)) = Some d → valid_datagram d
}.

Lemma owners_keep s s' :
  owners s → length (shards_ s') = length (shards_ s) →
  next_producer_shard_ s ≤ next_producer_shard_ s' → generation_ s' = generation_ s →
  (∀ k, producer_registration (threads s' k) = producer_registration (threads s k)) →
  (∀ k i, uses (sending (threads s' k)) = Some i → owns s k i) →
  (∀ k d, carried (sending (threads s' k)) = Some d → valid_datagram d) →
  owners s'.
Proof.
  intros [Hl Hn Hb Hu Huse Hc] Hl' Hn' Hg Hr Huse' Hc'.
  assert (∀ k i, owns s' k i ↔ owns s k i) as Howns.
  { intros k i. unfold owns. by rewrite Hr, Hg. }
  split; [congruence|lia| | | |done].
  - intros k i Ho. apply Howns, Hb in Ho. lia.
  - intros k k' i H1 H2. apply Howns in H1, H2. by eapply Hu.
  - intros k i Hk. by apply Howns, Huse'.
Qed.

(* one thread has moved to [pc] *)
Lemma owners_goto tid pc s s' :
  owners s → length (shards_ s') = length (shards_ s) →
  next_producer_shard_ s ≤ next_producer_shard_ s' → generation_ s' = generation_ s → threads s' = threads s →
  (∀ i, uses pc = Some i → owns s tid i) → (∀ d, carried pc = Some d → valid_datagram d) →
  owners (goto tid pc s').
Proof.
  intros Ho Hl Hn Hg Ht Huse Hc. apply (owners_keep s); [done|done|done|done| | |].
  - intros k. rewrite registration_goto. by rewrite Ht.
  - intros k i. rewrite sending_goto, Ht. case_decide as Hk; [subst; apply Huse|apply (owners_uses _ Ho)].
  - intros k d. rewrite sending_goto, Ht. case_decide as Hk; [subst; apply Hc|apply (owners_carried _ Ho)].
Qed.

(* no thread has moved *)
Lemma owners_same s s' :
  owners s → length (shards_ s') = length (shards_ s) →
  next_producer_shard_ s' = next_producer_shard_ s → generation_ s' = generation_ s → threads s' = threads s →
  owners s'.
Proof.
  intros Ho Hl Hn Hg Ht. apply (owners_keep s); rewrite ?Hn, ?Ht; try done.
  - apply (owners_uses _ Ho).
  - apply (owners_carried _ Ho).
Qed.

Lemma owners_registers s tid d :
  owners s → sending (threads s tid) = Register d → (∀ i, ¬ owns s tid i) →
  next_producer_shard_ s < Z.of_nat kProducerShardCount →
  let i := Z.to_nat (next_producer_shard_ s) in
  let s' := goto tid (Activate d i) (set_thread tid (mk_thread (Some (generation_ s, i)) (Register d)) (take_shard s)) in
  owners s' ∧ ∀ k j, owns s' k j ↔ owns s k j ∨ k = tid ∧ j = i.
Proof.
  intros Ho Hpc Hno Hlt i s'. pose proof (owners_next s Ho) as Hn.
  assert (next_producer_shard_ s' = next_producer_shard_ s + 1) as Hn'.
  { subst s'. cbn. apply u64_id. unfold in_u64, kProducerShardCount in *. lia. }
  assert (∀ k j, owns s' k j ↔ owns s k j ∨ k = tid ∧ j = i) as Howns.
  { intros k j. subst s'. unfold owns. rewrite registration_goto. cbn.
    destruct (decide (k = tid)) as [->|Hk]; cbn; [|naive_solver].
    split; [intros [[= <-] ?]; auto|]. intros [[? ?]|[_ ->]]; [by destruct (Hno j)|].
    split; [done|]. subst i. lia. }
  split; [|done]. destruct Ho as [Hl _ Hb Hu Huse Hc]. split.
  - done.
  - lia.
  - intros k j [Hk|[-> ->]]%Howns; [apply Hb in Hk; lia|subst i; lia].
  - intros k k' j [Hk|[-> ->]]%Howns [Hk'|[-> Hj]]%Howns; [by eapply Hu| | |done].
    + apply Hb in Hk. subst j i. lia.
    + apply Hb in Hk'. subst i. lia.
  - intros k j Hk. apply Howns. subst s'. rewrite sending_goto in Hk. case_decide as Hd.
    + right. subst. by injection Hk as <-.
    + left. apply Huse. cbn in Hk. by rewrite decide_False in Hk.
  - intros k d' Hk. subst s'. rewrite sending_goto in Hk. case_decide as Hd.
    + apply (Hc tid). rewrite Hpc. by injection Hk as <-.
    + apply (Hc k). cbn in Hk. by rewrite decide_False in Hk.
Qed.

Lemma owners_step s s' es :
  owners s → next_producer_shard_ s + 1 < 2 ^ 64 → step s s' es → owners s'.
Proof.
  intros Ho Hn Hs. pose proof (owners_next s Ho) as H0.
  assert (next_producer_shard_ (take_shard s) = next_producer_shard_ s + 1) as Htake
    by (cbn; apply u64_id; unfold in_u64; lia).
  pose proof (owners_uses s Ho) as Huse. pose proof (owners_carried s Ho) as Hc.
  destruct Hs; try specialize (Huse tid); try specialize (Hc tid).
  all: try (rewrite H in Huse, Hc; cbn in Huse, Hc).
  all: try (apply (owners_goto tid _ s); [done|by cbn; rewrite ?length_alter|cbn; lia|done|done|..];
    cbn; try (destruct b); naive_solver).
  all: try (apply (owners_same s); [done|by cbn; rewrite ?length_alter|done..]).
  - by apply (owners_registers s).
  - apply (owners_goto tid _ s); [done|done|lia|done|done|naive_solver..].
  - destruct (notify_publisher s) as (p & -> & _). apply (owners_goto tid _ s); naive_solver.
  - destruct (notify_publisher s) as (p & -> & _). by apply (owners_same s).
Qed.

(** ** The shards after a step *)

Lemma shard_update f i s j : (i < length (shards_ s))%nat →
  shards_ (update_shard f i s) !!! j = if decide (j = i) then f (shards_ s !!! i) else shards_ s !!! j.
Proof.
  intros Hi. cbn. rewrite list_lookup_total_alter. destruct (decide (j = i)) as [->|Hj].
  - by rewrite decide_True.
  - rewrite decide_False; [done|]. naive_solver.
Qed.

(* a field that an update leaves alone *)
Lemma field_update {A} (field : ProducerShard → A) f i s j :
  (∀ p, field (f p) = field p) → field (shards_ (update_shard f i s) !!! j) = field (shards_ s !!! j).
Proof.
  intros Hf. cbn. rewrite list_lookup_total_alter. case_decide as Hj; [|done].
  destruct Hj as [-> _]. apply Hf.
Qed.

Lemma shard_outside s i : owners s → (kProducerShardCount ≤ i)%nat → shards_ s !!! i = fresh_shard.
Proof. intros Ho Hi. by rewrite list_lookup_total_alt, lookup_ge_None_2 by (rewrite (owners_length _ Ho); done). Qed.

Lemma uses_below s tid i : owners s → uses (sending (threads s tid)) = Some i → (i < length (shards_ s))%nat.
Proof. intros Ho Hi. rewrite (owners_length _ Ho). by apply (owners_uses _ Ho tid i) in Hi as [_ ?]. Qed.

(* what holds of every shard, and of the one that has changed *)
Lemma shards_update (P : ProducerShard → Prop) f i s :
  (∀ j, P (shards_ s !!! j)) → P (f (shards_ s !!! i)) → ∀ j, P (shards_ (update_shard f i s) !!! j).
Proof.
  intros Hall Hi j. cbn. rewrite list_lookup_total_alter. case_decide as Hj; [|done]. by destruct Hj as [-> _].
Qed.

(* the notification of a step, as a move of the publisher thread *)
Ltac step_notify :=
  match goal with |- context [notify ?s] =>
    let H := fresh in destruct (notify_publisher s) as (? & H & ?); rewrite H in *; clear H end.
Ltac case_notify :=
  match goal with H : _ ∧ (∀ c, publisher _ ≠ Blocked c) ∨ _ |- _ => destruct H as [[-> _]|(? & -> & ->)] end.

(** ** What may be read *)

Definition pushes (s : t) : View := λ i, length (stored (shards_ s !!! i)).
Definition view_le (v w : View) : Prop := ∀ i, (v i ≤ w i)%nat.

Lemma view_le_join u v w : view_le u w → view_le v w → view_le (join u v) w.
Proof. intros H1 H2 i. unfold join. specialize (H1 i). specialize (H2 i). lia. Qed.
Lemma join_at_spec i n v j : join_at i n v j = if decide (j = i) then (v j `max` n)%nat else v j.
Proof.
  unfold join_at, set_at. destruct (Nat.eqb_spec (v i) (v i `max` n)) as [He|He]; [case_decide; subst; congruence|].
  destruct (Nat.eqb_spec j i) as [->|Hj]; [by rewrite decide_True|by rewrite decide_False].
Qed.
Lemma view_le_join_at i n v w : (n ≤ w i)%nat → view_le v w → view_le (join_at i n v) w.
Proof. intros Hn Hv j. rewrite join_at_spec. specialize (Hv j). case_decide; [subst; lia|done]. Qed.
Lemma view_le_trans u v w : view_le u v → view_le v w → view_le u w.
Proof. intros H1 H2 i. etrans; [apply H1|apply H2]. Qed.
Lemma view_le_none w : view_le no_view w.
Proof. intros i. unfold no_view. lia. Qed.

Lemma step_pushes s s' es : step s s' es → view_le (pushes s) (pushes s').
Proof.
  assert (∀ f i s1, shards_ s1 = alter f i (shards_ s) → (∀ p, (length (stored p) ≤ length (stored (f p)))%nat) →
    view_le (pushes s) (pushes s1)) as Hup.
  { intros f i s1 Hs Hf j. unfold pushes. rewrite Hs, list_lookup_total_alter.
    case_decide as Hj; [destruct Hj as [-> _]; apply Hf|done]. }
  intros Hs i. destruct Hs; try step_notify; try reflexivity; revert i.
  all: try (eapply Hup; [reflexivity|]; intros p; cbn; rewrite ?length_app; lia).
Qed.

(* the ring of a shard: what its sender may do *)
Record shard_ok (p : ProducerShard) : Prop := {
  ok_seen : (seen_consumed p ≤ consumed p)%nat;
  ok_consumed : (consumed p ≤ length (stored p))%nat;
  ok_room : Z.of_nat (length (stored p) - seen_consumed p) ≤ kQueueCapacityPerProducer;
  ok_active : Forall (λ m, m.2 ≤ length (stored p))%nat (active_sender p)
}.

Lemma shard_ok_emplace k r slot p :
  shard_ok p → free_position k p = Some r → Z.of_nat (length (stored p) - r) < kQueueCapacityPerProducer →
  shard_ok (emplace r slot p).
Proof.
  intros [H1 H2 H3 H4] Hr%free_position_readable Hlen; [|done]. unfold readable in Hr.
  split; cbn; rewrite ?length_app; cbn; [lia..|]. eapply Forall_impl; [exact H4|]. cbn. lia.
Qed.

Lemma shard_ok_saw r p : shard_ok p → readable p r → shard_ok (saw_consumed r p).
Proof. intros [H1 H2 H3 H4] Hr. unfold readable in Hr. split; cbn; try lia. done. Qed.

Lemma shard_ok_consume p : shard_ok p → (consumed p < length (stored p))%nat → shard_ok (consume p).
Proof. intros [H1 H2 H3 H4] Hc. split; cbn; try lia. done. Qed.

Lemma shard_ok_active b p : shard_ok p → shard_ok (store_active b p).
Proof. intros []. split; cbn; try done. apply Forall_app. split; [done|]. by apply Forall_singleton. Qed.

(* the counters do not matter *)
Lemma shard_ok_counts p p' : shard_ok p → stored p' = stored p → consumed p' = consumed p →
  seen_consumed p' = seen_consumed p → active_sender p' = active_sender p → shard_ok p'.
Proof. intros [] H1 H2 H3 H4. split; rewrite ?H1, ?H2, ?H3, ?H4; done. Qed.

(* the shard whose ring the publisher thread is in *)
Definition in_ring (p : Publisher) : option nat :=
  match p with Transmit i | Account i _ | Release i => Some i | _ => None end.

Record memory (s : t) : Prop := {
  mem_shards : ∀ i, shard_ok (shards_ s !!! i);
  mem_known : view_le (known_stored (known s)) (pushes s);
  mem_consumed : ∀ i, (consumed (shards_ s !!! i) ≤ known_stored (known s) i)%nat;
  mem_ring : ∀ i, in_ring (publisher s) = Some i →
    (i < kProducerShardCount)%nat ∧ (consumed (shards_ s !!! i) < known_stored (known s) i)%nat;
  mem_running : Forall (λ m, view_le m.2 (pushes s)) (running_ s);
  mem_wake : Forall (λ m, view_le m.2 (pushes s)) (wake_requested_ s);
  mem_stop : ∀ view, stopper s = StopFlag view → view_le view (pushes s)
}.

Lemma mem_current s : memory s → view_le (current (wake_requested_ s)).2 (pushes s).
Proof.
  intros Hm. destruct (wake_requested_ s) as [|x l] eqn:E; [apply view_le_none|]. rewrite <- E.
  pose proof (mem_wake s Hm) as Hw. rewrite Forall_forall in Hw. apply Hw, last_current. by rewrite E.
Qed.

(* a step of a thread in send, which leaves the publisher thread alone *)
Lemma memory_send s s' :
  memory s → view_le (pushes s) (pushes s') → (∀ i, shard_ok (shards_ s' !!! i)) →
  (∀ i, consumed (shards_ s' !!! i) = consumed (shards_ s !!! i)) →
  known s' = known s → in_ring (publisher s') = in_ring (publisher s) →
  Forall (λ m, view_le m.2 (pushes s')) (running_ s') → Forall (λ m, view_le m.2 (pushes s')) (wake_requested_ s') →
  (∀ view, stopper s' = StopFlag view → view_le view (pushes s')) → memory s'.
Proof.
  intros [H1 H2 H3 H4 H5 H6 H7] Hp Hs Hc Hk Hr Hrun Hwake Hstop. split; try done.
  - rewrite Hk. by eapply view_le_trans.
  - intros i. rewrite Hc, Hk. apply H3.
  - intros i. rewrite Hr, Hc, Hk. apply H4.
Qed.

Lemma views_mono (flag : Flag) s s' : view_le (pushes s) (pushes s') →
  Forall (λ m, view_le m.2 (pushes s)) flag → Forall (λ m, view_le m.2 (pushes s')) flag.
Proof. intros Hp Hf. eapply Forall_impl; [exact Hf|]. intros m Hm. exact (view_le_trans _ _ _ Hm Hp). Qed.

Lemma views_snoc (flag : Flag) b v w :
  Forall (λ m, view_le m.2 w) flag → view_le v w → Forall (λ m, view_le m.2 w) (flag ++ [(b, v)]).
Proof. intros Hf Hv. apply Forall_app. split; [done|]. by apply Forall_singleton. Qed.

(* the knowledge of the publisher thread after it has looked *)
Lemma looks_known s p x : memory s → publisher_looks s p x →
  view_le (known_stored x) (pushes s) ∧ view_le (known_stored (known s)) (known_stored x) ∧
  (∀ i, in_ring p = Some i → (i < kProducerShardCount)%nat ∧ (consumed (shards_ s !!! i) < known_stored x i)%nat).
Proof.
  intros [Hsh Hkn _ _ Hrun Hwake _] Hl.
  assert (∀ v, view_le v (pushes s) → view_le (join (known_stored (known s)) v) (pushes s) ∧
    view_le (known_stored (known s)) (join (known_stored (known s)) v)) as Hjoin.
  { intros v Hv. split; [by apply view_le_join|]. intros i. unfold join. lia. }
  assert (∀ i n, (n ≤ pushes s i)%nat → view_le (join_at i n (known_stored (known s))) (pushes s) ∧
    view_le (known_stored (known s)) (join_at i n (known_stored (known s))) ∧
    (n ≤ join_at i n (known_stored (known s)) i)%nat) as Hat.
  { intros i n Hn. split; [by apply view_le_join_at|].
    split; [intros j; rewrite join_at_spec; case_decide; lia|]. rewrite join_at_spec, decide_True by done. lia. }
  assert (∀ i k x, learns s i k x → view_le (known_stored x) (pushes s) ∧
    view_le (known_stored (known s)) (known_stored x) ∧ (k ≤ known_stored x i)%nat) as Hlearn.
  { intros i k x' [-> [_ Hk]]. by apply Hat. }
  assert (∀ k b v, running_ s !! k = Some (b, v) → view_le v (pushes s)) as Hr.
  { intros k b v Hk%list_elem_of_lookup_2. rewrite Forall_forall in Hrun. by apply Hrun in Hk. }
  assert (∀ k b v, wake_requested_ s !! k = Some (b, v) → view_le v (pushes s)) as Hw.
  { intros k b v Hk%list_elem_of_lookup_2. rewrite Forall_forall in Hwake. by apply Hwake in Hk. }
  assert (∀ i k b n, active_sender (shards_ s !!! i) !! k = Some (b, n) → (n ≤ pushes s i)%nat) as Ha.
  { intros i k b n Hk%list_elem_of_lookup_2. pose proof (ok_active _ (Hsh i)) as Hf. rewrite Forall_forall in Hf.
    by apply Hf in Hk. }
  assert (view_le (known_stored (known s)) (known_stored (known s))) as Hrefl by (intros i; lia).
  destruct Hl; try (split; [done|]; split; [done|]; try done; by intros j [= <-]).
  all: try (destruct (Hlearn _ _ _ H0) as (L1 & L2 & L3); by split).
  all: try (destruct (Hat _ _ (Ha _ _ _ _ H0)) as (L1 & L2 & _); by split).
  all: try (destruct (Hjoin _ (Hr _ _ _ H0)) as [L1 L2]; split; [done|]; split; [done|]; first [done|by destruct b]).
  all: try (destruct (Hjoin _ (Hw _ _ _ H0)) as [L1 L2]; split; [done|]; split; [done|]; by destruct b).
  destruct (Hlearn _ _ _ H1) as (L1 & L2 & L3). split; [done|]. split; [done|]. intros j [= <-]. split; [done|lia].
Qed.

Lemma memory_looks s p x : memory s → publisher_looks s p x → memory (set_publisher p (set_known x s)).
Proof.
  intros Hm Hl. destruct (looks_known s p x Hm Hl) as (H1 & H2 & H3). destruct Hm as [Hsh Hkn Hc _ Hrun Hwake Hst].
  split; try done. intros i. cbn. etrans; [apply Hc|apply H2].
Qed.
Lemma memory_step s s' es : memory s → step s s' es → memory s'.
Proof.
  intros Hm Hs. pose proof (step_pushes _ _ _ Hs) as Hp. pose proof Hm as [Hsh Hkn Hc Hr Hrun Hwake Hst].
  pose proof (views_mono _ _ _ Hp Hrun) as Hrun'. pose proof (views_mono _ _ _ Hp Hwake) as Hwake'.
  assert (∀ view, stopper s = StopFlag view → view_le view (pushes s')) as Hst'.
  { intros view Hv. eapply view_le_trans; [by apply Hst|done]. }
  pose proof (view_le_trans _ _ _ (mem_current s Hm) Hp) as Hcur.
  destruct Hs; try step_notify.
  all: try (apply (memory_send s); [exact Hm|exact Hp
    |try exact Hsh; try (apply shards_update; [exact Hsh|by first [apply shard_ok_active|eapply shard_ok_counts]])
    |intros j; by first [done|apply (field_update consumed)]|done|done|exact Hrun'|exact Hwake'|exact Hst']).
  - (* emplaces *) apply shards_update; [exact Hsh|by eapply shard_ok_emplace].
  - (* finds_full *) apply shards_update; [exact Hsh|].
    apply shard_ok_saw; [done|]. eapply free_position_readable; [apply Hsh|done].
  - (* updates_depth *) apply shards_update; [exact Hsh|].
    eapply shard_ok_counts; [by apply (shard_ok_saw k)|done..].
  - (* sets_flag *)
    apply (memory_send s); [exact Hm|exact Hp|exact Hsh|done|done|done|exact Hrun'| |exact Hst'].
    apply views_snoc; [exact Hwake'|]. subst view. by apply view_le_join_at.
  - (* keeps_flag *)
    apply (memory_send s); [exact Hm|exact Hp|exact Hsh|done|done|done|exact Hrun'| |exact Hst'].
    apply views_snoc; [exact Hwake'|]. subst view. by apply view_le_join_at.
  - (* notifies *)
    apply (memory_send s); [exact Hm|exact Hp|exact Hsh|done|done| |exact Hrun'|exact Hwake'|exact Hst'].
    cbn. by case_notify.
  - by apply memory_looks.
  - (* transmits *)
    split; try done. intros j [= <-]. apply Hr. by rewrite H.
  - (* accounts *)
    split; try done. intros j [= <-]. apply (Hr i). by rewrite H.
  - (* releases *)
    destruct (Hr i) as [Hi Hlt]; [by rewrite H|].
    split; try done.
    + apply shards_update; [exact Hsh|]. apply shard_ok_consume; [apply Hsh|]. eapply Nat.lt_le_trans; [exact Hlt|apply Hkn].
    + cbn. by eapply view_le_trans.
    + intros j. change (shards_ (set_publisher ?q ?s1)) with (shards_ s1). change (known (set_publisher ?q ?s1)) with (known s).
      cbn [shards_ update_shard]. rewrite list_lookup_total_alter. case_decide as Hj; [|apply Hc].
      destruct Hj as [Heq _]. subst j. exact Hlt.
  - (* arms *)
    split; try done.
    + cbn. apply view_le_join; [done|apply view_le_none].
    + intros j. cbn. etrans; [apply Hc|]. unfold join. lia.
    + by apply views_snoc.
  - (* stops *)
    split; try done.
    + apply views_snoc; [exact Hrun'|]. intros j. exact (Nat.le_min_r _ _).
    + intros v [= <-] j. exact (Nat.le_min_r _ _).
  - (* stop_flags *)
    split; try done. apply views_snoc; [exact Hwake'|]. apply view_le_join; [exact Hcur|by apply Hst'].
  - (* stop_notifies *)
    split; try done. intros j. cbn. destruct H1 as [[-> _]|(c & Hb & ->)]; [apply Hr|done].
  - (* joins *)
    by split.
Qed.

(* MEM2 *)
(** ** The queues *)

Definition queued (i : nat) (es : list Event) : list Datagram :=
  omap (λ e, match e with Queued _ j d => if decide (j = i) then Some d else None | _ => None end) es.
Definition published (i : nat) (es : list Event) : list Datagram :=
  omap (λ e, match e with Published j d _ => if decide (j = i) then Some d else None | _ => None end) es.

(* the shard whose datagram has been given to sendto and is still in the ring *)
Definition in_hand (p : Publisher) : option nat :=
  match p with Account i _ | Release i => Some i | _ => None end.

(* how many datagrams of a shard have been given to sendto *)
Definition given (s : t) (i : nat) : nat :=
  consumed (shards_ s !!! i) + (if decide (in_hand (publisher s) = Some i) then 1 else 0).
Definition waiting (s : t) (i : nat) : list Datagram :=
  drop (given s i) (slot_datagram <$> stored (shards_ s !!! i)).

Definition queues_exact (es : list Event) (s : t) : Prop :=
  ∀ i, queued i es = slot_datagram <$> stored (shards_ s !!! i) ∧ published i es = take (given s i) (queued i es).

Lemma given_stored s i : memory s → (given s i ≤ length (stored (shards_ s !!! i)))%nat.
Proof.
  intros Hm. unfold given. pose proof (mem_known s Hm i) as Hk. unfold pushes in Hk.
  pose proof (mem_consumed s Hm i). case_decide as Hi; [|lia].
  destruct (mem_ring s Hm i) as [_ ?]; [|lia]. by destruct (publisher s).
Qed.

Lemma queues_same es es' s s' :
  queues_exact es s → (∀ i, queued i es' = []) → (∀ i, published i es' = []) →
  (∀ i, stored (shards_ s' !!! i) = stored (shards_ s !!! i)) → (∀ i, given s' i = given s i) →
  queues_exact (es ++ es') s'.
Proof.
  intros Hq Hes' Hes'' Hs Hg i. unfold queued, published in *.
  rewrite !omap_app, Hes', Hes'', Hs, Hg, !(right_id_L [] (++)). apply Hq.
Qed.

Lemma given_same s s' : in_hand (publisher s') = in_hand (publisher s) →
  (∀ i, consumed (shards_ s' !!! i) = consumed (shards_ s !!! i)) → ∀ i, given s' i = given s i.
Proof. intros Hp Hc i. unfold given. by rewrite Hp, Hc. Qed.

Lemma looks_in_hand s p x : publisher_looks s p x → in_hand (publisher s) = None ∧ in_hand p = None.
Proof.
  intros []; repeat match goal with H : _ ∨ _ |- _ => destruct H end;
    match goal with H : publisher s = _ |- _ => rewrite H end; try done; by destruct b.
Qed.

Lemma queues_step s s' es es' :
  owners s → memory s → queues_exact es s → step s s' es' → queues_exact (es ++ es') s'.
Proof.
  intros Ho Hm Hq Hs. destruct Hs; try step_notify.
  all: try (apply (queues_same es _ s); [done|done|done
    |intros j; by first [done|apply (field_update stored)]
    |apply given_same; [done|intros j; by first [done|apply (field_update consumed)]]]).
  - (* emplaces *)
    intros j. pose proof (owners_carried _ Ho tid d) as Hd. pose proof (uses_below s tid i Ho) as Hi.
    rewrite H in Hd, Hi. specialize (Hd eq_refl). specialize (Hi eq_refl).
    assert (given (goto tid (Deactivate i true) (update_shard (emplace r (write_slot d held)) i s)) j = given s j) as ->.
    { apply given_same; [done|]. intros l. by apply (field_update consumed). }
    pose proof (given_stored s j Hm) as Hg. destruct (Hq j) as [He Hp]. unfold queued, published in *.
    rewrite !omap_app. cbn [omap list_omap]. change (shards_ (goto ?k ?pc ?s1)) with (shards_ s1).
    rewrite shard_update by done. destruct (decide (j = i)) as [->|Hj].
    + rewrite decide_True by done. cbn [stored emplace]. rewrite fmap_app. cbn [fmap list_fmap].
      rewrite slot_write by done. rewrite Hp, He, !(right_id_L [] (++)). split; [done|].
      rewrite take_app_le; [done|]. by rewrite length_fmap.
    + rewrite decide_False by done. rewrite !(right_id_L [] (++)). done.
  - (* notifies *)
    apply (queues_same es _ s); [done|done|done|done|apply given_same; [|done]].
    cbn. by case_notify.
  - (* looks *)
    apply (queues_same es _ s); [done|done|done|done|apply given_same; [|done]].
    destruct (looks_in_hand _ _ _ H) as [H1 H2]. cbn. by rewrite H1, H2.
  - (* transmits *)
    intros j. destruct (Hq j) as [He Hp]. unfold queued, published in *. rewrite !omap_app. cbn [omap list_omap].
    rewrite !(right_id_L [] (++)).
    change (shards_ (set_publisher ?q ?s1)) with (shards_ s1). split; [exact He|]. unfold given in *. cbn.
    change (shards_ (set_publisher ?q ?s1)) with (shards_ s1).
    rewrite H in Hp. cbn [in_hand] in Hp. rewrite decide_False in Hp by done.
    destruct (decide (i = j)) as [<-|Hj].
    + rewrite decide_True by done. rewrite Hp, He, Nat.add_0_r. rewrite Nat.add_1_r.
      symmetry. apply take_S_r. by rewrite list_lookup_fmap, H0.
    + rewrite decide_False by congruence. by rewrite (right_id_L [] (++)).
  - (* accounts *)
    apply (queues_same es _ s); [done|done|done|done|apply given_same; [|done]]. cbn. by rewrite H.
  - (* releases *)
    apply (queues_same es _ s); [done|done|done|intros j; by apply (field_update stored)|].
    destruct (mem_ring s Hm i) as [Hi _]; [by rewrite H|].
    intros j. unfold given. change (shards_ (set_publisher ?q ?s1)) with (shards_ s1).
    rewrite shard_update by (by rewrite (owners_length _ Ho)). cbn [publisher set_publisher]. rewrite H. cbn [in_hand].
    rewrite (decide_False (P := None = Some j)) by done.
    destruct (decide (j = i)) as [->|Hj]; [rewrite decide_True by done; cbn; lia|by rewrite decide_False by congruence].
  - (* arms *)
    apply (queues_same es _ s); [done|done|done|done|apply given_same; [|done]]. cbn. by rewrite H.
  - (* stop_notifies *)
    apply (queues_same es _ s); [done|done|done|done|apply given_same; [|done]].
    cbn. by case_notify.
  - (* joins *)
    apply (queues_same es _ s); [done|done|done|done|apply given_same; [|done]].
    cbn. by destruct H0 as [-> | ->].
Qed.

Lemma queues_split es s i : memory s → queues_exact es s →
  queued i es = published i es ++ waiting s i ∧ Z.of_nat (length (waiting s i)) ≤ kQueueCapacityPerProducer.
Proof.
  intros Hm Hq. destruct (Hq i) as [He Hp]. unfold waiting. rewrite Hp, He, take_drop. split; [done|].
  rewrite length_drop, length_fmap. pose proof (ok_room _ (mem_shards s Hm i)) as Hr.
  pose proof (ok_seen _ (mem_shards s Hm i)). unfold given. lia.
Qed.

(** ** The counters *)

(* how many events *)
Definition tally (p : Event → bool) (es : list Event) : Z := Z.of_nat (length (filter p es)).

Definition is_sent (e : Event) : bool := match e with Published _ _ true => true | _ => false end.
Definition is_error (e : Event) : bool := match e with Published _ _ false => true | _ => false end.
Definition is_rejection (e : Event) : bool := match e with Refused None => true | _ => false end.
Definition is_drop (i : nat) (e : Event) : bool :=
  match e with Refused (Some j) => bool_decide (j = i) | _ => false end.
Definition is_queued (i : nat) (e : Event) : bool :=
  match e with Queued _ j _ => bool_decide (j = i) | _ => false end.

(* what send has queued for a thread, and the times it returned true to it *)
Definition is_granted (tid : Z) (e : Event) : bool :=
  match e with Queued k _ _ => bool_decide (k = tid) | _ => false end.
Definition is_success (tid : Z) (e : Event) : bool :=
  match e with Returned k true => bool_decide (k = tid) | _ => false end.

Lemma tally_app p es es' : tally p (es ++ es') = tally p es + tally p es'.
Proof. unfold tally. rewrite filter_app, length_app. lia. Qed.

Lemma tally_one p e : tally p [e] = if p e then 1 else 0.
Proof. unfold tally. cbn. by destruct (p e). Qed.

Lemma tally_nonneg p es : 0 ≤ tally p es.
Proof. unfold tally. lia. Qed.

(* a datagram has been given to sendto and is not counted yet *)
Definition owed (p : Publisher) (ok : bool) : Z :=
  match p with Account _ b => if Bool.eqb b ok then 1 else 0 | _ => 0 end.

(* the counters of the publisher thread *)
Definition sents (es : list Event) (s : t) : Prop :=
  sent_ s = u64 (tally is_sent es - owed (publisher s) true) ∧
  send_errors_ s = u64 (tally is_error es - owed (publisher s) false).

(* what each counter is short of *)
Definition behind (s : t) (i : nat) (n : Z) : Prop :=
  n = 1 ∧ (∃ tid, uncounted (sending (threads s tid)) = Some i) ∨
  n = 0 ∧ ∀ tid, uncounted (sending (threads s tid)) ≠ Some i.

Record counts (es : list Event) (s : t) : Prop := {
  count_sents : sents es s;
  count_rejections : administrative_dropped_ s = u64 (tally is_rejection es);
  count_drops : ∀ i, dropped (shards_ s !!! i) = u64 (tally (is_drop i) es);
  count_queued : ∀ i, ∃ n, behind s i n ∧ enqueued (shards_ s !!! i) = u64 (tally (is_queued i) es - n);
  count_granted : ∀ tid, tally (is_granted tid) es =
    tally (is_success tid) es + (if granted (sending (threads s tid)) then 1 else 0)
}.

Lemma u64_count z z' : z' = z + 1 → u64 (u64 z + 1) = u64 z'.
Proof. intros ->. unfold u64. by rewrite Zplus_mod_idemp_l. Qed.

(* a field of a shard that the step leaves alone *)
Ltac same_field f :=
  first
    [ done
    | by apply (field_update f)
    | change (shards_ (set_publisher ?p ?s1)) with (shards_ s1); by rewrite (field_update f) by done ].

Lemma sents_same es es' s s' : sents es s → tally is_sent es' = 0 → tally is_error es' = 0 →
  sent_ s' = sent_ s → send_errors_ s' = send_errors_ s →
  (∀ ok, owed (publisher s') ok = owed (publisher s) ok) → sents (es ++ es') s'.
Proof.
  unfold sents. intros [H1 H2] Ht1 Ht2 Hs1 Hs2 Ho. rewrite !tally_app, Ht1, Ht2, Hs1, Hs2, !Ho, !Z.add_0_r. by split.
Qed.

Lemma looks_owed s p x : publisher_looks s p x → ∀ ok, owed (publisher s) ok = 0 ∧ owed p ok = 0.
Proof.
  intros [] ok; repeat match goal with H : _ ∨ _ |- _ => destruct H end;
    match goal with H : publisher s = _ |- _ => rewrite H end; try done; by destruct b.
Qed.

Lemma sents_step s s' es es' : sents es s → step s s' es' → sents (es ++ es') s'.
Proof.
  intros Hc Hs. destruct Hs; try step_notify.
  all: try (by apply (sents_same es _ s)).
  - (* notifies *)
    apply (sents_same es _ s); [done..|]. intros ok. cbn. by case_notify.
  - (* looks *)
    apply (sents_same es _ s); [done..|]. intros ok. cbn [publisher set_publisher]. by destruct (looks_owed _ _ _ H ok) as [-> ->].
  - (* transmits *)
    destruct Hc as [H1 H2]. unfold sents. rewrite H in H1, H2. cbn in H1, H2. rewrite Z.sub_0_r in H1, H2.
    cbn [sent_ send_errors_ publisher set_publisher owed]. rewrite !tally_app, !tally_one, H1, H2.
    destruct ok; cbn [is_sent is_error Bool.eqb]; split; f_equal; lia.
  - (* accounts *)
    destruct Hc as [H1 H2]. unfold sents. rewrite H in H1, H2. cbn in H1, H2.
    cbn [sent_ send_errors_ publisher set_publisher count_sent owed]. rewrite (right_id_L [] (++)), H1, H2.
    destruct ok; cbn [Bool.eqb]; split; first [apply u64_count; lia|f_equal; lia].
  - (* releases *)
    apply (sents_same es _ s); [done..|]. intros ok. cbn. by rewrite H.
  - (* arms *)
    apply (sents_same es _ s); [done..|]. intros ok. cbn. by rewrite H.
  - (* stop_notifies *)
    apply (sents_same es _ s); [done..|]. intros ok. cbn. by case_notify.
  - (* joins *)
    apply (sents_same es _ s); [done..|]. intros ok. cbn. by destruct H0 as [-> | ->].
Qed.

Lemma tally_drop tid i j :
  tally (is_drop j) [Refused (Some i); Returned tid false] = if decide (j = i) then 1 else 0.
Proof.
  unfold tally. cbn. destruct (decide (j = i)) as [->|]; [by rewrite bool_decide_true|].
  by rewrite bool_decide_false by congruence.
Qed.

Lemma tally_queued tid i j d :
  tally (is_queued j) [Queued tid i d] = if decide (j = i) then 1 else 0.
Proof.
  unfold tally. cbn. destruct (decide (j = i)) as [->|]; [by rewrite bool_decide_true|].
  by rewrite bool_decide_false by congruence.
Qed.

Lemma drops_step s s' es es' :
  owners s → administrative_dropped_ s = u64 (tally is_rejection es) →
  (∀ i, dropped (shards_ s !!! i) = u64 (tally (is_drop i) es)) → step s s' es' →
  administrative_dropped_ s' = u64 (tally is_rejection (es ++ es')) ∧
  (∀ i, dropped (shards_ s' !!! i) = u64 (tally (is_drop i) (es ++ es'))).
Proof.
  intros Ho H1 H2 Hs. setoid_rewrite tally_app. destruct Hs; try step_notify.
  all: try (split; [change (tally is_rejection _) with 0 at 2; rewrite Z.add_0_r; exact H1|]; intros j;
    change (tally (is_drop j) _) with 0 at 2; rewrite Z.add_0_r, <- H2;
    same_field dropped).
  - split; [|intros j; change (tally (is_drop j) _) with 0 at 2; by rewrite Z.add_0_r].
    cbn [administrative_dropped_ goto set_thread count_rejected]. rewrite H1. by apply u64_count.
  - split; [change (tally is_rejection _) with 0 at 2; rewrite Z.add_0_r; exact H1|]. intros j.
    change (shards_ (goto ?k ?pc ?s1)) with (shards_ s1).
    rewrite shard_update by (apply (uses_below s tid); [done|by rewrite H]).
    destruct (decide (j = i)) as [->|Hj].
    + cbn [dropped count_dropped]. rewrite H2, tally_drop, decide_True by done. by apply u64_count.
    + by rewrite H2, tally_drop, decide_False, Z.add_0_r by done.
Qed.

Lemma behind_same s s' i n :
  (∀ k, uncounted (sending (threads s' k)) = uncounted (sending (threads s k))) → behind s i n → behind s' i n.
Proof. intros Ht. unfold behind. by setoid_rewrite Ht. Qed.

(* a thread is the only one that can be behind in its shard *)
Lemma behind_alone s tid i n : owners s → uses (sending (threads s tid)) = Some i → behind s i n →
  n = if decide (uncounted (sending (threads s tid)) = Some i) then 1 else 0.
Proof.
  intros Ho Hu [[-> [k Hk]]|[-> Hno]].
  - assert (k = tid) as ->; [|by rewrite decide_True].
    apply (owners_unique _ Ho k tid i); apply (owners_uses _ Ho); [by apply uncounted_uses|done].
  - by rewrite decide_False.
Qed.

Lemma behind_other s tid pc i j n :
  uncounted pc = None ∨ uncounted pc = Some i → uncounted (sending (threads s tid)) = None ∨ 
  uncounted (sending (threads s tid)) = Some i → j ≠ i → behind s j n → behind (goto tid pc s) j n.
Proof.
  intros Hpc Hs Hj [[-> [k Hk]]|[-> Hno]].
  - left. split; [done|]. exists k. rewrite sending_goto. rewrite decide_False; [done|].
    intros ->. destruct Hs; congruence.
  - right. split; [done|]. intros k. rewrite sending_goto. case_decide; [destruct Hpc; congruence|done].
Qed.

Lemma queued_step s s' es es' :
  owners s →
  (∀ i, ∃ n, behind s i n ∧ enqueued (shards_ s !!! i) = u64 (tally (is_queued i) es - n)) → step s s' es' →
  (∀ i, ∃ n, behind s' i n ∧ enqueued (shards_ s' !!! i) = u64 (tally (is_queued i) (es ++ es') - n)).
Proof.
  intros Ho Hq Hs j. rewrite tally_app. destruct (Hq j) as (n & Hb & He). destruct Hs; try step_notify.
  all: try (exists n; split; [|change (tally (is_queued j) _) with 0 at 2; rewrite Z.add_0_r, <- He;
      same_field enqueued]).
  all: try (apply (behind_same s); [|done]; intros l; cbn; destruct (decide (l = tid)) as [->|]; [|done]; cbn;
    first [by rewrite H|rewrite H; by destruct b]).
  all: try (by apply (behind_same s)).
  - (* emplaces *)
    change (shards_ (goto ?k ?pc ?s1)) with (shards_ s1). rewrite tally_queued, (field_update enqueued) by done.
    destruct (decide (j = i)) as [->|Hj].
    + apply (behind_alone s tid) in Hb; [|done|by rewrite H]. rewrite H in Hb.
      rewrite decide_False in Hb by done. subst n.
      exists 1. split; [left; split; [done|]; exists tid; rewrite sending_goto; by rewrite decide_True|].
      rewrite He. f_equal. lia.
    + exists n. rewrite Z.add_0_r. split; [|done].
      apply (behind_other _ _ _ i); [by right|left; change (uncounted (sending (threads s tid)) = None); by rewrite H|done|].
      by apply (behind_same s).
  - (* counts_enqueued *)
    change (shards_ (goto ?k ?pc ?s1)) with (shards_ s1). change (tally (is_queued j) []) with 0.
    pose proof (uses_below s tid i Ho) as Hi. rewrite H in Hi. rewrite shard_update by auto.
    rewrite Z.add_0_r. destruct (decide (j = i)) as [->|Hj].
    + pose proof (behind_alone s tid i n Ho) as Hn. rewrite H in Hn. specialize (Hn eq_refl Hb).
      cbn in Hn. rewrite decide_True in Hn by done. subst n. exists 0.
      split; [|cbn [enqueued count_enqueued]; rewrite He; apply u64_count; lia].
      right. split; [done|]. intros k. rewrite sending_goto. case_decide as Hk; [done|]. intros Hc. apply Hk.
      apply (owners_unique _ Ho k tid i); apply (owners_uses _ Ho); [by apply uncounted_uses|by rewrite H].
    + exists n. split; [|done].
      apply (behind_other _ _ _ i); [by left|right; change (uncounted (sending (threads s tid)) = Some i); by rewrite H|done|].
      by apply (behind_same s).
Qed.

Lemma tally_granted tid k i d :
  tally (is_granted tid) [Queued k i d] = if decide (tid = k) then 1 else 0.
Proof.
  unfold tally. cbn. destruct (decide (tid = k)) as [->|]; [by rewrite bool_decide_true|].
  by rewrite bool_decide_false by congruence.
Qed.

Lemma tally_success tid k :
  tally (is_success tid) [Returned k true] = if decide (tid = k) then 1 else 0.
Proof.
  unfold tally. cbn. destruct (decide (tid = k)) as [->|]; [by rewrite bool_decide_true|].
  by rewrite bool_decide_false by congruence.
Qed.

Definition grants (tid : Z) (es : list Event) (s : t) : Prop :=
  tally (is_granted tid) es = tally (is_success tid) es + (if granted (sending (threads s tid)) then 1 else 0).

(* thread k has moved: what it was granted and what was returned to it balance *)
Lemma grants_goto tid k pc s s1 es es' :
  grants tid es s → (∀ j, j ≠ k → sending (threads s1 j) = sending (threads s j)) →
  (∀ tid, tally (is_granted tid) es' + (if decide (tid = k) then if granted (sending (threads s k)) then 1 else 0 else 0) =
          tally (is_success tid) es' + (if decide (tid = k) then if granted pc then 1 else 0 else 0)) →
  grants tid (es ++ es') (goto k pc s1).
Proof.
  unfold grants. intros Hg Ht Hb. specialize (Hb tid). rewrite !tally_app, sending_goto.
  destruct (decide (tid = k)) as [->|]; [lia|]. rewrite Ht by done. lia.
Qed.

Lemma granted_step s s' es es' tid : grants tid es s → step s s' es' → grants tid (es ++ es') s'.
Proof.
  intros Hg Hs. destruct Hs as [k|k|k|k|k|k|k|k|k|k|k|k|k|k|k|k|k|k|k|k|k| | | | | | | | |]; try step_notify.
  all: try (apply (grants_goto _ _ _ s); [done|done|]; intros tid'; rewrite ?tally_granted, ?tally_success;
    rewrite H; try (destruct b); by destruct (decide (tid' = k))).
  all: try (unfold grants in *; rewrite !tally_app; change (tally (is_granted tid) _) with 0 at 2;
    change (tally (is_success tid) _) with 0 at 2; rewrite !Z.add_0_r; exact Hg).
  apply (grants_goto _ _ _ s); [done| |].
  - intros j Hj. cbn. by rewrite decide_False.
  - intros tid'. rewrite H. by destruct (decide (tid' = k)).
Qed.

Lemma counts_step s s' es es' : owners s → counts es s → step s s' es' → counts (es ++ es') s'.
Proof.
  intros Ho [H1 H3 H4 H5 H6] Hs.
  destruct (drops_step s s' es es' Ho H3 H4 Hs) as [H3' H4'].
  split; [by apply (sents_step s)|done|done|exact (queued_step s s' es es' Ho H5 Hs)|]. intros tid. exact (granted_step s s' es es' tid (H6 tid) Hs).
Qed.


(** ** The high-water marks *)

Lemma size_approx_exact write read :
  read ≤ write → write - read ≤ kQueueCapacityPerProducer → size_approx (u64 write) (u64 read) = write - read.
Proof.
  intros H1 H2. unfold size_approx. cbv zeta.
  assert (u64 (u64 write - u64 read) = write - read) as ->.
  { unfold u64. rewrite <- Zminus_mod. apply u64_id. unfold in_u64, kQueueCapacityPerProducer in *. lia. }
  destruct (Z.ltb_spec kQueueCapacityPerProducer (write - read)); lia.
Qed.

Lemma size_approx_bound write read : 0 ≤ size_approx write read ≤ kQueueCapacityPerProducer.
Proof.
  unfold size_approx. cbv zeta. assert (0 ≤ u64 (write - read)) by (unfold u64; by apply Z.mod_pos_bound).
  unfold kQueueCapacityPerProducer. destruct (Z.ltb_spec 32 (u64 (write - read))); lia.
Qed.

(* the shard with a datagram that its mark may not have seen *)
Definition unmarked (pc : Send) : option nat :=
  match pc with Deactivate i true | Count i true | Depth i => Some i | _ => None end.

(* what waits in the ring of a shard *)
Definition depth_of (p : ProducerShard) : nat := length (stored p) - consumed p.

Definition marks (s : t) : Prop :=
  ∀ i, 0 ≤ max_depth (shards_ s !!! i) ≤ kQueueCapacityPerProducer ∧
    (Z.of_nat (depth_of (shards_ s !!! i)) ≤ max_depth (shards_ s !!! i) ∨
     ∃ tid, unmarked (sending (threads s tid)) = Some i).

Lemma marks_same s s' :
  marks s → (∀ i, max_depth (shards_ s' !!! i) = max_depth (shards_ s !!! i)) →
  (∀ i, (depth_of (shards_ s' !!! i) ≤ depth_of (shards_ s !!! i))%nat) →
  (∀ k, unmarked (sending (threads s' k)) = unmarked (sending (threads s k))) → marks s'.
Proof.
  intros Hm Hd Hq Ht i. rewrite Hd. specialize (Hq i). destruct (Hm i) as [? H]. split; [done|].
  setoid_rewrite Ht. destruct H; [left; lia|by right].
Qed.

(* the thread of shard i has moved, with or without something to mark *)
Lemma marks_other s tid pc f i j :
  owners s → unmarked (sending (threads s tid)) = None ∨ unmarked (sending (threads s tid)) = Some i →
  (i < length (shards_ s))%nat → j ≠ i → marks s → 
  let s' := goto tid pc (update_shard f i s) in
  0 ≤ max_depth (shards_ s' !!! j) ≤ kQueueCapacityPerProducer ∧
    (Z.of_nat (depth_of (shards_ s' !!! j)) ≤ max_depth (shards_ s' !!! j) ∨
     ∃ k, unmarked (sending (threads s' k)) = Some j).
Proof.
  intros Ho Hu Hi Hj Hm s'. subst s'. change (shards_ (goto ?k ?pc ?s1)) with (shards_ s1).
  rewrite shard_update, decide_False by done. destruct (Hm j) as [? Hlen]. split; [done|].
  destruct Hlen as [|[k Hk]]; [by left|right]. exists k. rewrite sending_goto. rewrite decide_False; [done|].
  intros ->. destruct Hu; congruence.
Qed.

Lemma marks_step s s' es' : owners s → memory s → marks s → step s s' es' → marks s'.
Proof.
  intros Ho Hmem Hm Hs. destruct Hs; try step_notify.
  all: try (apply (marks_same s); [done|intros j; same_field max_depth
      |intros j; apply Nat.eq_le_incl; first [reflexivity|by apply (field_update depth_of)]
      |intros l; cbn; first [done|destruct (decide (l = tid)) as [->|]; [|done]; cbn;
       first [by rewrite H|rewrite H; by destruct b]]]).
  - (* emplaces *)
    pose proof (uses_below s tid i Ho) as Hi. rewrite H in Hi. specialize (Hi eq_refl). intros j.
    destruct (decide (j = i)) as [->|Hj]; [|apply marks_other; [done|left; by rewrite H|done..]].
    change (shards_ (goto ?k ?pc ?s1)) with (shards_ s1). rewrite (field_update max_depth) by done.
    split; [apply Hm|]. right. exists tid. by rewrite sending_goto, decide_True.
  - (* updates_depth *)
    pose proof (uses_below s tid i Ho) as Hi. rewrite H in Hi. specialize (Hi eq_refl). intros j.
    destruct (decide (j = i)) as [->|Hj]; [|apply marks_other; [done|right; by rewrite H|done..]].
    change (shards_ (goto ?k ?pc ?s1)) with (shards_ s1). rewrite shard_update, decide_True by done.
    destruct (Hm i) as [Hmax _]. destruct (mem_shards s Hmem i) as [M1 M2 M3 _]. unfold readable in H0.
    rewrite size_approx_exact in H1 by lia. unfold depth_of.
    cbn [max_depth stored consumed update_max_depth saw_consumed]. subst depth.
    destruct (Z.ltb_spec (max_depth (shards_ s !!! i)) (Z.of_nat (length (stored (shards_ s !!! i))) - Z.of_nat k));
      (split; [lia|left; lia]).
  - (* releases *)
    apply (marks_same s); [done|intros j; same_field max_depth| |done].
    intros j. change (shards_ (set_publisher ?p ?s1)) with (shards_ s1).
    destruct (mem_ring s Hmem i) as [Hi _]; [by rewrite H|]. rewrite shard_update by (by rewrite (owners_length _ Ho)).
    destruct (decide (j = i)) as [->|]; [|done]. unfold depth_of. cbn [stored consumed consume]. lia.
Qed.

(** ** Stopping *)

(* start has stored true in running_, and what is stored later is false *)
Definition running_shape (s : t) : Prop :=
  ∃ later, running_ s = (true, no_view) :: later ∧ Forall (λ m, m.1 = false) later.

Definition stopping (p : Publisher) : bool :=
  match p with DrainQueues _ _ | DrainSenders _ _ | Exited | Joined => true | _ => false end.

Record stops_once (s : t) : Prop := {
  once_running : running_shape s;
  once_stopping : stopping (publisher s) = true ∨ stopper s ≠ NotStopping → (current (running_ s)).1 = false
}.

Lemma running_stored s view : running_shape s → running_shape (store_running false view s).
Proof.
  intros (l & Hl & Hf). exists (l ++ [(false, view)]). cbn. rewrite Hl. split; [done|].
  apply Forall_app. split; [done|]. by apply Forall_singleton.
Qed.

Lemma current_snoc (flag : Flag) m : current (flag ++ [m]) = m.
Proof. unfold current. by rewrite last_snoc. Qed.

(* once a load of running_ has returned false, its last value is false *)
Lemma running_false s k view : running_shape s → running_ s !! k = Some (false, view) → (current (running_ s)).1 = false.
Proof.
  intros (l & -> & Hf) Hk. destruct l as [|x l]; [by destruct k|]. unfold current.
  destruct (last ((true, no_view) :: x :: l)) as [m|] eqn:E; [|done]. cbn.
  rewrite Forall_forall in Hf. apply Hf. rewrite last_cons_cons in E. apply last_Some_elem_of in E. done.
Qed.

Lemma once_same s s' : stops_once s → running_ s' = running_ s →
  (stopping (publisher s') = true → stopping (publisher s) = true) →
  (stopper s' ≠ NotStopping → stopper s ≠ NotStopping) → stops_once s'.
Proof.
  intros [H1 H2] Hr Hp Hst. split; [unfold running_shape; by rewrite Hr|].
  rewrite Hr. intros [?|?]; apply H2; auto.
Qed.

Lemma once_step s s' es : stops_once s → step s s' es → stops_once s'.
Proof.
  intros Ho Hs. pose proof Ho as [H1 H2]. destruct Hs; try step_notify.
  all: try (by apply (once_same s)).
  - apply (once_same s); [done..| |done]. cbn. by case_notify.
  - assert (running_shape (set_publisher p (set_known x s))) as Hr by done. split; [done|]. cbn.
    intros [Hp|Hp]; [|apply H2; by right].
    destruct H; cbn in Hp; try done; try (by destruct b).
    + by eapply running_false.
    + apply H2. left. by rewrite H.
    + apply H2. left. by rewrite H.
    + apply H2. left. by rewrite H.
    + apply H2. left. by rewrite H.
  - split; [by apply running_stored|]. intros _. unfold stop. cbn [running_ set_stopper store_running]. by rewrite current_snoc.
  - apply (once_same s); [done..|]. by rewrite H.
  - apply (once_same s); [done..| |by rewrite H]. cbn. by case_notify.
  - apply (once_same s); [done..| |done]. cbn. intros _. destruct H0 as [-> | ->]; done.
Qed.

(** ** A generation *)

(* between a stop and a start *)
Record resting (s : t) : Prop := {
  rest_running : (current (running_ s)).1 = false;
  rest_length : length (shards_ s) = kProducerShardCount;
  rest_threads : ∀ tid, sending (threads s tid) = Outside;
  rest_publisher : publisher s = Joined;
  rest_stopper : stopper s = NotStopping
}.

(* the state after start: its generation is newer than every registration *)
Inductive launched : t → Prop :=
  | launch s0 generation s :
      resting s0 →
      (∀ tid g i, producer_registration (threads s0 tid) = Some (g, i) → g < generation) →
      start true true generation s0 = (true, s) → launched s.

(* which shards events name *)
Definition event_shard (e : Event) : option nat :=
  match e with Queued _ i _ | Published i _ _ => Some i | Refused r => r | Returned _ _ => None end.
Definition shards_valid (es : list Event) : Prop :=
  Forall (λ e, ∀ i, event_shard e = Some i → (i < kProducerShardCount)%nat) es.

Record inv (es : list Event) (s : t) : Prop := {
  inv_owners : owners s;
  inv_memory : memory s;
  inv_queues : queues_exact es s;
  inv_counts : counts es s;
  inv_marks : marks s;
  inv_once : stops_once s;
  inv_shards : shards_valid es
}.

Lemma launched_inv s : launched s → inv [] s.
Proof.
  intros [s0 g s1 [Hrun Hlen Hout Hpub Hst] Hreg Hstart]. unfold start in Hstart. rewrite Hrun in Hstart.
  cbn [negb] in Hstart. injection Hstart as <-.
  assert (∀ i, ((λ _ : ProducerShard, fresh_shard) <$> shards_ s0) !!! i = fresh_shard) as Hfresh.
  { intros i. rewrite list_lookup_total_alt, list_lookup_fmap. by destruct (shards_ s0 !! i). }
  split; [split|split| |split| |split|constructor]; cbn.
  - by rewrite length_fmap.
  - done.
  - intros tid i [Hr _]. apply Hreg in Hr. cbn in Hr. lia.
  - intros tid tid' i [Hr _]. apply Hreg in Hr. cbn in Hr. lia.
  - intros tid i. cbn. by rewrite Hout.
  - intros tid d. by rewrite Hout.
  - intros i. rewrite Hfresh. split; cbn; try lia; [done|]. by apply Forall_singleton.
  - apply view_le_none.
  - intros i. by rewrite Hfresh.
  - done.
  - apply Forall_singleton, view_le_none.
  - apply Forall_singleton, view_le_none.
  - by rewrite Hst.
  - intros i. unfold given. cbn. by rewrite Hfresh.
  - done.
  - done.
  - intros i. by rewrite Hfresh.
  - intros i. exists 0. rewrite Hfresh. split; [|done]. right. split; [done|]. intros tid. cbn. by rewrite Hout.
  - intros tid. by rewrite Hout.
  - intros i. cbn. rewrite Hfresh. cbn. split; [done|by left].
  - by exists [].
  - rewrite Hst. by intros [?|?].
Qed.

Lemma shards_step s s' es : owners s → memory s → step s s' es → shards_valid es.
Proof.
  intros Ho Hm Hs. pose proof (owners_uses s Ho) as Huse. unfold shards_valid.
  destruct Hs; try specialize (Huse tid); rewrite ?Forall_cons; cbn; try apply Forall_nil_2;
    (split; [|try split; try apply Forall_nil_2; done]); intros j [= <-]; try done.
  all: try (rewrite H in Huse; by destruct (Huse _ eq_refl)).
  by destruct (mem_ring s Hm i) as [? _]; [rewrite H|].
Qed.

Lemma inv_step es s m es' s' :
  inv es s → exec m s = Some (s', es') → next_producer_shard_ s + 1 < 2 ^ 64 → inv (es ++ es') s'.
Proof.
  intros [Ho Hmem Hq Hc Hm Hst Hsh] He Hn. apply exec_spec in He; [|apply (owners_next _ Ho)].
  split.
  - by eapply owners_step.
  - by eapply memory_step.
  - by eapply queues_step.
  - by eapply counts_step.
  - by eapply marks_step.
  - by eapply once_step.
  - apply Forall_app. split; [done|by eapply shards_step].
Qed.

Lemma interleaving_inv s0 es s : inv [] s0 → trace s0 es s → inv es s.
Proof. intros H0. induction 1 as [|es s m es' s' _ IH He Hn]; [done|]. by eapply inv_step. Qed.

Lemma trace_app s0 es s es' s' : trace s0 es s → trace s es' s' → trace s0 (es ++ es') s'.
Proof.
  intros Ht. induction 1 as [|es' s1 m es'' s2 _ IH He Hn]; [by rewrite (right_id_L [] (++))|].
  rewrite (assoc_L (++)). by eapply trace_move.
Qed.

(* after stop has joined the publisher thread, start can be called again *)
Lemma rests_again es s : inv es s → publisher s = Joined → stopper s = NotStopping →
  (∀ tid, sending (threads s tid) = Outside) → resting s.
Proof.
  intros Hi Hp Hst Hout. split; [|apply (owners_length _ (inv_owners _ _ Hi))|done|done|done].
  apply (once_stopping _ (inv_once _ _ Hi)). left. by rewrite Hp.
Qed.

Lemma play_cons m ms s es s' :
  play (m :: ms) s = Some (es, s') ↔ ∃ es1 s1 es2, exec m s = Some (s1, es1) ∧
    next_producer_shard_ s + 1 < 2 ^ 64 ∧ play ms s1 = Some (es2, s') ∧ es = es1 ++ es2.
Proof.
  cbn [play]. rewrite bind_Some. split.
  - intros ([s1 es1] & He & H). case_guard as Hn; [|done]. cbn in H.
    apply bind_Some in H as ([es2 s2] & Hp & [= <- <-]). eauto 10.
  - intros (es1 & s1 & es2 & He & Hn & Hp & ->). exists (s1, es1). split; [done|].
    rewrite option_guard_True by done. cbn. by rewrite Hp.
Qed.

Lemma moves_trace ms s es s' : play ms s = Some (es, s') → trace s es s'.
Proof.
  revert s es. induction ms as [|m ms IH]; intros s es; [intros [= <- <-]; constructor|].
  intros (es1 & s1 & es2 & He & Hn & Hp & ->)%play_cons. apply (trace_app s es1 s1).
  - change es1 with ([] ++ es1). by eapply trace_move; [constructor|..].
  - by apply IH.
Qed.

End MulticastInvariant.
