(* ===== verification/MulticastDelivery.v ===== *)
(** * What the multicast publisher delivers, counts and drains *)
From S2P Require Import Prelude Bytes Multicast MulticastInvariant.

Module MulticastDelivery.
Import MulticastPublisher MulticastInvariant.

(** ** Stopping *)

(* what was stored in running_ after start came after [told] *)
Definition told_of (told : View) (flag : Flag) : Prop :=
  ∀ k view, flag !! k = Some (false, view) → view_le told view.

Definition ended (s : t) : Prop := publisher s = Exited ∨ publisher s = Joined.

(* [told]: the datagrams that the caller of stop knew to be queued *)
Record drains (told : View) (s : t) : Prop := {
  drain_told : ended s ∨ stopper s ≠ NotStopping ∧ told_of told (running_ s);
  drain_queues : ∀ c k, publisher s = DrainQueues c k →
    view_le told (known_stored (known s)) ∧ ∀ i, (i < k)%nat → (told i ≤ consumed (shards_ s !!! i))%nat;
  drain_senders : ∀ c k, publisher s = DrainSenders c k → ∀ i, (told i ≤ consumed (shards_ s !!! i))%nat;
  drain_ended : ended s → ∀ i, (told i ≤ consumed (shards_ s !!! i))%nat
}.

(* steps that leave the publisher thread alone *)
Lemma drains_same told s s' : drains told s → publisher s' = publisher s → known s' = known s →
  (∀ i, consumed (shards_ s' !!! i) = consumed (shards_ s !!! i)) →
  (ended s ∨ stopper s' ≠ NotStopping ∧ told_of told (running_ s')) → drains told s'.
Proof.
  intros [H1 H2 H3 H4] Hp Hk Hc Ht. unfold ended in *. split; unfold ended; rewrite ?Hp, ?Hk; try done; setoid_rewrite Hc; done.
Qed.

(* the publisher thread has moved, and is not about to end *)
Lemma drains_moved told s s' : drains told s → ¬ ended s → stopping (publisher s') = false →
  running_ s' = running_ s → stopper s' = stopper s → drains told s'.
Proof.
  intros [[?|[H1 H2]] _ _ _] Hn Hs Hr Hst; [done|].
  split; [right; by rewrite Hr, Hst|intros c k Hp; by rewrite Hp in Hs..|].
  intros [Hp|Hp]; by rewrite Hp in Hs.
Qed.

(* a shard has been found empty by a thread that knows of the datagrams *)
Lemma finds_drained told s i k x : view_le told (known_stored (known s)) → learns s i k x →
  (k ≤ consumed (shards_ s !!! i))%nat → (told i ≤ consumed (shards_ s !!! i))%nat.
Proof. intros Ht [_ Hk] Hc. specialize (Ht i). lia. Qed.

(* it knows more after it has looked *)
Lemma knows_told told s p x : memory s → publisher_looks s p x → view_le told (known_stored (known s)) →
  view_le told (known_stored x).
Proof. intros Hm Hl Ht. eapply view_le_trans; [exact Ht|]. by destruct (looks_known s p x Hm Hl) as (_ & ? & _). Qed.

Lemma looks_ended s p x : publisher_looks s p x → ¬ ended s.
Proof.
  intros Hl. unfold ended. intros He.
  destruct Hl; repeat match goal with H : _ ∨ _ |- _ => destruct H end; congruence.
Qed.

Lemma drains_looks told s p x : owners s → memory s → drains told s → publisher_looks s p x →
  drains told (set_publisher p (set_known x s)).
Proof.
  intros Ho Hm Hd Hl. pose proof (looks_ended s p x Hl) as Hne. pose proof (knows_told told s p x Hm Hl) as Hx.
  pose proof Hd as [[|[Hst Ht]] Dq Ds De]; [done|].
  destruct (stopping p) eqn:Hp; [|by apply (drains_moved told s)].
  destruct Hl; try done; try (by destruct b).
  - (* idle_stopped *)
    split; cbn; [by right| |done|by intros [?|?]]. intros c j [= <- <-]. split; [|lia].
    intros i. cbn. unfold join. specialize (Ht k view H0 i). lia.
  - (* queues_next *)
    destruct (Dq _ _ H) as [D1 D2]. split; cbn; [by right| |done|by intros [?|?]]. intros c j [= <- <-].
    split; [by apply Hx|]. intros l Hl. destruct (decide (l = i)) as [->|]; [by eapply finds_drained|apply D2; lia].
  - (* queues_end *)
    destruct (Dq _ _ H) as [D1 D2]. split; cbn; [by right|done| |by intros [?|?]]. intros c j _ l.
    change (shards_ (set_publisher ?q ?s1)) with (shards_ s).
    destruct (decide (l < kProducerShardCount)%nat); [apply D2; lia|].
    pose proof (mem_known s Hm l) as Hk. specialize (D1 l). unfold pushes in Hk.
    rewrite (shard_outside s l Ho) in * by lia. cbn in *. lia.
  - (* senders_next *)
    split; cbn; [by right|done| |by intros [?|?]]. intros c j _. exact (Ds _ _ H).
  - (* senders_end *)
    split; cbn; [by right|done|done|]. intros _. exact (Ds _ _ H).
Qed.

Lemma told_more told flag view : told_of told flag → view_le told view → told_of told (flag ++ [(false, view)]).
Proof. intros Hf Hv k w [Hk|[_ Hk]]%lookup_app_Some; [by eapply Hf|]. apply list_lookup_singleton_Some in Hk as [_ [= <-]]. done. Qed.

Lemma drains_step told s s' es : owners s → memory s → drains told s → step s s' es → drains told s'.
Proof.
  intros Ho Hm Hd Hs. pose proof Hd as [Ht Dq Ds De]. destruct Hs; try step_notify.
  all: try (apply (drains_same told s); [exact Hd|done|done
    |intros j; by first [done|apply (field_update consumed)]|exact Ht]).
  - (* notifies *)
    destruct H1 as [[-> _]|(c & Hc & ->)]; [by apply (drains_same told s)|].
    apply (drains_moved told s); [done| |done..]. unfold ended. rewrite Hc. by intros [?|?].
  - by apply drains_looks.
  - apply (drains_moved told s); [done| |done..]. unfold ended. rewrite H. by intros [?|?].
  - apply (drains_moved told s); [done| |done..]. unfold ended. rewrite H. by intros [?|?].
  - apply (drains_moved told s); [done| |done..]. unfold ended. rewrite H. by intros [?|?].
  - apply (drains_moved told s); [done| |done..]. unfold ended. rewrite H. by intros [?|?].
  - (* stops *)
    destruct Ht as [He|[Hst _]]; [|done]. apply (drains_same told s); [done..|by left].
  - (* stop_flags *)
    apply (drains_same told s); [done..|]. destruct Ht as [|[_ ?]]; [by left|by right].
  - (* stop_notifies *)
    destruct H1 as [[-> _]|(c & Hc & ->)].
    + apply (drains_same told s); [done..|]. destruct Ht as [|[_ ?]]; [by left|by right].
    + split; cbn; [|done|done|by intros [?|?]]. right. split; [done|].
      destruct Ht as [[He|He]|[_ ?]]; [congruence|congruence|done].
  - (* joins *)
    split; cbn; [by left; right|done|done|]. intros _. by apply De.
Qed.

Lemma drains_trace told es0 s es s' : inv es0 s → drains told s → trace s es s' →
  inv (es0 ++ es) s' ∧ drains told s'.
Proof.
  intros Hi Hd Ht. induction Ht as [|es s1 m es' s2 _ IH He Hn]; [by rewrite (right_id_L [] (++))|].
  destruct IH as [Hi1 Hd1]. rewrite (assoc_L (++)). split; [by eapply inv_step|].
  pose proof (inv_owners _ _ Hi1) as Ho. eapply drains_step; [exact Ho|apply (inv_memory _ _ Hi1)|exact Hd1|].
  eapply exec_spec; [exact He|apply (owners_next _ Ho)].
Qed.

(* the call of stop *)
Lemma stop_drains_from es s view : inv es s → (current (running_ s)).1 = true → stopper s = NotStopping →
  drains (λ i, view i `min` pushes s i)%nat (stop view s).
Proof.
  intros Hi Hr Hst. pose proof (inv_once _ _ Hi) as [(later & Hl & Hf) Hs].
  assert (stopping (publisher s) = false) as Hp.
  { apply not_true_is_false. intros Hp. rewrite Hs in Hr; [done|by left]. }
  assert (later = []) as ->.
  { destruct later as [|m later _] using rev_ind; [done|]. rewrite Hl, app_comm_cons, current_snoc in Hr.
    apply Forall_app in Hf as [_ Hf]. apply Forall_cons in Hf as [Hf _]. congruence. }
  assert (publisher (stop view s) = publisher s) as Hsame by done.
  split; unfold ended; rewrite ?Hsame; [right|intros c k Hc; by rewrite Hc in Hp..|intros [Hc|Hc]; by rewrite Hc in Hp].
  split; [done|]. unfold stop. cbn [running_ set_stopper store_running]. rewrite Hl. intros [|[|k]] v; cbn; try done. intros [= <-] i. done.
Qed.

(** ** When the shards have run out *)

(* the thread has no shard in this generation *)
Definition without_shard (tid : Z) (s : t) : Prop :=
  ∀ i, producer_registration (threads s tid) ≠ Some (generation_ s, i).

Definition outsider (tid : Z) (s : t) : Prop :=
  Z.of_nat kProducerShardCount ≤ next_producer_shard_ s ∧ (∀ i, ¬ owns s tid i) ∧
  uses (sending (threads s tid)) = None ∧ granted (sending (threads s tid)) = false.

Lemma outsider_step tid s s' es :
  next_producer_shard_ s + 1 < 2 ^ 64 → outsider tid s → step s s' es →
  outsider tid s' ∧ tally (is_success tid) es = 0.
Proof.
  intros Hn (Hge & Hno & Huse & Hg) Hs.
  assert (∀ k pc s1 es1, (k = tid → uses pc = None ∧ granted pc = false) → threads s1 = threads s →
    generation_ s1 = generation_ s → next_producer_shard_ s ≤ next_producer_shard_ s1 →
    tally (is_success tid) es1 = 0 → outsider tid (goto k pc s1) ∧ tally (is_success tid) es1 = 0) as Hgoto.
  { intros k pc s1 es1 Hpc Ht Hgen Hnext Hes. split; [|done]. split; [cbn; lia|].
    split; [|rewrite sending_goto, Ht; destruct (decide (tid = k)) as [<-|]; [by apply Hpc|by split]].
    intros i [Hr Hlt]. apply (Hno i). split; [|done]. rewrite registration_goto, Ht in Hr.
    change (generation_ (goto k pc s1)) with (generation_ s1) in Hr. by rewrite Hgen in Hr. }
  destruct Hs as [k|k|k|k|k|k|k|k|k|k|k|k|k|k|k|k|k|k|k|k|k| | | | | | | | |]; try step_notify.
  all: try (apply Hgoto; [intros ->; by first [rewrite H in *|destruct H as [H|H]; rewrite H in *]|done|done|cbn; lia|done]).
  all: try (exfalso; lia).
  all: try (by repeat split).
  all: try (assert (k ≠ tid) as Hk by (intros ->; by rewrite H in Hg);
    apply Hgoto; [done|done|done|cbn; lia|]; by rewrite tally_success, decide_False).
  - apply Hgoto; [intros ->; by destruct (Hno i)|done|done|cbn; lia|done].
  - apply Hgoto; [done|done|done| |done].
    change (next_producer_shard_ (take_shard s)) with (u64 (next_producer_shard_ s + 1)).
    rewrite u64_id; [lia|]. unfold in_u64. unfold kProducerShardCount in Hge. lia.
Qed.

Lemma outsider_trace tid es0 s es s' :
  inv es0 s → outsider tid s → trace s es s' → tally (is_success tid) es = 0.
Proof.
  intros Hi Ho Ht. enough (inv (es0 ++ es) s' ∧ outsider tid s' ∧ tally (is_success tid) es = 0) by tauto.
  induction Ht as [|es s1 m es' s2 _ IH He Hn]; [by rewrite (right_id_L [] (++))|].
  destruct IH as (Hi1 & Ho1 & Ht1). rewrite (assoc_L (++)), tally_app, Ht1. split; [by eapply inv_step|].
  eapply outsider_step; [exact Hn|exact Ho1|].
  eapply exec_spec; [exact He|apply (owners_next _ (inv_owners _ _ Hi1))].
Qed.

(** ** The statistics *)

(* the shards by their index *)
Lemma shards_seq s : owners s →
  shards_ s = (λ i, shards_ s !!! i) <$> seq 0 kProducerShardCount.
Proof.
  intros Ho. apply list_eq. intros i. rewrite list_lookup_fmap. pose proof (owners_length _ Ho) as Hl.
  destruct (decide (i < kProducerShardCount)%nat).
  - rewrite lookup_seq_lt by done. cbn. by apply list_lookup_lookup_total_lt; rewrite Hl.
  - rewrite (proj2 (lookup_ge_None _ _)) by lia. rewrite lookup_seq_ge by lia. done.
Qed.

Lemma sum_zero {A} (f : A → Z) (l : list A) : (∀ x, f x = 0) → sum_Z (f <$> l) = 0.
Proof.
  intros Hf. induction l as [|x l IH]; [done|]. rewrite fmap_cons.
  change (sum_Z (f x :: (f <$> l))) with (f x + sum_Z (f <$> l)). by rewrite Hf, IH.
Qed.

Lemma sum_tally_cons (p : nat → Event → bool) e es (ix : list nat) :
  sum_Z ((λ i, tally (p i) (e :: es)) <$> ix) =
  sum_Z ((λ i, if p i e then 1 else 0) <$> ix) + sum_Z ((λ i, tally (p i) es) <$> ix).
Proof.
  induction ix as [|i ix IH]; [done|]. rewrite !fmap_cons.
  assert (∀ z l, sum_Z (z :: l) = z + sum_Z l) as Hc by done. rewrite !Hc, IH.
  change (e :: es) with ([e] ++ es). rewrite tally_app.
  rewrite tally_one. lia.
Qed.

Lemma sum_indicator j n m : sum_Z ((λ i, if bool_decide (j = i) then 1 else 0) <$> seq n m) =
  if decide (n ≤ j < n + m)%nat then 1 else 0.
Proof.
  revert n. induction m as [|m IH]; intros n; cbn [seq].
  - cbn. by rewrite decide_False by lia.
  - rewrite fmap_cons. change (sum_Z (?z :: ?l)) with (z + sum_Z l). rewrite IH.
    case_bool_decide; repeat case_decide; lia.
Qed.

(* the events of a kind, shard by shard *)
Lemma sum_tally (p : nat → Event → bool) (q : Event → bool) es :
  shards_valid es →
  (∀ e, q e = false ∧ (∀ i, p i e = false) ∨
        q e = true ∧ ∃ j, event_shard e = Some j ∧ ∀ i, p i e = bool_decide (j = i)) →
  sum_Z ((λ i, tally (p i) es) <$> seq 0 kProducerShardCount) = tally q es.
Proof.
  intros Hv Hpq. induction Hv as [|e es He Hv IH].
  - by apply sum_zero.
  - rewrite sum_tally_cons, IH. change (e :: es) with ([e] ++ es). rewrite tally_app.
    enough (sum_Z ((λ i, if p i e then 1 else 0) <$> seq 0 kProducerShardCount) = tally q [e]) by lia.
    rewrite tally_one. destruct (Hpq e) as [[-> Hno]|(-> & j & Hj & Hp)].
    + apply sum_zero. intros i. by rewrite Hno.
    + assert ((λ i, if p i e then 1 else 0) <$> seq 0 kProducerShardCount =
        (λ i, if bool_decide (j = i) then 1 else 0) <$> seq 0 kProducerShardCount) as ->.
      { apply list_fmap_ext. intros ? i _. by rewrite Hp. }
      rewrite sum_indicator, decide_True; [done|]. specialize (He j Hj). lia.
Qed.

Lemma sum_fmap_add {A} (f g : A → Z) l : sum_Z ((λ x, f x + g x) <$> l) = sum_Z (f <$> l) + sum_Z (g <$> l).
Proof.
  induction l as [|x l IH]; [done|]. rewrite !fmap_cons.
  change (sum_Z (?z :: ?l')) with (z + sum_Z l'). rewrite IH. lia.
Qed.

Lemma sum_fmap_le {A} (f g : A → Z) l : (∀ x, f x ≤ g x) → sum_Z (f <$> l) ≤ sum_Z (g <$> l).
Proof.
  intros Hfg. induction l as [|x l IH]; [done|]. rewrite !fmap_cons.
  change (sum_Z (?z :: ?l')) with (z + sum_Z l'). specialize (Hfg x). lia.
Qed.

Lemma sum_fmap_const {A} (b : Z) (l : list A) : sum_Z ((λ _, b) <$> l) = b * Z.of_nat (length l).
Proof.
  induction l as [|x l IH]; [cbn; lia|]. rewrite fmap_cons.
  change (sum_Z (?z :: ?l')) with (z + sum_Z l'). rewrite IH. cbn [length]. lia.
Qed.

Definition is_queueing (e : Event) : bool := match e with Queued _ _ _ => true | _ => false end.
Definition is_publishing (e : Event) : bool := match e with Published _ _ _ => true | _ => false end.
Definition is_refusal (e : Event) : bool := match e with Refused _ => true | _ => false end.
Definition is_published (i : nat) (e : Event) : bool :=
  match e with Published j _ _ => bool_decide (j = i) | _ => false end.

Lemma tally_queued_length i es : tally (is_queued i) es = Z.of_nat (length (queued i es)).
Proof.
  induction es as [|e es IH]; [done|]. change (e :: es) with ([e] ++ es).
  unfold queued. rewrite tally_app, tally_one, IH, omap_app, length_app. unfold queued.
  destruct e as [k j d| | |]; cbn; [|lia..]. case_decide; case_bool_decide; try done; cbn; lia.
Qed.

Lemma tally_published_length i es : tally (is_published i) es = Z.of_nat (length (published i es)).
Proof.
  induction es as [|e es IH]; [done|]. change (e :: es) with ([e] ++ es).
  unfold published. rewrite tally_app, tally_one, IH, omap_app, length_app. unfold published.
  destruct e as [|j d ok| |]; cbn; [lia| |lia..]. case_decide; case_bool_decide; try done; cbn; lia.
Qed.

Lemma tally_split (p q r : Event → bool) es :
  (∀ e, (if p e then 1 else 0) = (if q e then 1 else 0) + (if r e then 1 else 0)) →
  tally p es = tally q es + tally r es.
Proof.
  intros Hp. induction es as [|e es IH]; [done|]. change (e :: es) with ([e] ++ es).
  rewrite !tally_app, !tally_one, Hp. lia.
Qed.

(* what waits in a ring, from the events, when the publisher thread is in none *)
Lemma depth_events es s i : memory s → queues_exact es s → in_hand (publisher s) = None →
  Z.of_nat (depth_of (shards_ s !!! i)) = tally (is_queued i) es - tally (is_published i) es.
Proof.
  intros Hm Hq Hp. destruct (Hq i) as [He Hl]. rewrite tally_queued_length, tally_published_length, Hl, He.
  rewrite length_take, length_fmap. unfold given, depth_of. rewrite Hp, decide_False by done.
  pose proof (ok_consumed _ (mem_shards s Hm i)). lia.
Qed.

Lemma depth_capacity s i : memory s → 0 ≤ Z.of_nat (depth_of (shards_ s !!! i)) ≤ kQueueCapacityPerProducer.
Proof. intros Hm. destruct (mem_shards s Hm i). unfold depth_of. lia. Qed.

Lemma sum_queued es : shards_valid es →
  sum_Z ((λ i, tally (is_queued i) es) <$> seq 0 kProducerShardCount) = tally is_queueing es.
Proof.
  intros Hv. apply sum_tally; [done|]. intros [k j d|j d ok|r|k b]; cbn; [right|left..]; try by split.
  split; [done|]. by exists j.
Qed.

Lemma sum_published es : shards_valid es →
  sum_Z ((λ i, tally (is_published i) es) <$> seq 0 kProducerShardCount) = tally is_publishing es.
Proof.
  intros Hv. apply sum_tally; [done|]. intros [k j d|j d ok|r|k b]; cbn; [left|right|left..]; try by split.
  split; [done|]. by exists j.
Qed.

Lemma sum_dropped es : shards_valid es →
  tally is_rejection es + sum_Z ((λ i, tally (is_drop i) es) <$> seq 0 kProducerShardCount) = tally is_refusal es.
Proof.
  intros Hv. rewrite (sum_tally _ (λ e, match e with Refused (Some _) => true | _ => false end)); [|done|].
  - symmetry. apply tally_split. by intros [k j d|j d ok|[r|]|k b].
  - intros [k j d|j d ok|[r|]|k b]; cbn; [left|left|right|left..]; try by split. split; [done|]. by exists r.
Qed.

Lemma total_fmap {A B} (f : B → Z) (g : A → B) a (l : list A) : total f a (g <$> l) = total (λ x, f (g x)) a l.
Proof. unfold total. revert a. induction l as [|x l IH]; intros a; [done|]. apply IH. Qed.

(* [total] as a sum of what the counters count *)
Lemma total_seq s f g a : owners s →
  (∀ i, f (shards_ s !!! i) = u64 (g i)) →
  total f (u64 a) (shards_ s) = u64 (a + sum_Z (g <$> seq 0 kProducerShardCount)).
Proof.
  intros Ho Hf. rewrite (shards_seq s Ho) at 1. generalize (seq 0 kProducerShardCount). intros ix.
  unfold total. revert a. induction ix as [|i ix IH]; intros a; [cbn; by rewrite Z.add_0_r|].
  rewrite !fmap_cons. cbn [foldl]. change (sum_Z (?z :: ?l)) with (z + sum_Z l). rewrite Hf.
  assert (u64 (u64 a + u64 (g i)) = u64 (a + g i)) as -> by (unfold u64; by rewrite <- Zplus_mod).
  rewrite IH. f_equal. lia.
Qed.

(* a sum over the shards that stays below the capacity *)
Lemma total_small {A} (f : A → Z) (l : list A) : (length l ≤ kProducerShardCount)%nat →
  (∀ x, 0 ≤ f x ≤ kQueueCapacityPerProducer) →
  total f 0 l = sum_Z (f <$> l) ∧ 0 ≤ sum_Z (f <$> l) ≤ Z.of_nat kProducerShardCount * kQueueCapacityPerProducer.
Proof.
  intros Hl Hf.
  assert (∀ l, 0 ≤ sum_Z (f <$> l) ≤ kQueueCapacityPerProducer * Z.of_nat (length l)) as Hsum.
  { intros l'. pose proof (sum_fmap_le (λ _, 0) f l' ltac:(intros; apply Hf)) as H1.
    pose proof (sum_fmap_le f (λ _, kQueueCapacityPerProducer) l' ltac:(intros; apply Hf)) as H2.
    rewrite sum_fmap_const in H1, H2. lia. }
  split; [|specialize (Hsum l); unfold kQueueCapacityPerProducer in *; lia].
  enough (∀ a, 0 ≤ a → a + kQueueCapacityPerProducer * Z.of_nat (length l) < 2 ^ 64 →
    total f a l = a + sum_Z (f <$> l)) as H.
  { rewrite H; [lia|lia|]. unfold kQueueCapacityPerProducer, kProducerShardCount in *. lia. }
  clear Hl. unfold total. induction l as [|x l IH]; intros a Ha Hb; [cbn; lia|]. cbn [foldl length] in *.
  rewrite fmap_cons. change (sum_Z (?z :: ?l')) with (z + sum_Z l'). specialize (Hf x).
  unfold kQueueCapacityPerProducer in *. rewrite u64_id by (unfold in_u64; lia). rewrite IH by lia. lia.
Qed.

Lemma depth_loads l : (length (loaded_shards l) ≤ kProducerShardCount)%nat →
  0 ≤ stat_queue_depth (stats l) ≤ Z.of_nat kProducerShardCount * kQueueCapacityPerProducer.
Proof.
  intros Hl. cbn. unfold aggregate_queue_depth.
  destruct (total_small (λ p, size_approx (loaded_write p) (loaded_read p)) (loaded_shards l)) as [-> ?]; [done| |done].
  intros p. apply size_approx_bound.
Qed.

(* the shards as a list of what is read of each *)
Lemma shards_sum s (f : ProducerShard → Z) : owners s →
  sum_Z (f <$> shards_ s) = sum_Z ((λ i, f (shards_ s !!! i)) <$> seq 0 kProducerShardCount).
Proof. intros Ho. rewrite (shards_seq s Ho) at 1. by rewrite <- list_fmap_compose. Qed.

Lemma latest_depth s : owners s → memory s →
  stat_queue_depth (stats (latest s)) =
    sum_Z ((λ i, Z.of_nat (depth_of (shards_ s !!! i))) <$> seq 0 kProducerShardCount).
Proof.
  intros Ho Hm. unfold stats, latest, aggregate_queue_depth. cbn [stat_queue_depth loaded_shards].
  rewrite total_fmap. cbn [loaded_write loaded_read latest_shard].
  destruct (total_small (λ p, size_approx (u64 (Z.of_nat (length (stored p)))) (u64 (Z.of_nat (consumed p)))) (shards_ s)) as [-> _].
  - by rewrite (owners_length _ Ho).
  - intros p. apply size_approx_bound.
  - rewrite shards_sum by done. f_equal. apply list_fmap_ext. intros ? i _.
    destruct (mem_shards s Hm i) as [M1 M2 M3 _]. rewrite size_approx_exact by lia. unfold depth_of. lia.
Qed.

Lemma latest_max_depth s : owners s → marks s →
  stat_max_queue_depth (stats (latest s)) =
    sum_Z ((λ i, max_depth (shards_ s !!! i)) <$> seq 0 kProducerShardCount) ∧
  stat_max_queue_depth (stats (latest s)) ≤ Z.of_nat kProducerShardCount * kQueueCapacityPerProducer.
Proof.
  intros Ho Hm.
  assert (stat_max_queue_depth (stats (latest s)) = total (λ i, max_depth (shards_ s !!! i)) 0 (seq 0 kProducerShardCount)) as ->.
  { unfold stats, latest. cbn [stat_max_queue_depth loaded_shards]. rewrite total_fmap.
    cbn [loaded_max_depth latest_shard]. rewrite (shards_seq s Ho) at 1. by rewrite total_fmap. }
  destruct (total_small (λ i, max_depth (shards_ s !!! i)) (seq 0 kProducerShardCount)) as [-> ?]; [| |split; [done|lia]].
  - by rewrite length_seq.
  - intros i. apply Hm.
Qed.

Lemma depth_spec es s : inv es s → in_hand (publisher s) = None →
  stat_queue_depth (stats (latest s)) = tally is_queueing es - tally is_publishing es.
Proof.
  intros Hi Hp. pose proof (inv_shards _ _ Hi) as Hv.
  rewrite latest_depth by (apply Hi). rewrite <- (sum_queued es Hv), <- (sum_published es Hv).
  assert (∀ ix : list nat, sum_Z ((λ i, Z.of_nat (depth_of (shards_ s !!! i))) <$> ix) =
    sum_Z ((λ i, tally (is_queued i) es) <$> ix) - sum_Z ((λ i, tally (is_published i) es) <$> ix)) as Hsum; [|apply Hsum].
  intros ix. induction ix as [|i ix IH]; [done|]. rewrite !fmap_cons.
  assert (∀ z l, sum_Z (z :: l) = z + sum_Z l) as Hc by done. rewrite !Hc, IH.
  rewrite (depth_events es s i) by (done || apply Hi). lia.
Qed.

Lemma max_depth_spec es s : inv es s → (∀ tid, sending (threads s tid) = Outside) →
  stat_queue_depth (stats (latest s)) ≤ stat_max_queue_depth (stats (latest s)).
Proof.
  intros Hi Hout. destruct (latest_max_depth s) as [-> _]; [apply Hi..|]. rewrite latest_depth by apply Hi.
  apply sum_fmap_le. intros i. destruct (inv_marks _ _ Hi i) as [_ [?|[tid Ht]]]; [done|]. by rewrite Hout in Ht.
Qed.

Lemma counters_spec es s : inv es s → (∀ tid, sending (threads s tid) = Outside) →
  stat_enqueued (stats (latest s)) = u64 (tally is_queueing es) ∧
  stat_dropped (stats (latest s)) = u64 (tally is_refusal es).
Proof.
  intros Hi Hout. pose proof (inv_counts _ _ Hi) as Hc. pose proof (inv_owners _ _ Hi) as Ho.
  pose proof (inv_shards _ _ Hi) as Hv. unfold stats, latest. cbn [stat_enqueued stat_dropped loaded_shards loaded_rejected].
  rewrite !total_fmap, (count_rejections _ _ Hc). cbn [loaded_enqueued loaded_dropped latest_shard].
  rewrite <- (sum_queued es Hv), <- (sum_dropped es Hv). split.
  - apply (total_seq s enqueued _ 0); [done|]. intros i.
    destruct (count_queued _ _ Hc i) as (n & [[_ [tid Ht]]|[-> _]] & He); [by rewrite Hout in Ht|].
    by rewrite He, Z.sub_0_r.
  - apply (total_seq s dropped); [done|]. apply (count_drops _ _ Hc).
Qed.

Lemma sents_spec es s : inv es s → in_hand (publisher s) = None →
  stat_sent (stats (latest s)) = u64 (tally is_sent es) ∧ stat_send_errors (stats (latest s)) = u64 (tally is_error es).
Proof.
  intros Hi Hp. destruct (count_sents _ _ (inv_counts _ _ Hi)) as [H1 H2]. cbn. rewrite H1, H2.
  destruct (publisher s); try done; by rewrite !Z.sub_0_r.
Qed.

(** ** Correctness *)

(** C29. The publisher as its clients and its operator see it, under every
    interleaving and for all that its loads may return in a memory with release
    and acquire orders.  No two threads are ever in the ring of one shard, which
    is what the ring asks for.  Each shard delivers its datagrams whole, in
    order, once: what was queued in it is what was given to sendto followed by
    what is waiting, at most 32 datagrams.  send returns true to a thread exactly
    once for each datagram it queued.  When no thread is in send, the publisher
    thread is not between sendto and the release of the slot, and stats reads the
    last value of every counter, the statistics are exact: what was enqueued,
    dropped, sent and failed, with the datagrams enqueued being those sent,
    failed or waiting, and a depth that its high-water mark and the total
    capacity bound.  At any other moment, and whatever its relaxed loads return,
    the depth it reports is between 0 and the total capacity. *)
Theorem publisher_exact s0 es s :
  launched s0 → trace s0 es s →
  (∀ tid tid' i, uses (sending (threads s tid)) = Some i → uses (sending (threads s tid')) = Some i → tid = tid') ∧
  (∀ i, queued i es = published i es ++ waiting s i ∧
        Z.of_nat (length (waiting s i)) ≤ kQueueCapacityPerProducer) ∧
  (∀ tid, tally (is_granted tid) es =
          tally (is_success tid) es + (if granted (sending (threads s tid)) then 1 else 0)) ∧
  ((∀ tid, sending (threads s tid) = Outside) → in_hand (publisher s) = None →
   let l := stats (latest s) in
   stat_enqueued l = u64 (tally is_queueing es) ∧ stat_dropped l = u64 (tally is_refusal es) ∧
   stat_sent l = u64 (tally is_sent es) ∧ stat_send_errors l = u64 (tally is_error es) ∧
   tally is_queueing es = tally is_sent es + tally is_error es + stat_queue_depth l ∧
   stat_queue_depth l ≤ stat_max_queue_depth l ≤ Z.of_nat kProducerShardCount * kQueueCapacityPerProducer) ∧
  (∀ l, (length (loaded_shards l) ≤ kProducerShardCount)%nat →
   0 ≤ stat_queue_depth (stats l) ≤ Z.of_nat kProducerShardCount * kQueueCapacityPerProducer).
Proof.
  intros Hl Ht. pose proof (interleaving_inv _ _ _ (launched_inv _ Hl) Ht) as Hi.
  pose proof (inv_owners _ _ Hi) as Ho. pose proof (inv_counts _ _ Hi) as Hc.
  split; [|split; [|split; [|split; [|exact depth_loads]]]].
  - intros tid tid' i H1 H2. by apply (owners_unique _ Ho tid tid' i); apply (owners_uses _ Ho).
  - intros i. apply queues_split; apply Hi.
  - apply (count_granted _ _ Hc).
  - intros Hout Hp l. destruct (counters_spec es s Hi Hout). destruct (sents_spec es s Hi Hp).
    pose proof (depth_spec es s Hi Hp). split; [done|]. split; [done|]. split; [done|]. split; [done|].
    split; [|split; [by apply (max_depth_spec es)|by apply latest_max_depth; apply Hi]].
    subst l. rewrite H3, (tally_split is_publishing is_sent is_error); [lia|]. by intros [k j d|j d [|]|r|k b].
Qed.

(** C30. Stopping loses nothing that its caller knew to be queued.  The caller
    of stop knows some of the datagrams, the first [view i] of shard i, to be
    queued: their sends are over and it has heard of that.  When the publisher
    thread has ended, whatever the threads do meanwhile and whatever the loads
    of running_, of the queues and of the senders return, these have been given
    to sendto, in order.  (That the thread does end is not claimed: see
    stop_hangs.) *)
Theorem stop_drains s0 es s view es' s' :
  launched s0 → trace s0 es s → (current (running_ s)).1 = true → stopper s = NotStopping →
  trace (stop view s) es' s' → ended s' → next_producer_shard_ s + 1 < 2 ^ 64 →
  ∀ i, take (view i) (queued i es) `prefix_of` published i (es ++ es').
Proof.
  intros Hl Ht Hr Hst Ht' He Hn i. pose proof (interleaving_inv _ _ _ (launched_inv _ Hl) Ht) as Hi.
  assert (inv es (stop view s)) as Hi1.
  { rewrite <- (right_id_L [] (++) es). apply (inv_step _ s (CallStop view)); [done| |done]. cbn. by rewrite Hst. }
  destruct (drains_trace _ es (stop view s) es' s' Hi1 (stop_drains_from es s view Hi Hr Hst) Ht') as [Hi' Hd].
  pose proof (drain_ended _ _ Hd He i) as Hc. cbn beta in Hc. destruct (inv_queues _ _ Hi i) as [Hq _].
  destruct (inv_queues _ _ Hi' i) as [_ ->]. unfold queued. rewrite omap_app. fold (queued i es).
  exists (drop (view i `min` pushes s i) (take (given s' i) (queued i es ++ queued i es'))).
  assert (length (queued i es) = pushes s i) as Hlen by (rewrite Hq; apply length_fmap).
  rewrite <- (take_drop (view i `min` pushes s i) (take _ _)) at 1. f_equal.
  rewrite take_take, Nat.min_l by (unfold given; lia). rewrite take_app_le by lia. rewrite <- Hlen.
  destruct (decide (view i ≤ length (queued i es))%nat); [by rewrite Nat.min_l|].
  rewrite Nat.min_r, !take_ge by lia. done.
Qed.

(** Shards are not given back.  Once the 256 shards of a generation have been
    taken, send refuses every datagram of every thread that has none, however
    long it goes on and whatever the threads that own the shards do; the
    server makes a thread for each connection. *)
Theorem shards_exhausted s0 es s tid es' s' :
  launched s0 → trace s0 es s → Z.of_nat kProducerShardCount ≤ next_producer_shard_ s →
  without_shard tid s → sending (threads s tid) = Outside →
  trace s es' s' → tally (is_success tid) es' = 0.
Proof.
  intros Hl Ht Hn Hreg Hout Ht'. eapply outsider_trace; [by apply (interleaving_inv s0); [apply launched_inv|]| |done].
  split; [done|]. split; [intros i [Hr _]; by apply (Hreg i)|]. by rewrite Hout.
Qed.

(** ** Witnesses *)

Definition demo_start : t := (start true true 1 new).2.

Lemma demo_launched : launched demo_start.
Proof. apply (launch new 1); [by split|done|reflexivity]. Qed.

(* a call of send, with what the load of each of its steps returns *)
Definition send_moves (tid : Z) (d : Datagram) (loads : list nat) : list Move :=
  CallSend tid d 0 :: ((λ k, StepSend tid k []) <$> loads).
(* what a call of send reads that tests wake_requested_ and finds value [k] *)
Definition send_loads (k : nat) : list nat := replicate 7 0%nat ++ [k].
Definition publisher_moves (loads : list nat) : list Move := (λ k, StepPublisher k true) <$> loads.

Definition plays (ms : list Move) (s : t) : bool :=
  match play ms s with Some _ => true | None => false end.
Definition then_played (ms : list Move) (s : t) : list Event * t :=
  match play ms s with Some r => r | None => ([], s) end.
Definition played (ms : list Move) : list Event * t := then_played ms demo_start.

Lemma then_played_trace ms s : plays ms s = true → trace s (then_played ms s).1 (then_played ms s).2.
Proof.
  unfold plays, then_played. destruct (play ms s) as [[es s']|] eqn:Hp; [|done]. intros _.
  by apply (moves_trace ms).
Qed.

Lemma played_trace ms : plays ms demo_start = true → trace demo_start (played ms).1 (played ms).2.
Proof. apply then_played_trace. Qed.

(* two threads send, one of them twice, and the publisher thread takes two *)
Definition demo_moves : list Move :=
  send_moves 1 [x41] (send_loads 0 ++ [0; 0]%nat) ++ send_moves 2 [x42] (send_loads 1) ++
  send_moves 1 [x43; x44] (send_loads 1) ++ publisher_moves [2; 0; 0; 0; 1]%nat ++
  [StepPublisher 0 false] ++ publisher_moves [0; 0]%nat.

Lemma demo_trace : trace demo_start (played demo_moves).1 (played demo_moves).2.
Proof. apply played_trace. vm_compute. reflexivity. Qed.

Lemma publisher_exact_witness :
  published 0 (played demo_moves).1 = [[x41]] ∧ waiting (played demo_moves).2 0 = [[x43; x44]] ∧
  stats (latest (played demo_moves).2) = mk_stats 3 1 0 1 1 3 2 0 ∧
  (queued 0 (played demo_moves).1 = published 0 (played demo_moves).1 ++ waiting (played demo_moves).2 0 ∧
   Z.of_nat (length (waiting (played demo_moves).2 0)) ≤ kQueueCapacityPerProducer).
Proof.
  split; [vm_compute; reflexivity|]. split; [vm_compute; reflexivity|]. split; [vm_compute; reflexivity|].
  exact (proj1 (proj2 (publisher_exact _ _ _ demo_launched demo_trace)) 0%nat).
Defined.

(* a send is over and the caller of stop knows it; the publisher thread reads
   an old value of every active_sender *)
Definition before_stop : list Event * t := played (send_moves 1 [x41] (send_loads 0 ++ [0; 0]%nat)).
Definition one_known : View := λ i, if decide (i = 0%nat) then 1%nat else 0%nat.
Definition stop_moves : list Move :=
  [StepStop; StepStop] ++
  publisher_moves ([1; 0; 0; 0] ++ replicate 255 0 ++ [1; 0; 1; 1] ++ replicate 256 0 ++ replicate 257 0)%nat.
Definition after_stop : list Event * t := then_played stop_moves (stop one_known before_stop.2).

Lemma stop_drains_witness :
  after_stop.1 = [Published 0 [x41] true] ∧ publisher after_stop.2 = Exited ∧
  take (one_known 0%nat) (queued 0 before_stop.1) = [[x41]] ∧
  take (one_known 0%nat) (queued 0 before_stop.1) `prefix_of` published 0 (before_stop.1 ++ after_stop.1).
Proof.
  split; [vm_compute; reflexivity|]. split; [vm_compute; reflexivity|]. split; [vm_compute; reflexivity|].
  apply (stop_drains demo_start before_stop.1 before_stop.2 one_known after_stop.1 after_stop.2).
  - exact demo_launched.
  - apply played_trace. vm_compute. reflexivity.
  - vm_compute. reflexivity.
  - vm_compute. reflexivity.
  - apply then_played_trace. vm_compute. reflexivity.
  - left. vm_compute. reflexivity.
  - vm_compute. reflexivity.
Defined.

Definition crowd_moves : list Move :=
  concat ((λ tid, [CallSend tid [x41] 0; StepSend tid 0 []]) <$> seqZ 1 256).
Definition crowded : list Event * t := played crowd_moves.
Definition late : list Event * t := then_played (send_moves 300 [x42] [0; 0; 0]%nat) crowded.2.

Lemma shards_exhausted_witness :
  late.1 = [Refused None; Returned 300 false] ∧ tally (is_success 300) late.1 = 0.
Proof.
  split; [vm_compute; reflexivity|].
  apply (shards_exhausted demo_start crowded.1 crowded.2 300 late.1 late.2).
  - exact demo_launched.
  - apply played_trace. vm_compute. reflexivity.
  - vm_compute. discriminate.
  - intros i. vm_compute. discriminate.
  - vm_compute. reflexivity.
  - apply then_played_trace. vm_compute. reflexivity.
Defined.

(** ** What the memory orders allow *)

(* the publisher thread finds every queue empty, in a scan that starts at
   [cursor] with shard 0 holding [k] datagrams in its memory *)
Definition empty_scan (k : nat) : list nat := k :: replicate 255 0%nat.

(* With a send in progress stop can lose its datagram, even when every load
   returns the last value.  The thread has checked running_ for the second time;
   the publisher thread finds all queues empty; the thread queues its datagram
   and clears its active_sender; the publisher thread finds no active sender and
   ends; send returns true. *)
Definition losing_moves : list Move :=
  send_moves 1 [x41] [0; 0; 0]%nat ++ [CallStop no_view] ++
  publisher_moves (empty_scan 0 ++ [0; 1] ++ empty_scan 0 ++ [0])%nat ++
  replicate 2 (StepSend 1 0%nat []) ++ publisher_moves (empty_scan 2 ++ [0])%nat ++
  replicate 5 (StepSend 1 0%nat []) ++ replicate 3 StepStop.

Example stop_loses :
  publisher (played losing_moves).2 = Joined ∧
  (played losing_moves).1 = [Queued 1 0 [x41]; Returned 1 true] ∧
  published 0 (played losing_moves).1 = [].
Proof. vm_compute. by repeat split. Qed.

(* A wake-up can be missed.  wake_requested_ is cleared with release before the
   queues are scanned again, and tested relaxed by the thread that has queued a
   datagram: the thread may still read that the flag is set, and the publisher
   thread that the queue is empty.  It blocks with a datagram waiting, and no
   thread is about to wake it. *)
Definition missed_moves : list Move :=
  send_moves 1 [x41] (send_loads 0 ++ [0; 0]%nat) ++
  publisher_moves ([1; 0; 0; 0] ++ replicate 255 0 ++ [1; 0; 0; 0])%nat ++
  send_moves 1 [x42] (send_loads 1) ++
  publisher_moves (empty_scan 1 ++ [0; 0; 2])%nat.

Example wakeup_missed :
  publisher (played missed_moves).2 = Blocked 1 ∧ waiting (played missed_moves).2 0 = [[x42]] ∧
  sending (threads (played missed_moves).2 1) = Outside ∧ stopper (played missed_moves).2 = NotStopping.
Proof. vm_compute. by repeat split. Qed.

(* a thread that has read the last value of wake_requested_ goes back to sleep
   when it is woken without a reason *)
Lemma sleeps_again s c k taken s1 s2 es :
  publisher s = Blocked c → S (known_wake (known s)) = length (wake_requested_ s) →
  (current (wake_requested_ s)).1 = false →
  spurious_wake s = Some s1 → publisher_step k taken s1 = Some (s2, es) → publisher s2 = Blocked c.
Proof.
  intros Hp Hk Hw Hs Hstep. unfold spurious_wake in Hs. rewrite Hp in Hs. injection Hs as <-.
  unfold publisher_step in Hstep. cbn [publisher set_publisher] in Hstep.
  change (known (set_publisher _ s)) with (known s) in Hstep.
  change (wake_requested_ (set_publisher _ s)) with (wake_requested_ s) in Hstep.
  destruct (load _ k _) as [[b v]|] eqn:E; [|done]. cbn in Hstep. injection Hstep as <- <-. cbn.
  apply load_Some in E as [Hle E]. pose proof (lookup_lt_Some _ _ _ E) as Hlt.
  assert (k = pred (length (wake_requested_ s))) as -> by lia.
  rewrite <- last_lookup in E. unfold current in Hw. rewrite E in Hw. cbn in Hw. by subst b.
Qed.

(* In the same way stop can wait for ever.  The flag that stop has set is
   cleared by the publisher thread on its way to sleep, which may still read
   that it is to run; it blocks, stop has notified, and no thread sends.  A
   wake-up without a reason does not help: the flag reads clear. *)
Definition hanging_moves : list Move :=
  publisher_moves (empty_scan 0 ++ [0; 0])%nat ++ [CallStop no_view; StepStop; StepStop] ++
  publisher_moves ([0] ++ empty_scan 0 ++ [0; 0; 2])%nat.

Example stop_hangs :
  let s := (played hanging_moves).2 in
  publisher s = Blocked 0 ∧ stopper s = StopJoin ∧ stop_step s = None ∧
  (∀ k, publisher_step k true s = None) ∧
  ∀ k s1 s2 es, spurious_wake s = Some s1 → publisher_step k true s1 = Some (s2, es) → publisher s2 = Blocked 0.
Proof.
  cbv zeta. split; [vm_compute; reflexivity|]. split; [vm_compute; reflexivity|].
  split; [vm_compute; reflexivity|]. split; [intros k; vm_compute; reflexivity|].
  intros k s1 s2 es. apply sleeps_again; vm_compute; reflexivity.
Qed.
End MulticastDelivery.
