(* ===== verification/Telemetry.v ===== *)
(** * Performance telemetry (src/performance_metrics.cpp, ExchangeServer::performance_loop)

    Once a second the server sends a JSON text with its counters, rates and
    latencies to the websocket gateway, which passes it on to the browsers.
    The thread reads the counters, the books and the clients one after the
    other while the handlers go on, so that a turn of its loop takes what it
    read as an argument. *)
From Stdlib Require Import QArith Lqa.
From S2P Require Import Prelude Bytes Numerals Fix Json Binary64 OrderBook PerformanceMetrics ExchangeServer Sockets WebSocket Multicast.
#[local] Open Scope Z_scope.

Module PerformanceTelemetrySnapshot.
Record t : Type := mk {
  timestamp_ms : Z;
  uptime_ms : Z;
  counters : PerformanceMetrics.PerformanceCounterSnapshot.t;
  orders_per_second : double;
  executions_per_second : double;
  active_orders : Z;
  instruments : Z;
  connected_clients : Z;
  market_data : MulticastPublisher.Stats;
  market_data_queue_capacity : Z
}.
End PerformanceTelemetrySnapshot.

Definition performance_snapshot_to_json (snapshot : PerformanceTelemetrySnapshot.t) : list byte :=
  let counters := PerformanceTelemetrySnapshot.counters snapshot in
  let latency := PerformanceMetrics.PerformanceCounterSnapshot.matching_latency counters in
  let market_data := PerformanceTelemetrySnapshot.market_data snapshot in
  object
    [("type", quoted "performance");
     ("timestampMs", to_string (PerformanceTelemetrySnapshot.timestamp_ms snapshot));
     ("uptimeMs", to_string (PerformanceTelemetrySnapshot.uptime_ms snapshot));
     ("ordersTotal", to_string (PerformanceMetrics.PerformanceCounterSnapshot.new_order_requests counters));
     ("acceptedTotal", to_string (PerformanceMetrics.PerformanceCounterSnapshot.accepted_orders counters));
     ("rejectedTotal", to_string (PerformanceMetrics.PerformanceCounterSnapshot.rejected_orders counters));
     ("riskRejectedTotal", to_string (PerformanceMetrics.PerformanceCounterSnapshot.risk_rejections counters));
     ("cancelRequestsTotal", to_string (PerformanceMetrics.PerformanceCounterSnapshot.cancel_requests counters));
     ("successfulCancelsTotal",
      to_string (PerformanceMetrics.PerformanceCounterSnapshot.successful_cancels counters));
     ("replaceRequestsTotal", to_string (PerformanceMetrics.PerformanceCounterSnapshot.replace_requests counters));
     ("successfulReplacesTotal",
      to_string (PerformanceMetrics.PerformanceCounterSnapshot.successful_replaces counters));
     ("tradesTotal", to_string (PerformanceMetrics.PerformanceCounterSnapshot.trades counters));
     ("tradedQuantity", to_string (PerformanceMetrics.PerformanceCounterSnapshot.traded_quantity counters));
     ("ordersPerSecond", fixed2 (PerformanceTelemetrySnapshot.orders_per_second snapshot));
     ("executionsPerSecond", fixed2 (PerformanceTelemetrySnapshot.executions_per_second snapshot));
     ("activeOrders", to_string (PerformanceTelemetrySnapshot.active_orders snapshot));
     ("instruments", to_string (PerformanceTelemetrySnapshot.instruments snapshot));
     ("connectedClients", to_string (PerformanceTelemetrySnapshot.connected_clients snapshot));
     ("matchingLatencyNs", object
       [("samples", to_string (PerformanceMetrics.MatchingLatencySnapshot.samples latency));
        ("mean", fixed2 (PerformanceMetrics.MatchingLatencySnapshot.mean_ns latency));
        ("p50", to_string (PerformanceMetrics.MatchingLatencySnapshot.p50_ns latency));
        ("p95", to_string (PerformanceMetrics.MatchingLatencySnapshot.p95_ns latency));
        ("p99", to_string (PerformanceMetrics.MatchingLatencySnapshot.p99_ns latency));
        ("max", to_string (PerformanceMetrics.MatchingLatencySnapshot.max_ns latency))]);
     ("marketData", object
       [("enqueued", to_string (MulticastPublisher.stat_enqueued market_data));
        ("sent", to_string (MulticastPublisher.stat_sent market_data));
        ("dropped", to_string (MulticastPublisher.stat_dropped market_data));
        ("sendErrors", to_string (MulticastPublisher.stat_send_errors market_data));
        ("queueDepth", to_string (MulticastPublisher.stat_queue_depth market_data));
        ("maxQueueDepth", to_string (MulticastPublisher.stat_max_queue_depth market_data));
        ("queueCapacity", to_string (PerformanceTelemetrySnapshot.market_data_queue_capacity snapshot));
        ("producerShardsUsed", to_string (MulticastPublisher.stat_producer_shards_used market_data));
        ("producerRegistrationFailures",
         to_string (MulticastPublisher.stat_producer_registration_failures market_data))])]%string.

(** ** The publisher *)

Module PerformanceTelemetryPublisher.

Module PerformanceTelemetryConfig.
Record t : Type := mk { host : string; port : Z }.
Definition default : t := mk "127.0.0.1" 9200.
End PerformanceTelemetryConfig.

(* destination_: an address and a port, null before start and after stop *)
Record t : Type := mk {
  config_ : PerformanceTelemetryConfig.t;
  socket_ : Z;
  destination_ : option (Z * Z)
}.

Definition new (config : PerformanceTelemetryConfig.t) : t := mk config (-1) None.
Definition set_socket (d : Z) (p : t) : t := mk (config_ p) d (destination_ p).
Definition set_destination (to : option (Z * Z)) (p : t) : t := mk (config_ p) (socket_ p) to.

Definition is_open (p : t) : bool := (0 <=? socket_ p) && bool_decide (is_Some (destination_ p)).

Section publisher.
Context {W : Type} `{!System W}.

Definition on_system {A} (m : M W A) : M (t * W) A :=
  λ st, let '(r, w) := m st.2 in (r, (st.1, w)).
Definition on_publisher (f : t → t) : M (t * W) unit := modify (λ st, (f st.1, st.2)).
Definition publisher : M (t * W) t := λ st, (Ok st.1, st).

Definition start : M (t * W) bool :=
  p <- publisher ;;
  if is_open p then ret true
  else
    d <- on_system (call (sys_socket Datagrams)) ;;
    on_publisher (set_socket d) ;;;
    if d <? 0 then ret false
    else
      match inet_pton (PerformanceTelemetryConfig.host (config_ p)) with
      | None =>
          on_system (call_ (sys_close d)) ;;;
          on_publisher (set_socket (-1)) ;;;
          ret false
      | Some address =>
          on_publisher (set_destination (Some (address, PerformanceTelemetryConfig.port (config_ p)))) ;;;
          ret true
      end.

Definition stop : M (t * W) unit :=
  p <- publisher ;;
  (if 0 <=? socket_ p
   then on_system (call_ (sys_close (socket_ p))) ;;; on_publisher (set_socket (-1))
   else ret tt) ;;;
  on_publisher (set_destination None).

Definition send (snapshot : PerformanceTelemetrySnapshot.t) : M (t * W) bool :=
  p <- publisher ;;
  match destination_ p with
  | Some (address, port) =>
      if 0 <=? socket_ p then
        let json := performance_snapshot_to_json snapshot in
        sent <- on_system (call (sys_sendto (socket_ p) json address port)) ;;
        ret (sent =? Z.of_nat (length json))
      else ret false
  | None => ret false
  end.
End publisher.
End PerformanceTelemetryPublisher.

(** ** The loop of the server *)

Module PerformanceLoop.

(* what a turn reads, in nanoseconds where it is a time; no publisher, no statistics *)
Record Observation : Type := mk_observation {
  now : Z;
  system_now : Z;
  metrics : PerformanceMetrics.t;
  books : gmap string ExchangeServer.InstrumentState.t;
  clients : list Z;
  publisher_stats : option MulticastPublisher.Stats
}.

Definition no_stats : MulticastPublisher.Stats := MulticastPublisher.mk_stats 0 0 0 0 0 0 0 0.

(* std::chrono::duration<double>(d).count() *)
Definition seconds (d : Z) : double := divide (of_integer d) (of_integer 1000000000).
Definition milliseconds (d : Z) : Z := u64 (Z.quot d 1000000).

Definition active_orders (books : gmap string ExchangeServer.InstrumentState.t) : Z :=
  map_fold (λ _ instrument n,
    u64 (n + Z.of_nat (OrderBook.order_count (ExchangeServer.InstrumentState.book instrument)))) 0 books.

(* counters since the previous turn, per second *)
Definition rate (current previous : Z) (interval_seconds : double) : double :=
  if less_equal interval_seconds zero then zero
  else divide (of_integer (u64 (current - previous))) interval_seconds.

Section loop.
Context (performance_start_time : Z).

Definition snapshot_of (previous_time : Z) (previous : PerformanceMetrics.PerformanceCounterSnapshot.t)
    (o : Observation) : PerformanceTelemetrySnapshot.t :=
  let current := PerformanceMetrics.snapshot (metrics o) in
  let interval_seconds := seconds (now o - previous_time) in
  PerformanceTelemetrySnapshot.mk
    (milliseconds (system_now o)) (milliseconds (now o - performance_start_time)) current
    (rate (PerformanceMetrics.PerformanceCounterSnapshot.new_order_requests current)
       (PerformanceMetrics.PerformanceCounterSnapshot.new_order_requests previous) interval_seconds)
    (rate (PerformanceMetrics.PerformanceCounterSnapshot.trades current)
       (PerformanceMetrics.PerformanceCounterSnapshot.trades previous) interval_seconds)
    (active_orders (books o)) (u64 (Z.of_nat (size (books o)))) (u64 (Z.of_nat (length (clients o))))
    (match publisher_stats o with Some stats => stats | None => no_stats end)
    (match publisher_stats o with
     | Some _ => MulticastPublisher.queue_capacity
     | None => 0
     end).

Context {W : Type} `{!System W}.

(* a turn with running_ set *)
Definition turn (previous : Z * PerformanceMetrics.PerformanceCounterSnapshot.t) (o : Observation)
    : M (PerformanceTelemetryPublisher.t * W) (Z * PerformanceMetrics.PerformanceCounterSnapshot.t) :=
  PerformanceTelemetryPublisher.send (snapshot_of previous.1 previous.2 o) ;;;
  ret (now o, PerformanceMetrics.snapshot (metrics o)).

(* the turns until running_ is cleared *)
Definition performance_loop (first : Z * PerformanceMetrics.t) (turns : list Observation)
    : M (PerformanceTelemetryPublisher.t * W) (Z * PerformanceMetrics.PerformanceCounterSnapshot.t) :=
  fold_each turns turn (first.1, PerformanceMetrics.snapshot first.2).
End loop.

(** ** What a turn should report *)

Definition delta (current previous : Z) : Q := inject_Z (u64 (current - previous)).

Definition exact_rate (current previous nanoseconds : Z) : Q :=
  if nanoseconds =? 0 then 0%Q else (delta current previous / (inject_Z nanoseconds / inject_Z 1000000000))%Q.

Definition exact_mean (m : PerformanceMetrics.t) : Q :=
  if PerformanceMetrics.latency_samples_ m =? 0 then 0%Q
  else (inject_Z (PerformanceMetrics.latency_sum_ns_ m) / inject_Z (PerformanceMetrics.latency_samples_ m))%Q.

(* the error of the two roundings of a quotient and of its arguments *)
Definition error : Q := 9 # 4503599627370496.

Definition seconds_error : Q := 5 # 4503599627370496.

Ltac errors := split_and!; vm_compute; congruence.

Lemma seconds_approximates ns : 0 < ns < 2 ^ 63 →
  approximates seconds_error (-117) 13 (seconds ns) (inject_Z ns / inject_Z 1000000000).
Proof.
  intros Hns. assert (0 < inject_Z ns)%Q by (rewrite <- (Zlt_Qlt 0); lia).
  eapply (approximates_divide (3 # 4503599627370496) ulp ulp seconds_error (-52) 12 (-52) 12);
    [lra|reflexivity|done|done|errors|errors| |].
  - apply approximates_integer. lia.
  - by apply approximates_integer.
Qed.

Lemma ratio_approximates a x low high b : in_u64 a → (0 < b)%Q → -900 ≤ -52 - high → 12 - low ≤ 900 →
  approximates seconds_error low high x b →
  ∃ n, fixed2 (divide (of_integer a) x) = decimal_text n 2 ∧ hundredths_of error (inject_Z a / b) n.
Proof.
  intros Ha Hb Hl Hh Hx. destruct (decide (a = 0)) as [->|Ha0].
  - exists 0. destruct Hx as (m & e & -> & _). destruct (fixed2_zero error) as [H1 H2]. split; [done|].
    destruct H2 as (H3 & H4 & H5). split; [done|].
    assert (inject_Z 0 / b == 0)%Q as -> by (change (inject_Z 0) with 0%Q; unfold Qdiv; ring). by split.
  - eapply fixed2_approximates. unfold in_u64 in Ha.
    assert (0 < inject_Z a)%Q by (rewrite <- (Zlt_Qlt 0); lia).
    eapply (approximates_divide (7 # 4503599627370496) ulp seconds_error error (-52) 12 low high);
      [lra|done|done|done|errors|errors| |done].
    apply approximates_integer. lia.
Qed.

Lemma rate_exact current previous ns : 0 ≤ ns < 2 ^ 63 →
  ∃ n, fixed2 (rate current previous (seconds ns)) = decimal_text n 2 ∧
    hundredths_of error (exact_rate current previous ns) n.
Proof.
  intros Hns. unfold rate, exact_rate. destruct (Z.eqb_spec ns 0) as [->|Hne].
  - exists 0. change (less_equal (seconds 0) zero) with true. apply fixed2_zero.
  - pose proof (seconds_approximates ns ltac:(lia)) as Hs.
    assert (less_equal (seconds ns) zero = false) as -> by (by destruct Hs as (m & e & -> & _)).
    eapply (ratio_approximates _ _ (-117) 13); [apply u64_in| |done|done|exact Hs].
    apply Qlt_shift_div_l; [done|]. rewrite Qmult_0_l, <- (Zlt_Qlt 0). lia.
Qed.

Lemma mean_exact m :
  in_u64 (PerformanceMetrics.latency_sum_ns_ m) → in_u64 (PerformanceMetrics.latency_samples_ m) →
  ∃ n, fixed2 (PerformanceMetrics.MatchingLatencySnapshot.mean_ns (PerformanceMetrics.latency_snapshot m)) =
      decimal_text n 2 ∧
    hundredths_of error (exact_mean m) n.
Proof.
  intros Hsum Hsamples. unfold exact_mean, PerformanceMetrics.latency_snapshot.
  cbn [PerformanceMetrics.MatchingLatencySnapshot.mean_ns].
  destruct (Z.eqb_spec (PerformanceMetrics.latency_samples_ m) 0) as [_|Hne]; [exists 0; apply fixed2_zero|].
  unfold in_u64 in Hsamples.
  destruct (approximates_integer (PerformanceMetrics.latency_samples_ m) ltac:(lia)) as (p & e & Hp & Hm & He & Hn).
  eapply (ratio_approximates _ _ (-52) 12); [done| |done|done|].
  - rewrite <- (Zlt_Qlt 0). lia.
  - exists p, e. split_and!; [done|lia|lia|lia|lia|].
    assert (0 < inject_Z (PerformanceMetrics.latency_samples_ m))%Q as Hpos by (rewrite <- (Zlt_Qlt 0); lia).
    destruct Hn as [H1 H2]. unfold seconds_error, ulp in *. split; lra.
Qed.

Lemma active_orders_sum books :
  active_orders books =
  u64 (msum (λ _ instrument, Z.of_nat (OrderBook.order_count (ExchangeServer.InstrumentState.book instrument))) books).
Proof.
  unfold active_orders. induction books as [|symbol instrument books Hnone IH] using map_ind; [done|].
  rewrite map_fold_insert_L, msum_insert, IH by (done || intros; unfold u64; rewrite !Zplus_mod_idemp_l; f_equal; lia).
  unfold u64. rewrite Zplus_mod_idemp_l. f_equal. lia.
Qed.

(** ** What the text says *)

Definition metrics_typed (m : PerformanceMetrics.t) : Prop :=
  Forall in_u64 [PerformanceMetrics.new_order_requests_ m; PerformanceMetrics.accepted_orders_ m;
    PerformanceMetrics.rejected_orders_ m; PerformanceMetrics.risk_rejections_ m;
    PerformanceMetrics.cancel_requests_ m; PerformanceMetrics.successful_cancels_ m;
    PerformanceMetrics.replace_requests_ m; PerformanceMetrics.successful_replaces_ m;
    PerformanceMetrics.trades_ m; PerformanceMetrics.traded_quantity_ m;
    PerformanceMetrics.latency_samples_ m; PerformanceMetrics.latency_sum_ns_ m;
    PerformanceMetrics.latency_max_ns_ m].

Definition stats_typed (s : MulticastPublisher.Stats) : Prop :=
  Forall in_u64 [MulticastPublisher.stat_enqueued s; MulticastPublisher.stat_sent s;
    MulticastPublisher.stat_dropped s; MulticastPublisher.stat_send_errors s;
    MulticastPublisher.stat_queue_depth s; MulticastPublisher.stat_max_queue_depth s;
    MulticastPublisher.stat_producer_shards_used s;
    MulticastPublisher.stat_producer_registration_failures s].

(* the values a turn can read *)
Record readable_turn (o : Observation) : Prop := {
  turn_metrics : metrics_typed (metrics o);
  turn_stats : stats_typed (default no_stats (publisher_stats o))
}.

Definition latency_percentile (m : PerformanceMetrics.t) (numerator : Z) : Z :=
  PerformanceMetrics.percentile (PerformanceMetrics.latency_histogram_ m)
    (PerformanceMetrics.latency_samples_ m) numerator 100 (PerformanceMetrics.latency_max_ns_ m).

(* hundredths of the mean latency, of the orders and of the executions per second *)
Definition telemetry_fields (start : Z) (o : Observation) (mean orders executions : Z)
    : list (string * Json) :=
  let m := metrics o in
  let stats := default no_stats (publisher_stats o) in
  [("type", JText (bytes_of "performance"));
   ("timestampMs", JNumber (milliseconds (system_now o)));
   ("uptimeMs", JNumber (milliseconds (now o - start)));
   ("ordersTotal", JNumber (PerformanceMetrics.new_order_requests_ m));
   ("acceptedTotal", JNumber (PerformanceMetrics.accepted_orders_ m));
   ("rejectedTotal", JNumber (PerformanceMetrics.rejected_orders_ m));
   ("riskRejectedTotal", JNumber (PerformanceMetrics.risk_rejections_ m));
   ("cancelRequestsTotal", JNumber (PerformanceMetrics.cancel_requests_ m));
   ("successfulCancelsTotal", JNumber (PerformanceMetrics.successful_cancels_ m));
   ("replaceRequestsTotal", JNumber (PerformanceMetrics.replace_requests_ m));
   ("successfulReplacesTotal", JNumber (PerformanceMetrics.successful_replaces_ m));
   ("tradesTotal", JNumber (PerformanceMetrics.trades_ m));
   ("tradedQuantity", JNumber (PerformanceMetrics.traded_quantity_ m));
   ("ordersPerSecond", JDecimal orders 2);
   ("executionsPerSecond", JDecimal executions 2);
   ("activeOrders", JNumber (u64 (msum (λ _ instrument,
      Z.of_nat (OrderBook.order_count (ExchangeServer.InstrumentState.book instrument))) (books o))));
   ("instruments", JNumber (u64 (Z.of_nat (size (books o)))));
   ("connectedClients", JNumber (u64 (Z.of_nat (length (clients o)))));
   ("matchingLatencyNs", JObject
     [("samples", JNumber (PerformanceMetrics.latency_samples_ m));
      ("mean", JDecimal mean 2);
      ("p50", JNumber (latency_percentile m 50));
      ("p95", JNumber (latency_percentile m 95));
      ("p99", JNumber (latency_percentile m 99));
      ("max", JNumber (PerformanceMetrics.latency_max_ns_ m))]);
   ("marketData", JObject
     [("enqueued", JNumber (MulticastPublisher.stat_enqueued stats));
      ("sent", JNumber (MulticastPublisher.stat_sent stats));
      ("dropped", JNumber (MulticastPublisher.stat_dropped stats));
      ("sendErrors", JNumber (MulticastPublisher.stat_send_errors stats));
      ("queueDepth", JNumber (MulticastPublisher.stat_queue_depth stats));
      ("maxQueueDepth", JNumber (MulticastPublisher.stat_max_queue_depth stats));
      ("queueCapacity", JNumber (match publisher_stats o with Some _ => MulticastPublisher.queue_capacity | None => 0 end));
      ("producerShardsUsed", JNumber (MulticastPublisher.stat_producer_shards_used stats));
      ("producerRegistrationFailures",
       JNumber (MulticastPublisher.stat_producer_registration_failures stats))])]%string.

(* the text with the given hundredths *)
Lemma json_written start previous_time previous o mean orders executions :
  let s := snapshot_of start previous_time previous o in
  fixed2 (PerformanceMetrics.MatchingLatencySnapshot.mean_ns
    (PerformanceMetrics.latency_snapshot (metrics o))) = decimal_text mean 2 →
  fixed2 (PerformanceTelemetrySnapshot.orders_per_second s) = decimal_text orders 2 →
  fixed2 (PerformanceTelemetrySnapshot.executions_per_second s) = decimal_text executions 2 →
  performance_snapshot_to_json s = write_json (JObject (telemetry_fields start o mean orders executions)).
Proof.
  intros s Hmean Horders Hexecutions.
  cbn [write_json telemetry_fields fmap list_fmap fst snd]. rewrite <- Hmean, <- Horders, <- Hexecutions.
  subst s. unfold performance_snapshot_to_json, snapshot_of.
  cbn [PerformanceTelemetrySnapshot.timestamp_ms PerformanceTelemetrySnapshot.uptime_ms
    PerformanceTelemetrySnapshot.counters PerformanceTelemetrySnapshot.active_orders
    PerformanceTelemetrySnapshot.instruments PerformanceTelemetrySnapshot.connected_clients
    PerformanceTelemetrySnapshot.market_data PerformanceTelemetrySnapshot.market_data_queue_capacity].
  rewrite active_orders_sum. by destruct (publisher_stats o).
Qed.

Lemma telemetry_plain start o mean orders executions :
  Forall plain_field (telemetry_fields start o mean orders executions).
Proof.
  assert (∀ name, Forall plain (bytes_of name) ↔ bool_decide (Forall plain (bytes_of name)) = true) as Hname
    by (intros name; by rewrite bool_decide_eq_true).
  unfold telemetry_fields.
  repeat (apply Forall_cons_2; [split; cbn [fst snd]; [apply Hname; by vm_compute|]|]);
    [..|apply Forall_nil_2]; try exact I; try (cbn; lia).
  - apply Hname. by vm_compute.
  - apply plain_object. split; [done|].
    repeat (apply Forall_cons_2; [split; cbn [fst snd]; [apply Hname; by vm_compute|]|]);
      [..|apply Forall_nil_2]; try exact I; cbn; lia.
  - apply plain_object. split; [done|].
    repeat (apply Forall_cons_2; [split; cbn [fst snd]; [apply Hname; by vm_compute|]|]);
      [..|apply Forall_nil_2]; exact I.
Qed.

(** ** How long it is *)

Lemma percentile_loop_in_u64 histogram bucket cumulative target maximum : in_u64 maximum →
  in_u64 (PerformanceMetrics.percentile_loop histogram bucket cumulative target maximum).
Proof.
  intros Hmax. revert bucket cumulative.
  induction histogram as [|n histogram IH]; intros bucket cumulative; [done|]. cbn [PerformanceMetrics.percentile_loop].
  destruct (_ >=? target); [|apply IH]. unfold PerformanceMetrics.bucket_upper_bound, in_u64 in *.
  destruct (63 <=? bucket)%nat; [lia|]. rewrite Z.shiftl_1_l.
  assert (0 < 2 ^ (Z.of_nat bucket + 1)) by lia. lia.
Qed.

Lemma latency_percentile_in_u64 m numerator : in_u64 (PerformanceMetrics.latency_max_ns_ m) →
  in_u64 (latency_percentile m numerator).
Proof.
  intros Hmax. unfold latency_percentile, PerformanceMetrics.percentile.
  destruct (_ || _); [done|by apply percentile_loop_in_u64].
Qed.

(* a rate has at most 29 digits before the point *)
Lemma hundredths_length v n :
  (0 <= v)%Q → (v <= inject_Z (2 ^ 64 * 1000000000))%Q → hundredths_of error v n →
  (length (decimal_text n 2) ≤ 33)%nat.
Proof.
  intros Hv0 Hv (Hn & _ & Hhigh). apply (decimal_text_length n 2 29). split; [done|].
  change (Z.of_nat (30 + 2)) with 32. rewrite Zlt_Qlt. eapply Qle_lt_trans; [exact Hhigh|].
  apply Qle_lt_trans with (100 * inject_Z (2 ^ 64 * 1000000000) * 2 + 1)%Q; [|reflexivity].
  unfold error. change (inject_Z (2 ^ 64 * 1000000000)) with (18446744073709551616000000000 # 1)%Q in *. lra.
Qed.

Lemma delta_bounds current previous :
  (0 <= delta current previous)%Q ∧ (delta current previous <= inject_Z (2 ^ 64))%Q.
Proof.
  unfold delta. pose proof (u64_in (current - previous)) as H. unfold in_u64 in H.
  rewrite <- (Zle_Qle 0), <- Zle_Qle. lia.
Qed.

Lemma exact_rate_bounds current previous ns : 0 ≤ ns →
  (0 <= exact_rate current previous ns)%Q ∧
  (exact_rate current previous ns <= inject_Z (2 ^ 64 * 1000000000))%Q.
Proof.
  intros Hns. unfold exact_rate. destruct (Z.eqb_spec ns 0) as [_|Hne]; [by split|].
  destruct (delta_bounds current previous) as [H0 H1].
  assert (1 <= inject_Z ns)%Q by (rewrite <- (Zle_Qle 1); lia).
  change (inject_Z (2 ^ 64)) with (18446744073709551616 # 1)%Q in H1.
  change (inject_Z (2 ^ 64 * 1000000000)) with (18446744073709551616000000000 # 1)%Q.
  change (inject_Z 1000000000) with (1000000000 # 1)%Q.
  assert (0 < inject_Z ns / (1000000000 # 1))%Q by (apply Qlt_shift_div_l; [reflexivity|lra]).
  assert ((1 # 1000000000) <= inject_Z ns / (1000000000 # 1))%Q by (apply Qle_shift_div_l; [reflexivity|lra]).
  split; [apply Qle_shift_div_l; lra|apply Qle_shift_div_r; lra].
Qed.

Lemma exact_mean_bounds m :
  in_u64 (PerformanceMetrics.latency_sum_ns_ m) → in_u64 (PerformanceMetrics.latency_samples_ m) →
  (0 <= exact_mean m)%Q ∧ (exact_mean m <= inject_Z (2 ^ 64 * 1000000000))%Q.
Proof.
  unfold in_u64, exact_mean. intros Hsum Hsamples.
  destruct (Z.eqb_spec (PerformanceMetrics.latency_samples_ m) 0) as [_|Hne]; [by split|].
  assert (1 <= inject_Z (PerformanceMetrics.latency_samples_ m))%Q by (rewrite <- (Zle_Qle 1); lia).
  assert (0 <= inject_Z (PerformanceMetrics.latency_sum_ns_ m))%Q by (rewrite <- (Zle_Qle 0); lia).
  assert (inject_Z (PerformanceMetrics.latency_sum_ns_ m) <= inject_Z (2 ^ 64))%Q as H1
    by (rewrite <- Zle_Qle; lia).
  change (inject_Z (2 ^ 64)) with (18446744073709551616 # 1)%Q in H1.
  change (inject_Z (2 ^ 64 * 1000000000)) with (18446744073709551616000000000 # 1)%Q.
  split; [apply Qle_shift_div_l; lra|apply Qle_shift_div_r; lra].
Qed.

(* the buffer of the gateway has room for any turn *)
Lemma telemetry_length start o mean orders executions :
  readable_turn o →
  (length (decimal_text mean 2) ≤ 33)%nat → (length (decimal_text orders 2) ≤ 33)%nat →
  (length (decimal_text executions 2) ≤ 33)%nat →
  (length (write_json (JObject (telemetry_fields start o mean orders executions))) ≤ 1500)%nat.
Proof.
  intros [Hm Hs] Hmean Horders Hexecutions. unfold metrics_typed, stats_typed in *.
  assert (in_u64 (PerformanceMetrics.latency_max_ns_ (metrics o))) as Hmax
    by (rewrite Forall_forall in Hm; apply Hm; set_solver).
  pose proof (u64_text_length _ (latency_percentile_in_u64 (metrics o) 50 Hmax)).
  pose proof (u64_text_length _ (latency_percentile_in_u64 (metrics o) 95 Hmax)).
  pose proof (u64_text_length _ (latency_percentile_in_u64 (metrics o) 99 Hmax)).
  eapply Forall_impl in Hm; [|exact u64_text_length]. eapply Forall_impl in Hs; [|exact u64_text_length].
  repeat match goal with H : Forall _ (_ :: _) |- _ => apply Forall_cons_1 in H as [? H] end. clear Hm Hs.
  pose proof (u64_text_length _ (u64_in (Z.quot (system_now o) 1000000))).
  pose proof (u64_text_length _ (u64_in (Z.quot (now o - start) 1000000))).
  pose proof (u64_text_length _ (u64_in (msum (λ _ instrument, Z.of_nat (OrderBook.order_count
    (ExchangeServer.InstrumentState.book instrument))) (books o)))).
  pose proof (u64_text_length _ (u64_in (Z.of_nat (size (books o))))).
  pose proof (u64_text_length _ (u64_in (Z.of_nat (length (clients o))))).
  assert (length (to_string match publisher_stats o with Some _ => MulticastPublisher.queue_capacity | None => 0 end) ≤ 20)%nat
    by (destruct (publisher_stats o); vm_compute; lia).
  cbn [write_json telemetry_fields fmap list_fmap fst snd]. unfold milliseconds in *.
  etrans; [apply length_object|]. cbn [foldr fst snd].
  repeat match goal with
  | |- context [length (object ?ms)] =>
      let H := fresh in pose proof (length_object ms) as H; cbn [foldr fst snd] in H;
      generalize dependent (object ms); intros
  end.
  change (length (json_text (bytes_of "performance"))) with 13%nat. cbn [String.length] in *. lia.
Qed.

(** C35. The telemetry of a turn reaches the browsers and says what was counted.
    Whatever a turn of the loop reads, the publisher sends one datagram: a JSON
    object (RFC 8259) in which every counter stands exactly, with the orders in
    all the books summed, and the mean latency and the two rates stand with two
    decimals, within half a hundredth and nine parts in 2^52 of the exact
    quotients (0.00 where nothing was measured or no time has passed).  It fits
    the buffer of the gateway, which broadcasts it as it is. *)
Theorem telemetry_exact {W} `{!System W} start previous_time previous o p address port (w : W) :
  readable_turn o → previous_time ≤ now o < previous_time + 2 ^ 63 →
  PerformanceTelemetryPublisher.destination_ p = Some (address, port) →
  0 ≤ PerformanceTelemetryPublisher.socket_ p →
  ∃ text mean orders executions n w',
    sys_sendto (PerformanceTelemetryPublisher.socket_ p) text address port w = (n, w') ∧
    turn start (previous_time, previous) o (p, w) =
      (Ok (now o, PerformanceMetrics.snapshot (metrics o)), (p, w')) ∧
    read_object text = Some (telemetry_fields start o mean orders executions) ∧
    hundredths_of error (exact_mean (metrics o)) mean ∧
    hundredths_of error (exact_rate (PerformanceMetrics.new_order_requests_ (metrics o))
      (PerformanceMetrics.PerformanceCounterSnapshot.new_order_requests previous)
      (now o - previous_time)) orders ∧
    hundredths_of error (exact_rate (PerformanceMetrics.trades_ (metrics o))
      (PerformanceMetrics.PerformanceCounterSnapshot.trades previous)
      (now o - previous_time)) executions ∧
    Z.of_nat (length text) ≤ WebSocketGateway.performance_buffer_size ∧
    ∀ takes g, WebSocketGateway.performance_datagram takes text g =
               WebSocketGateway.broadcast_text takes text g.
Proof.
  intros Ho Htime Hto Hsocket.
  assert (in_u64 (PerformanceMetrics.latency_samples_ (metrics o)) ∧
    in_u64 (PerformanceMetrics.latency_sum_ns_ (metrics o))) as [Hsamples Hsum].
  { destruct Ho as [Hm _]. unfold metrics_typed in Hm. rewrite Forall_forall in Hm. split; apply Hm; set_solver. }
  destruct (mean_exact (metrics o) Hsum Hsamples) as (mean & Emean & Hmean).
  destruct (rate_exact (PerformanceMetrics.new_order_requests_ (metrics o))
    (PerformanceMetrics.PerformanceCounterSnapshot.new_order_requests previous)
    (now o - previous_time) ltac:(lia)) as (orders & Eorders & Horders).
  destruct (rate_exact (PerformanceMetrics.trades_ (metrics o))
    (PerformanceMetrics.PerformanceCounterSnapshot.trades previous)
    (now o - previous_time) ltac:(lia)) as (executions & Eexecutions & Hexecutions).
  set (text := performance_snapshot_to_json (snapshot_of start previous_time previous o)).
  assert (text = write_json (JObject (telemetry_fields start o mean orders executions))) as Etext
    by (by apply json_written).
  destruct (sys_sendto (PerformanceTelemetryPublisher.socket_ p) text address port w) as [n w'] eqn:Esend.
  exists text, mean, orders, executions, n, w'. split_and!; try done.
  - unfold turn, PerformanceTelemetryPublisher.send, bind, PerformanceTelemetryPublisher.publisher. cbn [fst snd].
    rewrite Hto, (proj2 (Z.leb_le _ _) Hsocket). fold text.
    unfold PerformanceTelemetryPublisher.on_system, call. cbn [fst snd]. by rewrite Esend.
  - rewrite Etext. apply read_object_written; [done|apply telemetry_plain].
  - rewrite Etext. unfold WebSocketGateway.performance_buffer_size. apply Z.le_trans with 1500; [|done].
    apply (inj_le _ 1500).
    pose proof (exact_mean_bounds _ Hsum Hsamples) as [H1 H2].
    destruct (exact_rate_bounds (PerformanceMetrics.new_order_requests_ (metrics o))
      (PerformanceMetrics.PerformanceCounterSnapshot.new_order_requests previous)
      (now o - previous_time) ltac:(lia)) as [H3 H4].
    destruct (exact_rate_bounds (PerformanceMetrics.trades_ (metrics o))
      (PerformanceMetrics.PerformanceCounterSnapshot.trades previous)
      (now o - previous_time) ltac:(lia)) as [H5 H6].
    apply telemetry_length; [done| | |]; eapply hundredths_length; [exact H1| | |exact H3| | |exact H5| |]; done.
Qed.

(* a second after the start: three orders of which two traded once *)
Definition busy_metrics : PerformanceMetrics.t :=
  PerformanceMetrics.record_trades 1 40 (PerformanceMetrics.record_matching_latency 1500
    (PerformanceMetrics.record_matching_latency 1000
      (PerformanceMetrics.record_new_order false true (PerformanceMetrics.record_new_order true false
        (PerformanceMetrics.record_new_order true false PerformanceMetrics.new))))).

Definition busy_turn : Observation :=
  mk_observation 3000000000 1700000000123456789 busy_metrics ∅ [5; 6] None.

Definition open_publisher : PerformanceTelemetryPublisher.t :=
  PerformanceTelemetryPublisher.mk PerformanceTelemetryPublisher.PerformanceTelemetryConfig.default
    3 (Some (inaddr_loopback, 9200)).

Lemma telemetry_exact_witness :
  ∃ text mean orders executions,
    fixed2 (rate 3 0 (seconds 1500000000)) = bytes_of "2.00" ∧
    taken 3 (turn 0 (1500000000, PerformanceMetrics.snapshot PerformanceMetrics.new) busy_turn
      (open_publisher, mk_script {[3]} [Gives 5000] [])).2.2 = text ∧
    read_object text = Some (telemetry_fields 0 busy_turn mean orders executions).
Proof.
  destruct (telemetry_exact 0 1500000000 (PerformanceMetrics.snapshot PerformanceMetrics.new) busy_turn
    open_publisher inaddr_loopback 9200 (mk_script {[3]} [Gives 5000] []))
    as (text & mean & orders & executions & n & w' & Hsend & Hturn & Hread & _).
  - split; cbn; repeat constructor; vm_compute; congruence.
  - vm_compute. split; congruence.
  - done.
  - vm_compute. congruence.
  - exists text, mean, orders, executions. split; [by vm_compute|]. split; [|exact Hread].
    rewrite Hturn. injection Hsend as _ <-. cbn. apply (right_id_L [] (++)).
Defined.

End PerformanceLoop.
