(* ===== verification/MemoryPool.v ===== *)
(** * The memory pool (include/exchange/memory_pool.hpp)

    A memory resource that counts what it passes on to the system, and the pool
    of an order book over it.  The resource below the counting one is a
    parameter, the class [Upstream], with the blocks it has handed out and not
    got back; the pool of the standard library is one too: whatever it does, it
    does by calls of the counting resource ([Calls]), so that the theorem holds
    for every strategy of keeping blocks.  The order book uses none of this for
    the values it holds, so OrderBook.v allocates addresses only. *)
From S2P Require Import Prelude.
Open Scope Z_scope.

Module MemoryPoolStats.
(* four counters of type std::uint64_t *)
Record t : Type := mk {
  upstream_allocations : Z;
  upstream_deallocations : Z;
  upstream_bytes_allocated : Z;
  upstream_bytes_deallocated : Z
}.
Definition zero : t := mk 0 0 0 0.
End MemoryPoolStats.

(** The resource below: std::pmr::new_delete_resource by default.  An
    allocation that fails throws. *)
Class Upstream (W : Type) := {
  allocate : Z → Z → M W Z;                  (* bytes, alignment; an address *)
  deallocate : Z → Z → Z → W → W;            (* address, bytes, alignment *)
  blocks : W → gmap Z Z                      (* address to bytes *)
}.

Class UpstreamLaws (W : Type) `{!Upstream W} := {
  allocate_gives bytes alignment w :
    match allocate bytes alignment w with
    | (Ok memory, w') => blocks w !! memory = None ∧ blocks w' = <[memory := bytes]> (blocks w)
    | (Throw _, w') => blocks w' = blocks w
    end;
  deallocate_takes memory bytes alignment w :
    blocks w !! memory = Some bytes → blocks (deallocate memory bytes alignment w) = delete memory (blocks w)
}.

Module CountingMemoryResource.
Section resource.
Context {W : Type} `{!Upstream W}.

(* the counters, and the system behind upstream_ *)
Definition t : Type := MemoryPoolStats.t * W.

Definition stats (resource : t) : MemoryPoolStats.t := resource.1.

(* nothing is counted when upstream throws *)
Definition do_allocate (bytes alignment : Z) : M t Z :=
  λ resource,
    let '(counters, w) := resource in
    match allocate bytes alignment w with
    | (Throw e, w) => (Throw e, (counters, w))
    | (Ok memory, w) =>
        (Ok memory,
         (MemoryPoolStats.mk
            (u64 (MemoryPoolStats.upstream_allocations counters + 1))
            (MemoryPoolStats.upstream_deallocations counters)
            (u64 (MemoryPoolStats.upstream_bytes_allocated counters + u64 bytes))
            (MemoryPoolStats.upstream_bytes_deallocated counters), w))
    end.

Definition do_deallocate (memory bytes alignment : Z) : M t unit :=
  modify (λ resource,
    let '(counters, w) := resource in
    let w := deallocate memory bytes alignment w in
    (MemoryPoolStats.mk
       (MemoryPoolStats.upstream_allocations counters)
       (u64 (MemoryPoolStats.upstream_deallocations counters + 1))
       (MemoryPoolStats.upstream_bytes_allocated counters)
       (u64 (MemoryPoolStats.upstream_bytes_deallocated counters + u64 bytes)), w)).
End resource.

(* resources are compared by address *)
Definition do_is_equal (this other : Z) : bool := this =? other.
End CountingMemoryResource.

Module MemoryPool.

(* std::pmr::pool_options *)
Record pool_options : Type := {
  max_blocks_per_chunk : Z;
  largest_required_pool_block : Z
}.

Definition options : pool_options := {|
  max_blocks_per_chunk := 256;
  largest_required_pool_block := 4096
|}.

(** What a pool may do of itself and with the resource below it.  A failed
    allocation comes back to it as an exception. *)
Inductive Calls (A : Type) : Type :=
  | Return (a : A)
  | Allocate (bytes alignment : Z) (k : res Z → Calls A)
  | Deallocate (memory bytes alignment : Z) (k : Calls A).
Arguments Return {A} a.
Arguments Allocate {A} bytes alignment k.
Arguments Deallocate {A} memory bytes alignment k.

(** std::pmr::unsynchronized_pool_resource *)
Class PoolResource (P : Type) := {
  pool_new : pool_options → P;
  pool_allocate : Z → Z → P → Calls (res Z * P);   (* it may throw *)
  pool_deallocate : Z → Z → Z → P → Calls P;
  pool_release : P → Calls P                  (* also its destructor *)
}.

Section pool.
Context {W : Type} `{!Upstream W} {P : Type} `{!PoolResource P}.

(* the calls of the pool, on its upstream_ *)
Fixpoint through {A} (calls : Calls A) (upstream : CountingMemoryResource.t (W := W))
    : A * CountingMemoryResource.t (W := W) :=
  match calls with
  | Return a => (a, upstream)
  | Allocate bytes alignment k =>
      let '(memory, upstream) := CountingMemoryResource.do_allocate bytes alignment upstream in
      through (k memory) upstream
  | Deallocate memory bytes alignment k =>
      through k (CountingMemoryResource.do_deallocate memory bytes alignment upstream).2
  end.

Record t : Type := mk { upstream_ : CountingMemoryResource.t (W := W); pool_ : P }.

Definition new (w : W) : t := mk (MemoryPoolStats.zero, w) (pool_new options).

Definition stats (p : t) : MemoryPoolStats.t := CountingMemoryResource.stats (upstream_ p).

Fixpoint after {A B} (f : A → B) (calls : Calls A) : Calls B :=
  match calls with
  | Return a => Return (f a)
  | Allocate bytes alignment k => Allocate bytes alignment (λ r, after f (k r))
  | Deallocate memory bytes alignment k => Deallocate memory bytes alignment (after f k)
  end.

(* what the containers of the book ask of resource() *)
Inductive Request : Type :=
  | Obtain (bytes alignment : Z)
  | GiveBack (memory bytes alignment : Z)
  | Release.

Definition asked (r : Request) (p : P) : Calls P :=
  match r with
  | Obtain bytes alignment =>
      after snd (pool_allocate bytes alignment p)
  | GiveBack memory bytes alignment => pool_deallocate memory bytes alignment p
  | Release => pool_release p
  end.

Definition resource (r : Request) (p : t) : t :=
  let '(pool, upstream) := through (asked r (pool_ p)) (upstream_ p) in mk upstream pool.

(** ** The counters account for the memory *)

(** A pool gives back to the resource below only blocks it has from there. *)
Fixpoint respectful {A} (calls : Calls A) (w : W) : Prop :=
  match calls with
  | Return _ => True
  | Allocate bytes alignment k =>
      let '(r, w) := allocate bytes alignment w in respectful (k r) w
  | Deallocate memory bytes alignment k =>
      blocks w !! memory = Some bytes ∧ respectful k (deallocate memory bytes alignment w)
  end.

(** The difference of the counters is what the pool has of the system, modulo
    the width of the counters. *)
Definition accounts (base : W) (r : CountingMemoryResource.t) : Prop :=
  let '(s, w) := r in
  (MemoryPoolStats.upstream_allocations s - MemoryPoolStats.upstream_deallocations s) mod 2 ^ 64 =
    (Z.of_nat (size (blocks w)) - Z.of_nat (size (blocks base))) mod 2 ^ 64 ∧
  (MemoryPoolStats.upstream_bytes_allocated s - MemoryPoolStats.upstream_bytes_deallocated s) mod 2 ^ 64 =
    (msum (λ _ bytes, bytes) (blocks w) - msum (λ _ bytes, bytes) (blocks base)) mod 2 ^ 64.

Context `{!UpstreamLaws W}.

Lemma shift_mod a b x y d e :
  e = u64 d → (a - b) mod 2 ^ 64 = (x - y) mod 2 ^ 64 →
  (u64 (a + e) - b) mod 2 ^ 64 = (x + d - y) mod 2 ^ 64.
Proof.
  intros -> H. unfold u64. rewrite Zplus_mod_idemp_r, Zminus_mod_idemp_l.
  replace (a + d - b) with (a - b + d) by lia. replace (x + d - y) with (x - y + d) by lia.
  by rewrite Zplus_mod, H, <- Zplus_mod.
Qed.

Lemma shift_mod' a b x y d e :
  e = u64 d → (a - b) mod 2 ^ 64 = (x - y) mod 2 ^ 64 →
  (a - u64 (b + e)) mod 2 ^ 64 = (x - d - y) mod 2 ^ 64.
Proof.
  intros -> H. unfold u64. rewrite Zplus_mod_idemp_r, Zminus_mod_idemp_r.
  replace (a - (b + d)) with (a - b - d) by lia. replace (x - d - y) with (x - y - d) by lia.
  by rewrite Zminus_mod, H, <- Zminus_mod.
Qed.

Lemma do_allocate_accounts base bytes alignment r :
  accounts base r → accounts base (CountingMemoryResource.do_allocate bytes alignment r).2.
Proof.
  destruct r as [s w]. intros [H1 H2]. unfold CountingMemoryResource.do_allocate.
  pose proof (allocate_gives bytes alignment w) as Hg.
  destruct (allocate bytes alignment w) as [[memory|e] w'].
  - destruct Hg as [Hnone Hw]. cbn. rewrite Hw, map_size_insert_None, msum_insert by done. split.
    + rewrite (shift_mod _ _ _ _ 1 1 eq_refl H1). f_equal. lia.
    + rewrite (shift_mod _ _ _ _ bytes (u64 bytes) eq_refl H2). f_equal. lia.
  - cbn. by rewrite Hg.
Qed.

Lemma do_deallocate_accounts base memory bytes alignment (r : CountingMemoryResource.t) :
  blocks r.2 !! memory = Some bytes →
  accounts base r → accounts base (CountingMemoryResource.do_deallocate memory bytes alignment r).2.
Proof.
  destruct r as [s w]. intros Hb [H1 H2]. cbn in Hb. cbn.
  rewrite (deallocate_takes _ _ _ _ Hb), map_size_delete_Some, (msum_delete _ _ _ _ Hb) by by eexists.
  pose proof (map_size_ne_0_lookup_2 (blocks w) memory ltac:(by eexists)). split.
  - rewrite (shift_mod' _ _ _ _ 1 1 eq_refl H1). f_equal. lia.
  - by rewrite (shift_mod' _ _ _ _ bytes (u64 bytes) eq_refl H2).
Qed.

(** Whatever a respectful pool does, and whether it succeeds, the counters
    account for it. *)
Lemma through_accounts {A} base (calls : Calls A) r :
  respectful calls r.2 → accounts base r → accounts base (through calls r).2.
Proof.
  revert r. induction calls as [a|bytes alignment k IH|memory bytes alignment k IH]; intros r Hr Ha; [done| |].
  - cbn [respectful] in Hr. cbn [through].
    pose proof (do_allocate_accounts base bytes alignment r Ha) as Ha'.
    assert ((CountingMemoryResource.do_allocate bytes alignment r).1 = (allocate bytes alignment r.2).1 ∧
      (CountingMemoryResource.do_allocate bytes alignment r).2.2 = (allocate bytes alignment r.2).2) as [H1 H2].
    { destruct r as [s w]. unfold CountingMemoryResource.do_allocate. cbn [snd].
      by destruct (allocate bytes alignment w) as [[|] ?]. }
    destruct (CountingMemoryResource.do_allocate bytes alignment r) as [memory r'].
    destruct (allocate bytes alignment r.2) as [memory' w']. cbn [fst snd] in *. subst.
    by apply IH.
  - destruct Hr as [Hb Hr]. apply IH; [by destruct r|by apply do_deallocate_accounts].
Qed.

(** The counters of a pool: without overflow, the allocations that were not
    given back are exactly the blocks it holds, and their bytes the bytes it
    holds; the reuse of a block inside the pool changes none of them. *)
Fixpoint respects (requests : list Request) (p : t) : Prop :=
  match requests with
  | [] => True
  | r :: requests => respectful (asked r (pool_ p)) (upstream_ p).2 ∧ respects requests (resource r p)
  end.

Lemma requests_account base requests p :
  respects requests p → accounts base (upstream_ p) →
  accounts base (upstream_ (foldl (λ p r, resource r p) p requests)).
Proof.
  revert p. induction requests as [|r requests IH]; intros p Hr Ha; [done|].
  destruct Hr as [Hr Hrest]. apply IH; [done|]. unfold resource.
  pose proof (through_accounts base (asked r (pool_ p)) (upstream_ p) Hr Ha) as H.
  by destruct (through _ _).
Qed.

Theorem pool_accounted w requests p :
  blocks w = ∅ → respects requests (new w) → p = foldl (λ p r, resource r p) (new w) requests →
  let s := stats p in
  let held := blocks (upstream_ p).2 in
  u64 (MemoryPoolStats.upstream_allocations s - MemoryPoolStats.upstream_deallocations s) =
    u64 (Z.of_nat (size held)) ∧
  u64 (MemoryPoolStats.upstream_bytes_allocated s - MemoryPoolStats.upstream_bytes_deallocated s) =
    u64 (msum (λ _ bytes, bytes) held).
Proof.
  intros Hw Hr ->.
  assert (accounts w (upstream_ (new w))) as H0 by (cbn; rewrite !Z.sub_diag; done).
  pose proof (requests_account w requests (new w) Hr H0) as H.
  unfold stats, CountingMemoryResource.stats.
  destruct (upstream_ (foldl _ _ _)) as [s w']. cbn [fst snd]. destruct H as [H1 H2].
  rewrite Hw, map_size_empty, Z.sub_0_r in H1. rewrite Hw, msum_empty, Z.sub_0_r in H2.
  unfold u64. by rewrite H1, H2.
Qed.
End pool.

(** A pool that keeps nothing, over a system that hands out fresh addresses. *)
Module Plain.
#[global] Instance system : Upstream (gmap Z Z) := {|
  allocate bytes alignment w :=
    let memory := fresh (dom w) in (Ok memory, <[memory := bytes]> w);
  deallocate memory bytes alignment w := delete memory w;
  blocks w := w
|}.
#[global] Instance system_laws : UpstreamLaws (gmap Z Z).
Proof. split; [intros; cbn; split; [apply not_elem_of_dom, is_fresh|done]|done]. Qed.

#[global] Instance pool : PoolResource unit := {|
  pool_new _ := tt;
  pool_allocate bytes alignment _ :=
    Allocate bytes alignment (λ memory, Return (memory, tt));
  pool_deallocate memory bytes alignment _ := Deallocate memory bytes alignment (Return tt);
  pool_release _ := Return tt
|}.

Definition requests (memory : Z) : list Request :=
  [Obtain 64 8; Obtain 128 8; GiveBack memory 64 8].

Lemma pool_accounted_witness :
  let w : gmap Z Z := ∅ in
  let l := requests (fresh (dom w)) in
  respects l (new w) ∧
  u64 (MemoryPoolStats.upstream_bytes_allocated (stats (foldl (λ p r, resource r p) (new w) l)) -
       MemoryPoolStats.upstream_bytes_deallocated (stats (foldl (λ p r, resource r p) (new w) l))) = 128.
Proof.
  intros w l.
  assert (respects l (new w)) as Hr by (vm_compute; repeat split; congruence).
  split; [exact Hr|].
  assert (blocks w = ∅) as H0 by reflexivity.
  rewrite (proj2 (pool_accounted w l _ H0 Hr eq_refl)). by vm_compute.
Defined.
End Plain.
End MemoryPool.
