(* ===== verification/Tools.v ===== *)
(** * The main programs

    The programs that put the components to work: the exchange itself
    (src/main.cpp), the journal replay tool (tools/exchange_replay.cpp), the risk
    demonstration (tools/exchange_risk_demo.cpp) and the two gateways
    (tools/exchange_fix_gateway.cpp, tools/exchange_websocket_gateway.cpp).  Each
    main is a computation that prints; what it prints on std::cout is its state,
    or a part of it, and the error text on std::cerr is left out. *)
From Stdlib Require Import Strings.String.
From S2P Require Import Prelude Types TradeBuffer PriceLevel OrderBook RiskEngine Bytes Numerals Protocol Replay ExchangeServer ServerDemo ServerRecovery Fix FixState FixGateway Sockets ExchangeClient FixThreads WebSocket WebSocketThreads.
Import ExchangeClient (text, newline).
Open Scope Z_scope.

Definition quote : list byte := [x22].
Definition line (label : string) (value : list byte) : list byte := text label ++ value ++ newline.

Definition lines (l : list string) : list byte := concat ((λ s, text s ++ newline) <$> l).

(** ** The journal replay tool *)

Module ReplayTool.

Definition print (bytes : list byte) : M (list byte) unit := modify (λ out, out ++ bytes).

(* ExchangeReplayer::symbols *)
Definition symbols (replayer : Replay.t) : list string :=
  merge_sort String.le (map_to_list (Replay.books_ replayer)).*1.

(* the guards make the throws of the book impossible *)
Definition print_book (symbol : string) (book : OrderBook.t) : M (list byte) unit :=
  print (text symbol ++ newline ++ replicate (String.length symbol) x2d ++ newline ++
         line "Remaining orders: " (to_string (Z.of_nat (OrderBook.order_count book)))) ;;;
  (if OrderBook.has_bids book then
     price <- lift (OrderBook.best_bid book) ;;
     level <- lift (OrderBook.best_bid_level book) ;;
     print (line "Best bid: " (to_string price ++ text " x " ++ to_string (PriceLevel.total_quantity level)))
   else print (text "Best bid: none" ++ newline)) ;;;
  (if OrderBook.has_asks book then
     price <- lift (OrderBook.best_ask book) ;;
     level <- lift (OrderBook.best_ask_level book) ;;
     print (line "Best ask: " (to_string price ++ text " x " ++ to_string (PriceLevel.total_quantity level)))
   else print (text "Best ask: none" ++ newline)) ;;;
  print newline.

Definition heading (journal_path : list byte) (summary : Replay.ReplaySummary.t) : list byte :=
  text "ExchangeLab Journal Replay" ++ newline ++
  text "==========================" ++ newline ++
  line "Journal: " (quote ++ journal_path ++ quote) ++
  line "Records: " (to_string (Replay.ReplaySummary.journal_records summary)) ++
  line "New orders: " (to_string (Replay.ReplaySummary.new_orders summary)) ++
  line "Trades: " (to_string (Replay.ReplaySummary.trades summary)) ++
  line "Rejected messages: " (to_string (Replay.ReplaySummary.rejected_messages summary)) ++
  line "Unsupported messages: " (to_string (Replay.ReplaySummary.unsupported_messages summary)) ++
  line "Symbols: " (to_string (Replay.ReplaySummary.symbols summary)) ++ newline.

(* [files]: what the system has at a path, if it can be opened *)
Definition main (files : list byte → option (list byte)) (argv : list (list byte)) : M (list byte) Z :=
  let journal_path := match argv with _ :: path :: _ => path | _ => text "exchange.log" end in
  if (2 <? length argv)%nat then ret 1
  else
    let '(replayed, replayer) := Replay.replay (files journal_path) Replay.new in
    completed <- lift replayed ;;
    if negb completed then ret 1
    else
      print (heading journal_path (Replay.summary_ replayer)) ;;;
      for_each (symbols replayer) (λ symbol, print_book symbol (Replay.order_book replayer symbol)) ;;;
      ret 0.

(** *** What it prints of a book *)

Definition level_text (s : Side) (book : OrderBook.t) : list byte :=
  match OrderBook.levels s book with
  | [] => text "none"
  | (price, level) :: _ => to_string price ++ text " x " ++ to_string (PriceLevel.total_quantity level)
  end.

Definition book_text (symbol : string) (book : OrderBook.t) : list byte :=
  text symbol ++ newline ++ replicate (String.length symbol) x2d ++ newline ++
  line "Remaining orders: " (to_string (Z.of_nat (OrderBook.order_count book))) ++
  line "Best bid: " (level_text Buy book) ++ line "Best ask: " (level_text Sell book) ++ newline.

Lemma print_book_exact symbol book out : print_book symbol book out = (Ok tt, out ++ book_text symbol book).
Proof.
  unfold print_book, book_text, level_text, bind, print, modify, lift, OrderBook.has_bids, OrderBook.has_asks,
    OrderBook.has_levels, OrderBook.best_bid, OrderBook.best_ask, OrderBook.best_bid_level,
    OrderBook.best_ask_level, OrderBook.best, line.
  destruct (OrderBook.levels Buy book) as [|[pb lb] ?], (OrderBook.levels Sell book) as [|[pa la] ?];
    cbn [res_bind fst snd]; by rewrite <- !(assoc_L (++)).
Qed.

Lemma print_books_exact (books : string → OrderBook.t) l out :
  for_each l (λ symbol, print_book symbol (books symbol)) out =
    (Ok tt, out ++ concat ((λ symbol, book_text symbol (books symbol)) <$> l)).
Proof.
  revert out. induction l as [|symbol l IH]; intros out; [by rewrite app_nil_r|].
  cbn [for_each]. unfold bind. rewrite print_book_exact, IH. by rewrite fmap_cons, <- (assoc_L (++)).
Qed.

(** It ends with one of its two codes, whatever it is given. *)
Lemma replay_tool_returns files argv out :
  ∃ out', main files argv out = (Ok 0, out') ∨ main files argv out = (Ok 1, out').
Proof.
  unfold main. destruct (2 <? length argv)%nat; [by eexists; right|].
  destruct (Replay.replay_total (files match argv with _ :: path :: _ => path | _ => text "exchange.log" end)
    Replay.new) as (b & r & ->).
  unfold bind, lift. destruct b; cbn [negb]; [|by eexists; right].
  unfold print, modify. rewrite print_books_exact. by eexists; left.
Qed.

(** *** The symbols *)

Lemma symbols_permutation r : symbols r ≡ₚ (map_to_list (Replay.books_ r)).*1.
Proof. apply merge_sort_Permutation. Qed.

Lemma symbols_sorted r : StronglySorted String.le (symbols r).
Proof. apply StronglySorted_merge_sort; apply _. Qed.

Lemma symbols_nodup r : NoDup (symbols r).
Proof. rewrite symbols_permutation. apply NoDup_fst_map_to_list. Qed.

Lemma symbols_length r : length (symbols r) = size (Replay.books_ r).
Proof. rewrite (Permutation_length (symbols_permutation r)), length_fmap. apply length_map_to_list. Qed.

Lemma symbols_absent r symbol : symbol ∉ symbols r → Replay.books_ r !! symbol = None.
Proof.
  intros Hs. destruct (Replay.books_ r !! symbol) as [book|] eqn:E; [|done]. destruct Hs.
  rewrite symbols_permutation. apply list_elem_of_fmap. exists (symbol, book).
  split; [done|]. by apply elem_of_map_to_list.
Qed.

(** *** The counters *)

Definition same_records (r r' : Replay.t) : Prop :=
  Replay.ReplaySummary.journal_records (Replay.summary_ r') =
  Replay.ReplaySummary.journal_records (Replay.summary_ r).

#[export] Instance same_records_preorder : PreOrder same_records.
Proof. split; [done|]. intros a b c H1 H2. unfold same_records in *. congruence. Qed.

Lemma on_book_records {A} symbol (m : M (OrderBook.t * TradeBuffer.t) A) :
  preserves same_records (Replay.on_book symbol m).
Proof.
  intros r. unfold Replay.on_book. destruct (Replay.books_ r !! symbol); [|done].
  by destruct (m _) as [x [book' trades']].
Qed.

Lemma replay_command_records type body : preserves same_records (Replay.replay_command type body).
Proof.
  assert (∀ f, (∀ s, Replay.ReplaySummary.journal_records (f s) = Replay.ReplaySummary.journal_records s) →
    preserves same_records (Replay.on_summary f)) as Hs by (intros f Hf r; apply Hf).
  assert (∀ {A} (k : Replay.t → M Replay.t A), (∀ r, preserves same_records (k r)) →
    preserves same_records (r <- get ;; k r)) as Hg by (intros A k Hk r; apply Hk).
  pose proof same_records_preorder as HP.
  assert (preserves same_records Replay.rejected) as Hr by by apply Hs.
  unfold Replay.replay_command, Replay.replay_new_order, Replay.replay_cancel_order,
    Replay.replay_replace_order, Replay.replace_on_book.
  repeat lazymatch goal with
    | |- preserves _ (match ?x with _ => _ end) => destruct x
    | |- preserves _ (bind get _) => apply Hg; intros
    | |- preserves _ (bind _ _) => apply (preserves_bind _); [|intros]
    | |- preserves _ (Replay.on_book _ _) => apply on_book_records
    | |- preserves _ Replay.rejected => apply Hr
    | |- preserves _ (Replay.on_summary _) => apply Hs; intros; reflexivity
    | |- preserves _ (ret _) => apply preserves_ret; exact HP
    | |- preserves _ (modify _) => intros ?; reflexivity
    end.
Qed.

(** Every record is counted once. *)
Lemma replay_record_records message r :
  Replay.ReplaySummary.journal_records (Replay.summary_ (Replay.replay_record message r).2) =
  u64 (Replay.ReplaySummary.journal_records (Replay.summary_ r) + 1).
Proof.
  unfold Replay.replay_record, bind, Replay.on_summary at 1, modify at 1.
  destruct (Protocol.decode_header _) as [h|]; [|done]. destruct (negb _); [done|].
  unfold Replay.dispatch.
  pose proof (replay_command_records (Protocol.MessageHeader.type h)
    (take (Z.to_nat (Protocol.MessageHeader.body_size h)) (drop Protocol.header_size message))
    (Replay.mk (Replay.trade_buffer_ r) (Replay.books_ r) (Replay.count_record (Replay.summary_ r)))) as H.
  destruct (Replay.replay_command _ _ _) as [[a|e] r']; exact H.
Qed.

Lemma apply_messages_records ms r :
  Replay.ReplaySummary.journal_records (Replay.summary_ r) = 0 →
  Replay.ReplaySummary.journal_records (Replay.summary_ (Replay.apply_messages ms r)) =
  u64 (Z.of_nat (length ms)).
Proof.
  intros H0. unfold Replay.apply_messages. induction ms as [|message ms IH] using rev_ind; [cbn [foldl]; by rewrite H0|].
  rewrite foldl_app. cbn [foldl]. rewrite replay_record_records, IH, length_app. unfold u64.
  rewrite Zplus_mod_idemp_l. f_equal. cbn [length]. lia.
Qed.

Lemma replay_whole ms :
  Forall Replay.message_sized ms →
  ∃ r, Replay.replay (Some (Replay.journal_of ms)) Replay.new = (Ok true, r) ∧
    Replay.books_ r = Replay.books_ (Replay.apply_messages ms Replay.new) ∧
    Replay.ReplaySummary.journal_records (Replay.summary_ r) = u64 (Z.of_nat (length ms)) ∧
    Replay.ReplaySummary.symbols (Replay.summary_ r) = u64 (Z.of_nat (size (Replay.books_ r))).
Proof.
  intros Hm. unfold Replay.replay. unfold bind at 1, modify at 1. unfold bind at 1.
  pose proof (Replay.replay_journal ms [] (Replay.reset Replay.new) Hm) as Hj.
  rewrite app_nil_r in Hj. rewrite Hj, Replay.replay_short_tail by (vm_compute; lia).
  eexists. split; [reflexivity|]. split_and!; [by apply Replay.apply_messages_books| |done].
  by apply apply_messages_records.
Qed.

(** The replay tool shows the books of the exchange.  Whatever a journaled
    server has lived through, running the tool on its journal prints the report
    of exactly the books the server has, one for each symbol of the journal in
    the order of their names, and returns 0; a symbol it does not print has an
    empty book.  The heading counts the records of the journal and the
    symbols. *)
Theorem replay_tool_reports_server io elapsed set_order event y r y' :
  ServerRecovery.journaled y →
  ExchangeServer.handle_event io elapsed set_order event y = (r, y') →
  r ≠ Throw ServerRecovery.write_failure →
  ∃ ms symbols summary,
    ExchangeServer.journal_ (ExchangeServer.exchange y') = Some (Replay.journal_of ms) ∧
    (∀ files program path, files path = Some (Replay.journal_of ms) →
       main files [program; path] [] =
         (Ok 0, heading path summary ++
            concat ((λ symbol, book_text symbol
              (ServerRecovery.book_of (ExchangeServer.exchange y') symbol)) <$> symbols))) ∧
    StronglySorted String.le symbols ∧ NoDup symbols ∧
    (∀ symbol, symbol ∉ symbols →
       ServerRecovery.book_of (ExchangeServer.exchange y') symbol = OrderBook.new) ∧
    Replay.ReplaySummary.journal_records summary = u64 (Z.of_nat (length ms)) ∧
    Replay.ReplaySummary.symbols summary = u64 (Z.of_nat (length symbols)).
Proof.
  intros [ms0 Hm]%ServerRecovery.journaled_mirrors He Hr.
  pose proof (ServerRecovery.handle_event_consistent io elapsed set_order event y ms0 Hm) as Hc.
  rewrite He in Hc. destruct Hc as [[ms [Hj Hz Hb]]|[? _]]; [|done].
  destruct (replay_whole ms Hz) as (replayer & Hrep & Hbooks & Hrec & Hsym).
  assert (∀ symbol, Replay.order_book replayer symbol =
    ServerRecovery.book_of (ExchangeServer.exchange y') symbol) as Hbook.
  { intros symbol. rewrite <- Hb. unfold Replay.order_book. by rewrite Hbooks. }
  exists ms, (symbols replayer), (Replay.summary_ replayer).
  split_and!; [done| |by apply symbols_sorted|by apply symbols_nodup| |done|by rewrite symbols_length].
  - intros files program path Hf. unfold main. cbn [length Nat.ltb Nat.leb]. rewrite Hf, Hrep.
    unfold bind, lift. cbn [negb]. unfold print, modify. rewrite print_books_exact.
    unfold ret. do 3 f_equal. apply list_fmap_ext. intros i symbol _. by rewrite Hbook.
  - intros symbol Hs. rewrite <- Hbook. unfold Replay.order_book.
    by rewrite (symbols_absent _ _ Hs).
Qed.

(* the journal of the concrete server after its two orders and a cancellation *)
Definition demo_files (path : list byte) : option (list byte) :=
  if decide (path = text "demo.log") then Some (ServerDemo.journal_file ServerDemo.cancelled) else None.

Lemma replay_tool_reports_server_witness :
  ServerDemo.handle ServerDemo.cancelling ServerDemo.traded = (Ok tt, ServerDemo.cancelled) ∧
  ∃ out, main demo_files [text "exchange_replay"; text "demo.log"] [] = (Ok 0, out).
Proof.
  assert (ServerDemo.handle ServerDemo.cancelling ServerDemo.traded = (Ok tt, ServerDemo.cancelled))
    as He by (vm_compute; reflexivity).
  split; [exact He|].
  destruct (replay_tool_reports_server _ _ _ _ _ _ _ ServerRecovery.traded_journaled He ltac:(done))
    as (ms & symbols & summary & Hj & Hmain & _).
  eexists. apply (Hmain demo_files). unfold demo_files.
  rewrite decide_True by done. unfold ServerDemo.journal_file. by rewrite Hj.
Defined.

(** What it prints of the journal of the server before the cancellation. *)
Lemma replay_tool_demo :
  main (λ _, Some (ServerDemo.journal_file ServerDemo.traded)) [text "exchange_replay"] [] =
    (Ok 0, lines ["ExchangeLab Journal Replay"; "=========================="]%string ++
           line "Journal: " (quote ++ text "exchange.log" ++ quote) ++
           lines ["Records: 2"; "New orders: 2"; "Trades: 1"; "Rejected messages: 0";
                  "Unsupported messages: 0"; "Symbols: 1"; EmptyString;
                  "TEST"; "----"; "Remaining orders: 1"; "Best bid: 100 x 6"; "Best ask: none"; EmptyString]%string).
Proof. vm_compute. reflexivity. Qed.
End ReplayTool.

(** ** The risk demonstration *)

Module RiskDemo.
Import RiskEngine.

Definition print_decision (label : string) (decision : RiskDecision.t) : list byte :=
  text label ++ text ": " ++ text (if RiskDecision.accepted decision then "ACCEPT" else "REJECT") ++
  (if negb (RiskDecision.accepted decision)
   then text " (" ++ text (to_string (RiskDecision.reason decision)) ++ text ")" else []) ++ newline.

Definition print_snapshot (snapshot : ClientRiskSnapshot.t) : list byte :=
  text "  position=" ++ Numerals.to_string (ClientRiskSnapshot.position snapshot) ++
  text " open_orders=" ++ Numerals.to_string (ClientRiskSnapshot.open_orders snapshot) ++
  text " gross_open_quantity=" ++ Numerals.to_string (ClientRiskSnapshot.gross_open_quantity snapshot) ++
  text " open_buy_quantity=" ++ Numerals.to_string (ClientRiskSnapshot.open_buy_quantity snapshot) ++
  text " open_sell_quantity=" ++ Numerals.to_string (ClientRiskSnapshot.open_sell_quantity snapshot) ++ newline.

Definition limits : RiskLimits.t := RiskLimits.mk 100 50000 4 200 100.
Definition client_id : RiskClientId := 1.

Definition first_order : RiskOrderRequest.t :=
  RiskOrderRequest.mk client_id "AAPL" 1 Buy Limit GoodTillCancel 100 70 None.
Definition second_order : RiskOrderRequest.t :=
  RiskOrderRequest.mk client_id "AAPL" 2 Buy Limit GoodTillCancel 101 40 None.
Definition msft_order : RiskOrderRequest.t :=
  RiskOrderRequest.mk client_id "MSFT" 3 Buy Limit GoodTillCancel 100 10 None.

(* the code it returns, and what it prints *)
Definition main : Z * list byte :=
  let risk := new limits in
  let d1 := print_decision "BUY 70 AAPL" (check_new_order risk first_order) in
  let risk := on_order_resting client_id "AAPL" 1 Buy 100 70 risk in
  let s1 := text "After resting order:" ++ newline ++ print_snapshot (snapshot risk client_id "AAPL") in
  let d2 := print_decision "BUY another 40 AAPL" (check_new_order risk second_order) in
  let risk := on_trade "AAPL" client_id invalid_risk_client_id 1 9000 20 risk in
  let s2 := text "After buying 20 shares:" ++ newline ++ print_snapshot (snapshot risk client_id "AAPL") in
  let risk := set_global_kill_switch true risk in
  let d3 := print_decision "BUY 10 MSFT with kill switch enabled" (check_new_order risk msft_order) in
  let risk := on_order_cancelled client_id "AAPL" 1 risk in
  let s3 := text "After cancelling remaining AAPL exposure:" ++ newline ++
            print_snapshot (snapshot risk client_id "AAPL") in
  (0, d1 ++ s1 ++ d2 ++ s2 ++ d3 ++ s3).

(** The demonstration says what its comments announce: the second order would
    pass the position limit, the kill switch stops the third. *)
Lemma risk_demo_transcript :
  main = (0, lines ["BUY 70 AAPL: ACCEPT";
    "After resting order:";
    "  position=0 open_orders=1 gross_open_quantity=70 open_buy_quantity=70 open_sell_quantity=0";
    "BUY another 40 AAPL: REJECT (max position)";
    "After buying 20 shares:";
    "  position=20 open_orders=1 gross_open_quantity=50 open_buy_quantity=50 open_sell_quantity=0";
    "BUY 10 MSFT with kill switch enabled: REJECT (global kill switch)";
    "After cancelling remaining AAPL exposure:";
    "  position=20 open_orders=0 gross_open_quantity=0 open_buy_quantity=0 open_sell_quantity=0"]%string).
Proof. vm_compute. reflexivity. Qed.
End RiskDemo.

(** ** The exchange *)

Module ExchangeMain.
Import ExchangeServer.

Definition port : Z := 9000.
Definition journal_path : string := "exchange.log".
Definition multicast_group : string := "239.255.0.1".
Definition multicast_port : Z := 9100.
Definition telemetry_host : string := "127.0.0.1".
Definition telemetry_port : Z := 9200.
Definition risk_limits : RiskEngine.RiskLimits.t := RiskEngine.RiskLimits.default.

Definition recovery_report (recovery : RecoveryState.t) : list byte :=
  if RecoveryState.attempted recovery then
    text "Journal recovery complete" ++ newline ++
    line "  Records: " (to_string (RecoveryState.journal_records recovery)) ++
    line "  New orders: " (to_string (RecoveryState.new_orders recovery)) ++
    line "  Trades: " (to_string (RecoveryState.trades recovery)) ++
    line "  Rejected records: " (to_string (RecoveryState.rejected_messages recovery)) ++
    line "  Unsupported records: " (to_string (RecoveryState.unsupported_messages recovery)) ++
    line "  Instruments: " (to_string (RecoveryState.instruments recovery)) ++
    line "  Remaining orders: " (to_string (RecoveryState.remaining_orders recovery))
  else [].

(* a path is written in quotes; this one has nothing to escape *)
Definition banner (active_risk : RiskEngine.RiskLimits.t) : list byte :=
  line "ExchangeLab listening on port " (to_string port) ++
  line "Protocol version: " (to_string Protocol.protocol_version) ++
  line "Journal: " (quote ++ text journal_path ++ quote) ++
  line "Market data multicast: " (text multicast_group ++ text ":" ++ to_string multicast_port) ++
  line "Performance telemetry: " (text telemetry_host ++ text ":" ++ to_string telemetry_port) ++
  text "Risk limits:" ++ newline ++
  line "  Max order quantity: " (to_string (RiskEngine.RiskLimits.max_order_quantity active_risk)) ++
  line "  Max order notional: " (to_string (RiskEngine.RiskLimits.max_order_notional active_risk)) ++
  line "  Max open orders/session: " (to_string (RiskEngine.RiskLimits.max_open_orders active_risk)) ++
  line "  Max open quantity/session: " (to_string (RiskEngine.RiskLimits.max_open_quantity active_risk)) ++
  line "  Max position/symbol: +/-" (to_string (RiskEngine.RiskLimits.max_position_per_symbol active_risk)).

Section main.
Context (io : list byte → list byte → option nat) (elapsed : ExchangeServer.t → Z)
  (set_order : list OrderId → list OrderId).

(* the code it returns, what it prints, and the server; [path]: what the system
   has at journal_path; [events]: what happens until the server stops *)
Definition main (path : JournalPath) (multicast_starts listens : bool) (events : list Event)
    : res Z * list byte * System :=
  let '(started, server) := start path multicast_starts listens (new risk_limits true) in
  if negb started then (Ok 1, [], mkSystem server ∅)
  else
    let out := recovery_report (recovery_state_ server) ++
               banner (RiskEngine.limits (risk_engine_ server)) in
    match run io elapsed set_order events (mkSystem server ∅) with
    | (Ok _, y) => (Ok 0, out, y)
    | (Throw e, y) => (Throw e, out, y)
    end.

(** The exchange as its main runs it is a journaled server: what is proved of
    those holds of it. *)
Lemma main_journaled path multicast_starts listens events out y :
  path = Missing ∨ path = File [] →
  main path multicast_starts listens events = (Ok 0, out, y) → ServerRecovery.journaled y.
Proof.
  intros Hp. unfold main.
  destruct (start path multicast_starts listens (new risk_limits true)) as [[] server] eqn:Hs; [|done].
  cbn [negb].
  pose proof (ServerRecovery.journaled_first _ _ _ _ _ _ Hp Hs) as Hj. revert Hj.
  generalize (mkSystem server ∅). intros y0 Hj.
  assert (∀ y1 r, run io elapsed set_order events y0 = (Ok r, y1) → ServerRecovery.journaled y1) as Hrun.
  { clear Hs. revert y0 Hj. induction events as [|event l IH]; intros y0 Hj y1 r.
    - intros [= _ <-]. done.
    - unfold run. cbn [for_each]. unfold bind.
      destruct (handle_event io elapsed set_order event y0) as [[[]|e] y2] eqn:He; [|done].
      apply IH. by eapply ServerRecovery.journaled_event. }
  destruct (run io elapsed set_order events y0) as [[r|e] y1] eqn:E; [|done].
  intros [= _ <-]. by eapply Hrun.
Qed.
End main.

(** Its second life, on the journal of the concrete server. *)
Lemma main_restarts :
  (main ServerDemo.good_disk ServerDemo.no_time ServerDemo.set_order
     (File (ServerDemo.journal_file ServerDemo.traded)) true true []).1 =
    (Ok 0, lines ["Journal recovery complete"; "  Records: 2"; "  New orders: 2"; "  Trades: 1";
             "  Rejected records: 0"; "  Unsupported records: 0"; "  Instruments: 1"; "  Remaining orders: 1";
             "ExchangeLab listening on port 9000"; "Protocol version: 3"]%string ++
           line "Journal: " (quote ++ text "exchange.log" ++ quote) ++
           lines ["Market data multicast: 239.255.0.1:9100"; "Performance telemetry: 127.0.0.1:9200";
             "Risk limits:"; "  Max order quantity: 100000"; "  Max order notional: 10000000000";
             "  Max open orders/session: 10000"; "  Max open quantity/session: 1000000";
             "  Max position/symbol: +/-1000000"]%string).
Proof. vm_compute. reflexivity. Qed.
End ExchangeMain.

(** ** The gateways: main up to the loop of run

    The result is the code main returns, or [None] when it is in run. *)

Module FixGatewayMain.
Section main.
Context {F : Type} {W : Type} `{!System W}.

Definition config : FixGatewayConfig.t :=
  FixGatewayConfig.mk 9878 "127.0.0.1" 9000 (bytes_of "EXCHANGELAB") 30.

Definition banner : list byte :=
  text "ExchangeLab FIX 4.4 gateway" ++ newline ++
  text "===========================" ++ newline ++
  line "FIX order entry: 127.0.0.1:" (to_string (FixGatewayConfig.listen_port config)) ++
  line "Core exchange: " (text (FixGatewayConfig.exchange_host config) ++ text ":" ++
    to_string (FixGatewayConfig.exchange_port config)) ++
  line "SenderCompID: " (FixGatewayConfig.sender_comp_id config) ++
  text "Supported: Logon/Heartbeat/TestRequest/Logout, " ++
  text "NewOrderSingle, Cancel, CancelReplace" ++ newline.

Definition main (w : W) : res (option Z) * list byte * FixThreads.Process F W :=
  match FixThreads.call_start (FixThreads.constructed config w) with
  | (Throw e, p) => (Throw e, [], p)
  | (Ok false, p) => (Ok (Some 1), [], p)
  | (Ok true, p) => (Ok None, banner, FixThreads.call_run p)
  end.

(** When main is in run, the gateway is in a reachable state of its threads,
    and what is proved of those holds. *)
Lemma fix_main_reachable `{!LongDouble F} getaddrinfo w out p :
  main w = (Ok None, out, p) → out = banner ∧ FixThreads.reachable (F := F) getaddrinfo config w p.
Proof.
  unfold main. destruct (FixThreads.call_start _) as [[[]|e] p0] eqn:E; try done.
  intros [= <- <-]. split; [done|].
  assert (FixThreads.runner p0 = FixThreads.NotRunning ∧ FixThreads.stopper p0 = FixThreads.NotStopping)
    as [Hr Hs].
  { revert E. unfold FixThreads.call_start.
    destruct (FixThreads.start _) as [r [s w']]. by intros [= _ <-]. }
  eapply FixThreads.reachable_call; [|by apply FixThreads.run_called].
  eapply FixThreads.reachable_call; [apply FixThreads.reachable_constructed|].
  by eapply FixThreads.start_called.
Qed.
End main.
End FixGatewayMain.

Module WebSocketMain.
Import WebSocketThreads.
Section main.
Context {W : Type} `{!System W}.

Definition config : WebSocketGatewayConfig.t :=
  WebSocketGatewayConfig.mk 8080 "239.255.0.1" 9100 9200.

Definition banner : list byte :=
  text "ExchangeLab WebSocket gateway" ++ newline ++
  text "==============================" ++ newline ++
  line "WebSocket: ws://127.0.0.1:" (to_string (WebSocketGatewayConfig.websocket_port config)) ++
  line "Market data source: " (text (WebSocketGatewayConfig.multicast_group config) ++ text ":" ++
    to_string (WebSocketGatewayConfig.multicast_port config)) ++
  line "Performance source: 127.0.0.1:" (to_string (WebSocketGatewayConfig.performance_port config)).

(* [threads]: how many threads the system creates *)
Definition main (threads : nat) (w : W) : res (option Z) * list byte * Process W :=
  match start threads (constructed config w) with
  | (Throw e, p) => (Throw e, [], p)
  | (Ok false, p) => (Ok (Some 1), [], p)
  | (Ok true, p) => (Ok None, banner, run p)
  end.

Lemma websocket_main_reachable threads w out p :
  main threads w = (Ok None, out, p) → out = banner ∧ reachable config w p.
Proof.
  unfold main. destruct (start threads (constructed config w)) as [[[]|e] p0] eqn:E; try done.
  intros [= <- <-]. split; [done|].
  assert (caller p0 = Outside) as Hc.
  { revert E. unfold start. cbn [own constructed new running_].
    destruct (open_sockets _) as [[[]|e] [s w']]; try done. by repeat case_match; intros [= <-]. }
  eapply reachable_step; [|by apply run_called].
  eapply reachable_step; [apply reachable_constructed|].
  apply (start_called threads true); [by left|]. exact E.
Qed.
End main.
End WebSocketMain.
